(* ===== verification/_CoqProject ===== *)
-Q . S2P
Prelude.v
Backend.v
Backends.v
BlockPool.v
KVManager.v
KVOwnership.v
KVPins.v
KVInvariant.v
KVTheorems.v
KVSequences.v
Arena.v
GraphSlots.v
MemPlan.v
Snapshots.v
Scheduler.v
Admission.v
StreamPipeline.v
ReasoningSplit.v
ReasoningTheorems.v
Drafts.v
Recycle.v
Gbnf.v
GbnfSim.v
GbnfStacks.v
GbnfRefine.v
GbnfParser.v
GbnfMatcher.v
GbnfLive.v
GbnfTable.v
Utf8Code.v
GbnfLanguage.v
GbnfTheorems.v
GbnfSyntax.v
GbnfMeaning.v
GbnfSpelling.v
GbnfRoundTrip.v
TokenText.v
PreTokenize.v
PreRegex.v
Bpe.v
BpeRefine.v
Spm.v
ByteLevel.v
ByteRoundTrip.v
Encoders.v
SpmRoundTrip.v
WordPiece.v
QTypes.v
TensorViews.v
GgufReader.v
TensorKinds.v
GgufParse.v
GgufSafety.v
GgufLoad.v
GgufRoundTrip.v
GgufAssign.v
Languages.v
JsonFsm.v
JsonLanguage.v
JsonExact.v
PreambleGate.v
AllowLists.v
JsonMask.v
JsonTheorems.v
JsonLimits.v
RegexNfa.v
RegexSyntax.v
RegexParse.v
RegexThompson.v
RegexSets.v
RegexTheorems.v
RegexPrint.v
RegexConstrain.v
RegexReply.v
GrammarConstrain.v
GrammarLists.v
GrammarReply.v
