(* ===== verification/Prelude.v ===== *)
(** * quench: verification of the inference engine's host-side logic

    quench is a C++/CUDA inference engine for large language models.  This
    library verifies the host-side logic that decides what the device does: who
    owns which KV block, what fits in memory, which request runs next, which
    text is sent to a client, which tokens are drafted ahead, which tokens a
    grammar lets the model produce, how text becomes tokens and back, and how a
    model file becomes tensors.

    ** Parts of the program and the files that model them

    Paths are relative to the repository root.  A C++ object is a [Record], its
    methods are functions from state to state and result, errors are values of
    the result.  [size_t], [uint64_t] and [uint32_t] arithmetic is written with
    its wrap-around ([u64], [u32] below).

    - Memory tiers.  [Backend]: the interface [Backend] of
      src/memory/backend.h with allocation phases and tagged regions (a
      [Class]); [Backends]: its two implementations.  [Arena]: bump arenas and
      the scratch stack; [GraphSlots]: leased launch-argument slots; both take
      regions from a backend.  [MemPlan]: the planner that splits a device
      budget ([src/memory/plan.cpp]).  [Snapshots]: the store of recurrent-state
      snapshots.
    - KV cache.  [BlockPool]: reference-counted blocks; [KVManager]: block
      tables, prefix cache, pins, LRU, eviction, rollback, sliding windows, the
      restore of a window snapshot and the load of the cache file
      ([src/memory/kv_cache_manager.cpp]).  [KVOwnership], [KVPins] and
      [KVInvariant] build the ownership invariant and its preservation;
      [KVTheorems] and [KVSequences] hold the consequences.
    - Scheduling.  [Scheduler]: one round of continuous batching
      ([src/runtime/scheduler.cpp]) over a heap of shared requests, against the
      class [KvAdmission] of what it needs from the cache; [Admission]: the
      instance over [KVManager] and [Snapshots], with the engine's prefix-reuse
      hooks, and the theorems about whole rounds.
    - Streaming.  [StreamPipeline]: UTF-8 stitching and stop-sequence handling
      of the server ([tools/quench-server/]); [ReasoningSplit]: the division of a
      reply into reasoning and content, streamed and complete;
      [ReasoningTheorems] relates the two.
    - Drafting.  [Drafts]: prompt-lookup and suffix drafters; [Recycle]: the
      token-recycling table ([src/runtime/]).
    - Grammars ([src/compute/gbnf_grammar.cpp], [gbnf_parser.cpp]).  [Gbnf]:
      rule tables, character classes, compile-time checks, and derivation;
      [GbnfParser]: the recursive-descent parser; [GbnfSim]: the simulator with
      its interned stacks and memo tables; [GbnfMatcher]: compilation and the
      byte-level matcher.  Their proofs: [GbnfStacks] (stacks as an abstract
      automaton), [GbnfRefine] (the interned simulator implements it),
      [GbnfLive] (live stacks of a word), [GbnfTable] (the parser stops, tables
      are well-formed), [Utf8Code], [GbnfLanguage] and [GbnfTheorems] (bytes,
      sessions, the matcher's guarantees), [GbnfSyntax], [GbnfMeaning],
      [GbnfSpelling] and [GbnfRoundTrip] (the notation's own meaning and
      spellings, and that parsing preserves it).
    - Tokenizer ([src/model/tokenizer.cpp]).  [TokenText]: UTF-8 lengths and the
      byte alphabet; [PreTokenize]: the scanners that cut text before BPE;
      [PreRegex]: the regexes they stand for, with a backtracking semantics;
      [Bpe] and [Spm]: the two merge loops over linked arrays and a priority
      queue (the class [PriorityQueue]), [BpeRefine]: what they compute;
      [ByteLevel]: the [Tokenizer] record, special pieces, [encode_gpt2] and
      [decode_gpt2]; [Encoders]: SentencePiece, Gemma 4 and WordPiece.
      [ByteRoundTrip], [SpmRoundTrip] and [WordPiece] hold the theorems.

    - Tensors and model files.  [QTypes]: element types, their size tables, and
      tensor descriptors ([src/core/]); [TensorViews]: strides, views and row
      sizes; [TensorKinds]: kinds by name.  [GgufReader]: the byte reader;
      [GgufParse]: metadata, tensor infos, split files and window checks
      ([src/model/gguf_parse.cpp], [gguf_loader.cpp]); [GgufAssign]: the slot each
      tensor goes to.  [GgufSafety], [GgufLoad] and [GgufRoundTrip] hold the
      theorems.  [outcome] of [QTypes] is what a C++ call does, undefined
      behaviour included.
    - JSON mode ([src/compute/json_constrain.cu], [constrain_common.h],
      [preamble_gate.h]).  [JsonFsm]: the character automaton; [JsonMask]: token
      categories, the mask with forced closing, the allow list, the constrainer;
      [PreambleGate]: the gate in front of it.  [Languages]: languages over bytes;
      [JsonLanguage]: the grammar of RFC 8259; [JsonExact]: the automaton takes
      derivatives; [JsonTheorems] and [JsonLimits] hold the theorems.
    - Regex mode ([src/compute/json_schema.cpp], [regex_constrain.cu],
      [src/runtime/constraint_manager.cpp]).  [RegexNfa]: the engine, a parser
      that builds a Thompson automaton as it reads, and its set simulation;
      [RegexConstrain]: the constrainer with its cached allow lists.
      [RegexSyntax]: expressions, their languages and a parser apart from
      automata; [RegexParse]: the engine's parser is that parser followed by
      [build], although it parses a repeated atom again for each copy;
      [RegexThompson]: the fragments accept their languages and have no dead
      ends; [RegexSets]: closures and steps; [RegexTheorems], [RegexPrint] and
      [RegexReply] hold the theorems.

    - Grammar mode ([src/compute/grammar_constrain.cu]).  [GrammarConstrain]: the
      constrainer over the GBNF matcher, with its mask cache and pooling;
      [AllowLists]: what the constrainers' allow lists share; [GrammarLists] and
      [GrammarReply] hold the theorems.

    ** What the theorems show

    - KV cache: for every sequence of public operations (the cache file being
      loaded only while no free block is pinned) the reference counts are
      the owners, no block leaks or is handed out twice, pinned blocks stay,
      admission estimates bound what allocation needs, and each operation's
      effect on the tables is stated exactly.
    - Memory tiers: spans are disjoint, in bounds and aligned, scopes restore,
      leases are exclusive, byte counts are conserved, an accepted plan fits.
    - Scheduling: a round loses, duplicates and invents no request; what it newly
      promotes is backed by blocks of the real allocator; on an idle engine the
      first request of the visit order leaves the queue.
    - Streaming: the streamed and the buffered response are the same text and
      read as many pieces; only
      whole characters are sent; reasoning and content are divided the same way
      however the reply is cut, and the division always ends.
    - Drafting: drafts are copies of the recurrences they claim to be, and
      recycled drafts follow recorded successors inside the vocabulary.
    - Grammars: every spelling of a grammar is parsed to a table for the
      grammar's language, and ill-formed grammars are refused with a true reason;
      left recursion is refused exactly; every operation terminates; the matcher
      accepts only text of the language and, within the depth and size guards,
      all of it, however the text is cut into tokens; the first-byte filter masks
      nothing legal.

    - Tokenizer: the scanners cut what their regexes cut, on text whose
      characters they class as Unicode does; the merge loops compute
      BPE whatever the queue does with ties; special pieces are cut out longest
      first; decoding undoes encoding; WordPiece is greedy longest match.

    - Tensors and model files: parsing ends within the mapped bytes on every
      input and reads back what was written; which tensor windows the bounds
      check accepts is stated exactly, with its overflow; descriptors of accepted
      tensors lie in one file; slices, reshapes and fused projections address
      the bytes they claim to.

    - Constrained replies.  While the preamble gate is on (a reasoning block, a
      header) the constrainers mask nothing: the theorems about masks and replies
      speak of the tokens after the one that turns the gate off.

    - JSON mode: the automaton accepts exactly the objects and arrays of a stated
      dialect that contains RFC 8259; every state can be completed; replies of
      permitted tokens ended by a permitted EOS are documents; when forced
      closing suffices, which tokens strings cannot contain, and how long the
      preamble can be.

    - Regex mode: a compiled pattern accepts exactly the language it denotes, and
      what does not compile denotes none; every expression has a spelling that
      compiles to it; with no empty class in the pattern, the mask permits exactly
      the tokens after which the pattern can still be matched; a reply ended by a permitted EOS matches, but for an
      EOS token whose text continues the pattern; logits wider than the
      vocabulary overrun the device list.

    - Grammar mode: a pooled constrainer masks nothing that leads on to a sentence
      within the guards, cached or not; what it permits stays in the grammar, and
      a reply that may be ended is a sentence, but for two stated exceptions.

    ** Fuel and bounds

    Loops whose measure is not structural take fuel.  Where the fuel is part of
    an operation, it is a number computed from the state that a lemma shows to
    be enough ([dfs_fuel], [parse_fuel] with [parse_total], the retry loops of
    [KVManager], three rounds per symbol for the merge loops, one
    round per byte for the loops of the GGUF reader); where it is a
    parameter (the simulator's [expand]), theorems are stated for all fuel, with a computed amount that always suffices
    ([expand_fuel] in [GbnfRefine], [matcher_total]).  Results are independent
    of how much more is given.  The regex parser takes the length of the pattern
    for its depth and its loops, the closure one round per state and entry
    ([parse_regex_total], [epsilon_closure_ok]); the emptiness search has the
    code's own bounds.

    ** What is not modelled

    - Device code: kernels, streams, graphs and the executor.  They have no
      host-side contract beyond the buffers they are given.
    - Memory contents and copies; pointers are addresses.
    - Mutexes: they serialise the operations; each operation is one step.
    - Logging, environment variables, text formatting, file and network I/O.
    - Vendored libraries and the C++ standard library beyond what the modelled
      code uses of it (ordered and hashed maps as [gmap], [std::sort] as a sort).
    - The engine's step loop, tokenizer files and NFC normalization, templates,
      JSON-schema constraints (but for their regex engine), the constraint manager
      beyond [prepare_regex] and [prepare_grammar], the server's HTTP layer, model configuration and the
      upload of weights. *)

From Corelib Require Import ssreflect_rw.
From stdpp Require Import prelude gmap fin_maps list strings.
Open Scope Z_scope.

(** ** Machine integers

    [size_t], [uint64_t] and [uint32_t] values are [Z] in range; every
    operation that can leave the range is followed by its wrap-around. *)

Definition two32 : Z := 2 ^ 32.
Definition two64 : Z := 2 ^ 64.
Definition u32 (z : Z) : Z := z mod two32.
Definition u64 (z : Z) : Z := z mod two64.

(** [static_cast<int>] and [static_cast<int64_t>] of an unsigned value. *)
Definition i32 (z : Z) : Z := (z + 2 ^ 31) mod two32 - 2 ^ 31.
Definition i64 (z : Z) : Z := (z + 2 ^ 63) mod two64 - 2 ^ 63.

Declare Scope quench_scope.
Delimit Scope quench_scope with quench.
Notation "a +64 b" := (u64 (a + b)) (at level 50, left associativity) : quench_scope.
Notation "a -64 b" := (u64 (a - b)) (at level 50, left associativity) : quench_scope.
Notation "a *64 b" := (u64 (a * b)) (at level 40, left associativity) : quench_scope.
Open Scope quench_scope.

(** [~x] on a [size_t]. *)
Definition not64 (z : Z) : Z := u64 (Z.lnot z).

(** C++ integer division truncates; the engine rounds block counts up with
    [(n + bs - 1) / bs]. *)
Definition ceil_blocks (n bs : Z) : Z := Z.quot (n + bs - 1) bs.

Lemma u64_range z : 0 <= u64 z < two64.
Proof. apply Z.mod_pos_bound. done. Qed.

Lemma u64_small z : 0 <= z < two64 -> u64 z = z.
Proof. apply Z.mod_small. Qed.

Lemma i32_small z : 0 <= z < 2 ^ 31 -> i32 z = z.
Proof. intros Hz. unfold i32, two32. rewrite Z.mod_small by lia. lia. Qed.

Lemma i64_small z : 0 <= z < 2 ^ 63 -> i64 z = z.
Proof. intros Hz. unfold i64, two64. rewrite Z.mod_small by lia. lia. Qed.

(** A chain of wrapped additions or multiplications wraps once. *)
Lemma u64_add_l a b : u64 (u64 a + b) = u64 (a + b).
Proof. unfold u64. apply Zplus_mod_idemp_l. Qed.
Lemma u64_add_r a b : u64 (a + u64 b) = u64 (a + b).
Proof. unfold u64. apply Zplus_mod_idemp_r. Qed.
Lemma u64_mul_l a b : u64 (u64 a * b) = u64 (a * b).
Proof. unfold u64. apply Zmult_mod_idemp_l. Qed.
Lemma u64_mul_r a b : u64 (a * u64 b) = u64 (a * b).
Proof. unfold u64. apply Zmult_mod_idemp_r. Qed.

(** Flatten nested wraps, innermost first. *)
Ltac u64_flat :=
  repeat match goal with
  | |- context [u64 (u64 ?a + ?b)] =>
      lazymatch a with context [u64 _] => fail | _ => rewrite (u64_add_l a b) end
  | |- context [u64 (?a + u64 ?b)] =>
      lazymatch b with context [u64 _] => fail | _ => rewrite (u64_add_r a b) end
  | |- context [u64 (u64 ?a * ?b)] =>
      lazymatch a with context [u64 _] => fail | _ => rewrite (u64_mul_l a b) end
  | |- context [u64 (?a * u64 ?b)] =>
      lazymatch b with context [u64 _] => fail | _ => rewrite (u64_mul_r a b) end
  end.

Lemma u32_range z : 0 <= u32 z < two32.
Proof. apply Z.mod_pos_bound. done. Qed.

Lemma ceil_blocks_spec n bs :
  0 <= n -> 0 < bs ->
  n <= ceil_blocks n bs * bs < n + bs.
Proof.
  intros Hn Hbs. unfold ceil_blocks. rewrite Z.quot_div_nonneg by lia.
  pose proof (Z.div_mod (n + bs - 1) bs ltac:(lia)).
  pose proof (Z.mod_pos_bound (n + bs - 1) bs ltac:(lia)). nia.
Qed.

Lemma ceil_blocks_nonneg n bs : 0 <= n -> 0 < bs -> 0 <= ceil_blocks n bs.
Proof. intros. pose proof (ceil_blocks_spec n bs). nia. Qed.

(** ** Powers of two and alignment *)

(** [(v + a - 1) & ~(a - 1)] on [size_t]. *)
Definition align_up (v a : Z) : Z := Z.land (v +64 a -64 1) (not64 (a -64 1)).

(** [(a & (a - 1)) != 0]: false exactly on zero and the powers of two. *)
Definition not_pow2 (a : Z) : bool := negb (Z.land a (a -64 1) =? 0).

Lemma not_pow2_spec a :
  0 < a < two64 -> not_pow2 a = false -> exists k, 0 <= k < 64 /\ a = 2 ^ k.
Proof.
  intros Ha Hn. exists (Z.log2 a). pose proof (Z.log2_spec a ltac:(lia)) as Hl.
  assert (0 <= Z.log2 a) as H0 by apply Z.log2_nonneg.
  assert (Z.log2 a < 64) by (apply Z.log2_lt_pow2; unfold two64 in *; lia).
  split; [lia|]. destruct (decide (a = 2 ^ Z.log2 a)) as [|Hne]; [done|exfalso].
  unfold not_pow2 in Hn. apply negb_false_iff, Z.eqb_eq in Hn.
  rewrite u64_small in Hn by lia.
  assert (Z.log2 (a - 1) = Z.log2 a) as El by (apply Z.log2_unique; lia).
  assert (Z.testbit (Z.land a (a - 1)) (Z.log2 a) = true) as Hb.
  { rewrite Z.land_spec, Z.bit_log2 by lia. rw -El. rewrite Z.bit_log2 by lia. done. }
  rw Hn Z.bits_0 in Hb. done.
Qed.

(** On a power of two, and without wrap-around, [align_up] is the next multiple. *)
Lemma align_up_pow2 v k :
  0 <= k < 64 -> 0 <= v -> v + 2 ^ k <= two64 ->
  align_up v (2 ^ k) = (v + 2 ^ k - 1) / 2 ^ k * 2 ^ k.
Proof.
  intros Hk Hv Hw. assert (0 < 2 ^ k) as Hp by (apply Z.pow_pos_nonneg; lia).
  assert (u64 (v + 2 ^ k - 1) = v + 2 ^ k - 1) as E1 by (apply u64_small; lia).
  unfold align_up. assert (u64 (v + 2 ^ k) -64 1 = v + 2 ^ k - 1) as ->.
  { rw -E1. unfold u64, two64. rewrite Zminus_mod_idemp_l. done. }
  assert (2 ^ k <= 2 ^ 63) by (apply Z.pow_le_mono_r; lia).
  rewrite (u64_small (2 ^ k - 1)) by (unfold two64 in *; lia).
  set (x := v + 2 ^ k - 1) in *. assert (0 <= x < two64) as Hx by lia.
  unfold not64, u64, two64. rewrite <- (Z.land_ones (Z.lnot _) 64) by lia.
  rewrite (Z.land_comm (Z.lnot _)), Z.land_assoc, Z.land_ones by lia.
  rewrite (Z.mod_small x) by (unfold two64 in *; lia).
  replace (2 ^ k - 1) with (Z.ones k) by (rewrite Z.ones_equiv; lia).
  rewrite <- Z.ldiff_land, Z.ldiff_ones_r, Z.shiftl_mul_pow2, Z.shiftr_div_pow2 by lia. done.
Qed.

Lemma align_up_bounds v k :
  0 <= k < 64 -> 0 <= v -> v + 2 ^ k <= two64 ->
  v <= align_up v (2 ^ k) < v + 2 ^ k /\ align_up v (2 ^ k) mod 2 ^ k = 0.
Proof.
  intros Hk Hv Hw. assert (0 < 2 ^ k) as Hp by (apply Z.pow_pos_nonneg; lia).
  rewrite align_up_pow2 by done. split; [|by apply Z.mod_mul; lia].
  pose proof (Z.div_mod (v + 2 ^ k - 1) (2 ^ k) ltac:(lia)).
  pose proof (Z.mod_pos_bound (v + 2 ^ k - 1) (2 ^ k) Hp). nia.
Qed.

(** ** Boolean tests of the source and their propositions *)

Ltac case_zbool :=
  match goal with
  | |- context [Z.ltb ?a ?b] => destruct (Z.ltb_spec a b)
  | |- context [Z.leb ?a ?b] => destruct (Z.leb_spec a b)
  | |- context [Z.eqb ?a ?b] => destruct (Z.eqb_spec a b)
  | H : context [Z.ltb ?a ?b] |- _ => destruct (Z.ltb_spec a b)
  | H : context [Z.leb ?a ?b] |- _ => destruct (Z.leb_spec a b)
  | H : context [Z.eqb ?a ?b] |- _ => destruct (Z.eqb_spec a b)
  end.

(** Split every conjunction, existential and equality of pairs. *)
Ltac crush_eq := repeat (destruct_and? || simplify_eq/=).

(** Case analysis on every [match] and [if] left in the goal or a hypothesis. *)
Ltac case_all := repeat (case_match; simplify_eq/=).

Create HintDb quench.

(** ** Vectors

    A [std::vector] is a list in index order: [back()] is [last], [pop_back()]
    drops the last element, [push_back(x)] appends.  A [std::list] erase through
    an iterator is [list_erase], the iterator being identified with the element
    it points to (every such list is proved duplicate-free). *)

Definition pop_back {A} (l : list A) : list A := take (length l - 1) l.

Definition list_erase (x : Z) (l : list Z) : list Z := filter (fun y => y ≠ x) l.

(** [v.resize(n)] for a shrinking resize. *)
Definition vec_shrink {A} (n : nat) (l : list A) : list A := take n l.

(** [v[i] = x] with a [Z] index that the code has already checked. *)
Definition vset {A} (i : Z) (x : A) (l : list A) : list A := <[Z.to_nat i := x]> l.

Definition vget {A} (i : Z) (l : list A) : option A :=
  if i <? 0 then None else l !! Z.to_nat i.

Lemma take_drop_lookup {A} (h : list A) m a i :
  (i < m)%nat -> take m (drop a h) !! i = h !! (a + i)%nat.
Proof. intros. rewrite lookup_take_lt, lookup_drop by done. done. Qed.

Section vectors.
Context {A : Type}.
Implicit Types l : list A.

Lemma pop_back_snoc l x : pop_back (l ++ [x]) = l.
Proof. unfold pop_back. rw length_app /=. rewrite take_app_le by lia. apply take_ge. lia. Qed.

Lemma last_pop_back l x : last l = Some x -> l = pop_back l ++ [x].
Proof. intros [l' ->]%last_Some. by rw pop_back_snoc. Qed.

Lemma last_None_nil l : last l = None -> l = [].
Proof. destruct l as [|x l] using rev_ind; [done|]. by rw last_snoc. Qed.

Lemma length_pop_back l : length (pop_back l) = (length l - 1)%nat.
Proof. unfold pop_back. rw length_take. lia. Qed.
End vectors.

(** ** Occurrence counts *)

Definition occ (x : Z) (l : list Z) : nat := length (filter (fun y => y = x) l).

Lemma occ_nil x : occ x [] = 0%nat.
Proof. done. Qed.

Lemma occ_cons x y l : occ x (y :: l) = ((if decide (y = x) then 1 else 0) + occ x l)%nat.
Proof. unfold occ. rw filter_cons. by case_decide. Qed.

Lemma occ_app x l k : occ x (l ++ k) = (occ x l + occ x k)%nat.
Proof. unfold occ. by rw filter_app length_app. Qed.

Lemma occ_pos x l : (0 < occ x l)%nat <-> x ∈ l.
Proof.
  induction l as [|y l IH]; [rw occ_nil elem_of_nil; lia|].
  rw occ_cons elem_of_cons -IH. case_decide as E; split; intros H; try lia; auto.
Qed.

Lemma occ_zero x l : occ x l = 0%nat <-> x ∉ l.
Proof. rw -occ_pos. lia. Qed.

#[export] Instance occ_perm_proper x : Proper (Permutation ==> eq) (occ x).
Proof. intros l k Hlk. unfold occ. by rw Hlk. Qed.

Lemma NoDup_occ l : NoDup l -> forall x, (occ x l <= 1)%nat.
Proof.
  induction 1 as [|y l Hy _ IH]; intros x; [rw occ_nil; lia|].
  rw occ_cons. case_decide as E; [|specialize (IH x); lia]. subst.
  apply occ_zero in Hy. lia.
Qed.

Lemma elem_of_list_erase x y l : x ∈ list_erase y l <-> x ≠ y /\ x ∈ l.
Proof. unfold list_erase. by rw list_elem_of_filter. Qed.

Lemma NoDup_list_erase y l : NoDup l -> NoDup (list_erase y l).
Proof. apply NoDup_filter. Qed.

Lemma list_erase_not_in y l : y ∉ l -> list_erase y l = l.
Proof.
  unfold list_erase. induction l as [|z l IH]; [done|]. rw not_elem_of_cons. intros [Hz Hy].
  rw filter_cons. rewrite IH by done. rewrite decide_True by congruence. done.
Qed.

Lemma list_erase_perm y l : NoDup l -> y ∈ l -> l ≡ₚ y :: list_erase y l.
Proof.
  intros Hl Hy. apply NoDup_Permutation; [done| |].
  - apply NoDup_cons. split; [rw elem_of_list_erase; tauto|by apply NoDup_list_erase].
  - intros x. rw elem_of_cons elem_of_list_erase. destruct (decide (x = y)); naive_solver.
Qed.

(** Length of a filtered list after erasing one of its elements. *)
Lemma length_filter_erase (P : Z -> Prop) `{!forall x, Decision (P x)} y l :
  NoDup l -> y ∈ l ->
  length (filter P l) =
    ((if decide (P y) then 1 else 0) + length (filter P (list_erase y l)))%nat.
Proof.
  intros Hl Hy. induction Hl as [|z l Hz Hl IH]; [by apply elem_of_nil in Hy|].
  apply elem_of_cons in Hy as [->|Hy].
  - assert (list_erase z (z :: l) = l) as ->.
    { unfold list_erase. rw filter_cons. rewrite decide_False by auto.
      by apply list_erase_not_in. }
    rw filter_cons. by case_decide.
  - assert (list_erase y (z :: l) = z :: list_erase y l) as ->.
    { unfold list_erase. rw filter_cons. rewrite decide_True; [done|]. by intros ->. }
    rw !filter_cons. specialize (IH Hy). destruct (decide (P z)), (decide (P y)); simpl; lia.
Qed.

(** ** Sums over finite maps *)

Section msum.
Context {V : Type}.
Implicit Types (f : V -> nat) (m : gmap Z V).

Definition msum (f : V -> nat) (m : gmap Z V) : nat :=
  sum_list_with (fun kv => f (snd kv)) (map_to_list m).

Lemma msum_empty f : msum f ∅ = 0%nat.
Proof. unfold msum. by rw map_to_list_empty. Qed.

Lemma msum_lookup f m k v : m !! k = Some v -> msum f m = (f v + msum f (delete k m))%nat.
Proof.
  intros Hk. unfold msum. by rw -(map_to_list_delete m k v Hk) /=.
Qed.

Lemma msum_insert f m k v : msum f (<[k := v]> m) = (f v + msum f (delete k m))%nat.
Proof. rw (msum_lookup f _ k v) ?lookup_insert_eq // delete_insert_eq //. Qed.

Lemma msum_delete_None f m k : m !! k = None -> msum f (delete k m) = msum f m.
Proof. intros. by rw delete_id. Qed.

Lemma msum_le f m k v : m !! k = Some v -> (f v <= msum f m)%nat.
Proof. intros Hk. rw (msum_lookup f m k v Hk). lia. Qed.

Lemma msum_pos f m : (0 < msum f m)%nat -> exists k v, m !! k = Some v /\ (0 < f v)%nat.
Proof.
  induction m as [|k v m Hk IH] using map_ind; [rw msum_empty; lia|].
  rw msum_insert delete_id // => Hpos.
  destruct (decide (0 < f v)%nat) as [|Hf]; [exists k, v; by rw lookup_insert_eq|].
  destruct IH as (k' & v' & Hk' & Hv'); [lia|].
  exists k', v'. rw lookup_insert_ne //. by intros ->; rw Hk in Hk'.
Qed.
End msum.

(** ** Text *)

(** ASCII text as bytes. *)
Definition src_of (s : string) : list Z := (fun a => Z.of_nat (Ascii.nat_of_ascii a)) <$> String.list_ascii_of_string s.

Definition byte (b : Z) : Prop := 0 <= b < 256.

Definition bytes_b (bs : list Z) : bool := forallb (fun b => (0 <=? b) && (b <? 256)) bs.

Lemma bytes_b_ok bs : bytes_b bs = true -> Forall byte bs.
Proof.
  intros H. pose proof (proj1 (forallb_forall _ _) H) as H0. apply Forall_forall. intros b Hb%list_elem_of_In%H0.
  unfold byte. lia.
Qed.
