(* ===== verification/Backend.v ===== *)
(** * Physical acquisition: regions, the phase guard and the backends

    Models [src/memory/backend.h], [src/memory/backend.cpp] and the host double
    [src/memory/fake_backend.cpp].  A [Backend] is an interface ([Class Backend]):
    the tier allocators are written against it, and [FakeBackend] and the CUDA
    backend are its implementations.  [cudaMalloc] and [malloc] are not quench's
    code; they are an oracle argument giving the pointer of each call. *)

From Corelib Require Import ssreflect_rw.
From stdpp Require Import prelude gmap fin_maps list strings.
From S2P Require Import Prelude.
Open Scope Z_scope.
Open Scope quench_scope.

Inductive RegionTag :=
  | ModelResident | EnginePersistent | KvBlockPool | SwaBlockPool | ResidualRing
  | SsmState | RecurrentSnapshots | ForwardScratch | HostStaging | Other.

Inductive MemError := MemOk | OutOfMemory | BudgetExceeded | NotGrowable | InvalidArgument.

Inductive AllocPhase := Loading | Planning | Serving.

#[export] Instance RegionTag_eq_dec : EqDecision RegionTag.
Proof. solve_decision. Defined.
#[export] Instance MemError_eq_dec : EqDecision MemError.
Proof. solve_decision. Defined.
#[export] Instance AllocPhase_eq_dec : EqDecision AllocPhase.
Proof. solve_decision. Defined.

(** ** The phase guard *)

Definition kNumTags : nat := 10.

Definition tag_index (t : RegionTag) : nat :=
  match t with
  | ModelResident => 0 | EnginePersistent => 1 | KvBlockPool => 2 | SwaBlockPool => 3
  | ResidualRing => 4 | SsmState => 5 | RecurrentSnapshots => 6 | ForwardScratch => 7
  | HostStaging => 8 | Other => 9
  end.

(** The process-wide atomics [g_phase], [g_steady_allocs] and [g_steady_logged]. *)
Record PhaseState := mkPhase {
  g_phase : AllocPhase;
  g_steady_allocs : list Z;
  g_steady_logged : list bool
}.

Definition phase_init : PhaseState :=
  mkPhase Loading (replicate kNumTags 0) (replicate kNumTags false).

Definition set_alloc_phase (p : AllocPhase) (g : PhaseState) : PhaseState :=
  mkPhase p (g_steady_allocs g) (g_steady_logged g).

(** Release-build behaviour: count, and log once per tag. *)
Definition note_serving_allocation (tag : RegionTag) (g : PhaseState) : PhaseState :=
  match g_phase g with
  | Serving =>
      let i := tag_index tag in
      mkPhase Serving (alter (fun c => c +64 1) i (g_steady_allocs g))
              (<[i := true]> (g_steady_logged g))
  | _ => g
  end.

Definition steady_state_allocations (g : PhaseState) : Z :=
  foldl (fun s c => s +64 c) 0 (g_steady_allocs g).

Definition steady_state_allocations_tag (tag : RegionTag) (g : PhaseState) : Z :=
  default 0 (g_steady_allocs g !! tag_index tag).

Definition reset_steady_state_allocations (g : PhaseState) : PhaseState :=
  mkPhase (g_phase g) (replicate kNumTags 0) (replicate kNumTags false).

(** [AllocPhaseScope]: run [body] in [phase], then restore the previous phase. *)
Definition alloc_phase_scope (phase : AllocPhase) (body : PhaseState -> PhaseState)
    (g : PhaseState) : PhaseState :=
  let prev := g_phase g in
  set_alloc_phase prev (body (set_alloc_phase phase g)).

(** ** Regions *)

Record Region := mkRegion {
  rbase : Z; rcommitted : Z; rreserved : Z; rtag : RegionTag
}.

Definition empty_region : Region := mkRegion 0 0 0 Other.
Definition region_valid (r : Region) : bool := negb (rbase r =? 0).

(** ** The backend interface *)

(** The virtual methods; the phase is the process-wide one a journal may read. *)
Class Backend (B : Type) := {
  do_acquire : AllocPhase -> B -> Z -> Z -> RegionTag -> B * (MemError + Z * Z);
  do_acquire_growable : AllocPhase -> B -> Z -> Z -> Z -> RegionTag -> B * (MemError + Z);
  do_release : AllocPhase -> B -> Region -> B;
  backend_commit : AllocPhase -> B -> Region -> Z -> B * MemError * Region
}.

Section Backend_ops.
Context {B : Type} `{Backend B}.

Definition backend_acquire (g : PhaseState) (b : B) (bytes alignment : Z) (tag : RegionTag)
    : PhaseState * B * (MemError + Region) :=
  if (bytes =? 0) || (alignment =? 0) || not_pow2 alignment then
    (g, b, inl InvalidArgument)
  else
    let g := note_serving_allocation tag g in
    match do_acquire (g_phase g) b bytes alignment tag with
    | (b, inl e) => (g, b, inl e)
    | (b, inr (base, reserved)) =>
        (g, b, inr (mkRegion base bytes (if reserved =? 0 then bytes else reserved) tag))
    end.

Definition backend_acquire_growable (g : PhaseState) (b : B)
    (reserve_bytes initial_commit alignment : Z) (tag : RegionTag)
    : PhaseState * B * (MemError + Region) :=
  if (reserve_bytes =? 0) || (reserve_bytes <? initial_commit) || (alignment =? 0)
     || not_pow2 alignment then
    (g, b, inl InvalidArgument)
  else
    let g := note_serving_allocation tag g in
    match do_acquire_growable (g_phase g) b reserve_bytes initial_commit alignment tag with
    | (b, inl e) => (g, b, inl e)
    | (b, inr base) => (g, b, inr (mkRegion base initial_commit reserve_bytes tag))
    end.

(** [Region::reset]: idempotent, returns the memory to its backend. *)
Definition region_reset (g : PhaseState) (b : B) (r : Region) : B * Region :=
  (if region_valid r then do_release (g_phase g) b r else b, empty_region).
End Backend_ops.

(** What the tier allocators rely on: a successful acquisition is a non-null,
    aligned range inside the address space. *)
Class BackendOk (B : Type) `{Backend B} := {
  do_acquire_ok : forall ph b bytes alignment tag b' base reserved,
    0 < bytes -> 0 < alignment -> not_pow2 alignment = false -> bytes + alignment < two64 ->
    do_acquire ph b bytes alignment tag = (b', inr (base, reserved)) ->
    0 < base /\ base + bytes <= two64 /\ base mod alignment = 0
}.

Definition region_ok (r : Region) : Prop :=
  rbase r = 0 \/ (0 < rbase r /\ 0 < rcommitted r /\ rbase r + rcommitted r <= two64).

Lemma backend_acquire_region `{BackendOk B} g (b : B) bytes alignment tag g' b' r :
  0 <= bytes -> 0 <= alignment -> bytes + alignment < two64 ->
  backend_acquire g b bytes alignment tag = (g', b', inr r) ->
  region_valid r = true /\ rcommitted r = bytes /\ region_ok r /\ rbase r mod alignment = 0.
Proof.
  intros Hb Ha Hw. unfold backend_acquire. destruct (_ || not_pow2 alignment) eqn:E0; [done|].
  rewrite !orb_false_iff in E0. destruct E0 as [[E0 E1] E2].
  destruct (do_acquire _ _ _ _ _) as [b1 [e|[base res]]] eqn:E; [done|].
  intros [= <- <- <-]. simpl.
  apply do_acquire_ok in E as (Hbase & Hend & Halign); [|lia|lia|done|done].
  split; [unfold region_valid; simpl; lia|]. repeat split; auto. right. simpl. lia.
Qed.

Lemma backend_acquire_err `{Backend B} g (b : B) bytes alignment tag g' b' e :
  (bytes =? 0) || (alignment =? 0) || not_pow2 alignment = true ->
  backend_acquire g b bytes alignment tag = (g', b', inl e) ->
  g' = g /\ b' = b /\ e = InvalidArgument.
Proof. unfold backend_acquire. intros ->. by intros [= <- <- <-]. Qed.
