(* ===== verification/Backends.v ===== *)
(** * The two backends

    Models [CudaMallocBackend] of [src/memory/backend.cpp] and [FakeBackend] of
    [src/memory/fake_backend.cpp] as instances of the [Backend] interface.  The
    device and host allocators they call are parameters: [malloc i n] is the
    address the [i]-th call returns for [n] bytes, 0 for failure.  Both instances
    are shown to satisfy [BackendOk], and the fake backend to conserve bytes: its
    journal, its statistics and its live regions always agree and stay within
    the capacity.  Memory contents (the 0xDE poison) are not modelled. *)

From Corelib Require Import ssreflect_rw.
From stdpp Require Import prelude gmap fin_maps list strings.
From S2P Require Import Prelude Backend.
Open Scope Z_scope.
Open Scope quench_scope.

Record BackendStats := mkBStats {
  live_bytes : Z; peak_bytes : Z; reserved_bytes : Z;
  acquire_count : Z; release_count : Z; capacity : Z
}.

Definition stats0 (cap : Z) : BackendStats := mkBStats 0 0 0 0 0 cap.

(** [live += c; reserved += r; peak = max(peak, live); acquire_count++]. *)
Definition stats_acquire (c r : Z) (s : BackendStats) : BackendStats :=
  let live := live_bytes s +64 c in
  mkBStats live (Z.max (peak_bytes s) live) (reserved_bytes s +64 r)
    (acquire_count s +64 1) (release_count s) (capacity s).

(** [live -= min(live, c); reserved -= min(reserved, r); release_count++]. *)
Definition stats_release (c r : Z) (s : BackendStats) : BackendStats :=
  mkBStats (live_bytes s - Z.min (live_bytes s) c) (peak_bytes s)
    (reserved_bytes s - Z.min (reserved_bytes s) r) (acquire_count s)
    (release_count s +64 1) (capacity s).

(** What the source relies on of [malloc] and [cudaMalloc]: a non-null block
    lies inside the address space. *)
Definition malloc_sound (malloc : Z -> Z -> Z) : Prop :=
  forall i n, 0 <= n -> malloc i n = 0 \/ (0 < malloc i n /\ malloc i n + n <= two64).

(** ** CudaMallocBackend *)

Module CudaMalloc.
Section cuda.
(** [vram_budget_bytes()] and [cudaMalloc], whose blocks are 256-byte aligned. *)
Context (vram_budget_bytes : Z) (cudaMalloc : Z -> Z -> Z).

Record CudaMallocBackend := mkCuda { stats_ : BackendStats; calls_ : Z }.

Definition do_acquire (ph : AllocPhase) (b : CudaMallocBackend) (bytes alignment : Z)
    (tag : RegionTag) : CudaMallocBackend * (MemError + Z * Z) :=
  if 256 <? alignment then (b, inl InvalidArgument)
  else
    let cap := vram_budget_bytes in
    if (0 <? cap) && (cap <? live_bytes (stats_ b) +64 bytes) then (b, inl BudgetExceeded)
    else
      let p := cudaMalloc (calls_ b) bytes in
      if p =? 0 then (mkCuda (stats_ b) (calls_ b + 1), inl OutOfMemory)
      else (mkCuda (stats_acquire bytes bytes (stats_ b)) (calls_ b + 1), inr (p, bytes)).

Definition do_release (ph : AllocPhase) (b : CudaMallocBackend) (r : Region) : CudaMallocBackend :=
  mkCuda (stats_release (rcommitted r) (rreserved r) (stats_ b)) (calls_ b).

#[export] Instance cuda_malloc_backend : Backend CudaMallocBackend := {
  do_acquire := do_acquire;
  do_acquire_growable := fun _ b _ _ _ _ => (b, inl NotGrowable);
  do_release := do_release;
  backend_commit := fun _ b r _ => (b, NotGrowable, r)
}.

#[export] Instance cuda_malloc_backend_ok :
  malloc_sound cudaMalloc -> (forall i n, cudaMalloc i n mod 256 = 0) ->
  BackendOk CudaMallocBackend.
Proof.
  intros Hs H256. constructor. intros ph b bytes al tag b' base res Hb Ha Hp Hw. simpl.
  unfold do_acquire. destruct (Z.ltb_spec 256 al); [done|]. case_match; [done|].
  destruct (Z.eqb_spec (cudaMalloc (calls_ b) bytes) 0) as [|Hne]; [done|]. intros [= <- <- <-].
  destruct (Hs (calls_ b) bytes) as [?|[? ?]]; [lia|done|]. split_and!; try done.
  destruct (not_pow2_spec al) as (k & Hk & ->); [lia|done|].
  assert (k <= 8) by (apply (Z.pow_le_mono_r_iff 2); lia).
  pose proof (H256 (calls_ b) bytes) as Hm.
  apply Z.mod_divide in Hm as [q Hq]; [|lia]. apply Z.mod_divide; [lia|].
  exists (q * 2 ^ (8 - k)). rw Hq -Z.mul_assoc -Z.pow_add_r; try lia.
  f_equal. change 256 with (2 ^ 8). f_equal. lia.
Qed.
End cuda.
End CudaMalloc.

(** ** FakeBackend *)

Inductive Op := Acquire | Release | Commit | Decommit.

Record AllocEvent := mkEvent {
  ev_seq : Z; ev_op : Op; ev_phase : AllocPhase; ev_tag : RegionTag; ev_bytes : Z; ev_base : Z
}.

Record Live := mkLive {
  l_raw : Z; l_base : Z; l_committed : Z; l_reserved : Z; l_tag : RegionTag
}.

Record FakeBackend := mkFake {
  f_capacity : Z;
  f_growable : bool;
  f_stats : BackendStats;
  f_live : list Live;
  f_quarantine : list Live;
  f_journal : list AllocEvent;
  f_seq : Z;
  f_acquire_ordinal : Z;
  f_fail_at : Z;
  f_fail_err : MemError
}.

Definition kQuarantineDepth : nat := 16.

Definition fake_backend_new (capacity_bytes : Z) (growable : bool) : FakeBackend :=
  mkFake capacity_bytes growable (stats0 capacity_bytes) [] [] [] 0 0 0 OutOfMemory.

Definition fail_acquisition (nth : Z) (err : MemError) (b : FakeBackend) : FakeBackend :=
  mkFake (f_capacity b) (f_growable b) (f_stats b) (f_live b) (f_quarantine b) (f_journal b)
    (f_seq b) (f_acquire_ordinal b) (if nth =? 0 then 0 else f_acquire_ordinal b +64 nth) err.

(** [record_]: append to the journal. *)
Definition record_ (op : Op) (ph : AllocPhase) (tag : RegionTag) (bytes base : Z)
    (b : FakeBackend) : FakeBackend :=
  mkFake (f_capacity b) (f_growable b) (f_stats b) (f_live b) (f_quarantine b)
    (f_journal b ++ [mkEvent (f_seq b +64 1) op ph tag bytes base]) (f_seq b +64 1)
    (f_acquire_ordinal b) (f_fail_at b) (f_fail_err b).

Definition set_live (st : BackendStats) (live quar : list Live) (b : FakeBackend) : FakeBackend :=
  mkFake (f_capacity b) (f_growable b) st live quar (f_journal b) (f_seq b)
    (f_acquire_ordinal b) (f_fail_at b) (f_fail_err b).

(** The injected failure: bump the ordinal, and fail once it is reached. *)
Definition tick_acquire (b : FakeBackend) : FakeBackend * bool :=
  let ord := f_acquire_ordinal b +64 1 in
  let hit := negb (f_fail_at b =? 0) && (f_fail_at b <=? ord) in
  (mkFake (f_capacity b) (f_growable b) (f_stats b) (f_live b) (f_quarantine b) (f_journal b)
     (f_seq b) ord (if hit then 0 else f_fail_at b) (f_fail_err b), hit).

(** [journal_live_bytes]: the signed sum of the journal, clamped at zero. *)
Definition event_delta (e : AllocEvent) : Z :=
  match ev_op e with Acquire | Commit => ev_bytes e | Release | Decommit => - ev_bytes e end.
Definition journal_net (j : list AllocEvent) : Z := foldl (fun s e => s + event_delta e) 0 j.
Definition journal_live_bytes (b : FakeBackend) : Z :=
  let live := journal_net (f_journal b) in if 0 <? live then live else 0.

Definition live_regions (b : FakeBackend) : Z := Z.of_nat (length (f_live b)).

(** [while (quarantine_.size() > kQuarantineDepth)] drop the oldest. *)
Definition trim_quarantine (q : list Live) : list Live := drop (length q - kQuarantineDepth) q.

(** [std::find_if] on the base address: the prefix, the entry and the rest. *)
Definition find_live (base : Z) (l : list Live) : option (nat * Live) :=
  list_find (fun e => l_base e = base) l.

Section fake.
Context (malloc : Z -> Z -> Z).

(** The common tail of both acquisitions: [size] bytes asked of [malloc]. *)
Definition fake_take (ph : AllocPhase) (b : FakeBackend) (commit_bytes reserve_bytes alignment : Z)
    (tag : RegionTag) : FakeBackend * (MemError + Z) :=
  if negb (f_capacity b =? 0) && (f_capacity b <? live_bytes (f_stats b) +64 commit_bytes) then
    (b, inl OutOfMemory)
  else
    let raw := malloc (f_acquire_ordinal b) (reserve_bytes +64 alignment) in
    if raw =? 0 then (b, inl OutOfMemory)
    else
      let base := align_up raw alignment in
      (record_ Acquire ph tag commit_bytes base
         (set_live (stats_acquire commit_bytes reserve_bytes (f_stats b))
            (f_live b ++ [mkLive raw base commit_bytes reserve_bytes tag]) (f_quarantine b) b),
       inr base).

Definition fake_do_acquire (ph : AllocPhase) (b : FakeBackend) (bytes alignment : Z)
    (tag : RegionTag) : FakeBackend * (MemError + Z * Z) :=
  let '(b, hit) := tick_acquire b in
  if hit : bool then (b, inl (f_fail_err b))
  else match fake_take ph b bytes bytes alignment tag with
       | (b, inl e) => (b, inl e)
       | (b, inr base) => (b, inr (base, bytes))
       end.

Definition fake_do_acquire_growable (ph : AllocPhase) (b : FakeBackend)
    (reserve_bytes initial_commit alignment : Z) (tag : RegionTag) : FakeBackend * (MemError + Z) :=
  if negb (f_growable b) then (b, inl NotGrowable)
  else
    let '(b, hit) := tick_acquire b in
    if hit : bool then (b, inl (f_fail_err b))
    else fake_take ph b initial_commit reserve_bytes alignment tag.

Definition with_committed (c : Z) (l : Live) : Live :=
  mkLive (l_raw l) (l_base l) c (l_reserved l) (l_tag l).

Definition fake_commit (ph : AllocPhase) (b : FakeBackend) (r : Region) (new_committed : Z)
    : FakeBackend * MemError * Region :=
  if negb (f_growable b) then (b, NotGrowable, r)
  else if negb (region_valid r) then (b, InvalidArgument, r)
  else if rreserved r <? new_committed then (b, InvalidArgument, r)
  else
    match find_live (rbase r) (f_live b) with
    | None => (b, InvalidArgument, r)
    | Some (i, it) =>
        let old := l_committed it in
        let st := f_stats b in
        let finish (b : FakeBackend) :=
          (set_live (f_stats b) (<[i := with_committed new_committed it]> (f_live b))
             (f_quarantine b) b, MemOk,
           mkRegion (rbase r) new_committed (rreserved r) (rtag r)) in
        if old <? new_committed then
          let grow := new_committed - old in
          if negb (f_capacity b =? 0) && (f_capacity b <? live_bytes st +64 grow) then
            (b, OutOfMemory, r)
          else
            let live := live_bytes st +64 grow in
            finish (record_ Commit ph (l_tag it) grow (l_base it)
              (set_live (mkBStats live (Z.max (peak_bytes st) live) (reserved_bytes st)
                           (acquire_count st) (release_count st) (capacity st))
                 (f_live b) (f_quarantine b) b))
        else if new_committed <? old then
          let shrink := old - new_committed in
          finish (record_ Decommit ph (l_tag it) shrink (l_base it)
            (set_live (mkBStats (live_bytes st - Z.min (live_bytes st) shrink) (peak_bytes st)
                         (reserved_bytes st) (acquire_count st) (release_count st)
                         (capacity st))
               (f_live b) (f_quarantine b) b))
        else finish b
    end.

Definition fake_do_release (ph : AllocPhase) (b : FakeBackend) (r : Region) : FakeBackend :=
  match find_live (rbase r) (f_live b) with
  | None => b
  | Some (i, it) =>
      record_ Release ph (rtag r) (rcommitted r) (rbase r)
        (set_live (stats_release (rcommitted r) (rreserved r) (f_stats b))
           (delete i (f_live b)) (trim_quarantine (f_quarantine b ++ [it])) b)
  end.

#[export] Instance fake_backend : Backend FakeBackend := {
  do_acquire := fake_do_acquire;
  do_acquire_growable := fake_do_acquire_growable;
  do_release := fake_do_release;
  backend_commit := fake_commit
}.
End fake.

#[export] Instance fake_backend_ok malloc :
  malloc_sound malloc -> @BackendOk FakeBackend (fake_backend malloc).
Proof.
  intros Hs. constructor. intros ph b bytes al tag b' base res Hb Ha Hp Hw. simpl.
  unfold fake_do_acquire, fake_take. destruct (tick_acquire b) as [b1 []]; [done|].
  destruct (_ && _); [done|]. destruct (Z.eqb_spec (malloc (f_acquire_ordinal b1) (bytes +64 al)) 0)
    as [|Hne]; [done|]. intros [= <- <- <-]. rewrite u64_small in * by lia.
  destruct (Hs (f_acquire_ordinal b1) (bytes + al)) as [?|[? ?]]; [lia|done|].
  destruct (not_pow2_spec al) as (k & Hk & ->); [lia|done|].
  destruct (align_up_bounds (malloc (f_acquire_ordinal b1) (bytes + 2 ^ k)) k) as [[? ?] ?]; [lia..|].
  split_and!; try done; lia.
Qed.

(** ** Conservation *)

Section conservation.
Context (malloc : Z -> Z -> Z).
#[local] Existing Instance fake_backend.
#[local] Instance fb : Backend FakeBackend := fake_backend malloc.

(** The fake backend together with the regions its clients hold.  A block
    [malloc] returns is distinct from the live ones. *)
Inductive fake_step : FakeBackend * list Region -> FakeBackend * list Region -> Prop :=
| fs_acquire b rs g bytes al tag g' b' r :
    0 < bytes <= 2 ^ 62 -> backend_acquire g b bytes al tag = (g', b', inr r) ->
    region_valid r = true -> rbase r ∉ rbase <$> rs -> fake_step (b, rs) (b', rs ++ [r])
| fs_acquire_fail b rs g bytes al tag g' b' e :
    backend_acquire g b bytes al tag = (g', b', inl e) -> fake_step (b, rs) (b', rs)
| fs_growable b rs g reserve init al tag g' b' r :
    0 <= init <= 2 ^ 62 -> backend_acquire_growable g b reserve init al tag = (g', b', inr r) ->
    region_valid r = true -> rbase r ∉ rbase <$> rs -> fake_step (b, rs) (b', rs ++ [r])
| fs_growable_fail b rs g reserve init al tag g' b' e :
    backend_acquire_growable g b reserve init al tag = (g', b', inl e) -> fake_step (b, rs) (b', rs)
| fs_commit b rs1 r rs2 ph n b' e r' :
    0 <= n <= 2 ^ 62 -> backend_commit ph b r n = (b', e, r') ->
    fake_step (b, rs1 ++ r :: rs2) (b', rs1 ++ r' :: rs2)
| fs_release b rs1 r rs2 g b' r' :
    region_reset g b r = (b', r') -> fake_step (b, rs1 ++ r :: rs2) (b', rs1 ++ rs2)
| fs_inject b rs n e : fake_step (b, rs) (fail_acquisition n e b, rs).

Definition live_key (l : Live) : Z * Z := (l_base l, l_committed l).
Definition region_key (r : Region) : Z * Z := (rbase r, rcommitted r).
Definition total (ks : list (Z * Z)) : Z := foldr (fun k s => snd k + s) 0 ks.

Record fake_inv (cap : Z) (b : FakeBackend) (rs : list Region) : Prop := {
  fi_cap : f_capacity b = cap;
  fi_keys : live_key <$> f_live b ≡ₚ region_key <$> rs;
  fi_nodup : NoDup (rbase <$> rs);
  fi_pos : Forall (fun k => 0 <= snd k) (live_key <$> f_live b);
  fi_base : Forall (fun r => region_valid r = true) rs;
  fi_live : live_bytes (f_stats b) = total (live_key <$> f_live b);
  fi_journal : journal_net (f_journal b) = total (live_key <$> f_live b);
  fi_bound : live_bytes (f_stats b) <= cap;
  fi_peak : live_bytes (f_stats b) <= peak_bytes (f_stats b)
}.

Lemma total_app k1 k2 : total (k1 ++ k2) = total k1 + total k2.
Proof. unfold total. induction k1 as [|k k1 IH]; simpl; [done|]. lia. Qed.

Lemma total_nonneg ks : Forall (fun k => 0 <= snd k) ks -> 0 <= total ks.
Proof. induction 1; simpl; lia. Qed.

Lemma journal_net_snoc j e : journal_net (j ++ [e]) = journal_net j + event_delta e.
Proof. unfold journal_net. by rw foldl_app. Qed.

(** The entry [find_if] returns is the one its client's region describes. *)
Lemma find_live_region cap b rs1 r rs2 :
  fake_inv cap b (rs1 ++ r :: rs2) ->
  exists l1 it l2, f_live b = l1 ++ it :: l2 /\
    find_live (rbase r) (f_live b) = Some (length l1, it) /\ live_key it = region_key r /\
    live_key <$> (l1 ++ l2) ≡ₚ region_key <$> (rs1 ++ rs2).
Proof.
  intros [_ Hk Hnd _ _ _ _ _ _].
  assert (NoDup (l_base <$> f_live b)) as Hndl.
  { assert (forall ls, l_base <$> ls = fst <$> (live_key <$> ls)) as -> by
      (intros ls; by rw -list_fmap_compose).
    rw Hk -list_fmap_compose. done. }
  assert (region_key r ∈ live_key <$> f_live b) as Hin.
  { rw Hk. apply list_elem_of_fmap_2. apply elem_of_app. right. left. }
  apply list_elem_of_fmap in Hin as (it & Hit & Hin).
  apply list_elem_of_split in Hin as (l1 & l2 & El). exists l1, it, l2. rw El in Hk, Hndl |- *.
  split_and!; try done.
  - apply list_find_Some. rw list_lookup_middle //. split_and!; try done.
    + by injection Hit as ? ?.
    + intros j y Hj Hlt Hy. rw fmap_app /= in Hndl. apply NoDup_app in Hndl as (_ & Hd & _).
      rewrite lookup_app_l in Hj by done. apply list_elem_of_lookup_2 in Hj.
      apply (Hd (l_base y)); [by apply list_elem_of_fmap_2|].
      injection Hit as Hb _. rw Hy Hb. left.
  - rw !fmap_app /= in Hk |- *. rw Hit in Hk. by apply Permutation_app_inv in Hk.
Qed.

Lemma tick_acquire_fields b b' hit :
  tick_acquire b = (b', hit) ->
  f_capacity b' = f_capacity b /\ f_live b' = f_live b /\ f_stats b' = f_stats b /\
  f_journal b' = f_journal b.
Proof. by intros [= <- <-]. Qed.

(** The invariant only reads these four fields. *)
Lemma fake_inv_same cap b b' rs :
  fake_inv cap b rs -> f_capacity b' = f_capacity b -> f_live b' = f_live b ->
  f_stats b' = f_stats b -> f_journal b' = f_journal b -> fake_inv cap b' rs.
Proof. intros [] E1 E2 E3 E4. constructor; rw ?E1 ?E2 ?E3 ?E4 //. Qed.

Lemma fake_inv_live_nonneg cap b rs : fake_inv cap b rs -> 0 <= live_bytes (f_stats b).
Proof. intros [_ _ _ Hp _ Hl _ _ _]. rw Hl. by apply total_nonneg. Qed.

Lemma fake_take_inv cap ph b c r al tag b' base rs tag' :
  0 < cap <= 2 ^ 62 -> 0 <= c <= 2 ^ 62 -> fake_inv cap b rs ->
  fake_take malloc ph b c r al tag = (b', inr base) ->
  region_valid (mkRegion base c r tag') = true -> base ∉ rbase <$> rs ->
  fake_inv cap b' (rs ++ [mkRegion base c r tag']).
Proof.
  intros Hcap Hc Hinv. pose proof (fake_inv_live_nonneg _ _ _ Hinv) as Hnn.
  destruct Hinv as [Ec Hk Hnd Hp Hb Hl Hj Hbd Hpk]. unfold fake_take. rw Ec.
  assert (live_bytes (f_stats b) +64 c = live_bytes (f_stats b) + c) as Hadd
    by (apply u64_small; unfold two64; lia).
  destruct (_ && _) eqn:Ecap; [done|]. case_match; [done|]. intros [= <- <-] Hv Hn.
  assert (live_bytes (f_stats b) + c <= cap) as Hle.
  { apply andb_false_iff in Ecap as [Ecap|Ecap]; [apply negb_false_iff in Ecap; lia|lia]. }
  constructor; simpl; rw ?fmap_app ?total_app ?journal_net_snoc /= ?Hadd; try done.
  - by rw Hk.
  - apply NoDup_app. split_and!; [done| |apply NoDup_singleton].
    intros x Hx ->%list_elem_of_singleton. done.
  - apply Forall_app. split; [done|]. constructor; [simpl; lia|constructor].
  - apply Forall_app. split; [done|]. constructor; [done|constructor].
  - lia.
  - unfold event_delta. simpl. lia.
  - lia.
Qed.

Lemma fake_take_err ph b c r al tag b' e : fake_take malloc ph b c r al tag = (b', inl e) -> b' = b.
Proof. unfold fake_take. repeat case_match; by intros [= <- _]. Qed.

(** Replacing one live entry by another with the same base. *)
Lemma fake_inv_replace cap b b' rs1 r r' rs2 l1 it it' l2 d :
  fake_inv cap b (rs1 ++ r :: rs2) -> f_live b = l1 ++ it :: l2 -> live_key it = region_key r ->
  live_key <$> (l1 ++ l2) ≡ₚ region_key <$> (rs1 ++ rs2) ->
  f_capacity b' = f_capacity b -> f_live b' = l1 ++ it' :: l2 ->
  live_key it' = region_key r' -> rbase r' = rbase r -> 0 <= rcommitted r' ->
  d = rcommitted r' - rcommitted r ->
  live_bytes (f_stats b') = live_bytes (f_stats b) + d ->
  journal_net (f_journal b') = journal_net (f_journal b) + d ->
  live_bytes (f_stats b') <= cap -> live_bytes (f_stats b') <= peak_bytes (f_stats b') ->
  fake_inv cap b' (rs1 ++ r' :: rs2).
Proof.
  intros [Ec Hk Hnd Hp Hb Hl Hj Hbd Hpk] El Eit Hperm Ec' El' Eit' Eb Hc Hd Hlb Hjn Hle Hpeak.
  rw El in Hp, Hl, Hj. rw !fmap_app !fmap_cons !total_app /= in Hl, Hj.
  rw fmap_app fmap_cons in Hp. apply Forall_app in Hp as [Hp1 Hp2]. apply Forall_cons in Hp2 as [_ Hp2].
  assert (l_committed it' = l_committed it + d) as Hs.
  { injection Eit as _ ->. injection Eit' as _ ->. lia. }
  constructor; rw ?El' ?Ec' ?fmap_app ?fmap_cons ?total_app /=; try done; try lia.
  - rw Eit'. rw !fmap_app in Hperm. rw -!Permutation_middle. by apply perm_skip.
  - rw Eb. by rw fmap_app in Hnd.
  - apply Forall_app. split; [done|]. constructor; [rw Eit'; done|done].
  - apply Forall_app in Hb as [Hb1 Hb2]. apply Forall_cons in Hb2 as [Hv Hb2].
    apply Forall_app. split; [done|]. constructor; [|done]. unfold region_valid in *. by rw Eb.
Qed.

Lemma fake_commit_inv cap ph b rs1 r rs2 n b' e r' :
  0 < cap <= 2 ^ 62 -> 0 <= n <= 2 ^ 62 -> fake_inv cap b (rs1 ++ r :: rs2) ->
  fake_commit ph b r n = (b', e, r') -> fake_inv cap b' (rs1 ++ r' :: rs2).
Proof.
  intros Hcap Hn Hinv. pose proof (fake_inv_live_nonneg _ _ _ Hinv) as Hnn.
  destruct (find_live_region _ _ _ _ _ Hinv) as (l1 & it & l2 & El & Ef & Eit & Hperm).
  pose proof (fi_bound _ _ _ Hinv) as Hbd. pose proof (fi_peak _ _ _ Hinv) as Hpk.
  assert (0 <= rcommitted r <= live_bytes (f_stats b)) as Hr.
  { destruct Hinv as [_ _ _ Hp _ Hl _ _ _]. rw El in Hp, Hl.
    rw !fmap_app !fmap_cons in Hp, Hl. rw total_app /= in Hl.
    apply Forall_app in Hp as [Hp1 Hp2]. apply Forall_cons in Hp2 as [Hp Hp2].
    apply total_nonneg in Hp1, Hp2. injection Eit as _ Ec. simpl in Hp. lia. }
  unfold fake_commit. case_match; [by intros [= <- <- <-]|]. case_match; [by intros [= <- <- <-]|].
  case_match; [by intros [= <- <- <-]|]. rw Ef (fi_cap _ _ _ Hinv).
  injection Eit as Hbase Hcom. rw Hcom.
  assert (forall b1 d, f_capacity b1 = f_capacity b -> f_live b1 = f_live b ->
    d = n - rcommitted r ->
    live_bytes (f_stats b1) = live_bytes (f_stats b) + d ->
    journal_net (f_journal b1) = journal_net (f_journal b) + d ->
    live_bytes (f_stats b1) <= cap -> live_bytes (f_stats b1) <= peak_bytes (f_stats b1) ->
    fake_inv cap (set_live (f_stats b1) (<[length l1 := with_committed n it]> (f_live b1))
      (f_quarantine b1) b1) (rs1 ++ mkRegion (rbase r) n (rreserved r) (rtag r) :: rs2)) as Hfin.
  { intros b1 d E1 E2 Hd Hl Hj Hle Hpk'.
    eapply (fake_inv_replace cap b _ rs1 r _ rs2 l1 it (with_committed n it) l2 d);
      try done; simpl; try lia.
    - unfold live_key, region_key. congruence.
    - rw E2 El. rewrite insert_app_r_alt, Nat.sub_diag by lia. done.
    - unfold live_key, region_key. simpl. congruence. }
  destruct (Z.ltb_spec (rcommitted r) n) as [Hgrow|].
  - assert (live_bytes (f_stats b) +64 (n - rcommitted r) =
            live_bytes (f_stats b) + (n - rcommitted r)) as Hadd
      by (apply u64_small; unfold two64; lia).
    destruct (_ && _) eqn:Ecap; [by intros [= <- <- <-]|]. intros [= <- <- <-].
    apply andb_false_iff in Ecap.
    assert (live_bytes (f_stats b) + (n - rcommitted r) <= cap) as Hle.
    { destruct Ecap as [Ecap|Ecap]; [apply negb_false_iff in Ecap; lia|lia]. }
    match goal with |- fake_inv _ (set_live _ _ _ ?b1) _ => apply (Hfin b1 (n - rcommitted r)) end; simpl; rw ?journal_net_snoc ?Hadd; try done; lia.
  - destruct (Z.ltb_spec n (rcommitted r)) as [Hshrink|]; intros [= <- <- <-].
    + match goal with |- fake_inv _ (set_live _ _ _ ?b1) _ => apply (Hfin b1 (n - rcommitted r)) end; simpl; rw ?journal_net_snoc; try done; try lia.
      unfold event_delta. simpl. lia.
    + apply (Hfin b 0); try done; lia.
Qed.

Lemma fake_release_inv cap g b rs1 r rs2 b' r' :
  fake_inv cap b (rs1 ++ r :: rs2) -> region_reset g b r = (b', r') ->
  fake_inv cap b' (rs1 ++ rs2).
Proof.
  intros Hinv. destruct (find_live_region _ _ _ _ _ Hinv) as (l1 & it & l2 & El & Ef & Eit & Hperm).
  destruct Hinv as [Ec Hk Hnd Hp Hb Hl Hj Hbd Hpk]. unfold region_reset.
  apply Forall_app in Hb as [Hb1 Hb2]. apply Forall_cons in Hb2 as [Hv Hb2]. rw Hv.
  simpl. unfold fake_do_release. rw Ef. intros [= <- <-].
  rw El in Hp, Hl, Hj. rw !fmap_app !fmap_cons in Hp, Hl, Hj. rw !total_app /= in Hl, Hj.
  apply Forall_app in Hp as [Hp1 Hp2]. apply Forall_cons in Hp2 as [Hp Hp2].
  pose proof (total_nonneg _ Hp1). pose proof (total_nonneg _ Hp2).
  injection Eit as Hbase Hcom. simpl in Hp.
  assert (delete (length l1) (f_live b) = l1 ++ l2) as Hdel.
  { rw El. apply delete_middle. }
  constructor; simpl; rw ?Hdel ?journal_net_snoc ?fmap_app ?total_app; try done; try lia.
  - by rw -!fmap_app.
  - rw fmap_app /= in Hnd. apply NoDup_app in Hnd as (Hn1 & Hn2 & Hn3).
    apply NoDup_cons in Hn3 as [_ Hn3]. apply NoDup_app. split_and!; try done.
    intros x Hx Hx'. apply (Hn2 x Hx). by right.
  - by apply Forall_app.
  - by apply Forall_app.
  - unfold event_delta. simpl. lia.
Qed.

Lemma fake_step_inv cap st st' :
  0 < cap <= 2 ^ 62 -> fake_step st st' -> fake_inv cap st.1 st.2 -> fake_inv cap st'.1 st'.2.
Proof.
  intros Hcap Hstep. destruct Hstep as [b rs g bytes al tag g' b' r Hb E Hv Hn
    |b rs g bytes al tag g' b' e E|b rs g reserve init al tag g' b' r Hb E Hv Hn
    |b rs g reserve init al tag g' b' e E|b rs1 r rs2 ph n b' e r' Hn E|b rs1 r rs2 g b' r' E
    |b rs n e]; simpl; intros Hinv.
  - revert E. unfold backend_acquire. case_match; [done|]. simpl. unfold fake_do_acquire.
    destruct (tick_acquire b) as [b1 hit] eqn:Et. apply tick_acquire_fields in Et as (E1&E2&E3&E4).
    destruct hit; [done|]. destruct (fake_take _ _ _ _ _ _ _) as [b2 [e|base]] eqn:Ek; [done|].
    intros [= <- <- <-].
    assert ((if bytes =? 0 then bytes else bytes) = bytes) as Hif by (by case_match).
    rw Hif in Hv |- *. eapply fake_take_inv; [done| |by eapply fake_inv_same|exact Ek|done|done]. lia.
  - revert E. unfold backend_acquire. case_match; [by intros [= <- <- <-]|]. simpl.
    unfold fake_do_acquire.
    destruct (tick_acquire b) as [b1 hit] eqn:Et. apply tick_acquire_fields in Et as (E1&E2&E3&E4).
    destruct hit; [intros [= <- <- <-]; by eapply fake_inv_same|].
    destruct (fake_take _ _ _ _ _ _ _) as [b2 [e'|base]] eqn:Ek; intros [= <- <- <-].
    apply fake_take_err in Ek as ->. by eapply fake_inv_same.
  - revert E. unfold backend_acquire_growable. case_match; [done|]. simpl.
    unfold fake_do_acquire_growable. destruct (negb (f_growable b)); [done|].
    destruct (tick_acquire b) as [b1 hit] eqn:Et. apply tick_acquire_fields in Et as (E1&E2&E3&E4).
    destruct hit; [done|]. destruct (fake_take _ _ _ _ _ _ _) as [b2 [e|base]] eqn:Ek; [done|].
    intros [= <- <- <-]. eapply fake_take_inv; [done|done|by eapply fake_inv_same|exact Ek|done|done].
  - revert E. unfold backend_acquire_growable. case_match; [by intros [= <- <- <-]|]. simpl.
    unfold fake_do_acquire_growable. destruct (negb (f_growable b)); [by intros [= <- <- <-]|].
    destruct (tick_acquire b) as [b1 hit] eqn:Et. apply tick_acquire_fields in Et as (E1&E2&E3&E4).
    destruct hit; [intros [= <- <- <-]; by eapply fake_inv_same|].
    destruct (fake_take _ _ _ _ _ _ _) as [b2 [e'|base]] eqn:Ek; intros [= <- <- <-].
    apply fake_take_err in Ek as ->. by eapply fake_inv_same.
  - by eapply fake_commit_inv.
  - by eapply fake_release_inv.
  - by eapply fake_inv_same.
Qed.
End conservation.

(** Reachable from a fresh backend with no region outstanding. *)
Inductive fake_reachable (malloc : Z -> Z -> Z) (cap : Z) : FakeBackend * list Region -> Prop :=
| fr_new growable : fake_reachable malloc cap (fake_backend_new cap growable, [])
| fr_step st st' : fake_reachable malloc cap st -> fake_step malloc st st' ->
    fake_reachable malloc cap st'.

(** Conservation (V1 of docs/MEMORY_ARCHITECTURE.md).  For a fake backend of
    capacity at most 2^62, after any sequence of acquisitions, growable
    acquisitions, commits, releases and injected failures, the journal's net
    byte count, the statistics' [live_bytes] and the bytes the clients' regions
    claim are all equal, never exceed the capacity, and no live region is
    forgotten. *)
Theorem fake_conservation malloc cap b rs :
  0 < cap <= 2 ^ 62 -> fake_reachable malloc cap (b, rs) ->
  journal_live_bytes b = live_bytes (f_stats b) /\
  live_bytes (f_stats b) = total (region_key <$> rs) /\
  0 <= live_bytes (f_stats b) <= cap /\ live_regions b = Z.of_nat (length rs).
Proof.
  intros Hcap Hr. assert (fake_inv cap b rs) as Hinv.
  { change (fake_inv cap (b, rs).1 (b, rs).2). revert Hr. generalize (b, rs) as st.
    induction 1 as [gr|st st' _ IH Hstep]; [|by eapply fake_step_inv].
    constructor; simpl; try done; try constructor; lia. }
  pose proof (fake_inv_live_nonneg _ _ _ Hinv) as Hnn.
  destruct Hinv as [_ Hk _ _ _ Hl Hj Hbd _]. unfold journal_live_bytes, live_regions.
  rw Hj -Hl. split_and!; [by case_zbool; lia| |done|done|].
  - rw Hl. clear -Hk. induction Hk; simpl; lia.
  - apply Permutation_length in Hk. rw !length_fmap in Hk. lia.
Qed.

(** A 1 KiB fake backend whose [malloc] returns fresh, well separated blocks. *)
Definition demo_malloc (i n : Z) : Z := 4096 * i + 1.

Lemma fake_conservation_witness :
  exists b rs, fake_reachable demo_malloc 1024 (b, rs) /\ journal_live_bytes b = 512 /\
    journal_live_bytes b = live_bytes (f_stats b).
Proof.
  pose (st := @backend_acquire _ (fake_backend demo_malloc) phase_init
                (fake_backend_new 1024 true) 512 256 KvBlockPool).
  assert (fake_reachable demo_malloc 1024 (st.1.2, [mkRegion 4352 512 512 KvBlockPool])) as Hr.
  { eapply fr_step; [apply (fr_new _ _ true)|].
    eapply (fs_acquire _ _ [] phase_init 512 256 KvBlockPool); [lia|reflexivity|reflexivity|].
    apply not_elem_of_nil. }
  exists st.1.2, [mkRegion 4352 512 512 KvBlockPool]. split; [exact Hr|].
  split; [vm_compute; reflexivity|].
  exact (proj1 (fake_conservation demo_malloc 1024 _ _ ltac:(lia) Hr)).
Defined.
