(* ===== verification/BlockPool.v ===== *)
(** * The fixed-block pool (tier T3)

    Models [src/memory/block_pool.h] and [src/memory/block_pool.cpp]: one id
    space with a free list and a reference count per block.  A [BlockRef] is
    [option Z]: [None] is the empty handle ([pool_ == nullptr], [id_ == -1]) and
    [Some id] a tracked reference.  Handles are move-only in the source; here a
    move is the caller's list update and a destructor is an explicit
    [block_ref_reset]. *)

From Corelib Require Import ssreflect_rw.
From stdpp Require Import prelude gmap fin_maps list strings.
From S2P Require Import Prelude Backend.
Open Scope Z_scope.
Open Scope quench_scope.

Notation BlockRef := (option Z).

(** [BlockRef::id()]: -1 for the empty handle. *)
Definition ref_id (r : BlockRef) : Z := default (-1) r.

Record BlockPool := mkPool {
  region_ : Region;
  open_ : bool;
  block_bytes_ : Z;
  num_blocks_ : Z;
  refcount_ : list Z;
  free_list_ : list Z
}.

Definition closed_pool : BlockPool := mkPool empty_region false 0 0 [] [].

Definition with_counts (rc fl : list Z) (p : BlockPool) : BlockPool :=
  mkPool (region_ p) (open_ p) (block_bytes_ p) (num_blocks_ p) rc fl.

(** The ids pushed by [for (i = num_blocks - 1; i >= 0; --i)]. *)
Definition descending_ids (n : nat) : list Z := rev (Z.of_nat <$> seq 0 n).

Definition init_slots_ (num_blocks : Z) (p : BlockPool) : BlockPool :=
  mkPool (region_ p) true (block_bytes_ p) num_blocks
         (replicate (Z.to_nat num_blocks) 0) (descending_ids (Z.to_nat num_blocks)).

Definition pool_open `{Backend B} (g : PhaseState) (b : B) (block_bytes num_blocks : Z)
    (tag : RegionTag) (p : BlockPool) : PhaseState * B * BlockPool * MemError :=
  if open_ p then (g, b, p, InvalidArgument)
  else if (block_bytes =? 0) || (num_blocks <=? 0) then (g, b, p, InvalidArgument)
  else match backend_acquire g b (block_bytes *64 num_blocks) 256 tag with
       | (g, b, inl e) => (g, b, p, e)
       | (g, b, inr r) =>
           (g, b, init_slots_ num_blocks
                    (mkPool r (open_ p) block_bytes (num_blocks_ p) (refcount_ p) (free_list_ p)),
            MemOk)
       end.

Definition open_slots (num_blocks : Z) (p : BlockPool) : BlockPool * MemError :=
  if open_ p then (p, InvalidArgument)
  else if num_blocks <=? 0 then (p, InvalidArgument)
  else (init_slots_ num_blocks
          (mkPool (region_ p) (open_ p) 0 (num_blocks_ p) (refcount_ p) (free_list_ p)), MemOk).

(** [close()]; the second component is the number of blocks reported as still
    referenced (0 when nothing is logged). *)
Definition pool_close `{Backend B} (g : PhaseState) (b : B) (p : BlockPool) : B * BlockPool * Z :=
  if open_ p then
    let outstanding := Z.of_nat (length (refcount_ p)) - Z.of_nat (length (free_list_ p)) in
    let '(b, _) := region_reset g b (region_ p) in
    (b, closed_pool, outstanding)
  else (b, p, 0).

Definition abandon `{Backend B} (g : PhaseState) (b : B) (p : BlockPool) : B * BlockPool :=
  let '(b, _) := region_reset g b (region_ p) in (b, closed_pool).

Definition ref_count (id : Z) (p : BlockPool) : Z :=
  if (id <? 0) || (num_blocks_ p <=? id) then 0 else default 0 (refcount_ p !! Z.to_nat id).

Definition acquire (p : BlockPool) : BlockPool * BlockRef :=
  match last (free_list_ p) with
  | None => (p, None)
  | Some id => (with_counts (vset id 1 (refcount_ p)) (pop_back (free_list_ p)) p, Some id)
  end.

Definition inc_ref_ (id : Z) (p : BlockPool) : BlockPool :=
  if (id <? 0) || (num_blocks_ p <=? id) then p
  else with_counts (vset id (ref_count id p + 1) (refcount_ p)) (free_list_ p) p.

(** The boolean is the double-release report of the strict path. *)
Definition dec_ref_impl_ (id : Z) (strict : bool) (p : BlockPool) : BlockPool * bool :=
  if (id <? 0) || (num_blocks_ p <=? id) then (p, false)
  else
    let rc := ref_count id p in
    if rc <=? 0 then (p, strict)
    else
      let rc' := rc - 1 in
      (with_counts (vset id rc' (refcount_ p))
                   (if rc' =? 0 then free_list_ p ++ [id] else free_list_ p) p, false).

Definition dec_ref_ (id : Z) (p : BlockPool) : BlockPool := fst (dec_ref_impl_ id true p).
Definition acquire_raw (id : Z) (p : BlockPool) : BlockPool := inc_ref_ id p.
Definition release_raw (id : Z) (p : BlockPool) : BlockPool := fst (dec_ref_impl_ id false p).

Definition share_by_id (id : Z) (p : BlockPool) : BlockPool * BlockRef :=
  if (id <? 0) || (num_blocks_ p <=? id) || (ref_count id p <=? 0) then (p, None)
  else (inc_ref_ id p, Some id).

(** [BlockRef::share], [BlockRef::reset] (also the destructor), [BlockRef::release]. *)
Definition block_ref_share (r : BlockRef) (p : BlockPool) : BlockPool * BlockRef :=
  match r with
  | Some id => (inc_ref_ id p, Some id)
  | None => (p, None)
  end.

Definition block_ref_reset (r : BlockRef) (p : BlockPool) : BlockPool :=
  match r with
  | Some id => if 0 <=? id then dec_ref_ id p else p
  | None => p
  end.

Definition block_ref_release (r : BlockRef) : Z := ref_id r.

(** [block(id)]: base address and size of a block, [None] for the empty span. *)
Definition block (id : Z) (p : BlockPool) : option (Z * Z) :=
  if negb (region_valid (region_ p)) || (id <? 0) || (num_blocks_ p <=? id) then None
  else Some (rbase (region_ p) + (id *64 block_bytes_ p), block_bytes_ p).

Definition free_count (p : BlockPool) : Z := Z.of_nat (length (free_list_ p)).
Definition live_blocks (p : BlockPool) : Z := num_blocks_ p - free_count p.
Definition total_refs (p : BlockPool) : Z := foldl (fun s rc => s +64 u64 rc) 0 (refcount_ p).

(** Dropping a vector of handles (its destructor, or a shrinking [resize]). *)
Definition drop_refs (rs : list BlockRef) (p : BlockPool) : BlockPool :=
  foldl (fun p r => block_ref_reset r p) p rs.

(** ** Well-formedness: the free list is exactly the set of unreferenced ids *)

Record pool_wf (p : BlockPool) : Prop := {
  wf_num : 0 <= num_blocks_ p;
  wf_len : length (refcount_ p) = Z.to_nat (num_blocks_ p);
  wf_nonneg : forall id, 0 <= ref_count id p;
  wf_nodup : NoDup (free_list_ p);
  wf_free : forall id,
    id ∈ free_list_ p <-> 0 <= id < num_blocks_ p /\ ref_count id p = 0
}.

(** [pool_owned p h]: [p] is well formed and block [id] is held by exactly [h id]
    references.  This is the abstract view of the pool: a finite bag of handles. *)
Definition pool_owned (p : BlockPool) (h : Z -> nat) : Prop :=
  pool_wf p /\ forall id, ref_count id p = Z.of_nat (h id).

(** The references held by a vector of handles. *)
Definition rocc (x : Z) (rs : list BlockRef) : nat := occ x (omap id rs).

Lemma rocc_nil x : rocc x [] = 0%nat.
Proof. done. Qed.

Lemma rocc_cons x r rs :
  rocc x (r :: rs) = ((if decide (r = Some x) then 1 else 0) + rocc x rs)%nat.
Proof.
  unfold rocc. destruct r as [y|]; simpl.
  - rw occ_cons. repeat case_decide; simplify_eq; done.
  - done.
Qed.

Lemma rocc_app x rs1 rs2 : rocc x (rs1 ++ rs2) = (rocc x rs1 + rocc x rs2)%nat.
Proof. unfold rocc. by rw omap_app occ_app. Qed.

Lemma rocc_fmap_Some x ids : rocc x (Some <$> ids) = occ x ids.
Proof. unfold rocc. f_equal. induction ids as [|i ids IH]; [done|]. simpl. by f_equal. Qed.

Lemma rocc_pos x rs : (0 < rocc x rs)%nat <-> Some x ∈ rs.
Proof.
  induction rs as [|r rs IH]; [rw rocc_nil elem_of_nil; lia|].
  rw rocc_cons elem_of_cons -IH. case_decide; split; intros; try lia; auto.
  destruct_or?; [congruence|lia].
Qed.

(** Overwriting one slot swaps one handle for another. *)
Lemma rocc_insert x rs i old v :
  rs !! i = Some old -> (rocc x (<[i := v]> rs) + rocc x [old] = rocc x rs + rocc x [v])%nat.
Proof.
  intros Hi. rewrite insert_take_drop by (by eapply lookup_lt_Some).
  rewrite <- (take_drop_middle rs i old) at 3 by done.
  rw !rocc_app !(rocc_cons _ v) !(rocc_cons _ old) !rocc_nil. lia.
Qed.

Lemma ref_count_out id p : ~ (0 <= id < num_blocks_ p) -> ref_count id p = 0.
Proof. intros. unfold ref_count. by rewrite (proj2 (orb_true_iff _ _)) by lia. Qed.

Lemma ref_count_with_counts p id x fl y :
  pool_wf p -> 0 <= id < num_blocks_ p ->
  ref_count y (with_counts (vset id x (refcount_ p)) fl p) =
    (if decide (y = id) then x else ref_count y p).
Proof.
  intros [Hn Hl _ _ _] Hid. unfold ref_count, with_counts, vset; simpl.
  case_decide as E.
  - subst y. rewrite (proj2 (orb_false_iff _ _)) by lia.
    by rewrite list_lookup_insert_eq by lia.
  - case_match eqn:Hr; [done|]. apply orb_false_iff in Hr as [??].
    by rewrite list_lookup_insert_ne by lia.
Qed.

Lemma pool_owned_ext p h h' : pool_owned p h -> (forall id, h id = h' id) -> pool_owned p h'.
Proof. intros [Hp Hh] E. split; [done|]. intros id. by rw Hh E. Qed.

Lemma pool_owned_range p h id : pool_owned p h -> (0 < h id)%nat -> 0 <= id < num_blocks_ p.
Proof.
  intros [Hp Hh] Hpos. destruct (decide (0 <= id < num_blocks_ p)); [done|].
  specialize (Hh id). rewrite ref_count_out in Hh by done. lia.
Qed.

Lemma pool_owned_free p h id :
  pool_owned p h -> (id ∈ free_list_ p <-> 0 <= id < num_blocks_ p /\ h id = 0%nat).
Proof. intros [Hp Hh]. rewrite wf_free by done. rw Hh. lia. Qed.

(** Rebuilding the invariant after one count changes. *)
Lemma pool_wf_set p id x fl :
  pool_wf p -> 0 <= id < num_blocks_ p -> 0 <= x -> NoDup fl ->
  (forall y, y ∈ fl <-> (y ≠ id /\ y ∈ free_list_ p) \/ (y = id /\ x = 0)) ->
  pool_wf (with_counts (vset id x (refcount_ p)) fl p).
Proof.
  intros Hp Hid Hx Hnd Hfl. destruct (Hp) as [Hn Hl Hnn Hd Hf]. constructor; simpl; try done.
  - unfold vset. by rw length_insert.
  - intros y. rewrite ref_count_with_counts by done. case_decide; [done|apply Hnn].
  - intros y. rewrite Hfl, Hf, ref_count_with_counts by done. case_decide; naive_solver.
Qed.

Lemma acquire_owned p h p' id :
  pool_owned p h -> acquire p = (p', Some id) ->
  h id = 0%nat /\ 0 <= id < num_blocks_ p /\
  free_list_ p = free_list_ p' ++ [id] /\ num_blocks_ p' = num_blocks_ p /\
  pool_owned p' (fun x => (h x + if decide (x = id) then 1 else 0)%nat).
Proof.
  intros Ho. unfold acquire. destruct (last _) as [z|] eqn:Hz; [|done].
  intros [= <- <-]. simpl. pose proof (last_pop_back _ _ Hz) as Hfl.
  assert (z ∈ free_list_ p) as Hin by (rw Hfl; set_solver).
  apply (pool_owned_free p h) in Hin as [Hr Hh]; [|done].
  destruct Ho as [Hp Hc]. pose proof (wf_nodup p Hp) as Hnd. rw Hfl in Hnd.
  apply NoDup_app in Hnd as (Hnd & Hdis & _).
  split_and!; try done; [lia..|]. split.
  - apply pool_wf_set; try done; [lia..|]. intros y. rw {2}Hfl elem_of_app list_elem_of_singleton.
    specialize (Hdis y). set_solver by lia.
  - intros y. rewrite ref_count_with_counts by done. rw Hc. case_decide; subst; lia.
Qed.

Lemma acquire_none p p' : acquire p = (p', None) -> p' = p /\ free_list_ p = [].
Proof.
  unfold acquire. destruct (last _) eqn:E; [done|]. intros [= <-].
  split; [done|]. by apply last_None_nil.
Qed.

Lemma inc_ref_owned p h id :
  pool_owned p h -> (0 < h id)%nat ->
  num_blocks_ (inc_ref_ id p) = num_blocks_ p /\ free_list_ (inc_ref_ id p) = free_list_ p /\
  pool_owned (inc_ref_ id p) (fun x => (h x + if decide (x = id) then 1 else 0)%nat).
Proof.
  intros Ho Hpos. pose proof (pool_owned_range p h id Ho Hpos) as Hr.
  destruct Ho as [Hp Hc]. unfold inc_ref_. rewrite (proj2 (orb_false_iff _ _)) by lia.
  split_and!; [done..|]. split.
  - apply pool_wf_set; try done.
    + rw Hc. lia.
    + by apply wf_nodup.
    + intros y. rewrite (wf_free p Hp). rw !Hc. split; intros Hy; [left|]; intuition (subst; lia).
  - intros y. rewrite ref_count_with_counts by done. rw !Hc. case_decide; subst; lia.
Qed.

Lemma share_by_id_owned p h id p' r :
  pool_owned p h -> share_by_id id p = (p', r) ->
  (h id = 0%nat /\ r = None /\ p' = p) \/
  ((0 < h id)%nat /\ r = Some id /\ num_blocks_ p' = num_blocks_ p /\
   free_list_ p' = free_list_ p /\
   pool_owned p' (fun x => (h x + if decide (x = id) then 1 else 0)%nat)).
Proof.
  intros Ho. unfold share_by_id. case_match eqn:E; intros [= <- <-].
  - left. split_and!; try done. destruct Ho as [Hp Hc]. specialize (Hc id).
    rewrite !orb_true_iff in E. destruct E as [[E|E]|E]; [..|lia];
      rewrite ref_count_out in Hc by lia; lia.
  - right. rewrite !orb_false_iff in E. destruct E as [_ E].
    assert (0 < h id)%nat by (destruct Ho as [_ Hc]; specialize (Hc id); lia).
    destruct (inc_ref_owned p h id Ho) as (? & ? & ?); [done|]. by split_and!.
Qed.

(** Dropping one reference; the block reaches the free list iff it was the last. *)
Lemma block_ref_reset_owned p h id :
  pool_owned p h -> (0 < h id)%nat ->
  let p' := block_ref_reset (Some id) p in
  num_blocks_ p' = num_blocks_ p /\
  free_list_ p' = (if decide (h id = 1%nat) then free_list_ p ++ [id] else free_list_ p) /\
  pool_owned p' (fun x => (h x - if decide (x = id) then 1 else 0)%nat).
Proof.
  intros Ho Hpos. pose proof (pool_owned_range p h id Ho Hpos) as Hr.
  pose proof (pool_owned_free p h id Ho) as Hfr.
  destruct Ho as [Hp Hc]. unfold block_ref_reset, dec_ref_, dec_ref_impl_.
  rewrite (proj2 (Z.leb_le 0 id)) by lia. rewrite (proj2 (orb_false_iff _ _)) by lia.
  rewrite Hc. rewrite (proj2 (Z.leb_gt _ 0)) by lia. simpl.
  assert ((Z.of_nat (h id) - 1 =? 0) = bool_decide (h id = 1%nat)) as ->.
  { case_bool_decide; lia. }
  split_and!; [done|by repeat case_decide; repeat case_bool_decide|]. split.
  - pose proof (wf_nodup p Hp) as Hnd.
    apply pool_wf_set; try done; [lia|..].
    + case_bool_decide; [|done]. apply NoDup_app. split_and!; [done| |apply NoDup_singleton].
      intros x Hx ->%list_elem_of_singleton. apply Hfr in Hx. lia.
    + intros y. assert (y = id -> y ∉ free_list_ p) by (intros ->; rewrite Hfr; lia).
      case_bool_decide.
      * rw elem_of_app list_elem_of_singleton. intuition lia.
      * intuition lia.
  - intros y. rewrite ref_count_with_counts by done. rw Hc. case_decide; subst; lia.
Qed.

Lemma drop_refs_app rs1 rs2 p : drop_refs (rs1 ++ rs2) p = drop_refs rs2 (drop_refs rs1 p).
Proof. unfold drop_refs. by rw foldl_app. Qed.

(** Dropping a vector of handles releases exactly the references it held. *)
Lemma drop_refs_owned rs p h h' :
  pool_owned p h -> (forall x, h x = (h' x + rocc x rs)%nat) ->
  num_blocks_ (drop_refs rs p) = num_blocks_ p /\ pool_owned (drop_refs rs p) h'.
Proof.
  revert p h. induction rs as [|r rs IH]; intros p h Ho Hh; simpl.
  { split; [done|]. eapply pool_owned_ext; [done|]. intros x. rw Hh rocc_nil. lia. }
  change (drop_refs (r :: rs) p) with (drop_refs rs (block_ref_reset r p)).
  destruct r as [id|].
  - assert (0 < h id)%nat as Hpos by (rw Hh rocc_cons decide_True //; lia).
    destruct (block_ref_reset_owned p h id Ho Hpos) as (<- & _ & Ho').
    eapply IH; [done|]. intros x. simpl. specialize (Hh x). rw rocc_cons in Hh.
    repeat case_decide; simplify_eq; lia.
  - eapply IH; [done|]. intros x. by rw Hh rocc_cons.
Qed.

Lemma release_raw_reset id p : 0 <= id -> release_raw id p = block_ref_reset (Some id) p.
Proof.
  intros Hid. unfold release_raw, block_ref_reset, dec_ref_, dec_ref_impl_.
  rewrite (proj2 (Z.leb_le 0 id)) by done. by repeat case_match.
Qed.

(** A fresh pool hands out every id and none is referenced. *)
Lemma init_slots_owned n p : 0 <= n -> pool_owned (init_slots_ n p) (fun _ => 0%nat).
Proof.
  intros Hn.
  assert (forall id, ref_count id (init_slots_ n p) = 0) as Hz.
  { intros id. unfold ref_count, init_slots_; simpl. case_match; [done|].
    destruct (replicate _ _ !! _) eqn:E; [|done]. simpl. by apply lookup_replicate in E as [-> _]. }
  split; [|intros id; rw Hz; done]. constructor; simpl; try done.
  - by rw length_replicate.
  - intros id. by rw Hz.
  - unfold descending_ids. rewrite NoDup_ListNoDup. apply NoDup_rev.
    rewrite <- NoDup_ListNoDup. apply NoDup_fmap; [apply _|]. apply NoDup_seq.
  - intros id. rw Hz. unfold descending_ids. rewrite list_elem_of_In, <- in_rev.
    rewrite <- list_elem_of_In. rw list_elem_of_fmap. split.
    + intros (k & -> & Hk%elem_of_seq). lia.
    + intros [Hid _]. exists (Z.to_nat id). rw elem_of_seq. lia.
Qed.
