(* ===== verification/KVManager.v ===== *)
(** * The KV cache manager: state and operations

    Models [src/memory/kv_cache_manager.h] and [src/memory/kv_cache_manager.cpp],
    with the block-id part of [src/memory/kv_cache.cu] ([KVCache] delegates its
    ids to two block pools).  Every operation is a function from state to state
    and result; the unordered maps are [gmap]s, the vectors and [std::list]s are
    lists in order, and a vector of [BlockRef] is a list of [option Z] whose
    [None] slots are the holes left by StreamingLLM eviction.  Logging is left
    out; everything that changes state is kept. *)

From Corelib Require Import ssreflect_rw.
From stdpp Require Import prelude gmap fin_maps list strings.
From S2P Require Import Prelude Backend BlockPool.
Open Scope Z_scope.
Open Scope quench_scope.

(** ** State *)

Record KVCache := mkCache {
  blocks_ : BlockPool;
  swa_blocks_ : BlockPool;
  block_size_ : Z;
  max_blocks_ : Z;
  swa_max_blocks_ : Z
}.

(** The content-addressed prefix cache.  A [CachedEntry] is its [BlockRef]; its
    LRU iterator is the key's position in [cached_blocks_lru_]. *)
Record PrefixCache := mkPC {
  prefix_caching_enabled_ : bool;
  block_hash_to_id_ : gmap Z Z;
  block_id_to_hash_ : gmap Z Z;
  cached_blocks_lru_ : list Z;
  cached_blocks_map_ : gmap Z BlockRef;
  reclaimable_cached_count_ : Z
}.

Record Pins := mkPins {
  pinned_blocks_ : gset Z;
  pinned_seq_blocks_ : gmap Z (list Z);
  pin_refcount_ : gmap Z Z;
  pin_fifo_ : list Z;
  pin_budget_blocks_ : Z
}.

(** Sliding-window block tables; -1 entries are holes. *)
Record Swa := mkSwa {
  seq_swa_blocks_ : gmap Z (list Z);
  swa_trim_cursor_ : gmap Z Z;
  swa_window_ : Z;
  swa_slack_ : Z
}.

Record ResidualRingState := mkRing { write_idx : Z; fill_count : Z }.

(** The FP16 residual pool: slot allocator and per-sequence ring state.  The
    device-resident copies of the ring state are zeroed with the slot. *)
Record Residual := mkRes {
  residual_enabled_ : bool;
  residual_n_tokens_ : Z;
  residual_max_seqs_ : Z;
  seq_residual_state_ : gmap Z ResidualRingState;
  residual_free_slots_ : list Z;
  residual_seq_slot_ : gmap Z Z
}.

Record KVM := mkKVM {
  cache_ : KVCache;
  seq_blocks_ : gmap Z (list BlockRef);
  seq_block_hashes_ : gmap Z (list Z);
  lru_order_ : list Z;
  lru_map_ : gset Z;
  pc_ : PrefixCache;
  pins_ : Pins;
  swa_ : Swa;
  residual_ : Residual
}.

Definition set_pool (p : BlockPool) (s : KVM) : KVM :=
  let c := cache_ s in
  mkKVM (mkCache p (swa_blocks_ c) (block_size_ c) (max_blocks_ c) (swa_max_blocks_ c))
    (seq_blocks_ s) (seq_block_hashes_ s) (lru_order_ s) (lru_map_ s) (pc_ s) (pins_ s)
    (swa_ s) (residual_ s).
Definition set_swa_pool (p : BlockPool) (s : KVM) : KVM :=
  let c := cache_ s in
  mkKVM (mkCache (blocks_ c) p (block_size_ c) (max_blocks_ c) (swa_max_blocks_ c))
    (seq_blocks_ s) (seq_block_hashes_ s) (lru_order_ s) (lru_map_ s) (pc_ s) (pins_ s)
    (swa_ s) (residual_ s).
Definition set_seqs (m : gmap Z (list BlockRef)) (s : KVM) : KVM :=
  mkKVM (cache_ s) m (seq_block_hashes_ s) (lru_order_ s) (lru_map_ s) (pc_ s) (pins_ s)
    (swa_ s) (residual_ s).
Definition set_hashes (m : gmap Z (list Z)) (s : KVM) : KVM :=
  mkKVM (cache_ s) (seq_blocks_ s) m (lru_order_ s) (lru_map_ s) (pc_ s) (pins_ s)
    (swa_ s) (residual_ s).
Definition set_lru (o : list Z) (m : gset Z) (s : KVM) : KVM :=
  mkKVM (cache_ s) (seq_blocks_ s) (seq_block_hashes_ s) o m (pc_ s) (pins_ s)
    (swa_ s) (residual_ s).
Definition set_pc (c : PrefixCache) (s : KVM) : KVM :=
  mkKVM (cache_ s) (seq_blocks_ s) (seq_block_hashes_ s) (lru_order_ s) (lru_map_ s) c (pins_ s)
    (swa_ s) (residual_ s).
Definition set_pins (q : Pins) (s : KVM) : KVM :=
  mkKVM (cache_ s) (seq_blocks_ s) (seq_block_hashes_ s) (lru_order_ s) (lru_map_ s) (pc_ s) q
    (swa_ s) (residual_ s).
Definition set_swa (w : Swa) (s : KVM) : KVM :=
  mkKVM (cache_ s) (seq_blocks_ s) (seq_block_hashes_ s) (lru_order_ s) (lru_map_ s) (pc_ s)
    (pins_ s) w (residual_ s).
Definition set_residual (r : Residual) (s : KVM) : KVM :=
  mkKVM (cache_ s) (seq_blocks_ s) (seq_block_hashes_ s) (lru_order_ s) (lru_map_ s) (pc_ s)
    (pins_ s) (swa_ s) r.

Definition pool (s : KVM) : BlockPool := blocks_ (cache_ s).
Definition bsz (s : KVM) : Z := block_size_ (cache_ s).
Definition pinned (s : KVM) : gset Z := pinned_blocks_ (pins_ s).

(** [KVCache::allocate_swa_block] and [KVCache::free_swa_block]. *)
Definition allocate_swa_block (p : BlockPool) : BlockPool * Z :=
  let '(p, r) := acquire p in (p, block_ref_release r).
Definition free_swa_block (id : Z) (p : BlockPool) : BlockPool := release_raw id p.

Definition set_pc_enabled (e : bool) (c : PrefixCache) : PrefixCache :=
  mkPC e (block_hash_to_id_ c) (block_id_to_hash_ c) (cached_blocks_lru_ c)
    (cached_blocks_map_ c) (reclaimable_cached_count_ c).
Definition set_prefix_caching_enabled (e : bool) (s : KVM) : KVM :=
  set_pc (set_pc_enabled e (pc_ s)) s.
Definition set_pin_budget_blocks (n : Z) (s : KVM) : KVM :=
  let q := pins_ s in
  set_pins (mkPins (pinned_blocks_ q) (pinned_seq_blocks_ q) (pin_refcount_ q) (pin_fifo_ q) n) s.

(** ** Hash tables *)

(** Erase a block's entries from both hash maps, if it has any. *)
Definition drop_hash (b : Z) (c : PrefixCache) : PrefixCache :=
  match block_id_to_hash_ c !! b with
  | Some h =>
      mkPC (prefix_caching_enabled_ c) (delete h (block_hash_to_id_ c))
           (delete b (block_id_to_hash_ c)) (cached_blocks_lru_ c) (cached_blocks_map_ c)
           (reclaimable_cached_count_ c)
  | None => c
  end.

Definition drop_stale_hash_if_last (b : Z) (p : BlockPool) (c : PrefixCache) : PrefixCache :=
  if (0 <=? b) && (ref_count b p =? 1) then drop_hash b c else c.

(** FNV-1a over the tokens' 32-bit images, chained through the parent hash. *)
Definition fnv_offset : Z := 0xcbf29ce484222325.
Definition fnv_prime : Z := 0x100000001b3.
Definition compute_block_hash (tokens : list Z) (parent_hash : Z) : Z :=
  foldl (fun h tok => Z.lxor h (u32 tok) *64 fnv_prime) (Z.lxor parent_hash fnv_offset) tokens.

Definition subspan (tokens : list Z) (start count : Z) : list Z :=
  take (Z.to_nat count) (drop (Z.to_nat start) tokens).

(** ** Block allocation with reclaim *)

(** The LRU scan that rotates pinned blocks to the back, at most [n] times. *)
Fixpoint rotate_pinned (n : nat) (pinned : gset Z) (l : list Z) : list Z :=
  match n, l with
  | S n, b :: l' => if bool_decide (b ∈ pinned) then rotate_pinned n pinned (l' ++ [b]) else l
  | _, _ => l
  end.

Definition set_cached (lru : list Z) (m : gmap Z BlockRef) (n : Z) (c : PrefixCache) : PrefixCache :=
  mkPC (prefix_caching_enabled_ c) (block_hash_to_id_ c) (block_id_to_hash_ c) lru m n.

Definition reclaim_cached_block (pinned : gset Z) (p : BlockPool) (c : PrefixCache)
    : Z * BlockPool * PrefixCache :=
  if reclaimable_cached_count_ c <=? 0 then (-1, p, c)
  else
    let lru := rotate_pinned (length (cached_blocks_lru_ c)) pinned (cached_blocks_lru_ c) in
    let c1 := set_cached lru (cached_blocks_map_ c) (reclaimable_cached_count_ c) c in
    match lru with
    | [] => (-1, p, c1)
    | b :: rest =>
        if bool_decide (b ∈ pinned) then (-1, p, c1)
        else
          let ref := default None (cached_blocks_map_ c !! b) in
          let c2 := drop_hash b (set_cached rest (cached_blocks_map_ c)
                                   (reclaimable_cached_count_ c - 1) c) in
          (b, block_ref_reset ref p,
           set_cached (cached_blocks_lru_ c2) (delete b (cached_blocks_map_ c2))
             (reclaimable_cached_count_ c2) c2)
    end.

(** The [while (!cached_blocks_lru_.empty())] loop; every iteration that
    continues removes one LRU entry, so the list's length is enough fuel. *)
Fixpoint evict_loop (fuel : nat) (pinned : gset Z) (p : BlockPool) (c : PrefixCache)
    : BlockRef * BlockPool * PrefixCache :=
  match fuel with
  | O => (None, p, c)
  | S fuel =>
      match cached_blocks_lru_ c with
      | [] => (None, p, c)
      | _ :: _ =>
          let '(r, p, c) := reclaim_cached_block pinned p c in
          if r <? 0 then (None, p, c)
          else match acquire p with
               | (p, Some id) => (Some id, p, c)
               | (p, None) => evict_loop fuel pinned p c
               end
      end
  end.

Definition allocate_block_ref_with_eviction (pinned : gset Z) (p : BlockPool) (c : PrefixCache)
    : BlockRef * BlockPool * PrefixCache :=
  match acquire p with
  | (p, Some id) => (Some id, p, c)
  | (p, None) => evict_loop (length (cached_blocks_lru_ c)) pinned p c
  end.

Definition evict_cached_block (s : KVM) : KVM * bool :=
  let '(r, p, c) := reclaim_cached_block (pinned s) (pool s) (pc_ s) in
  (set_pc c (set_pool p s), 0 <=? r).

(** ** Sequence management *)

Definition id_at (i : Z) (bl : list BlockRef) : Z :=
  match vget i bl with Some r => ref_id r | None => -1 end.

(** "Make sure the sequence is tracked in the LRU list." *)
Definition lru_track (seq : Z) (s : KVM) : KVM :=
  if bool_decide (seq ∈ lru_map_ s) then s
  else set_lru (lru_order_ s ++ [seq]) ({[seq]} ∪ lru_map_ s) s.

Fixpoint alloc_loop (n : nat) (pinned : gset Z) (p : BlockPool) (c : PrefixCache)
    (bl : list BlockRef) : bool * BlockPool * PrefixCache * list BlockRef :=
  match n with
  | O => (true, p, c, bl)
  | S n =>
      match allocate_block_ref_with_eviction pinned p c with
      | (Some id, p, c) => alloc_loop n pinned p c (bl ++ [Some id])
      | (None, p, c) => (false, p, c, bl)
      end
  end.

Definition allocate_blocks (seq num_blocks : Z) (s : KVM) : KVM * bool :=
  if num_blocks <=? 0 then (s, true)
  else
    let bl := default [] (seq_blocks_ s !! seq) in
    match alloc_loop (Z.to_nat num_blocks) (pinned s) (pool s) (pc_ s) bl with
    | (true, p, c, bl') =>
        (lru_track seq (set_seqs (<[seq := bl']> (seq_blocks_ s)) (set_pc c (set_pool p s))), true)
    | (false, p, c, bl') =>
        let p := drop_refs (drop (length bl) bl') p in
        let bl' := take (length bl) bl' in
        (set_seqs (if bool_decide (bl' = []) then delete seq (seq_blocks_ s)
                   else <[seq := bl']> (seq_blocks_ s)) (set_pc c (set_pool p s)), false)
    end.

Definition append_block (seq : Z) (s : KVM) : KVM * Z :=
  match seq_blocks_ s !! seq with
  | None => (s, -1)
  | Some bl =>
      match allocate_block_ref_with_eviction (pinned s) (pool s) (pc_ s) with
      | (None, p, c) => (set_pc c (set_pool p s), -1)
      | (Some id, p, c) =>
          (set_seqs (<[seq := bl ++ [Some id]]> (seq_blocks_ s)) (set_pc c (set_pool p s)), id)
      end
  end.

(** One slot of [free_sequence]'s scan: the reference left in the table (to be
    dropped with it) and the prefix cache after a possible hand-over. *)
Definition free_seq_slot (pinned : gset Z) (p : BlockPool) (r : BlockRef) (c : PrefixCache)
    : BlockRef * PrefixCache :=
  match r with
  | None => (None, c)
  | Some b =>
      let add (n : Z) := set_cached (cached_blocks_lru_ c ++ [b])
                           (<[b := Some b]> (cached_blocks_map_ c)) n c in
      if bool_decide (b ∈ pinned) then
        match cached_blocks_map_ c !! b with
        | None => (None, add (reclaimable_cached_count_ c))
        | Some _ => (Some b, c)
        end
      else if prefix_caching_enabled_ c && (ref_count b p =? 1) then
        match block_id_to_hash_ c !! b with
        | Some _ =>
            match cached_blocks_map_ c !! b with
            | None => (None, add (reclaimable_cached_count_ c + 1))
            | Some _ => (Some b, c)
            end
        | None => (Some b, c)
        end
      else (Some b, c)
  end.

Fixpoint free_seq_scan (pinned : gset Z) (p : BlockPool) (bl : list BlockRef) (c : PrefixCache)
    : list BlockRef * PrefixCache :=
  match bl with
  | [] => ([], c)
  | r :: bl =>
      let '(r, c) := free_seq_slot pinned p r c in
      let '(bl, c) := free_seq_scan pinned p bl c in
      (r :: bl, c)
  end.

Definition free_swa_table (t : list Z) (p : BlockPool) : BlockPool :=
  foldl (fun p b => if 0 <=? b then free_swa_block b p else p) p t.

Definition release_residual_slot (seq : Z) (s : KVM) : KVM :=
  let r := residual_ s in
  if residual_enabled_ r then
    match residual_seq_slot_ r !! seq with
    | None => s
    | Some slot =>
        set_residual (mkRes true (residual_n_tokens_ r) (residual_max_seqs_ r)
                        (delete seq (seq_residual_state_ r)) (residual_free_slots_ r ++ [slot])
                        (delete seq (residual_seq_slot_ r))) s
    end
  else s.

Definition free_swa_seq (seq : Z) (s : KVM) : KVM :=
  let w := swa_ s in
  match seq_swa_blocks_ w !! seq with
  | None => s
  | Some t =>
      set_swa (mkSwa (delete seq (seq_swa_blocks_ w)) (delete seq (swa_trim_cursor_ w))
                 (swa_window_ w) (swa_slack_ w))
        (set_swa_pool (free_swa_table t (swa_blocks_ (cache_ s))) s)
  end.

Definition lru_untrack (seq : Z) (s : KVM) : KVM :=
  if bool_decide (seq ∈ lru_map_ s) then
    set_lru (list_erase seq (lru_order_ s)) (lru_map_ s ∖ {[seq]}) s
  else s.

Definition free_sequence (seq : Z) (s : KVM) : KVM :=
  match seq_blocks_ s !! seq with
  | None => s
  | Some bl =>
      let '(bl, c) := free_seq_scan (pinned s) (pool s) bl (pc_ s) in
      let s := set_pc c (set_pool (drop_refs bl (pool s)) s) in
      let s := set_hashes (delete seq (seq_block_hashes_ s))
                 (set_seqs (delete seq (seq_blocks_ s)) s) in
      lru_untrack seq (release_residual_slot seq (free_swa_seq seq s))
  end.

Definition block_table (seq : Z) (s : KVM) : list Z :=
  ref_id <$> default [] (seq_blocks_ s !! seq).

Definition num_free_blocks (s : KVM) : Z := free_count (pool s).

(** ** LRU *)

Definition touch (seq : Z) (s : KVM) : KVM :=
  if bool_decide (seq ∈ lru_map_ s) then
    set_lru (list_erase seq (lru_order_ s) ++ [seq]) (lru_map_ s) s
  else set_lru (lru_order_ s ++ [seq]) ({[seq]} ∪ lru_map_ s) s.

Definition evict_lru (s : KVM) : KVM * Z :=
  match list_find (fun c => pinned_seq_blocks_ (pins_ s) !! c = None) (lru_order_ s) with
  | Some (_, c) => (free_sequence c s, c)
  | None => (s, -1)
  end.

Fixpoint can_allocate_scan (lru : list Z) (need acc : Z) (s : KVM) : bool :=
  match lru with
  | [] => false
  | q :: lru =>
      match pinned_seq_blocks_ (pins_ s) !! q with
      | Some _ => can_allocate_scan lru need acc s
      | None =>
          let acc := acc + match seq_blocks_ s !! q with
                           | Some bl => Z.of_nat (length bl) | None => 0 end in
          if need <=? acc then true else can_allocate_scan lru need acc s
      end
  end.

Definition can_allocate (num_blocks : Z) (s : KVM) : bool :=
  if num_blocks <=? 0 then true
  else
    let reclaimable := num_free_blocks s + reclaimable_cached_count_ (pc_ s) in
    if num_blocks <=? reclaimable then true
    else can_allocate_scan (lru_order_ s) num_blocks reclaimable s.

(** ** Content-addressed prefix caching *)

(** Chain state of [longest_cached_prefix_blocks]: hashes so far, parent, the
    cached run and whether it is still unbroken. *)
Fixpoint lcp_loop (n : nat) (b bs : Z) (tokens : list Z) (tbl : gmap Z Z)
    (hs : list Z) (parent cached : Z) (intact : bool) : Z * list Z :=
  match n with
  | O => (cached, hs)
  | S n =>
      let h := compute_block_hash (subspan tokens (b * bs) bs) parent in
      let hit := intact && bool_decide (is_Some (tbl !! h)) in
      lcp_loop n (b + 1) bs tokens tbl (hs ++ [h]) h (if hit then b + 1 else cached) hit
  end.

Definition longest_cached_prefix_blocks (tokens : list Z) (content_salt : Z) (s : KVM)
    : Z * list Z :=
  let full_blocks := Z.quot (Z.of_nat (length tokens)) (bsz s) in
  lcp_loop (Z.to_nat full_blocks) 0 (bsz s) tokens (block_hash_to_id_ (pc_ s)) []
    content_salt 0 true.

(** Local state of [allocate_blocks_with_prefix]'s loop. *)
Record AwpState := mkAwp {
  w_pool : BlockPool;
  w_pc : PrefixCache;
  w_blocks : list BlockRef;
  w_hashes : list Z;
  w_parent : Z;
  w_open : bool;
  w_reused : Z
}.

Definition set_h2i (h2i i2h : gmap Z Z) (c : PrefixCache) : PrefixCache :=
  mkPC (prefix_caching_enabled_ c) h2i i2h (cached_blocks_lru_ c) (cached_blocks_map_ c)
    (reclaimable_cached_count_ c).

(** The lookup with its stale-entry check: a hash that maps to a free-listed
    block (count 0, not cached) is erased and treated as a miss. *)
Definition awp_lookup (reuse_open : bool) (h : Z) (p : BlockPool) (c : PrefixCache)
    : option Z * PrefixCache :=
  match (if reuse_open then block_hash_to_id_ c !! h else None) with
  | None => (None, c)
  | Some b =>
      if (ref_count b p =? 0) && bool_decide (cached_blocks_map_ c !! b = None) then
        (None, set_h2i (delete h (block_hash_to_id_ c)) (delete b (block_id_to_hash_ c)) c)
      else (Some b, c)
  end.

(** Take the hit block: move the cache's reference, or share a live one. *)
Definition awp_take (pinned : gset Z) (b : Z) (p : BlockPool) (c : PrefixCache)
    : BlockRef * BlockPool * PrefixCache :=
  match cached_blocks_map_ c !! b with
  | Some ref =>
      (ref, p,
       set_cached (list_erase b (cached_blocks_lru_ c)) (delete b (cached_blocks_map_ c))
         (if bool_decide (b ∈ pinned) then reclaimable_cached_count_ c
          else reclaimable_cached_count_ c - 1) c)
  | None => let '(p, r) := share_by_id b p in (r, p, c)
  end.

(** One iteration, for block [b]; [false] is the allocation failure. *)
Definition awp_step (pinned : gset Z) (bs : Z) (tokens : list Z) (max_reuse b : Z)
    (w : AwpState) : bool * AwpState :=
  let block_start := b * bs in
  let block_tokens := Z.min bs (Z.of_nat (length tokens) - block_start) in
  let is_full := block_tokens =? bs in
  let open := if (0 <=? max_reuse) && (max_reuse <=? b) then false else w_open w in
  let h := compute_block_hash (subspan tokens block_start block_tokens) (w_parent w) in
  if prefix_caching_enabled_ (w_pc w) && is_full then
    let '(hit, c) := awp_lookup open h (w_pool w) (w_pc w) in
    match hit with
    | Some cached =>
        let '(r, p, c) := awp_take pinned cached (w_pool w) c in
        (true, mkAwp p c (w_blocks w ++ [r]) (w_hashes w ++ [h]) h open (w_reused w + 1))
    | None =>
        match allocate_block_ref_with_eviction pinned (w_pool w) c with
        | (None, p, c) =>
            (false, mkAwp p c (w_blocks w) (w_hashes w) (w_parent w) false (w_reused w))
        | (Some id, p, c) =>
            (true, mkAwp p c (w_blocks w ++ [Some id]) (w_hashes w ++ [h]) h false (w_reused w))
        end
    end
  else
    match allocate_block_ref_with_eviction pinned (w_pool w) (w_pc w) with
    | (None, p, c) => (false, mkAwp p c (w_blocks w) (w_hashes w) (w_parent w) open (w_reused w))
    | (Some id, p, c) =>
        (true,
         if is_full then
           mkAwp p c (w_blocks w ++ [Some id]) (w_hashes w ++ [h]) h open (w_reused w)
         else
           mkAwp p c (w_blocks w ++ [Some id]) (w_hashes w ++ [0]) (w_parent w) open (w_reused w))
    end.

Fixpoint awp_loop (n : nat) (pinned : gset Z) (bs : Z) (tokens : list Z) (max_reuse b : Z)
    (w : AwpState) : bool * AwpState :=
  match n with
  | O => (true, w)
  | S n =>
      match awp_step pinned bs tokens max_reuse b w with
      | (false, w) => (false, w)
      | (true, w) => awp_loop n pinned bs tokens max_reuse (b + 1) w
      end
  end.

(** [v.resize(n)] with value-initialised growth. *)
Definition vec_resize (n : nat) (l : list Z) : list Z := take n l ++ replicate (n - length l) 0.

(** [rollback_partial_allocation] on the loop's local state. *)
Definition rollback_partial_allocation (seq : Z) (orig : nat) (w : AwpState) (s : KVM) : KVM :=
  let extra := drop orig (w_blocks w) in
  let c := foldl (fun c r => drop_stale_hash_if_last (ref_id r) (w_pool w) c) (w_pc w) extra in
  let p := drop_refs extra (w_pool w) in
  let bl := take orig (w_blocks w) in
  let hs := vec_resize orig (w_hashes w) in
  let s := set_pc c (set_pool p s) in
  if bool_decide (bl = []) then
    set_hashes (delete seq (seq_block_hashes_ s)) (set_seqs (delete seq (seq_blocks_ s)) s)
  else
    set_hashes (<[seq := hs]> (seq_block_hashes_ s)) (set_seqs (<[seq := bl]> (seq_blocks_ s)) s).

Definition allocate_blocks_with_prefix (seq : Z) (tokens : list Z) (max_reuse content_salt : Z)
    (s : KVM) : KVM * Z :=
  let num_tokens := Z.of_nat (length tokens) in
  if num_tokens <=? 0 then (s, 0)
  else
    let total_blocks := ceil_blocks num_tokens (bsz s) in
    let bl := default [] (seq_blocks_ s !! seq) in
    match bl with
    | _ :: _ =>
        let additional := total_blocks - Z.of_nat (length bl) in
        if 0 <? additional then
          let '(s, ok) := allocate_blocks seq additional s in (s, if ok : bool then 0 else -1)
        else (s, 0)
    | [] =>
        let hs := default [] (seq_block_hashes_ s !! seq) in
        match awp_loop (Z.to_nat total_blocks) (pinned s) (bsz s) tokens max_reuse 0
                (mkAwp (pool s) (pc_ s) bl hs content_salt true 0) with
        | (false, w) => (rollback_partial_allocation seq 0 w s, -1)
        | (true, w) =>
            (lru_track seq
               (set_hashes (<[seq := w_hashes w]> (seq_block_hashes_ s))
                  (set_seqs (<[seq := w_blocks w]> (seq_blocks_ s))
                     (set_pc (w_pc w) (set_pool (w_pool w) s)))), w_reused w)
        end
    end.

Definition register_hash (h b : Z) (c : PrefixCache) : PrefixCache :=
  match block_hash_to_id_ c !! h with
  | Some _ => c
  | None => set_h2i (<[h := b]> (block_hash_to_id_ c)) (<[b := h]> (block_id_to_hash_ c)) c
  end.

Fixpoint register_loop (n : nat) (b bs : Z) (tokens : list Z) (bl : list BlockRef)
    (hs : list Z) (parent : Z) (c : PrefixCache) : list Z * PrefixCache :=
  match n with
  | O => (hs, c)
  | S n =>
      let block_start := b * bs in
      let block_tokens := Z.min bs (Z.of_nat (length tokens) - block_start) in
      if block_tokens <? bs then (hs, c)
      else
        let block_id := id_at b bl in
        match vget b hs with
        | Some h =>
            if negb (h =? 0) then
              register_loop n (b + 1) bs tokens bl hs h (register_hash h block_id c)
            else
              let h := compute_block_hash (subspan tokens block_start block_tokens) parent in
              register_loop n (b + 1) bs tokens bl (vset b h hs) h (register_hash h block_id c)
        | None =>
            let h := compute_block_hash (subspan tokens block_start block_tokens) parent in
            register_loop n (b + 1) bs tokens bl (hs ++ [h]) h (register_hash h block_id c)
        end
  end.

Definition register_block_hashes (seq : Z) (tokens : list Z) (content_salt : Z) (s : KVM) : KVM :=
  if prefix_caching_enabled_ (pc_ s) then
    match seq_blocks_ s !! seq with
    | None => s
    | Some bl =>
        let '(hs, c) := register_loop (length bl) 0 (bsz s) tokens bl
                          (default [] (seq_block_hashes_ s !! seq)) content_salt (pc_ s) in
        set_pc c (set_hashes (<[seq := hs]> (seq_block_hashes_ s)) s)
    end
  else s.

Definition num_cached_blocks (s : KVM) : Z := Z.of_nat (length (cached_blocks_lru_ (pc_ s))).

(** ** Prefix pinning *)

(** One block of [unpin_prefix]'s loop. *)
Definition unpin_block (b : Z) (q : Pins) (c : PrefixCache) : Pins * PrefixCache :=
  match pin_refcount_ q !! b with
  | None => (q, c)
  | Some n =>
      if 0 <? n - 1 then
        (mkPins (pinned_blocks_ q) (pinned_seq_blocks_ q) (<[b := n - 1]> (pin_refcount_ q))
           (pin_fifo_ q) (pin_budget_blocks_ q), c)
      else
        (mkPins (pinned_blocks_ q ∖ {[b]}) (pinned_seq_blocks_ q) (delete b (pin_refcount_ q))
           (pin_fifo_ q) (pin_budget_blocks_ q),
         match cached_blocks_map_ c !! b with
         | Some _ => set_cached (cached_blocks_lru_ c) (cached_blocks_map_ c)
                       (reclaimable_cached_count_ c + 1) c
         | None => c
         end)
  end.

Fixpoint unpin_blocks (bs : list Z) (q : Pins) (c : PrefixCache) : Pins * PrefixCache :=
  match bs with
  | [] => (q, c)
  | b :: bs => let '(q, c) := unpin_block b q c in unpin_blocks bs q c
  end.

Definition unpin_core (seq : Z) (q : Pins) (c : PrefixCache) : Pins * PrefixCache :=
  match pinned_seq_blocks_ q !! seq with
  | None => (q, c)
  | Some bs =>
      let '(q, c) := unpin_blocks bs q c in
      (mkPins (pinned_blocks_ q) (delete seq (pinned_seq_blocks_ q)) (pin_refcount_ q)
         (list_erase seq (pin_fifo_ q)) (pin_budget_blocks_ q), c)
  end.

Definition unpin_prefix (seq : Z) (s : KVM) : KVM :=
  let '(q, c) := unpin_core seq (pins_ s) (pc_ s) in set_pc c (set_pins q s).

(** The budget loop: unpin the oldest owner while the new pin does not fit. *)
Fixpoint budget_loop (fuel : nat) (to_pin : Z) (q : Pins) (c : PrefixCache)
    : option (Pins * PrefixCache) :=
  match pin_fifo_ q with
  | [] => Some (q, c)
  | front :: _ =>
      if pin_budget_blocks_ q <? Z.of_nat (size (pin_refcount_ q)) + to_pin then
        match fuel with
        | O => None
        | S fuel => let '(q, c) := unpin_core front q c in budget_loop fuel to_pin q c
        end
      else Some (q, c)
  end.

(** One block of [pin_prefix]'s loop. *)
Definition pin_block (b : Z) (q : Pins) (c : PrefixCache) : Pins * PrefixCache :=
  let already_pinned := bool_decide (b ∈ pinned_blocks_ q) in
  let n := default 0 (pin_refcount_ q !! b) + 1 in
  let rc := <[b := n]> (pin_refcount_ q) in
  if (n =? 1) && negb already_pinned then
    (mkPins ({[b]} ∪ pinned_blocks_ q) (pinned_seq_blocks_ q) rc (pin_fifo_ q)
       (pin_budget_blocks_ q),
     match cached_blocks_map_ c !! b with
     | Some _ => set_cached (cached_blocks_lru_ c) (cached_blocks_map_ c)
                   (reclaimable_cached_count_ c - 1) c
     | None => c
     end)
  else
    (mkPins (pinned_blocks_ q) (pinned_seq_blocks_ q) rc (pin_fifo_ q) (pin_budget_blocks_ q), c).

(** [for (i = 0; i < to_pin; ++i)], skipping holes; returns the owned ids. *)
Fixpoint pin_loop (bl : list BlockRef) (q : Pins) (c : PrefixCache)
    : Pins * PrefixCache * list Z :=
  match bl with
  | [] => (q, c, [])
  | None :: bl => pin_loop bl q c
  | Some b :: bl =>
      let '(q, c) := pin_block b q c in
      let '(q, c, owned) := pin_loop bl q c in
      (q, c, b :: owned)
  end.

(** The budget loop runs at most once per pin owner ([pin_fifo_] is its fuel);
    [None] would be a diverging budget loop, excluded by [pins_inv]. *)
Definition pin_prefix (seq num_blocks : Z) (s : KVM) : option KVM :=
  match seq_blocks_ s !! seq with
  | None => Some s
  | Some bl =>
      let to_pin := Z.min num_blocks (Z.of_nat (length bl)) in
      if to_pin <=? 0 then Some s
      else
        let '(q, c) := unpin_core seq (pins_ s) (pc_ s) in
        let to_pin := if 0 <? pin_budget_blocks_ q then Z.min to_pin (pin_budget_blocks_ q)
                      else to_pin in
        match (if 0 <? pin_budget_blocks_ q then budget_loop (length (pin_fifo_ q)) to_pin q c
               else Some (q, c)) with
        | None => None
        | Some (q, c) =>
            let '(q, c, owned) := pin_loop (take (Z.to_nat to_pin) bl) q c in
            if bool_decide (owned = []) then Some (set_pc c (set_pins q s))
            else
              Some (set_pc c
                     (set_pins (mkPins (pinned_blocks_ q) (<[seq := owned]> (pinned_seq_blocks_ q))
                                 (pin_refcount_ q) (pin_fifo_ q ++ [seq]) (pin_budget_blocks_ q)) s))
        end
  end.

Definition num_pinned_blocks (s : KVM) : Z := Z.of_nat (size (pinned s)).

(** ** StreamingLLM middle eviction and speculative rollback *)

(** The middle-block loop over slots [i, i + n). *)
Fixpoint evict_slots (n : nat) (i : nat) (bl : list BlockRef) (p : BlockPool) (c : PrefixCache)
    (freed : Z) : list BlockRef * BlockPool * PrefixCache * Z :=
  match n with
  | O => (bl, p, c, freed)
  | S n =>
      match bl !! i with
      | Some (Some b) =>
          evict_slots n (S i) (<[i := None]> bl) (block_ref_reset (Some b) p) (drop_hash b c)
            (freed + 1)
      | _ => evict_slots n (S i) bl p c freed
      end
  end.

(** The second loop: forget the hashes of every block from [i] on. *)
Fixpoint clear_hashes (n : nat) (i : nat) (bl : list BlockRef) (hs : list Z) (c : PrefixCache)
    : list Z * PrefixCache :=
  match n with
  | O => (hs, c)
  | S n =>
      if (i <? length bl)%nat && (i <? length hs)%nat then
        let c := match bl !! i with Some (Some b) => drop_hash b c | _ => c end in
        clear_hashes n (S i) bl (<[i := 0]> hs) c
      else (hs, c)
  end.

Definition evict_middle_blocks (seq n_sink n_window : Z) (s : KVM) : option (KVM * Z) :=
  match seq_blocks_ s !! seq with
  | None => Some (s, 0)
  | Some bl =>
      if (n_sink <=? 0) || (n_window <=? 0) then Some (s, 0)
      else
        let total := Z.of_nat (length bl) in
        if total =? 0 then Some (s, 0)
        else
          let sink_end := ceil_blocks n_sink (bsz s) in
          let window_count := ceil_blocks n_window (bsz s) in
          let window_start := Z.max 0 (total - window_count - 1) in
          if window_start <=? sink_end then Some (s, 0)
          else
            let already := match pinned_seq_blocks_ (pins_ s) !! seq with
                           | Some o => Z.of_nat (length o) | None => 0 end in
            match (if already <? sink_end then pin_prefix seq sink_end s else Some s) with
            | None => None
            | Some s =>
                let '(bl, p, c, freed) :=
                  evict_slots (Z.to_nat (window_start - sink_end)) (Z.to_nat sink_end) bl
                    (pool s) (pc_ s) 0 in
                let s := set_seqs (<[seq := bl]> (seq_blocks_ s)) (set_pool p s) in
                match seq_block_hashes_ s !! seq with
                | None => Some (set_pc c s, freed)
                | Some hs =>
                    let '(hs, c) := clear_hashes (length bl) (Z.to_nat sink_end) bl hs c in
                    Some (set_pc c (set_hashes (<[seq := hs]> (seq_block_hashes_ s)) s), freed)
                end
            end
  end.

(** Pop table slots until [needed] remain, dropping each reference. *)
Fixpoint rollback_loop (fuel needed : nat) (bl : list BlockRef) (p : BlockPool) (c : PrefixCache)
    : list BlockRef * BlockPool * PrefixCache :=
  match fuel with
  | O => (bl, p, c)
  | S fuel =>
      if (needed <? length bl)%nat then
        let r := default None (last bl) in
        rollback_loop fuel needed (pop_back bl) (block_ref_reset r p)
          (drop_stale_hash_if_last (ref_id r) p c)
      else (bl, p, c)
  end.

Fixpoint rollback_swa_loop (fuel needed : nat) (t : list Z) (p : BlockPool) : list Z * BlockPool :=
  match fuel with
  | O => (t, p)
  | S fuel =>
      if (needed <? length t)%nat then
        let b := default (-1) (last t) in
        rollback_swa_loop fuel needed (pop_back t) (if 0 <=? b then free_swa_block b p else p)
      else (t, p)
  end.

Definition rollback (seq new_seq_len : Z) (s : KVM) : KVM :=
  match seq_blocks_ s !! seq with
  | None => s
  | Some bl =>
      if bool_decide (bl = []) || (new_seq_len <? 0) then s
      else
        let needed := Z.to_nat (ceil_blocks new_seq_len (bsz s)) in
        let '(bl, p, c) := rollback_loop (length bl) needed bl (pool s) (pc_ s) in
        let s := set_seqs (<[seq := bl]> (seq_blocks_ s)) (set_pc c (set_pool p s)) in
        let s := match seq_block_hashes_ s !! seq with
                 | Some hs => set_hashes (<[seq := take needed hs]> (seq_block_hashes_ s)) s
                 | None => s
                 end in
        let w := swa_ s in
        match seq_swa_blocks_ w !! seq with
        | None => s
        | Some t =>
            let '(t, wp) := rollback_swa_loop (length t) needed t (swa_blocks_ (cache_ s)) in
            let cur := match swa_trim_cursor_ w !! seq with
                       | Some k => <[seq := Z.min k (Z.of_nat needed)]> (swa_trim_cursor_ w)
                       | None => swa_trim_cursor_ w
                       end in
            set_swa (mkSwa (<[seq := t]> (seq_swa_blocks_ w)) cur (swa_window_ w) (swa_slack_ w))
              (set_swa_pool wp s)
        end
  end.

(** ** Sliding-window (SWA) tables *)

Definition enable_swa_sizing (window_tokens slack_tokens : Z) (s : KVM) : KVM :=
  if (swa_max_blocks_ (cache_ s) <=? 0) || (window_tokens <=? 0) then s
  else
    let w := swa_ s in
    set_swa (mkSwa (seq_swa_blocks_ w) (swa_trim_cursor_ w) window_tokens
               (Z.max slack_tokens (bsz s))) s.

(** [v.resize(n, -1)] when the vector is shorter. *)
Definition pad_holes (n : nat) (t : list Z) : list Z := t ++ replicate (n - length t) (-1).

(** Fill the holes of slots [b, b + n); [false] when the group is exhausted. *)
Fixpoint swa_fill (n : nat) (b : nat) (t : list Z) (p : BlockPool) : bool * list Z * BlockPool :=
  match n with
  | O => (true, t, p)
  | S n =>
      if 0 <=? default (-1) (t !! b) then swa_fill n (S b) t p
      else
        let '(p, id) := allocate_swa_block p in
        if id <? 0 then (false, t, p) else swa_fill n (S b) (<[b := id]> t) p
  end.

(** First block of the live window when [tok] is the first live token. *)
Definition live_block (tok bs : Z) : Z := if 0 <? tok then Z.quot tok bs else 0.

Definition swa_prepare (seq from_tokens upto_tokens : Z) (s : KVM) : KVM * bool :=
  let w := swa_ s in
  if (swa_window_ w <=? 0) || (upto_tokens <=? 0) then (s, true)
  else
    match seq_blocks_ s !! seq with
    | None => (s, true)
    | Some bl =>
        let t := pad_holes (length bl) (default [] (seq_swa_blocks_ w !! seq)) in
        let first_live :=
          live_block (Z.min from_tokens upto_tokens - swa_window_ w - swa_slack_ w) (bsz s) in
        let end_block := Z.min (ceil_blocks upto_tokens (bsz s)) (Z.of_nat (length t)) in
        let '(ok, t, p) := swa_fill (Z.to_nat (end_block - first_live)) (Z.to_nat first_live) t
                             (swa_blocks_ (cache_ s)) in
        (set_swa (mkSwa (<[seq := t]> (seq_swa_blocks_ w)) (swa_trim_cursor_ w)
                    (swa_window_ w) (swa_slack_ w)) (set_swa_pool p s), ok)
    end.

(** Free the live entries of slots [b, b + n). *)
Fixpoint swa_trim_loop (n : nat) (b : nat) (t : list Z) (p : BlockPool) : list Z * BlockPool :=
  match n with
  | O => (t, p)
  | S n =>
      let id := default (-1) (t !! b) in
      if 0 <=? id then swa_trim_loop n (S b) (<[b := -1]> t) (free_swa_block id p)
      else swa_trim_loop n (S b) t p
  end.

Definition swa_trim (seq committed_tokens : Z) (s : KVM) : KVM :=
  let w := swa_ s in
  if swa_window_ w <=? 0 then s
  else
    match seq_swa_blocks_ w !! seq with
    | None => s
    | Some t =>
        let dead_end := committed_tokens - swa_window_ w - swa_slack_ w in
        if dead_end <=? 0 then s
        else
          let dead_blocks := Z.min (Z.quot dead_end (bsz s)) (Z.of_nat (length t)) in
          let cursor := default 0 (swa_trim_cursor_ w !! seq) in
          let '(t, p) := swa_trim_loop (Z.to_nat (dead_blocks - cursor)) (Z.to_nat cursor) t
                           (swa_blocks_ (cache_ s)) in
          set_swa (mkSwa (<[seq := t]> (seq_swa_blocks_ w))
                     (<[seq := Z.max cursor dead_blocks]> (swa_trim_cursor_ w))
                     (swa_window_ w) (swa_slack_ w)) (set_swa_pool p s)
    end.

Definition swa_block_table (seq : Z) (s : KVM) : list Z :=
  default [] (seq_swa_blocks_ (swa_ s) !! seq).

Definition swa_first_live_block (upto_tokens : Z) (s : KVM) : Z :=
  live_block (upto_tokens - swa_window_ (swa_ s) - swa_slack_ (swa_ s)) (bsz s).

(** *** Window snapshots *)

(** The snapshot layout [enable_swa_snapshots] computes: bytes per snapshot,
    blocks per layer, and for every sliding-window layer its block bytes and
    scale bytes (0 without scales); the capacity is that of the descriptors. *)
Record SwaSnapshots := mkSnaps {
  swa_snap_bytes_ : Z;
  swa_snap_win_blocks_ : Z;
  swa_snap_layers_ : list (Z * Z);
  swa_desc_cap_ : Z
}.

(** The block loop of one layer in [swa_snapshot_copy_] over slots [b, b + n):
    the descriptors put, or [None] at a hole inside the read-relevant window. *)
Fixpoint snap_put_blocks (n : nat) (b : nat) (t : list Z) (kvb scb : Z) (tolerate : Z -> bool)
    (descs : Z) : option Z :=
  match n with
  | O => Some descs
  | S n =>
      if default (-1) (t !! b) <? 0 then
        if tolerate (Z.of_nat b) then snap_put_blocks n (S b) t kvb scb tolerate descs else None
      else
        snap_put_blocks n (S b) t kvb scb tolerate
          (descs + (if kvb =? 0 then 0 else 2) + (if scb =? 0 then 0 else 2))
  end.

Fixpoint snap_put_layers (layers : list (Z * Z)) (n b : nat) (t : list Z) (tolerate : Z -> bool)
    (descs : Z) : option Z :=
  match layers with
  | [] => Some descs
  | (kvb, scb) :: layers =>
      match snap_put_blocks n b t kvb scb tolerate descs with
      | None => None
      | Some descs => snap_put_layers layers n b t tolerate descs
      end
  end.

(** [swa_snapshot_copy_] without the device copy itself: does it copy?  It
    changes no state of the host. *)
Definition swa_snapshot_copy_ (g : SwaSnapshots) (seq upto_tokens : Z) (to_slab : bool) (s : KVM)
    : bool :=
  if (upto_tokens <=? 0) || negb (Z.rem upto_tokens (bsz s) =? 0) then false
  else
    let end_b := Z.quot upto_tokens (bsz s) in
    let first := swa_first_live_block upto_tokens s in
    let count := end_b - first in
    if (count <=? 0) || (swa_snap_win_blocks_ g <? count) then false
    else
      match seq_swa_blocks_ (swa_ s) !! seq with
      | None => false
      | Some t =>
          if Z.of_nat (length t) <? end_b then false
          else
            let needed_start :=
              Z.max first (Z.quot (upto_tokens - swa_window_ (swa_ s)) (bsz s) - 1) in
            let zero_filled :=
              to_slab && existsb (fun b => default (-1) (t !! b) <? 0)
                           (List.seq (Z.to_nat first) (Z.to_nat (needed_start - first))) in
            let tolerate b := to_slab && zero_filled && (b <? needed_start) in
            match snap_put_layers (swa_snap_layers_ g) (Z.to_nat count) (Z.to_nat first) t
                    tolerate 0 with
            | None => false
            | Some n => negb ((n =? 0) || (swa_desc_cap_ g <? n))
            end
      end.

Definition swa_snapshot_pack (g : SwaSnapshots) (seq upto_tokens : Z) (slab : bool) (s : KVM)
    : bool :=
  if (swa_snap_bytes_ g =? 0) || negb slab then false
  else swa_snapshot_copy_ g seq upto_tokens true s.

(** The allocation loop of [swa_snapshot_restore] over slots [b, b + n), with
    the blocks it has taken so far. *)
Fixpoint restore_fill (n : nat) (b : nat) (t : list Z) (p : BlockPool) (fresh : list Z)
    : bool * list Z * BlockPool * list Z :=
  match n with
  | O => (true, t, p, fresh)
  | S n =>
      if 0 <=? default (-1) (t !! b) then restore_fill n (S b) t p fresh
      else
        let '(p, id) := allocate_swa_block p in
        if id <? 0 then (false, t, p, fresh)
        else restore_fill n (S b) (<[b := id]> t) p (fresh ++ [id])
  end.

(** [for b2: if swa[b2] is in fresh, swa[b2] = -1]. *)
Fixpoint clear_fresh (n : nat) (b : nat) (fresh t : list Z) : list Z :=
  match n with
  | O => t
  | S n =>
      clear_fresh n (S b) fresh
        (if bool_decide (default (-1) (t !! b) ∈ fresh) then <[b := -1]> t else t)
  end.

(** The loop after a failed copy, which frees and clears slot by slot. *)
Fixpoint undo_fresh (n : nat) (b : nat) (fresh t : list Z) (p : BlockPool) : list Z * BlockPool :=
  match n with
  | O => (t, p)
  | S n =>
      let id := default (-1) (t !! b) in
      if (0 <=? id) && bool_decide (id ∈ fresh) then
        undo_fresh n (S b) fresh (<[b := -1]> t) (free_swa_block id p)
      else undo_fresh n (S b) fresh t p
  end.

Definition swa_snapshot_restore (g : SwaSnapshots) (seq upto_tokens : Z) (slab : bool) (s : KVM)
    : KVM * bool :=
  if (swa_snap_bytes_ g =? 0) || negb slab then (s, false)
  else if (upto_tokens <=? 0) || negb (Z.rem upto_tokens (bsz s) =? 0) then (s, false)
  else
    let end_b := Z.quot upto_tokens (bsz s) in
    match seq_blocks_ s !! seq with
    | None => (s, false)
    | Some bl =>
        if Z.of_nat (length bl) <? end_b then (s, false)
        else
          let w := swa_ s in
          let t := pad_holes (length bl) (default [] (seq_swa_blocks_ w !! seq)) in
          let first := swa_first_live_block upto_tokens s in
          let put t cur p :=
            set_swa (mkSwa (<[seq := t]> (seq_swa_blocks_ w)) cur (swa_window_ w) (swa_slack_ w))
              (set_swa_pool p s) in
          let n := Z.to_nat (end_b - first) in
          let b := Z.to_nat first in
          match restore_fill n b t (swa_blocks_ (cache_ s)) [] with
          | (false, t, p, fresh) =>
              let p := foldl (fun p f => free_swa_block f p) p fresh in
              (put (clear_fresh n b fresh t) (swa_trim_cursor_ w) p, false)
          | (true, t, p, fresh) =>
              let cur := <[seq := Z.max (default 0 (swa_trim_cursor_ w !! seq)) first]>
                           (swa_trim_cursor_ w) in
              let s := put t cur p in
              if swa_snapshot_copy_ g seq upto_tokens false s then (s, true)
              else
                let '(t, p) := undo_fresh n b fresh t p in
                (put t cur p, false)
          end
    end.

(** ** Loading the persistent prefix cache *)

(** The fields of [PrefixCacheHeader] that are compared with the running cache. *)
Record CacheGeometry := mkGeometry {
  g_n_layers : Z; g_n_kv_heads : Z; g_head_dim : Z; g_dtype : Z;
  g_block_bytes : Z; g_scale_block_bytes : Z; g_model_fingerprint : Z
}.
#[export] Instance geometry_eq_dec : EqDecision CacheGeometry.
Proof. solve_decision. Defined.

(** A cache file as [fread] sees it: magic, version and block count of a header
    that could be read, its geometry, and the hashes of the complete records. *)
Record CacheFile := mkFile {
  f_magic : Z; f_version : Z; f_n_blocks : Z; f_geometry : CacheGeometry; f_records : list Z
}.

Definition kPrefixCacheMagic : Z := 0x494D5043.
Definition kPrefixCacheVersion : Z := 3.

(** The read loop: records whose hash is known are skipped, each other one gets
    a block, until the pool is exhausted. *)
Fixpoint load_read (records : list Z) (h2i : gmap Z Z) (p : BlockPool)
    : list (Z * Z) * BlockPool :=
  match records with
  | [] => ([], p)
  | h :: records =>
      if bool_decide (is_Some (h2i !! h)) then load_read records h2i p
      else
        match acquire p with
        | (p, None) => ([], p)
        | (p, Some id) =>
            let '(entries, p) := load_read records h2i p in ((h, id) :: entries, p)
        end
  end.

(** One entry whose device copy succeeded; its block is fresh, so never a key of
    the map yet. *)
Definition load_entry (h b : Z) (c : PrefixCache) : PrefixCache :=
  set_cached (cached_blocks_lru_ c ++ [b]) (<[b := Some b]> (cached_blocks_map_ c))
    (reclaimable_cached_count_ c + 1)
    (set_h2i (<[h := b]> (block_hash_to_id_ c)) (<[b := h]> (block_id_to_hash_ c)) c).

(** The registration loop; the second component is the entries left holding
    their reference. *)
Fixpoint load_register (copy_ok : Z -> bool) (entries : list (Z * Z)) (c : PrefixCache)
    : PrefixCache * list BlockRef :=
  match entries with
  | [] => (c, [])
  | (h, b) :: entries =>
      if copy_ok b then
        let '(c, refs) := load_register copy_ok entries (load_entry h b c) in (c, None :: refs)
      else
        let '(c, refs) := load_register copy_ok entries c in (c, Some b :: refs)
  end.

(** [copy_ok b]: every device copy of block [b] was accepted.  The result is
    [None] when [reserve] throws on a negative block count. *)
Definition load_prefix_cache (file : option (option CacheFile)) (current : CacheGeometry)
    (copy_ok : Z -> bool) (s : KVM) : KVM * option Z :=
  if negb (prefix_caching_enabled_ (pc_ s)) then (s, Some (-1))
  else
    match file with
    | None => (s, Some 0)
    | Some None => (s, Some (-1))
    | Some (Some f) =>
        if negb (f_magic f =? kPrefixCacheMagic) then (s, Some (-1))
        else if negb (f_version f =? kPrefixCacheVersion) then (s, Some (-1))
        else if negb (bool_decide (f_geometry f = current)) then (s, Some (-1))
        else if i32 (f_n_blocks f) <? 0 then (s, None)
        else
          let '(entries, p) := load_read (take (Z.to_nat (i32 (f_n_blocks f))) (f_records f))
                                 (block_hash_to_id_ (pc_ s)) (pool s) in
          let '(c, refs) := load_register copy_ok entries (pc_ s) in
          (set_pc c (set_pool (drop_refs refs p) s),
           Some (Z.of_nat (length (filter (fun e => copy_ok e.2 = true) entries))))
    end.

(** ** Residual ring slots *)

(** [enable_residual_buffer] once the device allocations have succeeded. *)
Definition enable_residual_slots (max_seqs residual_n : Z) (s : KVM) : KVM * bool :=
  let r := residual_ s in
  if residual_enabled_ r then (s, false)
  else if (max_seqs <=? 0) || (residual_n <=? 0) then (s, false)
  else (set_residual (mkRes true residual_n max_seqs (seq_residual_state_ r)
                        (descending_ids (Z.to_nat max_seqs)) ∅) s, true).

Definition allocate_residual_slot (seq : Z) (s : KVM) : KVM * Z :=
  let r := residual_ s in
  if negb (residual_enabled_ r) then (s, -1)
  else
    match residual_seq_slot_ r !! seq with
    | Some slot => (s, slot)
    | None =>
        match last (residual_free_slots_ r) with
        | None => (s, -1)
        | Some slot =>
            (set_residual (mkRes true (residual_n_tokens_ r) (residual_max_seqs_ r)
                             (seq_residual_state_ r) (pop_back (residual_free_slots_ r))
                             (<[seq := slot]> (residual_seq_slot_ r))) s, slot)
        end
    end.

Definition residual_slot_of (seq : Z) (s : KVM) : Z :=
  default (-1) (residual_seq_slot_ (residual_ s) !! seq).

Definition residual_state (seq : Z) (s : KVM) : ResidualRingState :=
  default (mkRing 0 0) (seq_residual_state_ (residual_ s) !! seq).

Definition advance_residual (seq : Z) (s : KVM) : KVM :=
  let r := residual_ s in
  if negb (residual_enabled_ r) || (residual_n_tokens_ r <=? 0) then s
  else
    let st := default (mkRing 0 0) (seq_residual_state_ r !! seq) in
    let st := mkRing (Z.rem (write_idx st + 1) (residual_n_tokens_ r))
                (if fill_count st <? residual_n_tokens_ r then fill_count st + 1
                 else fill_count st) in
    set_residual (mkRes (residual_enabled_ r) (residual_n_tokens_ r) (residual_max_seqs_ r)
                    (<[seq := st]> (seq_residual_state_ r)) (residual_free_slots_ r)
                    (residual_seq_slot_ r)) s.

(** ** Statistics and the initial state *)

Record KVCacheStats := mkStats {
  active_sequences : Z; total_table_blocks : Z; free_blocks : Z;
  cached_blocks : Z; pinned_count : Z
}.

Definition total_allocated_blocks (s : KVM) : Z :=
  Z.of_nat (msum (fun bl : list BlockRef => length bl) (seq_blocks_ s)).

Definition stats (s : KVM) : KVCacheStats :=
  mkStats (Z.of_nat (size (seq_blocks_ s))) (total_allocated_blocks s) (num_free_blocks s)
    (num_cached_blocks s) (num_pinned_blocks s).

Definition kv_cache_new (max_blocks block_size swa_max_blocks : Z) : KVCache :=
  mkCache (fst (open_slots max_blocks closed_pool)) (fst (open_slots swa_max_blocks closed_pool))
    block_size max_blocks swa_max_blocks.

Definition kvm_new (c : KVCache) : KVM :=
  mkKVM c ∅ ∅ [] ∅ (mkPC false ∅ ∅ [] ∅ 0) (mkPins ∅ ∅ ∅ [] 0) (mkSwa ∅ ∅ 0 0)
    (mkRes false 0 0 ∅ [] ∅).
