(* ===== verification/KVOwnership.v ===== *)
(** * Ownership in the KV cache manager

    The invariant of [KVManager]: every block's reference count is the number of
    sequence-table slots that name it plus one if the prefix cache holds it; the
    free list is the rest; the cached LRU lists the prefix cache's blocks once
    each; the O(1) reclaimable counter counts the unpinned ones.  The lemmas are
    stated for an arbitrary outside owner [ext], so that the allocator's theorems
    do not depend on the sequence tables. *)

From Corelib Require Import ssreflect_rw.
From stdpp Require Import prelude gmap fin_maps list strings.
From S2P Require Import Prelude Backend BlockPool KVManager.
Open Scope Z_scope.
Open Scope quench_scope.

(** ** The prefix cache *)

Definition unpinned (pinned : gset Z) (l : list Z) : list Z := filter (fun b => b ∉ pinned) l.

Record pc_inv (pinned : gset Z) (c : PrefixCache) : Prop := {
  pc_nodup : NoDup (cached_blocks_lru_ c);
  pc_dom : forall b, b ∈ cached_blocks_lru_ c <-> is_Some (cached_blocks_map_ c !! b);
  pc_self : forall b r, cached_blocks_map_ c !! b = Some r -> r = Some b;
  pc_reclaim : reclaimable_cached_count_ c =
               Z.of_nat (length (unpinned pinned (cached_blocks_lru_ c)))
}.

(** The reference the cache itself holds. *)
Definition cocc (c : PrefixCache) (x : Z) : nat :=
  match cached_blocks_map_ c !! x with Some _ => 1 | None => 0 end.

Record alloc_inv (pinned : gset Z) (ext : Z -> nat) (p : BlockPool) (c : PrefixCache) : Prop := {
  ai_pc : pc_inv pinned c;
  ai_pool : pool_owned p (fun x => (ext x + cocc c x)%nat)
}.

(** Two caches that differ in their hash tables only. *)
Definition same_cached (c c' : PrefixCache) : Prop :=
  cached_blocks_lru_ c' = cached_blocks_lru_ c /\
  cached_blocks_map_ c' = cached_blocks_map_ c /\
  reclaimable_cached_count_ c' = reclaimable_cached_count_ c /\
  prefix_caching_enabled_ c' = prefix_caching_enabled_ c.

#[export] Instance same_cached_preorder : PreOrder same_cached.
Proof. unfold same_cached. split; [done|]. intros c c' c'' (?&?&?&?) (?&?&?&?). split_and!; congruence. Qed.

Lemma same_cached_pc_inv pinned c c' : same_cached c c' -> pc_inv pinned c -> pc_inv pinned c'.
Proof. intros (E1 & E2 & E3 & _) []. constructor; rw ?E1 ?E2 ?E3 //. Qed.

Lemma same_cached_cocc c c' x : same_cached c c' -> cocc c' x = cocc c x.
Proof. intros (_ & E & _ & _). unfold cocc. by rw E. Qed.

Lemma same_cached_alloc_inv pinned ext p c c' :
  same_cached c c' -> alloc_inv pinned ext p c -> alloc_inv pinned ext p c'.
Proof.
  intros E [Hc Ho]. split; [by eapply same_cached_pc_inv|].
  eapply pool_owned_ext; [done|]. intros x. by rw /= (same_cached_cocc c c' x E).
Qed.

Lemma drop_hash_same b c : same_cached c (drop_hash b c).
Proof. unfold drop_hash. by destruct (block_id_to_hash_ c !! b). Qed.

Lemma drop_stale_same b p c : same_cached c (drop_stale_hash_if_last b p c).
Proof. unfold drop_stale_hash_if_last. case_match; [apply drop_hash_same|done]. Qed.

Lemma register_hash_same h b c : same_cached c (register_hash h b c).
Proof. unfold register_hash. by case_match. Qed.

#[export] Hint Resolve drop_hash_same drop_stale_same register_hash_same : quench.

Lemma alloc_inv_ext pinned ext ext' p c :
  alloc_inv pinned ext p c -> (forall x, ext x = ext' x) -> alloc_inv pinned ext' p c.
Proof. intros [Hc Ho] E. split; [done|]. eapply pool_owned_ext; [done|]. intros x. by rw /= E. Qed.

Lemma alloc_inv_range pinned ext p c b :
  alloc_inv pinned ext p c -> b ∈ cached_blocks_lru_ c -> 0 <= b < num_blocks_ p.
Proof.
  intros [Hc Ho] Hb. eapply (pool_owned_range p _ b Ho). apply (pc_dom _ _ Hc) in Hb as [r Hr].
  unfold cocc. rw Hr. lia.
Qed.

(** Adding a block to the cache, and removing one. *)
Lemma pc_inv_add pinned c b :
  pc_inv pinned c -> cached_blocks_map_ c !! b = None ->
  pc_inv pinned (set_cached (cached_blocks_lru_ c ++ [b]) (<[b := Some b]> (cached_blocks_map_ c))
                   (reclaimable_cached_count_ c + if decide (b ∈ pinned) then 0 else 1) c).
Proof.
  intros [Hnd Hdom Hself Hrec] Hb. constructor; simpl.
  - apply NoDup_app. split_and!; [done| |apply NoDup_singleton].
    intros x Hx ->%list_elem_of_singleton. apply Hdom in Hx as [? Hx]. congruence.
  - intros x. rw elem_of_app list_elem_of_singleton Hdom.
    destruct (decide (x = b)) as [->|]; [rw lookup_insert_eq; naive_solver|].
    rw lookup_insert_ne //. naive_solver.
  - intros x r. destruct (decide (x = b)) as [->|]; [rw lookup_insert_eq; congruence|].
    rw lookup_insert_ne //. apply Hself.
  - unfold unpinned in *. rw filter_app length_app Hrec. rw filter_cons filter_nil.
    destruct (decide (b ∈ pinned)), (decide (b ∉ pinned)); simpl; done || lia.
Qed.

Lemma cocc_add c b x lru n :
  cached_blocks_map_ c !! b = None ->
  cocc (set_cached lru (<[b := Some b]> (cached_blocks_map_ c)) n c) x =
    (cocc c x + if decide (x = b) then 1 else 0)%nat.
Proof.
  intros Hb. unfold cocc; simpl. case_decide as E; [subst; rw lookup_insert_eq Hb; done|].
  rewrite lookup_insert_ne by done. lia.
Qed.

Lemma pc_inv_remove pinned c b n :
  pc_inv pinned c -> b ∈ cached_blocks_lru_ c ->
  n = reclaimable_cached_count_ c - (if decide (b ∈ pinned) then 0 else 1) ->
  pc_inv pinned (set_cached (list_erase b (cached_blocks_lru_ c)) (delete b (cached_blocks_map_ c)) n c).
Proof.
  intros [Hnd Hdom Hself Hrec] Hb ->. constructor; simpl.
  - by apply NoDup_list_erase.
  - intros x. rw elem_of_list_erase Hdom.
    destruct (decide (x = b)) as [->|]; [rw lookup_delete_eq|rw lookup_delete_ne //].
    + split; [naive_solver|by intros [? ?]].
    + naive_solver.
  - intros x r [_ Hx]%lookup_delete_Some. by apply Hself.
  - rw Hrec. unfold unpinned.
    rewrite (length_filter_erase (fun b => b ∉ pinned) b (cached_blocks_lru_ c)) by done.
    destruct (decide (b ∈ pinned)), (decide (b ∉ pinned)); simpl; done || lia.
Qed.

Lemma cocc_remove pinned c b x lru n :
  pc_inv pinned c -> b ∈ cached_blocks_lru_ c ->
  (cocc (set_cached lru (delete b (cached_blocks_map_ c)) n c) x +
   (if decide (x = b) then 1 else 0))%nat = cocc c x.
Proof.
  intros Hc Hb. unfold cocc; simpl. case_decide as E.
  - subst. apply (pc_dom _ _ Hc) in Hb as [r ->]. by rw lookup_delete_eq.
  - rewrite lookup_delete_ne by done. lia.
Qed.

(** ** Rotation and reclaim *)

Lemma rotate_pinned_perm n pinned l : rotate_pinned n pinned l ≡ₚ l.
Proof.
  revert l. induction n as [|n IH]; intros [|b l]; simpl; try done.
  case_bool_decide; [|done]. rw IH. by rw Permutation_app_comm.
Qed.

Lemma rotate_pinned_found pinned l1 b l2 n :
  Forall (fun x => x ∈ pinned) l1 -> b ∉ pinned -> (length l1 < n)%nat ->
  rotate_pinned n pinned (l1 ++ b :: l2) = b :: l2 ++ l1.
Proof.
  revert n l2. induction l1 as [|x l1 IH]; intros n l2 Hl Hb Hn.
  - destruct n; [lia|]. simpl. rewrite bool_decide_eq_false_2 by done. by rw app_nil_r.
  - destruct n; simpl in *; [lia|]. apply Forall_cons in Hl as [Hx Hl].
    rewrite bool_decide_eq_true_2 by done. rw -app_assoc /=. rewrite IH by (done || lia).
    by rw -app_assoc.
Qed.

Lemma unpinned_split pinned l :
  (unpinned pinned l = [] /\ Forall (fun x => x ∈ pinned) l) \/
  exists l1 b l2, l = l1 ++ b :: l2 /\ Forall (fun x => x ∈ pinned) l1 /\ b ∉ pinned.
Proof.
  induction l as [|x l IH]; [left; done|]. unfold unpinned in *. rw filter_cons.
  destruct (decide (x ∈ pinned)) as [Hx|Hx].
  - rewrite decide_False by auto. destruct IH as [[-> Hall]|(l1 & b & l2 & -> & Hl & Hb)].
    + left. split; [done|]. by constructor.
    + right. exists (x :: l1), b, l2. split_and!; [done|by constructor|done].
  - right. by exists [], x, l.
Qed.

(** The head [reclaim_cached_block] finds is an unpinned entry whenever one exists. *)
Lemma rotate_pinned_head pinned l :
  (unpinned pinned l = [] /\ Forall (fun x => x ∈ pinned) (rotate_pinned (length l) pinned l)) \/
  exists b rest, rotate_pinned (length l) pinned l = b :: rest /\ b ∉ pinned.
Proof.
  destruct (unpinned_split pinned l) as [[E Hall]|(l1 & b & l2 & -> & Hl & Hb)].
  - left. split; [done|]. by rw rotate_pinned_perm.
  - right. exists b, (l2 ++ l1). split; [|done]. apply rotate_pinned_found; [done..|].
    rw length_app /=. lia.
Qed.

Lemma pc_inv_perm pinned c l n :
  pc_inv pinned c -> l ≡ₚ cached_blocks_lru_ c -> n = reclaimable_cached_count_ c ->
  pc_inv pinned (set_cached l (cached_blocks_map_ c) n c).
Proof.
  intros [Hnd Hdom Hself Hrec] Hl ->. constructor; simpl; try done.
  - by rw Hl.
  - intros b. by rw Hl.
  - rw Hrec. unfold unpinned. by rw Hl.
Qed.

Lemma reclaim_spec pinned ext p c r p' c' :
  alloc_inv pinned ext p c -> reclaim_cached_block pinned p c = (r, p', c') ->
  alloc_inv pinned ext p' c' /\ num_blocks_ p' = num_blocks_ p /\
  ((r = -1 /\ p' = p /\ unpinned pinned (cached_blocks_lru_ c) = [] /\
    cached_blocks_lru_ c' ≡ₚ cached_blocks_lru_ c) \/
   (0 <= r /\ r ∉ pinned /\ r ∈ cached_blocks_lru_ c /\
    cached_blocks_lru_ c' ≡ₚ list_erase r (cached_blocks_lru_ c) /\
    free_list_ p' = (if decide (ext r = 0%nat) then free_list_ p ++ [r] else free_list_ p))).
Proof.
  intros Hinv. pose proof Hinv as [Hc Ho]. unfold reclaim_cached_block.
  destruct (Z.leb_spec (reclaimable_cached_count_ c) 0) as [Hz|Hz].
  { intros [= <- <- <-]. split_and!; [done..|]. left. split_and!; try done.
    rewrite (pc_reclaim _ _ Hc) in Hz. apply nil_length_inv. lia. }
  pose proof (rotate_pinned_perm (length (cached_blocks_lru_ c)) pinned (cached_blocks_lru_ c)) as Hperm.
  destruct (rotate_pinned_head pinned (cached_blocks_lru_ c)) as [[E _]|(b & rest & E & Hb)].
  { rewrite (pc_reclaim _ _ Hc), E in Hz. simpl in Hz. lia. }
  rw E in Hperm. rw E. rewrite bool_decide_eq_false_2 by done. intros [= <- <- <-].
  assert (b ∈ cached_blocks_lru_ c) as Hin by (rw -Hperm; set_solver).
  pose proof (alloc_inv_range _ _ _ _ _ Hinv Hin) as Hr.
  apply (pc_dom _ _ Hc) in Hin as Hin'. destruct Hin' as [rf Hrf].
  pose proof (pc_self _ _ Hc _ _ Hrf) as ->. rw Hrf.
  set (c0 := set_cached rest (cached_blocks_map_ c) (reclaimable_cached_count_ c - 1) c).
  destruct (drop_hash_same b c0) as (E1 & E2 & E3 & E4). rewrite E1, E2, E3.
  assert (NoDup (b :: rest)) as Hnd by (rw Hperm; by apply pc_nodup in Hc).
  assert (rest = list_erase b (b :: rest)) as Hrest.
  { unfold list_erase. rw filter_cons. rewrite decide_False by auto. symmetry.
    apply list_erase_not_in. by apply NoDup_cons in Hnd as [? _]. }
  assert (rest ≡ₚ list_erase b (cached_blocks_lru_ c)) as Hrest'.
  { rw {1}Hrest. unfold list_erase. by rw Hperm. }
  assert (0 < ext b + cocc c b)%nat as Hpos by (unfold cocc; rw Hrf; lia).
  destruct (block_ref_reset_owned p _ b Ho Hpos) as (Hnum & Hfree & Ho').
  split_and!; [|done|right; split_and!; try done; [lia|]].
  - split.
    + eapply (same_cached_pc_inv _ (set_cached rest (delete b (cached_blocks_map_ c))
                  (reclaimable_cached_count_ c - 1) c)); [done|].
      pose proof (pc_inv_remove pinned c b _ Hc Hin eq_refl) as Hc'.
      rewrite decide_False in Hc' by done.
      apply (pc_inv_perm _ _ rest _ Hc'); [done|]. done.
    + eapply pool_owned_ext; [exact Ho'|]. intros x. simpl. unfold cocc at 1; simpl.
      pose proof (cocc_remove pinned c b x rest 0 Hc Hin) as Hx. unfold cocc in Hx |- *. simpl in *.
      case_decide; lia.
  - rw Hfree. unfold cocc. rw Hrf. repeat case_decide; done || lia.
Qed.

(** Blocks the allocator can hand out: the free ones and the cached, unpinned
    ones nobody else references. *)
Definition reclaimables (pinned : gset Z) (ext : Z -> nat) (l : list Z) : list Z :=
  filter (fun b => b ∉ pinned /\ ext b = 0%nat) l.

Definition avail (pinned : gset Z) (ext : Z -> nat) (p : BlockPool) (c : PrefixCache) : nat :=
  (length (free_list_ p) + length (reclaimables pinned ext (cached_blocks_lru_ c)))%nat.

(** One more outside reference to [id]. *)
Definition bump (id : Z) (ext : Z -> nat) : Z -> nat :=
  fun x => (ext x + if decide (x = id) then 1 else 0)%nat.

#[export] Instance reclaimables_perm_proper pinned ext :
  Proper (Permutation ==> Permutation) (reclaimables pinned ext).
Proof. intros l k Hlk. unfold reclaimables. by rw Hlk. Qed.

Lemma reclaimables_bump pinned ext l id :
  id ∉ l -> reclaimables pinned (bump id ext) l = reclaimables pinned ext l.
Proof.
  unfold reclaimables. induction l as [|x l IH]; [done|]. rw not_elem_of_cons. intros [Hx Hl].
  rw !filter_cons IH //. unfold bump. rewrite (decide_False (P := x = id)) by done.
  rw Nat.add_0_r. done.
Qed.

Lemma reclaimables_unpinned_nil pinned ext l :
  unpinned pinned l = [] -> reclaimables pinned ext l = [].
Proof.
  intros E. apply elem_of_nil_inv. intros x [[Hp _] Hx]%list_elem_of_filter.
  assert (x ∈ unpinned pinned l) as H by (by apply list_elem_of_filter).
  rw E in H. by apply elem_of_nil in H.
Qed.

(** Reclaiming moves a block from the cache to the free list; what the
    allocator can hand out does not change. *)
Lemma reclaim_avail pinned ext p c r p' c' :
  alloc_inv pinned ext p c -> reclaim_cached_block pinned p c = (r, p', c') ->
  avail pinned ext p' c' = avail pinned ext p c.
Proof.
  intros Hinv E. destruct (reclaim_spec _ _ _ _ _ _ _ Hinv E)
    as (_ & _ & [(-> & -> & _ & Hl)|(_ & Hr & Hin & Hl & Hf)]); unfold avail; rw Hl //.
  destruct Hinv as [Hc _]. apply pc_nodup in Hc. unfold reclaimables.
  rewrite (length_filter_erase (fun b => b ∉ pinned /\ ext b = 0%nat) r (cached_blocks_lru_ c)) by done.
  rw Hf. destruct (decide (ext r = 0%nat)), (decide (r ∉ pinned /\ ext r = 0%nat)); try tauto;
    rw ?length_app /=; lia.
Qed.

Lemma acquire_alloc pinned ext p c p' id :
  alloc_inv pinned ext p c -> acquire p = (p', Some id) ->
  ext id = 0%nat /\ 0 <= id < num_blocks_ p /\ num_blocks_ p' = num_blocks_ p /\
  cached_blocks_map_ c !! id = None /\
  alloc_inv pinned (bump id ext) p' c /\
  avail pinned ext p c = S (avail pinned (bump id ext) p' c).
Proof.
  intros [Hc Ho] E. destruct (acquire_owned p _ p' id Ho E) as (Hz & Hr & Hf & Hn & Ho').
  assert (cached_blocks_map_ c !! id = None) as Hm.
  { unfold cocc in Hz. destruct (cached_blocks_map_ c !! id); [lia|done]. }
  split_and!; try done; [lia..| |].
  - split; [done|]. eapply pool_owned_ext; [exact Ho'|]. intros x. unfold bump. simpl. lia.
  - unfold avail. rw Hf length_app /= reclaimables_bump; [|lia].
    rw (pc_dom _ _ Hc) Hm. by intros [??].
Qed.

(** What one allocation does: a fresh id, owned by nobody before, or failure
    only when nothing is left to hand out. *)
Definition alloc_post (pinned : gset Z) (ext : Z -> nat) (p : BlockPool) (c : PrefixCache)
    (res : BlockRef * BlockPool * PrefixCache) : Prop :=
  let '(r, p', c') := res in
  num_blocks_ p' = num_blocks_ p /\ cached_blocks_lru_ c' ⊆ cached_blocks_lru_ c /\
  match r with
  | Some id =>
      ext id = 0%nat /\ 0 <= id < num_blocks_ p /\ cached_blocks_map_ c' !! id = None /\
      alloc_inv pinned (bump id ext) p' c' /\
      avail pinned ext p c = S (avail pinned (bump id ext) p' c')
  | None => alloc_inv pinned ext p' c' /\ avail pinned ext p c = 0%nat /\
            avail pinned ext p' c' = 0%nat
  end.

Lemma evict_loop_spec fuel pinned ext p c :
  alloc_inv pinned ext p c -> free_list_ p = [] ->
  (length (cached_blocks_lru_ c) <= fuel)%nat ->
  alloc_post pinned ext p c (evict_loop fuel pinned p c).
Proof.
  revert p c. induction fuel as [|fuel IH]; intros p c Hinv Hf Hlen; simpl.
  { destruct (cached_blocks_lru_ c) eqn:E; simpl in Hlen; [|lia].
    unfold avail. by rw E Hf. }
  destruct (cached_blocks_lru_ c) as [|b0 l0] eqn:El.
  { unfold alloc_post, avail. by rw El Hf. }
  destruct (reclaim_cached_block pinned p c) as [[r p1] c1] eqn:Er.
  pose proof (reclaim_avail _ _ _ _ _ _ _ Hinv Er) as Hav.
  destruct (reclaim_spec _ _ _ _ _ _ _ Hinv Er)
    as (Hinv1 & Hn1 & [(-> & -> & Hu & Hl)|(Hr0 & Hr & Hin & Hl & Hf1)]); simpl.
  { assert (avail pinned ext p c = 0%nat) as Hz.
    { unfold avail. by rewrite Hf, reclaimables_unpinned_nil. }
    split_and!; try done; [by rw Hl|lia]. }
  rewrite (proj2 (Z.ltb_ge r 0)) by done.
  destruct (acquire p1) as [p2 [id|]] eqn:Ea.
  - destruct (acquire_alloc _ _ _ _ _ _ Hinv1 Ea) as (?&?&?&?&?&?).
    simpl. rw -Hn1. split_and!; try done; [|lia..].
    rw Hl. by intros x [_ ?]%elem_of_list_erase.
  - apply acquire_none in Ea as [-> Hf2].
    specialize (IH p1 c1 Hinv1 Hf2). unfold alloc_post in *.
    destruct (evict_loop fuel pinned p1 c1) as [[r2 p2] c2].
    rw Hav in IH. rw Hn1 in IH. destruct IH as (? & Hsub & ?); [|split_and!; try done].
    2:{ etrans; [exact Hsub|]. rw Hl. intros x [_ ?]%elem_of_list_erase. done. }
    rw Hl.
    destruct Hinv as [Hc _]. apply pc_nodup in Hc.
    rw -El in Hlen. rewrite (list_erase_perm r _ Hc Hin) in Hlen. simpl in Hlen. lia.
Qed.

Lemma allocate_block_ref_spec pinned ext p c :
  alloc_inv pinned ext p c ->
  alloc_post pinned ext p c (allocate_block_ref_with_eviction pinned p c).
Proof.
  intros Hinv. unfold allocate_block_ref_with_eviction.
  destruct (acquire p) as [p' [id|]] eqn:E.
  - by destruct (acquire_alloc _ _ _ _ _ _ Hinv E) as (?&?&?&?&?&?).
  - apply acquire_none in E as [-> Hf]. by apply evict_loop_spec.
Qed.

Lemma avail_ext pinned ext ext' p c :
  (forall x, ext x = ext' x) -> avail pinned ext p c = avail pinned ext' p c.
Proof.
  intros E. unfold avail, reclaimables. f_equal. f_equal.
  apply list_filter_iff. intros x. by rw E.
Qed.

(** ** References moving between owners *)

(** A vector of handles as an outside owner. *)
Definition plus_refs (ext : Z -> nat) (rs : list BlockRef) : Z -> nat :=
  fun x => (ext x + rocc x rs)%nat.

Lemma plus_refs_bump ext rs id x : bump id (plus_refs ext rs) x = plus_refs ext (rs ++ [Some id]) x.
Proof.
  unfold bump, plus_refs. rw rocc_app rocc_cons rocc_nil.
  repeat case_decide; simplify_eq; lia.
Qed.

Lemma alloc_inv_cache_add pinned ext p c b :
  alloc_inv pinned (bump b ext) p c -> cached_blocks_map_ c !! b = None ->
  alloc_inv pinned ext p
    (set_cached (cached_blocks_lru_ c ++ [b]) (<[b := Some b]> (cached_blocks_map_ c))
       (reclaimable_cached_count_ c + if decide (b ∈ pinned) then 0 else 1) c).
Proof.
  intros [Hc Ho] Hb. split; [by apply pc_inv_add|]. eapply pool_owned_ext; [exact Ho|].
  intros x. rw /= (cocc_add c b x) //. unfold bump. lia.
Qed.

Lemma alloc_inv_cache_take pinned ext p c b r :
  alloc_inv pinned ext p c -> cached_blocks_map_ c !! b = Some r ->
  r = Some b /\
  alloc_inv pinned (bump b ext) p
    (set_cached (list_erase b (cached_blocks_lru_ c)) (delete b (cached_blocks_map_ c))
       (reclaimable_cached_count_ c - if decide (b ∈ pinned) then 0 else 1) c).
Proof.
  intros [Hc Ho] Hb. split; [by eapply pc_self|].
  assert (b ∈ cached_blocks_lru_ c) as Hin by (rewrite (pc_dom _ _ Hc); by exists r).
  split; [by apply pc_inv_remove|]. eapply pool_owned_ext; [exact Ho|]. intros x.
  pose proof (cocc_remove pinned c b x (list_erase b (cached_blocks_lru_ c))
    (reclaimable_cached_count_ c - if decide (b ∈ pinned) then 0 else 1) Hc Hin).
  unfold bump. simpl. lia.
Qed.

Lemma alloc_inv_drop pinned ext p c b :
  alloc_inv pinned (bump b ext) p c ->
  num_blocks_ (block_ref_reset (Some b) p) = num_blocks_ p /\
  alloc_inv pinned ext (block_ref_reset (Some b) p) c.
Proof.
  intros [Hc Ho]. unfold bump in Ho.
  destruct (block_ref_reset_owned _ _ b Ho) as (? & _ & Ho'); [rewrite decide_True by done; lia|].
  split; [done|]. split; [done|]. eapply pool_owned_ext; [exact Ho'|]. intros x. simpl.
  case_decide; lia.
Qed.

Lemma alloc_inv_drop_refs pinned ext p c rs :
  alloc_inv pinned (plus_refs ext rs) p c ->
  num_blocks_ (drop_refs rs p) = num_blocks_ p /\ alloc_inv pinned ext (drop_refs rs p) c.
Proof.
  intros [Hc Ho]. destruct (drop_refs_owned rs p _ (fun x => (ext x + cocc c x)%nat) Ho) as [? ?].
  - intros x. unfold plus_refs. lia.
  - by split.
Qed.

(** Sharing a live block by id adds one outside reference. *)
Lemma alloc_inv_share pinned ext p c b p' r :
  alloc_inv pinned ext p c -> share_by_id b p = (p', r) -> (0 < ext b)%nat ->
  r = Some b /\ num_blocks_ p' = num_blocks_ p /\ alloc_inv pinned (bump b ext) p' c.
Proof.
  intros [Hc Ho] E Hb. destruct (share_by_id_owned _ _ _ _ _ Ho E) as [(?&?&?)|(?&?&?&?&Ho')]; [lia|].
  split_and!; try done. split; [done|]. eapply pool_owned_ext; [exact Ho'|].
  intros x. unfold bump. simpl. lia.
Qed.

(** [n] allocations in a row: all fresh, and short only when nothing is left. *)
Lemma alloc_loop_spec n pinned ext p c bl ok p' c' bl' :
  alloc_inv pinned (plus_refs ext bl) p c -> alloc_loop n pinned p c bl = (ok, p', c', bl') ->
  exists ids, bl' = bl ++ (Some <$> ids) /\ num_blocks_ p' = num_blocks_ p /\
    cached_blocks_lru_ c' ⊆ cached_blocks_lru_ c /\
    NoDup ids /\
    Forall (fun id => plus_refs ext bl id = 0%nat /\ id ∉ cached_blocks_lru_ c') ids /\
    alloc_inv pinned (plus_refs ext bl') p' c' /\
    avail pinned (plus_refs ext bl) p c =
      (length ids + avail pinned (plus_refs ext bl') p' c')%nat /\
    (if ok then length ids = n
     else (length ids < n)%nat /\ avail pinned (plus_refs ext bl') p' c' = 0%nat).
Proof.
  revert p c bl. induction n as [|n IH]; intros p c bl Hinv; simpl.
  { intros [= <- <- <- <-]. exists []. rw /= app_nil_r. split_and!; try done. constructor. }
  pose proof (allocate_block_ref_spec _ _ _ _ Hinv) as Hpost.
  destruct (allocate_block_ref_with_eviction pinned p c) as [[[id|] p1] c1]; simpl in Hpost.
  - destruct Hpost as (Hn & Hsub & Hext & Hr & Hm & Hinv1 & Hav). intros E.
    apply (alloc_inv_ext _ _ _ _ _) with (2 := plus_refs_bump ext bl id) in Hinv1.
    destruct (IH _ _ _ Hinv1 E) as (ids & -> & Hn' & Hsub' & Hnd & Hfr & Hinv' & Hav' & Hok).
    assert (Forall (fun x => (x ≠ id /\ plus_refs ext bl x = 0%nat) /\
                             x ∉ cached_blocks_lru_ c') ids) as Hfr'.
    { eapply Forall_impl; [exact Hfr|]. intros x [Hx ?]. rw -plus_refs_bump in Hx.
      unfold bump in Hx. case_decide; split_and!; try done; lia. }
    assert (id ∉ cached_blocks_lru_ c') as Hid.
    { intros Hin%Hsub'%(pc_dom _ _ (ai_pc _ _ _ _ Hinv1)). rw Hm in Hin. by destruct Hin. }
    exists (id :: ids). rw /= -app_assoc /=. rewrite <- app_assoc in *.
    split_and!; try done; [congruence|by etrans| | | |].
    + apply NoDup_cons. split; [|done]. intros Hin. by rewrite Forall_forall in Hfr'; apply Hfr' in Hin as [[? _] _].
    + constructor; [done|]. eapply Forall_impl; [exact Hfr'|]. by intros x [[_ ?] ?].
    + rw Hav. rewrite (avail_ext _ _ _ _ _ (plus_refs_bump ext bl id)), Hav'. done.
    + destruct ok; simpl in *; [lia|]. destruct Hok. split; [lia|done].
  - destruct Hpost as (Hn & Hsub & Hinv1 & Hav & Hav'). intros [= <- <- <- <-]. exists [].
    rw /= app_nil_r. split_and!; try done; [constructor|lia..].
Qed.
