(* ===== verification/KVPins.v ===== *)
(** * Prefix pins of the KV cache manager

    The reference-counted pins of [kv_cache_manager.cpp] ([pin_prefix],
    [unpin_prefix] and the budget loop): a block's pin count is the number of
    pin owners that name it, [pinned_blocks_] is the set of counted blocks, the
    FIFO lists the owners once each, and the reclaimable counter follows every
    first pin and last unpin.  From this the budget loop terminates and the
    budget bounds the pinned set. *)

From Corelib Require Import ssreflect_rw.
From stdpp Require Import prelude gmap fin_maps list strings.
From S2P Require Import Prelude Backend BlockPool KVManager KVOwnership.
Open Scope Z_scope.
Open Scope quench_scope.

(** [cnt b] owners pin block [b]. *)
Record pins_core (cnt : Z -> nat) (q : Pins) : Prop := {
  pq_count : forall b, default 0 (pin_refcount_ q !! b) = Z.of_nat (cnt b);
  pq_pos : forall b n, pin_refcount_ q !! b = Some n -> 0 < n;
  pq_set : forall b, b ∈ pinned_blocks_ q <-> is_Some (pin_refcount_ q !! b)
}.

Definition pin_count (m : gmap Z (list Z)) (b : Z) : nat := msum (occ b) m.

Record pins_inv (q : Pins) : Prop := {
  pi_core : pins_core (pin_count (pinned_seq_blocks_ q)) q;
  pi_nodup : NoDup (pin_fifo_ q);
  pi_fifo : forall x, x ∈ pin_fifo_ q <-> is_Some (pinned_seq_blocks_ q !! x)
}.

Lemma pins_core_ext cnt cnt' q :
  pins_core cnt q -> (forall b, cnt b = cnt' b) -> pins_core cnt' q.
Proof. intros [Hc Hp Hs] E. constructor; try done. intros b. by rw Hc E. Qed.

Lemma pins_core_pinned cnt q b : pins_core cnt q -> (b ∈ pinned_blocks_ q <-> (0 < cnt b)%nat).
Proof.
  intros [Hc Hp Hs]. rw Hs. specialize (Hc b). specialize (Hp b).
  destruct (pin_refcount_ q !! b) as [n|]; simpl in *.
  - specialize (Hp n eq_refl). split; [lia|by eexists].
  - split; [by intros [??]|lia].
Qed.

(** Same owners, FIFO and budget: what the per-block updates leave alone. *)
Definition same_owners (q q' : Pins) : Prop :=
  pinned_seq_blocks_ q' = pinned_seq_blocks_ q /\ pin_fifo_ q' = pin_fifo_ q /\
  pin_budget_blocks_ q' = pin_budget_blocks_ q.

#[export] Instance same_owners_preorder : PreOrder same_owners.
Proof. unfold same_owners. split; [done|]. intros ??? (?&?&?) (?&?&?). split_and!; congruence. Qed.

(** Same cached blocks and hashes; only the reclaimable counter may differ. *)
Definition same_but_count (c c' : PrefixCache) : Prop :=
  exists n, c' = set_cached (cached_blocks_lru_ c) (cached_blocks_map_ c) n c.

#[export] Instance same_but_count_preorder : PreOrder same_but_count.
Proof.
  split.
  - intros []. by eexists.
  - intros c c' c'' [n ->] [m ->]. by exists m.
Qed.

Lemma same_but_count_alloc pinned pinned' ext p c c' :
  same_but_count c c' -> pc_inv pinned' c' -> alloc_inv pinned ext p c ->
  alloc_inv pinned' ext p c'.
Proof. intros [n ->] Hc [_ Ho]. by split. Qed.

(** Membership in a list, filtered by a set that loses or gains one element. *)
Lemma unpinned_change (P P' : gset Z) b l :
  NoDup l -> b ∈ P -> b ∉ P' -> (forall x, x ≠ b -> x ∈ P <-> x ∈ P') ->
  length (unpinned P' l) = (length (unpinned P l) + if decide (b ∈ l) then 1 else 0)%nat.
Proof.
  intros Hl Hb Hb' Hsame. induction Hl as [|x l Hx Hl IH]; [done|].
  unfold unpinned in *. rw !filter_cons.
  destruct (decide (x = b)) as [->|Hne].
  - rewrite (decide_True (P := b ∉ P')), (decide_False (P := b ∉ P)) by (done || tauto).
    rewrite (decide_True (P := b ∈ b :: l)) by set_solver.
    simpl. rewrite IH, decide_False by done. lia.
  - assert ((if decide (b ∈ x :: l) then 1 else 0) = if decide (b ∈ l) then 1 else 0)%nat as ->.
    { repeat case_decide; set_solver. }
    specialize (Hsame x Hne).
    destruct (decide (x ∉ P')), (decide (x ∉ P)); try tauto; simpl; rw IH; lia.
Qed.

(** The counter adjustment of a last unpin ([d = 1]) or a first pin ([d = -1]). *)
Lemma pc_inv_repin d P c P' b :
  pc_inv P c ->
  (d = 1 /\ b ∈ P /\ b ∉ P') \/ (d = -1 /\ b ∉ P /\ b ∈ P') ->
  (forall x, x ≠ b -> x ∈ P <-> x ∈ P') ->
  pc_inv P' (match cached_blocks_map_ c !! b with
             | Some _ => set_cached (cached_blocks_lru_ c) (cached_blocks_map_ c)
                           (reclaimable_cached_count_ c + d) c
             | None => c
             end).
Proof.
  intros [Hnd Hdom Hself Hrec] Hd Hsame. pose proof (Hdom b) as Hdb.
  assert (Z.of_nat (length (unpinned P' (cached_blocks_lru_ c))) =
          Z.of_nat (length (unpinned P (cached_blocks_lru_ c))) +
          if decide (b ∈ cached_blocks_lru_ c) then d else 0) as Hlen.
  { destruct Hd as [(-> & Hb & Hb')|(-> & Hb & Hb')].
    - rewrite (unpinned_change P P' b) by done. case_decide; lia.
    - rewrite (unpinned_change P' P b) by naive_solver. case_decide; lia. }
  destruct (cached_blocks_map_ c !! b); constructor; simpl; try done; rw Hrec Hlen.
  - rewrite decide_True; [done|]. apply Hdb. by eexists.
  - rewrite decide_False; [lia|]. intros [? ?]%Hdb. done.
Qed.

Lemma unpin_block_spec cnt cnt' b q c q' c' :
  pins_core cnt q -> pc_inv (pinned_blocks_ q) c ->
  (forall x, cnt x = (cnt' x + if decide (x = b) then 1 else 0)%nat) ->
  unpin_block b q c = (q', c') ->
  pins_core cnt' q' /\ pc_inv (pinned_blocks_ q') c' /\ same_owners q q' /\ same_but_count c c'.
Proof.
  intros Hq Hc Hcnt. pose proof (proj2 (pins_core_pinned _ _ b Hq)) as Hb.
  destruct (Hq) as [Hn Hp Hs]. pose proof (Hcnt b) as Hcb. rewrite decide_True in Hcb by done.
  unfold unpin_block. destruct (pin_refcount_ q !! b) as [n|] eqn:En.
  2:{ specialize (Hn b). rw En /= in Hn. lia. }
  pose proof (Hn b) as Hnb. rw En /= in Hnb.
  assert (b ∈ pinned_blocks_ q) as Hbq by (apply Hb; lia).
  destruct (Z.ltb_spec 0 (n - 1)) as [Hlt|Hge]; intros [= <- <-].
  - split_and!; try done. constructor; simpl.
    + intros x. specialize (Hcnt x). specialize (Hn x). destruct (decide (x = b)) as [->|].
      * rw lookup_insert_eq /=. lia.
      * rw lookup_insert_ne //. lia.
    + intros x m. destruct (decide (x = b)) as [->|]; [rw lookup_insert_eq; intros [=]; lia|].
      rw lookup_insert_ne //. apply Hp.
    + intros x. rw Hs. destruct (decide (x = b)) as [->|]; [|by rw lookup_insert_ne].
      rw lookup_insert_eq En. by split; eexists.
  - split_and!; [| |done|].
    + constructor; simpl.
      * intros x. specialize (Hcnt x). specialize (Hn x). destruct (decide (x = b)) as [->|].
        { rw lookup_delete_eq /=. lia. } rw lookup_delete_ne //. lia.
      * intros x m [_ Hx]%lookup_delete_Some. by eapply Hp.
      * intros x. rw elem_of_difference elem_of_singleton Hs lookup_delete_is_Some. naive_solver.
    + eapply (pc_inv_repin _ _ _ (pinned_blocks_ q ∖ {[b]}) b Hc); [by left; set_solver|set_solver].
    + case_match; [by eexists|done].
Qed.

Lemma pin_block_spec cnt cnt' b q c q' c' :
  pins_core cnt q -> pc_inv (pinned_blocks_ q) c ->
  (forall x, cnt' x = (cnt x + if decide (x = b) then 1 else 0)%nat) ->
  pin_block b q c = (q', c') ->
  pins_core cnt' q' /\ pc_inv (pinned_blocks_ q') c' /\ same_owners q q' /\ same_but_count c c' /\
  (size (pin_refcount_ q') <= S (size (pin_refcount_ q)))%nat.
Proof.
  intros Hq Hc Hcnt. pose proof (pins_core_pinned _ _ b Hq) as Hb. destruct (Hq) as [Hn Hp Hs].
  pose proof (Hcnt b) as Hcb. rewrite decide_True in Hcb by done.
  unfold pin_block. pose proof (Hn b) as Hnb. rw Hnb.
  set (n := Z.of_nat (cnt b) + 1).
  assert (size (<[b := n]> (pin_refcount_ q)) <= S (size (pin_refcount_ q)))%nat as Hsz.
  { rw map_size_insert. case_match; simpl; lia. }
  assert (forall x, default 0 (<[b := n]> (pin_refcount_ q) !! x) = Z.of_nat (cnt' x)) as Hn'.
  { intros x. specialize (Hcnt x). specialize (Hn x). destruct (decide (x = b)) as [->|].
    - rw lookup_insert_eq /=. lia.
    - rw lookup_insert_ne //. lia. }
  assert (forall x m, <[b := n]> (pin_refcount_ q) !! x = Some m -> 0 < m) as Hp'.
  { intros x m. destruct (decide (x = b)) as [->|]; [rw lookup_insert_eq; intros [=]; lia|].
    rw lookup_insert_ne //. apply Hp. }
  case_bool_decide as Hin.
  - rw andb_false_r. intros [= <- <-]. split_and!; try done.
    constructor; simpl; [done..|]. intros x. rw Hs.
    destruct (decide (x = b)) as [->|]; [|by rw lookup_insert_ne].
    rw lookup_insert_eq -Hs. split; [by eexists|done].
  - assert (cnt b = 0%nat) as Hz by (rw Hb in Hin; lia).
    rewrite (proj2 (Z.eqb_eq n 1)) by lia. simpl. intros [= <- <-]. split_and!; try done.
    + constructor; simpl; [done..|]. intros x. rw elem_of_union elem_of_singleton Hs.
      destruct (decide (x = b)) as [->|]; [rw lookup_insert_eq|rw lookup_insert_ne //].
      * split; [by eexists|by left].
      * naive_solver.
    + eapply (pc_inv_repin _ _ _ ({[b]} ∪ pinned_blocks_ q) b Hc); [right; set_solver|set_solver].
    + case_match; [by eexists|done].
Qed.

Lemma unpin_blocks_spec bs cnt cnt' q c q' c' :
  pins_core cnt q -> pc_inv (pinned_blocks_ q) c ->
  (forall x, cnt x = (cnt' x + occ x bs)%nat) ->
  unpin_blocks bs q c = (q', c') ->
  pins_core cnt' q' /\ pc_inv (pinned_blocks_ q') c' /\ same_owners q q' /\ same_but_count c c'.
Proof.
  revert cnt q c. induction bs as [|b bs IH]; intros cnt q c Hq Hc Hcnt; simpl.
  { intros [= <- <-]. split_and!; try done. eapply pins_core_ext; [done|].
    intros x. rw Hcnt occ_nil. lia. }
  destruct (unpin_block b q c) as [q1 c1] eqn:E. intros E'.
  destruct (unpin_block_spec cnt (fun x => cnt' x + occ x bs)%nat b q c q1 c1) as (Hq1 & Hc1 & Ho & Hs);
    [done..| |done|].
  { intros x. rw Hcnt occ_cons. repeat case_decide; simplify_eq; lia. }
  destruct (IH _ _ _ Hq1 Hc1 ltac:(done) E') as (? & ? & ? & ?).
  split_and!; [done|done|by etrans|by etrans].
Qed.

(** [unpin_prefix] forgets one owner and nothing else. *)
Lemma unpin_core_spec seq q c q' c' :
  pins_inv q -> pc_inv (pinned_blocks_ q) c -> unpin_core seq q c = (q', c') ->
  pins_inv q' /\ pc_inv (pinned_blocks_ q') c' /\ same_but_count c c' /\
  pinned_seq_blocks_ q' = delete seq (pinned_seq_blocks_ q) /\
  pin_fifo_ q' = list_erase seq (pin_fifo_ q) /\ pin_budget_blocks_ q' = pin_budget_blocks_ q.
Proof.
  intros [Hq Hnd Hf] Hc. unfold unpin_core.
  destruct (pinned_seq_blocks_ q !! seq) as [bs|] eqn:Es.
  - destruct (unpin_blocks bs q c) as [q1 c1] eqn:E. intros [= <- <-].
    destruct (unpin_blocks_spec bs _ (pin_count (delete seq (pinned_seq_blocks_ q))) q c q1 c1 Hq Hc)
      with (2 := E) as (Hq1 & Hc1 & (E1 & E2 & E3) & Hs).
    { intros x. unfold pin_count. rw (msum_lookup _ _ _ _ Es). lia. }
    simpl. rw E1 E2 E3. split_and!; try done. constructor; simpl.
    + destruct Hq1. by constructor.
    + by apply NoDup_list_erase.
    + intros x. rw elem_of_list_erase Hf lookup_delete_is_Some. naive_solver.
  - intros [= <- <-]. rw delete_id // list_erase_not_in.
    + rw Hf Es. by intros [??].
    + by split_and!.
Qed.

(** With no owner left nothing is pinned. *)
Lemma pins_inv_empty q : pins_inv q -> pin_fifo_ q = [] -> size (pin_refcount_ q) = 0%nat.
Proof.
  intros [[Hn Hp _] _ Hf] E. apply map_size_empty_iff, map_empty. intros b.
  specialize (Hn b). specialize (Hp b).
  assert (pinned_seq_blocks_ q = ∅) as Hm.
  { apply map_empty. intros x. apply eq_None_not_Some. rw -Hf E. apply not_elem_of_nil. }
  unfold pin_count in Hn. rw Hm msum_empty in Hn.
  destruct (pin_refcount_ q !! b); [|done]. specialize (Hp _ eq_refl). simpl in Hn. lia.
Qed.

(** The budget loop terminates (one FIFO entry per owner) with room for the pin. *)
Lemma budget_loop_spec fuel to_pin q c :
  pins_inv q -> pc_inv (pinned_blocks_ q) c -> (length (pin_fifo_ q) <= fuel)%nat ->
  exists q' c', budget_loop fuel to_pin q c = Some (q', c') /\
    pins_inv q' /\ pc_inv (pinned_blocks_ q') c' /\ same_but_count c c' /\
    pin_budget_blocks_ q' = pin_budget_blocks_ q /\
    (forall x, pinned_seq_blocks_ q !! x = None -> pinned_seq_blocks_ q' !! x = None) /\
    (to_pin <= pin_budget_blocks_ q ->
     Z.of_nat (size (pin_refcount_ q')) + to_pin <= pin_budget_blocks_ q).
Proof.
  revert q c. induction fuel as [|fuel IH]; intros q c Hq Hc Hlen; simpl;
    destruct (pin_fifo_ q) as [|front rest] eqn:Ef; simpl in Hlen; try lia.
  1,2: exists q, c; split_and!; try done; rewrite (pins_inv_empty q) by done; lia.
  destruct (Z.ltb_spec (pin_budget_blocks_ q) (Z.of_nat (size (pin_refcount_ q)) + to_pin)).
  2:{ exists q, c. split_and!; try done; lia. }
  destruct (unpin_core front q c) as [q1 c1] eqn:E.
  destruct (unpin_core_spec _ _ _ _ _ Hq Hc E) as (Hq1 & Hc1 & Hs & Em & Ff & Eb).
  destruct (IH q1 c1 Hq1 Hc1) as (q' & c' & E' & Hq' & Hc' & Hs' & Eb' & Hk & Hz).
  - rw Ff Ef. pose proof (pi_nodup _ Hq) as Hnd. rw Ef in Hnd.
    pose proof (list_erase_perm front (front :: rest) Hnd ltac:(set_solver)) as Hl.
    apply Permutation_length in Hl. simpl in Hl. lia.
  - exists q', c'. rw Eb in Eb', Hz. split_and!; try done.
    + by etrans.
    + intros x Hx. apply Hk. rw Em. by apply lookup_delete_None; right.
Qed.

Lemma pin_loop_spec bl cnt q c q' c' owned :
  pins_core cnt q -> pc_inv (pinned_blocks_ q) c -> pin_loop bl q c = (q', c', owned) ->
  owned = omap id bl /\
  pins_core (fun x => cnt x + occ x owned)%nat q' /\ pc_inv (pinned_blocks_ q') c' /\
  same_owners q q' /\ same_but_count c c' /\
  (size (pin_refcount_ q') <= size (pin_refcount_ q) + length bl)%nat.
Proof.
  revert cnt q c q' c' owned. induction bl as [|[b|] bl IH]; intros cnt q c q' c' owned Hq Hc; simpl.
  - intros [= <- <- <-]. split_and!; try done; [|lia]. eapply pins_core_ext; [done|].
    intros x. rw occ_nil. lia.
  - destruct (pin_block b q c) as [q1 c1] eqn:E.
    destruct (pin_loop bl q1 c1) as [[q2 c2] o] eqn:E'. intros [= <- <- <-].
    destruct (pin_block_spec _ (fun x => cnt x + if decide (x = b) then 1 else 0)%nat _ _ _ _ _ Hq Hc
      ltac:(done) E) as (Hq1 & Hc1 & Ho & Hs & Hz).
    destruct (IH _ _ _ _ _ _ Hq1 Hc1 E') as (-> & Hq2 & Hc2 & Ho2 & Hs2 & Hz2).
    split_and!; [done| |done|by etrans|by etrans|lia].
    eapply pins_core_ext; [done|]. intros x. rw /= occ_cons.
    repeat case_decide; simplify_eq; lia.
  - intros E. destruct (IH _ _ _ _ _ _ Hq Hc E) as (? & ? & ? & ? & ? & ?).
    split_and!; try done. lia.
Qed.

Lemma pin_count_insert m seq o x :
  m !! seq = None -> pin_count (<[seq := o]> m) x = (pin_count m x + occ x o)%nat.
Proof. intros Hm. unfold pin_count. rw msum_insert msum_delete_None //. lia. Qed.

(** Making room: a no-op without a budget, the budget loop otherwise. *)
Lemma pin_room_spec seq to_pin q c :
  pins_inv q -> pc_inv (pinned_blocks_ q) c -> pinned_seq_blocks_ q !! seq = None ->
  (0 < pin_budget_blocks_ q -> to_pin <= pin_budget_blocks_ q) ->
  exists q' c',
    (if 0 <? pin_budget_blocks_ q then budget_loop (length (pin_fifo_ q)) to_pin q c
     else Some (q, c)) = Some (q', c') /\
    pins_inv q' /\ pc_inv (pinned_blocks_ q') c' /\ same_but_count c c' /\
    pin_budget_blocks_ q' = pin_budget_blocks_ q /\ pinned_seq_blocks_ q' !! seq = None /\
    (0 < pin_budget_blocks_ q ->
     Z.of_nat (size (pin_refcount_ q')) + to_pin <= pin_budget_blocks_ q).
Proof.
  intros Hq Hc Hseq Hto. destruct (Z.ltb_spec 0 (pin_budget_blocks_ q)).
  - destruct (budget_loop_spec (length (pin_fifo_ q)) to_pin q c Hq Hc) as
      (q2 & c2 & ? & ? & ? & ? & ? & Hk & Hz); [lia|]. exists q2, c2. split_and!; auto.
  - exists q, c. split_and!; try done. lia.
Qed.

(** How many table slots [pin_prefix] pins. *)
Definition pin_len (n budget : Z) (bl : list BlockRef) : Z :=
  let k := Z.min n (Z.of_nat (length bl)) in if 0 <? budget then Z.min k budget else k.

Lemma same_owners_inv q q' cnt :
  pins_inv q -> same_owners q q' -> pins_core cnt q' ->
  (forall x, cnt x = pin_count (pinned_seq_blocks_ q) x) -> pins_inv q'.
Proof.
  intros [? ? ?] (E1 & E2 & E3) Hq Hx. constructor; rw ?E1 ?E2 //. by eapply pins_core_ext.
Qed.

(** Recording a new owner after its blocks were counted. *)
Lemma pins_inv_add q q' seq owned :
  pins_inv q -> same_owners q q' -> pinned_seq_blocks_ q !! seq = None ->
  pins_core (fun x => pin_count (pinned_seq_blocks_ q) x + occ x owned)%nat q' ->
  pins_inv (mkPins (pinned_blocks_ q') (<[seq := owned]> (pinned_seq_blocks_ q'))
              (pin_refcount_ q') (pin_fifo_ q' ++ [seq]) (pin_budget_blocks_ q')).
Proof.
  intros [? Hnd Hf] (E1 & E2 & E3) Hn Hq. constructor; simpl.
  - rw E1. eapply pins_core_ext; [|intros x; by rw pin_count_insert].
    destruct Hq. by constructor.
  - rw E2. apply NoDup_app. split_and!; [done| |apply NoDup_singleton].
    intros x Hx ->%list_elem_of_singleton. apply Hf in Hx as [? ?]. congruence.
  - intros x. rw E1 E2 elem_of_app list_elem_of_singleton Hf.
    destruct (decide (x = seq)) as [->|]; [rw lookup_insert_eq; naive_solver|].
    rw lookup_insert_ne //. naive_solver.
Qed.

(** [pin_prefix] always returns, touches only the pins and the reclaimable
    counter, pins the live slots of the prefix, and keeps the pinned set within
    a positive budget. *)
Lemma pin_prefix_spec seq n s :
  pins_inv (pins_ s) -> pc_inv (pinned s) (pc_ s) ->
  exists q c, pin_prefix seq n s = Some (set_pc c (set_pins q s)) /\
    pins_inv q /\ pc_inv (pinned_blocks_ q) c /\ same_but_count (pc_ s) c /\
    pin_budget_blocks_ q = pin_budget_blocks_ (pins_ s) /\
    (forall bl, seq_blocks_ s !! seq = Some bl -> 0 < n -> bl ≠ [] ->
       (0 < pin_budget_blocks_ q -> Z.of_nat (size (pin_refcount_ q)) <= pin_budget_blocks_ q) /\
       default [] (pinned_seq_blocks_ q !! seq) =
         omap id (take (Z.to_nat (pin_len n (pin_budget_blocks_ q) bl)) bl)).
Proof.
  intros Hq Hc. unfold pin_prefix.
  assert (s = set_pc (pc_ s) (set_pins (pins_ s) s)) as Hid by (by destruct s).
  destruct (seq_blocks_ s !! seq) as [bl|] eqn:Eb.
  2:{ exists (pins_ s), (pc_ s). split_and!; try done. by rw -Hid. }
  destruct (Z.leb_spec (Z.min n (Z.of_nat (length bl))) 0) as [Hle|Hgt].
  { exists (pins_ s), (pc_ s). split_and!; try done; [by rw -Hid|].
    intros bl' [= <-] Hn Hb. destruct bl; simpl in *; [done|lia]. }
  clear Hid. destruct (unpin_core seq (pins_ s) (pc_ s)) as [q1 c1] eqn:E1.
  destruct (unpin_core_spec _ _ _ _ _ Hq Hc E1) as (Hq1 & Hc1 & Hs1 & Em & _ & Ebud).
  change (if 0 <? pin_budget_blocks_ q1 then _ `min` _ else _)
    with (pin_len n (pin_budget_blocks_ q1) bl).
  set (to_pin := pin_len n (pin_budget_blocks_ q1) bl).
  destruct (pin_room_spec seq to_pin q1 c1 Hq1 Hc1)
    as (q2 & c2 & -> & Hq2 & Hc2 & Hs2 & Eb2 & Hn2 & Hz2); [rw Em; apply lookup_delete_eq| |].
  { unfold to_pin, pin_len. case_zbool; lia. }
  destruct (pin_loop (take (Z.to_nat to_pin) bl) q2 c2) as [[q3 c3] owned] eqn:E3.
  destruct (pin_loop_spec _ _ _ _ _ _ _ (pi_core _ Hq2) Hc2 E3)
    as (-> & Hq3 & Hc3 & Ho & Hs3 & Hz3).
  assert (pin_budget_blocks_ q3 = pin_budget_blocks_ q1) as Eb3
    by (destruct Ho as (_ & _ & ->); done).
  rw length_take in Hz3. assert (0 <= to_pin) by (unfold to_pin, pin_len; case_zbool; lia).
  assert (0 < pin_budget_blocks_ q1 ->
          Z.of_nat (size (pin_refcount_ q3)) <= pin_budget_blocks_ q1) as Hfin by lia.
  assert (same_but_count (pc_ s) c3) as Hs by (by do 2 etrans).
  case_bool_decide as Eow.
  - exists q3, c3. rw Eb3 Ebud in Hfin |- *. split_and!; try done.
    + eapply same_owners_inv; [exact Hq2|done..|]. intros x. rw Eow occ_nil. lia.
    + intros bl' [= <-] _ _. split; [done|]. destruct Ho as (-> & _ & _). rw Hn2 /=.
      unfold to_pin in Eow. by rw Ebud in Eow.
  - pose proof (pins_inv_add q2 q3 seq _ Hq2 Ho Hn2 Hq3) as Hadd.
    eexists _, c3. split; [done|]. rw /= Eb3 Ebud in Hadd, Hfin |- *. split_and!; try done.
    + intros bl' [= <-] _ _. split; [done|]. rw lookup_insert_eq /=. by rw -Ebud.
Qed.
