(* ===== verification/KVInvariant.v ===== *)
(** * The KV cache manager keeps its ownership invariant

    [kv_inv] ties the whole manager together: the block pool's counts are the
    table slots plus the cache's own references, the pins agree with their
    owners, the LRU list tracks every sequence once, the sliding-window pool is
    owned by the window tables alone, and the residual slots are partitioned
    between the free list and the sequences.  Every public operation preserves
    it for arbitrary arguments; [kv_step] collects them into a transition
    relation whose reachable states all satisfy it. *)

From Corelib Require Import ssreflect_rw.
From stdpp Require Import prelude gmap fin_maps list strings.
From S2P Require Import Prelude Backend BlockPool KVManager KVOwnership KVPins.
Open Scope Z_scope.
Open Scope quench_scope.

(** ** The invariant *)

(** References held by all sequence tables. *)
Definition tocc (m : gmap Z (list BlockRef)) (x : Z) : nat := msum (rocc x) m.

Record lru_inv (order : list Z) (tracked : gset Z) (m : gmap Z (list BlockRef)) : Prop := {
  li_nodup : NoDup order;
  li_map : forall q, q ∈ order <-> q ∈ tracked;
  li_seqs : forall q, is_Some (m !! q) -> q ∈ tracked
}.

(** Live entries of a sliding-window table. *)
Definition live_refs (t : list Z) : list BlockRef :=
  (fun b => if 0 <=? b then Some b else None) <$> t.
Definition socc (x : Z) (t : list Z) : nat := rocc x (live_refs t).

Definition swa_inv (p : BlockPool) (w : Swa) : Prop :=
  pool_owned p (fun x => msum (socc x) (seq_swa_blocks_ w)).

Record res_inv (r : Residual) : Prop := {
  ri_nodup : NoDup (residual_free_slots_ r);
  ri_inj : forall a b slot, residual_seq_slot_ r !! a = Some slot ->
                            residual_seq_slot_ r !! b = Some slot -> a = b;
  ri_disj : forall a slot, residual_seq_slot_ r !! a = Some slot ->
                           slot ∉ residual_free_slots_ r;
  ri_range : forall slot,
    (slot ∈ residual_free_slots_ r \/ exists a, residual_seq_slot_ r !! a = Some slot) <->
    residual_enabled_ r = true /\ 0 <= slot < residual_max_seqs_ r;
  ri_ring : forall a st, seq_residual_state_ r !! a = Some st ->
    0 <= write_idx st < residual_n_tokens_ r /\ 0 <= fill_count st <= residual_n_tokens_ r;
  ri_off : residual_enabled_ r = false -> seq_residual_state_ r = ∅
}.

Record kv_inv (s : KVM) : Prop := {
  ki_alloc : alloc_inv (pinned s) (tocc (seq_blocks_ s)) (pool s) (pc_ s);
  ki_pins : pins_inv (pins_ s);
  ki_lru : lru_inv (lru_order_ s) (lru_map_ s) (seq_blocks_ s);
  ki_swa : swa_inv (swa_blocks_ (cache_ s)) (swa_ s);
  ki_res : res_inv (residual_ s);
  ki_bs : 0 < bsz s;
  ki_cursor : map_Forall (fun _ k => 0 <= k) (swa_trim_cursor_ (swa_ s))
}.

(** ** Plumbing *)

Lemma tocc_split m k x :
  tocc m x = plus_refs (tocc (delete k m)) (default [] (m !! k)) x.
Proof.
  unfold tocc, plus_refs. destruct (m !! k) as [bl|] eqn:E; simpl.
  - rw (msum_lookup _ _ _ _ E). lia.
  - rewrite msum_delete_None by done. rw rocc_nil. lia.
Qed.

Lemma tocc_insert m k bl x : tocc (<[k := bl]> m) x = plus_refs (tocc (delete k m)) bl x.
Proof. unfold tocc, plus_refs. rw msum_insert. lia. Qed.

Lemma tocc_delete_nil m k x : m !! k = None \/ m !! k = Some [] -> tocc (delete k m) x = tocc m x.
Proof. intros [E|E]; rw (tocc_split m k x) E; unfold plus_refs; rw /= rocc_nil; lia. Qed.

(** Open a sequence's table: its references become a separate owner. *)
Lemma alloc_inv_open pinned m k p c :
  alloc_inv pinned (tocc m) p c ->
  alloc_inv pinned (plus_refs (tocc (delete k m)) (default [] (m !! k))) p c.
Proof. intros H. eapply alloc_inv_ext; [exact H|]. intros x. apply tocc_split. Qed.

Lemma alloc_inv_close pinned m k bl p c :
  alloc_inv pinned (plus_refs (tocc (delete k m)) bl) p c ->
  alloc_inv pinned (tocc (<[k := bl]> m)) p c.
Proof. intros H. eapply alloc_inv_ext; [exact H|]. intros x. by rw tocc_insert. Qed.

Lemma lru_inv_insert o t m k bl :
  lru_inv o t m -> is_Some (m !! k) -> lru_inv o t (<[k := bl]> m).
Proof.
  intros [? ? Hs] Hk. constructor; try done. intros q. destruct (decide (q = k)) as [->|].
  - intros _. by apply Hs.
  - rw lookup_insert_ne //. apply Hs.
Qed.

Lemma lru_inv_delete o t m k : lru_inv o t m -> lru_inv o t (delete k m).
Proof. intros [? ? Hs]. constructor; try done. intros q [_ ?]%lookup_delete_is_Some. by apply Hs. Qed.

(** Replacing the block-side state. *)
Lemma kv_inv_mem s p c m :
  kv_inv s -> alloc_inv (pinned s) (tocc m) p c -> lru_inv (lru_order_ s) (lru_map_ s) m ->
  kv_inv (set_seqs m (set_pc c (set_pool p s))).
Proof. intros [] ? ?. by constructor. Qed.

Lemma kv_inv_mem' s p c :
  kv_inv s -> alloc_inv (pinned s) (tocc (seq_blocks_ s)) p c ->
  kv_inv (set_pc c (set_pool p s)).
Proof. intros [] ?. by constructor. Qed.

Lemma kv_inv_hashes s m : kv_inv s -> kv_inv (set_hashes m s).
Proof. intros []. by constructor. Qed.

(** Tracking a sequence in the LRU restores the invariant after its table was
    inserted. *)
Lemma lru_track_inv s s' k bl :
  kv_inv s -> alloc_inv (pinned s) (tocc (<[k := bl]> (seq_blocks_ s))) (pool s') (pc_ s') ->
  seq_blocks_ s' = <[k := bl]> (seq_blocks_ s) -> lru_order_ s' = lru_order_ s ->
  lru_map_ s' = lru_map_ s -> pins_ s' = pins_ s -> swa_ s' = swa_ s ->
  swa_blocks_ (cache_ s') = swa_blocks_ (cache_ s) -> residual_ s' = residual_ s ->
  bsz s' = bsz s -> kv_inv (lru_track k s').
Proof.
  intros [_ Hp [Hnd Hm Hs] Hw Hr Hbs Hcur] Ha E1 E2 E3 E4 E5 E6 E7 E8. unfold lru_track. rw E2 E3.
  rw -E8 in Hbs.
  case_bool_decide as Hk.
  - constructor; unfold pinned in *; rw ?E1 ?E2 ?E3 ?E4 ?E5 ?E6 ?E7 //.
    constructor; try done. intros q. destruct (decide (q = k)) as [->|]; [done|].
    rw lookup_insert_ne //. apply Hs.
  - constructor; unfold pinned in *; rw /= ?E1 ?E2 ?E3 ?E4 ?E5 ?E6 ?E7 //.
    constructor.
    + apply NoDup_app. split_and!; [done| |apply NoDup_singleton].
      intros x Hx ->%list_elem_of_singleton. by apply Hm in Hx.
    + intros q. rw elem_of_app list_elem_of_singleton elem_of_union elem_of_singleton Hm. tauto.
    + intros q. rw elem_of_union elem_of_singleton. destruct (decide (q = k)) as [->|]; [tauto|].
      rw lookup_insert_ne //. auto.
Qed.

(** ** Allocation *)

Lemma allocate_blocks_inv seq n s s' ok :
  kv_inv s -> allocate_blocks seq n s = (s', ok) ->
  kv_inv s' /\ num_blocks_ (pool s') = num_blocks_ (pool s).
Proof.
  intros Hs. unfold allocate_blocks. case_match; [by intros [= <- <-]|].
  pose proof (alloc_inv_open _ _ seq _ _ (ki_alloc _ Hs)) as Ho.
  destruct (alloc_loop _ _ _ _ _) as [[[ok' p] c] bl'] eqn:E.
  destruct (alloc_loop_spec _ _ _ _ _ _ _ _ _ _ Ho E) as (ids & -> & Hn & _ & _ & _ & Hinv & _ & _).
  destruct ok'; intros [= <- <-].
  - split; [|by unfold lru_track; case_match].
    eapply (lru_track_inv s); try done. by apply alloc_inv_close.
  - rw drop_app_length take_app_length. set (bl := default [] (seq_blocks_ s !! seq)) in *.
    assert (alloc_inv (pinned s) (plus_refs (tocc (delete seq (seq_blocks_ s))) bl)
              (drop_refs (Some <$> ids) p) c /\
            num_blocks_ (drop_refs (Some <$> ids) p) = num_blocks_ p) as [Hinv' Hn'].
    { apply and_comm. apply alloc_inv_drop_refs. eapply alloc_inv_ext; [exact Hinv|].
      intros x. unfold plus_refs. rw rocc_app. lia. }
    split; [|rw -Hn -Hn'; done]. apply kv_inv_mem; [done| |].
    + case_bool_decide as E0; [|by apply alloc_inv_close].
      eapply alloc_inv_ext; [exact Hinv'|]. intros x. unfold plus_refs. rw E0 rocc_nil. lia.
    + case_bool_decide as E0; [by apply lru_inv_delete, ki_lru|].
      apply lru_inv_insert; [apply Hs|]. unfold bl in E0. by destruct (seq_blocks_ s !! seq); eauto.
Qed.

Lemma append_block_inv seq s s' r :
  kv_inv s -> append_block seq s = (s', r) ->
  kv_inv s' /\ num_blocks_ (pool s') = num_blocks_ (pool s).
Proof.
  intros Hs. unfold append_block. destruct (seq_blocks_ s !! seq) as [bl|] eqn:Eb; [|by intros [= <- <-]].
  pose proof (alloc_inv_open _ _ seq _ _ (ki_alloc _ Hs)) as Ho. rw Eb /= in Ho.
  pose proof (allocate_block_ref_spec _ _ _ _ Ho) as Hpost.
  destruct (allocate_block_ref_with_eviction _ _ _) as [[[id|] p] c]; simpl in Hpost;
    intros [= <- <-].
  - destruct Hpost as (Hn & _ & _ & _ & _ & Hinv & _). split; [|done].
    apply kv_inv_mem; [done| |apply lru_inv_insert; [apply Hs|by eexists]].
    apply alloc_inv_close. eapply alloc_inv_ext; [exact Hinv|]. apply plus_refs_bump.
  - destruct Hpost as (Hn & _ & Hinv & _). split; [|done]. apply kv_inv_mem'; [done|].
    eapply alloc_inv_ext; [exact Hinv|]. intros x. rw (tocc_split _ seq x) Eb. done.
Qed.

Lemma evict_cached_block_inv s s' b :
  kv_inv s -> evict_cached_block s = (s', b) ->
  kv_inv s' /\ num_blocks_ (pool s') = num_blocks_ (pool s).
Proof.
  intros Hs. unfold evict_cached_block. destruct (reclaim_cached_block _ _ _) as [[r p] c] eqn:E.
  destruct (reclaim_spec _ _ _ _ _ _ _ (ki_alloc _ Hs) E) as (? & ? & _). intros [= <- <-].
  split; [by apply kv_inv_mem'|done].
Qed.

(** ** Freeing a sequence *)

Lemma free_seq_slot_spec pinned ext p r c r' c' :
  alloc_inv pinned (plus_refs ext [r]) p c -> free_seq_slot pinned p r c = (r', c') ->
  alloc_inv pinned (plus_refs ext [r']) p c'.
Proof.
  intros Hinv. destruct r as [b|]; simpl; [|by intros [= <- <-]].
  assert (forall n, cached_blocks_map_ c !! b = None ->
    n = reclaimable_cached_count_ c + (if decide (b ∈ pinned) then 0 else 1) ->
    alloc_inv pinned (plus_refs ext [None]) p
      (set_cached (cached_blocks_lru_ c ++ [b]) (<[b := Some b]> (cached_blocks_map_ c)) n c)) as Hadd.
  { intros n Hb ->. apply alloc_inv_cache_add; [|done]. eapply alloc_inv_ext; [exact Hinv|].
    intros x. rw plus_refs_bump //. }
  destruct (decide (b ∈ pinned));
    [rewrite bool_decide_eq_true_2 by done|rewrite bool_decide_eq_false_2 by done];
    repeat case_match; intros [= <- <-]; try done; apply Hadd; done || lia.
Qed.

Lemma free_seq_scan_spec pinned ext p bl c bl' c' :
  alloc_inv pinned (plus_refs ext bl) p c -> free_seq_scan pinned p bl c = (bl', c') ->
  alloc_inv pinned (plus_refs ext bl') p c'.
Proof.
  revert ext c bl' c'. induction bl as [|r bl IH]; intros ext c bl' c' Hinv; simpl.
  { by intros [= <- <-]. }
  destruct (free_seq_slot pinned p r c) as [r1 c1] eqn:E1.
  destruct (free_seq_scan pinned p bl c1) as [bl2 c2] eqn:E2. intros [= <- <-].
  assert (forall r bl x, plus_refs ext (r :: bl) x = plus_refs (plus_refs ext [r]) bl x) as Hsw.
  { intros r0 b0 x. unfold plus_refs. rw !(rocc_cons _ r0) rocc_nil. lia. }
  assert (forall r bl x, plus_refs (plus_refs ext [r]) bl x = plus_refs (plus_refs ext bl) [r] x) as Hcm.
  { intros r0 b0 x. unfold plus_refs. lia. }
  eapply alloc_inv_ext in Hinv; [|intros x; rw Hsw Hcm; done].
  pose proof (free_seq_slot_spec _ _ _ _ _ _ _ Hinv E1) as H1.
  eapply alloc_inv_ext in H1; [|intros x; rw -Hcm; done].
  eapply alloc_inv_ext; [exact (IH _ _ _ _ H1 E2)|]. intros x. by rw Hsw.
Qed.

Lemma free_swa_table_refs t p : free_swa_table t p = drop_refs (live_refs t) p.
Proof.
  unfold free_swa_table. revert p. induction t as [|b t IH]; intros p; [done|].
  change (drop_refs (live_refs (b :: t)) p)
    with (drop_refs (live_refs t) (block_ref_reset (if 0 <=? b then Some b else None) p)).
  rw /= IH. f_equal. case_zbool; [by apply release_raw_reset|done].
Qed.

Lemma socc_split m k x :
  msum (socc x) m = (msum (socc x) (delete k m) + socc x (default [] (m !! k)))%nat.
Proof.
  destruct (m !! k) as [t|] eqn:E; simpl.
  - rw (msum_lookup _ _ _ _ E). lia.
  - rewrite msum_delete_None by done. unfold socc. simpl. rw rocc_nil. lia.
Qed.

(** Dropping a sequence's window table. *)
Lemma free_swa_seq_inv seq s : kv_inv s -> kv_inv (free_swa_seq seq s).
Proof.
  intros Hs. unfold free_swa_seq. destruct (seq_swa_blocks_ (swa_ s) !! seq) as [t|] eqn:E; [|done].
  destruct Hs as [? ? ? Hw ? ? Hcur]. constructor; try done; simpl.
  2:{ intros q k [_ ?]%lookup_delete_Some. by eapply Hcur. }
  rw free_swa_table_refs. eapply drop_refs_owned; [exact Hw|]. intros x. cbv beta. rw (socc_split (seq_swa_blocks_ (swa_ s)) seq) E. done.
Qed.

Lemma release_residual_slot_inv seq s : kv_inv s -> kv_inv (release_residual_slot seq s).
Proof.
  intros Hs. unfold release_residual_slot. case_match eqn:Een; [|done].
  destruct (residual_seq_slot_ (residual_ s) !! seq) as [slot|] eqn:E; [|done].
  destruct Hs as [? ? ? ? [Hnd Hinj Hdis Hr Hring Hoff] ? ?]. constructor; try done. constructor; simpl.
  - apply NoDup_app. split_and!; [done| |apply NoDup_singleton].
    intros x Hx ->%list_elem_of_singleton. by eapply Hdis.
  - intros a b k [_ ?]%lookup_delete_Some [_ ?]%lookup_delete_Some. by eapply Hinj.
  - intros a k [Hne Ha]%lookup_delete_Some. rw elem_of_app list_elem_of_singleton.
    intros [?| ->]; [by eapply Hdis|]. apply Hne. by eapply Hinj.
  - intros k. rw Een in Hr. rw -Hr elem_of_app list_elem_of_singleton. split.
    + intros [[?| ->]|(a & [_ ?]%lookup_delete_Some)]; eauto.
    + intros [?|(a & Ha)]; [eauto|]. destruct (decide (a = seq)) as [->|]; [left; right; congruence|].
      right. exists a. by rw lookup_delete_ne.
  - intros a st [_ ?]%lookup_delete_Some. by eapply Hring.
  - done.
Qed.

Lemma lru_untrack_inv seq s :
  kv_inv s -> seq_blocks_ s !! seq = None -> kv_inv (lru_untrack seq s).
Proof.
  intros [? ? [Hnd Hm Hs] ? ? ? ?] Hn. unfold lru_untrack. case_match; [|by constructor].
  constructor; try done. constructor; simpl.
  - by apply NoDup_list_erase.
  - intros q. rw elem_of_list_erase Hm. set_solver.
  - intros q Hq. assert (q ≠ seq) by (intros ->; rw Hn in Hq; by destruct Hq).
    specialize (Hs q Hq). set_solver.
Qed.

(** The block side of a state, which the window and residual updates leave alone. *)
Definition block_side (s : KVM) : BlockPool * PrefixCache * Pins * gmap Z (list BlockRef) :=
  (pool s, pc_ s, pins_ s, seq_blocks_ s).

Lemma free_swa_seq_side seq s : block_side (free_swa_seq seq s) = block_side s.
Proof. unfold free_swa_seq. by case_match. Qed.
Lemma release_residual_side seq s : block_side (release_residual_slot seq s) = block_side s.
Proof. unfold release_residual_slot. by repeat case_match. Qed.
Lemma lru_untrack_side seq s : block_side (lru_untrack seq s) = block_side s.
Proof. unfold lru_untrack. by case_match. Qed.

Lemma free_sequence_inv seq s :
  kv_inv s -> kv_inv (free_sequence seq s) /\
  num_blocks_ (pool (free_sequence seq s)) = num_blocks_ (pool s) /\
  seq_blocks_ (free_sequence seq s) = delete seq (seq_blocks_ s).
Proof.
  intros Hs. unfold free_sequence.
  destruct (seq_blocks_ s !! seq) as [bl|] eqn:Eb; [|by rw delete_id].
  destruct (free_seq_scan _ _ _ _) as [bl' c] eqn:E.
  pose proof (alloc_inv_open _ _ seq _ _ (ki_alloc _ Hs)) as Ho. rw Eb /= in Ho.
  destruct (alloc_inv_drop_refs _ _ _ _ _ (free_seq_scan_spec _ _ _ _ _ _ _ Ho E)) as [Hn Hinv].
  set (s1 := set_hashes _ _). assert (kv_inv s1) as Hs1.
  { apply kv_inv_hashes. apply kv_inv_mem; [done..|]. apply lru_inv_delete, Hs. }
  set (s2 := release_residual_slot _ _).
  assert (block_side s2 = block_side s1) as Eside.
  { unfold s2. by rw release_residual_side free_swa_seq_side. }
  pose proof (lru_untrack_side seq s2) as Eside'. rw Eside in Eside'.
  injection Eside as E1 E2 E3 E4. injection Eside' as E1' E2' E3' E4'.
  split_and!.
  - apply lru_untrack_inv; [by apply release_residual_slot_inv, free_swa_seq_inv|].
    rw E4. apply lookup_delete_eq.
  - rw E1'. done.
  - rw E4'. done.
Qed.

(** ** LRU operations *)

Lemma touch_inv seq s : kv_inv s -> kv_inv (touch seq s).
Proof.
  intros [? ? [Hnd Hm Hs] ? ? ? ?]. unfold touch.
  assert (NoDup (list_erase seq (lru_order_ s) ++ [seq])) as Hnd'.
  { apply NoDup_app. split_and!; [by apply NoDup_list_erase| |apply NoDup_singleton].
    intros x Hx ->%list_elem_of_singleton. by apply elem_of_list_erase in Hx as [? _]. }
  case_bool_decide as Hin; constructor; try done; constructor; simpl; try done.
  - intros q. rw elem_of_app list_elem_of_singleton elem_of_list_erase Hm.
    destruct (decide (q = seq)) as [->|]; naive_solver.
  - rewrite list_erase_not_in in Hnd'; [done|]. by rw Hm.
  - intros q. rw elem_of_app list_elem_of_singleton Hm. set_solver.
  - intros q Hq. specialize (Hs q Hq). set_solver.
Qed.

Lemma evict_lru_inv s s' r :
  kv_inv s -> evict_lru s = (s', r) ->
  kv_inv s' /\ num_blocks_ (pool s') = num_blocks_ (pool s).
Proof.
  intros Hs. unfold evict_lru. destruct (list_find _ _) as [[i q]|]; intros [= <- <-]; [|done].
  by destruct (free_sequence_inv q s Hs) as (? & ? & _).
Qed.

(** ** Allocation with prefix reuse *)

Lemma awp_lookup_spec o h p c hit c' :
  awp_lookup o h p c = (hit, c') -> same_cached c c' /\
  match hit with
  | Some b => o = true /\ c' = c /\ block_hash_to_id_ c !! h = Some b /\
              (ref_count b p ≠ 0 \/ is_Some (cached_blocks_map_ c !! b))
  | None => o = false \/ block_hash_to_id_ c !! h = None \/
            exists b, block_hash_to_id_ c !! h = Some b /\ ref_count b p = 0 /\
                      cached_blocks_map_ c !! b = None
  end.
Proof.
  unfold awp_lookup. destruct o; [|intros [= <- <-]; naive_solver].
  destruct (block_hash_to_id_ c !! h) as [b|]; [|intros [= <- <-]; naive_solver].
  destruct (Z.eqb_spec (ref_count b p) 0); simpl; [case_bool_decide as E|];
    intros [= <- <-]; split_and!; try done.
  - right. right. by exists b.
  - right. by destruct (cached_blocks_map_ c !! b).
  - by left.
Qed.

Lemma awp_take_spec pinned ext b p c r p' c' :
  alloc_inv pinned ext p c -> ref_count b p ≠ 0 \/ is_Some (cached_blocks_map_ c !! b) ->
  awp_take pinned b p c = (r, p', c') ->
  r = Some b /\ num_blocks_ p' = num_blocks_ p /\ alloc_inv pinned (bump b ext) p' c' /\
  block_hash_to_id_ c' = block_hash_to_id_ c /\
  prefix_caching_enabled_ c' = prefix_caching_enabled_ c /\
  (forall x, ref_count x p' = 0 <-> ref_count x p = 0).
Proof.
  intros Hinv Hlive. unfold awp_take. destruct (cached_blocks_map_ c !! b) as [rf|] eqn:Em.
  - intros [= <- <- <-]. destruct (alloc_inv_cache_take _ _ _ _ _ _ Hinv Em) as [-> H].
    split_and!; try done. case_bool_decide as Hb.
    + rewrite decide_True, Z.sub_0_r in H by done. done.
    + by rewrite decide_False in H by done.
  - destruct (share_by_id b p) as [p1 r1] eqn:E. intros [= <- <- <-].
    destruct Hlive as [Hl|[? ?]]; [|done].
    assert (0 < ext b)%nat as Hb.
    { destruct Hinv as [_ [_ Hc]]. specialize (Hc b). unfold cocc in Hc. rw Em in Hc. lia. }
    destruct (alloc_inv_share _ _ _ _ _ _ _ Hinv E) as (-> & ? & Hi); [done|].
    split_and!; try done. intros x. destruct Hinv as [_ [_ Hc]], Hi as [_ [_ Hc']].
    rw Hc Hc'. unfold bump. case_decide; subst; lia.
Qed.

(** What every iteration does, hit or miss: one more slot, owned. *)
Lemma awp_step_spec pinned ext bs tokens mr b w ok w' :
  alloc_inv pinned (plus_refs ext (w_blocks w)) (w_pool w) (w_pc w) ->
  awp_step pinned bs tokens mr b w = (ok, w') ->
  num_blocks_ (w_pool w') = num_blocks_ (w_pool w) /\
  alloc_inv pinned (plus_refs ext (w_blocks w')) (w_pool w') (w_pc w') /\
  if ok then exists id, w_blocks w' = w_blocks w ++ [Some id] else w_blocks w' = w_blocks w.
Proof.
  intros Hinv.
  assert (forall c', same_cached (w_pc w) c' ->
    alloc_post pinned (plus_refs ext (w_blocks w)) (w_pool w) c'
      (allocate_block_ref_with_eviction pinned (w_pool w) c')) as Halloc.
  { intros c' Hc'. apply allocate_block_ref_spec. by eapply same_cached_alloc_inv. }
  assert (forall id p c, alloc_inv pinned (bump id (plus_refs ext (w_blocks w))) p c ->
    alloc_inv pinned (plus_refs ext (w_blocks w ++ [Some id])) p c) as Hpush.
  { intros id p c H. eapply alloc_inv_ext; [exact H|]. apply plus_refs_bump. }
  unfold awp_step. case_match.
  - destruct (awp_lookup _ _ _ _) as [hit c1] eqn:El.
    destruct (awp_lookup_spec _ _ _ _ _ _ El) as [Hsame Hhit]. destruct hit as [cb|].
    + destruct Hhit as (_ & -> & _ & Hlive).
      destruct (awp_take pinned cb (w_pool w) (w_pc w)) as [[r p] c] eqn:Et.
      destruct (awp_take_spec _ _ _ _ _ _ _ _ Hinv Hlive Et) as (-> & ? & Hi & _ & _).
      intros [= <- <-]. simpl. split_and!; eauto.
    + specialize (Halloc c1 Hsame).
      destruct (allocate_block_ref_with_eviction _ _ _) as [[[id|] p] c]; simpl in Halloc;
        intros [= <- <-]; simpl.
      * destruct Halloc as (? & _ & _ & _ & _ & ? & _). split_and!; eauto.
      * destruct Halloc as (? & _ & ? & _). by split_and!.
  - specialize (Halloc (w_pc w) ltac:(done)).
    destruct (allocate_block_ref_with_eviction _ _ _) as [[[id|] p] c]; simpl in Halloc;
      intros [= <- <-].
    + destruct Halloc as (? & _ & _ & _ & _ & ? & _). by case_match; simpl; split_and!; eauto.
    + destruct Halloc as (? & _ & ? & _). by split_and!.
Qed.

Lemma awp_loop_spec n pinned ext bs tokens mr b w ok w' :
  alloc_inv pinned (plus_refs ext (w_blocks w)) (w_pool w) (w_pc w) ->
  awp_loop n pinned bs tokens mr b w = (ok, w') ->
  num_blocks_ (w_pool w') = num_blocks_ (w_pool w) /\
  alloc_inv pinned (plus_refs ext (w_blocks w')) (w_pool w') (w_pc w') /\
  exists ids, w_blocks w' = w_blocks w ++ (Some <$> ids) /\
    if ok then length ids = n else (length ids < n)%nat.
Proof.
  revert b w. induction n as [|n IH]; intros b w Hinv; simpl.
  { intros [= <- <-]. split_and!; try done. exists []. by rw /= app_nil_r. }
  destruct (awp_step _ _ _ _ _ _) as [[] w1] eqn:E;
    destruct (awp_step_spec _ _ _ _ _ _ _ _ _ Hinv E) as (Hn & Hinv1 & Hb).
  - intros E'. destruct (IH _ _ Hinv1 E') as (? & ? & ids & Hids & Hlen).
    destruct Hb as [id Hb]. split_and!; [congruence|done|]. exists (id :: ids).
    rw Hids Hb -app_assoc. split; [done|]. destruct ok; simpl; lia.
  - intros [= <- <-]. split_and!; try done. exists []. rw /= Hb app_nil_r. split; [done|lia].
Qed.

Lemma fold_drop_stale_same rs p c :
  same_cached c (foldl (fun c r => drop_stale_hash_if_last (ref_id r) p c) c rs).
Proof.
  revert c. induction rs as [|r rs IH]; intros c; [done|]. simpl. etrans; [|apply IH].
  apply drop_stale_same.
Qed.

(** A failed prefix allocation gives every reference back and forgets the sequence. *)
Lemma rollback_partial_inv seq w s :
  kv_inv s -> default [] (seq_blocks_ s !! seq) = [] ->
  alloc_inv (pinned s) (plus_refs (tocc (delete seq (seq_blocks_ s))) (w_blocks w))
    (w_pool w) (w_pc w) ->
  let s' := rollback_partial_allocation seq 0 w s in
  kv_inv s' /\ num_blocks_ (pool s') = num_blocks_ (w_pool w) /\
  seq_blocks_ s' = delete seq (seq_blocks_ s).
Proof.
  intros Hs Hnil Hinv. unfold rollback_partial_allocation. rw drop_0 /=.
  destruct (alloc_inv_drop_refs _ _ _ _ _ Hinv) as [Hn Hd].
  split_and!; [|done|done]. apply kv_inv_hashes, kv_inv_mem; [done| |apply lru_inv_delete, Hs].
  eapply same_cached_alloc_inv; [apply fold_drop_stale_same|]. done.
Qed.

Lemma allocate_blocks_with_prefix_inv seq tokens mr salt s s' r :
  kv_inv s -> allocate_blocks_with_prefix seq tokens mr salt s = (s', r) ->
  kv_inv s' /\ num_blocks_ (pool s') = num_blocks_ (pool s).
Proof.
  intros Hs. unfold allocate_blocks_with_prefix. case_match; [by intros [= <- <-]|].
  destruct (default [] (seq_blocks_ s !! seq)) as [|r0 bl] eqn:Eb.
  - destruct (awp_loop _ _ _ _ _ _ _) as [ok w] eqn:E.
    pose proof (alloc_inv_open _ _ seq _ _ (ki_alloc _ Hs)) as Ho. rw Eb in Ho.
    apply (awp_loop_spec _ _ (tocc (delete seq (seq_blocks_ s)))) in E as (Hn & Hinv & _); [|done].
    destruct ok; intros [= <- <-].
    + split; [|by unfold lru_track; case_match]. eapply (lru_track_inv s); try done.
      by apply alloc_inv_close.
    + destruct (rollback_partial_inv seq w s Hs Eb Hinv) as (? & ? & _). split; [done|by etrans].
  - case_match; [|by intros [= <- <-]].
    destruct (allocate_blocks _ _ _) as [s1 ok] eqn:E. intros [= <- <-].
    by eapply allocate_blocks_inv.
Qed.

Lemma register_loop_same n b bs tokens bl hs par c hs' c' :
  register_loop n b bs tokens bl hs par c = (hs', c') -> same_cached c c'.
Proof.
  revert b hs par c. induction n as [|n IH]; intros b hs par c; simpl; [by intros [= <- <-]|].
  repeat case_match; try (intros E%IH; etrans; [|exact E]; apply register_hash_same).
  by intros [= <- <-].
Qed.

Lemma register_block_hashes_inv seq tokens salt s :
  kv_inv s -> kv_inv (register_block_hashes seq tokens salt s).
Proof.
  intros Hs. unfold register_block_hashes. repeat case_match; try done.
  apply register_loop_same in H1. destruct Hs. constructor; try done.
  by eapply same_cached_alloc_inv.
Qed.

(** ** Pins *)

Lemma kv_inv_pins s q c :
  kv_inv s -> pins_inv q -> pc_inv (pinned_blocks_ q) c -> same_but_count (pc_ s) c ->
  kv_inv (set_pc c (set_pins q s)).
Proof. intros [] Hq Hc Hs. constructor; try done. by eapply same_but_count_alloc. Qed.

Lemma kv_inv_pc s : kv_inv s -> pc_inv (pinned s) (pc_ s).
Proof. intros []. by eapply ai_pc. Qed.

Lemma unpin_prefix_inv seq s : kv_inv s -> kv_inv (unpin_prefix seq s).
Proof.
  intros Hs. unfold unpin_prefix. destruct (unpin_core _ _ _) as [q c] eqn:E.
  destruct (unpin_core_spec _ _ _ _ _ (ki_pins _ Hs) (kv_inv_pc _ Hs) E) as (? & ? & ? & _).
  by apply kv_inv_pins.
Qed.

Lemma pin_prefix_inv seq n s :
  kv_inv s -> exists q c, pin_prefix seq n s = Some (set_pc c (set_pins q s)) /\
                          kv_inv (set_pc c (set_pins q s)).
Proof.
  intros Hs. destruct (pin_prefix_spec seq n s (ki_pins _ Hs) (kv_inv_pc _ Hs))
    as (q & c & E & ? & ? & ? & _). exists q, c. split; [done|]. by apply kv_inv_pins.
Qed.

(** ** StreamingLLM eviction *)

Lemma length_omap_cons (r : BlockRef) l :
  length (omap id (r :: l)) = (length (omap id [r]) + length (omap id l))%nat.
Proof. by destruct r. Qed.

Lemma evict_slots_spec n pinned ext i bl p c f bl' p' c' f' :
  alloc_inv pinned (plus_refs ext bl) p c -> evict_slots n i bl p c f = (bl', p', c', f') ->
  alloc_inv pinned (plus_refs ext bl') p' c' /\ num_blocks_ p' = num_blocks_ p /\
  length bl' = length bl /\
  (forall j, (j < i \/ i + n <= j)%nat -> bl' !! j = bl !! j) /\
  (forall j, (i <= j < i + n)%nat -> (j < length bl)%nat -> bl' !! j = Some None) /\
  f' = f + Z.of_nat (length (omap id (take n (drop i bl)))).
Proof.
  revert i bl p c f. induction n as [|n IH]; intros i bl p c f Hinv; simpl.
  { intros [= <- <- <- <-]. split_and!; try done; simpl; lia. }
  assert (forall bl1 p1 c1 d, alloc_inv pinned (plus_refs ext bl1) p1 c1 ->
    num_blocks_ p1 = num_blocks_ p -> length bl1 = length bl ->
    (forall j, j ≠ i -> bl1 !! j = bl !! j) -> ((i < length bl)%nat -> bl1 !! i = Some None) ->
    d = Z.of_nat (length (omap id (option_list (bl !! i)))) ->
    evict_slots n (S i) bl1 p1 c1 (f + d) = (bl', p', c', f') ->
    alloc_inv pinned (plus_refs ext bl') p' c' /\ num_blocks_ p' = num_blocks_ p /\
    length bl' = length bl /\
    (forall j, (j < i \/ i + S n <= j)%nat -> bl' !! j = bl !! j) /\
    (forall j, (i <= j < i + S n)%nat -> (j < length bl)%nat -> bl' !! j = Some None) /\
    f' = f + Z.of_nat (length (omap id (take (S n) (drop i bl))))) as Hstep.
  { intros bl1 p1 c1 d Hi Hn Hl Hj Hi' Hd E.
    destruct (IH _ _ _ _ _ Hi E) as (? & ? & ? & Hout & Hin & ->).
    split_and!; try done; [congruence..| | |].
    - intros j Hji. rewrite Hout by lia. apply Hj. lia.
    - intros j Hji Hjl. destruct (decide (j = i)) as [->|].
      + rewrite Hout by lia. auto.
      + apply Hin; lia.
    - assert (drop (S i) bl1 = drop (S i) bl) as ->.
      { apply list_eq. intros k. rw !lookup_drop. apply Hj. lia. }
      rw Hd. destruct (bl !! i) as [r|] eqn:Ei; simpl option_list.
      + rewrite (drop_S bl r i Ei). rw firstn_cons (length_omap_cons r (take n (drop (S i) bl))). lia.
      + apply lookup_ge_None in Ei. rewrite !drop_ge by lia. rw !take_nil /=. lia. }
  destruct (bl !! i) as [[b|]|] eqn:Ei.
  - destruct (alloc_inv_drop pinned (plus_refs ext (<[i := None]> bl)) p (drop_hash b c) b) as [? ?].
    { eapply same_cached_alloc_inv; [apply drop_hash_same|]. eapply alloc_inv_ext; [exact Hinv|].
      intros x. rw plus_refs_bump. unfold plus_refs. pose proof (rocc_insert x bl i (Some b) None Ei) as E.
      rw rocc_app. change (rocc x [None]) with 0%nat in E. lia. }
    apply Hstep; [done|done|by rw length_insert| | |done].
    + intros j Hj. by rw list_lookup_insert_ne.
    + intros Hl. by rw list_lookup_insert_eq.
  - rewrite <- (Z.add_0_r f) at 1. by apply Hstep.
  - rewrite <- (Z.add_0_r f) at 1. apply Hstep; try done. intros ?. apply lookup_ge_None in Ei. lia.
Qed.

Lemma clear_hashes_same n i bl hs c hs' c' :
  clear_hashes n i bl hs c = (hs', c') -> same_cached c c'.
Proof.
  revert i hs c. induction n as [|n IH]; intros i hs c; simpl; [by intros [= <- <-]|].
  case_match; [|by intros [= <- <-]]. intros E%IH. etrans; [|exact E].
  repeat case_match; try done. apply drop_hash_same.
Qed.

(** [evict_middle_blocks] always returns and keeps the invariant. *)
Lemma evict_middle_blocks_inv seq ns nw s :
  kv_inv s -> exists s' freed, evict_middle_blocks seq ns nw s = Some (s', freed) /\
    kv_inv s' /\ num_blocks_ (pool s') = num_blocks_ (pool s).
Proof.
  intros Hs. unfold evict_middle_blocks.
  destruct (seq_blocks_ s !! seq) as [bl|] eqn:Eb; [|by exists s, 0].
  case_match; [by exists s, 0|]. case_match; [by exists s, 0|].
  set (ws := Z.max 0 _). set (se := ceil_blocks ns (bsz s)).
  case_match; [by exists s, 0|].
  assert (exists q c, (if (match pinned_seq_blocks_ (pins_ s) !! seq with
      | Some o => Z.of_nat (length o) | None => 0 end) <? se then pin_prefix seq se s else Some s)
      = Some (set_pc c (set_pins q s)) /\ kv_inv (set_pc c (set_pins q s))) as (q & c & -> & Hs1).
  { case_match; [by apply pin_prefix_inv|]. exists (pins_ s), (pc_ s). by destruct s. }
  set (s1 := set_pc c (set_pins q s)) in *.
  pose proof (alloc_inv_open _ _ seq _ _ (ki_alloc _ Hs1)) as Ho. rw /= Eb /= in Ho.
  destruct (evict_slots _ _ _ _ _ _) as [[[bl' p'] c'] f'] eqn:E.
  destruct (evict_slots_spec _ _ _ _ _ _ _ _ _ _ _ _ Ho E) as (Hinv & Hn & _).
  assert (forall c2, same_cached c' c2 ->
    kv_inv (set_seqs (<[seq := bl']> (seq_blocks_ s)) (set_pc c2 (set_pool p' s1)))) as Hfin.
  { intros c2 Hc2. apply kv_inv_mem; [done| |apply lru_inv_insert; [apply Hs1|by eexists]].
    eapply same_cached_alloc_inv; [exact Hc2|]. by apply alloc_inv_close. }
  simpl. destruct (seq_block_hashes_ s !! seq) as [hs|].
  - destruct (clear_hashes _ _ _ _ _) as [hs' c2] eqn:E2. apply clear_hashes_same in E2.
    eexists _, f'. split; [done|]. split; [|done].
    exact (kv_inv_hashes _ (<[seq := hs']> (seq_block_hashes_ s)) (Hfin c2 E2)).
  - eexists _, f'. split; [done|]. split; [|done]. apply (Hfin c'). done.
Qed.

(** ** Rollback *)

Lemma take_pop_back {A} n (l : list A) : (n < length l)%nat -> take n (pop_back l) = take n l.
Proof. intros H. unfold pop_back. rw take_take. f_equal. lia. Qed.

Lemma rollback_loop_spec fuel needed pinned ext bl p c bl' p' c' :
  alloc_inv pinned (plus_refs ext bl) p c -> (length bl - needed <= fuel)%nat ->
  rollback_loop fuel needed bl p c = (bl', p', c') ->
  bl' = take needed bl /\ num_blocks_ p' = num_blocks_ p /\
  alloc_inv pinned (plus_refs ext bl') p' c'.
Proof.
  revert bl p c. induction fuel as [|fuel IH]; intros bl p c Hinv Hf; simpl.
  { intros [= <- <- <-]. rewrite take_ge by lia. done. }
  destruct (Nat.ltb_spec needed (length bl)).
  2:{ intros [= <- <- <-]. rewrite take_ge by lia. done. }
  destruct (last bl) as [r|] eqn:El; simpl.
  2:{ apply last_None_nil in El as ->. simpl in *. lia. }
  pose proof (last_pop_back _ _ El) as Ebl. intros E.
  assert (alloc_inv pinned (plus_refs ext (pop_back bl)) (block_ref_reset r p)
            (drop_stale_hash_if_last (ref_id r) p c) /\
          num_blocks_ (block_ref_reset r p) = num_blocks_ p) as [Hinv' Hn].
  { destruct r as [b|].
    - apply and_comm, alloc_inv_drop. eapply same_cached_alloc_inv; [apply drop_stale_same|].
      eapply alloc_inv_ext; [exact Hinv|]. intros x. by rw plus_refs_bump -Ebl.
    - split; [|done]. eapply same_cached_alloc_inv; [apply drop_stale_same|].
      eapply alloc_inv_ext; [exact Hinv|]. intros x. unfold plus_refs. rw {1}Ebl rocc_app. 
      change (rocc x [None]) with 0%nat. lia. }
  destruct (IH _ _ _ Hinv' ltac:(rw length_pop_back; lia) E) as (-> & ? & ?).
  rewrite take_pop_back in * by done. split_and!; [done|congruence|done].
Qed.

Lemma rollback_swa_loop_spec fuel needed h t p t' p' :
  pool_owned p (fun x => h x + socc x t)%nat -> (length t - needed <= fuel)%nat ->
  rollback_swa_loop fuel needed t p = (t', p') ->
  t' = take needed t /\ pool_owned p' (fun x => h x + socc x t')%nat.
Proof.
  revert t p. induction fuel as [|fuel IH]; intros t p Ho Hf; simpl.
  { intros [= <- <-]. rewrite take_ge by lia. done. }
  destruct (Nat.ltb_spec needed (length t)).
  2:{ intros [= <- <-]. rewrite take_ge by lia. done. }
  destruct (last t) as [b|] eqn:El; simpl.
  2:{ apply last_None_nil in El as ->. simpl in *. lia. }
  pose proof (last_pop_back _ _ El) as Et. intros E.
  assert (pool_owned (if 0 <=? b then free_swa_block b p else p)
            (fun x => h x + socc x (pop_back t))%nat) as Ho'.
  { change (if 0 <=? b then free_swa_block b p else p) with (free_swa_table [b] p).
    rw free_swa_table_refs. eapply drop_refs_owned; [exact Ho|]. intros x. cbv beta.
    unfold socc. rw {1}Et. unfold live_refs. rw fmap_app rocc_app. lia. }
  destruct (IH _ _ Ho' ltac:(rw length_pop_back; lia) E) as (-> & ?).
  by rewrite take_pop_back in * by done.
Qed.

Lemma swa_inv_insert p m k t cur w sl :
  pool_owned p (fun x => msum (socc x) (delete k m) + socc x t)%nat ->
  swa_inv p (mkSwa (<[k := t]> m) cur w sl).
Proof.
  intros Ho. eapply pool_owned_ext; [exact Ho|]. intros x. rw /= msum_insert. lia.
Qed.

Lemma swa_inv_open p w k :
  swa_inv p w ->
  pool_owned p (fun x => msum (socc x) (delete k (seq_swa_blocks_ w)) +
                         socc x (default [] (seq_swa_blocks_ w !! k)))%nat.
Proof. intros Hw. eapply pool_owned_ext; [exact Hw|]. intros x. cbv beta. apply socc_split. Qed.

Lemma kv_inv_swa s p w :
  kv_inv s -> swa_inv p w -> map_Forall (fun _ k => 0 <= k) (swa_trim_cursor_ w) ->
  kv_inv (set_swa w (set_swa_pool p s)).
Proof. intros [] ? ?. by constructor. Qed.

Lemma rollback_inv seq n s :
  kv_inv s -> kv_inv (rollback seq n s) /\
  num_blocks_ (pool (rollback seq n s)) = num_blocks_ (pool s).
Proof.
  intros Hs. unfold rollback. destruct (seq_blocks_ s !! seq) as [bl|] eqn:Eb; [|done].
  case_match; [done|]. set (needed := Z.to_nat _).
  pose proof (alloc_inv_open _ _ seq _ _ (ki_alloc _ Hs)) as Ho. rw Eb /= in Ho.
  destruct (rollback_loop _ _ _ _ _) as [[bl' p'] c'] eqn:E.
  apply (rollback_loop_spec _ _ _ _ _ _ _ _ _ _ Ho) in E as (-> & Hn & Hinv); [|lia].
  set (s1 := set_seqs _ _). assert (kv_inv s1) as Hs1.
  { apply kv_inv_mem; [done|by apply alloc_inv_close|apply lru_inv_insert; [apply Hs|by eexists]]. }
  set (s2 := match seq_block_hashes_ s1 !! seq with Some _ => _ | None => _ end).
  assert (kv_inv s2 /\ pool s2 = p' /\ swa_ s2 = swa_ s /\ cache_ s2 = cache_ s1) as (Hs2 & E1 & E2 & E3).
  { unfold s2. case_match; [|done]. split_and!; try done. by apply kv_inv_hashes. }
  destruct (seq_swa_blocks_ (swa_ s2) !! seq) as [t|] eqn:Et; [|by rw E1].
  destruct (rollback_swa_loop _ _ _ _) as [t' wp] eqn:Ew.
  split; [|by change (num_blocks_ (pool s2) = num_blocks_ (pool s)); rw E1].
  apply kv_inv_swa; [done| |].
  2:{ pose proof (ki_cursor _ Hs2) as Hcur. simpl. case_match; [|done].
      apply map_Forall_insert_2; [|done]. assert (0 <= z) by (by eapply Hcur). lia. }
  apply swa_inv_insert.
  pose proof (swa_inv_open _ _ seq (ki_swa _ Hs2)) as Hw. rw Et /= in Hw.
  by apply (rollback_swa_loop_spec _ _ _ _ _ _ _ Hw) in Ew as [_ ?]; [|lia].
Qed.

(** ** Sliding-window tables *)

Lemma socc_insert x t i old v :
  t !! i = Some old -> (socc x (<[i := v]> t) + socc x [old] = socc x t + socc x [v])%nat.
Proof.
  intros Hi. unfold socc, live_refs. rw list_fmap_insert /=.
  rewrite (rocc_insert x _ i (if 0 <=? old then Some old else None)); [done|].
  by rw list_lookup_fmap Hi.
Qed.

Lemma swa_hole_or_id t i : default (-1) (t !! i) < 0 -> (i < length t)%nat ->
  exists old, t !! i = Some old /\ forall x, socc x [old] = 0%nat.
Proof.
  intros Hneg [old Hi]%lookup_lt_is_Some_2. exists old. split; [done|]. intros x.
  rw Hi /= in Hneg. unfold socc, live_refs. simpl.
  by rewrite (proj2 (Z.leb_gt 0 old)) by done.
Qed.

(** Filling the holes of [b, b + n): every slot of the range ends up live unless
    the group ran out; the other slots are untouched. *)
Lemma swa_fill_spec n h b t p ok t' p' :
  pool_owned p (fun x => h x + socc x t)%nat -> (b + n <= length t \/ n = 0)%nat ->
  swa_fill n b t p = (ok, t', p') ->
  pool_owned p' (fun x => h x + socc x t')%nat /\ length t' = length t /\
  (forall j, (j < b \/ b + n <= j)%nat -> t' !! j = t !! j) /\
  (forall j id, t !! j = Some id -> 0 <= id -> t' !! j = Some id) /\
  (if ok then forall j, (b <= j < b + n)%nat -> 0 <= default (-1) (t' !! j)
   else free_list_ p' = []).
Proof.
  revert b t p. induction n as [|n IH]; intros b t p Ho Hlen; simpl.
  { intros [= <- <- <-]. split_and!; try done. lia. }
  destruct (Z.leb_spec 0 (default (-1) (t !! b))) as [Hlive|Hhole].
  - intros E. destruct (IH (S b) t p Ho ltac:(lia) E) as (? & ? & Hout & Hkeep & Hok).
    split_and!; try done.
    + intros j Hj. apply Hout. lia.
    + destruct ok; [|done]. intros j Hj. destruct (decide (j = b)) as [->|]; [|apply Hok; lia].
      rewrite Hout by lia. done.
  - unfold allocate_swa_block. destruct (acquire p) as [p1 [id|]] eqn:Ea; simpl.
    + destruct (acquire_owned _ _ _ _ Ho Ea) as (Hz & Hr & _ & _ & Ho1).
      rewrite (proj2 (Z.ltb_ge id 0)) by lia. intros E.
      destruct (swa_hole_or_id t b Hhole ltac:(lia)) as (old & Hold & Hsocc).
      assert (pool_owned p1 (fun x => h x + socc x (<[b := id]> t))%nat) as Ho2.
      { eapply pool_owned_ext; [exact Ho1|]. intros x. cbv beta.
        pose proof (socc_insert x t b old id Hold) as Hs. rw Hsocc in Hs.
        unfold socc in Hs at 3. simpl in Hs. rewrite (proj2 (Z.leb_le 0 id)) in Hs by lia.
        rw rocc_cons rocc_nil in Hs. repeat case_decide; simplify_eq; lia. }
      destruct (IH (S b) _ p1 Ho2 ltac:(rw length_insert; lia) E) as (? & Hl & Hout & Hkeep & Hok).
      rw length_insert in Hl. split_and!; try done.
      * intros j Hj. rewrite Hout by lia. by rewrite list_lookup_insert_ne by lia.
      * intros j k Hj Hk. apply Hkeep; [|done]. rewrite list_lookup_insert_ne; [done|].
        intros ->. rw Hj /= in Hhole. lia.
      * destruct ok; [|done]. intros j Hj. destruct (decide (j = b)) as [->|]; [|apply Hok; lia].
        rewrite Hout by lia. rewrite list_lookup_insert_eq by lia. simpl. lia.
    + apply acquire_none in Ea as [-> Hf]. intros [= <- <- <-]. by split_and!.
Qed.

Lemma length_pad_holes n t : length (pad_holes n t) = Nat.max n (length t).
Proof. unfold pad_holes. rw length_app length_replicate. lia. Qed.

Lemma socc_pad_holes x n t : socc x (pad_holes n t) = socc x t.
Proof.
  unfold pad_holes, socc, live_refs. rw fmap_app rocc_app fmap_replicate /=.
  enough (rocc x (replicate (n - length t) None) = 0%nat) by lia.
  induction (n - length t)%nat as [|k IH]; [done|]. simpl. rw rocc_cons IH. done.
Qed.

Lemma live_block_nonneg tok bs : 0 < bs -> 0 <= live_block tok bs.
Proof. intros. unfold live_block. case_zbool; [|lia]. apply Z.quot_pos; lia. Qed.

Lemma swa_prepare_inv seq a b s s' ok :
  kv_inv s -> swa_prepare seq a b s = (s', ok) ->
  kv_inv s' /\ num_blocks_ (pool s') = num_blocks_ (pool s).
Proof.
  intros Hs. unfold swa_prepare. case_match; [by intros [= <- <-]|].
  destruct (seq_blocks_ s !! seq) as [bl|]; [|by intros [= <- <-]].
  set (t := pad_holes _ _). destruct (swa_fill _ _ _ _) as [[ok' t'] p'] eqn:E.
  intros [= <- <-]. split; [|done]. apply kv_inv_swa; [done| |apply (ki_cursor _ Hs)]. apply swa_inv_insert.
  eapply swa_fill_spec; [| |exact E].
  - eapply pool_owned_ext; [apply (swa_inv_open _ _ seq (ki_swa _ Hs))|].
    intros x. cbv beta. unfold t. by rw socc_pad_holes.
  - pose proof (live_block_nonneg (a `min` b - swa_window_ (swa_ s) - swa_slack_ (swa_ s)) (bsz s)
      (ki_bs _ Hs)). lia.
Qed.

(** Freeing the block of one live slot and turning the slot into a hole. *)
Lemma free_slot_owned h p t b id :
  pool_owned p (fun x => h x + socc x t)%nat -> t !! b = Some id -> 0 <= id ->
  pool_owned (free_swa_block id p) (fun x => h x + socc x (<[b := (-1)%Z]> t))%nat.
Proof.
  intros Ho Eb Hlive. assert (free_swa_block id p = drop_refs [Some id] p) as ->.
  { by apply release_raw_reset. }
  eapply drop_refs_owned; [exact Ho|]. intros x. cbv beta.
  pose proof (socc_insert x t b id (-1) Eb) as Hs. unfold socc in Hs at 2 4. simpl in Hs.
  rewrite (proj2 (Z.leb_le 0 id)) in Hs by done.
  change (rocc x [None]) with 0%nat in Hs. lia.
Qed.

(** Trimming [b, b + n): those slots become holes, the others are untouched. *)
Lemma swa_trim_loop_spec n h b t p t' p' :
  pool_owned p (fun x => h x + socc x t)%nat -> swa_trim_loop n b t p = (t', p') ->
  pool_owned p' (fun x => h x + socc x t')%nat /\ length t' = length t /\
  (forall j, (j < b \/ b + n <= j)%nat -> t' !! j = t !! j) /\
  (forall j, (b <= j < b + n)%nat -> default (-1) (t' !! j) < 0).
Proof.
  revert b t p. induction n as [|n IH]; intros b t p Ho; simpl.
  { intros [= <- <-]. split_and!; try done. lia. }
  destruct (Z.leb_spec 0 (default (-1) (t !! b))) as [Hlive|Hhole]; intros E.
  - destruct (t !! b) as [id|] eqn:Eb; simpl in Hlive, E; [|lia].
    pose proof (free_slot_owned _ _ _ _ _ Ho Eb Hlive) as Ho1.
    destruct (IH _ _ _ Ho1 E) as (? & Hl & Hout & Hin). rw length_insert in Hl.
    split_and!; try done.
    + intros j Hj. rewrite Hout by lia. by rewrite list_lookup_insert_ne by lia.
    + intros j Hj. destruct (decide (j = b)) as [->|]; [|apply Hin; lia].
      rewrite Hout by lia. rewrite list_lookup_insert_eq; [simpl; lia|].
      by eapply lookup_lt_Some.
  - destruct (IH _ _ _ Ho E) as (? & ? & Hout & Hin). split_and!; try done.
    + intros j Hj. apply Hout. lia.
    + intros j Hj. destruct (decide (j = b)) as [->|]; [|apply Hin; lia]. rewrite Hout by lia. done.
Qed.

Lemma swa_trim_inv seq n s :
  kv_inv s -> kv_inv (swa_trim seq n s) /\
  num_blocks_ (pool (swa_trim seq n s)) = num_blocks_ (pool s).
Proof.
  intros Hs. unfold swa_trim. case_match; [done|].
  destruct (seq_swa_blocks_ (swa_ s) !! seq) as [t|] eqn:Et; [|done]. case_match; [done|].
  destruct (swa_trim_loop _ _ _ _) as [t' p'] eqn:E.
  split; [|done]. apply kv_inv_swa; [done| |].
  2:{ apply map_Forall_insert_2; [|apply (ki_cursor _ Hs)].
      destruct (swa_trim_cursor_ (swa_ s) !! seq) as [k|] eqn:Ek; simpl; [|lia].
      assert (0 <= k) by (by eapply (ki_cursor _ Hs)). lia. }
  apply swa_inv_insert.
  pose proof (swa_inv_open _ _ seq (ki_swa _ Hs)) as Hw. rw Et /= in Hw.
  by destruct (swa_trim_loop_spec _ _ _ _ _ _ _ Hw E) as [? _].
Qed.

(** ** Restoring a window snapshot *)

(** What the allocation loop does: holes of [b, b + n) get fresh blocks nobody
    owned, each once; the rest of the table is untouched. *)
Lemma restore_fill_spec n h b t p fresh ok t' p' fresh' :
  pool_owned p (fun x => h x + socc x t)%nat -> (b + n <= length t \/ n = 0)%nat ->
  restore_fill n b t p fresh = (ok, t', p', fresh') ->
  exists ids, fresh' = fresh ++ ids /\ Forall (fun id => 0 <= id /\ socc id t = 0%nat) ids /\
    pool_owned p' (fun x => h x + socc x t')%nat /\ length t' = length t /\
    (forall x, socc x t' = (socc x t + occ x ids)%nat) /\
    (forall j, t' !! j = t !! j \/
       (b <= j < b + n)%nat /\ default (-1) (t !! j) < 0 /\ exists id, t' !! j = Some id /\ id ∈ ids).
Proof.
  revert b t p fresh. induction n as [|n IH]; intros b t p fresh Ho Hlen; simpl.
  { intros [= <- <- <- <-]. exists []. rw app_nil_r. by split_and!; auto. }
  destruct (Z.leb_spec 0 (default (-1) (t !! b))) as [Hlive|Hhole].
  { intros E. destruct (IH (S b) t p fresh Ho ltac:(lia) E) as (ids & ? & ? & ? & ? & ? & Hj).
    exists ids. split_and!; try done. intros j. destruct (Hj j) as [?|(? & ?)]; [by left|right].
    split; [lia|done]. }
  unfold allocate_swa_block. destruct (acquire p) as [p1 [id|]] eqn:Ea; simpl.
  2:{ apply acquire_none in Ea as [-> _]. intros [= <- <- <- <-]. exists []. rw app_nil_r.
      by split_and!; auto. }
  destruct (acquire_owned _ _ _ _ Ho Ea) as (Hz & Hr & _ & _ & Ho1).
  rewrite (proj2 (Z.ltb_ge id 0)) by lia. intros E.
  destruct (swa_hole_or_id t b Hhole ltac:(lia)) as (old & Hold & Hsocc).
  assert (forall x, socc x (<[b := id]> t) = (socc x t + if decide (x = id) then 1 else 0)%nat) as Hadd.
  { intros x. pose proof (socc_insert x t b old id Hold) as Hs. rw Hsocc in Hs.
    unfold socc in Hs at 3. simpl in Hs. rewrite (proj2 (Z.leb_le 0 id)) in Hs by lia.
    rw rocc_cons rocc_nil in Hs. repeat case_decide; simplify_eq; lia. }
  assert (pool_owned p1 (fun x => h x + socc x (<[b := id]> t))%nat) as Ho2.
  { eapply pool_owned_ext; [exact Ho1|]. intros x. cbv beta. rw Hadd. lia. }
  destruct (IH (S b) _ p1 _ Ho2 ltac:(rw length_insert; lia) E)
    as (ids & -> & Hids & ? & Hl & Hx & Hj). rw length_insert in Hl.
  exists (id :: ids). rw -app_assoc /=. split_and!; try done.
  - constructor; [split; [lia|lia]|]. eapply Forall_impl; [exact Hids|].
    intros x [? Hs]. rw Hadd in Hs. split; [done|lia].
  - intros x. rw Hx Hadd occ_cons. repeat case_decide; simplify_eq; lia.
  - intros j. destruct (decide (j = b)) as [->|Hjb].
    + right. split_and!; [lia..|done|]. exists id. split; [|set_solver].
      destruct (Hj b) as [->|(? & _)]; [|lia]. by rewrite list_lookup_insert_eq by lia.
    + destruct (Hj j) as [Hk|(? & Hh & k & ? & ?)].
      * left. rw Hk. by rewrite list_lookup_insert_ne by done.
      * right. rewrite list_lookup_insert_ne in Hh by done. split_and!; [lia..|done|].
        exists k. split; [done|set_solver].
Qed.

Lemma clear_fresh_lookup n b fresh t j :
  clear_fresh n b fresh t !! j =
    if decide ((b <= j < b + n)%nat /\ default (-1) (t !! j) ∈ fresh) then
      (if decide (j < length t)%nat then Some (-1) else None) else t !! j.
Proof.
  revert b t. induction n as [|n IH]; intros b t; simpl.
  { rewrite decide_False by lia. done. }
  rw IH. destruct (decide (j = b)) as [->|Hj].
  - rewrite decide_False by lia. case_bool_decide as Hb.
    + rewrite (decide_True (P := _ /\ _)) by (split; [lia|done]). case_decide.
      * by rewrite list_lookup_insert_eq by lia.
      * apply lookup_ge_None. rw length_insert. lia.
    + by rewrite (decide_False (P := _ /\ _)) by tauto.
  - assert ((if bool_decide (default (-1) (t !! b) ∈ fresh) then <[b := -1]> t else t) !! j = t !! j)
      as ->. { case_bool_decide; [|done]. by rewrite list_lookup_insert_ne by done. }
    assert (length (if bool_decide (default (-1) (t !! b) ∈ fresh) then <[b := -1]> t else t) = length t)
      as ->. { case_bool_decide; [|done]. by rw length_insert. }
    destruct (decide ((S b <= j < S b + n)%nat /\ default (-1) (t !! j) ∈ fresh)) as [[? ?]|H].
    + rewrite (decide_True (P := _ /\ _)) by (split; [lia|done]). done.
    + rewrite (decide_False (P := (b <= j < b + S n)%nat /\ _)); [done|]. intros [? ?]. apply H.
      split; [lia|done].
Qed.

(** Clearing the fresh slots gives back the live entries there were before. *)
Lemma clear_fresh_live n b t t' ids :
  Forall (fun id => 0 <= id /\ socc id t = 0%nat) ids -> length t' = length t ->
  (forall j, t' !! j = t !! j \/
     (b <= j < b + n)%nat /\ default (-1) (t !! j) < 0 /\ exists id, t' !! j = Some id /\ id ∈ ids) ->
  live_refs (clear_fresh n b ids t') = live_refs t.
Proof.
  intros Hids Hl Hj. apply list_eq. intros j. unfold live_refs. rw !list_lookup_fmap clear_fresh_lookup.
  rewrite Forall_forall in Hids. destruct (Hj j) as [Hk|(Hr & Hh & id & Hk & Hin)]; rw Hk.
  - rewrite decide_False; [done|]. intros [_ Hin]. destruct (Hids _ Hin) as [Hpos Hz].
    destruct (t !! j) as [y|] eqn:Ey; simpl in *; [|lia].
    enough (0 < socc y t)%nat by lia. unfold socc. apply rocc_pos. unfold live_refs.
    apply list_elem_of_fmap. exists y. rewrite (proj2 (Z.leb_le 0 y)) by done.
    split; [done|by eapply list_elem_of_lookup_2].
  - rewrite decide_True by done. pose proof (lookup_lt_Some _ _ _ Hk) as Hlt.
    rewrite decide_True by done. simpl.
    destruct (lookup_lt_is_Some_2 t j) as [y Hy]; [lia|]. rw Hy /= in Hh. rw Hy /=.
    by rewrite (proj2 (Z.leb_gt 0 y)) by done.
Qed.

Lemma undo_fresh_spec n h b fresh t p t' p' :
  pool_owned p (fun x => h x + socc x t)%nat -> undo_fresh n b fresh t p = (t', p') ->
  pool_owned p' (fun x => h x + socc x t')%nat.
Proof.
  revert b t p. induction n as [|n IH]; intros b t p Ho; simpl; [by intros [= <- <-]|].
  destruct (Z.leb_spec 0 (default (-1) (t !! b))) as [Hlive|Hhole]; simpl; [|by apply IH].
  case_bool_decide; [|by apply IH]. apply IH.
  destruct (t !! b) as [id|] eqn:Eb; simpl in *; [|lia]. by apply free_slot_owned.
Qed.

Lemma swa_snapshot_restore_inv g seq upto slab s s' r :
  kv_inv s -> swa_snapshot_restore g seq upto slab s = (s', r) ->
  kv_inv s' /\ num_blocks_ (pool s') = num_blocks_ (pool s).
Proof.
  intros Hs. unfold swa_snapshot_restore. case_match; [by intros [= <- <-]|].
  case_match; [by intros [= <- <-]|].
  destruct (seq_blocks_ s !! seq) as [bl|]; [|by intros [= <- <-]].
  destruct (Z.ltb_spec (Z.of_nat (length bl)) (upto ÷ bsz s)) as [|Hlen]; [by intros [= <- <-]|].
  set (t := pad_holes _ _). set (first := swa_first_live_block upto s).
  assert (0 <= first) as Hfirst by (apply live_block_nonneg, Hs).
  destruct (restore_fill _ _ _ _ _) as [[[ok t1] p1] fresh] eqn:E.
  apply (restore_fill_spec _ (fun q => msum (socc q) (delete seq (seq_swa_blocks_ (swa_ s))))) in E
    as (ids & Hf & Hids & Ho1 & Hl & Hx & Hj).
  2:{ eapply pool_owned_ext; [apply (swa_inv_open _ _ seq (ki_swa _ Hs))|].
      intros x. cbv beta. unfold t. by rw socc_pad_holes. }
  2:{ unfold t. rw length_pad_holes. lia. }
  simpl in Hf. subst fresh.
  assert (map_Forall (fun _ k => 0 <= k)
    (<[seq := Z.max (default 0 (swa_trim_cursor_ (swa_ s) !! seq)) first]>
       (swa_trim_cursor_ (swa_ s)))) as Hcur.
  { apply map_Forall_insert_2; [lia|apply (ki_cursor _ Hs)]. }
  destruct ok; [case_match|].
  - intros [= <- <-]. split; [|done]. apply kv_inv_swa; [done| |done]. by apply swa_inv_insert.
  - destruct (undo_fresh _ _ _ _ _) as [t2 p2] eqn:Eu. intros [= <- <-]. split; [|done].
    apply kv_inv_swa; [done| |done]. apply swa_inv_insert. by eapply undo_fresh_spec.
  - intros [= <- <-]. split; [|done]. apply kv_inv_swa; [done| |apply (ki_cursor _ Hs)].
    apply swa_inv_insert.
    assert (forall p, foldl (fun p f => free_swa_block f p) p ids = drop_refs (Some <$> ids) p) as ->.
    { clear -Hids. induction ids as [|i ids IH]; intros p; [done|]. apply Forall_cons in Hids as [[Hi _] Hids].
      simpl. rw IH //. unfold free_swa_block. by rw release_raw_reset. }
    eapply drop_refs_owned; [exact Ho1|]. intros x. cbv beta.
    assert (socc x (clear_fresh (Z.to_nat (upto ÷ bsz s - first)) (Z.to_nat first) ids t1) = socc x t)
      as -> by (unfold socc; by rewrite (clear_fresh_live _ _ t)).
    rw Hx rocc_fmap_Some. lia.
Qed.

(** ** Loading the persistent cache *)

(** The read loop owns one fresh block per entry it returns. *)
Lemma load_read_spec pinned ext records h2i p c entries p' :
  alloc_inv pinned ext p c -> load_read records h2i p = (entries, p') ->
  num_blocks_ p' = num_blocks_ p /\ NoDup entries.*2 /\
  Forall (fun b => b ∈ free_list_ p /\ cached_blocks_map_ c !! b = None) entries.*2 /\
  alloc_inv pinned (plus_refs ext (Some <$> entries.*2)) p' c.
Proof.
  revert ext p entries. induction records as [|h records IH]; intros ext p entries Hinv; simpl.
  { intros [= <- <-]. split_and!; try done; [constructor|].
    eapply alloc_inv_ext; [exact Hinv|]. intros x. unfold plus_refs. rw /= rocc_nil. lia. }
  case_bool_decide; [by apply IH|].
  destruct (acquire p) as [p1 [id|]] eqn:Ea.
  2:{ apply acquire_none in Ea as [-> _]. intros [= <- <-]. split_and!; try done; [constructor|].
      eapply alloc_inv_ext; [exact Hinv|]. intros x. unfold plus_refs. rw /= rocc_nil. lia. }
  destruct (load_read records h2i p1) as [es p2] eqn:E. intros [= <- <-].
  destruct (acquire_alloc _ _ _ _ _ _ Hinv Ea) as (_ & _ & Hn & Hm & Hinv1 & _).
  destruct (acquire_owned _ _ _ _ (ai_pool _ _ _ _ Hinv) Ea) as (_ & _ & Hfl & _).
  pose proof (wf_nodup _ (proj1 (ai_pool _ _ _ _ Hinv))) as Hnd. rw Hfl in Hnd.
  apply NoDup_app in Hnd as (_ & Hdis & _).
  destruct (IH _ _ _ Hinv1 E) as (Hn2 & Hnd2 & Hfr & Hinv2). simpl. split_and!.
  - congruence.
  - apply NoDup_cons. split; [|done]. intros Hin. rewrite Forall_forall in Hfr.
    apply Hfr in Hin as [Hin _]. apply (Hdis _ Hin). set_solver.
  - constructor; [split; [rw Hfl; set_solver|done]|]. eapply Forall_impl; [exact Hfr|].
    intros x [? ?]. split; [rw Hfl; set_solver|done].
  - eapply alloc_inv_ext; [exact Hinv2|]. intros x. unfold plus_refs, bump.
    change (Some id :: list_fmap _ _ Some (list_fmap _ _ snd es)) with (Some id :: (Some <$> es.*2)).
    rw rocc_cons. repeat case_decide; simplify_eq; lia.
Qed.

(** Registering hands the copied blocks to the cache, as long as none of them
    is pinned: the reclaimable counter takes every one of them. *)
Lemma load_register_spec copy_ok pinned ext p entries c c' refs :
  alloc_inv pinned (plus_refs ext (Some <$> entries.*2)) p c -> NoDup entries.*2 ->
  Forall (fun b => b ∉ pinned /\ cached_blocks_map_ c !! b = None) entries.*2 ->
  load_register copy_ok entries c = (c', refs) ->
  alloc_inv pinned (plus_refs ext refs) p c'.
Proof.
  revert ext c refs. induction entries as [|[h b] entries IH]; intros ext c refs Hinv Hnd Hfr; simpl.
  { by intros [= <- <-]. }
  simpl in *. apply NoDup_cons in Hnd as [Hb Hnd]. apply Forall_cons in Hfr as [[Hp Hm] Hfr].
  assert (forall r x, plus_refs ext (r :: (Some <$> entries.*2)) x =
            plus_refs (plus_refs ext [r]) (Some <$> entries.*2) x) as Hsplit.
  { intros r x. unfold plus_refs. rw !(rocc_cons _ r) rocc_nil. lia. }
  assert (forall r rs x, plus_refs (plus_refs ext [r]) rs x = plus_refs ext (r :: rs) x) as Hjoin.
  { intros r rs x. unfold plus_refs. rw !(rocc_cons _ r) rocc_nil. lia. }
  destruct (copy_ok b).
  - destruct (load_register copy_ok entries (load_entry h b c)) as [c1 rs] eqn:E. intros [= <- <-].
    assert (alloc_inv pinned (plus_refs ext (Some <$> entries.*2)) p (load_entry h b c)) as Hinv1.
    { pose proof (alloc_inv_cache_add pinned (plus_refs ext (Some <$> entries.*2)) p c b) as Hadd.
      rewrite decide_False in Hadd by done. eapply same_cached_alloc_inv; [|apply Hadd; [|done]].
      - done.
      - eapply alloc_inv_ext; [exact Hinv|]. intros x. unfold bump, plus_refs.
        change (Some b :: list_fmap _ _ Some (list_fmap _ _ snd entries))
          with (Some b :: (Some <$> entries.*2)). rw rocc_cons.
        repeat case_decide; simplify_eq; lia. }
    eapply alloc_inv_ext; [eapply (IH ext); [exact Hinv1|done| |exact E]|].
    + rewrite Forall_forall in Hfr |- *. intros x Hx. destruct (Hfr x Hx). split; [done|].
      simpl. rewrite lookup_insert_ne; [done|]. by intros ->.
    + intros x. unfold plus_refs. rw (rocc_cons _ None). done.
  - destruct (load_register copy_ok entries c) as [c1 rs] eqn:E. intros [= <- <-].
    eapply alloc_inv_ext; [|apply Hjoin].
    eapply IH; [|done|done|exact E]. eapply alloc_inv_ext; [exact Hinv|]. apply Hsplit.
Qed.

Lemma load_prefix_cache_inv file g copy_ok s s' r :
  kv_inv s -> Forall (fun b => b ∉ pinned s) (free_list_ (pool s)) ->
  load_prefix_cache file g copy_ok s = (s', r) ->
  kv_inv s' /\ num_blocks_ (pool s') = num_blocks_ (pool s).
Proof.
  intros Hs Hfree. unfold load_prefix_cache. case_match; [by intros [= <- <-]|].
  destruct file as [[f|]|]; [|by intros [= <- <-]..]. repeat (case_match; [by intros [= <- <-]|]).
  destruct (load_read _ _ _) as [entries p] eqn:E. destruct (load_register _ _ _) as [c refs] eqn:Er.
  intros [= <- <-].
  destruct (load_read_spec _ _ _ _ _ _ _ _ (ki_alloc _ Hs) E) as (Hn & Hnd & Hfr & Hinv).
  eapply (load_register_spec _ _ _ _ _ _ _ _ Hinv Hnd) in Er.
  2:{ eapply Forall_impl; [exact Hfr|]. intros b [Hb ?]. rewrite Forall_forall in Hfree. auto. }
  destruct (alloc_inv_drop_refs _ _ _ _ _ Er) as [Hn2 Hinv2].
  split; [by apply kv_inv_mem'|]. exact (eq_trans Hn2 Hn).
Qed.

(** ** Residual slots *)

Lemma kv_inv_residual s r : kv_inv s -> res_inv r -> kv_inv (set_residual r s).
Proof. intros [] ?. by constructor. Qed.

Lemma allocate_residual_slot_inv seq s s' r :
  kv_inv s -> allocate_residual_slot seq s = (s', r) -> kv_inv s'.
Proof.
  intros Hs. unfold allocate_residual_slot. destruct (residual_enabled_ _) eqn:Een; simpl;
    [|by intros [= <- <-]].
  destruct (residual_seq_slot_ _ !! seq) as [k|] eqn:E; [by intros [= <- <-]|].
  destruct (last _) as [slot|] eqn:El; intros [= <- <-]; [|done].
  apply kv_inv_residual; [done|]. destruct (ki_res _ Hs) as [Hnd Hinj Hdis Hr Hring Hoff].
  pose proof (last_pop_back _ _ El) as Ef. set (fl := pop_back _) in *. rw Ef in Hnd, Hdis, Hr.
  apply NoDup_app in Hnd as (Hnd & Hdj & _). rw Een in Hr.
  assert (slot ∉ fl) as Hnot by (intros Hin; apply (Hdj slot Hin); set_solver).
  assert (forall a k, residual_seq_slot_ (residual_ s) !! a = Some k -> k ≠ slot) as Hne.
  { intros a k Ha ->. apply (Hdis _ _ Ha). set_solver. }
  constructor; simpl; try done.
  - intros a b k. rw !lookup_insert_Some. intros [[<- <-]|[? Ha]] [[<- Hk]|[? Hb]]; try done.
    + by apply Hne in Hb.
    + subst. by apply Hne in Ha.
    + by eapply Hinj.
  - intros a k [[<- <-]|[? Ha]]%lookup_insert_Some; [done|]. intros Hk. apply (Hdis _ _ Ha). set_solver.
  - intros k. rw -Hr elem_of_app list_elem_of_singleton. split.
    + intros [?|(a & [[<- <-]|[? Ha]]%lookup_insert_Some)]; eauto.
    + intros [[?| ->]|(a & Ha)]; [eauto| |]; right.
      * exists seq. by rw lookup_insert_eq.
      * exists a. rewrite lookup_insert_ne; [done|]. intros ->. congruence.
Qed.

Lemma enable_residual_slots_inv n k s s' ok :
  kv_inv s -> enable_residual_slots n k s = (s', ok) -> kv_inv s'.
Proof.
  intros Hs. unfold enable_residual_slots. destruct (residual_enabled_ _) eqn:Een;
    [by intros [= <- <-]|]. destruct (_ || _) eqn:Eor; [by intros [= <- <-]|].
  apply orb_false_iff in Eor as [Hn Hk]. intros [= <- <-]. apply kv_inv_residual; [done|].
  pose proof (init_slots_owned n closed_pool ltac:(lia)) as [Hwf _].
  destruct (ki_res _ Hs) as [_ _ _ _ _ Hoff]. constructor; simpl; try done.
  - apply (wf_nodup _ Hwf).
  - intros slot. pose proof (wf_free _ Hwf slot) as Hf. simpl in Hf. rw Hf.
    unfold ref_count. simpl. split.
    + intros [[? _]|(a & ?)]; [done|done].
    + intros [_ Hr]. left. split; [done|]. rewrite (proj2 (orb_false_iff _ _)) by lia.
      by rewrite lookup_replicate_2 by lia.
  - rw Hoff //.
Qed.

Lemma advance_residual_inv seq s : kv_inv s -> kv_inv (advance_residual seq s).
Proof.
  intros Hs. unfold advance_residual. destruct (negb _ || _) eqn:E; [done|].
  apply orb_false_iff in E as [Een Hn]. apply kv_inv_residual; [done|].
  destruct (ki_res _ Hs) as [Hnd Hinj Hdis Hr Hring Hoff]. constructor; try done; simpl.
  - intros a st [[<- <-]|[_ Ha]]%lookup_insert_Some; [simpl|by eapply Hring].
    set (st := default _ _).
    assert (0 <= write_idx st < residual_n_tokens_ (residual_ s) /\
            0 <= fill_count st <= residual_n_tokens_ (residual_ s)) as [Hw Hf].
    { unfold st. destruct (seq_residual_state_ _ !! seq) eqn:Es; [by eapply Hring|]. simpl. lia. }
    rewrite Z.rem_mod_nonneg by lia. split; [apply Z.mod_pos_bound; lia|case_zbool; lia].
  - intros H. by rw H in Een.
Qed.

(** ** The manager as a transition system *)

(** One call of a public operation, with any arguments and any result.
    [load_prefix_cache], which the engine calls on the manager it has just built,
    only while no free block is pinned: it counts every block it loads as
    reclaimable ([load_prefix_cache_overcounts] shows what happens otherwise). *)
Inductive kv_step : KVM -> KVM -> Prop :=
| step_allocate s seq n s' r : allocate_blocks seq n s = (s', r) -> kv_step s s'
| step_append s seq s' r : append_block seq s = (s', r) -> kv_step s s'
| step_prefix s seq tokens mr salt s' r :
    allocate_blocks_with_prefix seq tokens mr salt s = (s', r) -> kv_step s s'
| step_register s seq tokens salt : kv_step s (register_block_hashes seq tokens salt s)
| step_free s seq : kv_step s (free_sequence seq s)
| step_touch s seq : kv_step s (touch seq s)
| step_evict_lru s s' r : evict_lru s = (s', r) -> kv_step s s'
| step_evict_cached s s' r : evict_cached_block s = (s', r) -> kv_step s s'
| step_pin s seq n s' : pin_prefix seq n s = Some s' -> kv_step s s'
| step_unpin s seq : kv_step s (unpin_prefix seq s)
| step_evict_middle s seq ns nw s' r :
    evict_middle_blocks seq ns nw s = Some (s', r) -> kv_step s s'
| step_rollback s seq n : kv_step s (rollback seq n s)
| step_swa_sizing s w k : kv_step s (enable_swa_sizing w k s)
| step_swa_prepare s seq a b s' r : swa_prepare seq a b s = (s', r) -> kv_step s s'
| step_swa_trim s seq n : kv_step s (swa_trim seq n s)
| step_swa_restore s g seq upto slab s' r :
    swa_snapshot_restore g seq upto slab s = (s', r) -> kv_step s s'
| step_load s file g copy_ok s' r :
    Forall (fun b => b ∉ pinned s) (free_list_ (pool s)) ->
    load_prefix_cache file g copy_ok s = (s', r) -> kv_step s s'
| step_res_enable s n k s' r : enable_residual_slots n k s = (s', r) -> kv_step s s'
| step_res_alloc s seq s' r : allocate_residual_slot seq s = (s', r) -> kv_step s s'
| step_res_release s seq : kv_step s (release_residual_slot seq s)
| step_res_advance s seq : kv_step s (advance_residual seq s)
| step_prefix_enable s e : kv_step s (set_prefix_caching_enabled e s)
| step_pin_budget s n : kv_step s (set_pin_budget_blocks n s).

Inductive kv_reachable (max_blocks block_size swa_max_blocks : Z) : KVM -> Prop :=
| reach_new : kv_reachable max_blocks block_size swa_max_blocks
                (kvm_new (kv_cache_new max_blocks block_size swa_max_blocks))
| reach_step s s' : kv_reachable max_blocks block_size swa_max_blocks s -> kv_step s s' ->
    kv_reachable max_blocks block_size swa_max_blocks s'.

#[export] Hint Constructors kv_step kv_reachable : quench.

Lemma enable_residual_pool n k s s' ok : enable_residual_slots n k s = (s', ok) -> pool s' = pool s.
Proof. unfold enable_residual_slots. repeat case_match; by intros [= <- <-]. Qed.
Lemma allocate_residual_pool seq s s' r : allocate_residual_slot seq s = (s', r) -> pool s' = pool s.
Proof. unfold allocate_residual_slot. repeat case_match; by intros [= <- <-]. Qed.

Lemma kv_step_inv s s' :
  kv_step s s' -> kv_inv s -> kv_inv s' /\ num_blocks_ (pool s') = num_blocks_ (pool s).
Proof.
  intros Hstep Hs. destruct Hstep.
  - by eapply allocate_blocks_inv.
  - by eapply append_block_inv.
  - by eapply allocate_blocks_with_prefix_inv.
  - split; [by apply register_block_hashes_inv|].
    unfold register_block_hashes. by repeat case_match.
  - by destruct (free_sequence_inv seq s Hs) as (? & ? & _).
  - split; [by apply touch_inv|]. unfold touch. by case_match.
  - by eapply evict_lru_inv.
  - by eapply evict_cached_block_inv.
  - destruct (pin_prefix_inv seq n s Hs) as (q & c & E & ?). simplify_eq. done.
  - split; [by apply unpin_prefix_inv|]. unfold unpin_prefix. by destruct (unpin_core _ _ _).
  - destruct (evict_middle_blocks_inv seq ns nw s Hs) as (? & ? & E & ? & ?). by simplify_eq.
  - by apply rollback_inv.
  - unfold enable_swa_sizing. case_match; [done|]. split; [|done]. destruct Hs. by constructor.
  - by eapply swa_prepare_inv.
  - by apply swa_trim_inv.
  - by eapply swa_snapshot_restore_inv.
  - by eapply load_prefix_cache_inv.
  - split; [by eapply enable_residual_slots_inv|]. by erewrite enable_residual_pool.
  - split; [by eapply allocate_residual_slot_inv|]. by erewrite allocate_residual_pool.
  - split; [by apply release_residual_slot_inv|].
    pose proof (release_residual_side seq s) as E. injection E as E _ _ _. by rw E.
  - split; [by apply advance_residual_inv|]. unfold advance_residual. by case_match.
  - split; [|done]. destruct Hs as [[Hc Ho] ? ? ? ? ? ?]. constructor; try done.
    split; [|done]. destruct Hc. by constructor.
  - split; [|done]. destruct Hs as [? [[] ? ?] ? ? ? ? ?]. constructor; try done.
Qed.

Lemma open_slots_owned n : pool_owned (fst (open_slots n closed_pool)) (fun _ => 0%nat) /\
  num_blocks_ (fst (open_slots n closed_pool)) = Z.max 0 n.
Proof.
  unfold open_slots. simpl. destruct (Z.leb_spec n 0); simpl.
  - split; [|lia]. split; [constructor; simpl; try done|].
    + intros id. by rewrite ref_count_out by (simpl; lia).
    + constructor.
    + intros id. split; [by intros ?%elem_of_nil|simpl; lia].
    + intros id. by rewrite ref_count_out by (simpl; lia).
  - split; [|lia]. apply init_slots_owned. lia.
Qed.

Lemma kvm_new_inv m bs sm : 0 < bs -> kv_inv (kvm_new (kv_cache_new m bs sm)).
Proof.
  intros Hbs. constructor; simpl; try done.
  - split; [constructor; simpl; try done|].
    + constructor.
    + intros b. rw elem_of_nil lookup_empty. split; [done|by intros [??]].
    + eapply pool_owned_ext; [apply open_slots_owned|]. intros x. unfold tocc, cocc. simpl.
      by rw msum_empty lookup_empty.
  - constructor; simpl; [|constructor|].
    + constructor; simpl.
      * intros b. unfold pin_count. by rw lookup_empty msum_empty.
      * intros b n. by rw lookup_empty.
      * intros b. rw lookup_empty. split; [set_solver|by intros [??]].
    + intros x. rw elem_of_nil lookup_empty. split; [done|by intros [??]].
  - constructor; simpl; [constructor|set_solver|]. intros q. rw lookup_empty. by intros [??].
  - eapply pool_owned_ext; [apply open_slots_owned|]. intros x. simpl. by rw msum_empty.
  - constructor; simpl; try done; [constructor|..].
    + intros slot. split; [|by intros [? _]]. intros [?%elem_of_nil|(a & Ha)]; [done|].
      by rw lookup_empty in Ha.
Qed.

Lemma kv_reachable_facts m bs sm s :
  0 < bs -> kv_reachable m bs sm s -> kv_inv s /\ num_blocks_ (pool s) = Z.max 0 m.
Proof.
  intros Hbs Hr. induction Hr as [|s s' Hr [IH IHn] Hstep].
  - split; [by apply kvm_new_inv|]. apply open_slots_owned.
  - destruct (kv_step_inv _ _ Hstep IH) as [? ?]. split; [done|congruence].
Qed.
