(* ===== verification/KVTheorems.v ===== *)
(** * Theorems about the KV cache manager

    Consequences of [kv_inv] for the callers: no block leaks and none is handed
    out twice, allocation succeeds exactly when enough blocks are free or
    reclaimable, a failed allocation changes no table, prefix reuse returns the
    blocks the hash table names, pins stay within their budget, rollback and
    middle eviction keep what they must, and the sliding-window tables always
    cover the live window. *)

From Corelib Require Import ssreflect_rw.
From stdpp Require Import prelude gmap fin_maps list strings.
From S2P Require Import Prelude Backend BlockPool KVManager KVOwnership KVPins KVInvariant.
Open Scope Z_scope.
Open Scope quench_scope.

(** ** Availability *)

(** Blocks an allocation can still obtain. *)
Definition kv_avail (s : KVM) : nat :=
  avail (pinned s) (tocc (seq_blocks_ s)) (pool s) (pc_ s).

Lemma drop_fresh_avail pinned ext p c ids :
  alloc_inv pinned (plus_refs ext (Some <$> ids)) p c -> NoDup ids ->
  Forall (fun id => ext id = 0%nat /\ id ∉ cached_blocks_lru_ c) ids ->
  avail pinned ext (drop_refs (Some <$> ids) p) c =
    (length ids + avail pinned (plus_refs ext (Some <$> ids)) p c)%nat.
Proof.
  revert p. induction ids as [|id ids IH]; intros p Hinv Hnd Hfr; simpl.
  { apply avail_ext. intros x. unfold plus_refs. rw rocc_nil. lia. }
  apply NoDup_cons in Hnd as [Hid Hnd]. apply Forall_cons in Hfr as [[Hz Hc] Hfr].
  assert (forall x, plus_refs ext (Some <$> id :: ids) x = bump id (plus_refs ext (Some <$> ids)) x) as Hx.
  { intros x. unfold bump, plus_refs. rw fmap_cons rocc_cons. repeat case_decide; simplify_eq; lia. }
  eapply alloc_inv_ext in Hinv; [|exact Hx].
  destruct (alloc_inv_drop _ _ _ _ _ Hinv) as [_ Hinv'].
  change (drop_refs (Some id :: (Some <$> ids)) p)
    with (drop_refs (Some <$> ids) (block_ref_reset (Some id) p)).
  rw (IH _ Hinv' Hnd Hfr). rewrite (avail_ext _ _ _ _ _ Hx).
  assert (rocc id (Some <$> ids) = 0%nat) as Hr.
  { destruct (decide (rocc id (Some <$> ids) = 0)%nat) as [|Hne]; [done|].
    assert (Some id ∈ Some <$> ids) as Hin by (apply rocc_pos; lia).
    apply list_elem_of_fmap in Hin as (y & [= <-] & ?). done. }
  destruct Hinv as [Hpc Ho].
  destruct (block_ref_reset_owned _ _ id Ho) as (_ & Hf & _).
  { unfold bump. rewrite decide_True by done. lia. }
  rewrite decide_True in Hf.
  2:{ unfold bump, plus_refs, cocc. rewrite decide_True, Hz, Hr by done.
      destruct (cached_blocks_map_ c !! id) eqn:E; [|done]. exfalso. apply Hc, (pc_dom _ _ Hpc). by eexists. }
  unfold avail. rw Hf length_app /= reclaimables_bump //. lia.
Qed.

(** [allocate_blocks] on every branch. *)
Lemma allocate_blocks_spec seq n s s' ok :
  kv_inv s -> 0 < n -> allocate_blocks seq n s = (s', ok) ->
  if ok then
    exists ids, length ids = Z.to_nat n /\ NoDup ids /\
      (forall id, id ∈ ids -> tocc (seq_blocks_ s) id = 0%nat) /\
      seq_blocks_ s' = <[seq := default [] (seq_blocks_ s !! seq) ++ (Some <$> ids)]> (seq_blocks_ s) /\
      (kv_avail s = length ids + kv_avail s')%nat
  else
    (kv_avail s < Z.to_nat n)%nat /\ kv_avail s' = kv_avail s /\
    forall q, block_table q s' = block_table q s.
Proof.
  intros Hs Hn. unfold allocate_blocks. rewrite (proj2 (Z.leb_gt n 0)) by done.
  pose proof (alloc_inv_open _ _ seq _ _ (ki_alloc _ Hs)) as Ho.
  destruct (alloc_loop _ _ _ _ _) as [[[ok' p] c] bl'] eqn:E.
  destruct (alloc_loop_spec _ _ _ _ _ _ _ _ _ _ Ho E)
    as (ids & -> & _ & Hsub & Hnd & Hfr & Hinv & Hav & Hok).
  rewrite <- (avail_ext _ _ _ _ _ (tocc_split (seq_blocks_ s) seq)) in Hav.
  destruct ok'; intros [= <- <-].
  - exists ids. split_and!; try done.
    + intros id Hid. rewrite Forall_forall in Hfr. rw (tocc_split _ seq). by apply Hfr.
    + unfold lru_track. by case_match.
    + unfold kv_avail at 1. rw Hav. f_equal. unfold kv_avail.
      assert (forall s0, avail (pinned (lru_track seq s0)) (tocc (seq_blocks_ (lru_track seq s0)))
        (pool (lru_track seq s0)) (pc_ (lru_track seq s0)) =
        avail (pinned s0) (tocc (seq_blocks_ s0)) (pool s0) (pc_ s0)) as ->.
      { intros s0. unfold lru_track. by case_match. }
      apply avail_ext. intros x. simpl. by rw tocc_insert.
  - destruct Hok as [Hlt Hz]. rw drop_app_length take_app_length.
    set (bl := default [] (seq_blocks_ s !! seq)) in *.
    set (ext := plus_refs (tocc (delete seq (seq_blocks_ s))) bl) in *.
    assert (forall x, plus_refs (tocc (delete seq (seq_blocks_ s))) (bl ++ (Some <$> ids)) x =
                      plus_refs ext (Some <$> ids) x) as Hx.
    { intros x. unfold ext, plus_refs. rw rocc_app. lia. }
    eapply alloc_inv_ext in Hinv; [|exact Hx]. rewrite (avail_ext _ _ _ _ _ Hx) in Hz, Hav.
    pose proof (drop_fresh_avail _ _ _ _ _ Hinv Hnd Hfr) as Hd.
    assert (forall q, block_table q (set_seqs (if bool_decide (bl = []) then delete seq (seq_blocks_ s)
                   else <[seq := bl]> (seq_blocks_ s)) s) = block_table q s) as Hbt.
    { intros q. unfold block_table. simpl. destruct (decide (q = seq)) as [->|Hq].
      - case_bool_decide as Eb; [rw lookup_delete_eq|by rw lookup_insert_eq].
        fold bl. by rw Eb.
      - case_bool_decide; [by rw lookup_delete_ne|by rw lookup_insert_ne]. }
    split_and!; [unfold kv_avail; lia| |exact Hbt].
    assert (kv_avail s = length ids) as -> by (unfold kv_avail; lia).
    rewrite Hz, Nat.add_0_r in Hd. rw -Hd. unfold kv_avail. simpl. apply avail_ext. intros x.
    unfold ext. case_bool_decide as Eb; [|by rw tocc_insert].
    unfold plus_refs. rw Eb rocc_nil. lia.
Qed.

(** ** Prefix reuse *)

Section prefix.
Context (bs : Z) (tokens : list Z).

(** Reference definition: the ids of the longest run of blocks from [i] whose
    chained hash maps to a live block. *)
Fixpoint live_run (n : nat) (i parent : Z) (p : BlockPool) (h2i : gmap Z Z) : list Z :=
  match n with
  | O => []
  | S n =>
      let h := compute_block_hash (subspan tokens (i * bs) bs) parent in
      match h2i !! h with
      | Some b => if ref_count b p =? 0 then [] else b :: live_run n (i + 1) h p h2i
      | None => []
      end
  end.

Lemma live_run_ext n i parent p p' h2i :
  (forall x, ref_count x p' = 0 <-> ref_count x p = 0) ->
  live_run n i parent p' h2i = live_run n i parent p h2i.
Proof.
  intros Hx. revert i parent. induction n as [|n IH]; intros i parent; simpl; [done|].
  case_match; [|done]. rw IH. specialize (Hx z). repeat case_zbool; tauto || done.
Qed.

(** Once the run is closed nothing more is reused. *)
Lemma awp_step_closed pinned mr b w w' :
  w_open w = false \/ (0 <= mr <= b) \/ Z.of_nat (length tokens) - b * bs < bs ->
  awp_step pinned bs tokens mr b w = (true, w') ->
  (exists id, w_blocks w' = w_blocks w ++ [Some id]) /\ w_reused w' = w_reused w /\
  (Z.of_nat (length tokens) - b * bs < bs \/ w_open w' = false \/
   prefix_caching_enabled_ (w_pc w) = false).
Proof.
  intros Hcl. unfold awp_step.
  destruct (Z.eqb_spec (bs `min` (Z.of_nat (length tokens) - b * bs)) bs) as [Hf|Hf].
  - assert ((if (0 <=? mr) && (mr <=? b) then false else w_open w) = false) as ->.
    { destruct Hcl as [-> | [?|?]]; [by case_match| |lia].
      by rewrite (proj2 (andb_true_iff _ _)) by lia. }
    destruct (prefix_caching_enabled_ (w_pc w)) eqn:En; simpl.
    + destruct (allocate_block_ref_with_eviction _ _ _) as [[[id|] p] c]; intros [= <-]; simpl; split_and!; eauto.
    + destruct (allocate_block_ref_with_eviction _ _ _) as [[[id|] p] c]; intros [= <-]; simpl; split_and!; eauto.
  - rw andb_false_r.
    destruct (allocate_block_ref_with_eviction _ _ _) as [[[id|] p] c]; intros [= <-]; simpl.
    split_and!; eauto. left. lia.
Qed.

Lemma awp_loop_closed n pinned mr b w w' :
  0 < bs -> (n = 0)%nat \/ w_open w = false ->
  awp_loop n pinned bs tokens mr b w = (true, w') ->
  (exists ids, w_blocks w' = w_blocks w ++ (Some <$> ids)) /\ w_reused w' = w_reused w.
Proof.
  intros Hbs. revert b w. induction n as [|n IH]; intros b w Hcl; simpl.
  { intros [= <-]. split; [exists []; by rw /= app_nil_r|done]. }
  destruct Hcl as [?|Hcl]; [lia|].
  destruct (awp_step _ _ _ _ _ _) as [[] w1] eqn:E; [|done]. intros E'.
  assert (w_open w1 = false) as Ho1.
  { revert E. unfold awp_step. rw Hcl. destruct (_ && (mr <=? b)); repeat case_match; intros [= <-]; done || simplify_eq/=. }
  apply awp_step_closed in E as ([id Hb] & Hr & _); [|by left].
  destruct (IH _ _ (or_intror Ho1) E') as [[ids Hids] Hr'].
  split; [|congruence]. exists (id :: ids). by rw Hids Hb -app_assoc.
Qed.

(** One iteration while the run is open and the block is eligible. *)
Lemma awp_step_open pinned ext mr b w w' :
  alloc_inv pinned (plus_refs ext (w_blocks w)) (w_pool w) (w_pc w) ->
  w_open w = true -> prefix_caching_enabled_ (w_pc w) = true ->
  bs <= Z.of_nat (length tokens) - b * bs -> mr < 0 \/ b < mr ->
  awp_step pinned bs tokens mr b w = (true, w') ->
  let h := compute_block_hash (subspan tokens (b * bs) bs) (w_parent w) in
  match block_hash_to_id_ (w_pc w) !! h with
  | Some id =>
      if ref_count id (w_pool w) =? 0 then
        (exists k, w_blocks w' = w_blocks w ++ [Some k]) /\ w_reused w' = w_reused w /\
        w_open w' = false
      else
        w_blocks w' = w_blocks w ++ [Some id] /\ w_reused w' = w_reused w + 1 /\
        w_open w' = true /\ w_parent w' = h /\ prefix_caching_enabled_ (w_pc w') = true /\
        block_hash_to_id_ (w_pc w') = block_hash_to_id_ (w_pc w) /\
        (forall x, ref_count x (w_pool w') = 0 <-> ref_count x (w_pool w) = 0)
  | None => (exists k, w_blocks w' = w_blocks w ++ [Some k]) /\ w_reused w' = w_reused w /\
            w_open w' = false
  end.
Proof.
  intros Hinv Hop Hen Hfull Hcap. unfold awp_step. rw Hop Hen.
  rewrite (Z.min_l bs) by done. rw Z.eqb_refl /=.
  rewrite (proj2 (andb_false_iff _ _)) by lia. unfold awp_lookup.
  set (h := compute_block_hash _ _).
  destruct (block_hash_to_id_ (w_pc w) !! h) as [id|] eqn:Eh.
  - destruct (Z.eqb_spec (ref_count id (w_pool w)) 0) as [Hz|Hz]; simpl.
    + rewrite bool_decide_eq_true_2.
      2:{ destruct Hinv as [_ [_ Hc]]. specialize (Hc id). unfold cocc in Hc.
          destruct (cached_blocks_map_ (w_pc w) !! id); [lia|done]. }
      destruct (allocate_block_ref_with_eviction _ _ _) as [[[k|] p] c]; intros [= <-];
        simpl; split_and!; eauto.
    + destruct (awp_take _ _ _ _) as [[r p] c] eqn:Et. intros [= <-].
      destruct (awp_take_spec _ _ _ _ _ _ _ _ Hinv (or_introl Hz) Et)
        as (-> & _ & _ & E1 & E2 & E3). simpl. split_and!; try done. by rw E2.
  - destruct (allocate_block_ref_with_eviction _ _ _) as [[[k|] p] c]; intros [= <-];
      simpl; split_and!; eauto.
Qed.

(** [m]: number of leading blocks that may be reused. *)
Lemma awp_loop_open n pinned ext mr m b w w' :
  0 < bs -> 0 <= b <= m ->
  (forall i, i < m <-> bs <= Z.of_nat (length tokens) - i * bs /\ (mr < 0 \/ i < mr)) ->
  (forall i, Z.of_nat (length tokens) - i * bs < bs -> b + Z.of_nat n <= i + 1) ->
  alloc_inv pinned (plus_refs ext (w_blocks w)) (w_pool w) (w_pc w) ->
  w_open w = true -> prefix_caching_enabled_ (w_pc w) = true ->
  m <= b + Z.of_nat n ->
  awp_loop n pinned bs tokens mr b w = (true, w') ->
  let run := live_run (Z.to_nat (m - b)) b (w_parent w) (w_pool w) (block_hash_to_id_ (w_pc w)) in
  (exists ids, w_blocks w' = w_blocks w ++ (Some <$> (run ++ ids))) /\
  w_reused w' = w_reused w + Z.of_nat (length run).
Proof.
  intros Hbs Hb Hm Hlast. revert b w Hb Hlast.
  induction n as [|n IH]; intros b w Hb Hlast Hinv Hop Hen Hmn; simpl.
  { intros [= <-]. assert (m = b) as -> by lia. rw Z.sub_diag /= Z.add_0_r.
    split; [exists []; by rw /= app_nil_r|done]. }
  destruct (awp_step _ _ _ _ _ _) as [[] w1] eqn:E; [|done]. intros E'.
  destruct (awp_step_spec _ _ _ _ _ _ _ _ _ Hinv E) as (_ & Hinv1 & _).
  assert (forall k, w_blocks w1 = w_blocks w ++ [Some k] -> w_reused w1 = w_reused w ->
    (n = 0)%nat \/ w_open w1 = false ->
    (exists ids, w_blocks w' = w_blocks w ++ (Some <$> ([] ++ ids))) /\ w_reused w' = w_reused w) as Hclosed.
  { intros k Hk Hr Hcl. destruct (awp_loop_closed _ _ _ _ _ _ Hbs Hcl E') as [[ids Hids] Hr'].
    split; [|congruence]. exists (k :: ids). by rw Hids Hk -app_assoc. }
  destruct (decide (b = m)) as [->|Hne].
  - rw Z.sub_diag /= Z.add_0_r.
    assert (0 <= mr <= m \/ Z.of_nat (length tokens) - m * bs < bs) as Hcase.
    { specialize (Hm m). lia. }
    apply awp_step_closed in E as ([k Hk] & Hr & Hc); [|by right].
    apply (Hclosed k Hk Hr). destruct Hc as [Hc|[Hc|Hc]]; [|by right|congruence].
    left. specialize (Hlast m Hc). lia.
  - destruct (proj1 (Hm b) ltac:(lia)) as [Hfull Hcap].
    pose proof (awp_step_open _ _ _ _ _ _ Hinv Hop Hen Hfull Hcap E) as Hstep.
    assert (Z.to_nat (m - b) = S (Z.to_nat (m - (b + 1)))) as -> by lia. simpl in Hstep |- *.
    destruct (block_hash_to_id_ (w_pc w) !! _) as [id|] eqn:Eh.
    2:{ destruct Hstep as ([k Hk] & Hr & Ho). rw /= Z.add_0_r. apply (Hclosed k Hk Hr). by right. }
    destruct (ref_count id (w_pool w) =? 0).
    { destruct Hstep as ([k Hk] & Hr & Ho). rw /= Z.add_0_r. apply (Hclosed k Hk Hr). by right. }
    destruct Hstep as (Hk & Hr & Ho & Hpar & Hen1 & Hh & Hlive).
    destruct (IH (b + 1) w1 ltac:(lia) ltac:(intros i Hi; specialize (Hlast i Hi); lia)
      Hinv1 Ho Hen1 ltac:(lia) E') as [[ids Hids] Hr'].
    rewrite Hh, Hpar, (live_run_ext _ _ _ (w_pool w)) in Hids, Hr' by done.
    split; [exists ids; by rw Hids Hk -app_assoc|]. rw Hr' Hr /=. lia.
Qed.
End prefix.

(** Number of leading blocks a request may reuse: the full ones, capped. *)
Definition reuse_cap (num_tokens bs max_reuse : Z) : Z :=
  let full := Z.quot num_tokens bs in if max_reuse <? 0 then full else Z.min full max_reuse.

Lemma reuse_cap_spec nt bs mr i :
  0 < bs -> 0 <= nt ->
  (i < reuse_cap nt bs mr <-> bs <= nt - i * bs /\ (mr < 0 \/ i < mr)).
Proof.
  intros Hbs Hnt. unfold reuse_cap. rewrite Z.quot_div_nonneg by lia.
  assert (i < nt / bs <-> bs <= nt - i * bs) as Hf.
  { pose proof (Z.div_mod nt bs ltac:(lia)). pose proof (Z.mod_pos_bound nt bs Hbs). nia. }
  assert (0 <= nt / bs) by (apply Z.div_pos; lia). case_zbool; lia.
Qed.

Lemma reuse_cap_bounds nt bs mr :
  0 < bs -> 0 <= nt ->
  0 <= reuse_cap nt bs mr <= ceil_blocks nt bs /\
  (forall i, nt - i * bs < bs -> ceil_blocks nt bs <= i + 1).
Proof.
  intros Hbs Hnt. pose proof (ceil_blocks_spec nt bs Hnt Hbs). split; [|intros i Hi; nia].
  assert (0 <= reuse_cap nt bs mr).
  { unfold reuse_cap. pose proof (Z.quot_pos nt bs ltac:(lia) Hbs). case_zbool; lia. }
  split; [done|]. pose proof (reuse_cap_spec nt bs mr (ceil_blocks nt bs) Hbs Hnt).
  destruct (decide (reuse_cap nt bs mr <= ceil_blocks nt bs)); [done|]. nia.
Qed.

(** ** What a prefix allocation consumes

    Each slot takes at most one of the available blocks, so the loop can fail
    only when fewer than its slots are available. *)

Lemma reclaimables_erase pinned ext b l :
  NoDup l -> b ∈ l ->
  (length (reclaimables pinned ext l) <=
   S (length (reclaimables pinned (bump b ext) (list_erase b l))))%nat.
Proof.
  intros Hnd Hb. rewrite reclaimables_bump by (rw elem_of_list_erase; tauto).
  rewrite (list_erase_perm b l) at 1 by done. unfold reclaimables. rw filter_cons.
  case_decide; simpl; lia.
Qed.

Lemma awp_take_avail pinned ext b p c r p' c' :
  alloc_inv pinned ext p c -> ref_count b p ≠ 0 \/ is_Some (cached_blocks_map_ c !! b) ->
  awp_take pinned b p c = (r, p', c') ->
  (avail pinned ext p c <= S (avail pinned (bump b ext) p' c'))%nat.
Proof.
  intros [Hpc Ho] Hlive. unfold awp_take, avail. destruct (cached_blocks_map_ c !! b) as [rf|] eqn:Em.
  - intros [= <- <- <-]. simpl.
    assert (b ∈ cached_blocks_lru_ c) as Hb by (apply (pc_dom _ _ Hpc); by eexists).
    pose proof (reclaimables_erase pinned ext b _ (pc_nodup _ _ Hpc) Hb). lia.
  - destruct (share_by_id b p) as [p1 r1] eqn:E. intros [= <- <- <-].
    rewrite reclaimables_bump by (rewrite (pc_dom _ _ Hpc), Em; by intros []).
    destruct (share_by_id_owned _ _ _ _ _ Ho E) as [(_ & _ & ->)|(_ & _ & _ & -> & _)]; lia.
Qed.

Lemma avail_push pinned ext bl id p c :
  avail pinned (plus_refs ext (bl ++ [Some id])) p c = avail pinned (bump id (plus_refs ext bl)) p c.
Proof. apply avail_ext. intros x. symmetry. apply plus_refs_bump. Qed.

Lemma awp_step_avail pinned ext bs tokens mr b w ok w' :
  alloc_inv pinned (plus_refs ext (w_blocks w)) (w_pool w) (w_pc w) ->
  awp_step pinned bs tokens mr b w = (ok, w') ->
  if ok then (avail pinned (plus_refs ext (w_blocks w)) (w_pool w) (w_pc w) <=
              S (avail pinned (plus_refs ext (w_blocks w')) (w_pool w') (w_pc w')))%nat
  else avail pinned (plus_refs ext (w_blocks w)) (w_pool w) (w_pc w) = 0%nat.
Proof.
  intros Hinv. unfold awp_step.
  assert (forall c1, same_cached (w_pc w) c1 ->
    match allocate_block_ref_with_eviction pinned (w_pool w) c1 with
    | (None, _, _) => avail pinned (plus_refs ext (w_blocks w)) (w_pool w) (w_pc w) = 0%nat
    | (Some id, p, c) => avail pinned (plus_refs ext (w_blocks w)) (w_pool w) (w_pc w) =
                         S (avail pinned (bump id (plus_refs ext (w_blocks w))) p c)
    end) as Halloc.
  { intros c1 Hc1. pose proof (same_cached_alloc_inv _ _ _ _ _ Hc1 Hinv) as Hinv1.
    pose proof (allocate_block_ref_spec _ _ _ _ Hinv1) as Hspec.
    assert (avail pinned (plus_refs ext (w_blocks w)) (w_pool w) (w_pc w) =
            avail pinned (plus_refs ext (w_blocks w)) (w_pool w) c1) as ->
      by (unfold avail; by destruct Hc1 as (-> & _)).
    destruct (allocate_block_ref_with_eviction _ _ _) as [[[id|] p] c]; simpl in Hspec; tauto. }
  case_match.
  - destruct (awp_lookup _ _ _ _) as [[cb|] c1] eqn:El;
      destruct (awp_lookup_spec _ _ _ _ _ _ El) as [Hsame Hhit].
    + destruct Hhit as (_ & -> & _ & Hlive).
      destruct (awp_take pinned cb (w_pool w) (w_pc w)) as [[r p] c] eqn:Et.
      destruct (awp_take_spec _ _ _ _ _ _ _ _ Hinv Hlive Et) as (-> & _).
      intros [= <- <-]. simpl. rw avail_push. by eapply awp_take_avail.
    + specialize (Halloc c1 Hsame).
      destruct (allocate_block_ref_with_eviction _ _ _) as [[[id|] p] c]; intros [= <- <-]; simpl;
        [rw avail_push; lia|done].
  - specialize (Halloc (w_pc w) ltac:(done)).
    destruct (allocate_block_ref_with_eviction _ _ _) as [[[id|] p] c]; intros [= <- <-]; [|done].
    case_match; simpl; rw avail_push; lia.
Qed.

Lemma awp_loop_avail n pinned ext bs tokens mr b w w' :
  alloc_inv pinned (plus_refs ext (w_blocks w)) (w_pool w) (w_pc w) ->
  awp_loop n pinned bs tokens mr b w = (false, w') ->
  (avail pinned (plus_refs ext (w_blocks w)) (w_pool w) (w_pc w) < n)%nat.
Proof.
  revert b w. induction n as [|n IH]; intros b w Hinv; simpl; [done|].
  destruct (awp_step _ _ _ _ _ _) as [[] w1] eqn:E;
    pose proof (awp_step_avail _ _ _ _ _ _ _ _ _ Hinv E) as Hav;
    destruct (awp_step_spec _ _ _ _ _ _ _ _ _ Hinv E) as (_ & Hinv1 & _).
  - intros E'. specialize (IH _ _ Hinv1 E'). simpl in Hav. lia.
  - intros _. simpl in Hav. lia.
Qed.

Lemma block_table_lru_track seq q s : block_table q (lru_track seq s) = block_table q s.
Proof. unfold lru_track. by case_match. Qed.

Lemma allocate_prefix_spec seq tokens mr salt s s' r :
  kv_inv s -> prefix_caching_enabled_ (pc_ s) = true -> tokens ≠ [] ->
  default [] (seq_blocks_ s !! seq) = [] ->
  allocate_blocks_with_prefix seq tokens mr salt s = (s', r) ->
  let n := Z.of_nat (length tokens) in
  let run := live_run (bsz s) tokens (Z.to_nat (reuse_cap n (bsz s) mr)) 0 salt (pool s)
               (block_hash_to_id_ (pc_ s)) in
  (r = -1 /\ seq_blocks_ s' = delete seq (seq_blocks_ s) /\
   Z.of_nat (kv_avail s) < ceil_blocks n (bsz s)) \/
  (r = Z.of_nat (length run) /\
   exists fresh, block_table seq s' = run ++ fresh /\
     Z.of_nat (length (block_table seq s')) = ceil_blocks n (bsz s) /\
     forall q, q ≠ seq -> block_table q s' = block_table q s).
Proof.
  intros Hs Hen Htok Hbl. pose proof (ki_bs _ Hs) as Hbs. unfold allocate_blocks_with_prefix.
  assert (0 < Z.of_nat (length tokens)) as Hlen by (destruct tokens; simpl in *; [done|lia]).
  rewrite (proj2 (Z.leb_gt _ 0)) by done. rw Hbl.
  set (w0 := mkAwp _ _ _ _ _ _ _).
  destruct (awp_loop _ _ _ _ _ _ w0) as [ok w] eqn:E.
  pose proof (alloc_inv_open _ _ seq _ _ (ki_alloc _ Hs)) as Ho. rw Hbl in Ho.
  change (pool s) with (w_pool w0) in Ho. change (pc_ s) with (w_pc w0) in Ho.
  destruct (awp_loop_spec _ _ _ _ _ _ _ _ _ _ (Ho : alloc_inv _ (plus_refs _ (w_blocks w0)) _ _) E)
    as (_ & Hinv & ids & Hids & Hn). destruct ok; intros [= <- <-].
  2:{ left. destruct (rollback_partial_inv seq w s Hs Hbl Hinv) as (_ & _ & ?). split_and!; try done.
      apply (awp_loop_avail _ _ (tocc (delete seq (seq_blocks_ s)))) in E; [|done].
      unfold kv_avail. rewrite (avail_ext _ _ _ _ _ (tocc_split (seq_blocks_ s) seq)), Hbl.
      simpl in E. lia. }
  right. set (nt := Z.of_nat (length tokens)) in *.
  pose proof (reuse_cap_bounds nt (bsz s) mr Hbs ltac:(lia)) as [Hcap Hlast].
  apply (awp_loop_open _ _ _ _ (tocc (delete seq (seq_blocks_ s))) mr (reuse_cap nt (bsz s) mr))
    in E as [[fresh Hf] Hr]; try done; try lia.
  2:{ intros i. by apply reuse_cap_spec; [|lia]. }
  2:{ intros i Hi. specialize (Hlast i Hi). lia. }
  rw Z.sub_0_r in Hf, Hr. split; [done|].
  assert (forall q, block_table q (lru_track seq (set_hashes
    (<[seq:=w_hashes w]> (seq_block_hashes_ s))
    (set_seqs (<[seq:=w_blocks w]> (seq_blocks_ s)) (set_pc (w_pc w) (set_pool (w_pool w) s))))) =
    if decide (q = seq) then ref_id <$> w_blocks w else block_table q s) as Hbt.
  { intros q. rw block_table_lru_track. unfold block_table. simpl. case_decide; subst.
    - by rw lookup_insert_eq.
    - by rewrite lookup_insert_ne by congruence. }
  exists fresh. rw Hbt decide_True //. split_and!.
  - rw Hf /= -list_fmap_compose. apply list_fmap_id.
  - rw length_fmap Hids /= length_fmap Hn. lia.
  - intros q Hq. by rw Hbt decide_False.
Qed.

(** ** Admission estimates *)

Lemma lcp_loop_closed n b bs tokens tbl hs parent cached :
  fst (lcp_loop n b bs tokens tbl hs parent cached false) = cached.
Proof. revert b hs parent. induction n as [|n IH]; intros b hs parent; simpl; [done|]. apply IH. Qed.

Lemma lcp_loop_run n k b bs tokens tbl hs parent p :
  (k <= n)%nat ->
  b + Z.of_nat (length (live_run bs tokens k b parent p tbl)) <=
  fst (lcp_loop n b bs tokens tbl hs parent b true).
Proof.
  revert k b hs parent. induction n as [|n IH]; intros k b hs parent Hk.
  { assert (k = 0%nat) as -> by lia. simpl. lia. }
  assert (b <= fst (lcp_loop (S n) b bs tokens tbl hs parent b true)) as Hbase.
  { simpl. case_bool_decide; [|by rw lcp_loop_closed].
    match goal with |- _ <= fst (lcp_loop _ _ _ _ _ ?hs' ?par' _ _) =>
      pose proof (IH 0%nat (b + 1) hs' par' ltac:(lia)) as H' end. simpl in H'. lia. }
  destruct k as [|k]; simpl live_run; [simpl length; lia|].
  destruct (tbl !! _) as [id|] eqn:E; [|simpl length; lia]. case_zbool; [simpl length; lia|].
  simpl. rw E. rewrite bool_decide_eq_true_2 by (by eexists).
  specialize (IH k (b + 1)). simpl length. etrans; [|apply IH; lia]. lia.
Qed.

(** ** Pinned blocks and reclaim *)

Lemma evict_loop_pinned fuel pinned ext p c x :
  alloc_inv pinned ext p c -> x ∈ pinned -> x ∈ cached_blocks_lru_ c ->
  x ∈ cached_blocks_lru_ (snd (evict_loop fuel pinned p c)).
Proof.
  revert p c. induction fuel as [|fuel IH]; intros p c Hinv Hx Hin; simpl; [done|].
  destruct (cached_blocks_lru_ c) eqn:El; [by rw El|]. rw -El in Hin.
  destruct (reclaim_cached_block pinned p c) as [[r p1] c1] eqn:Er.
  destruct (reclaim_spec _ _ _ _ _ _ _ Hinv Er) as (Hinv1 & _ & Hcase).
  assert (x ∈ cached_blocks_lru_ c1) as Hin1.
  { destruct Hcase as [(_ & _ & _ & ->)|(_ & Hr & _ & -> & _)]; [done|].
    apply elem_of_list_erase. split; [|done]. by intros ->. }
  destruct (r <? 0); [done|]. destruct (acquire p1) as [p2 [id|]] eqn:Ea; [done|].
  apply acquire_none in Ea as [-> _]. by apply IH.
Qed.

Lemma alloc_loop_pinned n pinned ext p c bl x :
  alloc_inv pinned (plus_refs ext bl) p c -> x ∈ pinned -> x ∈ cached_blocks_lru_ c ->
  x ∈ cached_blocks_lru_ (alloc_loop n pinned p c bl).1.2.
Proof.
  revert p c bl. induction n as [|n IH]; intros p c bl Hinv Hx Hin; simpl; [done|].
  pose proof (allocate_block_ref_spec _ _ _ _ Hinv) as Hpost.
  assert (x ∈ cached_blocks_lru_ (snd (allocate_block_ref_with_eviction pinned p c))) as Hin'.
  { unfold allocate_block_ref_with_eviction. destruct (acquire p) as [p1 [id|]] eqn:Ea; [done|].
    apply acquire_none in Ea as [-> _]. by eapply evict_loop_pinned. }
  destruct (allocate_block_ref_with_eviction pinned p c) as [[[id|] p1] c1]; simpl in *; [|done].
  destruct Hpost as (_ & _ & _ & _ & _ & Hinv1 & _). apply IH; [|done..].
  eapply alloc_inv_ext; [exact Hinv1|]. apply plus_refs_bump.
Qed.

(** ** Conservation *)

Lemma free_count_total p h (l : list Z) :
  pool_owned p h -> NoDup l -> (forall x, x ∈ l <-> (0 < h x)%nat) ->
  free_count p + Z.of_nat (length l) = num_blocks_ p.
Proof.
  intros Ho Hnd Hl. destruct (Ho) as [Hwf _].
  pose proof (wf_num _ Hwf).
  assert (free_list_ p ++ l ≡ₚ Z.of_nat <$> seq 0 (Z.to_nat (num_blocks_ p))) as Hp.
  { apply NoDup_Permutation.
    - apply NoDup_app. split_and!; [apply (wf_nodup _ Hwf)| |done].
      intros x Hx Hx'. apply (pool_owned_free _ _ _ Ho) in Hx. apply Hl in Hx'. lia.
    - apply NoDup_fmap; [apply _|apply NoDup_seq].
    - intros x. rw elem_of_app Hl (pool_owned_free _ _ _ Ho) list_elem_of_fmap. split.
      + intros Hx. assert (0 <= x < num_blocks_ p).
        { destruct Hx as [[? _]|Hx]; [done|]. by eapply pool_owned_range. }
        exists (Z.to_nat x). rw elem_of_seq. lia.
      + intros (k & -> & Hk%elem_of_seq). lia. }
  apply Permutation_length in Hp. rw length_app length_fmap length_seq in Hp.
  unfold free_count. lia.
Qed.

Lemma tocc_zero m x : tocc m x = 0%nat <-> forall q, Some x ∉ default [] (m !! q).
Proof.
  split.
  - intros Hz q Hin. rw (tocc_split m q) in Hz. unfold plus_refs in Hz.
    apply rocc_pos in Hin. lia.
  - intros Hq. destruct (decide (tocc m x = 0%nat)) as [|Hne]; [done|].
    destruct (msum_pos (rocc x) m) as (k & bl & Hk & Hpos); [unfold tocc in Hne; lia|].
    apply rocc_pos in Hpos. specialize (Hq k). by rw Hk in Hq.
Qed.

Lemma elem_of_table x (bl : list BlockRef) : 0 <= x -> (x ∈ ref_id <$> bl) <-> Some x ∈ bl.
Proof.
  intros Hx. rw list_elem_of_fmap. split.
  - intros ([y|] & -> & Hin); [done|]. simpl in Hx. lia.
  - intros Hin. by exists (Some x).
Qed.

(** ** Example states *)

(** Eight blocks of two tokens, four sliding-window blocks, caching on. *)
Definition demo_new : KVM := kvm_new (kv_cache_new 8 2 4).
Definition demo_on : KVM := set_prefix_caching_enabled true demo_new.
(** Sequence 1 prefilled with five tokens, its full blocks registered. *)
Definition demo_seq : KVM :=
  register_block_hashes 1 [10; 11; 12; 13; 14] 0
    (fst (allocate_blocks_with_prefix 1 [10; 11; 12; 13; 14] (-1) 0 demo_on)).
(** Its first two blocks pinned, then the sequence freed. *)
Definition demo_pinned : KVM := default demo_seq (pin_prefix 1 2 demo_seq).
Definition demo_cached : KVM := free_sequence 1 demo_pinned.

Lemma demo_seq_reachable : kv_reachable 8 2 4 demo_seq.
Proof.
  eapply reach_step; [|apply step_register].
  eapply reach_step; [|eapply (step_prefix _ 1 [10; 11; 12; 13; 14] (-1) 0); apply surjective_pairing].
  eapply reach_step; [|apply step_prefix_enable]. apply reach_new.
Qed.

Lemma demo_pinned_reachable : kv_reachable 8 2 4 demo_pinned.
Proof.
  eapply reach_step; [apply demo_seq_reachable|]. apply (step_pin _ 1 2).
  unfold demo_pinned. destruct (pin_prefix 1 2 demo_seq) eqn:E; [done|]. exfalso. revert E.
  by vm_compute.
Qed.

Lemma demo_cached_reachable : kv_reachable 8 2 4 demo_cached.
Proof. eapply reach_step; [apply demo_pinned_reachable|apply step_free]. Qed.

(** Rolling a pinned sequence back frees blocks that stay pinned; the two loads
    below, of one record each, differ in whether such a block is on top of the
    free list. *)
Definition demo_geometry : CacheGeometry := mkGeometry 2 4 64 1 4096 0 77.
Definition demo_file : option (option CacheFile) :=
  Some (Some (mkFile kPrefixCacheMagic kPrefixCacheVersion 1 demo_geometry [99])).
Definition demo_rolled : KVM := rollback 1 0 demo_pinned.
Definition demo_overcount : KVM :=
  fst (load_prefix_cache demo_file demo_geometry (fun _ => true) demo_rolled).
Definition demo_loaded : KVM :=
  fst (load_prefix_cache demo_file demo_geometry (fun _ => true) demo_on).

Lemma demo_rolled_reachable : kv_reachable 8 2 4 demo_rolled.
Proof. eapply reach_step; [apply demo_pinned_reachable|apply step_rollback]. Qed.

Lemma demo_loaded_reachable : kv_reachable 8 2 4 demo_loaded.
Proof.
  eapply reach_step; [|eapply step_load; [|apply surjective_pairing]].
  - eapply reach_step; [apply reach_new|apply step_prefix_enable].
  - apply Forall_forall. intros b _. apply not_elem_of_empty.
Qed.

(** Why [step_load] has its condition: loading into a free block that is still
    pinned counts it as reclaimable although it can never be reclaimed, so that
    [can_allocate] promises blocks [allocate_blocks] cannot find. *)
Lemma load_prefix_cache_overcounts :
  reclaimable_cached_count_ (pc_ demo_overcount) = 1 /\
  unpinned (pinned demo_overcount) (cached_blocks_lru_ (pc_ demo_overcount)) = [] /\
  can_allocate 8 demo_overcount = true /\ snd (allocate_blocks 9 8 demo_overcount) = false.
Proof. by vm_compute. Qed.

(** ** Claims *)



(** C2: no leak and no double use.  In a reachable state a block is on the free
    list exactly when no table slot and no cache entry names it, and its count is
    the number of those owners; once every sequence is gone, free and cached
    blocks add up to the whole pool. *)
Theorem kv_no_leak m bs sm s :
  0 < bs -> kv_reachable m bs sm s ->
  (forall id, id ∈ free_list_ (pool s) <->
     0 <= id < Z.max 0 m /\ (forall q, id ∉ block_table q s) /\ id ∉ cached_blocks_lru_ (pc_ s)) /\
  (forall id, 0 <= id < Z.max 0 m ->
     ref_count id (pool s) = Z.of_nat (tocc (seq_blocks_ s) id + cocc (pc_ s) id)) /\
  (seq_blocks_ s = ∅ -> num_free_blocks s + num_cached_blocks s = Z.max 0 m).
Proof.
  intros Hbs Hr. destruct (kv_reachable_facts _ _ _ _ Hbs Hr) as [[[Hpc Ho] _ _ _ _ _ _] <-].
  assert (forall id, 0 <= id -> (tocc (seq_blocks_ s) id = 0%nat <-> forall q, id ∉ block_table q s)) as Ht.
  { intros id Hid. rewrite tocc_zero. apply forall_proper. intros q. unfold block_table.
    by rw elem_of_table. }
  assert (forall id, cocc (pc_ s) id = 0%nat <-> id ∉ cached_blocks_lru_ (pc_ s)) as Hc.
  { intros id. rewrite (pc_dom _ _ Hpc). unfold cocc.
    destruct (cached_blocks_map_ (pc_ s) !! id); [|naive_solver]. split; [done|].
    intros Hn. exfalso. apply Hn. by eexists. }
  split_and!.
  - intros id. rewrite (pool_owned_free _ _ id Ho), <- Hc. split.
    + intros [Hid Hz]. rewrite <- Ht by lia. lia.
    + intros (Hid & Hq & Hz). apply Ht in Hq; lia.
  - intros id _. apply Ho.
  - intros E. eapply free_count_total; [exact Ho|apply (pc_nodup _ _ Hpc)|]. intros x.
    specialize (Hc x). rw E. unfold tocc. rw msum_empty.
    destruct (decide (x ∈ cached_blocks_lru_ (pc_ s))) as [Hin|Hin].
    + split; [|done]. intros _. destruct (decide (cocc (pc_ s) x = 0%nat)); [tauto|lia].
    + apply Hc in Hin as Hz. split; [done|]. cbv beta. lia.
Qed.

Lemma kv_no_leak_witness :
  (forall id, id ∈ free_list_ (pool demo_cached) <->
     0 <= id < Z.max 0 8 /\ (forall q, id ∉ block_table q demo_cached) /\
     id ∉ cached_blocks_lru_ (pc_ demo_cached)) /\
  num_free_blocks demo_cached + num_cached_blocks demo_cached = Z.max 0 8.
Proof.
  pose proof (kv_no_leak 8 2 4 demo_cached ltac:(lia) demo_cached_reachable) as (H1 & _ & H2).
  split; [exact H1|]. apply H2. vm_compute. reflexivity.
Defined.

(** C3: allocation is exact.  In a reachable state [allocate_blocks seq n]
    succeeds if and only if [n] blocks are free or reclaimable.  On success the
    table grows by [n] distinct blocks that were in no table before; on failure
    every block table is unchanged and nothing that could be handed out is lost. *)
Theorem allocate_blocks_exact m bs sm s seq n :
  0 < bs -> kv_reachable m bs sm s -> 0 < n ->
  let '(s', ok) := allocate_blocks seq n s in
  ok = (n <=? Z.of_nat (kv_avail s)) /\
  if ok : bool then
    exists ids, length ids = Z.to_nat n /\ NoDup ids /\
      (forall id q, id ∈ ids -> id ∉ block_table q s) /\
      block_table seq s' = block_table seq s ++ ids /\
      (kv_avail s = length ids + kv_avail s')%nat
  else kv_avail s' = kv_avail s /\ forall q, block_table q s' = block_table q s.
Proof.
  intros Hbs Hr Hn. destruct (kv_reachable_facts _ _ _ _ Hbs Hr) as [Hs _].
  destruct (allocate_blocks seq n s) as [s' ok] eqn:E.
  pose proof (allocate_blocks_spec _ _ _ _ _ Hs Hn E) as Hspec. destruct ok.
  - destruct Hspec as (ids & Hl & Hnd & Hfr & Hb & Hav). split; [lia|]. exists ids.
    split_and!; try done.
    + intros id q Hid Hin.
      assert (0 <= id) as Hid0.
      { destruct (allocate_blocks_inv _ _ _ _ _ Hs E) as [[[_ Ho] _ _ _ _ _ _] _].
        assert (0 < tocc (seq_blocks_ s') id)%nat as Hpos.
        { rw Hb tocc_insert. unfold plus_refs. rw rocc_app.
          assert (Some id ∈ Some <$> ids) as Hx by (by apply list_elem_of_fmap_2).
          apply rocc_pos in Hx. lia. }
        destruct (pool_owned_range _ _ id Ho); [lia|done]. }
      apply (elem_of_table _ _ Hid0) in Hin. by eapply tocc_zero in Hin; [|apply Hfr].
    + unfold block_table. rw Hb lookup_insert_eq /= fmap_app -list_fmap_compose. f_equal.
      apply list_fmap_id.
  - destruct Hspec as (? & ? & ?). split_and!; try done. lia.
Qed.

Lemma allocate_blocks_exact_witness :
  let '(s', ok) := allocate_blocks 7 9 demo_cached in
  ok = (9 <=? Z.of_nat (kv_avail demo_cached)) /\ block_table 7 s' = block_table 7 demo_cached.
Proof.
  pose proof (allocate_blocks_exact 8 2 4 demo_cached 7 9 ltac:(lia) demo_cached_reachable
    ltac:(lia)) as H. revert H. destruct (allocate_blocks 7 9 demo_cached) as [s' ok] eqn:E.
  assert (snd (allocate_blocks 7 9 demo_cached) = false) as Hok by (vm_compute; reflexivity).
  rewrite E in Hok. simpl in Hok. subst ok.
  intros [-> [_ H]]. split; [done|]. apply H.
Defined.

(** C4: prefix reuse is exactly the longest live run.  For a sequence without a
    table, [allocate_blocks_with_prefix] either fails, and then
    fewer blocks are free or reclaimable than the prompt needs and the sequence
    is left unknown, or returns the length of the longest run of leading full blocks
    (capped by [max_reuse_blocks]) whose chained hash maps to a referenced block;
    the table starts with those very blocks, covers all tokens, and no other
    table changes. *)
Theorem allocate_with_prefix_exact m bs sm s seq tokens max_reuse salt :
  0 < bs -> kv_reachable m bs sm s -> prefix_caching_enabled_ (pc_ s) = true -> tokens ≠ [] ->
  default [] (seq_blocks_ s !! seq) = [] ->
  let '(s', r) := allocate_blocks_with_prefix seq tokens max_reuse salt s in
  let n := Z.of_nat (length tokens) in
  let run := live_run (bsz s) tokens (Z.to_nat (reuse_cap n (bsz s) max_reuse)) 0 salt (pool s)
               (block_hash_to_id_ (pc_ s)) in
  (r = -1 /\ seq_blocks_ s' = delete seq (seq_blocks_ s) /\
   Z.of_nat (kv_avail s) < ceil_blocks n (bsz s)) \/
  (r = Z.of_nat (length run) /\
   exists fresh, block_table seq s' = run ++ fresh /\
     Z.of_nat (length (block_table seq s')) = ceil_blocks n (bsz s) /\
     forall q, q ≠ seq -> block_table q s' = block_table q s).
Proof.
  intros Hbs Hr Hen Htok Hbl. destruct (kv_reachable_facts _ _ _ _ Hbs Hr) as [Hs _].
  destruct (allocate_blocks_with_prefix _ _ _ _ _) as [s' r] eqn:E.
  by eapply allocate_prefix_spec.
Qed.

Lemma allocate_with_prefix_exact_witness :
  let '(s', r) := allocate_blocks_with_prefix 5 [10; 11; 12; 13; 20; 21] (-1) 0 demo_cached in
  r = 2 /\ take 2 (block_table 5 s') = take 2 (block_table 1 demo_seq).
Proof.
  pose proof (allocate_with_prefix_exact 8 2 4 demo_cached 5 [10; 11; 12; 13; 20; 21] (-1) 0
    ltac:(lia) demo_cached_reachable eq_refl ltac:(done) ltac:(vm_compute; reflexivity)) as H.
  destruct (allocate_blocks_with_prefix 5 _ (-1) 0 demo_cached) as [s' r] eqn:E.
  destruct H as [[Hr _]|(Hr & fresh & Hf & _)].
  - exfalso. assert (0 <= snd (allocate_blocks_with_prefix 5 [10; 11; 12; 13; 20; 21] (-1) 0
      demo_cached)) as Hok by (vm_compute; discriminate). rewrite E in Hok. simpl in Hok. lia.
  - rewrite Hf, Hr. split; vm_compute; reflexivity.
Defined.

(** The admission estimate never under-counts: [longest_cached_prefix_blocks]
    is at least the number of blocks [allocate_blocks_with_prefix] then reuses,
    for every cap. *)
Theorem longest_cached_prefix_bounds tokens salt max_reuse s :
  0 < bsz s ->
  Z.of_nat (length (live_run (bsz s) tokens
    (Z.to_nat (reuse_cap (Z.of_nat (length tokens)) (bsz s) max_reuse)) 0 salt (pool s)
    (block_hash_to_id_ (pc_ s)))) <= fst (longest_cached_prefix_blocks tokens salt s).
Proof.
  intros Hbs. unfold longest_cached_prefix_blocks.
  etrans; [|apply (lcp_loop_run _ (Z.to_nat (reuse_cap (Z.of_nat (length tokens)) (bsz s) max_reuse))
    0 _ _ _ _ _ (pool s))]; [lia|]. unfold reuse_cap. case_zbool; lia.
Qed.

Lemma longest_cached_prefix_bounds_witness :
  fst (longest_cached_prefix_blocks [10; 11; 12; 13; 20; 21] 0 demo_cached) = 2 /\
  Z.of_nat (length (live_run (bsz demo_cached) [10; 11; 12; 13; 20; 21]
    (Z.to_nat (reuse_cap 6 (bsz demo_cached) (-1))) 0 0 (pool demo_cached)
    (block_hash_to_id_ (pc_ demo_cached)))) <= 2.
Proof.
  split; [vm_compute; reflexivity|].
  apply (longest_cached_prefix_bounds [10; 11; 12; 13; 20; 21] 0 (-1) demo_cached). done.
Defined.

(** Pinned blocks survive allocation pressure: a pinned block in the prefix
    cache is still there after [allocate_blocks], whether it succeeds or fails. *)
Theorem allocate_blocks_keeps_pinned m bs sm s seq n b :
  0 < bs -> kv_reachable m bs sm s -> b ∈ pinned s -> b ∈ cached_blocks_lru_ (pc_ s) ->
  b ∈ cached_blocks_lru_ (pc_ (fst (allocate_blocks seq n s))).
Proof.
  intros Hbs Hr Hp Hc. destruct (kv_reachable_facts _ _ _ _ Hbs Hr) as [Hs _].
  pose proof (alloc_inv_open _ _ seq _ _ (ki_alloc _ Hs)) as Ho.
  pose proof (alloc_loop_pinned (Z.to_nat n) _ _ _ _ _ b Ho Hp Hc) as Hin.
  unfold allocate_blocks. case_match; [done|].
  destruct (alloc_loop _ _ _ _ _) as [[[[] p] c] bl'] eqn:E; simpl in *; [|done].
  unfold lru_track. by case_match.
Qed.

Lemma allocate_blocks_keeps_pinned_witness :
  0 ∈ pinned demo_cached /\
  0 ∈ cached_blocks_lru_ (pc_ (fst (allocate_blocks 3 7 demo_cached))).
Proof.
  assert (0 ∈ pinned demo_cached) as Hp by (apply (bool_decide_unpack _); vm_compute; exact I).
  split; [exact Hp|].
  apply (allocate_blocks_keeps_pinned 8 2 4 demo_cached 3 7 0 ltac:(lia) demo_cached_reachable Hp).
  apply (bool_decide_unpack _); vm_compute; exact I.
Defined.
