(* ===== verification/KVSequences.v ===== *)
(** * Theorems about sequences, pins and windows of the KV cache manager

    What the operations on one sequence do to its block table: freeing,
    speculative rollback, StreamingLLM middle eviction, pinning under a budget,
    and the sliding-window tables. *)

From Corelib Require Import ssreflect_rw.
From stdpp Require Import prelude gmap fin_maps list strings.
From S2P Require Import Prelude Backend BlockPool KVManager KVOwnership KVPins KVInvariant KVTheorems.
Open Scope Z_scope.
Open Scope quench_scope.

(** ** Pins *)

Lemma pinned_size cnt q : pins_core cnt q -> size (pinned_blocks_ q) = size (pin_refcount_ q).
Proof.
  intros [_ _ Hs]. rw -(size_dom (D := gset Z)). f_equal. apply set_eq. intros b.
  by rw Hs elem_of_dom.
Qed.

Lemma owner_pinned q seq b :
  pins_inv q -> b ∈ default [] (pinned_seq_blocks_ q !! seq) -> b ∈ pinned_blocks_ q.
Proof.
  intros [Hq _ _] Hb. apply (pins_core_pinned _ _ _ Hq).
  destruct (pinned_seq_blocks_ q !! seq) as [o|] eqn:E; simpl in Hb; [|by apply elem_of_nil in Hb].
  apply occ_pos in Hb. unfold pin_count. rw (msum_lookup _ _ _ _ E). lia.
Qed.

(** [pin_prefix] always returns; the live blocks of the requested prefix, as
    far as the budget allows, are pinned afterwards, and under a positive budget
    the number of pinned blocks never exceeds it. *)
Theorem pin_prefix_budget m bs sm s seq n bl :
  0 < bs -> kv_reachable m bs sm s -> seq_blocks_ s !! seq = Some bl -> bl ≠ [] -> 0 < n ->
  exists s', pin_prefix seq n s = Some s' /\
    seq_blocks_ s' = seq_blocks_ s /\ pool s' = pool s /\
    (forall b, Some b ∈ take (Z.to_nat (pin_len n (pin_budget_blocks_ (pins_ s)) bl)) bl ->
               b ∈ pinned s') /\
    (0 < pin_budget_blocks_ (pins_ s) -> num_pinned_blocks s' <= pin_budget_blocks_ (pins_ s)).
Proof.
  intros Hbs Hr Hbl Hne Hn. destruct (kv_reachable_facts _ _ _ _ Hbs Hr) as [Hs _].
  destruct (pin_prefix_spec seq n s (ki_pins _ Hs) (kv_inv_pc _ Hs))
    as (q & c & E & Hq & _ & _ & Hbud & Hpin). exists (set_pc c (set_pins q s)).
  destruct (Hpin bl Hbl Hn Hne) as [Hsz Hown]. rw Hbud in Hsz, Hown. split_and!; try done.
  - intros b Hb. apply (owner_pinned _ seq _ Hq). rw Hown. apply list_elem_of_omap.
    by exists (Some b).
  - intros Hpos. unfold num_pinned_blocks, pinned. simpl. rw (pinned_size _ _ (pi_core _ Hq)). auto.
Qed.

(** Three blocks in the table, a budget of two. *)
Definition demo_budget : KVM := set_pin_budget_blocks 2 demo_seq.

Lemma demo_budget_reachable : kv_reachable 8 2 4 demo_budget.
Proof. eapply reach_step; [apply demo_seq_reachable|apply step_pin_budget]. Qed.

Lemma pin_prefix_budget_witness :
  exists s', pin_prefix 1 3 demo_budget = Some s' /\ num_pinned_blocks s' <= 2 /\ 0 ∈ pinned s'.
Proof.
  destruct (pin_prefix_budget 8 2 4 demo_budget 1 3 [Some 0; Some 1; Some 2] ltac:(lia)
    demo_budget_reachable ltac:(vm_compute; reflexivity) ltac:(done) ltac:(lia))
    as (s' & E & _ & _ & Hp & Hb).
  exists s'. split; [exact E|]. split; [apply Hb; done|]. apply Hp. vm_compute. constructor.
Defined.

(** ** StreamingLLM middle eviction *)

(** The slots [evict_middle_blocks] empties: [sink_end, window_start). *)
Definition sink_end (n_sink : Z) (s : KVM) : Z := ceil_blocks n_sink (bsz s).
Definition window_start (n_window : Z) (bl : list BlockRef) (s : KVM) : Z :=
  Z.max 0 (Z.of_nat (length bl) - ceil_blocks n_window (bsz s) - 1).

Lemma evict_middle_spec seq ns nw s bl :
  kv_inv s -> seq_blocks_ s !! seq = Some bl -> 0 < ns -> 0 < nw ->
  sink_end ns s < window_start nw bl s ->
  exists s' freed bl', evict_middle_blocks seq ns nw s = Some (s', freed) /\
    seq_blocks_ s' = <[seq := bl']> (seq_blocks_ s) /\ length bl' = length bl /\
    (forall j, (j < Z.to_nat (sink_end ns s) \/ Z.to_nat (window_start nw bl s) <= j)%nat ->
       bl' !! j = bl !! j) /\
    (forall j, (Z.to_nat (sink_end ns s) <= j < Z.to_nat (window_start nw bl s))%nat ->
       bl' !! j = Some None) /\
    freed = Z.of_nat (length (omap id (take (Z.to_nat (window_start nw bl s - sink_end ns s))
                                         (drop (Z.to_nat (sink_end ns s)) bl)))).
Proof.
  intros Hs Hbl Hns Hnw Hlt. unfold evict_middle_blocks. rw Hbl.
  rewrite (proj2 (orb_false_iff _ _)) by lia.
  assert (0 <= sink_end ns s) as H0 by (apply ceil_blocks_nonneg; [lia|apply (ki_bs _ Hs)]).
  assert (0 <= ceil_blocks nw (bsz s)) as H1 by (apply ceil_blocks_nonneg; [lia|apply (ki_bs _ Hs)]).
  rewrite (proj2 (Z.eqb_neq _ 0)) by (unfold window_start in Hlt; lia).
  change (Z.max 0 _) with (window_start nw bl s). change (ceil_blocks ns (bsz s)) with (sink_end ns s).
  rewrite (proj2 (Z.leb_gt _ _)) by done.
  assert (exists q c, (if (match pinned_seq_blocks_ (pins_ s) !! seq with
      | Some o => Z.of_nat (length o) | None => 0 end) <? sink_end ns s
      then pin_prefix seq (sink_end ns s) s else Some s) = Some (set_pc c (set_pins q s)) /\
      kv_inv (set_pc c (set_pins q s))) as (q & c & -> & Hs1).
  { case_match; [by apply pin_prefix_inv|]. exists (pins_ s), (pc_ s). by destruct s. }
  pose proof (alloc_inv_open _ _ seq _ _ (ki_alloc _ Hs1)) as Ho. rw /= Hbl /= in Ho.
  destruct (evict_slots _ _ _ _ _ _) as [[[bl' p'] c'] f'] eqn:E.
  destruct (evict_slots_spec _ _ _ _ _ _ _ _ _ _ _ _ Ho E) as (_ & _ & Hl & Hout & Hin & ->).
  assert (Z.to_nat (sink_end ns s) + Z.to_nat (window_start nw bl s - sink_end ns s) =
          Z.to_nat (window_start nw bl s))%nat as Hsum by lia. rw Hsum in Hout, Hin.
  simpl. destruct (seq_block_hashes_ s !! seq) as [hs|];
    [destruct (clear_hashes _ _ _ _ _) as [hs' c2]|];
    eexists _, _, bl'; (split; [done|]); split_and!; try done;
    intros j Hj; apply Hin; try done; unfold window_start in Hj; lia.
Qed.

(** Middle eviction keeps the attention sinks and the recent window: it
    always returns, the table keeps its length, the slots before [sink_end] and
    from [window_start] on keep their blocks, the slots between become holes,
    the result counts the blocks dropped, and no other table changes. *)
Theorem evict_middle_keeps_window m bs sm s seq n_sink n_window bl :
  0 < bs -> kv_reachable m bs sm s -> seq_blocks_ s !! seq = Some bl -> 0 < n_sink -> 0 < n_window ->
  sink_end n_sink s < window_start n_window bl s ->
  exists s' freed, evict_middle_blocks seq n_sink n_window s = Some (s', freed) /\
    length (block_table seq s') = length (block_table seq s) /\
    (forall j, Z.of_nat j < sink_end n_sink s \/ window_start n_window bl s <= Z.of_nat j ->
       block_table seq s' !! j = block_table seq s !! j) /\
    (forall j, sink_end n_sink s <= Z.of_nat j < window_start n_window bl s ->
       block_table seq s' !! j = Some (-1)) /\
    freed = Z.of_nat (length (omap id (take (Z.to_nat (window_start n_window bl s - sink_end n_sink s))
                                         (drop (Z.to_nat (sink_end n_sink s)) bl)))) /\
    (forall q, q ≠ seq -> block_table q s' = block_table q s).
Proof.
  intros Hbs Hr Hbl Hns Hnw Hlt. destruct (kv_reachable_facts _ _ _ _ Hbs Hr) as [Hs _].
  assert (0 <= sink_end n_sink s) as H0 by (apply ceil_blocks_nonneg; [lia|apply (ki_bs _ Hs)]).
  destruct (evict_middle_spec _ _ _ _ _ Hs Hbl Hns Hnw Hlt)
    as (s' & freed & bl' & E & Em & Hl & Hout & Hin & Hf). exists s', freed.
  unfold block_table. rw Em Hbl lookup_insert_eq /= !length_fmap. split_and!; try done.
  - intros j Hj. rw !list_lookup_fmap Hout //. lia.
  - intros j Hj. rw list_lookup_fmap Hin //. lia.
  - intros q Hq. by rewrite lookup_insert_ne by congruence.
Qed.

(** Seven blocks; one sink block, one window block. *)
Definition demo_long : KVM := fst (allocate_blocks 1 7 demo_new).

Lemma demo_long_reachable : kv_reachable 8 2 4 demo_long.
Proof.
  eapply reach_step; [apply reach_new|]. eapply (step_allocate _ 1 7). apply surjective_pairing.
Qed.

Lemma evict_middle_keeps_window_witness :
  exists s' freed, evict_middle_blocks 1 2 2 demo_long = Some (s', freed) /\ freed = 4 /\
    block_table 1 s' !! 0%nat = Some 0 /\ block_table 1 s' !! 1%nat = Some (-1).
Proof.
  destruct (evict_middle_keeps_window 8 2 4 demo_long 1 2 2 (map Some [0; 1; 2; 3; 4; 5; 6])
    ltac:(lia) demo_long_reachable ltac:(vm_compute; reflexivity) ltac:(lia) ltac:(lia)
    ltac:(vm_compute; reflexivity)) as (s' & freed & E & _ & Hout & Hin & Hf & _).
  exists s', freed. split; [exact E|]. split; [rewrite Hf; vm_compute; reflexivity|]. split.
  - rewrite Hout by (left; vm_compute; reflexivity). vm_compute. reflexivity.
  - apply Hin. split; [vm_compute; discriminate|vm_compute; reflexivity].
Defined.

(** ** Rollback *)

Lemma rollback_tables seq n s bl :
  kv_inv s -> seq_blocks_ s !! seq = Some bl -> 0 <= n ->
  let k := Z.to_nat (ceil_blocks n (bsz s)) in
  (forall q, block_table q (rollback seq n s) =
     if decide (q = seq) then take k (block_table q s) else block_table q s) /\
  (bl ≠ [] -> swa_block_table seq (rollback seq n s) = take k (swa_block_table seq s)).
Proof.
  intros Hs Hbl Hn k. unfold rollback. rw Hbl. rewrite (proj2 (Z.ltb_ge n 0)) by done.
  destruct (decide (bl = [])) as [->|Hne].
  { split; [|done]. intros q. case_decide; [subst|done]. unfold block_table. rw Hbl /=.
    by rw take_nil. }
  rewrite bool_decide_eq_false_2 by done. cbn [orb]. fold k. pose proof (alloc_inv_open _ _ seq _ _ (ki_alloc _ Hs)) as Ho. rw Hbl /= in Ho.
  destruct (rollback_loop _ _ _ _ _) as [[bl' p'] c'] eqn:E.
  apply (rollback_loop_spec _ _ _ _ _ _ _ _ _ _ Ho) in E as (-> & _ & _); [|lia].
  set (s1 := set_seqs _ _).
  set (s2 := match seq_block_hashes_ s1 !! seq with Some _ => _ | None => _ end).
  assert (seq_blocks_ s2 = <[seq := take k bl]> (seq_blocks_ s) /\ swa_ s2 = swa_ s /\
          cache_ s2 = cache_ s1) as (E1 & E2 & E3).
  { unfold s2. by case_match. }
  assert (forall q, (ref_id <$> default [] (<[seq:=take k bl]> (seq_blocks_ s) !! q)) =
    if decide (q = seq) then take k (block_table q s) else block_table q s) as Hq.
  { intros q. unfold block_table. case_decide; subst.
    - rw lookup_insert_eq Hbl /=. by rw fmap_take.
    - by rewrite lookup_insert_ne by congruence. }
  rw E2. destruct (seq_swa_blocks_ (swa_ s) !! seq) as [t|] eqn:Et.
  - destruct (rollback_swa_loop _ _ _ _) as [t' wp] eqn:Ew. split.
    + intros q. rw -Hq. unfold block_table. simpl. by rw E1.
    + intros _. unfold swa_block_table. rw /= lookup_insert_eq Et /=.
      pose proof (swa_inv_open _ _ seq (ki_swa _ Hs)) as Hw. rw Et /= in Hw.
      rw E3 /= in Ew. by apply (rollback_swa_loop_spec _ _ _ _ _ _ _ Hw) in Ew as [-> _]; [|lia].
  - split.
    + intros q. rw -Hq. unfold block_table. by rw E1.
    + intros _. unfold swa_block_table. rw E2 Et /=. by rw take_nil.
Qed.

(** Rolling a sequence back to [n] tokens keeps exactly the blocks that
    cover them, in its block table and in its sliding-window table, and leaves
    every other sequence's table alone. *)
Theorem rollback_keeps_prefix m bs sm s seq n bl :
  0 < bs -> kv_reachable m bs sm s -> seq_blocks_ s !! seq = Some bl -> 0 <= n ->
  let k := Z.to_nat (ceil_blocks n (bsz s)) in
  block_table seq (rollback seq n s) = take k (block_table seq s) /\
  (bl ≠ [] -> swa_block_table seq (rollback seq n s) = take k (swa_block_table seq s)) /\
  (forall q, q ≠ seq -> block_table q (rollback seq n s) = block_table q s).
Proof.
  intros Hbs Hr Hbl Hn k. destruct (kv_reachable_facts _ _ _ _ Hbs Hr) as [Hs _].
  destruct (rollback_tables seq n s bl Hs Hbl Hn) as [Hq Hw]. split_and!; [|done|].
  - rw Hq decide_True //.
  - intros q Hne. rw Hq decide_False //.
Qed.

Lemma rollback_keeps_prefix_witness :
  block_table 1 (rollback 1 3 demo_long) = [0; 1] /\
  num_free_blocks (rollback 1 3 demo_long) = 6.
Proof.
  destruct (rollback_keeps_prefix 8 2 4 demo_long 1 3 (map Some [0; 1; 2; 3; 4; 5; 6])
    ltac:(lia) demo_long_reachable ltac:(vm_compute; reflexivity) ltac:(lia)) as [H _].
  split; [rewrite H; vm_compute; reflexivity|vm_compute; reflexivity].
Defined.

(** ** Freeing *)

(** The blocks a freed sequence leaves in the prefix cache: the pinned ones, and
    the registered ones it was the last to reference. *)
Definition kept_on_free (P : gset Z) (p : BlockPool) (c : PrefixCache) (b : Z) : Prop :=
  b ∈ P \/ (prefix_caching_enabled_ c = true /\ ref_count b p = 1 /\
            is_Some (block_id_to_hash_ c !! b)).

Lemma free_seq_slot_map P p r c r' c' x :
  free_seq_slot P p r c = (r', c') ->
  block_id_to_hash_ c' = block_id_to_hash_ c /\
  prefix_caching_enabled_ c' = prefix_caching_enabled_ c /\
  (is_Some (cached_blocks_map_ c' !! x) <->
   is_Some (cached_blocks_map_ c !! x) \/ (r = Some x /\ kept_on_free P p c x)).
Proof.
  assert (forall b (m : gmap Z BlockRef), is_Some (<[b := Some b]> m !! x) <->
    is_Some (m !! x) \/ x = b) as Hins.
  { intros b m. destruct (decide (x = b)) as [->|]; [rw lookup_insert_eq; naive_solver|].
    rewrite lookup_insert_ne by congruence. naive_solver. }
  unfold free_seq_slot, kept_on_free. destruct r as [b|]; [|intros [= <- <-]; naive_solver].
  destruct (decide (b ∈ P)); [rewrite bool_decide_eq_true_2 by done|rewrite bool_decide_eq_false_2 by done].
  - destruct (cached_blocks_map_ c !! b) eqn:Eb; intros [= <- <-]; simpl.
    + split_and!; try done. split; [by left|]. intros [?|[[= ->] _]]; [done|]. by eexists.
    + rw Hins. split_and!; try done. naive_solver.
  - destruct (prefix_caching_enabled_ c) eqn:En; simpl; [|intros [= <- <-]; naive_solver].
    destruct (Z.eqb_spec (ref_count b p) 1); [|intros [= <- <-]; split_and!; try done; naive_solver].
    destruct (block_id_to_hash_ c !! b) eqn:Eh; [|intros [= <- <-]].
    2:{ split_and!; try done. split; [by left|]. intros [?|([= ->] & [?|(_ & _ & Hh)])]; try done.
        rw Eh in Hh. by destruct Hh. }
    destruct (cached_blocks_map_ c !! b) eqn:Eb; intros [= <- <-]; simpl.
    + split_and!; try done. split; [by left|]. intros [?|[[= ->] _]]; [done|]. by eexists.
    + rw Hins. split_and!; try done. split; [|naive_solver]. intros [?| ->]; [by left|].
      right. split; [done|]. right. split_and!; done || by eexists.
Qed.

Lemma free_seq_scan_map P p bl c bl' c' x :
  free_seq_scan P p bl c = (bl', c') ->
  (is_Some (cached_blocks_map_ c' !! x) <->
   is_Some (cached_blocks_map_ c !! x) \/ (Some x ∈ bl /\ kept_on_free P p c x)).
Proof.
  revert c bl' c'. induction bl as [|r bl IH]; intros c bl' c'; simpl.
  { intros [= <- <-]. rw elem_of_nil. naive_solver. }
  destruct (free_seq_slot P p r c) as [r1 c1] eqn:E1.
  destruct (free_seq_scan P p bl c1) as [bl2 c2] eqn:E2. intros [= <- <-].
  destruct (free_seq_slot_map _ _ _ _ _ _ x E1) as (Eh & Ep & Hx).
  rw (IH _ _ _ E2) Hx elem_of_cons. unfold kept_on_free. rw Eh Ep. naive_solver.
Qed.

(** The prefix cache [free_sequence] leaves is the scan's. *)
Lemma free_sequence_pc seq s bl bl' c :
  seq_blocks_ s !! seq = Some bl -> free_seq_scan (pinned s) (pool s) bl (pc_ s) = (bl', c) ->
  pc_ (free_sequence seq s) = c.
Proof.
  intros Hbl E. unfold free_sequence. rw Hbl E. set (s1 := set_hashes _ _).
  pose proof (lru_untrack_side seq (release_residual_slot seq (free_swa_seq seq s1))) as Hside.
  rw release_residual_side free_swa_seq_side in Hside. by injection Hside.
Qed.

(** What freeing a sequence does with its blocks.  Its table disappears and
    no other table changes; a block of the table stays cached if it was already,
    if it is pinned, or if it is registered and this was its last reference; a
    block that is none of these and in no other table is back on the free list. *)
Theorem free_sequence_disposition m bs sm s seq bl b :
  0 < bs -> kv_reachable m bs sm s -> seq_blocks_ s !! seq = Some bl -> Some b ∈ bl ->
  let s' := free_sequence seq s in
  block_table seq s' = [] /\
  (forall q, q ≠ seq -> block_table q s' = block_table q s) /\
  (b ∈ cached_blocks_lru_ (pc_ s') <->
   b ∈ cached_blocks_lru_ (pc_ s) \/ kept_on_free (pinned s) (pool s) (pc_ s) b) /\
  (b ∉ cached_blocks_lru_ (pc_ s') -> (forall q, q ≠ seq -> b ∉ block_table q s) ->
   b ∈ free_list_ (pool s')).
Proof.
  intros Hbs Hr Hbl Hb s'. destruct (kv_reachable_facts _ _ _ _ Hbs Hr) as [Hs _].
  destruct (free_sequence_inv seq s Hs) as (Hs' & Hn & Hm). fold s' in Hs', Hn, Hm.
  destruct (free_seq_scan (pinned s) (pool s) bl (pc_ s)) as [bl' c] eqn:E.
  pose proof (free_sequence_pc _ _ _ _ _ Hbl E) as Hc. fold s' in Hc.
  assert (forall q, q ≠ seq -> block_table q s' = block_table q s) as Hq.
  { intros q Hq. unfold block_table. rw Hm. by rewrite lookup_delete_ne by congruence. }
  assert (block_table seq s' = []) as Hnil.
  { unfold block_table. rw Hm. by rewrite lookup_delete_eq. }
  destruct (Hs') as [[Hpc' Ho'] _ _ _ _ _ _]. destruct (Hs) as [[Hpc Ho] _ _ _ _ _ _].
  split_and!; try done.
  - rewrite (pc_dom _ _ Hpc'), (pc_dom _ _ Hpc), Hc, (free_seq_scan_map _ _ _ _ _ _ b E). naive_solver.
  - intros Hnc Hother.
    assert (0 <= b < num_blocks_ (pool s)) as Hrange.
    { apply (pool_owned_range _ _ b Ho). rewrite (tocc_split _ seq), Hbl. unfold plus_refs. simpl.
      apply rocc_pos in Hb. lia. }
    apply (pool_owned_free _ _ b Ho'). rw Hn. split; [done|].
    assert (cocc (pc_ s') b = 0%nat) as ->.
    { unfold cocc. destruct (cached_blocks_map_ (pc_ s') !! b) eqn:Eb; [|done]. exfalso.
      apply Hnc, (pc_dom _ _ Hpc'). by eexists. }
    rw Nat.add_0_r. apply tocc_zero. intros q Hin. apply elem_of_table in Hin; [|lia].
    destruct (decide (q = seq)) as [->|Hne].
    + change (b ∈ block_table seq s') in Hin. rw Hnil in Hin. by apply elem_of_nil in Hin.
    + change (b ∈ block_table q s') in Hin. rw Hq // in Hin. by eapply Hother.
Qed.

Lemma free_sequence_disposition_witness :
  2 ∈ free_list_ (pool (free_sequence 1 demo_seq)) /\
  0 ∈ cached_blocks_lru_ (pc_ (free_sequence 1 demo_seq)).
Proof.
  assert (Some 2 ∈ [Some 0; Some 1; Some 2]) as H2 by (do 2 right; left).
  assert (Some 0 ∈ [Some 0; Some 1; Some 2]) as H0 by left.
  assert (seq_blocks_ demo_seq !! 1 = Some [Some 0; Some 1; Some 2]) as Hbl
    by (vm_compute; reflexivity).
  destruct (free_sequence_disposition 8 2 4 demo_seq 1 _ 2 ltac:(lia) demo_seq_reachable Hbl H2)
    as (_ & _ & _ & Hfree).
  destruct (free_sequence_disposition 8 2 4 demo_seq 1 _ 0 ltac:(lia) demo_seq_reachable Hbl H0)
    as (_ & _ & Hcached & _). split.
  - apply Hfree.
    + apply (bool_decide_unpack _); vm_compute; exact I.
    + intros q Hq Hin. unfold block_table in Hin.
      assert (seq_blocks_ demo_seq = {[1 := [Some 0; Some 1; Some 2]]}) as Em
        by (vm_compute; reflexivity).
      rewrite Em in Hin. rewrite lookup_singleton_ne in Hin by congruence.
      by apply elem_of_nil in Hin.
  - apply Hcached. right. right. split; [reflexivity|]. split; [vm_compute; reflexivity|].
    vm_compute. eexists. reflexivity.
Defined.

(** LRU order.  After [touch q] the eviction victim is [q] only when every
    other tracked sequence owns a pinned prefix; the victim never owns one, and
    [-1] means that every tracked sequence does. *)
Theorem evict_lru_after_touch m bs sm s q :
  0 < bs -> kv_reachable m bs sm s ->
  let '(s', v) := evict_lru (touch q s) in
  let owns x := is_Some (pinned_seq_blocks_ (pins_ s) !! x) in
  (v = q -> ~ owns q -> forall x, x ∈ lru_order_ s -> x ≠ q -> owns x) /\
  ((v ∈ lru_order_ (touch q s) /\ ~ owns v /\ seq_blocks_ s' = delete v (seq_blocks_ s)) \/
   (v = -1 /\ s' = touch q s /\ forall x, x ∈ lru_order_ s -> owns x)).
Proof.
  intros Hbs Hr. destruct (kv_reachable_facts _ _ _ _ Hbs Hr) as [Hs _].
  pose proof (touch_inv q s Hs) as Ht.
  assert (exists l, lru_order_ (touch q s) = l ++ [q] /\
            (forall x, x ∈ lru_order_ s -> x ≠ q -> x ∈ l)) as (l & El & Hl).
  { unfold touch. case_bool_decide; simpl; eexists; (split; [done|]).
    - intros x Hx Hne. by apply elem_of_list_erase.
    - done. }
  assert (pins_ (touch q s) = pins_ s) as Ep by (unfold touch; by case_match).
  assert (seq_blocks_ (touch q s) = seq_blocks_ s) as Eb by (unfold touch; by case_match).
  pose proof (li_nodup _ _ _ (ki_lru _ Ht)) as Hnd. rw El in Hnd.
  apply NoDup_app in Hnd as (_ & Hdis & _).
  unfold evict_lru. rw Ep. destruct (list_find _ _) as [[i v]|] eqn:Ef.
  - apply list_find_Some in Ef as (Hi & Hv & Hbefore).
    assert (~ is_Some (pinned_seq_blocks_ (pins_ s) !! v)) as Hnv by (rw Hv; by intros [??]).
    destruct (free_sequence_inv v _ Ht) as (_ & _ & Hm). split.
    + intros -> _ x Hx Hne. pose proof (Hl x Hx Hne) as Hxl.
      apply list_elem_of_lookup in Hxl as [j Hj].
      assert (j < length l)%nat as Hjl by (by eapply lookup_lt_Some).
      assert (i = length l) as ->.
      { rw El in Hi. destruct (decide (i < length l)%nat).
        - rewrite lookup_app_l in Hi by done. exfalso. eapply (Hdis q); [|set_solver].
          by eapply list_elem_of_lookup_2.
        - apply lookup_lt_Some in Hi. rw length_app /= in Hi. lia. }
      destruct (pinned_seq_blocks_ (pins_ s) !! x) eqn:Ex; [by eexists|]. exfalso.
      eapply Hbefore; [|exact Hjl|exact Ex]. rw El. by rewrite lookup_app_l by done.
    + left. split_and!; [by eapply list_elem_of_lookup_2|done|]. by rw Hm Eb.
  - apply list_find_None in Ef. rewrite Forall_forall in Ef.
    assert (forall x, x ∈ lru_order_ s -> is_Some (pinned_seq_blocks_ (pins_ s) !! x)) as Hall.
    { intros x Hx. apply not_eq_None_Some. apply Ef. rw El.
      destruct (decide (x = q)) as [->|]; [set_solver|]. apply elem_of_app. left. auto. }
    split; [auto|]. right. split_and!; try done.
Qed.

Lemma evict_lru_after_touch_witness :
  let '(s', v) := evict_lru (touch 1 (fst (allocate_blocks 2 1 demo_seq))) in
  v = 2 /\ seq_blocks_ s' = delete 2 (seq_blocks_ (fst (allocate_blocks 2 1 demo_seq))).
Proof.
  pose proof (evict_lru_after_touch 8 2 4 (fst (allocate_blocks 2 1 demo_seq)) 1 ltac:(lia)) as H.
  assert (snd (evict_lru (touch 1 (fst (allocate_blocks 2 1 demo_seq)))) = 2) as Hv
    by (vm_compute; reflexivity).
  destruct (evict_lru _) as [s' v]. simpl in Hv. subst v. split; [reflexivity|].
  destruct H as [_ [(_ & _ & H)|(H & _)]]; [|exact H|discriminate H].
  eapply reach_step; [apply demo_seq_reachable|]. eapply (step_allocate _ 2 1).
  apply surjective_pairing.
Defined.

(** ** Sliding-window tables *)

(** [swa_prepare] covers the window.  When it succeeds, every block from the
    first one any query of [from, upto) can attend to up to the last written one
    has a window block, and entries already present keep their block; when it
    fails the window pool is exhausted. *)
Theorem swa_prepare_covers m bs sm s seq from upto bl :
  0 < bs -> kv_reachable m bs sm s -> 0 < swa_window_ (swa_ s) -> 0 < upto ->
  seq_blocks_ s !! seq = Some bl ->
  let '(s', ok) := swa_prepare seq from upto s in
  let first := live_block (Z.min from upto - swa_window_ (swa_ s) - swa_slack_ (swa_ s)) (bsz s) in
  (length bl <= length (swa_block_table seq s'))%nat /\
  (forall j id, swa_block_table seq s !! j = Some id -> 0 <= id ->
     swa_block_table seq s' !! j = Some id) /\
  if ok : bool then
    forall j, first <= Z.of_nat j ->
      Z.of_nat j < Z.min (ceil_blocks upto (bsz s)) (Z.of_nat (length (swa_block_table seq s'))) ->
      exists id, swa_block_table seq s' !! j = Some id /\ 0 <= id
  else free_list_ (swa_blocks_ (cache_ s')) = [].
Proof.
  intros Hbs Hr Hw Hup Hbl. destruct (kv_reachable_facts _ _ _ _ Hbs Hr) as [Hs _].
  unfold swa_prepare. rewrite (proj2 (orb_false_iff _ _)) by lia. rw Hbl.
  set (t := pad_holes _ _). set (first := live_block _ _). set (last := Z.min _ _).
  destruct (swa_fill _ _ _ _) as [[ok t'] p'] eqn:E.
  pose proof (live_block_nonneg (from `min` upto - swa_window_ (swa_ s) - swa_slack_ (swa_ s)) (bsz s)
    (ki_bs _ Hs)) as Hf. fold first in Hf.
  assert (last <= Z.of_nat (length t)) as Hlast by (unfold last; lia).
  assert (pool_owned (swa_blocks_ (cache_ s))
    (fun x => msum (socc x) (delete seq (seq_swa_blocks_ (swa_ s))) + socc x t)%nat) as Ho.
  { eapply pool_owned_ext; [apply (swa_inv_open _ _ seq (ki_swa _ Hs))|].
    intros x. cbv beta. unfold t. by rw socc_pad_holes. }
  apply (swa_fill_spec _ _ _ _ _ _ _ _ Ho) in E as (_ & Hl & _ & Hkeep & Hok); [|lia].
  unfold swa_block_table. simpl. rw lookup_insert_eq /= Hl. split_and!.
  - unfold t. rw length_pad_holes. lia.
  - intros j k Hj Hk. apply Hkeep; [|done]. unfold t, pad_holes.
    rewrite lookup_app_l; [done|]. by eapply lookup_lt_Some.
  - destruct ok; [|done]. intros j Hj1 Hj2. fold last in Hj2.
    destruct (lookup_lt_is_Some_2 t' j) as [id Hid]; [lia|]. exists id. split; [done|].
    specialize (Hok j ltac:(lia)). by rw Hid /= in Hok.
Qed.

(** A window of two tokens. *)
Definition demo_swa : KVM := enable_swa_sizing 2 0 demo_long.

Lemma demo_swa_reachable : kv_reachable 8 2 4 demo_swa.
Proof. eapply reach_step; [apply demo_long_reachable|apply step_swa_sizing]. Qed.

Lemma swa_prepare_covers_witness :
  exists id, swa_block_table 1 (fst (swa_prepare 1 0 8 demo_swa)) !! 3%nat = Some id /\ 0 <= id.
Proof.
  pose proof (swa_prepare_covers 8 2 4 demo_swa 1 0 8 (map Some [0; 1; 2; 3; 4; 5; 6])
    ltac:(lia) demo_swa_reachable ltac:(vm_compute; reflexivity) ltac:(lia)
    ltac:(vm_compute; reflexivity)) as H.
  assert (snd (swa_prepare 1 0 8 demo_swa) = true) as Hok by (vm_compute; reflexivity).
  assert (length (swa_block_table 1 (fst (swa_prepare 1 0 8 demo_swa))) = 7%nat) as Hlen
    by (vm_compute; reflexivity).
  destruct (swa_prepare 1 0 8 demo_swa) as [s' ok]. simpl in *. subst ok.
  destruct H as (_ & _ & H). apply H; [vm_compute; discriminate|rewrite Hlen; vm_compute; reflexivity].
Defined.

(** [swa_trim] never trims the window: every entry that covers a token at or
    after [committed - window - slack] is unchanged, and the table keeps its
    length. *)
Theorem swa_trim_keeps_window m bs sm s seq committed tok :
  0 < bs -> kv_reachable m bs sm s -> 0 <= tok ->
  committed - swa_window_ (swa_ s) - swa_slack_ (swa_ s) <= tok ->
  let s' := swa_trim seq committed s in
  let j := Z.to_nat (Z.quot tok (bsz s)) in
  swa_block_table seq s' !! j = swa_block_table seq s !! j /\
  length (swa_block_table seq s') = length (swa_block_table seq s).
Proof.
  intros Hbs Hr Htok Hlive s'. destruct (kv_reachable_facts _ _ _ _ Hbs Hr) as [Hs _].
  pose proof (ki_bs _ Hs) as Hb. unfold s', swa_trim. case_match; [done|].
  destruct (seq_swa_blocks_ (swa_ s) !! seq) as [t|] eqn:Et; [|done].
  set (dead := committed - _ - _) in *. destruct (Z.leb_spec dead 0); [done|].
  destruct (swa_trim_loop _ _ _ _) as [t' p'] eqn:E.
  pose proof (swa_inv_open _ _ seq (ki_swa _ Hs)) as Ho. rw Et /= in Ho.
  destruct (swa_trim_loop_spec _ _ _ _ _ _ _ Ho E) as (_ & Hl & Hout & _).
  unfold swa_block_table. rw /= lookup_insert_eq Et /=. split; [|done]. apply Hout.
  assert (Z.quot dead (bsz s) <= Z.quot tok (bsz s)) by (apply Z.quot_le_mono; lia).
  assert (0 <= Z.quot dead (bsz s)) by (apply Z.quot_pos; lia).
  assert (0 <= default 0 (swa_trim_cursor_ (swa_ s) !! seq)).
  { destruct (swa_trim_cursor_ (swa_ s) !! seq) as [k|] eqn:Ek; [|done]. by eapply (ki_cursor _ Hs). }
  lia.
Qed.

Lemma swa_trim_keeps_window_witness :
  let s := fst (swa_prepare 1 0 8 demo_swa) in
  swa_block_table 1 (swa_trim 1 8 s) !! 2%nat = swa_block_table 1 s !! 2%nat /\
  swa_block_table 1 (swa_trim 1 8 s) !! 0%nat = Some (-1).
Proof.
  assert (kv_reachable 8 2 4 (fst (swa_prepare 1 0 8 demo_swa))) as Hr.
  { eapply reach_step; [apply demo_swa_reachable|]. eapply step_swa_prepare, surjective_pairing. }
  split; [|vm_compute; reflexivity].
  exact (proj1 (swa_trim_keeps_window 8 2 4 (fst (swa_prepare 1 0 8 demo_swa)) 1 8 4 ltac:(lia) Hr
    ltac:(lia) ltac:(vm_compute; discriminate))).
Defined.

(** ** The admission check *)

Lemma avail_reclaimable s :
  kv_inv s ->
  (forall b, b ∈ cached_blocks_lru_ (pc_ s) -> b ∉ pinned s -> tocc (seq_blocks_ s) b = 0%nat) ->
  Z.of_nat (kv_avail s) = num_free_blocks s + reclaimable_cached_count_ (pc_ s).
Proof.
  intros [[Hpc _] _ _ _ _ _ _] Hnone. unfold kv_avail, avail, num_free_blocks, free_count.
  rw (pc_reclaim _ _ Hpc). unfold reclaimables, unpinned.
  enough (filter (fun b => b ∉ pinned s /\ tocc (seq_blocks_ s) b = 0%nat) (cached_blocks_lru_ (pc_ s)) =
          filter (fun b => b ∉ pinned s) (cached_blocks_lru_ (pc_ s))) as -> by lia.
  revert Hnone. generalize (cached_blocks_lru_ (pc_ s)) as l. induction l as [|b l IH]; [done|].
  intros Hnone. rw !filter_cons. rewrite IH by (intros; apply Hnone; [by right|done]).
  specialize (Hnone b ltac:(left)).
  destruct (decide (b ∉ pinned s)), (decide (b ∉ pinned s /\ tocc (seq_blocks_ s) b = 0%nat)); tauto || done.
Qed.

(** The fast path of [can_allocate] is sound and complete.  When no unpinned
    cached block is also referenced by a sequence table, free blocks plus the
    reclaimable counter are enough for [n] blocks exactly when [allocate_blocks]
    of [n] blocks succeeds. *)
Theorem can_allocate_fast_path m bs sm s seq n :
  0 < bs -> kv_reachable m bs sm s -> 0 < n ->
  (forall b, b ∈ cached_blocks_lru_ (pc_ s) -> b ∉ pinned s -> tocc (seq_blocks_ s) b = 0%nat) ->
  snd (allocate_blocks seq n s) =
    (n <=? num_free_blocks s + reclaimable_cached_count_ (pc_ s)).
Proof.
  intros Hbs Hr Hn Hnone. destruct (kv_reachable_facts _ _ _ _ Hbs Hr) as [Hs _].
  rw -avail_reclaimable //. destruct (allocate_blocks seq n s) as [s' ok] eqn:E.
  pose proof (allocate_blocks_spec _ _ _ _ _ Hs Hn E) as Hspec. destruct ok; simpl.
  - destruct Hspec as (ids & Hl & _ & _ & _ & Hav). lia.
  - destruct Hspec as (? & _). lia.
Qed.

Lemma can_allocate_fast_path_witness :
  snd (allocate_blocks 2 6 demo_cached) =
    (6 <=? num_free_blocks demo_cached + reclaimable_cached_count_ (pc_ demo_cached)).
Proof.
  apply (can_allocate_fast_path 8 2 4 demo_cached 2 6 ltac:(lia) demo_cached_reachable ltac:(lia)).
  intros b Hb Hnp. exfalso. assert (cached_blocks_lru_ (pc_ demo_cached) = [0; 1]) as El
    by (vm_compute; reflexivity). rewrite El in Hb.
  assert (pinned demo_cached = {[0; 1]}) as Ep by (vm_compute; reflexivity).
  rewrite Ep in Hnp. clear El Ep. set_solver.
Defined.

(** Sequences 1 and 2 share block 0, which 1 pins; 1 is freed (the pinned block
    moves to the cache although 2 still references it), then unpinned. *)
Definition demo_shared : KVM :=
  unpin_prefix 1 (free_sequence 1 (fst (allocate_blocks_with_prefix 2 [10; 11; 12; 13] (-1) 0
    demo_pinned))).

Lemma demo_shared_reachable : kv_reachable 8 2 4 demo_shared.
Proof.
  eapply reach_step; [|apply step_unpin]. eapply reach_step; [|apply step_free].
  eapply reach_step; [apply demo_pinned_reachable|].
  eapply (step_prefix _ 2 [10; 11; 12; 13] (-1) 0), surjective_pairing.
Qed.

(** The hypothesis of [can_allocate_fast_path] matters.  In this reachable state
    the counter still includes two blocks that sequence 2 references, so
    [can_allocate] admits eight blocks and [allocate_blocks] then fails. *)
Theorem can_allocate_overcounts_shared :
  kv_reachable 8 2 4 demo_shared /\ can_allocate 8 demo_shared = true /\
  snd (allocate_blocks 3 8 demo_shared) = false /\
  num_free_blocks demo_shared + reclaimable_cached_count_ (pc_ demo_shared) = 8.
Proof. split_and!; [apply demo_shared_reachable|vm_compute; reflexivity..]. Qed.
