(* ===== verification/Arena.v ===== *)
(** * Bump arenas and the scratch stack (tiers T1, T2 and T4)

    Models [src/memory/arena.cpp] and [src/memory/scratch_stack.cpp].  A span is
    its address and length.  Mutexes only serialise the operations and are left
    out; the release build's behaviour is modelled where debug builds abort. *)

From Corelib Require Import ssreflect_rw.
From stdpp Require Import prelude gmap fin_maps list strings.
From S2P Require Import Prelude Backend.
Open Scope Z_scope.
Open Scope quench_scope.

Record Span := mkSpan { span_addr : Z; span_bytes : Z }.

(** ** The bump computation both allocators share *)

(** Checks and offset arithmetic of [take_bytes]; [None] is the empty span. *)
Inductive Bump := BumpInvalid | BumpExhausted | BumpOk (start : Z).

Definition bump_take (r : Region) (offset bytes alignment : Z) : Bump :=
  if (bytes =? 0) || (alignment =? 0) || not_pow2 alignment then BumpInvalid
  else if negb (region_valid r) then BumpInvalid
  else
    let start := align_up offset alignment in
    if (rcommitted r <? start) || (rcommitted r -64 start <? bytes) then BumpExhausted
    else BumpOk start.

(** Regions small enough that rounding an offset up cannot wrap. *)
Definition region_small (r : Region) : Prop := 0 <= rcommitted r <= 2 ^ 63.

Lemma bump_take_spec r offset bytes alignment start :
  region_small r -> 0 <= offset <= rcommitted r -> 0 <= bytes < two64 -> 0 <= alignment < two64 ->
  bump_take r offset bytes alignment = BumpOk start ->
  offset <= start /\ start + bytes <= rcommitted r /\ start mod alignment = 0 /\ 0 < bytes /\
  region_valid r = true.
Proof.
  intros Hr Ho Hb Ha. unfold bump_take, region_small in *.
  destruct (_ || not_pow2 alignment) eqn:E0; [done|].
  rewrite !orb_false_iff in E0. destruct E0 as [[E0 E1] E2].
  destruct (region_valid r) eqn:Ev; simpl; [|done].
  destruct (not_pow2_spec alignment) as (k & Hk & ->); [lia|done|].
  assert (2 ^ k <= 2 ^ 63) by (apply Z.pow_le_mono_r; lia).
  destruct (align_up_bounds offset k) as [[? ?] ?]; [lia..|unfold two64; lia|].
  destruct (_ || _) eqn:E; [done|]. intros [= <-]. apply orb_false_iff in E as [E3 E4].
  rewrite u64_small in E4 by (unfold two64 in *; lia). split_and!; try done; lia.
Qed.

(** Nothing is refused that would fit. *)
Lemma bump_take_complete r offset bytes k :
  region_small r -> 0 <= offset <= rcommitted r -> 0 < bytes -> 0 <= k < 64 ->
  region_valid r = true -> align_up offset (2 ^ k) + bytes <= rcommitted r ->
  bump_take r offset bytes (2 ^ k) = BumpOk (align_up offset (2 ^ k)).
Proof.
  intros Hr Ho Hb Hk Hv Hfit. unfold bump_take, region_small in *.
  assert (0 < 2 ^ k) by (apply Z.pow_pos_nonneg; lia).
  assert (2 ^ k <= 2 ^ 63) by (apply Z.pow_le_mono_r; lia).
  assert (not_pow2 (2 ^ k) = false) as ->.
  { unfold not_pow2. rewrite u64_small by (unfold two64; lia).
    replace (2 ^ k - 1) with (Z.ones k) by (rewrite Z.ones_equiv; lia).
    rewrite Z.land_ones, Z.mod_same by lia. done. }
  rewrite (proj2 (Z.eqb_neq bytes 0)), (proj2 (Z.eqb_neq (2 ^ k) 0)) by lia. simpl. rw Hv. simpl.
  destruct (align_up_bounds offset k) as [[? ?] ?]; [lia..|unfold two64; lia|].
  rewrite u64_small by (unfold two64; lia).
  rewrite (proj2 (orb_false_iff _ _)) by lia. done.
Qed.

(** ** ArenaAllocator *)

Module Arena.

Record ArenaAllocator := mkArena {
  region_ : Region; offset_ : Z; high_water_ : Z; generation_ : Z; tag_ : RegionTag
}.

Definition arena_new : ArenaAllocator := mkArena empty_region 0 0 0 Other.

Section backend.
Context {B : Type} `{Backend B}.

Definition arena_open (g : PhaseState) (b : B) (capacity : Z) (tag : RegionTag)
    (a : ArenaAllocator) : PhaseState * B * ArenaAllocator * MemError :=
  if region_valid (region_ a) then (g, b, a, InvalidArgument)
  else if capacity =? 0 then (g, b, a, InvalidArgument)
  else match backend_acquire g b capacity 256 tag with
       | (g, b, inl e) => (g, b, a, e)
       | (g, b, inr r) => (g, b, mkArena r 0 0 (generation_ a) tag, MemOk)
       end.

Definition arena_close (g : PhaseState) (b : B) (a : ArenaAllocator) : B * ArenaAllocator :=
  if region_valid (region_ a) then
    let '(b, r) := region_reset g b (region_ a) in
    (b, mkArena r 0 0 (generation_ a +64 1) (tag_ a))
  else (b, a).
End backend.

Definition arena_reset (a : ArenaAllocator) : ArenaAllocator :=
  mkArena (region_ a) 0 (high_water_ a) (generation_ a +64 1) (tag_ a).

Definition take_bytes (bytes alignment : Z) (a : ArenaAllocator) : ArenaAllocator * option Span :=
  match bump_take (region_ a) (offset_ a) bytes alignment with
  | BumpOk start =>
      let offset := start + bytes in
      (mkArena (region_ a) offset (Z.max (high_water_ a) offset) (generation_ a) (tag_ a),
       Some (mkSpan (rbase (region_ a) + start) bytes))
  | _ => (a, None)
  end.

Definition remaining (a : ArenaAllocator) : Z :=
  if offset_ a <? rcommitted (region_ a) then rcommitted (region_ a) - offset_ a else 0.

Record arena_ok (a : ArenaAllocator) : Prop := {
  ao_small : region_small (region_ a);
  ao_off : 0 <= offset_ a <= rcommitted (region_ a);
  ao_high : offset_ a <= high_water_ a <= rcommitted (region_ a)
}.

(** A run of [take_bytes] calls with the spans it produced, oldest first. *)
Inductive takes : ArenaAllocator -> list Span -> ArenaAllocator -> Prop :=
| takes_nil a : takes a [] a
| takes_step a l a' bytes alignment a'' r :
    takes a l a' -> 0 <= bytes < two64 -> 0 <= alignment < two64 ->
    take_bytes bytes alignment a' = (a'', r) -> takes a (l ++ option_list r) a''.

Definition disjoint (x y : Span) : Prop :=
  span_addr x + span_bytes x <= span_addr y \/ span_addr y + span_bytes y <= span_addr x.

Lemma take_bytes_ok bytes alignment a a' r :
  arena_ok a -> 0 <= bytes < two64 -> 0 <= alignment < two64 ->
  take_bytes bytes alignment a = (a', r) ->
  arena_ok a' /\ region_ a' = region_ a /\ offset_ a <= offset_ a' /\
  forall sp, r = Some sp ->
    0 < span_bytes sp /\ span_bytes sp = bytes /\
    rbase (region_ a) + offset_ a <= span_addr sp /\
    span_addr sp + span_bytes sp = rbase (region_ a) + offset_ a' /\
    (span_addr sp - rbase (region_ a)) mod alignment = 0.
Proof.
  intros [Hs Ho Hh] Hb Ha. unfold take_bytes. destruct (bump_take _ _ _ _) as [| |start] eqn:E;
    intros [= <- <-]; try (split_and!; done || lia).
  destruct (bump_take_spec _ _ _ _ _ Hs Ho Hb Ha E) as (? & ? & ? & ? & ?).
  split_and!; simpl; try done; [constructor; simpl; try done; lia|lia|].
  intros sp [= <-]. simpl. split_and!; try done; try lia. by rw Z.add_simpl_l.
Qed.

Lemma takes_spec a l a' :
  arena_ok a -> takes a l a' ->
  arena_ok a' /\ region_ a' = region_ a /\ offset_ a <= offset_ a' /\
  Forall (fun sp => 0 < span_bytes sp /\ rbase (region_ a) + offset_ a <= span_addr sp /\
                    span_addr sp + span_bytes sp <= rbase (region_ a) + offset_ a') l /\
  ForallOrdPairs disjoint l.
Proof.
  intros Ha Ht. induction Ht as [a|a l a1 bytes al a2 r Ht IH Hb Hal E].
  { split_and!; try done; constructor. }
  destruct (IH Ha) as (Ha1 & Er & Ho & Hf & Hd).
  destruct (take_bytes_ok _ _ _ _ _ Ha1 Hb Hal E) as (Ha2 & Er2 & Ho2 & Hsp).
  split_and!; [done|congruence|lia| |].
  - apply Forall_app. split.
    + eapply Forall_impl; [exact Hf|]. simpl. intros sp ?. lia.
    + destruct r as [sp|]; [|constructor]. constructor; [|constructor].
      destruct (Hsp sp eq_refl) as (? & ? & ? & ? & _). rw -Er. lia.
  - destruct r as [sp|]; simpl; [|by rw app_nil_r].
    destruct (Hsp sp eq_refl) as (? & ? & Hlo & _). rw Er in Hlo.
    clear -Hf Hd Hlo. induction Hd as [|x l Hx Hd IH]; simpl; [repeat constructor|].
    apply Forall_cons in Hf as [Hx' Hf]. constructor; [|by apply IH].
    apply Forall_app. split; [done|]. constructor; [|constructor]. left. lia.
Qed.

(** C6: bump allocation is safe.  Whatever sizes and alignments are requested
    between two resets, every span an arena hands out is non-empty, lies inside
    its region and overlaps no other; the arena's accounting stays within its
    capacity. *)
Theorem arena_spans_disjoint a l a' :
  arena_ok a -> takes a l a' ->
  arena_ok a' /\
  Forall (fun sp => 0 < span_bytes sp /\ rbase (region_ a) + offset_ a <= span_addr sp /\
                    span_addr sp + span_bytes sp <= rbase (region_ a) + rcommitted (region_ a)) l /\
  ForallOrdPairs disjoint l.
Proof.
  intros Ha Ht. destruct (takes_spec _ _ _ Ha Ht) as (Ha' & Er & Ho & Hf & Hd).
  split_and!; try done. eapply Forall_impl; [exact Hf|]. simpl. intros sp ?.
  pose proof (ao_off _ Ha') as Hoff. rw Er in Hoff. lia.
Qed.

Definition demo_arena : ArenaAllocator := mkArena (mkRegion 4096 1024 1024 Other) 0 0 0 Other.

Lemma arena_spans_disjoint_witness :
  ForallOrdPairs disjoint [mkSpan 4096 100; mkSpan 4352 300].
Proof.
  refine (proj2 (proj2 (arena_spans_disjoint demo_arena _
    (mkArena (mkRegion 4096 1024 1024 Other) 556 556 0 Other) _ _))).
  - constructor; [unfold region_small|..]; simpl; lia.
  - refine (takes_step _ [mkSpan 4096 100]
      (mkArena (mkRegion 4096 1024 1024 Other) 100 100 0 Other) 300 256 _ (Some (mkSpan 4352 300)) _ _ _ _);
      [|unfold two64; lia|unfold two64; lia|reflexivity].
    refine (takes_step _ [] demo_arena 100 256 _ (Some (mkSpan 4096 100)) _ _ _ _);
      [constructor|unfold two64; lia|unfold two64; lia|reflexivity].
Defined.

(** No spurious exhaustion, and alignment.  For a power-of-two alignment,
    [take_bytes] fails only when the aligned request does not fit in what is
    left; on success the offset from the region base is a multiple of the
    alignment, so the address is aligned whenever the base is. *)
Theorem arena_take_exact a bytes k :
  arena_ok a -> 0 < bytes < two64 -> 0 <= k < 64 -> region_valid (region_ a) = true ->
  let '(a', r) := take_bytes bytes (2 ^ k) a in
  (r = None <-> rcommitted (region_ a) < align_up (offset_ a) (2 ^ k) + bytes) /\
  forall sp, r = Some sp ->
    (rbase (region_ a) mod 2 ^ k = 0 -> span_addr sp mod 2 ^ k = 0) /\
    span_addr sp < rbase (region_ a) + offset_ a + 2 ^ k /\
    high_water_ a' = Z.max (high_water_ a) (offset_ a').
Proof.
  intros Ha Hb Hk Hv. pose proof Ha as [Hs Ho Hh].
  assert (0 < 2 ^ k) by (apply Z.pow_pos_nonneg; lia).
  assert (2 ^ k <= 2 ^ 63) by (apply Z.pow_le_mono_r; lia).
  destruct (align_up_bounds (offset_ a) k) as [[? ?] Hm];
    [lia..|unfold region_small in Hs; unfold two64; lia|].
  unfold take_bytes. destruct (decide (align_up (offset_ a) (2 ^ k) + bytes <= rcommitted (region_ a)))
    as [Hfit|Hno].
  - rewrite bump_take_complete by (done || lia). split; [split; [done|lia]|].
    intros sp [= <-]. simpl. split_and!; [|lia|done]. intros Hbase.
    rewrite Z.add_mod, Hbase, Hm by lia. done.
  - destruct (bump_take _ _ _ _) as [| |start] eqn:E; [split; [split; [lia|done]|done]..|].
    apply bump_take_spec in E as E'; [|done|lia|lia|unfold two64; lia].
    exfalso. unfold bump_take in E. repeat case_match; simplify_eq. lia.
Qed.

Lemma arena_take_exact_witness :
  let '(_, r) := take_bytes 2000 (2 ^ 8) demo_arena in r = None.
Proof.
  pose proof (arena_take_exact demo_arena 2000 8) as H.
  destruct (take_bytes 2000 (2 ^ 8) demo_arena) as [a' r].
  apply H; [constructor; [unfold region_small|..]; simpl; lia|unfold two64; lia|lia|reflexivity|].
  vm_compute. reflexivity.
Defined.

(** Alignments above the region's own are honoured only relative to the base: a
    base that is 256-byte but not 512-byte aligned yields a misaligned span. *)
Theorem arena_overaligned_base :
  let a := mkArena (mkRegion 4352 1024 1024 Other) 0 0 0 Other in
  rbase (region_ a) mod 256 = 0 /\
  exists a' sp, take_bytes 8 512 a = (a', Some sp) /\ span_addr sp mod 512 = 256.
Proof. split; [done|]. do 2 eexists. split; vm_compute; reflexivity. Qed.

End Arena.

(** ** ScratchStack *)

Module Scratch.

Record ScratchStack := mkScratch {
  region_ : Region; offset_ : Z; high_water_ : Z; depth_ : Z; exhaustions_ : Z
}.

(** [ScratchStack::Mark]: the rewind point and the depth it was taken at. *)
Record Mark := mkMark { m_offset : Z; m_depth : Z }.

Definition scratch_new : ScratchStack := mkScratch empty_region 0 0 0 0.

Section backend.
Context {B : Type} `{Backend B}.

Definition scratch_open (g : PhaseState) (b : B) (capacity : Z) (tag : RegionTag)
    (s : ScratchStack) : PhaseState * B * ScratchStack * MemError :=
  if region_valid (region_ s) then (g, b, s, InvalidArgument)
  else if capacity =? 0 then (g, b, s, InvalidArgument)
  else match backend_acquire g b capacity 256 tag with
       | (g, b, inl e) => (g, b, s, e)
       | (g, b, inr r) => (g, b, mkScratch r 0 0 0 0, MemOk)
       end.

(** The boolean reports marks that were still live. *)
Definition scratch_close (g : PhaseState) (b : B) (s : ScratchStack) : B * ScratchStack * bool :=
  if region_valid (region_ s) then
    let '(b, r) := region_reset g b (region_ s) in
    (b, mkScratch r 0 (high_water_ s) 0 (exhaustions_ s), negb (depth_ s =? 0))
  else (b, s, false).
End backend.

Definition mark (s : ScratchStack) : ScratchStack * Mark :=
  let d := u32 (depth_ s + 1) in
  (mkScratch (region_ s) (offset_ s) (high_water_ s) d (exhaustions_ s), mkMark (offset_ s) d).

(** [rewind_]: out-of-order marks are reported and ignored. *)
Definition rewind_ (m : Mark) (s : ScratchStack) : ScratchStack * bool :=
  if negb (m_depth m =? depth_ s) then (s, false)
  else (mkScratch (region_ s) (m_offset m) (high_water_ s) (u32 (depth_ s - 1)) (exhaustions_ s), true).

Definition take_bytes (bytes alignment : Z) (s : ScratchStack) : ScratchStack * option Span :=
  match bump_take (region_ s) (offset_ s) bytes alignment with
  | BumpOk start =>
      let offset := start + bytes in
      (mkScratch (region_ s) offset (Z.max (high_water_ s) offset) (depth_ s) (exhaustions_ s),
       Some (mkSpan (rbase (region_ s) + start) bytes))
  | BumpExhausted =>
      (mkScratch (region_ s) (offset_ s) (high_water_ s) (depth_ s) (exhaustions_ s +64 1), None)
  | BumpInvalid => (s, None)
  end.

Record scratch_ok (s : ScratchStack) : Prop := {
  so_small : region_small (region_ s);
  so_off : 0 <= offset_ s <= high_water_ s;
  so_high : high_water_ s <= rcommitted (region_ s);
  so_depth : 0 <= depth_ s < two32
}.

(** Well-nested use, as RAII enforces it: takes in sequence, and scopes that open
    a mark, run a well-nested body at most [n] marks deep, and rewind. The list
    is the spans still live at the end. *)
Inductive nested : nat -> ScratchStack -> list Span -> ScratchStack -> Prop :=
| nest_nil n s : nested n s [] s
| nest_take n s l s1 bytes alignment s2 r :
    nested n s l s1 -> 0 <= bytes < two64 -> 0 <= alignment < two64 ->
    take_bytes bytes alignment s1 = (s2, r) -> nested n s (l ++ option_list r) s2
| nest_scope n s l s1 m s2 inner s3 s4 ok :
    nested (S n) s l s1 -> mark s1 = (s2, m) -> nested n s2 inner s3 ->
    rewind_ m s3 = (s4, ok) -> nested (S n) s l s4.

Lemma scratch_take_ok bytes alignment s s' r :
  scratch_ok s -> 0 <= bytes < two64 -> 0 <= alignment < two64 ->
  take_bytes bytes alignment s = (s', r) ->
  scratch_ok s' /\ region_ s' = region_ s /\ depth_ s' = depth_ s /\ offset_ s <= offset_ s' /\
  high_water_ s <= high_water_ s' /\
  forall sp, r = Some sp -> 0 < span_bytes sp /\ rbase (region_ s) + offset_ s <= span_addr sp /\
    span_addr sp + span_bytes sp = rbase (region_ s) + offset_ s'.
Proof.
  intros [Hs Ho Hh Hd] Hb Ha. unfold take_bytes. destruct (bump_take _ _ _ _) as [| |start] eqn:E;
    intros [= <- <-].
  { by split_and!; try lia. }
  { split_and!; simpl; try done; try lia. }
  assert (0 <= offset_ s <= rcommitted (region_ s)) as Hoc by lia.
  destruct (bump_take_spec _ _ _ _ _ Hs Hoc Hb Ha E) as (? & ? & ? & ? & ?).
  split_and!; simpl; try done; [constructor; simpl; try done; lia|lia|lia|].
  intros sp [= <-]. simpl. lia.
Qed.

(** The whole effect of a well-nested run. *)
Lemma nested_spec n s l s' :
  scratch_ok s -> depth_ s + Z.of_nat n < two32 -> nested n s l s' ->
  scratch_ok s' /\ region_ s' = region_ s /\ depth_ s' = depth_ s /\ offset_ s <= offset_ s' /\
  high_water_ s <= high_water_ s' /\
  Forall (fun sp => 0 < span_bytes sp /\ rbase (region_ s) + offset_ s <= span_addr sp /\
                    span_addr sp + span_bytes sp <= rbase (region_ s) + offset_ s') l /\
  ForallOrdPairs Arena.disjoint l.
Proof.
  intros Hs Hn Ht. revert Hs Hn.
  induction Ht as [n s|n s l s1 bytes al s2 r Ht IH Hb Hal E
                  |n s l s1 m s2 inner s3 s4 ok Ht IH Em Hi IHi Er]; intros Hs Hn.
  - split_and!; try done; constructor.
  - destruct (IH Hs Hn) as (Hs1 & Er & Ed & Ho & Hh & Hf & Hd).
    destruct (scratch_take_ok _ _ _ _ _ Hs1 Hb Hal E) as (Hs2 & Er2 & Ed2 & Ho2 & Hh2 & Hsp).
    split_and!; [done|congruence|congruence|lia|lia| |].
    + apply Forall_app. split.
      * eapply Forall_impl; [exact Hf|]. simpl. intros sp ?. lia.
      * destruct r as [sp|]; [|constructor]. constructor; [|constructor].
        destruct (Hsp sp eq_refl) as (? & ? & ?). rw -Er. lia.
    + destruct r as [sp|]; simpl; [|by rw app_nil_r].
      destruct (Hsp sp eq_refl) as (? & Hlo & _). rw Er in Hlo.
      clear -Hf Hd Hlo. induction Hd as [|x l Hx Hd IH]; simpl; [repeat constructor|].
      apply Forall_cons in Hf as [Hx' Hf]. constructor; [|by apply IH].
      apply Forall_app. split; [done|]. constructor; [|constructor]. left. lia.
  - destruct (IH Hs Hn) as (Hs1 & Er1 & Ed1 & Ho1 & Hh1 & Hf & Hd).
    unfold mark in Em. injection Em as <- <-. pose proof (so_depth _ Hs1) as Hdep.
    assert (u32 (depth_ s1 + 1) = depth_ s1 + 1) as Hu by (apply Z.mod_small; lia).
    rw Hu in Hi, IHi, Er. set (s2 := mkScratch _ _ _ _ _) in *.
    assert (scratch_ok s2) as Hs2 by (destruct Hs1; constructor; simpl; try done; lia).
    destruct (IHi Hs2 ltac:(simpl; lia)) as (Hs3 & Er3 & Ed3 & Ho3 & Hh3 & _).
    unfold rewind_ in Er. rw Ed3 Z.eqb_refl /= in Er. injection Er as <- <-. simpl in *.
    rewrite Z.add_simpl_r. assert (u32 (depth_ s1) = depth_ s1) as -> by (by apply Z.mod_small).
    destruct Hs1 as [? ? ? ?], Hs3 as [? ? ? ?].
    split_and!; try done; [|congruence|lia]. constructor; simpl; try done; lia.
Qed.

(** The scratch stack cannot leak.  Whatever a scope does inside, takes and
    nested scopes included, releasing its mark restores the offset and depth it
    was opened at; the spans taken before it stay disjoint from everything taken
    inside, and the high-water mark only grows and stays within the region. *)
Theorem scratch_scope_restores n s s1 m inner s2 s3 ok :
  scratch_ok s -> depth_ s + Z.of_nat (S n) < two32 ->
  mark s = (s1, m) -> nested n s1 inner s2 -> rewind_ m s2 = (s3, ok) ->
  ok = true /\ offset_ s3 = offset_ s /\ depth_ s3 = depth_ s /\ region_ s3 = region_ s /\
  high_water_ s <= high_water_ s3 <= rcommitted (region_ s) /\
  Forall (fun sp => rbase (region_ s) + offset_ s <= span_addr sp) inner /\
  ForallOrdPairs Arena.disjoint inner.
Proof.
  intros Hs Hn Em Hi Er. pose proof (so_depth _ Hs) as Hdep.
  unfold mark in Em. injection Em as <- <-.
  assert (u32 (depth_ s + 1) = depth_ s + 1) as Hu by (apply Z.mod_small; lia).
  rw Hu in Hi, Er. set (s1 := mkScratch _ _ _ _ _) in *.
  assert (scratch_ok s1) as Hs1 by (destruct Hs; constructor; simpl; try done; lia).
  assert (depth_ s1 + Z.of_nat n < two32) as Hn1 by (simpl; lia).
  destruct (nested_spec _ _ _ _ Hs1 Hn1 Hi) as (Hs2 & Er2 & Ed2 & _ & Hh & Hf & Hd).
  unfold rewind_ in Er. rw Ed2 Z.eqb_refl /= in Er. injection Er as <- <-. simpl in *.
  rewrite Z.add_simpl_r. assert (u32 (depth_ s) = depth_ s) as -> by (by apply Z.mod_small).
  split_and!; try done.
  - pose proof (so_high _ Hs2) as Hhw. by rw Er2 in Hhw.
  - eapply Forall_impl; [exact Hf|]. simpl. tauto.
Qed.

Definition demo_scratch : ScratchStack := mkScratch (mkRegion 4096 1024 1024 ForwardScratch) 100 100 0 0.

Lemma scratch_scope_restores_witness :
  let '(s1, m) := mark demo_scratch in
  let '(s2, _) := take_bytes 300 256 s1 in
  offset_ s2 = 556 /\ offset_ (fst (rewind_ m s2)) = offset_ demo_scratch.
Proof.
  assert (nested 0 (fst (mark demo_scratch)) [mkSpan 4352 300]
            (fst (take_bytes 300 256 (fst (mark demo_scratch))))) as Hi.
  { apply (nest_take 0 _ [] (fst (mark demo_scratch)) 300 256 _ (Some (mkSpan 4352 300)));
      [constructor|unfold two64; lia|unfold two64; lia|reflexivity]. }
  split; [reflexivity|].
  refine (proj1 (proj2 (scratch_scope_restores 0 demo_scratch _ _ _ _ _ true _ _ eq_refl Hi _)));
    [constructor; [unfold region_small|..]; simpl; unfold two32; lia|unfold two32; simpl; lia|reflexivity].
Defined.

End Scratch.
