(* ===== verification/GraphSlots.v ===== *)
(** * The graph slot pool

    Models [src/memory/graph_slots.cpp]: fixed slots cut from one device region
    and one pinned host buffer, leased for the length of a burst.  Pointers are
    addresses; the pinned host allocator is an argument giving the host and
    device address of the mapped buffer.  Leases are move-only in the source: a
    lease is its slot index and view, and [release] its destructor. *)

From Corelib Require Import ssreflect_rw.
From stdpp Require Import prelude gmap fin_maps list strings.
From S2P Require Import Prelude Backend Arena.
Open Scope Z_scope.
Open Scope quench_scope.

Definition kSubAlign : Z := 256.

(** This file's [align_up]: [(v + a - 1) / a * a]. *)
Definition align_up_div (v a : Z) : Z := (v +64 a -64 1) / a *64 a.

Definition kGraphSlotSampleScratchBytes : Z := 4 + 64 * (2 * 4 + 128 * (4 + 4)).
Definition kNumScalars : Z := 10.

Record GraphSlotCaps := mkCaps { max_steps : Z; penalty_slots : Z; stop_ids : Z }.

Record GraphSlotView := mkView {
  v_sample_scratch : Z;
  v_scalars : list Z;      (* position, context_len, ..., penalty_count *)
  v_stop_ids : Z;
  v_penalty_ring : Z;
  v_h_ring : Z; v_d_ring : Z;
  v_h_step_counter : Z; v_d_step_counter_mapped : Z;
  v_h_burst_done : Z; v_d_burst_done_mapped : Z;
  v_h_decode_scratch : Z
}.

Record GraphSlotPool := mkSlots {
  region_ : Region;
  host_ : Z * Z;           (* host and device address of the pinned buffer *)
  open_ : bool;
  caps_ : GraphSlotCaps;
  num_slots_ : Z;
  slot_device_stride_ : Z;
  slot_host_stride_ : Z;
  device_bytes_ : Z;
  host_bytes_ : Z;
  in_use_ : list bool;
  declines_exhausted_ : Z;
  declines_too_small_ : Z
}.

Definition slots_new : GraphSlotPool :=
  mkSlots empty_region (0, 0) false (mkCaps 0 0 64) 0 0 0 0 0 [] 0 0.

Definition device_stride_for (c : GraphSlotCaps) : Z :=
  align_up_div kGraphSlotSampleScratchBytes kSubAlign
  +64 align_up_div (kNumScalars * 4) kSubAlign
  +64 align_up_div (Z.max (stop_ids c) 0 *64 4) kSubAlign
  +64 align_up_div (Z.max (penalty_slots c) 0 *64 4) kSubAlign.

Definition host_stride_for (c : GraphSlotCaps) : Z :=
  align_up_div (Z.max (max_steps c) 0 *64 4) kSubAlign
  +64 align_up_div 4 kSubAlign +64 align_up_div 4 kSubAlign +64 align_up_div 4 kSubAlign.

(** [PinnedBuffer::acquire] of the host allocator: [None] is the empty buffer. *)
Definition slots_open `{Backend B} (g : PhaseState) (b : B) (host_acquire : Z -> option (Z * Z))
    (c : GraphSlotCaps) (num_slots : Z) (p : GraphSlotPool)
    : PhaseState * B * GraphSlotPool * MemError :=
  if open_ p then (g, b, p, InvalidArgument)
  else if (num_slots <=? 0) || (max_steps c <=? 0) || (penalty_slots c <=? 0) || (stop_ids c <? 0) then
    (g, b, p, InvalidArgument)
  else
    let ds := device_stride_for c in
    let hs := host_stride_for c in
    let dev_total := ds *64 num_slots in
    let host_total := hs *64 num_slots in
    let p1 := mkSlots (region_ p) (host_ p) (open_ p) (caps_ p) (num_slots_ p) ds hs
                (device_bytes_ p) (host_bytes_ p) (in_use_ p) (declines_exhausted_ p)
                (declines_too_small_ p) in
    match backend_acquire g b dev_total kSubAlign EnginePersistent with
    | (g, b, inl e) => (g, b, p1, e)
    | (g, b, inr r) =>
        match host_acquire host_total with
        | None => let '(b, _) := region_reset g b r in (g, b, p1, OutOfMemory)
        | Some hp =>
            (g, b, mkSlots r hp true c num_slots ds hs dev_total host_total
                     (replicate (Z.to_nat num_slots) false) 0 0, MemOk)
        end
    end.

(** The integer is the number of slots reported as still leased. *)
Definition slots_close `{Backend B} (g : PhaseState) (b : B) (p : GraphSlotPool)
    : B * GraphSlotPool * Z :=
  if open_ p then
    let leaked := Z.of_nat (length (filter (fun u => u = true) (in_use_ p))) in
    let '(b, r) := region_reset g b (region_ p) in
    (b, mkSlots r (0, 0) false (caps_ p) 0 (slot_device_stride_ p) (slot_host_stride_ p) 0 0 []
          (declines_exhausted_ p) (declines_too_small_ p), leaked)
  else (b, p, 0).

Definition carve_ (index : Z) (p : GraphSlotPool) : GraphSlotView :=
  let d := rbase (region_ p) + (slot_device_stride_ p *64 index) in
  let scalars := d + align_up_div kGraphSlotSampleScratchBytes kSubAlign in
  let stops := scalars + align_up_div (kNumScalars * 4) kSubAlign in
  let ring := stops + align_up_div (stop_ids (caps_ p) *64 4) kSubAlign in
  let host_off := slot_host_stride_ p *64 index in
  let h := fst (host_ p) + host_off in
  let hd := snd (host_ p) + host_off in
  let ring_bytes := align_up_div (max_steps (caps_ p) *64 4) kSubAlign in
  let scalar_bytes := align_up_div 4 kSubAlign in
  mkView d ((fun k => scalars + 4 * k) <$> [0; 1; 2; 3; 4; 5; 6; 7; 8; 9]) stops ring
    h hd (h + ring_bytes) (hd + ring_bytes) (h + ring_bytes + scalar_bytes)
    (hd + ring_bytes + scalar_bytes) (h + ring_bytes + scalar_bytes + scalar_bytes).

(** The first free slot. *)
Definition first_free (u : list bool) : option nat := fst <$> list_find (fun b => b = false) u.

Definition bump_declines (exhausted too_small : Z) (p : GraphSlotPool) : GraphSlotPool :=
  mkSlots (region_ p) (host_ p) (open_ p) (caps_ p) (num_slots_ p) (slot_device_stride_ p)
    (slot_host_stride_ p) (device_bytes_ p) (host_bytes_ p) (in_use_ p)
    (declines_exhausted_ p +64 exhausted) (declines_too_small_ p +64 too_small).

Definition with_in_use (u : list bool) (p : GraphSlotPool) : GraphSlotPool :=
  mkSlots (region_ p) (host_ p) (open_ p) (caps_ p) (num_slots_ p) (slot_device_stride_ p)
    (slot_host_stride_ p) (device_bytes_ p) (host_bytes_ p) u
    (declines_exhausted_ p) (declines_too_small_ p).

Definition slots_acquire (need : GraphSlotCaps) (p : GraphSlotPool)
    : GraphSlotPool * option (Z * GraphSlotView) :=
  if negb (open_ p) then (p, None)
  else if (max_steps (caps_ p) <? max_steps need) || (penalty_slots (caps_ p) <? penalty_slots need)
          || (stop_ids (caps_ p) <? stop_ids need) then (bump_declines 0 1 p, None)
  else match first_free (in_use_ p) with
       | Some i => (with_in_use (<[i := true]> (in_use_ p)) p, Some (Z.of_nat i, carve_ (Z.of_nat i) p))
       | None => (bump_declines 1 0 p, None)
       end.

Definition release_ (index : Z) (p : GraphSlotPool) : GraphSlotPool :=
  if negb (open_ p) || (index <? 0) || (num_slots_ p <=? index) then p
  else with_in_use (vset index false (in_use_ p)) p.

Definition free_slots (p : GraphSlotPool) : Z :=
  if open_ p then Z.of_nat (length (filter (fun u => u = false) (in_use_ p))) else 0.

Definition declines (p : GraphSlotPool) : Z := declines_exhausted_ p +64 declines_too_small_ p.

(** Caps [graph_slot_pool_open_for] opens the global pool with. *)
Definition caps_for (max_seq_len : Z) : GraphSlotCaps := mkCaps max_seq_len (max_seq_len * 2) 64.

(** ** Leases are exclusive *)

(** The pool together with the indices of the leases its clients hold. *)
Inductive lease_step : GraphSlotPool * list Z -> GraphSlotPool * list Z -> Prop :=
| ls_acquire p ls need p' i v :
    slots_acquire need p = (p', Some (i, v)) -> lease_step (p, ls) (p', ls ++ [i])
| ls_decline p ls need p' : slots_acquire need p = (p', None) -> lease_step (p, ls) (p', ls)
| ls_release p l1 i l2 : lease_step (p, l1 ++ i :: l2) (release_ i p, l1 ++ l2).

Record lease_inv (p : GraphSlotPool) (ls : list Z) : Prop := {
  le_len : length (in_use_ p) = Z.to_nat (num_slots_ p);
  le_nodup : NoDup ls;
  le_used : forall i, i ∈ ls <-> 0 <= i < num_slots_ p /\ in_use_ p !! Z.to_nat i = Some true
}.

(** An open pool: what [slots_open] establishes and the lease steps keep. *)
Definition opened (p : GraphSlotPool) : Prop := open_ p = true /\ 0 < num_slots_ p.

Lemma first_free_spec u i :
  first_free u = Some i -> u !! i = Some false /\ forall j, (j < i)%nat -> u !! j = Some true.
Proof.
  unfold first_free. destruct (list_find _ u) as [[k b]|] eqn:E; [|done]. intros [= <-].
  apply list_find_Some in E as (Hk & -> & Hbef). split; [done|]. intros j Hj.
  destruct (lookup_lt_is_Some_2 u j) as [b Hb]; [apply lookup_lt_Some in Hk; lia|].
  rw Hb. f_equal. specialize (Hbef _ _ Hb Hj). by destruct b.
Qed.

Lemma lease_step_inv st st' :
  lease_step st st' -> opened st.1 -> lease_inv st.1 st.2 ->
  lease_inv st'.1 st'.2 /\ opened st'.1 /\ num_slots_ st'.1 = num_slots_ st.1.
Proof.
  intros Hstep Hopen Hinv. destruct Hstep as [p ls need p' i v E|p ls need p' E|p l1 i l2]; simpl in *.
  - unfold slots_acquire in E. repeat case_match; simplify_eq. split_and!; try done; [|apply Hopen..].
    apply first_free_spec in H1 as [Hf _]. destruct Hinv as [Hl Hnd Hu].
    assert (n < length (in_use_ p))%nat as Hlt by (by eapply lookup_lt_Some).
    constructor; simpl; [by rw length_insert| |].
    + apply NoDup_app. split_and!; [done| |apply NoDup_singleton].
      intros x Hx ->%list_elem_of_singleton. apply Hu in Hx as [_ Hx]. rw Nat2Z.id in Hx. congruence.
    + intros x. rw elem_of_app list_elem_of_singleton Hu.
      destruct (decide (x = Z.of_nat n)) as [->|Hne].
      * rw Nat2Z.id list_lookup_insert_eq //. split; [intros _|by right]. split; [lia|done].
      * split; [intros [[? ?]|?]; [|done]|intros [? Hx]; left]; split; try done.
        -- rewrite list_lookup_insert_ne by lia. done.
        -- rewrite list_lookup_insert_ne in Hx by lia. done.
  - unfold slots_acquire in E. repeat case_match; simplify_eq; split_and!; try done;
      try (destruct Hinv; by constructor); apply Hopen.
  - destruct Hinv as [Hl Hnd Hu]. destruct Hopen as [Ho Hn].
    destruct (proj1 (Hu i)) as [Hr Hi]; [apply elem_of_app; right; left|].
    unfold release_. rw Ho. rewrite (proj2 (Z.ltb_ge i 0)), (proj2 (Z.leb_gt (num_slots_ p) i)) by lia.
    simpl. split_and!; try done. apply NoDup_app in Hnd as (Hn1 & Hn2 & Hn3).
    apply NoDup_cons in Hn3 as [Hi2 Hn3].
    constructor; simpl; [unfold vset; by rw length_insert| |].
    + apply NoDup_app. split_and!; try done. intros x Hx Hx'. apply (Hn2 x Hx). by right.
    + intros x. unfold vset. specialize (Hu x). rw elem_of_app elem_of_cons in Hu.
      rw elem_of_app. destruct (decide (x = i)) as [->|Hne].
      * rewrite list_lookup_insert_eq by lia. split; [|naive_solver].
        intros [Hx|Hx]; [|done]. exfalso. apply (Hn2 _ Hx). left.
      * split; intros Hx.
        -- destruct (proj1 Hu) as [? ?]; [tauto|]. split; [done|].
           by rewrite list_lookup_insert_ne by lia.
        -- destruct Hx as [? Hx]. rewrite list_lookup_insert_ne in Hx by lia.
           destruct (proj2 Hu) as [?|[?|?]]; tauto.
Qed.

Inductive lease_reachable (p0 : GraphSlotPool) : GraphSlotPool * list Z -> Prop :=
| lr_open : lease_reachable p0 (p0, [])
| lr_step st st' : lease_reachable p0 st -> lease_step st st' -> lease_reachable p0 st'.

(** A freshly opened pool: no slot in use. *)
Definition fresh_open (p : GraphSlotPool) : Prop :=
  opened p /\ in_use_ p = replicate (Z.to_nat (num_slots_ p)) false.

Lemma free_slots_count u n (ls : list Z) :
  length u = n -> NoDup ls ->
  (forall i, i ∈ ls <-> 0 <= i < Z.of_nat n /\ u !! Z.to_nat i = Some true) ->
  (length (filter (fun b => b = false) u) + length ls)%nat = n.
Proof.
  revert n ls. induction u as [|b u IH] using rev_ind; intros n ls Hn Hnd Hu.
  { simpl in Hn. subst n. destruct ls as [|i ls]; [done|]. destruct (proj1 (Hu i)); [left|lia]. }
  rw length_app /= in Hn. rw filter_app length_app.
  assert (u !! length u = None) as Hnone by (apply lookup_ge_None; lia).
  assert (Z.of_nat (length u) ∈ ls <-> b = true) as Hlast.
  { rw Hu Nat2Z.id. rewrite list_lookup_middle by done. split; [by intros [_ [= ?]]|].
    intros ->. split; [lia|done]. }
  assert (forall ls', NoDup ls' -> (forall i, i ∈ ls' <-> i ∈ ls /\ i ≠ Z.of_nat (length u)) ->
    (length (filter (fun b => b = false) u) + length ls')%nat = length u) as Hrec.
  { intros ls' Hnd' Hls'. apply IH; [done|done|]. intros i. rw Hls' Hu. split.
    - intros [[Hr Hi] Hne]. split; [lia|]. rewrite lookup_app_l in Hi by lia. done.
    - intros [Hr Hi]. split; [split; [lia|]|lia]. by rewrite lookup_app_l by lia. }
  destruct b.
  - assert (length (filter (fun b => b = false) u) +
            length (list_erase (Z.of_nat (length u)) ls) = length u)%nat.
    { apply Hrec; [by apply NoDup_list_erase|]. intros i. rw elem_of_list_erase. tauto. }
    rewrite (list_erase_perm _ _ Hnd (proj2 Hlast eq_refl)). simpl. lia.
  - assert (length (filter (fun b => b = false) u) + length ls = length u)%nat.
    { apply Hrec; [done|]. intros i. split; [|tauto]. intros Hi. split; [done|]. intros ->.
      by apply Hlast in Hi. }
    simpl. lia.
Qed.

(** C7: leases are exclusive.  From a freshly opened pool, after any acquires,
    declines and releases, no two outstanding leases name the same slot, every
    leased index is a slot of the pool, and free slots plus leases make up the
    whole pool, so a slot is never lost. *)
Theorem graph_slot_leases_exclusive p0 p ls :
  fresh_open p0 -> lease_reachable p0 (p, ls) ->
  NoDup ls /\ (forall i, i ∈ ls -> 0 <= i < num_slots_ p0) /\
  free_slots p + Z.of_nat (length ls) = num_slots_ p0.
Proof.
  intros [Hop Hu0] Hr.
  assert (lease_inv p ls /\ opened p /\ num_slots_ p = num_slots_ p0) as (Hinv & Ho & Hn).
  { change (lease_inv (p, ls).1 (p, ls).2 /\ opened (p, ls).1 /\ num_slots_ (p, ls).1 = num_slots_ p0).
    revert Hr. generalize (p, ls) as st. induction 1 as [|st st' _ (IH & IHo & IHn) Hstep].
    - split_and!; try done. constructor; simpl; [by rw Hu0 length_replicate|constructor|].
      intros i. rw elem_of_nil Hu0. split; [done|].
      intros [_ [? _]%lookup_replicate]. done.
    - destruct (lease_step_inv _ _ Hstep IHo IH) as (? & ? & ?). split_and!; try done. congruence. }
  destruct Hinv as [Hl Hnd Hu]. destruct Ho as [Ho Hpos]. rw -Hn. split_and!; [done| |].
  - intros i Hi. by apply Hu in Hi as [? _].
  - unfold free_slots. rw Ho.
    pose proof (free_slots_count (in_use_ p) (Z.to_nat (num_slots_ p)) ls Hl Hnd) as Hc.
    rewrite Z2Nat.id in Hc by lia. specialize (Hc Hu). lia.
Qed.

Definition demo_slots : GraphSlotPool :=
  mkSlots (mkRegion 4096 136192 136192 EnginePersistent) (8192, 8192) true (mkCaps 100 200 64) 2
    (device_stride_for (mkCaps 100 200 64)) (host_stride_for (mkCaps 100 200 64)) 136192 2560
    [false; false] 0 0.

Lemma graph_slot_leases_exclusive_witness :
  NoDup [0; 1] /\ free_slots (fst (slots_acquire (mkCaps 10 10 4)
    (fst (slots_acquire (mkCaps 10 10 4) demo_slots)))) + 2 = 2.
Proof.
  destruct (graph_slot_leases_exclusive demo_slots
    (fst (slots_acquire (mkCaps 10 10 4) (fst (slots_acquire (mkCaps 10 10 4) demo_slots)))) [0; 1])
    as (Hn & _ & Hf); [repeat split|..|split; [exact Hn|exact Hf]].
  eapply lr_step; [eapply lr_step; [apply lr_open|]|].
  - eapply (ls_acquire demo_slots [] (mkCaps 10 10 4) _ 0 (carve_ 0 demo_slots)). reflexivity.
  - eapply (ls_acquire _ [0] (mkCaps 10 10 4) _ 1 (carve_ 1 demo_slots)). reflexivity.
Defined.

(** ** Slot layout *)

(** The device buffers of a view, with their lengths. *)
Definition device_spans (c : GraphSlotCaps) (v : GraphSlotView) : list Span :=
  mkSpan (v_sample_scratch v) kGraphSlotSampleScratchBytes ::
  ((fun a => mkSpan a 4) <$> v_scalars v) ++
  [mkSpan (v_stop_ids v) (4 * stop_ids c); mkSpan (v_penalty_ring v) (4 * penalty_slots c)].

(** The pinned host buffers of a view. *)
Definition host_spans (c : GraphSlotCaps) (v : GraphSlotView) : list Span :=
  [mkSpan (v_h_ring v) (4 * max_steps c); mkSpan (v_h_step_counter v) 4;
   mkSpan (v_h_burst_done v) 4; mkSpan (v_h_decode_scratch v) 4].

(** What [slots_open] establishes: strides from the caps ([int] values), totals
    that do not wrap. *)
Record layout_ok (p : GraphSlotPool) : Prop := {
  lo_caps : 0 < max_steps (caps_ p) < 2 ^ 31 /\ 0 < penalty_slots (caps_ p) < 2 ^ 31 /\
            0 <= stop_ids (caps_ p) < 2 ^ 31;
  lo_dev : slot_device_stride_ p = device_stride_for (caps_ p);
  lo_host : slot_host_stride_ p = host_stride_for (caps_ p);
  lo_dev_total : slot_device_stride_ p * num_slots_ p < two64;
  lo_host_total : slot_host_stride_ p * num_slots_ p < two64
}.

Definition ceil256 (v : Z) : Z := (v + 255) / 256 * 256.

Lemma align_up_div_ceil v : 0 <= v < 2 ^ 63 -> align_up_div v kSubAlign = ceil256 v.
Proof.
  intros Hv. unfold align_up_div, kSubAlign, ceil256, two64.
  assert (u64 (u64 (v + 256) - 1) = v + 255) as ->.
  { rewrite !u64_small by (rewrite ?u64_small by (unfold two64; lia); unfold two64; lia). lia. }
  apply u64_small. unfold two64.
  pose proof (Z.div_mod (v + 255) 256). pose proof (Z.mod_pos_bound (v + 255) 256). lia.
Qed.

Lemma ceil256_bounds v : 0 <= v -> v <= ceil256 v < v + 256.
Proof.
  intros Hv. unfold ceil256. pose proof (Z.div_mod (v + 255) 256).
  pose proof (Z.mod_pos_bound (v + 255) 256). lia.
Qed.

Lemma sum4_u64 a b c d :
  0 <= a < 2 ^ 60 -> 0 <= b < 2 ^ 60 -> 0 <= c < 2 ^ 60 -> 0 <= d < 2 ^ 60 ->
  a +64 b +64 c +64 d = a + b + c + d.
Proof.
  intros. rewrite (u64_small (a + b)) by (unfold two64; lia).
  rewrite (u64_small (a + b + c)) by (unfold two64; lia). apply u64_small. unfold two64. lia.
Qed.

Lemma device_stride_eq c :
  0 <= stop_ids c < 2 ^ 31 -> 0 <= penalty_slots c < 2 ^ 31 ->
  device_stride_for c = ceil256 kGraphSlotSampleScratchBytes + ceil256 40 +
                        ceil256 (4 * stop_ids c) + ceil256 (4 * penalty_slots c).
Proof.
  intros Hs Hp. unfold device_stride_for. rewrite !Z.max_l by lia.
  rewrite (u64_small (stop_ids c * 4)), (u64_small (penalty_slots c * 4)) by (unfold two64; lia).
  change (kNumScalars * 4) with 40. rewrite !align_up_div_ceil by (done || lia).
  rewrite (Z.mul_comm (stop_ids c)), (Z.mul_comm (penalty_slots c)).
  pose proof (ceil256_bounds (4 * stop_ids c)). pose proof (ceil256_bounds (4 * penalty_slots c)).
  pose proof (ceil256_bounds 40). pose proof (ceil256_bounds kGraphSlotSampleScratchBytes).
  unfold kGraphSlotSampleScratchBytes in *. apply sum4_u64; lia.
Qed.

Lemma host_stride_eq c :
  0 <= max_steps c < 2 ^ 31 -> host_stride_for c = ceil256 (4 * max_steps c) + 768.
Proof.
  intros Hm. unfold host_stride_for. rewrite Z.max_l by lia.
  rewrite (u64_small (max_steps c * 4)) by (unfold two64; lia).
  rewrite !align_up_div_ceil by lia. change (ceil256 4) with 256. rewrite (Z.mul_comm (max_steps c)).
  pose proof (ceil256_bounds (4 * max_steps c)). rewrite sum4_u64 by lia. lia.
Qed.

(** Offset of slot [i]: no wrap for an index of the pool. *)
Lemma slot_offset stride n i :
  0 <= stride -> stride * n < two64 -> 0 <= i < n ->
  stride *64 i = stride * i /\ 0 <= stride * i /\ stride * i + stride <= stride * n.
Proof. intros Hs Hn Hi. rewrite u64_small by nia. nia. Qed.

Lemma carve_inside p i :
  layout_ok p -> 0 <= i < num_slots_ p ->
  let inside (b s : Z) (sp : Span) := b + s * i <= span_addr sp /\
                                      span_addr sp + span_bytes sp <= b + s * i + s in
  Forall (inside (rbase (region_ p)) (slot_device_stride_ p)) (device_spans (caps_ p) (carve_ i p)) /\
  ForallOrdPairs Arena.disjoint (device_spans (caps_ p) (carve_ i p)) /\
  Forall (inside (fst (host_ p)) (slot_host_stride_ p)) (host_spans (caps_ p) (carve_ i p)) /\
  ForallOrdPairs Arena.disjoint (host_spans (caps_ p) (carve_ i p)).
Proof.
  intros [(Hm & Hp & Hs) Ed Eh Hd Hh] Hi inside.
  rewrite device_stride_eq in Ed by lia. rewrite host_stride_eq in Eh by lia.
  pose proof (ceil256_bounds (4 * stop_ids (caps_ p))). pose proof (ceil256_bounds (4 * penalty_slots (caps_ p))).
  pose proof (ceil256_bounds 40). pose proof (ceil256_bounds kGraphSlotSampleScratchBytes).
  pose proof (ceil256_bounds (4 * max_steps (caps_ p))).
  assert (0 <= kGraphSlotSampleScratchBytes) by done.
  destruct (slot_offset (slot_device_stride_ p) (num_slots_ p) i) as (Eo & ? & ?); [lia..|].
  destruct (slot_offset (slot_host_stride_ p) (num_slots_ p) i) as (Eo' & ? & ?); [lia..|].
  unfold device_spans, host_spans, carve_. simpl. rw Eo Eo'.
  rewrite (u64_small (stop_ids _ * 4)), (u64_small (max_steps _ * 4)) by (unfold two64; lia).
  change (kNumScalars * 4) with 40. rewrite !align_up_div_ceil by (done || lia).
  change (ceil256 4) with 256.
  rewrite (Z.mul_comm (stop_ids _) 4), (Z.mul_comm (max_steps _) 4).
  unfold inside, Arena.disjoint, fmap, list_fmap. 
  split_and!; repeat (constructor; simpl); lia.
Qed.

(** The slots do not overlap.  In an open pool every device buffer of slot
    [i] lies inside the region, the thirteen buffers of one slot are pairwise
    disjoint, so are its host buffers, and buffers of different slots are
    disjoint, so a captured graph can never write into another burst's slot. *)
Theorem graph_slots_disjoint p i j :
  layout_ok p -> 0 <= i < num_slots_ p -> 0 <= j < num_slots_ p ->
  Forall (fun sp => rbase (region_ p) <= span_addr sp /\
            span_addr sp + span_bytes sp <= rbase (region_ p) + slot_device_stride_ p * num_slots_ p)
    (device_spans (caps_ p) (carve_ i p)) /\
  ForallOrdPairs Arena.disjoint (device_spans (caps_ p) (carve_ i p)) /\
  ForallOrdPairs Arena.disjoint (host_spans (caps_ p) (carve_ i p)) /\
  (i ≠ j ->
   (forall x y, x ∈ device_spans (caps_ p) (carve_ i p) -> y ∈ device_spans (caps_ p) (carve_ j p) ->
      Arena.disjoint x y) /\
   (forall x y, x ∈ host_spans (caps_ p) (carve_ i p) -> y ∈ host_spans (caps_ p) (carve_ j p) ->
      Arena.disjoint x y)).
Proof.
  intros Hl Hi Hj. destruct (carve_inside p i Hl Hi) as (Hdi & Hdo & Hhi & Hho).
  destruct (carve_inside p j Hl Hj) as (Hdj & _ & Hhj & _).
  assert (0 <= slot_device_stride_ p /\ 0 <= slot_host_stride_ p) as [Hd0 Hh0].
  { destruct Hl as [(Hm & Hp & Hs) Ed Eh _ _].
    rewrite Ed, Eh, device_stride_eq, host_stride_eq by lia.
    pose proof (ceil256_bounds (4 * stop_ids (caps_ p))). pose proof (ceil256_bounds (4 * penalty_slots (caps_ p))).
    pose proof (ceil256_bounds (4 * max_steps (caps_ p))).
    pose proof (ceil256_bounds 40). pose proof (ceil256_bounds kGraphSlotSampleScratchBytes).
    assert (0 <= kGraphSlotSampleScratchBytes) by done. lia. }
  split_and!; try done.
  - eapply Forall_impl; [exact Hdi|]. simpl. intros sp ?. nia.
  - intros Hne. rewrite Forall_forall in Hdi. rewrite Forall_forall in Hdj.
    rewrite Forall_forall in Hhi. rewrite Forall_forall in Hhj. unfold Arena.disjoint.
    split; intros x y Hx Hy.
    + specialize (Hdi x Hx). specialize (Hdj y Hy). simpl in *. nia.
    + specialize (Hhi x Hx). specialize (Hhj y Hy). simpl in *. nia.
Qed.

Lemma graph_slots_disjoint_witness :
  Arena.disjoint (mkSpan (v_penalty_ring (carve_ 0 demo_slots)) 800)
    (mkSpan (v_sample_scratch (carve_ 1 demo_slots)) kGraphSlotSampleScratchBytes).
Proof.
  apply (proj1 (proj2 (proj2 (proj2 (graph_slots_disjoint demo_slots 0 1
    ltac:(constructor; simpl; try reflexivity; lia) ltac:(simpl; lia) ltac:(simpl; lia))))
    ltac:(lia))).
  - do 12 right. left.
  - left.
Defined.
