(* ===== verification/MemPlan.v ===== *)
(** * The memory planner

    Models [plan_memory] and its report data ([src/memory/plan.h],
    [src/memory/plan.cpp]).  [size_t] arithmetic wraps at 64 bits, [int]
    arithmetic and the conversion to [int] at 32 ([i32]: in C++ the overflow of a
    sum or product is undefined, so the theorems assume ranges that exclude it);
    [std::stable_sort] is a stable insertion sort.
    The text of [PlanFailure::report] is not modelled. *)

From Corelib Require Import ssreflect_rw.
From stdpp Require Import prelude gmap fin_maps list sorting strings pretty.
From S2P Require Import Prelude Backend.
Open Scope Z_scope.
Open Scope quench_scope.

Record ModelShape := mkShape {
  n_layers : Z; n_kv_layers : Z; n_kv_heads : Z; head_dim : Z;
  weight_bytes : Z; weight_cache_bytes : Z; mandatory_cache_bytes : Z
}.

Record FeatureSet := mkFeatures {
  cuda_graphs : bool; vision_tower_bytes : Z; spec_decode_bytes : Z; ssm_state_bytes : Z;
  recurrent_snapshot_bytes : Z; residual_ring_bytes : Z; swa_live_tokens : Z; n_swa_layers : Z
}.

Record ConcurrencyLimits := mkLimits {
  max_batch_size : Z; max_seq_len : Z; kv_block_size : Z; kv_block_bytes_per_layer : Z;
  min_kv_tokens : Z
}.

Record PlanInput := mkInput {
  model : ModelShape; features : FeatureSet; limits : ConcurrencyLimits;
  library_bytes : Z; budget_bytes : Z; context_bytes : Z; forward_scratch_bytes : Z;
  engine_persistent_bytes : Z
}.

Record KvPlan := mkKvPlan {
  kv_blocks : Z; blocks_per_seq : Z; swa_blocks : Z; kv_bytes : Z; swa_bytes : Z; below_floor : bool
}.

Record PlanLine := mkLine { line_name : string; line_tag : RegionTag; line_bytes : Z }.

Record MemoryPlan := mkPlan {
  model_resident : Z; optional_caches : Z; engine_persistent : Z; forward_scratch : Z;
  kv : KvPlan; pools : list PlanLine; library_reserve : Z; context_reserve : Z
}.

Record PlanLever := mkLever { change : string; frees : Z }.

Record PlanFailure := mkFailure {
  requested : Z; budget : Z; over_by : Z; f_lines : list PlanLine; levers : list PlanLever
}.

Record PlanResult := mkResult { plan_ok : bool; plan : MemoryPlan; failure : option PlanFailure }.

Definition push (name : string) (tag : RegionTag) (bytes : Z) (v : list PlanLine) : list PlanLine :=
  if 0 <? bytes then v ++ [mkLine name tag bytes] else v.

(** Stable sort, largest first: ties keep their order. *)
Section sort.
Context {A : Type} (key : A -> Z).
Fixpoint insert_desc (x : A) (l : list A) : list A :=
  match l with
  | [] => [x]
  | y :: l' => if key x <? key y then y :: insert_desc x l' else x :: l
  end.
Definition stable_sort_desc (l : list A) : list A := foldr insert_desc [] l.
End sort.

Definition pool_sum (l : list PlanLine) : Z := foldl (fun s p => s +64 line_bytes p) 0 l.

Definition plan_total (p : MemoryPlan) : Z :=
  foldl (fun s q => s +64 line_bytes q)
    (context_reserve p +64 library_reserve p +64 model_resident p +64 optional_caches p
     +64 engine_persistent p +64 forward_scratch p +64 kv_bytes (kv p) +64 swa_bytes (kv p))
    (pools p).

Definition unsorted_lines (p : MemoryPlan) : list PlanLine :=
  let v := push "model weights + mandatory caches" ModelResident (model_resident p) [] in
  let v := push "optional weight caches" ModelResident (optional_caches p) v in
  let v := push "KV pool" KvBlockPool (kv_bytes (kv p)) v in
  let v := push "KV pool (SWA group)" SwaBlockPool (swa_bytes (kv p)) v in
  let v := push "engine-persistent" EnginePersistent (engine_persistent p) v in
  let v := push "forward scratch" ForwardScratch (forward_scratch p) v in
  let v := foldl (fun v q => push (line_name q) (line_tag q) (line_bytes q) v) v (pools p) in
  let v := push "CUDA context + driver" Other (context_reserve p) v in
  push "library reserve (measured)" Other (library_reserve p) v.

Definition plan_lines (p : MemoryPlan) : list PlanLine := stable_sort_desc line_bytes (unsorted_lines p).

Definition fmt_lever (key : string) (from to : Z) : string :=
  (key +:+ " " +:+ pretty from +:+ " -> " +:+ pretty to)%string.

Section plan.
Context (i : PlanInput).

Definition bs : Z := if 0 <? kv_block_size (limits i) then kv_block_size (limits i) else 16.
Definition batch : Z := Z.max 1 (max_batch_size (limits i)).
(** [(n + bs - 1) / bs] on [int]s. *)
Definition ceil_int (n : Z) : Z := Z.quot (i32 (n + bs - 1)) bs.
Definition seqlen : Z := Z.max 0 (max_seq_len (limits i)).
Definition per_layer : Z := kv_block_bytes_per_layer (limits i).

Definition mandatory_caches : Z :=
  Z.min (mandatory_cache_bytes (model i)) (weight_cache_bytes (model i)).
Definition optional_cache_demand : Z := weight_cache_bytes (model i) -64 mandatory_caches.

Definition fixed_pools : list PlanLine :=
  push "residual FP16 ring" ResidualRing (residual_ring_bytes (features i))
    (push "recurrent snapshots" RecurrentSnapshots (recurrent_snapshot_bytes (features i))
       (push "SSM/GDN state" SsmState (ssm_state_bytes (features i)) [])).

(** Step 4: the sliding-window group. *)
Definition swa_on : bool :=
  (0 <? swa_live_tokens (features i)) && (0 <? n_swa_layers (features i)) &&
  (n_swa_layers (features i) <=? n_kv_layers (model i)).
Definition n_global_layers : Z :=
  if swa_on then n_kv_layers (model i) - n_swa_layers (features i) else n_kv_layers (model i).
Definition plan_swa_blocks : Z :=
  if swa_on then i32 (i32 (ceil_int (swa_live_tokens (features i)) + 1) * batch) else 0.
Definition plan_swa_bytes : Z :=
  if swa_on then u64 plan_swa_blocks *64 per_layer *64 u64 (n_swa_layers (features i)) else 0.

(** Step 5: what is committed before the KV pool. *)
Definition resident : Z := weight_bytes (model i) +64 mandatory_caches.
Definition persistent : Z :=
  engine_persistent_bytes i +64 vision_tower_bytes (features i) +64 spec_decode_bytes (features i).
Definition committed : Z :=
  context_bytes i +64 library_bytes i +64 resident +64 persistent +64 forward_scratch_bytes i
  +64 plan_swa_bytes +64 pool_sum fixed_pools.
Definition per_block : Z := per_layer *64 u64 (Z.max 0 n_global_layers).
Definition plan_blocks_per_seq : Z := ceil_int seqlen.
Definition want_blocks : Z := i32 (plan_blocks_per_seq * batch).

(** Optional caches and KV blocks granted from the residual. *)
Definition grant : Z * Z :=
  if (budget_bytes i <=? committed) || (per_block =? 0) then (0, 0)
  else
    let residual := budget_bytes i -64 committed in
    let kv_floor_bytes := u64 plan_blocks_per_seq *64 per_block in
    let grantable := if kv_floor_bytes <? residual then residual -64 kv_floor_bytes else 0 in
    let opt := Z.min optional_cache_demand grantable in
    let kv_residual := residual -64 opt in
    (opt, Z.min want_blocks (i32 (kv_residual / per_block))).

Definition granted_bytes : Z :=
  if (budget_bytes i <=? committed) || (per_block =? 0) then 0 else u64 (snd grant) *64 per_block.

Definition floor_blocks : Z :=
  if 0 <? min_kv_tokens (limits i) then ceil_int (min_kv_tokens (limits i)) else 0.

Definition the_plan : MemoryPlan :=
  mkPlan resident (fst grant) persistent (forward_scratch_bytes i)
    (mkKvPlan (snd grant) plan_blocks_per_seq plan_swa_blocks granted_bytes plan_swa_bytes
       ((0 <? floor_blocks) && (snd grant <? floor_blocks)))
    fixed_pools (library_bytes i) (context_bytes i).

Definition plan_levers (p : MemoryPlan) : list PlanLever :=
  let l1 := if (256 <? seqlen) && (0 <? per_block) then
              [mkLever (fmt_lever "runtime.max_seq_len" seqlen (Z.quot seqlen 2))
                 (u64 (blocks_per_seq (kv p) - ceil_int (Z.quot seqlen 2)) *64 per_block
                  *64 u64 batch)] else [] in
  let l2 := if 1 <? batch then
              [mkLever (fmt_lever "runtime.max_batch_size" batch (batch - 1))
                 (kv_bytes (kv p) / batch +64 swa_bytes (kv p) / batch)] else [] in
  let l3 := if 0 <? kv_bytes (kv p) then
              [mkLever "kv_cache.dtype f16 -> fp8" (kv_bytes (kv p) / 2)] else [] in
  let l4 := if mandatory_cache_bytes (model i) <? weight_cache_bytes (model i) then
              [mkLever "drop the optional weight caches"
                 (weight_cache_bytes (model i) -64 mandatory_cache_bytes (model i))] else [] in
  take 3 (stable_sort_desc frees (l1 ++ l2 ++ l3 ++ l4)).

Definition plan_failure (p : MemoryPlan) (total : Z) : PlanFailure :=
  let need := u64 floor_blocks *64 per_block in
  let ls := if below_floor (kv p) then
              (fun l => if bool_decide (line_tag l = KvBlockPool)
                        then mkLine (line_name l) (line_tag l) need else l) <$> plan_lines p
            else plan_lines p in
  let req := if below_floor (kv p) then total -64 kv_bytes (kv p) +64 need else total in
  mkFailure req (budget_bytes i)
    (if budget_bytes i <? req then req -64 budget_bytes i else 0) ls (plan_levers p).

Definition plan_memory : PlanResult :=
  let p := the_plan in
  let total := plan_total p in
  if (total <=? budget_bytes i) && negb (below_floor (kv p)) then mkResult true p None
  else mkResult false p (Some (plan_failure p total)).
End plan.

(** ** The plan in exact arithmetic *)

Section exact.
Context (i : PlanInput).

Definition swa_exact : Z :=
  if swa_on i then plan_swa_blocks i * per_layer i * n_swa_layers (features i) else 0.
Definition pools_exact : Z :=
  ssm_state_bytes (features i) + recurrent_snapshot_bytes (features i) +
  residual_ring_bytes (features i).
Definition resident_exact : Z := weight_bytes (model i) + mandatory_caches i.
Definition persistent_exact : Z :=
  engine_persistent_bytes i + vision_tower_bytes (features i) + spec_decode_bytes (features i).
(** Everything charged before the KV pool. *)
Definition committed_exact : Z :=
  context_bytes i + library_bytes i + resident_exact + persistent_exact +
  forward_scratch_bytes i + swa_exact + pools_exact.
Definition per_block_exact : Z := per_layer i * Z.max 0 (n_global_layers i).

(** Blocks all sequences of the batch can use. *)
Definition want_exact : Z := ceil_blocks (seqlen i) (bs i) * batch i.

(** Sizes of a real configuration: non-negative, and small enough that no
    [size_t] sum or product wraps and no [int] sum or product overflows. *)
Record plan_in_range : Prop := {
  pr_context : 0 <= context_bytes i; pr_library : 0 <= library_bytes i;
  pr_weight : 0 <= weight_bytes (model i); pr_mand : 0 <= mandatory_cache_bytes (model i);
  pr_cache : 0 <= weight_cache_bytes (model i) < 2 ^ 62;
  pr_ep : 0 <= engine_persistent_bytes i; pr_vt : 0 <= vision_tower_bytes (features i);
  pr_sd : 0 <= spec_decode_bytes (features i); pr_fs : 0 <= forward_scratch_bytes i;
  pr_ssm : 0 <= ssm_state_bytes (features i);
  pr_rec : 0 <= recurrent_snapshot_bytes (features i);
  pr_ring : 0 <= residual_ring_bytes (features i);
  pr_layer : 0 <= per_layer i;
  pr_committed : committed_exact < 2 ^ 62;
  pr_budget : 0 <= budget_bytes i < 2 ^ 62;
  pr_block : per_block_exact < 2 ^ 62;
  pr_floor : plan_blocks_per_seq i * per_block_exact < 2 ^ 62;
  pr_fit : 0 < per_block_exact -> budget_bytes i / per_block_exact < 2 ^ 31;
  pr_seq : seqlen i + bs i <= 2 ^ 31;
  pr_want : want_exact < 2 ^ 31;
  pr_min_kv : min_kv_tokens (limits i) + bs i <= 2 ^ 31;
  pr_swa_live : swa_on i = true -> swa_live_tokens (features i) + bs i <= 2 ^ 31;
  pr_swa : swa_on i = true ->
    (ceil_blocks (swa_live_tokens (features i)) (bs i) + 1) * batch i < 2 ^ 31
}.

Context (H : plan_in_range).

Lemma bs_pos : 0 < bs i.
Proof. unfold bs. case_zbool; lia. Qed.

Lemma ceil_int_eq n : 0 <= n -> n + bs i <= 2 ^ 31 -> ceil_int i n = ceil_blocks n (bs i).
Proof. intros. pose proof bs_pos. unfold ceil_int, ceil_blocks. by rewrite i32_small by lia. Qed.

Lemma blocks_per_seq_eq : plan_blocks_per_seq i = ceil_blocks (seqlen i) (bs i).
Proof. apply ceil_int_eq; [unfold seqlen; lia|apply (pr_seq H)]. Qed.

Lemma blocks_per_seq_nonneg : 0 <= plan_blocks_per_seq i.
Proof. rw blocks_per_seq_eq. apply ceil_blocks_nonneg; [unfold seqlen; lia|apply bs_pos]. Qed.

Lemma want_blocks_eq : want_blocks i = want_exact.
Proof.
  pose proof blocks_per_seq_nonneg as Hb. pose proof (pr_want H) as Hw.
  unfold want_blocks, want_exact in *. rw blocks_per_seq_eq in Hb |- *. apply i32_small.
  unfold batch in *. nia.
Qed.

Lemma plan_swa_blocks_eq :
  swa_on i = true ->
  plan_swa_blocks i = (ceil_blocks (swa_live_tokens (features i)) (bs i) + 1) * batch i /\
  0 <= plan_swa_blocks i.
Proof.
  intros E. pose proof (pr_swa H E) as Hs. pose proof (pr_swa_live H E).
  unfold plan_swa_blocks. rw E. unfold swa_on in E. rewrite !andb_true_iff in E.
  pose proof (ceil_blocks_nonneg (swa_live_tokens (features i)) (bs i) ltac:(lia) bs_pos).
  rewrite ceil_int_eq by lia. rewrite (i32_small (_ + 1)) by (unfold batch in *; nia).
  rewrite i32_small by (unfold batch in *; nia). split; [done|]. unfold batch in *. nia.
Qed.

Lemma swa_exact_nonneg : 0 <= swa_exact.
Proof.
  unfold swa_exact. destruct (swa_on i) eqn:E; [|done]. pose proof (pr_layer H).
  destruct (plan_swa_blocks_eq E) as [_ Hn]. unfold swa_on in E. rewrite !andb_true_iff in E.
  apply Z.mul_nonneg_nonneg; [|lia]. by apply Z.mul_nonneg_nonneg.
Qed.

Lemma mandatory_bounds : 0 <= mandatory_caches i <= weight_cache_bytes (model i).
Proof. destruct H. unfold mandatory_caches. lia. Qed.

Lemma pool_sum_fixed : pool_sum (fixed_pools i) = u64 pools_exact.
Proof.
  unfold pool_sum, fixed_pools, push, pools_exact. destruct H.
  repeat case_zbool; cbn [foldl app line_bytes]; u64_flat;
    first [f_equal; lia|rewrite u64_small by (unfold two64; lia); lia].
Qed.

Lemma committed_eq : committed i = committed_exact.
Proof.
  assert (plan_swa_bytes i = u64 swa_exact) as Es.
  { unfold plan_swa_bytes, swa_exact. case_match; [|done]. by u64_flat. }
  pose proof swa_exact_nonneg. pose proof mandatory_bounds. destruct H.
  unfold committed, resident, persistent, committed_exact, resident_exact, persistent_exact,
    pools_exact in *.
  rewrite pool_sum_fixed, Es. unfold pools_exact.
  u64_flat. apply u64_small. unfold two64. lia.
Qed.

Lemma per_block_eq : per_block i = per_block_exact /\ 0 <= per_block_exact.
Proof.
  destruct H. assert (0 <= per_block_exact) by (unfold per_block_exact; nia).
  unfold per_block. rewrite u64_mul_r. split; [|done]. apply u64_small.
  unfold per_block_exact, two64 in *. lia.
Qed.

(** What the residual grants, without wrap-around. *)
Lemma grant_spec :
  let opt := fst (grant i) in
  let blocks := snd (grant i) in
  0 <= opt <= optional_cache_demand i /\ 0 <= blocks <= want_blocks i /\
  granted_bytes i = blocks * per_block_exact /\
  (committed_exact <= budget_bytes i ->
   committed_exact + opt + blocks * per_block_exact <= budget_bytes i) /\
  (budget_bytes i < committed_exact -> opt = 0 /\ blocks = 0) /\
  (0 < opt -> plan_blocks_per_seq i <= blocks) /\
  (committed_exact < budget_bytes i -> 0 < per_block_exact -> blocks < want_blocks i ->
   budget_bytes i < committed_exact + opt + (blocks + 1) * per_block_exact).
Proof.
  pose proof committed_eq as Ec. destruct per_block_eq as [Eb Hb].
  pose proof blocks_per_seq_nonneg as Hs. pose proof mandatory_bounds as Hm. destruct H.
  assert (optional_cache_demand i = weight_cache_bytes (model i) - mandatory_caches i) as Eo.
  { apply u64_small. unfold two64. lia. }
  assert (0 <= want_blocks i /\ plan_blocks_per_seq i <= want_blocks i) as [Hw Hw'].
  { rw want_blocks_eq. unfold want_exact. rw -blocks_per_seq_eq. unfold batch. nia. }
  unfold grant, granted_bytes, grant. rewrite Ec, Eb.
  destruct (Z.leb_spec (budget_bytes i) committed_exact) as [Hle|Hlt]; simpl; [split_and!; lia|].
  destruct (Z.eqb_spec per_block_exact 0) as [Hz|Hnz]; simpl; [rewrite Hz in *; split_and!; lia|].
  pose proof swa_exact_nonneg.
  assert (0 <= committed_exact) as Hc0.
  { unfold committed_exact, resident_exact, persistent_exact, pools_exact. lia. }
  rewrite (u64_small (budget_bytes i - committed_exact)) by (unfold two64; lia).
  rewrite (u64_small (plan_blocks_per_seq i)) by (unfold two64; nia).
  rewrite (u64_small (plan_blocks_per_seq i * per_block_exact)) by (unfold two64; nia).
  set (residual := budget_bytes i - committed_exact) in *.
  set (fl := plan_blocks_per_seq i * per_block_exact) in *.
  assert (0 <= fl) by (unfold fl; nia).
  set (gr := if fl <? residual then residual -64 fl else 0).
  assert (0 <= gr <= residual /\ (0 < gr -> gr = residual - fl)) as [Hgr Hgr'].
  { unfold gr. case_zbool; [rewrite u64_small by (unfold two64; lia)|]; lia. }
  set (opt := Z.min (optional_cache_demand i) gr).
  assert (0 <= opt <= residual /\ opt <= optional_cache_demand i /\ (0 < opt -> fl <= residual - opt))
    as (Ho & Hod & Hof) by lia.
  rewrite (u64_small (residual - opt)) by (unfold two64; lia).
  set (q := (residual - opt) / per_block_exact).
  assert (q * per_block_exact <= residual - opt < (q + 1) * per_block_exact) as Hq.
  { unfold q. pose proof (Z.div_mod (residual - opt) per_block_exact ltac:(lia)).
    pose proof (Z.mod_pos_bound (residual - opt) per_block_exact ltac:(lia)). nia. }
  assert (0 <= q < 2 ^ 31) as Hq31.
  { split; [apply Z.div_pos; lia|]. specialize (pr_fit0 ltac:(lia)).
    eapply Z.le_lt_trans; [|exact pr_fit0]. apply Z.div_le_mono; lia. }
  rewrite i32_small by done. set (blocks := Z.min (want_blocks i) q).
  assert (0 <= blocks) by lia.
  rewrite (u64_small blocks) by (unfold two64; lia).
  assert (0 <= blocks * per_block_exact <= residual - opt) by (unfold blocks in *; nia).
  rewrite u64_small by (unfold two64; lia).
  split_and!; try lia. intros Hopt. specialize (Hof Hopt).
  destruct (decide (plan_blocks_per_seq i <= q)) as [|Hgt]; [lia|].
  assert ((q + 1) * per_block_exact <= fl) by (apply Z.mul_le_mono_nonneg_r; lia). lia.
Qed.
End exact.

(** ** The report lines *)

Definition lines_sum (l : list PlanLine) : Z := foldr (fun x s => line_bytes x + s) 0 l.

Lemma insert_desc_perm {A} (key : A -> Z) x l : insert_desc key x l ≡ₚ x :: l.
Proof.
  induction l as [|y l IH]; simpl; [done|]. case_match; [|done]. rw IH. by apply perm_swap.
Qed.

Lemma stable_sort_perm {A} (key : A -> Z) l : stable_sort_desc key l ≡ₚ l.
Proof. induction l as [|x l IH]; simpl; [done|]. by rw insert_desc_perm IH. Qed.

Lemma insert_desc_sorted {A} (key : A -> Z) x l :
  Sorted (fun a b => key b <= key a) l -> Sorted (fun a b => key b <= key a) (insert_desc key x l).
Proof.
  induction 1 as [|y l Hl IH Hy]; simpl; [repeat constructor|].
  destruct (Z.ltb_spec (key x) (key y)).
  - constructor; [done|]. destruct l as [|z l]; simpl; [by repeat constructor; lia|].
    apply HdRel_inv in Hy. case_match; constructor; lia.
  - constructor; [by constructor|]. constructor. lia.
Qed.

Lemma stable_sort_sorted {A} (key : A -> Z) l :
  Sorted (fun a b => key b <= key a) (stable_sort_desc key l).
Proof. induction l as [|x l IH]; simpl; [constructor|by apply insert_desc_sorted]. Qed.

#[export] Instance lines_sum_perm : Proper (Permutation ==> eq) lines_sum.
Proof. induction 1; simpl; lia. Qed.

Lemma lines_sum_app l k : lines_sum (l ++ k) = lines_sum l + lines_sum k.
Proof. induction l as [|x l IH]; simpl; lia. Qed.

Lemma lines_sum_push n t b v : 0 <= b -> lines_sum (push n t b v) = lines_sum v + b.
Proof. intros Hb. unfold push. case_zbool; [rw lines_sum_app /=|]; lia. Qed.

Lemma lines_sum_pools l v :
  Forall (fun q => 0 <= line_bytes q) l ->
  lines_sum (foldl (fun v q => push (line_name q) (line_tag q) (line_bytes q) v) v l) =
    lines_sum v + lines_sum l.
Proof.
  intros Hl. revert v. induction Hl as [|q l Hq Hl IH]; intros v; simpl; [lia|].
  rw IH lines_sum_push //. lia.
Qed.

(** Exact sum of a plan's charges. *)
Definition plan_sum (p : MemoryPlan) : Z :=
  context_reserve p + library_reserve p + model_resident p + optional_caches p +
  engine_persistent p + forward_scratch p + kv_bytes (kv p) + swa_bytes (kv p) + lines_sum (pools p).

Lemma plan_total_eq p : plan_total p = u64 (plan_sum p).
Proof.
  assert (forall l a, foldl (fun s q => s +64 line_bytes q) (u64 a) l = u64 (a + lines_sum l)) as Hf.
  { induction l as [|q l IH]; intros a; simpl; [by rw Z.add_0_r|].
    rw u64_add_l IH. f_equal. lia. }
  unfold plan_total. u64_flat. rw Hf. reflexivity.
Qed.

Definition nonneg_plan (p : MemoryPlan) : Prop :=
  0 <= context_reserve p /\ 0 <= library_reserve p /\ 0 <= model_resident p /\
  0 <= optional_caches p /\ 0 <= engine_persistent p /\ 0 <= forward_scratch p /\
  0 <= kv_bytes (kv p) /\ 0 <= swa_bytes (kv p) /\ Forall (fun q => 0 <= line_bytes q) (pools p).

Lemma unsorted_lines_sum p : nonneg_plan p -> lines_sum (unsorted_lines p) = plan_sum p.
Proof.
  intros (?&?&?&?&?&?&?&?&Hp). unfold unsorted_lines, plan_sum.
  rewrite !lines_sum_push, lines_sum_pools, !lines_sum_push by done. simpl. lia.
Qed.

Lemma the_plan_sum i :
  plan_in_range i ->
  nonneg_plan (the_plan i) /\
  plan_sum (the_plan i) = committed_exact i + fst (grant i) + snd (grant i) * per_block_exact i.
Proof.
  intros H. pose proof (swa_exact_nonneg i H) as Hs. pose proof (mandatory_bounds i H) as Hm.
  destruct (grant_spec i H) as (Ho & Hb & Hg & _). destruct (per_block_eq i H) as [_ Hpb].
  destruct H. unfold committed_exact in pr_committed0.
  unfold resident_exact, persistent_exact, pools_exact in pr_committed0.
  assert (plan_swa_bytes i = swa_exact i) as Es.
  { unfold plan_swa_bytes, swa_exact in *. case_match; [|done]. u64_flat. apply u64_small.
    unfold two64. lia. }
  assert (resident i = resident_exact i) as Er.
  { unfold resident, resident_exact. apply u64_small. unfold two64. lia. }
  assert (persistent i = persistent_exact i) as Ep.
  { unfold persistent, persistent_exact. u64_flat. apply u64_small. unfold two64. lia. }
  assert (lines_sum (fixed_pools i) = pools_exact i) as Ef.
  { unfold fixed_pools, pools_exact. rewrite !lines_sum_push by done. simpl. lia. }
  unfold nonneg_plan, plan_sum, the_plan, committed_exact. simpl. rw Es Er Ep Ef Hg.
  unfold resident_exact, persistent_exact. split; [|lia].
  split_and!; try lia; try (apply Z.mul_nonneg_nonneg; lia). unfold fixed_pools, push.
  repeat case_zbool; repeat (apply Forall_app; split); repeat constructor; simpl; lia.
Qed.


(** 8 layers, 4 KiB per block and layer, 1 GiB budget. *)
Definition demo_input : PlanInput :=
  mkInput (mkShape 8 8 8 128 (300 * 2 ^ 20) (200 * 2 ^ 20) (50 * 2 ^ 20))
    (mkFeatures true 0 0 (10 * 2 ^ 20) 0 0 0 0)
    (mkLimits 4 8192 16 4096 4096) (200 * 2 ^ 20) (2 ^ 30) (100 * 2 ^ 20) (50 * 2 ^ 20) (20 * 2 ^ 20).

Lemma demo_input_range : plan_in_range demo_input.
Proof. constructor; vm_compute; intuition discriminate. Qed.


(** The report adds up.  A plan's line items are sorted largest first and
    sum to its exact total, so the itemisation printed on failure accounts for
    every byte requested; at most three levers are offered, largest first. *)
Theorem plan_lines_account i :
  plan_in_range i ->
  let p := plan (plan_memory i) in
  lines_sum (plan_lines p) = plan_sum p /\
  Sorted (fun a b => line_bytes b <= line_bytes a) (plan_lines p) /\
  (length (plan_levers i p) <= 3)%nat /\
  Sorted (fun a b => frees b <= frees a) (plan_levers i p).
Proof.
  intros H. destruct (the_plan_sum i H) as [Hnn _].
  assert (plan (plan_memory i) = the_plan i) as Ep by (unfold plan_memory; by case_match).
  cbv zeta. rw Ep. split_and!.
  - unfold plan_lines. by rw stable_sort_perm unsorted_lines_sum.
  - apply stable_sort_sorted.
  - unfold plan_levers. rw length_take. lia.
  - unfold plan_levers. set (l := stable_sort_desc _ _).
    assert (Sorted (fun a b => frees b <= frees a) l) as Hl by apply stable_sort_sorted.
    revert Hl. generalize 3%nat as n. clearbody l. intros n Hl. revert n.
    induction Hl as [|x l Hl IH Hx]; intros [|n]; simpl; [constructor..|].
    constructor; [apply IH|]. destruct Hx, n; simpl; by constructor.
Qed.

Lemma plan_lines_account_witness :
  lines_sum (plan_lines (plan (plan_memory demo_input))) = plan_sum (plan (plan_memory demo_input)).
Proof. exact (proj1 (plan_lines_account demo_input demo_input_range)). Defined.
