(* ===== verification/Snapshots.v ===== *)
(** * The recurrent-state snapshot store

    Models [src/memory/recurrent_snapshot_store.cpp].  Entries are handed out as
    [shared_ptr]: the store's own references are [entries_], the requests' are
    the bag [held], and an entry's deleter (which recycles its buffer) runs when
    the last reference goes.  Device buffers are addresses; [cudaMalloc] and
    the asynchronous copy are arguments. *)

From Corelib Require Import ssreflect_rw.
From stdpp Require Import prelude gmap fin_maps list strings.
From S2P Require Import Prelude MemPlan.
Open Scope Z_scope.
Open Scope quench_scope.

Record Entry := mkEntry { e_key : Z; e_n_tokens : Z; e_data : Z }.

#[export] Instance Entry_eq_dec : EqDecision Entry.
Proof. solve_decision. Defined.

(** [lru_map_] holds each key's position in [lru_]. *)
Record RecurrentSnapshotStore := mkStore {
  entry_bytes_ : Z;
  capacity_ : Z;
  free_bufs : list Z;
  entries_ : gmap Z Entry;
  lru_ : list Z;
  held : list Entry
}.

Definition store_new : RecurrentSnapshotStore := mkStore 0 0 [] ∅ [] [].

Definition with_bufs (f : list Z) (s : RecurrentSnapshotStore) : RecurrentSnapshotStore :=
  mkStore (entry_bytes_ s) (capacity_ s) f (entries_ s) (lru_ s) (held s).
Definition with_entries (m : gmap Z Entry) (l : list Z) (s : RecurrentSnapshotStore) :
    RecurrentSnapshotStore :=
  mkStore (entry_bytes_ s) (capacity_ s) (free_bufs s) m l (held s).
Definition with_held (h : list Entry) (s : RecurrentSnapshotStore) : RecurrentSnapshotStore :=
  mkStore (entry_bytes_ s) (capacity_ s) (free_bufs s) (entries_ s) (lru_ s) h.

(** Eager allocation: stop at the first failed [cudaMalloc]. *)
Fixpoint alloc_bufs (n : nat) (i : Z) (cudaMalloc : Z -> Z) : list Z :=
  match n with
  | O => []
  | S n => if cudaMalloc i =? 0 then [] else cudaMalloc i :: alloc_bufs n (i + 1) cudaMalloc
  end.

Definition store_init (cudaMalloc : Z -> Z) (entry_bytes budget_bytes : Z)
    (s : RecurrentSnapshotStore) : RecurrentSnapshotStore :=
  let want := if 0 <? entry_bytes then i32 (budget_bytes / entry_bytes) else 0 in
  let s := mkStore entry_bytes (capacity_ s) (free_bufs s) (entries_ s) (lru_ s) (held s) in
  if want <=? 0 then s
  else
    let bufs := alloc_bufs (Z.to_nat want) 0 cudaMalloc in
    mkStore entry_bytes (Z.of_nat (length bufs)) bufs (entries_ s) (lru_ s) (held s).

Definition enabled (s : RecurrentSnapshotStore) : bool := 0 <? capacity_ s.
Definition contains (key : Z) (s : RecurrentSnapshotStore) : bool :=
  bool_decide (is_Some (entries_ s !! key)).

(** [find]: touch the key and hand out a reference. *)
Definition find (key : Z) (s : RecurrentSnapshotStore) : RecurrentSnapshotStore * option Entry :=
  match entries_ s !! key with
  | None => (s, None)
  | Some e =>
      let l := if bool_decide (key ∈ lru_ s) then list_erase key (lru_ s) ++ [key] else lru_ s in
      (with_held (held s ++ [e]) (with_entries (entries_ s) l s), Some e)
  end.

(** The deleter: recycle the buffer. *)
Definition recycle (e : Entry) (s : RecurrentSnapshotStore) : RecurrentSnapshotStore :=
  with_bufs (free_bufs s ++ [e_data e]) s.

(** [entries_.erase(key)]: the store's reference goes; the deleter runs unless a
    request still holds the entry. *)
Definition erase_entry (key : Z) (s : RecurrentSnapshotStore) : RecurrentSnapshotStore :=
  match entries_ s !! key with
  | None => s
  | Some e =>
      let s := with_entries (delete key (entries_ s)) (lru_ s) s in
      if bool_decide (e ∈ held s) then s else recycle e s
  end.

(** A request drops one reference. *)
Fixpoint remove_one (e : Entry) (l : list Entry) : list Entry :=
  match l with
  | [] => []
  | x :: l => if bool_decide (x = e) then l else x :: remove_one e l
  end.

Definition drop_held (e : Entry) (s : RecurrentSnapshotStore) : RecurrentSnapshotStore :=
  if bool_decide (e ∈ held s) then
    let s := with_held (remove_one e (held s)) s in
    if bool_decide (e ∈ held s) || bool_decide (entries_ s !! e_key e = Some e) then s
    else recycle e s
  else s.

Definition pop_buf (s : RecurrentSnapshotStore) : RecurrentSnapshotStore * option Z :=
  match last (free_bufs s) with
  | None => (s, None)
  | Some p => (with_bufs (pop_back (free_bufs s)) s, Some p)
  end.

(** Evict from the LRU head until a buffer comes back; one entry per round. *)
Fixpoint evict_for_buffer (fuel : nat) (s : RecurrentSnapshotStore)
    : RecurrentSnapshotStore * option Z :=
  match fuel, lru_ s with
  | S fuel, victim :: rest =>
      let s := erase_entry victim (with_entries (entries_ s) rest s) in
      match pop_buf s with
      | (s, Some p) => (s, Some p)
      | (s, None) => evict_for_buffer fuel s
      end
  | _, _ => (s, None)
  end.

Definition acquire_buffer_ (s : RecurrentSnapshotStore) : RecurrentSnapshotStore * option Z :=
  match pop_buf s with
  | (s, Some p) => (s, Some p)
  | (s, None) => evict_for_buffer (length (lru_ s)) s
  end.

(** [src] is the source pointer, [copy_ok] whether [cudaMemcpyAsync] succeeds. *)
Definition save (key n_tokens src : Z) (copy_ok : bool) (s : RecurrentSnapshotStore)
    : RecurrentSnapshotStore * bool :=
  if negb (enabled s) || (src =? 0) || (n_tokens <=? 0) then (s, false)
  else match entries_ s !! key with
       | Some _ => (s, true)
       | None =>
           match acquire_buffer_ s with
           | (s, None) => (s, false)
           | (s, Some buf) =>
               if negb copy_ok then (with_bufs (free_bufs s ++ [buf]) s, false)
               else (with_entries (<[key := mkEntry key n_tokens buf]> (entries_ s))
                       (lru_ s ++ [key]) s, true)
           end
       end.

Definition clear (s : RecurrentSnapshotStore) : RecurrentSnapshotStore :=
  let s1 := with_entries ∅ [] s in
  foldl (fun s e => if bool_decide (e ∈ held s) then s else recycle e s) s1
    (snd <$> map_to_list (entries_ s)).

(** ** No buffer is reused while someone may read it *)

(** [d] is the buffer of an entry the store or a request still references. *)
Definition live (d : Z) (s : RecurrentSnapshotStore) : Prop :=
  (exists k e, entries_ s !! k = Some e /\ e_data e = d) \/ (exists e, e ∈ held s /\ e_data e = d).

Record store_inv (bufs : list Z) (s : RecurrentSnapshotStore) : Prop := {
  st_nodup : NoDup (free_bufs s);
  st_disj : forall d, d ∈ free_bufs s -> ~ live d s;
  st_all : forall d, d ∈ bufs <-> d ∈ free_bufs s \/ live d s;
  st_key : forall k e, entries_ s !! k = Some e -> e_key e = k;
  st_uniq : forall e1 e2, (entries_ s !! e_key e1 = Some e1 \/ e1 ∈ held s) ->
                          (entries_ s !! e_key e2 = Some e2 \/ e2 ∈ held s) ->
                          e_data e1 = e_data e2 -> e1 = e2;
  st_lru : NoDup (lru_ s);
  st_dom : forall k, k ∈ lru_ s <-> is_Some (entries_ s !! k)
}.

(** The same, with an allocated buffer [p] in the caller's hands. *)
Definition store_inv_taken (bufs : list Z) (p : Z) (s : RecurrentSnapshotStore) : Prop :=
  store_inv bufs (with_bufs (free_bufs s ++ [p]) s).

Lemma elem_of_remove_one e x l : x ∈ remove_one e l -> x ∈ l.
Proof.
  induction l as [|y l IH]; simpl; [done|]. case_bool_decide; [by right|].
  rw !elem_of_cons. intros [?|?]; auto.
Qed.

Lemma remove_one_other e x l : x ≠ e -> x ∈ l -> x ∈ remove_one e l.
Proof.
  intros Hne. induction l as [|y l IH]; simpl; [done|]. rw elem_of_cons.
  case_bool_decide as Hy; [|rw elem_of_cons]; intros [?|?]; subst; auto. done.
Qed.

Lemma pop_buf_spec bufs s s' r :
  store_inv bufs s -> pop_buf s = (s', r) ->
  entries_ s' = entries_ s /\ lru_ s' = lru_ s /\ held s' = held s /\ capacity_ s' = capacity_ s /\
  match r with
  | Some p => store_inv_taken bufs p s'
  | None => s' = s /\ free_bufs s = []
  end.
Proof.
  intros Hinv. unfold pop_buf. destruct (last (free_bufs s)) as [p|] eqn:E; intros [= <- <-].
  - split_and!; try done. unfold store_inv_taken. simpl. rw -(last_pop_back _ _ E). by destruct s.
  - split_and!; try done. by apply last_None_nil.
Qed.

(** Erasing the store's reference keeps the invariant; the lru list is the
    caller's business. *)
Lemma erase_entry_inv bufs key rest s :
  store_inv bufs s -> lru_ s = key :: rest ->
  let s' := erase_entry key (with_entries (entries_ s) rest s) in
  store_inv bufs s' /\ lru_ s' = rest /\ held s' = held s /\
  entries_ s' = delete key (entries_ s) /\ capacity_ s' = capacity_ s.
Proof.
  intros [Hnd Hdis Hall Hkey Hun Hlru Hdom] El.
  destruct (proj1 (Hdom key)) as [e He]; [rw El; left|]. cbv zeta.
  unfold erase_entry. cbn [entries_ with_entries]. rw He. cbn [held with_entries lru_].
  rw El in Hlru. apply NoDup_cons in Hlru as [Hnk Hlru].
  assert (forall k, k ∈ rest <-> is_Some (delete key (entries_ s) !! k)) as Hdom'.
  { intros k. specialize (Hdom k). rw El elem_of_cons in Hdom. rw lookup_delete_is_Some.
    destruct (decide (k = key)) as [->|]; [tauto|]. rw -Hdom. naive_solver. }
  assert (forall k e', delete key (entries_ s) !! k = Some e' -> e_key e' = k) as Hkey'.
  { intros k e' [_ Hk]%lookup_delete_Some. auto. }
  assert (forall e1, (delete key (entries_ s) !! e_key e1 = Some e1 \/ e1 ∈ held s) ->
                     (entries_ s !! e_key e1 = Some e1 \/ e1 ∈ held s)) as Hsub.
  { intros e1 [[_ ?]%lookup_delete_Some|?]; auto. }
  case_bool_decide as Hh.
  - split_and!; try done. constructor; simpl; try done; eauto.
    + intros d Hd. unfold live. simpl. intros [(k & e' & [_ Hk]%lookup_delete_Some & Hd')|Hl]; apply (Hdis d Hd); [left|by right].
      by exists k, e'.
    + intros d. rw Hall. unfold live. simpl. split; (intros [?|[(k & e' & Hk & Hd)|?]]; [by left| |by right; right]).
      * right. destruct (decide (k = key)) as [->|]; [right; exists e; naive_solver|].
        left. exists k, e'. by rw lookup_delete_ne.
      * right. left. apply lookup_delete_Some in Hk as [_ ?]. by exists k, e'.
  - split_and!; try done. unfold recycle. constructor; simpl; try done; eauto.
    + apply NoDup_app. split_and!; [done| |apply NoDup_singleton].
      intros d Hd ->%list_elem_of_singleton. apply (Hdis _ Hd). left. by exists key, e.
    + intros d. rw elem_of_app list_elem_of_singleton. unfold live. simpl.
      intros [Hd| ->] [(k & e' & [Hne Hk]%lookup_delete_Some & Hd')|(e' & He' & Hd')].
      * apply (Hdis _ Hd). left. by exists k, e'.
      * apply (Hdis _ Hd). right. by exists e'.
      * apply Hne. rewrite <- (Hkey _ _ He), <- (Hkey _ _ Hk). f_equal. apply Hun; [..|done].
        -- left. by rw (Hkey _ _ He).
        -- left. by rw (Hkey _ _ Hk).
      * apply Hh. assert (e' = e) as <-; [|done]. apply Hun; [by right| |done].
        left. by rw (Hkey _ _ He).
    + intros d. rw Hall elem_of_app list_elem_of_singleton. unfold live. simpl. split.
      * intros [?|[(k & e' & Hk & Hd)|?]]; [tauto| |tauto].
        destruct (decide (k = key)) as [->|]; [left; right; naive_solver|].
        right. left. exists k, e'. by rw lookup_delete_ne.
      * intros [[?| ->]|[(k & e' & [_ Hk]%lookup_delete_Some & Hd)|?]]; [by left| |..].
        -- right. left. by exists key, e.
        -- right. left. by exists k, e'.
        -- by right; right.
Qed.

Lemma evict_for_buffer_inv bufs fuel s s' r :
  store_inv bufs s -> (length (lru_ s) <= fuel)%nat -> free_bufs s = [] ->
  evict_for_buffer fuel s = (s', r) ->
  held s' = held s /\ capacity_ s' = capacity_ s /\
  (forall k, is_Some (entries_ s' !! k) -> is_Some (entries_ s !! k)) /\
  match r with
  | Some p => store_inv_taken bufs p s'
  | None => store_inv bufs s' /\ free_bufs s' = [] /\ lru_ s' = []
  end.
Proof.
  revert s. induction fuel as [|fuel IH]; intros s Hinv Hlen Hf; simpl.
  { intros [= <- <-]. destruct (lru_ s) eqn:E; simpl in Hlen; [|lia]. by split_and!. }
  destruct (lru_ s) as [|v rest] eqn:El; [intros [= <- <-]; by split_and!|].
  destruct (erase_entry_inv bufs v rest s Hinv El) as (Hinv1 & El1 & Eh1 & Em1 & Ec1).
  set (s1 := erase_entry v _) in *.
  destruct (pop_buf s1) as [s2 [p|]] eqn:Ep;
    destruct (pop_buf_spec _ _ _ _ Hinv1 Ep) as (E1 & E2 & E3 & E4 & Hr).
  - intros [= <- <-]. rw E1 E3 E4 Em1. split_and!; try done.
    intros k [_ ?]%lookup_delete_is_Some. done.
  - destruct Hr as [-> Hf1]. intros E. simpl in Hlen.
    destruct (IH s1 Hinv1 ltac:(rw El1; lia) Hf1 E) as (Hh & Hc & Hm & Hr).
    split_and!; [congruence|congruence| |done]. intros k Hk. apply Hm in Hk. rw Em1 in Hk.
    by apply lookup_delete_is_Some in Hk as [_ ?].
Qed.

Lemma acquire_buffer_inv bufs s s' r :
  store_inv bufs s -> acquire_buffer_ s = (s', r) ->
  held s' = held s /\ capacity_ s' = capacity_ s /\
  (forall k, is_Some (entries_ s' !! k) -> is_Some (entries_ s !! k)) /\
  match r with
  | Some p => store_inv_taken bufs p s'
  | None => store_inv bufs s' /\ free_bufs s' = [] /\ lru_ s' = []
  end.
Proof.
  intros Hinv. unfold acquire_buffer_.
  destruct (pop_buf s) as [s2 [p|]] eqn:Ep;
    destruct (pop_buf_spec _ _ _ _ Hinv Ep) as (E1 & E2 & E3 & E4 & Hr).
  - intros [= <- <-]. rw E1 E3 E4. by split_and!.
  - destruct Hr as [-> Hf1]. by apply evict_for_buffer_inv.
Qed.

(** Storing a new entry in a taken buffer. *)
Lemma store_insert_inv bufs p key n s :
  store_inv_taken bufs p s -> entries_ s !! key = None ->
  store_inv bufs (with_entries (<[key := mkEntry key n p]> (entries_ s)) (lru_ s ++ [key]) s).
Proof.
  intros [Hnd Hdis Hall Hkey Hun Hlru Hdom] Hn. simpl in *.
  apply NoDup_app in Hnd as (Hnd & Hdj & _).
  assert (~ live p s) as Hp by (apply (Hdis p); set_solver).
  assert (forall k e, <[key := mkEntry key n p]> (entries_ s) !! k = Some e ->
            (k = key /\ e = mkEntry key n p) \/ entries_ s !! k = Some e) as Hins.
  { intros k e [[<- <-]|[_ ?]]%lookup_insert_Some; auto. }
  assert (forall e, (<[key := mkEntry key n p]> (entries_ s) !! e_key e = Some e \/ e ∈ held s) ->
            e = mkEntry key n p \/ (entries_ s !! e_key e = Some e \/ e ∈ held s)) as Hown.
  { intros e [[[? ?]|?]%Hins|?]; auto. }
  assert (forall e, entries_ s !! e_key e = Some e \/ e ∈ held s -> e_data e ≠ p) as Hnp.
  { intros e [He|He] <-; apply Hp; [left; by exists (e_key e), e|right; by exists e]. }
  constructor; simpl; try done.
  - intros d Hd [(k & e & [[-> ->]|Hk]%Hins & He)|Hl].
    + simpl in He. subst. apply (Hdj d Hd). set_solver.
    + apply (Hdis d ltac:(set_solver)). left. by exists k, e.
    + apply (Hdis d ltac:(set_solver)). by right.
  - intros d. rw Hall elem_of_app list_elem_of_singleton. unfold live. simpl. split.
    + intros [[?| ->]|[(k & e & Hk & He)|?]]; [by left| | |by right; right].
      * right. left. exists key. eexists. by rw lookup_insert_eq.
      * right. left. exists k, e. rewrite lookup_insert_ne; [done|]. by intros ->; rw Hk in Hn.
    + intros [?|[(k & e & [[-> ->]|Hk]%Hins & He)|?]]; [by left; left| | |by right; right].
      * left. right. by subst.
      * right. left. by exists k, e.
  - intros k e [[-> ->]|Hk]%Hins; [done|]. by apply Hkey.
  - intros e1 e2 [->|H1]%Hown [->|H2]%Hown Hd; [done|..]; simpl in *.
    + by exfalso; apply (Hnp _ H2).
    + by exfalso; apply (Hnp _ H1).
    + by apply Hun.
  - apply NoDup_app. split_and!; [done| |apply NoDup_singleton].
    intros k Hk ->%list_elem_of_singleton. apply Hdom in Hk as [? ?]. congruence.
  - intros k. rw elem_of_app list_elem_of_singleton Hdom.
    destruct (decide (k = key)) as [->|]; [rw lookup_insert_eq; naive_solver|].
    rw lookup_insert_ne //. naive_solver.
Qed.

Lemma save_inv bufs key n src ok s s' r :
  store_inv bufs s -> save key n src ok s = (s', r) ->
  store_inv bufs s' /\ held s' = held s /\ capacity_ s' = capacity_ s.
Proof.
  intros Hinv. unfold save. case_match; [by intros [= <- <-]|].
  destruct (entries_ s !! key) eqn:Ek; [by intros [= <- <-]|].
  destruct (acquire_buffer_ s) as [s1 [p|]] eqn:Ea;
    destruct (acquire_buffer_inv _ _ _ _ Hinv Ea) as (Eh & Ec & Hm & Hr).
  - destruct ok; intros [= <- <-]; [|done]. split_and!; try done. apply store_insert_inv; [done|].
    destruct (entries_ s1 !! key) eqn:E1; [|done]. destruct (Hm key); [by eexists|congruence].
  - intros [= <- <-]. by destruct Hr.
Qed.

Lemma find_inv bufs key s s' r :
  store_inv bufs s -> find key s = (s', r) -> store_inv bufs s' /\ capacity_ s' = capacity_ s.
Proof.
  intros [Hnd Hdis Hall Hkey Hun Hlru Hdom]. unfold find.
  destruct (entries_ s !! key) as [e|] eqn:Ek; [|intros [= <- <-]; by split].
  pose proof (Hkey _ _ Ek) as Hke. assert (key ∈ lru_ s) as Hin by (apply Hdom; by eexists).
  rewrite bool_decide_eq_true_2 by done. intros [= <- <-]. split; [|done].
  assert (forall d, live d (with_held (held s ++ [e])
            (with_entries (entries_ s) (list_erase key (lru_ s) ++ [key]) s)) <-> live d s) as Hlive.
  { intros d. unfold live. simpl. split.
    - intros [?|(e' & [He|He]%elem_of_app & Hd)]; [by left|right; by exists e'|].
      apply list_elem_of_singleton in He as ->. left. by exists key, e.
    - intros [?|(e' & He & Hd)]; [by left|]. right. exists e'. by rw elem_of_app; auto. }
  assert (forall e', entries_ s !! e_key e' = Some e' \/ e' ∈ held s ++ [e] ->
                     entries_ s !! e_key e' = Some e' \/ e' ∈ held s) as Hown.
  { intros e' [?|[?|He]%elem_of_app]; auto. apply list_elem_of_singleton in He as ->.
    left. by rw Hke. }
  constructor; simpl; try done.
  - intros d Hd. rw Hlive. by apply Hdis.
  - intros d. by rw Hlive.
  - intros e1 e2 H1%Hown H2%Hown. by apply Hun.
  - apply NoDup_app. split_and!; [by apply NoDup_list_erase| |apply NoDup_singleton].
    intros x Hx ->%list_elem_of_singleton. by apply elem_of_list_erase in Hx as [? _].
  - intros k. rw elem_of_app list_elem_of_singleton elem_of_list_erase -Hdom.
    destruct (decide (k = key)) as [->|]; naive_solver.
Qed.

Lemma drop_held_inv bufs e s : store_inv bufs s -> store_inv bufs (drop_held e s) /\
  capacity_ (drop_held e s) = capacity_ s.
Proof.
  intros [Hnd Hdis Hall Hkey Hun Hlru Hdom]. unfold drop_held.
  case_bool_decide as Hin; [|by split]. set (h := remove_one e (held s)).
  assert (forall e', e' ∈ h -> e' ∈ held s) as Hsub by (intros e'; apply elem_of_remove_one).
  assert (forall e', e' ≠ e -> e' ∈ held s -> e' ∈ h) as Hkeep by (intros e'; apply remove_one_other).
  cbn [held with_held entries_].
  assert (forall e', entries_ s !! e_key e' = Some e' \/ e' ∈ h ->
                     entries_ s !! e_key e' = Some e' \/ e' ∈ held s) as Hown by naive_solver.
  destruct (decide (e ∈ h \/ entries_ s !! e_key e = Some e)) as [Hstill|Hgone].
  - assert (bool_decide (e ∈ h) || bool_decide (entries_ s !! e_key e = Some e) = true) as ->.
    { apply orb_true_iff. rw !bool_decide_eq_true. done. }
    split; [|done].
    assert (forall d, live d (with_held h s) <-> live d s) as Hlive.
    { intros d. unfold live. simpl. split.
      - intros [?|(e' & He & Hd)]; [by left|]. right. exists e'. auto.
      - intros [?|(e' & He & Hd)]; [by left|]. destruct (decide (e' = e)) as [->|]; [|right; exists e'; auto].
        destruct Hstill as [?|?]; [right; by exists e|left; by exists (e_key e), e]. }
    constructor; simpl; try done.
    + intros d Hd. rw Hlive. by apply Hdis.
    + intros d. by rw Hlive.
    + intros e1 e2 H1%Hown H2%Hown. by apply Hun.
  - assert (bool_decide (e ∈ h) || bool_decide (entries_ s !! e_key e = Some e) = false) as ->.
    { apply orb_false_iff. rw !bool_decide_eq_false. tauto. }
    split; [|done]. unfold recycle.
    assert (live (e_data e) s) as Hle by (right; by exists e).
    assert (~ live (e_data e) (with_held h s)) as Hnl.
    { unfold live. simpl. intros [(k & e' & Hk & Hd)|(e' & He' & Hd)]; apply Hgone.
      - right. assert (e' = e) as <-; [|by rw (Hkey _ _ Hk)]. apply Hun; [|by right|done].
        left. by rw (Hkey _ _ Hk).
      - left. assert (e' = e) as <-; [|done]. apply Hun; [right; auto|by right|done]. }
    assert (forall d, live d s <-> live d (with_held h s) \/ d = e_data e) as Hlive.
    { intros d. unfold live. simpl. split.
      - intros [?|(e' & He & Hd)]; [by left; left|].
        destruct (decide (e' = e)) as [->|]; [by right|]. left. right. exists e'. auto.
      - intros [[?|(e' & He & Hd)]| ->]; [by left|right; exists e'; auto|right; by exists e]. }
    constructor; simpl; try done.
    + apply NoDup_app. split_and!; [done| |apply NoDup_singleton].
      intros d Hd ->%list_elem_of_singleton. by apply (Hdis _ Hd).
    + intros d [Hd|Hd]%elem_of_app Hl; [apply (Hdis d Hd), Hlive; by left|].
      apply list_elem_of_singleton in Hd as ->. by apply Hnl.
    + intros d. rw Hall Hlive elem_of_app list_elem_of_singleton.
      change (live d (with_bufs _ _)) with (live d (with_held h s)). tauto.
    + intros e1 e2 H1%Hown H2%Hown. by apply Hun.
Qed.

Lemma clear_fold es s :
  foldl (fun s e => if bool_decide (e ∈ held s) then s else recycle e s) s es =
  with_bufs (free_bufs s ++ (e_data <$> filter (fun e => e ∉ held s) es)) s.
Proof.
  revert s. induction es as [|e es IH]; intros s; simpl.
  { rw app_nil_r. by destruct s. }
  rw IH filter_cons. case_bool_decide as Hh; [by rewrite decide_False by tauto|].
  rewrite decide_True by done. simpl. by rw -app_assoc.
Qed.

Lemma clear_inv bufs s : store_inv bufs s -> store_inv bufs (clear s) /\ capacity_ (clear s) = capacity_ s.
Proof.
  intros [Hnd Hdis Hall Hkey Hun Hlru Hdom]. unfold clear. rw clear_fold /=. split; [|done].
  set (es := filter _ _).
  assert (forall e, e ∈ es <-> e ∉ held s /\ entries_ s !! e_key e = Some e) as Hes.
  { intros e. unfold es. rw list_elem_of_filter list_elem_of_fmap. split.
    - intros [Hh ([k e'] & -> & Hk%elem_of_map_to_list)]. simpl in *. by rw (Hkey _ _ Hk).
    - intros [Hh Hk]. split; [done|]. exists (e_key e, e). split; [done|].
      by apply elem_of_map_to_list. }
  assert (NoDup es) as Hnde.
  { unfold es. apply NoDup_filter.
    assert (forall l : list (Z * Entry), NoDup l -> (forall k e, (k, e) ∈ l -> e_key e = k) ->
              NoDup l.*2) as Hgen.
    { induction 1 as [|[k e] l Hk Hl IH]; intros Hkeys; simpl; [constructor|].
      apply NoDup_cons. split; [|apply IH; intros; apply Hkeys; by right].
      intros ([k' e'] & -> & Hin)%list_elem_of_fmap. apply Hk. simpl in *.
      rewrite <- (Hkeys k e') by left. by rewrite (Hkeys k' e') by (by right). }
    apply Hgen; [apply NoDup_map_to_list|]. intros k e Hk%elem_of_map_to_list. by apply Hkey. }
  assert (forall d, live d (with_bufs (free_bufs s ++ (e_data <$> es)) (with_entries ∅ [] s)) <->
            exists e, e ∈ held s /\ e_data e = d) as Hlive.
  { intros d. unfold live. simpl. split; [|by right].
    intros [(k & e & Hk & _)|?]; [by apply lookup_empty_Some in Hk|done]. }
  constructor; simpl; try done.
  - apply NoDup_app. split_and!; [done| |].
    + intros d Hd (e & -> & [_ He]%Hes)%list_elem_of_fmap. apply (Hdis _ Hd). left.
      by exists (e_key e), e.
    + apply NoDup_fmap_2_strong; [|done]. intros e1 e2 [_ H1]%Hes [_ H2]%Hes. apply Hun; by left.
  - intros d Hd Hl%Hlive. destruct Hl as (e & He & <-).
    apply elem_of_app in Hd as [Hd|(e' & Hd & [Hh He']%Hes)%list_elem_of_fmap].
    + apply (Hdis _ Hd). right. by exists e.
    + apply Hh. assert (e' = e) as ->; [|done]. apply Hun; [by left|by right|done].
  - intros d. rw Hall Hlive elem_of_app list_elem_of_fmap. unfold live. split.
    + intros [?|[(k & e & Hk & <-)|?]]; [tauto| |tauto].
      destruct (decide (e ∈ held s)); [right; by exists e|]. left. right. exists e.
      split; [done|]. apply Hes. by rw (Hkey _ _ Hk).
    + intros [[?|(e & -> & [_ He]%Hes)]|?]; [tauto| |tauto]. right. left. by exists (e_key e), e.
  - intros e1 e2 [H1|H1] [H2|H2]; try (by apply lookup_empty_Some in H1); try (by apply lookup_empty_Some in H2).
    apply Hun; by right.
  - constructor.
  - intros k. rw elem_of_nil lookup_empty. split; [done|by intros [??]].
Qed.

(** One operation of the store or of a request holding entries. *)
Inductive store_step : RecurrentSnapshotStore -> RecurrentSnapshotStore -> Prop :=
| ss_find s key s' r : find key s = (s', r) -> store_step s s'
| ss_save s key n src ok s' r : save key n src ok s = (s', r) -> store_step s s'
| ss_drop s e : store_step s (drop_held e s)
| ss_clear s : store_step s (clear s).

Lemma store_step_inv bufs s s' :
  store_step s s' -> store_inv bufs s -> store_inv bufs s' /\ capacity_ s' = capacity_ s.
Proof.
  intros Hstep Hinv. destruct Hstep as [s key s' r E|s key n src ok s' r E|s e|s].
  - by eapply find_inv.
  - by destruct (save_inv _ _ _ _ _ _ _ _ Hinv E) as (? & _ & ?).
  - by apply drop_held_inv.
  - by apply clear_inv.
Qed.

Inductive store_reachable (s0 : RecurrentSnapshotStore) : RecurrentSnapshotStore -> Prop :=
| sr_init : store_reachable s0 s0
| sr_step s s' : store_reachable s0 s -> store_step s s' -> store_reachable s0 s'.

(** A store as [store_init] leaves it: distinct buffers, nothing stored. *)
Definition store_fresh (bufs : list Z) (s : RecurrentSnapshotStore) : Prop :=
  NoDup bufs /\ s = mkStore (entry_bytes_ s) (Z.of_nat (length bufs)) bufs ∅ [] [].

Lemma store_reachable_inv bufs s0 s :
  store_fresh bufs s0 -> store_reachable s0 s ->
  store_inv bufs s /\ capacity_ s = Z.of_nat (length bufs).
Proof.
  intros [Hnd E] Hr. induction Hr as [|s s' Hr [IH IHc] Hstep].
  - rw E. split; [|done]. constructor; simpl; try done.
    + intros d _ [(k & e & Hk & _)|(e & He & _)]; simpl in *; [by apply lookup_empty_Some in Hk|].
      by apply elem_of_nil in He.
    + intros d. split; [by left|]. intros [?|[(k & e & Hk & _)|(e & He & _)]]; simpl in *;
        [done|by apply lookup_empty_Some in Hk|by apply elem_of_nil in He].
    + intros e1 e2 [H1|H1]; [by apply lookup_empty_Some in H1|by apply elem_of_nil in H1].
    + constructor.
    + intros k. rw elem_of_nil lookup_empty. split; [done|by intros [??]].
  - destruct (store_step_inv _ _ _ Hstep IH) as [? ?]. split; [done|congruence].
Qed.


Definition demo_store : RecurrentSnapshotStore := mkStore 64 1 [4096] ∅ [] [].

