(* ===== verification/Scheduler.v ===== *)
(** * The continuous-batching scheduler

    Models [src/runtime/scheduler.cpp] with the fields of [Request] it reads
    ([src/runtime/request.h]).  Requests are shared objects: a pointer is a [Z]
    and the objects live in a heap, so [pending_], [active_] and the batches
    alias them as the [shared_ptr]s do.  What the scheduler needs from the KV
    manager and from the engine's prefix-reuse hook is the class [KvAdmission];
    [Admission.v] instantiates it with the KV manager and the snapshot store. *)

From Corelib Require Import ssreflect_rw.
From stdpp Require Import prelude gmap fin_maps list sorting.
From S2P Require Import Prelude MemPlan Snapshots.
Open Scope Z_scope.
Open Scope quench_scope.

(** ** Requests *)

Inductive RequestStatus := PENDING | PREFILLING | DECODING | FINISHED | CANCELLED.

#[export] Instance RequestStatus_eq_dec : EqDecision RequestStatus.
Proof. solve_decision. Defined.

Inductive CancelReason := NoReason | KvCapacity.

Record Request := mkRequest {
  id : Z;
  status : RequestStatus;
  input_tokens : list Z;
  output_tokens : list Z;
  prefill_offset : Z;
  cached_tokens : Z;
  recurrent_restore : option Entry;
  swa_restore : option Entry;
  image : bool;
  vision_emb : bool;
  qwen_patches : nat;
  n_vision_tokens : Z;
  vision_content_hash : Z;
  cancel_reason : CancelReason
}.

Definition null_request : Request :=
  mkRequest 0 PENDING [] [] 0 0 None None false false 0 0 0 NoReason.

Definition with_status (st : RequestStatus) (cr : CancelReason) (r : Request) : Request :=
  mkRequest (id r) st (input_tokens r) (output_tokens r) (prefill_offset r) (cached_tokens r)
    (recurrent_restore r) (swa_restore r) (image r) (vision_emb r) (qwen_patches r) (n_vision_tokens r)
    (vision_content_hash r) cr.
Definition with_offset (skip : Z) (r : Request) : Request :=
  mkRequest (id r) (status r) (input_tokens r) (output_tokens r) skip skip
    (recurrent_restore r) (swa_restore r) (image r) (vision_emb r) (qwen_patches r) (n_vision_tokens r)
    (vision_content_hash r) (cancel_reason r).
Definition with_restore (x y : option Entry) (r : Request) : Request :=
  mkRequest (id r) (status r) (input_tokens r) (output_tokens r) (prefill_offset r)
    (cached_tokens r) x y (image r) (vision_emb r) (qwen_patches r) (n_vision_tokens r)
    (vision_content_hash r) (cancel_reason r).

Definition num_input (r : Request) : Z := Z.of_nat (length (input_tokens r)).
Definition context_len (r : Request) : Z :=
  Z.of_nat (length (input_tokens r) + length (output_tokens r)).

Notation heap := (gmap Z Request).
Definition deref (h : heap) (p : Z) : Request := default null_request (h !! p).

(** ** What the scheduler is given *)

Class KvAdmission (E : Type) := {
  kv_block_size : E -> Z;
  kv_total_blocks : E -> Z;
  kv_prefix_caching_enabled : E -> bool;
  kv_can_allocate : Z -> E -> bool;
  kv_allocate_blocks : Z -> Z -> E -> E * bool;
  kv_allocate_blocks_with_prefix : Z -> list Z -> Z -> Z -> E -> E * Z;
  kv_free_sequence : Z -> E -> E;
  (** The hook [prefix_reuse_limit_], when set: it may attach a snapshot. *)
  kv_prefix_reuse_limit : E -> option (Request -> E -> E * Request * Z);
  (** Dropping the request's reference to an attached snapshot. *)
  kv_release_restore : option Entry -> E -> E
}.

Record Scheduler := mkScheduler {
  max_batch_size_ : Z;
  pending_dirty_ : bool;
  pending_ : list Z;
  active_ : list Z;
  has_kv_manager : bool
}.

Definition scheduler_new (max_batch_size : Z) : Scheduler :=
  mkScheduler max_batch_size false [] [] false.

Definition add_request (p : Z) (s : Scheduler) : Scheduler :=
  mkScheduler (max_batch_size_ s) true (pending_ s ++ [p]) (active_ s) (has_kv_manager s).

Definition has_pending (s : Scheduler) : bool := negb (bool_decide (pending_ s = [])).
Definition active_count (s : Scheduler) : Z := Z.of_nat (length (active_ s)).

Definition done_status (st : RequestStatus) : bool :=
  bool_decide (st = FINISHED) || bool_decide (st = CANCELLED).

Definition has_image (r : Request) : bool :=
  image r || negb (Nat.eqb (qwen_patches r) 0) || vision_emb r || (0 <? n_vision_tokens r).

(** Tokens skipped by the prefill after [reused] blocks were shared. *)
Definition prefill_skip (reused bs total : Z) : Z :=
  let skip := reused * bs in
  let skip := if total <=? skip then Z.quot total bs * bs else skip in
  if total <=? skip then total - 1 else skip.

Inductive Outcome := Promote | Leave | Drop.

Section schedule.
Context `{KvAdmission E}.

(** The memory-aware check for the request at [p], up to the promotion. *)
Definition admit_kv (p : Z) (h : heap) (e : E) : Outcome * heap * E :=
  let r := deref h p in
  let bs := kv_block_size e in
  let blocks_needed := ceil_blocks (context_len r) bs in
  if negb (kv_can_allocate blocks_needed e) then
    if kv_total_blocks e <? blocks_needed then (Drop, <[p := with_status CANCELLED KvCapacity r]> h, e)
    else (Leave, h, e)
  else
    let cacheable := negb (has_image r) || negb (vision_content_hash r =? 0) in
    if kv_prefix_caching_enabled e && cacheable then
      let '(e, r, max_reuse) :=
        match kv_prefix_reuse_limit e with
        | Some f => f r e
        | None => (e, r, -1)
        end in
      let '(e, reused) :=
        kv_allocate_blocks_with_prefix (id r) (input_tokens r) max_reuse (vision_content_hash r) e in
      if reused <? 0 then (Leave, <[p := r]> h, e)
      else if (0 <=? max_reuse) && negb (reused =? max_reuse) then
        let e := kv_release_restore (recurrent_restore r) e in
        let r := with_restore None (swa_restore r) r in
        let e := kv_free_sequence (id r) e in
        let '(e, ok) := kv_allocate_blocks (id r) blocks_needed e in
        (if ok : bool then Promote else Leave, <[p := r]> h, e)
      else
        let r := if 0 <? reused then with_offset (prefill_skip reused bs (num_input r)) r else r in
        (Promote, <[p := r]> h, e)
    else
      let '(e, ok) := kv_allocate_blocks (id r) blocks_needed e in
      (if ok : bool then Promote else Leave, h, e).

Definition try_admit (kv : bool) (p : Z) (h : heap) (e : E) : Outcome * heap * E :=
  if kv then admit_kv p h e else (Promote, h, e).

(** The promotion loop: what stays in [pending_], [active_], the prefill batch,
    and the state left behind. *)
Fixpoint promote_loop (kv : bool) (max : Z) (ps act pf : list Z) (h : heap) (e : E)
    : list Z * list Z * list Z * heap * E :=
  match ps with
  | [] => ([], act, pf, h, e)
  | p :: ps' =>
      if Z.of_nat (length act) <? max then
        match try_admit kv p h e with
        | (Promote, h, e) =>
            promote_loop kv max ps' (act ++ [p]) (pf ++ [p])
              (<[p := with_status PREFILLING (cancel_reason (deref h p)) (deref h p)]> h) e
        | (Leave, h, e) =>
            let '(rest, act, pf, h, e) := promote_loop kv max ps' act pf h e in
            (p :: rest, act, pf, h, e)
        | (Drop, h, e) => promote_loop kv max ps' act pf h e
        end
      else (ps, act, pf, h, e)
  end.

Lemma promote_loop_rest kv max ps act pf h e rest act' pf' h' e' :
  promote_loop kv max ps act pf h e = (rest, act', pf', h', e') -> rest ⊆ ps.
Proof.
  revert act pf h e rest act' pf' h' e'.
  induction ps as [|p ps IH]; intros act pf h e rest act' pf' h' e'; simpl; [by intros [= <- _ _ _ _]|].
  case_match; [|by intros [= <- _ _ _ _]].
  destruct (try_admit kv p h e) as [[[] h1] e1].
  - intros Hl%IH. set_solver.
  - destruct (promote_loop _ _ _ _ _ _ _) as [[[[rest1 ?]?]?]?] eqn:E'. intros [= <- _ _ _ _].
    apply IH in E'. set_solver.
  - intros Hl%IH. set_solver.
Qed.

Definition chunk_pending (r : Request) : bool :=
  bool_decide (status r = PREFILLING) && (0 <? prefill_offset r) &&
  (prefill_offset r <? num_input r).

(** [std::ranges::sort] is any permutation in ascending order. *)
Context (sort : (Z -> Z) -> list Z -> list Z).

Definition schedule (s : Scheduler) (h : heap) (e : E)
    : Scheduler * heap * E * (list Z * list Z) :=
  let act := List.filter (fun p => negb (done_status (status (deref h p)))) (active_ s) in
  let ps := if pending_dirty_ s then sort (fun p => num_input (deref h p)) (pending_ s)
            else pending_ s in
  let '(rest, act, pf, h, e) := promote_loop (has_kv_manager s) (max_batch_size_ s) ps act [] h e in
  let pf := foldl (fun pf p => if chunk_pending (deref h p) && negb (bool_decide (p ∈ pf))
                               then pf ++ [p] else pf) pf act in
  let dec := List.filter (fun p => bool_decide (status (deref h p) = DECODING)) act in
  (mkScheduler (max_batch_size_ s) false rest act (has_kv_manager s), h, e, (pf, dec)).
End schedule.

(** ** What the admission interface promises *)

(** [e'] differs from [e] at most in the blocks of sequence [q]. *)
Record kv_frame {E} `{KvAdmission E} (ok : E -> Prop) (tbl : Z -> E -> list Z) (q : Z) (e e' : E)
    : Prop := {
  fr_ok : ok e';
  fr_bs : kv_block_size e' = kv_block_size e;
  fr_total : kv_total_blocks e' = kv_total_blocks e;
  fr_table : forall q', q' ≠ q -> tbl q' e' = tbl q' e
}.

Class KvAdmissionOk (E : Type) `{KvAdmission E} := {
  kv_ok : E -> Prop;
  kv_table : Z -> E -> list Z;
  kv_bs_pos e : kv_ok e -> 0 < kv_block_size e;
  kv_allocate_law q n e e' ok :
    kv_ok e -> kv_allocate_blocks q n e = (e', ok) ->
    kv_frame kv_ok kv_table q e e' /\
    Z.of_nat (length (kv_table q e')) =
      Z.of_nat (length (kv_table q e)) + (if ok : bool then Z.max 0 n else 0);
  kv_prefix_law q tokens m salt e e' r :
    kv_ok e -> kv_prefix_caching_enabled e = true -> kv_table q e = [] ->
    kv_allocate_blocks_with_prefix q tokens m salt e = (e', r) ->
    kv_frame kv_ok kv_table q e e' /\
    (r < 0 /\ kv_table q e' = [] \/
     0 <= r /\ r * kv_block_size e <= Z.of_nat (length tokens) /\
     Z.of_nat (length (kv_table q e')) = ceil_blocks (Z.of_nat (length tokens)) (kv_block_size e));
  kv_free_law q e :
    kv_ok e -> kv_frame kv_ok kv_table q e (kv_free_sequence q e) /\
               kv_table q (kv_free_sequence q e) = [];
  kv_limit_law f r e e' r' m :
    kv_ok e -> kv_prefix_reuse_limit e = Some f -> f r e = (e', r', m) ->
    (exists x y, r' = with_restore x y r) /\ (forall q, kv_frame kv_ok kv_table q e e') /\
    kv_prefix_caching_enabled e' = kv_prefix_caching_enabled e;
  kv_release_law x e : kv_ok e -> forall q, kv_frame kv_ok kv_table q e (kv_release_restore x e);
}.

Definition same_request (r r' : Request) : Prop :=
  id r' = id r /\ input_tokens r' = input_tokens r /\ output_tokens r' = output_tokens r /\
  status r' = status r.

Lemma deref_insert h p r q : deref (<[p := r]> h) q = if decide (q = p) then r else deref h q.
Proof. unfold deref. destruct (decide (q = p)) as [->|]; by simplify_map_eq. Qed.

Lemma prefill_skip_bounds reused bs total :
  0 < bs -> 0 < reused -> reused * bs <= total -> 0 <= prefill_skip reused bs total < total.
Proof.
  intros Hbs Hr Hle. unfold prefill_skip. cbv zeta. assert (0 < reused * bs) by nia.
  rewrite Z.quot_div_nonneg by lia. pose proof (Z.mul_div_le total bs Hbs).
  pose proof (Z.div_pos total bs ltac:(lia) Hbs).
  assert (0 <= total / bs * bs) by nia.
  destruct (Z.leb_spec total (reused * bs)); [destruct (Z.leb_spec total (total / bs * bs))|];
    [|destruct (Z.leb_spec total (reused * bs))|]; try lia.
  all: destruct (Z.leb_spec total (reused * bs)); lia.
Qed.

Section laws.
Context `{KvAdmissionOk E}.

Lemma frame_refl q e : kv_ok e -> kv_frame kv_ok kv_table q e e.
Proof. by constructor. Qed.

Lemma frame_trans q e1 e2 e3 :
  kv_frame kv_ok kv_table q e1 e2 -> kv_frame kv_ok kv_table q e2 e3 ->
  kv_frame kv_ok kv_table q e1 e3.
Proof.
  intros [? ? ? Ht] [? ? ? Ht']. constructor; try congruence. intros q' Hq. by rw Ht' // Ht.
Qed.

(** A request that may still be admitted: untouched since it was queued. *)
Record fresh_request (kv : bool) (h : heap) (e : E) (p : Z) : Prop := {
  fq_status : status (deref h p) = PENDING;
  fq_output : output_tokens (deref h p) = [];
  fq_offset : prefill_offset (deref h p) = 0;
  fq_table : kv = true -> kv_table (id (deref h p)) e = []
}.

(** What a promotion guarantees about the request and its block table. *)
Record admitted (kv : bool) (r r' : Request) (e' : E) : Prop := {
  ad_core : id r' = id r /\ input_tokens r' = input_tokens r /\ output_tokens r' = output_tokens r;
  ad_offset : 0 <= prefill_offset r' /\ (0 < num_input r -> prefill_offset r' < num_input r);
  ad_table : kv = true ->
    Z.of_nat (length (kv_table (id r) e')) = ceil_blocks (num_input r) (kv_block_size e')
}.

Definition admit_post (kv : bool) (p : Z) (h : heap) (e : E) (o : Outcome) (h' : heap) (e' : E)
    : Prop :=
  kv_frame kv_ok kv_table (id (deref h p)) e e' /\ (forall q, q ≠ p -> deref h' q = deref h q) /\
  match o with
  | Promote => status (deref h' p) = PENDING /\ admitted kv (deref h p) (deref h' p) e'
  | Leave => same_request (deref h p) (deref h' p) /\ fresh_request kv h' e' p
  | Drop => deref h' p = with_status CANCELLED KvCapacity (deref h p) /\
            kv_table (id (deref h p)) e' = kv_table (id (deref h p)) e
  end.

Lemma context_fresh kv h e p : fresh_request kv h e p -> context_len (deref h p) = num_input (deref h p).
Proof. intros [_ Ho _ _]. unfold context_len, num_input. rw Ho /=. lia. Qed.

Lemma ceil_blocks_max n bs : 0 < bs -> 0 <= n -> Z.max 0 (ceil_blocks n bs) = ceil_blocks n bs.
Proof. intros. pose proof (ceil_blocks_nonneg n bs). lia. Qed.

Lemma leave_fresh kv h e e' p r' :
  fresh_request kv h e p -> (exists x y, r' = with_restore x y (deref h p)) ->
  (kv = true -> kv_table (id (deref h p)) e' = []) ->
  same_request (deref h p) (deref (<[p := r']> h) p) /\ fresh_request kv (<[p := r']> h) e' p.
Proof.
  intros [] (x & y & ->) Ht. rw deref_insert decide_True //. split; [done|].
  constructor; rw deref_insert decide_True //.
Qed.

Lemma admitted_skip h e e' p r' reused :
  kv_ok e -> fresh_request true h e p -> (exists x y, r' = with_restore x y (deref h p)) ->
  0 <= reused -> reused * kv_block_size e <= num_input (deref h p) ->
  kv_block_size e' = kv_block_size e ->
  Z.of_nat (length (kv_table (id (deref h p)) e')) = ceil_blocks (num_input (deref h p)) (kv_block_size e) ->
  let r' := if 0 <? reused then with_offset (prefill_skip reused (kv_block_size e) (num_input r')) r'
            else r' in
  status r' = PENDING /\ admitted true (deref h p) r' e'.
Proof.
  intros He [Hs Ho Hp _] (x & y & ->) Hr0 Hr Hbs Hl. pose proof (kv_bs_pos _ He).
  change (num_input (with_restore x y (deref h p))) with (num_input (deref h p)).
  destruct (Z.ltb_spec 0 reused); simpl; (split; [done|]); constructor; simpl; rewrite ?Hbs; try done.
  - pose proof (prefill_skip_bounds reused (kv_block_size e) (num_input (deref h p))). lia.
  - rw Hp. lia.
Qed.

(** The fallback on a reuse mismatch: everything is given back first. *)
Lemma full_prefill_post p h e e2 x r1 e3 ok :
  kv_ok e -> fresh_request true h e p -> kv_frame kv_ok kv_table (id (deref h p)) e e2 ->
  (exists x y, r1 = with_restore x y (deref h p)) ->
  kv_allocate_blocks (id (deref h p)) (ceil_blocks (num_input (deref h p)) (kv_block_size e))
    (kv_free_sequence (id (deref h p)) (kv_release_restore x e2)) = (e3, ok) ->
  admit_post true p h e (if ok : bool then Promote else Leave) (<[p := r1]> h) e3.
Proof.
  intros He Hf Hfr Hx Eb. pose proof Hf as [Hs Ho Hp _]. pose proof (kv_bs_pos _ He) as Hbs.
  pose proof (kv_release_law x e2 (fr_ok _ _ _ _ _ Hfr)) as Hrel.
  destruct (kv_free_law (id (deref h p)) _ (fr_ok _ _ _ _ _ (Hrel 0))) as [Hfree Hnil].
  destruct (kv_allocate_law _ _ _ _ _ (fr_ok _ _ _ _ _ Hfree) Eb) as [Hall Hl].
  pose proof (frame_trans _ _ _ _ (frame_trans _ _ _ _ (frame_trans _ _ _ _ Hfr (Hrel _)) Hfree) Hall)
    as Hfr3.
  rewrite Hnil, ceil_blocks_max in Hl by (unfold num_input; lia).
  split; [done|]. split; [intros; by rw deref_insert decide_False|]. destruct ok.
  - rw !deref_insert !decide_True //. destruct Hx as (? & ? & ->). split; [done|].
    constructor; simpl; [done|lia|]. rewrite (fr_bs _ _ _ _ _ Hfr3). done.
  - eapply leave_fresh; [done..|]. intros _. by apply nil_length_inv, Nat2Z.inj.
Qed.

Lemma admit_kv_post p h e o h' e' :
  kv_ok e -> fresh_request true h e p -> admit_kv p h e = (o, h', e') ->
  admit_post true p h e o h' e'.
Proof.
  intros He Hf. pose proof Hf as [Hs Ho Hp Ht]. specialize (Ht eq_refl).
  pose proof (kv_bs_pos _ He) as Hbs. unfold admit_kv. rewrite (context_fresh _ _ _ _ Hf).
  set (needed := ceil_blocks _ _).
  assert (0 <= num_input (deref h p)) by (unfold num_input; lia).
  assert (Z.max 0 needed = needed) as Hn by (by apply ceil_blocks_max).
  assert (forall q, q ≠ p -> forall r, deref (<[p := r]> h) q = deref h q) as Hother
    by (intros; rw deref_insert decide_False //).
  case_match eqn:Ecan.
  { case_match; intros [= <- <- <-]; split_and!; try done; try by apply frame_refl.
    - intros; by apply Hother.
    - rw deref_insert decide_True //. }
  case_match eqn:Epre.
  2:{ destruct (kv_allocate_blocks _ _ _) as [e1 ok] eqn:Ea.
      destruct (kv_allocate_law _ _ _ _ _ He Ea) as [Hfr Hl]. rw Ht Hn /= in Hl.
      intros [= <- <- <-]. split_and!; try done. destruct ok.
      - split; [done|]. constructor; [done|lia|]. rewrite (fr_bs _ _ _ _ _ Hfr). done.
      - split; [done|]. constructor; try done. intros _. by apply nil_length_inv, Nat2Z.inj. }
  apply andb_true_iff in Epre as [Hpc _].
  assert (exists e1 r1 m, (match kv_prefix_reuse_limit e with
      | Some f => f (deref h p) e | None => (e, deref h p, -1) end) = (e1, r1, m) /\
      (exists x y, r1 = with_restore x y (deref h p)) /\ (forall q, kv_frame kv_ok kv_table q e e1) /\
      kv_prefix_caching_enabled e1 = true)
    as (e1 & r1 & m & -> & Hr1 & Hfr1 & Hpc1).
  { destruct (kv_prefix_reuse_limit e) as [f|] eqn:El.
    - destruct (f (deref h p) e) as [[e1 r1] m] eqn:Ef. exists e1, r1, m. split; [done|].
      destruct (kv_limit_law _ _ _ _ _ _ He El Ef) as (? & ? & ->). done.
    - exists e, (deref h p), (-1). split_and!; [done| |intros; by apply frame_refl|done].
      exists (recurrent_restore (deref h p)), (swa_restore (deref h p)). by destruct (deref h p). }
  assert (id r1 = id (deref h p) /\ input_tokens r1 = input_tokens (deref h p)) as [Hid1 Hin1]
    by (by destruct Hr1 as (x & y & ->)).
  pose proof (fr_ok _ _ _ _ _ (Hfr1 0)) as He1.
  assert (forall q, kv_table q e1 = kv_table q e) as Ht1
    by (intros q; apply (fr_table _ _ _ _ _ (Hfr1 (q + 1))); lia).
  rw Hid1 Hin1. destruct (kv_allocate_blocks_with_prefix _ _ _ _ _) as [e2 reused] eqn:Ea.
  destruct (kv_prefix_law _ _ _ _ _ _ _ He1 Hpc1 ltac:(by rewrite Ht1) Ea) as [Hfr2 Hcase].
  pose proof (frame_trans _ _ _ _ (Hfr1 _) Hfr2) as Hfr.
  rewrite (fr_bs _ _ _ _ _ (Hfr1 0)) in Hcase.
  destruct Hcase as [[Hneg Ht2]|(Hpos & Hle & Hlen)].
  { rewrite (proj2 (Z.ltb_lt _ 0)) by done. intros [= <- <- <-]. split; [done|]. split; [by auto|].
    by eapply leave_fresh. }
  rewrite (proj2 (Z.ltb_ge _ 0)) by done. case_match eqn:Emis.
  - destruct (kv_allocate_blocks _ _ _) as [e3 ok] eqn:Eb. intros [= <- <- <-].
    change (id (with_restore None (swa_restore r1) r1)) with (id r1) in Eb. rw Hid1 in Eb.
    eapply full_prefill_post; [done|done|exact Hfr| |exact Eb].
    destruct Hr1 as (x & y & ->). by exists None, y.
  - intros [= <- <- <-]. split; [done|]. split; [by auto|]. rw !deref_insert !decide_True //.
    eapply admitted_skip; try done. by rewrite (fr_bs _ _ _ _ _ Hfr).
Qed.

Lemma admit_spec kv p h e o h' e' :
  kv_ok e -> fresh_request kv h e p -> try_admit kv p h e = (o, h', e') -> admit_post kv p h e o h' e'.
Proof.
  intros He Hf. destruct kv; [by apply admit_kv_post|]. intros [= <- <- <-].
  destruct Hf as [Hs Ho Hp _]. split; [by apply frame_refl|]. split; [done|]. split; [done|].
  constructor; [done|lia|done].
Qed.

(** ** The promotion loop *)

Record queue_ok (kv : bool) (h : heap) (e : E) (ps : list Z) : Prop := {
  qo_nodup : NoDup ps;
  qo_ids : kv = true -> NoDup ((fun p => id (deref h p)) <$> ps);
  qo_fresh : forall p, p ∈ ps -> fresh_request kv h e p
}.

Lemma queue_ok_step kv h h1 e e1 p ps :
  queue_ok kv h e (p :: ps) -> (forall q, q ≠ p -> deref h1 q = deref h q) ->
  kv_frame kv_ok kv_table (id (deref h p)) e e1 -> queue_ok kv h1 e1 ps.
Proof.
  intros [[Hp Hnd]%NoDup_cons Hids Hf] Hh Hfr.
  assert (forall q, q ∈ ps -> deref h1 q = deref h q) as Hq by (intros q Hin; apply Hh; set_solver).
  constructor; [done| |].
  - intros Hkv. specialize (Hids Hkv). rw fmap_cons in Hids. apply NoDup_cons in Hids as [_ Hids].
    erewrite list_fmap_ext; [exact Hids|]. intros i q Hi. simpl.
    by rewrite Hq by by eapply list_elem_of_lookup_2.
  - intros q Hin. destruct (Hf q ltac:(by right)) as [? ? ? Ht].
    constructor; rewrite Hq by done; try done. intros Hkv. rewrite (fr_table _ _ _ _ _ Hfr); [by auto|].
    specialize (Hids Hkv). rw fmap_cons in Hids. apply NoDup_cons in Hids as [Hn _].
    intros Heq. apply Hn. rw -Heq. by apply (list_elem_of_fmap_2 (fun p => id (deref h p))).
Qed.

Record loop_post (kv : bool) (h : heap) (e : E) (ps adm drp rest : list Z) (h' : heap) (e' : E)
    : Prop := {
  lp_perm : ps ≡ₚ adm ++ drp ++ rest;
  lp_adm : sublist adm ps;
  lp_rest : sublist rest ps;
  lp_other : forall q, q ∉ ps -> deref h' q = deref h q;
  lp_promoted : forall p, p ∈ adm ->
    status (deref h' p) = PREFILLING /\ admitted kv (deref h p) (deref h' p) e';
  lp_dropped : forall p, p ∈ drp -> deref h' p = with_status CANCELLED KvCapacity (deref h p);
  lp_left : forall p, p ∈ rest -> same_request (deref h p) (deref h' p) /\ fresh_request kv h' e' p;
  lp_ok : kv_ok e';
  lp_bs : kv_block_size e' = kv_block_size e;
  lp_tables : kv = true -> forall q, (forall p, p ∈ adm -> id (deref h p) ≠ q) ->
    kv_table q e' = kv_table q e
}.

(** One more request in front of the queue, with the three outcomes. *)
Lemma loop_post_cons kv p ps h e o h1 e1 adm drp rest h' e' :
  queue_ok kv h e (p :: ps) -> admit_post kv p h e o h1 e1 ->
  let h2 := match o with
            | Promote => <[p := with_status PREFILLING (cancel_reason (deref h1 p)) (deref h1 p)]> h1
            | _ => h1 end in
  loop_post kv h2 e1 ps adm drp rest h' e' ->
  match o with
  | Promote => loop_post kv h e (p :: ps) (p :: adm) drp rest h' e'
  | Leave => loop_post kv h e (p :: ps) adm drp (p :: rest) h' e'
  | Drop => loop_post kv h e (p :: ps) adm (p :: drp) rest h' e'
  end.
Proof.
  intros Hq (Hfr & Hoth & Ho) h2 [Hperm Hsa Hsr Hho Hpro Hdr Hle Hok Hbs Htab].
  pose proof Hq as [[Hp Hnd]%NoDup_cons Hids Hfresh].
  assert (forall q, q ≠ p -> deref h2 q = deref h q) as Hh2.
  { intros q Hne. unfold h2. destruct o; rewrite ?deref_insert, ?decide_False by done; by apply Hoth. }
  assert (forall q, q ∈ ps -> deref h2 q = deref h q /\ q ≠ p) as Hin
    by (intros q Hi; assert (q ≠ p) by (by intros ->); auto).
  assert (deref h' p = deref h2 p) as Hhp by (by apply Hho).
  assert (forall q, q ∈ adm ++ drp ++ rest -> q ∈ ps) as Hsub by (intros q; by rewrite Hperm).
  assert (kv = true -> forall q, q ∈ adm -> id (deref h2 q) ≠ id (deref h p)) as Hne.
  { intros Hkv q Hi Heq. specialize (Hids Hkv). rw fmap_cons in Hids. apply NoDup_cons in Hids as [Hn _].
    apply Hn. rewrite <- Heq, (proj1 (Hin q ltac:(set_solver))).
    apply (list_elem_of_fmap_2 (fun p => id (deref h p))). set_solver. }
  assert (kv = true -> kv_table (id (deref h p)) e' = kv_table (id (deref h p)) e1) as Htp
    by (intros Hkv; apply Htab; auto).
  assert (kv = true -> kv_table (id (deref h p)) e = []) as Ht0
    by (intros Hkv; by apply (fq_table _ _ _ _ (Hfresh p ltac:(by left)))).
  assert (forall q, q ∉ p :: ps -> deref h' q = deref h q) as Hho'.
  { intros q Hn. rewrite Hho, Hh2; [done|set_solver..]. }
  assert (forall q, q ∈ adm -> status (deref h' q) = PREFILLING /\
            admitted kv (deref h q) (deref h' q) e') as Hpro'.
  { intros q Hi. rewrite <- (proj1 (Hin q ltac:(set_solver))). by apply Hpro. }
  assert (forall q, q ∈ drp -> deref h' q = with_status CANCELLED KvCapacity (deref h q)) as Hdr'.
  { intros q Hi. rewrite <- (proj1 (Hin q ltac:(set_solver))). by apply Hdr. }
  assert (forall q, q ∈ rest -> same_request (deref h q) (deref h' q) /\ fresh_request kv h' e' q) as Hle'.
  { intros q Hi. rewrite <- (proj1 (Hin q ltac:(set_solver))). by apply Hle. }
  assert (kv_block_size e' = kv_block_size e) as Hbs' by (by rewrite Hbs, (fr_bs _ _ _ _ _ Hfr)).
  assert (kv = true -> forall q, (forall p', p' ∈ adm -> id (deref h p') ≠ q) -> id (deref h p) ≠ q ->
            kv_table q e' = kv_table q e) as Htab'.
  { intros Hkv q Hadm Hq'. rewrite Htab, (fr_table _ _ _ _ _ Hfr); [done..|].
    intros p' Hi. rewrite (proj1 (Hin p' ltac:(set_solver))). auto. }
  destruct o.
  - destruct Ho as [Hst [Hcore Hoff Htb]].
    assert (deref h' p = with_status PREFILLING (cancel_reason (deref h1 p)) (deref h1 p)) as Ep
      by (rewrite Hhp; unfold h2; by rewrite deref_insert, decide_True).
    constructor; try done; [by rw Hperm|by apply sublist_skip|by apply sublist_cons| |].
    + intros q [->|Hi]%elem_of_cons; [|auto]. rw Ep. split; [done|]. constructor; [done|done|].
      intros Hkv. rewrite Htp, Hbs by done. by apply Htb.
    + intros Hkv q Hadm. apply Htab'; [done|intros; apply Hadm; by right|apply Hadm; by left].
  - destruct Ho as [Hsame Hfr1].
    constructor; try done;
      [rw Hperm; by rewrite !app_assoc, Permutation_middle|by apply sublist_cons|by apply sublist_skip| |].
    + intros q [->|Hi]%elem_of_cons; [|auto]. rewrite Hhp. split; [done|].
      destruct Hfr1. constructor; rewrite ?Hhp; auto. intros Hkv.
      destruct Hsame as [Hid _]. unfold h2. rewrite Hid, Htp by done. rewrite <- Hid. auto.
    + intros Hkv q Hadm. destruct (decide (id (deref h p) = q)) as [<-|]; [|by apply Htab'].
      destruct Hsame as [Hid _]. rewrite Htp, Ht0 by done. rewrite <- Hid.
      by apply (fq_table _ _ _ _ Hfr1).
  - destruct Ho as [Hd Htd].
    constructor; try done; [by rw Hperm -Permutation_middle|by apply sublist_cons..| |].
    + intros q [->|Hi]%elem_of_cons; [|auto]. by rewrite Hhp.
    + intros Hkv q Hadm. destruct (decide (id (deref h p) = q)) as [<-|]; [|by apply Htab'].
      by rewrite Htp.
Qed.

Lemma loop_post_nil kv h e ps : queue_ok kv h e ps -> kv_ok e -> loop_post kv h e ps [] [] ps h e.
Proof.
  intros Hq He. constructor; try done; try set_solver; [apply sublist_nil_l|].
  intros p Hp. split; [done|]. by apply Hq.
Qed.

Lemma promote_loop_spec kv max ps act pf h e rest act' pf' h' e' :
  kv_ok e -> queue_ok kv h e ps ->
  promote_loop kv max ps act pf h e = (rest, act', pf', h', e') ->
  exists adm drp, act' = act ++ adm /\ pf' = pf ++ adm /\
    Z.of_nat (length act') <= Z.max max (Z.of_nat (length act)) /\
    loop_post kv h e ps adm drp rest h' e'.
Proof.
  revert act pf h e rest act' pf' h' e'.
  induction ps as [|p ps IH]; intros act pf h e rest act' pf' h' e' He Hq; simpl.
  { intros [= <- <- <- <- <-]. exists [], []. rewrite !app_nil_r. split_and!; [done..|lia|].
    by apply loop_post_nil. }
  destruct (Z.ltb_spec (Z.of_nat (length act)) max) as [Hlt|Hge].
  2:{ intros [= <- <- <- <- <-]. exists [], []. rewrite !app_nil_r. split_and!; [done..|lia|].
      by apply loop_post_nil. }
  destruct (try_admit kv p h e) as [[o h1] e1] eqn:Ea.
  pose proof (admit_spec _ _ _ _ _ _ _ He (qo_fresh _ _ _ _ Hq p ltac:(by left)) Ea) as Hpost.
  pose proof Hpost as (Hfr & Hoth & _). pose proof (fr_ok _ _ _ _ _ Hfr) as He1.
  pose proof (queue_ok_step _ _ _ _ _ _ _ Hq Hoth Hfr) as Hq1.
  destruct o.
  - set (h2 := <[p := _]> h1). intros E'.
    assert (queue_ok kv h2 e1 ps) as Hq2.
    { eapply queue_ok_step; [exact Hq| |exact Hfr]. intros q Hne. unfold h2.
      rewrite deref_insert, decide_False by done. by apply Hoth. }
    destruct (IH _ _ _ _ _ _ _ _ _ He1 Hq2 E') as (adm & drp & -> & -> & Hlen & Hl).
    exists (p :: adm), drp. rewrite <- !app_assoc. split_and!; try done.
    + rewrite !length_app in *. simpl in *. lia.
    + by apply (loop_post_cons _ _ _ _ _ Promote _ _ _ _ _ _ _ Hq Hpost Hl).
  - destruct (promote_loop kv max ps act pf h1 e1) as [[[[rest1 act1] pf1] h3] e3] eqn:E'.
    destruct (IH _ _ _ _ _ _ _ _ _ He1 Hq1 E') as (adm & drp & -> & -> & Hlen & Hl). intros [= <- <- <- <- <-].
    exists adm, drp. split_and!; try done.
    by apply (loop_post_cons _ _ _ _ _ Leave _ _ _ _ _ _ _ Hq Hpost Hl).
  - intros E'. destruct (IH _ _ _ _ _ _ _ _ _ He1 Hq1 E') as (adm & drp & -> & -> & Hlen & Hl).
    exists adm, (p :: drp). split_and!; try done.
    by apply (loop_post_cons _ _ _ _ _ Drop _ _ _ _ _ _ _ Hq Hpost Hl).
Qed.

(** ** One scheduling round *)

Definition sort_spec (sort : (Z -> Z) -> list Z -> list Z) : Prop :=
  forall key l, sort key l ≡ₚ l /\ Sorted (fun a b => key a <= key b) (sort key l).

Record sched_ok (s : Scheduler) (h : heap) (e : E) : Prop := {
  so_ptrs : NoDup (pending_ s ++ active_ s);
  so_queue : queue_ok (has_kv_manager s) h e (pending_ s)
}.

Definition still_running (h : heap) (s : Scheduler) : list Z :=
  List.filter (fun p => negb (done_status (status (deref h p)))) (active_ s).

(** The queue in the order the round visits it. *)
Definition visit_order (sort : (Z -> Z) -> list Z -> list Z) (h : heap) (s : Scheduler) : list Z :=
  if pending_dirty_ s then sort (fun p => num_input (deref h p)) (pending_ s) else pending_ s.

Lemma elem_of_lfilter {A} (f : A -> bool) x l : x ∈ List.filter f l <-> x ∈ l /\ f x = true.
Proof. rewrite !list_elem_of_In. apply filter_In. Qed.

Lemma lfilter_none {A} (f : A -> bool) l : (forall x, x ∈ l -> f x = false) -> List.filter f l = [].
Proof.
  induction l as [|x l IH]; intros Hl; [done|]. simpl. rewrite (Hl x) by by left.
  apply IH. intros y Hy. apply Hl. by right.
Qed.

Lemma requeue_foldl (f : Z -> bool) l pf :
  NoDup l ->
  foldl (fun pf p => if f p && negb (bool_decide (p ∈ pf)) then pf ++ [p] else pf) pf l =
  pf ++ List.filter (fun p => f p && negb (bool_decide (p ∈ pf))) l.
Proof.
  intros Hnd. revert pf. induction Hnd as [|p l Hp Hnd IH]; intros pf; simpl; [by rw app_nil_r|].
  rewrite IH. destruct (f p && _) eqn:Ef; [|done]. rw -app_assoc /=. do 2 f_equal.
  apply filter_ext_in. intros q Hq%list_elem_of_In. f_equal. f_equal.
  apply bool_decide_ext. set_solver.
Qed.

Lemma queue_ok_perm kv h e ps ps' : ps ≡ₚ ps' -> queue_ok kv h e ps -> queue_ok kv h e ps'.
Proof.
  intros Hp [Hn Hi Hf]. constructor; [by rewrite <- Hp| |].
  - intros Hk. by rewrite <- Hp; auto.
  - intros p Hin. apply Hf. by rewrite Hp.
Qed.

Lemma schedule_spec sort s h e s' h' e' pf dec :
  sort_spec sort -> kv_ok e -> sched_ok s h e -> schedule sort s h e = (s', h', e', (pf, dec)) ->
  exists promoted dropped,
    loop_post (has_kv_manager s) h e (visit_order sort h s) promoted dropped (pending_ s') h' e' /\
    visit_order sort h s ≡ₚ pending_ s /\
    active_ s' = still_running h s ++ promoted /\
    Z.of_nat (length (active_ s')) <= Z.max (max_batch_size_ s) (Z.of_nat (length (still_running h s))) /\
    pf = promoted ++ List.filter (fun p => chunk_pending (deref h p)) (still_running h s) /\
    dec = List.filter (fun p => bool_decide (status (deref h p) = DECODING)) (still_running h s).
Proof.
  intros Hsort He [Hnd Hq]. unfold schedule.
  fold (still_running h s) (visit_order sort h s). cbv zeta.
  assert (visit_order sort h s ≡ₚ pending_ s) as Hperm
    by (unfold visit_order; case_match; [apply Hsort|done]).
  destruct (promote_loop _ _ _ _ _ _ _) as [[[[rest act] pf0] h1] e1] eqn:El.
  symmetry in Hperm. pose proof (queue_ok_perm _ _ _ _ _ Hperm Hq) as Hq'. symmetry in Hperm.
  destruct (promote_loop_spec _ _ _ _ _ _ _ _ _ _ _ _ He Hq' El) as (adm & drp & -> & -> & Hlen & Hl).
  intros [= <- <- <- <- <-]. exists adm, drp. simpl.
  assert (forall p, p ∈ adm -> p ∈ pending_ s) as Hadm.
  { intros p Hp. rewrite <- Hperm, (lp_perm _ _ _ _ _ _ _ _ _ Hl). set_solver. }
  apply NoDup_app in Hnd as (Hndp & Hdisj & Hnda).
  assert (forall p, p ∈ still_running h s -> p ∈ active_ s) as Hrun by (intros p; by intros [? _]%elem_of_lfilter).
  assert (forall p, p ∈ still_running h s -> deref h1 p = deref h p) as Hsame.
  { intros p Hp. apply (lp_other _ _ _ _ _ _ _ _ _ Hl). rewrite Hperm. intros ?. by eapply Hdisj; eauto. }
  assert (NoDup (still_running h s)) as Hndr by (apply NoDup_ListNoDup, List.NoDup_filter, NoDup_ListNoDup, Hnda).
  assert (NoDup adm) as Hndadm.
  { rewrite <- Hperm, (lp_perm _ _ _ _ _ _ _ _ _ Hl) in Hndp. by apply NoDup_app in Hndp as [? _]. }
  split_and!; try done.
  - rewrite requeue_foldl. 2:{ apply NoDup_app. split_and!; [done| |done]. intros p ? ?. eapply Hdisj; eauto. }
    f_equal. rewrite List.filter_app, (lfilter_none _ adm), app_nil_r.
    + apply filter_ext_in. intros p Hp%list_elem_of_In. rewrite Hsame by done.
      rewrite bool_decide_eq_false_2; [by rewrite andb_true_r|]. intros ?. eapply Hdisj; eauto.
    + intros p Hp. rewrite bool_decide_eq_true_2 by done. apply andb_false_r.
  - rewrite List.filter_app, (lfilter_none _ adm), app_nil_r.
    + apply filter_ext_in. intros p Hp%list_elem_of_In. by rewrite Hsame.
    + intros p Hp. destruct (lp_promoted _ _ _ _ _ _ _ _ _ Hl p Hp) as [-> _]. done.
Qed.

Lemma sublist_sorted {A} (R : A -> A -> Prop) k l :
  Transitive R -> sublist k l -> Sorted R l -> Sorted R k.
Proof.
  intros HR Hs Hl. apply StronglySorted_Sorted. apply Sorted_StronglySorted in Hl; [|done].
  induction Hs as [|x k l Hs IH|x k l Hs IH]; [done|..]; apply StronglySorted_inv in Hl as [Hl Hx]; [|auto].
  constructor; [auto|]. rewrite Forall_forall in Hx. apply Forall_forall. intros y Hy. apply Hx.
  by eapply elem_of_sublist.
Qed.

Lemma loop_post_queue kv h e ps adm drp rest h' e' :
  queue_ok kv h e ps -> loop_post kv h e ps adm drp rest h' e' -> queue_ok kv h' e' rest.
Proof.
  intros [Hn Hi _] Hl. pose proof (lp_rest _ _ _ _ _ _ _ _ _ Hl) as Hs.
  constructor; [by eapply sublist_NoDup| |by apply Hl]. intros Hk. specialize (Hi Hk).
  erewrite list_fmap_ext; [eapply sublist_NoDup; [exact Hi|]; by apply fmap_sublist|].
  intros i p Hp. simpl. apply list_elem_of_lookup_2 in Hp.
  by destruct (lp_left _ _ _ _ _ _ _ _ _ Hl p Hp) as [[-> _] _].
Qed.

(** C9: one scheduling round accounts for every request.  Each queued request is
    promoted, dropped as too large for the cache ([CANCELLED], reason
    [KvCapacity]) or still queued, never two of these; [active_] is what was
    still running followed by the promoted ones and stays within
    [max_batch_size] unless it already exceeded it; the prefill batch is the
    promoted requests and the running [PREFILLING] ones whose offset is strictly
    between 0 and the length of the prompt, the decode batch the running
    [DECODING] ones, with no request twice (a running [PREFILLING] request at
    offset 0 or past its prompt stays in [active_] and is in neither batch); a
    dirty queue is promoted shortest first; and the scheduler's invariant holds
    again for the next round. *)
Theorem schedule_accounts sort s h e s' h' e' pf dec :
  sort_spec sort -> kv_ok e -> sched_ok s h e -> schedule sort s h e = (s', h', e', (pf, dec)) ->
  exists promoted dropped,
    pending_ s ≡ₚ promoted ++ dropped ++ pending_ s' /\
    active_ s' = still_running h s ++ promoted /\
    active_count s' <= Z.max (max_batch_size_ s) (Z.of_nat (length (still_running h s))) /\
    pf = promoted ++ List.filter (fun p => chunk_pending (deref h p)) (still_running h s) /\
    dec = List.filter (fun p => bool_decide (status (deref h p) = DECODING)) (still_running h s) /\
    NoDup (pf ++ dec) /\
    (forall p, p ∈ dropped -> deref h' p = with_status CANCELLED KvCapacity (deref h p)) /\
    (pending_dirty_ s = true ->
     Sorted (fun p q => num_input (deref h p) <= num_input (deref h q)) promoted) /\
    sched_ok s' h' e'.
Proof.
  intros Hsort He Hok Es.
  destruct (schedule_spec _ _ _ _ _ _ _ _ _ Hsort He Hok Es)
    as (adm & drp & Hl & Hperm & Hact & Hlen & Hpf & Hdec).
  pose proof Hok as [Hnd Hq].
  pose proof (lp_perm _ _ _ _ _ _ _ _ _ Hl) as Hp. rw Hperm in Hp.
  exists adm, drp. apply NoDup_app in Hnd as (Hndp & Hdisj & Hnda).
  assert (NoDup (still_running h s)) as Hndr
    by (apply NoDup_ListNoDup, List.NoDup_filter, NoDup_ListNoDup, Hnda).
  assert (forall p, p ∈ adm ++ drp ++ pending_ s' -> p ∉ still_running h s) as Hnew
    by (intros p Hin [Ha _]%elem_of_lfilter; rewrite <- Hp in Hin; by eapply Hdisj).
  rewrite Hp in Hndp. split_and!; try done.
  - apply NoDup_app in Hndp as (? & _ & _). rw Hpf Hdec.
    rewrite <- app_assoc. apply NoDup_app. split_and!; [done| |].
    + intros p Ha [[Hr _]%elem_of_lfilter|[Hr _]%elem_of_lfilter]%elem_of_app; eapply Hnew; eauto; set_solver.
    + apply NoDup_app. split_and!; [by apply NoDup_ListNoDup, List.NoDup_filter, NoDup_ListNoDup| |
        by apply NoDup_ListNoDup, List.NoDup_filter, NoDup_ListNoDup].
      intros p [_ Hc]%elem_of_lfilter [_ Hd%bool_decide_eq_true]%elem_of_lfilter.
      unfold chunk_pending in Hc. rw Hd in Hc. done.
  - apply Hl.
  - intros Hd. eapply sublist_sorted; [intros ???; lia|by apply Hl|]. unfold visit_order.
    rewrite Hd. apply Hsort.
  - constructor.
    + rw Hact. apply NoDup_app in Hndp as (Hna & Hx & Hn2).
      apply NoDup_app in Hn2 as (_ & _ & Hnr). apply NoDup_app. split_and!; [done| |].
      * intros p Hin [Hr|Ha]%elem_of_app; [eapply Hnew; eauto; set_solver|].
        apply (Hx p Ha). set_solver.
      * apply NoDup_app. split_and!; [done| |done]. intros p Hr Ha. eapply Hnew; eauto. set_solver.
    + assert (has_kv_manager s' = has_kv_manager s) as ->.
      { revert Es. unfold schedule. cbv zeta. destruct (promote_loop _ _ _ _ _ _ _) as [[[[??]?]?]?].
        by intros [= <- _ _ _ _]. }
      eapply loop_post_queue; [|exact Hl]. eapply queue_ok_perm; [|exact Hq]. by symmetry.
Qed.

(** C10: admission reserves exactly the blocks the prompt needs.  Every request
    newly promoted in a round has a block table covering its prompt, keeps its
    identity and prompt, is [PREFILLING], and its prefill offset lies inside the
    prompt, so at least one token of a non-empty prompt is forwarded; requests
    left in the queue hold no blocks, and no other sequence's table changes. *)
Theorem schedule_reserves_blocks sort s h e s' h' e' pf dec :
  sort_spec sort -> kv_ok e -> sched_ok s h e -> has_kv_manager s = true ->
  schedule sort s h e = (s', h', e', (pf, dec)) ->
  (forall p, p ∈ active_ s' -> p ∉ active_ s ->
     let r := deref h p in let r' := deref h' p in
     status r' = PREFILLING /\ id r' = id r /\ input_tokens r' = input_tokens r /\
     0 <= prefill_offset r' /\ (0 < num_input r -> prefill_offset r' < num_input r) /\
     Z.of_nat (length (kv_table (id r) e')) = ceil_blocks (num_input r) (kv_block_size e)) /\
  (forall p, p ∈ pending_ s' -> kv_table (id (deref h p)) e' = []) /\
  (forall q, (forall p, p ∈ pending_ s -> id (deref h p) ≠ q) -> kv_table q e' = kv_table q e).
Proof.
  intros Hsort He Hok Hkv Es.
  destruct (schedule_spec _ _ _ _ _ _ _ _ _ Hsort He Hok Es)
    as (adm & drp & Hl & Hperm & Hact & _). rw Hkv in Hl.
  pose proof (lp_perm _ _ _ _ _ _ _ _ _ Hl) as Hp. rw Hperm in Hp. split_and!.
  - intros p Hin Hnew. rw Hact in Hin. apply elem_of_app in Hin as [[? _]%elem_of_lfilter|Hin]; [done|].
    destruct (lp_promoted _ _ _ _ _ _ _ _ _ Hl p Hin) as [Hst [(Hid & Hit & _) [Ho1 Ho2] Ht]].
    rewrite (lp_bs _ _ _ _ _ _ _ _ _ Hl) in Ht. cbv zeta. split_and!; auto.
  - intros p Hin. destruct (lp_left _ _ _ _ _ _ _ _ _ Hl p Hin) as [[<- _] Hf].
    by apply (fq_table _ _ _ _ Hf).
  - intros q Hq. apply (lp_tables _ _ _ _ _ _ _ _ _ Hl eq_refl). intros p Hin. apply Hq.
    rewrite Hp. set_solver.
Qed.
End laws.
