(* ===== verification/Admission.v ===== *)
(** * Admission: the scheduler on the real KV manager

    The engine side of [src/runtime/scheduler.cpp]: the prefix-reuse hooks of
    [src/runtime/engine_sampling_stop.cpp] over the KV manager and a snapshot
    store, the instance of [KvAdmission] they make, its laws, and the theorems
    about scheduling rounds that need the real allocator. *)

From Corelib Require Import ssreflect_rw.
From stdpp Require Import prelude gmap fin_maps list sorting.
From S2P Require Import Prelude Backend BlockPool KVManager KVOwnership KVPins KVInvariant KVTheorems KVSequences MemPlan Snapshots Scheduler.
Open Scope Z_scope.
Open Scope quench_scope.

(** ** The engine state admission works on *)

(** Which hook [set_prefix_reuse_limit] installed. *)
Inductive Hook := NoHook | HybridHook | SwaHook.

Record Engine := mkEngine {
  kvm : KVM;
  snapshots : option RecurrentSnapshotStore;
  hook : Hook;
  supports_chunked_prefill : bool;
  ssm_state : bool;
  vision_has_input : bool
}.

Definition set_kvm (s : KVM) (e : Engine) : Engine :=
  mkEngine s (snapshots e) (hook e) (supports_chunked_prefill e) (ssm_state e) (vision_has_input e).
Definition set_snapshots (st : option RecurrentSnapshotStore) (e : Engine) : Engine :=
  mkEngine (kvm e) st (hook e) (supports_chunked_prefill e) (ssm_state e) (vision_has_input e).

(** [ptr.reset()] on a request's snapshot reference. *)
Definition release_restore (x : option Entry) (e : Engine) : Engine :=
  match x, snapshots e with
  | Some en, Some st => set_snapshots (Some (drop_held en st)) e
  | _, _ => e
  end.

(** The search from the longest restorable prefix down: block count and entry. *)
Fixpoint snapshot_probe (b : nat) (bs : Z) (hashes : list Z) (st : RecurrentSnapshotStore)
    : RecurrentSnapshotStore * option Entry * Z :=
  match b with
  | O => (st, None, 0)
  | S b' =>
      match find (default 0 (hashes !! b')) st with
      | (st, Some en) =>
          if e_n_tokens en =? Z.of_nat b * bs then (st, Some en, Z.of_nat b)
          else snapshot_probe b' bs hashes (drop_held en st)
      | (st, None) => snapshot_probe b' bs hashes st
      end
  end.

Definition snapshot_limit (r : Request) (e : Engine) (st : RecurrentSnapshotStore)
    : Engine * option Entry * Z :=
  let bs := bsz (kvm e) in
  let '(cached, hashes) := longest_cached_prefix_blocks (input_tokens r) 0 (kvm e) in
  let max_b := Z.min cached (Z.quot (num_input r - 1) bs) in
  let '(st, x, b) := snapshot_probe (Z.to_nat max_b) bs hashes st in
  (set_snapshots (Some st) e, x, b).

Definition snapshot_ready (r : Request) (e : Engine) (st : RecurrentSnapshotStore) : bool :=
  enabled st && supports_chunked_prefill e &&
  negb (vision_emb r || image r || vision_has_input e).

Definition hybrid_prefix_reuse_limit_ (r : Request) (e : Engine) : Engine * Request * Z :=
  let e := release_restore (recurrent_restore r) e in
  let r := with_restore None (swa_restore r) r in
  match snapshots e with
  | Some st =>
      if snapshot_ready r e st && ssm_state e then
        let '(e, x, b) := snapshot_limit r e st in (e, with_restore x (swa_restore r) r, b)
      else (e, r, 0)
  | None => (e, r, 0)
  end.

Definition swa_prefix_reuse_limit_ (r : Request) (e : Engine) : Engine * Request * Z :=
  let e := release_restore (swa_restore r) e in
  let r := with_restore (recurrent_restore r) None r in
  match snapshots e with
  | Some st =>
      if snapshot_ready r e st then
        let '(e, x, b) := snapshot_limit r e st in (e, with_restore (recurrent_restore r) x r, b)
      else (e, r, 0)
  | None => (e, r, 0)
  end.

Definition on_kvm {A} (f : KVM -> KVM * A) (e : Engine) : Engine * A :=
  let '(s, a) := f (kvm e) in (set_kvm s e, a).

#[export] Instance engine_admission : KvAdmission Engine := {|
  kv_block_size e := bsz (kvm e);
  kv_total_blocks e := max_blocks_ (cache_ (kvm e));
  kv_prefix_caching_enabled e := prefix_caching_enabled_ (pc_ (kvm e));
  kv_can_allocate n e := can_allocate n (kvm e);
  kv_allocate_blocks q n := on_kvm (allocate_blocks q n);
  kv_allocate_blocks_with_prefix q tokens m salt := on_kvm (allocate_blocks_with_prefix q tokens m salt);
  kv_free_sequence q e := set_kvm (free_sequence q (kvm e)) e;
  kv_prefix_reuse_limit e :=
    match hook e with
    | NoHook => None
    | HybridHook => Some hybrid_prefix_reuse_limit_
    | SwaHook => Some swa_prefix_reuse_limit_
    end;
  kv_release_restore := release_restore
|}.

(** ** The laws *)

(** What no admission operation touches. *)
Definition fixed (s : KVM) : Z * Z * Pins := (bsz s, max_blocks_ (cache_ s), pins_ s).

Lemma fixed_lru_track q s : fixed (lru_track q s) = fixed s.
Proof. unfold lru_track. by case_match. Qed.

Lemma fixed_allocate_blocks q n s : fixed (fst (allocate_blocks q n s)) = fixed s.
Proof.
  unfold allocate_blocks. case_match; [done|].
  destruct (alloc_loop _ _ _ _ _) as [[[[] p] c] bl]; simpl; [by rw fixed_lru_track|].
  by repeat case_match.
Qed.

Lemma fixed_allocate_prefix q tokens m salt s :
  fixed (fst (allocate_blocks_with_prefix q tokens m salt s)) = fixed s.
Proof.
  unfold allocate_blocks_with_prefix. case_match; [done|]. destruct (default [] _) as [|b l].
  - destruct (awp_loop _ _ _ _ _ _ _) as [[] w]; simpl; [by rw fixed_lru_track|].
    unfold rollback_partial_allocation. by case_match.
  - case_match; [|done]. set (n := _ - _). pose proof (fixed_allocate_blocks q n s) as Hb.
    revert Hb. by destruct (allocate_blocks _ _ _) as [? []].
Qed.

Lemma fixed_free_sequence q s : fixed (free_sequence q s) = fixed s.
Proof.
  unfold free_sequence. case_match; [|done]. destruct (free_seq_scan _ _ _ _) as [bl c].
  unfold lru_untrack, release_residual_slot, free_swa_seq. by repeat case_match.
Qed.

Lemma block_table_seqs q s s' : seq_blocks_ s' = seq_blocks_ s -> block_table q s' = block_table q s.
Proof. unfold block_table. by intros ->. Qed.

Lemma block_table_nil q s : block_table q s = [] <-> default [] (seq_blocks_ s !! q) = [].
Proof.
  unfold block_table. destruct (seq_blocks_ s !! q) as [bl|]; [|done]. simpl.
  split; [by intros ?%fmap_nil_inv|by intros ->].
Qed.

Lemma kvm_allocate_law q n s s' ok :
  kv_inv s -> allocate_blocks q n s = (s', ok) ->
  (kv_inv s' /\ fixed s' = fixed s /\ (forall q', q' ≠ q -> block_table q' s' = block_table q' s)) /\
  Z.of_nat (length (block_table q s')) =
    Z.of_nat (length (block_table q s)) + (if ok : bool then Z.max 0 n else 0).
Proof.
  intros Hs E. pose proof (fixed_allocate_blocks q n s) as Hf. rw E /= in Hf.
  destruct (allocate_blocks_inv _ _ _ _ _ Hs E) as [Hs' _].
  destruct (Z.leb_spec n 0) as [Hn|Hn].
  { unfold allocate_blocks in E. rewrite (proj2 (Z.leb_le n 0) Hn) in E. injection E as <- <-.
    split; [done|lia]. }
  pose proof (allocate_blocks_spec _ _ _ _ _ Hs Hn E) as Hspec. destruct ok.
  - destruct Hspec as (ids & Hl & _ & _ & Hb & _). split.
    + split_and!; try done. intros q' Hq. unfold block_table. rw Hb lookup_insert_ne //.
    + unfold block_table. rw Hb lookup_insert_eq /= fmap_app length_app !length_fmap Hl.
      destruct (seq_blocks_ s !! q); simpl; rewrite ?length_fmap; lia.
  - destruct Hspec as (_ & _ & Hb). rw Hb. split; [done|lia].
Qed.

Lemma live_run_cap bs tokens n i parent p h2i :
  (length (live_run bs tokens n i parent p h2i) <= n)%nat.
Proof.
  revert i parent. induction n as [|n IH]; intros i parent; simpl; [lia|].
  repeat case_match; simpl; try lia. specialize (IH (i + 1)). apply le_n_S, IH.
Qed.

Lemma kvm_prefix_law q tokens m salt s s' r :
  kv_inv s -> prefix_caching_enabled_ (pc_ s) = true -> block_table q s = [] ->
  allocate_blocks_with_prefix q tokens m salt s = (s', r) ->
  (kv_inv s' /\ fixed s' = fixed s /\ (forall q', q' ≠ q -> block_table q' s' = block_table q' s)) /\
  (r < 0 /\ block_table q s' = [] \/
   0 <= r /\ r * bsz s <= Z.of_nat (length tokens) /\
   Z.of_nat (length (block_table q s')) = ceil_blocks (Z.of_nat (length tokens)) (bsz s)).
Proof.
  intros Hs Hen Hnil E. pose proof (fixed_allocate_prefix q tokens m salt s) as Hf. rw E /= in Hf.
  destruct (allocate_blocks_with_prefix_inv _ _ _ _ _ _ _ Hs E) as [Hs' _].
  pose proof (ki_bs _ Hs) as Hbs. destruct (decide (tokens = [])) as [->|Htok].
  { injection E as <- <-. split; [done|]. right. rw Hnil. split_and!; [done|simpl; lia|].
    unfold ceil_blocks. simpl. rewrite Z.quot_small; lia. }
  pose proof (proj1 (block_table_nil q s) Hnil) as Hbl.
  destruct (allocate_prefix_spec _ _ _ _ _ _ _ Hs Hen Htok Hbl E)
    as [(-> & Hseq & _)|(Hr & fresh & _ & Hlen & Hoth)].
  - split; [split_and!; try done|left; split; [lia|]]; [intros q' Hq|];
      unfold block_table; rw Hseq; [by rewrite lookup_delete_ne by congruence|].
    by rw lookup_delete_eq.
  - split; [done|]. right. split_and!; [lia| |done]. rw Hr.
    set (k := reuse_cap _ _ _). pose proof (live_run_cap (bsz s) tokens (Z.to_nat k) 0 salt (pool s)
      (block_hash_to_id_ (pc_ s))) as Hle.
    pose proof (reuse_cap_bounds (Z.of_nat (length tokens)) (bsz s) m Hbs ltac:(lia)) as [[Hk _] _].
    fold k in Hk. assert (k <= Z.of_nat (length tokens) / bsz s).
    { unfold k, reuse_cap. rewrite Z.quot_div_nonneg by lia. case_zbool; lia. }
    pose proof (Z.mul_div_le (Z.of_nat (length tokens)) (bsz s) Hbs). nia.
Qed.

Lemma kvm_free_law q s :
  kv_inv s ->
  (kv_inv (free_sequence q s) /\ fixed (free_sequence q s) = fixed s /\
   (forall q', q' ≠ q -> block_table q' (free_sequence q s) = block_table q' s)) /\
  block_table q (free_sequence q s) = [].
Proof.
  intros Hs. destruct (free_sequence_inv q s Hs) as (Hs' & _ & Hm). unfold block_table. rw Hm.
  split_and!; [done|apply fixed_free_sequence| |by rw lookup_delete_eq].
  intros q' Hq. by rewrite lookup_delete_ne by congruence.
Qed.

Definition engine_ok (e : Engine) : Prop := kv_inv (kvm e).
Definition engine_table (q : Z) (e : Engine) : list Z := block_table q (kvm e).

Lemma engine_frame q e s :
  kv_inv s /\ fixed s = fixed (kvm e) /\
    (forall q', q' ≠ q -> block_table q' s = block_table q' (kvm e)) ->
  kv_frame engine_ok engine_table q e (set_kvm s e).
Proof. intros (Hs & [= Hb Hm _] & Ht). by constructor. Qed.

Lemma same_kvm_frame e e' :
  engine_ok e -> kvm e' = kvm e -> forall q, kv_frame engine_ok engine_table q e e'.
Proof. intros He E q. constructor; unfold engine_ok, engine_table; simpl; by rewrite ?E. Qed.

Lemma release_restore_kvm x e : kvm (release_restore x e) = kvm e.
Proof. unfold release_restore. by repeat case_match. Qed.

(** Both hooks only touch the snapshot store and the request's references. *)
Lemma reuse_limit_frame f r e e' r' b :
  kv_prefix_reuse_limit e = Some f -> f r e = (e', r', b) ->
  (exists x y, r' = with_restore x y r) /\ kvm e' = kvm e.
Proof.
  assert (forall r0 st e0 e1 x b0, snapshot_limit r0 e0 st = (e1, x, b0) -> kvm e1 = kvm e0) as Hl.
  { unfold snapshot_limit. intros r0 st e0 e1 x b0. destruct (longest_cached_prefix_blocks _ _ _).
    destruct (snapshot_probe _ _ _ _) as [[st' x'] b']. by intros [= <- <- <-]. }
  simpl. destruct (hook e); [done|intros [= <-]..];
    unfold hybrid_prefix_reuse_limit_, swa_prefix_reuse_limit_.
  all: repeat case_match; intros [= <- <- <-]; (split; [by do 2 eexists|]);
    try by rewrite release_restore_kvm.
  all: erewrite Hl by eassumption; by rewrite release_restore_kvm.
Qed.

#[export, refine] Instance engine_admission_ok : KvAdmissionOk Engine := {|
  kv_ok := engine_ok; kv_table := engine_table
|}.
Proof.
  - intros e He. apply (ki_bs _ He).
  - intros q n e e' ok He. simpl. unfold on_kvm.
    destruct (allocate_blocks q n (kvm e)) as [s a] eqn:E. intros [= <- <-].
    destruct (kvm_allocate_law _ _ _ _ _ He E). split; [by apply engine_frame|done].
  - intros q tokens m salt e e' r He Hc Ht. simpl. unfold on_kvm.
    destruct (allocate_blocks_with_prefix q tokens m salt (kvm e)) as [s a] eqn:E. intros [= <- <-].
    destruct (kvm_prefix_law _ _ _ _ _ _ _ He Hc Ht E). split; [by apply engine_frame|done].
  - intros q e He. simpl. destruct (kvm_free_law q (kvm e) He).
    split; [by apply engine_frame|done].
  - intros f r e e' r' m He Hf E. destruct (reuse_limit_frame _ _ _ _ _ _ Hf E) as [Hr Hk].
    split_and!; [done|by apply same_kvm_frame|]. simpl. by rewrite Hk.
  - intros x e He. apply same_kvm_frame; [done|]. apply release_restore_kvm.
Defined.

(** ** An idle manager never blocks the queue *)

(** No sequence holds a block and nothing is pinned. *)
Record idle (s : KVM) : Prop := {
  id_tables : forall q, block_table q s = [];
  id_pins : pinned s = ∅
}.

Lemma idle_tocc s x : idle s -> kv_inv s -> tocc (seq_blocks_ s) x = 0%nat.
Proof.
  intros Hi Hs. destruct (decide (tocc (seq_blocks_ s) x = 0%nat)) as [|Hn]; [done|]. exfalso.
  assert (0 <= x).
  { destruct Hs as [[_ Ho] _ _ _ _ _ _]. destruct (pool_owned_range _ _ x Ho); simpl; lia. }
  apply Hn, tocc_zero. intros q Hin. apply (elem_of_table _ _ H) in Hin.
  change (x ∈ block_table q s) in Hin. rewrite (id_tables _ Hi q) in Hin. by apply elem_of_nil in Hin.
Qed.

(** Then every block is free or reclaimable. *)
Lemma idle_avail s : idle s -> kv_inv s -> Z.of_nat (kv_avail s) = num_blocks_ (pool s) /\
  num_free_blocks s + reclaimable_cached_count_ (pc_ s) = num_blocks_ (pool s).
Proof.
  intros Hi Hs. assert (Z.of_nat (kv_avail s) = num_blocks_ (pool s)) as Ha.
  2:{ split; [done|]. rewrite <- avail_reclaimable; [done..|]. intros. by apply idle_tocc. }
  pose proof (idle_tocc s) as Ht. pose proof (ki_alloc _ Hs) as [Hpc Ho].
  assert (num_free_blocks s + num_cached_blocks s = num_blocks_ (pool s)) as <-.
  { eapply free_count_total; [exact Ho|apply (pc_nodup _ _ Hpc)|]. intros x.
    change (x ∈ cached_blocks_lru_ (pc_ s) <-> (0 < tocc (seq_blocks_ s) x + cocc (pc_ s) x)%nat).
    rewrite (Ht x Hi Hs), (pc_dom _ _ Hpc). unfold cocc.
    destruct (cached_blocks_map_ (pc_ s) !! x); simpl; [|split; [by intros []|lia]].
    split; [lia|by eexists]. }
  unfold kv_avail, avail, num_free_blocks, free_count, num_cached_blocks, reclaimables.
  rewrite Nat2Z.inj_add, (id_pins _ Hi). do 3 f_equal. induction (cached_blocks_lru_ (pc_ s)) as [|b l IH]; [done|].
  rewrite filter_cons, decide_True, IH; [done|]. split; [set_solver|by apply Ht].
Qed.

Lemma can_allocate_scan_idle l need acc s :
  (forall q, block_table q s = []) -> acc < need -> can_allocate_scan l need acc s = false.
Proof.
  intros Ht. revert acc. induction l as [|q l IH]; intros acc Hlt; simpl; [done|].
  case_match; [by apply IH|]. specialize (Ht q). unfold block_table in Ht.
  assert (match seq_blocks_ s !! q with Some bl => Z.of_nat (length bl) | None => 0 end = 0) as ->.
  { destruct (seq_blocks_ s !! q); [|done]. simpl in Ht. by apply fmap_nil_inv in Ht as ->. }
  rewrite Z.add_0_r, (proj2 (Z.leb_gt _ _)) by done. by apply IH.
Qed.

Lemma can_allocate_idle n s :
  idle s -> kv_inv s -> 0 <= n -> can_allocate n s = (n <=? num_blocks_ (pool s)).
Proof.
  intros Hi Hs Hn. destruct (idle_avail s Hi Hs) as [_ Hrec]. unfold can_allocate. rewrite Hrec.
  destruct (Z.leb_spec n 0).
  { symmetry. apply Z.leb_le. destruct (ki_alloc _ Hs) as [_ [Hwf _]]. pose proof (wf_num _ Hwf). lia. }
  destruct (Z.leb_spec n (num_blocks_ (pool s))); [done|].
  apply can_allocate_scan_idle; [apply Hi|lia].
Qed.

Lemma allocate_idle q n s :
  idle s -> kv_inv s -> n <= num_blocks_ (pool s) -> snd (allocate_blocks q n s) = true.
Proof.
  intros Hi Hs Hn. destruct (allocate_blocks q n s) as [s' []] eqn:E; [done|]. exfalso.
  destruct (Z.leb_spec n 0) as [Hz|Hz].
  - unfold allocate_blocks in E. by rewrite (proj2 (Z.leb_le n 0) Hz) in E.
  - destruct (allocate_blocks_spec _ _ _ _ _ Hs Hz E) as [Hlt _].
    destruct (idle_avail s Hi Hs) as [Ha _]. lia.
Qed.

Lemma prefix_idle q tokens m salt s :
  idle s -> kv_inv s -> prefix_caching_enabled_ (pc_ s) = true ->
  ceil_blocks (Z.of_nat (length tokens)) (bsz s) <= num_blocks_ (pool s) ->
  0 <= snd (allocate_blocks_with_prefix q tokens m salt s).
Proof.
  intros Hi Hs Hen Hn. destruct (decide (tokens = [])) as [->|Htok]; [done|].
  destruct (allocate_blocks_with_prefix _ _ _ _ _) as [s' r] eqn:E. simpl.
  destruct (allocate_prefix_spec _ _ _ _ _ _ _ Hs Hen Htok
    (proj1 (block_table_nil q s) (id_tables _ Hi q)) E) as [(_ & _ & Hlt)|[-> _]]; [|lia].
  destruct (idle_avail s Hi Hs) as [Ha _]. lia.
Qed.

(** Giving a sequence's blocks back makes the manager idle again. *)
Lemma idle_after_free q tokens m salt s s' r :
  idle s -> kv_inv s -> prefix_caching_enabled_ (pc_ s) = true ->
  allocate_blocks_with_prefix q tokens m salt s = (s', r) ->
  let s2 := free_sequence q s' in
  idle s2 /\ kv_inv s2 /\ num_blocks_ (pool s2) = num_blocks_ (pool s).
Proof.
  intros Hi Hs Hen E s2.
  destruct (kvm_prefix_law _ _ _ _ _ _ _ Hs Hen (id_tables _ Hi q) E) as [(Hs' & Hf & Ht) _].
  destruct (allocate_blocks_with_prefix_inv _ _ _ _ _ _ _ Hs E) as [_ Hn].
  destruct (kvm_free_law q s' Hs') as [(Hs2 & Hf2 & Ht2) Hnil].
  destruct (free_sequence_inv q s' Hs') as (_ & Hn2 & _). split_and!; [|done|by rewrite <- Hn, <- Hn2].
  constructor.
  - intros q'. destruct (decide (q' = q)) as [->|]; [done|]. unfold s2. rewrite Ht2, Ht by done. apply Hi.
  - unfold pinned. assert (fixed s2 = fixed s) as [= _ _ ->] by (unfold s2; congruence). apply Hi.
Qed.

Lemma admit_idle p h e :
  idle (kvm e) -> engine_ok e -> fresh_request true h e p ->
  num_blocks_ (pool (kvm e)) = max_blocks_ (cache_ (kvm e)) ->
  fst (fst (admit_kv p h e)) ≠ Leave.
Proof.
  intros Hi Hs Hf Hcap. pose proof (kv_bs_pos _ Hs) as Hbs. unfold admit_kv.
  rewrite (context_fresh _ _ _ _ Hf). set (needed := ceil_blocks _ _).
  assert (0 <= num_input (deref h p)) as Hni by (unfold num_input; lia).
  assert (0 <= needed) by (by apply ceil_blocks_nonneg).
  change (kv_can_allocate needed e) with (can_allocate needed (kvm e)).
  change (kv_total_blocks e) with (max_blocks_ (cache_ (kvm e))).
  rewrite can_allocate_idle, <- Hcap by done.
  destruct (Z.leb_spec needed (num_blocks_ (pool (kvm e)))) as [Hle|Hgt]; simpl negb.
  2:{ by rewrite (proj2 (Z.ltb_lt _ _)). }
  cbn [negb]. case_match eqn:Epre.
  2:{ simpl. unfold on_kvm. pose proof (allocate_idle (id (deref h p)) needed _ Hi Hs Hle) as Ha.
      destruct (allocate_blocks _ _ _) as [s ok]. simpl in Ha. by rewrite Ha. }
  apply andb_true_iff in Epre as [Hpc _].
  destruct (match kv_prefix_reuse_limit e with Some f => f (deref h p) e | None => _ end)
    as [[e1 r1] m] eqn:Elim.
  assert ((exists x y, r1 = with_restore x y (deref h p)) /\ kvm e1 = kvm e) as [(x & y & ->) Hk].
  { destruct (kv_prefix_reuse_limit e) as [f|] eqn:El; [by eapply reuse_limit_frame|].
    injection Elim as <- <- <-. split; [|done].
    exists (recurrent_restore (deref h p)), (swa_restore (deref h p)). by destruct (deref h p). }
  simpl. unfold on_kvm. rewrite Hk.
  pose proof (prefix_idle (id (deref h p)) (input_tokens (deref h p)) m
    (vision_content_hash (deref h p)) _ Hi Hs Hpc Hle) as Hr.
  destruct (allocate_blocks_with_prefix _ _ _ _ _) as [s r] eqn:Ea. simpl in Hr.
  rewrite (proj2 (Z.ltb_ge _ _)) by done. destruct ((0 <=? m) && negb (r =? m)); [|done].
  destruct (idle_after_free _ _ _ _ _ _ _ Hi Hs Hpc Ea) as (Hi2 & Hs2 & Hn2).
  rewrite release_restore_kvm. simpl.
  pose proof (allocate_idle (id (deref h p)) needed _ Hi2 Hs2 ltac:(lia)) as Ha.
  destruct (allocate_blocks _ _ _) as [s3 ok]. simpl in Ha. by rewrite Ha.
Qed.

(** C11: the worker never busy-loops on an idle cache.  When no sequence holds a
    block, nothing is pinned and nothing runs, a scheduling round with room in
    the batch takes the first request of its visit order out of the queue,
    promoted or cancelled; it cannot be left pending for want of memory that no
    one will give back.  Of the requests behind it nothing is said: they may
    stay queued. *)
Theorem idle_round_progresses sort s h e s' h' e' pf dec p ps :
  sort_spec sort -> engine_ok e -> idle (kvm e) ->
  num_blocks_ (pool (kvm e)) = max_blocks_ (cache_ (kvm e)) ->
  sched_ok s h e -> has_kv_manager s = true -> 0 < max_batch_size_ s ->
  still_running h s = [] -> visit_order sort h s = p :: ps ->
  schedule sort s h e = (s', h', e', (pf, dec)) ->
  p ∉ pending_ s' /\
  (p ∈ active_ s' \/ status (deref h' p) = CANCELLED /\ cancel_reason (deref h' p) = KvCapacity).
Proof.
  intros Hsort He Hi Hcap Hok Hkv Hmax Hrun Hvis Es.
  destruct (schedule_spec sort s h e s' h' e' pf dec Hsort (He : @kv_ok _ _ engine_admission_ok e) Hok Es)
    as (adm & drp & Hl & Hperm & Hact & _).
  assert (queue_ok true h e (p :: ps)) as Hq.
  { rewrite <- Hvis, <- Hkv. eapply queue_ok_perm; [symmetry; exact Hperm|apply Hok]. }
  assert (p ∉ pending_ s') as Hnot.
  { pose proof (admit_idle p h e Hi He (qo_fresh _ _ _ _ Hq p ltac:(by left)) Hcap) as Hadm.
    intros Hin. revert Es. unfold schedule. fold (still_running h s) (visit_order sort h s).
    rewrite Hrun, Hvis, Hkv. simpl promote_loop. rewrite (proj2 (Z.ltb_lt _ _)) by done.
    pose proof (qo_nodup _ _ _ _ Hq) as [Hp _]%NoDup_cons.
    destruct (admit_kv p h e) as [[[] h1] e1]; [|exfalso; by apply Hadm|]; destruct (promote_loop _ _ _ _ _ _ _)
      as [[[[rest act] pf0] h2] e2] eqn:El; intros [= <- _ _ _ _]; apply Hp;
      by apply (promote_loop_rest _ _ _ _ _ _ _ _ _ _ _ _ El). }
  split; [done|].
  assert (p ∈ adm ++ drp ++ pending_ s') as [Ha|[Hd|]%elem_of_app]%elem_of_app; [| | |done].
  - rewrite <- (lp_perm _ _ _ _ _ _ _ _ _ Hl), Hvis. by left.
  - left. rewrite Hact. set_solver.
  - right. by rewrite (lp_dropped _ _ _ _ _ _ _ _ _ Hl p Hd).
Qed.

(** ** A concrete round *)

Definition by_key (key : Z -> Z) (a b : Z) : Prop := key a <= key b.

#[export] Instance by_key_dec key a b : Decision (by_key key a b).
Proof. unfold by_key. apply _. Defined.

#[export] Instance by_key_total key : Total (by_key key).
Proof. intros a b. unfold by_key. lia. Qed.

Definition demo_sort (key : Z -> Z) : list Z -> list Z := merge_sort (by_key key).

Lemma demo_sort_spec : sort_spec demo_sort.
Proof.
  intros key l. split; [apply merge_sort_Permutation|]. apply (Sorted_merge_sort (by_key key)).
Qed.

Definition demo_request (i : Z) (st : RequestStatus) (tokens : list Z) : Request :=
  mkRequest i st tokens [] 0 0 None None false false 0 0 0 NoReason.

(** Four queued requests, one too large for the cache, and a decoding one. *)
Definition demo_heap : heap :=
  {[100 := demo_request 5 PENDING [10; 11; 12; 13; 20; 21];
    101 := demo_request 6 PENDING [7; 8; 9];
    102 := demo_request 7 PENDING [1];
    103 := demo_request 8 PENDING (replicate 40 4);
    104 := demo_request 9 DECODING [3]]}.

Definition demo_engine : Engine := 
  mkEngine (unpin_prefix 1 demo_cached) None NoHook true false false.
Definition demo_sched (max : Z) (act : list Z) : Scheduler :=
  mkScheduler max true [103; 100; 101; 102] act true.

Lemma demo_engine_ok : engine_ok demo_engine.
Proof.
  apply unpin_prefix_inv. eapply (kv_reachable_facts 8 2 4); [lia|apply demo_cached_reachable].
Qed.

Lemma demo_kv_ok : kv_ok demo_engine.
Proof. exact demo_engine_ok. Qed.

Lemma demo_idle : idle (kvm demo_engine).
Proof.
  constructor; [|by vm_compute]. intros q. unfold block_table.
  assert (seq_blocks_ (kvm demo_engine) = ∅) as -> by (vm_compute; reflexivity). by rewrite lookup_empty.
Qed.

Lemma demo_sched_ok max act :
  NoDup ([103; 100; 101; 102] ++ act) -> sched_ok (demo_sched max act) demo_heap demo_engine.
Proof.
  intros Hnd. constructor; [done|]. constructor.
  - by apply NoDup_app in Hnd as [? _].
  - intros _. apply (bool_decide_unpack _). vm_compute. exact I.
  - intros p Hp. simpl in Hp.
    repeat (apply elem_of_cons in Hp as [->|Hp]; [constructor; vm_compute; reflexivity|]).
    by apply elem_of_nil in Hp.
Qed.

Notation demo_round max act :=
  (schedule demo_sort (demo_sched max act) demo_heap demo_engine).

Lemma schedule_accounts_witness :
  exists s' h' e' pf dec, demo_round 10 [104] = (s', h', e', (pf, dec)) /\
    pf = [102; 101; 100] /\ dec = [104] /\ pending_ s' = [] /\ NoDup (pf ++ dec) /\
    status (deref h' 103) = CANCELLED.
Proof.
  destruct (demo_round 10 [104]) as [[[s' h'] e'] [pf dec]] eqn:E.
  exists s', h', e', pf, dec. split; [exact eq_refl|].
  assert (snd (demo_round 10 [104]) = ([102; 101; 100], [104])) as Hb by (vm_compute; reflexivity).
  assert (pending_ (fst (fst (fst (demo_round 10 [104])))) = []) as Hp by (vm_compute; reflexivity).
  assert (status (deref (snd (fst (fst (demo_round 10 [104])))) 103) = CANCELLED) as Hs
    by (vm_compute; reflexivity).
  rewrite E in Hb, Hp, Hs. simpl in Hb, Hp, Hs. injection Hb as -> ->.
  destruct (schedule_accounts demo_sort (demo_sched 10 [104]) demo_heap demo_engine s' h' e' _ _
    demo_sort_spec demo_kv_ok
    (demo_sched_ok 10 [104] ltac:(apply (bool_decide_unpack _); vm_compute; exact I)) E)
    as (promoted & dropped & _ & _ & _ & _ & _ & Hnd & _).
  split; [reflexivity|]. split; [reflexivity|]. split; [exact Hp|]. split; [exact Hnd|exact Hs].
Defined.

Lemma schedule_reserves_blocks_witness :
  exists s' h' e' pf dec, demo_round 2 [] = (s', h', e', (pf, dec)) /\
    100 ∈ pending_ s' /\ engine_table 5 e' = [] /\
    101 ∈ active_ s' /\ Z.of_nat (length (engine_table 6 e')) = 2.
Proof.
  destruct (demo_round 2 []) as [[[s' h'] e'] [pf dec]] eqn:E.
  exists s', h', e', pf, dec. split; [exact eq_refl|].
  assert (pending_ (fst (fst (fst (demo_round 2 [])))) = [100; 103]) as Hp by (vm_compute; reflexivity).
  assert (active_ (fst (fst (fst (demo_round 2 [])))) = [102; 101]) as Ha by (vm_compute; reflexivity).
  rewrite E in Hp, Ha. simpl in Hp, Ha.
  destruct (schedule_reserves_blocks demo_sort (demo_sched 2 []) demo_heap demo_engine s' h' e' pf dec
    demo_sort_spec demo_kv_ok
    (demo_sched_ok 2 [] ltac:(apply (bool_decide_unpack _); vm_compute; exact I)) eq_refl E)
    as (Hpro & Hleft & _).
  rewrite Hp in Hleft |- *. rewrite Ha in Hpro |- *.
  split; [by left|]. split; [apply (Hleft 100); by left|]. split; [by right; left|].
  destruct (Hpro 101 ltac:(by right; left) ltac:(by apply not_elem_of_nil)) as (_ & _ & _ & _ & _ & H).
  exact H.
Defined.

Lemma idle_round_progresses_witness :
  exists s' h' e' pf dec, demo_round 1 [] = (s', h', e', (pf, dec)) /\ 102 ∉ pending_ s'.
Proof.
  destruct (demo_round 1 []) as [[[s' h'] e'] [pf dec]] eqn:E.
  exists s', h', e', pf, dec. split; [exact eq_refl|].
  apply (idle_round_progresses demo_sort (demo_sched 1 []) demo_heap demo_engine s' h' e' pf dec 102
    [101; 100; 103] demo_sort_spec demo_engine_ok demo_idle);
    [vm_compute; reflexivity| |reflexivity..|vm_compute; reflexivity|exact E].
  apply demo_sched_ok, (bool_decide_unpack _). vm_compute. exact I.
Defined.

(** Two of the eight blocks are pinned, no sequence is live, and a prompt of
    thirteen tokens needs seven blocks. *)
Definition demo_pinned_engine : Engine := mkEngine demo_cached None NoHook true false false.
Definition demo_big_heap : heap := {[200 := demo_request 20 PENDING (replicate 13 4)]}.
Definition demo_stuck : Scheduler := mkScheduler 4 false [200] [] true.

(** The idleness hypothesis of [idle_round_progresses] is needed, because the
    capacity check compares with the whole cache and not with what is not pinned.
    With no live sequence and two of eight blocks pinned, a prompt that needs
    seven blocks is neither admitted nor cancelled: the round changes nothing, so
    every later round repeats it. *)
Theorem pinned_cache_starves :
  kv_reachable 8 2 4 (kvm demo_pinned_engine) /\ seq_blocks_ (kvm demo_pinned_engine) = ∅ /\
  num_pinned_blocks (kvm demo_pinned_engine) = 2 /\
  ceil_blocks (num_input (deref demo_big_heap 200)) (kv_block_size demo_pinned_engine) = 7 /\
  schedule demo_sort demo_stuck demo_big_heap demo_pinned_engine =
    (demo_stuck, demo_big_heap, demo_pinned_engine, ([], [])).
Proof. split; [apply demo_cached_reachable|]. repeat split; vm_compute; reflexivity. Qed.
