(* ===== verification/StreamPipeline.v ===== *)
(** * Streaming text: UTF-8 boundaries and stop-sequence holdback

    Models [tools/quench-server/stream_pipeline.h], [Utf8Stitch] of
    [tools/quench-server/utils.cpp] and the stop handling of the two response
    loops: the streaming one ([stream_driver.cpp]) and the buffered one
    ([handlers_chat.cpp], [handlers_chat_core.cpp]).  A string is a list of
    bytes, each a [Z] in [0, 256). *)

From Corelib Require Import ssreflect_rw.
From stdpp Require Import prelude list.
From S2P Require Import Prelude.
Open Scope Z_scope.

Notation bytes := (list Z).

(** ** Codepoint boundaries *)

Definition cont_byte (b : Z) : bool := Z.land b 192 =? 128.

(** Start of the last codepoint at or before index [i]. *)
Fixpoint walk_back (s : bytes) (i : nat) : nat :=
  match i with
  | O => O
  | S i' => if cont_byte (default 0 (s !! i)) then walk_back s i' else i
  end.

Definition lead_len (lead : Z) : option nat :=
  if lead <? 128 then Some 1%nat
  else if Z.land lead 224 =? 192 then Some 2%nat
  else if Z.land lead 240 =? 224 then Some 3%nat
  else if Z.land lead 248 =? 240 then Some 4%nat
  else None.

Definition utf8_complete_len (s : bytes) : nat :=
  let len := length s in
  match len with
  | O => O
  | S _ =>
      let i := walk_back s (len - 1) in
      match lead_len (default 0 (s !! i)) with
      | None => i
      | Some expected => if Nat.leb (i + expected) len then len else i
      end
  end.

(** ** Holdback *)

Fixpoint starts_with (pat s : bytes) : bool :=
  match pat, s with
  | [], _ => true
  | a :: pat, b :: s => (a =? b) && starts_with pat s
  | _ :: _, [] => false
  end.

(** [s.find(pat)]. *)
Fixpoint str_find (pat s : bytes) : option nat :=
  if starts_with pat s then Some O
  else match s with
       | [] => None
       | _ :: s => S <$> str_find pat s
       end.

Record HoldbackDecision := mkDecision { complete_match : bool; flush_len : nat }.

Fixpoint stop_scan (stops : list bytes) (pending : bytes) : option nat :=
  match stops with
  | [] => None
  | stop :: stops =>
      if bool_decide (stop = []) then stop_scan stops pending
      else match str_find stop pending with
           | Some pos => Some pos
           | None => stop_scan stops pending
           end
  end.

Definition holdback_decision (pending : bytes) (max_stop_len : nat) (stops : list bytes)
    : HoldbackDecision :=
  match stop_scan stops pending with
  | Some pos => mkDecision true pos
  | None =>
      if Nat.ltb max_stop_len (length pending) then
        let safe := (length pending - max_stop_len + 1)%nat in
        let safe := if Nat.ltb (length pending) safe then length pending else safe in
        mkDecision false (utf8_complete_len (take safe pending))
      else mkDecision false 0
  end.

(** ** The two response loops *)

Definition max_len (stops : list bytes) : nat := foldr (fun s m => Nat.max (length s) m) O stops.

(** What a response loop did: the text of the reply, and the pieces it never
    read because a stop sequence ended it ([None]: it read them all without
    meeting one). *)
Definition Response : Type := bytes * option (list bytes).

(** [stream_driver.cpp]: everything sent to the client. *)
Fixpoint stream_run (m : nat) (stops : list bytes) (pending : bytes) (pieces : list bytes)
    : Response :=
  match pieces with
  | [] => (pending, None)
  | piece :: pieces =>
      let pending := pending ++ piece in
      let d := holdback_decision pending m stops in
      if complete_match d then (take (flush_len d) pending, Some pieces)
      else
        let '(text, unread) := stream_run m stops (drop (flush_len d) pending) pieces in
        (take (flush_len d) pending ++ text, unread)
  end.

Fixpoint stop_cut (stops : list bytes) (text : bytes) : option nat :=
  match stops with
  | [] => None
  | stop :: stops =>
      match str_find stop text with
      | Some pos => Some pos
      | None => stop_cut stops text
      end
  end.

(** [handlers_chat.cpp]: the text of the buffered response. *)
Fixpoint buffered_run (stops : list bytes) (text : bytes) (pieces : list bytes) : Response :=
  match pieces with
  | [] => (text, None)
  | piece :: pieces =>
      let text := text ++ piece in
      match stop_cut stops text with
      | Some pos => (take pos text, Some pieces)
      | None => buffered_run stops text pieces
      end
  end.

(** ** Joining split characters *)

(** [Utf8Stitch::feed]: the text passed on and the new [carry_]. *)
Definition stitch_feed (carry piece : bytes) : bytes * bytes :=
  let buf := carry ++ piece in
  let complete := utf8_complete_len buf in
  if Nat.ltb complete (length buf) && Nat.leb (length buf - complete) 3 then
    (take complete buf, drop complete buf)
  else (buf, []).

Fixpoint stitch_run (carry : bytes) (pieces : list bytes) : list bytes * bytes :=
  match pieces with
  | [] => ([], carry)
  | piece :: pieces =>
      let '(out, carry) := stitch_feed carry piece in
      let '(outs, carry) := stitch_run carry pieces in
      (out :: outs, carry)
  end.

(** ** Well-formed text *)

(** A codepoint: a lead byte announcing its length, then continuation bytes. *)
Definition codepoint (cp : bytes) : Prop :=
  match cp with
  | [] => False
  | lead :: rest =>
      0 <= lead < 256 /\ lead_len lead = Some (length cp) /\ Forall (fun b => cont_byte b = true) rest
  end.

(** A proper prefix of a codepoint, possibly empty. *)
Definition partial (part : bytes) : Prop := part = [] \/ exists rest, rest ≠ [] /\ part ≠ [] /\ codepoint (part ++ rest).

Lemma lead_not_cont lead n : 0 <= lead < 256 -> lead_len lead = Some n -> cont_byte lead = false.
Proof.
  intros Hl E. assert (forallb (fun k => let b := Z.of_nat k in
    negb (cont_byte b) || bool_decide (lead_len b = None)) (seq 0 256) = true) as Hall
    by (vm_compute; reflexivity).
  rewrite forallb_forall in Hall. specialize (Hall (Z.to_nat lead) ltac:(apply in_seq; lia)).
  cbv zeta in Hall. rewrite Z2Nat.id, E in Hall by lia. by destruct (cont_byte lead).
Qed.

Lemma walk_back_app s t i : (i < length s)%nat -> walk_back (s ++ t) i = walk_back s i.
Proof.
  induction i as [|i IH]; intros Hi; [done|]. cbn [walk_back].
  rewrite lookup_app_l, IH by lia. done.
Qed.

Lemma walk_back_lead s0 lead rest :
  cont_byte lead = false -> Forall (fun b => cont_byte b = true) rest ->
  walk_back (s0 ++ lead :: rest) (length s0 + length rest) = length s0.
Proof.
  intros Hl. induction rest as [|b rest IH] using rev_ind; intros Hr.
  - rewrite Nat.add_0_r. destruct (length s0) eqn:E; [done|]. cbn [walk_back].
    rewrite <- E, list_lookup_middle by done. simpl. by rewrite Hl, E.
  - apply Forall_app in Hr as [Hr [Hb _]%Forall_cons].
    rewrite length_app, Nat.add_1_r, Nat.add_succ_r. cbn [walk_back].
    rewrite (app_comm_cons rest), app_assoc, lookup_app_r by (rewrite length_app; simpl; lia).
    replace (_ - _)%nat with 0%nat by (rewrite length_app; simpl; lia). simpl. rewrite Hb.
    rewrite walk_back_app by (rewrite length_app; simpl; lia). by apply IH.
Qed.

Lemma complete_len_lead s0 lead rest n :
  0 <= lead < 256 -> lead_len lead = Some n -> Forall (fun b => cont_byte b = true) rest ->
  utf8_complete_len (s0 ++ lead :: rest) =
    if Nat.leb n (S (length rest)) then length (s0 ++ lead :: rest) else length s0.
Proof.
  intros Hl E Hr. unfold utf8_complete_len. rewrite length_app. cbn [length].
  destruct (length s0 + S (length rest))%nat eqn:El; [lia|].
  replace (S n0 - 1)%nat with (length s0 + length rest)%nat by lia.
  rewrite walk_back_lead; [|by eapply lead_not_cont|done].
  rewrite list_lookup_middle by done. simpl default. rewrite E.
  destruct (Nat.leb_spec n (S (length rest))), (Nat.leb_spec (length s0 + n) (S n0)); lia.
Qed.

(** Only whole characters leave the buffer.  For any well-formed text cut
    anywhere, [utf8_complete_len] is exactly the length of its complete
    codepoints: the trailing incomplete one, and only that, is held back. *)
Theorem utf8_complete_len_exact cps part :
  Forall codepoint cps -> partial part ->
  utf8_complete_len (concat cps ++ part) = length (concat cps).
Proof.
  intros Hc [->|(rest & Hne & Hp & Hcp)].
  - rewrite app_nil_r. destruct cps as [|cp cps _] using rev_ind; [done|].
    apply Forall_app in Hc as [_ [Hcp _]%Forall_cons]. rewrite concat_app. simpl. rewrite app_nil_r.
    destruct cp as [|lead r]; [done|]. destruct Hcp as (Hl & E & Hr).
    rewrite (complete_len_lead _ _ _ _ Hl E Hr). by rewrite (proj2 (Nat.leb_le _ _)).
  - destruct part as [|lead r]; [done|]. destruct Hcp as (Hl & E & [Hr _]%Forall_app).
    rewrite (complete_len_lead _ _ _ _ Hl E Hr), (proj2 (Nat.leb_gt _ _)); [done|].
    simpl. rewrite length_app. destruct rest; [done|]. simpl. lia.
Qed.

Lemma utf8_complete_len_exact_witness :
  utf8_complete_len (concat [[103]; [114]; [195; 182]] ++ [226; 130]) = 4%nat.
Proof.
  apply (utf8_complete_len_exact [[103]; [114]; [195; 182]] [226; 130]).
  - repeat constructor; lia.
  - right. exists [172]. repeat split; try done; try lia. repeat constructor.
Defined.

(** ** Joining: nothing is lost, nothing is split *)

Lemma codepoint_length cp : codepoint cp -> (1 <= length cp <= 4)%nat.
Proof.
  destruct cp as [|lead rest]; [done|]. intros (_ & E & _). unfold lead_len in E.
  repeat case_match; simplify_eq; lia.
Qed.

Lemma partial_length part : partial part -> (length part <= 3)%nat.
Proof.
  intros [->|(rest & Hne & _ & Hc%codepoint_length)]; [simpl; lia|]. rewrite length_app in Hc.
  destruct rest; [done|]. simpl in *. lia.
Qed.

Lemma prefix_split cps part u v :
  Forall codepoint cps -> partial part -> concat cps ++ part = u ++ v ->
  exists c1 c2 p1, cps = c1 ++ c2 /\ u = concat c1 ++ p1 /\ partial p1 /\ p1 ++ v = concat c2 ++ part.
Proof.
  revert u. induction cps as [|cp cps IH]; intros u Hc Hp E.
  - exists [], [], u. split_and!; try done. simpl in E. subst part. destruct u as [|a u]; [by left|].
    destruct Hp as [Hp|(rest & Hne & _ & Hcp)]; [done|]. right. exists (v ++ rest).
    rewrite app_assoc. split_and!; [|done|done]. destruct v; [by destruct rest|done].
  - apply Forall_cons in Hc as [Hcp Hc]. simpl in E. rewrite <- app_assoc in E.
    apply app_eq_app in E as [l [[-> E]|[-> E]]].
    + destruct l as [|x l].
      * exists [u], cps, []. simpl in *. rewrite !app_nil_r. split_and!; [done|done|by left|done].
      * exists [], ((u ++ x :: l) :: cps), u. simpl. split_and!; [done|done| |].
        -- destruct u as [|a u]; [by left|]. right. by exists (x :: l).
        -- rewrite E, <- !app_assoc. done.
    + destruct (IH l Hc Hp E) as (c1 & c2 & p1 & -> & -> & Hp1 & E2).
      exists (cp :: c1), c2, p1. simpl. by rewrite app_assoc.
Qed.

Lemma stitch_feed_split c1 p1 carry piece :
  Forall codepoint c1 -> partial p1 -> carry ++ piece = concat c1 ++ p1 ->
  stitch_feed carry piece = (concat c1, p1).
Proof.
  intros Hc Hp E. unfold stitch_feed. rewrite E, utf8_complete_len_exact by done.
  pose proof (partial_length _ Hp). rewrite length_app. rewrite Nat.add_comm, Nat.add_sub.
  destruct p1 as [|a p1]; simpl.
  - rewrite (proj2 (Nat.ltb_ge _ _)) by lia. by rewrite app_nil_r.
  - rewrite (proj2 (Nat.ltb_lt _ _)), (proj2 (Nat.leb_le _ _)) by (simpl in *; lia).
    by rewrite take_app_length, drop_app_length.
Qed.

Lemma partial_unique cps part carry :
  Forall codepoint cps -> partial part -> partial carry -> carry = concat cps ++ part -> carry = part.
Proof.
  intros Hc Hp Hcar E. pose proof (utf8_complete_len_exact [] carry ltac:(done) Hcar) as E1.
  simpl in E1. rewrite E, utf8_complete_len_exact in E1 by done.
  apply nil_length_inv in E1. by rewrite E1 in E.
Qed.

Lemma stitch_run_text carry pieces :
  let '(outs, c) := stitch_run carry pieces in concat outs ++ c = carry ++ concat pieces.
Proof.
  revert carry. induction pieces as [|p ps IH]; intros carry; simpl; [by rewrite app_nil_r|].
  destruct (stitch_feed carry p) as [o c1] eqn:E. specialize (IH c1).
  destruct (stitch_run c1 ps) as [os c2]. simpl. rewrite <- app_assoc, IH, !app_assoc. f_equal.
  unfold stitch_feed in E. case_match; injection E as <- <-; [apply take_drop|apply app_nil_r].
Qed.

Lemma stitch_run_chars pieces carry cps part :
  partial carry -> Forall codepoint cps -> partial part -> carry ++ concat pieces = concat cps ++ part ->
  let '(outs, c) := stitch_run carry pieces in
  c = part /\ Forall (fun o => exists ocps, Forall codepoint ocps /\ o = concat ocps) outs.
Proof.
  revert carry cps. induction pieces as [|p ps IH]; intros carry cps Hcar Hc Hp E; simpl.
  { rewrite app_nil_r in E. split; [|done]. by eapply partial_unique. }
  simpl in E. rewrite app_assoc in E. symmetry in E.
  destruct (prefix_split _ _ _ _ Hc Hp E) as (c1 & c2 & p1 & -> & Eb & Hp1 & E2).
  apply Forall_app in Hc as [Hc1 Hc2].
  rewrite (stitch_feed_split c1 p1) by done. specialize (IH p1 c2 Hp1 Hc2 Hp E2).
  destruct (stitch_run p1 ps) as [os c]. destruct IH as [-> Hos]. split; [done|]. constructor; [|done].
  by exists c1.
Qed.

(** C12: [Utf8Stitch] loses nothing and splits nothing.  Whatever the pieces, the
    texts passed on followed by the carry are the input; and when the input is
    well-formed text cut anywhere, every text passed on consists of whole
    codepoints and the carry is the one incomplete codepoint, at most three
    bytes. *)
Theorem utf8_stitch_exact pieces :
  let '(outs, carry) := stitch_run [] pieces in
  concat outs ++ carry = concat pieces /\
  (forall cps part, Forall codepoint cps -> partial part -> concat pieces = concat cps ++ part ->
     carry = part /\ (length carry <= 3)%nat /\
     Forall (fun o => exists ocps, Forall codepoint ocps /\ o = concat ocps) outs).
Proof.
  pose proof (stitch_run_text [] pieces) as Ht.
  pose proof (fun cps part => stitch_run_chars pieces [] cps part ltac:(by left)) as Hch.
  destruct (stitch_run [] pieces) as [outs carry]. split; [done|]. intros cps part Hc Hp E.
  destruct (Hch cps part Hc Hp E) as [-> Hos]. split_and!; [done|by apply partial_length|done].
Qed.

Lemma utf8_stitch_exact_witness :
  stitch_run [] [[103; 195]; [182; 226]] = ([[103]; [195; 182]], [226]) /\
  (length [226] <= 3)%nat.
Proof.
  pose proof (utf8_stitch_exact [[103; 195]; [182; 226]]) as H.
  change (stitch_run [] [[103; 195]; [182; 226]]) with ([[103]; [195; 182]], [226]) in H |- *.
  split; [reflexivity|].
  apply (proj2 H [[103]; [195; 182]] [226]); [repeat constructor; lia| |reflexivity].
  right. exists [130; 172]. repeat split; try done; try lia. repeat constructor.
Defined.

(** ** Holdback never leaks a stop sequence *)

Lemma starts_with_app pat s t : starts_with pat s = true -> starts_with pat (s ++ t) = true.
Proof.
  revert s. induction pat as [|a pat IH]; intros [|b s]; simpl; try done.
  rewrite !andb_true_iff. naive_solver.
Qed.

Lemma starts_with_app_inv pat s t :
  (length pat <= length s)%nat -> starts_with pat (s ++ t) = starts_with pat s.
Proof.
  revert s. induction pat as [|a pat IH]; intros [|b s]; simpl; intros Hl; try done; try lia.
  by rewrite IH by lia.
Qed.

Lemma starts_with_length pat s : starts_with pat s = true -> (length pat <= length s)%nat.
Proof.
  revert s. induction pat as [|a pat IH]; intros [|b s]; simpl; try done; try lia.
  rewrite andb_true_iff. intros [_ ?%IH]. lia.
Qed.

(** [find] in a text whose first bytes start no occurrence. *)
Lemma str_find_skip pat e s :
  (forall i, (i < length e)%nat -> starts_with pat (drop i (e ++ s)) = false) ->
  str_find pat (e ++ s) = Nat.add (length e) <$> str_find pat s.
Proof.
  induction e as [|a e IH]; intros Hn; simpl; [by destruct (str_find pat s)|].
  pose proof (Hn 0%nat ltac:(simpl; lia)) as H0. simpl in H0. rewrite H0, IH.
  - by destruct (str_find pat s).
  - intros i Hi. apply (Hn (S i)). simpl. lia.
Qed.

Lemma str_find_none pat s :
  str_find pat s = None <-> forall i, (i <= length s)%nat -> starts_with pat (drop i s) = false.
Proof.
  induction s as [|b s IH]; cbn [str_find].
  - destruct (starts_with pat []) eqn:E; split; try done.
    + intros Hn. pose proof (Hn 0%nat ltac:(simpl; lia)) as H0. simpl in H0. congruence.
    + intros _ i Hi. simpl in Hi. by replace i with 0%nat by lia.
  - destruct (starts_with pat (b :: s)) eqn:E.
    + split; [done|]. intros Hn. pose proof (Hn 0%nat ltac:(lia)) as H0. simpl in H0. congruence.
    + rewrite fmap_None, IH. split.
      * intros Hn [|i] Hi; [done|]. apply Hn. simpl in Hi. lia.
      * intros Hn i Hi. apply (Hn (S i)). simpl. lia.
Qed.

Lemma max_len_le stops stop : stop ∈ stops -> (length stop <= max_len stops)%nat.
Proof. induction 1; simpl; lia. Qed.

Lemma stop_scan_cut stops s : Forall (.≠ []) stops -> stop_scan stops s = stop_cut stops s.
Proof.
  induction 1 as [|stop stops Hne _ IH]; [done|]. simpl. rewrite bool_decide_eq_false_2 by done.
  by rewrite IH.
Qed.

Lemma stop_cut_none stops s stop :
  stop_cut stops s = None -> stop ∈ stops -> str_find stop s = None.
Proof.
  intros Hn. induction 1 as [|y stop stops _ IH]; simpl in Hn; destruct (str_find _ s) eqn:E; naive_solver.
Qed.

Lemma stop_cut_skip stops e s :
  (forall stop i, stop ∈ stops -> (i < length e)%nat -> starts_with stop (drop i (e ++ s)) = false) ->
  stop_cut stops (e ++ s) = Nat.add (length e) <$> stop_cut stops s.
Proof.
  induction stops as [|stop stops IH]; intros Hn; [done|]. simpl.
  rewrite str_find_skip by (intros; apply Hn; [by left|done]).
  rewrite IH by (intros; apply Hn; [by right|done]). by destruct (str_find stop s).
Qed.

(** What the client has been sent so far: no stop sequence occurs in the text,
    and none can still start inside what was sent. *)
Record sent_ok (stops : list bytes) (sent pending : bytes) : Prop := {
  so_none : stop_cut stops (sent ++ pending) = None;
  so_held : sent = [] \/ (length sent + max_len stops <= length (sent ++ pending) + 1)%nat
}.

Lemma sent_ok_no_start stops sent pending more stop i :
  sent_ok stops sent pending -> stop ∈ stops -> (i < length sent)%nat ->
  starts_with stop (drop i (sent ++ pending ++ more)) = false.
Proof.
  intros [Hn [->|Hl]] Hin Hi; [simpl in Hi; lia|].
  pose proof (max_len_le _ _ Hin). rewrite app_assoc, drop_app_le by lia.
  rewrite starts_with_app_inv by (rewrite length_drop; lia).
  apply (proj1 (str_find_none _ _) (stop_cut_none _ _ _ Hn Hin)). rewrite length_app. lia.
Qed.

Lemma utf8_complete_len_le s : (utf8_complete_len s <= length s)%nat.
Proof.
  unfold utf8_complete_len. destruct (length s) as [|n] eqn:El; [lia|].
  assert (forall i, (walk_back s i <= i)%nat) as Hw.
  { induction i as [|i IH]; cbn [walk_back]; [lia|]. case_match; lia. }
  specialize (Hw (S n - 1)%nat). repeat case_match; lia.
Qed.

Lemma flush_bounds pending m stops :
  let d := holdback_decision pending m stops in
  complete_match d = false -> (0 < m)%nat ->
  (flush_len d <= length pending)%nat /\
  (flush_len d = 0%nat \/ (flush_len d + m <= length pending + 1)%nat).
Proof.
  cbv zeta. unfold holdback_decision. intros Hd Hm. destruct (stop_scan stops pending); [done|].
  destruct (Nat.ltb_spec m (length pending)); simpl; [|lia].
  rewrite (proj2 (Nat.ltb_ge _ _)) by lia.
  pose proof (utf8_complete_len_le (take (length pending - m + 1) pending)) as Hle.
  rewrite length_take in Hle. lia.
Qed.

Lemma stream_run_buffered stops sent pending pieces :
  Forall (.≠ []) stops -> stops ≠ [] -> sent_ok stops sent pending ->
  (sent ++ (stream_run (max_len stops) stops pending pieces).1,
   (stream_run (max_len stops) stops pending pieces).2) =
  buffered_run stops (sent ++ pending) pieces.
Proof.
  intros Hne Hs. assert (0 < max_len stops)%nat as Hm.
  { destruct stops as [|[|x s] stops]; [done| |simpl; lia]. by apply Forall_cons in Hne as [? _]. }
  revert sent pending. induction pieces as [|p ps IH]; intros sent pending Hok; [done|].
  cbn [stream_run buffered_run]. set (d := holdback_decision _ _ _).
  assert (stop_cut stops ((sent ++ pending) ++ p) =
          Nat.add (length sent) <$> stop_cut stops (pending ++ p)) as Hcut.
  { rewrite <- app_assoc. apply stop_cut_skip. intros. by eapply sent_ok_no_start. }
  rewrite Hcut. destruct (complete_match d) eqn:Ed.
  - assert (stop_cut stops (pending ++ p) = Some (flush_len d)) as ->.
    { unfold d, holdback_decision in *. rewrite <- stop_scan_cut by done.
      destruct (stop_scan stops (pending ++ p)); [done|]. by case_match. }
    simpl. by rewrite <- app_assoc, take_app_add.
  - destruct (flush_bounds (pending ++ p) (max_len stops) stops Ed Hm) as [Hle Hfl].
    fold d in Hle, Hfl.
    assert (stop_cut stops (pending ++ p) = None) as Hnone.
    { unfold d, holdback_decision in *. rewrite <- stop_scan_cut by done. by destruct (stop_scan _ _). }
    rewrite Hnone in Hcut |- *. simpl.
    assert ((sent ++ take (flush_len d) (pending ++ p)) ++ drop (flush_len d) (pending ++ p) =
            (sent ++ pending) ++ p) as Et by (by rewrite <- !app_assoc, take_drop).
    rewrite <- Et, <- IH; [destruct (stream_run _ _ _ ps); simpl; by rewrite app_assoc|].
    constructor; rewrite Et; [done|].
    destruct Hfl as [Hz|Hf]; [|right].
    + rewrite Hz, take_0, app_nil_r. destruct (so_held _ _ _ Hok) as [->|Hl]; [by left|right].
      rewrite (length_app _ p). lia.
    + rewrite !length_app, length_take in *. lia.
Qed.

(** C13: streaming and buffering agree on stop sequences.  However the text is cut
    into pieces, what the streaming loop sends to the client, holdback and final
    flush included, is exactly the text the buffered loop returns: no byte of a
    stop sequence leaks and no byte before one is lost; and a stop sequence ends
    both loops at the same piece, with the same pieces left unread, or neither.
    The stop sequences are at least one and none is empty. *)
Theorem stream_matches_buffered stops pieces :
  Forall (.≠ []) stops -> stops ≠ [] ->
  stream_run (max_len stops) stops [] pieces = buffered_run stops [] pieces.
Proof.
  intros Hne Hs. rewrite <- (stream_run_buffered stops [] []); [|done|done|].
  { by destruct (stream_run _ _ _ _). }
  constructor; [|by left]. clear Hs. induction Hne as [|[|x s] stops Hx _ IH]; done.
Qed.

Lemma stream_matches_buffered_witness :
  stream_run (max_len [[60; 47]; [10]]) [[60; 47]; [10]] [] [[104; 60]; [105; 60]; [47; 106]; [7]] =
    ([104; 60; 105], Some [[7]]) /\
  buffered_run [[60; 47]; [10]] [] [[104; 60]; [105; 60]; [47; 106]; [7]] =
    ([104; 60; 105], Some [[7]]).
Proof.
  rewrite <- (stream_matches_buffered [[60; 47]; [10]] [[104; 60]; [105; 60]; [47; 106]; [7]]);
    [split; vm_compute; reflexivity|by repeat constructor|done].
Defined.

(** The hypothesis that no stop sequence is empty matters: nothing rejects an
    empty one, the buffered loop finds it at offset 0, the streaming loop skips
    it. *)
Theorem empty_stop_diverges :
  buffered_run [[]] [] [[104; 105]] = ([], Some []) /\
  stream_run (max_len [[]]) [[]] [] [[104; 105]] = ([104; 105], None).
Proof. split; vm_compute; reflexivity. Qed.

(** The match reported is the first of the list that occurs, not the earliest
    occurrence: with stops "b" and "a", the text "ab" is cut before "b". *)
Theorem first_stop_not_earliest :
  holdback_decision [97; 98] 1 [[98]; [97]] = mkDecision true 1.
Proof. vm_compute. reflexivity. Qed.
