(* ===== verification/ReasoningSplit.v ===== *)
(** * Reasoning and content

    Models [StreamReasoningSplitter] and [reconcile_thinking_with_prompt_tail] of
    [tools/quench-server/reasoning_split.h], which divide the text of a streamed
    reply into reasoning and content at [<think>] and [</think>], and the
    divisions of a complete reply in [utils.cpp].  The loop of [feed] takes fuel,
    which [feed_total] shows to be enough. *)

From Corelib Require Import ssreflect_rw.
From stdpp Require Import prelude list strings.
From S2P Require Import Prelude StreamPipeline.
Open Scope Z_scope.

Definition OPEN : bytes := src_of "<think>".
Definition CLOSE : bytes := src_of "</think>".

Definition is_blank (c : Z) : bool := (c =? 10) || (c =? 13) || (c =? 9) || (c =? 32).

(** From the first character that is not blank; nothing when there is none. *)
Fixpoint skip_blank (s : bytes) : bytes :=
  match s with c :: s' => if is_blank c then skip_blank s' else s | [] => [] end.

Definition trim (s : bytes) : bytes := rev (skip_blank (rev (skip_blank s))).

(** ** Complete replies *)

(** [text.rfind(pat)]. *)
Fixpoint str_rfind (pat s : bytes) : option nat :=
  match s with
  | [] => if starts_with pat [] then Some O else None
  | _ :: s' => match str_rfind pat s' with Some n => Some (S n) | None => if starts_with pat s then Some O else None end
  end.

Definition split_last_think (text : bytes) : option (bytes * bytes) :=
  match str_rfind CLOSE text with
  | None => None
  | Some last_end =>
      let reasoning := take last_end text in
      let reasoning := match str_find OPEN reasoning with Some p => drop (p + 7) reasoning | None => reasoning end in
      Some (trim reasoning, skip_blank (drop (last_end + 8) text))
  end.

Definition extract_reasoning (text : bytes) : bytes * bytes :=
  match split_last_think text with
  | Some r => r
  | None => match str_find OPEN text with Some p => (trim (drop (p + 7) text), []) | None => ([], text) end
  end.

Definition strip_think_block (text : bytes) : bytes :=
  match split_last_think text with
  | Some (_, content) => if starts_with OPEN content then [] else content
  | None => if starts_with OPEN (skip_blank text) then [] else text
  end.

(** The division of a complete reply in [handlers_chat_core.cpp]: one that never
    closes a block opened in the prompt is all reasoning. *)
Definition divide_reply (enable_thinking : bool) (text : bytes) : bytes * bytes :=
  match enable_thinking, str_find CLOSE text, str_find OPEN text with
  | true, None, None => (text, [])
  | _, _, _ => extract_reasoning text
  end.

Definition reconcile_thinking_with_prompt_tail (current explicit_set tail_has_think tail_has_close : bool) : bool :=
  if tail_has_think && negb tail_has_close then true
  else if tail_has_think && tail_has_close && negb explicit_set then false
  else current.

(** ** The splitter *)

Inductive ThinkPhase : Type := SCAN | REASONING | CONTENT.

Record Splitter := mkSplitter {
  phase : ThinkPhase;
  think_start_id : Z;
  think_end_id : Z;
  scan_limit : Z;
  max_reentries : Z;
  content_started : bool;
  scan_count : Z;
  reentries : Z;
  scan_buf : bytes;
  rbuf : bytes;
  cbuf : bytes
}.

Definition new_splitter (start : ThinkPhase) (start_id end_id limit max : Z) : Splitter :=
  mkSplitter start start_id end_id limit max (match start with CONTENT => true | _ => false end) 0 0 [] [] [].

Definition with_scan (s : Splitter) (p : ThinkPhase) (n : Z) (buf : bytes) : Splitter :=
  mkSplitter p (think_start_id s) (think_end_id s) (scan_limit s) (max_reentries s) (content_started s) n (reentries s) buf (rbuf s) (cbuf s).
Definition with_rbuf (s : Splitter) (p : ThinkPhase) (started : bool) (buf : bytes) : Splitter :=
  mkSplitter p (think_start_id s) (think_end_id s) (scan_limit s) (max_reentries s) started (scan_count s) (reentries s) (scan_buf s) buf (cbuf s).
Definition with_cbuf (s : Splitter) (p : ThinkPhase) (started : bool) (n : Z) (buf : bytes) : Splitter :=
  mkSplitter p (think_start_id s) (think_end_id s) (scan_limit s) (max_reentries s) started (scan_count s) n (scan_buf s) (rbuf s) buf.

Record Result := mkResult { reasoning : bytes; content : bytes; reasoning_tokens : Z }.

Definition no_result : Result := mkResult [] [] 0.
Definition add_reasoning (r : Result) (t : bytes) : Result := mkResult (reasoning r ++ t) (content r) (reasoning_tokens r).
Definition add_content (r : Result) (t : bytes) : Result := mkResult (reasoning r) (content r ++ t) (reasoning_tokens r).
Definition add_tokens (r : Result) (n : Z) : Result := mkResult (reasoning r) (content r) (reasoning_tokens r + n).

Definition kOverlap : nat := 7.

(** The erasing loops; each round shortens the text. *)
Fixpoint erase_all (fuel : nat) (pat s : bytes) : bytes :=
  match fuel with
  | O => s
  | S fuel => match str_find pat s with Some p => erase_all fuel pat (take p s ++ drop (p + length pat) s) | None => s end
  end.

Definition erase (pat s : bytes) : bytes := erase_all (length s) pat s.

(** The longest proper prefix of one needle the buffer ends with, at most [k] long. *)
Fixpoint pending_prefix (nd buf : bytes) (k : nat) : nat :=
  match k with
  | O => O
  | S k' => if bool_decide (drop (length buf - k) buf = take k nd) then k else pending_prefix nd buf k'
  end.

Definition pending_tag_prefix (buf : bytes) : nat :=
  Nat.max (pending_prefix OPEN buf (Nat.min (length OPEN - 1) (length buf)))
    (pending_prefix CLOSE buf (Nat.min (length CLOSE - 1) (length buf))).

Fixpoint back_to_lead (s : bytes) (i : nat) : nat :=
  match i with O => O | S i' => if cont_byte (default 0 (s !! i)) then back_to_lead s i' else i end.

(** [emit_with_overlap]: what is emitted and what stays. *)
Definition emit_with_overlap (buf : bytes) : bytes * bytes :=
  let complete := utf8_complete_len buf in
  if Nat.leb complete kOverlap then ([], buf)
  else let e := back_to_lead buf (complete - kOverlap) in (take e buf, drop e buf).

(** The scan of the content buffer: stray closers turn what precedes them into
    reasoning; an opener ends it with the text that follows. *)
Inductive Scanned : Type := Reenter (r : Result) (work : bytes) | Stay (r : Result) (buf : bytes).

Fixpoint scan_content (fuel : nat) (may_reenter : bool) (r : Result) (buf : bytes) : Scanned :=
  match fuel with
  | O => Stay r buf
  | S fuel =>
      let tp := if may_reenter then str_find OPEN buf else None in
      let cp := str_find CLOSE buf in
      match tp, cp with
      | Some t, None => Reenter (add_content r (take t buf)) (drop (t + 7) buf)
      | Some t, Some c =>
          if Nat.ltb t c then Reenter (add_content r (take t buf)) (drop (t + 7) buf)
          else scan_content fuel may_reenter (add_reasoning r (take c buf)) (drop (c + 8) buf)
      | None, Some c => scan_content fuel may_reenter (add_reasoning r (take c buf)) (drop (c + 8) buf)
      | None, None => Stay r buf
      end
  end.

(** What one round of the loop of [feed] ends in. *)
Inductive Round : Type := Return (s : Splitter) (r : Result) | Again (s : Splitter) (r : Result) (work : bytes).

Definition is_token (id token : Z) (live : bool) : bool := live && (0 <=? id) && (token =? id).

Definition scan_round (s : Splitter) (r : Result) (work : bytes) (token : Z) (live : bool) : Round :=
  if is_token (think_start_id s) token live then Return (with_scan s REASONING (scan_count s) (scan_buf s)) (add_tokens r 1)
  else if is_token (think_end_id s) token live then
    Return (with_scan s CONTENT (scan_count s) []) (add_tokens (add_reasoning r (scan_buf s)) (scan_count s + 1))
  else
    let buf := scan_buf s ++ work in
    let n := scan_count s + 1 in
    match str_find OPEN buf with
    | Some p => Again (with_scan s REASONING n []) (add_tokens r n) (drop (p + 7) buf)
    | None =>
        match str_find CLOSE buf with
        | Some pc => Again (with_scan s CONTENT n []) (add_tokens (add_reasoning r (take pc buf)) n) (drop (pc + 8) buf)
        | None =>
            if (n =? 1) && bool_decide (work = []) then Return (with_scan s REASONING n buf) (add_tokens r 1)
            else if scan_limit s <=? n then Again (with_scan s CONTENT n []) r buf
            else Return (with_scan s SCAN n buf) r
        end
    end.

Definition reasoning_round (s : Splitter) (r : Result) (work : bytes) (token : Z) (live : bool) : Round :=
  let r := if live then add_tokens r 1 else r in
  if is_token (think_end_id s) token live then Return (with_rbuf s CONTENT (content_started s) []) (add_reasoning r (rbuf s))
  else if is_token (think_start_id s) token live then Return s r
  else
    let buf := erase OPEN (rbuf s ++ work) in
    match str_find CLOSE buf with
    | Some p =>
        let r := add_reasoning r (take p buf) in
        let after := skip_blank (drop (p + 8) buf) in
        if bool_decide (after = []) then Return (with_rbuf s CONTENT (content_started s) []) r
        else Again (with_rbuf s CONTENT true []) r after
    | None => let (out, rest) := emit_with_overlap buf in Return (with_rbuf s REASONING (content_started s) rest) (add_reasoning r out)
    end.

Definition content_round (s : Splitter) (r : Result) (work : bytes) : Round :=
  let work := if content_started s then work else skip_blank work in
  if negb (content_started s) && bool_decide (work = []) then Return s r
  else
    let buf := cbuf s ++ work in
    match scan_content (S (length buf)) (reentries s <? max_reentries s) r buf with
    | Reenter r work => Again (with_cbuf s REASONING true (reentries s + 1) []) r work
    | Stay r buf =>
        let hold := Nat.max (pending_tag_prefix buf) (length buf - utf8_complete_len buf) in
        let n := (length buf - hold)%nat in
        Return (with_cbuf s CONTENT true (reentries s) (drop n buf)) (add_content r (take n buf))
    end.

(** [None] when the fuel is short. *)
Fixpoint feed_loop (fuel : nat) (s : Splitter) (r : Result) (work : bytes) (token : Z) (live : bool) : option (Splitter * Result) :=
  match fuel with
  | O => None
  | S fuel =>
      match (match phase s with
             | SCAN => scan_round s r work token live
             | REASONING => reasoning_round s r work token live
             | CONTENT => content_round s r work
             end) with
      | Return s r => Some (s, r)
      | Again s r work => feed_loop fuel s r work token false
      end
  end.

Definition feed_fuel (s : Splitter) (piece : bytes) : nat :=
  (3 + length (scan_buf s) + length (rbuf s) + length (cbuf s) + length piece)%nat.

Definition feed (s : Splitter) (piece : bytes) (token : Z) : option (Splitter * Result) :=
  feed_loop (feed_fuel s piece) s no_result piece token true.

Definition flush_scan (s : Splitter) : Splitter * Result :=
  match phase s with
  | SCAN => (mkSplitter CONTENT (think_start_id s) (think_end_id s) (scan_limit s) (max_reentries s) true (scan_count s)
               (reentries s) [] (rbuf s) (cbuf s), mkResult [] (scan_buf s) 0)
  | _ => (s, no_result)
  end.

Definition finish (s : Splitter) : Splitter * Result :=
  match phase s with
  | REASONING => (with_rbuf s REASONING (content_started s) [], mkResult (rbuf s) [] 0)
  | CONTENT => (with_cbuf s CONTENT (content_started s) (reentries s) [], mkResult [] (erase CLOSE (erase OPEN (cbuf s))) 0)
  | SCAN => (with_scan s SCAN (scan_count s) [], mkResult [] (scan_buf s) 0)
  end.

(** A whole stream of pieces with their tokens, and the flush at its end. *)
Fixpoint split_stream (s : Splitter) (pieces : list (bytes * Z)) : option Result :=
  match pieces with
  | [] => Some (finish s).2
  | (piece, token) :: pieces =>
      match feed s piece token with
      | Some (s, r) =>
          match split_stream s pieces with
          | Some rest => Some (mkResult (reasoning r ++ reasoning rest) (content r ++ content rest) (reasoning_tokens r + reasoning_tokens rest))
          | None => None
          end
      | None => None
      end
  end.
