(* ===== verification/ReasoningTheorems.v ===== *)
(** * Reasoning and content: the guarantees

    [feed] always ends; a reply counts no more reasoning tokens than it has
    tokens; and however the text of a reply is cut into pieces, the stream is
    divided as the complete reply is. *)

From Corelib Require Import ssreflect_rw.
From stdpp Require Import prelude list strings.
From S2P Require Import Prelude StreamPipeline ReasoningSplit.
Open Scope Z_scope.

(** ** Finding *)

Lemma starts_with_iff pat s : starts_with pat s = true <-> exists t, s = pat ++ t.
Proof.
  revert s. induction pat as [|a pat IH]; intros s; cbn [starts_with app]; [split; [by exists s|done]|].
  destruct s as [|b s]; [split; [done|by intros [t ?]]|]. rewrite andb_true_iff, Z.eqb_eq, IH. split.
  - intros [-> [t ->]]. by exists t.
  - intros [t [= -> ->]]. split; [done|by exists t].
Qed.

Lemma str_find_spec pat s p :
  str_find pat s = Some p <->
  starts_with pat (drop p s) = true /\ (p <= length s)%nat /\ forall i, (i < p)%nat -> starts_with pat (drop i s) = false.
Proof.
  revert p. induction s as [|c s IH]; intros p; cbn [str_find].
  - destruct (starts_with pat []) eqn:E; split.
    + intros [= <-]. split_and!; [done|done|lia].
    + intros (_ & Hp & _). cbn in Hp. f_equal. lia.
    + done.
    + intros (H & _). rewrite drop_nil in H. congruence.
  - destruct (starts_with pat (c :: s)) eqn:E; split.
    + intros [= <-]. split_and!; [done|lia|lia].
    + intros (_ & _ & H). destruct p as [|p]; [done|]. specialize (H 0%nat ltac:(lia)). cbn in H. congruence.
    + destruct (str_find pat s) as [q|] eqn:Eq; [|done]. intros [= <-]. destruct (proj1 (IH q) eq_refl) as (H1 & H2 & H3).
      split_and!; [done|cbn; lia|]. intros [|i] Hi; [done|]. apply H3. lia.
    + intros (H1 & H2 & H3). destruct p as [|p]; [cbn in H1; congruence|].
      assert (str_find pat s = Some p) as ->; [|done]. apply IH. split_and!; [done|cbn in H2; lia|]. intros i Hi. apply (H3 (S i)). lia.
Qed.

Lemma str_find_fits pat s p : str_find pat s = Some p -> (p + length pat <= length s)%nat.
Proof.
  intros (H & Hp & _)%str_find_spec. apply starts_with_length in H. rewrite length_drop in H. lia.
Qed.

(** A match in a part is a match in the whole. *)
Lemma str_find_part pat x y z : str_find pat (x ++ y ++ z) = None -> str_find pat y = None.
Proof.
  intros H. destruct (str_find pat y) as [p|] eqn:E; [|done]. exfalso. apply str_find_spec in E as (H1 & H2 & _).
  rewrite str_find_none in H. specialize (H (length x + p)%nat). rewrite !length_app, drop_app_add, drop_app_le in H by lia.
  rewrite (starts_with_app _ _ z H1) in H. specialize (H ltac:(lia)). done.
Qed.

Lemma str_find_left pat x y : str_find pat (x ++ y) = None -> str_find pat x = None.
Proof. apply (str_find_part pat []). Qed.

Lemma str_find_right pat x y : str_find pat (x ++ y) = None -> str_find pat y = None.
Proof. intros H. apply (str_find_part pat x y []). by rewrite app_nil_r. Qed.

Lemma str_find_more pat x y p : str_find pat x = Some p -> str_find pat (x ++ y) = Some p.
Proof.
  intros H. pose proof (str_find_fits _ _ _ H) as Hf. apply str_find_spec in H as (H1 & H2 & H3). apply str_find_spec.
  rewrite drop_app_le, length_app by lia. split_and!; [by apply starts_with_app|lia|].
  intros i Hi. rewrite drop_app_le, starts_with_app_inv by (rewrite ?length_drop; lia). by apply H3.
Qed.

Lemma erase_none pat s : str_find pat s = None -> erase pat s = s.
Proof. unfold erase. intros H. destruct (length s); cbn [erase_all]; by rewrite ?H. Qed.

Lemma erase_all_length fuel pat s : (length (erase_all fuel pat s) <= length s)%nat.
Proof.
  revert s. induction fuel as [|fuel IH]; intros s; cbn [erase_all]; [done|]. destruct (str_find pat s) as [p|] eqn:E; [|done].
  pose proof (IH (take p s ++ drop (p + length pat) s)) as H. rewrite length_app, length_take, length_drop in H. lia.
Qed.

Lemma erase_length pat s : (length (erase pat s) <= length s)%nat.
Proof. apply erase_all_length. Qed.

Lemma skip_blank_length s : (length (skip_blank s) <= length s)%nat.
Proof. induction s as [|c s IH]; cbn [skip_blank]; [done|]. destruct (is_blank c); cbn [length]; lia. Qed.

Lemma skip_blank_app s t : skip_blank (s ++ t) = match skip_blank s with [] => skip_blank t | _ => skip_blank s ++ t end.
Proof. induction s as [|c s IH]; cbn [skip_blank app]; [done|]. by destruct (is_blank c). Qed.

Lemma skip_blank_suffix s : exists p, s = p ++ skip_blank s.
Proof.
  induction s as [|c s [p IH]]; cbn [skip_blank]; [by exists []|]. destruct (is_blank c); [|by exists []].
  exists (c :: p). cbn. by rewrite <- IH.
Qed.

(** ** [feed] ends *)

(** What the rounds to come can still consume. *)
Definition left_over (s : Splitter) (work : bytes) : nat :=
  match phase s with
  | SCAN => 2 + length (scan_buf s) + length (rbuf s) + length (cbuf s) + length work
  | _ => 1 + length (rbuf s) + length (cbuf s) + length work
  end.

Lemma scan_content_length fuel re r buf r' work :
  scan_content fuel re r buf = Reenter r' work -> (length work < length buf)%nat.
Proof.
  revert r buf. induction fuel as [|fuel IH]; intros r buf; cbn [scan_content]; [done|].
  assert (Ht : forall t, (if re then str_find OPEN buf else None) = Some t -> (length (drop (t + 7) buf) < length buf)%nat).
  { intros t Et. destruct re; [|done]. apply str_find_fits in Et. change (length OPEN) with 7%nat in Et. rewrite length_drop. lia. }
  assert (Hc : forall c, str_find CLOSE buf = Some c -> (length (drop (c + 8) buf) < length buf)%nat).
  { intros c Ec. apply str_find_fits in Ec. change (length CLOSE) with 8%nat in Ec. rewrite length_drop. lia. }
  destruct (if re then str_find OPEN buf else None) as [t|], (str_find CLOSE buf) as [c|].
  - specialize (Ht t eq_refl). specialize (Hc c eq_refl). destruct (Nat.ltb t c); [by intros [= _ <-]|]. intros H%IH. lia.
  - intros [= _ <-]. by apply Ht.
  - specialize (Hc c eq_refl). intros H%IH. lia.
  - done.
Qed.

Lemma round_consumes s r work token live s' r' work' :
  match phase s with
  | SCAN => scan_round s r work token live
  | REASONING => reasoning_round s r work token live
  | CONTENT => content_round s r work
  end = Again s' r' work' -> (left_over s' work' < left_over s work)%nat.
Proof.
  unfold left_over. destruct (phase s).
  - unfold scan_round. repeat case_match; intros E; simplify_eq; cbn [phase with_scan scan_buf rbuf cbuf];
      rewrite ?length_drop, ?length_app; cbn [length]; lia.
  - unfold reasoning_round. destruct (is_token _ _ _); [done|]. destruct (is_token _ _ _); [done|].
    destruct (str_find CLOSE _) as [p|] eqn:E; [|by destruct (emit_with_overlap _)]. case_bool_decide; [done|].
    intros [= <- <- <-]. cbn [phase with_rbuf rbuf cbuf length]. apply str_find_fits in E. change (length CLOSE) with 8%nat in E.
    pose proof (erase_length OPEN (rbuf s ++ work)) as He.
    pose proof (skip_blank_length (drop (p + 8) (erase OPEN (rbuf s ++ work)))) as Hs. rewrite length_drop in Hs.
    rewrite (length_app (rbuf s)) in He. lia.
  - unfold content_round. set (w := if content_started s then work else skip_blank work).
    assert (Hw : (length w <= length work)%nat) by (unfold w; destruct (content_started s); [done|apply skip_blank_length]).
    destruct (_ && _); [done|]. destruct (scan_content _ _ r (cbuf s ++ w)) as [r1 w1|] eqn:E; [|done].
    intros [= <- <- <-]. apply scan_content_length in E. rewrite length_app in E. cbn [phase with_cbuf rbuf cbuf length]. lia.
Qed.

Lemma feed_loop_total fuel s r work token live : (left_over s work < fuel)%nat -> exists s' r', feed_loop fuel s r work token live = Some (s', r').
Proof.
  revert s r work live. induction fuel as [|fuel IH]; intros s r work live Hf; [lia|]. cbn [feed_loop].
  pose proof (round_consumes s r work token live) as H.
  destruct (match phase s with SCAN => _ | REASONING => _ | CONTENT => _ end) as [s1 r1|s1 r1 w1]; [by exists s1, r1|].
  apply IH. specialize (H _ _ _ eq_refl). lia.
Qed.

Lemma feed_total s piece token : exists s' r, feed s piece token = Some (s', r).
Proof. apply feed_loop_total. unfold left_over, feed_fuel. destruct (phase s); lia. Qed.

(** ** Token counts *)

(** The tokens held back while scanning. *)
Definition held_tokens (s : Splitter) : Z := match phase s with SCAN => scan_count s | _ => 0 end.

Lemma scan_content_tokens fuel re r buf :
  match scan_content fuel re r buf with Reenter r' _ | Stay r' _ => reasoning_tokens r' = reasoning_tokens r end.
Proof.
  revert r buf. induction fuel as [|fuel IH]; intros r buf; cbn [scan_content]; [done|].
  destruct (if re then str_find OPEN buf else None) as [t|], (str_find CLOSE buf) as [c|]; [destruct (Nat.ltb t c)|..];
    done || apply (IH (add_reasoning _ _)).
Qed.

Definition counts (s : Splitter) (r : Result) (live : bool) (s' : Splitter) (r' : Result) (live' : bool) : Prop :=
  0 <= held_tokens s' /\ reasoning_tokens r <= reasoning_tokens r' /\
  reasoning_tokens r' + held_tokens s' + (if live' then 1 else 0) <= reasoning_tokens r + held_tokens s + (if live then 1 else 0).

(** [SCAN] is only met with a real token. *)
Lemma round_counts s r work token live :
  0 <= held_tokens s -> (phase s = SCAN -> live = true) ->
  match match phase s with
        | SCAN => scan_round s r work token live
        | REASONING => reasoning_round s r work token live
        | CONTENT => content_round s r work
        end with
  | Return s' r' => counts s r live s' r' false
  | Again s' r' _ => counts s r live s' r' false /\ phase s' ≠ SCAN
  end.
Proof.
  unfold counts, held_tokens. intros Hh Hl. destruct (phase s) eqn:Ep.
  - rewrite (Hl eq_refl) in *. unfold scan_round.
    destruct (is_token _ _ _); [|destruct (is_token _ _ _); [|destruct (str_find OPEN _);
      [|destruct (str_find CLOSE _); [|destruct (_ && _); [|destruct (scan_limit s <=? _)]]]]];
      cbn [phase with_scan scan_count add_tokens add_reasoning reasoning_tokens]; split_and!; (done || lia).
  - unfold reasoning_round. set (r0 := if live then add_tokens r 1 else r).
    assert (H0 : reasoning_tokens r0 = reasoning_tokens r + if live then 1 else 0) by (unfold r0; destruct live; cbn; lia).
    destruct (is_token _ _ _); [|destruct (is_token _ _ _); [|destruct (str_find CLOSE _); [case_bool_decide|destruct (emit_with_overlap _)]]];
      cbn [phase with_rbuf scan_count add_reasoning reasoning_tokens]; rewrite ?Ep, H0; destruct live; (split_and!; (done || lia)).
  - unfold content_round. destruct (_ && _); [rewrite Ep; destruct live; split_and!; lia|].
    match goal with |- context [scan_content ?f ?b ?r0 ?x] => pose proof (scan_content_tokens f b r0 x) as Ht; destruct (scan_content f b r0 x) end;
      cbn [phase with_cbuf scan_count add_content reasoning_tokens]; rewrite Ht; destruct live; (split_and!; (done || lia)).
Qed.

Lemma feed_loop_counts fuel s r work token live s' r' :
  0 <= held_tokens s -> (phase s = SCAN -> live = true) -> feed_loop fuel s r work token live = Some (s', r') -> counts s r live s' r' false.
Proof.
  revert s r work live. induction fuel as [|fuel IH]; intros s r work live Hh Hl; [done|]. cbn [feed_loop].
  pose proof (round_counts s r work token live Hh Hl) as H.
  destruct (match phase s with SCAN => _ | REASONING => _ | CONTENT => _ end) as [s1 r1|s1 r1 w1]; [by intros [= <- <-]|].
  destruct H as [(H1 & H2 & H3) Hp]. intros E. apply (IH s1 r1 w1 false) in E as (E1 & E2 & E3); [|done|done].
  unfold counts. split_and!; lia.
Qed.

Lemma split_stream_counts s pieces :
  0 <= held_tokens s ->
  exists R, split_stream s pieces = Some R /\ 0 <= reasoning_tokens R <= held_tokens s + Z.of_nat (length pieces).
Proof.
  revert s. induction pieces as [|[piece token] pieces IH]; intros s Hh; cbn [split_stream length].
  { eexists. split; [done|]. unfold finish. destruct (phase s); cbn; lia. }
  destruct (feed_total s piece token) as (s1 & r & E). rewrite E.
  apply feed_loop_counts in E as (H1 & H2 & H3); [|done|done]. cbn in H2, H3.
  destruct (IH s1 H1) as (R & -> & HR). eexists. split; [done|]. cbn. lia.
Qed.

(** ** Cutting into pieces *)

Definition texts (pieces : list (bytes * Z)) : bytes := concat (pieces.*1).

(** No piece is one of the marker tokens: the markers come as text. *)
Definition plain_tokens (start_id end_id : Z) (pieces : list (bytes * Z)) : Prop :=
  Forall (fun p => is_token start_id p.2 true = false /\ is_token end_id p.2 true = false) pieces.

Definition unmarked (t : bytes) : Prop := str_find OPEN t = None /\ str_find CLOSE t = None.

Lemma unmarked_part x y z : unmarked (x ++ y ++ z) -> unmarked y.
Proof. intros [H1 H2]. split; by eapply str_find_part. Qed.

Lemma scan_content_unmarked fuel re r buf : unmarked buf -> scan_content (S fuel) re r buf = Stay r buf.
Proof. intros [H1 H2]. cbn [scan_content]. rewrite H2. destruct re; [by rewrite H1|done]. Qed.

(** *** Content *)

(** In [CONTENT], with [v] read since it began and [ec] sent. *)
Definition in_content (s : Splitter) (v ec : bytes) : Prop :=
  phase s = CONTENT /\ if content_started s then skip_blank v ≠ [] /\ ec ++ cbuf s = skip_blank v else ec = [] /\ cbuf s = [] /\ skip_blank v = [].

Lemma content_round_plain s r v ec piece :
  in_content s v ec -> unmarked (v ++ piece) ->
  exists s' out, content_round s r piece = Return s' (add_content r out) /\ in_content s' (v ++ piece) (ec ++ out).
Proof.
  intros [Hp Hi] Hu. unfold content_round.
  assert (Hgo : forall w, skip_blank (v ++ piece) ≠ [] -> ec ++ cbuf s ++ w = skip_blank (v ++ piece) ->
    exists s' out, match scan_content (S (length (cbuf s ++ w))) (reentries s <? max_reentries s) r (cbuf s ++ w) with
      | Reenter r work => Again (with_cbuf s REASONING true (reentries s + 1) []) r work
      | Stay r buf =>
          let hold := Nat.max (pending_tag_prefix buf) (length buf - utf8_complete_len buf) in
          Return (with_cbuf s CONTENT true (reentries s) (drop (length buf - hold) buf)) (add_content r (take (length buf - hold) buf))
      end = Return s' (add_content r out) /\ in_content s' (v ++ piece) (ec ++ out)).
  { intros w Hne Hw. destruct (skip_blank_suffix (v ++ piece)) as [x Hx]. rewrite <- Hw in Hx. rewrite scan_content_unmarked.
    - eexists _, _. split; [done|]. split; [done|]. cbn [with_cbuf content_started cbuf]. split; [done|]. by rewrite <- Hw, <- app_assoc, take_drop.
    - apply (unmarked_part (x ++ ec) _ []). rewrite app_nil_r. by rewrite <- app_assoc, <- Hx. }
  destruct (content_started s) eqn:Es; cbn [negb andb].
  - destruct Hi as [Hne Hi]. assert (E : skip_blank (v ++ piece) = skip_blank v ++ piece).
    { rewrite skip_blank_app. by destruct (skip_blank v). }
    apply Hgo; [rewrite E; by destruct (skip_blank v)|]. by rewrite app_assoc, Hi, E.
  - destruct Hi as (-> & Hc & Hv). case_bool_decide as Hb.
    + exists s, []. split; [destruct r; unfold add_content; cbn; by rewrite app_nil_r|]. split; [done|]. rewrite Es, skip_blank_app, Hv. done.
    + apply Hgo; rewrite ?Hc, skip_blank_app, Hv; done.
Qed.

Lemma feed_content s v ec piece token :
  in_content s v ec -> unmarked (v ++ piece) ->
  exists s' out, feed s piece token = Some (s', mkResult [] out 0) /\ in_content s' (v ++ piece) (ec ++ out).
Proof.
  intros Hi Hu. destruct (content_round_plain s no_result v ec piece Hi Hu) as (s' & out & E & Hi').
  exists s', out. split; [|done]. unfold feed, feed_fuel. cbn [Nat.add feed_loop]. rewrite (proj1 Hi), E. done.
Qed.

Lemma content_stream s v ec pieces :
  in_content s v ec -> unmarked (v ++ texts pieces) ->
  exists R, split_stream s pieces = Some R /\ reasoning R = [] /\ ec ++ content R = skip_blank (v ++ texts pieces).
Proof.
  revert s v ec. induction pieces as [|[piece token] pieces IH]; intros s v ec Hi Hu; cbn [split_stream].
  - eexists. split; [done|]. unfold finish, texts in *. cbn in Hu. rewrite app_nil_r in Hu. rewrite (proj1 Hi). split; [done|].
    cbn [content texts fmap list_fmap concat]. rewrite app_nil_r. destruct Hi as [_ Hi]. destruct (content_started s).
    + destruct (skip_blank_suffix v) as [x Hx]. rewrite <- (proj2 Hi), app_assoc in Hx. rewrite Hx in Hu.
      destruct Hu as [H1%str_find_right H2%str_find_right]. rewrite (erase_none OPEN), (erase_none CLOSE) by done. apply Hi.
    + destruct Hi as (-> & -> & ->). done.
  - change (texts ((piece, token) :: pieces)) with (piece ++ texts pieces) in *.
    assert (Hu1 : unmarked (v ++ piece)) by (apply (unmarked_part [] _ (texts pieces)); by rewrite <- app_assoc).
    destruct (feed_content s v ec piece token Hi Hu1) as (s' & out & -> & Hi').
    destruct (IH s' (v ++ piece) (ec ++ out) Hi') as (R & -> & H1 & H2); [by rewrite <- app_assoc|].
    eexists. split; [done|]. cbn [reasoning content]. split; [done|]. by rewrite app_assoc, H2, <- app_assoc.
Qed.

(** *** Reasoning *)

(** In [REASONING], with [u] read, of which [e] has been sent. *)
Record in_reasoning (start_id end_id : Z) (s : Splitter) (u e : bytes) : Prop := {
  ir_ids : think_start_id s = start_id /\ think_end_id s = end_id;
  ir_phase : phase s = REASONING;
  ir_fresh : content_started s = false /\ cbuf s = [];
  ir_text : e ++ rbuf s = u;
  ir_held : e = [] \/ (7 <= length (rbuf s))%nat;
  ir_open : str_find CLOSE u = None
}.

Lemma back_to_lead_le s i : (back_to_lead s i <= i)%nat.
Proof. induction i as [|i IH]; cbn [back_to_lead]; [done|]. destruct (cont_byte _); lia. Qed.

Lemma emit_held buf : let (out, rest) := emit_with_overlap buf in out ++ rest = buf /\ (out = [] \/ (7 <= length rest)%nat).
Proof.
  unfold emit_with_overlap. destruct (Nat.leb_spec (utf8_complete_len buf) kOverlap) as [|H]; [by split; [|left]|].
  rewrite take_drop. split; [done|right]. rewrite length_drop. pose proof (utf8_complete_len_le buf).
  pose proof (back_to_lead_le buf (utf8_complete_len buf - kOverlap)). unfold kOverlap in *. lia.
Qed.

Section pieces_of_reasoning.
Context (start_id end_id : Z).

(** A closer cannot start in what has been sent. *)
Lemma close_in_buffer s u e t :
  in_reasoning start_id end_id s u e -> str_find CLOSE (u ++ t) = Nat.add (length e) <$> str_find CLOSE (rbuf s ++ t).
Proof.
  intros [_ _ _ Ht Hh Ho]. rewrite <- Ht, <- app_assoc. apply str_find_skip. intros i Hi.
  destruct Hh as [-> |Hh]; [cbn in Hi; lia|]. rewrite str_find_none in Ho. specialize (Ho i). rewrite <- Ht in Ho.
  rewrite length_app in Ho. specialize (Ho ltac:(lia)). rewrite app_assoc, drop_app_le by (rewrite length_app; lia).
  rewrite starts_with_app_inv; [done|]. rewrite length_drop, length_app. change (length CLOSE) with 8%nat. lia.
Qed.

(** What a round makes of a piece that is not a marker token. *)
Lemma reasoning_round_text s r u e piece token :
  in_reasoning start_id end_id s u e -> str_find OPEN (u ++ piece) = None ->
  is_token start_id token true = false -> is_token end_id token true = false ->
  reasoning_round s r piece token true =
    let buf := rbuf s ++ piece in
    match str_find CLOSE buf with
    | Some p =>
        let after := skip_blank (drop (p + 8) buf) in
        let r := add_reasoning (add_tokens r 1) (take p buf) in
        if bool_decide (after = []) then Return (with_rbuf s CONTENT false []) r else Again (with_rbuf s CONTENT true []) r after
    | None => let (out, rest) := emit_with_overlap buf in Return (with_rbuf s REASONING false rest) (add_reasoning (add_tokens r 1) out)
    end.
Proof.
  intros [[Hs1 Hs2] _ [Hf _] Ht _ _] Ho Ht1 Ht2. unfold reasoning_round. rewrite Hs1, Hs2, Ht1, Ht2, Hf.
  rewrite <- Ht, <- app_assoc in Ho. by rewrite (erase_none OPEN) by by eapply str_find_right.
Qed.

Lemma feed_reasoning_open s u e piece token :
  in_reasoning start_id end_id s u e -> str_find OPEN (u ++ piece) = None -> str_find CLOSE (u ++ piece) = None ->
  is_token start_id token true = false -> is_token end_id token true = false ->
  exists s' out, feed s piece token = Some (s', mkResult out [] 1) /\ in_reasoning start_id end_id s' (u ++ piece) (e ++ out).
Proof.
  intros Hi Ho Hc Ht1 Ht2. pose proof (close_in_buffer s u e piece Hi) as Hb. rewrite Hc in Hb.
  unfold feed, feed_fuel. cbn [Nat.add feed_loop]. rewrite (ir_phase _ _ _ _ _ Hi), (reasoning_round_text s _ u e) by done. cbv zeta.
  destruct Hi as [Hids Hp [Hf1 Hf2] Ht Hh _].
  destruct (str_find CLOSE (rbuf s ++ piece)); [done|]. pose proof (emit_held (rbuf s ++ piece)) as He.
  destruct (emit_with_overlap (rbuf s ++ piece)) as [out rest]. destruct He as [He1 He2]. eexists _, out. split; [done|].
  constructor; try done; cbn [with_rbuf rbuf].
  - by rewrite <- app_assoc, He1, <- Ht, <- app_assoc.
  - destruct He2 as [-> |]; [|by right]. rewrite app_nil_r. cbn in He1. subst rest. rewrite length_app. destruct Hh; [by left|right; lia].
Qed.

(** Dropping the blanks before the content begins is what its first round does. *)
Lemma content_round_first s r v :
  skip_blank v <> [] -> content_round (with_rbuf s CONTENT true []) r (skip_blank v) = content_round (with_rbuf s CONTENT false []) r v.
Proof. intros H. unfold content_round. cbn [with_rbuf content_started negb andb]. by rewrite bool_decide_eq_false_2. Qed.

Lemma feed_reasoning_close s u e piece token a v :
  in_reasoning start_id end_id s u e -> str_find OPEN (u ++ piece) = None ->
  u ++ piece = a ++ CLOSE ++ v -> str_find CLOSE (u ++ piece) = Some (length a) -> str_find CLOSE v = None ->
  is_token start_id token true = false -> is_token end_id token true = false ->
  exists s' out c, feed s piece token = Some (s', mkResult out c 1) /\ e ++ out = a /\ in_content s' v c.
Proof.
  intros Hi Ho Hu Hc Hv Ht1 Ht2. pose proof (close_in_buffer s u e piece Hi) as Hb. rewrite Hc in Hb.
  unfold feed, feed_fuel. cbn [Nat.add feed_loop]. rewrite (ir_phase _ _ _ _ _ Hi), (reasoning_round_text s _ u e) by done. cbv zeta.
  destruct Hi as [Hids Hp [Hf1 Hf2] Ht Hh _]. destruct (str_find CLOSE (rbuf s ++ piece)) as [p|] eqn:Ep; [|done]. cbn in Hb. injection Hb as Hlen.
  rewrite <- Ht, <- app_assoc in Hu.
  assert (Ha : e ++ take p (rbuf s ++ piece) = a).
  { apply (f_equal (take (length a))) in Hu. rewrite take_app_length, Hlen, take_app_add in Hu. done. }
  assert (Ev : drop (p + 8) (rbuf s ++ piece) = v).
  { apply (f_equal (drop (length a + 8))) in Hu. rewrite Hlen, <- Nat.add_assoc, drop_app_add in Hu.
    rewrite Nat.add_assoc, <- Hlen, drop_app_add in Hu. exact Hu. }
  rewrite Ev.
  assert (Hfresh : in_content (with_rbuf s CONTENT false []) [] []) by (split; [done|]; cbn; by rewrite Hf2).
  assert (Hun : unmarked v).
  { split; [|done]. rewrite <- Ht, <- app_assoc, Hu, app_assoc in Ho. by eapply str_find_right. }
  case_bool_decide as Hb.
  - eexists _, _, []. split; [done|]. split; [exact Ha|]. split; [done|]. cbn. by rewrite Hf2.
  - cbn [phase with_rbuf feed_loop]. change (mkSplitter _ _ _ _ _ _ _ _ _ _ _) with (with_rbuf s CONTENT true []).
    rewrite content_round_first by done.
    destruct (content_round_plain _ (add_reasoning (add_tokens no_result 1) (take p (rbuf s ++ piece))) [] [] v Hfresh Hun) as (s' & out & -> & Hi').
    eexists s', _, out. split; [done|]. by split.
Qed.

Lemma reasoning_stream_open s u e pieces :
  in_reasoning start_id end_id s u e -> plain_tokens start_id end_id pieces -> unmarked (u ++ texts pieces) ->
  exists R, split_stream s pieces = Some R /\ e ++ reasoning R = u ++ texts pieces /\ content R = [].
Proof.
  revert s u e. induction pieces as [|[piece token] pieces IH]; intros s u e Hi Hpl Hu; cbn [split_stream].
  - eexists. split; [done|]. destruct Hi as [_ Hp _ Ht _ _]. unfold finish. rewrite Hp. cbn. by rewrite app_nil_r.
  - change (texts ((piece, token) :: pieces)) with (piece ++ texts pieces) in *. apply Forall_cons in Hpl as [[Ht1 Ht2] Hpl].
    rewrite app_assoc in Hu. destruct (feed_reasoning_open s u e piece token Hi) as (s' & out & -> & Hi'); try done.
    1,2: by eapply str_find_left; apply Hu.
    destruct (IH s' (u ++ piece) (e ++ out) Hi' Hpl Hu) as (R & -> & H1 & H2).
    eexists. split; [done|]. cbn [reasoning content]. by rewrite !app_assoc in *.
Qed.

(** The first closer of a text, and that it has no other. *)
Definition closed_at (text a b : bytes) : Prop :=
  text = a ++ CLOSE ++ b /\ str_find CLOSE text = Some (length a) /\ str_find CLOSE b = None.

Lemma closed_at_part u t a b :
  closed_at (u ++ t) a b -> str_find CLOSE u = None \/ exists v, closed_at u a v /\ v ++ t = b.
Proof.
  intros (Ht & Hf & Hb). destruct (str_find CLOSE u) as [p|] eqn:E; [right|by left].
  pose proof (str_find_more _ _ t _ E) as H. rewrite Hf in H. injection H as <-.
  pose proof (str_find_fits _ _ _ E) as Hl. change (length CLOSE) with 8%nat in Hl.
  assert (Hv : u = a ++ CLOSE ++ drop (length a + 8) u).
  { rewrite <- (take_drop (length a + 8) u) at 1. rewrite app_assoc. f_equal.
    apply (f_equal (take (length a + 8))) in Ht. rewrite take_app_le in Ht by lia. by rewrite Ht, take_app_add. }
  assert (Hvb : drop (length a + 8) u ++ t = b).
  { apply (app_inv_head (a ++ CLOSE)). rewrite <- !app_assoc, <- Ht. by rewrite Hv at 2; rewrite <- !app_assoc. }
  exists (drop (length a + 8) u). split; [|done]. split; [done|]. split; [done|]. rewrite <- Hvb in Hb. by eapply str_find_left.
Qed.

Lemma reasoning_stream_close s u e pieces a b :
  in_reasoning start_id end_id s u e -> plain_tokens start_id end_id pieces ->
  str_find OPEN (u ++ texts pieces) = None -> closed_at (u ++ texts pieces) a b ->
  exists R, split_stream s pieces = Some R /\ e ++ reasoning R = a /\ content R = skip_blank b.
Proof.
  revert s u e. induction pieces as [|[piece token] pieces IH]; intros s u e Hi Hpl Ho Hc; cbn [split_stream].
  - exfalso. destruct Hc as (_ & Hf & _). change (texts []) with (@nil Z) in Hf. rewrite app_nil_r, (ir_open _ _ _ _ _ Hi) in Hf. done.
  - change (texts ((piece, token) :: pieces)) with (piece ++ texts pieces) in *. apply Forall_cons in Hpl as [[Ht1 Ht2] Hpl].
    rewrite app_assoc in Ho, Hc. pose proof (str_find_left _ _ _ Ho) as Ho1.
    destruct (closed_at_part _ _ _ _ Hc) as [Hn|(v & (Hu & Hf & Hv) & Hvb)].
    + destruct (feed_reasoning_open s u e piece token Hi Ho1 Hn Ht1 Ht2) as (s' & out & -> & Hi').
      destruct (IH s' (u ++ piece) (e ++ out) Hi' Hpl Ho Hc) as (R & -> & H1 & H2).
      eexists. split; [done|]. cbn [reasoning content]. by rewrite app_assoc.
    + destruct (feed_reasoning_close s u e piece token a v Hi Ho1 Hu Hf Hv Ht1 Ht2) as (s' & out & c & -> & Hout & Hi').
      destruct (content_stream s' v c pieces Hi') as (R & -> & H1 & H2).
      { rewrite Hvb. split; [|apply Hc]. destruct Hc as (E & _ & _). rewrite E, app_assoc in Ho. by eapply str_find_right. }
      eexists. split; [done|]. cbn [reasoning content]. by rewrite H1, app_nil_r, H2, Hvb.
Qed.

End pieces_of_reasoning.

(** ** The complete reply *)

Lemma str_rfind_last pat s p :
  starts_with pat (drop p s) = true -> (p <= length s)%nat ->
  (forall i, (p < i)%nat -> starts_with pat (drop i s) = false) -> str_rfind pat s = Some p.
Proof.
  assert (Hnone : forall s, (forall i, starts_with pat (drop i s) = false) -> str_rfind pat s = None).
  { clear. induction s as [|c s IH]; intros H; cbn [str_rfind].
    - specialize (H 0%nat). cbn [drop] in H. by rewrite H.
    - rewrite IH by (intros i; apply (H (S i))). specialize (H 0%nat). cbn [drop] in H. by rewrite H. }
  revert p. induction s as [|c s IH]; intros p Hp Hle Hl; cbn [str_rfind].
  - cbn in Hle. assert (p = 0%nat) as -> by lia. cbn [drop] in Hp. by rewrite Hp.
  - destruct p as [|p].
    + rewrite Hnone by (intros i; apply (Hl (S i)); lia). cbn [drop] in Hp. by rewrite Hp.
    + rewrite (IH p); [done|done|cbn in Hle; lia|]. intros i Hi. apply (Hl (S i)). lia.
Qed.

Lemma str_rfind_none pat s : str_find pat s = None -> str_rfind pat s = None.
Proof.
  induction s as [|c s IH]; cbn [str_find str_rfind]; [by destruct (starts_with pat [])|].
  destruct (starts_with pat (c :: s)); [done|]. destruct (str_find pat s); [done|]. by rewrite IH.
Qed.

Lemma closer_last text a b : closed_at text a b -> str_rfind CLOSE text = Some (length a).
Proof.
  intros (-> & _ & Hb). apply str_rfind_last.
  - by rewrite drop_app_length, starts_with_iff; exists b.
  - rewrite length_app. lia.
  - intros i Hi. replace i with (length a + (i - length a))%nat by lia. rewrite drop_app_add.
    remember (i - length a)%nat as k eqn:Ek. assert (0 < k)%nat by lia. clear i Hi Ek. destruct (decide (k < 8)%nat) as [H1|H1].
    + do 8 (destruct k as [|k]; [lia || reflexivity|]). lia.
    + replace k with (length CLOSE + (k - 8))%nat by (change (length CLOSE) with 8%nat; lia). rewrite drop_app_add.
      destruct (decide (k - 8 <= length b)%nat); [by rewrite str_find_none in Hb; apply Hb|]. by rewrite drop_ge by lia.
Qed.

Lemma extract_reasoning_closed text a b :
  str_find OPEN text = None -> closed_at text a b -> extract_reasoning text = (trim a, skip_blank b).
Proof.
  intros Ho Hc. unfold extract_reasoning, split_last_think. rewrite (closer_last text a b Hc).
  destruct Hc as (-> & _ & _). rewrite take_app_length. rewrite (str_find_left _ _ _ Ho). change 8%nat with (length CLOSE).
  by rewrite drop_app_add, drop_app_length.
Qed.

(** One closer at most. *)
Definition one_closer (text : bytes) : Prop :=
  forall p, str_find CLOSE text = Some p -> str_find CLOSE (drop (p + 8) text) = None.

Lemma one_closer_cases text :
  one_closer text -> str_find CLOSE text = None \/ exists a b, closed_at text a b.
Proof.
  intros H. destruct (str_find CLOSE text) as [p|] eqn:E; [right|by left]. specialize (H p E).
  pose proof (str_find_fits _ _ _ E) as Hl. change (length CLOSE) with 8%nat in Hl.
  pose proof (proj1 (str_find_spec _ _ _) E) as (H1 & _ & _). apply starts_with_iff in H1 as [t Ht].
  assert (Hd : drop (p + 8) text = t) by (rewrite <- drop_drop, Ht; done).
  exists (take p text), (drop (p + 8) text). split_and!; [|by rewrite length_take_le by lia|done].
  rewrite <- (take_drop p text) at 1. by rewrite Ht, Hd.
Qed.

(** C14: a reply that starts inside a thinking block opened by the prompt is
    divided the same way however its text is cut into pieces, and as the reply
    is when it is complete: for any tokens that are not the markers' own and any
    text with no opener and at most one [</think>], [feed] and [finish] send as
    content exactly what [divide_reply] calls the content, and as reasoning what
    it calls the reasoning, up to the blanks that it trims.  Nothing is lost,
    doubled or sent on the wrong side when the marker straddles pieces. *)
Theorem reasoning_stream_offline start_id end_id limit max pieces :
  plain_tokens start_id end_id pieces -> str_find OPEN (texts pieces) = None -> one_closer (texts pieces) ->
  exists R, split_stream (new_splitter REASONING start_id end_id limit max) pieces = Some R /\
    divide_reply true (texts pieces) =
      ((match str_find CLOSE (texts pieces) with Some _ => trim (reasoning R) | None => reasoning R end), content R).
Proof.
  intros Hpl Ho [Hn|(a & b & Hc)]%one_closer_cases.
  all: assert (Hi : in_reasoning start_id end_id (new_splitter REASONING start_id end_id limit max) [] [])
    by (split; try done; by left).
  - destruct (reasoning_stream_open start_id end_id _ [] [] pieces Hi Hpl (conj Ho Hn)) as (R & -> & H1 & H2).
    exists R. split; [done|]. unfold divide_reply. cbn [app] in H1. by rewrite Hn, Ho, H1, H2.
  - destruct (reasoning_stream_close start_id end_id _ [] [] pieces a b Hi Hpl Ho Hc) as (R & -> & H1 & H2).
    exists R. split; [done|]. unfold divide_reply. rewrite (extract_reasoning_closed _ _ _ Ho Hc). cbn [app] in H1. subst a.
    destruct Hc as (_ & -> & _). by rewrite H2.
Qed.

(** The closer comes in three pieces, the last with the content's first bytes. *)
Definition sample_pieces : list (bytes * Z) :=
  [(src_of "so 2+2 is 4.</t", 5); (src_of "hin", 6); (src_of "k>  The ", 7); (src_of "answer is 4", 8)].

Lemma reasoning_stream_offline_witness :
  plain_tokens (-1) (-1) sample_pieces /\
  exists R, split_stream (new_splitter REASONING (-1) (-1) 8 1) sample_pieces = Some R /\
    divide_reply true (texts sample_pieces) =
      ((match str_find CLOSE (texts sample_pieces) with Some _ => trim (reasoning R) | None => reasoning R end), content R).
Proof.
  assert (H : plain_tokens (-1) (-1) sample_pieces) by (repeat constructor).
  split; [exact H|]. apply reasoning_stream_offline; [exact H|vm_compute; reflexivity|].
  intros p E. vm_compute in E. injection E as <-. vm_compute. reflexivity.
Defined.

(** The splitter always answers, and never counts more reasoning tokens than
    it was fed: whatever the phase it starts in, the markers, the limits and the
    text, every call of [feed] of a stream ends, and the tokens counted over the
    stream are at most its pieces. *)
Theorem split_stream_total start start_id end_id limit max pieces :
  exists R, split_stream (new_splitter start start_id end_id limit max) pieces = Some R /\
    0 <= reasoning_tokens R <= Z.of_nat (length pieces).
Proof. destruct (split_stream_counts (new_splitter start start_id end_id limit max) pieces) as (R & H1 & H2); [by destruct start|]. exists R. by destruct start. Qed.
