(* ===== verification/Drafts.v ===== *)
(** * Prompt-lookup and suffix drafters

    Models [src/runtime/ngram_draft.cpp] and [src/runtime/suffix_draft.cpp].  Token histories are lists of [Z];
    positions are [nat] where the code has just compared them with the bounds of
    the history.  The gram hash is FNV-1a with 64-bit wrap-around. *)

From Corelib Require Import ssreflect_rw.
From stdpp Require Import prelude gmap fin_maps list.
From S2P Require Import Prelude.
Open Scope Z_scope.
Open Scope quench_scope.

Definition tok_at (hist : list Z) (i : nat) : Z := default (-1) (hist !! i).

(** [std::equal] of the [m] tokens ending at [a] and at [b]. *)
Definition same_gram (hist : list Z) (m a b : nat) : bool :=
  bool_decide (take m (drop (a - m) hist) = take m (drop (b - m) hist)).

(** The backward extension loop, shared by both suffix drafters: from a match of
    length [len] at [stop], one more token while it agrees and fits. *)
Fixpoint extend_back (fuel : nat) (hist : list Z) (max_match n stop len : nat) : nat :=
  match fuel with
  | O => len
  | S fuel =>
      if Nat.ltb len max_match && Nat.leb (len + 1) stop && Nat.leb (len + 1) n &&
         (tok_at hist (stop - len - 1) =? tok_at hist (n - len - 1))
      then extend_back fuel hist max_match n stop (S len)
      else len
  end.

Definition match_len (hist : list Z) (min_match max_match stop : nat) : nat :=
  extend_back (max_match - min_match) hist max_match (length hist) stop min_match.

(** ** Prompt lookup *)

(** The scan over candidate ends [end, end-1, ..., min_match]. *)
Fixpoint ngram_scan (fuel : nat) (hist : list Z) (min_match max_match stop : nat)
    (best_end : option nat) (best_len : nat) : option nat * nat :=
  match fuel with
  | O => (best_end, best_len)
  | S fuel =>
      if Nat.ltb stop min_match then (best_end, best_len)
      else if negb (same_gram hist min_match (length hist) stop) then
        ngram_scan fuel hist min_match max_match (stop - 1) best_end best_len
      else
        let len := match_len hist min_match max_match stop in
        if Nat.ltb best_len len then
          if Nat.leb max_match len then (Some stop, len)
          else ngram_scan fuel hist min_match max_match (stop - 1) (Some stop) len
        else ngram_scan fuel hist min_match max_match (stop - 1) best_end best_len
  end.

(** [ngram_draft]: the draft and [draft_start] (-1 when there is none). *)
Definition ngram_draft (hist : list Z) (k min_match max_match : Z) : list Z * Z :=
  let n := Z.of_nat (length hist) in
  if (k <=? 0) || (min_match <? 1) || (n <? min_match + 1) then ([], -1)
  else
    let max_match := Z.max max_match min_match in
    match ngram_scan (length hist) hist (Z.to_nat min_match) (Z.to_nat max_match) (length hist - 1)
            None 0 with
    | (None, _) => ([], -1)
    | (Some best_end, _) =>
        let take_n := Z.min k (n - Z.of_nat best_end) in
        if take_n <=? 0 then ([], -1)
        else (take (Z.to_nat take_n) (drop best_end hist), Z.of_nat best_end)
    end.

(** ** The suffix index *)

Definition kMaxOccurrences : nat := 64.

Record SuffixDraftIndex := mkIndex {
  min_match_ : Z;
  max_match_ : Z;
  hist_ : list Z;
  index_ : gmap Z (list Z)
}.

Definition index_new (min_match max_match : Z) : SuffixDraftIndex :=
  let mn := Z.max 1 min_match in mkIndex mn (Z.max max_match mn) [] ∅.

Definition gram_hash (gram : list Z) : Z :=
  let h := foldl (fun h t => Z.lxor h (u32 t) *64 0x100000001b3) 0xcbf29ce484222325 gram in
  let h := Z.lxor h (Z.shiftr h 30) in
  let h := h *64 0xbf58476d1ce4e5b9 in
  Z.lxor h (Z.shiftr h 27).

Definition gram_hash_at_ (hist : list Z) (min_match stop : Z) : Z :=
  gram_hash (take (Z.to_nat min_match) (drop (Z.to_nat (stop - min_match)) hist)).

Definition push_occurrence (occ : list Z) (stop : Z) : list Z :=
  (if Nat.leb kMaxOccurrences (length occ) then tail occ else occ) ++ [stop].

Fixpoint index_ends (n : nat) (stop min_match : Z) (hist : list Z) (idx : gmap Z (list Z))
    : gmap Z (list Z) :=
  match n with
  | O => idx
  | S n =>
      let h := gram_hash_at_ hist min_match stop in
      index_ends n (stop + 1) min_match hist
        (<[h := push_occurrence (default [] (idx !! h)) stop]> idx)
  end.

Definition index_append (toks : list Z) (s : SuffixDraftIndex) : SuffixDraftIndex :=
  if bool_decide (toks = []) then s
  else
    let hist := hist_ s ++ toks in
    let total := Z.of_nat (length hist) in
    let first := Z.max (min_match_ s) (total - Z.of_nat (length toks) + 1) in
    mkIndex (min_match_ s) (max_match_ s) hist
      (index_ends (Z.to_nat (total - first + 1)) first (min_match_ s) hist (index_ s)).

(** A candidate occurrence: one past the matched gram, and the match length. *)
Record Candidate := mkCand { c_end : nat; c_len : nat }.

#[export] Instance Candidate_eq_dec : EqDecision Candidate.
Proof. solve_decision. Defined.

Definition candidates (s : SuffixDraftIndex) (occ : list Z) : list Candidate :=
  let hist := hist_ s in
  let n := length hist in
  let mn := Z.to_nat (min_match_ s) in
  omap (fun z => let e := Z.to_nat z in
          if Nat.leb n e then None
          else if negb (same_gram hist mn n e) then None
          else Some (mkCand e (match_len hist mn (Z.to_nat (max_match_ s)) e))) occ.

(** Whether candidate [c] still has a token at step [i], and it is [tok]. *)
Definition votes_for (hist : list Z) (i : nat) (tok : Z) (c : Candidate) : bool :=
  Nat.ltb (c_end c + i) (length hist) && (tok_at hist (c_end c + i) =? tok).

Definition votes (hist : list Z) (i : nat) (tok : Z) (cands : list Candidate) : nat :=
  length (List.filter (votes_for hist i tok) cands).
Definition longest (hist : list Z) (i : nat) (tok : Z) (cands : list Candidate) : nat :=
  foldr (fun c m => Nat.max (c_len c) m) 0%nat (List.filter (votes_for hist i tok) cands).
Definition recent (hist : list Z) (i : nat) (tok : Z) (cands : list Candidate) : Z :=
  foldr (fun c m => Z.max (Z.of_nat (c_end c)) m) (-1) (List.filter (votes_for hist i tok) cands).

Record Ballot := mkBallot { best_tok : Z; best_votes : nat; best_len : nat; best_end : Z; voters : nat }.

Definition ballot0 : Ballot := mkBallot (-1) 0 0 (-1) 0.

Definition tally (hist : list Z) (i : nat) (cands : list Candidate) (b : Ballot) (c : Candidate)
    : Ballot :=
  if negb (Nat.ltb (c_end c + i) (length hist)) then b
  else
    let tok := tok_at hist (c_end c + i) in
    let v := votes hist i tok cands in
    let l := longest hist i tok cands in
    let r := recent hist i tok cands in
    let b := mkBallot (best_tok b) (best_votes b) (best_len b) (best_end b) (S (voters b)) in
    if Nat.ltb (best_votes b) v
       || (Nat.eqb v (best_votes b) && Nat.ltb (best_len b) l)
       || (Nat.eqb v (best_votes b) && Nat.eqb l (best_len b) && (best_end b <? r))
    then mkBallot tok v l r (voters b)
    else b.

Definition elect (hist : list Z) (i : nat) (cands : list Candidate) : Ballot :=
  foldl (tally hist i cands) ballot0 cands.

(** The voted walk from step [i]; [out] and [rep_end] so far. *)
Fixpoint vote_walk (fuel : nat) (hist : list Z) (k max_match : Z) (i : nat) (cands : list Candidate)
    (out : list Z) (rep_end : Z) : list Z * Z :=
  match fuel with
  | O => (out, rep_end)
  | S fuel =>
      let b := elect hist i cands in
      if Nat.eqb (voters b) 0 then (out, rep_end)
      else
        let unanimous := Nat.eqb (best_votes b) (voters b) in
        if (k <=? Z.of_nat i) &&
           negb (unanimous && (Nat.leb 2 (best_votes b) || (max_match <=? Z.of_nat (best_len b))))
        then (out, rep_end)
        else vote_walk fuel hist k max_match (S i)
               (List.filter (votes_for hist i (best_tok b)) cands)
               (out ++ [best_tok b]) (if Nat.eqb i 0 then best_end b else rep_end)
  end.

Definition suffix_draft (k k_max : Z) (s : SuffixDraftIndex) : list Z * Z :=
  let n := Z.of_nat (length (hist_ s)) in
  if (k <=? 0) || (n <? min_match_ s + 1) then ([], -1)
  else
    let k_max := Z.max k k_max in
    match index_ s !! gram_hash_at_ (hist_ s) (min_match_ s) n with
    | None => ([], -1)
    | Some occ =>
        let cands := candidates s occ in
        if bool_decide (cands = []) then ([], -1)
        else
          let '(out, rep_end) := vote_walk (Z.to_nat k_max) (hist_ s) k (max_match_ s) 0 cands [] (-1) in
          if bool_decide (out = []) then ([], -1) else (out, rep_end)
    end.

(** ** Context matches *)

(** The [l] tokens before [e] are the last [l] tokens of the history. *)
Definition agrees (hist : list Z) (l e : nat) : Prop :=
  (l <= e)%nat /\ forall j, (j < l)%nat -> hist !! (e - 1 - j)%nat = hist !! (length hist - 1 - j)%nat.

Lemma same_gram_spec hist m e :
  (m <= e)%nat -> (e <= length hist)%nat ->
  same_gram hist m (length hist) e = true <-> agrees hist m e.
Proof.
  intros Hm He. unfold same_gram, agrees. rewrite bool_decide_eq_true. split.
  - intros E. split; [done|]. intros j Hj.
    assert (forall i, take m (drop (length hist - m) hist) !! i = take m (drop (e - m) hist) !! i) as Hi
      by (intros i; by rewrite E).
    specialize (Hi (m - 1 - j)%nat). rewrite !take_drop_lookup in Hi by lia.
    replace (length hist - m + (m - 1 - j))%nat with (length hist - 1 - j)%nat in Hi by lia.
    by replace (e - m + (m - 1 - j))%nat with (e - 1 - j)%nat in Hi by lia.
  - intros [_ Hj]. apply list_eq. intros i. destruct (decide (i < m)%nat) as [Hi|Hi].
    + rewrite !take_drop_lookup by done. specialize (Hj (m - 1 - i)%nat ltac:(lia)).
      replace (e - 1 - (m - 1 - i))%nat with (e - m + i)%nat in Hj by lia.
      by replace (length hist - 1 - (m - 1 - i))%nat with (length hist - m + i)%nat in Hj by lia.
    + rewrite !lookup_take_ge by lia. done.
Qed.

Lemma agrees_S hist l e :
  (e < length hist)%nat -> agrees hist l e ->
  agrees hist (S l) e <->
    (l + 1 <= e)%nat /\ tok_at hist (e - l - 1) = tok_at hist (length hist - l - 1).
Proof.
  intros He [Hl Hj]. unfold agrees, tok_at.
  replace (e - l - 1)%nat with (e - 1 - l)%nat by lia.
  replace (length hist - l - 1)%nat with (length hist - 1 - l)%nat by lia. split.
  - intros [Hle Hall]. split; [lia|]. by rewrite (Hall l ltac:(lia)).
  - intros [Hle Et]. split; [lia|]. intros j Hlt. destruct (decide (j = l)) as [->|]; [|apply Hj; lia].
    destruct (lookup_lt_is_Some_2 hist (e - 1 - l) ltac:(lia)) as [x Hx].
    destruct (lookup_lt_is_Some_2 hist (length hist - 1 - l) ltac:(lia)) as [y Hy].
    rewrite Hx, Hy in *. simpl in Et. by subst.
Qed.

Lemma agrees_le hist l l' e : (l' <= l)%nat -> agrees hist l e -> agrees hist l' e.
Proof. intros Hl [H1 H2]. split; [lia|]. intros j Hj. apply H2. lia. Qed.

(** The extension loop finds the longest agreement up to [max_match]. *)
Lemma extend_back_spec fuel hist M e l :
  (e < length hist)%nat -> agrees hist l e -> (l <= M)%nat -> fuel = (M - l)%nat ->
  let r := extend_back fuel hist M (length hist) e l in
  agrees hist r e /\ (l <= r <= M)%nat /\ forall l', (l' <= M)%nat -> agrees hist l' e -> (l' <= r)%nat.
Proof.
  intros He. revert l. induction fuel as [|fuel IH]; intros l Ha Hl Hf; cbn [extend_back].
  - split_and!; try done; try lia.
  - destruct (_ && _) eqn:Ec.
    + rewrite !andb_true_iff, Nat.ltb_lt, !Nat.leb_le, Z.eqb_eq in Ec. destruct Ec as [[[H1 H2] H3] H4].
      assert (agrees hist (S l) e) as HS by (by apply agrees_S).
      destruct (IH (S l) HS ltac:(lia) ltac:(lia)) as (? & ? & ?). split_and!; try done; lia.
    + split_and!; try done; try lia. intros l' HM Hl'.
      destruct (decide (l' <= l)%nat) as [|Hgt]; [done|]. exfalso.
      assert (agrees hist (S l) e) as HS by (eapply agrees_le; [|done]; lia).
      apply (agrees_S hist l e He Ha) in HS as [H1 H2].
      rewrite !andb_false_iff, Nat.ltb_ge, !Nat.leb_gt, Z.eqb_neq in Ec. lia.
Qed.

Lemma match_len_spec hist m M e :
  (m <= M)%nat -> (e < length hist)%nat -> agrees hist m e ->
  let r := match_len hist m M e in
  agrees hist r e /\ (m <= r <= M)%nat /\ forall l', (l' <= M)%nat -> agrees hist l' e -> (l' <= r)%nat.
Proof. intros. by apply extend_back_spec. Qed.

(** [(e, l)] is the best match among the ends above [stop]: longest, then most
    recent. *)
Definition best_above (hist : list Z) (m M stop : nat) (b : option nat) (l : nat) : Prop :=
  match b with
  | None => l = 0%nat /\ forall e, (stop < e < length hist)%nat -> ~ agrees hist m e
  | Some e => (stop < e < length hist)%nat /\ agrees hist l e /\ (m <= l <= M)%nat /\
      forall e' l', (stop < e' < length hist)%nat -> (m <= l' <= M)%nat -> agrees hist l' e' ->
        (l' < l)%nat \/ (l' = l /\ (e' <= e)%nat)
  end.

Lemma ngram_scan_spec fuel hist m M stop b l :
  (1 <= m)%nat -> (m <= M)%nat -> (stop < length hist)%nat -> (stop < fuel)%nat -> (l < M)%nat ->
  best_above hist m M stop b l ->
  let '(b', l') := ngram_scan fuel hist m M stop b l in best_above hist m M (m - 1) b' l'.
Proof.
  intros Hm HM. revert stop b l. induction fuel as [|fuel IH]; intros stop b l Hs Hf Hl Hb; [lia|].
  cbn [ngram_scan]. destruct (Nat.ltb_spec stop m) as [Hlt|Hge].
  { destruct b as [e|].
    - destruct Hb as (He & Ha & Hlm & Hbest). split_and!; try done; try lia; [by destruct Ha; lia|].
      intros e' l' He' Hl'. apply Hbest; [lia|done].
    - destruct Hb as [-> Hn]. split; [done|]. intros e He. apply Hn. lia. }
  assert (forall b0 l0, best_above hist m M (stop - 1) b0 l0 -> (l0 < M)%nat ->
    let '(b', l') := ngram_scan fuel hist m M (stop - 1) b0 l0 in best_above hist m M (m - 1) b' l')
    as Hrec by (intros; apply IH; try done; lia).
  destruct (same_gram hist m (length hist) stop) eqn:Eg; cbn [negb].
  2:{ assert (~ agrees hist m stop) as Hno by (rewrite <- same_gram_spec, Eg by lia; done).
      apply Hrec; [|done]. destruct b as [e|].
      - destruct Hb as (He & Ha & Hlm & Hbest). split_and!; try done; try lia.
        intros e' l' He' Hl' Ha'. destruct (decide (e' = stop)) as [->|]; [|apply Hbest; [lia|done..]].
        exfalso. apply Hno. eapply agrees_le; [|done]. lia.
      - destruct Hb as [-> Hn]. split; [done|]. intros e He.
        destruct (decide (e = stop)) as [->|]; [done|]. apply Hn. lia. }
  apply same_gram_spec in Eg; [|lia..].
  destruct (match_len_spec hist m M stop HM Hs Eg) as (Ha & Hlen & Hmax).
  set (len := match_len hist m M stop) in *.
  destruct (Nat.ltb_spec l len) as [Hlt|Hle].
  - assert (best_above hist m M (stop - 1) (Some stop) len) as Hnew.
    { split_and!; try done; try lia. intros e' l' He' Hl' Ha'.
      destruct (decide (e' = stop)) as [->|]; [specialize (Hmax l' ltac:(lia) Ha'); lia|]. left.
      destruct b as [e|].
      - destruct Hb as (_ & _ & _ & Hbest). specialize (Hbest e' l' ltac:(lia) Hl' Ha'). lia.
      - destruct Hb as [_ Hn]. exfalso. apply (Hn e' ltac:(lia)). eapply agrees_le; [|done]. lia. }
    destruct (Nat.leb_spec M len); [|apply Hrec; [done|lia]].
    destruct Hnew as (? & ? & ? & Hbest). split_and!; try done; try lia. intros e' l' He' Hl' Ha'.
    destruct (decide (stop - 1 < e')%nat); [apply Hbest; [lia|done..]|]. lia.
  - apply Hrec; [|done]. destruct b as [e|]; [|destruct Hb as [-> _]; lia].
    destruct Hb as (He & Hae & Hlm & Hbest). split_and!; try done; try lia. intros e' l' He' Hl' Ha'.
    destruct (decide (e' = stop)) as [->|]; [|apply Hbest; [lia|done..]].
    specialize (Hmax l' ltac:(lia) Ha'). lia.
Qed.

(** [ngram_draft] is prompt lookup.  With usable arguments it returns nothing
    exactly when the last [min_match] tokens occur nowhere earlier; otherwise
    [draft_start] is the end of the longest earlier match of the history's suffix
    (up to [max_match] tokens), the most recent among equally long ones, and the
    draft is what followed it, at most [k] tokens. *)
Theorem ngram_draft_longest hist k min_match max_match :
  0 < k -> 1 <= min_match -> min_match < Z.of_nat (length hist) ->
  let m := Z.to_nat min_match in
  let M := Z.to_nat (Z.max max_match min_match) in
  let '(out, start) := ngram_draft hist k min_match max_match in
  (out = [] /\ start = -1 /\ forall e, (e < length hist)%nat -> ~ agrees hist m e) \/
  (exists e l, start = Z.of_nat e /\ (e < length hist)%nat /\ (m <= l <= M)%nat /\ agrees hist l e /\
     out = take (Z.to_nat k) (drop e hist) /\ out ≠ [] /\
     forall e' l', (e' < length hist)%nat -> (m <= l' <= M)%nat -> agrees hist l' e' ->
       (l' < l)%nat \/ (l' = l /\ (e' <= e)%nat)).
Proof.
  intros Hk Hmin Hn m M. unfold ngram_draft.
  rewrite !(proj2 (Z.leb_gt _ _)), !(proj2 (Z.ltb_ge _ _)) by lia. cbn [orb]. fold m M.
  pose proof (ngram_scan_spec (length hist) hist m M (length hist - 1) None 0 ltac:(lia) ltac:(lia)
    ltac:(lia) ltac:(lia) ltac:(lia) ltac:(split; [done|intros; lia])) as Hscan.
  destruct (ngram_scan _ _ _ _ _ _ _) as [[e|] l].
  - destruct Hscan as (He & Ha & Hl & Hbest). rewrite (proj2 (Z.leb_gt _ _)) by lia. right.
    exists e, l. split_and!; try done; try lia.
    + destruct (decide (k <= Z.of_nat (length hist) - Z.of_nat e)); [f_equal; lia|].
      rewrite !take_ge by (rewrite length_drop; lia). done.
    + intros E. apply (f_equal length) in E. rewrite length_take, length_drop in E. simpl in E. lia.
    + intros e' l' He' Hl' Ha'. apply Hbest; try done. destruct Ha' as [? _]. lia.
  - destruct Hscan as [_ Hno]. left. split_and!; [done..|]. intros e He Ha. apply (Hno e); [|done].
    destruct Ha as [? _]. lia.
Qed.

Lemma ngram_draft_longest_witness :
  ngram_draft [1; 2; 3; 9; 2; 3; 7; 1; 2; 3] 2 2 8 = ([9; 2], 3) /\
  agrees [1; 2; 3; 9; 2; 3; 7; 1; 2; 3] 3 3.
Proof.
  pose proof (ngram_draft_longest [1; 2; 3; 9; 2; 3; 7; 1; 2; 3] 2 2 8 ltac:(lia) ltac:(lia)
    ltac:(simpl; lia)) as H.
  assert (ngram_draft [1; 2; 3; 9; 2; 3; 7; 1; 2; 3] 2 2 8 = ([9; 2], 3)) as E
    by (vm_compute; reflexivity).
  cbv zeta in H. rewrite E in H |- *. split; [reflexivity|].
  destruct H as [(H & _)|(e & l & He & _ & _ & Ha & _ & _ & Hbest)]; [discriminate|].
  assert (e = 3%nat) as -> by lia.
  split; [lia|]. intros j Hj. destruct j as [|[|[|j]]]; [reflexivity..|lia].
Defined.

(** ** The incremental index *)

Definition last_n {A} (n : nat) (l : list A) : list A := drop (length l - n) l.

Lemma tail_drop {A} n (l : list A) : tail (drop n l) = drop (S n) l.
Proof. revert l. induction n as [|n IH]; intros [|x l]; try done. by rewrite !drop_cons || apply IH. Qed.

Lemma push_occurrence_last occ L e :
  occ = last_n kMaxOccurrences L -> push_occurrence occ e = last_n kMaxOccurrences (L ++ [e]).
Proof.
  intros ->. unfold push_occurrence, last_n. rewrite length_drop, length_app. cbn [length].
  assert (1 <= kMaxOccurrences)%nat as Hk by (apply (bool_decide_unpack _); vm_compute; exact I).
  generalize dependent kMaxOccurrences. intros k Hk.
  destruct (Nat.leb_spec k (length L - (length L - k))).
  - replace (length L + 1 - k)%nat with (S (length L - k)) by lia.
    rewrite drop_app_le, tail_drop by lia. done.
  - replace (length L - k)%nat with 0%nat by lia. by replace (length L + 1 - k)%nat with 0%nat by lia.
Qed.

Definition occurrences (idx : gmap Z (list Z)) (h : Z) : list Z := default [] (idx !! h).

(** All ends in [first, last) whose gram hashes to [h], in order. *)
Definition gram_ends (hist : list Z) (m h first last : Z) : list Z :=
  filter (fun e => gram_hash_at_ hist m e = h) (seqZ first (last - first)).

Lemma gram_ends_snoc hist m h first last :
  first <= last ->
  gram_ends hist m h first (last + 1) =
  gram_ends hist m h first last ++ (if decide (gram_hash_at_ hist m last = h) then [last] else []).
Proof.
  intros Hl. unfold gram_ends. replace (last + 1 - first) with ((last - first) + 1) by lia.
  rewrite seqZ_app by lia. rewrite filter_app. f_equal.
  replace (first + (last - first)) with last by lia.
  rewrite seqZ_cons, seqZ_nil, filter_cons by lia. done.
Qed.

Lemma index_ends_spec n stop m hist idx h :
  m <= stop ->
  (forall h, occurrences idx h = last_n kMaxOccurrences (gram_ends hist m h m stop)) ->
  occurrences (index_ends n stop m hist idx) h =
  last_n kMaxOccurrences (gram_ends hist m h m (stop + Z.of_nat n)).
Proof.
  revert stop idx. induction n as [|n IH]; intros stop idx Hm Hidx; simpl index_ends.
  - by rewrite Z.add_0_r.
  - rewrite IH; [f_equal; f_equal; lia|lia|]. intros h'. rewrite gram_ends_snoc by done.
    unfold occurrences. case_decide as Eh; subst.
    + rewrite lookup_insert_eq. simpl. by apply push_occurrence_last, Hidx.
    + rewrite lookup_insert_ne, app_nil_r by done. apply Hidx.
Qed.

Lemma gram_hash_at_app hist toks m e :
  0 <= m <= e -> e <= Z.of_nat (length hist) ->
  gram_hash_at_ (hist ++ toks) m e = gram_hash_at_ hist m e.
Proof.
  intros Hm He. unfold gram_hash_at_. f_equal. rewrite drop_app_le, take_app_le; [done| |lia].
  rewrite length_drop. lia.
Qed.

Lemma filter_ext_elem {A} (P Q : A -> Prop) `{forall x, Decision (P x), forall x, Decision (Q x)} (l : list A) :
  (forall x, x ∈ l -> P x <-> Q x) -> filter P l = filter Q l.
Proof.
  induction l as [|x l IH]; intros Hl; [done|]. rewrite !filter_cons, IH by (intros; apply Hl; by right).
  pose proof (Hl x ltac:(by left)). by repeat case_decide; tauto.
Qed.

Lemma gram_ends_app hist toks m h last :
  0 <= m -> last <= Z.of_nat (length hist) + 1 ->
  gram_ends (hist ++ toks) m h m last = gram_ends hist m h m last.
Proof.
  intros Hm Hl. apply filter_ext_elem. intros e He%elem_of_seqZ. by rewrite gram_hash_at_app by lia.
Qed.

(** The index lists, for every hash, the most recent ends with that hash. *)
Record index_exact (s : SuffixDraftIndex) : Prop := {
  ix_min : 1 <= min_match_ s;
  ix_max : min_match_ s <= max_match_ s;
  ix_occ : forall h, occurrences (index_ s) h =
    last_n kMaxOccurrences
      (gram_ends (hist_ s) (min_match_ s) h (min_match_ s) (Z.of_nat (length (hist_ s)) + 1))
}.

Lemma index_append_exact toks s : index_exact s -> index_exact (index_append toks s).
Proof.
  intros [Hmin Hmax Hocc]. unfold index_append. case_bool_decide as Ht; [done|].
  constructor; simpl; [done..|]. intros h. rewrite length_app.
  set (n := length (hist_ s)) in *. set (m := min_match_ s) in *.
  replace (Z.of_nat (n + length toks) - Z.of_nat (length toks) + 1) with (Z.of_nat n + 1) by lia.
  set (first := Z.max m (Z.of_nat n + 1)).
  assert (0 < length toks)%nat by (destruct toks; [done|simpl; lia]).
  rewrite index_ends_spec; [|lia|].
  - destruct (Z.le_gt_cases first (Z.of_nat (n + length toks) + 1)); [by do 2 f_equal; lia|].
    unfold gram_ends. rewrite !seqZ_nil by lia. done.
  - intros h'. rewrite Hocc. f_equal. destruct (Z.le_gt_cases m (Z.of_nat n + 1)).
    + replace first with (Z.of_nat n + 1) by lia. symmetry. apply gram_ends_app; lia.
    + unfold gram_ends. by rewrite !seqZ_nil by lia.
Qed.

Definition index_of (min_match max_match : Z) (chunks : list (list Z)) : SuffixDraftIndex :=
  foldl (fun s c => index_append c s) (index_new min_match max_match) chunks.

Lemma index_of_spec min_match max_match chunks :
  index_exact (index_of min_match max_match chunks) /\
  hist_ (index_of min_match max_match chunks) = concat chunks.
Proof.
  unfold index_of. induction chunks as [|c chunks IH] using rev_ind.
  - split; [|done]. constructor; simpl; [lia|lia|]. intros h. unfold gram_ends, occurrences.
    rewrite lookup_empty, seqZ_nil by lia. done.
  - rewrite foldl_app. simpl. destruct IH as [Hx Hh]. split; [by apply index_append_exact|].
    rewrite concat_app, <- Hh. simpl. rewrite app_nil_r. unfold index_append.
    case_bool_decide; [subst; by rewrite app_nil_r|done].
Qed.

(** ** The voted walk *)

(** Candidate [c]'s continuation starts with [out]. *)
Definition follows (hist : list Z) (out : list Z) (c : Candidate) : bool :=
  Nat.leb (c_end c + length out) (length hist) &&
  bool_decide (take (length out) (drop (c_end c) hist) = out).

Definition survivors (hist : list Z) (out : list Z) (cands : list Candidate) : list Candidate :=
  List.filter (follows hist out) cands.

Lemma follows_snoc hist out tok c :
  follows hist (out ++ [tok]) c = follows hist out c && votes_for hist (length out) tok c.
Proof.
  unfold follows, votes_for, tok_at. rewrite length_app. cbn [length].
  destruct (Nat.ltb_spec (c_end c + length out) (length hist)) as [Hlt|Hge].
  - rewrite !(proj2 (Nat.leb_le _ _)) by lia. cbn [andb].
    rewrite Nat.add_1_r, (take_S_r _ _ (tok_at hist (c_end c + length out))).
    2:{ rewrite lookup_drop. unfold tok_at.
        by destruct (lookup_lt_is_Some_2 hist (c_end c + length out) ltac:(lia)) as [x ->]. }
    apply eq_true_iff_eq. rewrite andb_true_iff, !bool_decide_eq_true, Z.eqb_eq. split.
    + by intros [? [= ?]]%app_inj_tail.
    + intros [-> <-]. done.
  - rewrite (proj2 (Nat.leb_gt _ _)), andb_false_r by lia. done.
Qed.

Lemma survivors_snoc hist out tok cands :
  List.filter (votes_for hist (length out) tok) (survivors hist out cands) =
  survivors hist (out ++ [tok]) cands.
Proof.
  unfold survivors. induction cands as [|c cands IH]; [done|]. simpl. rewrite follows_snoc.
  destruct (follows hist out c); simpl; [case_match; by rewrite IH|done].
Qed.

(** What the election returns: a token some candidate proposes, with as many
    votes as any, and the end of one of its voters. *)
Record elected (hist : list Z) (i : nat) (cands seen : list Candidate) (b : Ballot) : Prop := {
  el_zero : voters b = 0%nat -> b = ballot0;
  el_max : forall c, c ∈ seen -> (c_end c + i < length hist)%nat ->
    (votes hist i (tok_at hist (c_end c + i)) cands <= best_votes b)%nat;
  el_best : voters b ≠ 0%nat ->
    (0 < best_votes b)%nat /\ best_votes b = votes hist i (best_tok b) cands /\
    exists c, c ∈ cands /\ votes_for hist i (best_tok b) c = true /\ best_end b = Z.of_nat (c_end c)
}.

Lemma foldr_max_in (l : list Candidate) :
  l ≠ [] -> exists c, c ∈ l /\ foldr (fun c m => Z.max (Z.of_nat (c_end c)) m) (-1) l = Z.of_nat (c_end c).
Proof.
  induction l as [|c l IH]; [done|]. intros _. simpl. destruct l as [|c' l].
  - exists c. split; [by left|]. simpl. lia.
  - destruct (IH ltac:(done)) as (d & Hd & ->).
    destruct (Z.max_spec (Z.of_nat (c_end c)) (Z.of_nat (c_end d))) as [[_ ->]|[_ ->]].
    + exists d. split; [by right|done].
    + exists c. split; [by left|done].
Qed.

Lemma recent_in hist i tok cands :
  (0 < votes hist i tok cands)%nat ->
  exists c, c ∈ cands /\ votes_for hist i tok c = true /\ recent hist i tok cands = Z.of_nat (c_end c).
Proof.
  unfold votes, recent. intros Hv.
  destruct (foldr_max_in (List.filter (votes_for hist i tok) cands)) as (c & Hc & ->).
  { intros E. rewrite E in Hv. simpl in Hv. lia. }
  apply list_elem_of_In, filter_In in Hc as [Hc Hf]. exists c. by rewrite list_elem_of_In.
Qed.

Lemma tally_elected hist i cands seen b c :
  c ∈ cands -> elected hist i cands seen b -> elected hist i cands (seen ++ [c]) (tally hist i cands b c).
Proof.
  intros Hc [Hz Hm Hb]. unfold tally. destruct (Nat.ltb_spec (c_end c + i) (length hist)) as [Hlt|Hge]; cbn [negb].
  2:{ constructor; [done| |done]. intros d [Hd|Hd%list_elem_of_singleton]%elem_of_app Hdi; [auto|].
      subst. lia. }
  set (tok := tok_at hist (c_end c + i)). set (v := votes hist i tok cands).
  assert (0 < v)%nat as Hv.
  { unfold v, votes. assert (In c (List.filter (votes_for hist i tok) cands)) as Hin.
    { apply filter_In. split; [by apply list_elem_of_In|]. unfold votes_for.
      rewrite (proj2 (Nat.ltb_lt _ _) Hlt). apply Z.eqb_refl. }
    destruct (List.filter _ _); [done|simpl; lia]. }
  cbn [best_votes best_len best_end voters best_tok].
  match goal with |- context [if ?x then _ else _] => destruct x eqn:Ec end.
  - assert (best_votes b <= v)%nat as Hle.
    { rewrite !orb_true_iff, !andb_true_iff, Nat.ltb_lt, Nat.eqb_eq in Ec. lia. }
    constructor; cbn [best_votes best_len best_end voters best_tok]; [done| |].
    + intros d [Hd|Hd%list_elem_of_singleton]%elem_of_app Hdi; [|by subst].
      specialize (Hm d Hd Hdi). lia.
    + intros _. split; [done|]. split; [done|]. by apply recent_in.
  - rewrite !orb_false_iff, Nat.ltb_ge in Ec. destruct Ec as [[Hle _] _].
    constructor; cbn [best_votes best_len best_end voters best_tok]; [done| |].
    + intros d [Hd|Hd%list_elem_of_singleton]%elem_of_app Hdi; [auto|by subst].
    + intros _. apply Hb. intros E. rewrite (Hz E) in Hle. simpl in Hle. lia.
Qed.

Lemma elect_elected hist i cands : elected hist i cands cands (elect hist i cands).
Proof.
  unfold elect. assert (forall pre post, pre ++ post = cands ->
    elected hist i cands pre (foldl (tally hist i cands) ballot0 pre)) as H.
  { intros pre. induction pre as [|c pre IH] using rev_ind; intros post E.
    - constructor; [done|set_solver|done].
    - rewrite foldl_app. simpl. apply tally_elected; [subst; set_solver|].
      apply (IH (c :: post)). by rewrite <- E, <- app_assoc. }
  by apply (H cands []), app_nil_r.
Qed.

Record walk_ok (hist : list Z) (cands : list Candidate) (out : list Z) (rep : Z) : Prop := {
  wk_cand : out ≠ [] -> exists c, c ∈ cands /\ follows hist out c = true;
  wk_rep : forall t, out !! 0%nat = Some t ->
    exists c, c ∈ cands /\ rep = Z.of_nat (c_end c) /\ follows hist [t] c = true;
  wk_plural : forall j t c, out !! j = Some t -> c ∈ survivors hist (take j out) cands ->
    (c_end c + j < length hist)%nat ->
    (votes hist j (tok_at hist (c_end c + j)) (survivors hist (take j out) cands) <=
     votes hist j t (survivors hist (take j out) cands))%nat
}.

Lemma elem_of_survivors hist out cands c :
  c ∈ survivors hist out cands <-> c ∈ cands /\ follows hist out c = true.
Proof. unfold survivors. rewrite !list_elem_of_In. apply filter_In. Qed.

Lemma walk_ok_snoc hist cands out rep :
  let b := elect hist (length out) (survivors hist out cands) in
  walk_ok hist cands out rep -> voters b ≠ 0%nat ->
  walk_ok hist cands (out ++ [best_tok b]) (if Nat.eqb (length out) 0 then best_end b else rep).
Proof.
  intros b [Hc Hr Hp] Hv. destruct (elect_elected hist (length out) (survivors hist out cands)) as [_ Hm Hb].
  fold b in Hm, Hb. destruct (Hb Hv) as (Hpos & Heq & c & Hin & Hvote & Hend).
  apply elem_of_survivors in Hin as [Hin Hf].
  assert (follows hist (out ++ [best_tok b]) c = true) as Hf' by (by rewrite follows_snoc, Hf).
  constructor.
  - intros _. by exists c.
  - intros t Ht. destruct out as [|t0 out]; simpl in Ht; injection Ht as <-; [|by apply Hr].
    exists c. by split_and!.
  - intros j t d Ht Hd Hlt. destruct (decide (j < length out)%nat) as [Hj|Hj].
    + rewrite lookup_app_l in Ht by done. rewrite take_app_le in Hd |- * by lia. by apply Hp.
    + assert (j = length out) as ->.
      { apply lookup_lt_Some in Ht. rewrite length_app in Ht. simpl in Ht. lia. }
      rewrite list_lookup_middle in Ht by done. injection Ht as <-.
      rewrite take_app_length in Hd |- *. rewrite <- Heq. by apply Hm.
Qed.

Lemma vote_walk_ok fuel hist k max_match cands out rep :
  walk_ok hist cands out rep ->
  let '(out', rep') :=
    vote_walk fuel hist k max_match (length out) (survivors hist out cands) out rep in
  walk_ok hist cands out' rep' /\ (length out' <= length out + fuel)%nat.
Proof.
  revert out rep. induction fuel as [|fuel IH]; intros out rep Hw; cbn [vote_walk]; [split; [done|lia]|].
  set (b := elect _ _ _). destruct (Nat.eqb_spec (voters b) 0); [split; [done|lia]|].
  destruct (_ && _); [split; [done|lia]|]. rewrite survivors_snoc.
  specialize (IH (out ++ [best_tok b]) (if Nat.eqb (length out) 0 then best_end b else rep)).
  rewrite length_app, Nat.add_1_r in IH. destruct (vote_walk _ _ _ _ _ _ _ _) as [out' rep'].
  destruct IH; [by apply walk_ok_snoc|]. split; [done|lia].
Qed.

(** Candidates are the earlier ends where the suffix gram really recurs. *)
Lemma candidates_spec s occ e :
  (forall z, z ∈ occ -> min_match_ s <= z) -> index_exact s ->
  (exists c, c ∈ candidates s occ /\ c_end c = e) <->
  Z.of_nat e ∈ occ /\ (e < length (hist_ s))%nat /\
  agrees (hist_ s) (Z.to_nat (min_match_ s)) e.
Proof.
  intros Hocc [Hmin Hmax _]. unfold candidates. setoid_rewrite list_elem_of_omap. split.
  - intros (c & (z & Hz & Hc) & <-). specialize (Hocc z Hz).
    destruct (Nat.leb_spec (length (hist_ s)) (Z.to_nat z)); [done|].
    destruct (same_gram _ _ _ _) eqn:Eg; simplify_eq/=. rewrite Z2Nat.id by lia. split_and!; [done..|].
    apply same_gram_spec; [lia..|done].
  - intros (Hz & He & Ha). specialize (Hocc _ Hz). eexists. split; [exists (Z.of_nat e); split; [done|]|].
    + rewrite Nat2Z.id, (proj2 (Nat.leb_gt _ _)) by done.
      assert (same_gram (hist_ s) (Z.to_nat (min_match_ s)) (length (hist_ s)) e = true) as ->
        by (apply same_gram_spec; [apply Ha|lia|done]).
      reflexivity.
    + done.
Qed.

(** What the suffix drafter proposes comes from the history.  However the
    history was fed, a draft is at most [max(k, k_max)] tokens that followed an
    earlier occurrence of the last [min_match] tokens, the occurrences consulted
    being exactly the true ones among the 64 most recent ends with the gram's
    hash; [draft_start] is such an occurrence followed by the first drafted
    token, and every drafted token has at least as many votes as any other among
    the occurrences that agree with the draft so far. *)
Theorem suffix_draft_voted min_match max_match chunks k k_max :
  let hist := concat chunks in
  let m := Z.to_nat (Z.max 1 min_match) in
  let '(out, start) := suffix_draft k k_max (index_of min_match max_match chunks) in
  (out = [] /\ start = -1) \/
  exists cands,
    (forall e, (exists c, c ∈ cands /\ c_end c = e) <->
       Z.of_nat e ∈ last_n kMaxOccurrences
         (gram_ends hist (Z.of_nat m) (gram_hash_at_ hist (Z.of_nat m) (Z.of_nat (length hist)))
            (Z.of_nat m) (Z.of_nat (length hist) + 1)) /\
       (e < length hist)%nat /\ agrees hist m e) /\
    Z.of_nat (length out) <= Z.max k k_max /\ out ≠ [] /\
    walk_ok hist cands out start.
Proof.
  destruct (index_of_spec min_match max_match chunks) as [Hx Hh]. cbv zeta. rewrite <- Hh. clear Hh.
  set (m := Z.to_nat (Z.max 1 min_match)). set (s := index_of min_match max_match chunks) in *.
  assert (min_match_ s = Z.max 1 min_match) as Hmm.
  { unfold s, index_of. clear. induction chunks as [|c l IH] using rev_ind; [done|].
    rewrite foldl_app. simpl. unfold index_append. by case_match. }
  unfold suffix_draft. destruct (_ || _) eqn:Eg; [by left|].
  destruct (index_ s !! _) as [occ|] eqn:Eo; [|by left]. case_bool_decide as Hc; [by left|].
  destruct (vote_walk _ _ _ _ _ _ _ _) as [out rep] eqn:Ew. case_bool_decide as Hout; [by left|]. right.
  exists (candidates s occ).
  set (H := hist_ s) in *. assert (Z.of_nat m = min_match_ s) as Hmz by (unfold m; lia).
  assert (occ = last_n kMaxOccurrences
    (gram_ends H (min_match_ s) (gram_hash_at_ H (min_match_ s) (Z.of_nat (length H)))
       (min_match_ s) (Z.of_nat (length H) + 1))) as Heq.
  { pose proof (ix_occ _ Hx (gram_hash_at_ H (min_match_ s) (Z.of_nat (length H)))) as Ho.
    unfold occurrences in Ho. fold H in Ho. by rewrite Eo in Ho. }
  assert (forall z, z ∈ occ -> min_match_ s <= z) as Hocc.
  { intros z Hz. rewrite Heq in Hz. unfold last_n in Hz.
    apply (subseteq_drop _ _) in Hz. unfold gram_ends in Hz. apply list_elem_of_filter in Hz as [_ Hz].
    apply elem_of_seqZ in Hz. lia. }
  assert (walk_ok H (candidates s occ) [] (-1)) as H0 by (constructor; [done|done|done]).
  pose proof (vote_walk_ok (Z.to_nat (Z.max k k_max)) H k (max_match_ s) (candidates s occ) [] (-1) H0)
    as Hw.
  assert (forall e, (exists c, c ∈ candidates s occ /\ c_end c = e) <->
    Z.of_nat e ∈ occ /\ (e < length H)%nat /\ agrees H m e) as Hcs.
  { intros e. unfold m. rewrite <- Hmm. by apply candidates_spec. }
  assert (survivors (hist_ s) [] (candidates s occ) = candidates s occ) as Es.
  { apply forallb_filter_id, forallb_forall. intros c Hin%list_elem_of_In.
    destruct (proj1 (Hcs (c_end c)) (ex_intro _ c (conj Hin eq_refl))) as (_ & Hlt & _).
    unfold follows. simpl. rewrite Nat.add_0_r. fold H. by rewrite (proj2 (Nat.leb_le _ _)) by lia. }
  simpl length in Hw. fold H in Es, Ew. rewrite Es, Ew in Hw. destruct Hw as [Hw Hlen].
  split_and!; [|lia|done|done]. by rewrite Hmz, <- Heq.
Qed.

(** Two of the three earlier continuations of [2; 3] say 9. *)
Lemma suffix_draft_voted_witness :
  let '(out, start) := suffix_draft 2 4 (index_of 2 8 [[2; 3; 9; 2; 3; 7]; [2; 3; 9; 1; 2; 3]]) in
  out = [9; 1] /\ start = 8 /\ 
    exists cands, walk_ok (concat [[2; 3; 9; 2; 3; 7]; [2; 3; 9; 1; 2; 3]]) cands out start.
Proof.
  pose proof (suffix_draft_voted 2 8 [[2; 3; 9; 2; 3; 7]; [2; 3; 9; 1; 2; 3]] 2 4) as H.
  assert (suffix_draft 2 4 (index_of 2 8 [[2; 3; 9; 2; 3; 7]; [2; 3; 9; 1; 2; 3]]) = ([9; 1], 8)) as E
    by (vm_compute; reflexivity).
  cbv zeta in H. rewrite E in H |- *. clear E. split; [reflexivity|]. split; [reflexivity|].
  destruct H as [[H _]|(cands & _ & _ & _ & H)]; [discriminate H|]. exists cands. exact H.
Defined.
