(* ===== verification/Recycle.v ===== *)
(** * The token-recycling table

    Models [src/runtime/token_recycle_draft.cpp]: an adjacency table of the most
    recent successors of every token, stored as one flat array with [slots_]
    entries per token, -1 when empty. *)

From Corelib Require Import ssreflect_rw.
From stdpp Require Import prelude list.
From S2P Require Import Prelude.
Open Scope Z_scope.

(** ** The table and its operations *)

Record TokenRecycleTable := mkTable {
  vocab_ : Z;
  slots_ : nat;
  succ_ : list Z;
  streak_ : list Z
}.

Definition table_new (vocab : Z) (slots : nat) : TokenRecycleTable :=
  mkTable vocab slots (replicate (Z.to_nat vocab * slots) (-1)) (replicate (Z.to_nat vocab) 0).

Definition valid_ (tok : Z) (t : TokenRecycleTable) : bool := (0 <=? tok) && (tok <? vocab_ t).

Definition row_ (tok : Z) (t : TokenRecycleTable) : list Z :=
  take (slots_ t) (drop (Z.to_nat tok * slots_ t) (succ_ t)).
Definition set_row (tok : Z) (r : list Z) (t : TokenRecycleTable) : TokenRecycleTable :=
  mkTable (vocab_ t) (slots_ t)
    (take (Z.to_nat tok * slots_ t) (succ_ t) ++ r ++ drop (Z.to_nat tok * slots_ t + slots_ t) (succ_ t))
    (streak_ t).
Definition set_streak (tok : Z) (v : Z) (t : TokenRecycleTable) : TokenRecycleTable :=
  mkTable (vocab_ t) (slots_ t) (succ_ t) (vset tok v (streak_ t)).
Definition streak (tok : Z) (t : TokenRecycleTable) : Z := default 0 (vget tok (streak_ t)).

(** The slot [promote_] stops at, and whether [next] was found there. *)
Fixpoint promote_pos (next : Z) (r : list Z) (i : nat) : option (nat * bool) :=
  match r with
  | [] => None
  | x :: r =>
      if x =? next then Some (i, true) else if x =? -1 then Some (i, false) else promote_pos next r (S i)
  end.

Definition promote_ (prev next : Z) (t : TokenRecycleTable) : TokenRecycleTable * bool :=
  let r := row_ prev t in
  let '(pos, existed) := default ((slots_ t - 1)%nat, false) (promote_pos next r 0) in
  (set_row prev (next :: take pos r ++ drop (S pos) r) t, existed).

Definition bump_streak (tok : Z) (existed : bool) (t : TokenRecycleTable) : TokenRecycleTable :=
  set_streak tok (if existed then Z.min 255 (streak tok t + 1) else 0) t.

Definition observe_pair (prev next : Z) (t : TokenRecycleTable) : TokenRecycleTable :=
  if negb (valid_ prev t) || negb (valid_ next t) then t
  else let '(t, existed) := promote_ prev next t in bump_streak prev existed t.

Definition observe_topk (token : Z) (ids : list Z) (t : TokenRecycleTable) : TokenRecycleTable :=
  match ids with
  | [] => t
  | id0 :: _ =>
      if negb (valid_ token t) then t
      else
        let front_existed := valid_ id0 t && bool_decide (id0 ∈ row_ token t) in
        let t := foldr (fun i t => if valid_ i t then fst (promote_ token i t) else t) t ids in
        bump_streak token front_existed t
  end.

Definition successor (token : Z) (slot : nat) (t : TokenRecycleTable) : Z :=
  if negb (valid_ token t) || Nat.leb (slots_ t) slot then -1 else default (-1) (row_ token t !! slot).

Definition has (token : Z) (t : TokenRecycleTable) : bool :=
  valid_ token t && (0 <=? default (-1) (row_ token t !! 0%nat)).

Fixpoint draft_linear (k : nat) (cur : Z) (min_streak : Z) (t : TokenRecycleTable) : list Z :=
  match k with
  | O => []
  | S k =>
      if negb (valid_ cur t) || (streak cur t <? min_streak) then []
      else
        let s := default (-1) (row_ cur t !! 0%nat) in
        if s <? 0 then [] else s :: draft_linear k s min_streak t
  end.

(** The front-slot chain of [draft_candidates], which does not re-check ids. *)
Fixpoint front_chain (j : nat) (cur : Z) (t : TokenRecycleTable) : list Z :=
  match j with
  | O => []
  | S j =>
      let s := default (-1) (row_ cur t !! 0%nat) in
      if s <? 0 then [] else s :: front_chain j s t
  end.

Fixpoint candidates_from (firsts : list Z) (depth : nat) (t : TokenRecycleTable) : list (list Z) :=
  match firsts with
  | [] => []
  | first :: firsts =>
      if first <? 0 then []
      else (first :: front_chain (depth - 1) first t) :: candidates_from firsts depth t
  end.

Definition draft_candidates (t0 : Z) (width depth : nat) (t : TokenRecycleTable) : list (list Z) :=
  if negb (valid_ t0 t) || Nat.eqb width 0 || Nat.eqb depth 0 then []
  else candidates_from (take (Nat.min width (slots_ t)) (row_ t0 t)) depth t.

(** ** The recycle table is an array of MRU lists *)

Lemma splice_lookup {A} (l r : list A) a i :
  (a + length r <= length l)%nat ->
  (take a l ++ r ++ drop (a + length r) l) !! i =
    if decide (a <= i < a + length r)%nat then r !! (i - a)%nat else l !! i.
Proof.
  intros Hl. assert (length (take a l) = a) as Ht by (rewrite length_take; lia).
  destruct (decide (i < a)%nat) as [Hi|Hi].
  - rewrite decide_False, lookup_app_l, lookup_take_lt by lia. done.
  - rewrite lookup_app_r, Ht by lia. case_decide.
    + rewrite lookup_app_l by lia. done.
    + rewrite lookup_app_r, lookup_drop by lia. f_equal. lia.
Qed.

Record table_ok (t : TokenRecycleTable) : Prop := {
  tb_slots : (0 < slots_ t)%nat;
  tb_succ : length (succ_ t) = (Z.to_nat (vocab_ t) * slots_ t)%nat;
  tb_streak : length (streak_ t) = Z.to_nat (vocab_ t)
}.

Lemma row_bound t tok : table_ok t -> valid_ tok t = true ->
  (Z.to_nat tok * slots_ t + slots_ t <= length (succ_ t))%nat.
Proof.
  intros [_ Hs _] Hv. unfold valid_ in Hv. rewrite Hs.
  assert (Z.to_nat tok < Z.to_nat (vocab_ t))%nat by lia. nia.
Qed.

Lemma length_row t tok : table_ok t -> valid_ tok t = true -> length (row_ tok t) = slots_ t.
Proof.
  intros Ht Hv. pose proof (row_bound t tok Ht Hv). unfold row_.
  rewrite length_take, length_drop. lia.
Qed.

Lemma row_lookup t tok i : (i < slots_ t)%nat -> row_ tok t !! i = succ_ t !! (Z.to_nat tok * slots_ t + i)%nat.
Proof. intros. unfold row_. by rewrite take_drop_lookup. Qed.

Lemma set_row_ok t tok r :
  table_ok t -> valid_ tok t = true -> length r = slots_ t -> table_ok (set_row tok r t).
Proof.
  intros Ht Hv Hr. pose proof (row_bound t tok Ht Hv). destruct Ht as [? Hs ?]. constructor; simpl; try done.
  rewrite !length_app, length_take, length_drop. lia.
Qed.

Lemma row_set_row t tok r tok' :
  table_ok t -> valid_ tok t = true -> valid_ tok' t = true -> length r = slots_ t ->
  row_ tok' (set_row tok r t) = if decide (tok' = tok) then r else row_ tok' t.
Proof.
  intros Ht Hv Hv' Hr. pose proof (row_bound t tok Ht Hv). pose proof (row_bound t tok' Ht Hv').
  pose proof (set_row_ok t tok r Ht Hv Hr) as Ht1. apply list_eq. intros i.
  destruct (decide (i < slots_ t)%nat) as [Hi|Hi].
  - rewrite row_lookup by done. unfold set_row. cbn [succ_ slots_].
    pose proof (splice_lookup (succ_ t) r (Z.to_nat tok * slots_ t) (Z.to_nat tok' * slots_ t + i))
      as Es. rewrite Hr in Es. rewrite Es by lia. clear Es. unfold valid_ in Hv, Hv'.
    destruct (decide (tok' = tok)) as [->|Hne].
    + rewrite decide_True by lia. f_equal. lia.
    + rewrite decide_False, row_lookup; [done|done|].
      assert (Z.to_nat tok' ≠ Z.to_nat tok) by lia. nia.
  - rewrite !lookup_ge_None_2; [done| |rewrite length_row; simpl in *; try done; lia].
    case_decide; [lia|]. rewrite length_row by done. lia.
Qed.

(** The used slots of a row, most recent first. *)
Definition mru (tok : Z) (t : TokenRecycleTable) : list Z := filter (fun x => 0 <= x) (row_ tok t).

Definition row_of (slots : nat) (used : list Z) : list Z := used ++ replicate (slots - length used) (-1).

Record mru_ok (slots : nat) (vocab : Z) (used : list Z) : Prop := {
  mr_len : (length used <= slots)%nat;
  mr_nodup : NoDup used;
  mr_range : Forall (fun x => 0 <= x < vocab) used
}.

Record table_wf (t : TokenRecycleTable) : Prop := {
  tw_ok : table_ok t;
  tw_rows : forall tok, valid_ tok t = true ->
    exists used, mru_ok (slots_ t) (vocab_ t) used /\ row_ tok t = row_of (slots_ t) used
}.

Lemma mru_row_of slots vocab used :
  mru_ok slots vocab used -> filter (fun x => 0 <= x) (row_of slots used) = used.
Proof.
  intros [_ _ Hr]. unfold row_of. rewrite filter_app.
  assert (filter (fun x => 0 <= x) used = used) as ->.
  { clear -Hr. induction Hr as [|x l Hx _ IH]; [done|]. rewrite filter_cons, decide_True, IH by lia. done. }
  induction (slots - length used)%nat as [|n IH]; [by rewrite app_nil_r|].
  simpl. rewrite filter_cons, decide_False by lia. apply IH.
Qed.

(** Promotion on the abstract list. *)
Definition mru_push (slots : nat) (next : Z) (used : list Z) : list Z :=
  take slots (next :: filter (fun x => x ≠ next) used).

Lemma mru_push_ok slots vocab next used :
  0 <= next < vocab -> mru_ok slots vocab used -> mru_ok slots vocab (mru_push slots next used).
Proof.
  intros Hn [Hl Hnd Hr]. unfold mru_push. constructor.
  - rewrite length_take. lia.
  - eapply sublist_NoDup; [|apply sublist_take]. apply NoDup_cons. split; [|by apply NoDup_filter].
    rewrite list_elem_of_filter. tauto.
  - apply Forall_take. constructor; [done|]. rewrite Forall_forall in *. intros x [_ ?]%list_elem_of_filter. auto.
Qed.

Lemma promote_pos_in next used rest i :
  next ∈ used -> Forall (fun x => 0 <= x) used -> NoDup used ->
  exists pos, promote_pos next (used ++ rest) i = Some ((i + pos)%nat, true) /\
    (pos < length used)%nat /\ take pos used ++ drop (S pos) used = filter (fun x => x ≠ next) used.
Proof.
  intros Hin Hr Hnd. revert i Hin. induction used as [|x used IH]; intros i Hin; [by apply elem_of_nil in Hin|].
  apply Forall_cons in Hr as [Hx Hr]. apply NoDup_cons in Hnd as [Hxn Hnd]. simpl.
  destruct (Z.eqb_spec x next) as [->|Hne].
  - exists 0%nat. rewrite Nat.add_0_r. split_and!; [done|lia|]. simpl. rewrite drop_0, filter_cons, decide_False by tauto.
    symmetry. clear -Hxn. induction used as [|y used IH]; [done|].
    rewrite filter_cons, decide_True by set_solver. rewrite IH; [done|set_solver].
  - rewrite (proj2 (Z.eqb_neq _ _)) by lia.
    destruct (IH Hr Hnd (S i)) as (pos & E & Hlt & Ef); [set_solver|]. exists (S pos).
    rewrite E, Nat.add_succ_r. split_and!; [done|lia|]. simpl. by rewrite filter_cons, decide_True, Ef.
Qed.

Lemma promote_pos_out next used n i :
  next ∉ used -> Forall (fun x => 0 <= x) used -> 0 <= next ->
  promote_pos next (used ++ replicate n (-1)) i =
    match n with O => None | S _ => Some ((i + length used)%nat, false) end.
Proof.
  intros Hn Hr Hnext. revert i. induction used as [|x used IH]; intros i; cbn [promote_pos app length].
  - destruct n; [done|]. cbn [replicate promote_pos]. rewrite (proj2 (Z.eqb_neq (-1) next)) by lia.
    rewrite Z.eqb_refl. by rewrite Nat.add_0_r.
  - apply Forall_cons in Hr as [Hx Hr]. apply not_elem_of_cons in Hn as [Hne Hn].
    rewrite (proj2 (Z.eqb_neq x next)), (proj2 (Z.eqb_neq _ _)) by lia. rewrite IH by done.
    destruct n; [done|]. do 2 f_equal. lia.
Qed.

(** The slot shuffle is the MRU push. *)
Lemma promote_row_mru slots vocab next used :
  (0 < slots)%nat -> 0 <= next < vocab -> mru_ok slots vocab used ->
  let '(pos, existed) := default ((slots - 1)%nat, false) (promote_pos next (row_of slots used) 0) in
  next :: take pos (row_of slots used) ++ drop (S pos) (row_of slots used) =
    row_of slots (mru_push slots next used) /\ existed = bool_decide (next ∈ used).
Proof.
  intros Hs Hn [Hl Hnd Hr]. unfold row_of.
  assert (Forall (fun x => 0 <= x) used) as Hr0 by (eapply Forall_impl; [exact Hr|]; simpl; lia).
  destruct (decide (next ∈ used)) as [Hin|Hout].
  - destruct (promote_pos_in next used (replicate (slots - length used) (-1)) 0 Hin Hr0 Hnd)
      as (pos & -> & Hlt & Ef). simpl. rewrite bool_decide_eq_true_2 by done. split; [|done].
    assert (length (filter (fun x => x ≠ next) used) = (length used - 1)%nat) as Hlen.
    { rewrite <- Ef, length_app, length_take, length_drop. lia. }
    unfold mru_push. rewrite (take_ge (next :: _)) by (simpl; lia). simpl. rewrite Hlen.
    replace (S (length used - 1))%nat with (length used) by lia. f_equal.
    rewrite take_app_le, drop_app_le, app_assoc by lia. f_equal. exact Ef.
  - rewrite promote_pos_out by (try done; lia).
    assert (filter (fun x => x ≠ next) used = used) as Ef.
    { clear -Hout. induction used as [|x used IH]; [done|]. rewrite filter_cons, decide_True by set_solver.
      rewrite IH; [done|set_solver]. }
    unfold mru_push. rewrite Ef, bool_decide_eq_false_2 by done.
    destruct (slots - length used)%nat as [|n] eqn:En; simpl.
    + split; [|done]. destruct slots as [|s]; [lia|]. simpl in *. rewrite Nat.sub_0_r, !app_nil_r.
      rewrite (drop_ge used), app_nil_r by lia. rewrite length_take.
      replace (s - _)%nat with 0%nat by lia. by rewrite app_nil_r.
    + split; [|done]. rewrite take_app_length, (take_ge (next :: used)) by (simpl; lia). simpl.
      replace (slots - S (length used))%nat with n by lia. f_equal. f_equal.
      rewrite drop_app_ge by lia. replace (S (length used) - length used)%nat with 1%nat by lia. done.
Qed.

Lemma length_row_of slots vocab used : mru_ok slots vocab used -> length (row_of slots used) = slots.
Proof. intros [Hl _ _]. unfold row_of. rewrite length_app, length_replicate. lia. Qed.

Lemma valid_range tok t : valid_ tok t = true <-> 0 <= tok < vocab_ t.
Proof. unfold valid_. rewrite andb_true_iff, Z.leb_le, Z.ltb_lt. done. Qed.

(** [promote_] on the whole table. *)
Lemma promote_wf prev next t t' existed :
  table_wf t -> valid_ prev t = true -> valid_ next t = true -> promote_ prev next t = (t', existed) ->
  table_wf t' /\ vocab_ t' = vocab_ t /\ slots_ t' = slots_ t /\ streak_ t' = streak_ t /\
  existed = bool_decide (next ∈ mru prev t) /\
  mru prev t' = mru_push (slots_ t) next (mru prev t) /\
  (forall tok, valid_ tok t = true -> tok ≠ prev -> row_ tok t' = row_ tok t).
Proof.
  intros [Ht Hrows] Hp Hn. pose proof (proj1 (valid_range next t) Hn) as Hnr.
  destruct (Hrows prev Hp) as (used & Hu & Er). unfold promote_. rewrite Er.
  pose proof (promote_row_mru _ _ next used (tb_slots _ Ht) Hnr Hu) as Hpr.
  destruct (default _ _) as [pos ex]. destruct Hpr as [-> ->]. intros [= <- <-].
  pose proof (mru_push_ok _ _ _ _ Hnr Hu) as Hu'. pose proof (length_row_of _ _ _ Hu') as Hlen.
  assert (mru prev t = used) as -> by (unfold mru; rewrite Er; by eapply mru_row_of).
  assert (forall tok, valid_ tok t = true -> row_ tok (set_row prev (row_of (slots_ t)
    (mru_push (slots_ t) next used)) t) = if decide (tok = prev) then
      row_of (slots_ t) (mru_push (slots_ t) next used) else row_ tok t) as Hrow
    by (intros; by apply row_set_row).
  split_and!; try done.
  - constructor; [by apply set_row_ok|]. intros tok Hv. rewrite Hrow by done.
    destruct (decide (tok = prev)) as [->|]; [by eexists|by apply Hrows].
  - unfold mru. rewrite Hrow, decide_True by done. by eapply mru_row_of.
  - intros tok Hv Hne. by rewrite Hrow, decide_False.
Qed.

Lemma set_streak_wf tok v t : table_wf t -> table_wf (set_streak tok v t).
Proof.
  intros [[Hs Hl Hk] Hr]. constructor; [|exact Hr]. constructor; [done..|]. simpl. unfold vset.
  by rewrite length_insert.
Qed.

Lemma streak_set tok v t :
  table_wf t -> valid_ tok t = true -> streak tok (set_streak tok v t) = v.
Proof.
  intros [[_ _ Hk] _] Hv%valid_range. unfold streak, vget, set_streak, vset. simpl.
  rewrite (proj2 (Z.ltb_ge _ _)), list_lookup_insert_eq by lia. done.
Qed.

Lemma streak_set_other tok tok' v t :
  0 <= tok -> tok' ≠ tok -> streak tok' (set_streak tok v t) = streak tok' t.
Proof.
  intros Ht Hne. unfold streak, vget, set_streak, vset. simpl.
  destruct (Z.ltb_spec tok' 0); [done|]. by rewrite list_lookup_insert_ne by lia.
Qed.

(** [observe_pair] is an MRU update.  On a well-formed table with valid ids,
    the successors of [prev] become [next] followed by the others in order,
    cut to the slot count; the streak counts how often the pair was already
    recorded, saturating at 255, and restarts otherwise; every other row and
    streak is unchanged and the table stays well formed. *)
Theorem observe_pair_mru prev next t :
  table_wf t -> valid_ prev t = true -> valid_ next t = true ->
  let t' := observe_pair prev next t in
  table_wf t' /\
  mru prev t' = take (slots_ t) (next :: filter (fun x => x ≠ next) (mru prev t)) /\
  streak prev t' = (if decide (next ∈ mru prev t) then Z.min 255 (streak prev t + 1) else 0) /\
  forall tok, valid_ tok t = true -> tok ≠ prev ->
    mru tok t' = mru tok t /\ streak tok t' = streak tok t.
Proof.
  intros Ht Hp Hn. unfold observe_pair. rewrite Hp, Hn. simpl orb. cbv iota.
  destruct (promote_ prev next t) as [t1 ex] eqn:E.
  destruct (promote_wf _ _ _ _ _ Ht Hp Hn E) as (Hw & Hv & Hs & Hk & -> & Hm & Hoth).
  assert (valid_ prev t1 = true) as Hp1 by (unfold valid_ in *; by rewrite Hv).
  assert (forall tok, streak tok t1 = streak tok t) as Hst by (intros; unfold streak; by rewrite Hk).
  pose proof (proj1 (valid_range _ _) Hp). unfold bump_streak. cbv zeta. split_and!.
  - by apply set_streak_wf.
  - exact Hm.
  - rewrite streak_set by done. rewrite Hst. by case_bool_decide; case_decide.
  - intros tok Htok Hne. rewrite streak_set_other, Hst by (try done; lia). split; [|done].
    unfold mru. by rewrite <- (Hoth tok Htok Hne).
Qed.

Lemma observe_pair_invalid prev next t :
  valid_ prev t && valid_ next t = false -> observe_pair prev next t = t.
Proof. unfold observe_pair. by destruct (valid_ prev t), (valid_ next t). Qed.

Lemma bump_streak_wf tok ex t : table_wf t -> table_wf (bump_streak tok ex t).
Proof. apply set_streak_wf. Qed.

Lemma promote_all_wf token ids t :
  table_wf t -> valid_ token t = true ->
  let t' := foldr (fun i t => if valid_ i t then fst (promote_ token i t) else t) t ids in
  table_wf t' /\ vocab_ t' = vocab_ t /\ slots_ t' = slots_ t.
Proof.
  intros Ht Hv. induction ids as [|i ids (Hw & Hvo & Hsl)]; [done|]. cbn [foldr].
  set (t1 := foldr _ _ _) in *. cbv zeta. destruct (valid_ i t1) eqn:Ei; [|done].
  destruct (promote_ token i t1) as [t2 ex] eqn:E.
  destruct (promote_wf _ _ _ _ _ Hw ltac:(by unfold valid_ in *; rewrite Hvo) Ei E) as (? & ? & ? & _).
  simpl. split_and!; [done|congruence..].
Qed.

Lemma table_new_wf vocab slots : (0 < slots)%nat -> table_wf (table_new vocab slots).
Proof.
  intros Hs. assert (table_ok (table_new vocab slots)) as Hok
    by (constructor; simpl; [done|by rewrite length_replicate..]).
  constructor; [done|]. intros tok Hv. exists []. split; [constructor; simpl; [lia|constructor|done]|].
  pose proof (row_bound _ _ Hok Hv) as Hb. simpl in Hb. rewrite length_replicate in Hb.
  unfold row_, row_of, table_new. simpl. rewrite drop_replicate, take_replicate, Nat.sub_0_r.
  f_equal. lia.
Qed.

(** Tables the engine can build: any observations from the empty table. *)
Inductive recycled (vocab : Z) (slots : nat) : TokenRecycleTable -> Prop :=
| rec_new : recycled vocab slots (table_new vocab slots)
| rec_pair t prev next : recycled vocab slots t -> recycled vocab slots (observe_pair prev next t)
| rec_topk t token ids : recycled vocab slots t -> recycled vocab slots (observe_topk token ids t).

Lemma recycled_wf vocab slots t :
  (0 < slots)%nat -> recycled vocab slots t ->
  table_wf t /\ vocab_ t = vocab /\ slots_ t = slots.
Proof.
  intros Hs. induction 1 as [|t prev next _ (Hw & Hv & Hsl)|t token ids _ (Hw & Hv & Hsl)].
  - split; [by apply table_new_wf|done].
  - destruct (valid_ prev t && valid_ next t) eqn:Ev; [|by rewrite observe_pair_invalid].
    apply andb_true_iff in Ev as [Hp Hn].
    unfold observe_pair. rewrite Hp, Hn. simpl orb. cbv iota. destruct (promote_ prev next t) as [t1 ex] eqn:E.
    destruct (promote_wf _ _ _ _ _ Hw Hp Hn E) as (? & ? & ? & _). split; [by apply bump_streak_wf|].
    unfold bump_streak, set_streak. cbn [vocab_ slots_]. split; congruence.
  - unfold observe_topk. destruct ids as [|i ids]; [done|].
    destruct (valid_ token t) eqn:Et; [|done]. cbn [negb].
    destruct (promote_all_wf token (i :: ids) t Hw Et) as (? & ? & ?).
    split; [by apply bump_streak_wf|]. unfold bump_streak, set_streak. cbn [vocab_ slots_]. split; congruence.
Qed.

(** The front of a well-formed row is -1 or a valid id. *)
Lemma front_valid t tok :
  table_wf t -> valid_ tok t = true ->
  let s := default (-1) (row_ tok t !! 0%nat) in 0 <= s -> valid_ s t = true.
Proof.
  intros [Ht Hr] Hv s Hs. destruct (Hr tok Hv) as (used & [Hl _ Hrange] & Er). unfold s in *. rewrite Er in *.
  apply valid_range. unfold row_of in *. destruct used as [|x used]; cbn [app length] in *.
  - destruct (slots_ t - 0)%nat; simpl in *; lia.
  - by apply Forall_cons in Hrange as [? _].
Qed.

(** Consecutive drafted tokens are front successors. *)
Fixpoint chained (t : TokenRecycleTable) (cur : Z) (l : list Z) : Prop :=
  match l with
  | [] => True
  | s :: l => valid_ cur t = true /\ valid_ s t = true /\ head (row_ cur t) = Some s /\ chained t s l
  end.

Lemma front_head t cur s : default (-1) (row_ cur t !! 0%nat) = s -> 0 <= s -> head (row_ cur t) = Some s.
Proof. destruct (row_ cur t); simpl; [lia|by intros ->]. Qed.

Lemma draft_linear_chained k cur ms t :
  table_wf t -> chained t cur (draft_linear k cur ms t) /\ (length (draft_linear k cur ms t) <= k)%nat /\
  Forall (fun s => 0 <= s) (draft_linear k cur ms t).
Proof.
  intros Ht. revert cur. induction k as [|k IH]; intros cur; simpl; [done|].
  destruct (valid_ cur t) eqn:Hv; simpl; [|split_and!; [done|lia|done]].
  destruct (streak cur t <? ms); [split_and!; [done|simpl; lia|done]|].
  destruct (Z.ltb_spec (default (-1) (row_ cur t !! 0%nat)) 0) as [|Hs]; [split_and!; [done|simpl; lia|done]|].
  destruct (IH (default (-1) (row_ cur t !! 0%nat))) as (? & ? & ?).
  split; [|split; [simpl; lia|by constructor]].
  split; [done|]. split; [by apply front_valid|]. split; [by apply front_head|done].
Qed.

Lemma front_chain_chained j cur t :
  table_wf t -> valid_ cur t = true -> chained t cur (front_chain j cur t) /\ (length (front_chain j cur t) <= j)%nat.
Proof.
  intros Ht. revert cur. induction j as [|j IH]; intros cur Hv; simpl; [done|].
  destruct (Z.ltb_spec (default (-1) (row_ cur t !! 0%nat)) 0) as [|Hs]; [simpl; split; [done|lia]|].
  pose proof (front_valid t cur Ht Hv Hs) as Hv'. destruct (IH _ Hv'). simpl. split; [|lia].
  split; [done|]. split; [done|]. split; [by apply front_head|done].
Qed.

(** Recycled drafts stay inside the table.  Whatever was observed, a linear
    draft is a chain of at most [k] front successors, all valid ids, so no row
    outside the table is ever read; a tree draft gives at most [width]
    candidates, candidate [i] starting with the [i]-th recorded successor of the
    last token and continuing along front successors, at most [depth] tokens. *)
Theorem recycled_drafts_chained vocab slots t t0 k ms width depth :
  (0 < slots)%nat -> recycled vocab slots t ->
  chained t t0 (draft_linear k t0 ms t) /\ (length (draft_linear k t0 ms t) <= k)%nat /\
  let cs := draft_candidates t0 width depth t in
  (length cs <= width)%nat /\
  forall i c, cs !! i = Some c ->
    (length c <= depth)%nat /\ exists first rest, c = first :: rest /\
      successor t0 i t = first /\ valid_ first t = true /\ chained t first rest.
Proof.
  intros Hs Hr. destruct (recycled_wf _ _ _ Hs Hr) as (Hw & _ & Hsl).
  destruct (draft_linear_chained k t0 ms t Hw) as (? & ? & _). split_and!; [done..|].
  unfold draft_candidates. destruct (_ || _) eqn:E; [split; [simpl; lia|done]|].
  rewrite !orb_false_iff, negb_false_iff, !Nat.eqb_neq in E. destruct E as [[Hv Hwd] Hd].
  assert (forall l, (length (candidates_from l depth t) <= length l)%nat) as Hlen.
  { induction l as [|x l IH]; simpl; [lia|]. case_match; simpl; lia. }
  split; [etrans; [apply Hlen|]; rewrite length_take; lia|].
  assert (forall l i c, candidates_from l depth t !! i = Some c ->
    exists first, l !! i = Some first /\ 0 <= first /\ c = first :: front_chain (depth - 1) first t) as Hc.
  { induction l as [|x l IH]; intros i c; cbn [candidates_from]; [done|].
    destruct (Z.ltb_spec x 0); [done|]. destruct i as [|i]; simpl; [|apply IH].
    intros [= <-]. by exists x. }
  intros i c Hi. destruct (Hc _ _ _ Hi) as (first & Hf & H0f & ->).
  apply lookup_take_Some in Hf as [Hf Hlt].
  assert (valid_ first t = true) as Hvf.
  { destruct (tw_rows _ Hw t0 Hv) as (used & Hu & Er). rewrite Er in Hf. unfold row_of in Hf.
    apply list_elem_of_lookup_2, elem_of_app in Hf as [Hf|Hf].
    - destruct Hu as [_ _ Hrange]. rewrite Forall_forall in Hrange. by apply valid_range, Hrange.
    - apply elem_of_replicate_inv in Hf. lia. }
  destruct (front_chain_chained (depth - 1) first t Hw Hvf) as [Hch Hl].
  split; [simpl; lia|]. exists first, (front_chain (depth - 1) first t). split_and!; try done.
  unfold successor. rewrite Hv, (proj2 (Nat.leb_gt _ _)) by lia. simpl. by rewrite Hf.
Qed.

Definition demo_table : TokenRecycleTable :=
  observe_topk 3 [1; 0; 9] (observe_pair 1 2 (observe_pair 2 3 (observe_pair 1 2 (table_new 5 2)))).

Lemma recycled_drafts_chained_witness :
  recycled 5 2 demo_table /\ draft_linear 4 1 0 demo_table = [2; 3; 1; 2] /\
  chained demo_table 1 [2; 3; 1; 2] /\ (length (draft_candidates 3 2 3 demo_table) <= 2)%nat.
Proof.
  assert (recycled 5 2 demo_table) as Hr by (repeat constructor).
  destruct (recycled_drafts_chained 5 2 demo_table 1 4 0 2 3 ltac:(lia) Hr) as (H1 & _ & _).
  destruct (recycled_drafts_chained 5 2 demo_table 3 4 0 2 3 ltac:(lia) Hr) as (_ & _ & H2 & _).
  assert (draft_linear 4 1 0 demo_table = [2; 3; 1; 2]) as E by (vm_compute; reflexivity).
  rewrite E in H1. split; [exact Hr|]. split; [exact E|]. split; [exact H1|exact H2].
Defined.

Lemma observe_pair_mru_witness :
  let t' := observe_pair 3 0 demo_table in
  mru 3 demo_table = [1; 0] /\ mru 3 t' = [0; 1] /\ streak 3 t' = 1.
Proof.
  assert (table_wf demo_table) as Hw by (apply (recycled_wf 5 2); [lia|repeat constructor]).
  destruct (observe_pair_mru 3 0 demo_table Hw eq_refl eq_refl) as (_ & Hm & Hst & _).
  cbv zeta. split; [vm_compute; reflexivity|]. rewrite Hm, Hst.
  split; vm_compute; reflexivity.
Defined.

(** [streak_] is documented as consecutive re-confirmations of the front slot,
    reset when the front changes; a pair seen before bumps it although the
    front changes. *)
Theorem streak_survives_front_change :
  let t := observe_pair 0 2 (observe_pair 0 1 (table_new 3 2)) in
  successor 0 0 t = 2 /\ successor 0 0 (observe_pair 0 1 t) = 1 /\ streak 0 (observe_pair 0 1 t) = 1.
Proof. repeat split; vm_compute; reflexivity. Qed.
