(* ===== verification/Gbnf.v ===== *)
(** * GBNF grammars: rule tables, character sets and compile-time checks

    Models the data of [compute/gbnf_grammar.h] and, from
    [compute/gbnf_grammar.cpp], [GbnfCharSet], [compute_nullable] and
    [check_left_recursion].  The meaning of a rule table is the inductive
    relation [derives]: which codepoint words an item sequence expands to.
    Rule, alternative and item indices are list positions ([nat]); a codepoint
    is a [uint32_t], a [Z]. *)

From Corelib Require Import ssreflect_rw.
From stdpp Require Import prelude list sorting relations.
From S2P Require Import Prelude.
Open Scope Z_scope.

(** ** Character sets *)

Record GbnfCharSet := mkCharSet { ranges : list (Z * Z); negated : bool }.

Definition in_range (cp : Z) (r : Z * Z) : bool := (r.1 <=? cp) && (cp <=? r.2).

Definition matches (cs : GbnfCharSet) (cp : Z) : bool :=
  let in_ := existsb (in_range cp) (ranges cs) in
  if negated cs then negb in_ else in_.

(** [operator<] of [std::pair], the order [std::sort] puts the ranges in. *)
Definition pair_le (a b : Z * Z) : Prop := a.1 < b.1 \/ (a.1 = b.1 /\ a.2 <= b.2).

#[export] Instance pair_le_dec a b : Decision (pair_le a b).
Proof. unfold pair_le. apply _. Defined.
#[export] Instance pair_le_total : Total pair_le.
Proof. intros [] []. unfold pair_le. simpl. lia. Qed.
#[export] Instance pair_le_trans : Transitive pair_le.
Proof. intros [] [] []. unfold pair_le. simpl. lia. Qed.

(** The walk over the sorted ranges of a negated class, looking for a hole. *)
Fixpoint hole_walk (rs : list (Z * Z)) (cur hi : Z) : bool :=
  match rs with
  | [] => cur <=? hi
  | r :: rs' =>
      if r.2 <? cur then hole_walk rs' cur hi
      else if cur <? r.1 then true
      else if hi <=? r.2 then false
      else hole_walk rs' (u32 (r.2 + 1)) hi
  end.

Definition intersects (cs : GbnfCharSet) (lo hi : Z) : bool :=
  if negated cs then hole_walk (merge_sort pair_le (ranges cs)) lo hi
  else existsb (fun r => (r.1 <=? hi) && (lo <=? r.2)) (ranges cs).

(** ** Rules *)

(** One element of an alternative; [is_rule] tells the two cases apart. *)
Inductive GbnfItem :=
  | RuleItem (rule : nat)
  | CharItem (chars : GbnfCharSet).

Definition GbnfAlt := list GbnfItem.

Record GbnfRule := mkRule { rule_name : list Z; alts : list GbnfAlt }.

#[export] Instance GbnfCharSet_eq : EqDecision GbnfCharSet.
Proof. solve_decision. Defined.
#[export] Instance GbnfItem_eq : EqDecision GbnfItem.
Proof. solve_decision. Defined.
#[export] Instance GbnfRule_eq : EqDecision GbnfRule.
Proof. solve_decision. Defined.

(** [rules_[r].alts], empty outside the table. *)
Definition alts_of (rules : list GbnfRule) (r : nat) : list GbnfAlt :=
  match rules !! r with Some ru => alts ru | None => [] end.

(** ** [compute_nullable] *)

Definition item_null (nul : list bool) (it : GbnfItem) : bool :=
  match it with RuleItem r => default false (nul !! r) | CharItem _ => false end.

Definition all_null (nul : list bool) (alt : GbnfAlt) : bool := forallb (item_null nul) alt.

Definition nullable_visit (rules : list GbnfRule) (st : list bool * bool) (r : nat) : list bool * bool :=
  if default false (st.1 !! r) then st
  else if existsb (all_null st.1) (alts_of rules r) then (<[r:=true]> st.1, true) else st.

Definition nullable_pass (rules : list GbnfRule) (nul : list bool) : list bool * bool :=
  foldl (nullable_visit rules) (nul, false) (seq 0 (length rules)).

Fixpoint nullable_loop (fuel : nat) (rules : list GbnfRule) (nul : list bool) : list bool :=
  match fuel with
  | O => nul
  | S f =>
      let (nul', changed) := nullable_pass rules nul in
      if changed then nullable_loop f rules nul' else nul'
  end.

(** Each pass that changes something marks one more rule. *)
Definition compute_nullable (rules : list GbnfRule) : list bool :=
  nullable_loop (S (length rules)) rules (replicate (length rules) false).

(** ** [check_left_recursion] *)

(** Rules enterable at the first input position of an alternative. *)
Fixpoint first_rules (nul : list bool) (alt : GbnfAlt) : list nat :=
  match alt with
  | [] => []
  | CharItem _ :: _ => []
  | RuleItem r :: alt' => r :: (if default false (nul !! r) then first_rules nul alt' else [])
  end.

Definition first_adj (rules : list GbnfRule) (nul : list bool) : list (list nat) :=
  (fun ru => concat (first_rules nul <$> alts ru)) <$> rules.

Inductive Color := Unvisited | OnStack | Done.

#[export] Instance Color_eq : EqDecision Color.
Proof. solve_decision. Defined.

(** The depth-first search; a stack entry is a node and the next edge to try.
    [Some (inr next)]: a cycle through [next]; [Some (inl color)]: finished. *)
Fixpoint dfs_loop (fuel : nat) (adj : list (list nat)) (color : list Color)
    (stack : list (nat * nat)) : option (list Color + nat) :=
  match stack with
  | [] => Some (inl color)
  | (r, i) :: rest =>
      match fuel with
      | O => None
      | S f =>
          match default [] (adj !! r) !! i with
          | Some next =>
              match color !! next with
              | Some OnStack => Some (inr next)
              | Some Unvisited =>
                  dfs_loop f adj (<[next:=OnStack]> color) ((next, O) :: (r, S i) :: rest)
              | _ => dfs_loop f adj color ((r, S i) :: rest)
              end
          | None => dfs_loop f adj (<[r:=Done]> color) rest
          end
      end
  end.

Fixpoint dfs_starts (fuel : nat) (adj : list (list nat)) (color : list Color)
    (starts : list nat) : option (list Color + nat) :=
  match starts with
  | [] => Some (inl color)
  | s :: starts' =>
      match color !! s with
      | Some Unvisited =>
          match dfs_loop fuel adj (<[s:=OnStack]> color) [(s, O)] with
          | Some (inl color') => dfs_starts fuel adj color' starts'
          | r => r
          end
      | _ => dfs_starts fuel adj color starts'
      end
  end.

(** Every iteration pushes a node, uses an edge or pops a node. *)
Definition dfs_fuel (adj : list (list nat)) : nat := sum_list_with length adj + 2 * length adj.

(** [Some None]: no left recursion; [Some (Some r)]: refused because of rule [r]. *)
Definition check_left_recursion (rules : list GbnfRule) (nul : list bool) : option (option nat) :=
  let adj := first_adj rules nul in
  match dfs_starts (dfs_fuel adj) adj (replicate (length rules) Unvisited) (seq 0 (length rules)) with
  | Some (inl _) => Some None
  | Some (inr r) => Some (Some r)
  | None => None
  end.

(** ** Meaning of a rule table *)

Section Derives.
Context (rules : list GbnfRule).

Inductive derives : list GbnfItem -> list Z -> Prop :=
  | derives_nil : derives [] []
  | derives_char cs its c w :
      matches cs c = true -> derives its w -> derives (CharItem cs :: its) (c :: w)
  | derives_rule r alt its w1 w2 :
      alt ∈ alts_of rules r -> derives alt w1 -> derives its w2 ->
      derives (RuleItem r :: its) (w1 ++ w2).

(** [s] is enterable at the first input position of rule [r]. *)
Definition first_edge (r s : nat) : Prop :=
  exists pre post, pre ++ RuleItem s :: post ∈ alts_of rules r /\ derives pre [].

Lemma derives_app l1 l2 w1 w2 : derives l1 w1 -> derives l2 w2 -> derives (l1 ++ l2) (w1 ++ w2).
Proof.
  intros H1 H2. induction H1 as [|cs its c w Hc _ IH|r alt its v1 v2 Ha Hw _ Hits IH]; simpl.
  - done.
  - by constructor.
  - rewrite <- app_assoc. by econstructor.
Qed.

Lemma derives_app_inv l1 l2 w :
  derives (l1 ++ l2) w -> exists w1 w2, w = w1 ++ w2 /\ derives l1 w1 /\ derives l2 w2.
Proof.
  revert w. induction l1 as [|it l1 IH]; intros w H; simpl in H.
  { exists [], w. split_and!; [done|constructor|done]. }
  inversion H as [|cs its c v Hc Hv|r alt its v1 v2 Ha H1 H2]; subst.
  - destruct (IH _ Hv) as (w1 & w2 & -> & ? & ?).
    exists (c :: w1), w2. split_and!; [done|by constructor|done].
  - destruct (IH _ H2) as (w1 & w2 & -> & ? & ?).
    exists (v1 ++ w1), w2. split_and!; [by rewrite app_assoc|by econstructor|done].
Qed.

Lemma derives_single_rule r w : derives [RuleItem r] w <-> exists alt, alt ∈ alts_of rules r /\ derives alt w.
Proof.
  split.
  - inversion 1 as [| |? alt ? v1 v2 Ha H1 H2]; subst. inversion H2; subst.
    exists alt. split; [done|by rewrite app_nil_r].
  - intros (alt & Ha & Hw). rewrite <- (app_nil_r w). econstructor; [done..|constructor].
Qed.

End Derives.

(** ** Character sets: the partial-codepoint test is exact *)

Definition range_ok (r : Z * Z) : Prop := 0 <= r.1 <= r.2 /\ r.2 < two32.
Definition cs_ok (cs : GbnfCharSet) : Prop := Forall range_ok (ranges cs).

Lemma in_range_spec cp r : in_range cp r = true <-> r.1 <= cp <= r.2.
Proof. unfold in_range. rewrite andb_true_iff, !Z.leb_le. done. Qed.

Lemma existsb_in_range cp rs : existsb (in_range cp) rs = true <-> exists r, r ∈ rs /\ r.1 <= cp <= r.2.
Proof. rewrite existsb_exists. setoid_rewrite list_elem_of_In. by setoid_rewrite in_range_spec. Qed.

Lemma hole_walk_spec rs cur hi :
  StronglySorted pair_le rs -> Forall range_ok rs -> cur <= hi < two32 ->
  hole_walk rs cur hi = true <-> exists cp, cur <= cp <= hi /\ existsb (in_range cp) rs = false.
Proof.
  intros Hs. revert cur. induction Hs as [|r rs Hs IH Hle]; intros cur Hok Hhi; simpl.
  { rewrite Z.leb_le. split; [intros; exists cur; split; [lia|done]|lia]. }
  apply Forall_cons in Hok as [Hr Hok]. destruct Hr as [[Hr1 Hr2] Hr3].
  assert (forall P : Z -> Prop, (forall cp, cur <= cp <= hi -> in_range cp r = false -> P cp) ->
    (exists cp, cur <= cp <= hi /\ in_range cp r || existsb (in_range cp) rs = false) ->
    exists cp, (cur <= cp <= hi /\ existsb (in_range cp) rs = false) /\ P cp) as Hcut.
  { intros P HP (cp & ? & [? ?]%orb_false_iff). exists cp. auto. }
  destruct (r.2 <? cur) eqn:E1; [apply Z.ltb_lt in E1|apply Z.ltb_ge in E1].
  { rewrite IH by done. split; intros (cp & ? & H).
    - exists cp. split; [done|]. apply orb_false_iff. split; [|done].
      apply not_true_iff_false. rewrite in_range_spec. lia.
    - apply orb_false_iff in H as [_ H]. by exists cp. }
  destruct (cur <? r.1) eqn:E2; [apply Z.ltb_lt in E2|apply Z.ltb_ge in E2].
  { split; [intros _|done]. exists cur. split; [lia|].
    apply not_true_iff_false. rewrite orb_true_iff, in_range_spec, existsb_in_range.
    intros [?|(q & Hq & ?)]; [lia|]. rewrite Forall_forall in Hle. apply Hle in Hq. unfold pair_le in Hq. lia. }
  destruct (hi <=? r.2) eqn:E3; [apply Z.leb_le in E3|apply Z.leb_gt in E3].
  { split; [done|]. intros (cp & ? & [H _]%orb_false_iff).
    apply not_true_iff_false in H. rewrite in_range_spec in H. lia. }
  unfold u32. rewrite Z.mod_small by lia. rewrite IH by (done || lia). split.
  - intros (cp & ? & H). exists cp. split; [lia|]. apply orb_false_iff. split; [|done].
    apply not_true_iff_false. rewrite in_range_spec. lia.
  - intros H. apply (Hcut (fun cp => r.2 + 1 <= cp)) in H as (cp & [? ?] & ?).
    + exists cp. split; [lia|done].
    + intros cp ? H'. apply not_true_iff_false in H'. rewrite in_range_spec in H'. lia.
Qed.

Lemma intersects_exact cs lo hi :
  cs_ok cs -> lo <= hi < two32 ->
  intersects cs lo hi = true <-> exists cp, lo <= cp <= hi /\ matches cs cp = true.
Proof.
  intros Hok Hhi. unfold intersects, matches. destruct (negated cs).
  - rewrite hole_walk_spec; [|apply StronglySorted_merge_sort; apply _| |done].
    + setoid_rewrite negb_true_iff. split; intros (cp & ? & H); exists cp; (split; [done|]);
        rewrite <- not_true_iff_false, existsb_in_range in *;
        setoid_rewrite (merge_sort_Permutation pair_le) in H || setoid_rewrite (merge_sort_Permutation pair_le); done.
    + rewrite (merge_sort_Permutation pair_le). done.
  - rewrite existsb_exists. setoid_rewrite existsb_in_range. split.
    + intros (r & Hr%list_elem_of_In & [? ?]%andb_true_iff). rewrite !Z.leb_le in *.
      unfold cs_ok in Hok. rewrite Forall_forall in Hok. pose proof (Hok _ Hr) as [? _].
      exists (Z.max lo r.1). split; [lia|]. exists r. split; [done|lia].
    + intros (cp & ? & r & ? & ?). exists r. split; [by apply list_elem_of_In|].
      rewrite andb_true_iff, !Z.leb_le. lia.
Qed.

(** ** [compute_nullable] computes the rules that derive the empty word *)

Section Nullable.
Context (rules : list GbnfRule).

Definition trues (nul : list bool) : nat := sum_list_with Nat.b2n nul.
Definition nul_sound (nul : list bool) : Prop :=
  forall r, nul !! r = Some true -> derives rules [RuleItem r] [].

Lemma trues_insert nul r : nul !! r = Some false -> trues (<[r:=true]> nul) = S (trues nul).
Proof.
  revert r. induction nul as [|b nul IH]; intros [|r] H; simplify_eq/=; [done|].
  unfold trues in *. simpl. rewrite (IH r) by done. lia.
Qed.

Lemma trues_le nul : (trues nul <= length nul)%nat.
Proof. induction nul as [|[] nul IH]; unfold trues in *; simpl; lia. Qed.

Lemma all_null_derives nul alt : nul_sound nul -> all_null nul alt = true -> derives rules alt [].
Proof.
  intros Hs. induction alt as [|[r|cs] alt IH]; simpl; intros H; [constructor| |done].
  apply andb_true_iff in H as [H1 H2]. destruct (nul !! r) as [[]|] eqn:E; try done.
  change [] with ([] ++ [] : list Z). apply (derives_app rules [RuleItem r]); auto.
Qed.

Definition visit_post (l : list nat) (nul : list bool) (res : list bool * bool) : Prop :=
  length res.1 = length nul /\ (nul_sound nul -> nul_sound res.1) /\
  (if res.2 then (trues nul < trues res.1)%nat
   else res.1 = nul /\ forall r, r ∈ l -> (r < length nul)%nat ->
          existsb (all_null nul) (alts_of rules r) = true -> nul !! r = Some true).

Lemma nullable_visit_spec nul r :
  (r < length nul)%nat -> visit_post [r] nul (nullable_visit rules (nul, false) r).
Proof.
  intros Hr. destruct (lookup_lt_is_Some_2 nul r Hr) as [b Hb].
  unfold visit_post, nullable_visit. simpl. rewrite Hb. simpl. destruct b.
  { do 3 (split; [done|]). intros ? ->%list_elem_of_singleton. done. }
  destruct (existsb _ _) eqn:E; simpl.
  - rewrite length_insert. split_and!; [done| |rewrite trues_insert by done; lia].
    intros Hs r' Hr'. destruct (decide (r = r')) as [<-|].
    + apply existsb_exists in E as (alt & Ha%list_elem_of_In & Hn).
      apply derives_single_rule. exists alt. split; [done|]. by eapply all_null_derives.
    + rewrite list_lookup_insert_ne in Hr' by done. by apply Hs.
  - do 3 (split; [done|]). intros ? ->%list_elem_of_singleton. by rewrite E.
Qed.

Lemma nullable_visit_flag nul b r :
  nullable_visit rules (nul, b) r =
    let res := nullable_visit rules (nul, false) r in (res.1, b || res.2).
Proof. unfold nullable_visit. simpl. repeat case_match; by destruct b. Qed.

Lemma nullable_foldl_flag l nul b :
  foldl (nullable_visit rules) (nul, b) l =
    let res := foldl (nullable_visit rules) (nul, false) l in (res.1, b || res.2).
Proof.
  revert nul b. induction l as [|r l IH]; intros nul b; simpl; [by destruct b|].
  rewrite nullable_visit_flag. destruct (nullable_visit rules (nul, false) r) as [n1 b1]. simpl.
  rewrite IH, (IH n1 b1). simpl. by rewrite orb_assoc.
Qed.

Lemma nullable_foldl_spec l nul :
  Forall (fun r => (r < length nul)%nat) l ->
  visit_post l nul (foldl (nullable_visit rules) (nul, false) l).
Proof.
  revert nul. induction l as [|r l IH]; intros nul Hl.
  { do 3 (split; [done|]). by intros ? ?%elem_of_nil. }
  apply Forall_cons in Hl as [Hr Hl]. simpl.
  destruct (nullable_visit_spec nul r Hr) as (L1 & S1 & C1).
  destruct (nullable_visit rules (nul, false) r) as [n1 b1]. simpl in *.
  rewrite nullable_foldl_flag. destruct (IH n1) as (L2 & S2 & C2); [by rewrite L1|].
  destruct (foldl _ (n1, false) l) as [n2 b2]. simpl in *.
  unfold visit_post. simpl. split_and!; [congruence|auto|].
  destruct b1, b2; simpl.
  - lia.
  - destruct C2 as [-> _]. lia.
  - by destruct C1 as [-> _].
  - destruct C1 as [-> C1], C2 as [-> C2]. split; [done|].
    intros r' [->|Hr']%elem_of_cons; [apply C1; by apply list_elem_of_singleton|by apply C2].
Qed.

Lemma nullable_loop_spec fuel nul :
  length nul = length rules -> nul_sound nul -> (length rules < fuel + trues nul)%nat ->
  let res := nullable_loop fuel rules nul in
  length res = length rules /\ nul_sound res /\
  forall r, existsb (all_null res) (alts_of rules r) = true -> res !! r = Some true.
Proof.
  revert nul. induction fuel as [|fuel IH]; intros nul Hlen Hs Hf.
  { pose proof (trues_le nul). lia. }
  simpl. destruct (nullable_foldl_spec (seq 0 (length rules)) nul) as (L & S & C).
  { apply Forall_forall. intros r Hr%elem_of_seq. lia. }
  unfold nullable_pass. destruct (foldl _ _ _) as [nul' changed]. simpl in *. destruct changed.
  - apply IH; [congruence|auto|lia].
  - destruct C as [-> C]. split_and!; [done|done|]. intros r Hr.
    assert (r < length rules)%nat.
    { apply lookup_lt_is_Some. unfold alts_of in Hr. destruct (rules !! r); [done|]. by simpl in Hr. }
    apply C; [apply elem_of_seq; lia|lia|done].
Qed.

Lemma closed_all_null nul its w :
  (forall r, existsb (all_null nul) (alts_of rules r) = true -> nul !! r = Some true) ->
  derives rules its w -> w = [] -> all_null nul its = true.
Proof.
  intros Hc H. induction H as [|cs its c w Hm _ IH|r alt its w1 w2 Ha _ IH1 _ IH2]; intros E; [done..|].
  apply app_eq_nil in E as [-> ->]. simpl. rewrite (Hc r); [by apply IH2|].
  apply existsb_exists. exists alt. split; [by apply list_elem_of_In|by apply IH1].
Qed.

Lemma compute_nullable_length : length (compute_nullable rules) = length rules.
Proof.
  apply nullable_loop_spec; [apply length_replicate| |].
  - by intros r [? _]%lookup_replicate.
  - lia.
Qed.

Lemma compute_nullable_exact its :
  all_null (compute_nullable rules) its = true <-> derives rules its [].
Proof.
  destruct (nullable_loop_spec (S (length rules)) (replicate (length rules) false)) as (_ & Hs & Hc).
  - apply length_replicate.
  - by intros r [? _]%lookup_replicate.
  - lia.
  - split; [by apply all_null_derives|]. intros H. by eapply closed_all_null.
Qed.

End Nullable.

(** ** [check_left_recursion] refuses exactly the left-recursive tables *)

Definition item_ok (n : nat) (it : GbnfItem) : Prop :=
  match it with RuleItem r => (r < n)%nat | CharItem cs => cs_ok cs end.
Definition rules_ok (rules : list GbnfRule) : Prop :=
  Forall (fun ru => Forall (Forall (item_ok (length rules))) (alts ru)) rules.

Lemma rules_ok_item rules r alt it :
  rules_ok rules -> alt ∈ alts_of rules r -> it ∈ alt -> item_ok (length rules) it.
Proof.
  unfold rules_ok, alts_of. intros Hok Ha Hi. destruct (rules !! r) as [ru|] eqn:E; [|by apply elem_of_nil in Ha].
  rewrite Forall_forall in Hok. specialize (Hok ru ltac:(by eapply list_elem_of_lookup_2)).
  rewrite Forall_forall in Hok. specialize (Hok _ Ha). rewrite Forall_forall in Hok. by apply Hok.
Qed.

Section Dfs.
Context (adj : list (list nat)).
Let n := length adj.
Definition adj_of (r : nat) : list nat := default [] (adj !! r).
Context (Hadj : forall r s, s ∈ adj_of r -> (s < n)%nat).

Definition succ_of (y x : nat) : Prop := y ∈ adj_of x.

Fixpoint chain_ok (color : list Color) (above : option nat) (stack : list (nat * nat)) : Prop :=
  match stack with
  | [] => True
  | (r, i) :: rest =>
      (forall j t, (j < i)%nat -> adj_of r !! j = Some t -> color !! t = Some Done \/ above = Some t) /\
      (forall t, above = Some t -> t ∈ adj_of r) /\ chain_ok color (Some r) rest
  end.

Record dfs_inv (color : list Color) (stack : list (nat * nat)) : Prop := {
  di_length : length color = n;
  di_nodup : NoDup stack.*1;
  di_stack v : color !! v = Some OnStack <-> v ∈ stack.*1;
  di_chain : chain_ok color None stack;
  di_done v : color !! v = Some Done -> Acc succ_of v;
}.

Definition uv_cost (color : list Color) (v : nat) : nat :=
  if decide (color !! v = Some Unvisited) then length (adj_of v) + 2 else 0.
Definition uv (color : list Color) : nat := sum_list_with (uv_cost color) (seq 0 n).
Definition stk_cost (e : nat * nat) : nat := length (adj_of e.1) - e.2 + 1.
Definition stk (stack : list (nat * nat)) : nat := sum_list_with stk_cost stack.

Lemma sum_list_with_one {A} (f g : A -> nat) (x : A) k l :
  NoDup l -> x ∈ l -> f x = (g x + k)%nat -> (forall y, y ∈ l -> y <> x -> f y = g y) ->
  sum_list_with f l = (sum_list_with g l + k)%nat.
Proof.
  intros Hnd. induction Hnd as [|y l Hy _ IH]; intros Hx Hf Ho; [by apply elem_of_nil in Hx|].
  simpl. apply elem_of_cons in Hx as [->|Hx].
  - assert (sum_list_with f l = sum_list_with g l); [|lia].
    clear IH. induction l as [|z l IH2]; [done|]. simpl. rewrite IH2.
    + f_equal. apply Ho; [set_solver|]. set_solver.
    + set_solver.
    + intros. apply Ho; set_solver.
  - rewrite IH by (try done; intros; apply Ho; set_solver). rewrite (Ho y) by set_solver. lia.
Qed.

Lemma uv_visit color t c :
  length color = n -> color !! t = Some Unvisited -> c <> Unvisited ->
  uv color = (uv (<[t:=c]> color) + (length (adj_of t) + 2))%nat.
Proof.
  intros Hl Ht Hc. pose proof (lookup_lt_Some _ _ _ Ht). unfold uv. eapply (sum_list_with_one _ _ t).
  - apply NoDup_seq.
  - apply elem_of_seq. lia.
  - unfold uv_cost. rewrite decide_True by done. rewrite decide_False; [lia|].
    rewrite list_lookup_insert_eq by lia. congruence.
  - intros y _ Hy. unfold uv_cost. by rewrite list_lookup_insert_ne by done.
Qed.

Lemma uv_done color r : color !! r = Some OnStack -> uv (<[r:=Done]> color) = uv color.
Proof.
  intros Hr. unfold uv. assert (forall l, sum_list_with (uv_cost (<[r:=Done]> color)) l = sum_list_with (uv_cost color) l)
    as H; [|done]. induction l as [|v l IH]; [done|]. simpl. f_equal; [|done]. unfold uv_cost.
  destruct (decide (v = r)) as [->|]; [|by rewrite list_lookup_insert_ne by done].
  rewrite list_lookup_insert_eq by (by eapply lookup_lt_Some). rewrite !decide_False by congruence. done.
Qed.

Lemma chain_reaches color above r i rest v :
  chain_ok color above ((r, i) :: rest) -> v ∈ ((r, i) :: rest).*1 ->
  rtc (fun x y => succ_of y x) v r.
Proof.
  revert above r i. induction rest as [|[r2 i2] rest IH]; intros above r i Hc Hv; simpl in Hv.
  { apply list_elem_of_singleton in Hv as ->. done. }
  apply elem_of_cons in Hv as [->|Hv]; [done|]. destruct Hc as (_ & _ & Hc).
  eapply rtc_r; [by eapply IH|]. destruct Hc as (_ & Ha & _). by apply Ha.
Qed.

Lemma chain_step color color' above above' stack :
  chain_ok color above stack ->
  (forall v, color !! v = Some Done -> color' !! v = Some Done) ->
  (forall t, above = Some t -> color' !! t = Some Done \/ above' = Some t) ->
  (forall r i rest t, stack = (r, i) :: rest -> above' = Some t -> t ∈ adj_of r) ->
  chain_ok color' above' stack.
Proof.
  revert above above'. induction stack as [|[r i] rest IH]; intros above above' Hc Hd Ha Ha'; [done|].
  destruct Hc as (H1 & H2 & H3). simpl. split_and!.
  - intros j t Hj Ht. destruct (H1 j t Hj Ht) as [H|H]; [left; auto|auto].
  - intros t Ht. by eapply Ha'.
  - eapply IH; [done|done|auto|]. intros r2 i2 rest2 t -> [= <-]. destruct H3 as (_ & H3 & _). auto.
Qed.

Lemma dfs_push color r i rest t :
  dfs_inv color ((r, i) :: rest) -> adj_of r !! i = Some t -> color !! t = Some Unvisited ->
  dfs_inv (<[t:=OnStack]> color) ((t, O) :: (r, S i) :: rest).
Proof.
  intros [Hl Hnd Hst Hc Hd] Ht Hu. pose proof (lookup_lt_Some _ _ _ Hu).
  assert (t ∉ ((r, i) :: rest).*1) as Hnew by (rewrite <- Hst; congruence).
  constructor.
  - by rewrite length_insert.
  - simpl. constructor; [done|]. done.
  - intros v. destruct (decide (v = t)) as [->|].
    + rewrite list_lookup_insert_eq by lia. simpl. set_solver.
    + rewrite list_lookup_insert_ne by done. rewrite Hst. simpl. set_solver.
  - simpl. split; [lia|]. split; [done|]. destruct Hc as (H1 & _ & H3).
    assert (forall v, color !! v = Some Done -> <[t:=OnStack]> color !! v = Some Done) as Hkeep.
    { intros v Hv. rewrite list_lookup_insert_ne by congruence. done. }
    split_and!.
    + intros j s Hj Hs. destruct (decide (j = i)) as [->|]; [right; congruence|].
      destruct (H1 j s) as [|]; [lia|done|auto|done].
    + intros s [= <-]. by eapply list_elem_of_lookup_2.
    + eapply chain_step; [done|done|auto|]. intros ? ? ? ? -> [= <-]. destruct H3 as (_ & H3 & _). auto.
  - intros v. destruct (decide (v = t)) as [->|].
    + rewrite list_lookup_insert_eq by lia. done.
    + rewrite list_lookup_insert_ne by done. auto.
Qed.

Lemma dfs_next color r i rest t :
  dfs_inv color ((r, i) :: rest) -> adj_of r !! i = Some t -> color !! t = Some Done ->
  dfs_inv color ((r, S i) :: rest).
Proof.
  intros [Hl Hnd Hst Hc Hd] Ht Hu. constructor; [done..| |done].
  destruct Hc as (H1 & H2 & H3). simpl. split_and!; [|done|done].
  intros j s Hj Hs. destruct (decide (j = i)) as [->|]; [left; congruence|]. apply (H1 j); [lia|done].
Qed.

Lemma dfs_pop color r i rest :
  dfs_inv color ((r, i) :: rest) -> adj_of r !! i = None -> dfs_inv (<[r:=Done]> color) rest.
Proof.
  intros [Hl Hnd Hst Hc Hd] Hi. simpl in Hnd. apply NoDup_cons in Hnd as [Hr Hnd].
  assert (color !! r = Some OnStack) as Hcr by (apply Hst; simpl; set_solver).
  pose proof (lookup_lt_Some _ _ _ Hcr). destruct Hc as (H1 & _ & H3). constructor.
  - by rewrite length_insert.
  - done.
  - intros v. destruct (decide (v = r)) as [->|].
    + rewrite list_lookup_insert_eq by lia. split; [done|]. by intros.
    + rewrite list_lookup_insert_ne by done. rewrite Hst. simpl. set_solver.
  - eapply chain_step; [done| | |done].
    + intros v Hv. rewrite list_lookup_insert_ne by congruence. done.
    + intros t [= <-]. left. by rewrite list_lookup_insert_eq by lia.
  - intros v. destruct (decide (v = r)) as [->|].
    + intros _. constructor. intros t Ht. apply list_elem_of_lookup_1 in Ht as [j Hj].
      apply Hd. destruct (H1 j t) as [|]; [|done..].
      apply lookup_ge_None in Hi. apply lookup_lt_Some in Hj. lia.
    + rewrite list_lookup_insert_ne by done. auto.
Qed.

Definition dfs_post (color : list Color) (res : list Color + nat) : Prop :=
  match res with
  | inl color' => dfs_inv color' [] /\
      forall v, color !! v <> Some Unvisited -> color' !! v <> Some Unvisited
  | inr t => tc (fun x y => succ_of y x) t t
  end.

Lemma dfs_loop_spec fuel color stack :
  dfs_inv color stack -> (uv color + stk stack <= fuel)%nat ->
  exists res, dfs_loop fuel adj color stack = Some res /\ dfs_post color res.
Proof.
  revert color stack. induction fuel as [|fuel IH]; intros color stack Hi Hf;
    (destruct stack as [|[r i] rest]; simpl; [by exists (inl color)|]).
  { unfold stk in Hf. simpl in Hf. unfold stk_cost in Hf. lia. }
  unfold stk in Hf. simpl in Hf. fold (stk rest) in Hf. unfold stk_cost in Hf. simpl in Hf.
  fold (adj_of r). destruct (adj_of r !! i) as [t|] eqn:Et.
  2: { destruct (IH _ _ (dfs_pop _ _ _ _ Hi Et)) as (res & -> & Hp).
    - rewrite uv_done; [lia|]. apply (di_stack _ _ Hi). simpl. set_solver.
    - exists res. split; [done|]. destruct res as [color'|]; [|done]. destruct Hp as [Hp1 Hp2].
      split; [done|]. intros v Hv. apply Hp2. destruct (decide (v = r)) as [->|].
      + rewrite list_lookup_insert. case_decide; congruence.
      + by rewrite list_lookup_insert_ne by done. }
  pose proof (lookup_lt_Some _ _ _ Et) as Hlt.
  assert (t < length color)%nat as Htn.
  { rewrite (di_length _ _ Hi). apply (Hadj r). by eapply list_elem_of_lookup_2. }
  destruct (lookup_lt_is_Some_2 color t Htn) as [c Hct]. rewrite Hct. destruct c.
  - destruct (IH _ _ (dfs_push _ _ _ _ _ Hi Et Hct)) as (res & -> & Hp).
    + rewrite (uv_visit color t OnStack) in Hf by (done || apply (di_length _ _ Hi)).
      unfold stk. simpl. fold (stk rest). unfold stk_cost. simpl. lia.
    + exists res. split; [done|]. destruct res as [color'|]; [|done]. destruct Hp as [Hp1 Hp2].
      split; [done|]. intros v Hv. apply Hp2. destruct (decide (v = t)) as [->|]; [done|].
      by rewrite list_lookup_insert_ne by done.
  - exists (inr t). split; [done|]. simpl. apply (di_stack _ _ Hi) in Hct.
    pose proof (chain_reaches _ _ _ _ _ _ (di_chain _ _ Hi) Hct) as Hr.
    eapply tc_rtc_l; [exact Hr|]. apply tc_once. by eapply list_elem_of_lookup_2.
  - destruct (IH _ _ (dfs_next _ _ _ _ _ Hi Et Hct)) as (res & -> & Hp); [|by exists res].
    unfold stk. simpl. fold (stk rest). unfold stk_cost. simpl. lia.
Qed.

Lemma uv_le color : (uv color <= dfs_fuel adj)%nat.
Proof.
  assert (forall l pre : list (list nat), sum_list_with (fun v => length (default [] ((pre ++ l) !! v)) + 2)%nat
    (seq (length pre) (length l)) = sum_list_with length l + 2 * length l)%nat as Hsum.
  { induction l as [|x l IH]; intros pre; [done|]. simpl seq. simpl.
    rewrite list_lookup_middle by done. specialize (IH (pre ++ [x])).
    rewrite <- app_assoc, length_app in IH. simpl in IH.
    replace (length pre + 1)%nat with (S (length pre)) in IH by lia. rewrite IH. simpl. lia. }
  unfold dfs_fuel. specialize (Hsum adj []). cbn [length app] in Hsum. rewrite <- Hsum. unfold uv. fold n.
  induction (seq 0 n) as [|v l IH]; [done|]. simpl. fold (adj_of v).
  assert (uv_cost color v <= length (adj_of v) + 2)%nat by (unfold uv_cost; case_decide; lia). lia.
Qed.

Definition starts_post (color : list Color) (starts : list nat) (res : list Color + nat) : Prop :=
  match res with
  | inl color' => dfs_inv color' [] /\
      forall v, v ∈ starts \/ color !! v <> Some Unvisited -> color' !! v <> Some Unvisited
  | inr t => tc (fun x y => succ_of y x) t t
  end.

Lemma starts_post_cons color color' s starts res :
  (forall v, v = s \/ color !! v <> Some Unvisited -> color' !! v <> Some Unvisited) ->
  starts_post color' starts res -> starts_post color (s :: starts) res.
Proof.
  intros H. destruct res as [c|]; [|done]. intros [Hp1 Hp2]. split; [done|].
  intros v [[->|Hv]%elem_of_cons|Hv]; apply Hp2; auto.
Qed.

Lemma dfs_start color s :
  dfs_inv color [] -> color !! s = Some Unvisited -> dfs_inv (<[s:=OnStack]> color) [(s, O)].
Proof.
  intros [Hl _ Hst _ Hd] Hs. pose proof (lookup_lt_Some _ _ _ Hs). constructor.
  - by rewrite length_insert.
  - simpl. apply NoDup_singleton.
  - intros v. simpl. rewrite list_elem_of_singleton. destruct (decide (v = s)) as [->|].
    + rewrite list_lookup_insert_eq by lia. done.
    + rewrite list_lookup_insert_ne by done. rewrite Hst. simpl. set_solver.
  - simpl. split_and!; [lia|done|done].
  - intros v. destruct (decide (v = s)) as [->|]; [by rewrite list_lookup_insert_eq by lia|].
    rewrite list_lookup_insert_ne by done. auto.
Qed.

Lemma dfs_starts_spec color starts :
  dfs_inv color [] -> Forall (fun s => (s < n)%nat) starts ->
  exists res, dfs_starts (dfs_fuel adj) adj color starts = Some res /\ starts_post color starts res.
Proof.
  revert color. induction starts as [|s starts IH]; intros color Hi Hs; simpl.
  { exists (inl color). split; [done|]. split; [done|]. intros v [Hv%elem_of_nil|]; done. }
  apply Forall_cons in Hs as [Hsn Hs]. pose proof (di_length _ _ Hi) as Hl.
  destruct (lookup_lt_is_Some_2 color s) as [c Hc]; [lia|]. rewrite Hc.
  assert (c <> Unvisited -> exists res, dfs_starts (dfs_fuel adj) adj color starts = Some res /\
    starts_post color (s :: starts) res) as Hskip.
  { intros Hne. destruct (IH color Hi Hs) as (res & -> & Hp). exists res. split; [done|].
    eapply starts_post_cons; [|done]. intros v [->|]; congruence. }
  destruct c; [|by apply Hskip..]. clear Hskip.
  destruct (dfs_loop_spec (dfs_fuel adj) _ _ (dfs_start _ _ Hi Hc)) as (res & -> & Hp).
  { pose proof (uv_le color) as Hu. rewrite (uv_visit color s OnStack) in Hu by done.
    unfold stk. simpl. unfold stk_cost. simpl. lia. }
  destruct res as [color'|t]; [|by exists (inr t)]. destruct Hp as [Hp1 Hp2].
  destruct (IH color' Hp1 Hs) as (res & -> & Hp). exists res. split; [done|].
  eapply starts_post_cons; [|done]. intros v Hv. apply Hp2. destruct (decide (v = s)) as [->|].
  - by rewrite list_lookup_insert_eq by lia.
  - rewrite list_lookup_insert_ne by done. by destruct Hv.
Qed.

Lemma acc_no_cycle v : Acc succ_of v -> ~ tc (fun x y => succ_of y x) v v.
Proof.
  induction 1 as [v _ IH]. intros Hc. inversion Hc as [? ? H|? y ? Hxy Hyz]; subst.
  - by apply (IH v H).
  - apply (IH y Hxy). eapply tc_r; done.
Qed.

End Dfs.

Lemma first_rules_spec rules alt s :
  s ∈ first_rules (compute_nullable rules) alt <->
  exists pre post, alt = pre ++ RuleItem s :: post /\ derives rules pre [].
Proof.
  induction alt as [|[r|cs] alt IH]; simpl.
  - split; [by intros ?%elem_of_nil|]. by intros ([] & post & ? & _).
  - rewrite elem_of_cons. split.
    + intros [->|H]; [exists [], alt; split; [done|constructor]|].
      destruct (compute_nullable rules !! r) as [[]|] eqn:E; simpl in H; [|by apply elem_of_nil in H..].
      apply IH in H as (pre & post & -> & Hp). exists (RuleItem r :: pre), post. split; [done|].
      change [] with ([] ++ [] : list Z). apply (derives_app rules [RuleItem r]); [|done].
      apply compute_nullable_exact. simpl. by rewrite E.
    + intros (pre & post & E & Hp). destruct pre as [|it pre]; simplify_eq/=; [by left|right].
      apply (derives_app_inv rules [RuleItem r]) in Hp as (w1 & w2 & [-> ->]%symmetry%app_eq_nil & H1 & H2).
      apply compute_nullable_exact in H1. simpl in H1. rewrite andb_true_r in H1. rewrite H1.
      apply IH. by exists pre, post.
  - split; [by intros ?%elem_of_nil|]. intros (pre & post & E & Hp).
    destruct pre as [|it pre]; simplify_eq/=. apply compute_nullable_exact in Hp. done.
Qed.

Lemma first_adj_spec rules r s :
  s ∈ adj_of (first_adj rules (compute_nullable rules)) r <-> first_edge rules r s.
Proof.
  unfold adj_of, first_adj, first_edge, alts_of. rewrite list_lookup_fmap.
  destruct (rules !! r) as [ru|]; simpl.
  - rewrite list_elem_of_In, in_concat. setoid_rewrite <- list_elem_of_In. setoid_rewrite list_elem_of_fmap. split.
    + intros (l & (alt & -> & Ha) & Hs). apply first_rules_spec in Hs as (pre & post & -> & ?). by exists pre, post.
    + intros (pre & post & Ha & ?). eexists. split; [by eexists|]. apply first_rules_spec. by exists pre, post.
  - split; [by intros ?%elem_of_nil|]. by intros (pre & post & ?%elem_of_nil & _).
Qed.

Lemma check_left_recursion_spec rules :
  rules_ok rules ->
  exists res, check_left_recursion rules (compute_nullable rules) = Some res /\
    (forall r, res = Some r -> tc (first_edge rules) r r) /\
    (res = None -> forall r, ~ tc (first_edge rules) r r).
Proof.
  intros Hok. set (adj := first_adj rules (compute_nullable rules)).
  assert (length adj = length rules) as Hlen by apply length_fmap.
  assert (forall x y, succ_of adj y x <-> first_edge rules x y) as Hedge by (intros; apply first_adj_spec).
  assert (forall t u, tc (fun x y => succ_of adj y x) t u <-> tc (first_edge rules) t u) as Htc.
  { intros t u. split; (induction 1 as [x y H|x y z H _ IH]; [by apply tc_once, Hedge|];
      eapply tc_l; [by apply Hedge|done]). }
  assert (forall r s, s ∈ adj_of adj r -> (s < length adj)%nat) as Hadj.
  { intros r s Hs. apply first_adj_spec in Hs as (pre & post & Ha & _). rewrite Hlen.
    apply (rules_ok_item rules r _ (RuleItem s)) in Ha; [done|done|]. set_solver. }
  unfold check_left_recursion. fold adj.
  destruct (dfs_starts_spec adj Hadj (replicate (length rules) Unvisited) (seq 0 (length rules)))
    as (res & -> & Hp).
  - constructor; simpl; [by rewrite length_replicate|constructor| |done|].
    + intros v. split; [by intros [? _]%lookup_replicate|by intros ?%elem_of_nil].
    + by intros v [? _]%lookup_replicate.
  - apply Forall_forall. intros v Hv%elem_of_seq. lia.
  - destruct res as [color|t].
    + destruct Hp as [Hi Hu]. exists None. split; [done|]. split; [done|]. intros _ r Hr.
      assert (r < length rules)%nat as Hlt.
      { assert (exists s, first_edge rules r s) as (s & pre & post & Ha & _)
          by (inversion Hr; eauto).
        apply lookup_lt_is_Some. unfold alts_of in Ha. destruct (rules !! r); [done|by apply elem_of_nil in Ha]. }
      apply Htc in Hr. revert Hr. apply acc_no_cycle. apply (di_done _ _ _ Hi).
      destruct (lookup_lt_is_Some_2 color r) as [c Hc].
      { rewrite (di_length _ _ _ Hi). by rewrite Hlen. }
      rewrite Hc. destruct c; [|by apply (di_stack _ _ _ Hi), elem_of_nil in Hc|done].
      exfalso. apply (Hu r); [|done]. left. apply elem_of_seq. lia.
    + exists (Some t). split; [done|]. split; [|done]. intros r [= <-]. by apply Htc.
Qed.
