(* ===== verification/GbnfSim.v ===== *)
(** * GBNF simulation: interned stacks and the nondeterministic pushdown step

    Models the simulation half of [compute/gbnf_grammar.cpp]: the arena of
    interned stack frames, [expand], the memoised [successors], [start_set],
    [step_into] and [accepts].  The arena, the intern table, the visit marks and
    the successor cache are one state, passed and returned.  A stack id is a
    [Z]; -1 is the empty stack.  [expand] runs a work list with fuel;
    [expand_loop_spec] gives an amount that is always enough. *)

From Corelib Require Import ssreflect_rw.
From stdpp Require Import prelude gmap list sorting relations.
From S2P Require Import Prelude Gbnf.
Open Scope Z_scope.

(** ** Positions, frames and the memo *)

Record GbnfPos := mkPos { p_rule : nat; p_alt : nat; p_idx : nat }.

#[export] Instance GbnfPos_eq : EqDecision GbnfPos.
Proof. solve_decision. Defined.
#[export] Instance GbnfPos_countable : Countable GbnfPos.
Proof.
  refine (inj_countable' (fun p => (p_rule p, p_alt p, p_idx p)) (fun t => mkPos t.1.1 t.1.2 t.2) _).
  by intros [].
Defined.

Record StackNode := mkNode { n_pos : GbnfPos; n_parent : Z; n_depth : Z }.

Notation GbnfStackSet := (list Z).

Record Memo := mkMemo {
  arena : list StackNode;
  intern_ : gmap (GbnfPos * Z) Z;
  visited_ : list Z;
  visit_epoch_ : Z;
  next_cache_ : list GbnfStackSet;
  next_ready_ : list bool;
}.

Definition memo_empty : Memo := mkMemo [] ∅ [] 0 [] [].

Definition kMaxStackDepth : Z := 128.
Definition kMaxStacks : nat := 4096.

(** [arena_[s]] for a non-negative id. *)
Definition node (m : Memo) (s : Z) : option StackNode :=
  if s <? 0 then None else arena m !! Z.to_nat s.

Definition intern (pos : GbnfPos) (parent : Z) (m : Memo) : Z * Memo :=
  match intern_ m !! (pos, parent) with
  | Some id => (id, m)
  | None =>
      let id := Z.of_nat (length (arena m)) in
      let depth := match node m parent with Some nd => n_depth nd + 1 | None => 1 end in
      (id, mkMemo (arena m ++ [mkNode pos parent depth]) (<[(pos, parent) := id]> (intern_ m))
             (visited_ m ++ [0]) (visit_epoch_ m) (next_cache_ m) (next_ready_ m))
  end.

Definition begin_visit (m : Memo) : Memo :=
  let e := u32 (visit_epoch_ m + 1) in
  if e =? 0 then
    mkMemo (arena m) (intern_ m) ((fun _ => 0) <$> visited_ m) 1 (next_cache_ m) (next_ready_ m)
  else mkMemo (arena m) (intern_ m) (visited_ m) e (next_cache_ m) (next_ready_ m).

Definition set_visited (s : Z) (m : Memo) : Memo :=
  mkMemo (arena m) (intern_ m) (<[Z.to_nat s := visit_epoch_ m]> (visited_ m)) (visit_epoch_ m)
    (next_cache_ m) (next_ready_ m).

(** [next_ready_]/[next_cache_] resized to the arena. *)
Definition resize_cache (m : Memo) : Memo :=
  if (length (next_ready_ m) <? length (arena m))%nat then
    let k := (length (arena m) - length (next_ready_ m))%nat in
    mkMemo (arena m) (intern_ m) (visited_ m) (visit_epoch_ m)
      (next_cache_ m ++ replicate k []) (next_ready_ m ++ replicate k false)
  else m.

(** [std::sort] then [std::unique]. *)
Fixpoint unique_adj (l : list Z) : list Z :=
  match l with
  | x :: (y :: _) as l' => if x =? y then unique_adj l' else x :: unique_adj l'
  | _ => l
  end.

Definition dedup (v : GbnfStackSet) : GbnfStackSet := unique_adj (merge_sort Z.le v).

(** The empty stack is -1 and the set is sorted. *)
Definition accepts (stacks : GbnfStackSet) : bool :=
  match stacks with s :: _ => s =? -1 | [] => false end.

Section Sim.
Context (rules : list GbnfRule) (root : nat).

Definition items_at (p : GbnfPos) : list GbnfItem := default [] (alts_of rules (p_rule p) !! p_alt p).

Definition top_item (m : Memo) (stack : Z) : option GbnfItem :=
  match node m stack with
  | Some nd => items_at (n_pos nd) !! p_idx (n_pos nd)
  | None => None
  end.

(** The alternatives of [target], pushed in order; the last ends up on top. *)
Fixpoint push_alts (target : nat) (s : Z) (alts : list nat) (m : Memo) (work : list Z) : list Z * Memo :=
  match alts with
  | [] => (work, m)
  | a :: alts' =>
      let (id, m') := intern (mkPos target a 0) s m in
      push_alts target s alts' m' (id :: work)
  end.

(** One iteration on stack [s] popped from the work list. *)
Definition expand_one (s : Z) (work : list Z) (m : Memo) (out : list Z) : list Z * Memo * list Z :=
  if s <? 0 then (work, m, out ++ [-1])
  else if default 0 (visited_ m !! Z.to_nat s) =? visit_epoch_ m then (work, m, out)
  else
    let m1 := set_visited s m in
    match node m1 s with
    | None => (work, m1, out)
    | Some (mkNode p parent depth) =>
        match items_at p !! p_idx p with
        | None =>
            if parent <? 0 then (-1 :: work, m1, out)
            else
              match node m1 parent with
              | Some (mkNode pp pparent _) =>
                  let (id, m2) := intern (mkPos (p_rule pp) (p_alt pp) (p_idx pp + 1)) pparent m1 in
                  (id :: work, m2, out)
              | None => (work, m1, out)
              end
        | Some (CharItem _) => (work, m1, out ++ [s])
        | Some (RuleItem target) =>
            if kMaxStackDepth <=? depth then (work, m1, out)
            else
              let (work', m2) := push_alts target s (seq 0 (length (alts_of rules target))) m1 work in
              (work', m2, out)
        end
    end.

Fixpoint expand_loop (fuel : nat) (work : list Z) (m : Memo) (out : list Z) : option (Memo * list Z) :=
  match work with
  | [] => Some (m, out)
  | s :: work' =>
      match fuel with
      | O => None
      | S f => let '(w, m', out') := expand_one s work' m out in expand_loop f w m' out'
      end
  end.

Definition expand (fuel : nat) (stack : Z) (m : Memo) (out : GbnfStackSet) : option (Memo * GbnfStackSet) :=
  expand_loop fuel [stack] m out.

Fixpoint start_loop (fuel : nat) (alts : list nat) (m : Memo) (out : GbnfStackSet)
    : option (Memo * GbnfStackSet) :=
  match alts with
  | [] => Some (m, out)
  | a :: alts' =>
      let (id, m1) := intern (mkPos root a 0) (-1) m in
      '(m2, out') ← expand fuel id m1 out; start_loop fuel alts' m2 out'
  end.

Definition start_set (fuel : nat) (m : Memo) : option (Memo * GbnfStackSet) :=
  '(m', out) ← start_loop fuel (seq 0 (length (alts_of rules root))) (begin_visit m) [];
  Some (m', dedup out).

Definition successors (fuel : nat) (stack : Z) (m : Memo) : option (Memo * GbnfStackSet) :=
  let m1 := resize_cache m in
  let s := Z.to_nat stack in
  if default false (next_ready_ m1 !! s) then Some (m1, default [] (next_cache_ m1 !! s))
  else
    match node m1 stack with
    | None => Some (m1, [])
    | Some (mkNode p parent _) =>
        let m2 := begin_visit m1 in
        let (id, m3) := intern (mkPos (p_rule p) (p_alt p) (p_idx p + 1)) parent m2 in
        '(m4, out) ← expand fuel id m3 [];
        let res := take kMaxStacks (dedup out) in
        let m5 := resize_cache m4 in
        Some (mkMemo (arena m5) (intern_ m5) (visited_ m5) (visit_epoch_ m5)
                (<[s := res]> (next_cache_ m5)) (<[s := true]> (next_ready_ m5)), res)
    end.

Fixpoint step_loop (fuel : nat) (stacks : GbnfStackSet) (cp : Z) (m : Memo) (out : GbnfStackSet)
    : option (Memo * GbnfStackSet) :=
  match stacks with
  | [] => Some (m, out)
  | s :: stacks' =>
      match top_item m s with
      | Some (CharItem cs) =>
          if matches cs cp then
            '(m', nxt) ← successors fuel s m; step_loop fuel stacks' cp m' (out ++ nxt)
          else step_loop fuel stacks' cp m out
      | _ => step_loop fuel stacks' cp m out
      end
  end.

Definition step_into (fuel : nat) (stacks : GbnfStackSet) (cp : Z) (m : Memo)
    : option (Memo * GbnfStackSet) :=
  '(m', out) ← step_loop fuel stacks cp m [];
  Some (m', take kMaxStacks (dedup out)).

Definition can_consume_range (m : Memo) (stacks : GbnfStackSet) (lo hi : Z) : bool :=
  existsb (fun s => match top_item m s with Some (CharItem cs) => intersects cs lo hi | _ => false end)
    stacks.

End Sim.
