(* ===== verification/GbnfStacks.v ===== *)
(** * GBNF stacks: what the simulator's parse continuations mean

    The abstract automaton the simulator of [GbnfSim] interns: a stack is a list
    of positions, top first; [eps] is one move of [expand] (return from a
    finished alternative, or descend into a rule).  Moves preserve the language
    of a stack, they reach every derivation that fits the depth guard, and they
    always terminate. *)

From Corelib Require Import ssreflect_rw.
From stdpp Require Import prelude list relations.
From S2P Require Import Prelude Gbnf GbnfSim.
Open Scope nat_scope.

Notation stack := (list GbnfPos).

Section Stacks.
Context (rules : list GbnfRule).
Notation items_at := (items_at rules).

Definition depth_limit : nat := Z.to_nat kMaxStackDepth.

Definition item_at (p : GbnfPos) : option GbnfItem := items_at p !! p_idx p.
Definition advance (p : GbnfPos) : GbnfPos := mkPos (p_rule p) (p_alt p) (p_idx p + 1).
Definition rest_at (p : GbnfPos) : list GbnfItem := drop (p_idx p) (items_at p).
(** What a suspended frame still has to match once its rule reference returns. *)
Definition cont_at (p : GbnfPos) : list GbnfItem := drop (S (p_idx p)) (items_at p).

Definition stack_items (k : stack) : list GbnfItem :=
  match k with [] => [] | p :: ps => rest_at p ++ concat (cont_at <$> ps) end.

Inductive eps : stack -> stack -> Prop :=
  | eps_done p : item_at p = None -> eps [p] []
  | eps_return p q ps : item_at p = None -> eps (p :: q :: ps) (advance q :: ps)
  | eps_descend p ps r a :
      item_at p = Some (RuleItem r) -> S (length ps) < depth_limit -> a < length (alts_of rules r) ->
      eps (p :: ps) (mkPos r a 0 :: p :: ps).

(** Empty, or waiting for a character. *)
Definition final (k : stack) : Prop :=
  match k with [] => True | p :: _ => exists cs, item_at p = Some (CharItem cs) end.

Definition closure (k k' : stack) : Prop := rtc eps k k' /\ final k'.

Lemma rest_None p : item_at p = None -> rest_at p = [].
Proof. unfold item_at, rest_at. intros H%lookup_ge_None. by apply drop_ge. Qed.

Lemma rest_Some p it : item_at p = Some it -> rest_at p = it :: cont_at p.
Proof. unfold item_at, rest_at, cont_at. intros H. by apply drop_S. Qed.

Lemma rest_advance p : rest_at (advance p) = cont_at p.
Proof. unfold rest_at, cont_at, advance. simpl. by rewrite Nat.add_1_r. Qed.

Lemma rest_new r a alt : alts_of rules r !! a = Some alt -> rest_at (mkPos r a 0) = alt.
Proof. intros H. unfold rest_at, GbnfSim.items_at. simpl. by rewrite H. Qed.

(** ** Moves keep the language *)

Lemma eps_sound k k' w : eps k k' -> derives rules (stack_items k') w -> derives rules (stack_items k) w.
Proof.
  intros He. destruct He as [p Hp|p q ps Hp|p ps r a Hp Hd Ha]; simpl.
  - by rewrite (rest_None p Hp).
  - by rewrite (rest_None p Hp), rest_advance.
  - intros H. apply lookup_lt_is_Some in Ha as [alt Ha]. rewrite (rest_new _ _ _ Ha) in H.
    rewrite (rest_Some _ _ Hp). apply derives_app_inv in H as (w1 & w2 & -> & H1 & H2).
    econstructor; [by eapply list_elem_of_lookup_2|done|done].
Qed.

Lemma closure_sound k k' w : closure k k' -> derives rules (stack_items k') w -> derives rules (stack_items k) w.
Proof. intros [H _]. induction H; [done|]. intros. eapply eps_sound; eauto. Qed.

(** Consuming [c] at a waiting stack. *)
Lemma consume_sound p ps cs c w :
  item_at p = Some (CharItem cs) -> matches cs c = true ->
  derives rules (stack_items (advance p :: ps)) w -> derives rules (stack_items (p :: ps)) (c :: w).
Proof. intros Hp Hm. simpl. rewrite (rest_Some _ _ Hp), rest_advance. by constructor. Qed.

(** ** Termination of [expand] *)

Definition stack_wf (k : stack) : Prop :=
  length k <= depth_limit /\ Forall (fun q => exists r, item_at q = Some (RuleItem r)) (tail k).

Lemma eps_wf k k' : stack_wf k -> eps k k' -> stack_wf k'.
Proof.
  intros [Hl Hf] He. destruct He as [p Hp|p q ps Hp|p ps r a Hp Hd Ha]; simpl in *.
  - split; simpl; [lia|constructor].
  - apply Forall_cons in Hf as [_ Hf]. split; simpl; [lia|done].
  - split; simpl; [lia|]. constructor; [by eexists|done].
Qed.

(** The longest alternative and the largest number of alternatives. *)
Definition max_items : nat := max_list (length <$> (rules ≫= alts)).
Definition max_alts : nat := max_list ((fun ru => length (alts ru)) <$> rules).

Lemma alts_of_max r : length (alts_of rules r) <= max_alts.
Proof.
  unfold alts_of. destruct (rules !! r) as [ru|] eqn:E; simpl; [|lia].
  apply max_list_elem_of_le, list_elem_of_fmap. exists ru. split; [done|]. by eapply list_elem_of_lookup_2.
Qed.

Lemma items_at_max p : length (items_at p) <= max_items.
Proof.
  unfold GbnfSim.items_at, alts_of. destruct (rules !! p_rule p) as [ru|] eqn:E; simpl; [|lia].
  destruct (alts ru !! p_alt p) as [alt|] eqn:E2; simpl; [|lia].
  apply max_list_elem_of_le, list_elem_of_fmap. exists alt. split; [done|].
  apply list_elem_of_bind. exists ru. split; by eapply list_elem_of_lookup_2.
Qed.

Definition frame_weight (d : nat) : nat := (2 * max_items + 2) ^ (depth_limit - d).

Lemma frame_weight_pos d : 1 <= frame_weight d.
Proof. unfold frame_weight. pose proof (Nat.pow_nonzero (2 * max_items + 2) (depth_limit - d)). lia. Qed.

Lemma frame_weight_S d : d < depth_limit -> frame_weight d = (2 * max_items + 2) * frame_weight (S d).
Proof.
  intros Hd. unfold frame_weight. replace (depth_limit - d) with (S (depth_limit - S d)) by lia.
  by rewrite Nat.pow_succ_r'.
Qed.

Fixpoint conts_measure (ps : stack) : nat :=
  match ps with
  | [] => 0
  | q :: qs => 2 * length (rest_at q) * frame_weight (length ps) + conts_measure qs
  end.

Definition measure (k : stack) : nat :=
  match k with
  | [] => 0
  | p :: ps => (2 * length (rest_at p) + 1) * frame_weight (length k) + conts_measure ps
  end.

Lemma eps_measure k k' : stack_wf k -> eps k k' -> measure k' < measure k.
Proof.
  intros [Hl Hf] He. destruct He as [p Hp|p q ps Hp|p ps r a Hp Hd Ha]; simpl in *.
  - pose proof (frame_weight_pos 1). lia.
  - apply Forall_cons in Hf as [[r Hq] _]. rewrite rest_advance, (rest_Some _ _ Hq). simpl.
    pose proof (frame_weight_pos (S (length ps))). pose proof (frame_weight_pos (S (S (length ps)))). lia.
  - rewrite (rest_Some _ _ Hp). simpl.
    assert (length (rest_at (mkPos r a 0)) <= max_items).
    { unfold rest_at. rewrite length_drop. pose proof (items_at_max (mkPos r a 0)). lia. }
    rewrite (frame_weight_S (S (length ps))) by lia.
    set (W := frame_weight (S (S (length ps)))). assert (1 <= W) by apply frame_weight_pos. nia.
Qed.

(** ** Derivations that fit the depth guard *)

(** [fits d its w]: [its], in a frame at depth [d], derives [w] with every
    descent made below the limit. *)
Inductive fits : nat -> list GbnfItem -> list Z -> Prop :=
  | fits_nil d : fits d [] []
  | fits_char d cs its c w : matches cs c = true -> fits d its w -> fits d (CharItem cs :: its) (c :: w)
  | fits_rule d r alt its w1 w2 :
      alt ∈ alts_of rules r -> d < depth_limit -> fits (S d) alt w1 -> fits d its w2 ->
      fits d (RuleItem r :: its) (w1 ++ w2).

Lemma fits_derives d its w : fits d its w -> derives rules its w.
Proof. induction 1; by econstructor. Qed.

Fixpoint conts_fit (ps : stack) (w : list Z) : Prop :=
  match ps with
  | [] => w = []
  | q :: qs => exists w1 w2, w = w1 ++ w2 /\ fits (length ps) (cont_at q) w1 /\ conts_fit qs w2
  end.

Definition stack_fits (k : stack) (w : list Z) : Prop :=
  match k with
  | [] => w = []
  | p :: ps => exists w1 w2, w = w1 ++ w2 /\ fits (length k) (rest_at p) w1 /\ conts_fit ps w2
  end.

Lemma eps_complete k w : stack_fits k w -> final k \/ exists k', eps k k' /\ stack_fits k' w.
Proof.
  destruct k as [|p ps]; [by left|]. intros (w1 & w2 & -> & H1 & H2).
  destruct (item_at p) as [[r|cs]|] eqn:E; [right|left; by eexists|right].
  - rewrite (rest_Some _ _ E) in H1. inversion H1 as [| |? ? alt ? v1 v2 Ha Hd Hv1 Hv2]; subst.
    apply list_elem_of_lookup_1 in Ha as [a Ha]. exists (mkPos r a 0 :: p :: ps). split.
    + constructor; [done|by simpl in Hd|by eapply lookup_lt_Some].
    + exists v1, (v2 ++ w2). rewrite (rest_new _ _ _ Ha). split_and!; [by rewrite app_assoc|done|].
      by exists v2, w2.
  - rewrite (rest_None _ E) in H1. inversion H1; subst. simpl. destruct ps as [|q ps].
    + exists []. split; [by constructor|]. done.
    + exists (advance q :: ps). split; [by constructor|]. destruct H2 as (v1 & v2 & -> & Hv1 & Hv2).
      exists v1, v2. rewrite rest_advance. done.
Qed.

Lemma closure_complete k w : stack_wf k -> stack_fits k w -> exists k', closure k k' /\ stack_fits k' w.
Proof.
  remember (measure k) as n eqn:Hn. revert k Hn. induction (lt_wf n) as [n _ IH]. intros k -> Hwf Hk.
  destruct (eps_complete k w Hk) as [Hf|(k1 & He & Hk1)].
  { exists k. split; [|done]. split; [done|done]. }
  destruct (IH (measure k1) (eps_measure _ _ Hwf He) k1 eq_refl (eps_wf _ _ Hwf He) Hk1)
    as (k' & [Hr Hf] & Hk'). exists k'. split; [|done]. split; [by eapply rtc_l|done].
Qed.

Lemma consume_complete k c w :
  final k -> stack_fits k (c :: w) ->
  exists p ps cs, k = p :: ps /\ item_at p = Some (CharItem cs) /\ matches cs c = true /\
    stack_fits (advance p :: ps) w.
Proof.
  destruct k as [|p ps]; [by intros _ ?|]. intros [cs Hp] (w1 & w2 & E & H1 & H2).
  rewrite (rest_Some _ _ Hp) in H1. inversion H1 as [|? ? ? c' v Hm Hv|]; subst. simplify_eq/=.
  exists p, ps, cs. split_and!; [done..|]. exists v, w2. by rewrite rest_advance.
Qed.

Lemma final_empty k : final k -> stack_fits k [] -> k = [].
Proof.
  destruct k as [|p ps]; [done|]. intros [cs Hp] (w1 & w2 & E & H1 & H2).
  symmetry in E. apply app_eq_nil in E as [-> ->]. rewrite (rest_Some _ _ Hp) in H1. inversion H1.
Qed.

Lemma advance_wf p ps : stack_wf (p :: ps) -> stack_wf (advance p :: ps).
Proof. done. Qed.

Lemma start_wf r a : stack_wf [mkPos r a 0].
Proof. split; [unfold depth_limit, kMaxStackDepth; simpl; lia|constructor]. Qed.

End Stacks.
