(* ===== verification/GbnfRefine.v ===== *)
(** * GBNF simulation: the interned simulator refines the stack automaton

    The arena hash-conses stacks: every id denotes one stack and no stack has
    two ids ([memo_wf]).  Under that invariant the work-list [expand], the
    memoised [successors] and [step_into] of [GbnfSim] compute the closure of
    [GbnfStacks], whatever the arena and the cache already hold. *)

From Corelib Require Import ssreflect_rw.
From stdpp Require Import prelude gmap list sorting relations.
From S2P Require Import Prelude Gbnf GbnfSim GbnfStacks.
Open Scope Z_scope.

Inductive denotes (m : Memo) : Z -> stack -> Prop :=
  | denotes_nil : denotes m (-1) []
  | denotes_node s nd k :
      node m s = Some nd -> denotes m (n_parent nd) k -> denotes m s (n_pos nd :: k).

Definition extends (m m' : Memo) : Prop := arena m `prefix_of` arena m'.

#[export] Instance extends_preorder : PreOrder extends.
Proof. unfold extends. split; [intros m; done|]. intros m1 m2 m3. apply transitivity. Qed.

Lemma extends_arena m m' : arena m = arena m' -> extends m m'.
Proof. unfold extends. by intros ->. Qed.

Lemma node_extends m m' s nd : extends m m' -> node m s = Some nd -> node m' s = Some nd.
Proof. unfold node. destruct (s <? 0); [done|]. intros He Hn. by eapply prefix_lookup_Some. Qed.

Lemma denotes_extends m m' s k : extends m m' -> denotes m s k -> denotes m' s k.
Proof. intros He. induction 1; [constructor|]. econstructor; [by eapply node_extends|done]. Qed.

Lemma node_range m s nd : node m s = Some nd -> 0 <= s < Z.of_nat (length (arena m)).
Proof. unfold node. destruct (Z.ltb_spec s 0); [done|]. intros ?%lookup_lt_Some. lia. Qed.

Lemma denotes_inv m s k :
  denotes m s k ->
  (s = -1 /\ k = []) \/
  (exists nd k', 0 <= s /\ node m s = Some nd /\ denotes m (n_parent nd) k' /\ k = n_pos nd :: k').
Proof.
  inversion 1 as [|? nd k' Hn Hd]; subst; [by left|right].
  exists nd, k'. pose proof (node_range _ _ _ Hn). split_and!; [lia|done..].
Qed.

Lemma denotes_fun m s k k' : denotes m s k -> denotes m s k' -> k = k'.
Proof.
  intros H. revert k'. induction H as [|s nd k Hn _ IH]; intros k' Hk';
    apply denotes_inv in Hk' as [[Hs ->]|(nd' & k1 & Hs & Hn' & Hd & ->)]; try done.
  - subst. apply node_range in Hn. lia.
  - simplify_eq. f_equal. by apply IH.
Qed.

Definition marked (m : Memo) (s : Z) : Prop :=
  0 <= s /\ visited_ m !! Z.to_nat s = Some (visit_epoch_ m).

Section Refine.
Context (rules : list GbnfRule).

(** [out] lists exactly the ids of the stacks in the closure of [k]. *)
Definition closure_ids (m : Memo) (k : stack) (out : GbnfStackSet) : Prop :=
  (forall s, s ∈ out -> exists k', denotes m s k' /\ closure rules k k') /\
  (forall k', closure rules k k' -> exists s, s ∈ out /\ denotes m s k').

Definition cached_ok (m : Memo) (s : Z) (res : GbnfStackSet) : Prop :=
  forall p ps, denotes m s (p :: ps) ->
  exists out, closure_ids m (advance p :: ps) out /\ res = take kMaxStacks (dedup out).

Record memo_wf (m : Memo) : Prop := {
  mw_parent s nd : node m s = Some nd -> -1 <= n_parent nd < s;
  mw_depth s nd : node m s = Some nd ->
    n_depth nd = match node m (n_parent nd) with Some pn => n_depth pn + 1 | None => 1 end;
  mw_intern pos par id :
    intern_ m !! (pos, par) = Some id <-> exists d, node m id = Some (mkNode pos par d);
  mw_stack s k : denotes m s k -> stack_wf rules k;
  mw_visited : length (visited_ m) = length (arena m);
  mw_epoch : 0 <= visit_epoch_ m < two32 /\ Forall (fun v => 0 <= v <= visit_epoch_ m) (visited_ m);
  mw_cache_len : length (next_cache_ m) = length (next_ready_ m) /\
    (length (next_ready_ m) <= length (arena m))%nat;
  mw_cache s : next_ready_ m !! s = Some true ->
    cached_ok m (Z.of_nat s) (default [] (next_cache_ m !! s));
}.

Lemma denotes_exists m s : memo_wf m -> -1 <= s < Z.of_nat (length (arena m)) -> exists k, denotes m s k.
Proof.
  intros Hwf. remember (Z.to_nat (s + 1)) as n eqn:En. revert s En.
  induction (lt_wf n) as [n _ IH]. intros s -> Hs.
  destruct (decide (s = -1)) as [->|]; [exists []; constructor|].
  destruct (lookup_lt_is_Some_2 (arena m) (Z.to_nat s)) as [nd Hnd]; [lia|].
  assert (node m s = Some nd) as Hn by (unfold node; destruct (Z.ltb_spec s 0); [lia|done]).
  pose proof (mw_parent _ Hwf _ _ Hn).
  destruct (IH (Z.to_nat (n_parent nd + 1)) ltac:(lia) (n_parent nd) eq_refl ltac:(lia)) as [k Hk].
  exists (n_pos nd :: k). by econstructor.
Qed.

Lemma denotes_range m s k : memo_wf m -> denotes m s k -> -1 <= s < Z.of_nat (length (arena m)).
Proof. intros Hwf [[-> ->]|(nd & k' & Hs & Hn & _)]%denotes_inv; [lia|]. apply node_range in Hn. lia. Qed.

Lemma denotes_length m s k : memo_wf m -> denotes m s k ->
  Z.of_nat (length k) = match node m s with Some nd => n_depth nd | None => 0 end.
Proof.
  intros Hwf. induction 1 as [|s nd k Hn Hd IH]; [done|]. rewrite Hn. simpl.
  rewrite (mw_depth _ Hwf _ _ Hn), Nat2Z.inj_succ, IH. destruct (node m (n_parent nd)) eqn:E; lia.
Qed.

(** Hash-consing: a stack has one id. *)
Lemma denotes_inj m s s' k : memo_wf m -> denotes m s k -> denotes m s' k -> s = s'.
Proof.
  intros Hwf H. revert s'. induction H as [|s nd k Hn _ IH]; intros s' H'.
  - by apply denotes_inv in H' as [[-> _]|(? & ? & _ & _ & _ & ?)].
  - apply denotes_inv in H' as [[_ ?]|(nd' & k' & _ & Hn' & Hd' & E)]; [done|].
    injection E as Ep Ek. subst k'. apply IH in Hd' as Epar. destruct nd as [p par d], nd' as [p' par' d'].
    simpl in *. subst. assert (intern_ m !! (p', par') = Some s) as H1 by (apply (mw_intern _ Hwf); eauto).
    assert (intern_ m !! (p', par') = Some s') as H2 by (apply (mw_intern _ Hwf); eauto). congruence.
Qed.

Lemma closure_ids_extends m m' k out : extends m m' -> closure_ids m k out -> closure_ids m' k out.
Proof.
  intros He [H1 H2]. split.
  - intros s Hs. destruct (H1 s Hs) as (k' & ? & ?). exists k'. split; [by eapply denotes_extends|done].
  - intros k' Hk'. destruct (H2 k' Hk') as (s & ? & ?). exists s. split; [done|by eapply denotes_extends].
Qed.

(** ** Interning *)

Record intern_post (m m' : Memo) : Prop := {
  ip_wf : memo_wf m';
  ip_ext : extends m m';
  ip_epoch : visit_epoch_ m' = visit_epoch_ m;
  ip_visited : exists k, visited_ m' = visited_ m ++ replicate k 0;
  ip_cache : next_cache_ m' = next_cache_ m /\ next_ready_ m' = next_ready_ m;
}.

Lemma intern_post_refl m : memo_wf m -> intern_post m m.
Proof. intros H. constructor; [done|done|done| |done]. exists O. by rewrite app_nil_r. Qed.

Lemma intern_post_trans m1 m2 m3 : intern_post m1 m2 -> intern_post m2 m3 -> intern_post m1 m3.
Proof.
  intros [_ E1 V1 [k1 K1] [C1 C1']] [W2 E2 V2 [k2 K2] [C2 C2']]. constructor; [done|by etrans|congruence| |].
  - exists (k1 + k2)%nat. by rewrite replicate_add, app_assoc, <- K1.
  - split; congruence.
Qed.

Lemma intern_spec pos parent k m id m' :
  memo_wf m -> denotes m parent k -> stack_wf rules (pos :: k) -> intern pos parent m = (id, m') ->
  intern_post m m' /\ denotes m' id (pos :: k).
Proof.
  intros Hwf Hd Hs. unfold intern. destruct (intern_ m !! (pos, parent)) as [i|] eqn:E; intros [= <- <-].
  { split; [by apply intern_post_refl|]. apply (mw_intern _ Hwf) in E as [d Hn].
    by apply (denotes_node m i (mkNode pos parent d)). }
  set (d := match node m parent with Some nd => n_depth nd + 1 | None => 1 end).
  set (m' := mkMemo _ _ _ _ _ _). set (new := mkNode pos parent d). set (id := Z.of_nat (length (arena m))).
  pose proof (denotes_range _ _ _ Hwf Hd) as Hpar.
  assert (extends m m') as He by (by exists [new]).
  assert (node m' id = Some new) as Hnew.
  { unfold node, id, m'. simpl. destruct (Z.ltb_spec (Z.of_nat (length (arena m))) 0); [lia|].
    rewrite Nat2Z.id. by apply list_lookup_middle. }
  assert (forall s nd, node m' s = Some nd -> (node m s = Some nd) \/ (s = id /\ nd = new)) as Hold.
  { intros s nd Hn. unfold node in *. destruct (Z.ltb_spec s 0); [done|]. simpl in Hn.
    apply lookup_app_Some in Hn as [Hn|[Hle Hn]]; [by left|right].
    destruct (Z.to_nat s - length (arena m))%nat eqn:Es; simpl in Hn; [|done].
    injection Hn as <-. split; [lia|done]. }
  assert (denotes m' id (pos :: k)) as Hid.
  { apply (denotes_node m' id new); [done|]. simpl. by eapply denotes_extends. }
  split; [|done]. constructor; [|done|done|by exists 1%nat|done]. constructor.
  - intros s nd [Hn|[-> ->]]%Hold; [by eapply (mw_parent _ Hwf)|]. simpl. lia.
  - intros s nd Hn. destruct (Hold _ _ Hn) as [Hn0|[-> ->]].
    + rewrite (mw_depth _ Hwf _ _ Hn0). destruct (node m (n_parent nd)) as [pn|] eqn:Ep.
      * by rewrite (node_extends _ _ _ _ He Ep).
      * destruct (node m' (n_parent nd)) as [pn|] eqn:Ep'; [|done].
        destruct (Hold _ _ Ep') as [?|[Hbad _]]; [congruence|].
        pose proof (mw_parent _ Hwf _ _ Hn0). apply node_range in Hn0. unfold id in *. lia.
    + simpl. destruct (node m parent) as [pn|] eqn:Ep.
      * rewrite (node_extends _ _ _ _ He Ep). unfold d. by rewrite ?Ep.
      * destruct (node m' parent) as [pn|] eqn:Ep'; [|unfold d; by rewrite ?Ep].
        destruct (Hold _ _ Ep') as [?|[Hbad _]]; [congruence|]. unfold id in *. lia.
  - intros pos' par' i. simpl. destruct (decide ((pos, parent) = (pos', par'))) as [[= <- <-]|Hne].
    + rewrite lookup_insert_eq. split.
      * intros [= <-]. by exists d.
      * intros [d' Hn]. destruct (Hold _ _ Hn) as [Hn0|[-> _]]; [|done].
        assert (intern_ m !! (pos, parent) = Some i) by (apply (mw_intern _ Hwf); eauto). congruence.
    + rewrite lookup_insert_ne by done. rewrite (mw_intern _ Hwf). split; intros [d' Hn]; exists d'.
      * by eapply node_extends.
      * destruct (Hold _ _ Hn) as [|[_ ?]]; [done|]. unfold new in *. congruence.
  - intros s ks Hks. apply denotes_inv in Hks as [[-> ->]|(nd & k' & Hs0 & Hn & Hd' & ->)].
    { apply (mw_stack _ Hwf (-1)). constructor. }
    destruct (Hold _ _ Hn) as [Hn0|[-> ->]].
    + assert (exists k2, denotes m (n_parent nd) k2) as [k2 Hk2].
      { apply denotes_exists; [done|]. pose proof (mw_parent _ Hwf _ _ Hn0). apply node_range in Hn0. lia. }
      rewrite (denotes_fun _ _ _ _ Hd' (denotes_extends _ _ _ _ He Hk2)).
      apply (mw_stack _ Hwf s). by econstructor.
    + simpl in *. by rewrite (denotes_fun _ _ _ _ Hd' (denotes_extends _ _ _ _ He Hd)).
  - simpl. rewrite !length_app. simpl. by rewrite (mw_visited _ Hwf).
  - simpl. destruct (mw_epoch _ Hwf) as [? ?]. split; [done|]. apply Forall_app. split; [done|].
    constructor; [lia|constructor].
  - simpl. rewrite length_app. destruct (mw_cache_len _ Hwf). split; [done|]. lia.
  - simpl. intros s Hr p ps Hp. assert (denotes m (Z.of_nat s) (p :: ps)) as Hp0.
    { destruct (denotes_exists m (Z.of_nat s) Hwf) as [k0 Hk0].
      - apply lookup_lt_Some in Hr. pose proof (mw_cache_len _ Hwf). lia.
      - by rewrite (denotes_fun _ _ _ _ Hp (denotes_extends _ _ _ _ He Hk0)). }
    destruct (mw_cache _ Hwf s Hr p ps Hp0) as (out & Ho & ->). exists out.
    split; [by eapply closure_ids_extends|done].
Qed.

(** ** Visit marks and cache growth *)

Lemma memo_wf_visited m v e :
  memo_wf m -> length v = length (visited_ m) -> 0 <= e < two32 -> Forall (fun x => 0 <= x <= e) v ->
  memo_wf (mkMemo (arena m) (intern_ m) v e (next_cache_ m) (next_ready_ m)).
Proof.
  intros Hwf Hl He Hv.
  assert (forall s k, denotes (mkMemo (arena m) (intern_ m) v e (next_cache_ m) (next_ready_ m)) s k <-> denotes m s k)
    as Hd by (intros s k; split; apply denotes_extends, extends_arena; done).
  destruct Hwf. constructor; try done.
  - intros s k. rewrite Hd. apply mw_stack0.
  - simpl. congruence.
  - intros s Hr p ps. rewrite Hd. intros Hp. destruct (mw_cache0 s Hr p ps Hp) as (out & Ho & E).
    exists out. split; [|exact E]. eapply closure_ids_extends; [|exact Ho]. by apply extends_arena.
Qed.

Lemma begin_visit_spec m :
  memo_wf m -> memo_wf (begin_visit m) /\ extends m (begin_visit m) /\
    visit_epoch_ (begin_visit m) <> 0 /\ (forall s, ~ marked (begin_visit m) s) /\
    next_cache_ (begin_visit m) = next_cache_ m /\ next_ready_ (begin_visit m) = next_ready_ m /\
    arena (begin_visit m) = arena m.
Proof.
  intros Hwf. destruct (mw_epoch _ Hwf) as [He Hv]. unfold begin_visit.
  destruct (Z.eqb_spec (u32 (visit_epoch_ m + 1)) 0) as [E|E]; (split; [apply memo_wf_visited; try done|]).
  - by rewrite length_fmap.
  - apply Forall_fmap, Forall_true. intros; simpl; lia.
  - split_and!; try (done || by apply extends_arena). intros s [_ Hs]. simpl in Hs. rewrite list_lookup_fmap in Hs.
    by destruct (visited_ m !! Z.to_nat s).
  - apply u32_range.
  - assert (u32 (visit_epoch_ m + 1) = visit_epoch_ m + 1) as ->.
    { unfold u32 in *. destruct (decide (visit_epoch_ m + 1 = two32)) as [E2|]; [by rewrite E2 in E|].
      apply Z.mod_small. lia. }
    eapply Forall_impl; [done|]. simpl. lia.
  - split_and!; try (done || by apply extends_arena). intros s [_ Hs]. simpl in Hs. rewrite Forall_forall in Hv.
    assert (u32 (visit_epoch_ m + 1) = visit_epoch_ m + 1).
    { unfold u32 in *. destruct (decide (visit_epoch_ m + 1 = two32)) as [E2|]; [by rewrite E2 in E|].
      apply Z.mod_small. lia. }
    apply list_elem_of_lookup_2, Hv in Hs. lia.
Qed.

Lemma set_visited_spec m s :
  memo_wf m -> visit_epoch_ m <> 0 -> 0 <= s < Z.of_nat (length (arena m)) ->
  memo_wf (set_visited s m) /\ extends m (set_visited s m) /\ marked (set_visited s m) s /\
  (forall t, marked (set_visited s m) t -> t = s \/ marked m t) /\
  (forall t, marked m t -> marked (set_visited s m) t).
Proof.
  intros Hwf He0 Hs. destruct (mw_epoch _ Hwf) as [He Hv].
  assert (Z.to_nat s < length (visited_ m))%nat by (rewrite (mw_visited _ Hwf); lia).
  split_and!.
  - apply memo_wf_visited; [done|by rewrite length_insert|done|]. apply Forall_insert; [done|lia].
  - by apply extends_arena.
  - split; [lia|]. simpl. by apply list_lookup_insert_eq.
  - intros t [Ht Hm]. simpl in Hm. destruct (decide (t = s)) as [->|]; [by left|right]. split; [done|].
    rewrite list_lookup_insert_ne in Hm by lia. done.
  - intros t [Ht Hm]. split; [done|]. simpl. destruct (decide (t = s)) as [->|]; [by apply list_lookup_insert_eq|].
    rewrite list_lookup_insert_ne by lia. done.
Qed.

Lemma marked_intern m m' s : intern_post m m' -> visit_epoch_ m <> 0 -> marked m' s <-> marked m s.
Proof.
  intros [_ _ He [k Hk] _] H0. unfold marked. rewrite He, Hk. split; intros [? H]; (split; [done|]).
  - apply lookup_app_Some in H as [H|[_ H]]; [done|]. apply lookup_replicate in H as [? _]. congruence.
  - by apply lookup_app_l_Some.
Qed.

Lemma resize_cache_spec m :
  memo_wf m -> memo_wf (resize_cache m) /\ extends m (resize_cache m) /\
    length (next_ready_ (resize_cache m)) = length (arena m) /\ visit_epoch_ (resize_cache m) = visit_epoch_ m.
Proof.
  intros Hwf. destruct (mw_cache_len _ Hwf) as [Hl1 Hl2]. unfold resize_cache.
  destruct (Nat.ltb_spec (length (next_ready_ m)) (length (arena m))) as [Hlt|Hge].
  2: { split_and!; [done|done|lia|done]. }
  split_and!; [|by apply extends_arena| |done].
  - destruct Hwf. constructor; try done.
    + intros s k Hk. eapply mw_stack0, denotes_extends; [|exact Hk]. by apply extends_arena.
    + simpl. rewrite !length_app, !length_replicate. lia.
    + simpl. intros s Hr p ps Hp.
      apply lookup_app_Some in Hr as [Hr|[_ Hr]]; [|by apply lookup_replicate in Hr as [? _]].
      destruct (mw_cache0 s Hr p ps) as (out & Ho & E); [eapply denotes_extends; [|exact Hp]; by apply extends_arena|].
      exists out. split; [eapply closure_ids_extends; [|exact Ho]; by apply extends_arena|].
      simpl. apply lookup_lt_Some in Hr. rewrite lookup_app_l by lia. done.
  - simpl. rewrite length_app, length_replicate. lia.
Qed.

(** ** One iteration of [expand] *)

(** [P] holds of every stack the work list may meet. *)
Context (P : stack -> Prop) (HP : forall k k', P k -> eps rules k k' -> P k').

Definition handled (m : Memo) (work out : list Z) (s : Z) : Prop :=
  s ∈ work \/ (s = -1 /\ -1 ∈ out) \/ marked m s.

Record expand_inv (m : Memo) (work out : list Z) : Prop := {
  ei_wf : memo_wf m;
  ei_epoch : visit_epoch_ m <> 0;
  ei_work s : s ∈ work -> exists k, denotes m s k /\ P k;
  ei_out s : s ∈ out -> exists k, denotes m s k /\ P k /\ final rules k;
  ei_marked s k : marked m s -> denotes m s k ->
    (final rules k -> s ∈ out) /\
    forall k', eps rules k k' -> exists s', denotes m s' k' /\ handled m work out s';
}.

(** Pushing the freshly interned successors [ids] of a marked stack [s]. *)
Lemma push_alts_spec target s as_ m work work' m' k :
  memo_wf m -> denotes m s k -> (forall a, a ∈ as_ -> stack_wf rules (mkPos target a 0 :: k)) ->
  push_alts target s as_ m work = (work', m') ->
  intern_post m m' /\
  exists ids, work' = ids ++ work /\
    Forall2 (fun id a => denotes m' id (mkPos target a 0 :: k)) ids (reverse as_).
Proof.
  revert m work. induction as_ as [|a as_ IH]; intros m work Hwf Hk Hs; simpl.
  { intros [= <- <-]. split; [by apply intern_post_refl|]. by exists []. }
  destruct (intern (mkPos target a 0) s m) as [id m1] eqn:E.
  eapply intern_spec in E as [Hp Hid]; [|done|done|apply Hs; set_solver]. intros Hpush.
  apply IH in Hpush as (Hp2 & ids & -> & Hids).
  - split; [by eapply intern_post_trans|]. exists (ids ++ [id]). split; [by rewrite <- app_assoc|].
    rewrite reverse_cons. apply Forall2_app; [done|]. constructor; [|constructor].
    eapply denotes_extends; [apply Hp2|done].
  - apply Hp.
  - eapply denotes_extends; [apply Hp|done].
  - intros. apply Hs. set_solver.
Qed.

(** Ids pushed for one popped stack; [ks] are the stacks they denote. *)
Definition step_post (s : Z) (k : stack) (work : list Z) (m : Memo) (out : list Z)
    (work' : list Z) (m' : Memo) (out' : list Z) : Prop :=
  exists ids ks, work' = ids ++ work /\ Forall2 (denotes m') ids ks /\
    (length ks <= S (max_alts rules))%nat /\ Forall (fun k' => (measure rules k' < measure rules k)%nat) ks /\
    extends m m' /\ expand_inv m' work' out' /\
    (forall t, t = s \/ handled m work out t -> handled m' work' out' t).

Lemma handled_weaken m m' work work' out out' t :
  (forall s, s ∈ work -> s ∈ work' \/ marked m' s \/ (s = -1 /\ -1 ∈ out')) ->
  (forall s, marked m s -> marked m' s) -> (forall s, s ∈ out -> s ∈ out') ->
  handled m work out t -> handled m' work' out' t.
Proof.
  intros Hw Hm Ho [H|[[-> H]|H]]; unfold handled; [|auto..].
  destruct (Hw _ H) as [?|[?|?]]; auto.
Qed.

Definition is_char (it : option GbnfItem) : bool :=
  match it with Some (CharItem _) => true | _ => false end.

Lemma final_is_char p ps : final rules (p :: ps) <-> is_char (item_at rules p) = true.
Proof. simpl. destruct (item_at rules p) as [[]|]; simpl; split; intros H; try done; try (by destruct H); by eexists. Qed.

(** Marking [s] and pushing exactly its successors, or emitting it when it waits. *)
Lemma expand_mark m s p ps work out m' ids ks out' :
  expand_inv m (s :: work) out -> 0 <= s -> denotes m s (p :: ps) ->
  intern_post (set_visited s m) m' -> Forall2 (denotes m') ids ks ->
  (forall k', k' ∈ ks <-> eps rules (p :: ps) k') ->
  out' = (if is_char (item_at rules p) then out ++ [s] else out) ->
  (length ks <= S (max_alts rules))%nat ->
  step_post s (p :: ps) work m out (ids ++ work) m' out'.
Proof.
  intros Hi Hs Hk Hp Hids Hks Hout Hlen. destruct Hi as [Hwf He Hw Ho Hm].
  pose proof (denotes_range _ _ _ Hwf Hk) as Hr.
  destruct (set_visited_spec m s Hwf He ltac:(lia)) as (Hwf1 & He1 & Hs1 & Hnew & Hold).
  assert (visit_epoch_ (set_visited s m) <> 0) as He2 by done.
  assert (extends m m') as Hext by (etrans; [exact He1|apply Hp]).
  destruct (Hw s) as (k0 & Hk0 & HPk); [by left|]. rewrite (denotes_fun _ _ _ _ Hk0 Hk) in HPk.
  assert (forall t, marked m t -> marked m' t) as Hmk by (intros t Ht; apply (marked_intern _ _ _ Hp); auto).
  assert (marked m' s) as Hms by (by apply (marked_intern _ _ _ Hp)).
  assert (forall t, t ∈ out -> t ∈ out') as Hout1 by (subst; case_match; set_solver).
  assert (forall t, handled m (s :: work) out t -> handled m' (ids ++ work) out' t) as Hhw.
  { intros t. apply handled_weaken; [|done|done]. intros t' [->|]%elem_of_cons; [by right; left|left; set_solver]. }
  exists ids, ks. split_and!; [done|done|done| |done| |].
  - apply Forall_forall. intros k' Hk'%Hks. apply eps_measure; [by eapply (mw_stack _ Hwf)|done].
  - constructor.
    + apply Hp.
    + by rewrite (ip_epoch _ _ Hp).
    + intros t [Ht|Ht]%elem_of_app.
      * apply list_elem_of_lookup_1 in Ht as [i Ht]. eapply Forall2_lookup_l in Hids as (k' & Hk' & Hd); [|done].
        exists k'. split; [done|]. apply list_elem_of_lookup_2, Hks in Hk'. by eapply HP.
      * destruct (Hw t) as (k' & ? & ?); [by right|]. exists k'. split; [by eapply denotes_extends|done].
    + intros t Ht. assert (t ∈ out \/ (t = s /\ final rules (p :: ps))) as [Ht'|[-> Hf]].
      { rewrite final_is_char. subst out'. destruct (is_char _); [|by left]. apply elem_of_app in Ht as [|Ht]; [by left|].
        apply list_elem_of_singleton in Ht. by right. }
      * destruct (Ho t Ht') as (k' & ? & ? & ?). exists k'. split; [by eapply denotes_extends|done].
      * exists (p :: ps). split; [by eapply denotes_extends|done].
    + intros t k Ht Hd. apply (marked_intern _ _ _ Hp) in Ht; [|done]. apply Hnew in Ht as [->|Ht].
      * rewrite (denotes_fun _ _ _ _ Hd (denotes_extends _ _ _ _ Hext Hk)). split.
        { intros Hf%final_is_char. rewrite Hf in Hout. subst. set_solver. }
        intros k' Hk'%Hks. apply list_elem_of_lookup_1 in Hk' as [i Hk'].
        eapply Forall2_lookup_r in Hids as (id & Hid & Hd'); [|done]. exists id. split; [done|].
        left. apply elem_of_app. left. by eapply list_elem_of_lookup_2.
      * destruct (denotes_exists m t Hwf) as [k0' Hk0'].
        { destruct Ht as [? Ht]. apply lookup_lt_Some in Ht. rewrite (mw_visited _ Hwf) in Ht. lia. }
        rewrite (denotes_fun _ _ _ _ Hd (denotes_extends _ _ _ _ Hext Hk0')).
        destruct (Hm t k0' Ht Hk0') as [Hf Hsucc]. split; [auto|].
        intros k' Hk'. destruct (Hsucc k' Hk') as (s' & ? & ?). exists s'. split; [by eapply denotes_extends|auto].
  - intros t [->|Ht]; [by right; right|]. apply Hhw. destruct Ht as [Ht|Ht]; [left; set_solver|by right].
Qed.

Lemma expand_one_spec m s k work out work' m' out' :
  expand_inv m (s :: work) out -> denotes m s k -> expand_one rules s work m out = (work', m', out') ->
  step_post s k work m out work' m' out'.
Proof.
  intros Hi Hk. pose proof Hi as [Hwf He Hw Ho Hm]. unfold expand_one.
  destruct (Z.ltb_spec s 0) as [Hneg|Hpos].
  { intros [= <- <- <-]. pose proof (denotes_range _ _ _ Hwf Hk). assert (s = -1) as -> by lia.
    assert (forall t, t = -1 \/ handled m work out t -> handled m work (out ++ [-1]) t) as Hh.
    { intros t [->|Ht]; [right; left; set_solver|].
      revert Ht. apply handled_weaken; [auto|done|set_solver]. }
    apply denotes_inv in Hk as [[_ ->]|(? & ? & ? & _)]; [|lia].
    exists [], []. split_and!; [done|constructor|simpl; lia|constructor|done| |done].
    constructor; [done|done| | |].
    - intros t Ht. apply Hw. by right.
    - intros t [Ht| ->%list_elem_of_singleton]%elem_of_app; [by apply Ho|].
      exists []. split_and!; [constructor| |done]. destruct (Hw (-1)) as (k0 & Hk0 & ?); [by left|].
      by rewrite (denotes_fun _ _ _ _ (denotes_nil m) Hk0).
    - intros t kt Ht Hd. destruct (Hm t kt Ht Hd) as [Hf Hs]. split; [set_solver|].
      intros k' Hk'. destruct (Hs k' Hk') as (s' & ? & Hh'). exists s'. split; [done|]. apply Hh.
      destruct Hh' as [[->|]%elem_of_cons|]; [by left|right; by left|right; by right]. }
  destruct (Z.eqb_spec (default 0 (visited_ m !! Z.to_nat s)) (visit_epoch_ m)) as [Ev|Ev].
  { intros [= <- <- <-]. assert (marked m s) as Hms.
    { split; [done|]. destruct (visited_ m !! Z.to_nat s); simpl in *; congruence. }
    exists [], []. assert (forall t, t = s \/ handled m work out t -> handled m work out t) as Hh.
    { intros t [->|]; [by right; right|done]. }
    split_and!; [done|constructor|simpl; lia|constructor|done| |done]. constructor; [done|done| |done|].
    - intros t Ht. apply Hw. by right.
    - intros t kt Ht Hd. destruct (Hm t kt Ht Hd) as [Hf Hs]. split; [done|].
      intros k' Hk'. destruct (Hs k' Hk') as (s' & ? & Hh'). exists s'. split; [done|]. apply Hh.
      destruct Hh' as [[->|]%elem_of_cons|]; [by left|right; by left|right; by right]. }
  clear Ev. apply denotes_inv in Hk as Hk'. destruct Hk' as [[? _]|(nd & ps & _ & Hn & Hpar & ->)]; [lia|].
  destruct (set_visited_spec m s Hwf He ltac:(apply node_range in Hn; lia)) as (Hwf1 & He1 & _).
  rewrite (node_extends _ _ _ _ He1 Hn). destruct nd as [p parent depth]. simpl in *.
  pose proof (mw_stack _ Hwf _ _ Hk) as [Hsl Hsf]. simpl in Hsf.
  destruct (items_at rules p !! p_idx p) as [[target|cs]|] eqn:Eit; fold (item_at rules p) in Eit.
  - pose proof (denotes_length _ _ _ Hwf Hk) as Hlen. rewrite Hn in Hlen. simpl in Hlen.
    destruct (Z.leb_spec kMaxStackDepth depth) as [Hd|Hd].
    + intros [= <- <- <-]. apply (expand_mark m s p ps work out _ [] []); try done.
      * by apply intern_post_refl.
      * intros k'. split; [by intros ?%elem_of_nil|]. intros Heps. exfalso.
        inversion Heps; simplify_eq; simpl in *; unfold depth_limit in *; lia.
      * by rewrite Eit.
      * simpl. lia.
    + destruct (push_alts _ _ _ _ _) as [work1 m2] eqn:Epush. intros [= <- <- <-].
      assert (S (length ps) < depth_limit)%nat by (unfold depth_limit; lia).
      eapply push_alts_spec in Epush as (Hp & ids & -> & Hids); [|done|by eapply denotes_extends| ].
      2: { intros a _. split; simpl; [lia|]. constructor; [by eexists|done]. }
      apply (expand_mark m s p ps work out _ ids ((fun a => mkPos target a 0 :: p :: ps) <$> reverse (seq 0 (length (alts_of rules target))))); try done.
      * by apply Forall2_fmap_r.
      * intros k'. rewrite list_elem_of_fmap. setoid_rewrite elem_of_reverse. setoid_rewrite elem_of_seq. split.
        -- intros (a & -> & ?). apply eps_descend; [done|done|lia].
        -- intros Heps. inversion Heps; simplify_eq. eexists. split; [done|lia].
      * by rewrite Eit.
      * rewrite length_fmap, length_reverse, length_seq. pose proof (alts_of_max rules target). lia.
  - intros [= <- <- <-]. apply (expand_mark m s p ps work out _ [] []); try done.
    + by apply intern_post_refl.
    + intros k'. split; [by intros ?%elem_of_nil|]. intros Heps. inversion Heps; simplify_eq.
    + by rewrite Eit.
    + simpl. lia.
  - apply denotes_inv in Hpar as Hpar'. destruct Hpar' as [[-> ->]|(nd & qs & Hp0 & Hnp & Hparp & ->)].
    + simpl. intros [= <- <- <-]. apply (expand_mark m s p [] work out _ [-1] [[]]); try done.
      * by apply intern_post_refl.
      * constructor; [constructor|constructor].
      * intros k'. rewrite list_elem_of_singleton. split; [intros ->; by constructor|].
        intros Heps. inversion Heps; simplify_eq; done.
      * by rewrite Eit.
      * simpl. lia.
    + destruct (Z.ltb_spec parent 0); [lia|]. rewrite (node_extends _ _ _ _ He1 Hnp).
      destruct nd as [q pparent pdepth]. simpl in *. fold (advance q).
      destruct (intern (advance q) pparent (set_visited s m)) as [id m2] eqn:Eint. intros [= <- <- <-].
      eapply intern_spec in Eint as [Hp Hid]; [|done|by eapply denotes_extends|].
      2: { apply Forall_cons in Hsf as [_ Hsf]. split; simpl in *; [lia|done]. }
      apply (expand_mark m s p (q :: qs) work out _ [id] [advance q :: qs]); try done.
      * constructor; [done|constructor].
      * intros k'. rewrite list_elem_of_singleton. split; [intros ->; by constructor|].
        intros Heps. inversion Heps; simplify_eq; done.
      * by rewrite Eit.
      * simpl. lia.
Qed.

(** ** [expand] terminates and collects the whole closure *)

Definition weight (k : stack) : nat := ((max_alts rules + 2) ^ measure rules k)%nat.
Definition potential (ks : list stack) : nat := sum_list_with weight ks.

Lemma potential_children ks n :
  (length ks <= S (max_alts rules))%nat -> Forall (fun k => (measure rules k < n)%nat) ks ->
  (potential ks < (max_alts rules + 2) ^ n)%nat.
Proof.
  intros Hl Hf. destruct n as [|n].
  { destruct Hf as [|k ks Hk]; [unfold potential; simpl; lia|lia]. }
  assert (potential ks <= length ks * (max_alts rules + 2) ^ n)%nat as Hp.
  { clear Hl. induction Hf as [|k ks Hk _ IH]; unfold potential in *; simpl; [lia|].
    assert (weight k <= (max_alts rules + 2) ^ n)%nat by (apply Nat.pow_le_mono_r; lia). lia. }
  rewrite Nat.pow_succ_r'. pose proof (Nat.pow_nonzero (max_alts rules + 2) n). nia.
Qed.

Lemma Forall2_denotes_extends m m' ids ks :
  extends m m' -> Forall2 (denotes m) ids ks -> Forall2 (denotes m') ids ks.
Proof. intros He H. eapply Forall2_impl; [exact H|]. intros. by eapply denotes_extends. Qed.

Lemma expand_loop_spec fuel work m out ks :
  expand_inv m work out -> Forall2 (denotes m) work ks -> (potential ks <= fuel)%nat ->
  exists m' out', expand_loop rules fuel work m out = Some (m', out') /\ extends m m' /\
    expand_inv m' [] out' /\ (forall t, handled m work out t -> handled m' [] out' t).
Proof.
  revert work m out ks. induction fuel as [|fuel IH]; intros work m out ks Hi Hks Hf.
  - destruct Hks as [|s k work ks Hk Hks]; simpl; [by exists m, out|].
    unfold potential in Hf. simpl in Hf. unfold weight in Hf.
    pose proof (Nat.pow_nonzero (max_alts rules + 2) (measure rules k)). lia.
  - destruct Hks as [|s k work ks Hk Hks]; simpl; [by exists m, out|].
    destruct (expand_one rules s work m out) as [[w m1] out1] eqn:E.
    pose proof (expand_one_spec _ _ _ _ _ _ _ _ Hi Hk E)
      as (ids & ks' & -> & Hids & Hlen & Hmeas & Hext & Hi' & Hh).
    destruct (IH (ids ++ work) m1 out1 (ks' ++ ks)) as (m' & out' & -> & He & Hinv & Hh').
    + done.
    + apply Forall2_app; [done|]. by eapply Forall2_denotes_extends.
    + pose proof (potential_children ks' _ Hlen Hmeas) as Hp. fold (weight k) in Hp.
      unfold potential in *. simpl in Hf. rewrite sum_list_with_app. lia.
    + exists m', out'. split_and!; [done|by etrans|done|]. intros t Ht. apply Hh', Hh.
      destruct Ht as [[->|Ht]%elem_of_cons|Ht]; [by left|right; by left|right; by right].
Qed.

Lemma handled_closure m out s k k' :
  expand_inv m [] out -> handled m [] out s -> denotes m s k -> closure rules k k' ->
  exists s', s' ∈ out /\ denotes m s' k'.
Proof.
  intros Hi Hh Hk [Hr Hf]. revert s Hh Hk. induction Hr as [k|k k1 k' He _ IH]; intros s Hh Hk.
  - exists s. split; [|done]. destruct Hh as [?%elem_of_nil|[[-> ?]|Hm]]; [done|done|].
    by apply (ei_marked _ _ _ Hi s k Hm Hk).
  - destruct Hh as [?%elem_of_nil|[[-> _]|Hm]]; [done| |].
    + apply denotes_inv in Hk as [[_ ->]|(? & ? & ? & _)]; [inversion He|lia].
    + destruct (ei_marked _ _ _ Hi s k Hm Hk) as [_ Hs]. destruct (Hs _ He) as (s1 & Hd & Hh).
      by apply (IH Hf s1).
Qed.
End Refine.

(** ** Sorted id sets *)

Lemma elem_of_unique_adj l x : x ∈ unique_adj l <-> x ∈ l.
Proof.
  induction l as [|a l IH]; [done|]. destruct l as [|b l]; [done|].
  change (unique_adj (a :: b :: l)) with (if a =? b then unique_adj (b :: l) else a :: unique_adj (b :: l)).
  destruct (Z.eqb_spec a b) as [->|]; rewrite ?elem_of_cons, IH, ?elem_of_cons; tauto.
Qed.

Lemma unique_adj_sorted l : StronglySorted Z.le l -> StronglySorted Z.lt (unique_adj l).
Proof.
  induction l as [|a l IH]; intros Hs; [constructor|]. apply StronglySorted_inv in Hs as [Hs Ha].
  destruct l as [|b l]; [constructor; constructor|].
  change (unique_adj (a :: b :: l)) with (if a =? b then unique_adj (b :: l) else a :: unique_adj (b :: l)).
  destruct (Z.eqb_spec a b) as [->|Hne]; [by apply IH|]. constructor; [by apply IH|].
  apply Forall_forall. intros x Hx. rewrite elem_of_unique_adj in Hx. apply StronglySorted_inv in Hs as [_ Hb].
  rewrite Forall_forall in Ha, Hb. pose proof (Ha b ltac:(by left)).
  apply elem_of_cons in Hx as [->|Hx]; [lia|]. specialize (Hb _ Hx). lia.
Qed.

Lemma elem_of_dedup l x : x ∈ dedup l <-> x ∈ l.
Proof. unfold dedup. rewrite elem_of_unique_adj. by rewrite merge_sort_Permutation. Qed.

Lemma dedup_sorted l : StronglySorted Z.lt (dedup l).
Proof. apply unique_adj_sorted, StronglySorted_merge_sort; apply _. Qed.

Lemma sorted_NoDup l : StronglySorted Z.lt l -> NoDup l.
Proof.
  induction 1 as [|x l _ IH Hx]; constructor; [|done]. intros Hin.
  rewrite Forall_forall in Hx. specialize (Hx _ Hin). lia.
Qed.

Lemma sorted_take n l : StronglySorted Z.lt l -> StronglySorted Z.lt (take n l).
Proof.
  intros H. revert n. induction H as [|x l _ IH Hx]; intros [|n]; simpl; try constructor; [apply IH|].
  by apply Forall_take.
Qed.

(** A truncated set of fewer than [kMaxStacks] ids was not truncated. *)
Lemma take_untruncated (l : list Z) n : (length (take n l) < n)%nat -> take n l = l.
Proof. rewrite length_take. intros. apply take_ge. lia. Qed.

Lemma accepts_spec l : StronglySorted Z.lt l -> Forall (fun s => -1 <= s) l -> accepts l = true <-> -1 ∈ l.
Proof.
  intros Hs Hf. destruct Hs as [|x l Hs Hx]; simpl; [split; [done|by intros ?%elem_of_nil]|].
  apply Forall_cons in Hf as [Hx1 Hf]. rewrite Z.eqb_eq. split; [intros ->; by left|].
  intros [?|Hin]%elem_of_cons; [done|]. rewrite Forall_forall in Hx. specialize (Hx _ Hin). lia.
Qed.

(** ** [start_set], [successors] and [step_into] *)

Section Steps.
Context (rules : list GbnfRule) (root : nat).

(** Enough iterations for any [expand]: every reachable stack weighs less. *)
Definition measure_bound : nat :=
  ((2 * max_items rules + 1) * frame_weight rules 0 * S depth_limit)%nat.
Definition expand_fuel : nat := ((max_alts rules + 2) ^ measure_bound)%nat.

Lemma frame_weight_le d : (frame_weight rules d <= frame_weight rules 0)%nat.
Proof. apply Nat.pow_le_mono_r; lia. Qed.

Lemma rest_le p : (length (rest_at rules p) <= max_items rules)%nat.
Proof. unfold rest_at. rewrite length_drop. pose proof (items_at_max rules p). lia. Qed.

Lemma conts_measure_le ps :
  (conts_measure rules ps <= (2 * max_items rules + 1) * frame_weight rules 0 * length ps)%nat.
Proof.
  induction ps as [|q qs IH]; simpl; [lia|]. pose proof (frame_weight_le (S (length qs))).
  pose proof (rest_le q). nia.
Qed.

Lemma measure_le k : stack_wf rules k -> (measure rules k <= measure_bound)%nat.
Proof.
  intros [Hl _]. unfold measure_bound. destruct k as [|p ps]; simpl; [lia|]. simpl in Hl.
  pose proof (conts_measure_le ps). pose proof (frame_weight_le (S (length ps))). pose proof (rest_le p). nia.
Qed.

Lemma potential_single k : stack_wf rules k -> (potential rules [k] <= expand_fuel)%nat.
Proof.
  intros Hk. unfold potential. simpl. rewrite Nat.add_0_r. apply Nat.pow_le_mono_r; [lia|].
  by apply measure_le.
Qed.

Lemma expand_spec P s k m out :
  (forall k k', P k -> eps rules k k' -> P k') -> P k -> denotes m s k ->
  expand_inv rules P m [] out ->
  exists m' out', expand rules expand_fuel s m out = Some (m', out') /\ extends m m' /\
    expand_inv rules P m' [] out' /\ handled m' [] out' s /\
    (forall t, handled m [] out t -> handled m' [] out' t).
Proof.
  intros HP Hk Hd [Hwf He Hw Ho Hm].
  destruct (expand_loop_spec rules P HP expand_fuel [s] m out [k]) as (m' & out' & E & Hext & Hi & Hh).
  - constructor; [done|done| |done|].
    + intros t ->%list_elem_of_singleton. by exists k.
    + intros t kt Ht Hdt. destruct (Hm t kt Ht Hdt) as [Hf Hs]. split; [done|].
      intros k' Hk'. destruct (Hs k' Hk') as (s' & ? & [?%elem_of_nil|Hh]); [done|]. exists s'.
      split; [done|]. by right.
  - by constructor.
  - apply potential_single. by eapply (mw_stack _ _ Hwf).
  - exists m', out'. split_and!; [done..| |].
    + apply Hh. left. by left.
    + intros t [?%elem_of_nil|Ht]; [done|]. apply Hh. by right.
Qed.

Lemma expand_inv_fresh P m : memo_wf rules m -> expand_inv rules P (begin_visit m) [] [].
Proof.
  intros Hwf. destruct (begin_visit_spec rules m Hwf) as (Hwf' & _ & He & Hno & _).
  constructor; [done|done| | |].
  - by intros s ?%elem_of_nil.
  - by intros s ?%elem_of_nil.
  - intros s k Hs. by apply Hno in Hs.
Qed.

(** Interning between visits keeps the invariant. *)
Lemma expand_inv_intern P m m' out :
  expand_inv rules P m [] out -> intern_post rules m m' -> expand_inv rules P m' [] out.
Proof.
  intros [Hwf He Hw Ho Hm] Hp. pose proof (ip_ext _ _ _ Hp) as Hext. constructor.
  - apply Hp.
  - by rewrite (ip_epoch _ _ _ Hp).
  - by intros s ?%elem_of_nil.
  - intros s Hs. destruct (Ho s Hs) as (k & ? & ?). exists k. split; [by eapply denotes_extends|done].
  - intros s k Hs Hk. apply (marked_intern rules _ _ _ Hp He) in Hs.
    destruct (denotes_exists rules m s Hwf) as [k0 Hk0].
    { destruct Hs as [? Hs]. apply lookup_lt_Some in Hs. rewrite (mw_visited _ _ Hwf) in Hs. lia. }
    rewrite (denotes_fun _ _ _ _ Hk (denotes_extends _ _ _ _ Hext Hk0)).
    destruct (Hm s k0 Hs Hk0) as [Hf Hsucc]. split; [done|]. intros k' Hk'.
    destruct (Hsucc k' Hk') as (s' & ? & [?%elem_of_nil|[?|?]]); [done| |]; exists s';
      (split; [by eapply denotes_extends|]); [right; by left|].
    right; right. by apply (marked_intern rules _ _ _ Hp He).
Qed.

Lemma handled_intern m m' out t :
  intern_post rules m m' -> visit_epoch_ m <> 0 -> handled m [] out t -> handled m' [] out t.
Proof.
  intros Hp He [?%elem_of_nil|[?|Hm]]; [done|right; by left|]. right; right.
  by apply (marked_intern rules _ _ _ Hp He).
Qed.

Lemma successors_spec m s p ps :
  memo_wf rules m -> denotes m s (p :: ps) ->
  exists m' res out, successors rules expand_fuel s m = Some (m', res) /\ memo_wf rules m' /\ extends m m' /\
    closure_ids rules m' (advance p :: ps) out /\ res = take kMaxStacks (dedup out).
Proof.
  intros Hwf Hd. unfold successors.
  destruct (resize_cache_spec rules m Hwf) as (Hwf1 & He1 & Hlen1 & _).
  pose proof (denotes_extends _ _ _ _ He1 Hd) as Hd1. pose proof (denotes_range _ _ _ _ Hwf Hd) as Hr.
  apply denotes_inv in Hd as Hd'. destruct Hd' as [[_ ?]|(nd & k & Hs0 & Hn & Hpar & [= Ep <-])]; [done|].
  destruct (next_ready_ (resize_cache m) !! Z.to_nat s) as [[]|] eqn:Er; simpl.
  { pose proof (mw_cache _ _ Hwf1 _ Er) as Hc. rewrite Z2Nat.id in Hc by done.
    destruct (Hc _ _ Hd1) as (out & Ho & Eo). eexists (resize_cache m), _, out. split_and!; done. }
  2: { exfalso. apply lookup_ge_None in Er. apply node_range in Hn. lia. }
  rewrite (node_extends _ _ _ _ He1 Hn). destruct nd as [q parent depth]. simpl in *. subst q.
  destruct (begin_visit_spec rules _ Hwf1) as (Hwf2 & He2 & Hep & _ & Hc2 & Hc2' & _).
  fold (advance p). destruct (intern (advance p) parent (begin_visit (resize_cache m))) as [id m3] eqn:Ei.
  eapply (intern_spec rules) in Ei as [Hp Hid]; [|done|eapply denotes_extends; [|exact Hpar]; by etrans|].
  2: { apply advance_wf. by eapply (mw_stack _ _ Hwf). }
  destruct (expand_spec (rtc (eps rules) (advance p :: ps)) id (advance p :: ps) m3 [])
    as (m4 & out & -> & He4 & Hi & Hh & _).
  - intros. by eapply rtc_r.
  - done.
  - done.
  - eapply expand_inv_intern; [|done]. by apply expand_inv_fresh.
  - simpl. assert (closure_ids rules m4 (advance p :: ps) out) as Hout.
    { split.
      - intros t Ht. destruct (ei_out _ _ _ _ _ Hi t Ht) as (k' & ? & ? & ?). by exists k'.
      - intros k' Hk'. eapply handled_closure; [done|done|by eapply denotes_extends|done]. }
    pose proof (ei_wf _ _ _ _ _ Hi) as Hwf4.
    destruct (resize_cache_spec rules m4 Hwf4) as (Hwf5 & He5 & Hlen5 & _).
    set (m5 := resize_cache m4) in *. set (res := take kMaxStacks (dedup out)).
    eexists _, res, out. split; [done|]. set (m6 := mkMemo _ _ _ _ _ _).
    assert (extends m m5) as Hext.
    { etrans; [exact He1|]. etrans; [exact He2|]. etrans; [apply Hp|]. by etrans. }
    assert (forall t k, denotes m6 t k <-> denotes m5 t k) as Hd6.
    { intros t k. split; apply denotes_extends, extends_arena; done. }
    assert (closure_ids rules m6 (advance p :: ps) out) as Hout6.
    { eapply closure_ids_extends; [|exact Hout]. etrans; [exact He5|]. by apply extends_arena. }
    split_and!; [|etrans; [exact Hext|by apply extends_arena]|done|done].
    destruct Hwf5. constructor; try done.
    + intros t k. rewrite Hd6. apply mw_stack0.
    + simpl. rewrite !length_insert. done.
    + simpl. intros t Ht q qs. rewrite Hd6. intros Hq. destruct (decide (t = Z.to_nat s)) as [->|Hne].
      * rewrite Z2Nat.id in Hq by done.
        pose proof (denotes_fun _ _ _ _ Hq (denotes_extends _ _ _ _ Hext (denotes_node _ _ _ _ Hn Hpar))) as Eq.
        simplify_eq/=. exists out. split; [done|].
        rewrite list_lookup_insert_eq; [done|]. pose proof (proj1 mw_cache_len0).
        assert (Z.to_nat s < length (arena m4))%nat; [|lia].
        apply node_range in Hn. destruct Hext as [l El]. simpl in El.
        assert (length (arena m5) = length (arena m) + length l)%nat by (by rewrite El, length_app).
        assert (arena m5 = arena m4) by (unfold m5, resize_cache; by case_match). rewrite <- H1. lia.
      * rewrite list_lookup_insert_ne in Ht by done. rewrite list_lookup_insert_ne by done.
        destruct (mw_cache0 t Ht q qs Hq) as (out' & Ho' & ->). exists out'. split; [|done].
        eapply closure_ids_extends; [|exact Ho']. by apply extends_arena.
Qed.

(** The stacks [start_set] is to collect. *)
Definition start_stack (k : stack) : Prop :=
  exists a, (a < length (alts_of rules root))%nat /\ closure rules [mkPos root a 0] k.

Definition start_reach (k : stack) : Prop :=
  exists a, (a < length (alts_of rules root))%nat /\ rtc (eps rules) [mkPos root a 0] k.

Lemma start_loop_spec as_ m out :
  Forall (fun a => (a < length (alts_of rules root))%nat) as_ -> expand_inv rules start_reach m [] out ->
  exists m' out', start_loop rules root expand_fuel as_ m out = Some (m', out') /\ extends m m' /\
    expand_inv rules start_reach m' [] out' /\ (forall t, handled m [] out t -> handled m' [] out' t) /\
    (forall a, a ∈ as_ -> exists id, denotes m' id [mkPos root a 0] /\ handled m' [] out' id).
Proof.
  intros Hf. revert m out. induction Hf as [|a as_ Ha _ IH]; intros m out Hi; simpl.
  { exists m, out. split_and!; [done..|]. by intros a ?%elem_of_nil. }
  destruct (intern (mkPos root a 0) (-1) m) as [id m1] eqn:E.
  eapply (intern_spec rules) in E as [Hp Hid]; [|apply Hi|constructor|apply start_wf].
  destruct (expand_spec start_reach id [mkPos root a 0] m1 out) as (m2 & out2 & -> & He2 & Hi2 & Hh2 & Hh2'); simpl.
  - intros k k' (b & ? & ?) ?. exists b. split; [done|]. by eapply rtc_r.
  - exists a. split; [done|]. done.
  - done.
  - by eapply expand_inv_intern.
  - destruct (IH m2 out2 Hi2) as (m' & out' & -> & He & Hi' & Hh & Has). exists m', out'. split_and!.
    + done.
    + etrans; [apply Hp|]. by etrans.
    + done.
    + intros t Ht. apply Hh, Hh2'. eapply handled_intern; [done|apply Hi|done].
    + intros b [->|Hb]%elem_of_cons; [|by apply Has]. exists id.
      split; [eapply denotes_extends; [exact He|]; by eapply denotes_extends|by apply Hh].
Qed.

Lemma start_set_spec m :
  memo_wf rules m ->
  exists m' out, start_set rules root expand_fuel m = Some (m', out) /\ memo_wf rules m' /\ extends m m' /\
    StronglySorted Z.lt out /\
    (forall s, s ∈ out -> exists k, denotes m' s k /\ start_stack k) /\
    (forall k, start_stack k -> exists s, s ∈ out /\ denotes m' s k).
Proof.
  intros Hwf. unfold start_set.
  destruct (start_loop_spec (seq 0 (length (alts_of rules root))) (begin_visit m) [])
    as (m' & out & -> & He & Hi & _ & Has).
  - apply Forall_forall. intros a Ha%elem_of_seq. lia.
  - by apply expand_inv_fresh.
  - simpl. exists m', (dedup out). split_and!; [done|apply Hi| |apply dedup_sorted| |].
    + etrans; [|exact He]. apply (begin_visit_spec rules m Hwf).
    + intros s Hs. rewrite elem_of_dedup in Hs.
      destruct (ei_out _ _ _ _ _ Hi s Hs) as (k & ? & (a & ? & ?) & ?). exists k. split; [done|]. by exists a.
    + intros k (a & Ha & Hc). destruct (Has a) as (id & Hid & Hh); [apply elem_of_seq; lia|].
      destruct (handled_closure rules start_reach m' out id _ k Hi Hh Hid Hc) as (s & ? & ?).
      exists s. by rewrite elem_of_dedup.
Qed.

(** The id [s'] is one the character [cp] leads to from the id [s]. *)
Definition leads (m : Memo) (cp s s' : Z) : Prop :=
  exists p ps cs k', denotes m s (p :: ps) /\ item_at rules p = Some (CharItem cs) /\
    matches cs cp = true /\ closure rules (advance p :: ps) k' /\ denotes m s' k'.

Lemma leads_extends m m' cp s s' : extends m m' -> leads m cp s s' -> leads m' cp s s'.
Proof.
  intros He (p & ps & cs & k' & ? & ? & ? & ? & ?). exists p, ps, cs, k'.
  split_and!; [by eapply denotes_extends|done..|by eapply denotes_extends].
Qed.

Lemma top_item_denotes m s k it :
  denotes m s k -> top_item rules m s = Some it <->
  exists p ps, k = p :: ps /\ item_at rules p = Some it.
Proof.
  intros Hd. unfold top_item. apply denotes_inv in Hd as [[-> ->]|(nd & k' & Hs & -> & _ & ->)].
  - unfold node. simpl. split; [done|]. by intros (? & ? & ? & _).
  - split; [|by intros (? & ? & [= <- <-] & ?)]. intros. by exists (n_pos nd), k'.
Qed.

(** What one visited stack contributes: its whole closure, or a truncated part. *)
Definition contributes (m : Memo) (cp : Z) (ids res : list Z) : Prop :=
  (forall s', s' ∈ res -> exists s, s ∈ ids /\ leads m cp s s') /\
  ((length (dedup res) < kMaxStacks)%nat ->
   forall s p ps cs k', s ∈ ids -> denotes m s (p :: ps) -> item_at rules p = Some (CharItem cs) ->
     matches cs cp = true -> closure rules (advance p :: ps) k' -> exists s', s' ∈ res /\ denotes m s' k').

Lemma dedup_length_le (l l' : list Z) : l ⊆ l' -> (length (dedup l) <= length (dedup l'))%nat.
Proof.
  intros Hs. apply submseteq_length, NoDup_submseteq; [apply sorted_NoDup, dedup_sorted|].
  intros x. rewrite !elem_of_dedup. apply Hs.
Qed.

Lemma step_loop_spec ids cp m done_ out :
  memo_wf rules m -> Forall (fun s => exists k, denotes m s k) (done_ ++ ids) ->
  contributes m cp done_ out ->
  exists m' res, step_loop rules expand_fuel ids cp m out = Some (m', res) /\ memo_wf rules m' /\
    extends m m' /\ contributes m' cp (done_ ++ ids) res.
Proof.
  revert m done_ out. induction ids as [|s ids IH]; intros m done_ out Hwf Hv [Hc1 Hc2]; simpl.
  { exists m, out. rewrite app_nil_r. done. }
  assert (exists k, denotes m s k) as [k Hk].
  { rewrite Forall_forall in Hv. apply Hv. set_solver. }
  assert (forall m1 out1, memo_wf rules m1 -> extends m m1 -> contributes m1 cp (done_ ++ [s]) out1 ->
    exists m' res, step_loop rules expand_fuel ids cp m1 out1 = Some (m', res) /\ memo_wf rules m' /\
      extends m m' /\ contributes m' cp (done_ ++ s :: ids) res) as Hgo.
  { intros m1 out1 Hwf1 He1 Hcon. destruct (IH m1 (done_ ++ [s]) out1) as (m' & res & -> & Hwf' & He & Hcon');
      [done| |done|].
    - rewrite <- app_assoc. eapply Forall_impl; [exact Hv|]. intros t [kt Ht]. exists kt. by eapply denotes_extends.
    - rewrite <- app_assoc in Hcon'. exists m', res. split_and!; [done|done|by etrans|done..]. }
  assert (forall it, top_item rules m s = it ->
    (forall cs, it = Some (CharItem cs) -> matches cs cp = false) -> contributes m cp (done_ ++ [s]) out) as Hskip.
  { intros it Hit Hno. split.
    - intros s' Hs'. destruct (Hc1 s' Hs') as (t & ? & ?). exists t. split; [set_solver|done].
    - intros Hlen t p ps cs k' [Ht|Ht%list_elem_of_singleton]%elem_of_app Hd Hp Hm Hcl; [by eapply Hc2|]. subst t.
      assert (top_item rules m s = Some (CharItem cs)) as E by (apply (top_item_denotes _ _ _ _ Hd); eauto).
      rewrite (Hno cs) in Hm; congruence. }
  destruct (top_item rules m s) as [[r|cs]|] eqn:Et.
  - apply Hgo; [done|done|]. by apply (Hskip _ eq_refl).
  - destruct (matches cs cp) eqn:Em.
    2: { apply Hgo; [done|done|]. apply (Hskip _ eq_refl). by intros cs' [= <-]. }
    apply (top_item_denotes _ _ _ _ Hk) in Et as (p & ps & -> & Hp).
    destruct (successors_spec m s p ps Hwf Hk) as (m1 & nxt & o & -> & Hwf1 & He1 & [Ho1 Ho2] & En). simpl.
    apply Hgo; [done|done|]. split.
    + intros s' [Hs'|Hs']%elem_of_app.
      * destruct (Hc1 s' Hs') as (t & ? & ?). exists t. split; [set_solver|by eapply leads_extends].
      * rewrite En in Hs'. apply elem_of_take in Hs' as (i & Hs' & _). apply list_elem_of_lookup_2 in Hs'.
        rewrite elem_of_dedup in Hs'. destruct (Ho1 _ Hs') as (k' & ? & ?). exists s. split; [set_solver|].
        exists p, ps, cs, k'. split_and!; [by eapply denotes_extends|done..].
    + intros Hlen t q qs cs' k' [Ht|Ht%list_elem_of_singleton]%elem_of_app Hd Hq Hm Hcl.
      * destruct (denotes_exists rules m t Hwf) as [kt Hkt].
        { rewrite Forall_forall in Hv. destruct (Hv t) as [kt Hkt]; [set_solver|]. by eapply denotes_range. }
        pose proof (denotes_fun _ _ _ _ Hd (denotes_extends _ _ _ _ He1 Hkt)) as <-.
        destruct (Hc2 ltac:(pose proof (dedup_length_le out (out ++ nxt) ltac:(set_solver)); lia)
          t q qs cs' k' Ht Hkt Hq Hm Hcl) as (s' & ? & ?).
        exists s'. split; [set_solver|by eapply denotes_extends].
      * subst t. pose proof (denotes_fun _ _ _ _ Hd (denotes_extends _ _ _ _ He1 Hk)) as [= -> ->].
        destruct (Ho2 k' Hcl) as (s' & Hs' & ?). exists s'. split; [|done].
        apply elem_of_app. right. rewrite En, take_untruncated; [by apply elem_of_dedup|].
        rewrite <- En. eapply Nat.le_lt_trans; [|exact Hlen].
        apply submseteq_length, NoDup_submseteq.
        -- rewrite En. apply sorted_NoDup, sorted_take, dedup_sorted.
        -- intros x Hx. rewrite elem_of_dedup. set_solver.
  - apply Hgo; [done|done|]. by apply (Hskip _ eq_refl).
Qed.

Lemma step_into_spec ids cp m :
  memo_wf rules m -> Forall (fun s => exists k, denotes m s k) ids ->
  exists m' res, step_into rules expand_fuel ids cp m = Some (m', res) /\ memo_wf rules m' /\
    extends m m' /\ StronglySorted Z.lt res /\
    (forall s', s' ∈ res -> exists s, s ∈ ids /\ leads m' cp s s') /\
    ((length res < kMaxStacks)%nat ->
     forall s p ps cs k', s ∈ ids -> denotes m' s (p :: ps) -> item_at rules p = Some (CharItem cs) ->
       matches cs cp = true -> closure rules (advance p :: ps) k' -> exists s', s' ∈ res /\ denotes m' s' k').
Proof.
  intros Hwf Hv. unfold step_into.
  destruct (step_loop_spec ids cp m [] []) as (m' & res & -> & Hwf' & He & Hc1 & Hc2); [done|done| |].
  { split; [by intros s' ?%elem_of_nil|]. by intros _ s p ps cs k' ?%elem_of_nil. }
  simpl in *. exists m', (take kMaxStacks (dedup res)).
  split_and!; [done..|by apply sorted_take, dedup_sorted| |].
  - intros s' Hs'. apply Hc1. rewrite <- elem_of_dedup. apply elem_of_take in Hs' as (i & Hs' & _).
    by eapply list_elem_of_lookup_2.
  - intros Hlen s p ps cs k' Hs Hd Hp Hm Hcl. rewrite (take_untruncated _ _ Hlen) in Hlen.
    rewrite take_ge by lia. setoid_rewrite elem_of_dedup. by eapply Hc2.
Qed.
End Steps.

(** ** More fuel changes nothing *)

Section Fuel.
Context (rules : list GbnfRule) (root : nat).

Lemma expand_loop_mono f f' work m out r :
  (f <= f')%nat -> expand_loop rules f work m out = Some r -> expand_loop rules f' work m out = Some r.
Proof.
  revert f' work m out. induction f as [|f IH]; intros f' work m out Hle.
  - destruct work; [destruct f'; done|done].
  - destruct f' as [|f']; [lia|]. destruct work as [|s work]; [done|]. simpl.
    destruct (expand_one rules s work m out) as [[w m'] out']. apply IH. lia.
Qed.

Lemma start_loop_mono f f' as_ m out r :
  (f <= f')%nat -> start_loop rules root f as_ m out = Some r -> start_loop rules root f' as_ m out = Some r.
Proof.
  intros Hle. revert m out. induction as_ as [|a as_ IH]; intros m out; [done|]. simpl.
  destruct (intern _ _ m) as [id m1]. intros H.
  destruct (expand rules f id m1 out) as [[m2 out2]|] eqn:E; [|done]. simpl in H.
  unfold expand in *. rewrite (expand_loop_mono _ _ _ _ _ _ Hle E). by apply IH.
Qed.

Lemma successors_mono f f' s m r :
  (f <= f')%nat -> successors rules f s m = Some r -> successors rules f' s m = Some r.
Proof.
  intros Hle. unfold successors. destruct (default false _); [done|].
  destruct (node (resize_cache m) s) as [[p par d]|]; [|done].
  destruct (intern _ _ _) as [id m1]. intros H.
  destruct (expand rules f id m1 []) as [[m2 out2]|] eqn:E; [|done]. simpl in H.
  unfold expand in *. by rewrite (expand_loop_mono _ _ _ _ _ _ Hle E).
Qed.

Lemma step_loop_mono f f' ids cp m out r :
  (f <= f')%nat -> step_loop rules f ids cp m out = Some r -> step_loop rules f' ids cp m out = Some r.
Proof.
  intros Hle. revert m out. induction ids as [|s ids IH]; intros m out; [done|]. simpl.
  destruct (top_item rules m s) as [[|cs]|]; [apply IH| |apply IH].
  destruct (matches cs cp); [|apply IH]. intros H.
  destruct (successors rules f s m) as [[m2 out2]|] eqn:E; [|done]. simpl in H.
  rewrite (successors_mono _ _ _ _ _ Hle E). by apply IH.
Qed.

Lemma start_set_mono f f' m r :
  (f <= f')%nat -> start_set rules root f m = Some r -> start_set rules root f' m = Some r.
Proof.
  intros Hle. unfold start_set. intros H.
  destruct (start_loop rules root f _ _ []) as [[m2 out2]|] eqn:E; [|done].
  by rewrite (start_loop_mono _ _ _ _ _ _ Hle E).
Qed.

Lemma step_into_mono f f' ids cp m r :
  (f <= f')%nat -> step_into rules f ids cp m = Some r -> step_into rules f' ids cp m = Some r.
Proof.
  intros Hle. unfold step_into. intros H.
  destruct (step_loop rules f ids cp m []) as [[m2 out2]|] eqn:E; [|done].
  by rewrite (step_loop_mono _ _ _ _ _ _ _ Hle E).
Qed.
End Fuel.
