(* ===== verification/GbnfParser.v ===== *)
(** * GBNF source text: the recursive-descent parser

    Models [compute/gbnf_parser.cpp].  The source is a list of bytes; the read
    position is the unread suffix, so [peek] is a lookup in it and a loop that
    only advances is structural.  [fail] stops with an error and the number of
    unread bytes (the reported offset is the source length minus it);
    [std::stoi] on digits above [INT_MAX] throws.  Recursion through groups runs
    on fuel; [parse_total] shows [parse_fuel] always suffices. *)

From Corelib Require Import ssreflect_rw.
From stdpp Require Import prelude gmap list.
From S2P Require Import Prelude Gbnf.
Open Scope Z_scope.

Definition kMaxRepeat : Z := 1024.

Inductive ParseError :=
  | ErrBadHex | ErrUnterminatedLiteral | ErrInvalidUtf8 | ErrTruncatedUtf8 | ErrTrailingBackslash
  | ErrUnterminatedString | ErrInvertedRange | ErrUnterminatedClass
  | ErrUnterminatedRepeat | ErrEmptyRepeat | ErrRepeatBound | ErrInvertedRepeat | ErrNoElement
  | ErrExpectedParen | ErrUnexpected (c : Z)
  | ErrExpectedName | ErrExpectedAssign (name : list Z) | ErrDefinedTwice (name : list Z).

(** [rest]: the unread input; [rules], [ids], [defined] as in the source. *)
Record Parser := mkParser {
  rest : list Z;
  rules : list GbnfRule;
  ids : gmap (list Z) nat;
  defined : gset (list Z);
}.

Inductive PR (A : Type) :=
  | Ok (a : A) (p : Parser)
  | Failed (e : ParseError) (unread : nat)
  | Throws
  | OutOfFuel.
Arguments Ok {A}. Arguments Failed {A}. Arguments Throws {A}. Arguments OutOfFuel {A}.

Definition P (A : Type) : Type := Parser -> PR A.

Definition ret {A} (a : A) : P A := fun p => Ok a p.

Definition bind {A B} (m : P A) (f : A -> P B) : P B := fun p =>
  match m p with
  | Ok a p' => f a p'
  | Failed e u => Failed e u
  | Throws => Throws
  | OutOfFuel => OutOfFuel
  end.

Declare Scope parser_scope.
Notation "x ← y ; z" := (bind y (fun x => z)) : parser_scope.
Notation "' x ← y ; z" := (bind y (fun x => z)) : parser_scope.
Notation "x ;; z" := (bind x (fun _ => z)) : parser_scope.
#[local] Open Scope parser_scope.

Definition fail {A} (e : ParseError) : P A := fun p => Failed e (length (rest p)).
Definition with_rest (r : list Z) (p : Parser) : Parser := mkParser r (rules p) (ids p) (defined p).
Definition set_rest (r : list Z) : P () := fun p => Ok () (with_rest r p).
Definition advance_by (n : nat) : P () := fun p => Ok () (with_rest (drop n (rest p)) p).

(** A loop that consumes input in every round: one round per unread byte. *)
Definition by_unread {A} (f : nat -> P A) : P A := fun p => f (length (rest p)) p.

(** '\0' past the end. *)
Definition peek_at (s : list Z) (off : nat) : Z := default 0 (s !! off).
Definition peek (off : nat) : P Z := fun p => Ok (peek_at (rest p) off) p.
Definition eof : P bool := fun p => Ok (match rest p with [] => true | _ => false end) p.

Definition is_word_char (c : Z) : bool :=
  ((97 <=? c) && (c <=? 122)) || ((65 <=? c) && (c <=? 90)) || ((48 <=? c) && (c <=? 57))
  || (c =? 45) || (c =? 95).

(** [comment]: inside the inner loop that runs to the end of the line. *)
Fixpoint skip_space_from (allow_newline comment : bool) (s : list Z) : list Z :=
  match s with
  | [] => []
  | c :: s' =>
      if comment && negb (c =? 10) then skip_space_from allow_newline true s'
      else if c =? 35 then skip_space_from allow_newline true s'
      else if (c =? 32) || (c =? 9) || (c =? 13) then skip_space_from allow_newline false s'
      else if (c =? 10) && allow_newline then skip_space_from allow_newline false s'
      else s
  end.

Definition skip_space (allow_newline : bool) : P () :=
  fun p => Ok () (with_rest (skip_space_from allow_newline false (rest p)) p).

(** The longest prefix of bytes satisfying [f], and what follows. *)
Fixpoint span_bytes (f : Z -> bool) (s : list Z) : list Z * list Z :=
  match s with
  | c :: s' => if f c then let (a, b) := span_bytes f s' in (c :: a, b) else ([], s)
  | [] => ([], [])
  end.

Definition take_span (f : Z -> bool) : P (list Z) := fun p =>
  let (a, b) := span_bytes f (rest p) in Ok a (with_rest b p).

Definition rule_id (name : list Z) : P nat := fun p =>
  match ids p !! name with
  | Some id => Ok id p
  | None =>
      let id := length (rules p) in
      Ok id (mkParser (rest p) (rules p ++ [mkRule name []]) (<[name := id]> (ids p)) (defined p))
  end.

Definition add_synthetic (alts : list GbnfAlt) : P nat := fun p =>
  Ok (length (rules p)) (mkParser (rest p) (rules p ++ [mkRule [] alts]) (ids p) (defined p)).

Definition set_alts (id : nat) (a : list GbnfAlt) : P () := fun p =>
  Ok () (mkParser (rest p) (alter (fun r => mkRule (rule_name r) a) id (rules p)) (ids p) (defined p)).

Definition char_item (cp : Z) : GbnfItem := CharItem (mkCharSet [(cp, cp)] false).

(** ** Lexical level *)

Definition hex_digit (c : Z) : option Z :=
  if (48 <=? c) && (c <=? 57) then Some (c - 48)
  else if (97 <=? c) && (c <=? 102) then Some (c - 97 + 10)
  else if (65 <=? c) && (c <=? 70) then Some (c - 65 + 10)
  else None.

Fixpoint hex (digits : nat) (out : Z) : P Z :=
  match digits with
  | O => ret out
  | S d =>
      c ← peek 0;
      match hex_digit c with
      | Some v => advance_by 1;; hex d (u32 (Z.lor (Z.shiftl out 4) v))
      | None => fail ErrBadHex
      end
  end.

Fixpoint utf8_tail (extra : nat) (cp : Z) : P Z :=
  match extra with
  | O => ret cp
  | S e =>
      b ← peek 0; end_ ← eof;
      if end_ || negb (Z.land b 192 =? 128) then fail ErrTruncatedUtf8
      else advance_by 1;; utf8_tail e (u32 (Z.lor (Z.shiftl cp 6) (Z.land b 63)))
  end.

(** One character of a literal or class: an escape, or a UTF-8 codepoint. *)
Definition read_char : P Z :=
  end_ ← eof; b ← peek 0;
  if end_ : bool then fail ErrUnterminatedLiteral
  else if negb (b =? 92) then
    advance_by 1;;
    if b <? 128 then ret b
    else if 240 <=? b then utf8_tail 3 (Z.land b (Z.shiftr 63 3))
    else if 224 <=? b then utf8_tail 2 (Z.land b (Z.shiftr 63 2))
    else if 192 <=? b then utf8_tail 1 (Z.land b (Z.shiftr 63 1))
    else fail ErrInvalidUtf8
  else
    advance_by 1;;
    end2 ← eof; e ← peek 0;
    if end2 : bool then fail ErrTrailingBackslash
    else
      advance_by 1;;
      if e =? 110 then ret 10
      else if e =? 114 then ret 13
      else if e =? 116 then ret 9
      else if e =? 48 then ret 0
      else if e =? 120 then hex 2 0
      else if e =? 117 then hex 4 0
      else if e =? 85 then hex 8 0
      else ret e.

Fixpoint parse_string_loop (fuel : nat) (items : list GbnfItem) : P (list GbnfItem) :=
  end_ ← eof; c ← peek 0;
  if end_ : bool then fail ErrUnterminatedString
  else if c =? 34 then advance_by 1;; ret items
  else
    match fuel with
    | O => fun _ => OutOfFuel
    | S f => cp ← read_char; parse_string_loop f (items ++ [char_item cp])
    end.

Definition parse_string (items : list GbnfItem) : P (list GbnfItem) :=
  advance_by 1;; by_unread (fun n => parse_string_loop n items).

Fixpoint parse_class_loop (fuel : nat) (rs : list (Z * Z)) : P (list (Z * Z)) :=
  end_ ← eof; c ← peek 0;
  if end_ : bool then fail ErrUnterminatedClass
  else if c =? 93 then advance_by 1;; ret rs
  else
    match fuel with
    | O => fun _ => OutOfFuel
    | S f =>
        lo ← read_char;
        c0 ← peek 0; c1 ← peek 1;
        hi ← (if (c0 =? 45) && negb (c1 =? 93) && negb (c1 =? 0) then advance_by 1;; read_char else ret lo);
        if hi <? lo then fail ErrInvertedRange else parse_class_loop f (rs ++ [(lo, hi)])
    end.

Definition parse_class : P GbnfItem :=
  advance_by 1;;
  c ← peek 0;
  let neg := c =? 94 in
  (if neg then advance_by 1 else ret ());;
  rs ← by_unread (fun n => parse_class_loop n []);
  ret (CharItem (mkCharSet rs neg)).

(** ** Repetition *)

Definition make_opt (x : GbnfItem) (tail : option nat) : P nat :=
  add_synthetic [[]; x :: match tail with Some t => [RuleItem t] | None => [] end].

Definition make_star (x : GbnfItem) : P nat :=
  id ← add_synthetic [];
  set_alts id [[]; [x; RuleItem id]];;
  ret id.

Definition is_digit (c : Z) : bool := (48 <=? c) && (c <=? 57).

(** [std::stoi] on a digit string; [None]: [std::out_of_range]. *)
Definition stoi (ds : list Z) : option Z :=
  let v := foldl (fun acc c => acc * 10 + (c - 48)) 0 ds in
  if v <=? 2 ^ 31 - 1 then Some v else None.

Definition lift_stoi (ds : list Z) : P Z := fun p =>
  match stoi ds with Some v => Ok v p | None => Throws end.

Definition parse_repeat_bounds : P (Z * Z) :=
  advance_by 1;;
  a ← take_span is_digit;
  c ← peek 0;
  let has_comma := c =? 44 in
  b ← (if has_comma then advance_by 1;; take_span is_digit else ret []);
  c2 ← peek 0;
  if negb (c2 =? 125) then fail ErrUnterminatedRepeat
  else
    advance_by 1;;
    match a, b with
    | [], [] => fail ErrEmptyRepeat
    | _, _ =>
        lo ← (match a with [] => ret 0 | _ => lift_stoi a end);
        hi ← (if has_comma then match b with [] => ret (-1) | _ => lift_stoi b end else ret lo);
        if (kMaxRepeat <? lo) || (kMaxRepeat <? hi) then fail ErrRepeatBound
        else if (0 <=? hi) && (hi <? lo) then fail ErrInvertedRepeat
        else ret (lo, hi)
    end.

(** Nested optionals, innermost first. *)
Fixpoint opt_chain (n : nat) (x : GbnfItem) (tail : option nat) : P (option nat) :=
  match n with
  | O => ret tail
  | S n' => t ← make_opt x tail; opt_chain n' x (Some t)
  end.

Definition rule_items (t : option nat) : list GbnfItem :=
  match t with Some id => [RuleItem id] | None => [] end.

(** The operator [c] applied to the folded element [x]; yields its items. *)
Definition apply_op (c : Z) (x : GbnfItem) : P (list GbnfItem) :=
  if c =? 42 then advance_by 1;; s ← make_star x; ret [RuleItem s]
  else if c =? 63 then advance_by 1;; o ← make_opt x None; ret [RuleItem o]
  else if c =? 43 then advance_by 1;; s ← make_star x; ret [x; RuleItem s]
  else
    '(lo, hi) ← parse_repeat_bounds;
    if hi <? 0 then s ← make_star x; ret (replicate (Z.to_nat lo) x ++ [RuleItem s])
    else if lo <? hi then
      t ← opt_chain (Z.to_nat (hi - lo)) x None;
      ret (replicate (Z.to_nat lo) x ++ rule_items t)
    else ret (replicate (Z.to_nat lo) x).

Definition is_postfix (c : Z) : bool := (c =? 42) || (c =? 43) || (c =? 63) || (c =? 123).

(** The element's items, folded into one item. *)
Definition fold_element (elem : list GbnfItem) : P GbnfItem :=
  match elem with
  | [x] => ret x
  | _ => id ← add_synthetic [elem]; ret (RuleItem id)
  end.

Fixpoint apply_postfix_loop (fuel : nat) (items : list GbnfItem) (start : nat) : P (list GbnfItem) :=
  end_ ← eof; c ← peek 0;
  if end_ || negb (is_postfix c) then ret items
  else if (length items <=? start)%nat then fail ErrNoElement
  else
    match fuel with
    | O => fun _ => OutOfFuel
    | S f =>
        x ← fold_element (drop start items);
        new ← apply_op c x;
        apply_postfix_loop f (take start items ++ new) start
    end.

Definition apply_postfix (items : list GbnfItem) (start : nat) : P (list GbnfItem) :=
  by_unread (fun n => apply_postfix_loop n items start).

(** ** Sequences, alternatives, rules *)

Fixpoint parse_sequence (fuel : nat) (nested : bool) (out : GbnfAlt) {struct fuel} : P (list GbnfItem) :=
  skip_space nested;;
  end_ ← eof; c ← peek 0;
  if end_ || (c =? 124) || (c =? 41) || (c =? 10) then ret out
  else
    match fuel with
    | O => fun _ => OutOfFuel
    | S f =>
        let elem_start := length out in
        out1 ← (if c =? 34 then parse_string out
          else if c =? 91 then it ← parse_class; ret (out ++ [it])
          else if c =? 46 then advance_by 1;; ret (out ++ [CharItem (mkCharSet [] true)])
          else if c =? 40 then
            advance_by 1;;
            alts ← parse_alternates f true;
            skip_space true;;
            c2 ← peek 0;
            if negb (c2 =? 41) then fail ErrExpectedParen
            else advance_by 1;; id ← add_synthetic alts; ret (out ++ [RuleItem id])
          else if is_word_char c then
            name ← take_span is_word_char;
            id ← rule_id name;
            ret (out ++ [RuleItem id])
          else fail (ErrUnexpected c));
        out2 ← apply_postfix out1 elem_start;
        parse_sequence f nested out2
    end
with parse_alternates (fuel : nat) (nested : bool) {struct fuel} : P (list GbnfAlt) :=
  match fuel with
  | O => fun _ => OutOfFuel
  | S f => first ← parse_sequence f nested []; alternates_loop f nested [first]
  end
with alternates_loop (fuel : nat) (nested : bool) (out : list GbnfAlt) {struct fuel} : P (list GbnfAlt) :=
  skip_space nested;;
  c ← peek 0;
  if negb (c =? 124) then ret out
  else
    match fuel with
    | O => fun _ => OutOfFuel
    | S f =>
        advance_by 1;;
        skip_space true;;
        alt ← parse_sequence f nested [];
        alternates_loop f nested (out ++ [alt])
    end.

(** Enough nesting for [n] unread bytes. *)
Definition parse_fuel (n : nat) : nat := (2 * n + 2)%nat.

Definition define (name : list Z) : P () := fun p =>
  if decide (name ∈ defined p) then fail (ErrDefinedTwice name) p
  else Ok () (mkParser (rest p) (rules p) (ids p) ({[name]} ∪ defined p)).

Definition parse_rule : P () :=
  name ← take_span is_word_char;
  match name with
  | [] => fail ErrExpectedName
  | _ =>
      skip_space false;;
      c0 ← peek 0; c1 ← peek 1; c2 ← peek 2;
      if negb ((c0 =? 58) && (c1 =? 58) && (c2 =? 61)) then fail (ErrExpectedAssign name)
      else
        advance_by 3;;
        skip_space true;;
        define name;;
        id ← rule_id name;
        alts ← by_unread (fun n => parse_alternates (parse_fuel n) false);
        set_alts id alts
  end.

Fixpoint parse_grammar_loop (fuel : nat) : P () :=
  end_ ← eof;
  if end_ : bool then ret ()
  else
    match fuel with
    | O => fun _ => OutOfFuel
    | S f => parse_rule;; skip_space true;; parse_grammar_loop f
    end.

Definition parse_grammar : P () :=
  skip_space true;; by_unread parse_grammar_loop.

Inductive GbnfError :=
  | SyntaxError (e : ParseError) (offset : nat)
  | UndefinedRule (name : list Z)
  | NoRoot
  | LeftRecursion (name : list Z)
  | NoStartState.

(** ["root"] *)
Definition root_name : list Z := [114; 111; 111; 116].

Inductive ParseResult :=
  | Parsed (rules : list GbnfRule) (root : nat)
  | Rejected (e : GbnfError)
  | ParseThrows
  | ParseFuel.

Definition undefined_rule (r : GbnfRule) : bool :=
  match rule_name r, alts r with _ :: _, [] => true | _, _ => false end.

Definition parse_gbnf (src : list Z) : ParseResult :=
  match parse_grammar (mkParser src [] ∅ ∅) with
  | Failed e u => Rejected (SyntaxError e (length src - u))
  | Throws => ParseThrows
  | OutOfFuel => ParseFuel
  | Ok _ p =>
      match list_find (fun r => Is_true (undefined_rule r)) (rules p) with
      | Some (_, r) => Rejected (UndefinedRule (rule_name r))
      | None =>
          match ids p !! root_name with
          | None => Rejected NoRoot
          | Some root => Parsed (rules p) root
          end
      end
  end.
