(* ===== verification/GbnfMatcher.v ===== *)
(** * GBNF matching: compiled grammars and the byte-level matcher

    Models [GbnfGrammar::compile], [lead_bytes] and the class [GbnfMatcher] of
    [compute/gbnf_grammar.cpp]: UTF-8 assembly over the simulator of [GbnfSim],
    with the half-read codepoint carried from one text to the next.  Operations
    that run the simulator take its fuel and return [None] when it is short;
    the arena they extend is part of the matcher. *)

From Corelib Require Import ssreflect_rw.
From stdpp Require Import prelude gmap list sorting.
From S2P Require Import Prelude Gbnf GbnfSim GbnfParser.
Open Scope Z_scope.

(** ** Compilation *)

Record GbnfGrammar := mkGrammar {
  rules_ : list GbnfRule;
  nullable_ : list bool;
  root_ : nat;
}.

Inductive CompileResult (A : Type) :=
  | Compiled (a : A)
  | Refused (e : GbnfError)
  | CompileThrows
  | CompileFuel.
Arguments Compiled {A}. Arguments Refused {A}. Arguments CompileThrows {A}. Arguments CompileFuel {A}.

Definition name_of (rules : list GbnfRule) (r : nat) : list Z :=
  match rules !! r with Some ru => rule_name ru | None => [] end.

Definition grammar_compile (src : list Z) : CompileResult GbnfGrammar :=
  match parse_gbnf src with
  | Rejected e => Refused e
  | ParseThrows => CompileThrows
  | ParseFuel => CompileFuel
  | Parsed rules root =>
      let nul := compute_nullable rules in
      match check_left_recursion rules nul with
      | Some None => Compiled (mkGrammar rules nul root)
      | Some (Some r) => Refused (LeftRecursion (name_of rules r))
      | None => CompileFuel
      end
  end.

(** ** The byte matcher *)

Record GbnfPartial := mkPartial { value : Z; min_cp : Z; remaining : nat }.

Definition no_partial : GbnfPartial := mkPartial 0 0 0.

Record GbnfMatcher := mkMatcher {
  grammar_ : GbnfGrammar;
  memo_ : Memo;
  stacks_ : GbnfStackSet;
  partial_ : GbnfPartial;
}.

Definition kMaxCodepoint : Z := 1114111.

(** Continuation bytes after a lead byte; [None] marks an invalid lead. *)
Definition utf8_extra (b : Z) : option nat :=
  if b <? 128 then Some 0%nat
  else if b <? 194 then None
  else if b <? 224 then Some 1%nat
  else if b <? 240 then Some 2%nat
  else if b <? 245 then Some 3%nat
  else None.

Definition utf8_min (extra : nat) : Z :=
  match extra with 1%nat => 128 | 2%nat => 2048 | _ => 65536 end.

Section Run.
Context (fuel : nat).

Definition compile (src : list Z) : option (CompileResult GbnfMatcher) :=
  match grammar_compile src with
  | Refused e => Some (Refused e)
  | CompileThrows => Some CompileThrows
  | CompileFuel => None
  | Compiled g =>
      '(m, stacks) ← start_set (rules_ g) (root_ g) fuel memo_empty;
      match stacks with
      | [] => Some (Refused NoStartState)
      | _ => Some (Compiled (mkMatcher g m stacks no_partial))
      end
  end.

Definition reset (mt : GbnfMatcher) : option GbnfMatcher :=
  '(m, stacks) ← start_set (rules_ (grammar_ mt)) (root_ (grammar_ mt)) fuel (memo_ mt);
  Some (mkMatcher (grammar_ mt) m stacks no_partial).

(** The check on a text that ends mid-character. *)
Definition partial_live (g : GbnfGrammar) (m : Memo) (stacks : GbnfStackSet) (pa : GbnfPartial) : bool :=
  let shift := u32 (6 * Z.of_nat (remaining pa)) in
  let top := u32 (Z.shiftl (value pa) shift) in
  let lo := Z.max top (min_cp pa) in
  let hi := Z.min (Z.lor top (u32 (Z.shiftl 1 shift - 1))) kMaxCodepoint in
  negb (hi <? lo) && can_consume_range (rules_ g) m stacks lo hi.

(** The inner [None]: the text leaves the language. *)
Fixpoint run (g : GbnfGrammar) (text : list Z) (stacks : GbnfStackSet) (pa : GbnfPartial) (m : Memo)
    : option (Memo * option (GbnfStackSet * GbnfPartial)) :=
  match text with
  | [] =>
      if (0 <? remaining pa)%nat && negb (partial_live g m stacks pa) then Some (m, None)
      else Some (m, Some (stacks, pa))
  | b :: text' =>
      match remaining pa with
      | S r =>
          if negb (Z.land b 192 =? 128) then Some (m, None)
          else
            let v := u32 (Z.lor (Z.shiftl (value pa) 6) (Z.land b 63)) in
            match r with
            | O =>
                if (v <? min_cp pa) || (kMaxCodepoint <? v) then Some (m, None)
                else
                  '(m', next) ← step_into (rules_ g) fuel stacks v m;
                  match next with
                  | [] => Some (m', None)
                  | _ => run g text' next (mkPartial v (min_cp pa) 0) m'
                  end
            | _ => run g text' stacks (mkPartial v (min_cp pa) r) m
            end
      | O =>
          match utf8_extra b with
          | None => Some (m, None)
          | Some O =>
              '(m', next) ← step_into (rules_ g) fuel stacks b m;
              match next with
              | [] => Some (m', None)
              | _ => run g text' next pa m'
              end
          | Some extra =>
              run g text' stacks (mkPartial (Z.land b (Z.shiftr 63 (Z.of_nat extra))) (utf8_min extra) extra) m
          end
      end
  end.

Definition would_accept (text : list Z) (mt : GbnfMatcher) : option (bool * GbnfMatcher) :=
  '(m, r) ← run (grammar_ mt) text (stacks_ mt) (partial_ mt) (memo_ mt);
  Some (match r with Some _ => true | None => false end,
        mkMatcher (grammar_ mt) m (stacks_ mt) (partial_ mt)).

Definition update_text (text : list Z) (mt : GbnfMatcher) : option (bool * GbnfMatcher) :=
  '(m, r) ← run (grammar_ mt) text (stacks_ mt) (partial_ mt) (memo_ mt);
  match r with
  | Some (stacks, pa) => Some (true, mkMatcher (grammar_ mt) m stacks pa)
  | None => Some (false, mkMatcher (grammar_ mt) m (stacks_ mt) (partial_ mt))
  end.

End Run.

Definition is_done (mt : GbnfMatcher) : bool :=
  (remaining (partial_ mt) =? 0)%nat && accepts (stacks_ mt).

(** [mark_lead]: does the codepoint block a lead byte opens meet the set? *)
Definition mark_lead (cs : GbnfCharSet) (base span min_cp : Z) : bool :=
  let lo := Z.max base min_cp in
  let hi := Z.min (Z.lor base span) kMaxCodepoint in
  (lo <=? hi) && intersects cs lo hi.

Definition lead_allowed (cs : GbnfCharSet) (b : Z) : bool :=
  if b <? 128 then matches cs b
  else if (194 <=? b) && (b <=? 223) then mark_lead cs (Z.shiftl (Z.land b 31) 6) 63 128
  else if (224 <=? b) && (b <=? 239) then mark_lead cs (Z.shiftl (Z.land b 15) 12) 4095 2048
  else if (240 <=? b) && (b <=? 244) then mark_lead cs (Z.shiftl (Z.land b 7) 18) 262143 65536
  else false.

(** [GbnfGrammar::lead_bytes]: the table of the 256 bytes. *)
Definition grammar_lead_bytes (g : GbnfGrammar) (m : Memo) (stacks : GbnfStackSet) : list bool :=
  (fun b => existsb (fun s =>
      match top_item (rules_ g) m s with Some (CharItem cs) => lead_allowed cs (Z.of_nat b) | _ => false end)
    stacks) <$> seq 0 256.

Definition lead_bytes (mt : GbnfMatcher) : list bool :=
  if (0 <? remaining (partial_ mt))%nat then
    (fun b => Z.land (Z.of_nat b) 192 =? 128) <$> seq 0 256
  else grammar_lead_bytes (grammar_ mt) (memo_ mt) (stacks_ mt).

Definition state_key (mt : GbnfMatcher) : list Z :=
  Z.of_nat (remaining (partial_ mt)) :: value (partial_ mt) :: min_cp (partial_ mt) :: stacks_ mt.

(** ** Codepoints as bytes *)

(** UTF-8, the encoding the matcher reassembles. *)
Definition encode (cp : Z) : list Z :=
  if cp <? 128 then [cp]
  else if cp <? 2048 then [192 + cp / 64; 128 + cp mod 64]
  else if cp <? 65536 then [224 + cp / 4096; 128 + cp / 64 mod 64; 128 + cp mod 64]
  else [240 + cp / 262144; 128 + cp / 4096 mod 64; 128 + cp / 64 mod 64; 128 + cp mod 64].

Definition encode_all (w : list Z) : list Z := concat (encode <$> w).

Definition codepoint (cp : Z) : Prop := 0 <= cp <= kMaxCodepoint.
