(* ===== verification/GbnfLive.v ===== *)
(** * GBNF matching: the live stacks after a word

    The stacks a grammar can be in after the codepoints [w], what they say of
    the words still to come, and the relation [sim] between a stack set of the
    simulator and these stacks, preserved by every simulator step. *)

From Corelib Require Import ssreflect_rw.
From stdpp Require Import prelude gmap list sorting relations.
From S2P Require Import Prelude Gbnf GbnfSim GbnfStacks GbnfRefine.
Open Scope Z_scope.

Section Live.
Context (rules : list GbnfRule) (root : nat).

Inductive live : list Z -> stack -> Prop :=
  | live_start k : start_stack rules root k -> live [] k
  | live_step w c p ps cs k :
      live w (p :: ps) -> item_at rules p = Some (CharItem cs) -> matches cs c = true ->
      closure rules (advance p :: ps) k -> live (w ++ [c]) k.

(** A derivation of [w] from the root that stays below the depth guard. *)
Definition root_fits (w : list Z) : Prop := exists alt, alt ∈ alts_of rules root /\ fits rules 1 alt w.

Lemma live_final w k : live w k -> final rules k.
Proof. by destruct 1 as [k (a & _ & _ & ?)|w c p ps cs k _ _ _ [_ ?]]. Qed.

Lemma rtc_eps_wf k k' : stack_wf rules k -> rtc (eps rules) k k' -> stack_wf rules k'.
Proof. intros Hwf H. induction H; eauto using eps_wf. Qed.

Lemma live_wf w k : live w k -> stack_wf rules k.
Proof.
  induction 1 as [k (a & _ & Hr & _)|w c p ps cs k _ IH _ _ [Hr _]].
  - eapply rtc_eps_wf; [apply start_wf|done].
  - eapply rtc_eps_wf; [by apply advance_wf|done].
Qed.

Lemma live_sound w k v :
  live w k -> derives rules (stack_items rules k) v -> derives rules [RuleItem root] (w ++ v).
Proof.
  intros H. revert v. induction H as [k (a & Ha & Hc)|w c p ps cs k _ IH Hp Hm Hc]; intros v Hv.
  - simpl. apply (closure_sound _ _ _ _ Hc) in Hv. simpl in Hv. rewrite app_nil_r in Hv.
    apply lookup_lt_is_Some in Ha as [alt Ha]. rewrite (rest_new _ _ _ _ Ha) in Hv.
    apply derives_single_rule. exists alt. split; [by eapply list_elem_of_lookup_2|done].
  - rewrite <- app_assoc. apply IH. eapply consume_sound; [done..|]. by eapply closure_sound.
Qed.

Lemma live_snoc_inv w c k :
  live (w ++ [c]) k -> exists p ps cs, live w (p :: ps) /\ item_at rules p = Some (CharItem cs) /\
    matches cs c = true /\ closure rules (advance p :: ps) k.
Proof.
  inversion 1 as [? ? E|w' c' p ps cs k' H1 H2 H3 H4 E]; subst; [by destruct w|].
  apply app_inj_tail in E as [-> ->]. eauto 10.
Qed.

Lemma live_complete w v : root_fits (w ++ v) -> exists k, live w k /\ stack_fits rules k v.
Proof.
  revert v. induction w as [|c w IH] using rev_ind; intros v (alt & Ha & Hf).
  - simpl in Hf. apply list_elem_of_lookup_1 in Ha as [a Ha].
    destruct (closure_complete rules [mkPos root a 0] v) as (k & Hc & Hk).
    + apply start_wf.
    + exists v, []. rewrite (rest_new _ _ _ _ Ha), app_nil_r. done.
    + exists k. split; [|done]. constructor. exists a. split; [by eapply lookup_lt_Some|done].
  - rewrite <- app_assoc in Hf. destruct (IH (c :: v)) as (k & Hl & Hk); [by exists alt|].
    destruct (consume_complete rules k c v) as (p & ps & cs & -> & Hp & Hm & Hk'); [by eapply live_final|done|].
    destruct (closure_complete rules (advance p :: ps) v) as (k' & Hc & Hk'').
    + apply advance_wf. by eapply live_wf.
    + done.
    + exists k'. split; [|done]. by econstructor.
Qed.

Lemma live_empty_derives w : live w [] -> derives rules [RuleItem root] w.
Proof. intros H. rewrite <- (app_nil_r w). eapply live_sound; [done|constructor]. Qed.

Lemma fits_live_empty w : root_fits w -> live w [].
Proof.
  intros H. rewrite <- (app_nil_r w) in H. apply live_complete in H as (k & Hl & Hk).
  by rewrite <- (final_empty rules k (live_final _ _ Hl) Hk).
Qed.

(** The stack sets stay below the size the simulator truncates at. *)
Definition bounded (w : list Z) : Prop :=
  exists l : list stack, (length l < kMaxStacks)%nat /\ forall k, live w k -> k ∈ l.
Definition all_bounded (w : list Z) : Prop := forall v, v `prefix_of` w -> bounded v.

Lemma all_bounded_snoc w c : all_bounded (w ++ [c]) -> all_bounded w.
Proof. intros H v Hv. apply H. etrans; [done|]. by eexists. Qed.

(** ** Stack sets of the simulator *)

Definition sim (m : Memo) (S : GbnfStackSet) (w : list Z) : Prop :=
  StronglySorted Z.lt S /\
  (forall s, s ∈ S -> exists k, denotes m s k /\ live w k) /\
  (all_bounded w -> forall k, live w k -> exists s, s ∈ S /\ denotes m s k).

Lemma sim_extends m m' S w : extends m m' -> sim m S w -> sim m' S w.
Proof.
  intros He (Hs & H1 & H2). split_and!; [done| |].
  - intros s Hin. destruct (H1 s Hin) as (k & ? & ?). exists k. split; [by eapply denotes_extends|done].
  - intros Hb k Hk. destruct (H2 Hb k Hk) as (s & ? & ?). exists s. split; [done|by eapply denotes_extends].
Qed.

(** Distinct ids denote distinct live stacks, so a bounded set was not truncated. *)
Lemma sim_length m S w :
  memo_wf rules m -> NoDup S -> (forall s, s ∈ S -> exists k, denotes m s k /\ live w k) -> bounded w ->
  (length S < kMaxStacks)%nat.
Proof.
  intros Hwf Hnd H1 (l & Hl & Hin). eapply Nat.le_lt_trans; [|exact Hl].
  assert (exists ks, Forall2 (denotes m) S ks) as [ks Hks].
  { clear Hnd. induction S as [|s S IH]; [by exists []|].
    destruct (H1 s ltac:(by left)) as (k & Hk & _). destruct IH as [ks Hks]; [intros; apply H1; by right|].
    exists (k :: ks). by constructor. }
  rewrite (Forall2_length _ _ _ Hks). apply submseteq_length, NoDup_submseteq.
  - clear H1. induction Hks as [|s k S ks Hk Hks IH]; constructor; apply NoDup_cons in Hnd as [Hs Hnd]; [|auto].
    intros Hin'. apply list_elem_of_lookup_1 in Hin' as [i Hi].
    eapply Forall2_lookup_r in Hks as (s' & Hs' & Hd'); [|done].
    rewrite (denotes_inj rules m s s' k Hwf Hk Hd') in Hs. by apply list_elem_of_lookup_2 in Hs'.
  - intros k Hk. apply list_elem_of_lookup_1 in Hk as [i Hi].
    eapply Forall2_lookup_r in Hks as (s & Hs & Hd); [|done]. apply list_elem_of_lookup_2 in Hs.
    destruct (H1 s Hs) as (k' & Hd' & Hlive). rewrite (denotes_fun _ _ _ _ Hd Hd'). by apply Hin.
Qed.

Lemma sim_start m F :
  memo_wf rules m -> (expand_fuel rules <= F)%nat ->
  exists m' S, start_set rules root F m = Some (m', S) /\ memo_wf rules m' /\ extends m m' /\ sim m' S [].
Proof.
  intros Hwf HF. destruct (start_set_spec rules root m Hwf) as (m' & S & Hst & Hwf' & He & Hs & H1 & H2).
  exists m', S. split; [by eapply start_set_mono|]. split; [done|]. split; [done|]. split_and!; [done| |].
  - intros s Hin. destruct (H1 s Hin) as (k & ? & ?). exists k. split; [done|by constructor].
  - intros _ k Hk. apply H2. inversion Hk as [k' ? E|w c p ps cs k' ? ? ? ? E]; [done|by destruct w].
Qed.

Lemma sim_step m S w c F :
  memo_wf rules m -> sim m S w -> (expand_fuel rules <= F)%nat ->
  exists m' S', step_into rules F S c m = Some (m', S') /\ memo_wf rules m' /\ extends m m' /\
    sim m' S' (w ++ [c]).
Proof.
  intros Hwf (Hs & H1 & H2) HF.
  destruct (step_into_spec rules S c m Hwf) as (m' & S' & Hst & Hwf' & He & Hs' & Hl & Hc).
  { apply Forall_forall. intros s Hin. destruct (H1 s Hin) as (k & ? & _). by exists k. }
  assert (forall s', s' ∈ S' -> exists k, denotes m' s' k /\ live (w ++ [c]) k) as H1'.
  { intros s' Hin. destruct (Hl s' Hin) as (s & Hin0 & p & ps & cs & k' & Hd & Hp & Hm & Hcl & Hd').
    exists k'. split; [done|]. destruct (H1 s Hin0) as (k & Hdk & Hlive).
    rewrite (denotes_fun _ _ _ _ (denotes_extends _ _ _ _ He Hdk) Hd) in Hlive. by econstructor. }
  exists m', S'. split; [by eapply step_into_mono|]. split; [done|]. split; [done|].
  split; [done|]. split; [done|].
  intros Hb k Hk. apply live_snoc_inv in Hk as (p & ps & cs & Hlive & Hp & Hm & Hcl).
  destruct (H2 (all_bounded_snoc _ _ Hb) _ Hlive) as (s & Hin & Hd).
  eapply Hc; [|done|by eapply denotes_extends|done..].
  eapply sim_length; [done|by apply sorted_NoDup|done|]. by apply Hb.
Qed.

Lemma sim_valid m S w s : memo_wf rules m -> sim m S w -> s ∈ S -> -1 <= s.
Proof.
  intros Hwf (_ & H1 & _) Hin. destruct (H1 s Hin) as (k & Hd & _).
  by apply (denotes_range rules m s k Hwf Hd).
Qed.

Lemma sim_accepts m S w : memo_wf rules m -> sim m S w -> accepts S = true -> derives rules [RuleItem root] w.
Proof.
  intros Hwf Hsim Ha. apply accepts_spec in Ha; [|by apply Hsim|].
  - destruct Hsim as (_ & H1 & _). destruct (H1 _ Ha) as (k & Hd & Hlive).
    rewrite (denotes_fun _ _ _ _ Hd (denotes_nil m)) in Hlive. by apply live_empty_derives.
  - apply Forall_forall. intros s. by apply (sim_valid m S w).
Qed.

Lemma sim_accepts_complete m S w :
  memo_wf rules m -> sim m S w -> all_bounded w -> root_fits w -> accepts S = true.
Proof.
  intros Hwf Hsim Hb Hf. apply accepts_spec; [by apply Hsim| |].
  - apply Forall_forall. intros s. by apply (sim_valid m S w).
  - destruct Hsim as (_ & _ & H2). destruct (H2 Hb [] (fits_live_empty _ Hf)) as (s & Hin & Hd).
    by rewrite <- (denotes_inj rules m s (-1) [] Hwf Hd (denotes_nil m)).
Qed.

End Live.
