(* ===== verification/GbnfTable.v ===== *)
(** * GBNF parser: it always stops, and its tables are well-formed

    A weakest-precondition predicate [sat] for the parser monad of [GbnfParser]
    (an error or exception satisfies any postcondition, running out of fuel
    none), and through it: no input exhausts the fuel, and every table the
    parser returns has its rule references in range, its character ranges
    ordered, and a root. *)

From Corelib Require Import ssreflect_rw.
From stdpp Require Import prelude gmap list.
From S2P Require Import Prelude Gbnf GbnfParser.
Open Scope Z_scope.
Local Open Scope parser_scope.

Definition sat {A} (m : P A) (p : Parser) (Q : A -> Parser -> Prop) : Prop :=
  match m p with Ok a p' => Q a p' | OutOfFuel => False | _ => True end.

Lemma sat_bind {A B} (m : P A) (f : A -> P B) p Q :
  sat m p (fun a p' => sat (f a) p' Q) -> sat (bind m f) p Q.
Proof. unfold sat, bind. by destruct (m p). Qed.

Lemma sat_weaken {A} (m : P A) p (Q Q' : A -> Parser -> Prop) :
  sat m p Q -> (forall a p', Q a p' -> Q' a p') -> sat m p Q'.
Proof. unfold sat. destruct (m p); auto. Qed.

Lemma sat_ret {A} (a : A) p (Q : A -> Parser -> Prop) : Q a p -> sat (ret a) p Q.
Proof. done. Qed.

Lemma sat_fail {A} e p (Q : A -> Parser -> Prop) : sat (fail e) p Q.
Proof. done. Qed.

Lemma sat_if {A} (b : bool) (m1 m2 : P A) p Q :
  (b = true -> sat m1 p Q) -> (b = false -> sat m2 p Q) -> sat (if b then m1 else m2) p Q.
Proof. destruct b; auto. Qed.

(** Split a conditional parser, syntactically. *)
Ltac sat_ifs :=
  repeat lazymatch goal with |- sat (if _ then _ else _) _ _ => apply sat_if; let Hc := fresh "Hc" in intros Hc end.

(** ** The invariant of the parser state *)

Record pok (p : Parser) : Prop := {
  pok_rules : rules_ok (rules p);
  pok_ids name id : ids p !! name = Some id -> (id < length (rules p))%nat;
  pok_rest : Forall byte (rest p);
}.

(** [p'] is a later state: no more unread input, no fewer rules. *)
Record later (p p' : Parser) : Prop := {
  later_ok : pok p';
  later_rest : (length (rest p') <= length (rest p))%nat;
  later_rules : (length (rules p) <= length (rules p'))%nat;
}.

Definition unread (p : Parser) : nat := length (rest p).
Definition n_rules (p : Parser) : nat := length (rules p).

(** [p'] differs from [p] by consumed input only. *)
Definition reads (p p' : Parser) : Prop :=
  later p p' /\ rules p' = rules p /\ ids p' = ids p /\ defined p' = defined p.

Lemma later_refl p : pok p -> later p p.
Proof. by constructor. Qed.

Lemma later_trans p1 p2 p3 : later p1 p2 -> later p2 p3 -> later p1 p3.
Proof. intros [] []. constructor; [done|lia|lia]. Qed.

Lemma item_ok_mono n n' it : (n <= n')%nat -> item_ok n it -> item_ok n' it.
Proof. destruct it; simpl; [lia|done]. Qed.

Definition items_ok (p : Parser) (l : list GbnfItem) : Prop := Forall (item_ok (n_rules p)) l.
Definition alts_ok (p : Parser) (l : list GbnfAlt) : Prop := Forall (items_ok p) l.

Lemma items_ok_later p p' l : later p p' -> items_ok p l -> items_ok p' l.
Proof. intros [_ _ Hr] H. eapply Forall_impl; [exact H|]. intros. by eapply item_ok_mono. Qed.

Lemma alts_ok_later p p' l : later p p' -> alts_ok p l -> alts_ok p' l.
Proof. intros Hl H. eapply Forall_impl; [exact H|]. intros. by eapply items_ok_later. Qed.

Lemma rules_ok_grow (rs rs' : list GbnfRule) :
  rules_ok rs -> (length rs <= length rs')%nat ->
  Forall (fun ru => Forall (Forall (item_ok (length rs'))) (alts ru)) rs.
Proof.
  intros H Hl. eapply Forall_impl; [exact H|]. intros ru Hru. eapply Forall_impl; [exact Hru|].
  intros alt Ha. eapply Forall_impl; [exact Ha|]. intros. by eapply item_ok_mono.
Qed.

Lemma pok_with_rest p r : pok p -> Forall byte r -> pok (with_rest r p).
Proof. intros [H1 H2 _] Hr. constructor; [apply H1|apply H2|done]. Qed.

(** ** Reading without changing the table *)

Lemma sat_peek off p (Q : Z -> Parser -> Prop) :
  Q (peek_at (rest p) off) p -> sat (peek off) p Q.
Proof. done. Qed.

Lemma sat_eof p (Q : bool -> Parser -> Prop) :
  (rest p = [] -> Q true p) -> (rest p <> [] -> Q false p) -> sat eof p Q.
Proof. unfold sat, eof. intros. destruct (rest p) eqn:E; auto. Qed.

Lemma peek_byte p off : pok p -> byte (peek_at (rest p) off).
Proof.
  intros Hp. unfold peek_at. destruct (rest p !! off) as [b|] eqn:E; simpl; [|done].
  destruct Hp as [_ _ Hr]. rewrite Forall_forall in Hr. apply Hr. by eapply list_elem_of_lookup_2.
Qed.

Lemma peek_nonempty p : rest p = [] -> peek_at (rest p) 0 = 0.
Proof. unfold peek_at. by intros ->. Qed.

Lemma sat_advance n p (Q : () -> Parser -> Prop) :
  pok p ->
  (forall p', reads p p' ->
     unread p' = (unread p - n)%nat -> Q () p') -> sat (advance_by n) p Q.
Proof.
  intros Hp HQ. unfold sat, advance_by. assert (pok (with_rest (drop n (rest p)) p)) as Hp'.
  { apply pok_with_rest; [done|]. apply Forall_drop, Hp. }
  apply HQ; [split; [|done]; constructor; simpl; [done|rewrite length_drop; lia|done]|].
  unfold unread. simpl. by rewrite length_drop.
Qed.

Lemma skip_space_suffix nl c s : exists n, skip_space_from nl c s = drop n s.
Proof.
  revert c. induction s as [|b s IH]; intros c; simpl; [by exists O|].
  repeat case_match; try (by exists O);
    match goal with |- context [skip_space_from nl ?c s] => destruct (IH c) as [n ->]; by exists (S n) end.
Qed.

Lemma sat_skip_space nl p (Q : () -> Parser -> Prop) :
  pok p ->
  (forall p', reads p p' -> Q () p') ->
  sat (skip_space nl) p Q.
Proof.
  intros Hp HQ. unfold sat, skip_space. destruct (skip_space_suffix nl false (rest p)) as [n ->].
  apply HQ. split; [|done]. constructor; simpl; [|rewrite length_drop; lia|done].
  apply pok_with_rest; [done|]. apply Forall_drop, Hp.
Qed.

Lemma span_bytes_spec f s : let (a, b) := span_bytes f s in s = a ++ b /\ Forall (fun c => f c = true) a.
Proof.
  induction s as [|c s IH]; simpl; [done|]. destruct (f c) eqn:E; [|done].
  destruct (span_bytes f s) as [a b]. destruct IH as [-> IH]. split; [done|by constructor].
Qed.

Lemma span_bytes_first f s c : peek_at s 0 = c -> s <> [] -> f c = true -> (span_bytes f s).1 <> [].
Proof.
  unfold peek_at. destruct s as [|c' s]; [done|]. simpl. intros -> _ ->. by destruct (span_bytes f s).
Qed.

Lemma sat_take_span f p (Q : list Z -> Parser -> Prop) :
  pok p ->
  (forall a p', reads p p' ->
     Forall (fun c => f c = true) a -> unread p = (length a + unread p')%nat ->
     (rest p <> [] -> f (peek_at (rest p) 0) = true -> a <> []) -> Q a p') ->
  sat (take_span f) p Q.
Proof.
  intros Hp HQ. unfold sat, take_span. pose proof (span_bytes_spec f (rest p)) as Hs.
  pose proof (span_bytes_first f (rest p) _ eq_refl) as Hne.
  destruct (span_bytes f (rest p)) as [a b] eqn:E. destruct Hs as [Hs Ha].
  assert (pok (with_rest b p)) as Hp'.
  { apply pok_with_rest; [done|]. destruct Hp as [_ _ Hr]. rewrite Hs in Hr. by apply Forall_app in Hr as [_ ?]. }
  apply HQ; [split; [|done]|done| |by apply Hne].
  - constructor; simpl; [done|rewrite Hs, length_app; lia|done].
  - unfold unread. simpl. by rewrite Hs, length_app.
Qed.

Lemma reads_refl p : pok p -> reads p p.
Proof. intros. split; [by apply later_refl|done]. Qed.

Lemma reads_trans p1 p2 p3 : reads p1 p2 -> reads p2 p3 -> reads p1 p3.
Proof. intros (L1 & ? & ? & ?) (L2 & ? & ? & ?). split; [by eapply later_trans|]. split_and!; congruence. Qed.

Lemma reads_later p p' : reads p p' -> later p p'.
Proof. by intros [? _]. Qed.

Lemma reads_ok p p' : reads p p' -> pok p'.
Proof. intros [[? _ _] _]. done. Qed.

Definition word32 (v : Z) : Prop := 0 <= v < two32.

Lemma u32_word z : word32 (u32 z).
Proof. apply u32_range. Qed.

Lemma sat_hex d out p (Q : Z -> Parser -> Prop) :
  pok p -> word32 out -> (forall v p', reads p p' -> word32 v -> Q v p') -> sat (hex d out) p Q.
Proof.
  revert out p. induction d as [|d IH]; intros out p Hp Ho HQ; simpl; [apply HQ; [by apply reads_refl|done]|].
  apply sat_bind, sat_peek. destruct (hex_digit _) as [v|]; [|done].
  apply sat_bind, sat_advance; [done|]. intros p1 Hr _. apply IH; [by eapply reads_ok|apply u32_word|].
  intros w p' Hr'. apply HQ. by eapply reads_trans.
Qed.

Lemma sat_utf8_tail d cp p (Q : Z -> Parser -> Prop) :
  pok p -> word32 cp -> (forall v p', reads p p' -> word32 v -> Q v p') -> sat (utf8_tail d cp) p Q.
Proof.
  revert cp p. induction d as [|d IH]; intros cp p Hp Ho HQ; simpl; [apply HQ; [by apply reads_refl|done]|].
  apply sat_bind, sat_peek, sat_bind, sat_eof; intros _; apply sat_if; try done.
  intros _. apply sat_bind, sat_advance; [done|]. intros p1 Hr _.
  apply IH; [by eapply reads_ok|apply u32_word|]. intros w p' Hr'. apply HQ. by eapply reads_trans.
Qed.

Lemma land_ones_word b k : 0 <= k <= 31 -> word32 (Z.land b (Z.ones k)).
Proof.
  intros Hk. rewrite Z.land_ones by lia. pose proof (Z.mod_pos_bound b (2 ^ k) ltac:(lia)).
  assert (2 ^ k <= 2 ^ 31) by (apply Z.pow_le_mono_r; lia). unfold word32, two32. lia.
Qed.

Lemma sat_read_char p (Q : Z -> Parser -> Prop) :
  pok p -> (forall v p', reads p p' -> (unread p' < unread p)%nat -> word32 v -> Q v p') ->
  sat read_char p Q.
Proof.
  intros Hp HQ. unfold read_char. apply sat_bind, sat_eof; intros He; apply sat_bind, sat_peek; [done|].
  assert (0 < unread p)%nat as Hlen.
  { unfold unread. by destruct (rest p); [|simpl; lia]. }
  pose proof (peek_byte p 0 Hp) as Hb. set (b := peek_at (rest p) 0) in *.
  apply sat_if; intros _; apply sat_bind, sat_advance; try done; intros p1 H1 U1;
    pose proof (reads_ok _ _ H1) as Hp1.
  - sat_ifs;
      first [ apply sat_ret, HQ; [done|lia|unfold byte, word32, two32 in *; lia]
            | apply sat_utf8_tail;
              [done|first [by apply (land_ones_word _ 3)|by apply (land_ones_word _ 4)|by apply (land_ones_word _ 5)]|];
              intros v p' Hr Hv; apply HQ; [by eapply reads_trans| |done];
              destruct Hr as [[_ Hr _] _]; unfold unread in *; lia
            | done ].
  - apply sat_bind, sat_eof; intros He1; apply sat_bind, sat_peek; [done|].
    pose proof (peek_byte p1 0 Hp1) as Hb1. set (e := peek_at (rest p1) 0) in *.
    apply sat_bind, sat_advance; [done|]. intros p2 H2 U2. pose proof (reads_ok _ _ H2) as Hp2.
    assert (reads p p2) as H12 by (by eapply reads_trans). assert (unread p2 < unread p)%nat as U12 by lia.
    sat_ifs;
      first [ apply sat_ret, HQ; [done|done|unfold byte, word32, two32 in *; lia]
            | apply sat_hex; [done|unfold word32, two32; lia|]; intros v p' Hr Hv; apply HQ; [by eapply reads_trans| |done];
              destruct Hr as [[_ Hr _] _]; unfold unread in *; lia ].
Qed.

(** ** Literals and classes *)

Lemma char_item_ok n cp : word32 cp -> item_ok n (char_item cp).
Proof. intros H. simpl. constructor; [|constructor]. unfold range_ok, word32 in *. simpl. lia. Qed.

Lemma items_ok_reads p p' l : reads p p' -> items_ok p l -> items_ok p' l.
Proof. intros Hr. apply items_ok_later. by apply reads_later. Qed.

Lemma items_ok_app p l1 l2 : items_ok p l1 -> items_ok p l2 -> items_ok p (l1 ++ l2).
Proof. intros. by apply Forall_app. Qed.

Lemma reads_unread p p' : reads p p' -> (unread p' <= unread p)%nat.
Proof. by intros [[_ ? _] _]. Qed.

Lemma unread_nil p : rest p = [] -> unread p = 0%nat.
Proof. unfold unread. by intros ->. Qed.

Lemma unread_pos p : rest p <> [] -> (0 < unread p)%nat.
Proof. unfold unread. destruct (rest p); simpl; [done|lia]. Qed.

Lemma sat_string_loop fuel items p (Q : list GbnfItem -> Parser -> Prop) :
  pok p -> items_ok p items -> (unread p <= fuel)%nat ->
  (forall its p', reads p p' -> (unread p' < unread p)%nat -> items_ok p' its -> Q its p') ->
  sat (parse_string_loop fuel items) p Q.
Proof.
  revert items p. induction fuel as [|fuel IH]; intros items p Hp Hi Hf HQ; simpl;
    apply sat_bind, sat_eof; intros He; apply sat_bind, sat_peek; try done;
    pose proof (unread_pos _ He); [lia|]. sat_ifs.
  - apply sat_bind, sat_advance; [done|]. intros p1 H1 U1. apply sat_ret, HQ; [done|lia|].
    by eapply items_ok_reads.
  - apply sat_bind, sat_read_char; [done|]. intros cp p1 H1 U1 Hw. apply IH; [by eapply reads_ok| |lia|].
    + apply items_ok_app; [by eapply items_ok_reads|]. constructor; [by apply char_item_ok|constructor].
    + intros its p' H' U'. apply HQ; [by eapply reads_trans|lia].
Qed.

Lemma sat_parse_string items p (Q : list GbnfItem -> Parser -> Prop) :
  pok p -> rest p <> [] -> items_ok p items ->
  (forall its p', reads p p' -> (unread p' < unread p)%nat -> items_ok p' its -> Q its p') ->
  sat (parse_string items) p Q.
Proof.
  intros Hp He Hi HQ. apply sat_bind, sat_advance; [done|]. intros p1 H1 U1. pose proof (unread_pos _ He).
  unfold by_unread, sat. apply sat_string_loop; [by eapply reads_ok|by eapply items_ok_reads|done|].
  intros its p' H' U'. apply HQ; [by eapply reads_trans|lia].
Qed.

Lemma sat_class_loop fuel rs p (Q : list (Z * Z) -> Parser -> Prop) :
  pok p -> Forall range_ok rs -> (unread p <= fuel)%nat ->
  (forall rs' p', reads p p' -> Forall range_ok rs' -> Q rs' p') ->
  sat (parse_class_loop fuel rs) p Q.
Proof.
  revert rs p. induction fuel as [|fuel IH]; intros rs p Hp Hi Hf HQ; simpl;
    apply sat_bind, sat_eof; intros He; apply sat_bind, sat_peek; try done;
    pose proof (unread_pos _ He); [lia|]. sat_ifs.
  - apply sat_bind, sat_advance; [done|]. intros p1 H1 U1. apply sat_ret, HQ; done.
  - apply sat_bind, sat_read_char; [done|]. intros lo p1 H1 U1 Hlo. pose proof (reads_ok _ _ H1) as Hp1.
    do 2 apply sat_bind, sat_peek. apply sat_bind.
    assert (forall hi p2, reads p p2 -> (unread p2 < unread p)%nat -> word32 hi ->
      sat (if hi <? lo then fail ErrInvertedRange else parse_class_loop fuel (rs ++ [(lo, hi)])) p2 Q) as Hnext.
    { intros hi p2 H2 U2 Hhi. apply sat_if; [done|]. intros Hle%Z.ltb_ge. apply IH; [by eapply reads_ok| |lia|].
      - apply Forall_app. split; [done|]. constructor; [|constructor]. unfold range_ok, word32 in *. simpl. lia.
      - intros rs' p' H' Hrs. apply HQ; [by eapply reads_trans|done]. }
    sat_ifs.
    + apply sat_bind, sat_advance; [done|]. intros p2 H2 U2. apply sat_read_char; [by eapply reads_ok|].
      intros hi p3 H3 U3 Hhi. apply Hnext; [|lia|done]. eapply reads_trans; [done|]. by eapply reads_trans.
    + apply sat_ret. by apply Hnext.
Qed.

Lemma sat_parse_class p (Q : GbnfItem -> Parser -> Prop) :
  pok p -> rest p <> [] ->
  (forall it p', reads p p' -> (unread p' < unread p)%nat -> item_ok (n_rules p') it -> Q it p') ->
  sat parse_class p Q.
Proof.
  intros Hp He HQ. pose proof (unread_pos _ He).
  apply sat_bind, sat_advance; [done|]. intros p1 H1 U1. apply sat_bind, sat_peek, sat_bind.
  pose proof (reads_ok _ _ H1) as Hp1.
  assert (forall p2, reads p1 p2 -> sat (bind (by_unread (fun n => parse_class_loop n []))
    (fun rs => ret (CharItem (mkCharSet rs (peek_at (rest p1) 0 =? 94))))) p2 Q) as Hnext.
  { intros p2 H2. apply sat_bind. unfold by_unread, sat. apply sat_class_loop; [by eapply reads_ok|constructor|done|].
    intros rs p3 H3 Hrs. apply HQ; [|pose proof (reads_unread _ _ H2); pose proof (reads_unread _ _ H3); lia|done].
    eapply reads_trans; [done|]. by eapply reads_trans. }
  sat_ifs.
  - apply sat_advance; [done|]. intros p2 H2 _. by apply Hnext.
  - apply sat_ret, Hnext. by apply reads_refl.
Qed.

(** ** Rules *)

Lemma sat_add_synthetic a p (Q : nat -> Parser -> Prop) :
  pok p -> alts_ok p a ->
  (forall id p', later p p' -> unread p' = unread p -> (id < n_rules p')%nat -> Q id p') ->
  sat (add_synthetic a) p Q.
Proof.
  intros Hp Ha HQ. unfold sat, add_synthetic. set (p' := mkParser _ _ _ _).
  assert (n_rules p' = S (n_rules p)) as Hn by (unfold n_rules, p'; simpl; rewrite length_app; simpl; lia).
  apply HQ; [|done|unfold n_rules in *; lia]. constructor; [|done|unfold n_rules in *; lia].
  destruct Hp as [Hr Hi Hs]. constructor.
  - unfold rules_ok. simpl. apply Forall_app. split.
    + apply rules_ok_grow; [done|]. rewrite length_app. simpl. lia.
    + constructor; [|constructor]. simpl. eapply Forall_impl; [exact Ha|]. intros alt Halt.
      eapply Forall_impl; [exact Halt|]. intros it. apply item_ok_mono. rewrite length_app. unfold n_rules. simpl. lia.
  - simpl. intros name id Hid. rewrite length_app. specialize (Hi name id Hid). simpl. lia.
  - done.
Qed.

Lemma sat_set_alts id a p (Q : () -> Parser -> Prop) :
  pok p -> alts_ok p a -> (forall p', later p p' -> unread p' = unread p -> n_rules p' = n_rules p -> Q () p') ->
  sat (set_alts id a) p Q.
Proof.
  intros Hp Ha HQ. unfold sat, set_alts. set (p' := mkParser _ _ _ _).
  assert (n_rules p' = n_rules p) as Hn by (unfold n_rules, p'; simpl; by rewrite length_alter).
  apply HQ; [|done|done]. constructor; [|done|unfold n_rules in *; lia]. destruct Hp as [Hr Hi Hs]. constructor.
  - unfold rules_ok. simpl. rewrite length_alter. apply Forall_lookup. intros i ru Hru.
    destruct (decide (i = id)) as [->|].
    + rewrite list_lookup_alter_eq in Hru. apply fmap_Some in Hru as (ru0 & _ & ->). done.
    + rewrite list_lookup_alter_ne in Hru by done. unfold rules_ok in Hr. rewrite Forall_lookup in Hr. by eapply Hr.
  - simpl. rewrite length_alter. done.
  - done.
Qed.

Lemma sat_rule_id name p (Q : nat -> Parser -> Prop) :
  pok p -> (forall id p', later p p' -> unread p' = unread p -> (id < n_rules p')%nat -> Q id p') ->
  sat (rule_id name) p Q.
Proof.
  intros Hp HQ. unfold sat, rule_id. destruct (ids p !! name) as [id|] eqn:E.
  { apply HQ; [by apply later_refl|done|]. by eapply pok_ids. }
  set (p' := mkParser _ _ _ _).
  assert (n_rules p' = S (n_rules p)) as Hn by (unfold n_rules, p'; simpl; rewrite length_app; simpl; lia).
  apply HQ; [|done|unfold n_rules in *; lia]. constructor; [|done|unfold n_rules in *; lia].
  destruct Hp as [Hr Hi Hs]. constructor.
  - unfold rules_ok. simpl. apply Forall_app. split; [|by repeat constructor].
    apply rules_ok_grow; [done|]. rewrite length_app. simpl. lia.
  - simpl. intros name' id. rewrite length_app, lookup_insert_Some.
    intros [[_ <-]|[_ Hid]]; simpl; [lia|]. specialize (Hi _ _ Hid). lia.
  - done.
Qed.

Lemma items_ok_cons p it l : item_ok (n_rules p) it -> items_ok p l -> items_ok p (it :: l).
Proof. by constructor. Qed.

Lemma items_ok_replicate p it n : item_ok (n_rules p) it -> items_ok p (replicate n it).
Proof. intros H. induction n; constructor; done. Qed.

Lemma item_ok_later p p' it : later p p' -> item_ok (n_rules p) it -> item_ok (n_rules p') it.
Proof. intros [_ _ ?]. by apply item_ok_mono. Qed.

Lemma sat_make_opt x tail p (Q : nat -> Parser -> Prop) :
  pok p -> item_ok (n_rules p) x -> (forall t, tail = Some t -> (t < n_rules p)%nat) ->
  (forall id p', later p p' -> unread p' = unread p -> (id < n_rules p')%nat -> Q id p') ->
  sat (make_opt x tail) p Q.
Proof.
  intros Hp Hx Ht HQ. apply sat_add_synthetic; [done| |done].
  constructor; [constructor|]. constructor; [|constructor]. apply items_ok_cons; [done|].
  destruct tail as [t|]; [|constructor]. constructor; [simpl; auto|constructor].
Qed.

Lemma sat_make_star x p (Q : nat -> Parser -> Prop) :
  pok p -> item_ok (n_rules p) x ->
  (forall id p', later p p' -> unread p' = unread p -> (id < n_rules p')%nat -> Q id p') ->
  sat (make_star x) p Q.
Proof.
  intros Hp Hx HQ. apply sat_bind, sat_add_synthetic; [done|constructor|]. intros id p1 H1 U1 Hid.
  apply sat_bind, sat_set_alts; [apply H1| |].
  - constructor; [constructor|]. constructor; [|constructor].
    apply items_ok_cons; [by eapply item_ok_later|]. apply items_ok_cons; [done|constructor].
  - intros p2 H2 U2 N2. apply sat_ret, HQ; [by eapply later_trans|congruence|by rewrite N2].
Qed.

Lemma sat_opt_chain n x tail p (Q : option nat -> Parser -> Prop) :
  pok p -> item_ok (n_rules p) x -> (forall t, tail = Some t -> (t < n_rules p)%nat) ->
  (forall t p', later p p' -> unread p' = unread p -> items_ok p' (rule_items t) -> Q t p') ->
  sat (opt_chain n x tail) p Q.
Proof.
  revert tail p. induction n as [|n IH]; intros tail p Hp Hx Ht HQ; simpl.
  - apply sat_ret, HQ; [by apply later_refl|done|]. destruct tail as [t|]; [|constructor].
    apply items_ok_cons; [simpl; auto|constructor].
  - apply sat_bind, sat_make_opt; [done..|]. intros id p1 H1 U1 Hid.
    apply IH; [apply H1|by eapply item_ok_later|by intros t [= <-]|].
    intros t p' H' U'. apply HQ; [by eapply later_trans|congruence].
Qed.

Lemma sat_lift_stoi ds p (Q : Z -> Parser -> Prop) :
  (forall v, stoi ds = Some v -> Q v p) -> sat (lift_stoi ds) p Q.
Proof. unfold sat, lift_stoi. destruct (stoi ds); auto. Qed.

(** ** Repetition *)

Lemma sat_repeat_bounds p (Q : Z * Z -> Parser -> Prop) :
  pok p -> rest p <> [] ->
  (forall b p', reads p p' -> (unread p' < unread p)%nat -> Q b p') -> sat parse_repeat_bounds p Q.
Proof.
  intros Hp He HQ. pose proof (unread_pos _ He).
  apply sat_bind, sat_advance; [done|]. intros p1 R1 U1.
  apply sat_bind, sat_take_span; [by eapply reads_ok|]. intros a p2 R2 _ _ _.
  apply sat_bind, sat_peek, sat_bind.
  assert (reads p p2) as R12 by (by eapply reads_trans). pose proof (reads_unread _ _ R2).
  assert (forall b p3, reads p2 p3 -> sat (c2 ← peek 0;
    if negb (c2 =? 125) then fail ErrUnterminatedRepeat
    else advance_by 1;;
      match a, b with
      | [], [] => fail ErrEmptyRepeat
      | _, _ =>
          lo ← match a with [] => ret 0 | _ => lift_stoi a end;
          hi ← if peek_at (rest p2) 0 =? 44 then match b with [] => ret (-1) | _ => lift_stoi b end else ret lo;
          if (kMaxRepeat <? lo) || (kMaxRepeat <? hi) then fail ErrRepeatBound
          else if (0 <=? hi) && (hi <? lo) then fail ErrInvertedRepeat
          else ret (lo, hi)
      end) p3 Q) as Hnext.
  { intros b p3 R3. apply sat_bind, sat_peek. sat_ifs; [done|].
    apply sat_bind, sat_advance; [by eapply reads_ok|]. intros p4 R4 U4.
    assert (forall r, Q r p4) as HQ'.
    { intros r. pose proof (reads_unread _ _ R3). pose proof (reads_unread _ _ R4).
      apply HQ; [|lia]. eapply reads_trans; [done|]. by eapply reads_trans. }
    destruct a as [|a0 a], b as [|b0 b]; [done|..]; apply sat_bind;
      first [apply sat_ret|apply sat_lift_stoi; intros lo _]; apply sat_bind; sat_ifs;
      first [apply sat_ret|apply sat_lift_stoi; intros hi _]; sat_ifs; done || apply sat_ret, HQ'. }
  sat_ifs.
  - apply sat_bind, sat_advance; [by eapply reads_ok|]. intros p3 R3 _.
    apply sat_take_span; [by eapply reads_ok|]. intros b p4 R4 _ _ _. apply Hnext. by eapply reads_trans.
  - apply sat_ret, (Hnext []). apply reads_refl. by eapply reads_ok.
Qed.

Lemma sat_apply_op c x p (Q : list GbnfItem -> Parser -> Prop) :
  pok p -> rest p <> [] -> item_ok (n_rules p) x ->
  (forall its p', later p p' -> (unread p' < unread p)%nat -> items_ok p' its -> Q its p') ->
  sat (apply_op c x) p Q.
Proof.
  intros Hp He Hx HQ. pose proof (unread_pos _ He). unfold apply_op.
  assert (forall p1 id p2 its, reads p p1 -> (unread p1 < unread p)%nat -> later p1 p2 ->
    unread p2 = unread p1 -> (id < n_rules p2)%nat -> items_ok p2 its -> Q (its ++ [RuleItem id]) p2) as Hrule.
  { intros p1 id p2 its R1 U1 L2 U2 Hid Hits. apply HQ; [|lia|].
    - eapply later_trans; [by apply reads_later|done].
    - apply items_ok_app; [done|]. apply items_ok_cons; [done|constructor]. }
  sat_ifs.
  - apply sat_bind, sat_advance; [done|]. intros p1 R1 U1.
    apply sat_bind, sat_make_star; [by eapply reads_ok|by eapply item_ok_later, Hx; apply reads_later|].
    intros id p2 L2 U2 Hid. apply sat_ret, (Hrule p1 id p2 []); try done; [lia|constructor].
  - apply sat_bind, sat_advance; [done|]. intros p1 R1 U1.
    apply sat_bind, sat_make_opt; [by eapply reads_ok|by eapply item_ok_later, Hx; apply reads_later|done|].
    intros id p2 L2 U2 Hid. apply sat_ret, (Hrule p1 id p2 []); try done; [lia|constructor].
  - apply sat_bind, sat_advance; [done|]. intros p1 R1 U1.
    apply sat_bind, sat_make_star; [by eapply reads_ok|by eapply item_ok_later, Hx; apply reads_later|].
    intros id p2 L2 U2 Hid. apply sat_ret, (Hrule p1 id p2 [x]); try done; [lia|].
    apply items_ok_cons; [|constructor]. eapply item_ok_later; [done|]. eapply item_ok_later, Hx. by apply reads_later.
  - apply sat_bind, sat_repeat_bounds; [done..|]. intros [lo hi] p1 R1 U1.
    assert (item_ok (n_rules p1) x) as Hx1 by (by eapply item_ok_later, Hx; apply reads_later).
    sat_ifs.
    + apply sat_bind, sat_make_star; [by eapply reads_ok|done|]. intros id p2 L2 U2 Hid.
      apply sat_ret, (Hrule p1 id p2); try done. apply items_ok_replicate. by eapply item_ok_later.
    + apply sat_bind, sat_opt_chain; [by eapply reads_ok|done|done|]. intros t p2 L2 U2 Ht.
      apply sat_ret, HQ; [|lia|].
      * eapply later_trans; [by apply reads_later|done].
      * apply items_ok_app; [|done]. apply items_ok_replicate. by eapply item_ok_later.
    + apply sat_ret, HQ; [by apply reads_later|done|]. by apply items_ok_replicate.
Qed.

Lemma sat_fold_element l p (Q : GbnfItem -> Parser -> Prop) :
  pok p -> items_ok p l ->
  (forall it p', later p p' -> unread p' = unread p -> item_ok (n_rules p') it -> Q it p') ->
  sat (fold_element l) p Q.
Proof.
  intros Hp Hl HQ. assert (forall l, items_ok p l -> sat (id ← add_synthetic [l]; ret (RuleItem id)) p Q) as Hnew.
  { intros l' Hl'. apply sat_bind, sat_add_synthetic; [done|by repeat constructor|]. intros id p1 L1 U1 Hid.
    by apply sat_ret, HQ. }
  destruct l as [|x [|y l]]; [by apply Hnew| |by apply Hnew].
  apply sat_ret, HQ; [by apply later_refl|done|]. by apply Forall_cons in Hl as [? _].
Qed.

Lemma sat_postfix_loop fuel items start p (Q : list GbnfItem -> Parser -> Prop) :
  pok p -> items_ok p items -> (unread p <= fuel)%nat ->
  (forall its p', later p p' -> items_ok p' its -> Q its p') ->
  sat (apply_postfix_loop fuel items start) p Q.
Proof.
  revert items p. induction fuel as [|fuel IH]; intros items p Hp Hi Hf HQ; simpl;
    apply sat_bind, sat_eof; intros He; apply sat_bind, sat_peek; simpl;
    try (apply sat_ret, HQ; [by apply later_refl|done]); pose proof (unread_pos _ He); [lia|].
  sat_ifs; [apply sat_ret, HQ; [by apply later_refl|done]|done|].
  apply sat_bind, sat_fold_element; [done|by apply Forall_drop|]. intros x p1 L1 U1 Hx.
  apply sat_bind, sat_apply_op; [apply L1| |done|].
  { intros E. apply unread_nil in E. lia. }
  intros new p2 L2 U2 Hnew. apply IH; [apply L2| |lia|].
  - apply items_ok_app; [|done]. apply Forall_take. eapply items_ok_later; [done|]. by eapply items_ok_later.
  - intros its p' L'. apply HQ. eapply later_trans; [done|]. by eapply later_trans.
Qed.

Lemma sat_apply_postfix items start p (Q : list GbnfItem -> Parser -> Prop) :
  pok p -> items_ok p items -> (forall its p', later p p' -> items_ok p' its -> Q its p') ->
  sat (apply_postfix items start) p Q.
Proof. intros. unfold apply_postfix, by_unread, sat. by apply sat_postfix_loop. Qed.

(** ** Sequences and alternatives *)

Definition seq_spec (fuel : nat) : Prop := forall nested out p (Q : list GbnfItem -> Parser -> Prop),
  pok p -> items_ok p out -> (2 * unread p + 1 <= fuel)%nat ->
  (forall its p', later p p' -> items_ok p' its -> Q its p') -> sat (parse_sequence fuel nested out) p Q.
Definition alts_spec (fuel : nat) : Prop := forall nested p (Q : list GbnfAlt -> Parser -> Prop),
  pok p -> (2 * unread p + 2 <= fuel)%nat ->
  (forall a p', later p p' -> alts_ok p' a -> Q a p') -> sat (parse_alternates fuel nested) p Q.
Definition loop_spec (fuel : nat) : Prop := forall nested out p (Q : list GbnfAlt -> Parser -> Prop),
  pok p -> alts_ok p out -> (2 * unread p + 1 <= fuel)%nat ->
  (forall a p', later p p' -> alts_ok p' a -> Q a p') -> sat (alternates_loop fuel nested out) p Q.

(** One element: every branch reads something. *)
Lemma sat_element fuel out c p (Q : list GbnfItem -> Parser -> Prop) :
  alts_spec fuel -> pok p -> rest p <> [] -> items_ok p out -> c = peek_at (rest p) 0 ->
  (2 * unread p <= fuel)%nat ->
  (forall its p', later p p' -> (unread p' < unread p)%nat -> items_ok p' its -> Q its p') ->
  sat (if c =? 34 then parse_string out
       else if c =? 91 then it ← parse_class; ret (out ++ [it])
       else if c =? 46 then advance_by 1;; ret (out ++ [CharItem (mkCharSet [] true)])
       else if c =? 40 then
         advance_by 1;;
         alts ← parse_alternates fuel true;
         skip_space true;;
         c2 ← peek 0;
         if negb (c2 =? 41) then fail ErrExpectedParen
         else advance_by 1;; id ← add_synthetic alts; ret (out ++ [RuleItem id])
       else if is_word_char c then
         name ← take_span is_word_char;
         id ← rule_id name;
         ret (out ++ [RuleItem id])
       else fail (ErrUnexpected c)) p Q.
Proof.
  intros Halts Hp He Ho -> Hf HQ. pose proof (unread_pos _ He). sat_ifs.
  - apply sat_parse_string; [done..|]. intros its p' R' U' Hits. apply HQ; [by apply reads_later|done..].
  - apply sat_bind, sat_parse_class; [done..|]. intros it p' R' U' Hit. apply sat_ret, HQ; [by apply reads_later|done|].
    apply items_ok_app; [by eapply items_ok_reads|]. apply items_ok_cons; [done|constructor].
  - apply sat_bind, sat_advance; [done|]. intros p' R' U'. apply sat_ret, HQ; [by apply reads_later|lia|].
    apply items_ok_app; [by eapply items_ok_reads|]. apply items_ok_cons; [by constructor|constructor].
  - apply sat_bind, sat_advance; [done|]. intros p1 R1 U1. apply sat_bind, Halts; [by eapply reads_ok|lia|].
    intros a p2 L2 Ha. apply sat_bind, sat_skip_space; [apply L2|]. intros p3 R3.
    apply sat_bind, sat_peek. sat_ifs; [done|].
    apply sat_bind, sat_advance; [by eapply reads_ok|]. intros p4 R4 _.
    apply sat_bind, sat_add_synthetic; [by eapply reads_ok| |].
    { do 2 (eapply alts_ok_later; [by apply reads_later|]). done. }
    intros id p5 L5 U5 Hid.
    assert (later p p5) as L.
    { eapply later_trans; [by apply reads_later|]. eapply later_trans; [done|].
      do 2 (eapply later_trans; [by apply reads_later|]). done. }
    apply sat_ret, HQ; [done| |].
    + destruct R1 as [[_ ? _] _], L2 as [_ ? _], R3 as [[_ ? _] _], R4 as [[_ ? _] _]. unfold unread in *. lia.
    + apply items_ok_app; [by eapply items_ok_later|]. apply items_ok_cons; [done|constructor].
  - apply sat_bind, sat_take_span; [done|]. intros name p1 R1 _ U1 Hne.
    apply sat_bind, sat_rule_id; [by eapply reads_ok|]. intros id p2 L2 U2 Hid.
    assert (name <> []) by auto. assert (0 < length name)%nat by (by destruct name; [|simpl; lia]).
    assert (later p p2) as L by (eapply later_trans; [by apply reads_later|done]).
    apply sat_ret, HQ; [done|lia|].
    apply items_ok_app; [by eapply items_ok_later|]. apply items_ok_cons; [done|constructor].
  - done.
Qed.

Lemma sat_sequences fuel : seq_spec fuel /\ alts_spec fuel /\ loop_spec fuel.
Proof.
  induction fuel as [|fuel (IHs & IHa & IHl)].
  { split_and!; [intros ??????Hf; lia|intros ???? Hf; lia|intros ?????? Hf; lia]. }
  split_and!.
  - intros nested out p Q Hp Ho Hf HQ. simpl. apply sat_bind, sat_skip_space; [done|]. intros p1 R1.
    pose proof (reads_unread _ _ R1). assert (items_ok p1 out) as Ho1 by (by eapply items_ok_reads).
    apply sat_bind, sat_eof; intros He; apply sat_bind, sat_peek; simpl.
    { apply sat_ret, HQ; [by apply reads_later|done]. }
    sat_ifs; [apply sat_ret, HQ; [by apply reads_later|done]|].
    apply sat_bind. apply sat_element; [done|by eapply reads_ok|done|done|done|lia|].
    intros out1 p2 L2 U2 Hout1. apply sat_bind, sat_apply_postfix; [apply L2|done|]. intros out2 p3 L3 Hout2.
    apply IHs; [apply L3|done| |].
    + destruct L3 as [_ ? _]. unfold unread in *. lia.
    + intros its p' L'. apply HQ. eapply later_trans; [by apply reads_later|]. eapply later_trans; [done|].
      by eapply later_trans.
  - intros nested p Q Hp Hf HQ. simpl. apply sat_bind, IHs; [done|constructor|lia|].
    intros first p1 L1 Hfirst. apply IHl; [apply L1|by repeat constructor| |].
    + destruct L1 as [_ ? _]. unfold unread in *. lia.
    + intros a p' L'. apply HQ. by eapply later_trans.
  - intros nested out p Q Hp Ho Hf HQ. simpl. apply sat_bind, sat_skip_space; [done|]. intros p1 R1.
    pose proof (reads_unread _ _ R1). apply sat_bind, sat_peek.
    assert (alts_ok p1 out) as Ho1 by (eapply alts_ok_later; [by apply reads_later|done]).
    destruct (peek_at (rest p1) 0 =? 124) eqn:Ec; simpl; [|apply sat_ret, HQ; [by apply reads_later|done]].
    assert (0 < unread p1)%nat.
    { apply unread_pos. intros E. by rewrite E in Ec. }
    apply sat_bind, sat_advance; [by eapply reads_ok|]. intros p2 R2 U2.
    apply sat_bind, sat_skip_space; [by eapply reads_ok|]. intros p3 R3. pose proof (reads_unread _ _ R3).
    apply sat_bind, IHs; [by eapply reads_ok|constructor|lia|]. intros alt p4 L4 Halt.
    assert (later p1 p4) as L14.
    { eapply later_trans; [by apply reads_later|]. eapply later_trans; [by apply reads_later|done]. }
    apply IHl; [apply L4| | |].
    + apply Forall_app. split; [by eapply alts_ok_later|by repeat constructor].
    + destruct L4 as [_ ? _]. unfold unread in *. lia.
    + intros a p' L'. apply HQ. eapply later_trans; [by apply reads_later|]. by eapply later_trans.
Qed.

(** ** Whole grammars *)

Lemma pok_define name p :
  pok p -> pok (mkParser (rest p) (rules p) (ids p) ({[name]} ∪ defined p)).
Proof. intros [H1 H2 H3]. constructor; [apply H1|apply H2|apply H3]. Qed.

Lemma sat_parse_rule p (Q : () -> Parser -> Prop) :
  pok p -> rest p <> [] -> (forall p', later p p' -> (unread p' < unread p)%nat -> Q () p') ->
  sat parse_rule p Q.
Proof.
  intros Hp He HQ. pose proof (unread_pos _ He).
  apply sat_bind, sat_take_span; [done|]. intros name p1 R1 _ U1 _.
  destruct name as [|c name]; [done|]. simpl in U1.
  apply sat_bind, sat_skip_space; [by eapply reads_ok|]. intros p2 R2. pose proof (reads_unread _ _ R2).
  do 3 apply sat_bind, sat_peek. sat_ifs; [done|].
  apply sat_bind, sat_advance; [by eapply reads_ok|]. intros p3 R3 U3.
  apply sat_bind, sat_skip_space; [by eapply reads_ok|]. intros p4 R4. pose proof (reads_unread _ _ R4).
  apply sat_bind. unfold define at 1, sat at 1. case_decide; [done|].
  set (p5 := mkParser _ _ _ _). assert (later p4 p5) as L5.
  { constructor; [apply pok_define; by eapply reads_ok|done|done]. }
  assert (unread p5 = unread p4) as U5 by done. clearbody p5.
  apply sat_bind, sat_rule_id; [apply L5|]. intros id p6 L6 U6 Hid.
  apply sat_bind. unfold by_unread, sat at 1. apply (proj1 (proj2 (sat_sequences _))).
  - apply L6.
  - unfold parse_fuel, unread. lia.
  - intros a p7 L7 Ha. apply sat_set_alts; [apply L7|done|]. intros p8 L8 U8 _.
    assert (later p p8) as L.
    { do 4 (eapply later_trans; [by apply reads_later|]). do 3 (eapply later_trans; [done|]). done. }
    apply HQ; [done|]. destruct L7 as [_ ? _]. unfold unread in *. lia.
Qed.

Lemma sat_grammar_loop fuel p (Q : () -> Parser -> Prop) :
  pok p -> (unread p <= fuel)%nat -> (forall p', pok p' -> Q () p') -> sat (parse_grammar_loop fuel) p Q.
Proof.
  revert p. induction fuel as [|fuel IH]; intros p Hp Hf HQ; simpl; apply sat_bind, sat_eof; intros He;
    try (by apply sat_ret, HQ); pose proof (unread_pos _ He); [lia|].
  apply sat_bind, sat_parse_rule; [done..|]. intros p1 L1 U1.
  apply sat_bind, sat_skip_space; [apply L1|]. intros p2 R2. pose proof (reads_unread _ _ R2).
  apply IH; [by eapply reads_ok|lia|done].
Qed.

Lemma sat_parse_grammar src (Q : () -> Parser -> Prop) :
  Forall byte src -> (forall p', pok p' -> Q () p') -> sat parse_grammar (mkParser src [] ∅ ∅) Q.
Proof.
  intros Hs HQ. assert (pok (mkParser src [] ∅ ∅)) as Hp.
  { constructor; simpl; [by apply Forall_nil|intros name id; by rewrite lookup_empty|done]. }
  apply sat_bind, sat_skip_space; [done|]. intros p1 R1. unfold by_unread, sat.
  apply sat_grammar_loop; [by eapply reads_ok|done|done].
Qed.

Lemma parse_total src : Forall byte src -> parse_gbnf src <> ParseFuel.
Proof.
  intros Hs. unfold parse_gbnf. pose proof (sat_parse_grammar src (fun _ _ => True) Hs ltac:(done)) as H.
  unfold sat in H. destruct (parse_grammar _); [|done..]. repeat case_match; done.
Qed.

Lemma parse_table_ok src rs root :
  Forall byte src -> parse_gbnf src = Parsed rs root ->
  rules_ok rs /\ (root < length rs)%nat /\
  forall r ru, rs !! r = Some ru -> rule_name ru <> [] -> alts ru <> [].
Proof.
  intros Hs. unfold parse_gbnf.
  pose proof (sat_parse_grammar src (fun _ p => pok p) Hs ltac:(done)) as H. unfold sat in H.
  destruct (parse_grammar _) as [[] p| | |]; [|done..]. destruct H as [Hr Hi _].
  destruct (list_find _ _) as [[]|] eqn:Ef; [done|]. destruct (ids p !! root_name) as [id|] eqn:Ei; [|done].
  intros [= <- <-]. split_and!; [done|by eapply Hi|]. intros r ru Hru Hn Ha.
  apply list_find_None in Ef. rewrite Forall_lookup in Ef. apply (Ef r ru Hru).
  unfold undefined_rule. rewrite Ha. by destruct (rule_name ru).
Qed.
