(* ===== verification/Utf8Code.v ===== *)
(** * UTF-8 as a prefix code

    The byte-level facts behind [GbnfMatcher::run]: what the bytes of one
    codepoint look like to the matcher's incremental decoder, that the decoder
    inverts [encode], and that the encoding of a word splits in one way. *)

From Corelib Require Import ssreflect_rw.
From stdpp Require Import prelude list.
From S2P Require Import Prelude GbnfParser GbnfMatcher GbnfTable.
Open Scope Z_scope.

(** A boolean check of all bytes at once. *)
Lemma byte_forall (f : Z -> bool) :
  forallb (fun n => f (Z.of_nat n)) (seq 0 256) = true -> forall b, byte b -> f b = true.
Proof.
  rewrite forallb_forall. intros H b Hb. rewrite <- (Z2Nat.id b) by (unfold byte in Hb; lia).
  apply H, in_seq. unfold byte in Hb. lia.
Qed.

Lemma lor_shiftl v x n : 0 <= n -> 0 <= x < 2 ^ n -> Z.lor (Z.shiftl v n) x = v * 2 ^ n + x.
Proof.
  intros Hn Hx. rewrite <- Z.shiftl_mul_pow2 by done. symmetry.
  rewrite <- Z.lxor_lor, <- Z.add_nocarry_lxor; [done|..]; apply Z.bits_inj'; intros i Hi;
    rewrite Z.land_spec, Z.bits_0; (destruct (Z.ltb_spec i n);
      [rewrite Z.shiftl_spec_low by done; done|]);
    rewrite <- (Z.mod_small x (2 ^ n)) by done; rewrite Z.mod_pow2_bits_high by lia; apply andb_false_r.
Qed.

Definition cont (b : Z) : Prop := 128 <= b < 192.

Lemma cont_byte_spec b : byte b -> (Z.land b 192 =? 128) = true <-> cont b.
Proof.
  intros Hb. assert (Bool.eqb (Z.land b 192 =? 128) ((128 <=? b) && (b <? 192)) = true) as E.
  { revert b Hb. apply byte_forall. by vm_compute. }
  apply eqb_prop in E. rewrite E. unfold cont. rewrite andb_true_iff, Z.leb_le, Z.ltb_lt. done.
Qed.

Lemma cont_low b : cont b -> Z.land b 63 = b - 128.
Proof.
  intros Hb. change 63 with (Z.ones 6). rewrite Z.land_ones by lia. unfold cont in Hb.
  change (2 ^ 6) with 64. Z.div_mod_to_equations; lia.
Qed.

(** ** What the decoder has read *)

Definition lead_value (b : Z) (extra : nat) : Z := Z.land b (Z.shiftr 63 (Z.of_nat extra)).
Definition add_cont (v c : Z) : Z := v * 64 + (c - 128).
Definition code_value (b : Z) (extra : nat) (cs : list Z) : Z := foldl add_cont (lead_value b extra) cs.

Lemma foldl_add_cont v cs :
  Forall cont cs -> exists t, foldl add_cont v cs = v * 64 ^ Z.of_nat (length cs) + t /\
    0 <= t < 64 ^ Z.of_nat (length cs).
Proof.
  intros H. revert v. induction H as [|c cs Hc _ IH]; intros v; cbn [foldl length]; [exists 0; simpl; lia|].
  destruct (IH (add_cont v c)) as (t & -> & Ht). rewrite Nat2Z.inj_succ. unfold add_cont, cont in *.
  exists ((c - 128) * 64 ^ Z.of_nat (length cs) + t).
  replace (64 ^ Z.succ (Z.of_nat (length cs))) with (64 * 64 ^ Z.of_nat (length cs))
    by (rewrite Z.pow_succ_r by lia; done). nia.
Qed.

Lemma utf8_extra_inv b extra :
  utf8_extra b = Some extra ->
  (extra = 0%nat /\ b < 128) \/ (extra = 1%nat /\ 194 <= b < 224) \/
  (extra = 2%nat /\ 224 <= b < 240) \/ (extra = 3%nat /\ 240 <= b < 245).
Proof.
  unfold utf8_extra. repeat match goal with |- context [?x <? ?y] => destruct (Z.ltb_spec x y) end;
    intros [= <-]; lia.
Qed.

Lemma lead_value_eq b extra :
  utf8_extra b = Some extra -> (0 < extra)%nat ->
  lead_value b extra = b - match extra with 1%nat => 192 | 2%nat => 224 | _ => 240 end.
Proof.
  intros H He. unfold lead_value. apply utf8_extra_inv in H as [[-> ?]|[[-> ?]|[[-> ?]|[-> ?]]]]; [lia|..].
  - change (Z.shiftr 63 (Z.of_nat 1)) with (Z.ones 5). rewrite Z.land_ones by lia. change (2 ^ 5) with 32. Z.div_mod_to_equations; lia.
  - change (Z.shiftr 63 (Z.of_nat 2)) with (Z.ones 4). rewrite Z.land_ones by lia. change (2 ^ 4) with 16. Z.div_mod_to_equations; lia.
  - change (Z.shiftr 63 (Z.of_nat 3)) with (Z.ones 3). rewrite Z.land_ones by lia. change (2 ^ 3) with 8. Z.div_mod_to_equations; lia.
Qed.

(** The bytes [pend] leave the decoder in the partial state [pa]. *)
Inductive pending : list Z -> GbnfPartial -> Prop :=
  | pending_none pa : remaining pa = 0%nat -> pending [] pa
  | pending_some b cs extra :
      utf8_extra b = Some extra -> (length cs < extra)%nat -> Forall cont cs ->
      pending (b :: cs) (mkPartial (code_value b extra cs) (utf8_min extra) (extra - length cs)).

(** All bytes of the codepoint [cp], from the lead byte's point of view. *)
Definition spelled (cp b : Z) (extra : nat) (cs : list Z) : Prop :=
  utf8_extra b = Some extra /\ (0 < extra)%nat /\ length cs = extra /\ Forall cont cs /\
  code_value b extra cs = cp /\ utf8_min extra <= cp.

(** A completed codepoint passes the overlong check exactly when it is [encode]d so. *)
Lemma spelled_encode cp b extra cs : spelled cp b extra cs -> cp <= kMaxCodepoint -> encode cp = b :: cs.
Proof.
  intros (He & Hpos & Hlen & Hcs & Hv & Hmin) Hmax. unfold code_value in Hv.
  rewrite (lead_value_eq _ _ He Hpos) in Hv. unfold encode, kMaxCodepoint in *.
  apply utf8_extra_inv in He as [[-> ?]|[[-> ?]|[[-> ?]|[-> ?]]]]; [lia|..]; simpl in Hmin;
    repeat (destruct cs as [|? cs]; simplify_eq/=);
    repeat match goal with H : Forall _ (_ :: _) |- _ => apply Forall_cons in H as [? H] end;
    unfold add_cont, cont in *;
    repeat match goal with |- context [if ?x <? ?y then _ else _] => destruct (Z.ltb_spec x y); try lia end;
    repeat f_equal; Z.div_mod_to_equations; lia.
Qed.

Lemma encode_spelled cp :
  codepoint cp ->
  (cp < 128 /\ encode cp = [cp]) \/ exists b cs extra, encode cp = b :: cs /\ spelled cp b extra cs.
Proof.
  intros Hcp. unfold codepoint, kMaxCodepoint, encode in *.
  destruct (Z.ltb_spec cp 128); [by left|right].
  assert (forall x, 0 <= x < 64 -> cont (128 + x)) as Hcont by (unfold cont; lia).
  assert (forall x, cont (128 + x mod 64)) as Hmod.
  { intros x. apply Hcont. apply Z.mod_pos_bound. lia. }
  destruct (Z.ltb_spec cp 2048); [|destruct (Z.ltb_spec cp 65536)].
  - eexists _, _, 1%nat. split; [done|]. assert (utf8_extra (192 + cp / 64) = Some 1%nat) as He.
    { unfold utf8_extra. repeat match goal with |- context [?x <? ?y] => destruct (Z.ltb_spec x y) end;
        try done; Z.div_mod_to_equations; lia. }
    split_and!; [done|lia|done|repeat (apply Forall_cons; split; [apply Hmod|]); by apply Forall_nil| |simpl; lia].
    unfold code_value. rewrite (lead_value_eq _ _ He) by lia. simpl. unfold add_cont.
    Z.div_mod_to_equations. lia.
  - eexists _, _, 2%nat. split; [done|]. assert (utf8_extra (224 + cp / 4096) = Some 2%nat) as He.
    { unfold utf8_extra. repeat match goal with |- context [?x <? ?y] => destruct (Z.ltb_spec x y) end;
        try done; Z.div_mod_to_equations; lia. }
    split_and!; [done|lia|done|repeat (apply Forall_cons; split; [apply Hmod|]); by apply Forall_nil| |simpl; lia].
    unfold code_value. rewrite (lead_value_eq _ _ He) by lia. simpl. unfold add_cont.
    Z.div_mod_to_equations. lia.
  - eexists _, _, 3%nat. split; [done|]. assert (utf8_extra (240 + cp / 262144) = Some 3%nat) as He.
    { unfold utf8_extra. repeat match goal with |- context [?x <? ?y] => destruct (Z.ltb_spec x y) end;
        try done; Z.div_mod_to_equations; lia. }
    split_and!; [done|lia|done|repeat (apply Forall_cons; split; [apply Hmod|]); by apply Forall_nil| |simpl; lia].
    unfold code_value. rewrite (lead_value_eq _ _ He) by lia. simpl. unfold add_cont.
    Z.div_mod_to_equations. lia.
Qed.

Lemma utf8_extra_ascii b : 0 <= b < 128 -> utf8_extra b = Some 0%nat.
Proof. intros Hb. unfold utf8_extra. destruct (Z.ltb_spec b 128); [done|lia]. Qed.

(** ** Splitting an encoded word *)

Lemma encode_all_cons c w : encode_all (c :: w) = encode c ++ encode_all w.
Proof. done. Qed.

Lemma encode_all_app w1 w2 : encode_all (w1 ++ w2) = encode_all w1 ++ encode_all w2.
Proof. unfold encode_all. by rewrite fmap_app, concat_app. Qed.

Lemma encode_all_snoc w c : encode_all (w ++ [c]) = encode_all w ++ encode c.
Proof. rewrite encode_all_app. f_equal. unfold encode_all. simpl. apply app_nil_r. Qed.

Lemma encode_app_inj c c' x y :
  codepoint c -> codepoint c' -> encode c ++ x = encode c' ++ y -> c = c' /\ x = y.
Proof.
  intros Hc Hc'. pose proof (proj1 Hc). pose proof (proj1 Hc').
  destruct (encode_spelled c Hc) as [[Hs ->]|(b & cs & e & -> & Hs)],
    (encode_spelled c' Hc') as [[Hs' ->]|(b' & cs' & e' & -> & Hs')]; simpl; intros [= -> E].
  - done.
  - destruct Hs' as (He & Hp & _). rewrite utf8_extra_ascii in He by lia. injection He. lia.
  - destruct Hs as (He & Hp & _). rewrite utf8_extra_ascii in He by lia. injection He. lia.
  - destruct Hs as (He & _ & Hl & _ & Hv & _), Hs' as (He' & _ & Hl' & _ & Hv' & _).
    assert (e = e') as -> by congruence. apply app_inj_1 in E as [-> ->]; [|congruence]. split; congruence.
Qed.

Lemma encode_all_strip w x W :
  Forall codepoint w -> Forall codepoint W -> encode_all w ++ x = encode_all W ->
  exists W', W = w ++ W' /\ x = encode_all W'.
Proof.
  intros Hw. revert W. induction Hw as [|c w Hc Hw IH]; intros W HW E; [by exists W|].
  rewrite encode_all_cons, <- app_assoc in E. destruct HW as [|c' W Hc' HW].
  - exfalso. destruct (encode_spelled c Hc) as [[_ Ee]|(? & ? & ? & Ee & _)]; by rewrite Ee in E.
  - rewrite encode_all_cons in E. apply encode_app_inj in E as [-> E]; [|done..].
    destruct (IH W HW E) as (W' & -> & ->). by exists W'.
Qed.

(** A pending prefix continues into one codepoint of the word. *)
Lemma pending_strip b cs extra x W :
  utf8_extra b = Some extra -> (length cs < extra)%nat -> Forall codepoint W ->
  b :: cs ++ x = encode_all W ->
  exists c W' cs', W = c :: W' /\ codepoint c /\ spelled c b extra (cs ++ cs') /\ x = cs' ++ encode_all W'.
Proof.
  intros He Hlen HW E. destruct HW as [|c W Hc HW]; [done|].
  rewrite encode_all_cons in E. destruct (encode_spelled c Hc) as [[Hs Ee]|(b' & cs0 & e' & Ee & Hs)];
    rewrite Ee in E; simpl in E; injection E as -> E.
  - pose proof (proj1 Hc). rewrite utf8_extra_ascii in He by lia. simplify_eq. lia.
  - destruct Hs as (He' & Hp & Hl & Hcs & Hv & Hmin). assert (e' = extra) as -> by congruence.
    assert (cs0 = cs ++ drop (length cs) cs0) as Ecs.
    { rewrite <- (take_drop (length cs) cs0) at 1. f_equal.
      pose proof (f_equal (take (length cs)) E) as E2.
      rewrite take_app_length in E2. rewrite take_app_le in E2 by lia. done. }
    exists c, W, (drop (length cs) cs0). split_and!; [done|done|by rewrite <- Ecs|].
    rewrite Ecs, <- app_assoc in E. by apply app_inv_head in E.
Qed.

(** ** The decoder's arithmetic stays in 32 bits *)

Lemma code_value_bounds b extra cs :
  utf8_extra b = Some extra -> (0 < extra)%nat -> Forall cont cs -> (length cs <= 3)%nat ->
  0 <= code_value b extra cs < 2 ^ 26.
Proof.
  intros He Hp Hcs Hl. unfold code_value. destruct (foldl_add_cont (lead_value b extra) cs Hcs) as (t & -> & Ht).
  assert (0 <= lead_value b extra < 32).
  { rewrite (lead_value_eq _ _ He Hp).
    apply utf8_extra_inv in He as [[-> ?]|[[-> ?]|[[-> ?]|[-> ?]]]]; lia. }
  assert (64 ^ Z.of_nat (length cs) <= 64 ^ 3) by (apply Z.pow_le_mono_r; lia).
  assert (0 < 64 ^ Z.of_nat (length cs)) by (apply Z.pow_pos_nonneg; lia). nia.
Qed.

(** The decoder's update on a continuation byte. *)
Lemma decode_cont b extra cs c :
  utf8_extra b = Some extra -> (length cs < extra)%nat -> Forall cont cs -> cont c ->
  u32 (Z.lor (Z.shiftl (code_value b extra cs) 6) (Z.land c 63)) = code_value b extra (cs ++ [c]).
Proof.
  intros He Hl Hcs Hc. assert (extra <= 3)%nat by (apply utf8_extra_inv in He; lia).
  pose proof (code_value_bounds b extra cs He ltac:(lia) Hcs ltac:(lia)).
  rewrite cont_low by done. rewrite lor_shiftl by (unfold cont in Hc; lia).
  unfold code_value. rewrite foldl_app. simpl. fold (code_value b extra cs). unfold add_cont, cont, u32 in *.
  apply Z.mod_small. unfold two32. lia.
Qed.

(** The range a cut-off character may still become. *)
Lemma partial_range b cs extra cs' cp :
  spelled cp b extra (cs ++ cs') -> cp <= kMaxCodepoint -> Forall cont cs -> cs' <> [] ->
  let pa := mkPartial (code_value b extra cs) (utf8_min extra) (extra - length cs) in
  let shift := u32 (6 * Z.of_nat (remaining pa)) in
  let top := u32 (Z.shiftl (value pa) shift) in
  Z.max top (min_cp pa) <= cp <= Z.min (Z.lor top (u32 (Z.shiftl 1 shift - 1))) kMaxCodepoint.
Proof.
  intros (He & Hp & Hl & Hc & Hv & Hm) Hmax Hcs Hne. simpl. apply Forall_app in Hc as [_ Hc'].
  assert (extra - length cs = length cs')%nat as -> by (rewrite <- Hl, length_app; lia).
  assert (extra <= 3)%nat as Hex by (apply utf8_extra_inv in He; lia).
  assert (length cs' <= 3)%nat as Hl3 by (rewrite length_app in Hl; lia).
  assert (u32 (6 * Z.of_nat (length cs')) = 6 * Z.of_nat (length cs')) as ->.
  { apply Z.mod_small. unfold two32. lia. }
  unfold code_value in Hv. rewrite foldl_app in Hv. fold (code_value b extra cs) in Hv.
  destruct (foldl_add_cont (code_value b extra cs) cs' Hc') as (t & Et & Ht). rewrite Et in Hv.
  assert (64 ^ Z.of_nat (length cs') = 2 ^ (6 * Z.of_nat (length cs'))) as E64.
  { change 64 with (2 ^ 6). rewrite <- Z.pow_mul_r by lia. done. }
  rewrite E64 in *. set (sh := 6 * Z.of_nat (length cs')) in *. assert (0 <= sh <= 18) by (unfold sh; lia).
  assert (0 < 2 ^ sh) by (apply Z.pow_pos_nonneg; lia).
  assert (2 ^ sh <= 2 ^ 18) by (apply Z.pow_le_mono_r; lia).
  assert (0 <= cp) by (unfold utf8_min in Hm; destruct extra as [|[|[|]]]; lia).
  assert (0 <= code_value b extra cs) by nia.
  unfold kMaxCodepoint in *. rewrite Z.shiftl_mul_pow2 by lia.
  assert (u32 (code_value b extra cs * 2 ^ sh) = code_value b extra cs * 2 ^ sh) as ->.
  { apply Z.mod_small. unfold two32. nia. }
  rewrite Z.shiftl_mul_pow2, Z.mul_1_l by lia.
  assert (u32 (2 ^ sh - 1) = 2 ^ sh - 1) as -> by (apply Z.mod_small; unfold two32; lia).
  assert (Z.lor (code_value b extra cs * 2 ^ sh) (2 ^ sh - 1) = code_value b extra cs * 2 ^ sh + (2 ^ sh - 1)) as ->.
  { rewrite <- (lor_shiftl (code_value b extra cs) (2 ^ sh - 1) sh) by lia. by rewrite Z.shiftl_mul_pow2 by lia. }
  lia.
Qed.
