(* ===== verification/GbnfLanguage.v ===== *)
(** * GBNF matching: the matcher decides the grammar's language on bytes

    Ties the pieces together: a matcher state reached by feeding byte texts
    stands for one codepoint word and its live stacks ([matcher_state]), and the
    theorems say what [is_done], [update_text], [would_accept] and [lead_bytes]
    tell about the language of the rule table. *)

From Corelib Require Import ssreflect_rw.
From stdpp Require Import prelude gmap list sorting relations.
From S2P Require Import Prelude Gbnf GbnfSim GbnfStacks GbnfRefine GbnfParser GbnfMatcher GbnfLive GbnfTable Utf8Code.
Open Scope Z_scope.

Section Bytes.
Context (g : GbnfGrammar) (F : nat).
Let rules := rules_ g.
Let root := root_ g.
Context (HF : (expand_fuel rules <= F)%nat).

(** After the bytes [bs]: the word read, its stacks, and the cut-off character. *)
Definition reading (m : Memo) (S : GbnfStackSet) (pa : GbnfPartial) (bs : list Z) : Prop :=
  exists w pend, bs = encode_all w ++ pend /\ Forall codepoint w /\ pending pend pa /\ sim rules root m S w.

(** [bs] begins the encoding of a word the root derives within the guards. *)
Definition completable (bs : list Z) : Prop :=
  exists W v, bs ++ v = encode_all W /\ Forall codepoint W /\ root_fits rules root W /\
    all_bounded rules root W.

Lemma reading_extends m m' S pa bs : extends m m' -> reading m S pa bs -> reading m' S pa bs.
Proof.
  intros He (w & pend & ? & ? & ? & ?). exists w, pend. split_and!; [done..|]. by eapply sim_extends.
Qed.

(** One whole codepoint [c]: the step, and why it cannot die on a completable word. *)
Lemma step_word m S w c :
  memo_wf rules m -> sim rules root m S w -> codepoint c -> Forall codepoint w ->
  exists m' S', step_into rules F S c m = Some (m', S') /\ memo_wf rules m' /\ extends m m' /\
    sim rules root m' S' (w ++ [c]) /\
    forall W, root_fits rules root (w ++ c :: W) -> all_bounded rules root (w ++ c :: W) -> S' <> [].
Proof.
  intros Hwf Hs Hc Hw. destruct (sim_step rules root m S w c F Hwf Hs HF) as (m' & S' & E & Hwf' & He & Hs').
  exists m', S'. split_and!; [done|done|done|done|]. intros W Hf Hb ->.
  replace (w ++ c :: W) with ((w ++ [c]) ++ W) in * by (by rewrite <- app_assoc).
  destruct (live_complete rules root _ _ Hf) as (k & Hl & _). destruct Hs' as (_ & _ & H2).
  destruct (H2 ltac:(intros v Hv; apply Hb; by apply prefix_app_r) k Hl) as (s & Hin & _).
  by apply elem_of_nil in Hin.
Qed.

(** A live stack waiting for [c] makes the range test succeed. *)
Lemma range_live m S w c W lo hi :
  rules_ok rules -> memo_wf rules m -> sim rules root m S w ->
  root_fits rules root (w ++ c :: W) -> all_bounded rules root (w ++ c :: W) ->
  lo <= c <= hi -> hi < two32 -> can_consume_range rules m S lo hi = true.
Proof.
  intros Hok Hwf (_ & _ & H2) Hf Hb Hc Hhi. unfold can_consume_range. apply existsb_exists.
  destruct (live_complete rules root _ _ Hf) as (k & Hl & Hk).
  destruct (consume_complete rules k c W) as (p & ps & cs & -> & Hp & Hm & _); [by eapply live_final|done|].
  destruct (H2 ltac:(intros v Hv; apply Hb; by apply prefix_app_r) _ Hl) as (s & Hin & Hd).
  exists s. split; [by apply list_elem_of_In|].
  assert (top_item rules m s = Some (CharItem cs)) as -> by (apply (top_item_denotes rules m s _ _ Hd); eauto).
  apply intersects_exact; [|lia|by exists c].
  unfold item_at, items_at in Hp. destruct (alts_of rules (p_rule p) !! p_alt p) as [alt|] eqn:E; [|done].
  apply (rules_ok_item rules (p_rule p) alt (CharItem cs)); [done| |]; by eapply list_elem_of_lookup_2.
Qed.

(** What [run] establishes on a text read after [bs]. *)
Definition run_post (m : Memo) (bs text : list Z)
    (res : option (Memo * option (GbnfStackSet * GbnfPartial))) : Prop :=
  exists m' r, res = Some (m', r) /\ memo_wf rules m' /\ extends m m' /\
    (forall S' pa', r = Some (S', pa') -> reading m' S' pa' (bs ++ text)) /\
    (completable (bs ++ text) -> r <> None).

Lemma run_post_refused m bs text :
  memo_wf rules m -> ~ completable (bs ++ text) -> run_post m bs text (Some (m, None)).
Proof. intros Hwf Hno. exists m, None. by split_and!. Qed.

Lemma run_post_cons m m' bs b text res :
  extends m m' -> run_post m' (bs ++ [b]) text res -> run_post m bs (b :: text) res.
Proof.
  intros He (m2 & r & -> & Hwf & He2 & Hr & Hc). exists m2, r.
  split_and!; [done|done|by etrans|..]; rewrite <- app_assoc in *; done.
Qed.

Lemma completable_word w x :
  Forall codepoint w -> completable (encode_all w ++ x) ->
  exists W v, Forall codepoint W /\ x ++ v = encode_all W /\ root_fits rules root (w ++ W) /\
    all_bounded rules root (w ++ W).
Proof.
  intros Hw (W & v & E & HW & Hf & Hb). rewrite <- app_assoc in E.
  destruct (encode_all_strip w (x ++ v) W Hw HW E) as (W' & -> & E'). exists W', v.
  split_and!; [|done..]. by apply Forall_app in HW as [_ ?].
Qed.

(** A codepoint just completed by the byte [b]. *)
Lemma run_codepoint m S pend b w c text pa :
  rules_ok rules -> memo_wf rules m -> sim rules root m S w -> Forall codepoint w ->
  codepoint c -> encode c = pend ++ [b] -> remaining pa = 0%nat ->
  (forall m' S', memo_wf rules m' -> reading m' S' pa (encode_all (w ++ [c])) ->
     run_post m' (encode_all (w ++ [c])) text (run F g text S' pa m')) ->
  run_post m (encode_all w ++ pend) (b :: text)
    ('(m', next) ← step_into rules F S c m;
     match next with [] => Some (m', None) | _ => run F g text next pa m' end).
Proof.
  intros Hok Hwf Hs Hw Hc He Hpa IH.
  destruct (step_word m S w c Hwf Hs Hc Hw) as (m1 & S1 & -> & Hwf1 & He1 & Hs1 & Hne). simpl.
  assert ((encode_all w ++ pend) ++ [b] = encode_all (w ++ [c])) as Ebs.
  { rewrite encode_all_snoc, He. by rewrite <- app_assoc. }
  destruct S1 as [|s1 S1].
  - exists m1, None. split_and!; [done..|]. intros Hcomp. exfalso.
    replace ((encode_all w ++ pend) ++ b :: text) with (encode_all (w ++ [c]) ++ text) in Hcomp
      by (rewrite <- Ebs; by rewrite <- !app_assoc).
    apply completable_word in Hcomp as (W & v & _ & _ & Hf & Hb); [|by apply Forall_app; split; [|constructor]].
    rewrite <- app_assoc in Hf, Hb. by apply (Hne W).
  - eapply run_post_cons; [exact He1|]. rewrite Ebs. apply IH; [done|].
    exists (w ++ [c]), []. split_and!; [by rewrite app_nil_r|by apply Forall_app; split; [|constructor]| |done].
    by constructor.
Qed.

Lemma run_spec text bs S pa m :
  rules_ok rules -> Forall byte text -> memo_wf rules m -> reading m S pa bs ->
  run_post m bs text (run F g text S pa m).
Proof.
  intros Hok Hbyte. revert bs S pa m.
  induction Hbyte as [|b text Hb Hbyte IH]; intros bs S pa m Hwf (w & pend & -> & Hw & Hpend & Hs); simpl.
  - (* end of the text *)
    destruct Hpend as [pa Hpa|b cs extra He Hlen Hcs].
    { rewrite Hpa. simpl. exists m, (Some (S, pa)). split_and!; [done|done|done| |done].
      intros S' pa' [= <- <-]. exists w, []. split_and!; [by rewrite app_nil_r|done|by constructor|done]. }
    destruct (partial_live g m S _) eqn:El; simpl; rewrite ?andb_false_r, ?andb_true_r.
    { exists m, (Some (S, mkPartial (code_value b extra cs) (utf8_min extra) (extra - length cs))).
      split_and!; [done|done|done| |done]. intros S' pa' [= <- <-]. exists w, (b :: cs).
      split_and!; [by rewrite app_nil_r|done|by constructor|done]. }
    destruct (Nat.ltb_spec 0 (extra - length cs)); [|lia]. apply run_post_refused; [done|]. intros Hcomp.
    rewrite app_nil_r in Hcomp. apply completable_word in Hcomp as (W & v & HW & E & Hf & Hbd); [|done].
    apply (pending_strip b cs extra v W He Hlen HW) in E as (c & W' & cs' & -> & Hc & Hsp & ->).
    assert (cs' <> []) as Hne.
    { intros ->. destruct Hsp as (_ & _ & Hl & _). rewrite app_nil_r in Hl. lia. }
    pose proof (partial_range b cs extra cs' c Hsp (proj2 Hc) Hcs Hne) as Hr. simpl in Hr.
    unfold partial_live in El. simpl in El.
    apply andb_false_iff in El as [El|El]; [apply negb_false_iff, Z.ltb_lt in El; lia|].
    rewrite (range_live m S w c W') in El; [done|done|done|done|done|done|lia|].
    unfold kMaxCodepoint, two32 in *. lia.
  - destruct Hpend as [pa Hpa|b0 cs extra He Hlen Hcs].
    + (* a lead byte *)
      rewrite Hpa, app_nil_r. destruct (utf8_extra b) as [extra|] eqn:Ee.
      2: { apply run_post_refused; [done|]. intros Hcomp.
        apply completable_word in Hcomp as (W & v & HW & E & _ & _); [|done].
        destruct HW as [|c W Hc HW]; [done|]. rewrite encode_all_cons in E.
        destruct (encode_spelled c Hc) as [[Hlt Ec]|(b' & cs & e & Ec & Hsp)]; rewrite Ec in E; injection E as -> _.
        - destruct Hc. rewrite utf8_extra_ascii in Ee; [done|lia].
        - destruct Hsp as (He' & _). congruence. }
      destruct extra as [|extra].
      * rewrite <- (app_nil_r (encode_all w)). apply run_codepoint; try done.
        -- destruct Hb. apply utf8_extra_inv in Ee. unfold codepoint, kMaxCodepoint. lia.
        -- apply utf8_extra_inv in Ee as [[_ ?]|[[? _]|[[? _]|[? _]]]]; [|lia..].
           unfold encode. by destruct (Z.ltb_spec b 128); [|lia].
        -- intros m' S' Hwf' Hr. by apply IH.
      * eapply run_post_cons; [done|]. apply IH; [done|]. exists w, [b]. split_and!; [done|done| |done].
        by apply (pending_some b [] (Datatypes.S extra)); [|simpl; lia|constructor].
    + (* a continuation byte *)
      simpl. destruct (extra - length cs)%nat as [|r] eqn:Er; [lia|].
      destruct (Z.land b 192 =? 128) eqn:Ec; simpl.
      2: { apply run_post_refused; [done|]. rewrite <- app_assoc. intros Hcomp.
        apply completable_word in Hcomp as (W & v & HW & E & _ & _); [|done]. simpl in E. rewrite <- app_assoc in E.
        apply (pending_strip b0 cs extra _ W He Hlen HW) in E as (c & W' & cs' & -> & _ & Hsp & E).
        destruct Hsp as (_ & _ & Hl & Hcont & _). apply Forall_app in Hcont as [_ Hcont].
        destruct cs' as [|c' cs']; [rewrite app_nil_r in Hl; lia|]. simpl in E. injection E as <- _.
        apply Forall_cons in Hcont as [Hcont _]. apply cont_byte_spec in Hcont; [|done]. congruence. }
      apply cont_byte_spec in Ec; [|done]. rewrite (decode_cont b0 extra cs b) by done.
      destruct r as [|r].
      * destruct ((_ <? utf8_min extra) || (kMaxCodepoint <? _)) eqn:Ebad.
        { apply run_post_refused; [done|]. rewrite <- app_assoc. intros Hcomp.
          apply completable_word in Hcomp as (W & v & HW & E & _ & _); [|done]. simpl in E. rewrite <- app_assoc in E.
          apply (pending_strip b0 cs extra _ W He Hlen HW) in E as (c & W' & cs' & -> & Hc & Hsp & E).
          destruct Hsp as (_ & _ & Hl & _ & Hv & Hm).
          destruct cs' as [|c' [|c'' cs']]; rewrite length_app in Hl; simpl in Hl; [lia| |lia].
          simpl in E. injection E as <- _. rewrite Hv in Ebad. destruct Hc.
          apply orb_true_iff in Ebad. rewrite !Z.ltb_lt in Ebad. lia. }
        apply orb_false_iff in Ebad as [Hmin%Z.ltb_ge Hmax%Z.ltb_ge].
        assert (spelled (code_value b0 extra (cs ++ [b])) b0 extra (cs ++ [b])) as Hsp.
        { split_and!; [done|lia|rewrite length_app; simpl; lia|by apply Forall_app; split; [|constructor]|done|done]. }
        pose proof (spelled_encode _ _ _ _ Hsp Hmax) as Henc.
        apply run_codepoint; try done.
        -- split; [|done]. destruct extra as [|[|[|?]]]; simpl in Hmin; lia.
        -- intros m' S' Hwf' Hr. by apply IH.
      * eapply run_post_cons; [done|]. apply IH; [done|]. exists w, (b0 :: cs ++ [b]).
        split_and!; [by rewrite <- app_assoc|done| |done].
        replace (Datatypes.S r) with (extra - length (cs ++ [b]))%nat by (rewrite length_app; simpl; lia).
        apply pending_some; [done|rewrite length_app; simpl; lia|by apply Forall_app; split; [|constructor]].
Qed.
End Bytes.

(** ** Sessions of one matcher *)

Inductive MatcherOp :=
  | Probe (text : list Z)
  | Feed (text : list Z)
  | Restart_.

Definition op_bytes (op : MatcherOp) : Prop :=
  match op with Probe t | Feed t => Forall byte t | Restart_ => True end.

(** The matcher with the bytes accepted since the last reset. *)
Definition matcher_step (fuel : nat) (st : GbnfMatcher * list Z) (op : MatcherOp)
    : option (GbnfMatcher * list Z) :=
  match op with
  | Probe t => '(_, mt) ← would_accept fuel t st.1; Some (mt, st.2)
  | Feed t => '(ok, mt) ← update_text fuel t st.1; Some (mt, if ok : bool then st.2 ++ t else st.2)
  | Restart_ => mt ← reset fuel st.1; Some (mt, [])
  end.

Fixpoint matcher_run (fuel : nat) (st : GbnfMatcher * list Z) (ops : list MatcherOp)
    : option (GbnfMatcher * list Z) :=
  match ops with
  | [] => Some st
  | op :: ops' => st' ← matcher_step fuel st op; matcher_run fuel st' ops'
  end.

Definition matcher_ok (g : GbnfGrammar) (st : GbnfMatcher * list Z) : Prop :=
  grammar_ st.1 = g /\ memo_wf (rules_ g) (memo_ st.1) /\
  reading g (memo_ st.1) (stacks_ st.1) (partial_ st.1) st.2.

Lemma run_mono g f f' text S pa m r :
  (f <= f')%nat -> run f g text S pa m = Some r -> run f' g text S pa m = Some r.
Proof.
  intros Hle. revert S pa m. induction text as [|b text IH]; intros S pa m; simpl; [done|].
  assert (forall c pa', ('(m', next) ← step_into (rules_ g) f S c m;
     match next with [] => Some (m', None) | _ => run f g text next pa' m' end) = Some r ->
    ('(m', next) ← step_into (rules_ g) f' S c m;
     match next with [] => Some (m', None) | _ => run f' g text next pa' m' end) = Some r) as Hstep.
  { intros c pa' H. destruct (step_into (rules_ g) f S c m) as [[m1 S1]|] eqn:E; [|done].
    rewrite (step_into_mono _ _ _ _ _ _ _ Hle E). simpl in *. destruct S1; [done|by apply IH]. }
  destruct (remaining pa) as [|[|k]].
  - destruct (utf8_extra b) as [[|e]|]; [apply Hstep|apply IH|done].
  - destruct (negb _); [done|]. destruct (_ || _); [done|apply Hstep].
  - destruct (negb _); [done|apply IH].
Qed.

Lemma matcher_step_mono f f' st op st' :
  (f <= f')%nat -> matcher_step f st op = Some st' -> matcher_step f' st op = Some st'.
Proof.
  intros Hle. destruct op as [t|t|]; simpl; unfold would_accept, update_text, reset; intros H.
  - destruct (run f _ t _ _ _) as [[m r]|] eqn:E; [|done]. by rewrite (run_mono _ _ _ _ _ _ _ _ Hle E).
  - destruct (run f _ t _ _ _) as [[m r]|] eqn:E; [|done]. by rewrite (run_mono _ _ _ _ _ _ _ _ Hle E).
  - destruct (start_set _ _ f _) as [[m S]|] eqn:E; [|done]. by rewrite (start_set_mono _ _ _ _ _ _ Hle E).
Qed.

Lemma matcher_run_mono f f' st ops st' :
  (f <= f')%nat -> matcher_run f st ops = Some st' -> matcher_run f' st ops = Some st'.
Proof.
  intros Hle. revert st. induction ops as [|op ops IH]; intros st; simpl; [done|].
  intros H. destruct (matcher_step f st op) as [st1|] eqn:E; [|done].
  rewrite (matcher_step_mono _ _ _ _ _ Hle E). by apply IH.
Qed.

Section Session.
Context (g : GbnfGrammar) (F : nat) (HF : (expand_fuel (rules_ g) <= F)%nat) (Hok : rules_ok (rules_ g)).

Lemma matcher_step_spec st op :
  matcher_ok g st -> op_bytes op -> exists st', matcher_step F st op = Some st' /\ matcher_ok g st'.
Proof.
  intros (Hg & Hwf & Hr) Hop. destruct st as [mt bs]. simpl in *.
  destruct op as [t|t|]; simpl in *; unfold would_accept, update_text, reset; rewrite Hg.
  - destruct (run_spec g F HF t bs _ _ _ Hok Hop Hwf Hr) as (m' & r & -> & Hwf' & He & _). simpl.
    eexists. split; [done|]. split; [done|]. split; [done|]. by eapply reading_extends.
  - destruct (run_spec g F HF t bs _ _ _ Hok Hop Hwf Hr) as (m' & r & -> & Hwf' & He & Hr' & _). simpl.
    destruct r as [[S' pa']|]; eexists; (split; [done|]); (split; [done|]); (split; [done|]); simpl.
    + by apply Hr'.
    + by eapply reading_extends.
  - destruct (sim_start (rules_ g) (root_ g) _ F Hwf HF) as (m' & S & -> & Hwf' & _ & Hs). simpl.
    eexists. split; [done|]. split; [done|]. split; [done|]. exists [], [].
    split_and!; [done|constructor|by constructor|done].
Qed.

Lemma matcher_run_spec st ops :
  matcher_ok g st -> Forall op_bytes ops -> exists st', matcher_run F st ops = Some st' /\ matcher_ok g st'.
Proof.
  intros Hst Hops. revert st Hst. induction Hops as [|op ops Hop _ IH]; intros st Hst; simpl; [by exists st|].
  destruct (matcher_step_spec st op Hst Hop) as (st1 & -> & H1). by apply IH.
Qed.

Lemma is_done_sound mt bs :
  matcher_ok g (mt, bs) -> is_done mt = true ->
  exists w, bs = encode_all w /\ Forall codepoint w /\ derives (rules_ g) [RuleItem (root_ g)] w.
Proof.
  intros (_ & Hwf & w & pend & Hbs & Hw & Hp & Hs) [Hr Ha]%andb_true_iff. simpl in *.
  apply Nat.eqb_eq in Hr. inversion Hp as [pa Hpa|b cs extra He Hlen Hcs Epend Epa]; subst.
  - exists w. split_and!; [by rewrite app_nil_r|done|by eapply sim_accepts].
  - rewrite <- Epa in Hr. simpl in Hr. lia.
Qed.

Lemma is_done_complete mt w :
  matcher_ok g (mt, encode_all w) -> Forall codepoint w -> root_fits (rules_ g) (root_ g) w ->
  all_bounded (rules_ g) (root_ g) w -> is_done mt = true.
Proof.
  intros (_ & Hwf & w' & pend & Hbs & Hw' & Hp & Hs) Hw Hf Hb. simpl in *. symmetry in Hbs.
  destruct (encode_all_strip w' pend w Hw' Hw Hbs) as (W & -> & HW). apply Forall_app in Hw as [_ HcW].
  unfold is_done. inversion Hp as [pa Hpa|b cs extra He Hlen Hcs H Epa]; subst.
  - destruct HcW as [|c W Hc HcW].
    + rewrite app_nil_r in Hf, Hb. rewrite Hpa. simpl. by eapply sim_accepts_complete.
    + exfalso. rewrite encode_all_cons in H. destruct (encode_spelled c Hc) as [[_ E]|(? & ? & ? & E & _)];
        by rewrite E in H.
  - exfalso. rewrite <- (app_nil_r cs) in H.
    apply (pending_strip b cs extra [] W He Hlen HcW) in H as (c & W' & cs' & -> & _ & Hsp & E).
    symmetry in E. apply app_eq_nil in E as [-> _]. destruct Hsp as (_ & _ & Hl & _).
    rewrite app_nil_r in Hl. lia.
Qed.
End Session.

Lemma memo_empty_wf rs : memo_wf rs memo_empty.
Proof.
  assert (forall s, node memo_empty s = None) as Hn.
  { intros s. unfold node. destruct (s <? 0); [done|]. apply lookup_nil. }
  constructor; try done.
  - intros s nd. by rewrite Hn.
  - intros s nd. by rewrite Hn.
  - intros pos par id. simpl. rewrite lookup_empty, Hn. split; [done|]. by intros [].
  - intros s k [[_ ->]|(nd & k' & _ & Hnd & _)]%denotes_inv; [split; [simpl; lia|constructor]|].
    by rewrite Hn in Hnd.
Qed.

(** A compiled matcher starts with nothing read, whatever fuel compiled it. *)
Lemma compile_ok fuel src mt :
  Forall byte src -> compile fuel src = Some (Compiled mt) ->
  rules_ok (rules_ (grammar_ mt)) /\ matcher_ok (grammar_ mt) (mt, []) /\ grammar_compile src = Compiled (grammar_ mt).
Proof.
  intros Hs. unfold compile. destruct (grammar_compile src) as [g| | |] eqn:Eg; [|done..]. intros H.
  assert (rules_ok (rules_ g)) as Hok.
  { unfold grammar_compile in Eg. destruct (parse_gbnf src) as [rs root| | |] eqn:Ep; [|done..].
    destruct (parse_table_ok src rs root Hs Ep) as [Hok _].
    destruct (check_left_recursion _ _) as [[]|]; [done| |done]. by injection Eg as <-. }
  pose proof (memo_empty_wf (rules_ g)) as Hwf.
  destruct (sim_start (rules_ g) (root_ g) memo_empty (fuel + expand_fuel (rules_ g)) Hwf ltac:(lia))
    as (m & S & E & Hwf' & _ & Hsim).
  destruct (start_set (rules_ g) (root_ g) fuel memo_empty) as [[m1 S1]|] eqn:E1; [|done].
  rewrite (start_set_mono (rules_ g) (root_ g) fuel (fuel + expand_fuel (rules_ g)) _ _ ltac:(lia) E1) in E. injection E as -> ->.
  simpl in H. destruct S as [|s S]; [done|]. injection H as <-. simpl. split; [done|]. split; [|done].
  split; [done|]. split; [done|]. exists [], []. simpl. split_and!; [done|constructor|by constructor|done].
Qed.
