(* ===== verification/GbnfTheorems.v ===== *)
(** * GBNF: theorems about compiled matchers

    The statements the constrained decoder relies on: what a finished matcher
    says of the text it read, that no continuation within the guards is refused,
    that every operation returns, that the first-byte filter is safe, that
    compilation refuses exactly the left-recursive tables - and how long a
    repetition the depth guard really lets through. *)

From Corelib Require Import ssreflect_rw.
From stdpp Require Import prelude gmap list sorting relations strings.
From S2P Require Import Prelude Gbnf GbnfSim GbnfStacks GbnfRefine GbnfParser GbnfMatcher GbnfLive GbnfTable Utf8Code GbnfLanguage.
Open Scope Z_scope.

(** ** The first-byte filter *)

Section Lead.
Context (g : GbnfGrammar) (F : nat) (HF : (expand_fuel (rules_ g) <= F)%nat) (Hok : rules_ok (rules_ g)).
Let rules := rules_ g.
Let root := root_ g.

(** Some live stack can consume a codepoint in [lo, hi]. *)
Definition consumes (m : Memo) (S : GbnfStackSet) (lo hi : Z) : Prop :=
  exists s cs cp, s ∈ S /\ top_item rules m s = Some (CharItem cs) /\ matches cs cp = true /\ lo <= cp <= hi.

Lemma top_item_ok m s cs : top_item rules m s = Some (CharItem cs) -> cs_ok cs.
Proof.
  unfold top_item. destruct (node m s) as [nd|]; [|done]. intros Hp. unfold items_at in Hp.
  destruct (alts_of rules (p_rule (n_pos nd)) !! p_alt (n_pos nd)) as [alt|] eqn:E; [|done].
  apply (rules_ok_item rules (p_rule (n_pos nd)) alt (CharItem cs)); [done| |]; by eapply list_elem_of_lookup_2.
Qed.

Lemma step_consumes m S w c m' s' S' :
  memo_wf rules m -> sim rules root m S w -> step_into rules F S c m = Some (m', s' :: S') -> consumes m S c c.
Proof.
  intros Hwf (Hs & H1 & _) E. destruct (step_into_spec rules S c m Hwf) as (m1 & S1 & E1 & _ & He & _ & Hl & _).
  { apply Forall_forall. intros s Hin. destruct (H1 s Hin) as (k & ? & _). by exists k. }
  rewrite (step_into_mono _ _ F _ _ _ _ HF E1) in E. injection E as -> ->.
  destruct (Hl s' ltac:(by left)) as (s & Hin & p & ps & cs & k' & Hd & Hp & Hm & _).
  destruct (H1 s Hin) as (k & Hdk & _). pose proof (denotes_fun _ _ _ _ Hd (denotes_extends _ _ _ _ He Hdk)) as <-.
  exists s, cs, c. split_and!; [done| |done|lia..]. apply (top_item_denotes rules m s _ _ Hdk). eauto.
Qed.

Definition block_lo (b : Z) (extra : nat) : Z :=
  Z.max (lead_value b extra * 64 ^ Z.of_nat extra) (utf8_min extra).
Definition block_hi (b : Z) (extra : nat) : Z :=
  Z.min (lead_value b extra * 64 ^ Z.of_nat extra + 64 ^ Z.of_nat extra - 1) kMaxCodepoint.

Lemma block_range b extra cs :
  utf8_extra b = Some extra -> (length cs <= extra)%nat -> (0 < extra)%nat -> Forall cont cs ->
  let r := Z.of_nat (extra - length cs) in
  lead_value b extra * 64 ^ Z.of_nat extra <= code_value b extra cs * 64 ^ r /\
  code_value b extra cs * 64 ^ r + 64 ^ r - 1 <= lead_value b extra * 64 ^ Z.of_nat extra + 64 ^ Z.of_nat extra - 1.
Proof.
  intros He Hl Hp Hcs. simpl. unfold code_value.
  destruct (foldl_add_cont (lead_value b extra) cs Hcs) as (t & -> & Ht).
  assert (64 ^ Z.of_nat extra = 64 ^ Z.of_nat (length cs) * 64 ^ Z.of_nat (extra - length cs)) as ->.
  { rewrite <- Z.pow_add_r by lia. f_equal. lia. }
  assert (0 < 64 ^ Z.of_nat (extra - length cs)) by (apply Z.pow_pos_nonneg; lia).
  assert (0 < 64 ^ Z.of_nat (length cs)) by (apply Z.pow_pos_nonneg; lia). nia.
Qed.

Lemma shift_value b extra cs :
  utf8_extra b = Some extra -> (length cs < extra)%nat -> Forall cont cs ->
  let sh := u32 (6 * Z.of_nat (extra - length cs)) in
  let top := u32 (Z.shiftl (code_value b extra cs) sh) in
  top = code_value b extra cs * 64 ^ Z.of_nat (extra - length cs) /\
  Z.lor top (u32 (Z.shiftl 1 sh - 1)) = top + 64 ^ Z.of_nat (extra - length cs) - 1.
Proof.
  intros He Hl Hcs. simpl. assert (extra <= 3)%nat by (apply utf8_extra_inv in He; lia).
  assert (u32 (6 * Z.of_nat (extra - length cs)) = 6 * Z.of_nat (extra - length cs)) as ->.
  { apply Z.mod_small. unfold two32. lia. }
  assert (64 ^ Z.of_nat (extra - length cs) = 2 ^ (6 * Z.of_nat (extra - length cs))) as E64.
  { change 64 with (2 ^ 6). rewrite <- Z.pow_mul_r by lia. done. }
  rewrite E64. set (sh := 6 * Z.of_nat (extra - length cs)). assert (0 <= sh <= 18) by (unfold sh; lia).
  assert (0 < 2 ^ sh) by (apply Z.pow_pos_nonneg; lia).
  assert (2 ^ sh <= 2 ^ 18) by (apply Z.pow_le_mono_r; lia).
  pose proof (block_range b extra cs He ltac:(lia) ltac:(lia) Hcs) as [Hl' Hr].
  assert (0 <= lead_value b extra * 64 ^ Z.of_nat extra /\
    lead_value b extra * 64 ^ Z.of_nat extra + 64 ^ Z.of_nat extra < 2 ^ 21) as Hlead.
  { rewrite (lead_value_eq _ _ He ltac:(lia)).
    change (2 ^ 21) with 2097152. apply utf8_extra_inv in He as [[-> ?]|[[-> ?]|[[-> ?]|[-> ?]]]]; [lia|..].
    - change (64 ^ Z.of_nat 1) with 64. lia.
    - change (64 ^ Z.of_nat 2) with 4096. lia.
    - change (64 ^ Z.of_nat 3) with 262144. lia. }
  rewrite E64 in Hr, Hl'. fold sh in Hr, Hl'.
  assert (u32 (Z.shiftl (code_value b extra cs) sh) = code_value b extra cs * 2 ^ sh) as ->.
  { rewrite Z.shiftl_mul_pow2 by lia. apply Z.mod_small. unfold two32. lia. }
  split; [done|]. rewrite Z.shiftl_mul_pow2, Z.mul_1_l by lia.
  assert (u32 (2 ^ sh - 1) = 2 ^ sh - 1) as -> by (apply Z.mod_small; unfold two32; lia).
  rewrite <- (Z.shiftl_mul_pow2 (code_value b extra cs)), lor_shiftl by lia.
  rewrite ?Z.shiftl_mul_pow2 by lia. lia.
Qed.

(** A text accepted from inside a character finds its codepoint in the lead's block. *)
Lemma pending_consumes text b cs extra m S w m' r :
  utf8_extra b = Some extra -> (length cs < extra)%nat -> Forall cont cs -> Forall byte text ->
  memo_wf rules m -> sim rules root m S w ->
  run F g text S (mkPartial (code_value b extra cs) (utf8_min extra) (extra - length cs)) m = Some (m', Some r) ->
  consumes m S (block_lo b extra) (block_hi b extra).
Proof.
  intros He Hlen Hcs Hbyte. revert cs Hlen Hcs. induction Hbyte as [|c text Hc _ IH];
    intros cs Hlen Hcs Hwf Hs; simpl.
  - destruct (Nat.ltb_spec 0 (extra - length cs)); [|lia]. simpl.
    destruct (partial_live _ _ _ _) eqn:El; simpl; [intros _|done].
    unfold partial_live in El. simpl in El. apply andb_true_iff in El as [Hle El].
    apply negb_true_iff, Z.ltb_ge in Hle.
    destruct (shift_value b extra cs He Hlen Hcs) as [Et Eh]. simpl in Et, Eh. rewrite Et in *. rewrite Eh in *.
    destruct (block_range b extra cs He ltac:(lia) ltac:(lia) Hcs) as [Hlo Hhi].
    apply existsb_exists in El as (s & Hin & El). apply list_elem_of_In in Hin. fold rules in El.
    destruct (top_item rules m s) as [[|x]|] eqn:Etop; [done| |done].
    apply intersects_exact in El as (cp & Hcp & Hm); [|by eapply top_item_ok|].
    + exists s, x, cp. split_and!; [done..| |]; unfold block_lo, block_hi; lia.
    + unfold kMaxCodepoint, two32 in *. lia.
  - destruct (extra - length cs)%nat as [|k] eqn:Er; [lia|].
    destruct (Z.land c 192 =? 128) eqn:Ec; simpl; [|done]. apply cont_byte_spec in Ec; [|done].
    rewrite (decode_cont b extra cs c) by done. assert (Forall cont (cs ++ [c])) as Hcs'
      by (by apply Forall_app; split; [|constructor]).
    destruct k as [|k].
    + destruct (_ || _) eqn:Ebad; [done|]. apply orb_false_iff in Ebad as [Hmin%Z.ltb_ge Hmax%Z.ltb_ge].
      destruct (step_into _ _ _ _ _) as [[m1 [|s1 S1]]|] eqn:Estep; simpl; [done| |done]. intros _.
      destruct (step_consumes _ _ _ _ _ _ _ Hwf Hs Estep) as (s & x & cp & ? & ? & ? & ?).
      assert (cp = code_value b extra (cs ++ [c])) as -> by lia.
      destruct (block_range b extra (cs ++ [c]) He) as [Hlo Hhi]; [rewrite length_app; simpl; lia|lia|done|].
      rewrite length_app in Hlo, Hhi. simpl in Hlo, Hhi.
      replace (extra - (length cs + 1))%nat with 0%nat in * by lia. simpl in Hlo, Hhi.
      exists s, x, (code_value b extra (cs ++ [c])). split_and!; [done..| |]; unfold block_lo, block_hi; lia.
    + replace (Datatypes.S k) with (extra - length (cs ++ [c]))%nat by (rewrite length_app; simpl; lia).
      apply IH; [rewrite length_app; simpl; lia|done|done|done].
Qed.

Lemma mark_lead_block cs cp b extra span :
  cs_ok cs -> utf8_extra b = Some extra -> (0 < extra)%nat -> matches cs cp = true ->
  block_lo b extra <= cp <= block_hi b extra -> span = 64 ^ Z.of_nat extra - 1 ->
  mark_lead cs (Z.shiftl (lead_value b extra) (6 * Z.of_nat extra)) span (utf8_min extra) = true.
Proof.
  intros Hcs He Hp Hm Hcp ->. unfold mark_lead, block_lo, block_hi in *.
  assert (64 ^ Z.of_nat extra = 2 ^ (6 * Z.of_nat extra)) as E64.
  { change 64 with (2 ^ 6). rewrite <- Z.pow_mul_r by lia. done. }
  assert (0 < 64 ^ Z.of_nat extra) by (apply Z.pow_pos_nonneg; lia).
  rewrite E64 in *. rewrite lor_shiftl by lia. rewrite Z.shiftl_mul_pow2 by lia.
  apply andb_true_iff. split; [apply Z.leb_le; lia|].
  apply intersects_exact; [done| |exists cp; split; [lia|done]]. unfold kMaxCodepoint, two32 in *. lia.
Qed.

Lemma lead_allowed_block cs cp b extra :
  cs_ok cs -> utf8_extra b = Some extra -> matches cs cp = true ->
  (if (0 <? extra)%nat then block_lo b extra <= cp <= block_hi b extra else cp = b) -> lead_allowed cs b = true.
Proof.
  intros Hcs He Hm Hcp. unfold lead_allowed.
  pose proof He as He'. apply utf8_extra_inv in He' as [[-> ?]|[[-> ?]|[[-> ?]|[-> ?]]]]; simpl in Hcp.
  - subst. destruct (Z.ltb_spec b 128); [done|lia].
  - destruct (Z.ltb_spec b 128); [lia|]. destruct (Z.leb_spec 194 b); [|lia].
    destruct (Z.leb_spec b 223); [|lia]. by apply (mark_lead_block cs cp b 1); [..|lia| | |].
  - destruct (Z.ltb_spec b 128); [lia|]. destruct (Z.leb_spec b 223); [lia|]. rewrite andb_false_r.
    destruct (Z.leb_spec 224 b); [|lia]. destruct (Z.leb_spec b 239); [|lia].
    by apply (mark_lead_block cs cp b 2); [..|lia| | |].
  - destruct (Z.ltb_spec b 128); [lia|]. destruct (Z.leb_spec b 223); [lia|]. rewrite andb_false_r.
    destruct (Z.leb_spec b 239); [lia|]. rewrite andb_false_r.
    destruct (Z.leb_spec 240 b); [|lia]. destruct (Z.leb_spec b 244); [|lia].
    by apply (mark_lead_block cs cp b 3); [..|lia| | |].
Qed.

Lemma lead_bytes_run mt bs b text m' r :
  matcher_ok g (mt, bs) -> byte b -> Forall byte text ->
  run F g (b :: text) (stacks_ mt) (partial_ mt) (memo_ mt) = Some (m', Some r) ->
  lead_bytes mt !! Z.to_nat b = Some true.
Proof.
  intros (Hg & Hwf & w & pend & _ & _ & Hp & Hs) Hb Ht. simpl in *. unfold lead_bytes, grammar_lead_bytes.
  assert (seq 0 256 !! Z.to_nat b = Some (Z.to_nat b)) as Hseq.
  { apply lookup_seq. unfold byte in Hb. lia. }
  assert (Z.of_nat (Z.to_nat b) = b) as Hid by (unfold byte in Hb; lia). rewrite Hg.
  assert (forall lo hi extra, utf8_extra b = Some extra -> consumes (memo_ mt) (stacks_ mt) lo hi ->
    (forall cp, lo <= cp <= hi -> if (0 <? extra)%nat then block_lo b extra <= cp <= block_hi b extra else cp = b) ->
    ((fun b0 : nat => existsb (fun s : Z => match top_item rules (memo_ mt) s with
        | Some (CharItem cs) => lead_allowed cs (Z.of_nat b0) | _ => false end) (stacks_ mt)) <$> seq 0 256)
      !! Z.to_nat b = Some true) as Htable.
  { intros lo hi extra He (s & cs & cp & Hin & Htop & Hm & Hcp) Hblk.
    rewrite list_lookup_fmap, Hseq. simpl. f_equal. rewrite Hid. apply existsb_exists.
    exists s. split; [by apply list_elem_of_In|]. rewrite Htop. eapply lead_allowed_block; [|done|done|by apply Hblk].
    by eapply top_item_ok. }
  inversion Hp as [pa Hpa|b0 cs extra He Hlen Hcs Epend Epa]; subst.
  - rewrite Hpa. simpl. destruct (utf8_extra b) as [[|extra]|] eqn:Ee; [| |done].
    + destruct (step_into _ _ _ _ _) as [[m1 [|s1 S1]]|] eqn:Estep; simpl; [done| |done]. intros _.
      apply (Htable b b 0%nat eq_refl); [by eapply step_consumes|]. simpl. lia.
    + intros Hrun. apply (Htable (block_lo b (S extra)) (block_hi b (S extra)) (S extra) eq_refl).
      * eapply (pending_consumes text b [] (S extra)); [done|simpl; lia|constructor|done|done|done|exact Hrun].
      * done.
  - intros Hrun. destruct (extra - length cs)%nat as [|k] eqn:Er; [lia|].
    cbn [remaining Nat.ltb Nat.leb]. rewrite list_lookup_fmap, Hseq. simpl in Hrun |- *. rewrite Hid.
    by destruct (Z.land b 192 =? 128).
Qed.
End Lead.

(** ** Checking the size guard by running *)

(** All stack sets met on [w] stay below [kMaxStacks]. *)
Fixpoint small_run (fuel : nat) (g : GbnfGrammar) (w : list Z) (S : GbnfStackSet) (m : Memo) : bool :=
  (length S <? kMaxStacks)%nat &&
  match w with
  | [] => true
  | c :: w' =>
      match step_into (rules_ g) fuel S c m with
      | Some (m', S') => small_run fuel g w' S' m'
      | None => false
      end
  end.

Definition small_word (fuel : nat) (g : GbnfGrammar) (w : list Z) : bool :=
  match start_set (rules_ g) (root_ g) fuel memo_empty with
  | Some (m, st) => small_run fuel g w st m
  | None => false
  end.

Lemma covered_bounded g m S v :
  (forall s, s ∈ S -> exists k, denotes m s k) ->
  (forall k, live (rules_ g) (root_ g) v k -> exists s, s ∈ S /\ denotes m s k) ->
  (length S < kMaxStacks)%nat -> bounded (rules_ g) (root_ g) v.
Proof.
  intros Hv Hc Hl. assert (exists ks, Forall2 (denotes m) S ks) as [ks Hks].
  { clear Hc Hl. induction S as [|s S IH]; [by exists []|].
    destruct (Hv s ltac:(by left)) as [k Hk]. destruct IH as [ks Hks]; [intros; apply Hv; by right|].
    exists (k :: ks). by constructor. }
  exists ks. rewrite <- (Forall2_length _ _ _ Hks). split; [done|]. intros k Hk.
  destruct (Hc k Hk) as (s & Hin & Hd). apply list_elem_of_lookup_1 in Hin as [i Hi].
  eapply Forall2_lookup_l in Hks as (k' & Hk' & Hd'); [|done].
  rewrite (denotes_fun _ _ _ _ Hd Hd'). by eapply list_elem_of_lookup_2.
Qed.

Lemma small_run_bounded fuel g w v S m :
  memo_wf (rules_ g) m -> all_bounded (rules_ g) (root_ g) v ->
  (forall s, s ∈ S -> exists k, denotes m s k) ->
  (forall k, live (rules_ g) (root_ g) v k -> exists s, s ∈ S /\ denotes m s k) ->
  small_run fuel g w S m = true -> all_bounded (rules_ g) (root_ g) (v ++ w).
Proof.
  revert v S m. induction w as [|c w IH]; intros v S m Hwf Hb Hv Hc; simpl; [by rewrite app_nil_r|].
  intros [Hl%Nat.ltb_lt Hrun]%andb_true_iff.
  destruct (step_into (rules_ g) fuel S c m) as [[m' S']|] eqn:E; [|done].
  destruct (step_into_spec (rules_ g) S c m Hwf) as (m1 & S1 & E1 & Hwf1 & He & _ & Hl1 & Hc1).
  { apply Forall_forall. done. }
  apply (step_into_mono _ _ (fuel + expand_fuel (rules_ g))) in E; [|lia].
  rewrite (step_into_mono (rules_ g) (expand_fuel (rules_ g)) (fuel + expand_fuel (rules_ g)) S c m _ ltac:(lia) E1) in E. injection E as -> ->.
  assert (length S' < kMaxStacks)%nat as HS' by (destruct w; simpl in Hrun; by apply andb_true_iff in Hrun as [?%Nat.ltb_lt _]).
  assert (forall k, live (rules_ g) (root_ g) (v ++ [c]) k -> exists s, s ∈ S' /\ denotes m' s k) as Hc'.
  { intros k Hk. apply live_snoc_inv in Hk as (p & ps & cs & Hlive & Hp & Hm & Hcl).
    destruct (Hc _ Hlive) as (s & Hin & Hd). eapply Hc1; [done|done|by eapply denotes_extends|done..]. }
  assert (forall s, s ∈ S' -> exists k, denotes m' s k) as Hv'.
  { intros s Hs. destruct (Hl1 s Hs) as (? & _ & ? & ? & ? & k & _ & _ & _ & _ & ?). by exists k. }
  replace (v ++ c :: w) with ((v ++ [c]) ++ w) by (by rewrite <- app_assoc).
  apply (IH _ S' m'); [done| |done|done|done]. intros u Hu.
  destruct (decide (u = v ++ [c])) as [->|Hne].
  - by eapply covered_bounded.
  - apply Hb. destruct Hu as [x Hx].
    destruct x as [|y x _] using rev_ind; [by rewrite app_nil_r in Hx|].
    rewrite app_assoc in Hx. apply app_inj_tail in Hx as [-> _]. by eexists.
Qed.

Lemma small_word_bounded fuel g w :
  small_word fuel g w = true -> all_bounded (rules_ g) (root_ g) w.
Proof.
  unfold small_word. destruct (start_set _ _ fuel memo_empty) as [[m S]|] eqn:E; [|done].
  destruct (start_set_spec (rules_ g) (root_ g) memo_empty) as (m1 & S1 & E1 & Hwf & _ & _ & H1 & H2);
    [apply memo_empty_wf|].
  apply (start_set_mono _ _ _ (fuel + expand_fuel (rules_ g))) in E; [|lia].
  rewrite (start_set_mono (rules_ g) (root_ g) (expand_fuel (rules_ g)) (fuel + expand_fuel (rules_ g)) memo_empty _ ltac:(lia) E1) in E. injection E as -> ->.
  intros Hrun. assert (length S < kMaxStacks)%nat as HS
    by (destruct w; simpl in Hrun; by apply andb_true_iff in Hrun as [?%Nat.ltb_lt _]).
  assert (forall k, live (rules_ g) (root_ g) [] k -> exists s, s ∈ S /\ denotes m s k) as Hc.
  { intros k Hk. apply H2. inversion Hk as [k' ? E2|u c p ps cs k' ? ? ? ? E2]; [done|by destruct u]. }
  assert (forall s, s ∈ S -> exists k, denotes m s k) as Hv.
  { intros s Hs. destruct (H1 s Hs) as (k & ? & _). by exists k. }
  apply (small_run_bounded fuel g w [] S m); [done| |done|done|done].
  intros u [x Hx]. symmetry in Hx. apply app_eq_nil in Hx as [-> _]. by eapply covered_bounded.
Qed.

(** ** Sessions from source text *)

Lemma session_ok fuel F src mt0 ops mt bs :
  Forall byte src -> Forall op_bytes ops -> compile fuel src = Some (Compiled mt0) ->
  matcher_run fuel (mt0, []) ops = Some (mt, bs) -> F = (fuel + expand_fuel (rules_ (grammar_ mt0)))%nat ->
  rules_ok (rules_ (grammar_ mt0)) /\ matcher_ok (grammar_ mt0) (mt, bs).
Proof.
  intros Hs Hops Hc Hr ->. destruct (compile_ok fuel src mt0 Hs Hc) as (Hok & Hst & _). split; [done|].
  set (F := (fuel + expand_fuel (rules_ (grammar_ mt0)))%nat).
  destruct (matcher_run_spec (grammar_ mt0) F ltac:(unfold F; lia) Hok _ ops Hst Hops) as (st' & E & Hst').
  apply (matcher_run_mono _ F) in Hr; [|unfold F; lia]. congruence.
Qed.

(** C17: A matcher compiled from GBNF source and fed any texts, in any order, with
    rejected texts and probes in between, reports that it is done only when the
    bytes it accepted since the last reset are the UTF-8 encoding of a word the
    grammar's root rule derives. *)
Theorem matcher_sound fuel src mt0 ops mt bs :
  Forall byte src -> Forall op_bytes ops -> compile fuel src = Some (Compiled mt0) ->
  matcher_run fuel (mt0, []) ops = Some (mt, bs) -> is_done mt = true ->
  exists w, bs = encode_all w /\ Forall codepoint w /\
    derives (rules_ (grammar_ mt0)) [RuleItem (root_ (grammar_ mt0))] w.
Proof.
  intros Hs Hops Hc Hr Hd. destruct (session_ok _ _ _ _ _ _ _ Hs Hops Hc Hr eq_refl) as [Hok Hst].
  by eapply is_done_sound.
Qed.

(** C18: Nothing legal is refused: while the accepted bytes and the next text begin
    the encoding of a word the root derives within the depth and size guards, the
    text is accepted, whether probed or committed, however the word is cut into
    texts - also in the middle of a character; and with the whole word read the
    matcher is done. *)
Theorem matcher_complete fuel src mt0 ops mt bs w text v :
  Forall byte src -> Forall op_bytes ops -> compile fuel src = Some (Compiled mt0) ->
  matcher_run fuel (mt0, []) ops = Some (mt, bs) ->
  Forall codepoint w -> root_fits (rules_ (grammar_ mt0)) (root_ (grammar_ mt0)) w ->
  all_bounded (rules_ (grammar_ mt0)) (root_ (grammar_ mt0)) w ->
  Forall byte text -> bs ++ text ++ v = encode_all w ->
  (forall ok mt', would_accept fuel text mt = Some (ok, mt') -> ok = true) /\
  (forall ok mt', update_text fuel text mt = Some (ok, mt') -> ok = true) /\
  (bs = encode_all w -> is_done mt = true).
Proof.
  intros Hs Hops Hc Hr Hw Hf Hb Ht E. destruct (session_ok _ _ _ _ _ _ _ Hs Hops Hc Hr eq_refl) as [Hok Hst].
  set (g := grammar_ mt0) in *. pose proof Hst as (Hg & Hwf & Hrd).
  destruct (run_spec g (fuel + expand_fuel (rules_ g)) ltac:(lia) text bs _ _ _ Hok Ht Hwf Hrd)
    as (m' & r & Er & _ & _ & _ & Hne). simpl in *.
  assert (r <> None) as Hr1.
  { apply Hne. exists w, v. by rewrite <- app_assoc. }
  split_and!.
  - unfold would_accept. rewrite Hg. intros ok mt'. destruct (run fuel g text _ _ _) as [[m1 r1]|] eqn:E1; [|done].
    apply (run_mono _ _ (fuel + expand_fuel (rules_ g))) in E1; [|lia]. rewrite E1 in Er. simplify_eq/=.
    intros [= <- _]. by destruct r.
  - unfold update_text. rewrite Hg. intros ok mt'. destruct (run fuel g text _ _ _) as [[m1 r1]|] eqn:E1; [|done].
    apply (run_mono _ _ (fuel + expand_fuel (rules_ g))) in E1; [|lia]. rewrite E1 in Er. simplify_eq/=.
    destruct r as [[]|]; [|done]. by intros [= <- _].
  - intros ->. by eapply is_done_complete.
Qed.

(** C19: Every operation returns.  For every source text there is an amount of work
    within which compilation and any session of probes, feeds and resets on the
    compiled matcher finish - the expansion loop cannot run away, even on a
    grammar whose rules recurse. *)
Theorem matcher_total src :
  Forall byte src -> exists n, forall fuel, (n <= fuel)%nat ->
    compile fuel src <> None /\
    forall mt0 ops, compile fuel src = Some (Compiled mt0) -> Forall op_bytes ops ->
      matcher_run fuel (mt0, []) ops <> None.
Proof.
  intros Hs. destruct (grammar_compile src) as [g| | |] eqn:Eg.
  - exists (expand_fuel (rules_ g)). intros fuel Hf. split.
    + unfold compile. rewrite Eg.
      destruct (sim_start (rules_ g) (root_ g) memo_empty fuel (memo_empty_wf _) Hf) as (m & S & -> & _). simpl.
      by destruct S.
    + intros mt0 ops Hc Hops. destruct (compile_ok fuel src mt0 Hs Hc) as (Hok & Hst & Hg).
      assert (grammar_ mt0 = g) as Eg' by congruence.
      destruct (matcher_run_spec (grammar_ mt0) fuel ltac:(by rewrite Eg') Hok _ ops Hst Hops) as (st' & -> & _).
      done.
  - exists 0%nat. intros fuel _. unfold compile. rewrite Eg. split; [done|]. by intros.
  - exists 0%nat. intros fuel _. unfold compile. rewrite Eg. split; [done|]. by intros.
  - exfalso. unfold grammar_compile in Eg. pose proof (parse_total src Hs) as Ht.
    destruct (parse_gbnf src) as [rs root| | |] eqn:Ep; [|done..].
    destruct (parse_table_ok src rs root Hs Ep) as [Hok _].
    destruct (check_left_recursion_spec rs Hok) as (res & E & _). rewrite E in Eg. by destruct res.
Qed.

(** The first-byte filter is safe: a byte it masks cannot begin any text the
    matcher would accept in that state, also in the middle of a character. *)
Theorem lead_bytes_safe fuel src mt0 ops mt bs b text mt' :
  Forall byte src -> Forall op_bytes ops -> compile fuel src = Some (Compiled mt0) ->
  matcher_run fuel (mt0, []) ops = Some (mt, bs) -> Forall byte (b :: text) ->
  would_accept fuel (b :: text) mt = Some (true, mt') ->
  lead_bytes mt !! Z.to_nat b = Some true.
Proof.
  intros Hs Hops Hc Hr [Hb Ht]%Forall_cons Hw. destruct (session_ok _ _ _ _ _ _ _ Hs Hops Hc Hr eq_refl) as [Hok Hst].
  set (g := grammar_ mt0) in *. pose proof (proj1 Hst) as Hg. simpl in Hg.
  unfold would_accept in Hw. rewrite Hg in Hw.
  destruct (run fuel g (b :: text) (stacks_ mt) (partial_ mt) (memo_ mt)) as [[m1 [r|]]|] eqn:E1; [|done..].
  apply (run_mono _ _ (fuel + expand_fuel (rules_ g))) in E1; [|lia].
  eapply (lead_bytes_run g (fuel + expand_fuel (rules_ g))); [lia|done|done|done|done|exact E1].
Qed.

(** C20: Compilation of a source text that parses yields a well-formed rule table and
    refuses it exactly when some rule can reach itself before any input is read;
    the nullable flags it computes on the way are exactly the rules deriving the
    empty word. *)
Theorem grammar_compile_exact src rs root :
  Forall byte src -> parse_gbnf src = Parsed rs root ->
  rules_ok rs /\ (root < length rs)%nat /\
  (forall r, (r < length rs)%nat ->
     compute_nullable rs !! r = Some true <-> derives rs [RuleItem r] []) /\
  ((grammar_compile src = Compiled (mkGrammar rs (compute_nullable rs) root) /\
    forall r, ~ tc (first_edge rs) r r) \/
   (exists r, grammar_compile src = Refused (LeftRecursion (name_of rs r)) /\ tc (first_edge rs) r r)).
Proof.
  intros Hs Hp. destruct (parse_table_ok src rs root Hs Hp) as (Hok & Hroot & _). split_and!; [done|done|..].
  - intros r Hr. rewrite <- compute_nullable_exact. simpl.
    destruct (lookup_lt_is_Some_2 (compute_nullable rs) r) as [b Hb]; [by rewrite compute_nullable_length|].
    rewrite Hb. simpl. rewrite andb_true_r. split; congruence.
  - destruct (check_left_recursion_spec rs Hok) as (res & E & H1 & H2). unfold grammar_compile. rewrite Hp, E.
    destruct res as [r|]; [right; exists r; auto|left; auto].
Qed.

(** ** A repetition in front of the depth guard

    [root ::= [a-z]*] is desugared to a right-recursive helper rule, so each
    repetition leaves one more frame on the stack. *)

Definition star_src : list Z := src_of "root ::= [a-z]*".

Definition star_rules : list GbnfRule :=
  [mkRule (src_of "root") [[RuleItem 1]];
   mkRule [] [[]; [CharItem (mkCharSet [(97, 122)] false); RuleItem 1]]].

Definition letter (c : Z) : Prop := 97 <= c <= 122.

Lemma letter_matches c : letter c -> matches (mkCharSet [(97, 122)] false) c = true.
Proof.
  intros Hc. apply orb_true_iff. left. apply andb_true_iff. unfold letter in Hc.
  by split; apply Z.leb_le; simpl; lia.
Qed.

Lemma star_derives w : Forall letter w -> derives star_rules [RuleItem 0] w.
Proof.
  intros Hw. apply derives_single_rule. exists [RuleItem 1]. split; [by left|].
  induction Hw as [|c w Hc _ IH]; apply derives_single_rule.
  - exists []. split; [by left|constructor].
  - eexists. split; [by right; left|]. constructor; [by apply letter_matches|done].
Qed.

(** Every letter is treated alike. *)
Lemma star_step m S c : letter c -> forall f, step_into star_rules f S c m = step_into star_rules f S 97 m.
Proof.
  intros Hc f. unfold step_into. f_equal. generalize (@nil Z) as out. revert m.
  induction S as [|s S IH]; intros m out; simpl; [done|].
  destruct (top_item star_rules m s) as [[|cs]|] eqn:E; [done| |done].
  assert (matches cs c = matches cs 97) as ->; [|destruct (matches cs 97); [|done]].
  - unfold top_item in E. destruct (node m s) as [[[[|[|r]] a i] par d]|]; [| | |done]; unfold items_at in E; simpl in E.
    + by destruct a as [|a], i as [|[|i]].
    + destruct a as [|[|a]], i as [|[|i]]; try done. injection E as <-. by rewrite letter_matches.
    + done.
  - destruct (successors star_rules f s m) as [[m1 nx]|]; [|done]. simpl. apply IH.
Qed.

Lemma star_run fuel g text text' : rules_ g = star_rules -> Forall letter text -> forall S pa m,
  remaining pa = O -> run fuel g (text ++ text') S pa m = run fuel g (replicate (length text) 97 ++ text') S pa m.
Proof.
  intros Hg Ht. induction Ht as [|c text Hc _ IH]; intros S pa m Hp; [done|].
  cbn [app length replicate run]. rewrite Hp.
  assert (utf8_extra c = Some O) as -> by (unfold utf8_extra, letter in *; destruct (Z.ltb_spec c 128); [done|lia]).
  change (utf8_extra 97) with (Some O). cbn iota. rewrite Hg, (star_step m S c Hc).
  destruct (step_into star_rules fuel S 97 m) as [[m1 [|s1 S1]]|]; [done| |done]. simpl. by apply IH.
Qed.

(** A text that dies early stays dead. *)
Lemma run_app_dead fuel g t1 t2 m : forall S pa,
  (remaining pa = O) -> Forall (fun b => b < 128) t1 -> (exists m', run fuel g t1 S pa m = Some (m', None)) ->
  exists m', run fuel g (t1 ++ t2) S pa m = Some (m', None).
Proof.
  revert m. induction t1 as [|b t1 IH]; intros m S pa Hp Ht [m' E]; simpl in E.
  - by rewrite Hp in E.
  - apply Forall_cons in Ht as [Hb Ht]. simpl. rewrite Hp in E |- *. unfold utf8_extra in *.
    destruct (Z.ltb_spec b 128); [|lia].
    destruct (step_into _ _ _ _ _) as [[m1 [|s1 S1]]|]; simpl in *; [by eauto| |done]. by eapply IH; eauto.
Qed.

Definition matcher_of (fuel : nat) (src : list Z) : GbnfMatcher :=
  match compile fuel src with
  | Some (Compiled mt) => mt
  | _ => mkMatcher (mkGrammar [] [] 0) memo_empty [] no_partial
  end.

Definition star_matcher : GbnfMatcher := matcher_of 1000 star_src.

Definition run_dies (fuel : nat) (mt : GbnfMatcher) (text : list Z) : bool :=
  match run fuel (grammar_ mt) text (stacks_ mt) (partial_ mt) (memo_ mt) with
  | Some (_, None) => true
  | _ => false
  end.

Lemma star_compiles : compile 1000 star_src = Some (Compiled star_matcher).
Proof. vm_compute. reflexivity. Qed.
Lemma star_matcher_facts :
  rules_ (grammar_ star_matcher) = star_rules /\ root_ (grammar_ star_matcher) = O /\ partial_ star_matcher = no_partial.
Proof. vm_compute. auto. Qed.
Lemma star_126 :
  match update_text 1000 (replicate 126 97) star_matcher with Some (true, mt) => is_done mt | _ => false end = true.
Proof. vm_compute. reflexivity. Qed.
Lemma star_127 : run_dies 1000 star_matcher (replicate 127 97) = true.
Proof. vm_compute. reflexivity. Qed.

Lemma star_dead fuel mt0 n w :
  rules_ (grammar_ mt0) = star_rules -> partial_ mt0 = no_partial -> run_dies fuel mt0 (replicate n 97) = true ->
  Forall letter w -> (n <= length w)%nat -> exists mt, update_text fuel w mt0 = Some (false, mt).
Proof.
  unfold run_dies, update_text. intros Hr Hp Hn Hw Hlen. rewrite <- (take_drop n w).
  rewrite star_run; [|done|by apply Forall_take|by rewrite Hp]. rewrite length_take_le by done.
  destruct (run_app_dead fuel (grammar_ mt0) (replicate n 97) (drop n w) (memo_ mt0) (stacks_ mt0) (partial_ mt0))
    as [m' Em]; [by rewrite Hp|by apply Forall_replicate| |rewrite Em; by eexists].
  destruct (run fuel (grammar_ mt0) (replicate n 97) _ _ _) as [[m' []]|]; [done|by eexists|done].
Qed.

(** C21: A repetition has an end the grammar does not: under [root ::= [a-z]*] the
    matcher refuses every text of more than 126 letters, while the rule derives
    letter words of every length. *)
Theorem star_cut_at_126 :
  compile 1000 star_src = Some (Compiled star_matcher) /\
  (forall w, Forall letter w -> derives (rules_ (grammar_ star_matcher)) [RuleItem (root_ (grammar_ star_matcher))] w) /\
  (exists mt, update_text 1000 (replicate 126 97) star_matcher = Some (true, mt) /\ is_done mt = true) /\
  (forall w, Forall letter w -> (126 < length w)%nat -> exists mt, update_text 1000 w star_matcher = Some (false, mt)).
Proof.
  destruct star_matcher_facts as (Hr & Hroot & Hp). split; [exact star_compiles|]. rewrite Hr, Hroot.
  split; [exact star_derives|]. split.
  - pose proof star_126 as H. destruct (update_text 1000 (replicate 126 97) star_matcher) as [[[] mt]|]; [by eauto|done..].
  - intros w Hw Hlen. exact (star_dead 1000 star_matcher 127 w Hr Hp star_127 Hw Hlen).
Qed.

(** ** The hypotheses hold: sessions on small grammars *)

Definition demo_src : list Z := src_of "root ::= [a] root [b] | [\u00e9]".

Definition demo_ops : list MatcherOp :=
  [Feed (src_of "xa"); Feed (src_of "aa"); Probe (src_of "b"); Feed [195]; Feed [169; 98; 98]].

Definition demo_matcher : GbnfMatcher := matcher_of 1000 demo_src.

Definition demo_after (ops : list MatcherOp) : GbnfMatcher * list Z :=
  default (demo_matcher, []) (matcher_run 1000 (demo_matcher, []) ops).

Definition op_bytes_b (op : MatcherOp) : bool := match op with Probe t | Feed t => bytes_b t | Restart_ => true end.

Lemma op_bytes_b_ok ops : forallb op_bytes_b ops = true -> Forall op_bytes ops.
Proof.
  intros H. pose proof (proj1 (forallb_forall _ _) H) as H0. apply Forall_forall. intros op Hop%list_elem_of_In%H0.
  destruct op; simpl in *; [by apply bytes_b_ok..|done].
Qed.

Lemma matcher_sound_witness : exists w,
  src_of "aa" ++ [195; 169] ++ src_of "bb" = encode_all w /\ Forall codepoint w /\
  derives (rules_ (grammar_ demo_matcher)) [RuleItem (root_ (grammar_ demo_matcher))] w.
Proof.
  apply (matcher_sound 1000 demo_src demo_matcher demo_ops (demo_after demo_ops).1).
  - by apply bytes_b_ok; vm_compute.
  - by apply op_bytes_b_ok; vm_compute.
  - by vm_compute.
  - by vm_compute.
  - by vm_compute.
Defined.

Definition demo_word : list Z := [97; 97; 233; 98; 98].
Definition demo_read : list MatcherOp := [Feed (src_of "xa"); Feed (src_of "aa"); Feed [195]].

Definition demo_nest : GbnfAlt :=
  [CharItem (mkCharSet [(97, 97)] false); RuleItem 0; CharItem (mkCharSet [(98, 98)] false)].
Definition demo_rules : list GbnfRule :=
  [mkRule (src_of "root") [demo_nest; [CharItem (mkCharSet [(233, 233)] false)]]].

Lemma demo_nest_fits d c w :
  (S d < depth_limit)%nat -> c ∈ alts_of demo_rules 0 -> fits demo_rules (S d) c w ->
  fits demo_rules d demo_nest (97 :: w ++ [98]).
Proof.
  intros Hd Hc Hw. constructor; [done|]. eapply fits_rule; [exact Hc|lia|exact Hw|].
  constructor; [done|constructor].
Qed.

Lemma demo_root_fits : root_fits (rules_ (grammar_ demo_matcher)) (root_ (grammar_ demo_matcher)) demo_word.
Proof.
  assert (rules_ (grammar_ demo_matcher) = demo_rules /\ root_ (grammar_ demo_matcher) = O) as [-> ->].
  { vm_compute. auto. }
  exists demo_nest. split; [by left|].
  apply (demo_nest_fits 1 demo_nest [97; 233; 98]); [unfold depth_limit, kMaxStackDepth; lia|by left|].
  apply (demo_nest_fits 2 [CharItem (mkCharSet [(233, 233)] false)] [233]);
    [unfold depth_limit, kMaxStackDepth; lia|by right; left|].
  constructor; [done|constructor].
Qed.

Lemma matcher_complete_witness :
  let mt := (demo_after demo_read).1 in
  (forall ok mt', would_accept 1000 [169; 98] mt = Some (ok, mt') -> ok = true) /\
  (forall ok mt', update_text 1000 [169; 98] mt = Some (ok, mt') -> ok = true) /\
  (src_of "aa" ++ [195] = encode_all demo_word -> is_done mt = true).
Proof.
  apply (matcher_complete 1000 demo_src demo_matcher demo_read _ _ demo_word [169; 98] [98]).
  - by apply bytes_b_ok; vm_compute.
  - by apply op_bytes_b_ok; vm_compute.
  - by vm_compute.
  - by vm_compute.
  - unfold demo_word, codepoint, kMaxCodepoint. repeat constructor; lia.
  - exact demo_root_fits.
  - by apply (small_word_bounded 1000); vm_compute.
  - by apply bytes_b_ok; vm_compute.
  - by vm_compute.
Defined.

Lemma matcher_total_witness : exists n, forall fuel, (n <= fuel)%nat ->
  compile fuel demo_src <> None /\
  forall mt0 ops, compile fuel demo_src = Some (Compiled mt0) -> Forall op_bytes ops ->
    matcher_run fuel (mt0, []) ops <> None.
Proof. apply (matcher_total demo_src). by apply bytes_b_ok; vm_compute. Defined.

Lemma lead_bytes_safe_witness : lead_bytes (demo_after [Feed (src_of "a")]).1 !! 195%nat = Some true.
Proof.
  destruct (would_accept 1000 [195; 169] (demo_after [Feed (src_of "a")]).1) as [[[] mt']|] eqn:E.
  - apply (lead_bytes_safe 1000 demo_src demo_matcher [Feed (src_of "a")] _ (src_of "a") 195 [169] mt').
    + by apply bytes_b_ok; vm_compute.
    + by apply op_bytes_b_ok; vm_compute.
    + by vm_compute.
    + by vm_compute.
    + by apply bytes_b_ok; vm_compute.
    + exact E.
  - by vm_compute in E.
  - by vm_compute in E.
Defined.

Lemma grammar_compile_exact_witness :
  rules_ok demo_rules /\ (0 < length demo_rules)%nat /\
  (forall r, (r < length demo_rules)%nat ->
     compute_nullable demo_rules !! r = Some true <-> derives demo_rules [RuleItem r] []) /\
  ((grammar_compile demo_src = Compiled (mkGrammar demo_rules (compute_nullable demo_rules) 0) /\
    forall r, ~ tc (first_edge demo_rules) r r) \/
   (exists r, grammar_compile demo_src = Refused (LeftRecursion (name_of demo_rules r)) /\ tc (first_edge demo_rules) r r)).
Proof.
  apply (grammar_compile_exact demo_src demo_rules 0).
  - by apply bytes_b_ok; vm_compute.
  - by vm_compute.
Defined.
