(* ===== verification/GbnfSyntax.v ===== *)
(** * GBNF as a language: abstract syntax, meaning, spellings

    The notation [compute/gbnf_grammar.h] documents, independently of the
    parser: what a grammar is, which codepoint words each rule of it describes,
    and which texts spell it - with blanks, comments, escapes, groups and
    repetitions.  [GbnfRoundTrip] shows that the parser of [GbnfParser] turns
    every spelling of a grammar into a rule table for the grammar's language. *)

From Corelib Require Import ssreflect_rw.
From stdpp Require Import prelude list.
From S2P Require Import Prelude Gbnf GbnfParser GbnfMatcher.
Open Scope Z_scope.

Notation word := (list Z) (only parsing).

(** ** Abstract syntax *)

Inductive RepOp :=
  | RStar                              (* x* *)
  | RPlus                              (* x+ *)
  | ROpt                               (* x? *)
  | RBounds (lo : nat) (hi : option nat). (* x{lo}, x{lo,}, x{lo,hi} *)

(** An element of a sequence carries its postfix operators, first applied first. *)
Inductive elem :=
  | ELit (cps : list Z)
  | EClass (cs : GbnfCharSet)
  | EAny
  | ERef (name : list Z)
  | EGroup (a : alternatives)
with sequence :=
  | SNil
  | SCons (e : elem) (ops : list RepOp) (s : sequence)
with alternatives :=
  | AOne (s : sequence)
  | AMore (s : sequence) (a : alternatives).

Definition grammar := list (list Z * alternatives).

Scheme elem_ind' := Induction for elem Sort Prop
with sequence_ind' := Induction for sequence Sort Prop
with alternatives_ind' := Induction for alternatives Sort Prop.
Combined Scheme syntax_mutind from elem_ind', sequence_ind', alternatives_ind'.

(** ** Meaning *)

Notation language := (word -> Prop).

(** Between [lo] and [hi] words of [L], one after the other. *)
Definition repeated (lo : nat) (hi : option nat) (L : language) : language := fun w =>
  exists ws, w = concat ws /\ Forall L ws /\ (lo <= length ws)%nat /\
    match hi with Some h => (length ws <= h)%nat | None => True end.

Definition op_lang (op : RepOp) : language -> language :=
  match op with
  | RStar => repeated 0 None
  | RPlus => repeated 1 None
  | ROpt => repeated 0 (Some 1%nat)
  | RBounds lo hi => repeated lo hi
  end.

Definition ops_lang (ops : list RepOp) (L : language) : language := foldl (fun L op => op_lang op L) L ops.

(** [N] gives the languages of the rule names. *)
Fixpoint elem_lang (N : list Z -> language) (e : elem) : language :=
  match e with
  | ELit cps => fun w => w = cps
  | EClass cs => fun w => exists c, w = [c] /\ matches cs c = true
  | EAny => fun w => exists c, w = [c]
  | ERef name => N name
  | EGroup a => alternatives_lang N a
  end
with sequence_lang (N : list Z -> language) (s : sequence) : language :=
  match s with
  | SNil => fun w => w = []
  | SCons e ops s => fun w => exists w1 w2, w = w1 ++ w2 /\
      ops_lang ops (elem_lang N e) w1 /\ sequence_lang N s w2
  end
with alternatives_lang (N : list Z -> language) (a : alternatives) : language :=
  match a with
  | AOne s => sequence_lang N s
  | AMore s a => fun w => sequence_lang N s w \/ alternatives_lang N a w
  end.

(** The languages of a grammar's rules: the least ones its equations allow. *)
Definition closed_under (g : grammar) (N : list Z -> language) : Prop :=
  forall name a w, (name, a) ∈ g -> alternatives_lang N a w -> N name w.

Definition rule_lang (g : grammar) (name : list Z) : language := fun w =>
  forall N, closed_under g N -> N name w.

(** ** Spelling *)

(** Blanks; line breaks and comments only where a line break does not end a rule. *)
Inductive blank (nl : bool) : list Z -> Prop :=
  | blank_nil : blank nl []
  | blank_space c ws : c = 32 \/ c = 9 \/ c = 13 -> blank nl ws -> blank nl (c :: ws)
  | blank_newline ws : nl = true -> blank nl ws -> blank nl (10 :: ws)
  | blank_comment t ws : nl = true -> 10 ∉ t -> blank nl ws -> blank nl (35 :: t ++ 10 :: ws).

(** Hexadecimal digits and the number they denote. *)
Definition hex_value (ds : list Z) (v : Z) : Prop :=
  exists vs, Forall2 (fun d v => hex_digit d = Some v) ds vs /\ v = foldl (fun a d => 16 * a + d) 0 vs.

(** One character, where [special] bytes must be escaped. *)
Inductive spells_char (special : list Z) : Z -> list Z -> Prop :=
  | char_ascii c : 0 <= c < 128 -> c ∉ special -> spells_char special c [c]
  | char_utf8 c : 128 <= c -> codepoint c -> spells_char special c (encode c)
  | char_n : spells_char special 10 [92; 110]
  | char_r : spells_char special 13 [92; 114]
  | char_t : spells_char special 9 [92; 116]
  | char_0 : spells_char special 0 [92; 48]
  | char_hex2 ds v : length ds = 2%nat -> hex_value ds v -> spells_char special v (92 :: 120 :: ds)
  | char_hex4 ds v : length ds = 4%nat -> hex_value ds v -> spells_char special v (92 :: 117 :: ds)
  | char_hex8 ds v : length ds = 8%nat -> hex_value ds v -> spells_char special v (92 :: 85 :: ds)
  | char_self c : 0 <= c < 256 -> c ∉ [110; 114; 116; 48; 120; 117; 85] -> spells_char special c [92; c].

Inductive spells_chars (special : list Z) : list Z -> list Z -> Prop :=
  | chars_nil : spells_chars special [] []
  | chars_cons c cs sc scs : spells_char special c sc -> spells_chars special cs scs ->
      spells_chars special (c :: cs) (sc ++ scs).

(** In a string: the quote and the backslash; in a class also ] ^ - and NUL. *)
Definition string_special : list Z := [34; 92].
Definition class_special : list Z := [93; 92; 94; 45; 0].

Inductive spells_ranges : list (Z * Z) -> list Z -> Prop :=
  | ranges_nil : spells_ranges [] []
  | ranges_single c rs sc srs : spells_char class_special c sc -> spells_ranges rs srs ->
      spells_ranges ((c, c) :: rs) (sc ++ srs)
  | ranges_span lo hi rs slo shi srs : lo <= hi ->
      spells_char class_special lo slo -> spells_char class_special hi shi -> spells_ranges rs srs ->
      spells_ranges ((lo, hi) :: rs) (slo ++ 45 :: shi ++ srs).

(** A repetition bound in decimal, within the parser's limit. *)
Definition spells_bound (n : nat) (ds : list Z) : Prop :=
  ds <> [] /\ Forall (fun c => is_digit c = true) ds /\
  foldl (fun acc c => acc * 10 + (c - 48)) 0 ds = Z.of_nat n /\ Z.of_nat n <= kMaxRepeat.

Inductive spells_op : RepOp -> list Z -> Prop :=
  | op_star : spells_op RStar [42]
  | op_plus : spells_op RPlus [43]
  | op_opt : spells_op ROpt [63]
  | op_exactly n ds : spells_bound n ds -> spells_op (RBounds n (Some n)) (123 :: ds ++ [125])
  | op_at_least n ds : spells_bound n ds -> spells_op (RBounds n None) (123 :: ds ++ [44; 125])
  | op_at_most n ds : spells_bound n ds -> spells_op (RBounds 0 (Some n)) (123 :: 44 :: ds ++ [125])
  | op_between m n ds es : spells_bound m ds -> spells_bound n es -> (m <= n)%nat ->
      spells_op (RBounds m (Some n)) (123 :: ds ++ 44 :: es ++ [125]).

Inductive spells_ops : list RepOp -> list Z -> Prop :=
  | ops_nil : spells_ops [] []
  | ops_cons op ops sop sops : spells_op op sop -> spells_ops ops sops -> spells_ops (op :: ops) (sop ++ sops).

(** A postfix operator needs something before it: not [""*], not [x{0}*]. *)
Definition op_empties (op : RepOp) : bool :=
  match op with RBounds lo hi => bool_decide (lo = O /\ hi = Some O) | _ => false end.

Fixpoint ops_apply (empty : bool) (ops : list RepOp) : bool :=
  match ops with
  | [] => true
  | op :: ops => negb empty && ops_apply (op_empties op) ops
  end.

Definition elem_empty (e : elem) : bool := match e with ELit [] => true | _ => false end.

(** A rule name ends where no word character follows. *)
Definition name_ends (e : elem) (ops : list RepOp) (s : list Z) : Prop :=
  match e, ops, s with
  | ERef _, [], c :: _ => is_word_char c = false
  | _, _, _ => True
  end.

Definition rule_word (name : list Z) : Prop := name <> [] /\ Forall (fun c => is_word_char c = true) name.

(** [nested]: inside parentheses, where a line break is a blank. *)
Inductive spells_elem : elem -> list Z -> Prop :=
  | elem_lit cps s : spells_chars string_special cps s -> spells_elem (ELit cps) (34 :: s ++ [34])
  | elem_class rs s : spells_ranges rs s -> spells_elem (EClass (mkCharSet rs false)) (91 :: s ++ [93])
  | elem_class_neg rs s : spells_ranges rs s -> spells_elem (EClass (mkCharSet rs true)) (91 :: 94 :: s ++ [93])
  | elem_any : spells_elem EAny [46]
  | elem_ref name : rule_word name -> spells_elem (ERef name) name
  | elem_group a s : spells_alternatives true a s -> spells_elem (EGroup a) (40 :: s ++ [41])
with spells_sequence : bool -> sequence -> list Z -> Prop :=
  | sequence_nil nested ws : blank nested ws -> spells_sequence nested SNil ws
  | sequence_cons nested ws e ops s se sops ss :
      blank nested ws -> spells_elem e se -> spells_ops ops sops -> spells_sequence nested s ss ->
      ops_apply (elem_empty e) ops = true -> name_ends e ops ss ->
      spells_sequence nested (SCons e ops s) (ws ++ se ++ sops ++ ss)
with spells_alternatives : bool -> alternatives -> list Z -> Prop :=
  | alternatives_one nested s ss : spells_sequence nested s ss -> spells_alternatives nested (AOne s) ss
  | alternatives_more nested s a ss ws sa :
      spells_sequence nested s ss -> blank true ws -> spells_alternatives nested a sa ->
      spells_alternatives nested (AMore s a) (ss ++ 124 :: ws ++ sa).

Scheme spells_elem_ind' := Minimality for spells_elem Sort Prop
with spells_sequence_ind' := Minimality for spells_sequence Sort Prop
with spells_alternatives_ind' := Minimality for spells_alternatives Sort Prop.
Combined Scheme spells_mutind from spells_elem_ind', spells_sequence_ind', spells_alternatives_ind'.

(** After [::=] or [|] a line break is a blank, so a rule's last alternative must
    not be empty (an empty one is spelled [""]). *)
Fixpoint last_nonempty (a : alternatives) : Prop :=
  match a with AOne SNil => False | AOne _ => True | AMore _ a => last_nonempty a end.

Inductive spells_rule : list Z -> alternatives -> list Z -> Prop :=
  | spells_rule_intro name a ws1 ws2 s :
      rule_word name -> blank false ws1 -> blank true ws2 -> spells_alternatives false a s -> last_nonempty a ->
      spells_rule name a (name ++ ws1 ++ [58; 58; 61] ++ ws2 ++ s).

(** Rules are separated by line breaks. *)
Inductive spells_rules : grammar -> list Z -> Prop :=
  | rules_nil : spells_rules [] []
  | rules_last name a s : spells_rule name a s -> spells_rules [(name, a)] s
  | rules_cons name a g s ws sg :
      spells_rule name a s -> blank true ws -> spells_rules g sg ->
      spells_rules ((name, a) :: g) (s ++ 10 :: ws ++ sg).

Inductive spells_grammar : grammar -> list Z -> Prop :=
  | spells_grammar_intro g ws s : blank true ws -> spells_rules g s -> spells_grammar g (ws ++ s).

(** Every name a grammar uses. *)
Fixpoint elem_refs (e : elem) : list (list Z) :=
  match e with ERef name => [name] | EGroup a => alternatives_refs a | _ => [] end
with sequence_refs (s : sequence) : list (list Z) :=
  match s with SNil => [] | SCons e _ s => elem_refs e ++ sequence_refs s end
with alternatives_refs (a : alternatives) : list (list Z) :=
  match a with AOne s => sequence_refs s | AMore s a => sequence_refs s ++ alternatives_refs a end.

(** No rule is defined twice, none is used undefined, and there is a root. *)
Definition grammar_ok (g : grammar) : Prop :=
  NoDup g.*1 /\ root_name ∈ g.*1 /\ forall name a, (name, a) ∈ g -> alternatives_refs a ⊆ g.*1.
