(* ===== verification/GbnfMeaning.v ===== *)
(** * GBNF desugaring: what the parser's items mean

    The parser rewrites groups and repetitions into synthetic rules while it
    reads.  [dv] is derivation with the named rules given as languages, and
    [means] says that a list of items stands for a language in every later rule
    table: synthetic rules never change once written.  The lemmas give the
    meaning of every operator's desugaring. *)

From Corelib Require Import ssreflect_rw.
From stdpp Require Import prelude gmap list.
From S2P Require Import Prelude Gbnf GbnfParser GbnfMatcher GbnfSyntax.
Open Scope Z_scope.

(** ** Derivation over named languages *)

Section Dv.
Context (R : list GbnfRule) (N : nat -> language).

Inductive dv : list GbnfItem -> language :=
  | dv_nil : dv [] []
  | dv_char cs its c w : matches cs c = true -> dv its w -> dv (CharItem cs :: its) (c :: w)
  | dv_named r ru its w1 w2 : R !! r = Some ru -> rule_name ru <> [] -> N r w1 -> dv its w2 ->
      dv (RuleItem r :: its) (w1 ++ w2)
  | dv_synthetic r ru alt its w1 w2 : R !! r = Some ru -> rule_name ru = [] -> alt ∈ alts ru ->
      dv alt w1 -> dv its w2 -> dv (RuleItem r :: its) (w1 ++ w2).

Lemma dv_app its1 its2 w1 w2 : dv its1 w1 -> dv its2 w2 -> dv (its1 ++ its2) (w1 ++ w2).
Proof.
  intros H1 H2. induction H1; simpl; rewrite <- ?app_assoc; [done|by constructor|by eapply dv_named|by eapply dv_synthetic].
Qed.

Lemma dv_app_inv its1 its2 w :
  dv (its1 ++ its2) w <-> exists w1 w2, w = w1 ++ w2 /\ dv its1 w1 /\ dv its2 w2.
Proof.
  split; [|by intros (w1 & w2 & -> & ? & ?); apply dv_app]. revert w.
  induction its1 as [|it its1 IH]; intros w H; simpl in H; [exists [], w; split_and!; [done|constructor|done]|].
  inversion H as [|cs its c v Hc Hv|r ru its v1 v2 Hr Hn Hv Hv2|r ru alt its v1 v2 Hr Hn Ha Hv1 Hv2]; subst.
  - destruct (IH _ Hv) as (w1 & w2 & -> & ? & ?). exists (c :: w1), w2. split_and!; [done|by constructor|done].
  - destruct (IH _ Hv2) as (w1 & w2 & -> & ? & ?). exists (v1 ++ w1), w2. rewrite app_assoc.
    split_and!; [done|by eapply dv_named|done].
  - destruct (IH _ Hv2) as (w1 & w2 & -> & ? & ?). exists (v1 ++ w1), w2. rewrite app_assoc.
    split_and!; [done|by eapply dv_synthetic|done].
Qed.

Lemma dv_nil_inv w : dv [] w <-> w = [].
Proof. split; [by inversion 1|intros ->; constructor]. Qed.

Lemma dv_char_inv cs w : dv [CharItem cs] w <-> exists c, w = [c] /\ matches cs c = true.
Proof.
  split; [inversion 1 as [|? ? c v Hc Hv| |]; subst; inversion Hv; subst; by exists c|].
  intros (c & -> & ?). repeat constructor. done.
Qed.

Lemma dv_named_inv r ru w : R !! r = Some ru -> rule_name ru <> [] -> dv [RuleItem r] w <-> N r w.
Proof.
  intros Hr Hn. split.
  - inversion 1 as [| |? ? ? v1 v2 ? ? HN Hv2|? ? ? ? v1 v2 ? ? Ha Hv1 Hv2]; simplify_eq.
    inversion Hv2; subst. by rewrite app_nil_r.
  - intros HN. rewrite <- (app_nil_r w). eapply dv_named; [done..|constructor].
Qed.

Lemma dv_synthetic_inv r ru w :
  R !! r = Some ru -> rule_name ru = [] -> dv [RuleItem r] w <-> exists alt, alt ∈ alts ru /\ dv alt w.
Proof.
  intros Hr Hn. split.
  - inversion 1 as [| |? ? ? v1 v2 ? ? HN Hv2|? ? alt ? v1 v2 ? ? Ha Hv1 Hv2]; simplify_eq.
    inversion Hv2; subst. rewrite app_nil_r. by exists alt.
  - intros (alt & Ha & Hw). rewrite <- (app_nil_r w). eapply dv_synthetic; [done..|constructor].
Qed.

Lemma dv_single_cons it its w : dv (it :: its) w <-> exists w1 w2, w = w1 ++ w2 /\ dv [it] w1 /\ dv its w2.
Proof. apply (dv_app_inv [it]). Qed.

(** *** The operators *)

Lemma repeated_cons (L : language) w1 w2 : L w1 -> repeated 0 None L w2 -> repeated 0 None L (w1 ++ w2).
Proof. intros H1 (ws & -> & Hws & _). exists (w1 :: ws). split_and!; [done|by constructor|lia|done]. Qed.

Lemma dv_star_unfold r x its w : R !! r = Some (mkRule [] [[]; [x; RuleItem r]]) -> dv its w ->
  its = [RuleItem r] \/ its = [x; RuleItem r] -> repeated 0 None (dv [x]) w.
Proof.
  intros Hr H. induction H as [|cs its c w Hc Hw IH|r' ru its v1 v2 Hr' Hn HN Hv IH|r' ru alt its v1 v2 Hr' Hn Ha Hv1 IH1 Hv2 IH2];
    intros [E|E]; simplify_eq/=.
  - apply (repeated_cons _ [c]); [by repeat constructor|by apply IH; left].
  - apply repeated_cons; [by eapply dv_named_inv|by apply IH; left].
  - inversion Hv2; subst. rewrite app_nil_r. apply elem_of_cons in Ha as [->|[->|[]%elem_of_nil]%elem_of_cons].
    + inversion Hv1; subst. exists []. by split_and!; [|constructor| |].
    + apply IH1. by right.
  - apply repeated_cons; [by eapply dv_synthetic_inv; eauto|by apply IH2; left].
Qed.

Lemma dv_star r x w : R !! r = Some (mkRule [] [[]; [x; RuleItem r]]) ->
  dv [RuleItem r] w <-> repeated 0 None (dv [x]) w.
Proof.
  intros Hr. split; [intros H; eapply dv_star_unfold; eauto|].
  intros (ws & -> & Hws & _). induction Hws as [|w ws Hw _ IH]; simpl;
    apply (dv_synthetic_inv _ _ _ Hr eq_refl).
  - exists []. split; [by left|constructor].
  - eexists. split; [by right; left|]. apply dv_single_cons. by exists w, (concat ws).
Qed.

Lemma dv_replicate n x w : dv (replicate n x) w <-> exists ws, w = concat ws /\ Forall (dv [x]) ws /\ length ws = n.
Proof.
  revert w. induction n as [|n IH]; intros w; simpl.
  - rewrite dv_nil_inv. split; [intros ->; by exists []|]. intros (ws & -> & _ & ->%nil_length_inv). done.
  - rewrite dv_single_cons. split.
    + intros (w1 & w2 & -> & H1 & (ws & -> & Hws & <-)%IH). exists (w1 :: ws). split_and!; [done|by constructor|done].
    + intros (ws & -> & Hws & Hl). destruct ws as [|w1 ws]; [done|]. apply Forall_cons in Hws as [H1 Hws].
      exists w1, (concat ws). split_and!; [done|done|]. apply IH. exists ws. split_and!; [done|done|]. simpl in Hl. lia.
Qed.

(** [tail] is a chain of [k] nested optionals. *)
Fixpoint opt_rules (k : nat) (x : GbnfItem) (tail : option nat) : Prop :=
  match k, tail with
  | O, None => True
  | S k, Some r => exists tail', R !! r = Some (mkRule [] [[]; x :: rule_items tail']) /\ opt_rules k x tail'
  | _, _ => False
  end.

Lemma dv_opt k x tail w : opt_rules k x tail -> dv (rule_items tail) w <-> repeated 0 (Some k) (dv [x]) w.
Proof.
  revert tail w. induction k as [|k IH]; intros [r|] w; simpl; try done.
  - intros _. rewrite dv_nil_inv. split; [intros ->; by exists []|]. intros (ws & -> & _ & _ & Hl).
    by destruct ws; [|simpl in Hl; lia].
  - intros (tail' & Hr & Hk). rewrite (dv_synthetic_inv _ _ _ Hr eq_refl). simpl. split.
    + intros (alt & Ha & Hw). apply elem_of_cons in Ha as [->|[->|[]%elem_of_nil]%elem_of_cons].
      * inversion Hw; subst. exists []. split_and!; [done|constructor|done|simpl; lia].
      * apply dv_single_cons in Hw as (w1 & w2 & -> & H1 & (ws & -> & Hws & _ & Hl)%(IH _ _ Hk)).
        exists (w1 :: ws). split_and!; [done|by constructor|lia|simpl; lia].
    + intros (ws & -> & Hws & _ & Hl). destruct Hws as [|w1 ws H1 Hws]; [exists []; split; [by left|constructor]|].
      eexists. split; [by right; left|]. apply dv_single_cons. exists w1, (concat ws). split_and!; [done|done|].
      apply (IH _ _ Hk). exists ws. split_and!; [done|done|lia|simpl in Hl; lia].
Qed.

(** [lo] copies, then at most [k] more, or any number more. *)
Lemma repeated_split (L : language) lo k w :
  (exists w1 w2, w = w1 ++ w2 /\ (exists ws, w1 = concat ws /\ Forall L ws /\ length ws = lo) /\ repeated 0 k L w2)
  <-> repeated lo (option_map (Nat.add lo) k) L w.
Proof.
  split.
  - intros (w1 & w2 & -> & (ws1 & -> & H1 & <-) & (ws2 & -> & H2 & _ & Hk)). exists (ws1 ++ ws2).
    rewrite concat_app, length_app. split_and!; [done|by apply Forall_app|lia|destruct k; simpl; [lia|done]].
  - intros (ws & -> & Hws & Hl & Hk). exists (concat (take lo ws)), (concat (drop lo ws)).
    rewrite <- concat_app, take_drop. split_and!; [done| |].
    + exists (take lo ws). split_and!; [done|by apply Forall_take|rewrite length_take; lia].
    + exists (drop lo ws). split_and!; [done|by apply Forall_drop|lia|]. rewrite length_drop.
      destruct k; simpl in *; [lia|done].
Qed.

Lemma dv_replicate_rest lo x its k w :
  (forall v, dv its v <-> repeated 0 k (dv [x]) v) ->
  dv (replicate lo x ++ its) w <-> repeated lo (option_map (Nat.add lo) k) (dv [x]) w.
Proof.
  intros Hits. rewrite <- repeated_split, dv_app_inv. split; intros (w1 & w2 & -> & H1 & H2).
  - exists w1, w2. split_and!; [done|by apply dv_replicate|by apply Hits].
  - exists w1, w2. split_and!; [done|by apply dv_replicate|by apply Hits].
Qed.
End Dv.

Lemma repeated_iff lo hi (L L' : language) : (forall w, L w <-> L' w) -> forall w, repeated lo hi L w <-> repeated lo hi L' w.
Proof.
  intros H w. split; intros (ws & -> & Hws & ? & ?); exists ws; (split_and!; [done| |done|done]);
    (eapply Forall_impl; [exact Hws|]); intros v; apply H.
Qed.

(** ** Meaning under construction *)

(** A later table [R] with names [M] keeps the synthetic rules of [p]. *)
Definition agree (p : Parser) (R : list GbnfRule) (M : gmap (list Z) nat) : Prop :=
  (forall i r, rules p !! i = Some r -> rule_name r = [] -> R !! i = Some r) /\ ids p ⊆ M /\
  (forall name id, M !! name = Some id -> exists r, R !! id = Some r /\ rule_name r = name /\ name <> []).

Definition env (M : gmap (list Z) nat) (N : nat -> language) (name : list Z) : language := fun w =>
  exists id, M !! name = Some id /\ N id w.

Definition means (p : Parser) (its : list GbnfItem) (f : (list Z -> language) -> language) : Prop :=
  forall R M N, agree p R M -> forall w, dv R N its w <-> f (env M N) w.

Definition means_alts (p : Parser) (as_ : list GbnfAlt) (f : (list Z -> language) -> language) : Prop :=
  forall R M N, agree p R M -> forall w, (exists alt, alt ∈ as_ /\ dv R N alt w) <-> f (env M N) w.

(** The named rules are the ones in [ids]. *)
Definition named (p : Parser) : Prop :=
  (forall name id, ids p !! name = Some id -> exists r, rules p !! id = Some r /\ rule_name r = name /\ name <> []) /\
  (forall id r, rules p !! id = Some r -> rule_name r <> [] -> ids p !! rule_name r = Some id).

(** [p'] has more rules than [p]; exactly the names [refs] were used on the way,
    and new ones have no alternatives yet. *)
Record grown (refs : list (list Z)) (p p' : Parser) : Prop := {
  grown_rules : rules p `prefix_of` rules p';
  grown_ids : ids p ⊆ ids p';
  grown_defined : defined p' = defined p;
  grown_names name : is_Some (ids p' !! name) <-> is_Some (ids p !! name) \/ name ∈ refs;
  grown_blank id r : rules p' !! id = Some r -> rule_name r <> [] -> rules p !! id = Some r \/ alts r = [];
  grown_named : named p -> named p';
}.

Lemma grown_same p p' : rules p' = rules p -> ids p' = ids p -> defined p' = defined p -> grown [] p p'.
Proof.
  unfold named. intros E1 E2 E3. constructor; unfold named; rewrite ?E1, ?E2; auto.
  intros name. rewrite elem_of_nil. tauto.
Qed.

Lemma grown_refl p : grown [] p p.
Proof. by apply grown_same. Qed.

Lemma grown_rest r s p p' : grown r (with_rest s p) p' -> grown r p p'.
Proof. intros [A B C D E F]. by constructor. Qed.

Lemma grown_rest_r r s p p' : grown r p p' -> grown r p (with_rest s p').
Proof. intros [A B C D E F]. by constructor. Qed.

Lemma grown_trans r1 r2 p1 p2 p3 : grown r1 p1 p2 -> grown r2 p2 p3 -> grown (r1 ++ r2) p1 p3.
Proof.
  intros [A1 B1 C1 D1 E1 F1] [A2 B2 C2 D2 E2 F2]. constructor; [by etrans|by etrans|congruence| | |auto].
  - intros name. rewrite D2, D1, elem_of_app. tauto.
  - intros id r Hr Hn. destruct (E2 _ _ Hr Hn) as [Hr2|?]; [by apply E1|by right].
Qed.

Lemma grown_nil_r r p1 p2 p3 : grown r p1 p2 -> grown [] p2 p3 -> grown r p1 p3.
Proof. intros H1 H2. rewrite <- (app_nil_r r). by eapply grown_trans. Qed.

Lemma grown_agree refs p p' R M : grown refs p p' -> agree p' R M -> agree p R M.
Proof.
  intros [[ext A] B _ _ _ _] (H1 & H2 & H3). split_and!; [|by etrans|done]. intros i r Hi. apply H1.
  rewrite A. by apply lookup_app_l_Some.
Qed.

Lemma means_grown refs p p' its f : grown refs p p' -> means p its f -> means p' its f.
Proof. intros Hg Hm R M N Ha. apply Hm. by eapply grown_agree. Qed.

Lemma means_alts_grown refs p p' l f : grown refs p p' -> means_alts p l f -> means_alts p' l f.
Proof. intros Hg Hm R M N Ha. apply Hm. by eapply grown_agree. Qed.

Lemma means_app p its1 its2 f1 f2 : means p its1 f1 -> means p its2 f2 ->
  means p (its1 ++ its2) (fun N w => exists w1 w2, w = w1 ++ w2 /\ f1 N w1 /\ f2 N w2).
Proof.
  intros H1 H2 R M N Ha w. rewrite dv_app_inv.
  split; intros (w1 & w2 & -> & ? & ?); exists w1, w2; (split_and!; [done|by eapply H1|by eapply H2]).
Qed.

Lemma means_iff p its f f' : means p its f -> (forall N w, f N w <-> f' N w) -> means p its f'.
Proof. intros H Hf R M N Ha w. rewrite <- Hf. by apply H. Qed.

Lemma means_nil p : means p [] (fun _ w => w = []).
Proof. intros R M N _ w. apply dv_nil_inv. Qed.

Lemma means_char p cs : means p [CharItem cs] (fun _ w => exists c, w = [c] /\ matches cs c = true).
Proof. intros R M N _ w. apply dv_char_inv. Qed.

(** A new synthetic rule. *)
Definition push_rule (a : list GbnfAlt) (p : Parser) : Parser :=
  mkParser (rest p) (rules p ++ [mkRule [] a]) (ids p) (defined p).

Lemma push_grown a p : grown [] p (push_rule a p).
Proof.
  constructor; simpl; [by eexists|done|done| | |].
  { intros name. rewrite elem_of_nil. tauto. }
  { intros id r [Hr|[Hl Hr]]%lookup_app_Some Hn; [by left|].
    apply list_lookup_singleton_Some in Hr as [_ <-]. done. }
  intros [H1 H2]. split; simpl.
  - intros name id (r & Hr & ?)%H1. exists r. split; [by apply lookup_app_l_Some|done].
  - intros id r [Hr|[Hl Hr]]%lookup_app_Some Hn; [by apply H2|].
    apply list_lookup_singleton_Some in Hr as [_ <-]. done.
Qed.

Lemma push_lookup a p R M : agree (push_rule a p) R M -> R !! length (rules p) = Some (mkRule [] a).
Proof. intros (H & _ & _). apply H; [|done]. simpl. by rewrite lookup_app_r, Nat.sub_diag. Qed.

Lemma means_group p l f : means_alts p l f -> means (push_rule l p) [RuleItem (length (rules p))] f.
Proof.
  intros Hm R M N Ha w. rewrite (dv_synthetic_inv _ _ _ _ _ (push_lookup _ _ _ _ Ha) eq_refl).
  apply Hm. eapply grown_agree; [apply push_grown|done].
Qed.

Lemma means_star p x f : means p [x] f ->
  means (push_rule [[]; [x; RuleItem (length (rules p))]] p) [RuleItem (length (rules p))]
    (fun N => op_lang RStar (f N)).
Proof.
  intros Hm R M N Ha w. rewrite (dv_star _ _ _ _ _ (push_lookup _ _ _ _ Ha)).
  apply repeated_iff. apply Hm. eapply grown_agree; [apply push_grown|done].
Qed.

(** The rules a chain of optionals adds, and what the chain means. *)
Definition opt_chain_ok (p : Parser) (k : nat) (x : GbnfItem) (tail : option nat) : Prop :=
  forall R M, agree p R M -> opt_rules R k x tail.

Lemma opt_chain_push p k x tail : opt_chain_ok p k x tail ->
  opt_chain_ok (push_rule [[]; x :: rule_items tail] p) (S k) x (Some (length (rules p))).
Proof.
  intros H R M Ha. exists tail. split; [by eapply push_lookup|]. apply (H R M). eapply grown_agree; [apply push_grown|done].
Qed.

Lemma means_bounds p x f lo its k :
  means p [x] f -> (forall R M N, agree p R M -> forall w, dv R N its w <-> repeated 0 k (dv R N [x]) w) ->
  means p (replicate lo x ++ its) (fun N => repeated lo (option_map (Nat.add lo) k) (f N)).
Proof.
  intros Hm Hits R M N Ha w. rewrite (dv_replicate_rest R N lo x its k w); [|by apply Hits with (M := M)].
  apply repeated_iff. by apply Hm.
Qed.

(** ** Languages grow with the names' languages *)

Lemma repeated_mono lo hi (L L' : language) : (forall w, L w -> L' w) -> forall w, repeated lo hi L w -> repeated lo hi L' w.
Proof. intros H w (ws & -> & Hws & ? & ?). exists ws. split_and!; [done| |done|done]. by eapply Forall_impl. Qed.

Lemma op_lang_repeated op : exists lo hi, op_lang op = repeated lo hi.
Proof. destruct op; by eexists _, _. Qed.

Lemma ops_lang_mono ops : forall (L L' : language), (forall w, L w -> L' w) -> forall w, ops_lang ops L w -> ops_lang ops L' w.
Proof.
  induction ops as [|op ops IH]; intros L L' H w; simpl; [apply H|]. apply IH.
  destruct (op_lang_repeated op) as (lo & hi & ->). by apply repeated_mono.
Qed.

Lemma lang_mono (N N' : list Z -> language) : (forall n w, N n w -> N' n w) ->
  (forall e w, elem_lang N e w -> elem_lang N' e w) /\
  (forall s w, sequence_lang N s w -> sequence_lang N' s w) /\
  (forall a w, alternatives_lang N a w -> alternatives_lang N' a w).
Proof.
  intros HN. apply syntax_mutind; simpl; try done.
  - intros e He ops s Hs w (w1 & w2 & -> & H1 & H2). exists w1, w2. split_and!; [done| |by apply Hs].
    by eapply ops_lang_mono.
  - intros s Hs a Ha w [H|H]; [left; by apply Hs|right; by apply Ha].
Qed.

Lemma rule_lang_closed g : closed_under g (rule_lang g).
Proof.
  intros name a w Hin Hw N HN. apply (HN name a w Hin). revert w Hw.
  apply (proj2 (proj2 (lang_mono (rule_lang g) N (fun n w H => H N HN)))).
Qed.

(** ** From a finished table back to the grammar *)

(** [p] holds the rules [g], read so far: named rules outside [g] are only used. *)
Record holds (g : grammar) (p : Parser) : Prop := {
  holds_named : named p;
  holds_defined : defined p = list_to_set g.*1;
  holds_rule name a : (name, a) ∈ g -> exists id l, ids p !! name = Some id /\ rules p !! id = Some (mkRule name l) /\
    l <> [] /\ means_alts p l (fun N => alternatives_lang N a);
  holds_names name : is_Some (ids p !! name) <-> name ∈ g.*1 \/ exists n a, (n, a) ∈ g /\ name ∈ alternatives_refs a;
  holds_blank id r : rules p !! id = Some r -> rule_name r <> [] -> rule_name r ∉ g.*1 -> alts r = [];
}.

Section Finished.
Context (g : grammar) (p : Parser) (Hp : holds g p).
Context (Hrefs : forall name a, (name, a) ∈ g -> alternatives_refs a ⊆ g.*1).
Let R := rules p.
Let M := ids p.

Lemma finished_agree : agree p R M.
Proof.
  split_and!; [done|done|]. intros name id Hid. destruct (holds_named _ _ Hp) as [H _].
  destruct (H _ _ Hid) as (r & ? & ? & ?). by exists r.
Qed.

(** Every named rule was defined. *)
Lemma finished_rule id r : R !! id = Some r -> rule_name r <> [] ->
  exists a, (rule_name r, a) ∈ g /\ M !! rule_name r = Some id /\ alts r <> [] /\
    means_alts p (alts r) (fun N => alternatives_lang N a).
Proof.
  intros Hr Hn. destruct (holds_named _ _ Hp) as [_ H]. pose proof (H _ _ Hr Hn) as Hid.
  assert (rule_name r ∈ g.*1) as ((n & a) & En & Hin)%list_elem_of_fmap.
  { destruct (proj1 (holds_names _ _ Hp (rule_name r))) as [?|(n & a & Hin & Href)]; [by eexists|done|]. by eapply Hrefs. }
  simpl in En. rewrite En in *. destruct (holds_rule _ _ Hp _ _ Hin) as (id' & l & Hid' & Hr' & Hl & Hm).
  fold M in Hid, Hid'. rewrite Hid in Hid'. injection Hid' as <-. fold R in Hr'. rewrite Hr in Hr'. injection Hr' as ->.
  by exists a.
Qed.

Definition by_lang (id : nat) : language := fun w => exists n, M !! n = Some id /\ rule_lang g n w.

Lemma env_by_lang n w : env M by_lang n w -> rule_lang g n w.
Proof.
  intros (id & Hid & n' & Hid' & Hw). destruct (holds_named _ _ Hp) as [H _].
  destruct (H _ _ Hid) as (r & Hr & <- & _). destruct (H _ _ Hid') as (r' & Hr' & <- & _). by simplify_eq.
Qed.

Lemma derives_dv its w : derives R its w -> dv R by_lang its w.
Proof.
  induction 1 as [|cs its c w Hc _ IH|r alt its w1 w2 Ha _ IH1 _ IH2]; [constructor|by constructor|].
  unfold alts_of in Ha. destruct (R !! r) as [ru|] eqn:Er; [|by apply elem_of_nil in Ha].
  destruct (decide (rule_name ru = [])) as [En|En]; [by eapply dv_synthetic|].
  eapply dv_named; [done|done| |done]. destruct (finished_rule _ _ Er En) as (a & Hin & Hid & _ & Hm).
  exists (rule_name ru). split; [done|]. apply (rule_lang_closed g _ a _ Hin).
  assert (exists alt, alt ∈ alts ru /\ dv R by_lang alt w1) as Hdv by (by exists alt).
  apply (Hm R M by_lang finished_agree) in Hdv. revert Hdv. by apply lang_mono, env_by_lang.
Qed.

Definition by_rules (id : nat) : language := derives R [RuleItem id].

Lemma dv_derives its w : dv R by_rules its w -> derives R its w.
Proof.
  induction 1 as [|cs its c w Hc _ IH|r ru its w1 w2 Hr Hn HN _ IH|r ru alt its w1 w2 Hr Hn Ha _ IH1 _ IH2].
  - constructor.
  - by constructor.
  - by apply (derives_app R [RuleItem r]).
  - eapply derives_rule; [|done|done]. unfold alts_of. by rewrite Hr.
Qed.

Lemma derives_closed : closed_under g (env M by_rules).
Proof.
  intros name a w Hin Hw. destruct (holds_rule _ _ Hp _ _ Hin) as (id & l & Hid & Hr & _ & Hm).
  exists id. split; [done|]. apply (Hm R M by_rules finished_agree) in Hw as (alt & Ha & Hw).
  apply derives_single_rule. exists alt. split; [unfold alts_of; by rewrite (Hr : R !! id = _)|by apply dv_derives].
Qed.

(** Each rule derives the language of its name. *)
Lemma finished_lang name id w : M !! name = Some id -> derives R [RuleItem id] w <-> rule_lang g name w.
Proof.
  intros Hid. destruct (holds_named _ _ Hp) as [H _]. destruct (H _ _ Hid) as (r & Hr & En & Hne). split.
  - intros Hw%derives_dv. apply (dv_named_inv R by_lang id r) in Hw; [|done|congruence].
    apply env_by_lang. by exists id.
  - intros Hw. destruct (Hw _ derives_closed) as (id' & Hid' & Hd). unfold M in *. by simplify_eq.
Qed.
End Finished.
