(* ===== verification/GbnfSpelling.v ===== *)
(** * GBNF parser: reading spelled characters, classes, names and operators

    [succ] is the weakest precondition of a parser that succeeds: an error or an
    exception satisfies nothing, and running out of fuel is left to
    [GbnfTable.parse_total].  With it, every lexical routine of [GbnfParser] is
    shown to read the spellings of [GbnfSyntax]. *)

From Corelib Require Import ssreflect_rw.
From stdpp Require Import prelude gmap list.
From S2P Require Import Prelude Gbnf GbnfParser GbnfMatcher Utf8Code GbnfTable GbnfSyntax GbnfMeaning.
Open Scope Z_scope.
Local Open Scope parser_scope.

Definition succ {A} (m : P A) (p : Parser) (Q : A -> Parser -> Prop) : Prop :=
  match m p with Ok a p' => Q a p' | OutOfFuel => True | _ => False end.

Lemma succ_bind {A B} (m : P A) (f : A -> P B) p Q :
  succ m p (fun a p' => succ (f a) p' Q) -> succ (bind m f) p Q.
Proof. unfold succ, bind. by destruct (m p). Qed.

Lemma succ_weaken {A} (m : P A) p (Q Q' : A -> Parser -> Prop) :
  succ m p Q -> (forall a p', Q a p' -> Q' a p') -> succ m p Q'.
Proof. unfold succ. destruct (m p); auto. Qed.

Lemma succ_ok {A} (m : P A) p a p' (Q : A -> Parser -> Prop) : m p = Ok a p' -> Q a p' -> succ m p Q.
Proof. unfold succ. by intros ->. Qed.

Lemma bind_ok {A B} (m : P A) (f : A -> P B) p a p' : m p = Ok a p' -> bind m f p = f a p'.
Proof. unfold bind. by intros ->. Qed.

Lemma succ_by_unread {A} (f : nat -> P A) p Q : (forall n, succ (f n) p Q) -> succ (by_unread f) p Q.
Proof. intros H. apply H. Qed.

(** A byte string that does not start with one of [cs]; past the end there is NUL. *)
Definition starts_none (f : Z -> bool) (s : list Z) : Prop := match s with c :: _ => f c = false | [] => True end.

Lemma span_bytes_app f ds s : Forall (fun c => f c = true) ds -> starts_none f s -> span_bytes f (ds ++ s) = (ds, s).
Proof.
  intros Hds Hs. induction Hds as [|d ds Hd _ IH]; simpl.
  - destruct s as [|c s]; simpl in *; [done|by rewrite Hs].
  - by rewrite Hd, IH.
Qed.

Lemma take_span_ok f ds s p : Forall (fun c => f c = true) ds -> starts_none f s ->
  take_span f (with_rest (ds ++ s) p) = Ok ds (with_rest s p).
Proof. intros. unfold take_span. simpl. by rewrite span_bytes_app. Qed.

Lemma take_span_none f s p : starts_none f s -> take_span f (with_rest s p) = Ok [] (with_rest s p).
Proof. apply (take_span_ok f []). constructor. Qed.

(** ** Blanks *)

Lemma skip_comment nl t s : 10 ∉ t -> skip_space_from nl true (t ++ s) = skip_space_from nl true s.
Proof.
  induction t as [|c t IH]; intros Hn; [done|]. apply not_elem_of_cons in Hn as [Hc Ht]. simpl.
  destruct (Z.eqb_spec c 10); [congruence|]. simpl. by apply IH.
Qed.

Lemma skip_blank nl ws s : blank nl ws -> skip_space_from nl false (ws ++ s) = skip_space_from nl false s.
Proof.
  induction 1 as [|c ws Hc _ IH|ws Hnl _ IH|t ws Hnl Ht _ IH]; simpl.
  - done.
  - by destruct Hc as [-> | [-> | ->]]; simpl.
  - by rewrite Hnl in *; simpl.
  - rewrite <- app_assoc, skip_comment by done. simpl. by rewrite Hnl in *; simpl.
Qed.

(** Nothing to skip. *)
Definition solid (nl : bool) (s : list Z) : Prop := skip_space_from nl false s = s.

Definition blank_byte (c : Z) : bool := (c =? 35) || (c =? 32) || (c =? 9) || (c =? 13) || (c =? 10).

Lemma solid_start nl s : starts_none blank_byte s -> solid nl s.
Proof.
  destruct s as [|c s]; [done|]. unfold solid, blank_byte. simpl.
  destruct (c =? 35), (c =? 32), (c =? 9), (c =? 13), (c =? 10); done.
Qed.

Lemma solid_newline s : solid false (10 :: s).
Proof. done. Qed.

(** Blanks that may span lines swallow the others. *)
Lemma blank_weaken ws : blank false ws -> blank true ws.
Proof. induction 1; [constructor|by constructor|done|done]. Qed.

(** ** Characters *)

Lemma peek_ok c s p : peek 0 (with_rest (c :: s) p) = Ok c (with_rest (c :: s) p).
Proof. done. Qed.
Lemma eof_ok c s p : eof (with_rest (c :: s) p) = Ok false (with_rest (c :: s) p).
Proof. done. Qed.
Lemma advance_ok c s p : advance_by 1 (with_rest (c :: s) p) = Ok () (with_rest s p).
Proof. done. Qed.

(** Run the next lexical primitive on a non-empty input. *)
Ltac read_step :=
  first [rewrite (bind_ok (peek 0) _ _ _ _ (peek_ok _ _ _))
        |rewrite (bind_ok eof _ _ _ _ (eof_ok _ _ _))
        |rewrite (bind_ok (advance_by 1) _ _ _ _ (advance_ok _ _ _))]; cbn beta iota.

Lemma hex_digit_range d x : hex_digit d = Some x -> 0 <= x < 16.
Proof.
  unfold hex_digit. intros H.
  repeat match type of H with context [if ?b then _ else _] => destruct b eqn:? end; simplify_eq;
    repeat match goal with H : _ && _ = true |- _ => apply andb_true_iff in H as [?%Z.leb_le ?%Z.leb_le] end; lia.
Qed.

Lemma hex_foldl_mono acc vs : Forall (fun x => 0 <= x < 16) vs -> 0 <= acc ->
  acc <= foldl (fun a d => 16 * a + d) acc vs.
Proof.
  intros H. revert acc. induction H as [|x vs Hx _ IH]; intros acc Ha; simpl; [lia|].
  specialize (IH (16 * acc + x) ltac:(lia)). lia.
Qed.

Lemma hex_ok ds vs acc s p : Forall2 (fun d x => hex_digit d = Some x) ds vs -> 0 <= acc ->
  foldl (fun a d => 16 * a + d) acc vs < two32 ->
  hex (length ds) acc (with_rest (ds ++ s) p) = Ok (foldl (fun a d => 16 * a + d) acc vs) (with_rest s p).
Proof.
  intros H. revert acc. induction H as [|d x ds vs Hd Hds IH]; intros acc Ha Hlt; [done|].
  simpl in Hlt |- *. pose proof (hex_digit_range _ _ Hd). read_step. rewrite Hd. read_step.
  assert (Forall (fun x => 0 <= x < 16) vs) as Hvs.
  { clear -Hds. induction Hds as [|d x ds vs Hd _ IH]; constructor; [by eapply hex_digit_range|done]. }
  pose proof (hex_foldl_mono (16 * acc + x) vs Hvs ltac:(lia)).
  rewrite lor_shiftl by (change (2 ^ 4) with 16; lia). change (2 ^ 4) with 16.
  assert (u32 (acc * 16 + x) = 16 * acc + x) as -> by (unfold u32; rewrite Z.mod_small; lia).
  apply IH; [lia|done].
Qed.

Lemma hex_bound ds vs n acc : Forall2 (fun d x => hex_digit d = Some x) ds vs -> 0 <= acc -> n = Z.of_nat (length ds) ->
  foldl (fun a d => 16 * a + d) acc vs < (acc + 1) * 16 ^ n.
Proof.
  intros H. revert n acc. induction H as [|d x ds vs Hd _ IH]; intros n acc Ha ->; cbn [foldl length]; [simpl; lia|].
  pose proof (hex_digit_range _ _ Hd). specialize (IH _ (16 * acc + x) ltac:(lia) eq_refl).
  rewrite Nat2Z.inj_succ, Z.pow_succ_r by lia. nia.
Qed.

Lemma hex_value_ok n ds v s p : length ds = n -> (n <= 8)%nat -> hex_value ds v ->
  hex n 0 (with_rest (ds ++ s) p) = Ok v (with_rest s p).
Proof.
  intros <- Hn (vs & H & ->). apply hex_ok; [done|lia|].
  pose proof (hex_bound ds vs _ 0 H ltac:(lia) eq_refl). unfold two32.
  assert (16 ^ Z.of_nat (length ds) <= 16 ^ 8) by (apply Z.pow_le_mono_r; lia).
  change (16 ^ 8) with (2 ^ 32) in *. lia.
Qed.

Lemma utf8_tail_ok b extra pre post s p :
  utf8_extra b = Some extra -> (length pre + length post = extra)%nat -> Forall cont pre -> Forall cont post ->
  utf8_tail (length post) (code_value b extra pre) (with_rest (post ++ s) p) =
    Ok (code_value b extra (pre ++ post)) (with_rest s p).
Proof.
  intros He Hl Hpre Hpost. revert pre Hl Hpre.
  induction Hpost as [|c post Hc _ IH]; intros pre Hl Hpre; simpl; [by rewrite app_nil_r|].
  read_step. read_step. assert ((Z.land c 192 =? 128) = true) as ->.
  { apply cont_byte_spec; [|done]. unfold byte, cont in *. lia. }
  simpl. read_step. simpl in Hl. rewrite decode_cont by (done || lia).
  rewrite (IH (pre ++ [c])); [by rewrite <- app_assoc|rewrite length_app; simpl; lia|].
  apply Forall_app. by split; [|constructor].
Qed.

Lemma read_utf8 cp s p : 128 <= cp -> codepoint cp ->
  read_char (with_rest (encode cp ++ s) p) = Ok cp (with_rest s p).
Proof.
  intros H128 Hcp. destruct (encode_spelled cp Hcp) as [[? _]|(b & cs & extra & -> & Hsp)]; [lia|].
  destruct Hsp as (He & Hpos & Hl & Hcs & Hv & _). simpl. unfold read_char. do 2 read_step.
  pose proof (utf8_tail_ok b extra [] cs s p He Hl ltac:(constructor) Hcs) as Ht. simpl in Ht. rewrite Hv in Ht.
  unfold code_value, lead_value in Ht. simpl in Ht. rewrite Hl in Ht.
  apply utf8_extra_inv in He as [[-> ?]|[[-> Hb]|[[-> Hb]|[-> Hb]]]]; [lia|..];
    (destruct (Z.eqb_spec b 92); [lia|]); simpl; read_step;
    repeat match goal with
    | |- context [if b <? 128 then _ else _] => destruct (Z.ltb_spec b 128); [lia|]
    | |- context [if ?x <=? b then _ else _] => destruct (Z.leb_spec x b); try lia
    end; exact Ht.
Qed.

#[local] Arguments hex : simpl never.

Lemma read_char_ok special cp sc s p : 92 ∈ special -> spells_char special cp sc ->
  read_char (with_rest (sc ++ s) p) = Ok cp (with_rest s p).
Proof.
  intros Hbs H. destruct H as [c Hc Hs|c Hc Hcp| | | | |ds v Hl Hv|ds v Hl Hv|ds v Hl Hv|c Hc Hs]; simpl.
  - unfold read_char. do 2 read_step. assert (c <> 92) by congruence. destruct (Z.eqb_spec c 92); [done|].
    simpl. read_step. by destruct (Z.ltb_spec c 128); [|lia].
  - by apply read_utf8.
  - done.
  - done.
  - done.
  - done.
  - unfold read_char. do 2 read_step. simpl. do 4 read_step. simpl. by apply hex_value_ok; [|lia|].
  - unfold read_char. do 2 read_step. simpl. do 4 read_step. simpl. by apply hex_value_ok; [|lia|].
  - unfold read_char. do 2 read_step. simpl. do 4 read_step. simpl. by apply hex_value_ok; [|lia|].
  - unfold read_char. do 2 read_step. simpl. do 4 read_step.
    repeat (apply not_elem_of_cons in Hs as [? Hs]).
    repeat match goal with |- context [c =? ?x] => destruct (Z.eqb_spec c x); [done|] end. done.
Qed.

(** A byte that must be escaped does not begin a spelled character. *)
Lemma spells_char_head special c sc x : spells_char special c sc -> x ∈ special -> x <> 92 -> x < 128 ->
  exists b sc', sc = b :: sc' /\ b <> x.
Proof.
  intros H Hx H92 H128. destruct H as [c Hc Hs|c Hc Hcp| | | | | | | |]; [|..].
  - exists c, []. split; [done|congruence].
  - destruct (encode_spelled c Hcp) as [[? _]|(b & cs & extra & -> & He & Hp & _)]; [lia|].
    exists b, cs. split; [done|]. apply utf8_extra_inv in He. lia.
  - all: by eexists _, _.
  - all: by eexists _, _.
  - all: by eexists _, _.
  - all: by eexists _, _.
  - all: by eexists _, _.
  - all: by eexists _, _.
  - all: by eexists _, _.
  - all: by eexists _, _.
Qed.

Lemma string_loop_ok fuel items cps s tail p (Q : list GbnfItem -> Parser -> Prop) :
  spells_chars string_special cps s -> Q (items ++ (char_item <$> cps)) (with_rest tail p) ->
  succ (parse_string_loop fuel items) (with_rest (s ++ 34 :: tail) p) Q.
Proof.
  intros H. revert fuel items. induction H as [|c cs sc scs Hc _ IH]; intros fuel items HQ.
  - unfold succ. destruct fuel; cbn [parse_string_loop app]; do 2 read_step; simpl; by rewrite app_nil_r in HQ.
  - destruct (spells_char_head _ _ _ 34 Hc) as (b & sc' & Esc & Hb); [by left|done|done|].
    pose proof (read_char_ok string_special c sc (scs ++ 34 :: tail) p ltac:(by right; left) Hc) as Hr.
    rewrite <- app_assoc. unfold succ. rewrite Esc in *. simpl in Hr |- *.
    destruct fuel; cbn [parse_string_loop]; do 2 read_step; (destruct (Z.eqb_spec b 34); [done|]); [done|].
    rewrite (bind_ok _ _ _ _ _ Hr). apply IH. by rewrite <- app_assoc.
Qed.

Lemma parse_string_ok items cps s tail p (Q : list GbnfItem -> Parser -> Prop) :
  spells_chars string_special cps s -> Q (items ++ (char_item <$> cps)) (with_rest tail p) ->
  succ (parse_string items) (with_rest (34 :: s ++ 34 :: tail) p) Q.
Proof.
  intros Hs HQ. unfold parse_string, succ. read_step. by apply string_loop_ok with (cps := cps).
Qed.

Lemma ranges_head rs srs tail x : spells_ranges rs srs -> x ∈ class_special -> x <> 92 -> x <> 93 ->
  exists b r, srs ++ 93 :: tail = b :: r /\ b <> x.
Proof.
  intros H Hx H92 H93. assert (x < 128) by (unfold class_special in Hx; set_solver by lia).
  destruct H as [|c rs sc srs Hc _|lo hi rs slo shi srs _ Hc _ _]; [by eexists _, _|..];
    destruct (spells_char_head _ _ _ x Hc) as (b & sc' & -> & Hb); try done; by eexists _, _.
Qed.

Lemma class_loop_ok fuel acc rs s tail p (Q : list (Z * Z) -> Parser -> Prop) :
  spells_ranges rs s -> Q (acc ++ rs) (with_rest tail p) ->
  succ (parse_class_loop fuel acc) (with_rest (s ++ 93 :: tail) p) Q.
Proof.
  intros H. revert fuel acc. induction H as [|c rs sc srs Hc Hrs IH|lo hi rs slo shi srs Hle Hlo Hhi Hrs IH]; intros fuel acc HQ.
  - unfold succ. destruct fuel; cbn [parse_class_loop app]; do 2 read_step; simpl; by rewrite app_nil_r in HQ.
  - destruct (spells_char_head _ _ _ 93 Hc) as (b & sc' & Esc & Hb); [by left|done|done|].
    pose proof (read_char_ok class_special c sc (srs ++ 93 :: tail) p ltac:(by right; left) Hc) as Hr.
    rewrite <- app_assoc. unfold succ. rewrite Esc in *. simpl in Hr |- *.
    destruct fuel; cbn [parse_class_loop]; do 2 read_step; (destruct (Z.eqb_spec b 93); [done|]); [done|].
    rewrite (bind_ok _ _ _ _ _ Hr).
    destruct (ranges_head rs srs tail 45 Hrs) as (b' & r & Er & Hb'); [set_solver|done|done|].
    rewrite Er. read_step. unfold bind at 1, peek at 1. cbn [rest with_rest].
    destruct (Z.eqb_spec b' 45); [done|]. cbn [andb]. rewrite <- Er, (bind_ok (ret c) _ _ c _ eq_refl).
    destruct (Z.ltb_spec c c); [lia|]. apply IH. by rewrite <- app_assoc.
  - destruct (spells_char_head _ _ _ 93 Hlo) as (b & sc' & Esc & Hb); [by left|done|done|].
    pose proof (read_char_ok class_special lo slo (45 :: shi ++ srs ++ 93 :: tail) p ltac:(by right; left) Hlo) as Hr.
    pose proof (read_char_ok class_special hi shi (srs ++ 93 :: tail) p ltac:(by right; left) Hhi) as Hr2.
    destruct (spells_char_head _ _ _ 93 Hhi) as (b2 & shi' & Ehi & Hb2); [by left|done|done|].
    destruct (spells_char_head _ _ _ 0 Hhi) as (b3 & shi'' & Ehi' & Hb3); [set_solver|done|done|].
    rewrite Ehi in Ehi'. injection Ehi' as <- <-.
    rewrite <- app_assoc. simpl. rewrite <- app_assoc. unfold succ. rewrite Esc in *. simpl in Hr |- *.
    destruct fuel; cbn [parse_class_loop]; do 2 read_step; (destruct (Z.eqb_spec b 93); [done|]); [done|].
    rewrite (bind_ok _ _ _ _ _ Hr). read_step. unfold bind at 1, peek at 1. cbn [rest with_rest].
    rewrite Ehi in *. unfold peek_at. simpl.
    destruct (Z.eqb_spec b2 93); [done|]. destruct (Z.eqb_spec b2 0); [done|]. simpl.
    unfold bind at 1. read_step. simpl in Hr2. rewrite Hr2. destruct (Z.ltb_spec hi lo); [lia|].
    apply IH. by rewrite <- app_assoc.
Qed.

Lemma parse_class_ok neg rs s tail p (Q : GbnfItem -> Parser -> Prop) :
  spells_ranges rs s -> Q (CharItem (mkCharSet rs neg)) (with_rest tail p) ->
  succ parse_class (with_rest (91 :: (if neg then [94] else []) ++ s ++ 93 :: tail) p) Q.
Proof.
  intros Hs HQ. unfold parse_class. apply succ_bind. unfold succ at 1. rewrite advance_ok.
  assert (forall c, c = neg -> succ (rs0 ← by_unread (fun n => parse_class_loop n []); ret (CharItem (mkCharSet rs0 c)))
    (with_rest (s ++ 93 :: tail) p) Q) as Hnext.
  { intros c ->. apply succ_bind, succ_by_unread. intros n. by apply class_loop_ok with (rs := rs). }
  destruct neg; simpl.
  - unfold succ. read_step. simpl. read_step. by apply Hnext.
  - destruct (ranges_head rs s tail 94 Hs) as (b & r & Er & Hb); [set_solver|done|done|].
    unfold succ. rewrite Er in *. read_step. destruct (Z.eqb_spec b 94); [done|]. by apply Hnext.
Qed.
