(* ===== verification/GbnfRoundTrip.v ===== *)
(** * GBNF: every spelling of a grammar is parsed to the grammar's language

    The parser of [GbnfParser] on the spellings of [GbnfSyntax]: operators fold
    the element they follow into synthetic rules of the right meaning
    ([GbnfMeaning]), groups nest, names may be used before they are defined, and
    the table a whole grammar yields derives, from each named rule, exactly the
    words the grammar gives that name. *)

From Corelib Require Import ssreflect_rw.
From stdpp Require Import prelude gmap list strings.
From S2P Require Import Prelude Gbnf GbnfParser GbnfMatcher GbnfTable GbnfSyntax GbnfMeaning GbnfSpelling.
Open Scope Z_scope.
Local Open Scope parser_scope.

(** ** Repetition bounds *)

Definition bound_pair (lo : nat) (hi : option nat) : Z * Z :=
  (Z.of_nat lo, match hi with Some h => Z.of_nat h | None => -1 end).

Lemma spells_bound_stoi n ds : spells_bound n ds -> stoi ds = Some (Z.of_nat n) /\ exists d ds', ds = d :: ds'.
Proof.
  intros (Hne & _ & Hv & Hmax). split; [|by destruct ds; eauto]. unfold stoi. rewrite Hv.
  destruct (Z.leb_spec (Z.of_nat n) (2 ^ 31 - 1)); [done|]. unfold kMaxRepeat in Hmax. lia.
Qed.

(** What follows the closing brace once the bounds are read. *)
Lemma bounds_check lo hi p : Z.of_nat lo <= kMaxRepeat ->
  match hi with Some h => (lo <= h)%nat /\ Z.of_nat h <= kMaxRepeat | None => True end ->
  (if (kMaxRepeat <? (bound_pair lo hi).1) || (kMaxRepeat <? (bound_pair lo hi).2) then fail ErrRepeatBound
   else if (0 <=? (bound_pair lo hi).2) && ((bound_pair lo hi).2 <? (bound_pair lo hi).1) then fail ErrInvertedRepeat
   else ret ((bound_pair lo hi).1, (bound_pair lo hi).2)) p = Ok (bound_pair lo hi) p.
Proof.
  intros Hlo Hhi. unfold bound_pair. simpl.
  destruct (Z.ltb_spec kMaxRepeat (Z.of_nat lo)); [lia|]. destruct hi as [h|]; simpl; [|done].
  destruct (Z.ltb_spec kMaxRepeat (Z.of_nat h)); [lia|]. simpl.
  destruct (Z.ltb_spec (Z.of_nat h) (Z.of_nat lo)); [lia|]. by rewrite andb_false_r.
Qed.

Lemma repeat_bounds_ok lo hi sop tail p : spells_op (RBounds lo hi) sop ->
  parse_repeat_bounds (with_rest (sop ++ tail) p) = Ok (bound_pair lo hi) (with_rest tail p).
Proof.
  assert (forall c s, is_digit c = false -> starts_none is_digit (c :: s)) as Hstop by done.
  intros H. inversion H as [| | |n ds Hb|n ds Hb|n ds Hb|m n ds es Hm Hn Hle]; subst; simpl;
    repeat (rewrite <- app_assoc; simpl); unfold parse_repeat_bounds; read_step.
  - destruct (spells_bound_stoi _ _ Hb) as [Hst (d & ds' & ->)]. destruct Hb as (_ & Hds & _ & Hmax).
    rewrite (bind_ok _ _ _ _ _ (take_span_ok is_digit _ (125 :: tail) p Hds eq_refl)). read_step. simpl (125 =? 44). cbn iota.
    rewrite (bind_ok (ret []) _ _ [] _ eq_refl). read_step. simpl (negb _). cbn iota. read_step.
    unfold lift_stoi at 1, bind at 1. rewrite Hst. rewrite (bind_ok (ret _) _ _ _ _ eq_refl).
    by apply (bounds_check lo (Some lo)).
  - destruct (spells_bound_stoi _ _ Hb) as [Hst (d & ds' & ->)]. destruct Hb as (_ & Hds & _ & Hmax).
    rewrite (bind_ok _ _ _ _ _ (take_span_ok is_digit _ (44 :: 125 :: tail) p Hds eq_refl)). read_step. simpl (44 =? 44). cbn iota.
    unfold bind at 1. read_step. rewrite (take_span_none is_digit (125 :: tail) p eq_refl).
    read_step. simpl (negb _). cbn iota. read_step.
    unfold lift_stoi at 1, bind at 1. rewrite Hst. rewrite (bind_ok (ret _) _ _ _ _ eq_refl).
    by apply (bounds_check lo None).
  - destruct (spells_bound_stoi _ _ Hb) as [Hst (d & ds' & ->)]. destruct Hb as (_ & Hds & _ & Hmax).
    rewrite (bind_ok _ _ _ _ _ (take_span_none is_digit (44 :: (d :: ds') ++ 125 :: tail) p eq_refl)).
    read_step. simpl (44 =? 44). cbn iota. unfold bind at 1. read_step.
    rewrite (take_span_ok is_digit _ (125 :: tail) p Hds eq_refl). read_step. simpl (negb _). cbn iota. read_step.
    rewrite (bind_ok (ret 0) _ _ 0 _ eq_refl). unfold lift_stoi at 1, bind at 1. rewrite Hst.
    apply (bounds_check 0 (Some n)); [done|lia].
  - destruct (spells_bound_stoi _ _ Hm) as [Hst (d & ds' & ->)]. destruct Hm as (_ & Hds & _ & Hmax).
    destruct (spells_bound_stoi _ _ Hn) as [Hst' (e & es' & ->)]. destruct Hn as (_ & Hes & _ & Hmax').
    rewrite (bind_ok _ _ _ _ _ (take_span_ok is_digit _ (44 :: (e :: es') ++ 125 :: tail) p Hds eq_refl)).
    read_step. simpl (44 =? 44). cbn iota. unfold bind at 1. read_step.
    rewrite (take_span_ok is_digit _ (125 :: tail) p Hes eq_refl). read_step. simpl (negb _). cbn iota. read_step.
    unfold lift_stoi at 1, bind at 1. rewrite Hst. unfold lift_stoi at 1, bind at 1. rewrite Hst'.
    apply (bounds_check lo (Some n)); [done|lia].
Qed.

(** ** Operators *)

Lemma make_star_ok x p :
  make_star x p = Ok (length (rules p)) (push_rule [[]; [x; RuleItem (length (rules p))]] p).
Proof.
  unfold make_star, bind, add_synthetic, set_alts, ret, push_rule. simpl. f_equal. f_equal.
  by rewrite alter_app_r_alt, Nat.sub_diag by done.
Qed.

Lemma make_opt_ok x tail p : make_opt x tail p = Ok (length (rules p)) (push_rule [[]; x :: rule_items tail] p).
Proof. done. Qed.

Lemma opt_chain_run n x k t p :
  opt_chain_ok p k x t -> exists t' p', opt_chain n x t p = Ok t' p' /\ rest p' = rest p /\ grown [] p p' /\
    opt_chain_ok p' (n + k) x t' /\ (n <> O -> t' <> None).
Proof.
  revert k t p. induction n as [|n IH]; intros k t p Hk; simpl.
  - exists t, p. split_and!; [done|done|apply grown_refl|done|done].
  - rewrite (bind_ok _ _ _ _ _ (make_opt_ok x t p)).
    destruct (IH (S k) (Some (length (rules p))) (push_rule [[]; x :: rule_items t] p)) as (t' & p' & E & Hr & Hg & Hok & Hne).
    { by apply opt_chain_push. }
    exists t', p'. split_and!; [done|done| |by rewrite Nat.add_succ_r in Hok|].
    + apply (grown_trans [] [] _ _ _ (push_grown _ _) Hg).
    + intros _. destruct n; [|by apply Hne]. simpl in E. by injection E as <- _.
Qed.

Lemma push_grown_rest a s p : grown [] p (push_rule a (with_rest s p)).
Proof. eapply grown_rest, push_grown. Qed.

(** What [apply_op] leaves for a folded element meaning [f]. *)
Definition op_post (op : RepOp) (f : (list Z -> language) -> language) (p : Parser) (tail : list Z)
    (its : list GbnfItem) (p' : Parser) : Prop :=
  rest p' = tail /\ grown [] p p' /\ means p' its (fun N => op_lang op (f N)) /\
  (its = [] -> op_empties op = true).

Lemma apply_bounds_ok lo hi x f p tail :
  match hi with Some h => (lo <= h)%nat | None => True end -> means p [x] f ->
  succ (if (bound_pair lo hi).2 <? 0 then s ← make_star x; ret (replicate (Z.to_nat (bound_pair lo hi).1) x ++ [RuleItem s])
    else if (bound_pair lo hi).1 <? (bound_pair lo hi).2 then
      t ← opt_chain (Z.to_nat ((bound_pair lo hi).2 - (bound_pair lo hi).1)) x None;
      ret (replicate (Z.to_nat (bound_pair lo hi).1) x ++ rule_items t)
    else ret (replicate (Z.to_nat (bound_pair lo hi).1) x)) (with_rest tail p) (op_post (RBounds lo hi) f p tail).
Proof.
  intros Hle Hx. unfold bound_pair. cbn [fst snd]. rewrite Nat2Z.id.
  destruct hi as [h|].
  - destruct (Z.ltb_spec (Z.of_nat h) 0); [lia|]. destruct (Z.ltb_spec (Z.of_nat lo) (Z.of_nat h)).
    + apply succ_bind. replace (Z.to_nat (Z.of_nat h - Z.of_nat lo)) with (h - lo)%nat by lia.
      destruct (opt_chain_run (h - lo) x 0 None (with_rest tail p)) as (t & p' & E & Hr & Hg & Hok & Hne); [done|].
      apply grown_rest in Hg. eapply succ_ok; [exact E|]. rewrite Nat.add_0_r in Hok. split_and!; [done|exact Hg| |].
      * assert (means p' [x] f) as Hx' by (eapply means_grown; [exact Hg|exact Hx]).
        eapply means_iff; [apply (means_bounds p' x f lo (rule_items t) (Some (h - lo)%nat) Hx')|].
        { intros R M N Ha w. apply dv_opt. by eapply Hok. }
        intros N w. simpl. by replace (lo + (h - lo))%nat with h by lia.
      * intros Hnil. exfalso. apply app_eq_nil in Hnil as [_ Hnil]. destruct t; [done|]. apply Hne; [lia|done].
    + eapply succ_ok; [done|]. assert (h = lo) as -> by lia. split_and!; [done|by apply grown_same| |].
      * eapply means_iff; [rewrite <- (app_nil_r (replicate lo x)); apply (means_bounds p x f lo [] (Some 0%nat) Hx)|].
        { intros R M N Ha w. apply (dv_opt R N 0 x None w). done. }
        intros N w. simpl. by rewrite Nat.add_0_r.
      * destruct lo; [done|done].
  - simpl. apply succ_bind. eapply succ_ok; [apply make_star_ok|]. cbn [with_rest rules].
    pose proof (push_grown_rest [[]; [x; RuleItem (length (rules p))]] tail p) as Hg.
    split_and!; [done|done| |].
    + apply (means_bounds _ x f lo [RuleItem _] None); [by eapply means_grown|].
      intros R M N Ha w. apply dv_star. by eapply push_lookup in Ha.
    + intros Hnil. by apply app_eq_nil in Hnil as [_ ?].
Qed.

Lemma spells_bounds_inv lo hi sop : spells_op (RBounds lo hi) sop ->
  (exists s, sop = 123 :: s) /\ match hi with Some h => (lo <= h)%nat | None => True end.
Proof. inversion 1; subst; (split; [by eexists|try done; lia]). Qed.

Lemma apply_op_ok op c s' x f p tail :
  spells_op op (c :: s') -> means p [x] f ->
  succ (apply_op c x) (with_rest (c :: s' ++ tail) p) (op_post op f p tail).
Proof.
  intros Hop Hx. unfold apply_op. destruct op as [| | |lo hi].
  - inversion Hop; subst. simpl (_ =? _). cbn iota.
    apply succ_bind. eapply succ_ok; [apply advance_ok|]. apply succ_bind. eapply succ_ok; [apply make_star_ok|].
    split_and!; [done|by apply push_grown_rest|by apply (means_star (with_rest _ p))|done].
  - inversion Hop; subst. simpl (_ =? _). cbn iota.
    apply succ_bind. eapply succ_ok; [apply advance_ok|]. apply succ_bind. eapply succ_ok; [apply make_star_ok|].
    split_and!; [done|by apply push_grown_rest| |done].
    apply (means_bounds _ x f 1 [RuleItem _] None); [eapply means_grown; [apply push_grown_rest|done]|].
    intros R M N Ha w. apply dv_star. by eapply push_lookup in Ha.
  - inversion Hop; subst. simpl (_ =? _). cbn iota.
    apply succ_bind. eapply succ_ok; [apply advance_ok|]. apply succ_bind. eapply succ_ok; [apply make_opt_ok|].
    split_and!; [done|by apply push_grown_rest| |done].
    apply (means_bounds _ x f 0 [RuleItem _] (Some 1%nat)); [eapply means_grown; [apply push_grown_rest|done]|].
    intros R M N Ha w. apply (dv_opt R N 1 x (Some (length (rules p)))).
    exists None. split; [by eapply push_lookup in Ha|done].
  - destruct (spells_bounds_inv _ _ _ Hop) as [[s [= -> <-]] Hle]. simpl (_ =? _). cbn iota.
    pose proof (repeat_bounds_ok lo hi _ tail p Hop) as E. simpl in E.
    apply succ_bind. eapply succ_ok; [exact E|]. by apply (apply_bounds_ok lo hi).
Qed.

(** ** An element with its operators *)

Lemma fold_element_ok el f p : means p el f ->
  exists x p', fold_element el p = Ok x p' /\ rest p' = rest p /\ grown [] p p' /\ means p' [x] f.
Proof.
  intros Hm.
  assert (means (push_rule [el] p) [RuleItem (length (rules p))] f) as Hnew.
  { apply means_group. intros R M N Ha w. rewrite <- (Hm R M N Ha). split.
    - by intros (alt & ->%list_elem_of_singleton & Hw).
    - intros Hw. exists el. split; [by apply list_elem_of_singleton|done]. }
  unfold fold_element.
  destruct el as [|x [|y el]];
    first [by exists x, p; split_and!; [|..|apply grown_refl|]
          |eexists _, _; split_and!; [done|done|apply push_grown|exact Hnew]].
Qed.

Lemma spells_op_head op sop : spells_op op sop -> exists c s, sop = c :: s /\ is_postfix c = true.
Proof. by inversion 1; subst; eexists _, _. Qed.

Lemma postfix_ok fuel ops sops empty out el f p tail :
  spells_ops ops sops -> ops_apply empty ops = true -> (el = [] -> empty = true) ->
  starts_none is_postfix tail -> means p el f ->
  succ (apply_postfix_loop fuel (out ++ el) (length out)) (with_rest (sops ++ tail) p) (fun its p' =>
    exists new, its = out ++ new /\ rest p' = tail /\ grown [] p p' /\ means p' new (fun N => ops_lang ops (f N))).
Proof.
  intros H. revert fuel empty el f p.
  induction H as [|op ops sop sops Hop _ IH]; intros fuel empty el f p Happ Hempty Htail Hm; simpl.
  - assert (forall fuel, apply_postfix_loop fuel (out ++ el) (length out) (with_rest tail p) = Ok (out ++ el) (with_rest tail p)) as E.
    { intros f'. destruct tail as [|c tail]; [by destruct f'|]. simpl in Htail.
      destruct f'; cbn [apply_postfix_loop]; do 2 read_step; by rewrite Htail. }
    eapply succ_ok; [apply E|]. exists el. by split_and!; [|..|apply grown_rest_r, grown_refl|].
  - simpl in Happ. apply andb_true_iff in Happ as [Hne%negb_true_iff Happ].
    destruct (spells_op_head _ _ Hop) as (c & s' & -> & Hc). rewrite <- app_assoc. simpl.
    assert (el <> []) as Hel by (intros ->%Hempty; done).
    assert ((length (out ++ el) <=? length out)%nat = false) as Hlen.
    { apply Nat.leb_gt. rewrite length_app. destruct el; [done|simpl; lia]. }
    destruct fuel as [|fuel]; cbn [apply_postfix_loop]; unfold succ; do 2 read_step;
      rewrite Hc, Hlen; cbn [orb negb]; [done|]. rewrite drop_app_length.
    destruct (fold_element_ok el f (with_rest (c :: s' ++ sops ++ tail) p) Hm) as (x & p1 & E & Hr1 & Hg1 & Hm1).
    rewrite (bind_ok _ _ _ _ _ E). apply grown_rest in Hg1.
    apply succ_bind. assert (p1 = with_rest (c :: s' ++ sops ++ tail) p1) as ->.
    { destruct p1. simpl in *. by subst. }
    eapply succ_weaken; [apply (apply_op_ok op c s' x f p1 _ Hop Hm1)|]. intros new p2 (Hr2 & Hg2 & Hm2 & Hn2).
    rewrite take_app_length. assert (p2 = with_rest (sops ++ tail) p2) as ->.
    { destruct p2. simpl in *. by subst. }
    eapply succ_weaken; [apply (IH fuel (op_empties op) new _ p2 Happ Hn2 Htail Hm2)|].
    intros its p3 (new' & -> & Hr3 & Hg3 & Hm3). exists new'. split_and!; [done|done| |done].
    apply (grown_trans [] [] p p1); [done|]. by apply (grown_trans [] [] p1 p2).
Qed.

(** ** Elements, sequences, alternatives *)

(** The dispatch of [parse_sequence] on the first byte of an element. *)
Definition parse_element (f : nat) (out : list GbnfItem) (c : Z) : P (list GbnfItem) :=
  if c =? 34 then parse_string out
  else if c =? 91 then it ← parse_class; ret (out ++ [it])
  else if c =? 46 then advance_by 1;; ret (out ++ [CharItem (mkCharSet [] true)])
  else if c =? 40 then
    advance_by 1;;
    alts ← parse_alternates f true;
    skip_space true;;
    c2 ← peek 0;
    if negb (c2 =? 41) then fail ErrExpectedParen
    else advance_by 1;; id ← add_synthetic alts; ret (out ++ [RuleItem id])
  else if is_word_char c then
    name ← take_span is_word_char;
    id ← rule_id name;
    ret (out ++ [RuleItem id])
  else fail (ErrUnexpected c).

Lemma parse_sequence_S f nested out :
  parse_sequence (S f) nested out =
    (skip_space nested;; end_ ← eof; c ← peek 0;
     if end_ || (c =? 124) || (c =? 41) || (c =? 10) then ret out
     else out1 ← parse_element f out c; out2 ← apply_postfix out1 (length out); parse_sequence f nested out2).
Proof. done. Qed.

Definition elem_start (c : Z) : Prop := c = 34 \/ c = 91 \/ c = 46 \/ c = 40 \/ is_word_char c = true.

Lemma word_char_range c : is_word_char c = true ->
  97 <= c <= 122 \/ 65 <= c <= 90 \/ 48 <= c <= 57 \/ c = 45 \/ c = 95.
Proof.
  unfold is_word_char.
  intros [[[[H|H]%orb_true_iff|H]%orb_true_iff|H%Z.eqb_eq]%orb_true_iff|H%Z.eqb_eq]%orb_true_iff;
    repeat match goal with H : _ && _ = true |- _ => apply andb_true_iff in H as [?%Z.leb_le ?%Z.leb_le] end; lia.
Qed.

(** Distinguish a byte from a constant it cannot equal. *)
Ltac neqb := repeat match goal with |- context [?c =? ?k] => destruct (Z.eqb_spec c k); [exfalso; lia|] end; try done.

Lemma elem_start_bytes c : elem_start c -> blank_byte c = false /\ is_postfix c = false /\ c <> 124 /\ c <> 41 /\ c <> 10.
Proof.
  intros [-> | [-> | [-> | [-> | H%word_char_range]]]]; [done..|].
  split_and!; [unfold blank_byte; neqb|unfold is_postfix; neqb|lia..].
Qed.

Lemma elem_head e se : spells_elem e se -> exists c s, se = c :: s /\ elem_start c.
Proof.
  unfold elem_start. destruct 1 as [| | | |name [Hne Hw]|];
    [by eexists _, _; split; [|left]|by eexists _, _; split; [|right; left]..
    |by eexists _, _; split; [|right; right; left]| |by eexists _, _; split; [|do 3 right; left]].
  destruct name as [|c name]; [done|]. exists c, name. apply Forall_cons in Hw as [-> _]. auto 6.
Qed.

(** What may follow a sequence, and a list of alternatives. *)
Definition terminates (nested : bool) (s : list Z) : Prop :=
  match s with [] => nested = false | c :: _ => c = 124 \/ c = if nested then 41 else 10 end.
Definition ends (nested : bool) (s : list Z) : Prop :=
  match s with [] => nested = false | c :: _ => c = if nested then 41 else 10 end.

Lemma ends_terminates nested s : ends nested s -> terminates nested s.
Proof. destruct s; simpl; auto. Qed.

Lemma terminates_solid nested s : terminates nested s -> solid nested s.
Proof. destruct s as [|c s]; [done|]. by destruct nested; intros [-> | ->]. Qed.

Lemma terminates_none nested s (f : Z -> bool) : f 124 = false -> f 41 = false -> f 10 = false ->
  terminates nested s -> starts_none f s.
Proof. intros ???. destruct s as [|c s]; [done|]. by destruct nested; intros [-> | ->]. Qed.

(** A spelled sequence is blanks and then nothing or an element. *)
Lemma sequence_start nested s ss : spells_sequence nested s ss ->
  exists ws r, ss = ws ++ r /\ blank nested ws /\
    match s with SNil => r = [] | SCons _ _ _ => exists c r', r = c :: r' /\ elem_start c end.
Proof.
  destruct 1 as [nested ws Hws|nested ws e ops s se sops ss Hws He _ _ _ _].
  - exists ws, []. by rewrite app_nil_r.
  - exists ws, (se ++ sops ++ ss). split_and!; [done|done|].
    destruct (elem_head _ _ He) as (c & s' & -> & Hc). by eexists _, _.
Qed.

Lemma starts_none_app f (ws r t : list Z) : starts_none f ws -> starts_none f (r ++ t) -> starts_none f ((ws ++ r) ++ t).
Proof. by destruct ws. Qed.

Lemma blank_none nl ws (f : Z -> bool) : f 32 = false -> f 9 = false -> f 13 = false -> f 10 = false -> f 35 = false ->
  blank nl ws -> starts_none f ws.
Proof. intros ?????. by destruct 1 as [|c ws [-> | [-> | ->]]| |]. Qed.

Lemma sequence_no_postfix nested s ss tail :
  spells_sequence nested s ss -> terminates nested tail -> starts_none is_postfix (ss ++ tail).
Proof.
  intros (ws & r & -> & Hws & Hr)%sequence_start Ht. apply starts_none_app; [by eapply blank_none|].
  destruct s; [subst; by eapply terminates_none|]. destruct Hr as (c & r' & -> & Hc). by apply elem_start_bytes.
Qed.

(** ** The postconditions of the three mutual routines *)

Definition elem_post (e : elem) (out : list GbnfItem) (p : Parser) (tail : list Z) (its : list GbnfItem) (p' : Parser) : Prop :=
  exists new, its = out ++ new /\ rest p' = tail /\ grown (elem_refs e) p p' /\
    means p' new (fun N => elem_lang N e) /\ (new = [] -> elem_empty e = true).

Definition seq_post (s : sequence) (out : list GbnfItem) (p : Parser) (tail : list Z) (its : list GbnfItem) (p' : Parser) : Prop :=
  exists new, its = out ++ new /\ rest p' = tail /\ grown (sequence_refs s) p p' /\
    means p' new (fun N => sequence_lang N s).

Definition alts_post (a : alternatives) (acc : list GbnfAlt) (p : Parser) (tail : list Z) (l : list GbnfAlt) (p' : Parser) : Prop :=
  exists new, l = acc ++ new /\ rest p' = tail /\ grown (alternatives_refs a) p p' /\
    means_alts p' new (fun N => alternatives_lang N a) /\ new <> [].

Definition skip (nl : bool) (s : list Z) : list Z := skip_space_from nl false s.

Definition elem_reads (e : elem) (se : list Z) : Prop := forall f out p tail,
  (match e with ERef _ => starts_none is_word_char tail | _ => True end) ->
  succ (parse_element f out (peek_at (se ++ tail) 0)) (with_rest (se ++ tail) p) (elem_post e out p tail).

Definition seq_reads (nested : bool) (s : sequence) (ss : list Z) : Prop := forall f out p r tail,
  terminates nested tail -> skip nested r = skip nested (ss ++ tail) ->
  succ (parse_sequence f nested out) (with_rest r p) (seq_post s out p tail).

(** [alternates_loop] is entered with the next alternative still to be read. *)
Definition alts_reads (nested : bool) (a : alternatives) (sa : list Z) : Prop := forall f f' acc p r tail,
  ends nested tail -> (nested = true \/ last_nonempty a) -> skip nested r = skip nested (sa ++ tail) ->
  succ (alt ← parse_sequence f nested []; alternates_loop f' nested (acc ++ [alt])) (with_rest r p)
    (alts_post a acc p tail).

(** ** Elements *)

Lemma with_rest_eq p r : rest p = r -> p = with_rest r p.
Proof. by destruct p; intros <-. Qed.

Lemma lit_means p cps : means p (char_item <$> cps) (fun N => elem_lang N (ELit cps)).
Proof.
  intros R M N _ w. simpl. revert w. induction cps as [|c cps IH]; intros w; cbn [fmap list_fmap]; [apply dv_nil_inv|].
  rewrite dv_single_cons. setoid_rewrite dv_char_inv. setoid_rewrite IH. split.
  - intros (w1 & w2 & -> & (c' & -> & Hc) & ->). apply orb_true_iff in Hc as [Hc|Hc]; [|done].
    unfold in_range in Hc. simpl in Hc. simpl. f_equal. lia.
  - intros ->. exists [c], cps. split_and!; [done| |done]. exists c. split; [done|].
    unfold matches, in_range. simpl. by rewrite Z.leb_refl.
Qed.

Lemma read_lit cps s : spells_chars string_special cps s -> elem_reads (ELit cps) (34 :: s ++ [34]).
Proof.
  intros Hs f out p tail _. simpl. rewrite <- app_assoc. unfold parse_element. simpl (_ =? _). cbn iota.
  apply parse_string_ok with (cps := cps); [done|]. exists (char_item <$> cps).
  split_and!; [done|done|apply grown_rest_r, grown_refl|apply lit_means|].
  by destruct cps.
Qed.

Lemma read_class neg rs s : spells_ranges rs s ->
  elem_reads (EClass (mkCharSet rs neg)) (91 :: (if neg then [94] else []) ++ s ++ [93]).
Proof.
  intros Hs f out p tail _. simpl. rewrite <- !app_assoc. unfold parse_element. simpl (_ =? _). cbn iota.
  apply succ_bind, (parse_class_ok neg rs); [done|]. eexists.
  by split_and!; [|..|apply grown_rest_r, grown_refl|apply means_char|].
Qed.

Lemma read_any : elem_reads EAny [46].
Proof.
  intros f out p tail _. unfold parse_element. simpl (_ =? _). cbn iota. simpl (_ ++ _).
  apply succ_bind. eapply succ_ok; [apply advance_ok|]. eexists.
  split_and!; [done|done|apply grown_rest_r, grown_refl| |done].
  eapply means_iff; [apply means_char|]. intros N w. simpl. unfold matches. simpl.
  split; intros (c & H); exists c; tauto.
Qed.

Lemma rule_id_ok name p : name <> [] ->
  exists id p', rule_id name p = Ok id p' /\ rest p' = rest p /\ grown [name] p p' /\ ids p' !! name = Some id /\
    (rules p' = rules p \/ rules p' = rules p ++ [mkRule name []]).
Proof.
  intros Hn. unfold rule_id. destruct (ids p !! name) as [id|] eqn:E.
  - exists id, p. split_and!; [done|done| |done|by left].
    destruct (grown_refl p) as [G1 G2 G3 G4 G5 G6]. constructor; try done. intros n. rewrite list_elem_of_singleton.
    split; [by left|]. intros [?| ->]; [done|by eexists].
  - eexists _, _. split_and!; [done|done| |simpl; by rewrite lookup_insert_eq|by right].
    constructor; simpl; [by eexists|by apply insert_subseteq|done| | |].
    + intros n. rewrite lookup_insert_is_Some, list_elem_of_singleton. destruct (decide (name = n)); naive_solver.
    + intros id r [Hr|[Hl Hr]]%lookup_app_Some Hnn; [by left|].
      apply list_lookup_singleton_Some in Hr as [_ <-]. by right.
    + intros [H1 H2]. split; simpl.
      * intros n id. rewrite lookup_insert_Some. intros [[<- <-]|[_ (r & Hr & ?)%H1]].
        -- exists (mkRule name []). by rewrite lookup_app_r, Nat.sub_diag.
        -- exists r. split; [by apply lookup_app_l_Some|done].
      * intros id r [Hr|[Hl Hr]]%lookup_app_Some Hnn.
        -- rewrite lookup_insert_ne; [by apply H2|]. intros En. pose proof (H2 _ _ Hr Hnn). congruence.
        -- apply list_lookup_singleton_Some in Hr as [Hid <-]. simpl. rewrite lookup_insert_eq. f_equal. lia.
Qed.

Lemma means_ref p name id : ids p !! name = Some id -> means p [RuleItem id] (fun N => N name).
Proof.
  intros Hid R M N (_ & Hsub & Hm) w. pose proof (lookup_weaken _ _ _ _ Hid Hsub) as HM.
  destruct (Hm _ _ HM) as (r & Hr & Hn & Hne). rewrite (dv_named_inv R N id r w Hr); [|congruence].
  split; [intros H; by exists id|]. intros (id' & HM' & H). by simplify_eq.
Qed.

Lemma read_ref name : rule_word name -> elem_reads (ERef name) name.
Proof.
  intros [Hne Hw] f out p tail Ht. destruct (elem_head (ERef name) name) as (c & s & E & Hc); [by constructor|].
  assert (is_word_char c = true) as Hwc by (rewrite E in Hw; by apply Forall_cons in Hw as [? _]).
  rewrite E. simpl (_ ++ _). unfold peek_at. simpl (default _ _). unfold parse_element.
  pose proof (word_char_range c Hwc) as Hr. rewrite Hwc. neqb.
  change (c :: s ++ tail) with ((c :: s) ++ tail). rewrite <- E.
  apply succ_bind. eapply succ_ok; [by apply take_span_ok|].
  destruct (rule_id_ok name (with_rest tail p) Hne) as (id & p' & Eid & Hrest & Hg & Hid & _).
  apply succ_bind. eapply succ_ok; [exact Eid|]. exists [RuleItem id].
  split_and!; [done|done|by eapply grown_rest|by apply means_ref|done].
Qed.

Lemma read_group a s : alts_reads true a s -> elem_reads (EGroup a) (40 :: s ++ [41]).
Proof.
  intros Ha f out p tail _. simpl. rewrite <- app_assoc. unfold parse_element. simpl (_ =? _). cbn iota.
  apply succ_bind. eapply succ_ok; [apply advance_ok|]. apply succ_bind.
  destruct f as [|f]; [done|]. cbn [parse_alternates].
  eapply succ_weaken; [apply (Ha f f [] p _ (41 :: tail)); [done|by left|done]|].
  intros l p1 (new & -> & Hr & Hg & Hm & _). rewrite (with_rest_eq _ _ Hr). simpl ([] ++ new).
  apply succ_bind. eapply succ_ok; [done|]. apply succ_bind. eapply succ_ok; [done|]. simpl (negb _). cbn iota.
  apply succ_bind. eapply succ_ok; [done|]. apply succ_bind. eapply succ_ok; [done|]. eexists.
  split_and!; [done|done| |by apply (means_group (with_rest tail p1))|done].
  eapply grown_nil_r; [exact Hg|exact (push_grown_rest new tail p1)].
Qed.

(** ** Sequences *)

Lemma read_nil nested ws : blank nested ws -> seq_reads nested SNil ws.
Proof.
  intros Hws f out p r tail Ht Er. unfold skip in Er. rewrite (skip_blank _ _ _ Hws) in Er.
  rewrite (terminates_solid _ _ Ht) in Er.
  assert (forall f', parse_sequence f' nested out (with_rest r p) = Ok out (with_rest tail p)) as E.
  { intros f'. assert (skip_space nested (with_rest r p) = Ok () (with_rest tail p)) as Esk.
    { unfold skip_space. simpl. by rewrite Er. }
    destruct tail as [|c tail]; [|destruct Ht as [-> | ->]; destruct nested];
      destruct f'; cbn [parse_sequence]; by rewrite (bind_ok _ _ _ _ _ Esk). }
  eapply succ_ok; [apply E|]. exists []. rewrite app_nil_r.
  split_and!; [done|done|apply grown_rest_r, grown_refl|apply means_nil].
Qed.

Lemma ends_none_word nested e ops se sops ss s tail :
  spells_elem e se -> spells_ops ops sops -> spells_sequence nested s ss -> name_ends e ops ss -> terminates nested tail ->
  match e with ERef _ => starts_none is_word_char (sops ++ ss ++ tail) | _ => True end.
Proof.
  intros He Hops Hs Hn Ht. destruct e; try done. destruct Hops as [|op ops sop sops Hop _]; simpl in *.
  - destruct ss; [by eapply terminates_none|done].
  - destruct (spells_op_head _ _ Hop) as (c & s' & -> & Hc). simpl.
    unfold is_postfix in Hc. repeat (apply orb_true_iff in Hc as [Hc|Hc]); apply Z.eqb_eq in Hc; by subst.
Qed.

Lemma read_cons nested ws e ops s se sops ss :
  blank nested ws -> spells_elem e se -> elem_reads e se -> spells_ops ops sops ->
  spells_sequence nested s ss -> seq_reads nested s ss ->
  ops_apply (elem_empty e) ops = true -> name_ends e ops ss ->
  seq_reads nested (SCons e ops s) (ws ++ se ++ sops ++ ss).
Proof.
  intros Hws He IHe Hops Hss IHs Happ Hname f out p r tail Ht Er.
  pose proof (ends_none_word _ _ _ _ _ _ _ _ He Hops Hss Hname Ht) as Hnext.
  destruct (elem_head _ _ He) as (c & se' & Ese & Hc). destruct (elem_start_bytes c Hc) as (Hb & _ & H124 & H41 & H10).
  unfold skip in Er. rewrite <- app_assoc, (skip_blank _ _ _ Hws), <- !app_assoc in Er.
  rewrite (solid_start nested (se ++ sops ++ ss ++ tail)) in Er by by rewrite Ese.
  assert (skip_space nested (with_rest r p) = Ok () (with_rest (se ++ sops ++ ss ++ tail) p)) as Esk.
  { unfold skip_space. simpl. by rewrite Er. }
  assert ((false || (c =? 124) || (c =? 41) || (c =? 10)) = false) as Hstop by neqb.
  specialize (IHe (pred f) out p (sops ++ ss ++ tail) Hnext). rewrite Ese in Esk, IHe. simpl (_ ++ _) in Esk, IHe.
  destruct f as [|f]; unfold succ; [cbn [parse_sequence]|rewrite parse_sequence_S];
    rewrite (bind_ok _ _ _ _ _ Esk); do 2 read_step; rewrite Hstop; [done|].
  apply succ_bind. eapply succ_weaken; [exact IHe|].
  intros out1 p1 (el & -> & Hr1 & Hg1 & Hm1 & He1). rewrite (with_rest_eq _ _ Hr1).
  apply succ_bind, succ_by_unread. intros n.
  eapply succ_weaken; [apply (postfix_ok n ops sops (elem_empty e) out el (fun N => elem_lang N e) p1 (ss ++ tail)); try done;
    by eapply sequence_no_postfix|].
  intros out2 p2 (el2 & -> & Hr2 & Hg2 & Hm2). rewrite (with_rest_eq _ _ Hr2).
  eapply succ_weaken; [by apply (IHs f (out ++ el2) p2 (ss ++ tail) tail)|].
  intros its p3 (new & -> & Hr3 & Hg3 & Hm3). exists (el2 ++ new). rewrite app_assoc.
  split_and!; [done|done| |].
  - simpl. eapply grown_trans; [|exact Hg3]. by eapply grown_nil_r.
  - eapply means_iff; [apply means_app; [by eapply means_grown|exact Hm3]|done].
Qed.

(** ** Alternatives *)

Lemma means_alts_one p alt f : means p alt f -> means_alts p [alt] f.
Proof.
  intros Hm R M N Ha w. rewrite <- (Hm R M N Ha). split.
  - by intros (? & ->%list_elem_of_singleton & ?).
  - exists alt. split; [by apply list_elem_of_singleton|done].
Qed.

Lemma means_alts_cons p alt l f g : means p alt f -> means_alts p l g ->
  means_alts p (alt :: l) (fun N w => f N w \/ g N w).
Proof.
  intros Hf Hg R M N Ha w. rewrite <- (Hf R M N Ha), <- (Hg R M N Ha). split.
  - intros (alt' & [->|Hin]%elem_of_cons & Hw); [by left|right; by exists alt'].
  - intros [Hw|(alt' & Hin & Hw)]; [exists alt|exists alt']; (split; [|done]); [by left|by right].
Qed.

Lemma loop_end f nested l p tail : ends nested tail ->
  alternates_loop f nested l (with_rest tail p) = Ok l (with_rest tail p).
Proof.
  intros He. assert (skip_space nested (with_rest tail p) = Ok () (with_rest tail p)) as Esk.
  { unfold skip_space. simpl. by rewrite (terminates_solid _ _ (ends_terminates _ _ He)). }
  destruct tail as [|c tail]; [|simpl in He; subst; destruct nested]; destruct f; cbn [alternates_loop];
    by rewrite (bind_ok _ _ _ _ _ Esk).
Qed.

Lemma read_one nested s ss : seq_reads nested s ss -> alts_reads nested (AOne s) ss.
Proof.
  intros IH f f' acc p r tail He _ Er. apply succ_bind.
  eapply succ_weaken; [apply (IH f [] p r tail); [by apply ends_terminates|done]|].
  intros alt p1 (new & -> & Hr & Hg & Hm). rewrite (with_rest_eq _ _ Hr). simpl ([] ++ new).
  eapply succ_ok; [by apply loop_end|]. exists [new].
  split_and!; [done|done|by apply grown_rest_r|by apply (means_alts_one (with_rest tail p1))|done].
Qed.

Lemma skip_idem nl c s : skip nl (skip_space_from nl c s) = skip_space_from nl c s.
Proof.
  unfold skip. revert c. induction s as [|b s IH]; intros c; [done|]. simpl.
  destruct (c && negb (b =? 10)); [apply IH|]. destruct (b =? 35) eqn:E35; [apply IH|].
  destruct (_ || _) eqn:Esp; [apply IH|]. destruct ((b =? 10) && nl) eqn:E10; [apply IH|].
  simpl. by rewrite E35, Esp, E10.
Qed.

(** The line-spanning skip after [::=] and [|] loses nothing of what follows. *)
Lemma skip_wide nested a sa tail : spells_alternatives nested a sa -> ends nested tail ->
  (nested = true \/ last_nonempty a) -> skip nested (skip true (sa ++ tail)) = skip nested (sa ++ tail).
Proof.
  intros Ha He Hl. destruct nested; [apply skip_idem|]. destruct Hl as [?|Hl]; [done|].
  assert (exists ws c r, sa ++ tail = ws ++ c :: r /\ blank false ws /\ blank_byte c = false) as (ws & c & r & -> & Hws & Hc).
  { inversion Ha as [? s ss Hs|? s a' ss ws' sa' Hs Hws' Hsa']; subst.
    - destruct (sequence_start _ _ _ Hs) as (ws & r & -> & Hws & Hr). destruct s; [done|].
      destruct Hr as (c & r' & -> & Hc). exists ws, c, (r' ++ tail). rewrite <- app_assoc.
      split_and!; [done|done|by apply elem_start_bytes].
    - destruct (sequence_start _ _ _ Hs) as (ws & r & -> & Hws & Hr). destruct s.
      + subst. exists ws, 124, ((ws' ++ sa') ++ tail). rewrite app_nil_r, <- app_assoc. by split_and!.
      + destruct Hr as (c & r' & -> & Hc). exists ws, c, (r' ++ (124 :: ws' ++ sa') ++ tail).
        rewrite <- !app_assoc. split_and!; [done|done|by apply elem_start_bytes]. }
  unfold skip. rewrite (skip_blank true) by by apply blank_weaken.
  rewrite (skip_blank false) by done. by rewrite (solid_start true (c :: r)) by done.
Qed.

Lemma read_more nested s a ss ws sa :
  spells_sequence nested s ss -> seq_reads nested s ss -> blank true ws ->
  spells_alternatives nested a sa -> alts_reads nested a sa -> alts_reads nested (AMore s a) (ss ++ 124 :: ws ++ sa).
Proof.
  intros Hss IHs Hws Hsa IHa f f' acc p r tail He Hl Er. rewrite <- app_assoc in Er. simpl in Er.
  apply succ_bind. eapply succ_weaken; [apply (IHs f [] p r (124 :: (ws ++ sa) ++ tail)); [by left|done]|].
  intros alt p1 (new & -> & Hr & Hg & Hm). rewrite (with_rest_eq _ _ Hr). simpl ([] ++ new).
  assert (forall f, skip_space f (with_rest (124 :: (ws ++ sa) ++ tail) p1) = Ok () (with_rest (124 :: (ws ++ sa) ++ tail) p1)) as Esk
    by done.
  unfold succ. destruct f' as [|f']; cbn [alternates_loop]; rewrite (bind_ok _ _ _ _ _ (Esk _)); read_step; simpl (negb _); cbn iota;
    [done|]. read_step.
  assert (skip_space true (with_rest ((ws ++ sa) ++ tail) p1) = Ok () (with_rest (skip true ((ws ++ sa) ++ tail)) p1))
    as Esk2 by done.
  rewrite (bind_ok _ _ _ _ _ Esk2).
  eapply succ_weaken; [apply (IHa f' f' (acc ++ [new]) p1 _ tail); [done|done|]|].
  { unfold skip at 2. rewrite <- app_assoc, skip_blank by done. by eapply skip_wide. }
  intros l p2 (new2 & -> & Hr2 & Hg2 & Hm2 & Hne). exists (new :: new2). rewrite <- app_assoc.
  split_and!; [done|done|by eapply grown_trans| |done].
  apply means_alts_cons; [by eapply means_grown|done].
Qed.

Theorem reads_spelling :
  (forall e se, spells_elem e se -> elem_reads e se) /\
  (forall nested s ss, spells_sequence nested s ss -> spells_sequence nested s ss /\ seq_reads nested s ss) /\
  (forall nested a sa, spells_alternatives nested a sa -> spells_alternatives nested a sa /\ alts_reads nested a sa).
Proof.
  apply spells_mutind.
  - intros cps s. apply read_lit.
  - intros rs s. apply (read_class false).
  - intros rs s. apply (read_class true).
  - apply read_any.
  - intros name. apply read_ref.
  - intros a s _ [_ Ha]. by apply read_group.
  - intros nested ws Hws. split; [by constructor|by apply read_nil].
  - intros nested ws e ops s se sops ss Hws He IHe Hops _ [Hs IHs] Happ Hn.
    split; [by econstructor|by apply read_cons].
  - intros nested s ss _ [Hs IHs]. split; [by constructor|by apply read_one].
  - intros nested s a ss ws sa _ [Hs IHs] Hws _ [Ha IHa]. split; [by constructor|by apply read_more].
Qed.

(** ** Rules *)

(** The table with the alternatives of rule [id] written. *)
Definition put_alts (id : nat) (l : list GbnfAlt) (p : Parser) : Parser :=
  mkParser (rest p) (alter (fun r => mkRule (rule_name r) l) id (rules p)) (ids p) (defined p).

Lemma put_lookup id l p i : rules (put_alts id l p) !! i =
  if decide (i = id) then (fun r => mkRule (rule_name r) l) <$> rules p !! i else rules p !! i.
Proof. simpl. case_decide; subst; [by rewrite list_lookup_alter_eq|by rewrite list_lookup_alter_ne]. Qed.

Lemma put_named id l p : named p -> named (put_alts id l p).
Proof.
  intros [H1 H2]. split.
  - intros n i (r & Hr & En & Hn)%H1. rewrite put_lookup, Hr. case_decide; simpl; [|by eauto].
    eexists. split; [done|]. by simpl.
  - intros i r Hr Hn. rewrite put_lookup in Hr. case_decide; [|by apply H2].
    apply fmap_Some in Hr as (r0 & Hr & ->). simpl in *. by apply H2.
Qed.

(** Writing a named rule leaves the synthetic ones alone. *)
Lemma put_means name id l l' p f : named p -> ids p !! name = Some id -> means_alts p l' f -> means_alts (put_alts id l p) l' f.
Proof.
  intros [H1 _] Hid Hm R M N (Ha & Hb & Hc). apply (Hm R M N). split_and!; [|done|done].
  intros i r Hr Hn. apply Ha; [|done]. rewrite put_lookup. case_decide; [|done]. subst.
  destruct (H1 _ _ Hid) as (r' & ? & ? & ?). congruence.
Qed.

Lemma grown_rule refs p p' i r : grown refs p p' -> rules p !! i = Some r -> rules p' !! i = Some r.
Proof. intros [[ext ->] _ _ _ _ _]. by apply lookup_app_l_Some. Qed.

(** A rule read: the table of [p2], grown from [p], with its alternatives written. *)
Lemma holds_snoc g p p2 name a id l :
  holds g p -> name ∉ g.*1 -> grown (name :: alternatives_refs a) p p2 ->
  ids p2 !! name = Some id -> means_alts p2 l (fun N => alternatives_lang N a) -> l <> [] ->
  holds (g ++ [(name, a)]) (put_alts id l (mkParser (rest p2) (rules p2) (ids p2) ({[name]} ∪ defined p2))).
Proof.
  intros [Hn Hd Hr Hs Hbl] Hnew Hg Hid Hm Hl. set (p3 := mkParser _ _ _ _).
  assert (named p2) as Hn2 by (by eapply grown_named).
  assert (named p3) as Hn3 by exact Hn2. constructor.
  - by apply put_named.
  - simpl. rewrite (grown_defined _ _ _ Hg), Hd, fmap_app, list_to_set_app_L. simpl. set_solver.
  - intros n b [Hin|[= -> ->]%list_elem_of_singleton]%elem_of_app.
    + destruct (Hr _ _ Hin) as (i & k & Hi & Hk & Hkne & Hkm). exists i, k.
      pose proof (lookup_weaken _ _ _ _ Hi (grown_ids _ _ _ Hg)) as Hi2.
      pose proof (grown_rule _ _ _ _ _ Hg Hk) as Hk2.
      split_and!; [done| |done|].
      * rewrite put_lookup. case_decide; [|done]. subst. exfalso. apply Hnew.
        destruct (proj1 Hn2 _ _ Hid) as (r & Hr' & Er & _). apply list_elem_of_fmap. exists (n, b). split; [|done].
        simpl. rewrite Hk2 in Hr'. by injection Hr' as <-.
      * apply (put_means name); [done..|]. exact (means_alts_grown _ _ _ _ _ Hg Hkm).
    + destruct (proj1 Hn2 _ _ Hid) as (r & Hr' & Er & _). exists id, l. split_and!; [done| |done|].
      * rewrite put_lookup, decide_True by done. simpl. rewrite Hr'. simpl. by rewrite Er.
      * by apply (put_means name).
  - intros n. simpl. rewrite (grown_names _ _ _ Hg n), Hs, fmap_app, elem_of_app, elem_of_cons. simpl.
    rewrite list_elem_of_singleton. setoid_rewrite elem_of_app. setoid_rewrite list_elem_of_singleton.
    split; [|intros [[?|?]|(m & b & [?|[= -> ->]] & ?)]; eauto 7]. intros [[?|(m & b & ? & ?)]|[?|?]]; eauto 7.
  - intros i r Hi Hnn Hout. rewrite put_lookup in Hi. rewrite fmap_app, not_elem_of_app in Hout. simpl in Hout.
    destruct Hout as [Hout Hne]. case_decide as Ei.
    + exfalso. subst. apply fmap_Some in Hi as (r0 & Hr0 & ->). simpl in *.
      destruct (proj1 Hn2 _ _ Hid) as (r & Hr' & Er & _). simplify_eq. apply Hne. by apply list_elem_of_singleton.
    + destruct (grown_blank _ _ _ Hg _ _ Hi Hnn) as [Hi'|?]; [by eapply Hbl|done].
Qed.

Lemma define_ok name p : name ∉ defined p ->
  define name p = Ok () (mkParser (rest p) (rules p) (ids p) ({[name]} ∪ defined p)).
Proof. intros H. unfold define. by rewrite decide_False. Qed.

(** A rule after its head. *)
Definition rule_body (name : list Z) : P () :=
  define name;;
  id ← rule_id name;
  alts ← by_unread (fun n => parse_alternates (parse_fuel n) false);
  set_alts id alts.

Lemma rule_head name a s p tail : spells_rule name a s -> ends false tail ->
  name <> [] /\ exists sa r, spells_alternatives false a sa /\ last_nonempty a /\ skip false r = skip false (sa ++ tail) /\
    parse_rule (with_rest (s ++ tail) p) = rule_body name (with_rest r p).
Proof.
  intros H He. destruct H as [name a ws1 ws2 s [Hne Hw] Hws1 Hws2 Hs Hlast]. split; [done|].
  exists s, (skip true (ws2 ++ s ++ tail)). split_and!; [done|done| |].
  { unfold skip at 2. rewrite skip_blank by done. by eapply skip_wide; [|done|right]. }
  unfold parse_rule. rewrite <- !app_assoc. simpl (_ ++ _).
  rewrite (bind_ok _ _ _ _ _ (take_span_ok is_word_char name (ws1 ++ [58; 58; 61] ++ ws2 ++ s ++ tail) p Hw
    ltac:(destruct Hws1 as [|c ws [-> | [-> | ->]] _| |]; done))).
  destruct name as [|c name]; [done|].
  assert (skip_space false (with_rest (ws1 ++ [58; 58; 61] ++ ws2 ++ s ++ tail) p) =
    Ok () (with_rest ([58; 58; 61] ++ ws2 ++ s ++ tail) p)) as Esk.
  { unfold skip_space. cbn [with_rest rest]. by rewrite (skip_blank _ _ _ Hws1). }
  by rewrite (bind_ok _ _ _ _ _ Esk).
Qed.

Lemma body_reads g name a sa r p tail :
  name <> [] -> spells_alternatives false a sa -> last_nonempty a -> skip false r = skip false (sa ++ tail) ->
  ends false tail -> holds g p -> name ∉ g.*1 ->
  succ (rule_body name) (with_rest r p) (fun _ p' => rest p' = tail /\ holds (g ++ [(name, a)]) p').
Proof.
  intros Hne Hs Hlast Er He Hh Hnew. unfold rule_body. apply succ_bind. eapply succ_ok.
  { apply define_ok. simpl. rewrite (holds_defined _ _ Hh). by rewrite elem_of_list_to_set. }
  set (p1 := mkParser _ _ _ _). apply succ_bind.
  destruct (rule_id_ok name p1 Hne) as (id & p2 & E2 & Hr2 & Hg2 & Hid & _). eapply succ_ok; [exact E2|].
  rewrite (with_rest_eq p2 r) by done.
  apply succ_bind, succ_by_unread. intros n. destruct (parse_fuel n) as [|f]; [done|]. cbn [parse_alternates].
  destruct (proj2 (proj2 reads_spelling) _ _ _ Hs) as [_ Ha].
  eapply succ_weaken; [apply (Ha f f [] p2 r tail); [done|by right|done]|].
  intros l p3 (new & -> & Hr3 & Hg3 & Hm3 & Hnew3). simpl ([] ++ new).
  unfold set_alts, succ. split; [done|].
  assert (grown ([name] ++ alternatives_refs a) p1 p3) as Hg by (by eapply grown_trans).
  assert (grown (name :: alternatives_refs a) p (mkParser (rest p3) (rules p3) (ids p3) (defined p))) as Hgp.
  { destruct Hg as [G1 G2 G3 G4 G5 G6]. by constructor. }
  pose proof (holds_snoc g p _ name a id new Hh Hnew Hgp) as Hfin. simpl in Hfin.
  specialize (Hfin (lookup_weaken _ _ _ _ Hid (grown_ids _ _ _ Hg3)) Hm3 Hnew3).
  unfold put_alts in Hfin. simpl in Hfin. by rewrite (grown_defined _ _ _ Hg).
Qed.

Lemma body_twice g name p : holds g p -> name ∈ g.*1 ->
  rule_body name p = Failed (ErrDefinedTwice name) (length (rest p)).
Proof.
  intros Hh Hin. unfold rule_body, bind at 1, define. rewrite decide_True; [done|].
  rewrite (holds_defined _ _ Hh). by rewrite elem_of_list_to_set.
Qed.

(** ** Whole grammars *)

Lemma rules_start g s : spells_rules g s -> s = [] \/ exists c s', s = c :: s' /\ is_word_char c = true.
Proof.
  assert (forall name a s t, spells_rule name a s -> exists c s', s ++ t = c :: s' /\ is_word_char c = true) as Hrule.
  { intros name a s' t [nm b ws1 ws2 s'' [Hne Hw] _ _ _ _]. destruct nm as [|c nm]; [done|].
    apply Forall_cons in Hw as [Hc _]. by eexists _, _. }
  destruct 1 as [|name a s H|name a g s ws sg H _ _]; [by left|right..].
  - rewrite <- (app_nil_r s). by eapply Hrule.
  - by eapply Hrule.
Qed.

Lemma rules_solid g s : spells_rules g s -> skip true s = s.
Proof.
  intros [->|(c & s' & -> & Hc)]%rules_start; [done|]. apply solid_start. simpl.
  apply elem_start_bytes. unfold elem_start. auto.
Qed.

(** [name] is defined a second time somewhere in [g]. *)
Definition twice (g : grammar) (name : list Z) : Prop :=
  exists g1 a g2, g = g1 ++ (name, a) :: g2 /\ name ∈ g1.*1.

Definition loop_outcome (g : grammar) (r : PR ()) : Prop :=
  match r with
  | Ok _ p => NoDup g.*1 /\ holds g p
  | Failed (ErrDefinedTwice name) _ => twice g name
  | OutOfFuel => True
  | _ => False
  end.

Lemma loop_end_of_input n g p : holds g p -> NoDup g.*1 -> loop_outcome g (parse_grammar_loop n (with_rest [] p)).
Proof. intros H Hnd. destruct n; (split; [done|]); destruct H; by constructor. Qed.

Lemma loop_rule n g0 name a g s tail p :
  spells_rule name a s -> ends false tail -> holds g0 p -> NoDup g0.*1 ->
  (forall n p', holds (g0 ++ [(name, a)]) p' -> NoDup (g0 ++ [(name, a)]).*1 ->
     loop_outcome (g0 ++ (name, a) :: g) (parse_grammar_loop n (with_rest (skip true tail) p'))) ->
  loop_outcome (g0 ++ (name, a) :: g) (parse_grammar_loop n (with_rest (s ++ tail) p)).
Proof.
  intros Hs He Hh Hnd HQ. destruct (rule_head name a s p tail Hs He) as (Hne & sa & r & Ha & Hlast & Er & Ep).
  assert (exists c t, s ++ tail = c :: t) as (c & t & Est).
  { destruct Hs as [nm b ws1 ws2 s'' [? _] _ _ _ _]. destruct nm; [done|]. by eexists _, _. }
  rewrite Est in *. destruct n; cbn [parse_grammar_loop]; read_step; [done|]. unfold bind at 1. rewrite Ep.
  destruct (decide (name ∈ g0.*1)) as [Hin|Hnin].
  { rewrite (body_twice g0); [|by destruct Hh|done]. by exists g0, a, g. }
  pose proof (body_reads g0 name a sa r p tail Hne Ha Hlast Er He Hh Hnin) as Hb. unfold succ in Hb.
  destruct (rule_body name (with_rest r p)) as [[] p1| | |]; [|done..]. destruct Hb as [Hrest Hh1].
  rewrite (with_rest_eq _ _ Hrest). apply (HQ n p1 Hh1).
  rewrite fmap_app. apply NoDup_app. split_and!; [done| |apply NoDup_singleton].
  by intros x Hx ->%list_elem_of_singleton.
Qed.

Lemma loop_reads g s : spells_rules g s -> forall n g0 p,
  holds g0 p -> NoDup g0.*1 -> loop_outcome (g0 ++ g) (parse_grammar_loop n (with_rest s p)).
Proof.
  induction 1 as [|name a s H|name a g s ws sg H Hws Hg IH]; intros n g0 p Hh Hnd.
  - rewrite app_nil_r. by apply loop_end_of_input.
  - rewrite <- (app_nil_r s). eapply loop_rule; [done..|]. intros n' p' Hp' Hnd'. by apply loop_end_of_input.
  - eapply loop_rule; [done..|]. intros n' p' Hp' Hnd'. unfold skip. simpl. rewrite (skip_blank _ _ _ Hws).
    fold (skip true sg). rewrite (rules_solid _ _ Hg), (cons_middle (name, a)), app_assoc. by apply IH.
Qed.

Lemma holds_empty src : holds [] (mkParser src [] ∅ ∅).
Proof.
  constructor; simpl; [|done|by intros ?? ?%elem_of_nil| |by intros ?? ?].
  - split; simpl; [intros ?? Hl; by rewrite lookup_empty in Hl|by intros ?? ?].
  - intros name. rewrite lookup_empty, elem_of_nil. setoid_rewrite elem_of_nil. split; [by intros []|naive_solver].
Qed.

Lemma parse_grammar_outcome g src : spells_grammar g src ->
  loop_outcome g (parse_grammar (mkParser src [] ∅ ∅)).
Proof.
  intros [g' ws s Hws Hg]. unfold parse_grammar, bind at 1. unfold skip_space. cbn [rest].
  rewrite (skip_blank _ _ _ Hws). fold (skip true s). rewrite (rules_solid _ _ Hg).
  apply (loop_reads g' s Hg _ [] (mkParser (ws ++ s) [] ∅ ∅)); [apply holds_empty|constructor].
Qed.

(** What [parse_gbnf] says about a spelling of [g]. *)
Definition verdict (g : grammar) (r : ParseResult) : Prop :=
  match r with
  | Parsed rs root => grammar_ok g /\ forall w, derives rs [RuleItem root] w <-> rule_lang g root_name w
  | Rejected (SyntaxError (ErrDefinedTwice name) _) => twice g name
  | Rejected (UndefinedRule name) => name ∉ g.*1 /\ exists n a, (n, a) ∈ g /\ name ∈ alternatives_refs a
  | Rejected NoRoot => root_name ∉ g.*1
  | _ => False
  end.

Lemma parse_verdict g src : Forall byte src -> spells_grammar g src -> verdict g (parse_gbnf src).
Proof.
  intros Hb Hs. pose proof (parse_total src Hb) as Htot. pose proof (parse_grammar_outcome g src Hs) as Ho.
  unfold parse_gbnf in *. destruct (parse_grammar _) as [[] p|e u| |]; [|by destruct e|done..]. destruct Ho as [Hnd Hp].
  destruct (list_find _ _) as [[i r]|] eqn:Ef.
  - apply list_find_Some in Ef as (Hr & Hu & _). unfold undefined_rule in Hu. simpl.
    destruct (rule_name r) as [|c n] eqn:En; [done|]. destruct (alts r) as [|] eqn:Ea; [|done].
    pose proof (proj2 (holds_named _ _ Hp) _ _ Hr ltac:(by rewrite En)) as Hid. rewrite En in Hid.
    assert ((c :: n) ∉ g.*1) as Hout.
    { intros ([m a] & Em & Hin)%list_elem_of_fmap. simpl in Em. subst m.
      destruct (holds_rule _ _ Hp _ _ Hin) as (id & l & Hid' & Hr' & Hl & _). rewrite Hid in Hid'.
      injection Hid' as <-. rewrite Hr in Hr'. injection Hr' as ->. done. }
    split; [done|]. destruct (proj1 (holds_names _ _ Hp (c :: n))) as [?|?]; [by eexists|done|done].
  - apply list_find_None in Ef. destruct (ids p !! root_name) as [root|] eqn:Eroot; simpl.
    + assert (forall name, is_Some (ids p !! name) -> name ∈ g.*1) as Hall.
      { intros name [id Hid]. destruct (decide (name ∈ g.*1)) as [|Hout]; [done|exfalso].
        destruct (proj1 (holds_named _ _ Hp) _ _ Hid) as (r & Hr & <- & Hne).
        rewrite Forall_lookup in Ef. apply (Ef _ _ Hr). unfold undefined_rule.
        rewrite (holds_blank _ _ Hp _ _ Hr Hne Hout). by destruct (rule_name r). }
      assert (forall name a, (name, a) ∈ g -> alternatives_refs a ⊆ g.*1) as Hrefs.
      { intros name a Hin m Hm. apply Hall, (holds_names _ _ Hp). right. eauto. }
      split; [split_and!; [done|by apply Hall; eexists|done]|].
      intros w. exact (finished_lang g p Hp Hrefs root_name root w Eroot).
    + intros Hin. destruct (proj2 (holds_names _ _ Hp root_name) (or_introl Hin)) as [? E]. congruence.
Qed.

(** C15: Compilation by the parser preserves the language.  Every spelling of a
    well-formed grammar - with blanks, comments, line breaks, escapes, groups,
    character classes and repetitions - is parsed, and the rule table it yields
    derives from the root exactly the words the grammar's notation gives to
    [root]. *)
Theorem spelled_grammar_parses g src :
  Forall byte src -> grammar_ok g -> spells_grammar g src ->
  exists rs root, parse_gbnf src = Parsed rs root /\
    forall w, derives rs [RuleItem root] w <-> rule_lang g root_name w.
Proof.
  intros Hb (Hnd & Hroot & Hrefs) Hs. pose proof (parse_verdict g src Hb Hs) as Hv.
  destruct (parse_gbnf src) as [rs root|[[]| | | |]| |]; try done.
  - exists rs, root. split; [done|]. apply Hv.
  - exfalso. destruct Hv as (g1 & a & g2 & -> & Hin). rewrite fmap_app in Hnd. simpl in Hnd.
    apply NoDup_app in Hnd as (_ & Hnd & _). apply (Hnd _ Hin). by left.
  - exfalso. destruct Hv as (Hout & n & a & Hin & Href). by apply Hout, (Hrefs n a).
Qed.

(** C16: The checks are exact and their messages true.  A spelling of a grammar that
    defines a rule twice, uses an undefined one or has no root is refused - never
    accepted, never an exception - and the reason given names such a rule. *)
Theorem spelled_grammar_refused g src :
  Forall byte src -> ~ grammar_ok g -> spells_grammar g src ->
  (exists name off, parse_gbnf src = Rejected (SyntaxError (ErrDefinedTwice name) off) /\ twice g name) \/
  (exists name, parse_gbnf src = Rejected (UndefinedRule name) /\ name ∉ g.*1 /\
     exists n a, (n, a) ∈ g /\ name ∈ alternatives_refs a) \/
  (parse_gbnf src = Rejected NoRoot /\ root_name ∉ g.*1).
Proof.
  intros Hb Hbad Hs. pose proof (parse_verdict g src Hb Hs) as Hv.
  destruct (parse_gbnf src) as [rs root|[[]| | | |]| |]; try done; simpl in Hv; [by destruct Hv|..]; eauto 10.
Qed.

(** ** A grammar and its spelling *)

Definition arith : grammar :=
  [(src_of "root", AOne (SCons (ERef (src_of "term")) []
      (SCons (EGroup (AOne (SCons (ELit [43]) [] (SCons (ERef (src_of "term")) [] SNil)))) [RStar] SNil)));
   (src_of "term", AMore (SCons (EClass (mkCharSet [(48, 57)] false)) [RBounds 1 (Some 3%nat)] SNil)
      (AOne (SCons (ELit [40]) [] (SCons (ERef (src_of "root")) [] (SCons (ELit [41]) [] SNil)))))].

(** A comment, a line break inside a group, an escape and a bound. *)
Definition arith_src : list Z :=
  src_of "# sums" ++ [10] ++ src_of "root ::= term (" ++ [34; 43; 34; 10] ++ src_of " term)*" ++ [10] ++
  src_of "term ::= [\x30-9]{1,3} | " ++ [34] ++ src_of "(" ++ [34] ++ src_of " root " ++ [34] ++ src_of ")" ++ [34; 10].

Lemma blank_one c nl : c = 32 \/ c = 9 \/ c = 13 -> blank nl [c].
Proof. intros. apply blank_space; [done|constructor]. Qed.

Lemma spell_ref name nested s ss ws : blank nested ws -> rule_word name -> spells_sequence nested s ss ->
  name_ends (ERef name) [] ss -> spells_sequence nested (SCons (ERef name) [] s) (ws ++ name ++ [] ++ ss).
Proof. intros. apply sequence_cons; try done; by constructor. Qed.

Lemma spell_lit1 c nested s ss ws : blank nested ws -> 0 <= c < 128 -> c <> 34 -> c <> 92 -> spells_sequence nested s ss ->
  spells_sequence nested (SCons (ELit [c]) [] s) (ws ++ (34 :: ([c] ++ []) ++ [34]) ++ [] ++ ss).
Proof.
  intros. apply sequence_cons; try done; [|constructor]. apply elem_lit. constructor; [|constructor].
  apply char_ascii; [done|]. unfold string_special. set_solver.
Qed.

Lemma arith_spelled : spells_grammar arith arith_src.
Proof.
  assert (spells_rule (src_of "root") (AOne (SCons (ERef (src_of "term")) []
      (SCons (EGroup (AOne (SCons (ELit [43]) [] (SCons (ERef (src_of "term")) [] SNil)))) [RStar] SNil)))
    (src_of "root ::= term (" ++ [34; 43; 34; 10] ++ src_of " term)*")) as H1.
  { apply (spells_rule_intro (src_of "root") _ [32] [32] (src_of "term (" ++ [34; 43; 34; 10] ++ src_of " term)*"));
      [by split; [|vm_compute; repeat constructor]|by apply blank_one; left..| |done].
    apply alternatives_one.
    apply (spell_ref (src_of "term") _ _ (src_of " (" ++ [34; 43; 34; 10] ++ src_of " term)*") []);
      [constructor|by split; [|vm_compute; repeat constructor]| |done].
    apply (sequence_cons _ [32] _ _ _ (40 :: ([34; 43; 34; 10] ++ src_of " term") ++ [41]) [42] []);
      [by apply blank_one; left| |by apply (ops_cons _ _ [42] []); constructor|by repeat constructor|done|done].
    apply elem_group, alternatives_one.
    apply (spell_lit1 43 _ _ (10 :: src_of " term") []); [constructor|lia|done|done|].
    apply (spell_ref (src_of "term") _ SNil [] [10; 32]); [|by split; [|vm_compute; repeat constructor]|by repeat constructor|done].
    apply blank_newline; [done|]. by apply blank_one; left. }
  assert (spells_rule (src_of "term") (AMore (SCons (EClass (mkCharSet [(48, 57)] false)) [RBounds 1 (Some 3%nat)] SNil)
      (AOne (SCons (ELit [40]) [] (SCons (ERef (src_of "root")) [] (SCons (ELit [41]) [] SNil)))))
    (src_of "term ::= [\x30-9]{1,3} | " ++ [34] ++ src_of "(" ++ [34] ++ src_of " root " ++ [34] ++ src_of ")" ++ [34])) as H2.
  { apply (spells_rule_intro (src_of "term") _ [32] [32]
      (src_of "[\x30-9]{1,3} | " ++ [34] ++ src_of "(" ++ [34] ++ src_of " root " ++ [34] ++ src_of ")" ++ [34]));
      [by split; [|vm_compute; repeat constructor]|by apply blank_one; left..| |done].
    apply (alternatives_more _ _ _ (src_of "[\x30-9]{1,3} ") [32]
      ([34] ++ src_of "(" ++ [34] ++ src_of " root " ++ [34] ++ src_of ")" ++ [34])); [|by apply blank_one; left|].
    - apply (sequence_cons _ [] _ _ _ (src_of "[\x30-9]") (src_of "{1,3}") [32]); [constructor| | | |done|done].
      + apply (elem_class _ (src_of "\x30-9")), (ranges_span 48 57 [] (src_of "\x30") (src_of "9") []); [lia| | |constructor].
        * apply (char_hex2 _ [51; 48]); [done|]. exists [3; 0]. by split; [repeat constructor|].
        * apply char_ascii; [lia|]. unfold class_special. set_solver.
      + apply (ops_cons _ _ (src_of "{1,3}") []); [|constructor].
        apply (op_between 1 3 [49] [51]); [..|lia]; by split_and!; [|repeat constructor| |vm_compute].
      + apply sequence_nil. by apply blank_one; left.
    - apply alternatives_one, (spell_lit1 40 _ _ (src_of " root " ++ [34] ++ src_of ")" ++ [34]) []); [constructor|lia|done|done|].
      apply (spell_ref (src_of "root") _ _ (src_of " " ++ [34] ++ src_of ")" ++ [34]) [32]);
        [by apply blank_one; left|by split; [|vm_compute; repeat constructor]| |done].
      apply (spell_lit1 41 _ SNil [] [32]); [by apply blank_one; left|lia|done|done|by repeat constructor]. }
  apply (spells_grammar_intro _ (src_of "# sums" ++ [10])).
  - apply (blank_comment _ (src_of " sums") []); [done| |constructor]. vm_compute. set_solver.
  - apply (rules_cons _ _ _ (src_of "root ::= term (" ++ [34; 43; 34; 10] ++ src_of " term)*") []); [exact H1|constructor|].
    exact (rules_cons _ _ _ _ [] [] H2 (blank_nil true) rules_nil).
Qed.

Definition grammar_ok_b (g : grammar) : bool :=
  bool_decide (NoDup g.*1) && bool_decide (root_name ∈ g.*1) &&
  forallb (fun r => forallb (fun n => bool_decide (n ∈ g.*1)) (alternatives_refs r.2)) g.

Lemma grammar_ok_b_ok g : grammar_ok_b g = true <-> grammar_ok g.
Proof.
  unfold grammar_ok_b, grammar_ok. rewrite !andb_true_iff, !bool_decide_eq_true, forallb_forall. split.
  - intros [[H1 H2] H3]. split_and!; [done|done|]. intros n a Hin m Hm.
    apply list_elem_of_In in Hin. specialize (H3 _ Hin). rewrite forallb_forall in H3. simpl in H3.
    apply list_elem_of_In in Hm. by apply H3, bool_decide_eq_true in Hm.
  - intros (H1 & H2 & H3). split; [done|]. intros [n a] Hin. apply list_elem_of_In in Hin.
    rewrite forallb_forall. intros m Hm%list_elem_of_In. apply bool_decide_eq_true. by apply (H3 n a).
Qed.

Lemma spelled_grammar_parses_witness : exists rs root, parse_gbnf arith_src = Parsed rs root /\
  forall w, derives rs [RuleItem root] w <-> rule_lang arith root_name w.
Proof.
  apply (spelled_grammar_parses arith arith_src).
  - by apply bytes_b_ok; vm_compute.
  - by apply grammar_ok_b_ok; vm_compute.
  - exact arith_spelled.
Defined.

Definition dangling : grammar := [(src_of "root", AOne (SCons (ERef (src_of "x")) [] SNil))].

Lemma dangling_spelled : spells_grammar dangling (src_of "root ::= x").
Proof.
  apply (spells_grammar_intro _ []); [constructor|].
  apply rules_last, (spells_rule_intro (src_of "root") _ [32] [32] (src_of "x"));
    [by split; [|vm_compute; repeat constructor]|by apply blank_one; left..| |done].
  apply alternatives_one, (spell_ref (src_of "x") _ _ [] []); [constructor|by split; [|vm_compute; repeat constructor]| |done].
  apply sequence_nil. constructor.
Qed.

Lemma spelled_grammar_refused_witness :
  (exists name off, parse_gbnf (src_of "root ::= x") = Rejected (SyntaxError (ErrDefinedTwice name) off) /\ twice dangling name) \/
  (exists name, parse_gbnf (src_of "root ::= x") = Rejected (UndefinedRule name) /\ name ∉ dangling.*1 /\
     exists n a, (n, a) ∈ dangling /\ name ∈ alternatives_refs a) \/
  (parse_gbnf (src_of "root ::= x") = Rejected NoRoot /\ root_name ∉ dangling.*1).
Proof.
  apply (spelled_grammar_refused dangling (src_of "root ::= x")).
  - by apply bytes_b_ok; vm_compute.
  - rewrite <- grammar_ok_b_ok. by vm_compute.
  - exact dangling_spelled.
Defined.
