(* ===== verification/TokenText.v ===== *)
(** * Tokenizer text: UTF-8 lengths and the byte-level alphabet

    The tables and character helpers of [src/model/tokenizer.cpp]: the length a
    lead byte announces, codepoints as bytes, and the GPT-2 alphabet that gives
    every byte a visible character.  Text is a list of bytes, each a [Z] in
    [0, 256). *)

From Corelib Require Import ssreflect_rw.
From stdpp Require Import prelude list.
From S2P Require Import Prelude.
Open Scope Z_scope.

(** ** UTF-8 *)

Definition utf8_char_len (c : Z) : nat :=
  if Z.land c 128 =? 0 then 1
  else if Z.land c 224 =? 192 then 2
  else if Z.land c 240 =? 224 then 3
  else if Z.land c 248 =? 240 then 4
  else 1.

Definition codepoint_to_utf8 (cp : Z) : list Z :=
  if cp <? 128 then [cp]
  else if cp <? 2048 then [Z.lor 192 (Z.shiftr cp 6); Z.lor 128 (Z.land cp 63)]
  else if cp <? 65536 then
    [Z.lor 224 (Z.shiftr cp 12); Z.lor 128 (Z.land (Z.shiftr cp 6) 63); Z.lor 128 (Z.land cp 63)]
  else if cp <=? 1114111 then
    [Z.lor 240 (Z.shiftr cp 18); Z.lor 128 (Z.land (Z.shiftr cp 12) 63);
     Z.lor 128 (Z.land (Z.shiftr cp 6) 63); Z.lor 128 (Z.land cp 63)]
  else [].

(** ** The GPT-2 alphabet *)

Definition BYTE_TO_CODEPOINT : list Z :=
  [256; 257; 258; 259; 260; 261; 262; 263; 264; 265; 266; 267; 268; 269; 270; 271;
   272; 273; 274; 275; 276; 277; 278; 279; 280; 281; 282; 283; 284; 285; 286; 287;
   288; 33; 34; 35; 36; 37; 38; 39; 40; 41; 42; 43; 44; 45; 46; 47;
   48; 49; 50; 51; 52; 53; 54; 55; 56; 57; 58; 59; 60; 61; 62; 63;
   64; 65; 66; 67; 68; 69; 70; 71; 72; 73; 74; 75; 76; 77; 78; 79;
   80; 81; 82; 83; 84; 85; 86; 87; 88; 89; 90; 91; 92; 93; 94; 95;
   96; 97; 98; 99; 100; 101; 102; 103; 104; 105; 106; 107; 108; 109; 110; 111;
   112; 113; 114; 115; 116; 117; 118; 119; 120; 121; 122; 123; 124; 125; 126; 289;
   290; 291; 292; 293; 294; 295; 296; 297; 298; 299; 300; 301; 302; 303; 304; 305;
   306; 307; 308; 309; 310; 311; 312; 313; 314; 315; 316; 317; 318; 319; 320; 321;
   322; 161; 162; 163; 164; 165; 166; 167; 168; 169; 170; 171; 172; 323; 174; 175;
   176; 177; 178; 179; 180; 181; 182; 183; 184; 185; 186; 187; 188; 189; 190; 191;
   192; 193; 194; 195; 196; 197; 198; 199; 200; 201; 202; 203; 204; 205; 206; 207;
   208; 209; 210; 211; 212; 213; 214; 215; 216; 217; 218; 219; 220; 221; 222; 223;
   224; 225; 226; 227; 228; 229; 230; 231; 232; 233; 234; 235; 236; 237; 238; 239;
   240; 241; 242; 243; 244; 245; 246; 247; 248; 249; 250; 251; 252; 253; 254; 255].

(** Codepoints the alphabet does not use keep the zero of static storage. *)
Definition CODEPOINT_TO_BYTE : list Z :=
  foldl (fun t b => <[Z.to_nat (default 0 (BYTE_TO_CODEPOINT !! b)) := Z.of_nat b]> t) (replicate 324 0) (seq 0 256).

Definition byte_to_gpt2 (b : Z) : list Z := codepoint_to_utf8 (default 0 (BYTE_TO_CODEPOINT !! Z.to_nat b)).

(** [None] is the code's -1. *)
Definition gpt2_to_byte (s : list Z) : option Z :=
  let cp :=
    match s with
    | [a] => Some a
    | [a; b] => Some (Z.lor (Z.shiftl (Z.land a 31) 6) (Z.land b 63))
    | [a; b; c] => Some (Z.lor (Z.lor (Z.shiftl (Z.land a 15) 12) (Z.shiftl (Z.land b 63) 6)) (Z.land c 63))
    | _ => None
    end in
  cp ← cp; if cp <? 324 then CODEPOINT_TO_BYTE !! Z.to_nat cp else None.

(** ** Cutting text into characters *)

(** The length of the first character: what its lead byte announces, if that much
    is there. *)
Definition char_step (s : list Z) : nat :=
  match s with
  | [] => 0
  | c :: _ => let len := utf8_char_len c in if (length s <? len)%nat then 1 else len
  end.

Fixpoint chars_of (fuel : nat) (s : list Z) : list (list Z) :=
  match fuel, s with
  | _, [] => []
  | O, _ => []
  | S f, _ => take (char_step s) s :: chars_of f (drop (char_step s) s)
  end.

(** The characters of [s]; each takes at least one byte. *)
Definition chars (s : list Z) : list (list Z) := chars_of (length s) s.

Lemma utf8_char_len_range c : (1 <= utf8_char_len c <= 4)%nat.
Proof. unfold utf8_char_len. repeat case_match; lia. Qed.

Lemma char_step_range s : s <> [] -> (1 <= char_step s <= length s)%nat.
Proof.
  destruct s as [|c s]; [done|]. intros _. unfold char_step. pose proof (utf8_char_len_range c).
  destruct (Nat.ltb_spec (length (c :: s)) (utf8_char_len c)); simpl in *; lia.
Qed.

Lemma chars_of_enough fuel s : (length s <= fuel)%nat -> chars_of fuel s = chars s.
Proof.
  unfold chars. revert s. induction fuel as [|f IH]; intros s Hl; [by destruct s; [|simpl in Hl; lia]|].
  destruct s as [|c s]; [done|]. set (t := c :: s) in *.
  pose proof (char_step_range t ltac:(done)) as Hr. change (length t) with (S (length s)). cbn [chars_of].
  unfold t at 1 3. f_equal. fold t. rewrite IH by (rewrite length_drop; unfold t in *; simpl in *; lia).
  clear IH. unfold t in *. clear t.
  assert (forall f1 f2 u, (length u <= f1)%nat -> (length u <= f2)%nat -> chars_of f1 u = chars_of f2 u) as Henough.
  { clear. induction f1 as [|f1 IH]; intros f2 u H1 H2; [destruct u; [by destruct f2|simpl in H1; lia]|].
    destruct f2 as [|f2]; [destruct u; [done|simpl in H2; lia]|]. destruct u as [|c u]; [done|]. cbn [chars_of].
    f_equal. pose proof (char_step_range (c :: u) ltac:(done)). apply IH; rewrite length_drop; simpl in *; lia. }
  apply Henough; [done|]. rewrite length_drop. simpl in *. lia.
Qed.

Lemma chars_cons s : s <> [] -> chars s = take (char_step s) s :: chars (drop (char_step s) s).
Proof.
  intros Hs. pose proof (char_step_range s Hs). destruct s as [|c s]; [done|].
  unfold chars at 1. cbn [length chars_of]. f_equal. apply chars_of_enough. rewrite length_drop. simpl in *. lia.
Qed.

Lemma chars_concat s : concat (chars s) = s.
Proof.
  remember (length s) as n eqn:E. revert s E. induction (lt_wf n) as [n _ IH]. intros s ->.
  destruct (decide (s = [])) as [->|Hs]; [done|]. rewrite chars_cons by done. simpl.
  pose proof (char_step_range s Hs). rewrite (IH (length (drop (char_step s) s))); [apply take_drop| |done].
  rewrite length_drop. lia.
Qed.
