(* ===== verification/PreTokenize.v ===== *)
(** * Pre-tokenization: cutting text into chunks before BPE

    The scanners of [src/model/tokenizer.cpp]: [gpt2_pre_tokenize],
    [llama3_pre_tokenize], [qwen2_like_pre_tokenize] (qwen2 and cl100k) and
    [o200k_pre_tokenize].  A position [i] of the text is the suffix that starts
    there; a scanner is the function that gives the length of the chunk at the
    head of a suffix, run by [split_by] to the end of the text. *)

From Corelib Require Import ssreflect_rw.
From stdpp Require Import prelude list strings.
From S2P Require Import Prelude TokenText.
Open Scope Z_scope.

(** ** Character classes of the C locale *)

Definition isdigit (c : Z) : bool := (48 <=? c) && (c <=? 57).
Definition is_upper (c : Z) : bool := (65 <=? c) && (c <=? 90).
Definition is_lower (c : Z) : bool := (97 <=? c) && (c <=? 122).
Definition isalpha (c : Z) : bool := is_upper c || is_lower c.
Definition isalnum (c : Z) : bool := isalpha c || isdigit c.
Definition ispunct (c : Z) : bool := (33 <=? c) && (c <=? 126) && negb (isalnum c).
Definition tolower (c : Z) : Z := if is_upper c then c + 32 else c.

Definition is_nl (c : Z) : bool := (c =? 10) || (c =? 13).
Definition is_blank (c : Z) : bool := (c =? 32) || (c =? 9).
Definition is_ws (c : Z) : bool := (c =? 32) || (c =? 9) || (c =? 10) || (c =? 13) || (c =? 12) || (c =? 11).

(** ** The loops the scanners share *)

(** [while (k < n && p at k) k += step at k], counted in bytes. *)
Fixpoint run_of (p : list Z -> bool) (step : list Z -> nat) (fuel : nat) (s : list Z) : nat :=
  match fuel, s with
  | S f, _ :: _ => if p s then (step s + run_of p step f (drop (step s) s))%nat else 0
  | _, _ => 0
  end.

(** The loop over characters, and the loop over bytes. *)
Definition run (p : list Z -> bool) (s : list Z) : nat := run_of p char_step (length s) s.
Definition hd_is (p : Z -> bool) (s : list Z) : bool := match s with c :: _ => p c | [] => false end.
Definition run1 (p : Z -> bool) (s : list Z) : nat := run_of (hd_is p) (fun _ => 1%nat) (length s) s.

(** The same, stopping after [m] bytes. *)
Definition run1_upto (p : Z -> bool) (m : nat) (s : list Z) : nat := run_of (hd_is p) (fun _ => 1%nat) (Nat.min m (length s)) s.

(** One chunk per step, to the end of the text. *)
Fixpoint split_by_of (next : list Z -> nat) (fuel : nat) (s : list Z) : list (list Z) :=
  match fuel, s with
  | S f, _ :: _ => take (next s) s :: split_by_of next f (drop (next s) s)
  | _, _ => []
  end.
Definition split_by (next : list Z -> nat) (s : list Z) : list (list Z) := split_by_of next (length s) s.

(** ** GPT-2 *)

Definition letterish (c : Z) : bool := isalpha c || (128 <=? c).

(** [for (j = 0; j < len && i < text.size(); j++) chunk += text[i++]]: the lead
    byte's length, cut at the end of the text. *)
Definition lead_step (s : list Z) : nat :=
  match s with c :: _ => Nat.min (utf8_char_len c) (length s) | [] => 0 end.

Definition gpt2_next (s : list Z) : nat :=
  let lead := run1 is_blank s in
  match drop lead s with
  | [] => lead
  | (c :: _) as t =>
    (lead +
     if is_nl c then run1 is_nl t
     else if letterish c then run_of (hd_is letterish) lead_step (length t) t
     else if isdigit c then run1_upto isdigit 3 t
     else 1)%nat
  end.

Definition gpt2_pre_tokenize : list Z -> list (list Z) := split_by gpt2_next.

(** ** Llama 3 *)

Definition rsquo : list Z := [226; 128; 153].

Definition llama3_contractions : list (list Z) :=
  let tails := src_of <$> ["s"; "t"; "re"; "ve"; "m"; "ll"; "d"]%string in
  ((fun t => 39 :: t) <$> tails) ++ ((fun t => rsquo ++ t) <$> tails).

Definition starts_with (p s : list Z) : bool := bool_decide (take (length p) s = p).

Definition llama3_contraction (s : list Z) : option nat :=
  if hd_is (Z.eqb 39) s || starts_with rsquo s
  then match list_find (fun ctr => starts_with ctr s) llama3_contractions with
       | Some (_, ctr) => Some (length ctr)
       | None => None
       end
  else None.

Definition llama3_word (c : Z) : bool :=
  negb (is_blank c || is_nl c) && negb (ispunct c && negb (c =? 39)).

Definition llama3_next (s : list Z) : nat :=
  match llama3_contraction s, s with
  | Some len, _ => len
  | None, [] => 0
  | None, c :: t =>
    if is_blank c then S (run_of (hd_is llama3_word) lead_step (length t) t)
    else if is_nl c then run1 is_nl s
    else if letterish c then run_of (hd_is letterish) lead_step (length s) s
    else 1
  end.

Definition llama3_pre_tokenize : list Z -> list (list Z) := split_by llama3_next.

(** ** The regex-faithful scanners *)

Definition utf8_punct_symbol (s : list Z) : bool :=
  let sym cp := (160 <=? cp) && (cp <=? 191) || (cp =? 215) || (cp =? 247) ||
                (8192 <=? cp) && (cp <=? 11263) || (12288 <=? cp) && (cp <=? 12351) in
  match s with
  | c0 :: c1 :: rest =>
    if Z.land c0 224 =? 192 then sym (Z.lor (Z.shiftl (Z.land c0 31) 6) (Z.land c1 63))
    else match rest with
         | c2 :: _ =>
           if Z.land c0 240 =? 224
           then sym (Z.lor (Z.lor (Z.shiftl (Z.land c0 15) 12) (Z.shiftl (Z.land c1 63) 6)) (Z.land c2 63))
           else false
         | [] => false
         end
  | _ => false
  end.

(** [is_letter_at]: ASCII letters, and what is not ASCII and not a known symbol. *)
Definition is_letter_at (s : list Z) : bool :=
  match s with [] => false | c :: _ => if c <? 128 then isalpha c else negb (utf8_punct_symbol s) end.

(** The length of a contraction ['s 't 'm 'd 're 've 'll] at the head of [s], or 0. *)
Definition contraction_len (s : list Z) : nat :=
  match s with
  | 39 :: b1 :: rest =>
    let c1 := tolower b1 in
    let c2 := match rest with b2 :: _ => tolower b2 | [] => 0 end in
    if (c1 =? 115) || (c1 =? 116) || (c1 =? 109) || (c1 =? 100) then 2
    else if (c1 =? 114) && (c2 =? 101) || (c1 =? 118) && (c2 =? 101) || (c1 =? 108) && (c2 =? 108) then 3
    else 0
  | _ => 0
  end.

(** Rule 4: [ ?[^\s\p{L}\p{N}]+] then the run of [tail] bytes; 0 without a symbol. *)
Definition symbol_at (s : list Z) : bool :=
  match s with c :: _ => negb (is_ws c || isdigit c || is_letter_at s) | [] => false end.

Definition symbol_run (tail : Z -> bool) (s : list Z) : nat :=
  let j := if hd_is (Z.eqb 32) s then 1%nat else 0%nat in
  let k := (j + run symbol_at (drop j s))%nat in
  if (j <? k)%nat then (k + run1 tail (drop k s))%nat else 0.

(** Position after the last newline of the first [k] bytes, 0 if there is none. *)
Fixpoint last_nl (s : list Z) (k : nat) : nat :=
  match k with
  | O => 0
  | S k' => if hd_is is_nl (drop k' s) then k else last_nl s k'
  end.

(** Rules 5 to 7: whitespace. *)
Definition space_run (s : list Z) : nat :=
  let k := run1 is_ws s in
  if (0 <? last_nl s k)%nat then last_nl s k
  else if (length s <=? k)%nat then k
  else if (1 <? k)%nat then (k - 1)%nat
  else 1.

Definition prefix_len (s : list Z) : nat :=
  match s with
  | c :: _ => if negb (is_letter_at s) && negb (isdigit c) && negb (is_nl c) then char_step s else 0
  | [] => 0
  end.

Definition qwen2_like_next (max_digit_run : nat) (s : list Z) : nat :=
  if (0 <? contraction_len s)%nat then contraction_len s else
  let j := prefix_len s in
  if is_letter_at (drop j s) then (j + run is_letter_at (drop j s))%nat
  else if hd_is isdigit s then run1_upto isdigit max_digit_run s
  else if (0 <? symbol_run is_nl s)%nat then symbol_run is_nl s
  else if hd_is is_ws s then space_run s
  else 1.

Definition qwen2_pre_tokenize : list Z -> list (list Z) := split_by (qwen2_like_next 1).
Definition cl100k_pre_tokenize : list Z -> list (list Z) := split_by (qwen2_like_next 3).

(** o200k: case-aware letter runs. *)
Definition is_lower_at (s : list Z) : bool :=
  match s with [] => false | c :: _ => if c <? 128 then is_lower c else negb (utf8_punct_symbol s) end.

(** The suffix contraction tests the three-byte forms first. *)
Definition o200k_contraction_len (s : list Z) : nat :=
  match s with
  | 39 :: b1 :: rest =>
    let c1 := tolower b1 in
    let c2 := match rest with b2 :: _ => tolower b2 | [] => 0 end in
    if (c1 =? 114) && (c2 =? 101) || (c1 =? 118) && (c2 =? 101) || (c1 =? 108) && (c2 =? 108) then 3
    else if (c1 =? 115) || (c1 =? 116) || (c1 =? 109) || (c1 =? 100) then 2
    else 0
  | _ => 0
  end.

Definition o200k_letters (s : list Z) : nat :=
  let j := prefix_len s in
  let t := drop j s in
  let u := run1 is_upper t in
  let k := (u + run is_lower_at (drop u t))%nat in
  if (0 <? k)%nat then (j + k + o200k_contraction_len (drop k t))%nat else 0.

Definition is_nl_or_slash (c : Z) : bool := is_nl c || (c =? 47).

Definition o200k_next (s : list Z) : nat :=
  if (0 <? o200k_letters s)%nat then o200k_letters s
  else if hd_is isdigit s then run1_upto isdigit 3 s
  else if (0 <? symbol_run is_nl_or_slash s)%nat then symbol_run is_nl_or_slash s
  else if hd_is is_ws s then space_run s
  else 1.

Definition o200k_pre_tokenize : list Z -> list (list Z) := split_by o200k_next.
