(* ===== verification/PreRegex.v ===== *)
(** * The pre-tokenizer regexes and the scanners that replace them

    The comments of [src/model/tokenizer.cpp] give the regex each hand-written
    scanner stands for.  [matches] is the backtracking semantics of those
    regexes (greedy classes, ordered alternatives, a negative lookahead): the
    lengths at which a regex matches, in the order a backtracking engine tries
    them.  The regexes speak of Unicode categories, which are a parameter; with
    the scanners' own letter classes in their place the first match is what the
    scanners take at every position, on any text.  Where the two sets of classes
    agree on the characters of a text, so do the chunks. *)

From Corelib Require Import ssreflect_rw.
From stdpp Require Import prelude list strings.
From S2P Require Import Prelude TokenText PreTokenize.
Open Scope Z_scope.

(** ** Backtracking regexes *)

(** [Rep c lo hi] is the greedy [c{lo,hi}]; a class looks at the text from the
    character on. *)
Inductive rx :=
  | Rep (c : list Z -> bool) (lo : nat) (hi : option nat)
  | Seq (a b : rx)
  | Alt (a b : rx)
  | NotAhead (c : list Z -> bool).

(** Where 0, 1, 2, ... characters of the class end. *)
Fixpoint offs (c : list Z -> bool) (fuel : nat) (s : list Z) : list nat :=
  0%nat :: match fuel, s with
           | S f, _ :: _ => if c s then Nat.add (char_step s) <$> offs c f (drop (char_step s) s) else []
           | _, _ => []
           end.

Fixpoint matches (r : rx) (s : list Z) : list nat :=
  match r with
  | Rep c lo hi => rev (drop lo (offs c (default (length s) (Nat.min (length s) <$> hi)) s))
  | Seq a b => n ← matches a s; Nat.add n <$> matches b (drop n s)
  | Alt a b => matches a s ++ matches b s
  | NotAhead c => if c s then [] else [0%nat]
  end.

(** The first match, and the text cut into first matches. *)
Definition regex_next (r : rx) (s : list Z) : nat := default 0%nat (head (matches r s)).
Definition regex_split (r : rx) : list Z -> list (list Z) := split_by (regex_next r).

(** ** The regexes of the comments *)

Definition one (p : Z -> bool) : rx := Rep (hd_is p) 1 (Some 1%nat).
Definition lit (ch : Z) : rx := one (Z.eqb ch).
Definition ilit (ch : Z) : rx := one (fun b => tolower b =? ch).
Definition opt (c : list Z -> bool) : rx := Rep c 0 (Some 1%nat).
Definition alts (r : rx) (rs : list rx) : rx := foldl Alt r rs.

(** [(?i:'s|'t|'re|'ve|'m|'ll|'d)], case being that of ASCII letters. *)
Definition contraction_rx : rx :=
  Seq (lit 39)
    (alts (ilit 115) [ilit 116; Seq (ilit 114) (ilit 101); Seq (ilit 118) (ilit 101); ilit 109;
                      Seq (ilit 108) (ilit 108); ilit 100]).

(** The Unicode tables: whether the character a text starts with has one of the
    categories, or is white space. *)
Record Unicode := mkUnicode {
  Lu_Lt : list Z -> bool;
  Ll : list Z -> bool;
  Lm_Lo : list Z -> bool;
  cat_M : list Z -> bool;
  cat_N : list Z -> bool;
  white : list Z -> bool
}.

Definition char_at (f : list Z -> bool) (s : list Z) : bool := match s with [] => false | _ => f s end.

Section Regexes.
Context (U : Unicode).

Definition cat_L (s : list Z) : bool := Lu_Lt U s || Ll U s || Lm_Lo U s.
(** [[\p{Lu}\p{Lt}\p{Lm}\p{Lo}\p{M}]] and [[\p{Ll}\p{Lm}\p{Lo}\p{M}]] *)
Definition upper_letters (s : list Z) : bool := Lu_Lt U s || Lm_Lo U s || cat_M U s.
Definition lower_letters (s : list Z) : bool := Ll U s || Lm_Lo U s || cat_M U s.
(** [[^\r\n\p{L}\p{N}]], [[^\s\p{L}\p{N}]] and [\S] *)
Definition prefix_class : list Z -> bool :=
  char_at (fun s => negb (cat_L s) && negb (cat_N U s) && negb (hd_is is_nl s)).
Definition symbol_class : list Z -> bool := char_at (fun s => negb (white U s || cat_N U s || cat_L s)).
Definition nonspace_class : list Z -> bool := char_at (fun s => negb (white U s)).

(** [\s*[\r\n]+ | \s+(?!\S) | \s+] *)
Definition space_rx : rx :=
  alts (Seq (Rep (white U) 0 None) (Rep (hd_is is_nl) 1 None))
    [Seq (Rep (white U) 1 None) (NotAhead nonspace_class); Rep (white U) 1 None].

(** [ ?[^\s\p{L}\p{N}]+tail*] *)
Definition symbol_rx (tail : Z -> bool) : rx :=
  Seq (opt (hd_is (Z.eqb 32))) (Seq (Rep symbol_class 1 None) (Rep (hd_is tail) 0 None)).

(** qwen2 with [m = 1], cl100k with [m = 3]. *)
Definition qwen2_rx (m : nat) : rx :=
  alts contraction_rx
    [Seq (opt prefix_class) (Rep cat_L 1 None); Rep (cat_N U) 1 (Some m); symbol_rx is_nl; space_rx].

(** The o200k letter alternatives, and the whole. *)
Definition o200k_letters_rx : rx :=
  let tail := Alt contraction_rx (Rep (fun _ => false) 0 None) in
  Alt (Seq (opt prefix_class) (Seq (Rep upper_letters 0 None) (Seq (Rep lower_letters 1 None) tail)))
      (Seq (opt prefix_class) (Seq (Rep upper_letters 1 None) (Seq (Rep lower_letters 0 None) tail))).

Definition o200k_rx : rx :=
  alts o200k_letters_rx [Rep (cat_N U) 1 (Some 3%nat); symbol_rx is_nl_or_slash; space_rx].
End Regexes.

(** *** With the scanners' own classes *)

Definition prefix_at (s : list Z) : bool := (0 <? prefix_len s)%nat.
Definition nonspace_at (s : list Z) : bool := match s with c :: _ => negb (is_ws c) | [] => false end.

Definition scan_space_rx : rx :=
  alts (Seq (Rep (hd_is is_ws) 0 None) (Rep (hd_is is_nl) 1 None))
    [Seq (Rep (hd_is is_ws) 1 None) (NotAhead nonspace_at); Rep (hd_is is_ws) 1 None].

Definition scan_symbol_rx (tail : Z -> bool) : rx :=
  Seq (opt (hd_is (Z.eqb 32))) (Seq (Rep symbol_at 1 None) (Rep (hd_is tail) 0 None)).

Definition scan_qwen2_rx (m : nat) : rx :=
  alts contraction_rx
    [Seq (opt prefix_at) (Rep is_letter_at 1 None); Rep (hd_is isdigit) 1 (Some m); scan_symbol_rx is_nl; scan_space_rx].

Definition scan_letters_rx : rx :=
  let tail := Alt contraction_rx (Rep (fun _ => false) 0 None) in
  Alt (Seq (opt prefix_at) (Seq (Rep (hd_is is_upper) 0 None) (Seq (Rep is_lower_at 1 None) tail)))
      (Seq (opt prefix_at) (Seq (Rep (hd_is is_upper) 1 None) (Seq (Rep is_lower_at 0 None) tail))).

Definition scan_o200k_rx : rx :=
  alts scan_letters_rx [Rep (hd_is isdigit) 1 (Some 3%nat); scan_symbol_rx is_nl_or_slash; scan_space_rx].

(** ** Cutting by a step *)

Section split.
Context (next : list Z -> nat) (Hnext : forall s, s <> [] -> (1 <= next s <= length s)%nat).

Lemma split_by_of_concat fuel s : (length s <= fuel)%nat -> concat (split_by_of next fuel s) = s.
Proof.
  revert s. induction fuel as [|f IH]; intros [|c s] Hl; simpl in Hl; try done; [lia|].
  pose proof (Hnext (c :: s) ltac:(done)). cbn [split_by_of concat]. rewrite IH; [apply take_drop|].
  rewrite length_drop. simpl in *. lia.
Qed.

Lemma split_by_of_nonempty fuel s : Forall (fun ch => ch <> []) (split_by_of next fuel s).
Proof.
  revert s. induction fuel as [|f IH]; intros [|c s]; try constructor; [|apply IH].
  pose proof (Hnext (c :: s) ltac:(done)). by destruct (next (c :: s)); [lia|].
Qed.

Lemma split_by_parts s : concat (split_by next s) = s /\ Forall (fun ch => ch <> []) (split_by next s).
Proof. split; [by apply split_by_of_concat|apply split_by_of_nonempty]. Qed.
End split.

Lemma split_by_ext f g s : (forall t, t <> [] -> f t = g t) -> split_by f s = split_by g s.
Proof.
  intros H. unfold split_by. generalize (length s). intros n. revert s.
  induction n as [|n IH]; intros [|c s]; try done. cbn [split_by_of]. by rw H // IH.
Qed.

(** ** Runs *)

Lemma char_step_ascii c s : 0 <= c < 128 -> char_step (c :: s) = 1%nat.
Proof.
  intros Hc. unfold char_step, utf8_char_len.
  replace (Z.land c 128) with 0; [done|]. symmetry. apply Z.bits_inj'. intros n Hn.
  rw Z.bits_0 Z.land_spec. destruct (decide (n < 7)).
  - change 128 with (2 ^ 7). rw (Z.pow2_bits_false 7 n) ?andb_false_r //; lia.
  - replace (Z.testbit c n) with false; [done|]. symmetry. apply Z.bits_above_log2; [lia|].
    destruct (decide (c = 0)) as [-> |]; [simpl; lia|]. apply Z.log2_lt_pow2; [lia|].
    pose proof (Z.pow_le_mono_r 2 7 n ltac:(lia) ltac:(lia)). lia.
Qed.

(** A class of ASCII characters. *)
Definition ascii_class (p : Z -> bool) : Prop := forall c, p c = true -> 0 <= c < 128.

Lemma is_ws_ascii : ascii_class is_ws. Proof. unfold is_ws. intros c. lia. Qed.
Lemma is_nl_ascii : ascii_class is_nl. Proof. unfold is_nl. intros c. lia. Qed.
Lemma nl_slash_ascii : ascii_class is_nl_or_slash. Proof. unfold is_nl_or_slash, is_nl. intros c. lia. Qed.
Lemma isdigit_ascii : ascii_class isdigit. Proof. unfold isdigit. intros c. lia. Qed.
Lemma is_upper_ascii : ascii_class is_upper. Proof. unfold is_upper. intros c. lia. Qed.

Lemma run_of_le p step fuel s : (forall t, t <> [] -> (step t <= length t)%nat) -> (run_of p step fuel s <= length s)%nat.
Proof.
  intros Hs. revert s. induction fuel as [|f IH]; intros [|c s]; simpl; try lia.
  destruct (p _); [|lia]. pose proof (IH (drop (step (c :: s)) (c :: s))) as H. rewrite length_drop in H.
  pose proof (Hs (c :: s) ltac:(done)). simpl in *. lia.
Qed.

Lemma run1_le p s : (run1 p s <= length s)%nat.
Proof. apply run_of_le. intros [|c t] ?; simpl; [done|lia]. Qed.

Lemma run_le p s : (run p s <= length s)%nat.
Proof. apply run_of_le. intros t Ht. pose proof (char_step_range t Ht). lia. Qed.

Lemma run1_upto_le p m s : (run1_upto p m s <= length s)%nat.
Proof. apply run_of_le. intros [|c t] ?; simpl; [done|lia]. Qed.

(** The ends of a run: its last offset is the loop's. *)
Lemma offs_last c fuel s : last (offs c fuel s) = Some (run_of c char_step fuel s).
Proof.
  revert s. induction fuel as [|f IH]; intros [|x s]; try done. cbn [offs run_of]. destruct (c (x :: s)); [|done].
  by rw last_cons fmap_last IH.
Qed.

Lemma offs_length c fuel s : (1 < length (offs c (S fuel) s))%nat <-> s <> [] /\ c s = true.
Proof.
  destruct s as [|x s]; [simpl; naive_solver lia|]. cbn [offs]. destruct (c (x :: s)) eqn:E.
  - destruct fuel as [|f]; simpl; split; intros; try done; lia.
  - simpl. split; [lia|naive_solver].
Qed.

Lemma head_rev {A} (l : list A) : head (rev l) = last l.
Proof.
  destruct l as [|x l _] using rev_ind; [done|].
  by rw rev_app_distr last_snoc.
Qed.

(** ** First matches *)

Lemma head_bind_here {A B} (l : list A) (f : A -> list B) x y :
  head l = Some x -> head (f x) = Some y -> head (l ≫= f) = Some y.
Proof. destruct l as [|z l]; simpl; [done|]. intros [= ->] Hf. by destruct (f x). Qed.

Lemma bind_all_nil {A B} (l : list A) (f : A -> list B) : (forall x, x ∈ l -> f x = []) -> l ≫= f = [].
Proof.
  induction l as [|x l IH]; [done|]. intros H. simpl. rewrite (H x); [|left]. simpl. apply IH.
  intros y Hy. apply H. by right.
Qed.

Lemma head_app_nil {A} (a b : list A) : a = [] -> head (a ++ b) = head b.
Proof. by intros ->. Qed.

Lemma head_app_some {A} (a b : list A) x : head a = Some x -> head (a ++ b) = Some x.
Proof. by destruct a. Qed.

Lemma last_drop_1 {A} (l : list A) : (1 < length l)%nat -> last (drop 1 l) = last l.
Proof. destruct l as [|x [|y l]]; simpl; [lia|lia|done]. Qed.

Lemma rep_star c s : head (matches (Rep c 0 None) s) = Some (run c s).
Proof. cbn [matches]. by rw head_rev drop_0 offs_last. Qed.

Lemma rep_plus c hi s : hi <> Some 0%nat -> s <> [] -> c s = true ->
  head (matches (Rep c 1 hi) s) = Some (run_of c char_step (default (length s) (Nat.min (length s) <$> hi)) s).
Proof.
  intros Hhi Hs Hc. cbn [matches]. rw head_rev. set (fuel := default _ _).
  destruct fuel as [|f] eqn:Ef; unfold fuel in Ef; [destruct s; [done|]; destruct hi as [[|m]|]; simpl in Ef; try done|].
  rewrite last_drop_1; [apply offs_last|]. by apply offs_length.
Qed.

Lemma rep_plus_none c hi s : s = [] \/ c s = false -> matches (Rep c 1 hi) s = [].
Proof.
  intros H. cbn [matches]. set (fuel := default _ _). destruct fuel as [|f]; [done|]. destruct s as [|x s]; [done|].
  cbn [offs]. destruct H as [|H]; [done|]. by rewrite H.
Qed.

Lemma offs_one c x s :
  offs c (default (length (x :: s)) (Nat.min (length (x :: s)) <$> Some 1%nat)) (x :: s) =
  if c (x :: s) then [0%nat; char_step (x :: s)] else [0%nat].
Proof.
  replace (default _ _) with 1%nat by (simpl; unfold id; lia). cbn [offs]. destruct (c (x :: s)); [|done].
  cbn [offs]. cbn. by rewrite Nat.add_0_r.
Qed.

Lemma opt_matches c s : matches (opt c) s = match s with [] => [0%nat] | _ => if c s then [char_step s; 0%nat] else [0%nat] end.
Proof. destruct s as [|x s]; [done|]. cbn [matches opt]. rewrite offs_one. by destruct (c (x :: s)). Qed.

Lemma one_matches p s : ascii_class p -> matches (one p) s = if hd_is p s then [1%nat] else [].
Proof.
  intros Hp. destruct s as [|x s]; [done|]. cbn [matches one]. rewrite offs_one. cbn [hd_is]. destruct (p x) eqn:E; [|done].
  rewrite char_step_ascii; [done|]. by apply Hp.
Qed.

Lemma run_ascii p fuel s : ascii_class p -> run_of (hd_is p) char_step fuel s = run_of (hd_is p) (fun _ => 1%nat) fuel s.
Proof.
  intros Hp. revert s. induction fuel as [|f IH]; intros [|x s]; try done. cbn [run_of hd_is].
  destruct (p x) eqn:E; [|done]. by rw char_step_ascii ?IH; [apply Hp|].
Qed.

Lemma offs_ascii p fuel s : ascii_class p ->
  offs (hd_is p) fuel s = seq 0 (S (run_of (hd_is p) (fun _ => 1%nat) fuel s)).
Proof.
  intros Hp. revert s. induction fuel as [|f IH]; intros [|x s]; try done. cbn [run_of hd_is offs].
  destruct (p x) eqn:E; [|done]. rewrite char_step_ascii; [|by apply Hp]. rewrite IH.
  set (k := run_of _ _ _ _). change (seq 0 (S (1 + k))) with (0%nat :: seq 1 (S k)). f_equal. exact (fmap_S_seq 0 (S k)).
Qed.

Lemma eqb_ascii ch : 0 <= ch < 128 -> ascii_class (Z.eqb ch).
Proof. intros H c. lia. Qed.

Lemma ilit_ascii ch : 97 <= ch < 123 -> ascii_class (fun b => tolower b =? ch).
Proof. intros H c. unfold tolower, is_upper. case_match; lia. Qed.

Lemma seq_one p r s : ascii_class p ->
  matches (Seq (one p) r) s = if hd_is p s then Nat.add 1 <$> matches r (drop 1 s) else [].
Proof. intros Hp. cbn [matches]. rewrite one_matches; [|done]. destruct (hd_is p s); [|done]. simpl. by rewrite app_nil_r. Qed.

Lemma contraction_len_other a s : 39 <> a -> contraction_len (a :: s) = 0%nat.
Proof. intros Ha. unfold contraction_len. by repeat (case_match; try done). Qed.

Lemma alt_matches a b s : matches (Alt a b) s = matches a s ++ matches b s.
Proof. done. Qed.

Lemma contraction_matches s :
  matches contraction_rx s = if (0 <? contraction_len s)%nat then [contraction_len s] else [].
Proof.
  unfold contraction_rx, lit, ilit. rewrite seq_one; [|by apply eqb_ascii]. destruct s as [|a s]; [done|]. cbn [hd_is].
  destruct (Z.eqb_spec 39 a) as [<- |Ha]; [|by rewrite contraction_len_other].
  cbn [drop alts foldl]. rewrite !alt_matches, !seq_one by (apply ilit_ascii; lia).
  rewrite !one_matches by (apply ilit_ascii; lia).
  destruct s as [|b s]; [done|]. cbn [hd_is drop contraction_len]. set (c1 := tolower b). clearbody c1.
  destruct s as [|c s]; cbn [hd_is drop]; [|set (c2 := tolower c); clearbody c2];
    repeat (case_match; simplify_eq/=; try done; try lia).
Qed.

(** ** The rules of the scanners *)

Definition first (r : rx) (s : list Z) : option nat := head (matches r s).

Lemma first_alt a b s : first (Alt a b) s = match first a s with Some n => Some n | None => first b s end.
Proof. unfold first. cbn [matches]. by destruct (matches a s). Qed.

Lemma first_None r s : first r s = None -> matches r s = [].
Proof. unfold first. by destruct (matches r s). Qed.

Lemma head_fmap {A B} (f : A -> B) (l : list A) : head (f <$> l) = f <$> head l.
Proof. by destruct l. Qed.

(** An optional character whose omission cannot help. *)
Lemma first_opt c r s : s <> [] -> (c s = true -> matches r s = []) ->
  let j := if c s then char_step s else 0%nat in
  first (Seq (opt c) r) s = Nat.add j <$> first r (drop j s).
Proof.
  intros Hs Hskip. unfold first. cbn [matches]. rewrite opt_matches. destruct s as [|x s]; [done|].
  destruct (c (x :: s)) eqn:Hc; rewrite !bind_cons.
  - rw drop_0 (Hskip eq_refl) /= !app_nil_r. apply head_fmap.
  - rw /= app_nil_r. apply head_fmap.
Qed.

(** A greedy run that what follows accepts. *)
Lemma first_run_then c lo r s n : first (Rep c lo None) s = Some (run c s) ->
  first r (drop (run c s) s) = Some n -> first (Seq (Rep c lo None) r) s = Some (run c s + n)%nat.
Proof.
  intros Hrep Hr. unfold first in *. cbn [matches] in *. eapply head_bind_here; [exact Hrep|].
  by rw head_fmap Hr.
Qed.

Lemma first_run_none c r s : s = [] \/ c s = false -> first (Seq (Rep c 1 None) r) s = None.
Proof. intros H. unfold first. cbn [matches]. change (rev _) with (matches (Rep c 1 None) s). by rewrite rep_plus_none. Qed.

Lemma run_pos c s : (0 < run c s)%nat <-> s <> [] /\ c s = true.
Proof.
  unfold run. destruct s as [|x s]; [simpl; naive_solver lia|]. cbn [length run_of].
  pose proof (char_step_range (x :: s) ltac:(done)). destruct (c (x :: s)); split; try done; try lia; naive_solver.
Qed.

Lemma first_plus c s : s <> [] -> c s = true -> first (Rep c 1 None) s = Some (run c s).
Proof. intros. by apply rep_plus. Qed.

Lemma is_letter_nil s : is_letter_at s = true -> s <> [].
Proof. by destruct s. Qed.

Lemma prefix_len_if s : s <> [] -> prefix_len s = if prefix_at s then char_step s else 0%nat.
Proof.
  intros Hs. unfold prefix_at, prefix_len. destruct s as [|x s]; [done|].
  pose proof (char_step_range (x :: s) ltac:(done)). destruct (_ && _); [|done].
  destruct (Nat.ltb_spec 0 (char_step (x :: s))); [done|lia].
Qed.

Lemma prefix_not_letter s : prefix_at s = true -> is_letter_at s = false.
Proof. unfold prefix_at, prefix_len. destruct s; [done|]. by destruct (is_letter_at _). Qed.

(** [[^\r\n\p{L}\p{N}]?\p{L}+] *)
Lemma letters_first s : s <> [] ->
  first (Seq (opt prefix_at) (Rep is_letter_at 1 None)) s =
  if is_letter_at (drop (prefix_len s) s)
  then Some (prefix_len s + run is_letter_at (drop (prefix_len s) s))%nat else None.
Proof.
  intros Hs. rewrite first_opt; [|done|].
  - rewrite <- prefix_len_if by done. destruct (is_letter_at _) eqn:E.
    + by rewrite first_plus by (by try apply is_letter_nil).
    + unfold first. by rewrite rep_plus_none by (by right).
  - intros Hp%prefix_not_letter. apply rep_plus_none. by right.
Qed.

(** [\p{N}{1,m}] *)
Lemma digits_first m s : (0 < m)%nat ->
  first (Rep (hd_is isdigit) 1 (Some m)) s = if hd_is isdigit s then Some (run1_upto isdigit m s) else None.
Proof.
  intros Hm. destruct (hd_is isdigit s) eqn:E.
  - unfold first. rewrite rep_plus; [|naive_solver lia|by intros ->|done].
    rewrite run_ascii by apply isdigit_ascii. unfold run1_upto. simpl. by rewrite Nat.min_comm.
  - unfold first. by rewrite rep_plus_none by (by right).
Qed.

Lemma run1_run p s : ascii_class p -> run1 p s = run (hd_is p) s.
Proof. intros Hp. symmetry. by apply run_ascii. Qed.

(** [ ?[^\s\p{L}\p{N}]+tail*] *)
Lemma symbol_first tail s : ascii_class tail -> s <> [] ->
  first (scan_symbol_rx tail) s = if (0 <? symbol_run tail s)%nat then Some (symbol_run tail s) else None.
Proof.
  intros Ht Hs. unfold scan_symbol_rx. rewrite first_opt; [|done|].
  2: { destruct s as [|x s]; [done|]. cbn [hd_is]. intros <-%Z.eqb_eq. by apply first_None, first_run_none; right. }
  unfold symbol_run. replace (if hd_is (Z.eqb 32) s then char_step s else 0%nat) with (if hd_is (Z.eqb 32) s then 1%nat else 0%nat).
  2: { destruct s as [|x s]; [done|]. cbn [hd_is]. destruct (Z.eqb_spec 32 x) as [<- |]; [|done].
       by rewrite char_step_ascii. }
  set (j := if hd_is _ s then _ else _). set (t := drop j s). cbv zeta.
  destruct (Nat.ltb_spec j (j + run symbol_at t)) as [Hlt|Hge].
  - destruct (proj1 (run_pos symbol_at t) ltac:(lia)) as [Htn Hsym].
    rewrite (first_run_then _ _ _ _ (run1 tail (drop (run symbol_at t) t))); [|by apply first_plus|].
    + unfold t. rewrite drop_drop. destruct (Nat.ltb_spec 0 (j + run symbol_at (drop j s) + run1 tail (drop (j + run symbol_at (drop j s)) s))); [|unfold t in *; lia].
      simpl. f_equal. unfold t in *. lia.
    + rewrite run1_run by done. apply rep_star.
  - rewrite first_run_none; [done|]. destruct (decide (t = [])); [by left|]. right.
    apply not_true_is_false. intros Hsym. pose proof (proj2 (run_pos symbol_at t) (conj n Hsym)). lia.
Qed.

(** ** Whitespace *)

Lemma run1_spec p s :
  hd_is p (drop (run1 p s) s) = false /\ forall x, (x < run1 p s)%nat -> hd_is p (drop x s) = true.
Proof.
  unfold run1. induction s as [|c s IH]; [split; [done|simpl; lia]|]. cbn [length run_of hd_is].
  destruct (p c) eqn:E.
  - destruct IH as [IH1 IH2]. change (drop 1 (c :: s)) with s. split; [exact IH1|].
    intros [|x] Hx; [done|]. apply IH2. lia.
  - split; [done|lia].
Qed.

Lemma rep_ascii lo p s : ascii_class p -> matches (Rep (hd_is p) lo None) s = rev (drop lo (seq 0 (S (run1 p s)))).
Proof. intros Hp. cbn [matches]. by rewrite offs_ascii. Qed.

Lemma head_rev_seq {B} (f : nat -> list B) a n x v : (forall y, (x < y < a + n)%nat -> f y = []) ->
  (a <= x < a + n)%nat -> head (f x) = Some v -> head (rev (seq a n) ≫= f) = Some v.
Proof.
  induction n as [|n IH]; intros Hnil Hx Hf; [lia|]. rewrite seq_S, rev_app_distr.
  change (rev [?z] ++ ?l) with (z :: l). rewrite bind_cons.
  destruct (decide (x = (a + n)%nat)) as [-> |Hne]; [by apply head_app_some|].
  rewrite (Hnil (a + n)%nat) by lia. apply IH; [|lia|done]. intros y Hy. apply Hnil. lia.
Qed.

Lemma last_nl_spec s k :
  last_nl s k = 0%nat /\ (forall x, (x < k)%nat -> hd_is is_nl (drop x s) = false) \/
  exists x, last_nl s k = S x /\ (x < k)%nat /\ hd_is is_nl (drop x s) = true /\
    (forall y, (x < y < k)%nat -> hd_is is_nl (drop y s) = false).
Proof.
  induction k as [|k IH]; [left; split; [done|lia]|]. cbn [last_nl]. destruct (hd_is is_nl (drop k s)) eqn:E.
  - right. exists k. repeat split; [lia|done|lia].
  - destruct IH as [[-> IH]|(x & -> & Hx & Hnl & IH)]; [left; split; [done|]|right; exists x; split_and!; [done|lia|done|]];
      intros y Hy; (destruct (decide (y = k)) as [-> |]; [done|apply IH; lia]).
Qed.

Lemma nl_is_ws s : hd_is is_ws s = false -> hd_is is_nl s = false.
Proof. destruct s as [|c s]; [done|]. cbn [hd_is]. unfold is_ws, is_nl. lia. Qed.

Lemma run1_one s x : hd_is is_nl (drop x s) = true -> hd_is is_nl (drop (S x) s) = false ->
  head (matches (Rep (hd_is is_nl) 1 None) (drop x s)) = Some 1%nat.
Proof.
  intros Hx Hn. rewrite rep_ascii by apply is_nl_ascii. replace (run1 is_nl (drop x s)) with 1%nat; [done|].
  unfold run1. replace (S x) with (x + 1)%nat in Hn by lia. rewrite <- drop_drop in Hn.
  destruct (drop x s) as [|c t]; [done|]. simpl in Hx, Hn. cbn [length run_of hd_is]. rewrite Hx. f_equal.
  by destruct t as [|d t]; [|simpl in *; rewrite Hn].
Qed.

(** [\s*[\r\n]+] ends after the last newline of the run. *)
Lemma newline_first s :
  first (Seq (Rep (hd_is is_ws) 0 None) (Rep (hd_is is_nl) 1 None)) s =
  if (0 <? last_nl s (run1 is_ws s))%nat then Some (last_nl s (run1 is_ws s)) else None.
Proof.
  unfold first. change (matches (Seq ?a ?b) s) with (n ← matches a s; Nat.add n <$> matches b (drop n s)).
  rewrite rep_ascii by apply is_ws_ascii. rewrite drop_0. set (k := run1 is_ws s).
  destruct (run1_spec is_ws s) as [Hend _]. fold k in Hend. apply nl_is_ws in Hend.
  destruct (last_nl_spec s k) as [[-> Hno]|(x & -> & Hx & Hnl & Hafter)].
  - rewrite bind_all_nil; [done|]. intros y Hy. rewrite list_elem_of_In, <- in_rev, <- list_elem_of_In, elem_of_seq in Hy.
    rewrite rep_plus_none; [done|]. right. destruct (decide (y = k)) as [-> |]; [done|]. apply Hno. lia.
  - apply (head_rev_seq _ _ _ x); [|lia|].
    + intros y Hy. rewrite rep_plus_none; [done|]. right.
      destruct (decide (y = k)) as [-> |]; [done|]. apply Hafter. lia.
    + rewrite head_fmap. rewrite run1_one; [simpl; f_equal; lia|done|].
      destruct (decide (S x = k)) as [-> |]; [done|]. apply Hafter. lia.
Qed.

(** [\s+(?!\S)] gives one character back unless the text ends. *)
Lemma trailing_first s : hd_is is_ws s = true ->
  first (Seq (Rep (hd_is is_ws) 1 None) (NotAhead nonspace_at)) s =
  let k := run1 is_ws s in
  if (length s <=? k)%nat then Some k else if (1 <? k)%nat then Some (k - 1)%nat else None.
Proof.
  intros Hs. unfold first. change (matches (Seq ?a ?b) s) with (n ← matches a s; Nat.add n <$> matches b (drop n s)).
  rewrite rep_ascii by apply is_ws_ascii. cbv zeta. set (k := run1 is_ws s). change (drop 1 (seq 0 (S k))) with (seq 1 k).
  destruct (run1_spec is_ws s) as [Hend Hin]. fold k in Hend, Hin.
  assert (1 <= k)%nat as Hk.
  { destruct (decide (k = 0%nat)) as [E|]; [|lia]. rewrite E, drop_0 in Hend. congruence. }
  cbn [matches]. destruct (Nat.leb_spec (length s) k) as [Hle|Hgt].
  - apply (head_rev_seq _ _ _ k); [lia|lia|]. rewrite drop_ge by lia. simpl. f_equal. lia.
  - assert (forall x, (x < k)%nat -> nonspace_at (drop x s) = false) as Hws.
    { intros x Hx. specialize (Hin x Hx). destruct (drop x s); [done|]. simpl in *. by rewrite Hin. }
    assert (nonspace_at (drop k s) = true) as Hk1.
    { destruct (drop k s) as [|c t] eqn:E; [apply (f_equal length) in E; rewrite length_drop in E; simpl in E; lia|].
      simpl in *. by rewrite Hend. }
    destruct (Nat.ltb_spec 1 k).
    + apply (head_rev_seq _ _ _ (k - 1)%nat); [|lia|].
      * intros y Hy. replace y with k by lia. by rewrite Hk1.
      * rewrite Hws by lia. simpl. f_equal. lia.
    + replace k with 1%nat by lia. simpl. replace k with 1%nat in Hk1 by lia. by rewrite Hk1.
Qed.

Lemma space_first s : hd_is is_ws s = true -> first scan_space_rx s = Some (space_run s).
Proof.
  intros Hs. unfold scan_space_rx, space_run. cbn [alts foldl]. rewrite !first_alt, newline_first, trailing_first by done.
  cbv zeta. destruct (_ <? last_nl _ _)%nat; [done|]. destruct (_ <=? _)%nat; [done|].
  destruct (Nat.ltb_spec 1 (run1 is_ws s)); [done|]. unfold first. rewrite rep_plus; [|done|by intros ->|done].
  rewrite run_ascii by apply is_ws_ascii. cbn [default]. change (run_of _ _ _ _) with (run1 is_ws s). f_equal.
  destruct (run1_spec is_ws s) as [Hend _]. destruct (run1 is_ws s); [|lia]. rewrite drop_0 in Hend. congruence.
Qed.

(** ** The whole scanners *)

(** A character that is no letter, digit or space is a symbol. *)
Lemma symbol_run_covers tail s : s <> [] -> is_letter_at s = false -> hd_is isdigit s = false -> hd_is is_ws s = false ->
  (0 < symbol_run tail s)%nat.
Proof.
  intros Hs Hl Hd Hw. assert (symbol_at s = true) as Hsym.
  { destruct s as [|c s]; [done|]. simpl in *. by rewrite Hl, Hd, Hw. }
  unfold symbol_run. replace (hd_is (Z.eqb 32) s) with false.
  2: { destruct s as [|c s]; [done|]. cbn [hd_is] in *. unfold is_ws in Hw. symmetry. lia. }
  rewrite drop_0. pose proof (proj2 (run_pos symbol_at s) (conj Hs Hsym)).
  destruct (Nat.ltb_spec 0 (0 + run symbol_at s)); lia.
Qed.

Lemma no_letter s : is_letter_at (drop (prefix_len s) s) = false -> is_letter_at s = false.
Proof.
  intros H. destruct (is_letter_at s) eqn:E; [|done]. destruct s as [|c s]; [done|].
  cbn [prefix_len] in H. rewrite E in H. cbn [negb andb] in H. by rewrite drop_0, E in H.
Qed.

Lemma qwen2_first m s : (0 < m)%nat -> s <> [] -> first (scan_qwen2_rx m) s = Some (qwen2_like_next m s).
Proof.
  intros Hm Hs. unfold scan_qwen2_rx. cbn [alts foldl]. rewrite !first_alt, letters_first, digits_first, symbol_first;
    try done; [|apply is_nl_ascii].
  unfold first at 1. rewrite contraction_matches. unfold qwen2_like_next. cbv zeta.
  destruct (0 <? contraction_len s)%nat; [done|]. cbn [head].
  destruct (is_letter_at (drop _ s)) eqn:Hl; [done|]. apply no_letter in Hl.
  destruct (hd_is isdigit s) eqn:Hd; [done|].
  destruct (Nat.ltb_spec 0 (symbol_run is_nl s)) as [|Hsym]; [done|].
  destruct (hd_is is_ws s) eqn:Hw; [by apply space_first|].
  pose proof (symbol_run_covers is_nl s Hs Hl Hd Hw). lia.
Qed.

(** No regex match is empty or longer than the text. *)
Lemma contraction_len_le s : (contraction_len s <= length s)%nat.
Proof.
  unfold contraction_len. repeat (case_match; try (simpl; lia)).
Qed.

Lemma prefix_len_le s : (prefix_len s <= length s)%nat.
Proof.
  destruct s as [|c s]; [done|]. pose proof (char_step_range (c :: s) ltac:(done)). cbn [prefix_len].
  destruct (_ && _); lia.
Qed.

Lemma symbol_run_le tail s : (symbol_run tail s <= length s)%nat.
Proof.
  unfold symbol_run. destruct (Nat.ltb_spec (if hd_is (Z.eqb 32) s then 1 else 0)
    ((if hd_is (Z.eqb 32) s then 1 else 0) + run symbol_at (drop (if hd_is (Z.eqb 32) s then 1 else 0) s))) as [Hlt|]; [|lia].
  set (j := if hd_is _ s then _ else _) in *. pose proof (run_le symbol_at (drop j s)) as H1.
  pose proof (run1_le tail (drop (j + run symbol_at (drop j s)) s)) as H2. rewrite length_drop in H1, H2. lia.
Qed.

Lemma space_run_le s : hd_is is_ws s = true -> (1 <= space_run s <= length s)%nat.
Proof.
  intros Hs. pose proof (run1_le is_ws s) as Hr.
  assert (1 <= length s)%nat by (destruct s; simpl in *; [done|lia]). unfold space_run.
  destruct (last_nl_spec s (run1 is_ws s)) as [[-> _]|(x & -> & Hx & _)]; [|simpl; lia]. simpl.
  destruct (Nat.leb_spec (length s) (run1 is_ws s)); [lia|]. destruct (Nat.ltb_spec 1 (run1 is_ws s)); lia.
Qed.

Lemma run1_upto_pos p m s : (0 < m)%nat -> hd_is p s = true -> (1 <= run1_upto p m s)%nat.
Proof.
  intros Hm. destruct s as [|c s]; [done|]. unfold run1_upto.
  destruct (Nat.min m (length (c :: s))) eqn:E; [simpl in E; lia|]. intros H. cbn [run_of]. rewrite H. lia.
Qed.

Lemma qwen2_like_next_range m s : (0 < m)%nat -> s <> [] -> (1 <= qwen2_like_next m s <= length s)%nat.
Proof.
  intros Hm Hs. unfold qwen2_like_next. cbv zeta. pose proof (contraction_len_le s).
  destruct (Nat.ltb_spec 0 (contraction_len s)); [lia|]. destruct (is_letter_at (drop _ s)) eqn:Hl.
  { pose proof (proj2 (run_pos is_letter_at (drop (prefix_len s) s)) (conj (is_letter_nil _ Hl) Hl)).
    pose proof (run_le is_letter_at (drop (prefix_len s) s)) as Hle. rewrite length_drop in Hle.
    pose proof (prefix_len_le s). lia. }
  destruct (hd_is isdigit s) eqn:Hd.
  { pose proof (run1_upto_le isdigit m s). pose proof (run1_upto_pos isdigit m s Hm Hd). lia. }
  pose proof (symbol_run_le is_nl s). destruct (Nat.ltb_spec 0 (symbol_run is_nl s)); [lia|].
  destruct (hd_is is_ws s) eqn:Hw; [by apply space_run_le|]. destruct s; [done|simpl; lia].
Qed.

(** ** o200k *)

Lemma o200k_contraction_len_eq s : o200k_contraction_len s = contraction_len s.
Proof.
  destruct s as [|a s]; [done|]. destruct (Z.eq_dec a 39) as [-> |Ha].
  - destruct s as [|b s]; [done|]. cbn [o200k_contraction_len contraction_len]. cbv zeta.
    set (c1 := tolower b). set (c2 := match s with b2 :: _ => tolower b2 | [] => 0 end).
    destruct (Z.eqb_spec c1 114) as [-> |]; [by destruct (c2 =? 101)|].
    destruct (Z.eqb_spec c1 118) as [-> |]; [by destruct (c2 =? 101)|].
    destruct (Z.eqb_spec c1 108) as [-> |]; [by destruct (c2 =? 108)|]. cbn [andb orb]. by destruct (_ || _).
  - rewrite contraction_len_other by done. unfold o200k_contraction_len. by repeat (case_match; try done).
Qed.

Lemma is_letter_at_case s : is_letter_at s = hd_is is_upper s || is_lower_at s.
Proof.
  destruct s as [|c s]; [done|]. cbn [is_letter_at hd_is is_lower_at]. destruct (Z.ltb_spec c 128); [done|].
  replace (is_upper c) with false; [done|]. unfold is_upper. lia.
Qed.

Lemma upper_not_lower s : hd_is is_upper s = true -> is_lower_at s = false.
Proof.
  destruct s as [|c s]; [done|]. cbn [hd_is is_lower_at]. unfold is_upper, is_lower.
  intros H. destruct (Z.ltb_spec c 128); lia.
Qed.

Definition suffix_rx : rx := Alt contraction_rx (Rep (fun _ => false) 0 None).

Lemma suffix_first s : first suffix_rx s = Some (o200k_contraction_len s).
Proof.
  unfold suffix_rx. rewrite first_alt, o200k_contraction_len_eq. unfold first at 1. rewrite contraction_matches.
  destruct (Nat.ltb_spec 0 (contraction_len s)); [done|]. cbn [head]. unfold first. rewrite rep_star. f_equal.
  replace (contraction_len s) with 0%nat by lia. unfold run. by destruct s.
Qed.

Definition lower_body : rx := Seq (Rep (hd_is is_upper) 0 None) (Seq (Rep is_lower_at 1 None) suffix_rx).
Definition upper_body : rx := Seq (Rep (hd_is is_upper) 1 None) (Seq (Rep is_lower_at 0 None) suffix_rx).

(** An upper run then a lower run, the way [o200k_letters] measures them. *)
Definition case_run (t : list Z) : nat :=
  let u := run1 is_upper t in (u + run is_lower_at (drop u t))%nat.

Lemma lower_body_none t : run is_lower_at (drop (run1 is_upper t) t) = 0%nat -> matches lower_body t = [].
Proof.
  intros H0. unfold lower_body. change (matches (Seq ?a ?b) t) with (n ← matches a t; Nat.add n <$> matches b (drop n t)).
  rewrite rep_ascii by apply is_upper_ascii. rewrite drop_0. apply bind_all_nil. intros x Hx.
  rewrite list_elem_of_In, <- in_rev, <- list_elem_of_In, elem_of_seq in Hx.
  rewrite (first_None (Seq _ _)); [done|]. apply first_run_none.
  destruct (decide (x = run1 is_upper t)) as [-> |].
  - destruct (decide (drop (run1 is_upper t) t = [])) as [|Hn]; [by left|right].
    apply not_true_is_false. intros Hl. pose proof (proj2 (run_pos _ _) (conj Hn Hl)). lia.
  - right. apply upper_not_lower, (run1_spec is_upper t). lia.
Qed.

Lemma bodies_first t :
  match first lower_body t with Some n => Some n | None => first upper_body t end =
  if (0 <? case_run t)%nat then Some (case_run t + o200k_contraction_len (drop (case_run t) t))%nat else None.
Proof.
  unfold case_run. cbv zeta. set (u := run1 is_upper t). set (low := run is_lower_at (drop u t)).
  assert (run (hd_is is_upper) t = u) as Hu by (symmetry; apply run1_run, is_upper_ascii).
  destruct (decide (low = 0%nat)) as [H0|H0].
  - unfold first at 1. rewrite lower_body_none by done. cbn [head]. rewrite H0, Nat.add_0_r.
    unfold upper_body. destruct (decide (u = 0%nat)) as [Hu0|Hu0].
    + rewrite first_run_none, Hu0; [done|]. destruct (decide (t = [])) as [|Hn]; [by left|right].
      apply not_true_is_false. intros Hl. pose proof (proj2 (run_pos _ _) (conj Hn Hl)). lia.
    + destruct (proj1 (run_pos (hd_is is_upper) t) ltac:(lia)) as [Htn Hup].
      rewrite (first_run_then _ _ _ _ (o200k_contraction_len (drop u t))); [|by apply first_plus|].
      * rewrite Hu. by destruct (Nat.ltb_spec 0 u); [|lia].
      * rewrite Hu. rewrite (first_run_then _ _ _ _ (o200k_contraction_len (drop u t))); [|apply rep_star|].
        -- by fold low; rewrite H0.
        -- fold low. rewrite H0, drop_0. apply suffix_first.
  - destruct (proj1 (run_pos is_lower_at (drop u t)) ltac:(lia)) as [Hdn Hlow].
    unfold lower_body. rewrite (first_run_then _ _ _ _ (low + o200k_contraction_len (drop (u + low) t))%nat).
    + rewrite Hu. destruct (Nat.ltb_spec 0 (u + low)); [f_equal; lia|lia].
    + apply rep_star.
    + rewrite Hu. apply first_run_then; [by apply first_plus|]. fold low. rewrite drop_drop. apply suffix_first.
Qed.

Lemma o200k_letters_first s : s <> [] ->
  first (scan_letters_rx) s =
  if (0 <? o200k_letters s)%nat then Some (o200k_letters s) else None.
Proof.
  intros Hs. unfold scan_letters_rx. cbv zeta. rewrite first_alt.
  change (Seq (Rep (hd_is is_upper) 0 None) _) with lower_body.
  change (Seq (Rep (hd_is is_upper) 1 None) _) with upper_body.
  assert (prefix_at s = true -> hd_is is_upper s = false /\ is_lower_at s = false) as Hp.
  { intros H%prefix_not_letter. rewrite is_letter_at_case in H. by apply orb_false_elim. }
  rewrite !first_opt; try done.
  2: { intros [Hup _]%Hp. by apply first_None, first_run_none; right. }
  2: { intros [Hup Hlow]%Hp. apply lower_body_none. replace (run1 is_upper s) with 0%nat.
       - destruct (run is_lower_at (drop 0 s)) eqn:E; [done|].
         destruct (proj1 (run_pos is_lower_at (drop 0 s)) ltac:(lia)) as [_ H]. rewrite drop_0 in H. congruence.
       - rewrite run1_run by apply is_upper_ascii. destruct (run (hd_is is_upper) s) eqn:E; [done|].
         destruct (proj1 (run_pos (hd_is is_upper) s) ltac:(lia)) as [_ H]. congruence. }
  rewrite <- prefix_len_if by done. pose proof (bodies_first (drop (prefix_len s) s)) as Hb.
  unfold o200k_letters. cbv zeta. unfold case_run in Hb. cbv zeta in Hb.
  destruct (first lower_body _) as [n|]; [|destruct (first upper_body _) as [n|]]; simpl;
    destruct (0 <? _)%nat eqn:E in Hb; simplify_eq; rewrite E; try done;
    (case_match eqn:Hc; [f_equal; lia|apply Nat.ltb_lt in E; apply Nat.ltb_ge in Hc; lia]).
Qed.

Lemma o200k_first s : s <> [] -> first scan_o200k_rx s = Some (o200k_next s).
Proof.
  intros Hs. unfold scan_o200k_rx. cbn [alts foldl].
  rewrite !first_alt, o200k_letters_first, digits_first, symbol_first; try done; try lia; try apply nl_slash_ascii.
  unfold o200k_next. destruct (Nat.ltb_spec 0 (o200k_letters s)) as [|Hl]; [done|].
  destruct (hd_is isdigit s) eqn:Hd; [done|].
  destruct (Nat.ltb_spec 0 (symbol_run is_nl_or_slash s)) as [|Hsym]; [done|].
  destruct (hd_is is_ws s) eqn:Hw; [by apply space_first|].
  assert (is_letter_at s = false) as Hnl.
  { destruct (is_letter_at s) eqn:E; [|done]. exfalso.
    assert (prefix_len s = 0%nat) as Hp by (destruct s; [done|]; cbn [prefix_len]; by rewrite E).
    pose proof E as Hcase. rewrite is_letter_at_case in Hcase.
    unfold o200k_letters in Hl. cbv zeta in Hl. rewrite Hp, drop_0 in Hl.
    assert (0 < run1 is_upper s + run is_lower_at (drop (run1 is_upper s) s))%nat as Hpos; cycle 1.
    { destruct (Nat.ltb_spec 0 (run1 is_upper s + run is_lower_at (drop (run1 is_upper s) s))); lia. }
    apply orb_true_iff in Hcase as [Hup|Hlow].
    - rewrite run1_run by apply is_upper_ascii.
      pose proof (proj2 (run_pos (hd_is is_upper) s) (conj Hs Hup)). lia.
    - destruct (run1 is_upper s) eqn:Eu; [|lia]. rewrite drop_0.
      pose proof (proj2 (run_pos is_lower_at s) (conj Hs Hlow)). lia. }
  pose proof (symbol_run_covers is_nl_or_slash s Hs Hnl Hd Hw). lia.
Qed.

Lemma o200k_letters_le s : (o200k_letters s <= length s)%nat.
Proof.
  unfold o200k_letters. cbv zeta. destruct (_ <? _)%nat; [|lia]. rewrite o200k_contraction_len_eq.
  set (t := drop (prefix_len s) s). pose proof (prefix_len_le s) as Hp.
  assert (length t = length s - prefix_len s)%nat as Ht by apply length_drop.
  pose proof (run1_le is_upper t) as Hu. pose proof (run_le is_lower_at (drop (run1 is_upper t) t)) as Hl.
  rewrite length_drop in Hl.
  pose proof (contraction_len_le (drop (run1 is_upper t + run is_lower_at (drop (run1 is_upper t) t)) t)) as Hc.
  rewrite length_drop in Hc. lia.
Qed.

Lemma o200k_next_range s : s <> [] -> (1 <= o200k_next s <= length s)%nat.
Proof.
  intros Hs. unfold o200k_next. pose proof (o200k_letters_le s).
  destruct (Nat.ltb_spec 0 (o200k_letters s)); [lia|]. destruct (hd_is isdigit s) eqn:Hd.
  { pose proof (run1_upto_le isdigit 3 s). pose proof (run1_upto_pos isdigit 3 s ltac:(lia) Hd). lia. }
  pose proof (symbol_run_le is_nl_or_slash s). destruct (Nat.ltb_spec 0 (symbol_run is_nl_or_slash s)); [lia|].
  destruct (hd_is is_ws s) eqn:Hw; [by apply space_run_le|]. destruct s; [done|simpl; lia].
Qed.

(** ** GPT-2 and Llama 3 *)

Lemma lead_step_range s : s <> [] -> (1 <= lead_step s <= length s)%nat.
Proof. destruct s as [|c s]; [done|]. pose proof (utf8_char_len_range c). unfold lead_step. simpl. lia. Qed.

Lemma run_of_pos p step fuel s : (forall t, t <> [] -> (1 <= step t)%nat) -> s <> [] -> p s = true ->
  (1 <= run_of p step (S fuel) s)%nat.
Proof. intros Hst Hs Hp. destruct s as [|c s]; [done|]. cbn [run_of]. rewrite Hp. pose proof (Hst (c :: s) Hs). lia. Qed.

Lemma lead_run_range p fuel s : s <> [] -> hd_is p s = true -> (1 <= run_of (hd_is p) lead_step (S fuel) s <= length s)%nat.
Proof.
  intros Hs Hp. split.
  - apply run_of_pos; [|done|done]. intros t Ht. pose proof (lead_step_range t Ht). lia.
  - apply run_of_le. intros t Ht. pose proof (lead_step_range t Ht). lia.
Qed.

Lemma run1_pos p s : hd_is p s = true -> (1 <= run1 p s)%nat.
Proof. destruct s as [|c s]; [done|]. intros Hp. apply run_of_pos; [intros; lia|done|done]. Qed.

Lemma gpt2_next_range s : s <> [] -> (1 <= gpt2_next s <= length s)%nat.
Proof.
  intros Hs. unfold gpt2_next. cbv zeta. pose proof (run1_le is_blank s) as Hl.
  destruct (drop (run1 is_blank s) s) as [|c t] eqn:E.
  - apply (f_equal length) in E. rewrite length_drop in E. destruct s; [done|simpl in *; lia].
  - apply (f_equal length) in E. rewrite length_drop in E. destruct (is_nl c) eqn:Hn.
    { pose proof (run1_le is_nl (c :: t)). pose proof (run1_pos is_nl (c :: t) Hn). lia. }
    destruct (letterish c) eqn:Ht.
    { pose proof (lead_run_range letterish (length t) (c :: t) ltac:(done) Ht). simpl length in *. lia. }
    destruct (isdigit c) eqn:Hd; [|simpl in E; lia].
    pose proof (run1_upto_le isdigit 3 (c :: t)). pose proof (run1_upto_pos isdigit 3 (c :: t) ltac:(lia) Hd). lia.
Qed.

Lemma starts_with_le p s : starts_with p s = true -> (length p <= length s)%nat.
Proof. intros H%bool_decide_eq_true. apply (f_equal length) in H. rewrite length_take in H. lia. Qed.

Lemma contractions_nonempty : Forall (fun ctr => (1 <= length ctr)%nat) llama3_contractions.
Proof. repeat constructor. Qed.

Lemma llama3_next_range s : s <> [] -> (1 <= llama3_next s <= length s)%nat.
Proof.
  intros Hs. unfold llama3_next, llama3_contraction. destruct (if _ : bool then _ else _) as [len|] eqn:E.
  - destruct (_ || _); [|done]. destruct (list_find _ _) as [[i ctr]|] eqn:F; [|done]. injection E as <-.
    apply list_find_Some in F as (Hi & Hm%Is_true_true%starts_with_le & _). split; [|done].
    by apply (Forall_lookup_1 _ _ _ _ contractions_nonempty Hi).
  - destruct s as [|c t]; [done|]. destruct (is_blank c).
    { pose proof (run_of_le (hd_is llama3_word) lead_step (length t) t) as H. simpl length. split; [lia|].
      enough (run_of (hd_is llama3_word) lead_step (length t) t <= length t)%nat by lia. apply H.
      intros u Hu. pose proof (lead_step_range u Hu). lia. }
    destruct (is_nl c) eqn:Hn.
    { pose proof (run1_le is_nl (c :: t)). pose proof (run1_pos is_nl (c :: t) Hn). lia. }
    destruct (letterish c) eqn:Hl; [|simpl; lia]. by apply (lead_run_range letterish (length t) (c :: t)).
Qed.

(** ** Properties *)

(** *** From the scanners' classes to Unicode's *)

(** The text from each of its characters on, and its end. *)
Fixpoint chars_of (fuel : nat) (s : list Z) : list (list Z) :=
  s :: match fuel, s with
       | S f, _ :: _ => chars_of f (drop (char_step s) s)
       | _, _ => []
       end.
Definition characters (s : list Z) : list (list Z) := chars_of (length s) s.

Lemma chars_of_next fuel s t :
  (length s <= fuel)%nat -> t ∈ chars_of fuel s -> t <> [] -> drop (char_step t) t ∈ chars_of fuel s.
Proof.
  revert s. induction fuel as [|f IH]; intros [|x s] Hl Ht Hne; simpl in Hl; try lia.
  1,2: simpl in Ht; apply elem_of_cons in Ht as [->|Ht]; [done|by apply elem_of_nil in Ht].
  pose proof (char_step_range (x :: s) ltac:(done)). cbn [chars_of] in *. apply elem_of_cons in Ht as [->|Ht].
  - right. destruct f; simpl; by left.
  - right. apply IH; [rewrite length_drop; simpl in *; lia|done..].
Qed.

Section agree.
Context (P : list Z -> Prop) (HP : forall t, P t -> t <> [] -> P (drop (char_step t) t)).

(** Two regexes of the same shape whose classes agree on the texts in [P]. *)
Inductive rx_agree : rx -> rx -> Prop :=
  | agree_rep c c' lo hi : (forall t, P t -> t <> [] -> c t = c' t) -> rx_agree (Rep c lo hi) (Rep c' lo hi)
  | agree_seq a a' b b' : rx_agree a a' -> rx_agree b b' -> rx_agree (Seq a b) (Seq a' b')
  | agree_alt a a' b b' : rx_agree a a' -> rx_agree b b' -> rx_agree (Alt a b) (Alt a' b')
  | agree_not c c' : (forall t, P t -> c t = c' t) -> rx_agree (NotAhead c) (NotAhead c').

Lemma rx_agree_refl r : rx_agree r r.
Proof. induction r; by constructor. Qed.

Lemma offs_agree c c' fuel s :
  (forall t, P t -> t <> [] -> c t = c' t) -> P s -> offs c fuel s = offs c' fuel s.
Proof.
  intros Hc. revert s. induction fuel as [|f IH]; intros [|x s] Hs; try done. cbn [offs].
  rewrite Hc by done. destruct (c' (x :: s)); [|done]. by rewrite IH by (by apply HP).
Qed.

Lemma offs_reach c fuel s n : P s -> n ∈ offs c fuel s -> P (drop n s).
Proof.
  revert s n. induction fuel as [|f IH]; intros [|x s] n Hs; cbn [offs];
    try (intros [->|[]%elem_of_nil]%elem_of_cons; done).
  intros [->|Hn]%elem_of_cons; [done|]. destruct (c (x :: s)); [|by apply elem_of_nil in Hn].
  apply list_elem_of_fmap in Hn as (m & -> & Hm). rewrite <- drop_drop. apply IH; [by apply HP|done].
Qed.

Lemma matches_reach r s n : P s -> n ∈ matches r s -> P (drop n s).
Proof.
  revert s n. induction r as [c lo hi|a IHa b IHb|a IHa b IHb|c]; intros s n Hs; cbn [matches].
  - rewrite list_elem_of_In, <- in_rev, <- list_elem_of_In. intros Hn.
    eapply offs_reach; [done|]. rewrite <- (take_drop lo). apply elem_of_app. right. exact Hn.
  - intros (m & Hn & Hm)%list_elem_of_bind. apply list_elem_of_fmap in Hn as (k & -> & Hk).
    rewrite <- drop_drop. apply IHb; [by apply IHa|done].
  - intros [Hn|Hn]%elem_of_app; [by apply IHa|by apply IHb].
  - destruct (c s); [by intros ?%elem_of_nil|]. by intros [->|[]%elem_of_nil]%elem_of_cons.
Qed.

Lemma matches_agree r r' s : rx_agree r r' -> P s -> matches r s = matches r' s.
Proof.
  intros H. revert s. induction H as [c c' lo hi Hc|a a' b b' _ IHa _ IHb|a a' b b' _ IHa _ IHb|c c' Hc]; intros s Hs; cbn [matches].
  - by rewrite (offs_agree c c').
  - rewrite <- IHa by done. assert (forall n, n ∈ matches a s -> P (drop n s)) as Hr by (intros; by eapply matches_reach).
    revert Hr. generalize (matches a s) as l. induction l as [|n l IH]; intros Hr; [done|].
    rewrite !bind_cons, IHb by (apply Hr; by left). f_equal. apply IH. intros m Hm. apply Hr. by right.
  - by rewrite IHa, IHb.
  - by rewrite Hc.
Qed.

Lemma split_agree r r' s : rx_agree r r' -> P s -> regex_split r s = regex_split r' s.
Proof.
  intros H. unfold regex_split, split_by. generalize (length s). intros n. revert s.
  induction n as [|n IH]; intros [|x s] Hs; try done. cbn [split_by_of].
  assert (regex_next r (x :: s) = regex_next r' (x :: s)) as E by (unfold regex_next; by rewrite (matches_agree r r')).
  rewrite E, IH; [done|]. rewrite <- E. unfold regex_next.
  destruct (matches r (x :: s)) as [|m l] eqn:Em; [done|]. simpl. eapply matches_reach; [done|].
  rewrite Em. by left.
Qed.
End agree.

(** The tables on ASCII. *)
Definition unicode_ascii (U : Unicode) : Prop :=
  forall c s, c < 128 ->
    Lu_Lt U (c :: s) = is_upper c /\ Ll U (c :: s) = is_lower c /\ Lm_Lo U (c :: s) = false /\
    cat_M U (c :: s) = false /\ cat_N U (c :: s) = isdigit c /\ white U (c :: s) = is_ws c.

(** A character the approximation of [\p{L}] gets right: ASCII, or a letter
    outside the listed symbol blocks, or neither letter, number nor space inside
    them. *)
Definition letter_plain (U : Unicode) (s : list Z) : bool :=
  match s with
  | c :: _ => (c <? 128) || (negb (cat_N U s) && negb (white U s) && Bool.eqb (cat_L U s) (negb (utf8_punct_symbol s)))
  | [] => true
  end.

(** For o200k also: its only letters beyond ASCII are lower-case ones. *)
Definition case_plain (U : Unicode) (s : list Z) : bool :=
  match s with
  | c :: _ => (c <? 128) || (letter_plain U s && negb (Lu_Lt U s) && negb (Lm_Lo U s) && negb (cat_M U s))
  | [] => true
  end.

Lemma case_plain_letter U s : case_plain U s = true -> letter_plain U s = true.
Proof.
  destruct s as [|c s]; [done|]. unfold case_plain, letter_plain. destruct (c <? 128); [done|].
  cbn [orb]. rewrite !andb_true_iff. tauto.
Qed.

Lemma plain_classes U s : unicode_ascii U -> s <> [] -> letter_plain U s = true ->
  cat_L U s = is_letter_at s /\ cat_N U s = hd_is isdigit s /\ white U s = hd_is is_ws s.
Proof.
  intros HU Hs Hp. destruct s as [|c s]; [done|]. unfold letter_plain in Hp. cbn [is_letter_at hd_is].
  destruct (Z.ltb_spec c 128) as [Hc|Hc].
  - unfold cat_L. destruct (HU c s Hc) as (-> & -> & -> & _ & -> & ->). split_and!; [|done..].
    unfold isalpha. by rewrite orb_false_r.
  - cbn [orb] in Hp. rewrite !andb_true_iff, !negb_true_iff in Hp. destruct Hp as [[-> ->] ->%Bool.eqb_prop].
    split_and!; [done|..]; symmetry; [unfold isdigit|unfold is_ws]; lia.
Qed.

Lemma plain_cases U s : unicode_ascii U -> s <> [] -> case_plain U s = true ->
  upper_letters U s = hd_is is_upper s /\ lower_letters U s = is_lower_at s.
Proof.
  intros HU Hs Hp. pose proof (case_plain_letter U s Hp) as Hl. destruct (plain_classes U s HU Hs Hl) as [HL _].
  destruct s as [|c s]; [done|]. unfold upper_letters, lower_letters. cbn [hd_is is_lower_at]. cbn [is_letter_at] in HL.
  unfold case_plain in Hp. destruct (Z.ltb_spec c 128) as [Hc|Hc].
  - destruct (HU c s Hc) as (-> & -> & -> & -> & _). by rewrite !orb_false_r.
  - cbn [orb] in Hp. rewrite !andb_true_iff, !negb_true_iff in Hp. destruct Hp as [[[_ H1] H2] H3].
    unfold cat_L in HL. rewrite H1, H2, orb_false_r in HL. cbn [orb] in HL. rewrite H1, H2, H3, HL, !orb_false_r.
    split; [|done]. symmetry. unfold is_upper. lia.
Qed.

Lemma prefix_class_at U t : unicode_ascii U -> t <> [] -> letter_plain U t = true -> prefix_class U t = prefix_at t.
Proof.
  intros HU Ht Hp. destruct (plain_classes U t HU Ht Hp) as (H1 & H2 & _). destruct t as [|c t]; [done|].
  unfold prefix_class, char_at, prefix_at. rewrite H1, H2. cbn [prefix_len hd_is].
  pose proof (char_step_range (c :: t) ltac:(done)). destruct (_ && _); [|done]. symmetry. apply Nat.ltb_lt. lia.
Qed.

Lemma symbol_class_at U t : unicode_ascii U -> t <> [] -> letter_plain U t = true -> symbol_class U t = symbol_at t.
Proof.
  intros HU Ht Hp. destruct (plain_classes U t HU Ht Hp) as (H1 & H2 & H3). destruct t as [|c t]; [done|].
  unfold symbol_class, char_at. by rewrite H1, H2, H3.
Qed.

Lemma nonspace_class_at U t : unicode_ascii U -> letter_plain U t = true -> nonspace_class U t = nonspace_at t.
Proof.
  intros HU Hp. destruct t as [|c t]; [done|]. destruct (plain_classes U (c :: t) HU ltac:(done) Hp) as (_ & _ & H3).
  unfold nonspace_class, char_at. by rewrite H3.
Qed.

Section plain.
Context (U : Unicode) (HU : unicode_ascii U) (P : list Z -> Prop) (HP : forall t, P t -> letter_plain U t = true).

Lemma space_agree : rx_agree P (space_rx U) scan_space_rx.
Proof.
  assert (forall t, P t -> t <> [] -> white U t = hd_is is_ws t) as Hw.
  { intros t Ht Hne. by destruct (plain_classes U t HU Hne (HP t Ht)) as (_ & _ & ?). }
  repeat (constructor || apply rx_agree_refl); try done.
  intros t Ht. apply nonspace_class_at; auto.
Qed.

Lemma symbol_agree tail : rx_agree P (symbol_rx U tail) (scan_symbol_rx tail).
Proof.
  repeat (constructor || apply rx_agree_refl); try done. intros t Ht Hne. apply symbol_class_at; auto.
Qed.

Lemma number_agree lo hi : rx_agree P (Rep (cat_N U) lo hi) (Rep (hd_is isdigit) lo hi).
Proof. constructor. intros t Ht Hne. by destruct (plain_classes U t HU Hne (HP t Ht)) as (_ & ? & _). Qed.

Lemma prefix_agree : rx_agree P (opt (prefix_class U)) (opt prefix_at).
Proof. constructor. intros t Ht Hne. apply prefix_class_at; auto. Qed.

Lemma qwen2_agree m : rx_agree P (qwen2_rx U m) (scan_qwen2_rx m).
Proof.
  unfold qwen2_rx, scan_qwen2_rx. cbn [alts foldl].
  do 4 (apply agree_alt; [|first [apply number_agree|apply symbol_agree|apply space_agree|idtac]]); [apply rx_agree_refl|].
  apply agree_seq; [apply prefix_agree|]. constructor. intros t Ht Hne.
  by destruct (plain_classes U t HU Hne (HP t Ht)) as (? & _).
Qed.

Lemma o200k_agree : (forall t, P t -> case_plain U t = true) -> rx_agree P (o200k_rx U) scan_o200k_rx.
Proof.
  intros HC. unfold o200k_rx, scan_o200k_rx. cbn [alts foldl].
  apply agree_alt; [apply agree_alt; [apply agree_alt; [|apply number_agree]|apply symbol_agree]|apply space_agree].
  apply agree_alt; (apply agree_seq; [apply prefix_agree|]);
    (apply agree_seq; [|apply agree_seq; [|apply rx_agree_refl]]);
    constructor; intros t Ht Hne; by destruct (plain_cases U t HU Hne (HC t Ht)).
Qed.
End plain.

Lemma scan_splits text :
  qwen2_pre_tokenize text = regex_split (scan_qwen2_rx 1) text /\
  cl100k_pre_tokenize text = regex_split (scan_qwen2_rx 3) text /\
  o200k_pre_tokenize text = regex_split scan_o200k_rx text.
Proof.
  unfold regex_split, regex_next. split_and!; apply split_by_ext; intros t Ht; symmetry;
    change (head (matches ?r t)) with (first r t).
  - by rewrite qwen2_first by (done || lia).
  - by rewrite qwen2_first by (done || lia).
  - by rewrite o200k_first.
Qed.

(** C26: the hand-written scanners are the regexes of their comments where their
    letter classes are Unicode's: they produce the chunks a backtracking engine
    produces by taking the first match of the regex at each position.  For qwen2
    and cl100k every non-ASCII character of the text has to be a letter outside
    the symbol blocks the scanner lists, or no letter, number or space inside
    them; for o200k also a lower-case letter if it is a letter, and no mark.
    ASCII text is unrestricted. *)
Theorem scanners_follow_regexes U text :
  unicode_ascii U ->
  (Forall (fun t => letter_plain U t = true) (characters text) ->
     qwen2_pre_tokenize text = regex_split (qwen2_rx U 1) text /\
     cl100k_pre_tokenize text = regex_split (qwen2_rx U 3) text) /\
  (Forall (fun t => case_plain U t = true) (characters text) ->
     o200k_pre_tokenize text = regex_split (o200k_rx U) text).
Proof.
  intros HU. destruct (scan_splits text) as (-> & -> & ->). set (P t := t ∈ characters text).
  assert (forall t, P t -> t <> [] -> P (drop (char_step t) t)) as HP by (intros t; by apply chars_of_next).
  assert (P text) as H0 by (unfold P, characters; destruct text; by left).
  split.
  - intros Hp. rewrite Forall_forall in Hp. split; symmetry; (apply (split_agree P); [done| |done]); by apply qwen2_agree.
  - intros Hp. rewrite Forall_forall in Hp. symmetry. apply (split_agree P); [done| |done].
    apply o200k_agree; [done| |done]. intros t Ht. by apply case_plain_letter, Hp.
Qed.

(** Categories of ASCII, of the Latin-1 letters, of the combining accents and of
    the CJK ideographs. *)
Definition sample_unicode : Unicode :=
  let two p s := match s with a :: b :: _ => p a b | _ => false end in
  mkUnicode
    (fun s => hd_is is_upper s || two (fun a b => (a =? 195) && (128 <=? b) && (b <? 159) && negb (b =? 151)) s)
    (fun s => hd_is is_lower s || two (fun a b => (a =? 195) && (159 <=? b) && (b <? 192) && negb (b =? 183)) s)
    (hd_is (fun a => (228 <=? a) && (a <=? 233)))
    (two (fun a b => (a =? 204) || (a =? 205) && (b <? 176)))
    (hd_is isdigit) (hd_is is_ws).

Lemma sample_unicode_ascii : unicode_ascii sample_unicode.
Proof.
  intros c s Hc. unfold sample_unicode. cbn [Lu_Lt Ll Lm_Lo cat_M cat_N white hd_is].
  assert (forall q, q < 128 \/ (c =? q) = false) as Hq by (intros; lia).
  rewrite (proj2 (Z.eqb_neq c 195)), (proj2 (Z.eqb_neq c 204)), (proj2 (Z.eqb_neq c 205)), (proj2 (Z.leb_gt 228 c)) by lia.
  destruct s; by rewrite ?orb_false_r.
Qed.

(** A sentence with an umlaut, a dash, a contraction and digits; and one with a
    cased word behind an ideograph for the letter rule. *)
Definition umlaut_text : list Z :=
  src_of "gr" ++ [195; 182] ++ src_of "sse " ++ [226; 128; 148] ++ src_of " don't HTTPSession 1234".
Definition zhong_abc : list Z := [228; 184; 173; 65; 98; 99].

Lemma scanners_follow_regexes_witness :
  o200k_pre_tokenize umlaut_text = regex_split (o200k_rx sample_unicode) umlaut_text /\
  length (o200k_pre_tokenize umlaut_text) = 7%nat /\
  qwen2_pre_tokenize zhong_abc = regex_split (qwen2_rx sample_unicode 1) zhong_abc.
Proof.
  split; [|split; [by vm_compute|]].
  - apply (proj2 (scanners_follow_regexes sample_unicode umlaut_text sample_unicode_ascii)).
    apply (bool_decide_unpack _). vm_compute. exact I.
  - apply (proj1 (scanners_follow_regexes sample_unicode zhong_abc sample_unicode_ascii)).
    apply (bool_decide_unpack _). vm_compute. exact I.
Defined.

(** Every pre-tokenizer is a split by a step inside the text. *)
Lemma pre_tokenizers_split pre text :
  pre ∈ [gpt2_pre_tokenize; llama3_pre_tokenize; qwen2_pre_tokenize; cl100k_pre_tokenize; o200k_pre_tokenize] ->
  concat (pre text) = text /\ Forall (fun ch => ch <> []) (pre text).
Proof.
  rewrite !elem_of_cons, elem_of_nil. intros [-> |[-> |[-> |[-> |[-> |[]]]]]]; apply split_by_parts; intros s Hs;
    first [by apply gpt2_next_range | by apply llama3_next_range | by apply o200k_next_range
          | by apply qwen2_like_next_range; [lia|]].
Qed.

(** Every pre-tokenizer cuts the text into non-empty chunks that concatenate
    to it: no byte is lost, repeated or reordered, whatever the input bytes. *)
Theorem chunks_partition text :
  Forall (fun pre => concat (pre text) = text /\ Forall (fun ch => ch <> []) (pre text))
    [gpt2_pre_tokenize; llama3_pre_tokenize; qwen2_pre_tokenize; cl100k_pre_tokenize; o200k_pre_tokenize].
Proof. apply Forall_forall. intros pre. apply pre_tokenizers_split. Qed.

(** The condition on letters is needed: the o200k regex puts letters without case
    in both letter classes, the scanner in the lower class only, so that an
    ideograph before a capitalised word is one chunk with it under the regex, and
    a chunk of its own under the scanner. *)
Theorem o200k_caseless_letters_split :
  regex_split (o200k_rx sample_unicode) zhong_abc = [zhong_abc] /\
  o200k_pre_tokenize zhong_abc = [take 3 zhong_abc; drop 3 zhong_abc].
Proof. vm_compute. done. Qed.

(** So is the one on marks: qwen2's [\p{L}] has no combining accents, the
    scanner's letters do. *)
Example qwen2_mark_split :
  regex_split (qwen2_rx sample_unicode 1) [101; 204; 129] = [[101]; [204; 129]] /\
  qwen2_pre_tokenize [101; 204; 129] = [[101; 204; 129]].
Proof. vm_compute. done. Qed.

(** And the one on upper case beyond ASCII. *)
Example o200k_upper_split :
  regex_split (o200k_rx sample_unicode) [97; 195; 132] = [[97]; [195; 132]] /\
  o200k_pre_tokenize [97; 195; 132] = [[97; 195; 132]].
Proof. vm_compute. done. Qed.
