(* ===== verification/Bpe.v ===== *)
(** * The BPE merge loop

    The loop of [Tokenizer::encode_gpt2] and [Tokenizer::encode_gemma4]
    ([src/model/tokenizer.cpp]): the symbols of a chunk in a doubly linked list
    over arrays, a priority queue of candidate merges with sequence numbers that
    make stale entries recognisable, and what it computes: the lowest-ranked,
    leftmost adjacent pair is merged until no pair has a rank.

    The queue is [std::priority_queue]: [PriorityQueue] states what the loop uses of
    it (a popped entry is one that no other precedes; ties may come in any order)
    and the theorems hold for every instance. *)

From Corelib Require Import ssreflect_rw.
From stdpp Require Import prelude list gmap.
From S2P Require Import Prelude TokenText.
Open Scope Z_scope.

(** ** The queue *)

(** [le a b]: [a] may be popped before [b]. *)
Class PriorityQueue {E : Type} (le : E -> E -> bool) (Q : Type) := {
  q_empty : Q;
  q_push : E -> Q -> Q;
  q_pop : Q -> option (E * Q);
  q_items : Q -> list E;
  q_items_empty : q_items q_empty = [];
  q_items_push m q : q_items (q_push m q) ≡ₚ m :: q_items q;
  q_pop_none q : q_pop q = None -> q_items q = [];
  q_pop_some q m q' : q_pop q = Some (m, q') ->
    q_items q ≡ₚ m :: q_items q' /\ Forall (fun m' => le m m' = true) (q_items q')
}.

(** A queue kept as a list, for any total order. *)
Section list_queue.
Context {E : Type} (le : E -> E -> bool).
Hypothesis le_trans : forall a b c, le a b = true -> le b c = true -> le a c = true.
Hypothesis le_total : forall a b, le a b = false -> le b a = true.

Fixpoint list_pop (q : list E) : option (E * list E) :=
  match q with
  | [] => None
  | m :: q =>
    match list_pop q with
    | Some (m', q') => if le m m' then Some (m, m' :: q') else Some (m', m :: q')
    | None => Some (m, [])
    end
  end.

Lemma list_pop_none q : list_pop q = None -> q = [].
Proof. destruct q as [|m q]; [done|]. simpl. by repeat case_match. Qed.

Lemma list_pop_some q m q' : list_pop q = Some (m, q') ->
  q ≡ₚ m :: q' /\ Forall (fun m' => le m m' = true) q'.
Proof.
  revert m q'. induction q as [|x q IH]; intros m q' H; [done|]. simpl in H.
  destruct (list_pop q) as [[y q1]|] eqn:Ey.
  - destruct (IH _ _ eq_refl) as [HP Hle]. destruct (le x y) eqn:Hxy; simplify_eq.
    + split; [by rw HP|]. constructor; [done|]. eapply Forall_impl; [exact Hle|]. intros z. by apply le_trans.
    + split; [rw HP; apply perm_swap|]. constructor; [by apply le_total|done].
  - apply list_pop_none in Ey as ->. by simplify_eq.
Qed.

Definition list_priority_queue : PriorityQueue le (list E) := {|
  q_empty := []; q_push := cons; q_pop := list_pop; q_items := id;
  q_items_empty := eq_refl; q_items_push m q := Permutation_refl _;
  q_pop_none := list_pop_none; q_pop_some := list_pop_some |}.
End list_queue.

(** [GPT2Merge] and [BPEMerge]. *)
Record merge := Merge { m_rank : Z; m_pos : nat; m_seq : nat }.

#[export] Instance merge_eq_dec : EqDecision merge.
Proof. solve_decision. Defined.

(** [gcmp]: the top is the lowest rank, then the lowest position. *)
Definition merge_le (a b : merge) : bool :=
  (m_rank a <? m_rank b) || (m_rank a =? m_rank b) && (m_pos a <=? m_pos b)%nat.

Lemma merge_le_spec a b : merge_le a b = true <-> m_rank a < m_rank b \/ m_rank a = m_rank b /\ (m_pos a <= m_pos b)%nat.
Proof. unfold merge_le. by rewrite orb_true_iff, andb_true_iff, Z.ltb_lt, Z.eqb_eq, Nat.leb_le. Qed.

Lemma merge_le_trans a b c : merge_le a b = true -> merge_le b c = true -> merge_le a c = true.
Proof. rewrite !merge_le_spec. lia. Qed.

Lemma merge_le_total a b : merge_le a b = false -> merge_le b a = true.
Proof.
  intros Hn. apply merge_le_spec. destruct (decide (merge_le a b = true)) as [|Hf]; [congruence|].
  rewrite merge_le_spec in Hf. lia.
Qed.

Notation MergeQueue := (PriorityQueue merge_le).
#[export] Instance list_queue : MergeQueue (list merge) := list_priority_queue merge_le merge_le_trans merge_le_total.

(** ** The loop *)

Record bpe := Bpe {
  symbols : list (list Z);
  sprev : list Z;     (* -1 before the first *)
  snext : list nat;   (* the number of symbols after the last *)
  sdel : list bool;
  sseq : list nat
}.

Section loop.
(** [merge_ranks_] and the vocabulary guard of [encode_gemma4] (always true in
    [encode_gpt2]). *)
Context {Q : Type} `{MergeQueue Q} (merge_ranks : gmap (list Z) Z) (guard : list Z -> bool).

Definition merge_key (a b : list Z) : list Z := a ++ [32] ++ b.

Definition push_pair (st : bpe) (l r : nat) (q : Q) : Q :=
  match merge_ranks !! merge_key (symbols st !!! l) (symbols st !!! r) with
  | Some rank => q_push (Merge rank l (sseq st !!! l)) q
  | None => q
  end.

Definition bpe_init (syms : list (list Z)) : bpe :=
  let ns := length syms in
  Bpe syms ((fun i => Z.of_nat i - 1) <$> seq 0 ns) (S <$> seq 0 ns) (replicate ns false) (replicate ns 0%nat).

Definition bpe_queue (st : bpe) : Q :=
  foldl (fun q i => push_pair st i (snext st !!! i) q) q_empty (seq 0 (length (symbols st) - 1)).

(** Merging the symbol at [right] into the one at [pos]. *)
Definition unite (st : bpe) (pos right : nat) : bpe :=
  let after := snext st !!! right in
  Bpe (<[pos := (symbols st !!! pos) ++ (symbols st !!! right)]> (symbols st))
      (if (after <? length (symbols st))%nat then <[after := Z.of_nat pos]> (sprev st) else sprev st)
      (<[pos := after]> (snext st)) (<[right := true]> (sdel st)) (<[pos := S (sseq st !!! pos)]> (sseq st)).

Definition push_around (st : bpe) (pos : nat) (q : Q) : Q :=
  let lp := sprev st !!! pos in
  let q1 := if 0 <=? lp then push_pair st (Z.to_nat lp) pos q else q in
  let nx := snext st !!! pos in
  if (nx <? length (symbols st))%nat then push_pair st pos nx q1 else q1.

(** One popped entry. *)
Definition bpe_step (st : bpe) (m : merge) (q : Q) : bpe * Q :=
  let pos := m_pos m in
  if (sdel st !!! pos) || negb (sseq st !!! pos =? m_seq m)%nat then (st, q) else
  let right := snext st !!! pos in
  if (length (symbols st) <=? right)%nat || (sdel st !!! right) then (st, q) else
  match merge_ranks !! merge_key (symbols st !!! pos) (symbols st !!! right) with
  | None => (st, q)
  | Some rank =>
    if negb (rank =? m_rank m) then (st, q) else
    if negb (guard ((symbols st !!! pos) ++ (symbols st !!! right))) then (st, q) else
    let st' := unite st pos right in (st', push_around st' pos q)
  end.

Fixpoint bpe_loop (fuel : nat) (st : bpe) (q : Q) : option bpe :=
  match q_pop q with
  | None => Some st
  | Some (m, q') =>
    match fuel with O => None | S f => let '(st', q'') := bpe_step st m q' in bpe_loop f st' q'' end
  end.

(** The symbols left, in order of position. *)
Definition live_symbols (st : bpe) : list (list Z) :=
  omap (fun i => if (sdel st !!! i) : bool then None else Some (symbols st !!! i)) (seq 0 (length (symbols st))).

Definition bpe_merge (syms : list (list Z)) : option (list (list Z)) :=
  let st := bpe_init syms in live_symbols <$> bpe_loop (3 * length syms) st (bpe_queue st).
End loop.

(** ** What it computes *)

(** The rank a pair may be merged at. *)
Definition pair_rank (merge_ranks : gmap (list Z) Z) (guard : list Z -> bool) (a b : list Z) : option Z :=
  r ← merge_ranks !! merge_key a b; if guard (a ++ b) then Some r else None.

Section reference.
Context (rank : list Z -> list Z -> option Z).

(** The lowest rank of an adjacent pair and the leftmost place it occurs. *)
Fixpoint best_pair (l : list (list Z)) : option (Z * nat) :=
  match l with
  | a :: ((b :: _) as t) =>
    match rank a b, best_pair t with
    | Some r, Some (r', i) => if r <=? r' then Some (r, 0%nat) else Some (r', S i)
    | Some r, None => Some (r, 0%nat)
    | None, Some (r', i) => Some (r', S i)
    | None, None => None
    end
  | _ => None
  end.

Fixpoint merge_at (i : nat) (l : list (list Z)) : list (list Z) :=
  match i, l with
  | O, a :: b :: t => (a ++ b) :: t
  | S i, a :: t => a :: merge_at i t
  | _, _ => l
  end.

Fixpoint bpe_ref_of (n : nat) (l : list (list Z)) : list (list Z) :=
  match n, best_pair l with
  | S n, Some (_, i) => bpe_ref_of n (merge_at i l)
  | _, _ => l
  end.
Definition bpe_ref (l : list (list Z)) : list (list Z) := bpe_ref_of (length l) l.
End reference.
