(* ===== verification/BpeRefine.v ===== *)
(** * The merge loop computes the reference

    The loop of [Bpe] keeps a list [ps] of the live positions, linked by
    [sprev]/[snext], and an entry in the queue for every adjacent pair that may be
    merged; popping either drops a stale entry or merges the best pair of the
    live symbols. *)

From Corelib Require Import ssreflect_rw.
From stdpp Require Import prelude list gmap sorting.
From S2P Require Import Prelude TokenText Bpe.
Open Scope Z_scope.

(** ** Adjacent pairs *)

Section adj.
Context {A : Type}.
Implicit Types l : list A.

Fixpoint adj l : list (A * A) :=
  match l with
  | a :: ((b :: _) as t) => (a, b) :: adj t
  | _ => []
  end.

Lemma adj_app l1 p l2 : adj (l1 ++ p :: l2) = adj (l1 ++ [p]) ++ adj (p :: l2).
Proof.
  induction l1 as [|a l1 IH]; [done|]. destruct l1 as [|b l1]; [done|].
  cbn [app] in *. cbn [adj]. cbn [adj] in IH. by rewrite IH.
Qed.

Lemma adj_lookup l i a b : l !! i = Some a -> l !! S i = Some b -> (a, b) ∈ adj l.
Proof.
  revert i. induction l as [|x l IH]; intros i Ha Hb; [done|]. destruct l as [|y l]; [by destruct i|].
  destruct i as [|i]; [simplify_eq/=; left|]. right. by apply (IH i).
Qed.

Lemma adj_elem l a b : (a, b) ∈ adj l -> a ∈ l /\ b ∈ l.
Proof.
  induction l as [|x l IH]; [by intros ?%elem_of_nil|]. destruct l as [|y l]; [by intros ?%elem_of_nil|].
  intros [[= -> ->]|[Ha Hb]%IH]%elem_of_cons; [|by split; right]. split; [left|right; left].
Qed.
End adj.

(** ** The best pair *)

Section best.
Context (rank : list Z -> list Z -> option Z).
Notation best_pair := (best_pair rank).

Definition rank_at (l : list (list Z)) (i : nat) : option Z := a ← l !! i; b ← l !! S i; rank a b.

Lemma best_pair_cons a b l :
  best_pair (a :: b :: l) =
  match rank a b, best_pair (b :: l) with
  | Some r, Some (r', i) => if r <=? r' then Some (r, 0%nat) else Some (r', S i)
  | Some r, None => Some (r, 0%nat)
  | None, Some (r', i) => Some (r', S i)
  | None, None => None
  end.
Proof. done. Qed.

Lemma best_pair_none l : (forall i, rank_at l i = None) -> best_pair l = None.
Proof.
  induction l as [|a l IH]; [done|]. destruct l as [|b l]; [done|]. intros Hno. rewrite best_pair_cons.
  pose proof (Hno 0%nat) as H0. cbn in H0. rewrite H0, IH; [done|]. intros i. apply (Hno (S i)).
Qed.

Lemma best_pair_some l r i : best_pair l = Some (r, i) -> rank_at l i = Some r.
Proof.
  revert r i. induction l as [|a l IH]; [done|]. destruct l as [|b l]; [done|]. intros r i H. rewrite best_pair_cons in H.
  destruct (rank a b) as [r0|] eqn:E; destruct (best_pair (b :: l)) as [[r1 j]|] eqn:E1;
    repeat case_match; simplify_eq; try exact E; by apply IH.
Qed.

Lemma best_pair_is l r i : rank_at l i = Some r ->
  (forall j r', rank_at l j = Some r' -> r < r' \/ r = r' /\ (i <= j)%nat) -> best_pair l = Some (r, i).
Proof.
  revert i. induction l as [|a l IH]; intros i Hr Hmin; [done|].
  destruct l as [|b l]; [by destruct i|]. rewrite best_pair_cons.
  assert (best_pair (b :: l) = None \/ exists r1 j, best_pair (b :: l) = Some (r1, j)) as Hb
    by (destruct (best_pair (b :: l)) as [[r1 j]|]; eauto).
  destruct i as [|i].
  - cbn in Hr. rewrite Hr. destruct Hb as [-> |(r1 & j & Hb)]; [done|]. rewrite Hb.
    apply best_pair_some in Hb. destruct (Hmin (S j) r1 Hb); destruct (Z.leb_spec r r1); try done; lia.
  - rewrite (IH i); [|exact Hr|intros j r' Hj; destruct (Hmin (S j) r' Hj); lia].
    destruct (rank a b) as [r0|] eqn:E; [|done]. destruct (Hmin 0%nat r0); [exact E| |lia].
    by destruct (Z.leb_spec r0 r); [lia|].
Qed.

Lemma merge_at_app l1 a b l2 : merge_at (length l1) (l1 ++ a :: b :: l2) = l1 ++ (a ++ b) :: l2.
Proof. induction l1 as [|x l1 IH]; [done|]. simpl. by rewrite IH. Qed.

Lemma bpe_ref_step n l r i : best_pair l = Some (r, i) ->
  bpe_ref_of rank (S n) l = bpe_ref_of rank n (merge_at i l).
Proof. intros H. cbn [bpe_ref_of]. by rewrite H. Qed.

Lemma bpe_ref_stop n l : best_pair l = None -> bpe_ref_of rank n l = l.
Proof. intros H. destruct n; [done|]. cbn [bpe_ref_of]. by rewrite H. Qed.
End best.

(** ** Linked positions *)

(** The node at [p] of the linked list. *)
Record node (st : bpe) (p : nat) (prev : Z) (next : nat) : Prop := {
  node_prev : sprev st !!! p = prev;
  node_next : snext st !!! p = next;
  node_live : sdel st !!! p = false
}.

Fixpoint seg (st : bpe) (prev : Z) (ps : list nat) (next : nat) : Prop :=
  match ps with
  | [] => True
  | p :: t => node st p prev (default next (head t)) /\ seg st (Z.of_nat p) t next
  end.

Definition prev_of (prev : Z) (ps : list nat) : Z := from_option Z.of_nat prev (last ps).

Lemma seg_app st prev l1 l2 next :
  seg st prev (l1 ++ l2) next <-> seg st prev l1 (default next (head l2)) /\ seg st (prev_of prev l1) l2 next.
Proof.
  revert prev. induction l1 as [|p l1 IH]; intros prev; [by split; [|intros [_ ?]]|]. cbn [app seg]. rewrite IH.
  replace (prev_of prev (p :: l1)) with (prev_of (Z.of_nat p) l1)
    by (unfold prev_of; rewrite last_cons; by destruct (last l1)).
  replace (default next (head (l1 ++ l2))) with (default (default next (head l2)) (head l1)) by (by destruct l1).
  naive_solver.
Qed.

Lemma seg_frame st st' prev ps next :
  (forall p, p ∈ ps -> sprev st' !!! p = sprev st !!! p /\ snext st' !!! p = snext st !!! p /\ sdel st' !!! p = sdel st !!! p) ->
  seg st prev ps next -> seg st' prev ps next.
Proof.
  revert prev. induction ps as [|p ps IH]; intros prev Hf; [done|]. intros [[H1 H2 H3] Hs]. split.
  - destruct (Hf p) as (E1 & E2 & E3); [left|]. by split; rewrite ?E1, ?E2, ?E3.
  - apply IH; [|done]. intros q Hq. apply Hf. by right.
Qed.

(** ** The invariant *)

Section refine.
Context {Q : Type} `{MergeQueue Q} (merge_ranks : gmap (list Z) Z) (guard : list Z -> bool).
Notation pair_rank := (pair_rank merge_ranks guard).
Notation best_pair := (best_pair (Bpe.pair_rank merge_ranks guard)).

Record wf (ns : nat) (st : bpe) : Prop := {
  wf_symbols : length (symbols st) = ns;
  wf_prev : length (sprev st) = ns;
  wf_next : length (snext st) = ns;
  wf_del : length (sdel st) = ns;
  wf_seq : length (sseq st) = ns
}.

(** [ps] are the live positions, in order, and linked. *)
Record chain (ns : nat) (st : bpe) (ps : list nat) : Prop := {
  chain_wf : wf ns st;
  chain_seg : seg st (-1) ps ns;
  chain_sorted : StronglySorted lt ps;
  chain_in : Forall (fun p => (p < ns)%nat) ps;
  chain_live : forall p, (p < ns)%nat -> sdel st !!! p = false -> p ∈ ps
}.

Definition entry_of (st : bpe) (r : Z) (p : nat) : merge := Merge r p (sseq st !!! p).

(** Every adjacent pair that may be merged has its entry. *)
Definition queued (st : bpe) (ps : list nat) (items : list merge) : Prop :=
  Forall (fun pq => forall r, pair_rank (symbols st !!! pq.1) (symbols st !!! pq.2) = Some r -> entry_of st r pq.1 ∈ items) (adj ps).

Record inv (ns : nat) (st : bpe) (ps : list nat) (q : Q) : Prop := {
  inv_chain : chain ns st ps;
  inv_queued : queued st ps (q_items q);
  inv_range : Forall (fun m => (m_pos m < ns)%nat) (q_items q)
}.

Definition syms_at (st : bpe) (ps : list nat) : list (list Z) := (fun p => symbols st !!! p) <$> ps.

(** The live positions are the ones [live_symbols] reads. *)
Lemma sorted_seq (P : nat -> Prop) `{forall x, Decision (P x)} a n : StronglySorted lt (filter P (seq a n)).
Proof.
  revert a. induction n as [|n IH]; intros a; [constructor|]. cbn [seq]. rewrite filter_cons.
  case_decide; [|done]. constructor; [done|]. apply Forall_forall. intros x [_ Hx]%list_elem_of_filter.
  rewrite elem_of_seq in Hx. lia.
Qed.

Lemma positions_NoDup (l : list nat) : StronglySorted lt l -> NoDup l.
Proof.
  induction 1 as [|x l _ IH Hx]; constructor; [|done]. intros Hin.
  rewrite Forall_forall in Hx. specialize (Hx x Hin). lia.
Qed.

Lemma chain_positions ns st ps : chain ns st ps -> filter (fun p => sdel st !!! p = false) (seq 0 ns) = ps.
Proof.
  intros [_ Hseg Hsort Hin Hlive]. apply (StronglySorted_unique_strong lt).
  - intros x y _ _ ??. lia.
  - apply sorted_seq.
  - done.
  - apply NoDup_Permutation; [apply NoDup_filter, NoDup_seq|by apply positions_NoDup|]. intros p.
    rewrite list_elem_of_filter, elem_of_seq. split; [intros [? ?]; apply Hlive; [lia|done]|]. intros Hp.
    rewrite Forall_forall in Hin. specialize (Hin p Hp). split; [|lia].
    apply list_elem_of_split in Hp as (l1 & l2 & ->). apply seg_app in Hseg as [_ [[_ _ Hd] _]]. done.
Qed.

Lemma live_symbols_chain ns st ps : chain ns st ps -> live_symbols st = syms_at st ps.
Proof.
  intros Hc. rewrite <- (chain_positions _ _ _ Hc). unfold live_symbols, syms_at.
  rewrite (wf_symbols _ _ (chain_wf _ _ _ Hc)). generalize (seq 0 ns) as l. induction l as [|p l IH]; [done|].
  rewrite filter_cons. simpl. case_decide as Hd; [rewrite Hd; simpl; f_equal; exact IH|].
  by destruct (sdel st !!! p).
Qed.

(** ** Merging keeps the chain *)

Lemma unite_wf ns st p q : wf ns st -> wf ns (unite st p q).
Proof. intros []. split; cbn; rewrite ?length_insert; try done. case_match; by rewrite ?length_insert. Qed.

(** The positions around a merge are distinct. *)
Lemma chain_distinct ns st l1 p q l3 : chain ns st (l1 ++ p :: q :: l3) ->
  ((p < ns)%nat /\ (q < ns)%nat /\ p <> q) /\
  (forall x, x ∈ l1 -> x <> p /\ x <> q /\ x ∉ l3 /\ (x < ns)%nat) /\
  (forall x, x ∈ l3 -> x <> p /\ x <> q /\ (x < ns)%nat) /\ NoDup l3.
Proof.
  intros [_ _ Hsort Hin _]. apply positions_NoDup, NoDup_app in Hsort as (_ & Hd1 & Hd2).
  apply NoDup_cons in Hd2 as [Hp Hd2]. apply NoDup_cons in Hd2 as [Hq Hd3]. apply not_elem_of_cons in Hp as [Hpq Hp].
  apply Forall_app in Hin as [Hin1 Hin2]. apply Forall_cons in Hin2 as [Hpn Hin2]. apply Forall_cons in Hin2 as [Hqn Hin3].
  rewrite Forall_forall in Hin1, Hin3. split_and!; try done.
  - intros x Hx. specialize (Hd1 x Hx). rewrite !not_elem_of_cons in Hd1. naive_solver.
  - intros x Hx. split_and!; [by intros -> ..|by apply Hin3].
Qed.

Lemma chain_unite ns st l1 p q l3 : chain ns st (l1 ++ p :: q :: l3) -> chain ns (unite st p q) (l1 ++ p :: l3).
Proof.
  intros Hch. destruct (chain_distinct _ _ _ _ _ _ Hch) as ((Hpn & Hqn & Hpq) & Hl1 & Hl3 & Hd3).
  destruct Hch as [Hwf Hseg Hsort Hin Hlive]. pose proof Hwf as [W1 W2 W3 W4 W5].
  apply seg_app in Hseg as [Hs1 [[N1 N2 N3] [[M1 M2 M3] Hs3]]]. cbn [head default] in *.
  assert (forall x, x <> p -> snext (unite st p q) !!! x = snext st !!! x) as Hnx
    by (intros x Hx; cbn; by rewrite list_lookup_total_insert_ne).
  assert (forall x, x <> q -> sdel (unite st p q) !!! x = sdel st !!! x) as Hdl
    by (intros x Hx; cbn; by rewrite list_lookup_total_insert_ne).
  assert (forall x, default ns (head l3) <> x -> sprev (unite st p q) !!! x = sprev st !!! x) as Hpv.
  { intros x Hx. cbn. rewrite M2. case_match; [|done]. by rewrite list_lookup_total_insert_ne. }
  assert (forall x, (x < ns)%nat -> x ∉ l3 -> default ns (head l3) <> x) as Hhd.
  { intros x Hx Hnin <-. destruct l3; cbn in *; [lia|]. apply Hnin. left. }
  split.
  - by apply unite_wf.
  - apply seg_app. cbn [head default seg]. split_and!.
    + revert Hs1. apply seg_frame. intros x Hx. destruct (Hl1 x Hx) as (? & ? & ? & ?).
      rewrite Hnx, Hdl, Hpv by auto. done.
    + split.
      * rewrite Hpv; [done|]. apply Hhd; [done|]. by intros []%Hl3.
      * cbn. by rewrite list_lookup_total_insert_eq, M2 by (by rewrite W3).
      * by rewrite Hdl.
    + destruct l3 as [|y l3]; [done|]. cbn [seg head default] in *. destruct Hs3 as [[K1 K2 K3] Hs3].
      destruct (Hl3 y) as (Hyp & Hyq & Hyn); [left|]. apply NoDup_cons in Hd3 as [Hy Hd3]. split.
      * split; [|by rewrite Hnx|by rewrite Hdl].
        assert (snext st !!! q = y) as My by exact M2. unfold unite. cbn [sprev]. rewrite My, W1.
        destruct (Nat.ltb_spec y ns); [|lia]. by rewrite list_lookup_total_insert_eq by (by rewrite W2).
      * revert Hs3. apply seg_frame. intros x Hx. destruct (Hl3 x) as (? & ? & ?); [by right|].
        rewrite Hnx, Hdl, Hpv by (done || by intros <-). done.
  - apply StronglySorted_app in Hsort as (Ha & Hb & Hc). apply StronglySorted_app. split_and!; [|done|].
    + intros x y Hx Hy. apply Ha; [done|]. rewrite !elem_of_cons in *. naive_solver.
    + apply StronglySorted_inv in Hc as [Hc Hpall]. apply StronglySorted_inv in Hc as [Hc _].
      constructor; [done|]. by apply Forall_cons in Hpall as [_ ?].
  - apply Forall_app in Hin as [? [? [_ ?]%Forall_cons]%Forall_cons]. apply Forall_app. split; [done|by constructor].
  - intros x Hxn Hx. destruct (decide (x = q)) as [-> |Hxq].
    + cbn in Hx. by rewrite list_lookup_total_insert_eq in Hx by (by rewrite W4).
    + rewrite Hdl in Hx by done. specialize (Hlive x Hxn Hx). rewrite !elem_of_app, !elem_of_cons in *. naive_solver.
Qed.

Lemma unite_symbols_ne st p q x : x <> p -> symbols (unite st p q) !!! x = symbols st !!! x.
Proof. intros Hx. cbn. by rewrite list_lookup_total_insert_ne. Qed.

Lemma unite_seq_ne st p q x : x <> p -> sseq (unite st p q) !!! x = sseq st !!! x.
Proof. intros Hx. cbn. by rewrite list_lookup_total_insert_ne. Qed.

Lemma syms_unite ns st l1 p q l3 : chain ns st (l1 ++ p :: q :: l3) ->
  syms_at (unite st p q) (l1 ++ p :: l3) = merge_at (length l1) (syms_at st (l1 ++ p :: q :: l3)).
Proof.
  intros Hch. destruct (chain_distinct _ _ _ _ _ _ Hch) as ((Hpn & _ & _) & Hl1 & Hl3 & _).
  unfold syms_at. rewrite !fmap_app, !fmap_cons.
  rewrite <- (length_fmap (fun p => symbols st !!! p) l1), merge_at_app. f_equal; [|f_equal].
  - apply list_fmap_ext. intros i x Hx%list_elem_of_lookup_2. apply unite_symbols_ne. by apply Hl1.
  - cbn. apply list_lookup_total_insert_eq. by rewrite (wf_symbols _ _ (chain_wf _ _ _ Hch)).
  - apply list_fmap_ext. intros i x Hx%list_elem_of_lookup_2. apply unite_symbols_ne. by apply Hl3.
Qed.

(** ** Entries *)

Lemma pair_rank_key a b r : pair_rank a b = Some r -> merge_ranks !! merge_key a b = Some r.
Proof. unfold Bpe.pair_rank. destruct (merge_ranks !! _); [|done]. simpl. by case_match. Qed.

Lemma push_pair_items st l r (q : Q) : exists new, q_items (push_pair merge_ranks st l r q) ≡ₚ new ++ q_items q /\
  (length new <= 1)%nat /\ Forall (fun m => m_pos m = l) new /\
  forall rk, pair_rank (symbols st !!! l) (symbols st !!! r) = Some rk -> entry_of st rk l ∈ new.
Proof.
  unfold push_pair. destruct (merge_ranks !! _) as [rk|] eqn:E.
  - exists [Merge rk l (sseq st !!! l)]. split_and!; [apply q_items_push|done|by repeat constructor|].
    intros rk' Hrk%pair_rank_key. rewrite E in Hrk. simplify_eq. left.
  - exists []. split_and!; [done|simpl; lia|done|]. intros rk Hrk%pair_rank_key. congruence.
Qed.

(** The entries pushed after a merge at [p]. *)
Lemma push_around_items st p (q : Q) : exists new, q_items (push_around merge_ranks st p q) ≡ₚ new ++ q_items q /\
  (length new <= 2)%nat /\
  Forall (fun m => m_pos m = p \/ 0 <= sprev st !!! p /\ m_pos m = Z.to_nat (sprev st !!! p)) new /\
  (forall rk, 0 <= sprev st !!! p ->
     pair_rank (symbols st !!! Z.to_nat (sprev st !!! p)) (symbols st !!! p) = Some rk ->
     entry_of st rk (Z.to_nat (sprev st !!! p)) ∈ new) /\
  (forall rk, (snext st !!! p < length (symbols st))%nat ->
     pair_rank (symbols st !!! p) (symbols st !!! (snext st !!! p)) = Some rk -> entry_of st rk p ∈ new).
Proof.
  unfold push_around. cbv zeta.
  destruct (push_pair_items st (Z.to_nat (sprev st !!! p)) p q) as (n1 & P1 & L1 & F1 & E1).
  set (q1 := if 0 <=? sprev st !!! p then push_pair _ _ _ _ q else q).
  assert (exists n1', q_items q1 ≡ₚ n1' ++ q_items q /\ (length n1' <= 1)%nat /\
    Forall (fun m => 0 <= sprev st !!! p /\ m_pos m = Z.to_nat (sprev st !!! p)) n1' /\
    (forall rk, 0 <= sprev st !!! p ->
     pair_rank (symbols st !!! Z.to_nat (sprev st !!! p)) (symbols st !!! p) = Some rk ->
     entry_of st rk (Z.to_nat (sprev st !!! p)) ∈ n1')) as (n1' & P1' & L1' & F1' & E1').
  { unfold q1. destruct (Z.leb_spec 0 (sprev st !!! p)); [exists n1|exists []]; split_and!; try done.
    - eapply Forall_impl; [exact F1|]. done.
    - intros rk _. apply E1.
    - simpl. lia.
    - intros. lia. }
  clearbody q1. clear n1 P1 L1 F1 E1. destruct (Nat.ltb_spec (snext st !!! p) (length (symbols st))).
  - destruct (push_pair_items st p (snext st !!! p) q1) as (n2 & P2 & L2 & F2 & E2). exists (n2 ++ n1').
    split_and!.
    + by rewrite P2, P1', app_assoc.
    + rewrite length_app. lia.
    + apply Forall_app. split; [eapply Forall_impl; [exact F2|]; by left|eapply Forall_impl; [exact F1'|]; by right].
    + intros rk Hp Hrk. apply elem_of_app. right. by apply E1'.
    + intros rk _ Hrk. apply elem_of_app. left. by apply E2.
  - exists n1'. split_and!; [done|lia| |done|lia]. eapply Forall_impl; [exact F1'|]. by right.
Qed.

(** ** One step *)

(** The popped entry is up to date. *)
Definition valid (st : bpe) (m : merge) : Prop :=
  sdel st !!! m_pos m = false /\ sseq st !!! m_pos m = m_seq m /\
  (snext st !!! m_pos m < length (symbols st))%nat /\ sdel st !!! (snext st !!! m_pos m) = false /\
  pair_rank (symbols st !!! m_pos m) (symbols st !!! (snext st !!! m_pos m)) = Some (m_rank m).

Lemma step_cases st m (q : Q) :
  valid st m /\ bpe_step merge_ranks guard st m q =
    (unite st (m_pos m) (snext st !!! m_pos m), push_around merge_ranks (unite st (m_pos m) (snext st !!! m_pos m)) (m_pos m) q) \/
  ~ valid st m /\ bpe_step merge_ranks guard st m q = (st, q).
Proof.
  unfold valid, bpe_step, Bpe.pair_rank. cbv zeta. destruct (sdel st !!! m_pos m) eqn:E1; [by right; split; [intros [? _]|]|].
  destruct (Nat.eqb_spec (sseq st !!! m_pos m) (m_seq m)) as [E2|]; [|right; cbn; by split; [naive_solver|]]. cbn [orb negb].
  destruct (Nat.leb_spec (length (symbols st)) (snext st !!! m_pos m)); [right; cbn; split; [naive_solver lia|done]|]. cbn [orb].
  destruct (sdel st !!! (snext st !!! m_pos m)) eqn:E4; [right; split; [naive_solver|done]|].
  destruct (merge_ranks !! _) as [rk|] eqn:E5; [|right; split; [naive_solver|done]]. simpl mbind.
  destruct (Z.eqb_spec rk (m_rank m)) as [-> |]; cbn [negb].
  - destruct (guard _) eqn:E6; cbn [negb]; [by left|right; split; [naive_solver|done]].
  - right. split; [|done]. intros (_ & _ & _ & _ & Hk). simpl in Hk. by case_match; simplify_eq.
Qed.

Lemma adj_node ns st ps a b : chain ns st ps -> (a, b) ∈ adj ps ->
  sdel st !!! a = false /\ snext st !!! a = b /\ (b < ns)%nat /\ sdel st !!! b = false.
Proof.
  intros [_ Hseg _ Hin _]. generalize (-1) as prev, Hseg. clear Hseg. induction ps as [|x ps IH]; intros prev Hseg Hab;
    [by apply elem_of_nil in Hab|]. destruct ps as [|y ps]; [by apply elem_of_nil in Hab|].
  apply Forall_cons in Hin as [Hx Hin]. destruct Hseg as [[N1 N2 N3] Hseg].
  apply elem_of_cons in Hab as [[= -> ->]|Hab]; [|by eapply IH].
  split_and!; [done|done| |by destruct Hseg as [[]]]. by apply Forall_cons in Hin as [].
Qed.

(** An entry some pair needs is up to date. *)
Lemma needed_valid ns st ps a b r : chain ns st ps -> (a, b) ∈ adj ps ->
  pair_rank (symbols st !!! a) (symbols st !!! b) = Some r -> valid st (entry_of st r a).
Proof.
  intros Hch Hab Hr. destruct (adj_node _ _ _ _ _ Hch Hab) as (H1 & H2 & H3 & H4). unfold valid. cbn.
  rewrite H2, (wf_symbols _ _ (chain_wf _ _ _ Hch)). done.
Qed.

Lemma inv_stale ns st ps q m q' : inv ns st ps q -> q_pop q = Some (m, q') -> ~ valid st m -> inv ns st ps q'.
Proof.
  intros [Hch Hq Hr] Hpop Hv. apply q_pop_some in Hpop as [HP _]. split; [done| |].
  - apply Forall_forall. intros [a b] Hab r Hrk. unfold queued in Hq. rewrite Forall_forall in Hq.
    specialize (Hq _ Hab r Hrk). rewrite HP in Hq. apply elem_of_cons in Hq as [<- |]; [|done].
    by edestruct Hv; eapply needed_valid.
  - rewrite HP in Hr. by apply Forall_cons in Hr as [].
Qed.

(** A live position with a live successor splits the chain. *)
Lemma live_split ns st ps p : chain ns st ps -> (p < ns)%nat -> sdel st !!! p = false ->
  (snext st !!! p < length (symbols st))%nat -> exists l1 l3, ps = l1 ++ p :: (snext st !!! p) :: l3.
Proof.
  intros Hch Hp Hd Hn. pose proof (chain_live _ _ _ Hch _ Hp Hd) as Hin.
  apply list_elem_of_split in Hin as (l1 & l2 & ->). pose proof (chain_seg _ _ _ Hch) as Hs.
  apply seg_app in Hs as [_ [[_ Hnx _] _]]. rewrite (wf_symbols _ _ (chain_wf _ _ _ Hch)) in Hn.
  destruct l2 as [|x l3]; cbn in Hnx; unfold id in Hnx; [lia|]. exists l1, l3. by rewrite Hnx.
Qed.

Lemma valid_split ns st ps q m q' : inv ns st ps q -> q_pop q = Some (m, q') -> valid st m ->
  exists l1 l3, ps = l1 ++ m_pos m :: (snext st !!! m_pos m) :: l3.
Proof.
  intros [Hch _ Hr] Hpop (V1 & V2 & V3 & V4 & V5). apply q_pop_some in Hpop as [HP _]. rewrite HP in Hr.
  apply Forall_cons in Hr as [Hm _]. by apply (live_split ns).
Qed.

Lemma adj_in_ps (l1 l3 : list nat) (p q a b : nat) : (a, b) ∈ adj l1 \/ (a, b) ∈ adj l3 -> (a, b) ∈ adj (l1 ++ p :: q :: l3).
Proof.
  rewrite adj_app, elem_of_app. intros [H1|H3]; [left|right].
  - destruct l1 as [|x k] using rev_ind; [done|]. rewrite <- app_assoc. cbn [app]. rewrite adj_app. apply elem_of_app. by left.
  - cbn [adj]. right. destruct l3 as [|y l3]; [done|]. by right.
Qed.

Lemma adj_merged (l1 l3 : list nat) (p a b : nat) : (a, b) ∈ adj (l1 ++ p :: l3) ->
  (a, b) ∈ adj l1 \/ (a, b) ∈ adj l3 \/ last l1 = Some a /\ b = p \/ a = p /\ head l3 = Some b.
Proof.
  rewrite adj_app, elem_of_app. intros [H1|H3].
  - destruct l1 as [|x k _] using rev_ind; [by apply elem_of_nil in H1|]. rewrite <- app_assoc in H1. cbn [app] in H1.
    rewrite adj_app, elem_of_app in H1. destruct H1 as [|H1]; [by left|]. cbn [adj] in H1.
    apply elem_of_cons in H1 as [[= -> ->]|H1]; [|by apply elem_of_nil in H1]. right; right; left. by rewrite last_snoc.
  - destruct l3 as [|y l3]; [by apply elem_of_nil in H3|]. cbn [adj] in H3.
    apply elem_of_cons in H3 as [[= -> ->]|H3]; [by do 3 right|by right; left].
Qed.

Lemma inv_merge ns st l1 p q l3 qu m qu' : inv ns st (l1 ++ p :: q :: l3) qu -> q_pop qu = Some (m, qu') -> m_pos m = p ->
  inv ns (unite st p q) (l1 ++ p :: l3) (push_around merge_ranks (unite st p q) p qu').
Proof.
  intros [Hch Hq Hr] Hpop Hm. pose proof (chain_unite _ _ _ _ _ _ Hch) as Hch'.
  destruct (chain_distinct _ _ _ _ _ _ Hch) as ((Hpn & Hqn & Hpq) & Hl1 & Hl3 & _).
  apply q_pop_some in Hpop as [HP _]. rewrite HP in Hr. apply Forall_cons in Hr as [_ Hr].
  destruct (push_around_items (unite st p q) p qu') as (new & Pn & _ & Fn & Ep & En).
  pose proof (chain_seg _ _ _ Hch') as Hs. apply seg_app in Hs as [_ [[Npv Nnx _] _]].
  split; [done| |].
  - apply Forall_forall. intros [a b] Hab r Hrk. cbn [fst snd] in *. rewrite Pn. apply elem_of_app.
    assert (forall x, (a, b) ∈ adj x -> (forall y, y ∈ x -> y <> p) -> (a, b) ∈ adj (l1 ++ p :: q :: l3) ->
            entry_of (unite st p q) r a ∈ q_items qu') as Hfar.
    { intros x Hx Hne Hold. apply adj_elem in Hx as [Ha%Hne Hb%Hne]. unfold entry_of. rewrite unite_seq_ne by done.
      rewrite !unite_symbols_ne in Hrk by done. unfold queued in Hq. rewrite Forall_forall in Hq.
      specialize (Hq _ Hold r Hrk). rewrite HP in Hq. apply elem_of_cons in Hq as [He|]; [|done].
      rewrite <- He in Hm. done. }
    apply adj_merged in Hab as [H1|[H3|[[Hl ->]|[-> Hh]]]].
    + right. apply (Hfar l1); [done|intros y Hy; by apply Hl1|apply adj_in_ps; by left].
    + right. apply (Hfar l3); [done|intros y Hy; by apply Hl3|apply adj_in_ps; by right].
    + left. unfold prev_of in Npv. rewrite Hl in Npv. cbn [from_option] in Npv. rewrite Npv, Nat2Z.id in Ep.
      apply Ep; [lia|done].
    + left. rewrite Hh in Nnx. cbn in Nnx. unfold id in Nnx. apply En; cbn; rewrite Nnx; [|done].
      rewrite length_insert, (wf_symbols _ _ (chain_wf _ _ _ Hch)). apply Hl3. destruct l3; [done|]. cbn in Hh. simplify_eq. left.
  - rewrite Pn. apply Forall_app. split; [|done]. eapply Forall_impl; [exact Fn|]. intros m' [-> |[Hge ->]]; [done|].
    rewrite Npv in *. unfold prev_of in *. destruct (last l1) as [x|] eqn:El; cbn [from_option] in *; [|lia].
    rewrite Nat2Z.id. apply Hl1. apply last_Some in El as [k ->]. apply elem_of_app. right. left.
Qed.

Lemma syms_rank_at (rank : list Z -> list Z -> option Z) st ps j r : rank_at rank (syms_at st ps) j = Some r ->
  exists a b, ps !! j = Some a /\ (a, b) ∈ adj ps /\ rank (symbols st !!! a) (symbols st !!! b) = Some r.
Proof.
  unfold rank_at, syms_at. rewrite !list_lookup_fmap. destruct (ps !! j) as [a|] eqn:Ha; [|done].
  destruct (ps !! S j) as [b|] eqn:Hb; [|done]. simpl. intros Hr. exists a, b. split_and!; [done| |done]. by eapply adj_lookup.
Qed.

Lemma rank_at_middle (rank : list Z -> list Z -> option Z) st l1 p q l3 r :
  rank (symbols st !!! p) (symbols st !!! q) = Some r -> rank_at rank (syms_at st (l1 ++ p :: q :: l3)) (length l1) = Some r.
Proof.
  intros Hr. unfold rank_at, syms_at. rewrite !list_lookup_fmap.
  rewrite (list_lookup_middle l1 (q :: l3) p (length l1)) by done.
  replace (l1 ++ p :: q :: l3) with ((l1 ++ [p]) ++ q :: l3) by (by rewrite <- app_assoc).
  rewrite (list_lookup_middle (l1 ++ [p]) l3 q (S (length l1))) by (rewrite length_app; simpl; lia). exact Hr.
Qed.

(** Positions grow with indices. *)
Lemma sorted_index (ps l1 : list nat) p l2 j a : StronglySorted lt ps -> ps = l1 ++ p :: l2 ->
  ps !! j = Some a -> (p <= a)%nat -> (length l1 <= j)%nat.
Proof.
  intros Hs -> Ha Hpa. destruct (Nat.le_gt_cases (length l1) j) as [|Hlt]; [done|]. rewrite lookup_app_l in Ha by done.
  apply list_elem_of_lookup_2 in Ha. pose proof (StronglySorted_app_1_elem_of _ _ _ a p Hs Ha ltac:(left)). lia.
Qed.

Lemma needed_queued ns st ps q j r : inv ns st ps q -> rank_at pair_rank (syms_at st ps) j = Some r ->
  exists a, ps !! j = Some a /\ entry_of st r a ∈ q_items q.
Proof.
  intros [_ Hq _] (a & b & Ha & Hab & Hr)%syms_rank_at. exists a. split; [done|].
  unfold queued in Hq. rewrite Forall_forall in Hq. by apply (Hq _ Hab).
Qed.

(** The popped entry, when up to date, is the best pair. *)
Lemma popped_best ns st l1 p q l3 qu m qu' : inv ns st (l1 ++ p :: q :: l3) qu -> q_pop qu = Some (m, qu') ->
  m_pos m = p -> snext st !!! p = q -> valid st m ->
  best_pair (syms_at st (l1 ++ p :: q :: l3)) = Some (m_rank m, length l1).
Proof.
  intros Hinv Hpop Hm Hn (_ & _ & _ & _ & Hrk). rewrite Hm, Hn in Hrk. apply best_pair_is; [by apply rank_at_middle|].
  intros j r' Hj. destruct (needed_queued _ _ _ _ _ _ Hinv Hj) as (a & Ha & Hin).
  apply q_pop_some in Hpop as [HP Hmin]. rewrite HP in Hin.
  assert (merge_le m (entry_of st r' a) = true) as Hle.
  { apply elem_of_cons in Hin as [<- |Hin]; [apply merge_le_spec; cbn; lia|]. rewrite Forall_forall in Hmin. by apply Hmin. }
  apply merge_le_spec in Hle. cbn in Hle. rewrite Hm in Hle. destruct Hle as [|[-> Hpa]]; [by left|right]. split; [done|].
  by apply (sorted_index (l1 ++ p :: q :: l3) l1 p (q :: l3) j a); [apply (inv_chain _ _ _ _ Hinv)|..].
Qed.

(** ** The loop *)

Lemma loop_spec fuel ns st ps (q : Q) n : inv ns st ps q ->
  (length (q_items q) + 2 * length ps <= fuel)%nat -> (length ps <= n)%nat ->
  exists st', bpe_loop merge_ranks guard fuel st q = Some st' /\
    live_symbols st' = bpe_ref_of pair_rank n (syms_at st ps).
Proof.
  revert st ps q n. induction fuel as [|f IH]; intros st ps q n Hinv Hf Hn; cbn [bpe_loop];
    destruct (q_pop q) as [[m q']|] eqn:Hpop.
  2, 4: exists st; split; [done|]; rewrite (live_symbols_chain _ _ _ (inv_chain _ _ _ _ Hinv)); symmetry;
        apply bpe_ref_stop, best_pair_none; intros j; destruct (rank_at _ _ j) as [r|] eqn:Hr; [|done];
        destruct (needed_queued _ _ _ _ _ _ Hinv Hr) as (a & _ & Hin); rewrite (q_pop_none _ Hpop) in Hin;
        by apply elem_of_nil in Hin.
  - apply q_pop_some in Hpop as [HP _]. rewrite HP in Hf. simpl in Hf. lia.
  - pose proof (proj1 (q_pop_some _ _ _ Hpop)) as HP. rewrite HP in Hf. cbn [length] in Hf.
    destruct (step_cases st m q') as [[Hv ->]|[Hv ->]].
    + destruct (valid_split _ _ _ _ _ _ Hinv Hpop Hv) as (l1 & l3 & Hps).
      set (p := m_pos m) in *. set (nx := snext st !!! p) in *. subst ps.
      pose proof (popped_best _ _ _ _ _ _ _ _ _ Hinv Hpop eq_refl eq_refl Hv) as Hbest.
      pose proof (inv_merge _ _ _ _ _ _ _ _ _ Hinv Hpop eq_refl) as Hinv'.
      destruct (push_around_items (unite st p nx) p q') as (new & Pn & Ln & _).
      rewrite !length_app in Hf, Hn. simpl in Hf, Hn. destruct n as [|n]; [lia|].
      destruct (IH _ _ _ n Hinv') as (st' & E & Hl).
      { rewrite Pn, !length_app. simpl. lia. } { rewrite length_app. simpl. lia. }
      exists st'. split; [done|]. rewrite Hl, (syms_unite _ _ _ _ _ _ (inv_chain _ _ _ _ Hinv)).
      by rewrite (bpe_ref_step _ _ _ _ _ Hbest).
    + apply IH; [by eapply inv_stale|lia|done].
Qed.

(** ** The start *)

Lemma seq_sorted a n : StronglySorted lt (seq a n).
Proof.
  revert a. induction n as [|n IH]; intros a; constructor; [apply IH|]. apply Forall_forall. intros x Hx.
  rewrite elem_of_seq in Hx. lia.
Qed.

Lemma fmap_seq_total {B} `{Inhabited B} (f : nat -> B) n i : (i < n)%nat -> (f <$> seq 0 n) !!! i = f i.
Proof. intros Hi. apply list_lookup_total_correct. by rewrite list_lookup_fmap, lookup_seq_lt. Qed.

Lemma init_seg syms a n : (a + n = length syms)%nat -> seg (bpe_init syms) (Z.of_nat a - 1) (seq a n) (length syms).
Proof.
  revert a. induction n as [|n IH]; intros a Han; [done|]. cbn [seq seg]. split.
  - split; cbn; [by rewrite fmap_seq_total by lia| |by apply lookup_total_replicate_2; lia].
    rewrite fmap_seq_total by lia. destruct n; cbn; unfold id; lia.
  - replace (Z.of_nat a) with (Z.of_nat (S a) - 1) by lia. apply IH. lia.
Qed.

Lemma init_chain syms : chain (length syms) (bpe_init syms) (seq 0 (length syms)).
Proof.
  split.
  - split; cbn; by rewrite ?length_fmap, ?length_seq, ?length_replicate.
  - by apply (init_seg syms 0).
  - apply seq_sorted.
  - apply Forall_forall. intros x Hx. rewrite elem_of_seq in Hx. lia.
  - intros p Hp _. rewrite elem_of_seq. lia.
Qed.

Lemma fold_push_items st ids (q : Q) :
  exists new, q_items (foldl (fun q i => push_pair merge_ranks st i (snext st !!! i) q) q ids) ≡ₚ new ++ q_items q /\
  (length new <= length ids)%nat /\ Forall (fun m => m_pos m ∈ ids) new /\
  forall i rk, i ∈ ids -> pair_rank (symbols st !!! i) (symbols st !!! (snext st !!! i)) = Some rk -> entry_of st rk i ∈ new.
Proof.
  revert q. induction ids as [|i ids IH]; intros q.
  - exists []. split_and!; [done|done|done|by intros ?? []%elem_of_nil].
  - cbn [foldl]. destruct (push_pair_items st i (snext st !!! i) q) as (n1 & P1 & L1 & F1 & E1).
    destruct (IH (push_pair merge_ranks st i (snext st !!! i) q)) as (n2 & P2 & L2 & F2 & E2).
    exists (n2 ++ n1). split_and!.
    + by rewrite P2, P1, app_assoc.
    + rewrite length_app. simpl. lia.
    + apply Forall_app. split; (eapply Forall_impl; [eassumption|]); [by right|]. intros m ->. left.
    + intros j rk [-> |Hj]%elem_of_cons Hrk; apply elem_of_app; [right; by apply E1|left; by apply E2].
Qed.

Lemma adj_seq_elem a n x y : (x, y) ∈ adj (seq a n) -> y = S x /\ (a <= x)%nat /\ (S x < a + n)%nat.
Proof.
  revert a. induction n as [|n IH]; intros a Hxy; [by apply elem_of_nil in Hxy|]. destruct n as [|n]; [by apply elem_of_nil in Hxy|].
  cbn [seq adj] in Hxy. apply elem_of_cons in Hxy as [[= -> ->]|Hxy]; [lia|]. apply (IH (S a)) in Hxy. lia.
Qed.

Lemma init_inv syms : inv (length syms) (bpe_init syms) (seq 0 (length syms)) (bpe_queue (Q := Q) merge_ranks (bpe_init syms)) /\
  (length (q_items (bpe_queue (Q := Q) merge_ranks (bpe_init syms))) <= length syms)%nat.
Proof.
  unfold bpe_queue. destruct (fold_push_items (bpe_init syms) (seq 0 (length (symbols (bpe_init syms)) - 1)) q_empty)
    as (new & P & L & F & E). rewrite q_items_empty, app_nil_r in P. rewrite length_seq in L. cbn [symbols bpe_init] in L, F, E, P.
  split; [|cbn [symbols bpe_init]; rewrite P; lia]. split; [apply init_chain| |].
  - apply Forall_forall. intros [a b] (-> & _ & Hb)%adj_seq_elem r Hrk. cbn [fst snd symbols bpe_init] in *. rewrite P.
    apply E; [rewrite elem_of_seq; lia|]. cbn [snext bpe_init symbols]. rewrite fmap_seq_total by lia. exact Hrk.
  - cbn [symbols bpe_init]. rewrite P. eapply Forall_impl; [exact F|]. intros m Hm. cbn in Hm. rewrite elem_of_seq in Hm. lia.
Qed.

Lemma syms_at_seq syms : syms_at (bpe_init syms) (seq 0 (length syms)) = syms.
Proof.
  apply list_eq. intros i. unfold syms_at. rewrite list_lookup_fmap. cbn [symbols bpe_init].
  destruct (decide (i < length syms)%nat) as [Hi|Hi].
  - rewrite lookup_seq_lt by done. cbn. by rewrite list_lookup_lookup_total_lt.
  - rewrite lookup_seq_ge, lookup_ge_None_2 by lia. done.
Qed.

Lemma bpe_merge_ref syms : bpe_merge (Q := Q) merge_ranks guard syms = Some (bpe_ref pair_rank syms).
Proof.
  destruct (init_inv syms) as [Hinv Hlen]. unfold bpe_merge, bpe_ref. cbv zeta.
  destruct (loop_spec (3 * length syms) _ _ _ _ (length syms) Hinv) as (st' & -> & Hl); rewrite ?length_seq; [lia|done|].
  cbn. by rewrite Hl, syms_at_seq.
Qed.
End refine.

(** ** The reference *)

Section reference.
Context (rank : list Z -> list Z -> option Z).

Lemma best_pair_split l r i : best_pair rank l = Some (r, i) ->
  exists l1 a b l2, l = l1 ++ a :: b :: l2 /\ length l1 = i /\ rank a b = Some r.
Proof.
  intros H%best_pair_some. unfold rank_at in H. destruct (l !! i) as [a|] eqn:Ha; [|done].
  destruct (l !! S i) as [b|] eqn:Hb; [|done]. apply list_elem_of_split_length in Ha as (l1 & l2 & -> & ->).
  rewrite lookup_app_r in Hb by lia. replace (S (length l1) - length l1)%nat with 1%nat in Hb by lia.
  destruct l2 as [|x l2]; [done|]. cbn in Hb. simplify_eq. by exists l1, a, b, l2.
Qed.

(** Merging never changes the text, ends, and keeps what merges keep. *)
Lemma bpe_ref_of_spec n l (P : list Z -> Prop) : (length l <= n)%nat -> Forall P l ->
  (forall a b r, P a -> P b -> rank a b = Some r -> P (a ++ b)) ->
  let r := bpe_ref_of rank n l in
  concat r = concat l /\ best_pair rank r = None /\ Forall P r.
Proof.
  intros Hn HP Hg. revert l Hn HP. induction n as [|n IH]; intros l Hn HP; cbv zeta.
  - destruct l; [done|simpl in Hn; lia].
  - destruct (best_pair rank l) as [[r i]|] eqn:E.
    + rewrite (bpe_ref_step _ _ _ _ _ E). destruct (best_pair_split _ _ _ E) as (l1 & a & b & l2 & -> & <- & Hr).
      rewrite merge_at_app. apply Forall_app in HP as [HP1 [Ha [Hb HP2]%Forall_cons]%Forall_cons].
      rewrite length_app in Hn. simpl in Hn.
      destruct (IH (l1 ++ (a ++ b) :: l2)) as (Hc & Hd & HP'); [rewrite length_app; simpl; lia| |].
      { apply Forall_app. split; [done|]. constructor; [|done]. by apply (Hg _ _ r). }
      split_and!; [|done|done]. rewrite Hc, !concat_app. simpl. by rewrite <- (app_assoc a b).
    + by rewrite bpe_ref_stop.
Qed.

Lemma bpe_ref_done l : best_pair rank (bpe_ref rank l) = None /\ concat (bpe_ref rank l) = concat l.
Proof.
  destruct (bpe_ref_of_spec (length l) l (fun _ => True) (le_n _)) as (Hc & Hn & _); [by apply Forall_forall|done|by split].
Qed.

Lemma bpe_ref_concat l : concat (bpe_ref rank l) = concat l.
Proof. apply bpe_ref_done. Qed.
End reference.
