(* ===== verification/Spm.v ===== *)
(** * The SentencePiece merge loop

    The loop of [Tokenizer::encode_spm] ([src/model/tokenizer.cpp]).  It shares
    the arrays of the byte-level loop ([Bpe]); a candidate carries the score of
    the merged token and the sequence numbers of both symbols, and is stale when
    either changed.  It computes the same reference with the rank of a pair the
    negated score of the merged token. *)

From Corelib Require Import ssreflect_rw.
From stdpp Require Import prelude list gmap sorting.
From S2P Require Import Prelude TokenText Bpe BpeRefine.
Open Scope Z_scope.

(** Scores are finite floats, compared and never computed with: a score is given
    as its value times [2^149], which is an integer. *)
Record MergeCand := Cand { c_score : Z; c_pos : nat; c_seq : nat; c_rseq : nat }.

#[export] Instance cand_eq_dec : EqDecision MergeCand.
Proof. solve_decision. Defined.

(** The highest score first, then the lowest position. *)
Definition cand_le (a b : MergeCand) : bool :=
  (c_score b <? c_score a) || (c_score a =? c_score b) && (c_pos a <=? c_pos b)%nat.

Lemma cand_le_spec a b : cand_le a b = true <-> c_score b < c_score a \/ c_score a = c_score b /\ (c_pos a <= c_pos b)%nat.
Proof. unfold cand_le. by rewrite orb_true_iff, andb_true_iff, Z.ltb_lt, Z.eqb_eq, Nat.leb_le. Qed.

Lemma cand_le_trans a b c : cand_le a b = true -> cand_le b c = true -> cand_le a c = true.
Proof. rewrite !cand_le_spec. lia. Qed.

Lemma cand_le_total a b : cand_le a b = false -> cand_le b a = true.
Proof.
  intros Hn. apply cand_le_spec. destruct (decide (cand_le a b = true)) as [|Hf]; [congruence|].
  rewrite cand_le_spec in Hf. lia.
Qed.

Notation CandQueue := (PriorityQueue cand_le).
#[export] Instance cand_queue : CandQueue (list MergeCand) := list_priority_queue cand_le cand_le_trans cand_le_total.

Section spm.
Context {Q : Type} `{CandQueue Q} (token_to_id : gmap (list Z) Z) (scores : list Z).

Definition push_cand (st : bpe) (l r : nat) (q : Q) : Q :=
  match token_to_id !! ((symbols st !!! l) ++ (symbols st !!! r)) with
  | Some id => q_push (Cand (scores !!! Z.to_nat id) l (sseq st !!! l) (sseq st !!! r)) q
  | None => q
  end.

Definition spm_queue (st : bpe) : Q :=
  foldl (fun q i => push_cand st i (snext st !!! i) q) q_empty (seq 0 (length (symbols st) - 1)).

Definition push_cands (st : bpe) (pos : nat) (q : Q) : Q :=
  let lp := sprev st !!! pos in
  let q1 := if 0 <=? lp then push_cand st (Z.to_nat lp) pos q else q in
  let nx := snext st !!! pos in
  if (nx <? length (symbols st))%nat then push_cand st pos nx q1 else q1.

Definition spm_step (st : bpe) (m : MergeCand) (q : Q) : bpe * Q :=
  let pos := c_pos m in
  if (sdel st !!! pos) || negb (sseq st !!! pos =? c_seq m)%nat then (st, q) else
  let right := snext st !!! pos in
  if (length (symbols st) <=? right)%nat || (sdel st !!! right) then (st, q) else
  if negb (sseq st !!! right =? c_rseq m)%nat then (st, q) else
  let st' := unite st pos right in (st', push_cands st' pos q).

Fixpoint spm_loop (fuel : nat) (st : bpe) (q : Q) : option bpe :=
  match q_pop q with
  | None => Some st
  | Some (m, q') =>
    match fuel with O => None | S f => let '(st', q'') := spm_step st m q' in spm_loop f st' q'' end
  end.

Definition spm_merge (syms : list (list Z)) : option (list (list Z)) :=
  let st := bpe_init syms in live_symbols <$> spm_loop (3 * length syms) st (spm_queue st).
End spm.

(** The rank of a pair: the better the score the lower. *)
Definition spm_rank (token_to_id : gmap (list Z) Z) (scores : list Z) (a b : list Z) : option Z :=
  (fun id => - (scores !!! Z.to_nat id)) <$> token_to_id !! (a ++ b).

(** ** The loop computes the reference *)

Section refine.
Context {Q : Type} `{CandQueue Q} (token_to_id : gmap (list Z) Z) (scores : list Z).
Notation rank := (spm_rank token_to_id scores).

Definition cand_of (st : bpe) (r : Z) (p q : nat) : MergeCand := Cand (- r) p (sseq st !!! p) (sseq st !!! q).

Definition queued_cands (st : bpe) (ps : list nat) (items : list MergeCand) : Prop :=
  Forall (fun pq => forall r, rank (symbols st !!! pq.1) (symbols st !!! pq.2) = Some r -> cand_of st r pq.1 pq.2 ∈ items) (adj ps).

(** What an entry still says: its sequence numbers are not from the future, and
    when both are current it is the score of the pair. *)
Definition honest (ns : nat) (st : bpe) (m : MergeCand) : Prop :=
  (c_pos m < ns)%nat /\ (c_seq m <= sseq st !!! c_pos m)%nat /\
  (sdel st !!! c_pos m = false -> sseq st !!! c_pos m = c_seq m ->
   let right := snext st !!! c_pos m in
   (right < ns)%nat /\ (c_rseq m <= sseq st !!! right)%nat /\
   (sseq st !!! right = c_rseq m -> rank (symbols st !!! c_pos m) (symbols st !!! right) = Some (- c_score m))).

Record spm_inv (ns : nat) (st : bpe) (ps : list nat) (q : Q) : Prop := {
  spm_chain : chain ns st ps;
  spm_queued : queued_cands st ps (q_items q);
  spm_honest : Forall (honest ns st) (q_items q)
}.

Lemma push_cand_items st l r (q : Q) : exists new, q_items (push_cand token_to_id scores st l r q) ≡ₚ new ++ q_items q /\
  (length new <= 1)%nat /\
  (forall rk, rank (symbols st !!! l) (symbols st !!! r) = Some rk -> new = [cand_of st rk l r]) /\
  (rank (symbols st !!! l) (symbols st !!! r) = None -> new = []).
Proof.
  unfold push_cand, spm_rank. destruct (token_to_id !! _) as [id|] eqn:E.
  - exists [Cand (scores !!! Z.to_nat id) l (sseq st !!! l) (sseq st !!! r)]. split_and!; [apply q_items_push|done| |done].
    intros rk [= <-]. unfold cand_of. by rewrite Z.opp_involutive.
  - exists []. by split_and!; [|simpl; lia| |].
Qed.

(** Every new entry is one of the pairs pushed. *)
Lemma push_cand_only st l r (q : Q) m : m ∈ q_items (push_cand token_to_id scores st l r q) ->
  m ∈ q_items q \/ exists rk, rank (symbols st !!! l) (symbols st !!! r) = Some rk /\ m = cand_of st rk l r.
Proof.
  destruct (push_cand_items st l r q) as (new & P & _ & Hs & Hn). rewrite P, elem_of_app. intros [Hm|Hm]; [right|by left].
  destruct (rank _ _) as [rk|]; [|rewrite Hn in Hm by done; by apply elem_of_nil in Hm].
  rewrite (Hs rk) in Hm by done. apply list_elem_of_singleton in Hm. eauto.
Qed.

Lemma push_cand_keeps st l r (q : Q) m : m ∈ q_items q -> m ∈ q_items (push_cand token_to_id scores st l r q).
Proof. destruct (push_cand_items st l r q) as (new & P & _). rewrite P, elem_of_app. by right. Qed.

Lemma push_cand_has st l r (q : Q) rk : rank (symbols st !!! l) (symbols st !!! r) = Some rk ->
  cand_of st rk l r ∈ q_items (push_cand token_to_id scores st l r q).
Proof.
  intros Hr. destruct (push_cand_items st l r q) as (new & P & _ & Hs & _). rewrite P, (Hs rk Hr). left.
Qed.

Lemma push_cand_length st l r (q : Q) :
  (length (q_items (push_cand token_to_id scores st l r q)) <= S (length (q_items q)))%nat.
Proof. destruct (push_cand_items st l r q) as (new & P & L & _). rewrite P, length_app. lia. Qed.

(** A pushed pair is honest. *)
Lemma cand_honest ns st l r rk : (l < ns)%nat -> snext st !!! l = r -> (r < ns)%nat ->
  rank (symbols st !!! l) (symbols st !!! r) = Some rk -> honest ns st (cand_of st rk l r).
Proof. intros Hl <- Hr Hrk. split_and!; [done|done|]. intros _ _. cbn. by rewrite Z.opp_involutive. Qed.

(** An old entry stays honest across a merge. *)
Lemma honest_unite ns st l1 p q l3 m : chain ns st (l1 ++ p :: q :: l3) -> honest ns st m -> honest ns (unite st p q) m.
Proof.
  intros Hch (Hpos & Hseq & Hlive). destruct (chain_distinct _ _ _ _ _ _ Hch) as ((Hpn & Hqn & Hpq) & _).
  destruct (chain_wf _ _ _ Hch) as [W1 W2 W3 W4 W5].
  assert (sseq (unite st p q) !!! p = S (sseq st !!! p)) as Hsp by (cbn; by rewrite list_lookup_total_insert_eq by (by rewrite W5)).
  destruct (decide (c_pos m = p)) as [Hp|Hp].
  { split_and!; [done|rewrite Hp, Hsp in *; lia|]. intros _ He. rewrite Hp, Hsp in *. lia. }
  unfold honest. rewrite !(unite_seq_ne st p q (c_pos m)), (unite_symbols_ne st p q (c_pos m)) by done.
  split_and!; [done|done|]. intros Hd He.
  destruct (decide (c_pos m = q)) as [Hq|Hq].
  { cbn in Hd. rewrite Hq, list_lookup_total_insert_eq in Hd by (by rewrite W4). done. }
  cbn [sdel unite] in Hd. rewrite list_lookup_total_insert_ne in Hd by done.
  destruct (Hlive Hd He) as (Hr & Hle & Hrk). cbv zeta in *.
  replace (snext (unite st p q) !!! c_pos m) with (snext st !!! c_pos m) by (cbn; by rewrite list_lookup_total_insert_ne).
  destruct (decide (snext st !!! c_pos m = p)) as [Hsn|Hsn].
  - rewrite Hsn in *. rewrite Hsp. split_and!; [done|lia|]. lia.
  - by rewrite (unite_seq_ne st p q _ Hsn), (unite_symbols_ne st p q _ Hsn).
Qed.

(** ** One step *)

Definition fresh (st : bpe) (m : MergeCand) : Prop :=
  sdel st !!! c_pos m = false /\ sseq st !!! c_pos m = c_seq m /\
  (snext st !!! c_pos m < length (symbols st))%nat /\ sdel st !!! (snext st !!! c_pos m) = false /\
  sseq st !!! (snext st !!! c_pos m) = c_rseq m.

Lemma spm_step_cases st m (q : Q) :
  fresh st m /\ spm_step token_to_id scores st m q =
    (unite st (c_pos m) (snext st !!! c_pos m), push_cands token_to_id scores (unite st (c_pos m) (snext st !!! c_pos m)) (c_pos m) q) \/
  ~ fresh st m /\ spm_step token_to_id scores st m q = (st, q).
Proof.
  unfold fresh, spm_step. cbv zeta. destruct (sdel st !!! c_pos m) eqn:E1; [by right; split; [intros [? _]|]|].
  destruct (Nat.eqb_spec (sseq st !!! c_pos m) (c_seq m)) as [E2|]; [|right; cbn; by split; [naive_solver|]]. cbn [orb negb].
  destruct (Nat.leb_spec (length (symbols st)) (snext st !!! c_pos m)); [right; cbn; split; [naive_solver lia|done]|]. cbn [orb].
  destruct (sdel st !!! (snext st !!! c_pos m)) eqn:E4; [right; split; [naive_solver|done]|].
  destruct (Nat.eqb_spec (sseq st !!! (snext st !!! c_pos m)) (c_rseq m)); cbn [negb]; [by left|right; split; [naive_solver|done]].
Qed.

Lemma needed_fresh ns st ps a b r : chain ns st ps -> (a, b) ∈ adj ps -> fresh st (cand_of st r a b).
Proof.
  intros Hch Hab. destruct (adj_node _ _ _ _ _ Hch Hab) as (H1 & H2 & H3 & H4). unfold fresh. cbn.
  rewrite H2, (wf_symbols _ _ (chain_wf _ _ _ Hch)). done.
Qed.

Lemma spm_stale ns st ps q m q' : spm_inv ns st ps q -> q_pop q = Some (m, q') -> ~ fresh st m -> spm_inv ns st ps q'.
Proof.
  intros [Hch Hq Hh] Hpop Hv. apply q_pop_some in Hpop as [HP _]. split; [done| |].
  - apply Forall_forall. intros [a b] Hab r Hrk. unfold queued_cands in Hq. rewrite Forall_forall in Hq.
    specialize (Hq _ Hab r Hrk). rewrite HP in Hq. apply elem_of_cons in Hq as [<- |]; [|done].
    by edestruct Hv; eapply needed_fresh.
  - rewrite HP in Hh. by apply Forall_cons in Hh as [].
Qed.

Lemma fresh_split ns st ps m : chain ns st ps -> honest ns st m -> fresh st m ->
  exists l1 l3, ps = l1 ++ c_pos m :: (snext st !!! c_pos m) :: l3.
Proof. intros Hch (Hp & _) (V1 & _ & V3 & _). by apply (live_split ns). Qed.

Lemma spm_rank_at st ps q j r ns : spm_inv ns st ps q -> rank_at rank (syms_at st ps) j = Some r ->
  exists a b, ps !! j = Some a /\ cand_of st r a b ∈ q_items q.
Proof.
  intros [_ Hq _] (a & b & Ha & Hab & Hr)%syms_rank_at. exists a, b. split; [done|].
  unfold queued_cands in Hq. rewrite Forall_forall in Hq. by apply (Hq _ Hab).
Qed.

Lemma spm_popped_best ns st l1 p q l3 qu m qu' : spm_inv ns st (l1 ++ p :: q :: l3) qu -> q_pop qu = Some (m, qu') ->
  c_pos m = p -> snext st !!! p = q -> fresh st m ->
  best_pair rank (syms_at st (l1 ++ p :: q :: l3)) = Some (- c_score m, length l1).
Proof.
  intros Hinv Hpop Hm Hn (V1 & V2 & _ & _ & V5). rewrite Hm, Hn in *. pose proof (q_pop_some _ _ _ Hpop) as [HP Hmin].
  assert (rank (symbols st !!! p) (symbols st !!! q) = Some (- c_score m)) as Hrk.
  { pose proof (spm_honest _ _ _ _ Hinv) as Hh. rewrite HP in Hh. apply Forall_cons in Hh as [(_ & _ & Hh) _].
    rewrite Hm, Hn in Hh. by apply Hh. }
  apply best_pair_is; [by apply rank_at_middle|]. intros j r' Hj.
  destruct (spm_rank_at _ _ _ _ _ _ Hinv Hj) as (a & b & Ha & Hin). rewrite HP in Hin.
  assert (cand_le m (cand_of st r' a b) = true) as Hle.
  { apply elem_of_cons in Hin as [<- |Hin]; [apply cand_le_spec; lia|]. rewrite Forall_forall in Hmin. by apply Hmin. }
  apply cand_le_spec in Hle. cbn in Hle. rewrite Hm in Hle. destruct Hle as [|[Heq Hpa]]; [left; lia|right]. split; [lia|].
  by apply (sorted_index (l1 ++ p :: q :: l3) l1 p (q :: l3) j a); [apply (spm_chain _ _ _ _ Hinv)|..].
Qed.

(** The entries after the pushes around [p]. *)
Lemma push_cands_items st p (q : Q) :
  let out := q_items (push_cands token_to_id scores st p q) in
  let lp := Z.to_nat (sprev st !!! p) in let nx := snext st !!! p in
  (length out <= 2 + length (q_items q))%nat /\ (forall m, m ∈ q_items q -> m ∈ out) /\
  (0 <= sprev st !!! p -> forall rk, rank (symbols st !!! lp) (symbols st !!! p) = Some rk -> cand_of st rk lp p ∈ out) /\
  ((nx < length (symbols st))%nat -> forall rk, rank (symbols st !!! p) (symbols st !!! nx) = Some rk -> cand_of st rk p nx ∈ out) /\
  (forall m, m ∈ out -> m ∈ q_items q \/ exists rk,
     0 <= sprev st !!! p /\ rank (symbols st !!! lp) (symbols st !!! p) = Some rk /\ m = cand_of st rk lp p \/
     (nx < length (symbols st))%nat /\ rank (symbols st !!! p) (symbols st !!! nx) = Some rk /\ m = cand_of st rk p nx).
Proof.
  cbv zeta. unfold push_cands. cbv zeta. set (lp := Z.to_nat (sprev st !!! p)). set (nx := snext st !!! p).
  set (q1 := if 0 <=? sprev st !!! p then push_cand token_to_id scores st lp p q else q).
  assert ((length (q_items q1) <= S (length (q_items q)))%nat /\ (forall m, m ∈ q_items q -> m ∈ q_items q1) /\
    (0 <= sprev st !!! p -> forall rk, rank (symbols st !!! lp) (symbols st !!! p) = Some rk -> cand_of st rk lp p ∈ q_items q1) /\
    (forall m, m ∈ q_items q1 -> m ∈ q_items q \/ exists rk,
       0 <= sprev st !!! p /\ rank (symbols st !!! lp) (symbols st !!! p) = Some rk /\ m = cand_of st rk lp p)) as (L1 & K1 & E1 & O1).
  { unfold q1. destruct (Z.leb_spec 0 (sprev st !!! p)); split_and!; try done; try lia.
    - apply push_cand_length.
    - intros m. apply push_cand_keeps.
    - intros _ rk. apply push_cand_has.
    - intros m Hm%push_cand_only. naive_solver.
    - intros m Hm. by left. }
  clearbody q1. destruct (Nat.ltb_spec nx (length (symbols st))); split_and!; try done; try lia.
  - pose proof (push_cand_length st p nx q1). lia.
  - intros m Hm%K1. by apply push_cand_keeps.
  - intros Hge rk Hr. by apply push_cand_keeps, E1.
  - intros _ rk. apply push_cand_has.
  - intros m [Hm|Hm]%push_cand_only; [|naive_solver]. apply O1 in Hm. naive_solver.
  - intros m Hm%O1. naive_solver.
Qed.

Lemma spm_inv_merge ns st l1 p q l3 qu m qu' : spm_inv ns st (l1 ++ p :: q :: l3) qu -> q_pop qu = Some (m, qu') -> c_pos m = p ->
  spm_inv ns (unite st p q) (l1 ++ p :: l3) (push_cands token_to_id scores (unite st p q) p qu').
Proof.
  intros [Hch Hq Hh] Hpop Hm. pose proof (chain_unite _ _ _ _ _ _ Hch) as Hch'.
  destruct (chain_distinct _ _ _ _ _ _ Hch) as ((Hpn & Hqn & Hpq) & Hl1 & Hl3 & _).
  apply q_pop_some in Hpop as [HP _]. rewrite HP in Hh. apply Forall_cons in Hh as [_ Hh].
  destruct (push_cands_items (unite st p q) p qu') as (_ & Hkeep & Ep & En & Honly).
  pose proof (chain_seg _ _ _ Hch') as Hs. apply seg_app in Hs as [_ [[Npv Nnx _] _]].
  pose proof (wf_symbols _ _ (chain_wf _ _ _ Hch')) as Hlen.
  split; [done| |].
  - apply Forall_forall. intros [a b] Hab r Hrk. cbn [fst snd] in *.
    assert (forall x, (a, b) ∈ adj x -> (forall y, y ∈ x -> y <> p) -> (a, b) ∈ adj (l1 ++ p :: q :: l3) ->
            cand_of (unite st p q) r a b ∈ q_items qu') as Hfar.
    { intros x Hx Hne Hold. apply adj_elem in Hx as [Ha%Hne Hb%Hne]. unfold cand_of. rewrite !unite_seq_ne by done.
      rewrite !unite_symbols_ne in Hrk by done. unfold queued_cands in Hq. rewrite Forall_forall in Hq.
      specialize (Hq _ Hold r Hrk). rewrite HP in Hq. apply elem_of_cons in Hq as [He|]; [|done].
      rewrite <- He in Hm. done. }
    apply adj_merged in Hab as [H1|[H3|[[Hl ->]|[-> Hd]]]].
    + apply Hkeep, (Hfar l1); [done|intros y Hy; by apply Hl1|apply adj_in_ps; by left].
    + apply Hkeep, (Hfar l3); [done|intros y Hy; by apply Hl3|apply adj_in_ps; by right].
    + unfold prev_of in Npv. rewrite Hl in Npv. cbn [from_option] in Npv. rewrite Npv, Nat2Z.id in Ep.
      apply Ep; [lia|done].
    + rewrite Hd in Nnx. cbn in Nnx. unfold id in Nnx. cbv zeta in En. cbn [snext unite] in En. rewrite Nnx in En.
      apply En; [|done]. rewrite Hlen. apply Hl3. destruct l3; [done|]. cbn in Hd. simplify_eq. left.
  - apply Forall_forall. intros m' [Hin|(rk & [(Hge & Hrk & ->)|(Hlt & Hrk & ->)])]%Honly.
    + rewrite Forall_forall in Hh. eapply honest_unite; [done|by apply Hh].
    + rewrite Npv in *. unfold prev_of in *. destruct (last l1) as [x|] eqn:El; cbn [from_option] in *; [|lia].
      rewrite Nat2Z.id in *. apply last_Some in El as [k ->].
      destruct (adj_node _ _ _ x p Hch') as (_ & Hnx & _ & _).
      { rewrite <- app_assoc. cbn [app]. rewrite adj_app. apply elem_of_app. right. left. }
      apply cand_honest; [apply Hl1, elem_of_app; right; left|done..].
    + apply cand_honest; [done|done| |done]. by rewrite <- Hlen.
Qed.

(** ** The loop *)

Lemma spm_loop_spec fuel ns st ps (q : Q) n : spm_inv ns st ps q ->
  (length (q_items q) + 2 * length ps <= fuel)%nat -> (length ps <= n)%nat ->
  exists st', spm_loop token_to_id scores fuel st q = Some st' /\ live_symbols st' = bpe_ref_of rank n (syms_at st ps).
Proof.
  revert st ps q n. induction fuel as [|f IH]; intros st ps q n Hinv Hf Hn; cbn [spm_loop];
    destruct (q_pop q) as [[m q']|] eqn:Hpop.
  2, 4: exists st; split; [done|]; rewrite (live_symbols_chain _ _ _ (spm_chain _ _ _ _ Hinv)); symmetry;
        apply bpe_ref_stop, best_pair_none; intros j; destruct (rank_at _ _ j) as [r|] eqn:Hr; [|done];
        destruct (spm_rank_at _ _ _ _ _ _ Hinv Hr) as (a & b & _ & Hin); rewrite (q_pop_none _ Hpop) in Hin;
        by apply elem_of_nil in Hin.
  - apply q_pop_some in Hpop as [HP _]. rewrite HP in Hf. simpl in Hf. lia.
  - pose proof (proj1 (q_pop_some _ _ _ Hpop)) as HP. rewrite HP in Hf. cbn [length] in Hf.
    destruct (spm_step_cases st m q') as [[Hv ->]|[Hv ->]].
    + pose proof (spm_honest _ _ _ _ Hinv) as Hh. rewrite HP in Hh. apply Forall_cons in Hh as [Hh _].
      destruct (fresh_split _ _ _ _ (spm_chain _ _ _ _ Hinv) Hh Hv) as (l1 & l3 & Hps). clear Hh.
      set (p := c_pos m) in *. set (nx := snext st !!! p) in *. subst ps.
      pose proof (spm_popped_best _ _ _ _ _ _ _ _ _ Hinv Hpop eq_refl eq_refl Hv) as Hbest.
      pose proof (spm_inv_merge _ _ _ _ _ _ _ _ _ Hinv Hpop eq_refl) as Hinv'.
      destruct (push_cands_items (unite st p nx) p q') as (Ln & _).
      rewrite !length_app in Hf, Hn. simpl in Hf, Hn. destruct n as [|n]; [lia|].
      destruct (IH _ _ _ n Hinv') as (st' & E & Hl).
      { rewrite !length_app. simpl. lia. } { rewrite length_app. simpl. lia. }
      exists st'. split; [done|]. rewrite Hl, (syms_unite _ _ _ _ _ _ (spm_chain _ _ _ _ Hinv)).
      by rewrite (bpe_ref_step _ _ _ _ _ Hbest).
    + apply IH; [by eapply spm_stale|lia|done].
Qed.

Lemma fold_cand_items st ids (q : Q) :
  let out := q_items (foldl (fun q i => push_cand token_to_id scores st i (snext st !!! i) q) q ids) in
  (length out <= length ids + length (q_items q))%nat /\ (forall m, m ∈ q_items q -> m ∈ out) /\
  (forall i rk, i ∈ ids -> rank (symbols st !!! i) (symbols st !!! (snext st !!! i)) = Some rk -> cand_of st rk i (snext st !!! i) ∈ out) /\
  (forall m, m ∈ out -> m ∈ q_items q \/ exists i rk, i ∈ ids /\
     rank (symbols st !!! i) (symbols st !!! (snext st !!! i)) = Some rk /\ m = cand_of st rk i (snext st !!! i)).
Proof.
  cbv zeta. revert q. induction ids as [|i ids IH]; intros q; cbn [foldl].
  - split_and!; [simpl; lia|done|by intros ?? []%elem_of_nil|by left].
  - destruct (IH (push_cand token_to_id scores st i (snext st !!! i) q)) as (L & K & E & O).
    pose proof (push_cand_length st i (snext st !!! i) q). split_and!.
    + simpl. lia.
    + intros m Hm. by apply K, push_cand_keeps.
    + intros j rk [-> |Hj]%elem_of_cons Hrk; [by apply K, push_cand_has|by apply E].
    + intros m [Hm|(j & rk & Hj & Hr & ->)]%O.
      * apply push_cand_only in Hm as [|(rk & Hr & ->)]; [by left|]. right. exists i, rk. split_and!; [left|done..].
      * right. exists j, rk. split_and!; [by right|done..].
Qed.

Lemma spm_init_inv syms :
  let q := spm_queue (Q := Q) token_to_id scores (bpe_init syms) in
  spm_inv (length syms) (bpe_init syms) (seq 0 (length syms)) q /\ (length (q_items q) <= length syms)%nat.
Proof.
  cbv zeta. unfold spm_queue. cbn [symbols bpe_init].
  destruct (fold_cand_items (bpe_init syms) (seq 0 (length syms - 1)) q_empty) as (L & _ & E & O).
  rewrite length_seq, q_items_empty in L. cbn [length] in L. split; [|lia].
  assert (forall i, (i < length syms)%nat -> snext (bpe_init syms) !!! i = S i) as Hnx
    by (intros i Hi; cbn [snext bpe_init]; by apply fmap_seq_total).
  split; [apply init_chain| |].
  - apply Forall_forall. intros [a b] (-> & _ & Hb)%adj_seq_elem r Hrk. cbn [fst snd] in *.
    rewrite <- (Hnx a) in Hrk |- * by lia. apply E; [rewrite elem_of_seq; lia|done].
  - apply Forall_forall. intros m Hm. apply O in Hm as [Hm|(i & rk & Hi & Hr & ->)].
    + rewrite q_items_empty in Hm. by apply elem_of_nil in Hm.
    + rewrite elem_of_seq in Hi. rewrite (Hnx i) in * by lia. apply cand_honest; [lia|apply Hnx; lia|lia|done].
Qed.

Lemma spm_merge_ref syms : spm_merge (Q := Q) token_to_id scores syms = Some (bpe_ref rank syms).
Proof.
  destruct (spm_init_inv syms) as [Hinv Hlen]. unfold spm_merge, bpe_ref. cbv zeta.
  destruct (spm_loop_spec (3 * length syms) _ _ _ _ (length syms) Hinv) as (st' & -> & Hl); rewrite ?length_seq; [lia|done|].
  cbn. by rewrite Hl, syms_at_seq.
Qed.
End refine.

(** C25: both merge loops compute BPE.  Whatever the queues do with ties, the
    byte-level (and Gemma-4) loop and the SentencePiece loop end, and their
    symbols are what merging the best-ranked, leftmost adjacent pair of the symbol
    list again and again gives (rank by merge table, or by token score); no
    mergeable pair is left and the text is unchanged. *)
Theorem merge_loops_compute_bpe Q Q' `{MergeQueue Q} `{CandQueue Q'} merge_ranks guard token_to_id scores syms :
  let done rank r := best_pair rank r = None /\ concat r = concat syms in
  (exists r, bpe_merge (Q := Q) merge_ranks guard syms = Some r /\
     r = bpe_ref (pair_rank merge_ranks guard) syms /\ done (pair_rank merge_ranks guard) r) /\
  (exists r, spm_merge (Q := Q') token_to_id scores syms = Some r /\
     r = bpe_ref (spm_rank token_to_id scores) syms /\ done (spm_rank token_to_id scores) r).
Proof.
  split; eexists; (split; [apply bpe_merge_ref || apply spm_merge_ref|]); (split; [reflexivity|]);
    apply bpe_ref_done.
Qed.
