(* ===== verification/ByteLevel.v ===== *)
(** * The byte-level tokenizer

    The GPT-2 family of [Tokenizer] ([src/model/tokenizer.cpp]): loading the
    vocabulary and the merges, the special pieces that are cut out first
    ([build_special_pieces], [split_on_special]), [encode_gpt2] and
    [decode_gpt2].  The record holds what the other encoders ([Encoders]) read too. *)

From Corelib Require Import ssreflect_rw.
From stdpp Require Import prelude list gmap strings sorting.
From S2P Require Import Prelude TokenText PreTokenize Bpe.
Open Scope Z_scope.

(** The fields the encoders and decoders read.  A score is a finite float, given
    as its value times [2^149] (see [Spm]). *)
Record Tokenizer := MkTokenizer {
  vocab_ : list (list Z);
  scores_ : list Z;
  token_to_id_ : gmap (list Z) Z;
  bos_id_ : Z;
  eos_ids_ : list Z;
  merge_ranks_ : gmap (list Z) Z;
  token_types_ : list Z;
  special_pieces_ : list (list Z * Z);
  pre_tokenizer_ : string;
  add_space_prefix_ : bool
}.

Definition new_tokenizer (pre : string) : Tokenizer := MkTokenizer [] [] ∅ 1 [2] ∅ [] [] pre true.

(** ** Loading *)

(** [m[keys[i]] = i] for every [i] in order: the last of equal keys stays. *)
Definition index_keys (keys : list (list Z)) : gmap (list Z) Z :=
  foldl (fun m ik => <[ik.2 := Z.of_nat ik.1]> m) ∅ (imap pair keys).

(** [None] is the code's [false]. *)
Definition load_vocab (t : Tokenizer) (tokens : list (list Z)) (scores : list Z) (bos_id eos_id : Z) : option Tokenizer :=
  match tokens with
  | [] => None
  | _ => Some (MkTokenizer tokens (resize (length tokens) 0 scores) (index_keys tokens) bos_id [eos_id] (merge_ranks_ t)
                 (token_types_ t) (special_pieces_ t) (pre_tokenizer_ t) (add_space_prefix_ t))
  end.

Definition load_merges (t : Tokenizer) (merges : list (list Z)) : Tokenizer :=
  MkTokenizer (vocab_ t) (scores_ t) (token_to_id_ t) (bos_id_ t) (eos_ids_ t) (index_keys merges) (token_types_ t)
    (special_pieces_ t) (pre_tokenizer_ t) (add_space_prefix_ t).

Definition set_add_space_prefix (t : Tokenizer) (add : bool) : Tokenizer :=
  MkTokenizer (vocab_ t) (scores_ t) (token_to_id_ t) (bos_id_ t) (eos_ids_ t) (merge_ranks_ t) (token_types_ t)
    (special_pieces_ t) (pre_tokenizer_ t) add.

(** ** Special pieces *)

Definition has_marker (s : list Z) : bool := existsb (fun c => negb (isalnum c) && negb (c =? 95)) s.

(** CONTROL (3) and USER_DEFINED (4) tokens with a non-alphanumeric character. *)
Definition special_candidate (ty : Z) (s : list Z) : bool := ((ty =? 3) || (ty =? 4)) && has_marker s.

Definition special_candidates (types : list Z) (vocab : list (list Z)) : list (list Z * Z) :=
  omap (fun x : nat * (Z * list Z) => if special_candidate x.2.1 x.2.2 then Some (x.2.2, Z.of_nat x.1) else None)
       (imap pair (zip types vocab)).

(** The longest first; [std::sort] leaves the order of equal lengths open, and
    nothing below depends on it. *)
Definition longer (a b : list Z * Z) : Prop := (length b.1 <= length a.1)%nat.
#[export] Instance longer_dec a b : Decision (longer a b) := le_dec _ _.

Definition build_special_pieces (t : Tokenizer) : Tokenizer :=
  MkTokenizer (vocab_ t) (scores_ t) (token_to_id_ t) (bos_id_ t) (eos_ids_ t) (merge_ranks_ t) (token_types_ t)
    (merge_sort longer (special_candidates (token_types_ t) (vocab_ t))) (pre_tokenizer_ t) (add_space_prefix_ t).

Definition with_types (t : Tokenizer) (types : list Z) : Tokenizer :=
  MkTokenizer (vocab_ t) (scores_ t) (token_to_id_ t) (bos_id_ t) (eos_ids_ t) (merge_ranks_ t) types
    (special_pieces_ t) (pre_tokenizer_ t) (add_space_prefix_ t).

Definition load_token_types (t : Tokenizer) (types : list Z) : Tokenizer := build_special_pieces (with_types t types).

(** [mark_as_control]: tag one token, all others being NORMAL when no types were
    loaded. *)
Definition mark_as_control (t : Tokenizer) (id : Z) : Tokenizer :=
  if (id <? 0) || (Z.of_nat (length (vocab_ t)) <=? id) then t else
  let types := match token_types_ t with [] => replicate (length (vocab_ t)) 1 | ty => ty end in
  build_special_pieces (with_types t (<[Z.to_nat id := 3]> types)).

(** [special_id] is -1 for text. *)
Record PieceChunk := Chunk { pc_text : list Z; special_id : Z }.

(** The first piece of the list that is at the head of the text. *)
Definition find_special (specials : list (list Z * Z)) (s : list Z) : option (list Z * Z) :=
  snd <$> list_find (fun p : list Z * Z => (0 < length p.1)%nat /\ take (length p.1) s = p.1) specials.

Definition flush_text (cur : list Z) : list PieceChunk := match cur with [] => [] | _ => [Chunk cur (-1)] end.

Fixpoint split_special_of (fuel : nat) (specials : list (list Z * Z)) (cur s : list Z) : list PieceChunk :=
  match fuel, s with
  | S f, c :: t =>
    match find_special specials s with
    | Some (piece, id) => flush_text cur ++ Chunk [] id :: split_special_of f specials [] (drop (length piece) s)
    | None => split_special_of f specials (cur ++ [c]) t
    end
  | _, _ => flush_text cur
  end.

Definition split_on_special (text : list Z) (specials : list (list Z * Z)) : list PieceChunk :=
  match specials with
  | [] => flush_text text
  | _ => split_special_of (length text) specials [] text
  end.

(** ** Encoding *)

Definition pre_tokenize (t : Tokenizer) (text : list Z) : list (list Z) :=
  let named n := bool_decide (pre_tokenizer_ t = n) in
  if named "llama3" || named "llama-v3" || named "llama-bpe" then llama3_pre_tokenize text
  else if named "qwen2" || named "qwen35" then qwen2_pre_tokenize text
  else if named "o200k" || named "gpt-4o" then o200k_pre_tokenize text
  else if named "cl100k" then cl100k_pre_tokenize text
  else gpt2_pre_tokenize text.

(** The id of a symbol, or of those of its characters the vocabulary has. *)
Definition symbol_ids (t : Tokenizer) (sym : list Z) : list Z :=
  match token_to_id_ t !! sym with
  | Some id => [id]
  | None => omap (fun ch => token_to_id_ t !! ch) (chars sym)
  end.

Section encode.
Context (Q : Type) `{MergeQueue Q}.

Definition encode_chunk (t : Tokenizer) (chunk : list Z) : option (list Z) :=
  syms ← bpe_merge (Q := Q) (merge_ranks_ t) (fun _ => true) (byte_to_gpt2 <$> chunk);
  Some (concat (symbol_ids t <$> syms)).

Definition encode_piece (t : Tokenizer) (piece : PieceChunk) : option (list Z) :=
  if 0 <=? special_id piece then Some [special_id piece]
  else match pc_text piece with
       | [] => Some []
       | text => ids ← mapM (encode_chunk t) (pre_tokenize t text); Some (concat ids)
       end.

Definition encode_gpt2 (t : Tokenizer) (text : list Z) : option (list Z) :=
  match text, vocab_ t with
  | [], _ | _, [] => Some []
  | _, _ => ids ← mapM (encode_piece t) (split_on_special text (special_pieces_ t)); Some (concat ids)
  end.
End encode.

(** ** Decoding *)

Definition decode_char (ch : list Z) : list Z := match gpt2_to_byte ch with Some b => [b] | None => ch end.
Definition decode_text (piece : list Z) : list Z := concat (decode_char <$> chars piece).

Definition decode_gpt2_token (t : Tokenizer) (token : Z) : list Z :=
  if (token <? 0) || (Z.of_nat (length (vocab_ t)) <=? token) then []
  else decode_text (vocab_ t !!! Z.to_nat token).

Definition decode_gpt2 (t : Tokenizer) (tokens : list Z) : list Z := concat (decode_gpt2_token t <$> tokens).

Definition find_token (t : Tokenizer) (text : list Z) : Z := default (-1) (token_to_id_ t !! text).
