(* ===== verification/ByteRoundTrip.v ===== *)
(** * Decoding undoes byte-level encoding

    The alphabet gives every byte one character; cutting out special pieces and
    pre-tokenizing lose nothing; merging only groups characters; and the
    vocabulary maps the groups back.  So [decode_gpt2] of [encode_gpt2] is the
    text, whatever the bytes, for every vocabulary that has the 256 characters
    and whose special pieces decode to themselves. *)

From Corelib Require Import ssreflect_rw.
From stdpp Require Import prelude list gmap strings sorting.
From S2P Require Import Prelude TokenText PreTokenize PreRegex Bpe BpeRefine ByteLevel.
Open Scope Z_scope.

(** ** The alphabet *)

Definition all_bytes : list Z := Z.of_nat <$> seq 0 256.

Lemma byte_in_all b : byte b -> b ∈ all_bytes.
Proof.
  intros Hb. apply list_elem_of_fmap. exists (Z.to_nat b). unfold byte in Hb. rewrite elem_of_seq. lia.
Qed.

(** A check of all 256 bytes. *)
Lemma byte_case (P : Z -> bool) : forallb P all_bytes = true -> forall b, byte b -> P b = true.
Proof. intros H b Hb%byte_in_all%list_elem_of_In. by apply (proj1 (forallb_forall _ _) H). Qed.

Definition gpt2_char_ok (b : Z) : bool :=
  bool_decide (gpt2_to_byte (byte_to_gpt2 b) = Some b) &&
  match byte_to_gpt2 b with c :: _ => (utf8_char_len c =? length (byte_to_gpt2 b))%nat | [] => false end.

Lemma gpt2_chars_ok : forallb gpt2_char_ok all_bytes = true.
Proof. vm_compute. done. Qed.

Lemma gpt2_char b : byte b -> gpt2_to_byte (byte_to_gpt2 b) = Some b /\
  exists c t, byte_to_gpt2 b = c :: t /\ utf8_char_len c = length (byte_to_gpt2 b).
Proof.
  intros Hb. pose proof (byte_case _ gpt2_chars_ok b Hb) as Hok. apply andb_true_iff in Hok as [H1%bool_decide_eq_true H2].
  split; [done|]. destruct (byte_to_gpt2 b) as [|c t] eqn:E; [done|]. exists c, t. split; [done|]. by apply Nat.eqb_eq.
Qed.

Lemma gpt2_char_step b s : byte b -> char_step (byte_to_gpt2 b ++ s) = length (byte_to_gpt2 b).
Proof.
  intros Hb. destruct (gpt2_char b Hb) as (_ & c & t & E & Hlen). rewrite E in *. cbn [app char_step]. rewrite Hlen.
  destruct (Nat.ltb_spec (length (c :: t ++ s)) (length (c :: t))); [|done].
  simpl in *. rewrite length_app in *. lia.
Qed.

(** The text of a symbol made of whole characters. *)
Definition spelled (bs : list Z) : list Z := concat (byte_to_gpt2 <$> bs).

Lemma chars_spelled bs : Forall byte bs -> chars (spelled bs) = byte_to_gpt2 <$> bs.
Proof.
  induction 1 as [|b bs Hb _ IH]; [done|]. unfold spelled in *. cbn [fmap list_fmap concat].
  destruct (gpt2_char b Hb) as (_ & c & t & E & _). rewrite chars_cons by (by rewrite E).
  rewrite gpt2_char_step by done. by rewrite take_app_length, drop_app_length, IH.
Qed.

Lemma decode_chars bs : Forall byte bs -> concat (decode_char <$> (byte_to_gpt2 <$> bs)) = bs.
Proof.
  induction 1 as [|b bs Hb _ IH]; [done|]. cbn [fmap list_fmap concat]. unfold decode_char at 1.
  destruct (gpt2_char b Hb) as [-> _]. cbn [app]. f_equal. exact IH.
Qed.

Lemma decode_spelled bs : Forall byte bs -> decode_text (spelled bs) = bs.
Proof. intros Hb. unfold decode_text. rewrite chars_spelled by done. by apply decode_chars. Qed.

(** ** The vocabulary *)

Lemma index_keys_snoc ks k : index_keys (ks ++ [k]) = <[k := Z.of_nat (length ks)]> (index_keys ks).
Proof. unfold index_keys. rewrite imap_app, foldl_app. cbn. by rewrite Nat.add_0_r. Qed.

Lemma index_keys_sound ks k z : index_keys ks !! k = Some z ->
  exists i, z = Z.of_nat i /\ ks !! i = Some k.
Proof.
  induction ks as [|x ks IH] using rev_ind; [done|]. rewrite index_keys_snoc, lookup_insert_Some.
  intros [[-> <-]|[_ Hk]].
  - exists (length ks). split; [done|]. by rewrite list_lookup_middle.
  - destruct (IH Hk) as (i & -> & Hi). exists i. split; [done|]. by apply lookup_app_l_Some.
Qed.

Lemma index_keys_complete ks k : k ∈ ks -> is_Some (index_keys ks !! k).
Proof.
  induction ks as [|x ks IH] using rev_ind; [by intros []%elem_of_nil|]. rewrite elem_of_app, index_keys_snoc.
  intros Hk. destruct (decide (x = k)) as [-> |Hne]; [by rewrite lookup_insert_eq|]. rewrite lookup_insert_ne by done.
  apply IH. destruct Hk as [|Hk]; [done|]. apply elem_of_cons in Hk as [-> |[]%elem_of_nil]. done.
Qed.

(** A tokenizer whose maps agree with its vocabulary. *)
Record coherent (t : Tokenizer) : Prop := {
  coherent_ids : token_to_id_ t = index_keys (vocab_ t);
  coherent_specials : Forall (fun p : list Z * Z => 0 <= p.2 /\ vocab_ t !! Z.to_nat p.2 = Some p.1) (special_pieces_ t)
}.

Lemma decode_id t i s : vocab_ t !! i = Some s -> decode_gpt2_token t (Z.of_nat i) = decode_text s.
Proof.
  intros Hi. unfold decode_gpt2_token. apply lookup_lt_Some in Hi as Hlt.
  destruct (Z.ltb_spec (Z.of_nat i) 0); [lia|]. destruct (Z.leb_spec (Z.of_nat (length (vocab_ t))) (Z.of_nat i)); [lia|].
  cbn [orb]. by rewrite Nat2Z.id, (list_lookup_total_correct _ _ _ Hi).
Qed.

Lemma decode_known t s id : coherent t -> token_to_id_ t !! s = Some id -> decode_gpt2_token t id = decode_text s.
Proof. intros Hc Hs. rewrite (coherent_ids _ Hc) in Hs. apply index_keys_sound in Hs as (i & -> & Hi). by apply decode_id. Qed.

Lemma decode_app t a b : decode_gpt2 t (a ++ b) = decode_gpt2 t a ++ decode_gpt2 t b.
Proof. unfold decode_gpt2. by rewrite fmap_app, concat_app. Qed.

Lemma decode_concat t l : decode_gpt2 t (concat l) = concat (decode_gpt2 t <$> l).
Proof. induction l as [|a l IH]; [done|]. cbn [concat fmap list_fmap]. by rewrite decode_app, IH. Qed.

(** ** Cutting out the special pieces *)

Lemma chunks_concat text :
  concat (gpt2_pre_tokenize text) = text /\ concat (llama3_pre_tokenize text) = text /\
  concat (qwen2_pre_tokenize text) = text /\ concat (cl100k_pre_tokenize text) = text /\
  concat (o200k_pre_tokenize text) = text.
Proof. split_and!; apply pre_tokenizers_split; rewrite !elem_of_cons; tauto. Qed.

Section specials.
Context (specials : list (list Z * Z)).

Lemma find_special_some s piece id : find_special specials s = Some (piece, id) ->
  (piece, id) ∈ specials /\ (0 < length piece)%nat /\ take (length piece) s = piece.
Proof.
  unfold find_special. intros H. apply fmap_Some in H as ([i [p d]] & Hf & Heq). simpl in Heq. simplify_eq.
  apply list_find_Some in Hf as (Hi & [H1 H2] & _). split; [by eapply list_elem_of_lookup_2|done].
Qed.

Lemma find_special_none s piece id : find_special specials s = None -> (piece, id) ∈ specials ->
  (0 < length piece)%nat -> take (length piece) s <> piece.
Proof.
  unfold find_special. intros H%fmap_None Hin Hl Ht. apply list_find_None in H. rewrite Forall_forall in H.
  by apply (H _ Hin).
Qed.

Definition split_part (c : PieceChunk) (part : list Z) : Prop :=
  special_id c = -1 /\ pc_text c = part /\ part <> [] \/ pc_text c = [] /\ (part, special_id c) ∈ specials.

Lemma flush_parts cur : exists parts, Forall2 split_part (flush_text cur) parts /\ concat parts = cur.
Proof.
  destruct cur as [|c cur]; [by exists []|]. exists [c :: cur]. split; [|by rewrite concat_cons, app_nil_r].
  apply Forall2_cons. split; [by left|done].
Qed.

Lemma split_special_parts fuel cur s : (length s <= fuel)%nat ->
  exists parts, Forall2 split_part (split_special_of fuel specials cur s) parts /\ concat parts = cur ++ s.
Proof.
  revert cur s. induction fuel as [|f IH]; intros cur s Hl; cbn [split_special_of].
  { destruct s; [|simpl in Hl; lia]. rewrite app_nil_r. apply flush_parts. }
  destruct s as [|c s]; [rewrite app_nil_r; apply flush_parts|]. simpl in Hl.
  destruct (find_special specials (c :: s)) as [[piece id]|] eqn:E.
  - apply find_special_some in E as (Hin & Hpos & Htake). destruct (flush_parts cur) as (p1 & F1 & C1).
    destruct (IH [] (drop (length piece) (c :: s))) as (p2 & F2 & C2); [rewrite length_drop; simpl; lia|].
    exists (p1 ++ piece :: p2). split; [apply Forall2_app; [done|]; constructor; [by right|done]|].
    rewrite concat_app, concat_cons, C1, C2, app_nil_l. rewrite <- Htake at 1. by rewrite take_drop.
  - destruct (IH (cur ++ [c]) s) as (p & F & C); [lia|]. exists p. split; [done|]. by rewrite C, <- app_assoc.
Qed.

Lemma split_on_special_parts text :
  exists parts, Forall2 split_part (split_on_special text specials) parts /\ concat parts = text.
Proof. unfold split_on_special. destruct specials eqn:E; [apply flush_parts|]. rewrite <- E. by apply split_special_parts. Qed.
End specials.

Section roundtrip.
Context (Q : Type) `{MergeQueue Q} (t : Tokenizer) (Hco : coherent t).
Hypothesis Hbytes : forall b, byte b -> is_Some (token_to_id_ t !! byte_to_gpt2 b).
Hypothesis Hspecials : Forall (fun p : list Z * Z => decode_text p.1 = p.1) (special_pieces_ t).

Lemma fallback_decodes bs : Forall byte bs ->
  decode_gpt2 t (omap (fun ch => token_to_id_ t !! ch) (byte_to_gpt2 <$> bs)) = bs.
Proof.
  induction 1 as [|b bs Hb _ IH]; [done|]. cbn [fmap list_fmap]. destruct (Hbytes b Hb) as [id Hid]. simpl. rewrite Hid.
  change (decode_gpt2 t (id :: ?l)) with (decode_gpt2_token t id ++ decode_gpt2 t l). rewrite (decode_known _ _ _ Hco Hid).
  replace (byte_to_gpt2 b) with (spelled [b]) by (unfold spelled; simpl; by rewrite app_nil_r).
  rewrite decode_spelled by (by apply Forall_singleton). cbn [app]. f_equal. exact IH.
Qed.

Lemma symbol_decodes bs : Forall byte bs -> decode_gpt2 t (symbol_ids t (spelled bs)) = bs.
Proof.
  intros Hb. unfold symbol_ids. destruct (token_to_id_ t !! spelled bs) as [id|] eqn:E.
  - change (decode_gpt2 t [id]) with (decode_gpt2_token t id ++ []). rewrite app_nil_r, (decode_known _ _ _ Hco E).
    by apply decode_spelled.
  - rewrite chars_spelled by done. by apply fallback_decodes.
Qed.

Definition whole (s : list Z) : Prop := exists bs, s = spelled bs /\ Forall byte bs.

Lemma spelled_app a b : spelled (a ++ b) = spelled a ++ spelled b.
Proof. unfold spelled. by rewrite fmap_app, concat_app. Qed.

Lemma symbols_decode syms : Forall whole syms -> exists bs, Forall byte bs /\ concat syms = spelled bs /\
  decode_gpt2 t (concat (symbol_ids t <$> syms)) = bs.
Proof.
  induction 1 as [|s syms (b & -> & Hb) _ (bs & Hbs & Hc & Hd)]; [by exists []|]. exists (b ++ bs). split_and!.
  - by apply Forall_app.
  - cbn [concat]. by rewrite Hc, spelled_app.
  - cbn [fmap list_fmap concat]. by rewrite decode_app, symbol_decodes, Hd.
Qed.

Lemma chunk_round_trip chunk : Forall byte chunk ->
  exists ids, encode_chunk Q t chunk = Some ids /\ decode_gpt2 t ids = chunk.
Proof.
  intros Hb. unfold encode_chunk. rewrite bpe_merge_ref. cbn [mbind option_bind].
  destruct (bpe_ref_of_spec (pair_rank (merge_ranks_ t) (fun _ => true)) _ (byte_to_gpt2 <$> chunk) whole (le_n _)) as (Hc & _ & HP).
  - apply Forall_fmap. eapply Forall_impl; [exact Hb|]. intros b Hbb. exists [b].
    split; [unfold spelled; simpl; by rewrite app_nil_r|by apply Forall_singleton].
  - intros a b _ (ba & -> & Ha) (bb & -> & Hbb) _. exists (ba ++ bb). split; [by rewrite spelled_app|by apply Forall_app].
  - destruct (symbols_decode _ HP) as (bs & Hbs & Hs & Hd). eexists. split; [done|]. unfold bpe_ref. rewrite Hd.
    rewrite Hc in Hs. change (concat (byte_to_gpt2 <$> chunk)) with (spelled chunk) in Hs.
    apply (f_equal decode_text) in Hs. by rewrite !decode_spelled in Hs by done.
Qed.

Lemma chunks_round_trip chunks : Forall (Forall byte) chunks ->
  exists idss, mapM (encode_chunk Q t) chunks = Some idss /\ decode_gpt2 t (concat idss) = concat chunks.
Proof.
  induction 1 as [|c cs Hc _ (idss & E & Hd)]; [by exists []|]. destruct (chunk_round_trip c Hc) as (ids & Ec & Hdc).
  exists (ids :: idss). split; [apply mapM_Some; constructor; [done|by apply mapM_Some]|]. cbn [concat]. by rewrite decode_app, Hd, Hdc.
Qed.

Lemma pre_tokenize_parts text : Forall byte text ->
  concat (pre_tokenize t text) = text /\ Forall (Forall byte) (pre_tokenize t text).
Proof.
  intros Hb. assert (concat (pre_tokenize t text) = text) as Hc.
  { destruct (chunks_concat text) as (H1 & H2 & H3 & H4 & H5). unfold pre_tokenize. cbv zeta. by repeat case_match. }
  split; [done|]. apply Forall_forall. intros chunk Hin. rewrite <- Hc in Hb. apply Forall_concat in Hb.
  rewrite Forall_forall in Hb. by apply Hb.
Qed.

Lemma piece_round_trip c part : split_part (special_pieces_ t) c part -> Forall byte part ->
  exists ids, encode_piece Q t c = Some ids /\ decode_gpt2 t ids = part.
Proof.
  intros [(Hid & Htext & Hne)|(Htext & Hin)] Hb; unfold encode_piece.
  - rewrite Hid, Htext. cbn [Z.leb]. destruct part as [|c0 part]; [done|]. simpl (0 <=? -1).
    destruct (pre_tokenize_parts _ Hb) as [Hc Hbs]. destruct (chunks_round_trip _ Hbs) as (idss & -> & Hd).
    eexists. split; [done|]. by rewrite Hd.
  - pose proof (coherent_specials _ Hco) as Hs. rewrite Forall_forall in Hs, Hspecials. destruct (Hs _ Hin) as [Hge Hv].
    cbn [fst snd] in *. destruct (Z.leb_spec 0 (special_id c)); [|lia]. eexists. split; [done|].
    change (decode_gpt2 t [special_id c]) with (decode_gpt2_token t (special_id c) ++ []). rewrite app_nil_r.
    rewrite <- (Z2Nat.id (special_id c)) by done. rewrite (decode_id _ _ _ Hv). by apply (Hspecials _ Hin).
Qed.
End roundtrip.

Lemma encode_round_trip Q `{MergeQueue Q} t text : coherent t ->
  (forall b, byte b -> is_Some (token_to_id_ t !! byte_to_gpt2 b)) ->
  Forall (fun p : list Z * Z => decode_text p.1 = p.1) (special_pieces_ t) ->
  vocab_ t <> [] -> Forall byte text ->
  exists ids, encode_gpt2 Q t text = Some ids /\ decode_gpt2 t ids = text.
Proof.
  intros Hco Hbytes Hsp Hv Hb. destruct (split_on_special_parts (special_pieces_ t) text) as (parts & HF & Hc).
  assert (exists idss, mapM (encode_piece Q t) (split_on_special text (special_pieces_ t)) = Some idss /\
    decode_gpt2 t (concat idss) = concat parts) as (idss & Hm & Hd).
  { rewrite <- Hc in Hb. clear Hc. induction HF as [|ch part chs parts Hp _ IH]; [by exists []|].
    cbn [concat] in *. apply Forall_app in Hb as [Hb1 Hb2].
    destruct (IH Hb2) as (idss & E & Hd). destruct (piece_round_trip Q t Hco Hbytes Hsp _ _ Hp Hb1) as (ids & Ec & Hdc).
    exists (ids :: idss). split; [apply mapM_Some; constructor; [done|by apply mapM_Some]|]. cbn [concat].
    by rewrite decode_app, Hd, Hdc. }
  unfold encode_gpt2. destruct text as [|c text]; [by exists []|]. destruct (vocab_ t) as [|v0 vocab]; [done|].
  exists (concat idss). split; [by rewrite Hm|]. by rewrite Hd.
Qed.

(** ** A loaded tokenizer *)

Definition loaded (pre : string) (tokens merges : list (list Z)) (types : list Z) (bos eos : Z) : option Tokenizer :=
  t ← load_vocab (new_tokenizer pre) tokens [] bos eos; Some (load_token_types (load_merges t merges) types).

Lemma special_candidates_elem types vocab p : p ∈ special_candidates types vocab ->
  0 <= p.2 /\ vocab !! Z.to_nat p.2 = Some p.1.
Proof.
  unfold special_candidates. rewrite list_elem_of_omap. intros ([i [ty s]] & Hin & Hp). cbn in Hp.
  case_match; [|done]. simplify_eq. cbn. split; [lia|]. rewrite Nat2Z.id.
  apply elem_of_lookup_imap in Hin as (j & [ty' s'] & [= -> -> ->] & Hj). by apply lookup_zip_Some in Hj as [_ ?].
Qed.

Lemma loaded_coherent pre tokens merges types bos eos t : loaded pre tokens merges types bos eos = Some t ->
  coherent t /\ vocab_ t = tokens /\ tokens <> [] /\ special_pieces_ t ≡ₚ special_candidates types tokens.
Proof.
  unfold loaded, load_vocab. destruct tokens as [|v tokens]; [done|]. cbn [mbind option_bind]. intros [= <-].
  split_and!; [|done|done|apply merge_sort_Permutation]. split; [done|]. apply Forall_forall. intros p Hp.
  cbn in Hp. rewrite merge_sort_Permutation in Hp. by apply special_candidates_elem in Hp.
Qed.

(** ** The split takes the longest pieces and leaves none *)

Lemma find_special_extend specials s u : find_special specials (s ++ u) = None -> find_special specials s = None.
Proof.
  unfold find_special. rewrite !fmap_None, !list_find_None. intros Hno. eapply Forall_impl; [exact Hno|].
  intros [p d] Hn [Hl Ht]. apply Hn. split; [done|]. cbn in *. rewrite take_app_le; [done|].
  apply (f_equal length) in Ht. rewrite length_take in Ht. lia.
Qed.

Lemma find_special_nil specials : find_special specials [] = None.
Proof.
  unfold find_special. rewrite fmap_None, list_find_None. apply Forall_forall. intros [p d] _ [Hl Ht]. cbn in *.
  rewrite take_nil in Ht. subst. simpl in Hl. lia.
Qed.

Definition no_piece_inside (specials : list (list Z * Z)) (c : PieceChunk) : Prop :=
  forall k, find_special specials (drop k (pc_text c)) = None.

Lemma flush_no_piece specials cur s : (forall k, (k < length cur)%nat -> find_special specials (drop k (cur ++ s)) = None) ->
  Forall (no_piece_inside specials) (flush_text cur).
Proof.
  intros Hcur. destruct (decide (cur = [])) as [-> |Hne]; [constructor|].
  replace (flush_text cur) with [Chunk cur (-1)] by (by destruct cur). apply Forall_singleton.
  intros k. cbn [pc_text]. destruct (Nat.lt_ge_cases k (length cur)) as [Hk|Hk].
  - apply (find_special_extend _ _ s). rewrite <- drop_app_le by lia. by apply Hcur.
  - rewrite drop_ge by done. apply find_special_nil.
Qed.

Lemma split_special_none_left specials fuel cur s : (length s <= fuel)%nat ->
  (forall k, (k < length cur)%nat -> find_special specials (drop k (cur ++ s)) = None) ->
  Forall (no_piece_inside specials) (split_special_of fuel specials cur s).
Proof.
  revert cur s. induction fuel as [|f IH]; intros cur s Hl Hcur; cbn [split_special_of]; [by eapply flush_no_piece|].
  destruct s as [|c s]; [by eapply flush_no_piece|]. simpl in Hl.
  destruct (find_special specials (c :: s)) as [[piece id]|] eqn:E.
  - pose proof (find_special_some _ _ _ _ E) as (_ & Hpos & _). apply Forall_app. split; [by eapply flush_no_piece|].
    apply Forall_cons. split; [intros k; cbn [pc_text]; rewrite drop_nil; apply find_special_nil|].
    apply IH; [rewrite length_drop; simpl; lia|simpl; lia].
  - apply IH; [lia|]. intros k Hk. rewrite <- app_assoc. cbn [app]. rewrite length_app in Hk. simpl in Hk.
    destruct (decide (k = length cur)) as [-> |]; [by rewrite drop_app_length|]. apply Hcur. lia.
Qed.

Lemma split_none_left specials text : Forall (no_piece_inside specials) (split_on_special text specials).
Proof.
  unfold split_on_special. destruct specials as [|p l].
  - destruct text; [constructor|]. apply Forall_singleton. by intros k.
  - apply split_special_none_left; [done|simpl; lia].
Qed.

Lemma sorted_lookup {A} (R : relation A) (l : list A) i j x y : StronglySorted R l -> (i < j)%nat ->
  l !! i = Some x -> l !! j = Some y -> R x y.
Proof.
  intros Hs Hij Hi Hj. rewrite <- (take_drop (S i) l) in Hs. apply (StronglySorted_app_1_elem_of _ _ _ _ _ Hs).
  - apply (list_elem_of_lookup_2 _ i). by rewrite lookup_take_lt by lia.
  - apply (list_elem_of_lookup_2 _ (j - S i)). rewrite lookup_drop. by replace (S i + (j - S i))%nat with j by lia.
Qed.

Lemma find_special_longest specials s piece id : StronglySorted longer specials ->
  find_special specials s = Some (piece, id) ->
  forall p d, (p, d) ∈ specials -> take (length p) s = p -> (length p <= length piece)%nat.
Proof.
  unfold find_special. intros Hs H p d Hin Ht. apply fmap_Some in H as ([i [p0 d0]] & Hf & Heq). simpl in Heq. simplify_eq.
  apply list_find_Some in Hf as (Hi & [H1 H2] & Hmin). apply list_elem_of_lookup in Hin as [j Hj].
  destruct (Nat.lt_total i j) as [Hij|[-> |Hij]].
  - exact (sorted_lookup _ _ _ _ _ _ Hs Hij Hi Hj).
  - by simplify_eq.
  - destruct (Nat.eq_0_gt_0_cases (length p)); [lia|]. exfalso. by apply (Hmin j (p, d)).
Qed.

(** ** Properties *)

(** C24: decoding undoes encoding.  For a loaded byte-level tokenizer whose
    vocabulary has the 256 byte characters and whose special pieces decode to
    themselves, encoding any byte text ends and decoding the ids gives the text
    back, whatever the pre-tokenizer, the merges and the queue's tie order. *)
Theorem byte_round_trip Q `{MergeQueue Q} pre tokens merges types bos eos t text :
  loaded pre tokens merges types bos eos = Some t ->
  Forall (fun b => byte_to_gpt2 b ∈ tokens) all_bytes ->
  Forall (fun p : list Z * Z => decode_text p.1 = p.1) (special_candidates types tokens) ->
  Forall byte text ->
  exists ids, encode_gpt2 Q t text = Some ids /\ decode_gpt2 t ids = text.
Proof.
  intros Hl Hb Hs Ht. destruct (loaded_coherent _ _ _ _ _ _ _ Hl) as (Hco & Hv & Hne & Hsp).
  apply encode_round_trip; [done| | |by rewrite Hv|done].
  - intros b Hbb%byte_in_all. rewrite (coherent_ids _ Hco), Hv. apply index_keys_complete.
    rewrite Forall_forall in Hb. by apply Hb.
  - by rewrite Hsp.
Qed.

(** The cut at special pieces is exact: the chunks spell the text, each
    either text or the id of a piece that stands there; where a piece is taken no
    longer one begins; and no piece occurs inside a text chunk. *)
Theorem special_split_exact t text :
  let specials := special_pieces_ (build_special_pieces t) in
  let chunks := split_on_special text specials in
  (exists parts, Forall2 (split_part specials) chunks parts /\ concat parts = text) /\
  Forall (no_piece_inside specials) chunks /\
  (forall s piece id p d, find_special specials s = Some (piece, id) -> (p, d) ∈ specials ->
     take (length p) s = p -> (length p <= length piece)%nat).
Proof.
  cbv zeta. set (specials := special_pieces_ _). split_and!.
  - apply split_on_special_parts.
  - apply split_none_left.
  - intros s piece id p d Hf. apply (find_special_longest _ s _ id); [|done]. unfold specials. cbn.
    apply StronglySorted_merge_sort; unfold longer; [intros x y z; lia|intros x y; lia].
Qed.

(** The 256 byte characters, a merge and a chat marker. *)
Definition demo_tokens : list (list Z) := (byte_to_gpt2 <$> all_bytes) ++ [src_of "he"; src_of "<|im_start|>"].
Definition demo_types : list Z := replicate 257 1 ++ [3].
Definition demo_text : list Z := src_of "<|im_start|>he's here->  " ++ [195; 169; 255; 0; 10].

Definition special_plain (p : list Z * Z) : bool := bool_decide (decode_text p.1 = p.1).

Lemma forallb_Forall {A} (f : A -> bool) (P : A -> Prop) l : (forall x, f x = true -> P x) -> forallb f l = true -> Forall P l.
Proof. intros Hf Hl. apply Forall_forall. intros x Hx%list_elem_of_In. by apply Hf, (proj1 (forallb_forall f l) Hl). Qed.

Lemma demo_bytes_b : forallb (fun b => bool_decide (byte_to_gpt2 b ∈ demo_tokens)) all_bytes = true.
Proof. vm_compute. done. Qed.

Lemma demo_bytes : Forall (fun b => byte_to_gpt2 b ∈ demo_tokens) all_bytes.
Proof. apply (forallb_Forall _ _ _ (fun b => proj1 (bool_decide_eq_true _)) demo_bytes_b). Qed.

Lemma demo_specials : Forall (fun p : list Z * Z => decode_text p.1 = p.1) (special_candidates demo_types demo_tokens).
Proof. apply (forallb_Forall special_plain); [by intros p Hp%bool_decide_eq_true|]. vm_compute. done. Qed.

Definition demo_tokenizer : Tokenizer :=
  load_token_types (load_merges (default (new_tokenizer "qwen2") (load_vocab (new_tokenizer "qwen2") demo_tokens [] 1 2)) [src_of "h e"]) demo_types.

Lemma byte_round_trip_witness :
  encode_gpt2 (list merge) demo_tokenizer demo_text =
    Some [257; 256; 39; 115; 32; 256; 114; 101; 45; 62; 32; 32; 195; 169; 255; 0; 10] /\
  exists ids, encode_gpt2 (list merge) demo_tokenizer demo_text = Some ids /\ decode_gpt2 demo_tokenizer ids = demo_text.
Proof.
  split; [vm_compute; reflexivity|].
  refine (byte_round_trip (list merge) "qwen2" demo_tokens [src_of "h e"] demo_types 1 2 demo_tokenizer demo_text _ _ _ _).
  - reflexivity.
  - exact demo_bytes.
  - exact demo_specials.
  - apply bytes_b_ok. reflexivity.
Defined.

(** A user-defined token with a literal space, as the multi-space tokens
    have, does not survive: its id decodes to NUL bytes, since the space's
    codepoint is below 324 but not in the alphabet and its table entry is 0. *)
Theorem literal_space_decodes_to_nul :
  let tokens := (byte_to_gpt2 <$> all_bytes) ++ [src_of "  "] in
  exists t, loaded "gpt2" tokens [] (replicate 256 1 ++ [4]) 1 2 = Some t /\
    encode_gpt2 (list merge) t (src_of "  ") = Some [256] /\ decode_gpt2 t [256] = [0; 0].
Proof. eexists. split; [reflexivity|]. split; vm_compute; reflexivity. Qed.
