(* ===== verification/Encoders.v ===== *)
(** * The SentencePiece, Gemma-4 and WordPiece encoders

    [encode_spm], [decode_spm], [encode_gemma4] and [encode_wordpiece] of
    [src/model/tokenizer.cpp].  The first two families write a space as the
    character U+2581; bytes without a token are spelled [<0xHH>]. *)

From Corelib Require Import ssreflect_rw.
From stdpp Require Import prelude list gmap strings sorting.
From S2P Require Import Prelude TokenText PreTokenize Bpe Spm ByteLevel.
Open Scope Z_scope.

(** ** The space marker and byte tokens *)

Definition SPIECE_SPACE : list Z := [226; 150; 129].

Definition escape_spaces (s : list Z) : list Z := concat ((fun c => if c =? 32 then SPIECE_SPACE else [c]) <$> s).

(** Every marker, from the left, becomes a space. *)
Fixpoint unescape (s : list Z) : list Z :=
  match s with
  | [] => []
  | c :: t =>
    if starts_with SPIECE_SPACE s then match t with _ :: _ :: u => 32 :: unescape u | _ => [] end
    else c :: unescape t
  end.

Definition hex_char (d : Z) : Z := if d <? 10 then 48 + d else 55 + d.

(** [snprintf(buf, sizeof(buf), "<0x%02X>", b)] *)
Definition byte_token (b : Z) : list Z := [60; 48; 120; hex_char (Z.shiftr b 4); hex_char (Z.land b 15); 62].

Definition isspace (c : Z) : bool := (c =? 32) || (9 <=? c) && (c <=? 13).

Definition hex_value (c : Z) : option Z :=
  if isdigit c then Some (c - 48)
  else if (65 <=? c) && (c <=? 70) then Some (c - 55)
  else if (97 <=? c) && (c <=? 102) then Some (c - 87)
  else None.

(** [sscanf("<0x..", "<0x%02X>")] on the characters [a b] after the [x], as the
    byte it stores: [%X] skips blanks, takes a sign and a [0x] prefix, and at most
    two characters; the missing [>] does not change the count of one. *)
Definition scan_hex2 (a b : Z) : option Z :=
  if isspace a then (if isspace b then None else hex_value b)
  else if a =? 45 then (fun d => (- d) mod 256) <$> hex_value b
  else if a =? 43 then hex_value b
  else match hex_value a, hex_value b with
       | Some h, Some l => Some (16 * h + l)
       | Some h, None => Some h
       | None, _ => None
       end.

Definition byte_of_piece (piece : list Z) : option Z :=
  match piece with
  | [60; 48; 120; a; b; 62] => scan_hex2 a b
  | _ => None
  end.

(** ** SentencePiece *)

Definition decode_spm_piece (piece : list Z) : list Z :=
  let p := unescape piece in match byte_of_piece p with Some b => [b] | None => p end.

Definition decode_spm_token (t : Tokenizer) (token : Z) : list Z :=
  if (token <? 0) || (Z.of_nat (length (vocab_ t)) <=? token) then []
  else decode_spm_piece (vocab_ t !!! Z.to_nat token).

Definition decode_spm (t : Tokenizer) (tokens : list Z) : list Z := unescape (concat (decode_spm_token t <$> tokens)).

(** The id of a symbol, or of the byte tokens that exist. *)
Definition spm_symbol_ids (t : Tokenizer) (sym : list Z) : list Z :=
  match token_to_id_ t !! sym with
  | Some id => [id]
  | None => omap (fun b => token_to_id_ t !! byte_token b) sym
  end.

Definition spm_processed (t : Tokenizer) (text : list Z) (no_prefix : bool) : list Z :=
  (if add_space_prefix_ t && negb no_prefix then SPIECE_SPACE else []) ++ escape_spaces text.

Definition is_special_chunk (c : PieceChunk) : bool := 0 <=? special_id c.

Section spm.
Context (Q : Type) `{CandQueue Q}.

Definition encode_spm_body (t : Tokenizer) (text : list Z) (no_prefix : bool) : option (list Z) :=
  syms ← spm_merge (Q := Q) (token_to_id_ t) (scores_ t) (chars (spm_processed t text no_prefix));
  Some (concat (spm_symbol_ids t <$> syms)).

(** The loop over the pieces: [first] holds until something was emitted. *)
Fixpoint spm_pieces (enc : list Z -> bool -> option (list Z)) (no_prefix first : bool) (pieces : list PieceChunk) : option (list Z) :=
  match pieces with
  | [] => Some []
  | p :: rest =>
    if is_special_chunk p then cons (special_id p) <$> spm_pieces enc no_prefix false rest
    else match pc_text p with
         | [] => spm_pieces enc no_prefix first rest
         | text => sub ← enc text (negb first || no_prefix); app sub <$> spm_pieces enc no_prefix false rest
         end
  end.

Fixpoint encode_spm_of (fuel : nat) (t : Tokenizer) (text : list Z) (no_prefix : bool) : option (list Z) :=
  match fuel with
  | O => None
  | S f =>
    match text, vocab_ t with
    | [], _ | _, [] => Some []
    | _, _ =>
      let pieces := match special_pieces_ t with [] => [] | _ => split_on_special text (special_pieces_ t) end in
      if existsb is_special_chunk pieces
      then spm_pieces (encode_spm_of f t) no_prefix true pieces
      else encode_spm_body t text no_prefix
    end
  end.

(** A chunk between special pieces has none inside, so the call nests once. *)
Definition encode_spm (t : Tokenizer) (text : list Z) (no_prefix : bool) : option (list Z) := encode_spm_of 2 t text no_prefix.
End spm.

(** ** Gemma 4 *)

(** Runs of newlines and runs of anything else. *)
Definition newline_next (s : list Z) : nat :=
  if hd_is (Z.eqb 10) s then run1 (Z.eqb 10) s else run1 (fun c => negb (c =? 10)) s.

Definition gemma4_chunks : list Z -> list (list Z) := split_by newline_next.

Definition known (t : Tokenizer) (s : list Z) : bool := bool_decide (is_Some (token_to_id_ t !! s)).

(** A character's id, or its bytes'. *)
Definition gemma4_char_ids (t : Tokenizer) (ch : list Z) : list Z :=
  match token_to_id_ t !! ch with
  | Some id => [id]
  | None => omap (fun b => token_to_id_ t !! byte_token b) ch
  end.

Definition gemma4_symbol_ids (t : Tokenizer) (sym : list Z) : list Z :=
  match token_to_id_ t !! sym with
  | Some id => [id]
  | None => concat (gemma4_char_ids t <$> chars sym)
  end.

Section gemma4.
Context (Q : Type) `{MergeQueue Q}.

Definition gemma4_chunk (t : Tokenizer) (chunk : list Z) : option (list Z) :=
  syms ← bpe_merge (Q := Q) (merge_ranks_ t) (known t) (chars chunk);
  Some (concat (gemma4_symbol_ids t <$> syms)).

Definition gemma4_piece (t : Tokenizer) (p : PieceChunk) : option (list Z) :=
  if is_special_chunk p then Some [special_id p]
  else match pc_text p with
       | [] => Some []
       | text => ids ← mapM (gemma4_chunk t) (gemma4_chunks (escape_spaces text)); Some (concat ids)
       end.

Definition encode_gemma4 (t : Tokenizer) (text : list Z) : option (list Z) :=
  match text, vocab_ t with
  | [], _ | _, [] => Some []
  | _, _ => ids ← mapM (gemma4_piece t) (split_on_special text (special_pieces_ t)); Some (concat ids)
  end.
End gemma4.

(** ** WordPiece *)

Definition flush_word (cur : list Z) : list (list Z) := match cur with [] => [] | _ => [cur] end.

(** Lower-cased words, punctuation apart, multibyte characters as they are. *)
Fixpoint wp_words_of (fuel : nat) (cur s : list Z) : list (list Z) :=
  match fuel, s with
  | S f, c :: t =>
    if c <? 128 then
      let lc := tolower c in
      if isspace lc then flush_word cur ++ wp_words_of f [] t
      else if ispunct lc then flush_word cur ++ [lc] :: wp_words_of f [] t
      else wp_words_of f (cur ++ [lc]) t
    else
      let len := if 240 <=? c then 4%nat else if 224 <=? c then 3%nat else 2%nat in
      wp_words_of f (cur ++ take len s) (drop len s)
  | _, _ => flush_word cur
  end.
Definition wp_words (text : list Z) : list (list Z) := wp_words_of (length text) [] text.

Definition wp_mark (first : bool) : list Z := if first then SPIECE_SPACE else [].

(** The longest of the first [e] prefixes of [w] with a token. *)
Fixpoint wp_longest (t : Tokenizer) (first : bool) (w : list Z) (e : nat) : option (nat * Z) :=
  match e with
  | O => None
  | S e' =>
    match token_to_id_ t !! (wp_mark first ++ take e w) with
    | Some id => Some (e, id)
    | None => wp_longest t first w e'
    end
  end.

(** [None]: the word has no full segmentation ([bad]). *)
Fixpoint wp_pieces_of (fuel : nat) (t : Tokenizer) (first : bool) (w : list Z) : option (list Z) :=
  match fuel, w with
  | _, [] => Some []
  | O, _ => None
  | S f, _ =>
    '(e, id) ← wp_longest t first w (length w);
    if id <? 0 then None else cons id <$> wp_pieces_of f t false (drop e w)
  end.

Definition wp_unk (t : Tokenizer) : Z := default 100 (token_to_id_ t !! src_of "[UNK]").

Definition wp_word (t : Tokenizer) (w : list Z) : list Z := default [wp_unk t] (wp_pieces_of (length w) t true w).

Definition encode_wordpiece (t : Tokenizer) (text : list Z) : list Z := concat (wp_word t <$> wp_words text).
