(* ===== verification/SpmRoundTrip.v ===== *)
(** * Decoding the marker encoders

    [decode_spm] gives back the text [encode_spm] and [encode_gemma4] read, up to
    the marker U+2581 standing for a space.  Texts are compared up to [like]:
    equal once markers are spaces, in every context. *)

From Corelib Require Import ssreflect_rw.
From stdpp Require Import prelude list gmap strings sorting.
From S2P Require Import Prelude TokenText PreTokenize PreRegex Bpe BpeRefine Spm ByteLevel ByteRoundTrip Encoders.
Open Scope Z_scope.

(** ** Markers and spaces *)

Definition marked (s : list Z) : bool := starts_with SPIECE_SPACE s.

Lemma marked_spec s : marked s = true <-> exists u, s = SPIECE_SPACE ++ u.
Proof.
  unfold marked, starts_with. rewrite bool_decide_eq_true. split.
  - intros H. exists (drop 3 s). rewrite <- H at 1. symmetry. apply take_drop.
  - intros [u ->]. done.
Qed.

Lemma unescape_mark u : unescape (SPIECE_SPACE ++ u) = 32 :: unescape u.
Proof. done. Qed.

Lemma unescape_cons c t : marked (c :: t) = false -> unescape (c :: t) = c :: unescape t.
Proof. intros H. cbn [unescape]. unfold marked in H. by rewrite H. Qed.

(** Cutting the head of a text the way [unescape] does. *)
Lemma unescape_ind (P : list Z -> Prop) : P [] -> (forall u, P u -> P (SPIECE_SPACE ++ u)) ->
  (forall c t, marked (c :: t) = false -> P t -> P (c :: t)) -> forall s, P s.
Proof.
  intros H0 Hm Hc s. remember (length s) as n eqn:E. revert s E. induction (lt_wf n) as [n _ IH]. intros s ->.
  destruct s as [|c t]; [done|]. destruct (marked (c :: t)) eqn:Em.
  - apply marked_spec in Em as [u Hu]. rewrite Hu. apply Hm. apply (IH (length u)); [|done].
    rewrite Hu, length_app. simpl. lia.
  - apply Hc; [done|]. by apply (IH (length t)); [simpl; lia|].
Qed.

(** Equal once the markers are spaces, whatever stands around. *)
Definition like (x s : list Z) : Prop := forall a b, unescape (a ++ x ++ b) = unescape (a ++ s ++ b).

#[export] Instance like_equiv : Equivalence like.
Proof. split; [done|by intros x y H a b|]. intros x y z H1 H2 a b. by rewrite H1. Qed.

#[export] Instance app_like : Proper (like ==> like ==> like) (app (A := Z)).
Proof.
  intros x1 s1 H1 x2 s2 H2 a b. rewrite <- !app_assoc. rewrite H1.
  replace (a ++ s1 ++ x2 ++ b) with ((a ++ s1) ++ x2 ++ b) by (by rewrite <- app_assoc).
  rewrite H2. by rewrite <- app_assoc.
Qed.

Lemma like_eq x s : like x s -> unescape x = unescape s.
Proof. intros H. specialize (H [] []). cbn [app] in H. by rewrite !app_nil_r in H. Qed.

Lemma marked_cases c d e t : marked (c :: d :: e :: t) = bool_decide ([c; d; e] = SPIECE_SPACE).
Proof. done. Qed.

Lemma marked_second c d t : d <> 150 -> marked (c :: d :: t) = false.
Proof. intros Hd. apply not_true_is_false. rewrite marked_spec. by intros [u [= _ -> _]]. Qed.

Lemma marked_third c d e t : e <> 129 -> marked (c :: d :: e :: t) = false.
Proof. intros He. apply not_true_is_false. rewrite marked_spec. by intros [u [= _ _ -> _]]. Qed.

(** A marker reads as a space. *)
Lemma like_mark : like SPIECE_SPACE [32].
Proof.
  intros a b. remember (length a) as n eqn:E. revert a E. induction (lt_wf n) as [n _ IH]. intros a ->.
  destruct a as [|c a]; [cbn [app]; by rewrite unescape_mark|]. cbn [app].
  assert (unescape (a ++ SPIECE_SPACE ++ b) = unescape (a ++ 32 :: b)) as IH1 by (apply (IH (length a)); simpl; lia).
  destruct a as [|d a].
  { rewrite !(unescape_cons c); [by f_equal|by apply (marked_second c 32)|by apply (marked_second c 226)]. }
  destruct a as [|e a].
  { rewrite !(unescape_cons c); [by f_equal|by apply (marked_third c d 32)|by apply (marked_third c d 226)]. }
  cbn [app] in *. destruct (decide ([c; d; e] = SPIECE_SPACE)) as [Heq|Hne].
  - injection Heq as -> -> ->. change (226 :: 150 :: 129 :: ?x) with (SPIECE_SPACE ++ x). rewrite !unescape_mark. f_equal.
    apply (IH (length a)); [simpl; lia|done].
  - rewrite !(unescape_cons c); [by f_equal|by rewrite marked_cases; apply bool_decide_eq_false..].
Qed.

Lemma like_cons c x s : like x s -> like (c :: x) (c :: s).
Proof. intros H. change (like ([c] ++ x) ([c] ++ s)). by rewrite H. Qed.

Lemma like_unescape s : like (unescape s) s.
Proof.
  induction s as [|u IH|c t Hc IH] using unescape_ind; [done| |].
  - rewrite unescape_mark. change (32 :: unescape u) with ([32] ++ unescape u). by rewrite IH, <- like_mark.
  - rewrite unescape_cons by done. by apply like_cons.
Qed.

Lemma like_escape s : like (escape_spaces s) s.
Proof.
  induction s as [|c s IH]; [done|]. unfold escape_spaces in *. cbn [fmap list_fmap concat].
  destruct (Z.eqb_spec c 32) as [-> |]; [|by apply like_cons].
  change (32 :: s) with ([32] ++ s). by rewrite IH, like_mark.
Qed.

Lemma like_concat xs ss : Forall2 like xs ss -> like (concat xs) (concat ss).
Proof. induction 1 as [|x s xs ss Hx _ IH]; [done|]. cbn [concat]. by rewrite Hx, IH. Qed.

(** ** Byte tokens *)

Lemma byte_tokens_b : forallb (fun b => bool_decide (decode_spm_piece (byte_token b) = [b])) all_bytes = true.
Proof. vm_compute. done. Qed.

Lemma byte_token_decodes b : byte b -> decode_spm_piece (byte_token b) = [b].
Proof. intros Hb. exact (bool_decide_eq_true_1 _ (byte_case _ byte_tokens_b b Hb)). Qed.

Fixpoint occurs (p s : list Z) : bool :=
  starts_with p s || match s with [] => false | _ :: t => occurs p t end.

Definition byte_prefix : list Z := [60; 48; 120].

Lemma occurs_infix p a b : occurs p (a ++ p ++ b) = true.
Proof.
  induction a as [|c a IH]; cbn [app].
  - assert (starts_with p (p ++ b) = true) as H by (apply bool_decide_eq_true; by rewrite take_app_length).
    destruct (p ++ b); cbn [occurs]; by rewrite H.
  - cbn [occurs]. rewrite IH. apply orb_true_r.
Qed.

(** [unescape] only makes spaces, so other characters were there. *)
Lemma unescape_head s c r : c <> 32 -> unescape s = c :: r -> exists t, s = c :: t /\ unescape t = r.
Proof.
  intros Hc. destruct s as [|d t]; [done|]. destruct (marked (d :: t)) eqn:E.
  - apply marked_spec in E as [u ->]. rewrite unescape_mark. intros [= <- _]. done.
  - rewrite unescape_cons by done. intros [= -> Hr]. by exists t.
Qed.

Lemma byte_piece_prefix s b : byte_of_piece (unescape s) = Some b -> exists r, s = byte_prefix ++ r.
Proof.
  intros H. assert (exists r, unescape s = 60 :: 48 :: 120 :: r) as [r Hr].
  { unfold byte_of_piece in H. repeat (case_match; try done). simplify_eq. eauto. }
  apply unescape_head in Hr as (t1 & -> & H1); [|done]. apply unescape_head in H1 as (t2 & -> & H2); [|done].
  apply unescape_head in H2 as (t3 & -> & _); [|done]. by exists t3.
Qed.

Lemma escape_cons c s : escape_spaces (c :: s) = (if c =? 32 then SPIECE_SPACE else [c]) ++ escape_spaces s.
Proof. done. Qed.

Lemma escape_head s c r : c ∉ SPIECE_SPACE -> escape_spaces s = c :: r -> exists t, s = c :: t /\ escape_spaces t = r.
Proof.
  intros Hc. destruct s as [|d t]; [done|]. rewrite escape_cons. destruct (Z.eqb_spec d 32) as [-> |].
  - intros [= <- _]. exfalso. apply Hc. left.
  - intros [= -> Hr]. by exists t.
Qed.

Lemma ascii_not_mark c : c < 128 -> c ∉ SPIECE_SPACE.
Proof. unfold SPIECE_SPACE. rewrite !elem_of_cons, elem_of_nil. lia. Qed.

Lemma escape_starts s : starts_with byte_prefix (escape_spaces s) = true -> starts_with byte_prefix s = true.
Proof.
  intros H%bool_decide_eq_true. assert (exists r, escape_spaces s = 60 :: 48 :: 120 :: r) as [r Hr].
  { exists (drop 3 (escape_spaces s)). rewrite <- (take_drop 3 (escape_spaces s)) at 1. cbn [length byte_prefix] in H. by rewrite H. }
  apply escape_head in Hr as (t1 & -> & H1); [|by apply ascii_not_mark].
  apply escape_head in H1 as (t2 & -> & H2); [|by apply ascii_not_mark].
  apply escape_head in H2 as (t3 & -> & _); [done|by apply ascii_not_mark].
Qed.

Lemma occurs_marked u : occurs byte_prefix (SPIECE_SPACE ++ u) = occurs byte_prefix u.
Proof. done. Qed.

Lemma occurs_escape s : occurs byte_prefix (escape_spaces s) = true -> occurs byte_prefix s = true.
Proof.
  induction s as [|c s IH]; [done|]. destruct (decide (c = 32)) as [-> |Hc].
  - rewrite escape_cons. cbn [Z.eqb Pos.eqb]. rewrite occurs_marked. intros H%IH. cbn [occurs]. rewrite H. apply orb_true_r.
  - pose proof (escape_starts (c :: s)) as Hst. rewrite escape_cons in *. destruct (Z.eqb_spec c 32); [done|]. cbn [app] in *.
    cbn [occurs]. intros [H|H]%orb_true_iff; apply orb_true_iff; [left; by apply Hst|right; by apply IH].
Qed.

Lemma occurs_escape_false s : occurs byte_prefix s = false -> occurs byte_prefix (escape_spaces s) = false.
Proof. rewrite <- !not_true_iff_false. intros H E. by apply H, occurs_escape. Qed.

Lemma Forall2_impl_r {A B} (P Q : A -> B -> Prop) xs ys : Forall2 P xs ys ->
  (forall x y, y ∈ ys -> P x y -> Q x y) -> Forall2 Q xs ys.
Proof.
  induction 1 as [|x y xs ys Hxy _ IH]; intros H; constructor; [by apply H; [left|]|].
  apply IH. intros a b Hb. apply H. by right.
Qed.

(** ** Symbols *)

Section decode.
Context (t : Tokenizer) (Hco : coherent t).

Lemma decode_spm_known s id : token_to_id_ t !! s = Some id -> decode_spm_token t id = decode_spm_piece s.
Proof.
  intros Hs. rewrite (coherent_ids _ Hco) in Hs. apply index_keys_sound in Hs as (i & -> & Hi).
  unfold decode_spm_token. apply lookup_lt_Some in Hi as Hlt. destruct (Z.ltb_spec (Z.of_nat i) 0); [lia|].
  destruct (Z.leb_spec (Z.of_nat (length (vocab_ t))) (Z.of_nat i)); [lia|]. cbn [orb].
  by rewrite Nat2Z.id, (list_lookup_total_correct _ _ _ Hi).
Qed.

(** The bytes ids stand for before the last pass. *)
Definition raw (ids : list Z) : list Z := concat (decode_spm_token t <$> ids).

Lemma raw_app a b : raw (a ++ b) = raw a ++ raw b.
Proof. unfold raw. by rewrite fmap_app, concat_app. Qed.

Lemma raw_concat l : raw (concat l) = concat (raw <$> l).
Proof. induction l as [|a l IH]; [done|]. cbn [concat fmap list_fmap]. by rewrite raw_app, IH. Qed.

Hypothesis Hbytes : forall b, byte b -> is_Some (token_to_id_ t !! byte_token b).

Lemma raw_bytes bs : Forall byte bs -> raw (omap (fun b => token_to_id_ t !! byte_token b) bs) = bs.
Proof.
  induction 1 as [|b bs Hb _ IH]; [done|]. destruct (Hbytes b Hb) as [id Hid]. cbn [omap list_omap]. rewrite Hid.
  change (raw (id :: ?l)) with (decode_spm_token t id ++ raw l). rewrite (decode_spm_known _ _ Hid), byte_token_decodes by done.
  cbn [app]. f_equal. exact IH.
Qed.

(** A symbol that is not spelled like a byte token. *)
Definition tame (s : list Z) : Prop := byte_of_piece (unescape s) = None /\ Forall byte s.

Lemma raw_known s id : tame s -> token_to_id_ t !! s = Some id -> like (raw [id]) s.
Proof.
  intros [Ht _] Hid. unfold raw. cbn [fmap list_fmap concat]. rewrite app_nil_r, (decode_spm_known _ _ Hid).
  unfold decode_spm_piece. cbv zeta. rewrite Ht. apply like_unescape.
Qed.

Lemma spm_symbol_like s : tame s -> like (raw (spm_symbol_ids t s)) s.
Proof.
  intros Ht. unfold spm_symbol_ids. destruct (token_to_id_ t !! s) as [id|] eqn:E; [by apply raw_known|].
  by rewrite raw_bytes by apply Ht.
Qed.

Lemma short_tame s : (length s < 6)%nat -> Forall byte s -> tame s.
Proof.
  intros Hl Hb. split; [|done]. destruct (byte_of_piece (unescape s)) as [b|] eqn:E; [|done].
  assert (length (unescape s) = 6%nat) as H6 by (unfold byte_of_piece in E; repeat (case_match; try done); by simplify_eq).
  assert (forall u, (length (unescape u) <= length u)%nat) as Hle.
  { intros u. induction u as [|u IH|c u Hc IH] using unescape_ind; [done| |].
    - rewrite unescape_mark, length_app. simpl. lia.
    - rewrite unescape_cons by done. simpl. lia. }
  specialize (Hle s). lia.
Qed.

Lemma char_step_le4 s : (char_step s <= 4)%nat.
Proof. destruct s as [|c s]; [simpl; lia|]. unfold char_step. pose proof (utf8_char_len_range c). case_match; lia. Qed.

Lemma chars_short s : Forall (fun ch => (length ch <= 4)%nat) (chars s).
Proof.
  remember (length s) as n eqn:E. revert s E. induction (lt_wf n) as [n _ IH]. intros s ->.
  destruct (decide (s = [])) as [-> |Hs]; [constructor|]. rewrite chars_cons by done. pose proof (char_step_range s Hs).
  constructor; [rewrite length_take; pose proof (char_step_le4 s); lia|]. apply (IH (length (drop (char_step s) s))); [|done].
  rewrite length_drop. lia.
Qed.

Lemma parts_bytes s : Forall byte (concat s) -> Forall (Forall byte) s.
Proof. by rewrite Forall_concat. Qed.

(** The symbols of a text without [<0x] are tame. *)
Lemma symbols_tame syms : occurs byte_prefix (concat syms) = false -> Forall byte (concat syms) -> Forall tame syms.
Proof.
  intros Ho Hb. apply Forall_forall. intros s (l1 & l2 & ->)%list_elem_of_split. rewrite concat_app in Ho, Hb. cbn [concat] in Ho, Hb.
  apply Forall_app in Hb as [_ [Hb _]%Forall_app]. split; [|done].
  destruct (byte_of_piece (unescape s)) as [b|] eqn:E; [|done]. apply byte_piece_prefix in E as [r ->].
  rewrite <- app_assoc in Ho. by rewrite occurs_infix in Ho.
Qed.

Lemma symbols_like (ids_of : list Z -> list Z) syms : (forall s, tame s -> like (raw (ids_of s)) s) ->
  Forall tame syms -> like (raw (concat (ids_of <$> syms))) (concat syms).
Proof.
  intros Hids Ht. rewrite raw_concat. apply like_concat. rewrite <- list_fmap_compose. apply Forall2_fmap_l.
  rewrite <- (list_fmap_id syms) at 2. apply Forall2_fmap_r, Forall_Forall2_diag. eapply Forall_impl; [exact Ht|]. intros s. cbn. apply Hids.
Qed.

Lemma gemma4_symbol_like s : tame s -> like (raw (gemma4_symbol_ids t s)) s.
Proof.
  intros Ht. unfold gemma4_symbol_ids. destruct (token_to_id_ t !! s) as [id|] eqn:E; [by apply raw_known|].
  destruct Ht as [_ Hb]. rewrite <- (chars_concat s) in Hb. apply parts_bytes in Hb. rewrite <- (chars_concat s) at 2.
  apply symbols_like; [exact spm_symbol_like|]. pose proof (chars_short s) as Hsh.
  apply Forall_forall. intros ch Hin. rewrite Forall_forall in Hb, Hsh.
  apply short_tame; [specialize (Hsh _ Hin); lia|by apply Hb].
Qed.
End decode.

(** ** Texts *)

Lemma escape_bytes s : Forall byte s -> Forall byte (escape_spaces s).
Proof.
  induction 1 as [|c s Hc _ IH]; [constructor|]. rewrite escape_cons. apply Forall_app. split; [|done].
  case_match; [|by apply Forall_singleton]. unfold SPIECE_SPACE, byte. repeat constructor; lia.
Qed.

Lemma occurs_app_false p a b : occurs p (a ++ b) = false -> occurs p a = false /\ occurs p b = false.
Proof.
  intros H. assert (occurs p b = false) as Hb.
  { revert H. induction a as [|c a IH]; [done|]. cbn [app occurs]. by intros [_ ?]%orb_false_elim; apply IH. }
  split; [|done]. revert H. induction a as [|c a IH]; cbn [app occurs]; intros H.
  - destruct (starts_with p []) eqn:E; [|done]. assert (p = []) as ->.
    { unfold starts_with in E. rewrite take_nil in E. by apply bool_decide_eq_true in E. }
    by destruct b.
  - apply orb_false_elim in H as [H1 H2]. rewrite (IH H2), orb_false_r.
    destruct (starts_with p (c :: a)) eqn:E; [|done]. exfalso.
    pose proof (starts_with_le _ _ E) as Hl. unfold starts_with in *. apply bool_decide_eq_true in E.
    apply bool_decide_eq_false in H1. apply H1. change (c :: a ++ b) with ((c :: a) ++ b). by rewrite take_app_le.
Qed.

Section texts.
Context (t : Tokenizer) (Hco : coherent t).
Hypothesis Hbytes : forall b, byte b -> is_Some (token_to_id_ t !! byte_token b).
Hypothesis Hspecials : Forall (fun p : list Z * Z => decode_spm_piece p.1 = p.1) (special_pieces_ t).

Lemma spm_body_like Q `{CandQueue Q} text no_prefix : Forall byte text -> occurs byte_prefix text = false ->
  exists ids, encode_spm_body Q t text no_prefix = Some ids /\
    like (raw t ids) ((if add_space_prefix_ t && negb no_prefix then [32] else []) ++ text).
Proof.
  intros Hb Ho. unfold encode_spm_body. rewrite spm_merge_ref. eexists. split; [done|].
  set (syms := bpe_ref _ _). assert (concat syms = spm_processed t text no_prefix) as Hc.
  { unfold syms. by rewrite bpe_ref_concat, chars_concat. }
  rewrite (symbols_like t (spm_symbol_ids t)); [|by apply spm_symbol_like|].
  - rewrite Hc. unfold spm_processed. destruct (_ && _); by rewrite like_escape, ?like_mark.
  - apply symbols_tame; rewrite Hc; unfold spm_processed.
    + destruct (_ && _); [rewrite occurs_marked|]; by apply occurs_escape_false.
    + apply Forall_app. split; [|by apply escape_bytes]. destruct (_ && _); [|constructor].
      unfold SPIECE_SPACE, byte. repeat constructor; lia.
Qed.

Lemma raw_special c part : split_part (special_pieces_ t) c part -> is_special_chunk c = true -> raw t [special_id c] = part.
Proof.
  intros [(Hid & _)|(_ & Hin)] Hs; [unfold is_special_chunk in Hs; rewrite Hid in Hs; done|].
  pose proof (coherent_specials _ Hco) as Hv. rewrite Forall_forall in Hv, Hspecials. destruct (Hv _ Hin) as [Hge Hl].
  unfold raw. cbn [fmap list_fmap concat fst snd] in *. rewrite app_nil_r. unfold decode_spm_token.
  apply lookup_lt_Some in Hl as Hlt. destruct (Z.ltb_spec (special_id c) 0); [lia|].
  destruct (Z.leb_spec (Z.of_nat (length (vocab_ t))) (special_id c)); [lia|]. cbn [orb].
  rewrite (list_lookup_total_correct _ _ _ Hl). by apply (Hspecials _ Hin).
Qed.

Lemma special_or_text c part : split_part (special_pieces_ t) c part ->
  is_special_chunk c = true \/ is_special_chunk c = false /\ pc_text c = part /\ part <> [].
Proof.
  intros [(Hid & Ht & Hne)|(_ & Hin)]; unfold is_special_chunk; [right; by rewrite Hid|left].
  pose proof (coherent_specials _ Hco) as Hv. rewrite Forall_forall in Hv. destruct (Hv _ Hin) as [Hge _].
  cbn in Hge. by apply Z.leb_le.
Qed.

(** *** Gemma 4 *)

Lemma newline_next_range s : s <> [] -> (1 <= newline_next s <= length s)%nat.
Proof.
  intros Hs. unfold newline_next. destruct (hd_is (Z.eqb 10) s) eqn:E.
  - pose proof (run1_le (Z.eqb 10) s). pose proof (run1_pos _ _ E). lia.
  - pose proof (run1_le (fun c => negb (c =? 10)) s).
    assert (hd_is (fun c => negb (c =? 10)) s = true) as Hh by (destruct s as [|c s]; [done|]; cbn [hd_is] in *; by rewrite Z.eqb_sym, E).
    pose proof (run1_pos _ _ Hh). lia.
Qed.

Lemma gemma4_chunk_like Q `{MergeQueue Q} chunk : Forall byte chunk -> occurs byte_prefix chunk = false ->
  exists ids, gemma4_chunk Q t chunk = Some ids /\ like (raw t ids) chunk.
Proof.
  intros Hb Ho. unfold gemma4_chunk. rewrite bpe_merge_ref. eexists. split; [done|].
  set (syms := bpe_ref _ _). assert (concat syms = chunk) as Hc by (unfold syms; by rewrite bpe_ref_concat, chars_concat).
  rewrite (symbols_like t (gemma4_symbol_ids t)); [by rewrite Hc|by apply gemma4_symbol_like|].
  by apply symbols_tame; rewrite Hc.
Qed.

Lemma mapM_like {A} (f : A -> option (list Z)) xs ss :
  Forall2 (fun x s => exists ids, f x = Some ids /\ like (raw t ids) s) xs ss ->
  exists idss, mapM f xs = Some idss /\ like (raw t (concat idss)) (concat ss).
Proof.
  induction 1 as [|x s xs ss (ids & E & Hl) _ (idss & Em & Hm)]; [by exists []|]. exists (ids :: idss).
  split; [apply mapM_Some; constructor; [done|by apply mapM_Some]|]. cbn [concat]. by rewrite raw_app, Hl, Hm.
Qed.

Lemma occurs_part p (parts : list (list Z)) s : occurs p (concat parts) = false -> s ∈ parts -> occurs p s = false.
Proof.
  intros Ho (l1 & l2 & ->)%list_elem_of_split. rewrite concat_app in Ho. cbn [concat] in Ho.
  apply occurs_app_false in Ho as [_ Ho]. by apply occurs_app_false in Ho as [Ho _].
Qed.

Lemma part_clean (parts : list (list Z)) s : Forall byte (concat parts) -> occurs byte_prefix (concat parts) = false ->
  s ∈ parts -> Forall byte s /\ occurs byte_prefix s = false.
Proof.
  intros Hb Ho Hin. split; [|by eapply occurs_part]. apply parts_bytes in Hb. rewrite Forall_forall in Hb. by apply Hb.
Qed.

Lemma gemma4_piece_like Q `{MergeQueue Q} c part : split_part (special_pieces_ t) c part ->
  Forall byte part -> occurs byte_prefix part = false ->
  exists ids, gemma4_piece Q t c = Some ids /\ like (raw t ids) part.
Proof.
  intros Hp Hb Ho. unfold gemma4_piece. destruct (special_or_text c part Hp) as [Hs|(Hs & Ht & Hne)]; rewrite Hs.
  - eexists. split; [done|]. by rewrite (raw_special _ _ Hp Hs).
  - rewrite Ht. replace (match part with [] => _ | _ => _ end) with
      (ids ← mapM (gemma4_chunk Q t) (gemma4_chunks (escape_spaces part)); Some (concat ids)) by (by destruct part).
    set (e := escape_spaces part). destruct (split_by_parts newline_next newline_next_range e) as [Hc _].
    change (split_by newline_next e) with (gemma4_chunks e) in Hc.
    destruct (mapM_like (gemma4_chunk Q t) (gemma4_chunks e) (gemma4_chunks e)) as (idss & Em & Hl).
    { apply Forall_Forall2_diag, Forall_forall. intros chunk Hin.
      destruct (part_clean (gemma4_chunks e) chunk); rewrite ?Hc; [by apply escape_bytes|by apply occurs_escape_false|done|].
      by apply gemma4_chunk_like. }
    rewrite Em. eexists. split; [done|]. rewrite Hl, Hc. apply like_escape.
Qed.

Lemma gemma4_like Q `{MergeQueue Q} text : vocab_ t <> [] -> Forall byte text -> occurs byte_prefix text = false ->
  exists ids, encode_gemma4 Q t text = Some ids /\ like (raw t ids) text.
Proof.
  intros Hv Hb Ho. destruct (split_on_special_parts (special_pieces_ t) text) as (parts & HF & Hc).
  destruct (mapM_like (gemma4_piece Q t) (split_on_special text (special_pieces_ t)) parts) as (idss & Em & Hl).
  { eapply Forall2_impl_r; [exact HF|]. intros c part Hin Hp. rewrite <- Hc in Hb, Ho.
    destruct (part_clean parts part Hb Ho Hin). by apply gemma4_piece_like. }
  unfold encode_gemma4. destruct text as [|c text]; [by exists []|]. destruct (vocab_ t) as [|v vs]; [done|].
  rewrite Em. eexists. split; [done|]. by rewrite Hl, Hc.
Qed.

(** *** SentencePiece *)

Lemma split_special_none specials fuel cur s : (forall k, find_special specials (drop k s) = None) -> (length s <= fuel)%nat ->
  split_special_of fuel specials cur s = flush_text (cur ++ s).
Proof.
  revert cur s. induction fuel as [|f IH]; intros cur s Hno Hl; cbn [split_special_of].
  { destruct s; [by rewrite app_nil_r|simpl in Hl; lia]. }
  destruct s as [|c s]; [by rewrite app_nil_r|]. pose proof (Hno 0%nat) as H0. rewrite drop_0 in H0.
  rewrite H0, IH; [by rewrite <- app_assoc| |simpl in Hl; lia].
  intros k. apply (Hno (S k)).
Qed.

Lemma flush_not_special cur : existsb is_special_chunk (flush_text cur) = false.
Proof. by destruct cur. Qed.

(** The text chunk a non-empty accumulator starts is not special. *)
Lemma split_head_text specials fuel cur s c rest : cur <> [] ->
  split_special_of fuel specials cur s = c :: rest -> is_special_chunk c = false.
Proof.
  revert cur s. induction fuel as [|f IH]; intros cur s Hc; cbn [split_special_of].
  { destruct cur; [done|]. by intros [= <- _]. }
  destruct s as [|x s]; [destruct cur; [done|]; by intros [= <- _]|].
  destruct (find_special _ _) as [[piece id]|].
  - destruct cur; [done|]. by intros [= <- _].
  - apply IH. by destruct cur.
Qed.

Definition opens_with_text (pieces : list PieceChunk) : bool :=
  match pieces with c :: _ => negb (is_special_chunk c) | [] => false end.

Lemma split_opens text : text <> [] -> special_pieces_ t <> [] ->
  opens_with_text (split_on_special text (special_pieces_ t)) = bool_decide (find_special (special_pieces_ t) text = None).
Proof.
  intros Ht Hsp. replace (split_on_special text (special_pieces_ t)) with (split_special_of (length text) (special_pieces_ t) [] text)
    by (unfold split_on_special; by destruct (special_pieces_ t)).
  destruct text as [|c text]; [done|]. cbn [length split_special_of].
  destruct (find_special (special_pieces_ t) (c :: text)) as [[piece id]|] eqn:E.
  - apply find_special_some in E as (Hin & _). pose proof (coherent_specials _ Hco) as Hv. rewrite Forall_forall in Hv.
    destruct (Hv _ Hin) as [Hge _]. cbn in Hge. cbn [flush_text app opens_with_text]. unfold is_special_chunk. cbn [special_id].
    apply Z.leb_le in Hge. by rewrite Hge.
  - destruct (split_special_of _ _ _ _) as [|d rest] eqn:Ed; [|by cbn; rewrite (split_head_text _ _ [c] _ _ _ (not_eq_sym (nil_cons (x := c) (l := []))) Ed)].
    exfalso. destruct (split_special_parts (special_pieces_ t) (length text) [c] text (le_n _)) as (parts & HF & Hc).
    cbn [app] in Ed. rewrite Ed in HF. apply Forall2_nil_inv_l in HF as ->. done.
Qed.

Lemma spm_of_step Q `{CandQueue Q} fuel text no_prefix : vocab_ t <> [] -> text <> [] ->
  encode_spm_of Q (S fuel) t text no_prefix =
  let pieces := match special_pieces_ t with [] => [] | _ => split_on_special text (special_pieces_ t) end in
  if existsb is_special_chunk pieces then spm_pieces (encode_spm_of Q fuel t) no_prefix true pieces
  else encode_spm_body Q t text no_prefix.
Proof. intros Hv Ht. remember (encode_spm_of Q fuel t) as enc. cbn [encode_spm_of]. rewrite <- Heqenc. by destruct text, (vocab_ t). Qed.

Lemma spm_of_plain Q `{CandQueue Q} fuel text no_prefix : vocab_ t <> [] -> text <> [] ->
  (forall k, find_special (special_pieces_ t) (drop k text) = None) ->
  encode_spm_of Q (S fuel) t text no_prefix = encode_spm_body Q t text no_prefix.
Proof.
  intros Hv Ht Hno. rewrite spm_of_step by done. cbv zeta. replace (existsb _ _) with false; [done|]. symmetry.
  destruct (decide (special_pieces_ t = [])) as [-> |Hsp]; [done|].
  replace (match special_pieces_ t with [] => _ | _ => _ end) with (split_special_of (length text) (special_pieces_ t) [] text)
    by (unfold split_on_special; by destruct (special_pieces_ t)).
  rewrite split_special_none by done. apply flush_not_special.
Qed.

Lemma spm_pieces_like Q `{CandQueue Q} no_prefix first pieces parts : vocab_ t <> [] ->
  Forall2 (split_part (special_pieces_ t)) pieces parts -> Forall (no_piece_inside (special_pieces_ t)) pieces ->
  Forall byte (concat parts) -> occurs byte_prefix (concat parts) = false ->
  exists ids, spm_pieces (encode_spm_of Q 1 t) no_prefix first pieces = Some ids /\
    like (raw t ids) ((if add_space_prefix_ t && negb (negb first || no_prefix) && opens_with_text pieces then [32] else []) ++ concat parts).
Proof.
  intros Hv HF. revert first. induction HF as [|c part pieces parts Hp HF IH]; intros first Hno Hb Ho.
  { exists []. split; [done|]. by rewrite andb_false_r. }
  apply Forall_cons in Hno as [Hc Hno]. cbn [concat] in Hb, Ho. apply Forall_app in Hb as [Hb1 Hb2].
  apply occurs_app_false in Ho as [Ho1 Ho2]. cbn [spm_pieces opens_with_text concat].
  destruct (IH false Hno Hb2 Ho2) as (ids & Es & Hl). cbn [negb orb] in Hl. rewrite andb_false_r in Hl. cbn [andb app] in Hl.
  destruct (special_or_text c part Hp) as [Hs|(Hs & Ht & Hne)]; rewrite Hs; cbn [negb].
  - rewrite Es. eexists. split; [done|]. rewrite andb_false_r. cbn [app].
    change (raw t (special_id c :: ids)) with (raw t ([special_id c] ++ ids)). rewrite raw_app, (raw_special _ _ Hp Hs). by rewrite Hl.
  - rewrite andb_true_r. rewrite Ht. unfold no_piece_inside in Hc. rewrite Ht in Hc.
    destruct (spm_body_like Q part (negb first || no_prefix) Hb1 Ho1) as (sub & Eb & Hsub).
    destruct part as [|c0 part0] eqn:Epart; [done|]. rewrite <- Epart in *. rewrite spm_of_plain by done.
    rewrite Eb. cbn [mbind option_bind]. rewrite Es. eexists. split; [done|]. rewrite raw_app, Hsub, Hl. by rewrite <- app_assoc.
Qed.

(** The space the code puts before a text that does not open with a special
    piece. *)
Definition space_prefix (no_prefix : bool) (text : list Z) : list Z :=
  if add_space_prefix_ t && negb no_prefix && bool_decide (find_special (special_pieces_ t) text = None) then [32] else [].

Lemma spm_like Q `{CandQueue Q} text no_prefix : vocab_ t <> [] -> text <> [] ->
  Forall byte text -> occurs byte_prefix text = false ->
  exists ids, encode_spm Q t text no_prefix = Some ids /\ like (raw t ids) (space_prefix no_prefix text ++ text).
Proof.
  intros Hv Ht Hb Ho. destruct (split_on_special_parts (special_pieces_ t) text) as (parts & HF & Hc).
  assert (Forall (no_piece_inside (special_pieces_ t)) (split_on_special text (special_pieces_ t))) as Hno by apply split_none_left.
  unfold encode_spm, space_prefix. rewrite spm_of_step by done. cbv zeta.
  destruct (spm_body_like Q text no_prefix Hb Ho) as (bids & Eb & Hbl).
  destruct (decide (special_pieces_ t = [])) as [Esp|Esp].
  { rewrite Esp. cbn [existsb]. exists bids. split; [done|]. by rewrite andb_true_r. }
  replace (match special_pieces_ t with [] => _ | _ => _ end) with (split_on_special text (special_pieces_ t))
    by (by destruct (special_pieces_ t)).
  pose proof (split_opens text Ht Esp) as Hopen. rewrite <- Hopen.
  destruct (existsb _ _) eqn:Ex.
  - rewrite <- Hc in Hb, Ho. destruct (spm_pieces_like Q no_prefix true _ _ Hv HF Hno Hb Ho) as (ids & E & Hl).
    exists ids. split; [exact E|]. cbn [negb orb] in Hl. by rewrite Hc in Hl.
  - exists bids. split; [done|]. replace (opens_with_text _) with true; [by rewrite andb_true_r|]. destruct (split_on_special text (special_pieces_ t)) as [|d rest] eqn:Ed.
    + apply Forall2_nil_inv_l in HF as ->. by rewrite <- Hc in Ht.
    + cbn [existsb opens_with_text] in *. apply orb_false_elim in Ex as [-> _]. done.
Qed.
End texts.

(** ** Loaded tokenizers *)

Definition loaded_spm (tokens : list (list Z)) (scores : list Z) (merges : list (list Z)) (types : list Z) (prefix : bool) (bos eos : Z) :
    option Tokenizer :=
  t ← load_vocab (new_tokenizer "") tokens scores bos eos;
  Some (set_add_space_prefix (load_token_types (load_merges t merges) types) prefix).

Lemma loaded_spm_coherent tokens scores merges types prefix bos eos t :
  loaded_spm tokens scores merges types prefix bos eos = Some t ->
  coherent t /\ vocab_ t = tokens /\ tokens <> [] /\ special_pieces_ t ≡ₚ special_candidates types tokens.
Proof.
  unfold loaded_spm, load_vocab. destruct tokens as [|v tokens]; [done|]. cbn [mbind option_bind]. intros [= <-].
  split_and!; [|done|done|apply merge_sort_Permutation]. split; [done|]. apply Forall_forall. intros p Hp.
  cbn in Hp. rewrite merge_sort_Permutation in Hp. by apply special_candidates_elem in Hp.
Qed.

(** The marker encoders and [decode_spm] are inverse up to the marker.  For a
    vocabulary with the 256 byte tokens and special pieces that decode to
    themselves, [encode_spm] and [encode_gemma4] end on every non-empty byte text
    that does not mention [<0x], and decoding gives the text with markers as
    spaces, after the one space the SentencePiece prefix adds. *)
Theorem marker_round_trip Q Q' `{CandQueue Q} `{MergeQueue Q'} tokens scores merges types prefix bos eos t text no_prefix :
  loaded_spm tokens scores merges types prefix bos eos = Some t ->
  Forall (fun b => byte_token b ∈ tokens) all_bytes ->
  Forall (fun p : list Z * Z => decode_spm_piece p.1 = p.1) (special_candidates types tokens) ->
  text <> [] -> Forall byte text -> occurs byte_prefix text = false ->
  (exists ids, encode_spm Q t text no_prefix = Some ids /\
     decode_spm t ids = unescape (space_prefix t no_prefix text ++ text)) /\
  (exists ids, encode_gemma4 Q' t text = Some ids /\ decode_spm t ids = unescape text).
Proof.
  intros Hl Hb Hs Hne Ht Ho. destruct (loaded_spm_coherent _ _ _ _ _ _ _ _ Hl) as (Hco & Hv & Htok & Hsp).
  assert (forall b, byte b -> is_Some (token_to_id_ t !! byte_token b)) as Hbytes.
  { intros b Hbb%byte_in_all. rewrite (coherent_ids _ Hco), Hv. apply index_keys_complete. rewrite Forall_forall in Hb. by apply Hb. }
  assert (Forall (fun p : list Z * Z => decode_spm_piece p.1 = p.1) (special_pieces_ t)) as Hsp' by (by rewrite Hsp).
  split.
  - destruct (spm_like t Hco Hbytes Hsp' Q text no_prefix) as (ids & E & Hlike); [by rewrite Hv|done..|].
    exists ids. split; [done|]. apply (like_eq _ _ Hlike).
  - destruct (gemma4_like t Hco Hbytes Hsp' Q' text) as (ids & E & Hlike); [by rewrite Hv|done..|].
    exists ids. split; [done|]. apply (like_eq _ _ Hlike).
Qed.

(** Gemma 4 merges only into tokens: every symbol left is a token or one
    character, so the byte fallback never splits a merged word. *)
Theorem gemma4_symbols_known t chunk :
  Forall (fun s => known t s = true \/ s ∈ chars chunk) (bpe_ref (pair_rank (merge_ranks_ t) (known t)) (chars chunk)).
Proof.
  destruct (bpe_ref_of_spec (pair_rank (merge_ranks_ t) (known t)) _ (chars chunk)
    (fun s => known t s = true \/ s ∈ chars chunk) (le_n _)) as (_ & _ & H); [|intros a b r _ _ Hr|done].
  - apply Forall_forall. by right.
  - left. unfold pair_rank in Hr. destruct (_ !! _); [|done]. cbn in Hr. by destruct (known t (a ++ b)).
Qed.

Definition spm_demo_tokens : list (list Z) :=
  (byte_token <$> all_bytes) ++ [SPIECE_SPACE; src_of "h"; src_of "e"; src_of "he"; SPIECE_SPACE ++ src_of "he"; src_of "<|x|>"].
Definition spm_demo_types : list Z := replicate 261 1 ++ [3].
Definition spm_demo_scores : list Z := replicate 256 0 ++ [-1; -2; -3; -1; -1; 0].
Definition spm_demo_text : list Z := src_of "he is<|x|>he" ++ [195; 169; 255].

Definition spm_demo : Tokenizer :=
  set_add_space_prefix (load_token_types (load_merges
    (default (new_tokenizer "") (load_vocab (new_tokenizer "") spm_demo_tokens spm_demo_scores 1 2)) [src_of "h e"]) spm_demo_types) true.

Lemma spm_demo_bytes_b : forallb (fun b => bool_decide (byte_token b ∈ spm_demo_tokens)) all_bytes = true.
Proof. vm_compute. done. Qed.

Lemma spm_demo_bytes : Forall (fun b => byte_token b ∈ spm_demo_tokens) all_bytes.
Proof. apply (forallb_Forall _ _ _ (fun b => proj1 (bool_decide_eq_true _)) spm_demo_bytes_b). Qed.

Lemma spm_demo_specials : Forall (fun p : list Z * Z => decode_spm_piece p.1 = p.1) (special_candidates spm_demo_types spm_demo_tokens).
Proof.
  apply (forallb_Forall (fun p => bool_decide (decode_spm_piece p.1 = p.1))); [by intros p Hp%bool_decide_eq_true|]. vm_compute. done.
Qed.

Lemma marker_round_trip_witness :
  encode_spm (list MergeCand) spm_demo spm_demo_text false =
    Some [260; 256; 105; 115; 261; 259; 195; 169; 255] /\
  (exists ids, encode_spm (list MergeCand) spm_demo spm_demo_text false = Some ids /\
     decode_spm spm_demo ids = unescape (space_prefix spm_demo false spm_demo_text ++ spm_demo_text)) /\
  (exists ids, encode_gemma4 (list merge) spm_demo spm_demo_text = Some ids /\ decode_spm spm_demo ids = unescape spm_demo_text).
Proof.
  split; [vm_compute; reflexivity|].
  refine (marker_round_trip (list MergeCand) (list merge) spm_demo_tokens spm_demo_scores [src_of "h e"] spm_demo_types true 1 2
    spm_demo spm_demo_text false _ _ _ _ _ _).
  - reflexivity.
  - exact spm_demo_bytes.
  - exact spm_demo_specials.
  - discriminate.
  - apply bytes_b_ok. reflexivity.
  - reflexivity.
Defined.
