(* ===== verification/WordPiece.v ===== *)
(** * WordPiece is greedy longest match

    [encode_wordpiece] ([src/model/tokenizer.cpp]) against the relation its
    comment describes: a word is cut into pieces, each the longest prefix of what
    is left that the vocabulary has, or is the unknown token when at some point no
    prefix is a token. *)

From Corelib Require Import ssreflect_rw.
From stdpp Require Import prelude list gmap strings.
From S2P Require Import Prelude TokenText PreTokenize PreRegex ByteLevel ByteRoundTrip Encoders.
Open Scope Z_scope.

Section wordpiece.
Context (t : Tokenizer).

Definition piece_id (first : bool) (w : list Z) (e : nat) : option Z := token_to_id_ t !! (wp_mark first ++ take e w).

(** [e] is the longest matching prefix length. *)
Definition longest_at (first : bool) (w : list Z) (e : nat) (id : Z) : Prop :=
  (0 < e <= length w)%nat /\ piece_id first w e = Some id /\ forall e', (e < e' <= length w)%nat -> piece_id first w e' = None.

Inductive greedy : bool -> list Z -> list Z -> Prop :=
  | greedy_nil first : greedy first [] []
  | greedy_cons first w e id ids : longest_at first w e id -> greedy false (drop e w) ids -> greedy first w (id :: ids).

Inductive stuck : bool -> list Z -> Prop :=
  | stuck_here first w : w <> [] -> (forall e, (0 < e <= length w)%nat -> piece_id first w e = None) -> stuck first w
  | stuck_later first w e id : longest_at first w e id -> stuck false (drop e w) -> stuck first w.

Lemma wp_longest_some first w n e id : (n <= length w)%nat -> wp_longest t first w n = Some (e, id) ->
  (0 < e <= n)%nat /\ piece_id first w e = Some id /\ forall e', (e < e' <= n)%nat -> piece_id first w e' = None.
Proof.
  induction n as [|n IH]; intros Hn H; [done|]. cbn [wp_longest] in H. fold (piece_id first w (S n)) in H.
  destruct (piece_id first w (S n)) as [i|] eqn:E; [simplify_eq; split_and!; [lia|lia|done|lia]|].
  destruct (IH ltac:(lia) H) as (? & ? & Hlong). split_and!; [lia|lia|done|]. intros e' He.
  destruct (decide (e' = S n)) as [-> |]; [done|]. apply Hlong. lia.
Qed.

Lemma wp_longest_none first w n : wp_longest t first w n = None -> forall e, (0 < e <= n)%nat -> piece_id first w e = None.
Proof.
  induction n as [|n IH]; intros H e He; [lia|]. cbn [wp_longest] in H. fold (piece_id first w (S n)) in H.
  destruct (piece_id first w (S n)) as [i|] eqn:E; [done|]. destruct (decide (e = S n)) as [-> |]; [done|]. apply IH; [done|lia].
Qed.

Hypothesis Hids : forall s id, token_to_id_ t !! s = Some id -> 0 <= id.

Lemma wp_pieces_spec fuel first w : (length w <= fuel)%nat ->
  match wp_pieces_of fuel t first w with Some ids => greedy first w ids | None => stuck first w end.
Proof.
  revert first w. induction fuel as [|f IH]; intros first w Hl.
  { destruct w; [constructor|simpl in Hl; lia]. }
  destruct w as [|c w0] eqn:Ew; [constructor|]. rewrite <- Ew in *.
  replace (wp_pieces_of (S f) t first w) with
    ('(e, id) ← wp_longest t first w (length w); if id <? 0 then None else cons id <$> wp_pieces_of f t false (drop e w)) by (by subst w).
  destruct (wp_longest t first w (length w)) as [[e id]|] eqn:E; cbn [mbind option_bind].
  - apply wp_longest_some in E as Hlong; [|done]. destruct Hlong as (He & Hid & Hmax).
    assert (longest_at first w e id) as Hat by done. pose proof (Hids _ _ Hid) as Hge. destruct (Z.ltb_spec id 0); [lia|].
    specialize (IH false (drop e w)). destruct (wp_pieces_of f t false (drop e w)) as [ids|]; cbn [fmap option_fmap option_map].
    + econstructor; [done|]. apply IH. rewrite length_drop. lia.
    + eapply stuck_later; [done|]. apply IH. rewrite length_drop. lia.
  - apply stuck_here; [by subst w|]. by apply wp_longest_none.
Qed.

(** The two outcomes exclude each other, and the pieces are determined. *)
Lemma longest_unique first w e id e' id' : longest_at first w e id -> longest_at first w e' id' -> e = e' /\ id = id'.
Proof.
  intros (H1 & H2 & H3) (H1' & H2' & H3'). destruct (Nat.lt_total e e') as [Hlt|[-> |Hlt]].
  - rewrite H3 in H2' by lia. done.
  - split; [done|congruence].
  - rewrite H3' in H2 by lia. done.
Qed.

Lemma greedy_unique first w ids ids' : greedy first w ids -> greedy first w ids' -> ids = ids'.
Proof.
  intros Hg. revert ids'. induction Hg as [first|first w e id ids Hat _ IH]; intros ids' Hg'.
  - inversion Hg' as [|? ? e id ? Hat]; [done|]. subst. destruct Hat as [? _]. simpl in *. lia.
  - inversion Hg' as [|? ? e' id' ids2 Hat' Hg2]; subst; [destruct Hat as [? _]; simpl in *; lia|].
    destruct (longest_unique _ _ _ _ _ _ Hat Hat') as [<- <-]. f_equal. by apply IH.
Qed.

Lemma greedy_not_stuck first w ids : greedy first w ids -> ~ stuck first w.
Proof.
  induction 1 as [first|first w e id ids Hat _ IH]; intros Hs.
  - inversion Hs as [|? ? e id Hat]; subst; [done|]. destruct Hat as [? _]. simpl in *. lia.
  - inversion Hs as [? ? _ Hno|? ? e' id' Hat' Hs']; subst.
    + destruct Hat as (He & Hid & _). rewrite Hno in Hid by done. done.
    + destruct (longest_unique _ _ _ _ _ _ Hat Hat') as [<- _]. by apply IH.
Qed.
End wordpiece.

(** The words of an ASCII text. *)
Lemma flush_word_concat cur : concat (flush_word cur) = cur.
Proof. destruct cur; [done|]. simpl. by rewrite app_nil_r. Qed.

Definition lowered (text : list Z) : list Z := filter (fun c => isspace c = false) (tolower <$> text).

Lemma wp_words_ascii fuel cur s : Forall (fun c => c < 128) s -> (length s <= fuel)%nat ->
  concat (wp_words_of fuel cur s) = cur ++ lowered s.
Proof.
  unfold lowered. revert cur s. induction fuel as [|f IH]; intros cur s Ha Hl.
  { destruct s; [|simpl in Hl; lia]. cbn. by rewrite flush_word_concat, app_nil_r. }
  destruct s as [|c s]; [cbn; by rewrite flush_word_concat, app_nil_r|]. apply Forall_cons in Ha as [Hc Ha]. simpl in Hl.
  cbn [wp_words_of]. destruct (Z.ltb_spec c 128); [|lia]. cbv zeta. rewrite fmap_cons, filter_cons.
  destruct (isspace (tolower c)) eqn:Es; case_decide; try done.
  - rewrite concat_app, flush_word_concat, IH by (done || lia). done.
  - destruct (ispunct (tolower c)).
    + rewrite concat_app, flush_word_concat. cbn [concat]. rewrite IH by (done || lia). done.
    + rewrite IH by (done || lia). by rewrite <- app_assoc.
Qed.

(** WordPiece is greedy longest match.  Every word of the text gives either
    the one sequence of ids in which each piece is the longest prefix of the rest
    that has a token (the first piece with the word mark), or the unknown token
    when greedy matching gets stuck; and the words of an ASCII text are its
    lower-cased characters without white space, in order. *)
Theorem wordpiece_greedy t text : coherent t ->
  (exists outs, encode_wordpiece t text = concat outs /\
     Forall2 (fun w out => (greedy t true w out /\ ~ stuck t true w) \/ (stuck t true w /\ out = [wp_unk t])) (wp_words text) outs) /\
  (Forall (fun c => c < 128) text -> concat (wp_words text) = lowered text).
Proof.
  intros Hco. split; [|intros Ha; by apply (wp_words_ascii (length text) [])].
  exists (wp_word t <$> wp_words text). split; [done|]. apply Forall2_fmap_r, Forall_Forall2_diag, Forall_forall. intros w _.
  assert (forall s id, token_to_id_ t !! s = Some id -> 0 <= id) as Hids.
  { intros s id Hs. rewrite (coherent_ids _ Hco) in Hs. apply index_keys_sound in Hs as (i & -> & _). lia. }
  pose proof (wp_pieces_spec t Hids (length w) true w (le_n _)) as Hw. unfold wp_word, compose.
  destruct (wp_pieces_of _ _ _ _) as [ids|]; [left|by right]. split; [done|by eapply greedy_not_stuck].
Qed.

Definition wp_demo : Tokenizer :=
  default (new_tokenizer "") (load_vocab (new_tokenizer "")
    [src_of "[UNK]"; SPIECE_SPACE ++ src_of "un"; SPIECE_SPACE ++ src_of "u"; src_of "able"; src_of "a"; SPIECE_SPACE ++ src_of "!"] [] 1 2).

Lemma wordpiece_greedy_witness :
  encode_wordpiece wp_demo (src_of "Unable! xyz") = [1; 3; 5; 0] /\
  ((exists outs, encode_wordpiece wp_demo (src_of "Unable! xyz") = concat outs /\
     Forall2 (fun w out => (greedy wp_demo true w out /\ ~ stuck wp_demo true w) \/ (stuck wp_demo true w /\ out = [wp_unk wp_demo]))
       (wp_words (src_of "Unable! xyz")) outs) /\
  (Forall (fun c => c < 128) (src_of "Unable! xyz") -> concat (wp_words (src_of "Unable! xyz")) = lowered (src_of "Unable! xyz"))).
Proof.
  split; [vm_compute; reflexivity|]. apply (wordpiece_greedy wp_demo (src_of "Unable! xyz")). split; [reflexivity|constructor].
Defined.
