(* ===== verification/QTypes.v ===== *)
(** * Tensor element types and tensor descriptors

    Models [src/core/qtype.h], [src/core/qtype.cpp], [src/core/tensor.h],
    [src/core/tensor.cpp] and the type tables of [src/model/gguf_parse.cpp].
    [QType] is the engine's own enumeration, [GgufWireType] the numbers of the
    GGUF format; a number that names no enumerator is kept ([Raw]), as the
    source's [static_cast] keeps it. *)

From Corelib Require Import ssreflect_rw SpecFloat.
From stdpp Require Import prelude list.
From S2P Require Import Prelude.
Open Scope Z_scope.

Module GgufWireType.
Inductive t : Type :=
  | F32 | F16 | Q4_0 | Q4_1 | Q5_0 | Q5_1 | Q8_0 | Q8_1 | Q2_K | Q3_K | Q4_K | Q5_K | Q6_K | Q8_K
  | IQ2_XXS | IQ2_XS | IQ3_XXS | IQ1_S | IQ4_NL | IQ3_S | IQ2_S | IQ4_XS | I8 | I16 | I32 | I64 | F64
  | IQ1_M | BF16 | MXFP4 | MXFP4_V2
  | Raw (n : Z).

(** The enumerators with their values. *)
Definition named : list (Z * t) :=
  [(0, F32); (1, F16); (2, Q4_0); (3, Q4_1); (6, Q5_0); (7, Q5_1); (8, Q8_0); (9, Q8_1); (10, Q2_K);
   (11, Q3_K); (12, Q4_K); (13, Q5_K); (14, Q6_K); (15, Q8_K); (16, IQ2_XXS); (17, IQ2_XS);
   (18, IQ3_XXS); (19, IQ1_S); (20, IQ4_NL); (21, IQ3_S); (22, IQ2_S); (23, IQ4_XS); (24, I8);
   (25, I16); (26, I32); (27, I64); (28, F64); (29, IQ1_M); (30, BF16); (31, MXFP4); (39, MXFP4_V2)].

#[global] Instance eq_dec : EqDecision t.
Proof. solve_decision. Defined.
End GgufWireType.

Notation GgufWireType := GgufWireType.t.

(** [static_cast<GgufWireType>(n)] and [std::to_underlying]. *)
Definition wire_of (n : Z) : GgufWireType :=
  match list_find (fun p => p.1 = n) GgufWireType.named with
  | Some (_, (_, t)) => t
  | None => GgufWireType.Raw n
  end.

Definition wire_num (t : GgufWireType) : Z :=
  match t with
  | GgufWireType.F32 => 0 | GgufWireType.F16 => 1 | GgufWireType.Q4_0 => 2 | GgufWireType.Q4_1 => 3
  | GgufWireType.Q5_0 => 6 | GgufWireType.Q5_1 => 7 | GgufWireType.Q8_0 => 8
  | GgufWireType.Q8_1 => 9 | GgufWireType.Q2_K => 10 | GgufWireType.Q3_K => 11
  | GgufWireType.Q4_K => 12 | GgufWireType.Q5_K => 13 | GgufWireType.Q6_K => 14
  | GgufWireType.Q8_K => 15 | GgufWireType.IQ2_XXS => 16 | GgufWireType.IQ2_XS => 17
  | GgufWireType.IQ3_XXS => 18 | GgufWireType.IQ1_S => 19 | GgufWireType.IQ4_NL => 20
  | GgufWireType.IQ3_S => 21 | GgufWireType.IQ2_S => 22 | GgufWireType.IQ4_XS => 23
  | GgufWireType.I8 => 24 | GgufWireType.I16 => 25 | GgufWireType.I32 => 26
  | GgufWireType.I64 => 27 | GgufWireType.F64 => 28 | GgufWireType.IQ1_M => 29
  | GgufWireType.BF16 => 30 | GgufWireType.MXFP4 => 31 | GgufWireType.MXFP4_V2 => 39
  | GgufWireType.Raw n => n
  end.

Module QType.
Inductive t : Type :=
  | F32 | F16 | Q4_0 | Q4_1 | Q5_0 | Q5_1 | Q8_0 | Q8_1 | Q2_K | Q3_K | Q4_K | Q5_K | Q6_K | Q8_K
  | IQ4_NL | IQ4_XS | BF16 | MXFP4
  | NONE | FP8_E4M3 | FP8_E5M2 | INT8 | INT4 | INT32 | FP4_E2M1 | NVFP4 | MXFP4_KV
  | Raw (n : Z).

Definition named : list (Z * t) :=
  [(0, F32); (1, F16); (2, Q4_0); (3, Q4_1); (6, Q5_0); (7, Q5_1); (8, Q8_0); (9, Q8_1); (10, Q2_K);
   (11, Q3_K); (12, Q4_K); (13, Q5_K); (14, Q6_K); (15, Q8_K); (20, IQ4_NL); (23, IQ4_XS);
   (30, BF16); (31, MXFP4); (64, NONE); (65, FP8_E4M3); (66, FP8_E5M2); (67, INT8); (68, INT4);
   (69, INT32); (70, FP4_E2M1); (71, NVFP4); (72, MXFP4_KV)].

#[global] Instance eq_dec : EqDecision t.
Proof. solve_decision. Defined.
End QType.

Notation QType := QType.t.

(** [static_cast<QType>(n)] of a 32-bit number: the enumeration is 16 bits wide. *)
Definition qtype_of (n : Z) : QType :=
  let n := n mod 2 ^ 16 in
  match list_find (fun p => p.1 = n) QType.named with
  | Some (_, (_, q)) => q
  | None => QType.Raw n
  end.

Definition qtype_num (t : QType) : Z :=
  match t with
  | QType.F32 => 0 | QType.F16 => 1 | QType.Q4_0 => 2 | QType.Q4_1 => 3 | QType.Q5_0 => 6
  | QType.Q5_1 => 7 | QType.Q8_0 => 8 | QType.Q8_1 => 9 | QType.Q2_K => 10 | QType.Q3_K => 11
  | QType.Q4_K => 12 | QType.Q5_K => 13 | QType.Q6_K => 14 | QType.Q8_K => 15 | QType.IQ4_NL => 20
  | QType.IQ4_XS => 23 | QType.BF16 => 30 | QType.MXFP4 => 31 | QType.NONE => 64
  | QType.FP8_E4M3 => 65 | QType.FP8_E5M2 => 66 | QType.INT8 => 67 | QType.INT4 => 68
  | QType.INT32 => 69 | QType.FP4_E2M1 => 70 | QType.NVFP4 => 71 | QType.MXFP4_KV => 72
  | QType.Raw n => n
  end.

(** ** Engine types *)

Definition is_block_quant (q : QType) : bool :=
  let v := qtype_num q in
  ((2 <=? v) && (v <=? 15))
  || bool_decide (q = QType.IQ4_NL \/ q = QType.IQ4_XS \/ q = QType.MXFP4 \/ q = QType.NVFP4).

Definition is_compute_dtype (q : QType) : bool :=
  match q with
  | QType.F32 | QType.F16 | QType.BF16 | QType.FP8_E4M3 | QType.FP8_E5M2 | QType.INT8 | QType.INT4
  | QType.INT32 | QType.FP4_E2M1 => true
  | _ => false
  end.

Definition nvfp4_beneficial (q : QType) (decode_all : bool) : bool :=
  match q with
  | QType.Q8_0 | QType.Q8_K | QType.Q6_K | QType.Q5_K => true
  | QType.Q4_K | QType.Q3_K | QType.Q2_K => decode_all
  | QType.IQ4_NL | QType.IQ4_XS => true
  | _ => false
  end.

Definition qtype_elem_bytes (q : QType) : Z :=
  match q with
  | QType.F32 => 4
  | QType.F16 => 2
  | QType.BF16 => 2
  | QType.FP8_E4M3 => 1
  | QType.FP8_E5M2 => 1
  | QType.INT8 => 1
  | QType.INT4 => 1
  | QType.INT32 => 4
  | QType.FP4_E2M1 => 1
  | _ => 0
  end.

Definition qtype_row_bytes (q : QType) (cols : Z) : Z :=
  match q with
  | QType.Q6_K => u64 (Z.quot cols 256) *64 210
  | QType.Q8_0 => u64 (Z.quot cols 32) *64 34
  | QType.Q4_0 => u64 (Z.quot cols 32) *64 18
  | QType.Q8_1 => u64 (Z.quot cols 32) *64 36
  | QType.Q4_1 => u64 (Z.quot cols 32) *64 20
  | QType.Q5_0 => u64 (Z.quot cols 32) *64 22
  | QType.Q5_1 => u64 (Z.quot cols 32) *64 24
  | QType.Q2_K => u64 (Z.quot cols 256) *64 84
  | QType.Q3_K => u64 (Z.quot cols 256) *64 110
  | QType.Q4_K => u64 (Z.quot cols 256) *64 144
  | QType.Q5_K => u64 (Z.quot cols 256) *64 176
  | QType.Q8_K => u64 (Z.quot cols 256) *64 292
  | QType.IQ4_NL => u64 (Z.quot cols 32) *64 18
  | QType.IQ4_XS => u64 (Z.quot cols 256) *64 136
  | QType.F16 | QType.BF16 => u64 cols *64 2
  | QType.F32 => u64 cols *64 4
  | QType.INT4 | QType.FP4_E2M1 | QType.MXFP4 => u64 (Z.quot (cols + 1) 2)
  | QType.NVFP4 | QType.MXFP4_KV => u64 (Z.quot (cols + 1) 2)
  | QType.FP8_E4M3 | QType.FP8_E5M2 | QType.INT8 => u64 cols
  | QType.INT32 => u64 cols *64 4
  | _ => u64 cols *64 2
  end.

(** ** GGUF type tables *)

Definition gguf_blck_size (t : GgufWireType) : Z :=
  match t with
  | GgufWireType.F32 | GgufWireType.F16 | GgufWireType.BF16 | GgufWireType.F64 | GgufWireType.I8
  | GgufWireType.I16 | GgufWireType.I32 | GgufWireType.I64 => 1
  | GgufWireType.Q4_0 | GgufWireType.Q4_1 | GgufWireType.Q5_0 | GgufWireType.Q5_1
  | GgufWireType.Q8_0 | GgufWireType.Q8_1 | GgufWireType.IQ4_NL => 32
  | GgufWireType.Q2_K | GgufWireType.Q3_K | GgufWireType.Q4_K | GgufWireType.Q5_K
  | GgufWireType.Q6_K | GgufWireType.Q8_K | GgufWireType.IQ2_XXS | GgufWireType.IQ2_XS
  | GgufWireType.IQ2_S | GgufWireType.IQ3_XXS | GgufWireType.IQ3_S | GgufWireType.IQ1_S
  | GgufWireType.IQ1_M | GgufWireType.IQ4_XS => 256
  | GgufWireType.MXFP4 | GgufWireType.MXFP4_V2 => 32
  | GgufWireType.Raw _ => 0
  end.

Definition gguf_type_size (t : GgufWireType) : Z :=
  match t with
  | GgufWireType.F32 => 4
  | GgufWireType.F16 => 2
  | GgufWireType.BF16 => 2
  | GgufWireType.F64 => 8
  | GgufWireType.I8 => 1
  | GgufWireType.I16 => 2
  | GgufWireType.I32 => 4
  | GgufWireType.I64 => 8
  | GgufWireType.Q4_0 => 18
  | GgufWireType.Q4_1 => 20
  | GgufWireType.Q5_0 => 22
  | GgufWireType.Q5_1 => 24
  | GgufWireType.Q8_0 => 34
  | GgufWireType.Q8_1 => 36
  | GgufWireType.Q2_K => 84
  | GgufWireType.Q3_K => 110
  | GgufWireType.Q4_K => 144
  | GgufWireType.Q5_K => 176
  | GgufWireType.Q6_K => 210
  | GgufWireType.Q8_K => 292
  | GgufWireType.IQ2_XXS => 66
  | GgufWireType.IQ2_XS => 74
  | GgufWireType.IQ2_S => 82
  | GgufWireType.IQ3_XXS => 98
  | GgufWireType.IQ3_S => 110
  | GgufWireType.IQ1_S => 50
  | GgufWireType.IQ1_M => 56
  | GgufWireType.IQ4_NL => 18
  | GgufWireType.IQ4_XS => 136
  | GgufWireType.MXFP4 | GgufWireType.MXFP4_V2 => 17
  | GgufWireType.Raw _ => 0
  end.

Definition gguf_row_size (t : GgufWireType) (n_elements : Z) : Z :=
  let bs := gguf_blck_size t in
  if bs =? 0 then 0 else u64 (Z.quot (n_elements + bs - 1) bs) *64 gguf_type_size t.

Definition gguf_type_to_qtype (t : GgufWireType) : QType :=
  match t with
  | GgufWireType.F32 => QType.F32
  | GgufWireType.F16 => QType.F16
  | GgufWireType.BF16 => QType.BF16
  | GgufWireType.Q4_0 => QType.Q4_0
  | GgufWireType.Q4_1 => QType.Q4_1
  | GgufWireType.Q5_0 => QType.Q5_0
  | GgufWireType.Q5_1 => QType.Q5_1
  | GgufWireType.Q8_0 => QType.Q8_0
  | GgufWireType.Q8_1 => QType.Q8_1
  | GgufWireType.Q2_K => QType.Q2_K
  | GgufWireType.Q3_K => QType.Q3_K
  | GgufWireType.Q4_K => QType.Q4_K
  | GgufWireType.Q5_K => QType.Q5_K
  | GgufWireType.Q6_K => QType.Q6_K
  | GgufWireType.Q8_K => QType.Q8_K
  | GgufWireType.MXFP4 | GgufWireType.MXFP4_V2 => QType.MXFP4
  | GgufWireType.I8 => QType.INT8
  | GgufWireType.I32 => QType.INT32
  | GgufWireType.IQ4_NL => QType.IQ4_NL
  | GgufWireType.IQ4_XS => QType.IQ4_XS
  | _ => QType.NONE
  end.

(** ** What a call does

    It returns, throws a C++ exception, aborts the process ([QUENCH_CHECK]), does
    something the language leaves undefined (an access outside an array or a
    mapping, a signed overflow, a conversion out of range), or is still running
    when the model's fuel ends. *)
Inductive outcome (A : Type) : Type :=
  | Returns (a : A)
  | Throws
  | Aborts
  | Undefined
  | OutOfFuel.
Arguments Returns {A} a.
Arguments Throws {A}.
Arguments Aborts {A}.
Arguments Undefined {A}.
Arguments OutOfFuel {A}.

#[global] Instance outcome_ret : MRet outcome := fun A a => Returns a.
#[global] Instance outcome_bind : MBind outcome := fun A B f m =>
  match m with
  | Returns a => f a
  | Throws => Throws
  | Aborts => Aborts
  | Undefined => Undefined
  | OutOfFuel => OutOfFuel
  end.

(** [a[i]] and [a[i] = x] on a C array. *)
Definition arr_get (a : list Z) (i : Z) : outcome Z :=
  match vget i a with
  | Some x => Returns x
  | None => Undefined
  end.

Definition arr_set (a : list Z) (i x : Z) : outcome (list Z) :=
  match vget i a with
  | Some _ => Returns (vset i x a)
  | None => Undefined
  end.

Definition in_i64 (z : Z) : bool := (- 2 ^ 63 <=? z) && (z <? 2 ^ 63).

Definition mul_i64 (a b : Z) : outcome Z := if in_i64 (a * b) then Returns (a * b) else Undefined.

(** ** Tensor descriptors *)

Module TensorKind.
Inductive t : Type :=
  | UNKNOWN | WQ | WK | WV | WO | QKV_FUSED | KV_A_PROJ | KV_A_NORM | KV_B_PROJ | W_GATE | W_UP
  | W_DOWN | EXPERT_GATE | EXPERT_UP | EXPERT_DOWN | FUSED_KV | FUSED_GATE_UP | TOK_EMBED | LM_HEAD
  | ROUTER | SHARED_EXPERT_GATE | SSM_IN | SSM_OUT | CONV1D_W | CONV1D_B | A_LOG | DT_BIAS | BETA
  | ALPHA | SSM_GROUP_NORM | GDN_GATE | GDN_ALPHA | GDN_BETA | GDN_ALPHA_BETA_PACKED
  | GDN_INPUT_PACKED | ATTN_NORM | FFN_NORM | POST_ATTN_NORM | POST_FFN_NORM | QK_NORM_Q | QK_NORM_K
  | ROPE_FREQS | SIGLIP_ATTN | SIGLIP_FFN | SIGLIP_NORM | MM_PROJ.

#[global] Instance eq_dec : EqDecision t.
Proof. solve_decision. Defined.
End TensorKind.

Notation TensorKind := TensorKind.t.

(** Where a pointer points: a mapping and a byte offset into it. *)
Definition Ptr : Type := option (Z * Z).

Definition ptr_add (p : Ptr) (n : Z) : Ptr := prod_map id (Z.add n) <$> p.

Definition kMaxDims : Z := 4.

Record Tensor := mkTensor {
  t_data : Ptr;
  t_qtype : QType;
  t_ndim : Z;
  t_shape : list Z;
  t_stride : list Z;
  t_on_device : bool;
  t_kind : TensorKind;
  t_scales : Ptr;
  t_tensor_scale : spec_float;
  t_mxfp4_layout_v2 : bool;
  t_dropped_source : bool
}.

(** [1.0f]. *)
Definition f32_one : spec_float := S754_finite false (2 ^ 23) (-23).

Definition default_tensor : Tensor :=
  mkTensor None QType.NONE 0 [0; 0; 0; 0] [0; 0; 0; 0] false TensorKind.UNKNOWN None f32_one false false.

(** [for (i = n - 1; i >= 0; --i) stride[i] = stride[i + 1] * shape[i + 1]]. *)
Fixpoint stride_loop (n : nat) (shape stride : list Z) : outcome (list Z) :=
  match n with
  | O => Returns stride
  | S i =>
      s ← arr_get stride (Z.of_nat i + 1);
      d ← arr_get shape (Z.of_nat i + 1);
      p ← mul_i64 s d;
      stride' ← arr_set stride (Z.of_nat i) p;
      stride_loop i shape stride'
  end.

Definition set_stride (t : Tensor) (st : list Z) : Tensor :=
  mkTensor (t_data t) (t_qtype t) (t_ndim t) (t_shape t) st (t_on_device t) (t_kind t) (t_scales t)
    (t_tensor_scale t) (t_mxfp4_layout_v2 t) (t_dropped_source t).

Definition compute_strides (t : Tensor) : outcome Tensor :=
  if t_ndim t =? 0 then Returns t
  else
    st ← arr_set (t_stride t) (t_ndim t - 1) 1;
    st' ← stride_loop (Z.to_nat (t_ndim t - 1)) (t_shape t) st;
    Returns (set_stride t st').

(** [for (i = 0; i < n; ++i) dst[i] = src[i]]. *)
Fixpoint copy_loop (n : nat) (i : Z) (src dst : list Z) : outcome (list Z) :=
  match n with
  | O => Returns dst
  | S n =>
      x ← arr_get src i;
      dst' ← arr_set dst i x;
      copy_loop n (i + 1) src dst'
  end.

Definition new_tensor (data : Ptr) (q : QType) (ndim : Z) (shape : list Z) (on_device : bool)
    : outcome Tensor :=
  if (0 <=? ndim) && (ndim <=? kMaxDims) then
    sh ← copy_loop (Z.to_nat ndim) 0 shape (t_shape default_tensor);
    compute_strides (mkTensor data q ndim sh (t_stride default_tensor) on_device TensorKind.UNKNOWN None f32_one
                       false false)
  else Aborts.

(** [for (i = 0; i < n; ++i) acc *= a[i]]. *)
Fixpoint prod_loop (n : nat) (i : Z) (a : list Z) (acc : Z) : outcome Z :=
  match n with
  | O => Returns acc
  | S n =>
      x ← arr_get a i;
      acc' ← mul_i64 acc x;
      prod_loop n (i + 1) a acc'
  end.

Definition numel (t : Tensor) : outcome Z :=
  if t_ndim t =? 0 then Returns 0 else prod_loop (Z.to_nat (t_ndim t)) 0 (t_shape t) 1.

Definition nbytes (t : Tensor) : outcome Z :=
  n ← numel t;
  if bool_decide (t_qtype t = QType.INT4 \/ t_qtype t = QType.FP4_E2M1)
  then Returns (u64 (Z.quot (n + 1) 2))
  else Returns (u64 n *64 qtype_elem_bytes (t_qtype t)).

Fixpoint contiguous_loop (n : nat) (shape stride : list Z) (expected : Z) : outcome bool :=
  match n with
  | O => Returns true
  | S i =>
      s ← arr_get stride (Z.of_nat i);
      if negb (s =? expected) then Returns false
      else
        d ← arr_get shape (Z.of_nat i);
        e ← mul_i64 expected d;
        contiguous_loop i shape stride e
  end.

Definition is_contiguous (t : Tensor) : outcome bool :=
  if t_ndim t =? 0 then Returns true
  else contiguous_loop (Z.to_nat (t_ndim t)) (t_shape t) (t_stride t) 1.

(** The copy of the new shape, with its running product. *)
Fixpoint reshape_loop (n : nat) (i : Z) (src dst : list Z) (acc : Z) : outcome (list Z * Z) :=
  match n with
  | O => Returns (dst, acc)
  | S n =>
      x ← arr_get src i;
      dst' ← arr_set dst i x;
      acc' ← mul_i64 acc x;
      reshape_loop n (i + 1) src dst' acc'
  end.

Definition reshape (t : Tensor) (new_ndim : Z) (new_shape : list Z) : outcome Tensor :=
  '(sh, new_numel) ← reshape_loop (Z.to_nat new_ndim) 0 new_shape (t_shape default_tensor) 1;
  n ← numel t;
  if negb (new_numel =? n) then Throws
  else compute_strides (mkTensor (t_data t) (t_qtype t) new_ndim sh (t_stride default_tensor)
                          (t_on_device t) (t_kind t) (t_scales t) (t_tensor_scale t) false false).

Definition slice (t : Tensor) (start stop : Z) : outcome Tensor :=
  if negb (0 <? t_ndim t) then Aborts
  else
    d0 ← arr_get (t_shape t) 0;
    if negb ((0 <=? start) && (stop <=? d0) && (start <? stop)) then Aborts
    else
      s0 ← arr_get (t_stride t) 0;
      off ← mul_i64 start s0;
      off' ← mul_i64 off (qtype_elem_bytes (t_qtype t));
      Returns (mkTensor (ptr_add (t_data t) off') (t_qtype t) (t_ndim t) (vset 0 (stop - start) (t_shape t))
                 (t_stride t) (t_on_device t) (t_kind t) (t_scales t) (t_tensor_scale t) (t_mxfp4_layout_v2 t)
                 (t_dropped_source t)).

