(* ===== verification/TensorViews.v ===== *)
(** * Tensor descriptors: strides, element counts and views

    What the constructor, [reshape] and [slice] of [src/core/tensor.cpp] give,
    and how the two row-size tables of the loader agree. *)

From Corelib Require Import ssreflect_rw SpecFloat.
From stdpp Require Import prelude list.
From S2P Require Import Prelude QTypes.
Open Scope Z_scope.

(** ** Row-major layout *)

Definition prodZ (l : list Z) : Z := foldr Z.mul 1 l.

Fixpoint row_major (dims : list Z) : list Z :=
  match dims with
  | [] => []
  | _ :: ds => prodZ ds :: row_major ds
  end.

(** A C array of [kMaxDims] entries whose first ones are [l]. *)
Definition arr4 (l : list Z) : list Z := take 4 (l ++ replicate 4 0).

(** The element count and every stride are [int64_t] values. *)
Definition dims_fit (dims : list Z) : Prop :=
  in_i64 (prodZ dims) = true /\ Forall (fun p => in_i64 p = true) (row_major dims).

#[global] Instance dims_fit_dec dims : Decision (dims_fit dims).
Proof. apply and_dec; apply _. Defined.

Definition tensor_of (data : Ptr) (q : QType) (dims : list Z) (on_device : bool) : Tensor :=
  mkTensor data q (Z.of_nat (length dims)) (arr4 dims) (arr4 (row_major dims)) on_device
    TensorKind.UNKNOWN None f32_one false false.

Lemma mul_i64_fits a b : in_i64 (a * b) = true -> mul_i64 a b = Returns (a * b).
Proof. intros H. unfold mul_i64. by rw H. Qed.

(** Split a list of at most four dimensions, and the fit of its products. *)
Ltac split_dims dims :=
  destruct dims as [|? [|? [|? [|? [|? ?]]]]]; simpl in *; try lia;
  repeat match goal with
  | H : Forall _ (_ :: _) |- _ => apply Forall_cons in H as [? H]
  | H : _ /\ _ |- _ => destruct H
  end.

Lemma in_i64_le a b : 0 <= a <= b -> in_i64 b = true -> in_i64 a = true.
Proof. unfold in_i64. intros. repeat case_zbool; simpl in *; lia || done. Qed.

(** The product at hand is one of those known to fit. *)
Ltac fits :=
  match goal with
  | H : in_i64 ?c = true |- in_i64 ?x = true => replace x with c by ring; exact H
  end.

(** Run a loop of array accesses and multiplications whose products fit. *)
Ltac run_products :=
  repeat (cbn -[mul_i64 in_i64 Z.mul Z.add];
          match goal with
          | |- context [mul_i64 ?a ?b] => rewrite (mul_i64_fits a b) by fits
          end);
  cbv -[Z.mul]; repeat first [reflexivity | ring | f_equal].

(** The same for a loop that also compares each stride. *)
Ltac run_contiguous :=
  repeat (cbn -[mul_i64 in_i64 Z.mul Z.add Z.eqb];
          match goal with
          | |- context [mul_i64 ?a ?b] => rewrite (mul_i64_fits a b) by fits
          | |- context [Z.eqb ?a ?b] => replace (Z.eqb a b) with true by (symmetry; apply Z.eqb_eq; ring)
          end);
  done.

Lemma prodZ_pos l : Forall (fun d => 0 < d) l -> 0 < prodZ l.
Proof. unfold prodZ. induction 1; simpl; lia || nia. Qed.

(** The running product of the array's entries from index [length l1] on. *)
Lemma prod_loop_returns l2 l1 rest acc :
  0 < acc -> Forall (fun d => 0 < d) l2 -> in_i64 (acc * prodZ l2) = true ->
  prod_loop (length l2) (Z.of_nat (length l1)) (l1 ++ l2 ++ rest) acc = Returns (acc * prodZ l2).
Proof.
  revert l1 acc. induction l2 as [|d l2 IH]; intros l1 acc Ha Hpos Hfit; simpl.
  { f_equal. unfold prodZ. simpl. lia. }
  apply Forall_cons in Hpos as [Hd Hpos]. pose proof (prodZ_pos l2 Hpos).
  unfold arr_get, vget. destruct (Z.ltb_spec (Z.of_nat (length l1)) 0); [lia|].
  rw Nat2Z.id list_lookup_middle //=. unfold mbind, outcome_bind.
  rewrite mul_i64_fits.
  2:{ eapply in_i64_le; [|exact Hfit]. change (prodZ (d :: l2)) with (d * prodZ l2).
      rewrite Z.mul_assoc. assert (0 < acc * d) by nia. nia. }
  specialize (IH (l1 ++ [d]) (acc * d)). rw length_app -app_assoc /= in IH.
  replace (Z.of_nat (length l1) + 1) with (Z.of_nat (length l1 + 1)) by lia.
  rewrite IH by (nia || done || by rewrite <- Z.mul_assoc). f_equal.
  unfold prodZ. simpl. ring.
Qed.

Section tensors.
Context (data : Ptr) (q : QType) (on_device : bool).

Lemma new_tensor_returns dims rest :
  (length dims <= 4)%nat -> dims_fit dims ->
  new_tensor data q (Z.of_nat (length dims)) (dims ++ rest) on_device
  = Returns (tensor_of data q dims on_device).
Proof.
  intros Hl [Hp Hs]. unfold new_tensor, tensor_of, compute_strides, arr4. split_dims dims; run_products.
Qed.

Lemma numel_tensor_of dims :
  (0 < length dims <= 4)%nat -> Forall (fun d => 0 < d) dims -> dims_fit dims ->
  numel (tensor_of data q dims on_device) = Returns (prodZ dims).
Proof.
  intros Hl Hpos [Hp Hs]. unfold numel. destruct (Z.eqb_spec (t_ndim (tensor_of data q dims on_device)) 0) as [E|_]; [simpl in E; lia|].
  pose proof (prod_loop_returns dims [] (take (4 - length dims) (replicate 4 0)) 1) as Hloop.
  rw Z.mul_1_l in Hloop. rw -Hloop //= Nat2Z.id. f_equal. unfold arr4. by rewrite take_app_ge by lia.
Qed.

Lemma contiguous_tensor_of dims :
  (length dims <= 4)%nat -> dims_fit dims ->
  is_contiguous (tensor_of data q dims on_device) = Returns true.
Proof.
  intros Hl [Hp Hs]. unfold is_contiguous, tensor_of, arr4. split_dims dims; run_contiguous.
Qed.
End tensors.

(** ** Views *)

Definition with_data (t : Tensor) (p : Ptr) : Tensor :=
  mkTensor p (t_qtype t) (t_ndim t) (t_shape t) (t_stride t) (t_on_device t) (t_kind t) (t_scales t)
    (t_tensor_scale t) (t_mxfp4_layout_v2 t) (t_dropped_source t).

(** Element types of a whole number of bytes. *)
Definition whole_byte_type (q : QType) : bool :=
  is_compute_dtype q && negb (bool_decide (q = QType.INT4 \/ q = QType.FP4_E2M1)).

Lemma whole_byte_elem q : whole_byte_type q = true -> 1 <= qtype_elem_bytes q <= 4.
Proof. by destruct q; simpl; try lia. Qed.

Lemma reshape_loop_split n i src dst acc sh p :
  copy_loop n i src dst = Returns sh -> prod_loop n i src acc = Returns p ->
  reshape_loop n i src dst acc = Returns (sh, p).
Proof.
  revert i dst acc. induction n as [|n IH]; intros i dst acc; simpl; [by intros [= ->] [= ->]|].
  unfold mbind, outcome_bind. destruct (arr_get src i); try done.
  destruct (arr_set dst i _); try done. destruct (mul_i64 acc _); try done. apply IH.
Qed.

Lemma copy_loop_returns dims rest :
  (length dims <= 4)%nat ->
  copy_loop (length dims) 0 (dims ++ rest) (t_shape default_tensor) = Returns (arr4 dims).
Proof. intros Hl. unfold arr4. by split_dims dims. Qed.

Section views.
Context (data : Ptr) (q : QType) (on_device : bool) (dims : list Z).
Hypothesis Hlen : (0 < length dims <= 4)%nat.
Hypothesis Hpos : Forall (fun d => 0 < d) dims.
Hypothesis Hfit : dims_fit dims.

Lemma reshape_returns dims' rest :
  (length dims' <= 4)%nat -> Forall (fun d => 0 < d) dims' -> dims_fit dims' ->
  reshape (tensor_of data q dims on_device) (Z.of_nat (length dims')) (dims' ++ rest)
  = if decide (prodZ dims' = prodZ dims) then Returns (tensor_of data q dims' on_device) else Throws.
Proof.
  intros Hl' Hpos' Hfit'. unfold reshape. rw Nat2Z.id.
  pose proof (prod_loop_returns dims' [] rest 1 ltac:(lia) Hpos') as Hp. rw Z.mul_1_l in Hp.
  rewrite (reshape_loop_split _ _ _ _ _ _ _ (copy_loop_returns dims' rest Hl') (Hp (proj1 Hfit'))).
  unfold mbind at 1, outcome_bind at 1. rewrite numel_tensor_of by done.
  unfold mbind at 1, outcome_bind at 1.
  case_decide as E; destruct (Z.eqb_spec (prodZ dims') (prodZ dims)); try done. simpl negb. cbn iota.
  pose proof (new_tensor_returns data q on_device dims' rest Hl' Hfit') as Hn.
  unfold new_tensor in Hn. rewrite (proj2 (andb_true_iff _ _)) in Hn.
  2:{ unfold kMaxDims. split; apply Z.leb_le; lia. }
  rw Nat2Z.id copy_loop_returns // in Hn.
Qed.
End views.

Lemma returns_bind {A B} (a : A) (f : A -> outcome B) : (Returns a ≫= f) = f a.
Proof. done. Qed.

Lemma arr_get_0 x l : arr_get (x :: l) 0 = Returns x.
Proof. done. Qed.

Lemma arr4_cons x l : arr4 (x :: l) = x :: take 3 (l ++ replicate 4 0).
Proof. done. Qed.

Lemma in_i64_small z : 0 <= z < 2 ^ 63 -> in_i64 z = true.
Proof. intros. unfold in_i64. repeat case_zbool; simpl; lia || done. Qed.

Lemma suffix_fit l : Forall (fun d => 0 < d) l -> in_i64 (prodZ l) = true -> dims_fit l.
Proof.
  intros Hl Hp. split; [done|]. induction Hl as [|d l Hd Hl IH]; [by constructor|].
  pose proof (prodZ_pos l Hl). assert (in_i64 (prodZ l) = true) as Hp'.
  { eapply in_i64_le; [|exact Hp]. change (prodZ (d :: l)) with (d * prodZ l). nia. }
  simpl. constructor; auto.
Qed.

Section slices.
Context (data : Ptr) (q : QType) (on_device : bool) (d0 : Z) (ds : list Z).
Hypothesis Hlen : (length ds <= 3)%nat.
Hypothesis Hpos : Forall (fun d => 0 < d) (d0 :: ds).
Hypothesis Hfit : in_i64 (prodZ (d0 :: ds) * 4) = true.
Hypothesis Hq : whole_byte_type q = true.

Notation row := (prodZ ds).

Lemma rows_pos : 0 < d0 /\ 0 < row /\ d0 * row * 4 < 2 ^ 63.
Proof.
  apply Forall_cons in Hpos as [Hd Hds]. pose proof (prodZ_pos ds Hds). split; [done|split; [done|]].
  unfold in_i64 in Hfit. apply andb_true_iff in Hfit as [_ Hf%Z.ltb_lt]. exact Hf.
Qed.

Lemma rows_fit a : 0 < a <= d0 -> dims_fit (a :: ds).
Proof.
  intros Ha. destruct rows_pos as (Hd & Hr & Hb). inversion Hpos; subst.
  apply suffix_fit; [by constructor; [lia|]|]. apply in_i64_small.
  change (prodZ (a :: ds)) with (a * row). nia.
Qed.

Lemma rows_bound a e : 0 <= a <= d0 -> 0 <= e <= 4 -> 0 <= a * row * e < 2 ^ 63.
Proof.
  intros Ha He. destruct rows_pos as (Hd & Hr & Hb). assert (0 <= a * row <= d0 * row) by nia. nia.
Qed.

Lemma slice_returns a b :
  0 <= a < b -> b <= d0 ->
  slice (tensor_of data q (d0 :: ds) on_device) a b
  = Returns (tensor_of (ptr_add data (a * row * qtype_elem_bytes q)) q ((b - a) :: ds) on_device).
Proof.
  intros Ha Hb. destruct rows_pos as (Hd & Hr & Hf). pose proof (whole_byte_elem q Hq).
  unfold slice. cbn [t_ndim t_shape t_stride t_qtype tensor_of].
  destruct (Z.ltb_spec 0 (Z.of_nat (length (d0 :: ds)))); [|simpl in *; lia].
  rw !arr4_cons !arr_get_0 !returns_bind /=.
  replace (negb ((0 <=? a) && (b <=? d0) && (a <? b))) with false; [|repeat case_zbool; simpl; lia || done].
  pose proof (rows_bound a 1). rewrite mul_i64_fits by (apply in_i64_small; lia). rw returns_bind.
  rewrite mul_i64_fits by (apply in_i64_small, rows_bound; lia). done.
Qed.

Lemma nbytes_rows p a :
  0 < a <= d0 -> nbytes (tensor_of p q (a :: ds) on_device) = Returns (a * row * qtype_elem_bytes q).
Proof.
  intros Ha. destruct rows_pos as (Hd & Hr & Hf). pose proof (whole_byte_elem q Hq). inversion Hpos; subst.
  unfold nbytes. rewrite numel_tensor_of; [|simpl; lia|by constructor; [lia|]|by apply rows_fit].
  change (prodZ (a :: ds)) with (a * row). unfold mbind, outcome_bind. cbn [t_qtype tensor_of].
  unfold whole_byte_type in Hq. apply andb_true_iff in Hq as [_ ->%negb_true_iff].
  pose proof (rows_bound a 1). pose proof (rows_bound a (qtype_elem_bytes q)).
  rewrite (u64_small (a * row)) by (unfold two64; lia). f_equal. apply u64_small. unfold two64. lia.
Qed.
End slices.

(** ** Theorems *)

(** For every shape of one to four positive dimensions whose byte count is
    an [int64_t], and every whole-byte element type, [slice] cuts the tensor
    exactly: cutting at row [k] gives two tensors that are contiguous, the
    second starting where the first ends, whose byte counts add up to the
    whole; and [reshape] to a shape of as many elements gives a contiguous
    descriptor of the same bytes, while any other shape throws. *)
Theorem views_keep_bytes data q on_device d0 ds k dims' :
  (length ds <= 3)%nat -> (0 < length dims' <= 4)%nat ->
  Forall (fun d => 0 < d) (d0 :: ds) -> Forall (fun d => 0 < d) dims' ->
  in_i64 (prodZ (d0 :: ds) * 4) = true -> in_i64 (prodZ dims') = true ->
  whole_byte_type q = true -> 0 < k < d0 ->
  exists t lo hi m n,
    new_tensor data q (Z.of_nat (length (d0 :: ds))) (d0 :: ds) on_device = Returns t
    /\ slice t 0 k = Returns lo /\ slice t k d0 = Returns hi
    /\ is_contiguous t = Returns true /\ is_contiguous lo = Returns true /\ is_contiguous hi = Returns true
    /\ nbytes lo = Returns m /\ nbytes hi = Returns n /\ nbytes t = Returns (m + n)
    /\ t_data lo = t_data t /\ t_data hi = ptr_add (t_data t) m
    /\ reshape t (Z.of_nat (length dims')) dims'
       = if decide (prodZ dims' = prodZ (d0 :: ds))
         then new_tensor data q (Z.of_nat (length dims')) dims' on_device else Throws.
Proof.
  intros Hl Hl' Hpos Hpos' Hfit Hfit' Hq Hk. pose proof (whole_byte_elem q Hq).
  pose proof (rows_fit d0 ds Hl Hpos Hfit) as Hrows.
  pose proof (new_tensor_returns data q on_device (d0 :: ds) [] ltac:(simpl; lia) (Hrows d0 ltac:(lia))) as Hn.
  pose proof (new_tensor_returns data q on_device dims' [] ltac:(lia) (suffix_fit dims' Hpos' Hfit')) as Hn'.
  pose proof (reshape_returns data q on_device (d0 :: ds) ltac:(simpl; lia) Hpos (Hrows d0 ltac:(lia))
                dims' [] ltac:(lia) Hpos' (suffix_fit dims' Hpos' Hfit')) as Hr.
  rw !app_nil_r in Hn Hn' Hr.
  eexists _, _, _, _, _. split; [exact Hn|].
  split; [apply slice_returns; (done || lia)|]. split; [apply slice_returns; (done || lia)|].
  split; [apply contiguous_tensor_of; [simpl; lia|by apply Hrows; lia]|].
  split; [apply contiguous_tensor_of; [simpl; lia|by apply Hrows; lia]|].
  split; [apply contiguous_tensor_of; [simpl; lia|by apply Hrows; lia]|].
  split; [eapply nbytes_rows; (eauto; lia)|]. split; [eapply nbytes_rows; (eauto; lia)|].
  split; [rewrite (nbytes_rows q on_device d0 ds) by (eauto; lia); f_equal; ring|].
  split; [simpl; destruct data as [[]|]; done|]. split; [simpl; repeat f_equal; ring|].
  rw Hr Hn'. done.
Qed.

Lemma views_keep_bytes_witness :
  exists t lo hi m n,
    new_tensor (Some (0, 64)) QType.F16 2 [3; 4] false = Returns t
    /\ slice t 0 1 = Returns lo /\ slice t 1 3 = Returns hi
    /\ is_contiguous t = Returns true /\ is_contiguous lo = Returns true /\ is_contiguous hi = Returns true
    /\ nbytes lo = Returns m /\ nbytes hi = Returns n /\ nbytes t = Returns (m + n)
    /\ t_data lo = t_data t /\ t_data hi = ptr_add (t_data t) m
    /\ reshape t 3 [2; 3; 2]
       = if decide (prodZ [2; 3; 2] = prodZ [3; 4])
         then new_tensor (Some (0, 64)) QType.F16 3 [2; 3; 2] false else Throws.
Proof.
  apply (views_keep_bytes (Some (0, 64)) QType.F16 false 3 [4] 1 [2; 3; 2]);
    first [simpl; lia | by repeat constructor | vm_compute; done].
Defined.

(** Rows of whole blocks, in the file and in the engine's table. *)
Definition engine_block_bytes (t : GgufWireType) : Z :=
  match t with
  | GgufWireType.MXFP4 | GgufWireType.MXFP4_V2 => 16
  | _ => gguf_type_size t
  end.

Section rows.
Context (t : GgufWireType) (blocks : Z).
Hypothesis Ht : gguf_type_to_qtype t <> QType.NONE.
Hypothesis Hb : 0 <= blocks < 2 ^ 48.

Lemma gguf_row_size_blocks : gguf_row_size t (blocks * gguf_blck_size t) = blocks * gguf_type_size t.
Proof.
  assert (0 < gguf_blck_size t) as Hbs by (destruct t; done).
  assert (0 < gguf_type_size t <= 292) as Hts by (destruct t; simpl in *; lia || done).
  unfold gguf_row_size. destruct (Z.eqb_spec (gguf_blck_size t) 0); [lia|]. rewrite Z.quot_div_nonneg by nia.
  replace ((blocks * gguf_blck_size t + gguf_blck_size t - 1) / gguf_blck_size t) with blocks.
  - rewrite u64_mul_l. apply u64_small. unfold two64. nia.
  - apply (Z.div_unique_pos _ _ _ (gguf_blck_size t - 1)); nia.
Qed.

Lemma qtype_row_bytes_blocks :
  qtype_row_bytes (gguf_type_to_qtype t) (blocks * gguf_blck_size t) = blocks * engine_block_bytes t.
Proof.
  destruct t; simpl in *; try done; rewrite ?Z.quot_mul, ?Z.mul_1_r, ?u64_mul_l by lia;
    try (rewrite u64_small by (unfold two64; lia); lia).
  all: replace (blocks * 32 + 1) with (1 + blocks * 16 * 2) by ring;
    rewrite Z.quot_div_nonneg, Z.div_add by lia; change (1 / 2) with 0;
    rewrite u64_small by (unfold two64; lia); lia.
Qed.
End rows.

(** The engine's row size of every type a GGUF file can carry is the size
    the rows have in the file, for rows of whole blocks, except for MXFP4: there
    the engine counts 16 bytes for each 32 elements, without the scale, while
    the file has 17. *)
Theorem row_sizes_agree t n :
  gguf_type_to_qtype t <> QType.NONE -> 0 <= n < 2 ^ 48 -> n mod gguf_blck_size t = 0 ->
  let blocks := n / gguf_blck_size t in
  gguf_row_size t n = blocks * gguf_type_size t
  /\ qtype_row_bytes (gguf_type_to_qtype t) n
     = blocks * match t with
                | GgufWireType.MXFP4 | GgufWireType.MXFP4_V2 => 16
                | _ => gguf_type_size t
                end.
Proof.
  intros Hq Hn Hm blocks. assert (0 < gguf_blck_size t) as Hbs by (destruct t; done).
  assert (n = blocks * gguf_blck_size t) as En.
  { unfold blocks. pose proof (Z.div_mod n (gguf_blck_size t)). lia. }
  assert (0 <= blocks) by (apply Z.div_pos; lia). clearbody blocks. assert (0 <= blocks < 2 ^ 48) as Hb by nia.
  rewrite En. split; [by apply gguf_row_size_blocks|by apply qtype_row_bytes_blocks].
Qed.

Lemma row_sizes_agree_witness :
  gguf_row_size GgufWireType.Q4_K 512 = 288 /\ qtype_row_bytes QType.Q4_K 512 = 288.
Proof. apply (row_sizes_agree GgufWireType.Q4_K 512); done. Defined.
