(* ===== verification/GgufReader.v ===== *)
(** * The GGUF byte reader

    Models [BinaryReader] of [src/model/gguf_loader_internal.h].  The mapped file
    is a list of bytes; an access outside it is [Undefined], so a theorem that a
    read returns is a theorem that it stays in bounds.  A reader that runs out of
    bytes marks itself failed and yields zeros; it does not move. *)

From Corelib Require Import ssreflect_rw SpecFloat.
From stdpp Require Import prelude list.
From S2P Require Import Prelude QTypes.
Open Scope Z_scope.

(** ** Bytes and numbers *)

Fixpoint le_decode (bs : list Z) : Z :=
  match bs with
  | [] => 0
  | b :: bs => b + 256 * le_decode bs
  end.

Fixpoint le_encode (n : nat) (z : Z) : list Z :=
  match n with
  | O => []
  | S n => z mod 256 :: le_encode n (z / 256)
  end.

(** Two's complement reading of an [n]-byte number. *)
Definition signed (n z : Z) : Z := if z <? 2 ^ (8 * n - 1) then z else z - 2 ^ (8 * n).

(** The value of IEEE-754 bits: [ew] exponent bits, [mw] mantissa bits. *)
Definition float_of_bits (ew mw b : Z) : spec_float :=
  let s := Z.testbit b (ew + mw) in
  let e := Z.land (Z.shiftr b mw) (2 ^ ew - 1) in
  let m := Z.land b (2 ^ mw - 1) in
  let bias := 2 ^ (ew - 1) - 1 in
  if e =? 0 then
    if m =? 0 then S754_zero s else S754_finite s (Z.to_pos m) (1 - bias - mw)
  else if e =? 2 ^ ew - 1 then
    if m =? 0 then S754_infinity s else S754_nan
  else S754_finite s (Z.to_pos (m + 2 ^ mw)) (e - bias - mw).

(** [float] to [double]: exact. *)
Definition widen (f : spec_float) : spec_float :=
  match f with
  | S754_finite s m e => binary_normalize 53 1024 (cond_Zopp s (Z.pos m)) e s
  | f => f
  end.

(** ** The reader *)

Record BinaryReader := mkReader { rd_data : list Z; rd_pos : Z; rd_failed : bool }.

Definition new_reader (data : list Z) : BinaryReader := mkReader data 0 false.

Definition rd (A : Type) : Type := BinaryReader -> outcome (A * BinaryReader).

#[global] Instance rd_ret : MRet rd := fun A a r => Returns (a, r).
#[global] Instance rd_bind : MBind rd := fun A B f m r => '(a, r') ← m r; f a r'.

Definition rd_size (r : BinaryReader) : Z := Z.of_nat (length (rd_data r)).
Definition remaining (r : BinaryReader) : Z := rd_size r -64 rd_pos r.
Definition check (n : Z) (r : BinaryReader) : bool := n <=? remaining r.

Definition fail (r : BinaryReader) : BinaryReader := mkReader (rd_data r) (rd_pos r) true.
Definition advance (n : Z) (r : BinaryReader) : BinaryReader := mkReader (rd_data r) (rd_pos r +64 n) (rd_failed r).

(** The bytes [data_[pos, pos + n)]. *)
Definition load (data : list Z) (pos n : Z) : outcome (list Z) :=
  if (0 <=? pos) && (0 <=? n) && (pos + n <=? Z.of_nat (length data))
  then Returns (take (Z.to_nat n) (drop (Z.to_nat pos) data))
  else Undefined.

Definition skip (n : Z) : rd unit := fun r =>
  if negb (check n r) then Returns (tt, fail r) else Returns (tt, advance n r).

Definition align (alignment : Z) : rd unit := fun r =>
  if alignment =? 0 then Undefined
  else
    let rem := rd_pos r mod alignment in
    if negb (rem =? 0) then
      let pad := alignment -64 rem in
      if negb (check pad r) then Returns (tt, fail r) else Returns (tt, advance pad r)
    else Returns (tt, r).

(** [read<T>()] for a [T] of [n] bytes, as the unsigned number they spell. *)
Definition read (n : Z) : rd Z := fun r =>
  if negb (check n r) then Returns (0, fail r)
  else
    bs ← load (rd_data r) (rd_pos r) n;
    Returns (le_decode bs, advance n r).

Definition read_u8 : rd Z := read 1.
Definition read_i8 : rd Z := z ← read 1; mret (signed 1 z).
Definition read_u16 : rd Z := read 2.
Definition read_i16 : rd Z := z ← read 2; mret (signed 2 z).
Definition read_u32 : rd Z := read 4.
Definition read_i32 : rd Z := z ← read 4; mret (signed 4 z).
Definition read_u64 : rd Z := read 8.
Definition read_i64 : rd Z := z ← read 8; mret (signed 8 z).
Definition read_f32 : rd spec_float := z ← read 4; mret (float_of_bits 8 23 z).
Definition read_f64 : rd spec_float := z ← read 8; mret (float_of_bits 11 52 z).

Definition read_string : rd (list Z) := fun r =>
  '(len, r) ← read_u64 r;
  if rd_failed r || (remaining r <? len) then Returns ([], fail r)
  else
    bs ← load (rd_data r) (rd_pos r) len;
    Returns (bs, advance len r).

(** [for (i = 0; i < count && !r.failed(); i++) out.push_back(body(r))]. *)
Fixpoint read_loop {A} (fuel : nat) (count : Z) (body : rd A) : rd (list A) := fun r =>
  if (0 <? count) && negb (rd_failed r) then
    match fuel with
    | O => OutOfFuel
    | S fuel =>
        '(a, r) ← body r;
        '(l, r) ← read_loop fuel (count - 1) body r;
        Returns (a :: l, r)
    end
  else Returns ([], r).

(** One round more than there are bytes. *)
Definition read_fuel (r : BinaryReader) : nat := S (length (rd_data r)).

Definition read_while {A} (count : Z) (body : rd A) : rd (list A) := fun r =>
  read_loop (read_fuel r) count body r.

(** [for (i = 0; i < n; i++) out.push_back(body(r))], a loop that does not look at
    [failed]. *)
Fixpoint read_times {A} (n : nat) (body : rd A) : rd (list A) :=
  match n with
  | O => mret []
  | S n => a ← body; l ← read_times n body; mret (a :: l)
  end.
