(* ===== verification/TensorKinds.v ===== *)
(** * Tensor kinds from tensor names

    Models [src/model/tensor_kind_matcher.cpp]: the kind the engine gives a tensor
    by its GGUF or SafeTensors name.  The order of the tests is the source's. *)

From Corelib Require Import ssreflect_rw.
From stdpp Require Import prelude list strings.
From S2P Require Import Prelude StreamPipeline QTypes.
Open Scope Z_scope.

Definition ends_with (s suffix : bytes) : bool :=
  Nat.leb (length suffix) (length s) && bool_decide (drop (length s - length suffix) s = suffix).

Definition contains (s needle : bytes) : bool := bool_decide (is_Some (str_find needle s)).

(** [name == "..."] and [name.substr(0, n) == "..."]. *)
Definition is_name (name : bytes) (s : string) : bool := bool_decide (name = src_of s).
Definition has_prefix (name : bytes) (s : string) : bool :=
  bool_decide (take (length (src_of s)) name = src_of s).

(** Return the kind of the first needle the name contains. *)
Fixpoint first_match (name : bytes) (tests : list (list string * TensorKind)) : option TensorKind :=
  match tests with
  | [] => None
  | (needles, k) :: tests =>
      if existsb (fun n => contains name (src_of n)) needles then Some k else first_match name tests
  end.

Definition self_attn_tests : list (list string * TensorKind) :=
  [([".q_proj."], TensorKind.WQ); ([".k_proj."], TensorKind.WK); ([".v_proj."], TensorKind.WV);
   ([".o_proj."], TensorKind.WO); ([".q_norm."], TensorKind.QK_NORM_Q); ([".k_norm."], TensorKind.QK_NORM_K);
   ([".kv_a_proj_with_mqa."; ".kv_a_proj."], TensorKind.KV_A_PROJ);
   ([".kv_a_layernorm."], TensorKind.KV_A_NORM); ([".kv_b_proj."], TensorKind.KV_B_PROJ)]%string.

Definition layernorm_tests : list (list string * TensorKind) :=
  [([".input_layernorm."], TensorKind.ATTN_NORM);
   ([".post_attention_layernorm."], TensorKind.POST_ATTN_NORM);
   ([".pre_feedforward_layernorm."], TensorKind.FFN_NORM);
   ([".post_feedforward_layernorm."], TensorKind.POST_FFN_NORM)]%string.

Definition mlp_tests : list (list string * TensorKind) :=
  [([".gate_proj."], TensorKind.W_GATE); ([".up_proj."], TensorKind.W_UP);
   ([".down_proj."], TensorKind.W_DOWN)]%string.

Definition temporal_tests : list (list string * TensorKind) :=
  [([".gate_proj."], TensorKind.GDN_GATE); ([".alpha."], TensorKind.ALPHA);
   ([".beta."], TensorKind.BETA)]%string.

Definition mamba_tests : list (list string * TensorKind) :=
  [([".in_proj."], TensorKind.SSM_IN); ([".out_proj."], TensorKind.SSM_OUT);
   ([".conv1d.weight"], TensorKind.CONV1D_W); ([".conv1d.bias"], TensorKind.CONV1D_B);
   ([".dt_bias"], TensorKind.DT_BIAS); ([".A_log"], TensorKind.A_LOG);
   ([".norm."], TensorKind.SSM_GROUP_NORM)]%string.

(** The GGUF tests before and after the one that looks at the suffix. *)
Definition gguf_tests : list (list string * TensorKind) :=
  [([".attn_q."; ".wq."], TensorKind.WQ); ([".attn_k."; ".wk."], TensorKind.WK);
   ([".attn_v."; ".wv."], TensorKind.WV); ([".attn_output."; ".wo."], TensorKind.WO);
   ([".attn_qkv."], TensorKind.QKV_FUSED);
   ([".ffn_gate_inp_shexp."], TensorKind.SHARED_EXPERT_GATE); ([".ffn_gate_inp."], TensorKind.ROUTER);
   ([".ffn_gate_exps."], TensorKind.EXPERT_GATE); ([".ffn_up_exps."], TensorKind.EXPERT_UP);
   ([".ffn_down_exps."], TensorKind.EXPERT_DOWN); ([".ffn_gate."], TensorKind.W_GATE);
   ([".ffn_up."], TensorKind.W_UP); ([".ffn_down."], TensorKind.W_DOWN);
   ([".gdn_gate."; ".gdn_output_gate."; ".attn_gate."], TensorKind.GDN_GATE);
   ([".ssm_in."], TensorKind.SSM_IN); ([".ssm_out."], TensorKind.SSM_OUT)]%string.

Definition gguf_late_tests : list (list string * TensorKind) :=
  [([".ssm_a"], TensorKind.A_LOG); ([".ssm_dt_b"], TensorKind.DT_BIAS); ([".ssm_beta"], TensorKind.BETA);
   ([".ssm_alpha"], TensorKind.ALPHA); ([".ssm_norm."], TensorKind.SSM_GROUP_NORM);
   ([".attn_q_norm."], TensorKind.QK_NORM_Q); ([".attn_k_norm."], TensorKind.QK_NORM_K);
   ([".post_attn_norm."], TensorKind.POST_ATTN_NORM); ([".post_ffn_norm."], TensorKind.POST_FFN_NORM);
   ([".attn_norm."], TensorKind.ATTN_NORM); ([".ffn_norm."], TensorKind.FFN_NORM);
   ([".rope_freqs"], TensorKind.ROPE_FREQS)]%string.

(** Tests behind a guard: [if (contains(name, guard)) { ... }]. *)
Definition guarded (name : bytes) (guard : string) (tests : list (list string * TensorKind)) : option TensorKind :=
  if contains name (src_of guard) then first_match name tests else None.

(** The first answer of a sequence of tests. *)
Fixpoint first_answer (l : list (option TensorKind)) : TensorKind :=
  match l with
  | [] => TensorKind.UNKNOWN
  | Some k :: _ => k
  | None :: l => first_answer l
  end.

Definition match_tensor_kind (name : bytes) : TensorKind :=
  if is_name name "token_embd.weight" || is_name name "tok_embeddings.weight"
     || is_name name "model.embed_tokens.weight" then TensorKind.TOK_EMBED
  else if is_name name "output.weight" || is_name name "lm_head.weight" then TensorKind.LM_HEAD
  else if is_name name "output_norm.weight" || is_name name "norm.weight" || is_name name "model.norm.weight"
  then TensorKind.FFN_NORM
  else if negb (has_prefix name "blk." || has_prefix name "layers." || has_prefix name "model.layers.")
  then TensorKind.UNKNOWN
  else
    first_answer
      [guarded name ".self_attn." self_attn_tests;
       first_match name layernorm_tests;
       guarded name ".mlp." mlp_tests;
       guarded name ".temporal_block." temporal_tests;
       guarded name ".mamba." mamba_tests;
       first_match name gguf_tests;
       if contains name (src_of ".ssm_conv1d.")
       then Some (if ends_with name (src_of ".bias") then TensorKind.CONV1D_B else TensorKind.CONV1D_W)
       else None;
       first_match name gguf_late_tests].

(** ** The layer number does not matter *)

Definition digits (n : bytes) : Prop := n <> [] /\ Forall (fun b => 48 <= b <= 57) n.

(** A needle of the tables: a dot, then something that is no digit. *)
Definition dotted (needle : bytes) : bool :=
  match needle with
  | d :: c :: _ => (d =? 46) && negb ((48 <=? c) && (c <=? 57))
  | _ => false
  end.

Lemma contains_skip x s needle : starts_with needle (x :: s) = false -> contains (x :: s) needle = contains s needle.
Proof.
  intros H. unfold contains. cbn [str_find]. rewrite H. apply bool_decide_ext.
  by rewrite fmap_is_Some.
Qed.

Lemma dotted_spec needle :
  dotted needle = true -> exists c l, needle = 46 :: c :: l /\ ~ (48 <= c <= 57).
Proof.
  destruct needle as [|d [|c l]]; [done..|]. simpl. intros [->%Z.eqb_eq Hc]%andb_true_iff.
  exists c, l. split; [done|]. intros Hd. revert Hc. repeat case_zbool; simpl; lia || done.
Qed.

Lemma contains_layer n rest needle :
  digits n -> dotted needle = true -> contains (src_of "blk." ++ n ++ rest) needle = contains rest needle.
Proof.
  intros [Hne Hn] (c & l & -> & Hc)%dotted_spec.
  change (src_of "blk." ++ n ++ rest) with (98 :: 108 :: 107 :: 46 :: n ++ rest).
  do 3 (rewrite contains_skip; [|done]).
  assert (contains (n ++ rest) (46 :: c :: l) = contains rest (46 :: c :: l)) as Htail.
  { clear Hne. induction Hn as [|d n Hd _ IH]; [done|]. cbn [app]. rewrite contains_skip; [done|].
    cbn [starts_with]. by rewrite (proj2 (Z.eqb_neq 46 d)) by lia. }
  rewrite contains_skip, Htail; [done|]. destruct Hn as [|d n Hd _]; [done|]. cbn [app starts_with].
  by rewrite (proj2 (Z.eqb_neq c d)) by lia.
Qed.

Definition tests_dotted (tests : list (list string * TensorKind)) : bool :=
  forallb (fun t => forallb (fun n => dotted (src_of n)) t.1) tests.

Lemma first_match_layer n rest tests :
  digits n -> tests_dotted tests = true -> first_match (src_of "blk." ++ n ++ rest) tests = first_match rest tests.
Proof.
  intros Hn. induction tests as [|[needles k] tests IH]; [done|]. cbn [tests_dotted forallb fst].
  intros [Hd Ht]%andb_true_iff. cbn [first_match]. rewrite (IH Ht).
  assert (existsb (fun x => contains (src_of "blk." ++ n ++ rest) (src_of x)) needles
          = existsb (fun x => contains rest (src_of x)) needles) as ->; [|done].
  induction needles as [|x needles IHn]; [done|]. cbn [forallb] in Hd. apply andb_true_iff in Hd as [Hx Hd].
  cbn [existsb]. by rewrite contains_layer, IHn.
Qed.

Lemma contains_length s needle : contains s needle = true -> (length needle <= length s)%nat.
Proof.
  unfold contains. rewrite bool_decide_eq_true. induction s as [|x s IH]; cbn [str_find].
  - destruct (starts_with needle []) eqn:E; [intros _; by apply starts_with_length in E|by intros []].
  - destruct (starts_with needle (x :: s)) eqn:E; [intros _; by apply starts_with_length in E|].
    rewrite fmap_is_Some. intros H%IH. simpl. lia.
Qed.

Lemma ends_with_suffix p rest suffix :
  (length suffix <= length rest)%nat -> ends_with (p ++ rest) suffix = ends_with rest suffix.
Proof.
  intros Hl. unfold ends_with. rewrite length_app.
  rewrite (proj2 (Nat.leb_le _ _)), (proj2 (Nat.leb_le (length suffix) (length rest))) by lia. simpl.
  rewrite drop_app_ge by lia.
  by replace (length p + length rest - length suffix - length p)%nat with (length rest - length suffix)%nat by lia.
Qed.

Lemma match_layer n rest :
  digits n -> match_tensor_kind (src_of "blk." ++ n ++ rest) = match_tensor_kind (src_of "blk.0" ++ rest).
Proof.
  intros Hn. assert (digits (src_of "0")) as H0 by (split; [done|by repeat constructor]).
  assert (forall m, digits m -> match_tensor_kind (src_of "blk." ++ m ++ rest) =
    first_answer
      [if contains rest (src_of ".self_attn.") then first_match rest self_attn_tests else None;
       first_match rest layernorm_tests;
       if contains rest (src_of ".mlp.") then first_match rest mlp_tests else None;
       if contains rest (src_of ".temporal_block.") then first_match rest temporal_tests else None;
       if contains rest (src_of ".mamba.") then first_match rest mamba_tests else None;
       first_match rest gguf_tests;
       if contains rest (src_of ".ssm_conv1d.")
       then Some (if ends_with rest (src_of ".bias") then TensorKind.CONV1D_B else TensorKind.CONV1D_W)
       else None;
       first_match rest gguf_late_tests]) as Hgen.
  { intros m Hm. unfold match_tensor_kind, is_name, has_prefix.
    rewrite !bool_decide_false by (simpl; discriminate).
    rewrite (bool_decide_true (take (length (src_of "blk.")) _ = _)) by done. cbn [orb negb]. cbv iota.
    unfold guarded. rewrite !contains_layer, !first_match_layer by done.
    destruct (contains rest (src_of ".ssm_conv1d.")) eqn:Ec; [|done].
    rewrite app_assoc, ends_with_suffix; [done|]. apply contains_length in Ec. simpl in *. lia. }
  change (src_of "blk.0" ++ rest) with (src_of "blk." ++ src_of "0" ++ rest). by rewrite !Hgen.
Qed.

(** The kinds of the tensor names of a GGUF layer. *)
Definition layer_kinds : list (string * TensorKind) :=
  [(".attn_q.weight", TensorKind.WQ); (".attn_k.weight", TensorKind.WK); (".attn_v.weight", TensorKind.WV);
   (".attn_output.weight", TensorKind.WO); (".attn_qkv.weight", TensorKind.QKV_FUSED);
   (".attn_norm.weight", TensorKind.ATTN_NORM); (".attn_q_norm.weight", TensorKind.QK_NORM_Q);
   (".attn_k_norm.weight", TensorKind.QK_NORM_K); (".rope_freqs.weight", TensorKind.ROPE_FREQS);
   (".ffn_gate.weight", TensorKind.W_GATE); (".ffn_up.weight", TensorKind.W_UP);
   (".ffn_down.weight", TensorKind.W_DOWN); (".ffn_norm.weight", TensorKind.FFN_NORM);
   (".ffn_gate_inp.weight", TensorKind.ROUTER); (".ffn_gate_exps.weight", TensorKind.EXPERT_GATE);
   (".ffn_up_exps.weight", TensorKind.EXPERT_UP); (".ffn_down_exps.weight", TensorKind.EXPERT_DOWN);
   (".ffn_gate_inp_shexp.weight", TensorKind.SHARED_EXPERT_GATE); (".ssm_in.weight", TensorKind.SSM_IN);
   (".ssm_out.weight", TensorKind.SSM_OUT); (".ssm_norm.weight", TensorKind.SSM_GROUP_NORM);
   (".ssm_conv1d.weight", TensorKind.CONV1D_W); (".ssm_conv1d.bias", TensorKind.CONV1D_B);
   (".attn_gate.weight", TensorKind.GDN_GATE); (".ssm_beta.weight", TensorKind.BETA);
   (".ssm_a", TensorKind.A_LOG)]%string.

Lemma str_find_prefix p q s : is_Some (str_find (p ++ q) s) -> is_Some (str_find p s).
Proof.
  assert (forall s, starts_with (p ++ q) s = true -> starts_with p s = true) as Hsw.
  { induction p as [|a p IH]; intros [|b l] H; try done. cbn [app starts_with] in *.
    apply andb_true_iff in H as [-> H]. by apply IH. }
  induction s as [|x s IH]; cbn [str_find].
  - destruct (starts_with (p ++ q) []) eqn:E; [|by intros []]. by rewrite (Hsw _ E).
  - destruct (starts_with (p ++ q) (x :: s)) eqn:E; [by rewrite (Hsw _ E)|].
    destruct (starts_with p (x :: s)); [by eexists|]. by rewrite !fmap_is_Some.
Qed.

(** The kind of a layer's tensor depends on its field alone: for every layer
    number, the names of a GGUF layer have the kinds of the table, in particular
    none of the more specific names is taken by the test of a shorter one.  The
    one exception is [ssm_alpha], whose test comes after that of [ssm_a]: it is
    classified as [A_LOG], and no name at all gets [ALPHA] from these tests. *)
Theorem layer_tensor_kinds n :
  digits n ->
  Forall (fun '(suffix, k) => match_tensor_kind (src_of "blk." ++ n ++ src_of suffix) = k) layer_kinds
  /\ match_tensor_kind (src_of "blk." ++ n ++ src_of ".ssm_alpha.weight") = TensorKind.A_LOG
  /\ forall name, first_match name gguf_late_tests <> Some TensorKind.ALPHA.
Proof.
  intros Hn. split; [|split].
  - eapply (Forall_impl (fun '(s, k) => match_tensor_kind (src_of "blk.0" ++ src_of s) = k)).
    + by apply (bool_decide_unpack _); vm_compute.
    + intros [s k]. by rewrite match_layer.
  - by rewrite match_layer.
  - intros name. unfold gguf_late_tests. cbn [first_match existsb]. rewrite !orb_false_r.
    destruct (contains name (src_of ".ssm_a")) eqn:Ea; [done|].
    assert (contains name (src_of ".ssm_alpha") = false) as ->; [|by repeat case_match].
    unfold contains in *. apply bool_decide_eq_false. apply bool_decide_eq_false in Ea. intros H. apply Ea.
    by apply (str_find_prefix (src_of ".ssm_a") (src_of "lpha")).
Qed.

Lemma layer_tensor_kinds_witness :
  Forall (fun '(suffix, k) => match_tensor_kind (src_of "blk." ++ src_of "17" ++ src_of suffix) = k) layer_kinds
  /\ match_tensor_kind (src_of "blk." ++ src_of "17" ++ src_of ".ssm_alpha.weight") = TensorKind.A_LOG
  /\ forall name, first_match name gguf_late_tests <> Some TensorKind.ALPHA.
Proof. apply (layer_tensor_kinds (src_of "17")). split; [done|by repeat constructor]. Defined.
