(* ===== verification/GgufParse.v ===== *)
(** * GGUF files: values, tensor infos, shards and tensor windows

    Models [src/model/gguf_parse.cpp] and the parsing half of [load_gguf]
    ([src/model/gguf_loader.cpp]): header, metadata, tensor infos, alignment,
    split files, and the loop that turns tensor infos into descriptors.  Opening
    and mapping a file is a parameter from its path to its bytes. *)

From Corelib Require Import ssreflect_rw SpecFloat.
From stdpp Require Import prelude list gmap pretty.
From S2P Require Import Prelude StreamPipeline QTypes TensorKinds GgufReader.
Open Scope Z_scope.

Module GGUFValueType.
Inductive t : Type :=
  | UINT8 | INT8 | UINT16 | INT16 | UINT32 | INT32 | FLOAT32 | BOOL | STRING | ARRAY | UINT64 | INT64
  | FLOAT64
  | Raw (n : Z).

#[global] Instance eq_dec : EqDecision t.
Proof. solve_decision. Defined.
End GGUFValueType.

Notation GGUFValueType := GGUFValueType.t.

Definition value_type_of (n : Z) : GGUFValueType :=
  match n with
  | 0 => GGUFValueType.UINT8 | 1 => GGUFValueType.INT8 | 2 => GGUFValueType.UINT16
  | 3 => GGUFValueType.INT16 | 4 => GGUFValueType.UINT32 | 5 => GGUFValueType.INT32
  | 6 => GGUFValueType.FLOAT32 | 7 => GGUFValueType.BOOL | 8 => GGUFValueType.STRING
  | 9 => GGUFValueType.ARRAY | 10 => GGUFValueType.UINT64 | 11 => GGUFValueType.INT64
  | 12 => GGUFValueType.FLOAT64
  | n => GGUFValueType.Raw n
  end.

(** ** Metadata values *)

Record GGUFValue := mkValue {
  v_type : GGUFValueType;
  uint_val : Z;
  int_val : Z;
  float_val : spec_float;
  str_val : bytes;
  str_array : list bytes;
  float_array : list spec_float;
  int_array : list Z
}.

Definition blank (t : GGUFValueType) : GGUFValue := mkValue t 0 0 (S754_zero false) [] [] [] [].

Definition uint_value t (z : Z) := mkValue t z 0 (S754_zero false) [] [] [] [].
Definition int_value t (z : Z) := mkValue t 0 z (S754_zero false) [] [] [] [].
Definition float_value t (f : spec_float) := mkValue t 0 0 f [] [] [] [].
Definition str_value t (s : bytes) := mkValue t 0 0 (S754_zero false) s [] [] [].
Definition str_array_value t (l : list bytes) := mkValue t 0 0 (S754_zero false) [] l [] [].
Definition float_array_value t (l : list spec_float) := mkValue t 0 0 (S754_zero false) [] [] l [].
Definition int_array_value t (l : list Z) := mkValue t 0 0 (S754_zero false) [] [] [] l.

(** The element loop; the reserve before it has no observable effect. *)
Definition read_array_elements {A} (count : Z) (read_fn : rd A) : rd (list A) := read_while count read_fn.

Definition rd_fail : rd unit := fun r => Returns (tt, fail r).

Definition read_gguf_value (type : GGUFValueType) : rd GGUFValue :=
  match type with
  | GGUFValueType.UINT8 => z ← read_u8; mret (uint_value type z)
  | GGUFValueType.INT8 => z ← read_i8; mret (int_value type z)
  | GGUFValueType.UINT16 => z ← read_u16; mret (uint_value type z)
  | GGUFValueType.INT16 => z ← read_i16; mret (int_value type z)
  | GGUFValueType.UINT32 => z ← read_u32; mret (uint_value type z)
  | GGUFValueType.INT32 => z ← read_i32; mret (int_value type z)
  | GGUFValueType.FLOAT32 => f ← read_f32; mret (float_value type (widen f))
  | GGUFValueType.BOOL => z ← read_u8; mret (uint_value type z)
  | GGUFValueType.STRING => s ← read_string; mret (str_value type s)
  | GGUFValueType.UINT64 => z ← read_u64; mret (uint_value type z)
  | GGUFValueType.INT64 => z ← read_i64; mret (int_value type z)
  | GGUFValueType.FLOAT64 => f ← read_f64; mret (float_value type f)
  | GGUFValueType.ARRAY =>
      n ← read_u32;
      count ← read_u64;
      match value_type_of n with
      | GGUFValueType.STRING =>
          l ← read_array_elements count read_string; mret (str_array_value type l)
      | GGUFValueType.FLOAT32 =>
          l ← read_array_elements count read_f32; mret (float_array_value type l)
      | GGUFValueType.INT32 =>
          l ← read_array_elements count read_i32; mret (int_array_value type l)
      | GGUFValueType.UINT32 =>
          l ← read_array_elements count (z ← read_u32; mret (i32 z)); mret (int_array_value type l)
      | GGUFValueType.BOOL | GGUFValueType.UINT8 | GGUFValueType.INT8 =>
          l ← read_array_elements count (z ← read_u8; mret (i32 z)); mret (int_array_value type l)
      | _ => _ ← rd_fail; mret (blank type)
      end
  | GGUFValueType.Raw _ => mret (blank type)
  end.

(** [static_cast<uint64_t>(double)]: the integer part, when it is a [uint64_t]. *)
Definition float_trunc (f : spec_float) : option Z :=
  match f with
  | S754_zero _ => Some 0
  | S754_finite s m e =>
      Some (cond_Zopp s (if 0 <=? e then Z.pos m * 2 ^ e else Z.pos m / 2 ^ (- e)))
  | _ => None
  end.

Definition float_to_u64 (f : spec_float) : outcome Z :=
  match float_trunc f with
  | Some z => if (0 <=? z) && (z <? two64) then Returns z else Undefined
  | None => Undefined
  end.

Definition val_uint (v : GGUFValue) : outcome Z :=
  match v_type v with
  | GGUFValueType.UINT8 | GGUFValueType.UINT16 | GGUFValueType.UINT32 | GGUFValueType.UINT64
  | GGUFValueType.BOOL => Returns (uint_val v)
  | GGUFValueType.INT8 | GGUFValueType.INT16 | GGUFValueType.INT32 | GGUFValueType.INT64 =>
      Returns (u64 (int_val v))
  | GGUFValueType.FLOAT32 | GGUFValueType.FLOAT64 => float_to_u64 (float_val v)
  | _ => Returns 0
  end.

Definition val_float (v : GGUFValue) : spec_float :=
  match v_type v with
  | GGUFValueType.FLOAT32 | GGUFValueType.FLOAT64 => float_val v
  | GGUFValueType.UINT8 | GGUFValueType.UINT16 | GGUFValueType.UINT32 | GGUFValueType.UINT64 =>
      binary_normalize 53 1024 (uint_val v) 0 false
  | GGUFValueType.INT8 | GGUFValueType.INT16 | GGUFValueType.INT32 | GGUFValueType.INT64 =>
      binary_normalize 53 1024 (int_val v) 0 false
  | _ => S754_zero false
  end.

(** ** Tensor infos *)

Record GGUFTensorInfo := mkInfo {
  ti_name : bytes;
  ti_n_dims : Z;
  ti_dims : list Z;
  ti_type : GgufWireType;
  ti_offset : Z;
  ti_data_base : Ptr;
  ti_data_limit : Z
}.

Definition read_info : rd GGUFTensorInfo :=
  name ← read_string;
  n_dims ← read_u32;
  dims ← read_times (Z.to_nat (Z.min n_dims 4)) (z ← read_u64; mret (i64 z));
  _ ← read_times (Z.to_nat (n_dims - 4)) read_u64;
  type ← read_u32;
  offset ← read_u64;
  mret (mkInfo name n_dims (dims ++ replicate (4 - length dims) 1) (wire_of type) offset None 0).

Definition parse_tensor_infos (tensor_count : Z) (out : list GGUFTensorInfo) : rd (list GGUFTensorInfo) :=
  l ← read_while tensor_count read_info;
  mret (out ++ l).

Definition SIZE_MAX : Z := two64 - 1.

(** The element count of the dimensions, [None] where the code returns [SIZE_MAX]. *)
Fixpoint count_elements (dims : list Z) (n_elements : Z) : option Z :=
  match dims with
  | [] => Some n_elements
  | dim :: dims =>
      if dim <? 0 then None
      else if negb (dim =? 0) && (SIZE_MAX / dim <? n_elements) then None
      else count_elements dims (n_elements *64 dim)
  end.

Definition gguf_tensor_byte_size (info : GGUFTensorInfo) : Z :=
  match count_elements (take (Z.to_nat (Z.min (ti_n_dims info) 4)) (ti_dims info)) 1 with
  | None => SIZE_MAX
  | Some n_elements =>
      let bs := gguf_blck_size (ti_type info) in
      let ts := gguf_type_size (ti_type info) in
      if (bs <=? 0) || (ts =? 0) then SIZE_MAX
      else
        let n_blocks := (n_elements +64 bs -64 1) / bs in
        if negb (n_blocks =? 0) && (SIZE_MAX / n_blocks <? ts) then SIZE_MAX
        else n_blocks *64 ts
  end.

Definition gguf_tensor_in_bounds (info : GGUFTensorInfo) : bool :=
  let size := gguf_tensor_byte_size info in
  if size =? SIZE_MAX then false
  else if ti_data_limit info <? ti_offset info then false
  else size <=? ti_data_limit info -64 ti_offset info.

(** ** The file *)

Inductive LoadError :=
  | OpenFailed | MapFailed | BadMagic | BadVersion | HeaderTruncated | MetadataTruncated
  | TensorInfoTruncated | ShardOpenFailed | ShardMapFailed | BadShardHeader.

Definition GGUF_MAGIC : Z := 0x46554747.
Definition GGUF_DEFAULT_ALIGNMENT : Z := 32.

Notation Metadata := (gmap bytes GGUFValue).

Definition read_kv : rd (bytes * GGUFValue) :=
  key ← read_string;
  vtype ← read_u32;
  value ← read_gguf_value (value_type_of vtype);
  mret (key, value).

(** [metadata.emplace(key, value)]: the first value of a key stays. *)
Definition emplace (m : Metadata) (kv : bytes * GGUFValue) : Metadata :=
  match m !! kv.1 with
  | Some _ => m
  | None => <[kv.1 := kv.2]> m
  end.

Definition metadata_of (kvs : list (bytes * GGUFValue)) : Metadata := foldl emplace ∅ kvs.

(** [for (auto& info : tensor_infos) { info.data_base = ...; info.data_limit = ...; }]. *)
Definition set_base (base : Ptr) (limit : Z) (info : GGUFTensorInfo) : GGUFTensorInfo :=
  mkInfo (ti_name info) (ti_n_dims info) (ti_dims info) (ti_type info) (ti_offset info) base limit.

Record GGUFFile := mkFile {
  g_version : Z;
  g_metadata : Metadata;
  g_infos : list GGUFTensorInfo;
  g_alignment : Z;
  g_data_start : Z
}.

Definition file_alignment (m : Metadata) : outcome Z :=
  match m !! src_of "general.alignment" with
  | Some v =>
      a ← val_uint v;
      Returns (if a =? 0 then GGUF_DEFAULT_ALIGNMENT else a)
  | None => Returns GGUF_DEFAULT_ALIGNMENT
  end.

(** Bytes of a mapping past the start of its tensor data. *)
Definition data_avail (start size : Z) : Z := if start <=? size then size - start else 0.

(** Header, metadata and tensor infos of the primary file (steps 2 to 4). *)
Record Body := mkBody {
  b_version : Z;
  b_metadata : Metadata;
  b_infos : list GGUFTensorInfo;
  b_reader : BinaryReader
}.

Definition parse_body (data : list Z) : outcome (LoadError + Body) :=
  '(magic, r) ← read_u32 (new_reader data);
  if negb (magic =? GGUF_MAGIC) then Returns (inl BadMagic) else
  '(version, r) ← read_u32 r;
  if (version <? 2) || (3 <? version) then Returns (inl BadVersion) else
  '(tensor_count, r) ← read_u64 r;
  '(kv_count, r) ← read_u64 r;
  if rd_failed r then Returns (inl HeaderTruncated) else
  '(kvs, r) ← read_while kv_count read_kv r;
  if rd_failed r then Returns (inl MetadataTruncated) else
  '(infos, r) ← parse_tensor_infos tensor_count [] r;
  if rd_failed r then Returns (inl TensorInfoTruncated) else
  Returns (inr (mkBody version (metadata_of kvs) infos r)).

(** Step 5: the start of the tensor data.  The primary mapping is number 1. *)
Definition place_primary (b : Body) : outcome GGUFFile :=
  alignment ← file_alignment (b_metadata b);
  '(_, r) ← align alignment (b_reader b);
  let start := rd_pos r in
  Returns (mkFile (b_version b) (b_metadata b)
             (set_base (Some (1, start)) (data_avail start (rd_size r)) <$> b_infos b) alignment start).

Definition parse_primary (data : list Z) : outcome (LoadError + GGUFFile) :=
  res ← parse_body data;
  match res with
  | inl e => Returns (inl e)
  | inr b => f ← place_primary b; Returns (inr f)
  end.

(** ** Split files *)

(** [s.rfind(pat)]. *)
Fixpoint str_rfind (pat s : bytes) : option nat :=
  match s with
  | [] => if starts_with pat [] then Some O else None
  | _ :: s' =>
      match str_rfind pat s' with
      | Some i => Some (S i)
      | None => if starts_with pat s then Some O else None
      end
  end.

(** [%05d] of a positive number. *)
Definition five_digits (z : Z) : bytes :=
  let d := src_of (pretty z) in replicate (5 - length d) 48 ++ d.

(** [snprintf(shard_path, 4096, "%.*s-%05d-of-%05d.gguf", ...)]. *)
Definition shard_path (base : bytes) (dash_pos : nat) (shard split_count : Z) : bytes :=
  take 4095 (take dash_pos base ++ src_of "-" ++ five_digits shard ++ src_of "-of-"
             ++ five_digits split_count ++ src_of ".gguf").

(** What opening and mapping a path gives. *)
Inductive MapResult :=
  | NoOpen
  | NoMap
  | Mapped (data : list Z).

(** [for (ti = first; ti < tensor_infos.size(); ti++)] set base and limit. *)
Definition set_base_from (first : Z) (base : Ptr) (limit : Z) (infos : list GGUFTensorInfo)
    : list GGUFTensorInfo :=
  imap (fun ti info => if first <=? Z.of_nat ti then set_base base limit info else info) infos.

(** One shard: its mapping has the shard's number. *)
Definition parse_shard (alignment shard : Z) (sdata : list Z) (infos : list GGUFTensorInfo)
    : outcome (LoadError + list GGUFTensorInfo) :=
  '(smagic, r) ← read_u32 (new_reader sdata);
  '(_, r) ← read_u32 r;
  '(stensor_count, r) ← read_u64 r;
  '(skv_count, r) ← read_u64 r;
  if negb (smagic =? GGUF_MAGIC) || rd_failed r then Returns (inl BadShardHeader) else
  '(_, r) ← read_while skv_count read_kv r;
  '(infos, r) ← parse_tensor_infos stensor_count infos r;
  '(_, r) ← align alignment r;
  let start := rd_pos r in
  let first := Z.of_nat (length infos) -64 stensor_count in
  Returns (inr (set_base_from first (Some (shard, start)) (data_avail start (rd_size r)) infos)).

Section load.
Variable open_map : bytes -> MapResult.

Fixpoint load_shards (n : nat) (path : bytes) (dash_pos : nat) (split_count alignment shard : Z)
    (infos : list GGUFTensorInfo) : outcome (LoadError + list GGUFTensorInfo) :=
  match n with
  | O => Returns (inr infos)
  | S n =>
      match open_map (shard_path path dash_pos shard split_count) with
      | NoOpen => Returns (inl ShardOpenFailed)
      | NoMap => Returns (inl ShardMapFailed)
      | Mapped sdata =>
          res ← parse_shard alignment shard sdata infos;
          match res with
          | inl e => Returns (inl e)
          | inr infos => load_shards n path dash_pos split_count alignment (shard + 1) infos
          end
      end
  end.

(** Steps 1 to 5b of [load_gguf]: every tensor info with its base and limit. *)
Definition load_infos (path : bytes) : outcome (LoadError + GGUFFile) :=
  match open_map path with
  | NoOpen => Returns (inl OpenFailed)
  | NoMap => Returns (inl MapFailed)
  | Mapped data =>
      res ← parse_primary data;
      match res with
      | inl e => Returns (inl e)
      | inr f =>
          split_count ← match g_metadata f !! src_of "split.count" with
                        | Some v => n ← val_uint v; Returns (i32 n)
                        | None => Returns 1
                        end;
          if 1 <? split_count then
            match str_rfind (src_of "-00001-of-") path with
            | None => Returns (inr f)
            | Some dash_pos =>
                res ← load_shards (Z.to_nat (split_count - 1)) path dash_pos split_count (g_alignment f) 2
                        (g_infos f);
                match res with
                | inl e => Returns (inl e)
                | inr infos =>
                    Returns (inr (mkFile (g_version f) (g_metadata f) infos (g_alignment f) (g_data_start f)))
                end
            end
          else Returns (inr f)
      end
  end.
End load.

(** ** From infos to tensors *)

(** [for (d = 0; d < ndim; d++) shape[d] = dims[ndim - 1 - d]]. *)
Fixpoint reverse_dims (n : nat) (d ndim : Z) (dims shape : list Z) : outcome (list Z) :=
  match n with
  | O => Returns shape
  | S n =>
      x ← arr_get dims (ndim - 1 - d);
      shape ← arr_set shape d x;
      reverse_dims n (d + 1) ndim dims shape
  end.

Definition set_kind (t : Tensor) (k : TensorKind) (v2 : bool) : Tensor :=
  mkTensor (t_data t) (t_qtype t) (t_ndim t) (t_shape t) (t_stride t) (t_on_device t) k (t_scales t)
    (t_tensor_scale t) v2 (t_dropped_source t).

(** The descriptor of a tensor whose window is in bounds, [None] for a skipped
    one. *)
Definition build_tensor (info : GGUFTensorInfo) : outcome (option Tensor) :=
  if negb (gguf_tensor_in_bounds info) then Returns None
  else
    let ndim := i32 (ti_n_dims info) in
    shape ← reverse_dims (Z.to_nat ndim) 0 ndim (ti_dims info) [1; 1; 1; 1];
    t ← new_tensor (ptr_add (ti_data_base info) (ti_offset info)) (gguf_type_to_qtype (ti_type info)) ndim
          shape false;
    Returns (Some (set_kind t (match_tensor_kind (ti_name info))
                     (bool_decide (ti_type info = GgufWireType.MXFP4_V2)))).

Definition build_tensors (infos : list GGUFTensorInfo) : outcome (list (option Tensor)) :=
  foldr (fun info rest => t ← build_tensor info; ts ← rest; Returns (t :: ts)) (Returns []) infos.
