(* ===== verification/GgufSafety.v ===== *)
(** * GGUF parsing is total and stays in bounds

    Two classes carry the argument through the parser's structure: [SafeRead]
    (an action returns on every reader and only moves it forward) and
    [Progress] (an action that leaves the reader usable has consumed at least one
    byte, so a loop of it stops before the file ends).  The window theorems say
    which tensor windows [gguf_tensor_in_bounds] lets through. *)

From Corelib Require Import ssreflect_rw SpecFloat.
From stdpp Require Import prelude list gmap strings.
From S2P Require Import Prelude StreamPipeline QTypes TensorViews TensorKinds GgufReader GgufParse.
Open Scope Z_scope.

(** ** Readers *)

Definition rd_ok (r : BinaryReader) : Prop :=
  (0 <= rd_pos r <= rd_size r /\ rd_size r < two64) /\ Forall byte (rd_data r).

(** [r'] is [r] later: same bytes, not before, and a failure stays. *)
Definition later (r r' : BinaryReader) : Prop :=
  rd_ok r' /\ rd_data r' = rd_data r /\ rd_pos r <= rd_pos r'
  /\ (rd_failed r = true -> rd_failed r' = true).

Class SafeRead {A} (m : rd A) : Prop :=
  safe_read : forall r, rd_ok r -> exists a r', m r = Returns (a, r') /\ later r r'.

Class Progress {A} (m : rd A) : Prop :=
  progress : forall r a r', rd_ok r -> m r = Returns (a, r') -> rd_failed r' = true \/ rd_pos r < rd_pos r'.

Lemma rd_later_refl r : rd_ok r -> later r r.
Proof. intros H. split; [done|]. split; [done|]. split; [lia|done]. Qed.

Lemma rd_later_trans r1 r2 r3 : later r1 r2 -> later r2 r3 -> later r1 r3.
Proof.
  intros (H1 & D1 & P1 & F1) (H2 & D2 & P2 & F2).
  split; [done|]. split; [congruence|]. split; [lia|auto].
Qed.

Lemma later_fail r : rd_ok r -> later r (fail r).
Proof. intros H. split; [done|]. split; [done|]. split; [simpl; lia|done]. Qed.

#[global] Hint Resolve rd_later_refl rd_later_trans later_fail : quench.

Lemma later_ok r r' : later r r' -> rd_ok r'.
Proof. by intros []. Qed.

Lemma remaining_eq r : rd_ok r -> remaining r = rd_size r - rd_pos r.
Proof. intros [[Hp Hs] _]. unfold remaining. apply u64_small. lia. Qed.

Lemma later_advance n r : rd_ok r -> 0 <= n -> check n r = true -> later r (advance n r).
Proof.
  intros H Hn Hc%Z.leb_le. rewrite remaining_eq in Hc by done. destruct H as [[Hp Hs] Hb].
  assert (rd_pos r +64 n = rd_pos r + n) as E by (apply u64_small; lia).
  repeat split; simpl; rewrite ?E; unfold rd_size in *; simpl; lia || done.
Qed.

Lemma advance_pos n r : rd_ok r -> 0 <= n -> check n r = true -> rd_pos (advance n r) = rd_pos r + n.
Proof.
  intros H Hn Hc%Z.leb_le. rewrite remaining_eq in Hc by done. destruct H as [[Hp Hs] Hb].
  apply u64_small. lia.
Qed.

(** A checked load is inside the file. *)
Lemma load_checked n r :
  rd_ok r -> 0 <= n -> check n r = true ->
  load (rd_data r) (rd_pos r) n = Returns (take (Z.to_nat n) (drop (Z.to_nat (rd_pos r)) (rd_data r))).
Proof.
  intros H Hn Hc%Z.leb_le. rewrite remaining_eq in Hc by done. destruct H as [[Hp Hs] Hb].
  unfold load. rewrite (proj2 (andb_true_iff _ _)); [done|]. split; [|apply Z.leb_le; unfold rd_size in *; lia].
  apply andb_true_iff. split; apply Z.leb_le; lia.
Qed.

Lemma safe_later {A} (m : rd A) `{!SafeRead m} r a r' : rd_ok r -> m r = Returns (a, r') -> later r r'.
Proof. intros H E. destruct (safe_read r H) as (? & ? & E' & L). rw E in E'. by simplify_eq. Qed.

Lemma safe_ok {A} (m : rd A) `{!SafeRead m} r a r' : rd_ok r -> m r = Returns (a, r') -> rd_ok r'.
Proof. intros H E. eapply later_ok, safe_later; eauto. Qed.

#[global] Instance safe_ret {A} (a : A) : SafeRead (mret a).
Proof. intros r H. exists a, r. auto with quench. Qed.

#[global] Instance safe_bind {A B} (m : rd A) (f : A -> rd B) :
  SafeRead m -> (forall a, SafeRead (f a)) -> SafeRead (m ≫= f).
Proof.
  intros Hm Hf r H. destruct (Hm r H) as (a & r1 & E1 & L1).
  destruct (Hf a r1 (later_ok _ _ L1)) as (b & r2 & E2 & L2).
  exists b, r2. split; [|eauto with quench]. unfold mbind, rd_bind. by rw E1 returns_bind.
Qed.

#[global] Instance safe_read_n n : 0 <= n -> SafeRead (read n) | 10.
Proof.
  intros Hn r H. unfold read. destruct (check n r) eqn:Hc; simpl negb; cbn iota.
  - rewrite load_checked by done. rw returns_bind. eauto using later_advance with quench.
  - eauto with quench.
Qed.

#[global] Hint Extern 1 (0 <= _) => lia : typeclass_instances.
#[global] Hint Extern 1 (0 < _) => lia : typeclass_instances.

Lemma le_decode_range bs : Forall byte bs -> 0 <= le_decode bs < 256 ^ Z.of_nat (length bs).
Proof.
  unfold byte. induction 1 as [|b bs Hb _ IH]; [simpl; lia|]. cbn [le_decode length].
  rewrite Nat2Z.inj_succ, Z.pow_succ_r by lia. lia.
Qed.

Lemma read_range n r z r' : rd_ok r -> 0 <= n -> read n r = Returns (z, r') -> 0 <= z < 256 ^ n.
Proof.
  intros H Hn. unfold read. destruct (check n r) eqn:Hc; simpl negb; cbn iota.
  - rewrite load_checked by done. rw returns_bind. intros [= <- _]. destruct H as [_ Hb].
    pose proof (le_decode_range (take (Z.to_nat n) (drop (Z.to_nat (rd_pos r)) (rd_data r)))) as Hr.
    specialize (Hr ltac:(by apply Forall_take, Forall_drop)).
    assert (256 ^ Z.of_nat (length (take (Z.to_nat n) (drop (Z.to_nat (rd_pos r)) (rd_data r)))) <= 256 ^ n).
    { apply Z.pow_le_mono_r; [lia|]. rw length_take. lia. }
    lia.
  - intros [= <- _]. split; [lia|]. by apply Z.pow_pos_nonneg.
Qed.

#[global] Instance safe_read_string : SafeRead read_string.
Proof.
  intros r H. unfold read_string, read_u64.
  destruct (safe_read (m := read 8) r H) as (len & r1 & E & L).
  pose proof (read_range 8 _ _ _ H ltac:(lia) E) as Hlen.
  rw E returns_bind. pose proof (later_ok _ _ L) as H1.
  destruct (rd_failed r1 || (remaining r1 <? len)) eqn:Hc; [by eauto 8 with quench|].
  apply orb_false_iff in Hc as [_ Hc%Z.ltb_ge].
  assert (check len r1 = true) as Hk by by apply Z.leb_le.
  rewrite load_checked by (done || lia). rw returns_bind. eexists _, _. split; [done|].
  eapply rd_later_trans; [done|]. apply later_advance; (done || lia).
Qed.

Lemma returns_loop_step {A} fuel count (body : rd A) r a r1 l r2 :
  0 < count -> rd_failed r = false -> body r = Returns (a, r1) ->
  read_loop fuel (count - 1) body r1 = Returns (l, r2) ->
  read_loop (S fuel) count body r = Returns (a :: l, r2).
Proof. intros Hc Hf E1 E2. simpl. rewrite (proj2 (Z.ltb_lt _ _) Hc), Hf. simpl. by rw E1 returns_bind E2 returns_bind. Qed.

(** A loop of progressing reads stops within as many rounds as bytes are left. *)
Lemma read_loop_returns {A} (body : rd A) `{!SafeRead body, !Progress body} fuel count r :
  rd_ok r -> rd_size r - rd_pos r < Z.of_nat fuel ->
  exists l r', read_loop fuel count body r = Returns (l, r') /\ later r r'.
Proof.
  revert count r. induction fuel as [|fuel IH]; intros count r H Hfuel.
  { destruct H as [[]]. lia. }
  destruct ((0 <? count) && negb (rd_failed r)) eqn:Hc.
  2:{ exists [], r. cbn [read_loop]. rw Hc. auto with quench. }
  pose proof Hc as [Hpos%Z.ltb_lt Hf%negb_true_iff]%andb_true_iff.
  destruct (safe_read (m := body) r H) as (a & r1 & E1 & L1). pose proof (later_ok _ _ L1) as H1.
  destruct (progress (m := body) r a r1 H E1) as [Hfail|Hadv].
  - exists [a], r1. split; [|done]. eapply returns_loop_step; [done..|].
    destruct fuel; cbn [read_loop]; rw Hfail andb_false_r //.
  - destruct (IH (count - 1) r1 H1) as (l & r2 & E2 & L2).
    { destruct L1 as (_ & D & _). unfold rd_size in *. rewrite D. lia. }
    exists (a :: l), r2. split; [by eapply returns_loop_step|eauto with quench].
Qed.

#[global] Instance safe_read_while {A} (body : rd A) count :
  SafeRead body -> Progress body -> SafeRead (read_while count body).
Proof.
  intros ?? r H. apply read_loop_returns; [apply _..|done|]. unfold read_fuel, rd_size. destruct H as [[]]. lia.
Qed.

#[global] Instance safe_read_times {A} n (body : rd A) : SafeRead body -> SafeRead (read_times n body).
Proof. intros Hb. induction n; simpl; apply _. Qed.

#[global] Instance safe_rd_fail : SafeRead rd_fail.
Proof. intros r H. exists tt, (fail r). auto with quench. Qed.

(** ** Progress *)

#[global] Instance progress_read n : 0 < n -> Progress (read n).
Proof.
  intros Hn r z r' H. unfold read. destruct (check n r) eqn:Hc; simpl negb; cbn iota.
  - rewrite load_checked by (done || lia). rw returns_bind. intros [= _ <-]. right.
    rewrite advance_pos by (done || lia). lia.
  - intros [= _ <-]. by left.
Qed.

(** An action that starts with a progressing read progresses. *)
#[global] Instance progress_bind {A B} (m : rd A) (f : A -> rd B) :
  SafeRead m -> Progress m -> (forall a, SafeRead (f a)) -> Progress (m ≫= f).
Proof.
  intros Hm Pm Hf r b r2 H. destruct (Hm r H) as (a & r1 & E1 & L1).
  unfold mbind, rd_bind. rw E1 returns_bind. intros E2.
  destruct (Hf a r1 (later_ok _ _ L1)) as (b' & r2' & E2' & _ & _ & P & F).
  rw E2 in E2'. simplify_eq. destruct (Pm r a r1 H E1) as [Hfail|]; [left; auto|right; lia].
Qed.

#[global] Instance progress_read_string : Progress read_string.
Proof.
  intros r s r' H. unfold read_string, read_u64.
  destruct (safe_read (m := read 8) r H) as (len & r1 & E & L). pose proof (later_ok _ _ L) as H1.
  pose proof (read_range 8 _ _ _ H ltac:(lia) E) as Hlen.
  destruct (progress (m := read 8) r len r1 H E) as [Hf|Hp]; rw E returns_bind.
  { rw Hf. intros [= _ <-]. by left. }
  destruct (rd_failed r1 || (remaining r1 <? len)) eqn:Hc; [intros [= _ <-]; by left|].
  apply orb_false_iff in Hc as [_ Hc%Z.ltb_ge].
  assert (check len r1 = true) as Hk by by apply Z.leb_le.
  rewrite load_checked by (done || lia). rw returns_bind. intros [= _ <-]. right.
  rewrite advance_pos by (done || lia). lia.
Qed.

(** ** The parser *)

#[global] Instance safe_read_gguf_value type : SafeRead (read_gguf_value type).
Proof.
  unfold read_gguf_value, read_array_elements. destruct type; try apply _.
  apply safe_bind; [apply _|]. intros n. apply safe_bind; [apply _|]. intros count.
  destruct (value_type_of n); apply _.
Qed.

#[global] Instance safe_read_kv : SafeRead read_kv.
Proof. unfold read_kv. apply _. Qed.

#[global] Instance progress_read_kv : Progress read_kv.
Proof. unfold read_kv. apply _. Qed.

#[global] Instance safe_read_info : SafeRead read_info.
Proof. unfold read_info. apply _. Qed.

#[global] Instance progress_read_info : Progress read_info.
Proof. unfold read_info. apply _. Qed.

#[global] Instance safe_parse_tensor_infos count out : SafeRead (parse_tensor_infos count out).
Proof. unfold parse_tensor_infos. apply _. Qed.

Lemma safe_align a : 0 < a < two64 -> SafeRead (align a).
Proof.
  intros Ha r H. unfold align. destruct (Z.eqb_spec a 0); [lia|].
  pose proof (Z.mod_pos_bound (rd_pos r) a ltac:(lia)) as Hm.
  destruct (Z.eqb_spec (rd_pos r mod a) 0) as [|Hr]; simpl negb; cbn iota; [eauto with quench|].
  rewrite u64_small by lia. destruct (check _ r) eqn:Hc; simpl negb; cbn iota.
  - eexists tt, _. split; [done|]. apply later_advance; (done || lia).
  - eauto with quench.
Qed.

(** ** Tensor windows *)

(** The dimensions a tensor info counts. *)
Definition counted_dims (info : GGUFTensorInfo) : list Z :=
  take (Z.to_nat (Z.min (ti_n_dims info) 4)) (ti_dims info).

(** Bytes of a tensor in the file, without machine arithmetic. *)
Definition exact_size (info : GGUFTensorInfo) : Z :=
  let bs := gguf_blck_size (ti_type info) in
  (prodZ (counted_dims info) + bs - 1) / bs * gguf_type_size (ti_type info).

(** No dimension is negative and no product of leading dimensions leaves
    [uint64_t]. *)
Definition dims_countable (dims : list Z) : Prop :=
  Forall (fun d => 0 <= d) dims /\ forall k, prodZ (take k dims) < two64.

Lemma prodZ_cons d l : prodZ (d :: l) = d * prodZ l.
Proof. done. Qed.

Lemma count_elements_some dims acc n :
  0 <= acc < two64 -> count_elements dims acc = Some n ->
  n = acc * prodZ dims /\ Forall (fun d => 0 <= d) dims /\ forall k, acc * prodZ (take k dims) < two64.
Proof.
  revert acc. induction dims as [|d dims IH]; intros acc Ha; cbn [count_elements].
  { intros [= <-]. split; [unfold prodZ; simpl; lia|]. split; [done|]. intros k. rw take_nil. unfold prodZ. simpl. lia. }
  destruct (Z.ltb_spec d 0); [done|].
  assert (acc * d < two64 \/ (negb (d =? 0) && (SIZE_MAX / d <? acc)) = true) as Hd.
  { destruct (Z.eqb_spec d 0) as [->|]; [left; unfold two64; lia|]. simpl.
    destruct (Z.ltb_spec (SIZE_MAX / d) acc); [by right|left].
    pose proof (Z.mul_div_le SIZE_MAX d). unfold SIZE_MAX in *. nia. }
  destruct (negb (d =? 0) && (SIZE_MAX / d <? acc)); [done|]. destruct Hd as [Hd|]; [|done]. intros Hn.
  rewrite u64_small in Hn by nia. apply IH in Hn as (-> & Hnn & Hk); [|nia].
  split; [rw prodZ_cons; ring|]. split; [by constructor|]. intros [|k]; [unfold prodZ; simpl; lia|].
  cbn [take]. rw prodZ_cons Z.mul_assoc. apply Hk.
Qed.

Lemma count_elements_complete dims acc :
  0 <= acc -> Forall (fun d => 0 <= d) dims -> (forall k, acc * prodZ (take k dims) < two64) ->
  count_elements dims acc = Some (acc * prodZ dims).
Proof.
  intros Ha Hnn. revert acc Ha. induction Hnn as [|d dims Hd Hnn IH]; intros acc Ha Hk; cbn [count_elements].
  { f_equal. unfold prodZ. simpl. lia. }
  destruct (Z.ltb_spec d 0); [lia|]. pose proof (Hk 1%nat) as H1. cbn [take] in H1. rw prodZ_cons Z.mul_assoc in H1.
  replace (prodZ (take 0 dims)) with 1 in H1 by done. rw Z.mul_1_r in H1.
  assert (negb (d =? 0) && (SIZE_MAX / d <? acc) = false) as ->.
  { destruct (Z.eqb_spec d 0) as [->|]; [done|]. simpl. apply Z.ltb_ge. apply Z.div_le_lower_bound; unfold SIZE_MAX; lia. }
  rewrite u64_small by nia. rewrite IH; [|nia|].
  - f_equal. rw prodZ_cons. ring.
  - intros k. specialize (Hk (S k)). cbn [take] in Hk. rw prodZ_cons Z.mul_assoc in Hk. done.
Qed.

Lemma dims_countable_iff dims : dims_countable dims <-> is_Some (count_elements dims 1).
Proof.
  split.
  - intros [Hnn Hk]. eexists. apply count_elements_complete; [lia|done|]. intros k. rw Z.mul_1_l. apply Hk.
  - intros [n Hn]. apply count_elements_some in Hn as (_ & Hnn & Hk); [|unfold two64; lia].
    split; [done|]. intros k. specialize (Hk k). lia.
Qed.

#[global] Instance dims_countable_dec dims : Decision (dims_countable dims).
Proof. refine (cast_if (decide (is_Some (count_elements dims 1)))); by rewrite dims_countable_iff. Defined.

Definition known_type (t : GgufWireType) : Prop := 0 < gguf_blck_size t.

#[global] Instance known_type_dec t : Decision (known_type t).
Proof. unfold known_type. apply _. Defined.

Lemma known_type_size t : known_type t -> 1 <= gguf_blck_size t <= 256 /\ 1 <= gguf_type_size t <= 292.
Proof. unfold known_type. destruct t; simpl; lia. Qed.

Lemma unknown_type_zero t : ~ known_type t -> gguf_blck_size t = 0.
Proof. unfold known_type. destruct t; simpl; lia. Qed.

(** The rounded-up block count wraps exactly for the last [bs - 1] element counts. *)
Lemma n_blocks_value n bs :
  0 <= n < two64 -> 1 <= bs <= 256 ->
  (n +64 bs -64 1) / bs = if n + bs - 1 <? two64 then (n + bs - 1) / bs else 0.
Proof.
  intros Hn Hbs. assert (n +64 bs -64 1 = u64 (n + bs - 1)) as ->.
  { unfold u64. rewrite Zminus_mod_idemp_l. f_equal. }
  destruct (Z.ltb_spec (n + bs - 1) two64); [by rewrite u64_small by lia|].
  replace (u64 (n + bs - 1)) with (n + bs - 1 - two64); [apply Z.div_small; lia|].
  unfold u64. apply (Z.mod_unique_pos _ _ 1); unfold two64 in *; lia.
Qed.

Lemma prodZ_nonneg l : Forall (fun d => 0 <= d) l -> 0 <= prodZ l.
Proof. unfold prodZ. induction 1; simpl; lia || nia. Qed.

(** The computed size: the true one, or [SIZE_MAX] where that is not below it, and
    zero where the block count wraps. *)
Lemma byte_size_value info :
  known_type (ti_type info) -> dims_countable (counted_dims info) ->
  gguf_tensor_byte_size info
  = if prodZ (counted_dims info) + gguf_blck_size (ti_type info) - 1 <? two64
    then Z.min (exact_size info) SIZE_MAX else 0.
Proof.
  intros Ht [Hnn Hk]. unfold gguf_tensor_byte_size, exact_size. fold (counted_dims info).
  set (dims := counted_dims info) in *.
  pose proof (known_type_size _ Ht) as [Hbs Hts]. pose proof (prodZ_nonneg dims Hnn) as Hp.
  specialize (Hk (length dims)) as Hlt. rw firstn_all in Hlt.
  rewrite count_elements_complete by (done || (intros k; rewrite Z.mul_1_l; apply Hk)). rw Z.mul_1_l.
  set (bs := gguf_blck_size (ti_type info)) in *. set (ts := gguf_type_size (ti_type info)) in *.
  destruct (Z.leb_spec bs 0); [lia|]. destruct (Z.eqb_spec ts 0); [lia|]. simpl orb. cbn iota.
  rewrite n_blocks_value by lia. destruct (Z.ltb_spec (prodZ dims + bs - 1) two64); [|done].
  set (nb := (prodZ dims + bs - 1) / bs). assert (0 <= nb) by (apply Z.div_pos; lia). clearbody nb.
  destruct (Z.eqb_spec nb 0) as [->|Hnb]; [done|]. simpl andb.
  destruct (Z.ltb_spec (SIZE_MAX / nb) ts) as [Hov|Hfit].
  - rewrite Z.min_r; [done|]. pose proof (Z.mul_succ_div_gt SIZE_MAX nb). nia.
  - pose proof (Z.mul_div_le SIZE_MAX nb). assert (nb * ts <= SIZE_MAX) by nia.
    rewrite Z.min_l by done. apply u64_small. unfold SIZE_MAX in *. nia.
Qed.

Lemma byte_size_rejects info :
  ~ (known_type (ti_type info) /\ dims_countable (counted_dims info)) ->
  gguf_tensor_byte_size info = SIZE_MAX.
Proof.
  intros Hno. unfold gguf_tensor_byte_size. fold (counted_dims info).
  destruct (count_elements (counted_dims info) 1) as [n|] eqn:En; [|done].
  apply count_elements_some in En as (_ & Hnn & Hk); [|unfold two64; lia].
  destruct (decide (0 < gguf_blck_size (ti_type info))) as [Ht|Ht].
  - destruct Hno. split; [done|]. split; [done|]. intros k. specialize (Hk k). lia.
  - rewrite (unknown_type_zero _ Ht). done.
Qed.

(** Which windows [gguf_tensor_in_bounds] accepts. *)
Lemma in_bounds_iff info :
  0 <= ti_offset info < two64 -> 0 <= ti_data_limit info < two64 - 1 ->
  gguf_tensor_in_bounds info = true <->
  known_type (ti_type info) /\ dims_countable (counted_dims info)
  /\ if prodZ (counted_dims info) + gguf_blck_size (ti_type info) - 1 <? two64
     then ti_offset info + exact_size info <= ti_data_limit info
     else ti_offset info <= ti_data_limit info.
Proof.
  intros Ho Hl. unfold gguf_tensor_in_bounds.
  destruct (decide (known_type (ti_type info) /\ dims_countable (counted_dims info))) as [[Ht Hd]|Hno].
  2:{ rewrite byte_size_rejects by done. rw Z.eqb_refl. split; [done|tauto]. }
  rewrite byte_size_value by done. pose proof (known_type_size _ Ht).
  pose proof (prodZ_nonneg _ (proj1 Hd)).
  assert (0 <= exact_size info).
  { unfold exact_size. apply Z.mul_nonneg_nonneg; [apply Z.div_pos; lia|lia]. }
  unfold SIZE_MAX, two64 in *.
  split.
  - intros Hb. split; [done|]. split; [done|]. revert Hb.
    repeat case_zbool; try done; rewrite ?u64_small in * by (unfold two64; lia); try lia.
  - intros (_ & _ & Hw). revert Hw. repeat case_zbool; try done; rewrite ?u64_small in * by (unfold two64; lia); lia.
Qed.

(** C38: Which windows [gguf_tensor_in_bounds] accepts, exactly: a known type, no
    negative dimension, leading products inside [uint64_t], and the window
    [offset, offset + size) of the tensor's true size inside the data region.
    The one exception: element counts in the last [bs - 1] values of [uint64_t]
    wrap when they are rounded up to blocks, and are then accepted at any
    offset of the region, whatever their size. *)
Theorem in_bounds_exact info :
  0 <= ti_offset info < two64 -> 0 <= ti_data_limit info < two64 - 1 ->
  gguf_tensor_in_bounds info = true <->
  known_type (ti_type info) /\ dims_countable (counted_dims info)
  /\ if prodZ (counted_dims info) + gguf_blck_size (ti_type info) - 1 <? two64
     then ti_offset info + exact_size info <= ti_data_limit info
     else ti_offset info <= ti_data_limit info.
Proof. apply in_bounds_iff. Qed.

Definition sample_info : GGUFTensorInfo :=
  mkInfo (src_of "blk.0.attn_q.weight") 2 [64; 2; 1; 1] GgufWireType.Q4_0 32 (Some (1, 96)) 104.

Lemma in_bounds_exact_witness :
  gguf_tensor_in_bounds sample_info = true
  /\ (gguf_tensor_in_bounds sample_info = true <->
      known_type (ti_type sample_info) /\ dims_countable (counted_dims sample_info)
      /\ if prodZ (counted_dims sample_info) + gguf_blck_size (ti_type sample_info) - 1 <? two64
         then ti_offset sample_info + exact_size sample_info <= ti_data_limit sample_info
         else ti_offset sample_info <= ti_data_limit sample_info).
Proof. split; [done|]. apply (in_bounds_exact sample_info); unfold two64; simpl; lia. Defined.

(** Two dimensions of 2^64 - 1 elements in all pass in an empty data region. *)
Definition crafted_info : GGUFTensorInfo :=
  mkInfo (src_of "blk.0.attn_q.weight") 2 [2 ^ 32 - 1; 2 ^ 32 + 1; 1; 1] GgufWireType.Q4_0 0 (Some (1, 96)) 0.

Example crafted_info_accepted :
  gguf_tensor_in_bounds crafted_info = true /\ exact_size crafted_info = 2 ^ 59 * 18.
Proof. done. Qed.

(** ** What the parser yields *)

Lemma rd_bind_inv {A B} (m : rd A) (f : A -> rd B) r b r2 :
  (m ≫= f) r = Returns (b, r2) -> exists a r1, m r = Returns (a, r1) /\ f a r1 = Returns (b, r2).
Proof. unfold mbind, rd_bind. destruct (m r) as [[a r1]| | | |] eqn:E; try done. rw returns_bind. eauto. Qed.

(** Undo every bind of a hypothesis. *)
Ltac unbind H :=
  let a := fresh "a" in let r := fresh "r" in let E := fresh "E" in
  apply rd_bind_inv in H as (a & r & E & H).

Lemma read_loop_yields {A} (P : A -> Prop) (body : rd A) `{!SafeRead body} fuel count r l r' :
  (forall r a r', rd_ok r -> body r = Returns (a, r') -> P a) ->
  rd_ok r -> read_loop fuel count body r = Returns (l, r') -> Forall P l.
Proof.
  intros Hb. revert count r l r'. induction fuel as [|fuel IH]; intros count r l r' H; cbn [read_loop].
  - destruct (_ && _); [done|]. by intros [= <- _].
  - destruct (_ && _); [|by intros [= <- _]].
    destruct (safe_read (m := body) r H) as (a & r1 & E1 & L1). rw E1 returns_bind.
    destruct (read_loop fuel (count - 1) body r1) as [[l1 r2]| | | |] eqn:E2; try done.
    rw returns_bind. intros [= <- _]. constructor; eauto using later_ok.
Qed.

Definition uint_ok (v : GGUFValue) : Prop := 0 <= uint_val v < two64.

Lemma read_gguf_value_uint type r v r' :
  rd_ok r -> read_gguf_value type r = Returns (v, r') -> uint_ok v.
Proof.
  intros H. unfold read_gguf_value, uint_ok.
  assert (forall n z r r', rd_ok r -> 0 <= n <= 8 -> read n r = Returns (z, r') -> 0 <= z < two64) as Hread.
  { intros n z r1 r2 Hr Hn E. pose proof (read_range n _ _ _ Hr ltac:(lia) E).
    assert (256 ^ n <= 256 ^ 8) by (apply Z.pow_le_mono_r; lia). unfold two64. lia. }
  assert (0 < two64) by done.
  destruct type; intros E;
    try (unbind E; injection E as <- <-; simpl; solve [lia | eapply Hread; [exact H| |eassumption]; lia]).
  - unbind E. unbind E. destruct (value_type_of _); unbind E; injection E as <- <-; simpl; lia.
  - injection E as <- <-. simpl. lia.
Qed.

Lemma read_kv_uint r kv r' : rd_ok r -> read_kv r = Returns (kv, r') -> uint_ok kv.2.
Proof.
  intros H E. unfold read_kv in E. unbind E. unbind E. unbind E. injection E as <- <-.
  eapply read_gguf_value_uint; [|exact E2]. eapply (safe_ok read_u32); [|exact E1].
  by eapply (safe_ok read_string); [|exact E0].
Qed.

Lemma metadata_of_values (P : GGUFValue -> Prop) kvs k v :
  Forall (fun kv => P kv.2) kvs -> metadata_of kvs !! k = Some v -> P v.
Proof.
  unfold metadata_of. intros Hall.
  assert (forall m : Metadata, (forall k v, m !! k = Some v -> P v) ->
    foldl emplace m kvs !! k = Some v -> P v) as Hgen; [|by apply Hgen; intros ?? E; rewrite lookup_empty in E].
  induction Hall as [|[k1 v1] kvs Hv _ IH]; intros m Hm; simpl; [eauto|]. apply IH.
  unfold emplace. simpl. destruct (m !! k1) eqn:E; [done|]. intros k2 v2.
  destruct (decide (k1 = k2)) as [->|]; [rewrite lookup_insert_eq; by intros [= <-]|].
  rewrite lookup_insert_ne by done. eauto.
Qed.

(** The integer of a metadata value is a [uint64_t], unless it is a
    floating-point value outside its range. *)
Definition bad_float (m : Metadata) (key : string) : Prop :=
  exists v, m !! src_of key = Some v /\ float_to_u64 (float_val v) = Undefined.

Lemma val_uint_cases v :
  uint_ok v -> (exists z, val_uint v = Returns z /\ 0 <= z < two64)
               \/ val_uint v = Undefined /\ float_to_u64 (float_val v) = Undefined.
Proof.
  intros Hv. unfold val_uint.
  assert ((exists z, float_to_u64 (float_val v) = Returns z /\ 0 <= z < two64)
          \/ float_to_u64 (float_val v) = Undefined) as Hf.
  { unfold float_to_u64. destruct (float_trunc _) as [z|]; [|by right].
    destruct (_ && _) eqn:E; [left|by right]. exists z. split; [done|]. lia. }
  assert (0 < two64) by done.
  destruct (v_type v); try (left; eexists; split; [done|]; first [exact Hv | apply u64_range | lia]);
    destruct Hf as [Hf|Hf]; auto.
Qed.

(** ** Whole files *)

(** What the parser guarantees of a tensor info before any base is set. *)
Definition info_ok (info : GGUFTensorInfo) : Prop :=
  0 <= ti_n_dims info < two32 /\ length (ti_dims info) = 4%nat /\ 0 <= ti_offset info < two64.

Lemma read_times_length {A} n (body : rd A) r l r' : read_times n body r = Returns (l, r') -> length l = n.
Proof.
  revert r l r'. induction n as [|n IH]; simpl; intros r l r' E; [by injection E as <- <-|].
  unbind E. unbind E. injection E as <- <-. simpl. erewrite IH; done.
Qed.

Lemma read_info_ok r info r' : rd_ok r -> read_info r = Returns (info, r') -> info_ok info.
Proof.
  intros H E. unfold read_info in E. do 6 unbind E. injection E as <- <-.
  pose proof (safe_ok read_string _ _ _ H E0) as H0. pose proof (safe_ok read_u32 _ _ _ H0 E1) as H1.
  pose proof (safe_ok _ _ _ _ H1 E2) as H2. pose proof (safe_ok _ _ _ _ H2 E3) as H3.
  pose proof (safe_ok read_u32 _ _ _ H3 E4) as H4.
  pose proof (read_range 4 _ _ _ H0 ltac:(lia) E1) as Hn. pose proof (read_range 8 _ _ _ H4 ltac:(lia) E5) as Ho.
  apply read_times_length in E2. split; [exact Hn|]. split; [|exact Ho]. simpl.
  rw length_app length_replicate. lia.
Qed.

Lemma read_info_fresh r info r' :
  rd_ok r -> read_info r = Returns (info, r') ->
  info_ok info /\ ti_data_base info = None /\ ti_data_limit info = 0.
Proof.
  intros H E. split; [by eapply read_info_ok|]. unfold read_info in E. do 6 unbind E. by injection E as <- <-.
Qed.

Lemma read_while_forall {A} (P : A -> Prop) (body : rd A) `{!SafeRead body} count r l r' :
  (forall r a r', rd_ok r -> body r = Returns (a, r') -> P a) ->
  rd_ok r -> read_while count body r = Returns (l, r') -> Forall P l.
Proof. intros. by eapply read_loop_yields. Qed.

(** Run one step of the parser on the reader at hand. *)
Ltac parse_step m :=
  match goal with
  | H : rd_ok ?r |- context [m ?r] =>
      let x := fresh "x" in let r' := fresh "r" in let E := fresh "E" in let L := fresh "L" in
      destruct (safe_read (m := m) r H) as (x & r' & E & L);
      pose proof (later_ok _ _ L); rewrite E, returns_bind
  end.

(** Reading a file always comes to an end, within the file. *)
Lemma parse_body_returns data :
  Forall byte data -> Z.of_nat (length data) < two64 ->
  exists res, parse_body data = Returns res
    /\ match res with
       | inl _ => True
       | inr b => rd_ok (b_reader b) /\ rd_data (b_reader b) = data /\ Forall info_ok (b_infos b)
                  /\ forall k v, b_metadata b !! k = Some v -> uint_ok v
       end.
Proof.
  intros Hb Hs. assert (rd_ok (new_reader data)) as H0 by (split; [unfold rd_size; simpl; lia|done]).
  unfold parse_body. parse_step read_u32. destruct (negb _); [by eexists|].
  parse_step read_u32. destruct (_ || _); [by eexists|]. parse_step read_u64. parse_step read_u64.
  destruct (rd_failed _); [by eexists|].
  destruct (safe_read (m := read_while x2 read_kv) r2 H3) as (kvs & r4 & E4 & L4). rw E4 returns_bind.
  pose proof (later_ok _ _ L4) as H4. destruct (rd_failed r4); [by eexists|].
  destruct (safe_read (m := parse_tensor_infos x1 []) r4 H4) as (infos & r5 & E5 & L5). rw E5 returns_bind.
  pose proof (later_ok _ _ L5) as H5. destruct (rd_failed r5); [by eexists|].
  eexists. split; [done|]. cbn [b_reader b_infos b_metadata]. split; [done|].
  assert (later (new_reader data) r5) as (_ & D & _) by eauto 9 with quench. split; [exact D|]. split.
  - unfold parse_tensor_infos in E5. unbind E5. injection E5 as <- <-. simpl.
    eapply (read_while_forall info_ok read_info); [|exact H4|eassumption]. apply read_info_ok.
  - intros k v. apply (metadata_of_values uint_ok).
    eapply (read_while_forall (fun kv => uint_ok kv.2) read_kv); [|exact H3|eassumption]. apply read_kv_uint.
Qed.

(** [info]'s data region is the tail of mapping [k] of [maps], or it has none. *)
Definition region_ok (maps : Z -> option (list Z)) (info : GGUFTensorInfo) : Prop :=
  info_ok info
  /\ ((ti_data_base info = None /\ ti_data_limit info = 0)
      \/ exists k start data, ti_data_base info = Some (k, start) /\ maps k = Some data
           /\ 0 <= start /\ start + ti_data_limit info = Z.of_nat (length data)
           /\ 0 <= ti_data_limit info).

Lemma set_base_region maps k r info :
  maps k = Some (rd_data r) -> rd_ok r -> info_ok info ->
  region_ok maps (set_base (Some (k, rd_pos r)) (data_avail (rd_pos r) (rd_size r)) info).
Proof.
  intros Hk [[Hp _] _] Hi. split; [exact Hi|]. right. exists k, (rd_pos r), (rd_data r).
  unfold data_avail. destruct (Z.leb_spec (rd_pos r) (rd_size r)); [|lia]. simpl.
  unfold rd_size in *. repeat split; (done || lia).
Qed.

Lemma file_alignment_cases m :
  (forall k v, m !! k = Some v -> uint_ok v) ->
  (exists a, file_alignment m = Returns a /\ 0 < a < two64)
  \/ file_alignment m = Undefined /\ bad_float m "general.alignment".
Proof.
  intros Hm. unfold file_alignment, GGUF_DEFAULT_ALIGNMENT.
  destruct (m !! src_of "general.alignment") as [v|] eqn:Ev; [|left; exists 32; split; [done|unfold two64; lia]].
  destruct (val_uint_cases v (Hm _ _ Ev)) as [(z & -> & Hz)|[-> Hbad]]; [left|right; split; [done|by exists v]].
  rw returns_bind. eexists. split; [done|]. destruct (Z.eqb_spec z 0); unfold two64 in *; lia.
Qed.

Lemma place_primary_returns maps b :
  maps 1 = Some (rd_data (b_reader b)) -> rd_ok (b_reader b) -> Forall info_ok (b_infos b) ->
  (forall k v, b_metadata b !! k = Some v -> uint_ok v) ->
  (exists f, place_primary b = Returns f /\ Forall (region_ok maps) (g_infos f)
             /\ 0 < g_alignment f < two64 /\ g_metadata f = b_metadata b)
  \/ place_primary b = Undefined /\ bad_float (b_metadata b) "general.alignment".
Proof.
  intros Hk Hr Hi Hm. unfold place_primary.
  destruct (file_alignment_cases _ Hm) as [(a & -> & Ha)|[-> Hbad]]; [left|by right].
  rw returns_bind. destruct (safe_align a Ha (b_reader b) Hr) as ([] & r & E & L).
  rw E returns_bind. eexists. split; [done|]. split; [|done]. cbn [g_infos].
  apply Forall_fmap. eapply Forall_impl; [exact Hi|]. intros info Hinfo. simpl.
  destruct L as (Hr' & D & _). apply set_base_region; [by rewrite D|done..].
Qed.

Lemma set_base_from_forall (P : GGUFTensorInfo -> Prop) first base limit infos :
  Forall (fun i => P i /\ P (set_base base limit i)) infos -> Forall P (set_base_from first base limit infos).
Proof.
  intros Hall. unfold set_base_from. apply Forall_lookup. intros i x. rewrite list_lookup_imap.
  intros (y & Hy & ->)%fmap_Some. rewrite Forall_lookup in Hall. apply Hall in Hy as [??].
  by destruct (first <=? _).
Qed.

Lemma parse_shard_returns maps alignment shard sdata infos :
  0 < alignment < two64 -> maps shard = Some sdata ->
  Forall byte sdata -> Z.of_nat (length sdata) < two64 -> Forall (region_ok maps) infos ->
  exists res, parse_shard alignment shard sdata infos = Returns res
    /\ match res with inl _ => True | inr infos' => Forall (region_ok maps) infos' end.
Proof.
  intros Ha Hk Hb Hs Hinfos.
  assert (rd_ok (new_reader sdata)) as H0 by (split; [unfold rd_size; simpl; lia|done]).
  unfold parse_shard. parse_step read_u32. parse_step read_u32. parse_step read_u64. parse_step read_u64.
  destruct (_ || _); [by eexists|].
  destruct (safe_read (m := read_while x2 read_kv) r2 H3) as (kvs & r4 & E4 & L4). rw E4 returns_bind.
  pose proof (later_ok _ _ L4) as H4.
  destruct (safe_read (m := parse_tensor_infos x1 infos) r4 H4) as (all & r5 & E5 & L5). rw E5 returns_bind.
  pose proof (later_ok _ _ L5) as H5.
  destruct (safe_align alignment Ha r5 H5) as ([] & r6 & E6 & L6). rw E6 returns_bind.
  assert (later (new_reader sdata) r6) as (H6 & D & _) by eauto 12 with quench.
  eexists. split; [done|]. apply set_base_from_forall.
  unfold parse_tensor_infos in E5. unbind E5. injection E5 as <- <-.
  assert (Forall (fun i => info_ok i /\ ti_data_base i = None /\ ti_data_limit i = 0) a) as Hnew.
  { eapply (read_while_forall _ read_info); [|exact H4|eassumption]. apply read_info_fresh. }
  assert (forall i, info_ok i -> region_ok maps (set_base (Some (shard, rd_pos r6))
                     (data_avail (rd_pos r6) (rd_size r6)) i)) as Hset.
  { intros i. apply set_base_region; [|done]. by rewrite D. }
  apply Forall_app. split; (eapply Forall_impl; [eassumption|]).
  - intros i Hi. split; [done|]. apply Hset, Hi.
  - intros i (Hi & Hn & Hl). split; [|by apply Hset]. split; [done|by left].
Qed.

Section files.
Variable open_map : bytes -> MapResult.

(** What the file system maps are bytes, fewer than a [size_t] can count. *)
Hypothesis mapped_bytes : forall path data,
  open_map path = Mapped data -> Forall byte data /\ Z.of_nat (length data) < two64.

(** The mappings of a load: 1 is the file itself, [k] its [k]-th shard. *)
Definition file_maps (path : bytes) (dash_pos : nat) (split_count : Z) (k : Z) : option (list Z) :=
  match open_map (if k =? 1 then path else shard_path path dash_pos k split_count) with
  | Mapped data => Some data
  | _ => None
  end.

Lemma load_shards_returns path dash_pos split_count alignment n shard infos :
  0 < alignment < two64 -> 1 < shard ->
  Forall (region_ok (file_maps path dash_pos split_count)) infos ->
  exists res, load_shards open_map n path dash_pos split_count alignment shard infos = Returns res
    /\ match res with
       | inl _ => True
       | inr infos' => Forall (region_ok (file_maps path dash_pos split_count)) infos'
       end.
Proof.
  intros Ha. revert shard infos. induction n as [|n IH]; intros shard infos Hs Hinfos; simpl; [by eexists|].
  destruct (open_map (shard_path path dash_pos shard split_count)) as [| |sdata] eqn:Eo; [by eexists..|].
  destruct (mapped_bytes _ _ Eo) as [Hb Hlen].
  destruct (parse_shard_returns (file_maps path dash_pos split_count) alignment shard sdata infos)
    as (res & -> & Hres); [done| |done..|].
  { unfold file_maps. destruct (Z.eqb_spec shard 1); [lia|]. by rewrite Eo. }
  rw returns_bind. destruct res as [e|infos']; [by eexists|]. apply IH; [lia|done].
Qed.
End files.

(** C37: Loading a GGUF file, split or not, always comes to an end and reads only
    mapped bytes, whatever the files hold: it reports an error, or gives tensor
    infos each of which has the tail of one mapping as its data region (or
    none).  The one undefined step left is the conversion of an alignment or
    shard count stored as a floating-point number that is no [uint64_t]. *)
Theorem load_infos_total open_map path :
  (forall p data, open_map p = Mapped data -> Forall byte data /\ Z.of_nat (length data) < two64) ->
  (exists e, load_infos open_map path = Returns (inl e))
  \/ (exists f dash_pos split_count, load_infos open_map path = Returns (inr f)
        /\ Forall (region_ok (file_maps open_map path dash_pos split_count)) (g_infos f))
  \/ (load_infos open_map path = Undefined
      /\ exists data b, open_map path = Mapped data /\ parse_body data = Returns (inr b)
           /\ (bad_float (b_metadata b) "general.alignment" \/ bad_float (b_metadata b) "split.count")).
Proof.
  intros Hbytes. unfold load_infos. destruct (open_map path) as [| |data] eqn:Eo; [by left; eexists..|].
  destruct (Hbytes _ _ Eo) as [Hb Hs]. destruct (parse_body_returns data Hb Hs) as (res & Ep & Hres).
  unfold parse_primary. rw Ep returns_bind. destruct res as [e|b]; [by left; eexists|].
  destruct Hres as (Hr & D & Hi & Hm).
  assert (forall dash_pos split_count, file_maps open_map path dash_pos split_count 1 = Some (rd_data (b_reader b))) as Hmap.
  { intros. unfold file_maps. simpl. by rewrite Eo, D. }
  destruct (place_primary_returns (file_maps open_map path 0 0) b (Hmap _ _) Hr Hi Hm)
    as [(f & Ef & _ & Ha & Em)|[-> Hbad]]; [|right; right; split; [done|]; exists data, b; auto].
  assert (forall dash_pos split_count, Forall (region_ok (file_maps open_map path dash_pos split_count)) (g_infos f)) as Hf.
  { intros d c. destruct (place_primary_returns (file_maps open_map path d c) b (Hmap _ _) Hr Hi Hm)
      as [(f' & Ef' & Hf & _)|[Ef' _]]; rw Ef in Ef'; [by simplify_eq|done]. }
  rw Ef !returns_bind Em. set (sc := match _ with Some v => _ | None => _ end).
  assert ((exists c, sc = Returns c) \/ sc = Undefined /\ bad_float (b_metadata b) "split.count") as Hsc.
  { subst sc. destruct (b_metadata b !! src_of "split.count") as [v|] eqn:Ev; [|left; by eexists].
    destruct (val_uint_cases v (Hm _ _ Ev)) as [(z & -> & _)|[-> Hbad]]; [left; by eexists|].
    right. split; [done|by exists v]. }
  destruct Hsc as [(c & ->)|[-> Hbad]]; [|right; right; split; [done|]; exists data, b; auto].
  rw returns_bind. destruct (1 <? c); [|right; left; by exists f, 0%nat, 0].
  destruct (str_rfind _ path) as [dash_pos|]; [|right; left; by exists f, 0%nat, 0].
  destruct (load_shards_returns open_map Hbytes path dash_pos c (g_alignment f) (Z.to_nat (c - 1)) 2 (g_infos f)
              Ha ltac:(lia) (Hf _ _)) as (res & -> & Hres).
  rw returns_bind. destruct res as [e|infos]; [left; by eexists|]. right; left. by eexists _, dash_pos, c.
Qed.

(** A file with no metadata and no tensors. *)
Definition empty_file : list Z := le_encode 4 GGUF_MAGIC ++ le_encode 4 3 ++ le_encode 8 0 ++ le_encode 8 0.

Lemma load_infos_total_witness :
  let open_map := fun p : bytes => if bool_decide (p = src_of "model.gguf") then Mapped empty_file else NoOpen in
  let path := src_of "model.gguf" in
  (exists e, load_infos open_map path = Returns (inl e))
  \/ (exists f dash_pos split_count, load_infos open_map path = Returns (inr f)
        /\ Forall (region_ok (file_maps open_map path dash_pos split_count)) (g_infos f))
  \/ (load_infos open_map path = Undefined
      /\ exists data b, open_map path = Mapped data /\ parse_body data = Returns (inr b)
           /\ (bad_float (b_metadata b) "general.alignment" \/ bad_float (b_metadata b) "split.count")).
Proof.
  intros open_map path. apply (load_infos_total open_map path). intros p data. unfold open_map.
  case_bool_decide; [|done]. intros [= <-]. split; [|done]. by repeat constructor.
Defined.
