(* ===== verification/GgufLoad.v ===== *)
(** * GGUF tensors: descriptors and shards

    What the loader builds from the tensor infos of a parsed file, and which
    file each tensor of a split model is read from. *)

From Corelib Require Import ssreflect_rw SpecFloat.
From stdpp Require Import prelude list gmap strings.
From S2P Require Import Prelude StreamPipeline QTypes TensorViews TensorKinds GgufReader GgufParse GgufSafety.
Open Scope Z_scope.

(** ** From infos to tensors *)

Lemma reverse_dims_overrun n ndim dims shape :
  length dims = 4%nat -> 4 < ndim -> reverse_dims (S n) 0 ndim dims shape = Undefined.
Proof.
  intros Hl Hn. simpl. unfold arr_get, vget. destruct (Z.ltb_spec (ndim - 1 - 0) 0); [lia|].
  rewrite lookup_ge_None_2 by lia. done.
Qed.

Lemma reverse_dims_returns dims (n : nat) :
  length dims = 4%nat -> (n <= 4)%nat ->
  reverse_dims n 0 (Z.of_nat n) dims [1; 1; 1; 1]
  = Returns (rev (take n dims) ++ replicate (4 - n) 1).
Proof.
  intros Hl Hn. destruct dims as [|a [|b [|c [|d [|? ?]]]]]; try done.
  by destruct n as [|[|[|[|[|?]]]]]; try lia.
Qed.

Lemma prodZ_app l k : prodZ (l ++ k) = prodZ l * prodZ k.
Proof. induction l as [|d l IH]; [unfold prodZ; simpl; lia|]. cbn [app]. rw !prodZ_cons IH. ring. Qed.

Lemma prodZ_rev l : prodZ (rev l) = prodZ l.
Proof.
  induction l as [|d l IH]; [done|]. cbn [rev]. rw prodZ_app IH !prodZ_cons. change (prodZ []) with 1. ring.
Qed.

(** A tensor of that many bytes has no more elements than the strides can count. *)
Lemma exact_size_bounds_elements info :
  known_type (ti_type info) -> 0 <= prodZ (counted_dims info) ->
  exact_size info <= 2 ^ 54 -> prodZ (counted_dims info) < 2 ^ 63.
Proof.
  intros Ht Hp. unfold exact_size. pose proof (known_type_size _ Ht) as [Hb Hts].
  set (n := prodZ _) in *. set (bs := gguf_blck_size _) in *. set (ts := gguf_type_size _) in *.
  pose proof (Z.div_mod (n + bs - 1) bs ltac:(lia)). pose proof (Z.mod_pos_bound (n + bs - 1) bs ltac:(lia)).
  set (q := (n + bs - 1) / bs) in *. intros Hsz. assert (0 <= q) by (apply Z.div_pos; lia).
  assert (q <= 2 ^ 54) by nia. assert (bs * q <= 256 * 2 ^ 54) by nia. lia.
Qed.

Lemma exact_size_pos info :
  known_type (ti_type info) -> 0 < prodZ (counted_dims info) -> 0 < exact_size info.
Proof.
  intros Ht Hp. unfold exact_size. pose proof (known_type_size _ Ht) as [Hb Hts].
  apply Z.mul_pos_pos; [|lia]. apply Z.div_str_pos. lia.
Qed.

Lemma counted_dims_small info n :
  info_ok info -> ti_n_dims info = Z.of_nat n -> (n <= 4)%nat ->
  counted_dims info = take n (ti_dims info) /\ length (counted_dims info) = n.
Proof.
  intros (_ & Hl & _) Hn Hle. unfold counted_dims. rewrite Hn.
  replace (Z.to_nat (Z.min (Z.of_nat n) 4)) with n by lia. split; [done|]. rw length_take. lia.
Qed.

(** The descriptor the loader builds for a tensor of at most four dimensions. *)
Definition loaded_tensor (info : GGUFTensorInfo) : Tensor :=
  set_kind (tensor_of (ptr_add (ti_data_base info) (ti_offset info)) (gguf_type_to_qtype (ti_type info))
              (rev (counted_dims info)) false)
    (match_tensor_kind (ti_name info)) (bool_decide (ti_type info = GgufWireType.MXFP4_V2)).

Lemma build_tensor_returns info :
  info_ok info -> ti_n_dims info <= 4 -> gguf_tensor_in_bounds info = true ->
  Forall (fun d => 0 < d) (counted_dims info) -> prodZ (counted_dims info) < 2 ^ 63 ->
  build_tensor info = Returns (Some (loaded_tensor info)).
Proof.
  intros Hi Hn Hb Hpos Hlt. pose proof Hi as ([Hn0 _] & Hl & _).
  destruct (Z_of_nat_complete (ti_n_dims info) Hn0) as [n En].
  destruct (counted_dims_small info n Hi En ltac:(lia)) as [Ec Hlen].
  unfold build_tensor. rw Hb /= En. rewrite i32_small, Nat2Z.id by lia.
  rewrite reverse_dims_returns by (done || lia). rw returns_bind -Ec.
  assert (Z.of_nat n = Z.of_nat (length (rev (counted_dims info)))) as -> by (rewrite length_rev; lia).
  rewrite new_tensor_returns; [done|rewrite length_rev; lia|].
  apply suffix_fit; [by apply Forall_rev|]. rewrite prodZ_rev. apply in_i64_small.
  pose proof (prodZ_pos _ Hpos). lia.
Qed.

(** C39: What becomes of a parsed tensor info, by its dimension count.  A window
    out of bounds is skipped.  With at most four dimensions, all positive, a data
    limit of at most 2^54 and an element count that does not wrap in [uint64_t]
    when it is rounded up to blocks, the descriptor has the dimensions in
    reverse, row-major strides, and its bytes, of the size the format gives them,
    lie in one mapped file; where the rounding wraps, the bounds check accepts
    windows that lie in no file ([crafted_info_accepted]).  With five or more the
    loader writes past its four-entry shape array (or, from 2^31 on, aborts):
    nothing before that rejects such a file. *)
Theorem build_tensor_outcome maps info :
  region_ok maps info ->
  (gguf_tensor_in_bounds info = false -> build_tensor info = Returns None)
  /\ (gguf_tensor_in_bounds info = true -> ti_n_dims info <= 4 -> Forall (fun d => 0 < d) (counted_dims info) ->
      ti_data_limit info <= 2 ^ 54 -> prodZ (counted_dims info) + gguf_blck_size (ti_type info) - 1 < two64 ->
      build_tensor info = Returns (Some (loaded_tensor info))
      /\ exists k off data, t_data (loaded_tensor info) = Some (k, off) /\ maps k = Some data
           /\ 0 <= off /\ off + exact_size info <= Z.of_nat (length data))
  /\ (gguf_tensor_in_bounds info = true -> 4 < ti_n_dims info < 2 ^ 31 -> build_tensor info = Undefined)
  /\ (gguf_tensor_in_bounds info = true -> 2 ^ 31 <= ti_n_dims info -> build_tensor info = Aborts).
Proof.
  intros [Hi Hreg]. pose proof Hi as (Hn & Hl & Ho).
  split; [intros Hb; unfold build_tensor; by rewrite Hb|]. split; [|split].
  - intros Hb H4 Hpos Hlim Hwrap. assert (0 <= ti_data_limit info) by (destruct Hreg as [[_ ->]|(? & ? & ? & ?)]; lia).
    pose proof Hb as Hb'. apply in_bounds_iff in Hb' as (Ht & _ & Hw); [|done|unfold two64; lia].
    rewrite (proj2 (Z.ltb_lt _ _) Hwrap) in Hw. pose proof (prodZ_pos _ Hpos) as Hp.
    pose proof (exact_size_pos info Ht Hp).
    split; [apply build_tensor_returns; auto; apply exact_size_bounds_elements; (done || lia)|].
    destruct Hreg as [[_ E]|(k & start & data & Eb & Em & Hs & Hsum & _)]; [lia|].
    exists k, (ti_offset info + start), data. simpl. rewrite Eb. repeat split; (done || lia).
  - intros Hb H4. unfold build_tensor. rw Hb /=. rewrite i32_small by lia.
    destruct (Z.to_nat (ti_n_dims info)) as [|n] eqn:En; [lia|]. by rewrite reverse_dims_overrun by lia.
  - intros Hb H31. unfold build_tensor. rw Hb /=.
    assert (i32 (ti_n_dims info) = ti_n_dims info - two32) as ->.
    { unfold i32. rewrite (Z.mod_eq _ two32) by done.
      replace ((ti_n_dims info + 2 ^ 31) / two32) with 1; [lia|].
      apply (Z.div_unique_pos _ _ _ (ti_n_dims info - 2 ^ 31)); unfold two32 in *; lia. }
    assert (ti_n_dims info - two32 < 0) by lia. rewrite Z2Nat.nonpos by lia. cbn [reverse_dims]. rw returns_bind.
    unfold new_tensor. destruct (Z.leb_spec 0 (ti_n_dims info - two32)); [lia|done].
Qed.

Definition sample_maps (k : Z) : option (list Z) := if k =? 1 then Some (replicate 200 0) else None.

Lemma build_tensor_outcome_witness :
  (gguf_tensor_in_bounds sample_info = false -> build_tensor sample_info = Returns None)
  /\ (gguf_tensor_in_bounds sample_info = true -> ti_n_dims sample_info <= 4 ->
      Forall (fun d => 0 < d) (counted_dims sample_info) -> ti_data_limit sample_info <= 2 ^ 54 ->
      prodZ (counted_dims sample_info) + gguf_blck_size (ti_type sample_info) - 1 < two64 ->
      build_tensor sample_info = Returns (Some (loaded_tensor sample_info))
      /\ exists k off data, t_data (loaded_tensor sample_info) = Some (k, off) /\ sample_maps k = Some data
           /\ 0 <= off /\ off + exact_size sample_info <= Z.of_nat (length data))
  /\ (gguf_tensor_in_bounds sample_info = true -> 4 < ti_n_dims sample_info < 2 ^ 31 ->
      build_tensor sample_info = Undefined)
  /\ (gguf_tensor_in_bounds sample_info = true -> 2 ^ 31 <= ti_n_dims sample_info ->
      build_tensor sample_info = Aborts).
Proof.
  apply (build_tensor_outcome sample_maps sample_info).
  split; [unfold info_ok, two32, two64; simpl; lia|]. right. exists 1, 96, (replicate 200 0).
  simpl. repeat split; lia.
Defined.

(** ** Shards *)

(** The last [n] infos get the shard's base: all of them from index
    [length - n] on, and none when there are fewer than [n]. *)
Lemma set_base_from_tail (n : Z) base limit infos :
  0 <= n < two64 -> Z.of_nat (length infos) < two64 ->
  set_base_from (Z.of_nat (length infos) -64 n) base limit infos
  = if n <=? Z.of_nat (length infos)
    then take (length infos - Z.to_nat n) infos ++ (set_base base limit <$> drop (length infos - Z.to_nat n) infos)
    else infos.
Proof.
  intros Hn Hl. unfold set_base_from. apply list_eq. intros i. rewrite list_lookup_imap.
  destruct (Z.leb_spec n (Z.of_nat (length infos))).
  - rewrite u64_small by lia. destruct (decide (i < length infos - Z.to_nat n)%nat) as [Hi|Hi].
    + rewrite lookup_app_l by (rewrite length_take; lia). rewrite lookup_take_lt by done.
      destruct (infos !! i); [|done]. simpl. by rewrite (proj2 (Z.leb_gt _ _)) by lia.
    + rewrite lookup_app_r, list_lookup_fmap, lookup_drop, length_take by (rewrite length_take; lia).
      replace (_ + (i - _))%nat with i by lia. destruct (infos !! i) eqn:Ei; [|done].
      simpl. by rewrite (proj2 (Z.leb_le _ _)) by lia.
  - assert (Z.of_nat (length infos) -64 n = Z.of_nat (length infos) - n + two64) as ->.
    { symmetry. apply (Z.mod_unique_pos _ _ (-1)); unfold two64 in *; lia. }
    destruct (infos !! i) as [x|] eqn:Ei; [|done]. apply lookup_lt_Some in Ei. simpl.
    by rewrite (proj2 (Z.leb_gt _ _)) by lia.
Qed.

Lemma read_loop_length {A} (body : rd A) fuel count r l r' :
  0 <= count -> read_loop fuel count body r = Returns (l, r') ->
  Z.of_nat (length l) <= count /\ (rd_failed r' = false -> Z.of_nat (length l) = count).
Proof.
  revert count r l r'. induction fuel as [|fuel IH]; intros count r l r' Hc; cbn [read_loop].
  - destruct (_ && _) eqn:E; [done|]. intros [= <- <-]. split; [done|]. intros Hf.
    rewrite Hf in E. apply andb_false_iff in E as [E%Z.ltb_ge|]; [simpl; lia|done].
  - destruct (_ && _) eqn:E.
    + apply andb_true_iff in E as [E%Z.ltb_lt _]. destruct (body r) as [[a r1]| | | |]; try done.
      rw returns_bind. destruct (read_loop fuel (count - 1) body r1) as [[l1 r2]| | | |] eqn:E2; try done.
      rw returns_bind. intros [= <- <-]. apply IH in E2 as [H1 H2]; [|lia]. cbn [length]. split; [lia|].
      intros Hf. specialize (H2 Hf). lia.
    + intros [= <- <-]. split; [done|]. intros Hf. rewrite Hf in E.
      apply andb_false_iff in E as [E%Z.ltb_ge|]; [simpl; lia|done].
Qed.

Lemma read_loop_fuel {A} (body : rd A) fuel count r l r' :
  read_loop fuel count body r = Returns (l, r') -> (length l <= fuel)%nat.
Proof.
  revert count r l r'. induction fuel as [|fuel IH]; intros count r l r'; cbn [read_loop].
  - destruct (_ && _); [done|]. by intros [= <- <-].
  - destruct (_ && _); [|intros [= <- <-]; simpl; lia]. destruct (body r) as [[a r1]| | | |]; try done.
    rw returns_bind. destruct (read_loop fuel _ body r1) as [[l1 r2]| | | |] eqn:E2; try done.
    rw returns_bind. intros [= <- <-]. apply IH in E2. simpl. lia.
Qed.

(** The tensor count a shard's header promises, the infos read from it, and the
    reader afterwards. *)
Definition shard_infos (sdata : list Z) : outcome (Z * list GGUFTensorInfo * BinaryReader) :=
  '(_, r) ← read_u32 (new_reader sdata);
  '(_, r) ← read_u32 r;
  '(promised, r) ← read_u64 r;
  '(skv_count, r) ← read_u64 r;
  '(_, r) ← read_while skv_count read_kv r;
  '(new, r) ← read_while promised read_info r;
  Returns (promised, new, r).

(** Unfold the next step of a run that is known to return. *)
Ltac run_step H :=
  match type of H with
  | (?m ≫= _) = Returns _ =>
      let E := fresh "E" in
      destruct m as [[? ?]| | | |] eqn:E; [|discriminate..]; rewrite returns_bind in H
  end.

Lemma parse_shard_inv alignment shard sdata infos out :
  parse_shard alignment shard sdata infos = Returns (inr out) ->
  exists promised new r r' x, shard_infos sdata = Returns (promised, new, r) /\ align alignment r = Returns (x, r')
    /\ out = set_base_from (Z.of_nat (length (infos ++ new)) -64 promised) (Some (shard, rd_pos r'))
               (data_avail (rd_pos r') (rd_size r')) (infos ++ new).
Proof.
  intros H. unfold parse_shard in H. do 4 run_step H.
  destruct (_ || _); [discriminate|]. run_step H. run_step H. run_step H. injection H as <-.
  unfold parse_tensor_infos in E4. unbind E4. injection E4 as <- <-.
  eexists _, _, _, _, _. split; [|split; [exact E5|done]].
  unfold shard_infos. by rw E returns_bind E0 returns_bind E1 returns_bind E2 returns_bind E3 returns_bind E6 returns_bind.
Qed.

Lemma shard_infos_bounds sdata promised new r :
  Forall byte sdata -> Z.of_nat (length sdata) < two64 -> shard_infos sdata = Returns (promised, new, r) ->
  0 <= promised < two64 /\ (length new <= S (length sdata))%nat
  /\ (rd_failed r = false -> promised = Z.of_nat (length new)).
Proof.
  intros Hb Hs H. assert (rd_ok (new_reader sdata)) as H0 by (split; [unfold rd_size; simpl; lia|done]).
  unfold shard_infos in H. do 6 run_step H. injection H as <- <- <-.
  pose proof (safe_later read_u32 _ _ _ H0 E) as L1.
  pose proof (safe_later read_u32 _ _ _ (later_ok _ _ L1) E0) as L2.
  pose proof (read_range 8 _ _ _ (later_ok _ _ L2) ltac:(lia) E1) as Hp.
  pose proof (safe_later read_u64 _ _ _ (later_ok _ _ L2) E1) as L3.
  pose proof (safe_later read_u64 _ _ _ (later_ok _ _ L3) E2) as L4.
  pose proof (safe_later (read_while z2 read_kv) _ _ _ (later_ok _ _ L4) E3) as L5.
  assert (later (new_reader sdata) b3) as (_ & D & _) by eauto 12 with quench.
  split; [exact Hp|]. unfold read_while in E4. split.
  - apply read_loop_fuel in E4. unfold read_fuel in E4. by rewrite D in E4.
  - intros Hf. apply read_loop_length in E4 as [_ Hl]; [|lia]. symmetry. by apply Hl.
Qed.

(** C40: Which data the tensors of a shard get.  A shard that parses to its end
    leaves the infos of earlier files alone and adds its own, each with the
    shard's data.  A shard that is cut short is not refused: the count its header
    promised is applied from the end of all infos, so that when it yields fewer,
    infos of earlier files are pointed into this shard. *)
Theorem shard_data_assignment alignment shard sdata infos out :
  Forall byte sdata -> Z.of_nat (length infos + length sdata) < two64 - 1 ->
  parse_shard alignment shard sdata infos = Returns (inr out) ->
  exists promised new r start limit,
    shard_infos sdata = Returns (promised, new, r)
    /\ let place := set_base (Some (shard, start)) limit in
       let all := infos ++ new in
       (rd_failed r = false -> out = infos ++ (place <$> new))
       /\ out = if promised <=? Z.of_nat (length all)
                then take (length all - Z.to_nat promised) all ++ (place <$> drop (length all - Z.to_nat promised) all)
                else all.
Proof.
  intros Hb Hs (promised & new & r & r' & x & Hi & _ & ->)%parse_shard_inv.
  destruct (shard_infos_bounds sdata promised new r Hb ltac:(lia) Hi) as (Hp & Hn & Hf).
  eexists promised, new, r, _, _. split; [exact Hi|]. cbv zeta.
  assert (Z.of_nat (length (infos ++ new)) < two64) as Hl by (rewrite length_app; lia).
  split; [|by apply set_base_from_tail]. intros E. specialize (Hf E).
  rewrite set_base_from_tail by done. rewrite length_app. destruct (Z.leb_spec promised (Z.of_nat (length infos + length new))); [|lia].
  replace (length infos + length new - Z.to_nat promised)%nat with (length infos) by lia.
  by rewrite take_app_length, drop_app_length.
Qed.

(** A shard that promises two tensors and ends before the first. *)
Definition cut_shard : list Z := le_encode 4 GGUF_MAGIC ++ le_encode 4 3 ++ le_encode 8 2 ++ le_encode 8 0.

(** It takes over an info of the primary file. *)
Example cut_shard_takes_over :
  exists limit zeros,
    parse_shard 32 2 cut_shard [sample_info; sample_info]
    = Returns (inr [sample_info; set_base (Some (2, 24)) limit sample_info; zeros]).
Proof. eexists _, _. vm_compute. reflexivity. Qed.

Lemma shard_data_assignment_witness :
  exists out promised new r start limit,
    shard_infos cut_shard = Returns (promised, new, r)
    /\ let place := set_base (Some (2, start)) limit in
       let all := [sample_info; sample_info] ++ new in
       (rd_failed r = false -> out = [sample_info; sample_info] ++ (place <$> new))
       /\ out = if promised <=? Z.of_nat (length all)
                then take (length all - Z.to_nat promised) all ++ (place <$> drop (length all - Z.to_nat promised) all)
                else all.
Proof.
  eexists. apply (shard_data_assignment 32 2 cut_shard [sample_info; sample_info]);
    [by repeat constructor|done|vm_compute; reflexivity].
Defined.

(** A whole file whose one tensor has five dimensions and a valid window: it is
    parsed without complaint, and building its descriptor overruns the shape
    array. *)
Definition five_dim_file : list Z :=
  le_encode 4 GGUF_MAGIC ++ le_encode 4 3 ++ le_encode 8 1 ++ le_encode 8 0
  ++ (le_encode 8 1 ++ [120]) ++ le_encode 4 5
  ++ le_encode 8 1 ++ le_encode 8 1 ++ le_encode 8 1 ++ le_encode 8 1 ++ le_encode 8 1
  ++ le_encode 4 0 ++ le_encode 8 0
  ++ replicate 32 0.

Example five_dim_file_overruns :
  (res ← parse_primary five_dim_file;
   match res with inl _ => Returns [] | inr f => build_tensors (g_infos f) end) = Undefined.
Proof. vm_compute. reflexivity. Qed.
