(* ===== verification/GgufRoundTrip.v ===== *)
(** * Writing and reading GGUF files

    A writer for the format, as its specification lays the bytes out, and the
    theorem that the loader reads back what was written.  [Parses] says that an
    action consumes exactly given bytes wherever they stand in a file. *)

From Corelib Require Import ssreflect_rw SpecFloat.
From stdpp Require Import prelude list gmap strings.
From S2P Require Import Prelude StreamPipeline QTypes TensorViews TensorKinds GgufReader GgufParse GgufSafety GgufLoad.
Open Scope Z_scope.

(** ** Exact parses *)

Definition Parses {A} (m : rd A) (bs : list Z) (a : A) : Prop :=
  forall pre post, Z.of_nat (length (pre ++ bs ++ post)) < two64 ->
    m (mkReader (pre ++ bs ++ post) (Z.of_nat (length pre)) false)
    = Returns (a, mkReader (pre ++ bs ++ post) (Z.of_nat (length (pre ++ bs))) false).

Lemma parses_ret {A} (a : A) : Parses (mret a) [] a.
Proof. intros pre post _. rw app_nil_r. done. Qed.

Lemma parses_bind {A B} (m : rd A) (f : A -> rd B) bs1 bs2 a b :
  Parses m bs1 a -> Parses (f a) bs2 b -> Parses (m ≫= f) (bs1 ++ bs2) b.
Proof.
  intros H1 H2 pre post Hs. unfold mbind, rd_bind. rw -!app_assoc in Hs. rw -!app_assoc.
  rewrite (H1 pre (bs2 ++ post)) by done. rw returns_bind.
  specialize (H2 (pre ++ bs1) post). rw -!app_assoc in H2. apply H2, Hs.
Qed.

(** The last action's result may be given in another form. *)
Lemma parses_map {A B} (m : rd A) (f : A -> B) bs a b :
  Parses m bs a -> f a = b -> Parses (x ← m; mret (f x)) bs b.
Proof. intros H <-. rewrite <- (app_nil_r bs). eapply parses_bind; [done|]. apply parses_ret. Qed.

Lemma length_le_encode n z : length (le_encode n z) = n.
Proof. revert z. induction n; simpl; auto. Qed.

Lemma le_decode_encode n z : 0 <= z < 256 ^ Z.of_nat n -> le_decode (le_encode n z) = z.
Proof.
  revert z. induction n as [|n IH]; intros z Hz; [simpl in *; lia|].
  rewrite Nat2Z.inj_succ, Z.pow_succ_r in Hz by lia. cbn [le_encode le_decode].
  rewrite IH by (split; [apply Z.div_pos; lia|apply Z.div_lt_upper_bound; lia]).
  pose proof (Z.div_mod z 256). lia.
Qed.

Lemma le_encode_bytes n z : Forall byte (le_encode n z).
Proof. revert z. induction n; intros z; constructor; [apply Z.mod_pos_bound; lia|auto]. Qed.

Lemma check_at pre bs post n b :
  Z.of_nat (length (pre ++ bs ++ post)) < two64 -> 0 <= n <= Z.of_nat (length bs) ->
  check n (mkReader (pre ++ bs ++ post) (Z.of_nat (length pre)) b) = true.
Proof.
  intros Hs Hn. apply Z.leb_le. unfold remaining, rd_size. simpl. rw !length_app in Hs. rw !length_app.
  rewrite u64_small by lia. lia.
Qed.

Lemma load_at pre bs post :
  load (pre ++ bs ++ post) (Z.of_nat (length pre)) (Z.of_nat (length bs)) = Returns bs.
Proof.
  unfold load. rw !length_app. replace (_ && _ && _) with true; [|repeat case_zbool; simpl; lia || done].
  rw !Nat2Z.id. rw drop_app_length take_app_length. done.
Qed.

Lemma advance_at pre bs post b :
  Z.of_nat (length (pre ++ bs ++ post)) < two64 ->
  advance (Z.of_nat (length bs)) (mkReader (pre ++ bs ++ post) (Z.of_nat (length pre)) b)
  = mkReader (pre ++ bs ++ post) (Z.of_nat (length (pre ++ bs))) b.
Proof.
  intros Hs. unfold advance. simpl. f_equal. rw !length_app in Hs. rewrite u64_small by lia. rw length_app. lia.
Qed.

Lemma parses_read n z :
  0 <= z < 256 ^ Z.of_nat n -> Parses (read (Z.of_nat n)) (le_encode n z) z.
Proof.
  intros Hz pre post Hs. unfold read. rewrite check_at by (rewrite ?length_le_encode; done || lia). simpl negb. cbn iota.
  cbn [rd_data rd_pos]. pose proof (load_at pre (le_encode n z) post) as Hl. rw length_le_encode in Hl.
  rw Hl returns_bind. rewrite le_decode_encode by done. pose proof (advance_at pre (le_encode n z) post false Hs) as Ha.
  rw length_le_encode in Ha. by rewrite Ha.
Qed.

Lemma parses_u8 z : 0 <= z < 2 ^ 8 -> Parses read_u8 (le_encode 1 z) z.
Proof. intros. by apply (parses_read 1). Qed.
Lemma parses_u16 z : 0 <= z < 2 ^ 16 -> Parses read_u16 (le_encode 2 z) z.
Proof. intros. by apply (parses_read 2). Qed.
Lemma parses_u32 z : 0 <= z < two32 -> Parses read_u32 (le_encode 4 z) z.
Proof. intros. by apply (parses_read 4). Qed.
Lemma parses_u64 z : 0 <= z < two64 -> Parses read_u64 (le_encode 8 z) z.
Proof. intros. by apply (parses_read 8). Qed.

Definition encode_string (s : bytes) : list Z := le_encode 8 (Z.of_nat (length s)) ++ s.

Lemma parses_string s : Parses read_string (encode_string s) s.
Proof.
  intros pre post Hs. unfold encode_string in *. unfold read_string.
  rw -!app_assoc in Hs. rw -!app_assoc. assert (Z.of_nat (length s) < two64) as Hl.
  { rw !length_app in Hs. lia. }
  rewrite (parses_u64 (Z.of_nat (length s)) ltac:(lia) pre (s ++ post) Hs).
  rw returns_bind. cbn [rd_failed orb]. rewrite app_assoc in Hs. rewrite !(app_assoc pre).
  pose proof (check_at (pre ++ le_encode 8 (Z.of_nat (length s))) s post (Z.of_nat (length s)) false Hs ltac:(lia)) as Hc.
  apply Z.leb_le in Hc. destruct (Z.ltb_spec (remaining (mkReader ((pre ++ le_encode 8 (Z.of_nat (length s))) ++ s ++ post)
    (Z.of_nat (length (pre ++ le_encode 8 (Z.of_nat (length s))))) false)) (Z.of_nat (length s))); [lia|].
  cbn [rd_data rd_pos]. rw load_at returns_bind advance_at //.
Qed.

Lemma length_concat_nonempty (l : list (list Z)) :
  Forall (fun x => x <> []) l -> (length l <= length (concat l))%nat.
Proof.
  induction 1 as [|x l Hx _ IH]; [done|]. simpl. rw length_app. destruct x; [done|simpl; lia].
Qed.

(** A loop reads a list of items back, one after the other. *)
Lemma parses_while {A} (body : rd A) (items : list (list Z * A)) :
  Forall (fun it => Parses body it.1 it.2 /\ it.1 <> []) items ->
  Parses (read_while (Z.of_nat (length items)) body) (concat items.*1) items.*2.
Proof.
  intros Hall.
  assert (forall fuel, (length items <= fuel)%nat ->
    Parses (read_loop fuel (Z.of_nat (length items)) body) (concat items.*1) items.*2) as Hloop.
  { induction Hall as [|[bs a] items [Hp _] _ IH]; intros fuel Hf.
    { intros pre post _. destruct fuel; simpl; by rewrite app_nil_r. }
    destruct fuel as [|fuel]; [simpl in Hf; lia|]. intros pre post Hs.
    change (concat ((bs, a) :: items).*1) with (bs ++ concat items.*1) in *.
    rw -!app_assoc in Hs. rw -!app_assoc.
    eapply returns_loop_step; [simpl; lia|done|by apply (Hp pre (concat items.*1 ++ post))|].
    replace (Z.of_nat (length ((bs, a) :: items)) - 1) with (Z.of_nat (length items)) by (simpl; lia).
    specialize (IH fuel ltac:(simpl in Hf; lia) (pre ++ bs) post). rw -!app_assoc in IH. by apply IH. }
  intros pre post Hs. unfold read_while. apply Hloop; [|done]. unfold read_fuel. simpl.
  pose proof (length_concat_nonempty items.*1) as Hc. rw length_fmap in Hc.
  assert (length items <= length (concat items.*1))%nat; [|rw !length_app; lia].
  apply Hc, Forall_fmap. eapply Forall_impl; [exact Hall|]. by intros ? [].
Qed.

Lemma parses_times {A} (body : rd A) (items : list (list Z * A)) :
  Forall (fun it => Parses body it.1 it.2) items ->
  Parses (read_times (length items) body) (concat items.*1) items.*2.
Proof.
  induction 1 as [|[bs a] items Hp _ IH]; [apply parses_ret|].
  change (concat ((bs, a) :: items).*1) with (bs ++ concat items.*1).
  change (((bs, a) :: items).*2) with (a :: items.*2). cbn [length read_times].
  eapply parses_bind; [done|]. eapply parses_map; done.
Qed.

Lemma signed_of_mod n z :
  0 < n -> - 2 ^ (8 * n - 1) <= z < 2 ^ (8 * n - 1) -> signed n (z mod 2 ^ (8 * n)) = z.
Proof.
  intros Hn Hz. assert (2 ^ (8 * n) = 2 * 2 ^ (8 * n - 1)) as E.
  { rewrite <- Z.pow_succ_r by lia. f_equal. lia. }
  unfold signed. destruct (decide (0 <= z)).
  - rewrite Z.mod_small by lia. by rewrite (proj2 (Z.ltb_lt _ _)) by lia.
  - rewrite <- (Z.mod_unique_pos z _ (-1) (z + 2 ^ (8 * n))) by lia.
    destruct (Z.ltb_spec (z + 2 ^ (8 * n)) (2 ^ (8 * n - 1))); lia.
Qed.

(** Two's complement bytes. *)
Definition se_encode (n : nat) (z : Z) : list Z := le_encode n (z mod 2 ^ (8 * Z.of_nat n)).

Definition fits_signed (n : nat) (z : Z) : Prop :=
  - 2 ^ (8 * Z.of_nat n - 1) <= z < 2 ^ (8 * Z.of_nat n - 1).

Lemma parses_signed n z :
  (0 < n)%nat -> fits_signed n z ->
  Parses (x ← read (Z.of_nat n); mret (signed (Z.of_nat n) x)) (se_encode n z) z.
Proof.
  intros Hn Hz. eapply parses_map; [apply parses_read|apply signed_of_mod; [lia|exact Hz]].
  change 256 with (2 ^ 8). rewrite <- Z.pow_mul_r by lia. apply Z.mod_pos_bound, Z.pow_pos_nonneg; lia.
Qed.

(** ** Metadata values in a file *)

Inductive meta_value :=
  | MUint8 (z : Z) | MInt8 (z : Z) | MUint16 (z : Z) | MInt16 (z : Z) | MUint32 (z : Z) | MInt32 (z : Z)
  | MFloat32 (bits : Z) | MBool (z : Z) | MString (s : bytes)
  | MUint64 (z : Z) | MInt64 (z : Z) | MFloat64 (bits : Z)
  | MStrings (l : list bytes) | MFloats (l : list Z) | MInts (l : list Z) | MUints (l : list Z)
  | MBytes (elem : GGUFValueType) (l : list Z).

(** The type number and the payload the format gives a value. *)
Definition value_type_num (t : GGUFValueType) : Z :=
  match t with
  | GGUFValueType.UINT8 => 0 | GGUFValueType.INT8 => 1 | GGUFValueType.UINT16 => 2
  | GGUFValueType.INT16 => 3 | GGUFValueType.UINT32 => 4 | GGUFValueType.INT32 => 5
  | GGUFValueType.FLOAT32 => 6 | GGUFValueType.BOOL => 7 | GGUFValueType.STRING => 8
  | GGUFValueType.ARRAY => 9 | GGUFValueType.UINT64 => 10 | GGUFValueType.INT64 => 11
  | GGUFValueType.FLOAT64 => 12
  | GGUFValueType.Raw n => n
  end.

Definition meta_type (v : meta_value) : GGUFValueType :=
  match v with
  | MUint8 _ => GGUFValueType.UINT8 | MInt8 _ => GGUFValueType.INT8
  | MUint16 _ => GGUFValueType.UINT16 | MInt16 _ => GGUFValueType.INT16
  | MUint32 _ => GGUFValueType.UINT32 | MInt32 _ => GGUFValueType.INT32
  | MFloat32 _ => GGUFValueType.FLOAT32 | MBool _ => GGUFValueType.BOOL
  | MString _ => GGUFValueType.STRING | MUint64 _ => GGUFValueType.UINT64
  | MInt64 _ => GGUFValueType.INT64 | MFloat64 _ => GGUFValueType.FLOAT64
  | _ => GGUFValueType.ARRAY
  end.

Definition encode_array {A} (elem : GGUFValueType) (enc : A -> list Z) (l : list A) : list Z :=
  le_encode 4 (value_type_num elem) ++ le_encode 8 (Z.of_nat (length l)) ++ concat (enc <$> l).

Definition encode_value (v : meta_value) : list Z :=
  match v with
  | MUint8 z | MBool z => le_encode 1 z
  | MUint16 z => le_encode 2 z
  | MUint32 z | MFloat32 z => le_encode 4 z
  | MUint64 z | MFloat64 z => le_encode 8 z
  | MInt8 z => se_encode 1 z
  | MInt16 z => se_encode 2 z
  | MInt32 z => se_encode 4 z
  | MInt64 z => se_encode 8 z
  | MString s => encode_string s
  | MStrings l => encode_array GGUFValueType.STRING encode_string l
  | MFloats l => encode_array GGUFValueType.FLOAT32 (le_encode 4) l
  | MInts l => encode_array GGUFValueType.INT32 (se_encode 4) l
  | MUints l => encode_array GGUFValueType.UINT32 (le_encode 4) l
  | MBytes elem l => encode_array elem (le_encode 1) l
  end.

Definition meta_ok (v : meta_value) : Prop :=
  match v with
  | MUint8 z | MBool z => 0 <= z < 2 ^ 8
  | MUint16 z => 0 <= z < 2 ^ 16
  | MUint32 z | MFloat32 z => 0 <= z < two32
  | MUint64 z | MFloat64 z => 0 <= z < two64
  | MInt8 z => fits_signed 1 z
  | MInt16 z => fits_signed 2 z
  | MInt32 z => fits_signed 4 z
  | MInt64 z => fits_signed 8 z
  | MString _ => True
  | MStrings l => Z.of_nat (length l) < two64
  | MFloats l | MUints l => Z.of_nat (length l) < two64 /\ Forall (fun z => 0 <= z < two32) l
  | MInts l => Z.of_nat (length l) < two64 /\ Forall (fits_signed 4) l
  | MBytes elem l =>
      (elem = GGUFValueType.BOOL \/ elem = GGUFValueType.UINT8 \/ elem = GGUFValueType.INT8)
      /\ Z.of_nat (length l) < two64 /\ Forall (fun z => 0 <= z < 2 ^ 8) l
  end.

(** What the engine makes of a value.  The elements of an 8-bit array are taken
    as unsigned whatever their declared type. *)
Definition meaning (v : meta_value) : GGUFValue :=
  let t := meta_type v in
  match v with
  | MUint8 z | MBool z | MUint16 z | MUint32 z | MUint64 z => uint_value t z
  | MInt8 z | MInt16 z | MInt32 z | MInt64 z => int_value t z
  | MFloat32 b => float_value t (widen (float_of_bits 8 23 b))
  | MFloat64 b => float_value t (float_of_bits 11 52 b)
  | MString s => str_value t s
  | MStrings l => str_array_value t l
  | MFloats l => float_array_value t (float_of_bits 8 23 <$> l)
  | MInts l => int_array_value t l
  | MUints l => int_array_value t (i32 <$> l)
  | MBytes _ l => int_array_value t l
  end.

Lemma parses_elements {A B} (body : rd B) (enc : A -> list Z) (g : A -> B) l :
  Forall (fun x => Parses body (enc x) (g x) /\ enc x <> []) l ->
  Parses (read_array_elements (Z.of_nat (length l)) body) (concat (enc <$> l)) (g <$> l).
Proof.
  intros Hall. pose proof (parses_while body ((fun x => (enc x, g x)) <$> l)) as Hp.
  rw length_fmap -!list_fmap_compose in Hp. apply Hp, Forall_fmap. done.
Qed.

Lemma le_encode_nonempty n z : (0 < n)%nat -> le_encode n z <> [].
Proof. destruct n; [lia|done]. Qed.

Lemma encode_string_nonempty s : encode_string s <> [].
Proof. done. Qed.

Lemma parses_f32 b : 0 <= b < two32 -> Parses read_f32 (le_encode 4 b) (float_of_bits 8 23 b).
Proof. intros. eapply parses_map; [by apply parses_u32|done]. Qed.

Lemma parses_f64 b : 0 <= b < two64 -> Parses read_f64 (le_encode 8 b) (float_of_bits 11 52 b).
Proof. intros. eapply parses_map; [by apply parses_u64|done]. Qed.

Lemma parses_i8 z : fits_signed 1 z -> Parses read_i8 (se_encode 1 z) z.
Proof. intros. apply (parses_signed 1); [lia|done]. Qed.
Lemma parses_i16 z : fits_signed 2 z -> Parses read_i16 (se_encode 2 z) z.
Proof. intros. apply (parses_signed 2); [lia|done]. Qed.
Lemma parses_i32 z : fits_signed 4 z -> Parses read_i32 (se_encode 4 z) z.
Proof. intros. apply (parses_signed 4); [lia|done]. Qed.
Lemma parses_i64 z : fits_signed 8 z -> Parses read_i64 (se_encode 8 z) z.
Proof. intros. apply (parses_signed 8); [lia|done]. Qed.

Create HintDb gguf.
#[export] Hint Resolve parses_u8 parses_u16 parses_u32 parses_u64 parses_i8 parses_i16 parses_i32 parses_i64
  parses_f32 parses_f64 parses_string encode_string_nonempty : gguf.

(** Type and count of an array. *)
Ltac parse_array g :=
  unfold encode_array; eapply parses_bind; [by apply parses_u32|];
  eapply parses_bind; [apply parses_u64; lia|]; cbn [value_type_of value_type_num];
  eapply parses_map; [apply (parses_elements _ _ g)|try done].

Lemma parses_value v : meta_ok v -> Parses (read_gguf_value (meta_type v)) (encode_value v) (meaning v).
Proof.
  intros Hv. destruct v as [| | | | | | | | | | | |l|l|l|l|elem l]; simpl in Hv; cbn [meta_type encode_value meaning read_gguf_value];
    try (eapply parses_map; [by eauto with gguf|done]).
  - parse_array (fun s : bytes => s); [|by rw list_fmap_id].
    apply Forall_true. eauto with gguf.
  - destruct Hv as [Hl Hv]. parse_array (float_of_bits 8 23).
    eapply Forall_impl; [exact Hv|]. by eauto with gguf.
  - destruct Hv as [Hl Hv]. parse_array (fun z : Z => z); [|by rw list_fmap_id].
    eapply Forall_impl; [exact Hv|]. by eauto with gguf.
  - destruct Hv as [Hl Hv]. parse_array i32. eapply Forall_impl; [exact Hv|]. intros z Hz.
    split; [|done]. eapply parses_map; [by apply parses_u32|done].
  - destruct Hv as (He & Hl & Hv).
    assert (Forall (fun z => Parses (x ← read_u8; mret (i32 x)) (le_encode 1 z) z /\ le_encode 1 z <> []) l) as Hall.
    { eapply Forall_impl; [exact Hv|]. intros z Hz. split; [|done].
      eapply parses_map; [by apply parses_u8|]. apply i32_small.
      assert (0 <= z < 256) by exact Hz. lia. }
    destruct He as [->|[->| ->]]; (parse_array (fun z : Z => z); [done|by rw list_fmap_id]).
Qed.

(** ** Files *)

Definition encode_kv (kv : bytes * meta_value) : list Z :=
  encode_string kv.1 ++ le_encode 4 (value_type_num (meta_type kv.2)) ++ encode_value kv.2.

Lemma value_type_of_num v : value_type_of (value_type_num (meta_type v)) = meta_type v.
Proof. by destruct v. Qed.

Lemma parses_kv kv : meta_ok kv.2 -> Parses read_kv (encode_kv kv) (kv.1, meaning kv.2).
Proof.
  intros Hv. unfold read_kv, encode_kv. eapply parses_bind; [apply parses_string|].
  eapply parses_bind; [apply parses_u32; by destruct kv.2|]. cbn beta. rw value_type_of_num.
  eapply parses_map; [by apply parses_value|done].
Qed.

(** A tensor as a file describes it. *)
Record file_tensor := mkFileTensor {
  ft_name : bytes;
  ft_dims : list Z;
  ft_type : GgufWireType;
  ft_offset : Z
}.

Definition file_tensor_ok (t : file_tensor) : Prop :=
  (length (ft_dims t) <= 4)%nat /\ Forall (fun d => 0 <= d < 2 ^ 63) (ft_dims t)
  /\ (forall n, ft_type t <> GgufWireType.Raw n) /\ 0 <= ft_offset t < two64.

Definition encode_tensor (t : file_tensor) : list Z :=
  encode_string (ft_name t) ++ le_encode 4 (Z.of_nat (length (ft_dims t)))
  ++ concat (le_encode 8 <$> ft_dims t) ++ le_encode 4 (wire_num (ft_type t)) ++ le_encode 8 (ft_offset t).

Definition info_of (base : Ptr) (limit : Z) (t : file_tensor) : GGUFTensorInfo :=
  mkInfo (ft_name t) (Z.of_nat (length (ft_dims t))) (ft_dims t ++ replicate (4 - length (ft_dims t)) 1)
    (ft_type t) (ft_offset t) base limit.

Lemma wire_num_named t :
  (forall n, t <> GgufWireType.Raw n) -> 0 <= wire_num t < two32 /\ wire_of (wire_num t) = t.
Proof. destruct t as [| | | | | | | | | | | | | | | | | | | | | | | | | | | | | | |n]; try done. by intros []%(fun H => H n). Qed.

Lemma parses_tensor t : file_tensor_ok t -> Parses read_info (encode_tensor t) (info_of None 0 t).
Proof.
  intros (Hl & Hd & [Hw Ht]%wire_num_named & Ho). unfold read_info, encode_tensor.
  eapply parses_bind; [apply parses_string|]. eapply parses_bind; [apply parses_u32; unfold two32; lia|].
  replace (Z.to_nat (Z.min (Z.of_nat (length (ft_dims t))) 4)) with (length (ft_dims t)) by lia.
  replace (Z.to_nat (Z.of_nat (length (ft_dims t)) - 4)) with 0%nat by lia.
  pose proof (parses_times (z ← read_u64; mret (i64 z)) ((fun d => (le_encode 8 d, d)) <$> ft_dims t)) as Hp.
  rw length_fmap -!list_fmap_compose in Hp.
  eapply parses_bind.
  { apply Hp, Forall_fmap. eapply Forall_impl; [exact Hd|]. intros d Hd1. cbn beta in *.
    eapply parses_map; [apply parses_u64; unfold two64; lia|by apply i64_small]. }
  rewrite <- (app_nil_l (le_encode 4 _ ++ _)). eapply parses_bind; [apply parses_ret|].
  eapply parses_bind; [by apply parses_u32|].
  eapply parses_map; [by apply parses_u64|]. unfold info_of. by rw list_fmap_id Ht.
Qed.

Record gguf_file := mkGguf {
  gf_version : Z;
  gf_kvs : list (bytes * meta_value);
  gf_tensors : list file_tensor;
  gf_data : list Z
}.

Definition encode_body (f : gguf_file) : list Z :=
  le_encode 4 GGUF_MAGIC ++ le_encode 4 (gf_version f)
  ++ le_encode 8 (Z.of_nat (length (gf_tensors f))) ++ le_encode 8 (Z.of_nat (length (gf_kvs f)))
  ++ concat (encode_kv <$> gf_kvs f) ++ concat (encode_tensor <$> gf_tensors f).

(** Bytes from [pos] to the next multiple of [alignment]. *)
Definition padding (alignment pos : Z) : Z :=
  if pos mod alignment =? 0 then 0 else alignment - pos mod alignment.

Definition encode_head (alignment : Z) (f : gguf_file) : list Z :=
  encode_body f ++ replicate (Z.to_nat (padding alignment (Z.of_nat (length (encode_body f))))) 0.

Definition encode_file (alignment : Z) (f : gguf_file) : list Z := encode_head alignment f ++ gf_data f.

(** The metadata map the engine is to get. *)
Definition file_metadata (f : gguf_file) : Metadata := metadata_of (prod_map id meaning <$> gf_kvs f).

Definition gguf_file_ok (alignment : Z) (f : gguf_file) : Prop :=
  2 <= gf_version f <= 3 /\ Forall (fun kv => meta_ok kv.2) (gf_kvs f) /\ Forall file_tensor_ok (gf_tensors f)
  /\ file_alignment (file_metadata f) = Returns alignment /\ 0 < alignment < two64
  /\ Z.of_nat (length (encode_file alignment f)) < two64.

(** An exact parse at a position of a file. *)
Lemma parses_at {A} (m : rd A) bs a data pos pre post :
  Parses m bs a -> data = pre ++ bs ++ post -> pos = Z.of_nat (length pre) ->
  Z.of_nat (length data) < two64 ->
  m (mkReader data pos false) = Returns (a, mkReader data (pos + Z.of_nat (length bs)) false).
Proof.
  intros Hp -> -> Hs. rewrite Hp by done. do 3 f_equal. rw length_app. lia.
Qed.

Lemma encode_kv_nonempty kv : encode_kv kv <> [].
Proof. done. Qed.

Lemma encode_tensor_nonempty t : encode_tensor t <> [].
Proof. done. Qed.

Lemma parses_kvs kvs :
  Forall (fun kv : bytes * meta_value => meta_ok kv.2) kvs ->
  Parses (read_while (Z.of_nat (length kvs)) read_kv) (concat (encode_kv <$> kvs)) (prod_map id meaning <$> kvs).
Proof.
  intros Hkv. apply (parses_elements read_kv). eapply Forall_impl; [exact Hkv|]. intros [k v] Hv.
  split; [by apply parses_kv|done].
Qed.

Lemma parses_infos ts :
  Forall file_tensor_ok ts ->
  Parses (parse_tensor_infos (Z.of_nat (length ts)) []) (concat (encode_tensor <$> ts)) (info_of None 0 <$> ts).
Proof.
  intros Hts. unfold parse_tensor_infos. eapply parses_map; [|done]. apply (parses_elements read_info).
  eapply Forall_impl; [exact Hts|]. intros t Ht. split; [by apply parses_tensor|done].
Qed.

Lemma parse_body_encode f rest :
  2 <= gf_version f <= 3 -> Forall (fun kv => meta_ok kv.2) (gf_kvs f) -> Forall file_tensor_ok (gf_tensors f) ->
  Z.of_nat (length (encode_body f ++ rest)) < two64 ->
  parse_body (encode_body f ++ rest)
  = Returns (inr (mkBody (gf_version f) (file_metadata f) (info_of None 0 <$> gf_tensors f)
                    (mkReader (encode_body f ++ rest) (Z.of_nat (length (encode_body f))) false))).
Proof.
  intros Hver Hkv Hts Hs. set (data := encode_body f ++ rest) in *.
  assert (Z.of_nat (length (gf_kvs f)) < two64 /\ Z.of_nat (length (gf_tensors f)) < two64) as [Hnk Hnt].
  { pose proof (length_concat_nonempty (encode_kv <$> gf_kvs f)) as H1.
    pose proof (length_concat_nonempty (encode_tensor <$> gf_tensors f)) as H2. rw !length_fmap in H1 H2.
    specialize (H1 ltac:(by apply Forall_fmap, Forall_true)). specialize (H2 ltac:(by apply Forall_fmap, Forall_true)).
    unfold data, encode_body in Hs. rw !length_app in Hs. lia. }
  set (b0 := le_encode 4 GGUF_MAGIC). set (b1 := le_encode 4 (gf_version f)).
  set (b2 := le_encode 8 (Z.of_nat (length (gf_tensors f)))).
  set (b3 := le_encode 8 (Z.of_nat (length (gf_kvs f)))). set (b4 := concat (encode_kv <$> gf_kvs f)).
  set (b5 := concat (encode_tensor <$> gf_tensors f)).
  assert (data = b0 ++ b1 ++ b2 ++ b3 ++ b4 ++ b5 ++ rest) as Ed by (unfold data, encode_body; by rewrite <- !app_assoc).
  clearbody data. unfold parse_body, new_reader.
  rewrite (parses_at _ b0 GGUF_MAGIC _ _ [] (b1 ++ b2 ++ b3 ++ b4 ++ b5 ++ rest)); [|by apply parses_u32|done..].
  rw returns_bind Z.eqb_refl. cbn [negb].
  rewrite (parses_at _ b1 (gf_version f) _ _ b0 (b2 ++ b3 ++ b4 ++ b5 ++ rest));
    [|apply parses_u32; unfold two32; lia|done..].
  rw returns_bind. destruct (Z.ltb_spec (gf_version f) 2); [lia|]. destruct (Z.ltb_spec 3 (gf_version f)); [lia|].
  simpl orb. cbn iota.
  rewrite (parses_at _ b2 (Z.of_nat (length (gf_tensors f))) _ _ (b0 ++ b1) (b3 ++ b4 ++ b5 ++ rest));
    [|apply parses_u64; lia|by rewrite <- !app_assoc|done..].
  rw returns_bind.
  rewrite (parses_at _ b3 (Z.of_nat (length (gf_kvs f))) _ _ (b0 ++ b1 ++ b2) (b4 ++ b5 ++ rest));
    [|apply parses_u64; lia|by rewrite <- !app_assoc|done..].
  rw returns_bind. cbn [rd_failed].
  rewrite (parses_at _ b4 (prod_map id meaning <$> gf_kvs f) _ _ (b0 ++ b1 ++ b2 ++ b3) (b5 ++ rest));
    [|by apply parses_kvs|by rewrite <- !app_assoc|done..].
  rw returns_bind. cbn [rd_failed].
  rewrite (parses_at _ b5 (info_of None 0 <$> gf_tensors f) _ _ (b0 ++ b1 ++ b2 ++ b3 ++ b4) rest);
    [|by apply parses_infos|by rewrite <- !app_assoc|rewrite !length_app; lia|done].
  rw returns_bind. cbn [rd_failed]. unfold file_metadata, encode_body. subst b0 b1 b2 b3 b4 b5.
  do 4 f_equal. rewrite !length_app. lia.
Qed.

Lemma padding_spec a pos :
  0 < a -> 0 <= pos -> 0 <= padding a pos < a /\ (pos + padding a pos) mod a = 0.
Proof.
  intros Ha Hp. unfold padding. pose proof (Z.mod_pos_bound pos a Ha) as Hm.
  destruct (Z.eqb_spec (pos mod a) 0) as [E|E]; [rewrite Z.add_0_r; lia|]. split; [lia|].
  replace (pos + (a - pos mod a)) with ((pos / a + 1) * a); [apply Z.mod_mul; lia|].
  pose proof (Z.div_mod pos a). lia.
Qed.

(** Aligning at the end of [pre] lands after the padding, when the file has it. *)
Lemma align_returns a pre post :
  0 < a < two64 -> padding a (Z.of_nat (length pre)) <= Z.of_nat (length post) ->
  Z.of_nat (length (pre ++ post)) < two64 ->
  align a (mkReader (pre ++ post) (Z.of_nat (length pre)) false)
  = Returns (tt, mkReader (pre ++ post) (Z.of_nat (length pre) + padding a (Z.of_nat (length pre))) false).
Proof.
  intros Ha Hp Hs. unfold align. destruct (Z.eqb_spec a 0); [lia|]. cbn [rd_pos].
  pose proof (Z.mod_pos_bound (Z.of_nat (length pre)) a ltac:(lia)) as Hm. unfold padding in *.
  destruct (Z.eqb_spec (Z.of_nat (length pre) mod a) 0); cbn [negb]; [by rewrite Z.add_0_r|].
  rewrite u64_small by lia. pose proof (check_at pre post [] (a - Z.of_nat (length pre) mod a) false) as Hc.
  rw app_nil_r in Hc. rewrite Hc by lia. cbn [negb]. unfold advance. cbn [rd_data rd_pos rd_failed].
  rw length_app in Hs. by rewrite u64_small by lia.
Qed.

Lemma metadata_of_lookup (kvs : list (bytes * GGUFValue)) k v :
  NoDup kvs.*1 -> (k, v) ∈ kvs -> metadata_of kvs !! k = Some v.
Proof.
  unfold metadata_of. intros Hnd Hin.
  assert (forall m : Metadata, (m !! k = Some v \/ (m !! k = None /\ (k, v) ∈ kvs)) ->
    (forall k', k' ∈ kvs.*1 -> m !! k' = None) -> foldl emplace m kvs !! k = Some v) as Hgen.
  2:{ apply Hgen; [right; by rewrite lookup_empty|]. intros. apply lookup_empty. }
  clear Hin. induction kvs as [|[k1 v1] kvs IH]; intros m Hm Hfree; simpl.
  { destruct Hm as [|[_ []%elem_of_nil]]; done. }
  change (((k1, v1) :: kvs).*1) with (k1 :: kvs.*1) in *. apply NoDup_cons in Hnd as [Hk1 Hnd].
  assert (emplace m (k1, v1) = <[k1 := v1]> m) as ->.
  { unfold emplace. simpl. by rewrite Hfree by left. }
  apply IH; [done| |].
  - destruct Hm as [Hm|[Hm [E|Hin]%elem_of_cons]].
    + left. rewrite lookup_insert_ne; [done|]. intros ->. rewrite Hfree in Hm by left. done.
    + simplify_eq. left. by rewrite lookup_insert_eq.
    + right. split; [|done]. rewrite lookup_insert_ne; [done|]. intros ->. apply Hk1.
      by apply (list_elem_of_fmap_2 fst _ (k, v)).
  - intros k' Hk'. rewrite lookup_insert_ne; [apply Hfree; by right|]. by intros ->.
Qed.

(** C36: Reading back a written file.  For every well-formed description of
    metadata and tensors, the loader gives exactly the described version,
    metadata (each value under its key, when no key is repeated) and tensors,
    finds the tensor data where the writer put it, at a multiple of the
    alignment, and gives every tensor that data as its region. *)
Theorem gguf_round_trip alignment f :
  gguf_file_ok alignment f -> NoDup (gf_kvs f).*1 ->
  let start := Z.of_nat (length (encode_head alignment f)) in
  parse_primary (encode_file alignment f)
  = Returns (inr (mkFile (gf_version f) (file_metadata f)
                    (info_of (Some (1, start)) (Z.of_nat (length (gf_data f))) <$> gf_tensors f) alignment start))
  /\ start mod alignment = 0
  /\ forall k v, (k, v) ∈ gf_kvs f -> file_metadata f !! k = Some (meaning v).
Proof.
  intros (Hver & Hkv & Hts & Hal & Ha & Hs) Hnd start.
  set (pos := Z.of_nat (length (encode_body f))). set (pad := replicate (Z.to_nat (padding alignment pos)) 0).
  assert (encode_file alignment f = encode_body f ++ pad ++ gf_data f) as Ef.
  { unfold encode_file, encode_head. by rewrite <- app_assoc. }
  destruct (padding_spec alignment pos ltac:(lia) ltac:(lia)) as [Hpad Hmod].
  assert (start = pos + padding alignment pos) as Estart.
  { unfold start, encode_head. rewrite length_app, length_replicate, Nat2Z.inj_add. fold pos. by rewrite Z2Nat.id by lia. }
  split; [|split; [by rewrite Estart|]].
  - unfold parse_primary. rewrite Ef in *. rewrite parse_body_encode by done. rw returns_bind.
    unfold place_primary. cbn [b_metadata b_version b_infos b_reader]. rw Hal returns_bind.
    rewrite align_returns; [|done|fold pos; unfold pad; rewrite length_app, length_replicate; lia|done].
    rw !returns_bind. cbn [rd_pos]. fold pos. rewrite <- Estart. do 3 f_equal. rewrite <- list_fmap_compose.
    apply list_fmap_ext. intros _ t _. unfold compose, set_base, info_of.
    cbn [ti_name ti_n_dims ti_dims ti_type ti_offset]. f_equal.
    unfold data_avail, rd_size. cbn [rd_data]. rewrite !length_app. unfold pad.
    rewrite length_replicate, !Nat2Z.inj_add. fold pos. clearbody start pos. case_zbool; lia.
  - intros k v Hin. unfold file_metadata. apply metadata_of_lookup.
    + by rewrite <- list_fmap_compose.
    + by apply (list_elem_of_fmap_2 (prod_map id meaning) _ (k, v)).
Qed.

Definition sample_file : gguf_file :=
  mkGguf 3 [(src_of "general.architecture", MString (src_of "llama")); (src_of "general.alignment", MUint32 64);
            (src_of "llama.rope.freq_base", MFloat32 0x461C4000); (src_of "tokens", MStrings [src_of "a"; []]);
            (src_of "types", MInts [1; -3])]
    [mkFileTensor (src_of "blk.0.attn_q.weight") [64; 2] GgufWireType.Q4_0 0] (replicate 72 7).

Lemma gguf_round_trip_witness :
  gguf_file_ok 64 sample_file
  /\ let start := Z.of_nat (length (encode_head 64 sample_file)) in
  parse_primary (encode_file 64 sample_file)
  = Returns (inr (mkFile 3 (file_metadata sample_file)
                    (info_of (Some (1, start)) (Z.of_nat (length (gf_data sample_file))) <$> gf_tensors sample_file)
                    64 start))
  /\ start mod 64 = 0
  /\ forall k v, (k, v) ∈ gf_kvs sample_file -> file_metadata sample_file !! k = Some (meaning v).
Proof.
  assert (gguf_file_ok 64 sample_file) as Hok.
  { split; [simpl; lia|]. split; [repeat constructor; unfold fits_signed; simpl; lia|].
    split; [repeat constructor; simpl; try lia; done|]. split; [vm_compute; reflexivity|].
    split; [unfold two64; lia|]. vm_compute. reflexivity. }
  split; [exact Hok|]. apply (gguf_round_trip 64 sample_file Hok). by apply (bool_decide_unpack _).
Defined.
