(* ===== verification/GgufAssign.v ===== *)
(** * Where a tensor goes

    Models [src/model/gguf_tensor_assign.cpp]: the name of a GGUF tensor decides
    the slot of the model it fills.  A layer's tensor fields are a function of
    [Slot]; [Tensor()] is the empty descriptor. *)

From Corelib Require Import ssreflect_rw.
From stdpp Require Import prelude list strings.
From S2P Require Import Prelude StreamPipeline QTypes TensorViews TensorKinds.
Open Scope Z_scope.

(** ** The model *)

Module Slot.
Inductive t : Type :=
  | wq | wk | wv | wo | q_bias | k_bias | v_bias | o_bias | attn_sinks | attn_norm
  | post_attn_norm | post_attn_norm_bias | post_ffn_norm | post_ffn_norm_bias | attn_q_norm | attn_k_norm
  | ssm_in | ssm_out | ssm_a | ssm_d | ssm_dt_b | ssm_norm_w | ssm_conv1d_w | ssm_conv1d_b
  | ffn_pre_norm_2 | ffn_post_norm_1 | ffn_post_norm_2 | layer_out_scale | rope_freqs
  | w_gate | w_up | w_down | ffn_norm | ffn_gate_inp_scale | router_bias | moe_gate | moe_router_bias
  | expert_gate_packed | expert_up_packed | expert_down_packed
  | expert_gate_bias | expert_up_bias | expert_down_bias | expert_down_scale
  | w_gate_shared | w_up_shared | w_down_shared | shared_expert_gate_inp
  | gdn_gate | gdn_alpha | gdn_beta.

#[global] Instance eq_dec : EqDecision t.
Proof. solve_decision. Defined.
End Slot.

Notation Slot := Slot.t.

Record Layer := mkLayer {
  l_slot : Slot -> Tensor;
  expert_w_gate : list Tensor;
  expert_w_up : list Tensor;
  expert_w_down : list Tensor
}.

Record ModelConfig := mkConfig {
  n_heads : Z;
  n_kv_heads : Z;
  head_dim : Z;
  n_experts : Z;
  ssm_inner_size : Z;
  ssm_group_count : Z;
  ssm_state_size : Z
}.

Definition ssm_conv_channels (c : ModelConfig) : Z := ssm_inner_size c + 2 * ssm_group_count c * ssm_state_size c.

Record Model := mkModel {
  m_config : ModelConfig;
  tok_emb : Tensor;
  out_norm : Tensor;
  tok_emb_norm : Tensor;
  tok_emb_norm_bias : Tensor;
  token_types : Tensor;
  out_proj : Tensor;
  m_layers : list Layer
}.

Definition n_layers (m : Model) : Z := Z.of_nat (length (m_layers m)).

Definition set_slot (l : Layer) (s : Slot) (t : Tensor) : Layer :=
  mkLayer (fun s' => if decide (s' = s) then t else l_slot l s') (expert_w_gate l) (expert_w_up l) (expert_w_down l).

Definition set_layers (m : Model) (ls : list Layer) : Model :=
  mkModel (m_config m) (tok_emb m) (out_norm m) (tok_emb_norm m) (tok_emb_norm_bias m) (token_types m)
    (out_proj m) ls.

(** ** Names *)

(** [split(s, delim)]: the parts between delimiters, one more than there are. *)
Fixpoint split (delim : Z) (s : bytes) : list bytes :=
  match s with
  | [] => [[]]
  | c :: s =>
      if c =? delim then [] :: split delim s
      else match split delim s with
           | [] => [[c]]
           | p :: ps => (c :: p) :: ps
           end
  end.

Definition is_digit (c : Z) : bool := (48 <=? c) && (c <=? 57).
Definition is_space (c : Z) : bool := (c =? 32) || ((9 <=? c) && (c <=? 13)).

(** The number spelled by the leading digits, with how many there are. *)
Fixpoint take_digits (s : bytes) (acc : Z) (n : nat) : Z * nat :=
  match s with
  | c :: s => if is_digit c then take_digits s (10 * acc + (c - 48)) (S n) else (acc, n)
  | [] => (acc, n)
  end.

Fixpoint drop_spaces (s : bytes) : bytes :=
  match s with
  | c :: s' => if is_space c then drop_spaces s' else s
  | [] => []
  end.

(** [std::stoi]: [None] where it throws. *)
Definition stoi (s : bytes) : option Z :=
  let s := drop_spaces s in
  let '(sign, s) := match s with
                    | 45 :: s => (-1, s)
                    | 43 :: s => (1, s)
                    | _ => (1, s)
                    end in
  let '(v, n) := take_digits s 0 0 in
  if Nat.eqb n 0 then None
  else let z := sign * v in
       if (- 2 ^ 31 <=? z) && (z <? 2 ^ 31) then Some z else None.

(** ** Four-part names *)

Inductive Placement :=
  | Put (s : Slot)
  | SplitQkv
  | Reject.

#[global] Instance placement_eq_dec : EqDecision Placement.
Proof. solve_decision. Defined.

(** A field whose suffix does not matter, one with a bias of its own. *)
Definition any (s : Slot) : bytes -> Placement := fun _ => Put s.
Definition with_bias (b w : Slot) : bytes -> Placement := fun suffix =>
  if is_name suffix "bias" then Put b else Put w.

Definition fields4 : list (string * (bytes -> Placement)) :=
  [("attn_q", with_bias Slot.q_bias Slot.wq); ("attn_k", with_bias Slot.k_bias Slot.wk);
   ("attn_v", with_bias Slot.v_bias Slot.wv); ("attn_output", with_bias Slot.o_bias Slot.wo);
   ("attn_sinks", any Slot.attn_sinks); ("attn_norm", any Slot.attn_norm);
   ("attn_output_norm", with_bias Slot.post_attn_norm_bias Slot.post_attn_norm);
   ("layer_output_norm", with_bias Slot.post_ffn_norm_bias Slot.post_ffn_norm);
   ("attn_q_norm", any Slot.attn_q_norm); ("attn_k_norm", any Slot.attn_k_norm);
   ("attn_qkv", fun _ => SplitQkv);
   ("post_attention_norm", any Slot.post_attn_norm); ("post_ffw_norm", any Slot.post_ffn_norm);
   ("pre_ffw_norm_2", any Slot.ffn_pre_norm_2); ("post_ffw_norm_1", any Slot.ffn_post_norm_1);
   ("post_ffw_norm_2", any Slot.ffn_post_norm_2); ("layer_output_scale", any Slot.layer_out_scale);
   ("rope_freqs", any Slot.rope_freqs); ("ffn_gate_up_exps", any Slot.expert_gate_packed);
   ("ffn_gate", any Slot.w_gate); ("ffn_up", any Slot.w_up); ("ffn_down", any Slot.w_down);
   ("ffn_norm", any Slot.ffn_norm);
   ("ffn_gate_inp", fun suffix =>
      if is_name suffix "scale" then Put Slot.ffn_gate_inp_scale
      else if is_name suffix "bias" then Put Slot.router_bias else Put Slot.moe_gate);
   ("ffn_gate_exps", with_bias Slot.expert_gate_bias Slot.expert_gate_packed);
   ("ffn_up_exps", with_bias Slot.expert_up_bias Slot.expert_up_packed);
   ("ffn_down_exps", fun suffix =>
      if is_name suffix "scale" then Put Slot.expert_down_scale
      else if is_name suffix "bias" then Put Slot.expert_down_bias else Put Slot.expert_down_packed);
   ("ffn_gate_shexp", any Slot.w_gate_shared); ("ffn_up_shexp", any Slot.w_up_shared);
   ("ffn_down_shexp", any Slot.w_down_shared); ("ffn_gate_inp_shexp", any Slot.shared_expert_gate_inp);
   ("ssm_in", any Slot.ssm_in); ("ssm_out", any Slot.ssm_out);
   ("ssm_dt", fun suffix =>
      if is_name suffix "bias" then Put Slot.ssm_dt_b
      else if is_name suffix "weight" then Put Slot.ssm_a else Reject);
   ("ssm_norm", any Slot.ssm_norm_w);
   ("ssm_conv1d", fun suffix =>
      if is_name suffix "weight" then Put Slot.ssm_conv1d_w
      else if is_name suffix "bias" then Put Slot.ssm_conv1d_b else Reject);
   ("attn_gate", any Slot.gdn_gate); ("ssm_alpha", any Slot.gdn_alpha); ("ssm_beta", any Slot.gdn_beta);
   ("exp_probs_b", any Slot.moe_router_bias)]%string.

Fixpoint place4 (field suffix : bytes) (fields : list (string * (bytes -> Placement))) : Placement :=
  match fields with
  | [] => Reject
  | (f, p) :: fields => if is_name field f then p suffix else place4 field suffix fields
  end.

(** The fused projection: the recurrent input of a GDN layer, or three
    descriptors into the one tensor. *)
Definition assign_qkv (cfg : ModelConfig) (l : Layer) (tensor : Tensor) (gtype : GgufWireType) : outcome Layer :=
  total_rows ← arr_get (t_shape tensor) 0;
  d_model ← arr_get (t_shape tensor) 1;
  if (0 <? ssm_inner_size cfg) && (total_rows =? ssm_conv_channels cfg)
  then Returns (set_slot l Slot.ssm_in tensor)
  else
    let q_rows := n_heads cfg * head_dim cfg in
    let k_rows := n_kv_heads cfg * head_dim cfg in
    let row_bytes := qtype_row_bytes (qtype_of (wire_num gtype)) d_model in
    let at_row r := ptr_add (t_data tensor) (u64 r *64 row_bytes) in
    q_t ← new_tensor (t_data tensor) (t_qtype tensor) 2 [q_rows; d_model; 1; 1] (t_on_device tensor);
    k_t ← new_tensor (at_row q_rows) (t_qtype tensor) 2 [k_rows; d_model; 1; 1] (t_on_device tensor);
    v_t ← new_tensor (at_row (q_rows + k_rows)) (t_qtype tensor) 2 [k_rows; d_model; 1; 1] (t_on_device tensor);
    Returns (set_slot (set_slot (set_slot l Slot.wq q_t) Slot.wk k_t) Slot.wv v_t).

Definition set_qtype (t : Tensor) (q : QType) : Tensor :=
  mkTensor (t_data t) q (t_ndim t) (t_shape t) (t_stride t) (t_on_device t) (t_kind t) (t_scales t)
    (t_tensor_scale t) (t_mxfp4_layout_v2 t) (t_dropped_source t).

(** [v[i] = t] on a vector of tensors. *)
Definition put_expert (v : list Tensor) (i : Z) (t : Tensor) : outcome (list Tensor) :=
  match vget i v with
  | Some _ => Returns (vset i t v)
  | None => Undefined
  end.

(** The type mirror of the packed slot, set by expert 0. *)
Definition mirror (l : Layer) (expert_idx : Z) (s : Slot) (q : QType) : Layer :=
  if expert_idx =? 0 then set_slot l s (set_qtype (l_slot l s) q) else l.

(** Five-part names: scales, then the experts. *)
Definition assign5 (cfg : ModelConfig) (l : Layer) (field subfield : bytes) (tensor : Tensor) (q : QType)
    : outcome (option Layer) :=
  if is_name subfield "scale" then
    if is_name field "ffn_gate_inp" then Returns (Some (set_slot l Slot.ffn_gate_inp_scale tensor))
    else if is_name field "ffn_down_exps" then Returns (Some (set_slot l Slot.moe_router_bias tensor))
    else Returns None
  else
    match stoi subfield with
    | None => Returns None
    | Some expert_idx =>
        if (expert_idx <? 0) || (n_experts cfg <=? expert_idx) then Returns None
        else if is_name field "ffn_gate" then
          v ← put_expert (expert_w_gate l) expert_idx tensor;
          Returns (Some (mirror (mkLayer (l_slot l) v (expert_w_up l) (expert_w_down l)) expert_idx
                           Slot.expert_gate_packed q))
        else if is_name field "ffn_up" then
          v ← put_expert (expert_w_up l) expert_idx tensor;
          Returns (Some (mirror (mkLayer (l_slot l) (expert_w_gate l) v (expert_w_down l)) expert_idx
                           Slot.expert_up_packed q))
        else if is_name field "ffn_down" then
          v ← put_expert (expert_w_down l) expert_idx tensor;
          Returns (Some (mirror (mkLayer (l_slot l) (expert_w_gate l) (expert_w_up l) v) expert_idx
                           Slot.expert_down_packed q))
        else Returns None
    end.

(** A layer's tensor, by the parts of its name after "blk" and the number;
    [None] when the name is not known. *)
Definition assign_layer (cfg : ModelConfig) (l : Layer) (parts : list bytes) (tensor : Tensor)
    (gtype : GgufWireType) : outcome (option Layer) :=
  match parts with
  | [field] =>
      if is_name field "ssm_a" then Returns (Some (set_slot l Slot.ssm_a tensor))
      else if is_name field "ssm_d" then Returns (Some (set_slot l Slot.ssm_d tensor))
      else Returns None
  | [field; suffix] =>
      match place4 field suffix fields4 with
      | Put s => Returns (Some (set_slot l s tensor))
      | SplitQkv => l' ← assign_qkv cfg l tensor gtype; Returns (Some l')
      | Reject => Returns None
      end
  | [field; subfield; _] => assign5 cfg l field subfield tensor (qtype_of (wire_num gtype))
  | _ => Returns None
  end.

(** [assign_tensor]: the model afterwards and whether the name was known. *)
Definition assign_tensor (m : Model) (name : bytes) (tensor : Tensor) (gtype : GgufWireType)
    : outcome (Model * bool) :=
  let 'mkModel cfg emb norm embn embnb types proj layers := m in
  if is_name name "token_embd.weight" then Returns (mkModel cfg tensor norm embn embnb types proj layers, true)
  else if is_name name "output_norm.weight" then Returns (mkModel cfg emb tensor embn embnb types proj layers, true)
  else if is_name name "token_embd_norm.weight" then Returns (mkModel cfg emb norm tensor embnb types proj layers, true)
  else if is_name name "token_embd_norm.bias" then Returns (mkModel cfg emb norm embn tensor types proj layers, true)
  else if is_name name "token_types.weight" then Returns (mkModel cfg emb norm embn embnb tensor proj layers, true)
  else if is_name name "rope_freqs.weight" then
    match layers with
    | l :: ls => Returns (set_layers m (set_slot l Slot.rope_freqs tensor :: ls), true)
    | [] => Undefined
    end
  else if is_name name "output.weight" then Returns (mkModel cfg emb norm embn embnb types tensor layers, true)
  else if negb (has_prefix name "blk.") then Returns (m, false)
  else
    match split 46 name with
    | _ :: idx :: parts =>
        if Nat.eqb (length parts) 0 then Returns (m, false)
        else
          match stoi idx with
          | None => Returns (m, false)
          | Some layer_idx =>
              match (if (layer_idx <? 0) || (n_layers m <=? layer_idx) then None else vget layer_idx layers) with
              | None => Returns (m, false)
              | Some l =>
                  res ← assign_layer cfg l parts tensor gtype;
                  match res with
                  | Some l' => Returns (set_layers m (vset layer_idx l' layers), true)
                  | None => Returns (m, false)
                  end
              end
          end
    | _ => Returns (m, false)
    end.

(** ** Names in parts *)

Definition no_dot (s : bytes) : Prop := 46 ∉ s.

Lemma split_nil_inv delim s : split delim s <> [].
Proof. destruct s as [|c s]; [done|]. simpl. destruct (c =? delim); [done|]. by destruct (split delim s). Qed.

Lemma split_app p s : no_dot p -> split 46 (p ++ 46 :: s) = p :: split 46 s.
Proof.
  unfold no_dot. induction p as [|c p IH]; intros Hp; [done|]. apply not_elem_of_cons in Hp as [Hc Hp].
  cbn [app split]. rewrite (proj2 (Z.eqb_neq c 46)) by done. by rewrite IH.
Qed.

Lemma split_single p : no_dot p -> split 46 p = [p].
Proof.
  unfold no_dot. induction p as [|c p IH]; intros Hp; [done|]. apply not_elem_of_cons in Hp as [Hc Hp].
  cbn [split]. rewrite (proj2 (Z.eqb_neq c 46)) by done. by rewrite IH.
Qed.

(** The name of field [field] of layer [n]. *)
Definition layer_name (n field suffix : bytes) : bytes :=
  src_of "blk." ++ n ++ 46 :: field ++ 46 :: suffix.

Lemma split_layer_name n field suffix :
  no_dot n -> no_dot field -> no_dot suffix ->
  split 46 (layer_name n field suffix) = [src_of "blk"; n; field; suffix].
Proof.
  intros Hn Hf Hs. change (layer_name n field suffix) with (src_of "blk" ++ 46 :: (n ++ 46 :: field ++ 46 :: suffix)).
  rewrite !split_app, split_single by done || (unfold no_dot; set_solver). done.
Qed.

(** A name that starts with "blk." is none of the model-wide names. *)
Lemma layer_name_only m n field suffix t g :
  no_dot n -> no_dot field -> no_dot suffix ->
  assign_tensor m (layer_name n field suffix) t g
  = match stoi n with
    | None => Returns (m, false)
    | Some i =>
        match (if (i <? 0) || (n_layers m <=? i) then None else vget i (m_layers m)) with
        | None => Returns (m, false)
        | Some l =>
            res ← assign_layer (m_config m) l [field; suffix] t g;
            match res with
            | Some l' => Returns (set_layers m (vset i l' (m_layers m)), true)
            | None => Returns (m, false)
            end
        end
    end.
Proof.
  intros Hn Hf Hs. unfold assign_tensor. destruct m as [cfg emb norm embn embnb types proj layers].
  unfold is_name. rewrite !bool_decide_false by (unfold layer_name; simpl; discriminate).
  assert (has_prefix (layer_name n field suffix) "blk." = true) as -> by (apply bool_decide_eq_true; done).
  cbn [negb]. rewrite split_layer_name by done. done.
Qed.

(** Model [m'] is [m] with tensor [t] in slot [s] of layer [i], and nothing else. *)
Definition only_slot_changed (m m' : Model) (i : Z) (s : Slot) (t : Tensor) : Prop :=
  exists l, m_layers m !! Z.to_nat i = Some l
    /\ m' = set_layers m (<[Z.to_nat i := set_slot l s t]> (m_layers m))
    /\ l_slot (set_slot l s t) s = t
    /\ (forall s', s' <> s -> l_slot (set_slot l s t) s' = l_slot l s').

Lemma NoDup_fmap_inj {A B} (h : A -> B) (l : list A) x y :
  NoDup (h <$> l) -> x ∈ l -> y ∈ l -> h x = h y -> x = y.
Proof.
  intros Hnd [i Hi]%list_elem_of_lookup [j Hj]%list_elem_of_lookup E.
  assert (i = j) as ->; [|congruence].
  apply (NoDup_lookup _ _ _ (h x) Hnd); rewrite list_lookup_fmap; [by rewrite Hi|by rewrite Hj, E].
Qed.

(** Assigning a layer's tensor by its name.  For every layer number the model
    has and every field and suffix with a slot, [assign_tensor] puts the tensor
    in that slot of that layer and changes nothing else; the name of a layer
    the model does not have, or of a field without a slot, leaves the model
    untouched and is reported. *)
Theorem assign_layer_slot m n field suffix t g i :
  no_dot n -> no_dot field -> no_dot suffix -> stoi n = Some i ->
  (0 <= i < n_layers m -> forall s, place4 field suffix fields4 = Put s ->
     exists m', assign_tensor m (layer_name n field suffix) t g = Returns (m', true)
       /\ only_slot_changed m m' i s t)
  /\ (~ 0 <= i < n_layers m \/ place4 field suffix fields4 = Reject ->
      assign_tensor m (layer_name n field suffix) t g = Returns (m, false)).
Proof.
  intros Hn Hf Hs Hi. rewrite layer_name_only by done. rewrite Hi. unfold n_layers. split.
  - intros Hr s Hp. destruct (lookup_lt_is_Some_2 (m_layers m) (Z.to_nat i)) as [l Hl]; [lia|].
    unfold vget. repeat case_zbool; try lia. cbn [orb]. rewrite Hl. unfold assign_layer. cbv iota. rewrite Hp, returns_bind.
    eexists. split; [done|]. exists l. split; [done|]. split; [done|]. simpl.
    split; [by rewrite decide_True by done|]. intros s' Hs'. by rewrite decide_False by done.
  - intros [Hr|Hp].
    + destruct ((i <? 0) || (Z.of_nat (length (m_layers m)) <=? i)) eqn:E; [done|].
      destruct Hr. apply orb_false_iff in E as [E1%Z.ltb_ge E2%Z.leb_gt]. lia.
    + destruct (if _ || _ then None else _) as [l|]; [|done]. unfold assign_layer. cbv iota. by rewrite Hp, returns_bind.
Qed.

Definition sample_config : ModelConfig := mkConfig 4 2 8 0 0 0 0.

Definition empty_layer : Layer := mkLayer (fun _ => default_tensor) [] [] [].

Definition sample_model : Model :=
  mkModel sample_config default_tensor default_tensor default_tensor default_tensor default_tensor default_tensor
    [empty_layer; empty_layer].

Definition sample_tensor : Tensor := tensor_of (Some (1, 4096)) QType.Q8_0 [64; 32] false.

Lemma assign_layer_slot_witness :
  (0 <= 1 < n_layers sample_model ->
     forall s, place4 (src_of "attn_k") (src_of "weight") fields4 = Put s ->
     exists m', assign_tensor sample_model (layer_name (src_of "1") (src_of "attn_k") (src_of "weight"))
                  sample_tensor GgufWireType.Q8_0 = Returns (m', true)
       /\ only_slot_changed sample_model m' 1 s sample_tensor)
  /\ (~ 0 <= 1 < n_layers sample_model \/ place4 (src_of "attn_k") (src_of "weight") fields4 = Reject ->
      assign_tensor sample_model (layer_name (src_of "1") (src_of "attn_k") (src_of "weight"))
        sample_tensor GgufWireType.Q8_0 = Returns (sample_model, false)).
Proof.
  apply (assign_layer_slot sample_model (src_of "1") (src_of "attn_k") (src_of "weight") sample_tensor
           GgufWireType.Q8_0 1); first [by apply (bool_decide_unpack _) | done].
Defined.

(** ** Collisions *)

Definition field_names : list bytes := (fun f => src_of f.1) <$> fields4.

(** Fields that share the slot of another field by design. *)
Definition shared_slot_fields : list bytes :=
  src_of <$> ["post_attention_norm"; "post_ffw_norm"; "ffn_gate_up_exps"]%string.

Definition weight_slot (f : bytes) : Placement := place4 f (src_of "weight") fields4.
Definition bias_slot (f : bytes) : Placement := place4 f (src_of "bias") fields4.

(** Fields whose [.bias] is put where their [.weight] goes. *)
Definition bias_overwrites_weight : list bytes :=
  filter (fun f => weight_slot f <> SplitQkv /\ bias_slot f = weight_slot f) field_names.

(** No two weights of a layer share a slot: apart from three fields that are
    other spellings of one, different fields have different slots for their
    [.weight].  Biases are safe for the attention projections, the experts, the
    router, the encoder norms and the convolution only: for each of the fields
    listed here a [.bias] tensor replaces the weight when it is loaded later. *)
Theorem weight_slots_distinct :
  (forall f g, f ∈ field_names -> g ∈ field_names -> f ∉ shared_slot_fields -> g ∉ shared_slot_fields ->
     weight_slot f = weight_slot g -> f = g)
  /\ bias_overwrites_weight
     = src_of <$> ["attn_sinks"; "attn_norm"; "attn_q_norm"; "attn_k_norm"; "post_attention_norm"; "post_ffw_norm";
                   "pre_ffw_norm_2"; "post_ffw_norm_1"; "post_ffw_norm_2"; "layer_output_scale"; "rope_freqs";
                   "ffn_gate_up_exps"; "ffn_gate"; "ffn_up"; "ffn_down"; "ffn_norm"; "ffn_gate_shexp"; "ffn_up_shexp";
                   "ffn_down_shexp"; "ffn_gate_inp_shexp"; "ssm_in"; "ssm_out"; "ssm_norm"; "attn_gate"; "ssm_alpha";
                   "ssm_beta"; "exp_probs_b"]%string.
Proof.
  split; [|vm_compute; reflexivity]. intros f g Hf Hg Hnf Hng E.
  apply (NoDup_fmap_inj weight_slot (filter (fun f => f ∉ shared_slot_fields) field_names)).
  - apply (bool_decide_unpack _). vm_compute. exact I.
  - by apply list_elem_of_filter.
  - by apply list_elem_of_filter.
  - done.
Qed.

(** ** The fused projection *)

Lemma matrix_returns p q on_device rows cols :
  0 < rows -> 0 < cols -> rows * cols < 2 ^ 48 ->
  new_tensor p q 2 [rows; cols; 1; 1] on_device = Returns (tensor_of p q [rows; cols] on_device).
Proof.
  intros Hr Hc Hb. apply (new_tensor_returns p q on_device [rows; cols] [1; 1]); [simpl; lia|].
  apply suffix_fit; [repeat constructor; lia|]. apply in_i64_small. unfold prodZ. simpl. nia.
Qed.

(** A row of whole blocks takes in the engine's table what it takes in the file. *)
Lemma whole_row_bytes g cols :
  gguf_type_to_qtype g <> QType.NONE -> g <> GgufWireType.MXFP4 -> g <> GgufWireType.MXFP4_V2 ->
  0 < cols < 2 ^ 48 -> cols mod gguf_blck_size g = 0 ->
  qtype_row_bytes (gguf_type_to_qtype g) cols = gguf_row_size g cols /\ 0 <= gguf_row_size g cols <= cols * 292.
Proof.
  intros Ht Hm1 Hm2 Hp Hm. assert (0 < gguf_blck_size g) as Hbs by (destruct g; done).
  assert (cols = cols / gguf_blck_size g * gguf_blck_size g) as E by (pose proof (Z.div_mod cols (gguf_blck_size g)); lia).
  assert (0 <= cols / gguf_blck_size g) as Hq by (apply Z.div_pos; lia).
  set (b := cols / gguf_blck_size g) in *. clearbody b.
  assert (0 <= b < 2 ^ 48) as Hb by nia. assert (0 < gguf_type_size g <= 292) by (destruct g; simpl in *; lia || done).
  rewrite E. rewrite gguf_row_size_blocks, qtype_row_bytes_blocks by done.
  split; [|nia]. f_equal. by destruct g.
Qed.

(** The offset of a row, without wrap-around. *)
Lemma row_offset_value r cols row :
  0 <= r -> 0 < cols -> r * cols < 2 ^ 48 -> 0 <= row <= cols * 292 -> u64 r *64 row = r * row.
Proof.
  intros Hr Hc Hb Hrow. assert (0 <= r * row <= r * (cols * 292)) by nia.
  rewrite u64_mul_l. apply u64_small. unfold two64. nia.
Qed.

Section qkv.
Context (cfg : ModelConfig) (l : Layer) (tensor : Tensor) (g : GgufWireType) (total_rows d_model : Z) (rest : list Z).

Notation q_rows := (n_heads cfg * head_dim cfg).
Notation k_rows := (n_kv_heads cfg * head_dim cfg).
Notation row := (gguf_row_size g d_model).

Hypothesis Hshape : t_shape tensor = total_rows :: d_model :: rest.
Hypothesis Htype : gguf_type_to_qtype g <> QType.NONE.
Hypothesis Hwire : qtype_of (wire_num g) = gguf_type_to_qtype g.
Hypothesis Hmx : g <> GgufWireType.MXFP4.
Hypothesis Hd : 0 < d_model /\ d_model mod gguf_blck_size g = 0.
Hypothesis Hrows : 0 < q_rows /\ 0 < k_rows /\ (q_rows + k_rows) * d_model < 2 ^ 48.
Hypothesis Hdense : ssm_inner_size cfg = 0 \/ total_rows <> ssm_conv_channels cfg.

Lemma qkv_row :
  qtype_row_bytes (qtype_of (wire_num g)) d_model = row /\ 0 <= row <= d_model * 292.
Proof.
  rewrite Hwire. apply whole_row_bytes; try done; [by intros ->| |by destruct Hd].
  destruct Hrows as (Hq & Hk & Hlim), Hd. nia.
Qed.

Lemma row_offset r :
  0 <= r <= q_rows + k_rows -> u64 r *64 qtype_row_bytes (qtype_of (wire_num g)) d_model = r * row.
Proof.
  intros Hr. destruct qkv_row as (-> & Hb). destruct Hrows as (Hq & Hk & Hlim), Hd as [Hdp _].
  apply (row_offset_value r d_model); (nia || done).
Qed.

Lemma assign_qkv_returns :
  assign_qkv cfg l tensor g
  = Returns (set_slot (set_slot (set_slot l
      Slot.wq (tensor_of (t_data tensor) (t_qtype tensor) [q_rows; d_model] (t_on_device tensor)))
      Slot.wk (tensor_of (ptr_add (t_data tensor) (q_rows * row)) (t_qtype tensor) [k_rows; d_model] (t_on_device tensor)))
      Slot.wv (tensor_of (ptr_add (t_data tensor) ((q_rows + k_rows) * row)) (t_qtype tensor) [k_rows; d_model]
                 (t_on_device tensor))).
Proof.
  destruct Hrows as (Hq & Hk & Hlim), Hd as [Hdp _]. unfold assign_qkv. rewrite Hshape.
  change (arr_get (total_rows :: d_model :: rest) 0) with (Returns total_rows).
  change (arr_get (total_rows :: d_model :: rest) 1) with (Returns d_model). rw !returns_bind.
  assert ((0 <? ssm_inner_size cfg) && (total_rows =? ssm_conv_channels cfg) = false) as ->.
  { destruct Hdense as [->|Hne]; [done|]. apply andb_false_intro2. by apply Z.eqb_neq. }
  rewrite (matrix_returns _ _ _ q_rows) by nia. rw returns_bind.
  rewrite !(matrix_returns _ _ _ k_rows) by nia. rw !returns_bind.
  by rewrite !row_offset by lia.
Qed.
End qkv.

(** Splitting a fused QKV tensor.  For whole-block rows of every type but
    MXFP4, a layer that is not a recurrent one gets three descriptors of the
    tensor's own rows as they lie in the file: Q at the start, K after Q, V after
    K; when the tensor has that many rows the three stay inside it, and no other
    slot changes. *)
Theorem fused_qkv_split cfg l tensor g total_rows d_model rest :
  let q_rows := n_heads cfg * head_dim cfg in
  let k_rows := n_kv_heads cfg * head_dim cfg in
  let row := gguf_row_size g d_model in
  t_shape tensor = total_rows :: d_model :: rest ->
  gguf_type_to_qtype g <> QType.NONE -> qtype_of (wire_num g) = gguf_type_to_qtype g -> g <> GgufWireType.MXFP4 ->
  0 < d_model /\ d_model mod gguf_blck_size g = 0 ->
  0 < q_rows /\ 0 < k_rows /\ (q_rows + k_rows) * d_model < 2 ^ 48 ->
  ssm_inner_size cfg = 0 \/ total_rows <> ssm_conv_channels cfg ->
  exists l', assign_qkv cfg l tensor g = Returns l'
    /\ t_data (l_slot l' Slot.wq) = t_data tensor
    /\ t_data (l_slot l' Slot.wk) = ptr_add (t_data tensor) (q_rows * row)
    /\ t_data (l_slot l' Slot.wv) = ptr_add (t_data tensor) ((q_rows + k_rows) * row)
    /\ numel (l_slot l' Slot.wq) = Returns (q_rows * d_model)
    /\ numel (l_slot l' Slot.wk) = Returns (k_rows * d_model)
    /\ numel (l_slot l' Slot.wv) = Returns (k_rows * d_model)
    /\ (q_rows + 2 * k_rows <= total_rows -> (q_rows + k_rows) * row + k_rows * row <= total_rows * row)
    /\ forall s, s <> Slot.wq -> s <> Slot.wk -> s <> Slot.wv -> l_slot l' s = l_slot l s.
Proof.
  intros q_rows k_rows row Hsh Ht Hw Hmx Hd Hr Hdense.
  assert (forall p rows, 0 < rows -> rows * d_model < 2 ^ 48 ->
    numel (tensor_of p (t_qtype tensor) [rows; d_model] (t_on_device tensor)) = Returns (rows * d_model)) as Hnum.
  { intros p rows Hp Hb. rewrite numel_tensor_of; [by unfold prodZ; simpl; rewrite Z.mul_1_r|simpl; lia|repeat constructor; lia|].
    apply suffix_fit; [repeat constructor; lia|]. apply in_i64_small. unfold prodZ. simpl. nia. }
  eexists. split; [by eapply assign_qkv_returns|]. simpl. do 3 (split; [done|]).
  split; [apply Hnum; nia|]. split; [apply Hnum; nia|]. split; [apply Hnum; nia|].
  destruct (qkv_row cfg g d_model) as (_ & Hrow); try done. split; [subst row; nia|].
  intros s H1 H2 H3. by rewrite !decide_False by done.
Qed.

Lemma fused_qkv_split_witness :
  exists l', assign_qkv sample_config empty_layer sample_tensor GgufWireType.Q8_0 = Returns l'
    /\ t_data (l_slot l' Slot.wq) = t_data sample_tensor
    /\ t_data (l_slot l' Slot.wk) = ptr_add (t_data sample_tensor) (4 * 8 * gguf_row_size GgufWireType.Q8_0 32)
    /\ t_data (l_slot l' Slot.wv) = ptr_add (t_data sample_tensor) ((4 * 8 + 2 * 8) * gguf_row_size GgufWireType.Q8_0 32)
    /\ numel (l_slot l' Slot.wq) = Returns (4 * 8 * 32)
    /\ numel (l_slot l' Slot.wk) = Returns (2 * 8 * 32)
    /\ numel (l_slot l' Slot.wv) = Returns (2 * 8 * 32)
    /\ (4 * 8 + 2 * (2 * 8) <= 64 ->
        (4 * 8 + 2 * 8) * gguf_row_size GgufWireType.Q8_0 32 + 2 * 8 * gguf_row_size GgufWireType.Q8_0 32
        <= 64 * gguf_row_size GgufWireType.Q8_0 32)
    /\ forall s, s <> Slot.wq -> s <> Slot.wk -> s <> Slot.wv -> l_slot l' s = l_slot empty_layer s.
Proof.
  apply (fused_qkv_split sample_config empty_layer sample_tensor GgufWireType.Q8_0 64 32 [0; 0]);
    first [done | simpl; lia | by left].
Defined.

(** ** After the tensors are placed *)

Definition is_null (t : Tensor) : bool := bool_decide (t_data t = None).

(** Without an output projection the model uses its embedding. *)
Definition tie_output (m : Model) : Model :=
  if is_null (out_proj m) && negb (is_null (tok_emb m))
  then mkModel (m_config m) (tok_emb m) (out_norm m) (tok_emb_norm m) (tok_emb_norm_bias m) (token_types m)
         (tok_emb m) (m_layers m)
  else m.

(** A fused gate and up projection of [2 * d_ff] rows is cut in two. *)
Definition split_gate_up (d_ff : Z) (l : Layer) : outcome Layer :=
  let up := l_slot l Slot.w_up in
  if (0 <? d_ff) && is_null (l_slot l Slot.w_gate) && negb (is_null up) then
    rows ← arr_get (t_shape up) 0;
    if rows =? 2 * d_ff then
      d_model ← arr_get (t_shape up) 1;
      let row_bytes := qtype_row_bytes (t_qtype up) d_model in
      gate ← new_tensor (t_data up) (t_qtype up) 2 [d_ff; d_model; 1; 1] (t_on_device up);
      up' ← new_tensor (ptr_add (t_data up) (u64 d_ff *64 row_bytes)) (t_qtype up) 2 [d_ff; d_model; 1; 1]
              (t_on_device up);
      Returns (set_slot (set_slot l Slot.w_gate gate) Slot.w_up up')
    else Returns l
  else Returns l.

(** A MoE layer with a dense FFN and no shared expert: the dense tensors are the
    shared expert. *)
Definition remap_shared (l : Layer) : Layer :=
  if negb (is_null (l_slot l Slot.moe_gate)) && negb (is_null (l_slot l Slot.w_up))
     && is_null (l_slot l Slot.w_up_shared)
  then
    let l := set_slot l Slot.w_gate_shared (l_slot l Slot.w_gate) in
    let l := set_slot l Slot.w_up_shared (l_slot l Slot.w_up) in
    let l := set_slot l Slot.w_down_shared (l_slot l Slot.w_down) in
    set_slot (set_slot (set_slot l Slot.w_gate default_tensor) Slot.w_up default_tensor) Slot.w_down default_tensor
  else l.

Lemma remap_shared_none l : is_null (l_slot l Slot.w_up) = true -> remap_shared l = l.
Proof. intros H. unfold remap_shared. by rewrite H, andb_false_r. Qed.

(** Remapping moves the three tensors, and a second pass finds nothing to do. *)
Lemma remap_shared_moves l :
  is_null (l_slot l Slot.moe_gate) = false -> is_null (l_slot l Slot.w_up) = false ->
  is_null (l_slot l Slot.w_up_shared) = true ->
  let l' := remap_shared l in
  l_slot l' Slot.w_gate_shared = l_slot l Slot.w_gate /\ l_slot l' Slot.w_up_shared = l_slot l Slot.w_up
  /\ l_slot l' Slot.w_down_shared = l_slot l Slot.w_down /\ remap_shared l' = l'.
Proof.
  intros H1 H2 H3 l'. assert (is_null (l_slot l' Slot.w_up) = true) as Hn.
  { unfold l', remap_shared. by rewrite H1, H2, H3. }
  split; [unfold l', remap_shared; by rewrite H1, H2, H3|]. split; [unfold l', remap_shared; by rewrite H1, H2, H3|].
  split; [unfold l', remap_shared; by rewrite H1, H2, H3|]. by apply remap_shared_none.
Qed.

(** The halves of a fused projection are the file's rows, for whole-block rows of
    every type but MXFP4, and are not cut again. *)
Lemma split_gate_up_halves g l d_ff d_model rest :
  let up := l_slot l Slot.w_up in
  is_null (l_slot l Slot.w_gate) = true -> is_null up = false ->
  t_shape up = 2 * d_ff :: d_model :: rest -> t_qtype up = gguf_type_to_qtype g ->
  gguf_type_to_qtype g <> QType.NONE -> g <> GgufWireType.MXFP4 -> g <> GgufWireType.MXFP4_V2 ->
  0 < d_model -> d_model mod gguf_blck_size g = 0 -> 0 < d_ff -> d_ff * d_model < 2 ^ 48 ->
  exists l', split_gate_up d_ff l = Returns l'
    /\ t_data (l_slot l' Slot.w_gate) = t_data up
    /\ t_data (l_slot l' Slot.w_up) = ptr_add (t_data up) (d_ff * gguf_row_size g d_model)
    /\ split_gate_up d_ff l' = Returns l'.
Proof.
  intros up Hg Hu Hs Hq Ht Hm1 Hm2 Hd Hmod Hf Hb.
  destruct (whole_row_bytes g d_model) as [Hrow Hr]; try done; [nia|].
  unfold split_gate_up at 1. fold up. rewrite (proj2 (Z.ltb_lt 0 d_ff) Hf), Hg, Hu, Hs, Hq. cbn [andb negb].
  change (arr_get (2 * d_ff :: d_model :: rest) 0) with (Returns (2 * d_ff)).
  change (arr_get (2 * d_ff :: d_model :: rest) 1) with (Returns d_model). rw !returns_bind Z.eqb_refl Hrow.
  rewrite !matrix_returns by (lia || done). rw !returns_bind.
  eexists. split; [done|]. split; [done|]. split; [by rewrite (row_offset_value _ d_model) by (lia || done)|].
  unfold split_gate_up. cbn [l_slot set_slot]. rewrite decide_False, decide_True by done.
  assert (is_null (tensor_of (t_data up) (gguf_type_to_qtype g) [d_ff; d_model] (t_on_device up)) = false) as ->; [exact Hu|by rewrite andb_false_r].
Qed.
