(* ===== verification/Languages.v ===== *)
(** * Languages over bytes

    Sets of byte strings with union, concatenation, iteration and the laws the
    JSON and regex developments share; [≡] is equality of languages. *)

From Corelib Require Import ssreflect_rw.
From stdpp Require Import prelude list.
From S2P Require Import Prelude StreamPipeline.
Open Scope Z_scope.

Definition lang : Type := bytes -> Prop.

#[global] Instance lang_equiv : Equiv lang := fun L M => forall w, L w <-> M w.

#[global] Instance lang_equivalence : Equivalence (≡@{lang}).
Proof. split; [done|by intros L M H w; rw (H w)|by intros L M N H H' w; rw (H w) (H' w)]. Qed.

Definition lempty : lang := fun _ => False.
Definition lnil : lang := fun w => w = [].
Definition lclass (p : Z -> bool) : lang := fun w => exists c, w = [c] /\ p c = true.
Definition lchar (c : Z) : lang := lclass (Z.eqb c).
Definition lor (L M : lang) : lang := fun w => L w \/ M w.
Definition lcat (L M : lang) : lang := fun w => exists a b, w = a ++ b /\ L a /\ M b.
Definition lmany (p : Z -> bool) : lang := Forall (fun c => p c = true).
Definition lopt (L : lang) : lang := lor lnil L.

Declare Scope lang_scope.
Delimit Scope lang_scope with lang.
Bind Scope lang_scope with lang.
Infix "⋅" := lcat (at level 39, right associativity) : lang_scope.
Infix "⊕" := lor (at level 50, left associativity) : lang_scope.
Notation "‘ c ’" := (lchar c) (at level 0, format "‘ c ’") : lang_scope.

Definition lsome (p : Z -> bool) : lang := (lclass p ⋅ lmany p)%lang.

(** ** Laws *)

#[global] Instance lor_proper : Proper ((≡) ==> (≡) ==> (≡)) lor.
Proof. intros L L' HL M M' HM w. unfold lor. by rw (HL w) (HM w). Qed.

#[global] Instance lcat_proper : Proper ((≡) ==> (≡) ==> (≡)) lcat.
Proof.
  intros L L' HL M M' HM w. unfold lcat.
  split; intros (a & b & -> & Ha & Hb); exists a, b; split_and!; auto; by (apply HL || apply HM).
Qed.

#[global] Instance lang_apply_proper : Proper ((≡) ==> eq ==> iff) (fun (L : lang) w => L w).
Proof. intros L M H w ? <-. apply H. Qed.

Lemma lcat_assoc (L M N : lang) : ((L ⋅ M) ⋅ N ≡ L ⋅ M ⋅ N)%lang.
Proof.
  intros w. split.
  - intros (ab & c & -> & (a & b & -> & Ha & Hb) & Hc). exists a, (b ++ c). rw -app_assoc. split_and!; auto. by exists b, c.
  - intros (a & bc & -> & Ha & (b & c & -> & Hb & Hc)). exists (a ++ b), c. rw -app_assoc. split_and!; auto. by exists a, b.
Qed.

Lemma lcat_nil_l L : (lnil ⋅ L ≡ L)%lang.
Proof. intros w. split; [by intros (a & b & -> & -> & Hb)|by intros H; exists [], w]. Qed.

Lemma lcat_nil_r L : (L ⋅ lnil ≡ L)%lang.
Proof. intros w. split; [intros (a & b & -> & Ha & ->); by rw app_nil_r|intros H; exists w, []; by rw app_nil_r]. Qed.

Lemma lcat_or_l L M N : ((L ⊕ M) ⋅ N ≡ L ⋅ N ⊕ M ⋅ N)%lang.
Proof.
  intros w. split.
  - intros (a & b & -> & [H|H] & Hb); [left|right]; by exists a, b.
  - intros [(a & b & -> & H & Hb)|(a & b & -> & H & Hb)]; exists a, b; split_and!; auto; [by left|by right].
Qed.

Lemma lcat_or_r L M N : (L ⋅ (M ⊕ N) ≡ L ⋅ M ⊕ L ⋅ N)%lang.
Proof.
  intros w. split.
  - intros (a & b & -> & Ha & [H|H]); [left|right]; by exists a, b.
  - intros [(a & b & -> & Ha & H)|(a & b & -> & Ha & H)]; exists a, b; split_and!; auto; [by left|by right].
Qed.

Definition lsub (L M : lang) : Prop := forall w, L w -> M w.

#[global] Instance lsub_preorder : PreOrder lsub.
Proof. split; [by intros L w|intros L M N H H' w Hw; auto]. Qed.

Lemma lcat_mono L L' M M' : lsub L L' -> lsub M M' -> lsub (L ⋅ M)%lang (L' ⋅ M')%lang.
Proof. intros HL HM w (a & b & -> & Ha & Hb). exists a, b. auto. Qed.

Lemma lcat_app (L M : lang) a b : L a -> M b -> (L ⋅ M)%lang (a ++ b).
Proof. intros. by exists a, b. Qed.

(** *** Reading one byte *)

Lemma lclass_cons p c w : lclass p (c :: w) <-> p c = true /\ w = [].
Proof. split; [intros (x & [= -> ->] & H); auto|intros (H & ->); by exists c]. Qed.

Lemma lclass_cat_cons p L c w : (lclass p ⋅ L)%lang (c :: w) <-> p c = true /\ L w.
Proof.
  split.
  - intros (a & b & Hw & (x & -> & Hx) & Hb). by simplify_list_eq.
  - intros (H & Hw). exists [c], w. split_and!; auto. by exists c.
Qed.

Lemma lclass_cat_nil p L : ~ (lclass p ⋅ L)%lang [].
Proof. by intros (a & b & Hw & (x & -> & Hx) & Hb). Qed.

Lemma lchar_cat_cons d L c w : (lchar d ⋅ L)%lang (c :: w) <-> c = d /\ L w.
Proof. unfold lchar. rw lclass_cat_cons Z.eqb_eq. naive_solver. Qed.

Lemma lmany_cat_cons p L c w : (lmany p ⋅ L)%lang (c :: w) <-> (p c = true /\ (lmany p ⋅ L)%lang w) \/ L (c :: w).
Proof.
  split.
  - intros (a & b & Hw & Ha & Hb). destruct a as [|x a]; [right; by simpl in Hw; subst|left].
    simplify_list_eq. apply Forall_cons in Ha as [Hx Ha]. split; [done|by exists a, b].
  - intros [(H & (a & b & -> & Ha & Hb))|H]; [|exists [], (c :: w); split_and!; auto; constructor].
    exists (c :: a), b. split_and!; auto. constructor; auto.
Qed.

Lemma lmany_cat_nil p L : (lmany p ⋅ L)%lang [] <-> L [].
Proof.
  split.
  - intros (a & b & Hw & Ha & Hb). symmetry in Hw. by apply app_nil in Hw as [-> ->].
  - intros H. exists [], []. split_and!; auto. constructor.
Qed.

Lemma lnil_cons c w : ~ lnil (c :: w).
Proof. done. Qed.

Lemma lcat_cons (L M : lang) c w :
  (L ⋅ M)%lang (c :: w) <-> (exists a b, w = a ++ b /\ L (c :: a) /\ M b) \/ (L [] /\ M (c :: w)).
Proof.
  split.
  - intros (a & b & Hw & Ha & Hb). destruct a as [|x a]; simplify_list_eq; [by right|left; by exists a, b].
  - intros [(a & b & -> & Ha & Hb)|(Ha & Hb)]; [by exists (c :: a), b|by exists [], (c :: w)].
Qed.
