(* ===== verification/JsonFsm.v ===== *)
(** * The JSON constrainer

    Models [src/compute/json_constrain.h] and [json_constrain.cu]: the character
    automaton behind JSON mode, the category mask with its forced closing, the
    per-token allow list, and the preamble gate ([preamble_gate.h]) in front of
    it; token categories are those of [constrain_common.h].  [state_stack_] is
    kept with its back first. *)

From Corelib Require Import ssreflect_rw.
From stdpp Require Import prelude list.
From S2P Require Import Prelude StreamPipeline.
Open Scope Z_scope.

Module JsonState.
Inductive t : Type :=
  | START | OBJECT_START | OBJECT_KEY | AFTER_KEY | AFTER_COLON | AFTER_VALUE | ARRAY_START
  | ARRAY_AFTER_VALUE | ARRAY_NEED_VALUE | OBJECT_NEED_KEY | IN_STRING | IN_STRING_ESCAPE | IN_NUMBER
  | IN_LITERAL | DONE.

#[global] Instance eq_dec : EqDecision t.
Proof. solve_decision. Defined.
End JsonState.

Notation JsonState := JsonState.t.
Import JsonState.

(** The characters the automaton names. *)
Definition ch_quote : Z := 34.
Definition ch_plus : Z := 43.
Definition ch_comma : Z := 44.
Definition ch_minus : Z := 45.
Definition ch_dot : Z := 46.
Definition ch_colon : Z := 58.
Definition ch_E : Z := 69.
Definition ch_lbracket : Z := 91.
Definition ch_backslash : Z := 92.
Definition ch_rbracket : Z := 93.
Definition ch_e : Z := 101.
Definition ch_f : Z := 102.
Definition ch_n : Z := 110.
Definition ch_t : Z := 116.
Definition ch_lbrace : Z := 123.
Definition ch_rbrace : Z := 125.

Definition is_ws (c : Z) : bool := (c =? 32) || (c =? 9) || (c =? 10) || (c =? 13).
Definition is_digit (c : Z) : bool := (48 <=? c) && (c <=? 57).

Record JsonFsm := mkFsm {
  current_state : JsonState;
  state_stack : list JsonState;
  ws_run : Z;
  num_seen_frac : bool;
  num_seen_exp : bool;
  num_exp_sign_ok : bool;
  num_need_digit : bool;
  partial_literal : bytes;
  target_literal : bytes
}.

Definition with_state (f : JsonFsm) (s : JsonState) (k : list JsonState) : JsonFsm :=
  mkFsm s k (ws_run f) (num_seen_frac f) (num_seen_exp f) (num_exp_sign_ok f) (num_need_digit f)
    (partial_literal f) (target_literal f).

Definition with_ws (f : JsonFsm) (n : Z) : JsonFsm :=
  mkFsm (current_state f) (state_stack f) n (num_seen_frac f) (num_seen_exp f) (num_exp_sign_ok f)
    (num_need_digit f) (partial_literal f) (target_literal f).

Definition with_number (f : JsonFsm) (frac exp sign digit : bool) : JsonFsm :=
  mkFsm (current_state f) (state_stack f) (ws_run f) frac exp sign digit (partial_literal f) (target_literal f).

Definition with_literal (f : JsonFsm) (partial target : bytes) : JsonFsm :=
  mkFsm (current_state f) (state_stack f) (ws_run f) (num_seen_frac f) (num_seen_exp f) (num_exp_sign_ok f)
    (num_need_digit f) partial target.

Definition enter_number (f : JsonFsm) (c : Z) : JsonFsm := with_number f false false false (c =? ch_minus).

(** [current_state_ = stack.empty() ? DONE : stack.back()], then the pop. *)
Definition pop_state (f : JsonFsm) : JsonFsm :=
  match state_stack f with
  | [] => with_state f DONE []
  | s :: k => with_state f s k
  end.

Definition push_state (f : JsonFsm) (continuation next : JsonState) : JsonFsm :=
  with_state f next (continuation :: state_stack f).

Definition goto (f : JsonFsm) (s : JsonState) : JsonFsm := with_state f s (state_stack f).

Definition lit_true : bytes := [116; 114; 117; 101].
Definition lit_false : bytes := [102; 97; 108; 115; 101].
Definition lit_null : bytes := [110; 117; 108; 108].

(** The first character of a value, after which the automaton continues in
    [continuation]; [None] where the character starts no value. *)
Definition enter_value (f : JsonFsm) (continuation : JsonState) (c : Z) : option JsonFsm :=
  if c =? ch_quote then Some (push_state f continuation IN_STRING)
  else if c =? ch_lbrace then Some (push_state f continuation OBJECT_START)
  else if c =? ch_lbracket then Some (push_state f continuation ARRAY_START)
  else if c =? ch_t then Some (push_state (with_literal f [ch_t] lit_true) continuation IN_LITERAL)
  else if c =? ch_f then Some (push_state (with_literal f [ch_f] lit_false) continuation IN_LITERAL)
  else if c =? ch_n then Some (push_state (with_literal f [ch_n] lit_null) continuation IN_LITERAL)
  else if is_digit c || (c =? ch_minus) then Some (enter_number (push_state f continuation IN_NUMBER) c)
  else None.

(** One more character of a number; [None] where it is not part of it. *)
Definition number_char (f : JsonFsm) (c : Z) : option JsonFsm :=
  if is_digit c then Some (with_number f (num_seen_frac f) (num_seen_exp f) false false)
  else if c =? ch_dot then
    if negb (num_seen_frac f) && negb (num_seen_exp f) && negb (num_need_digit f)
    then Some (with_number f true (num_seen_exp f) (num_exp_sign_ok f) true) else None
  else if (c =? ch_e) || (c =? ch_E) then
    if negb (num_seen_exp f) && negb (num_need_digit f)
    then Some (with_number f (num_seen_frac f) true true true) else None
  else if (c =? ch_plus) || (c =? ch_minus) then
    if num_exp_sign_ok f then Some (with_number f (num_seen_frac f) (num_seen_exp f) false true) else None
  else None.

(** The [switch] of [advance_char] for the states that consume the character
    themselves: the automaton afterwards and whether it was legal. *)
Definition advance_here (f : JsonFsm) (c : Z) : JsonFsm * bool :=
  let or_reject (o : option JsonFsm) := match o with Some f' => (f', true) | None => (f, false) end in
  match current_state f with
  | START =>
      if c =? ch_lbrace then (goto f OBJECT_START, true)
      else if c =? ch_lbracket then (goto f ARRAY_START, true)
      else (f, false)
  | OBJECT_START | OBJECT_NEED_KEY =>
      if c =? ch_quote then (push_state f AFTER_KEY IN_STRING, true)
      else if c =? ch_rbrace then
        if decide (current_state f = OBJECT_NEED_KEY) then (f, false) else (pop_state f, true)
      else (f, false)
  | AFTER_KEY => if c =? ch_colon then (goto f AFTER_COLON, true) else (f, false)
  | AFTER_COLON => or_reject (enter_value f AFTER_VALUE c)
  | AFTER_VALUE =>
      if c =? ch_comma then (goto f OBJECT_NEED_KEY, true)
      else if c =? ch_rbrace then (pop_state f, true)
      else (f, false)
  | ARRAY_START | ARRAY_NEED_VALUE =>
      if c =? ch_rbracket then
        if decide (current_state f = ARRAY_NEED_VALUE) then (f, false) else (pop_state f, true)
      else or_reject (enter_value f ARRAY_AFTER_VALUE c)
  | ARRAY_AFTER_VALUE =>
      if c =? ch_comma then (goto f ARRAY_NEED_VALUE, true)
      else if c =? ch_rbracket then (pop_state f, true)
      else (f, false)
  | IN_STRING =>
      if c =? ch_backslash then (goto f IN_STRING_ESCAPE, true)
      else if c =? ch_quote then (pop_state f, true)
      else if c <? 32 then (f, false)
      else (f, true)
  | IN_STRING_ESCAPE => if c <? 32 then (f, false) else (goto f IN_STRING, true)
  | IN_LITERAL =>
      if Nat.leb (length (target_literal f)) (length (partial_literal f))
         || negb (bool_decide (target_literal f !! length (partial_literal f) = Some c))
      then (f, false)
      else
        let f' := with_literal f (partial_literal f ++ [c]) (target_literal f) in
        if Nat.leb (length (target_literal f)) (length (partial_literal f')) then (pop_state f', true) else (f', true)
  | DONE => (f, false)
  | IN_NUMBER | OBJECT_KEY => (f, true)
  end.

(** [advance_char].  A character that ends a number is read again in the
    enclosing state; each time the stack is one shorter. *)
Fixpoint advance_fuel (fuel : nat) (f : JsonFsm) (c : Z) : JsonFsm * bool :=
  if bool_decide (current_state f = IN_NUMBER) && is_ws c && num_need_digit f then (f, false)
  else
    let f := if bool_decide (current_state f = IN_NUMBER) && is_ws c then pop_state f else f in
    if negb (bool_decide (current_state f = IN_STRING)) && negb (bool_decide (current_state f = IN_STRING_ESCAPE))
       && is_ws c
    then (with_ws f (ws_run f + 1), true)
    else
      let f := with_ws f 0 in
      if decide (current_state f = IN_NUMBER) then
        match number_char f c with
        | Some f' => (f', true)
        | None =>
            if num_need_digit f then (f, false)
            else match fuel with
                 | O => (f, false)
                 | S fuel => advance_fuel fuel (pop_state f) c
                 end
        end
      else advance_here f c.

Definition advance_char (f : JsonFsm) (c : Z) : JsonFsm * bool := advance_fuel (S (length (state_stack f))) f c.

(** The automaton after [reset]. *)
Definition init_fsm : JsonFsm := with_number (enter_number (mkFsm START [] 0 false false false false [] []) 48) false false false false.

(** The loop of [sim_token_valid]: [None] at the first illegal character. *)
Fixpoint strict_run (f : JsonFsm) (text : bytes) : option JsonFsm :=
  match text with
  | [] => Some f
  | c :: rest => match advance_char f c with (f', true) => strict_run f' rest | (_, false) => None end
  end.

(** [sim_token_valid], which restores every field it changed. *)
Definition sim_token_valid (f : JsonFsm) (text : bytes) : bool :=
  match strict_run f text with Some _ => true | None => false end.

(** [advance_text] and the loop of [update]: characters are read whether legal or not. *)
Definition advance_text (f : JsonFsm) (text : bytes) : JsonFsm := foldl (fun f c => (advance_char f c).1) f text.
