(* ===== verification/JsonLanguage.v ===== *)
(** * The grammar of JSON

    The grammar of RFC 8259 in
    the shape the standard prints it, over three lexical classes: strings,
    numbers and literal names.  [RFC8259] and [Lax] are two choices of the
    classes: the standard's, and the one the JSON automaton reads. *)

From Corelib Require Import ssreflect_rw.
From stdpp Require Import prelude list.
From S2P Require Import Prelude StreamPipeline Languages JsonFsm.
Open Scope Z_scope.

(** ** The grammar *)

Definition ws : lang := lmany is_ws.

Section Grammar.
Context (LString LNumber LLiteral : lang).

Inductive JValue : lang :=
  | jv_string s : LString s -> JValue s
  | jv_number s : LNumber s -> JValue s
  | jv_literal s : LLiteral s -> JValue s
  | jv_container s : JContainer s -> JValue s
with JContainer : lang :=
  | jc_empty_object s : (‘ch_lbrace’ ⋅ ws ⋅ ‘ch_rbrace’)%lang s -> JContainer s
  | jc_object m : JMembers m -> JContainer (ch_lbrace :: m ++ [ch_rbrace])
  | jc_empty_array s : (‘ch_lbracket’ ⋅ ws ⋅ ‘ch_rbracket’)%lang s -> JContainer s
  | jc_array m : JElements m -> JContainer (ch_lbracket :: m ++ [ch_rbracket])
with JMembers : lang :=
  | jm_last m : JMember m -> JMembers m
  | jm_more m ms : JMember m -> JMembers ms -> JMembers (m ++ ch_comma :: ms)
with JMember : lang :=
  | jm_member s1 k s2 s3 v s4 :
      ws s1 -> LString k -> ws s2 -> ws s3 -> JValue v -> ws s4 ->
      JMember (s1 ++ k ++ s2 ++ ch_colon :: s3 ++ v ++ s4)
with JElements : lang :=
  | je_last s1 v s2 : ws s1 -> JValue v -> ws s2 -> JElements (s1 ++ v ++ s2)
  | je_more s1 v s2 vs : ws s1 -> JValue v -> ws s2 -> JElements vs -> JElements (s1 ++ v ++ s2 ++ ch_comma :: vs).

(** A document as the server asks for it: an object or an array. *)
Definition JDocument : lang := (ws ⋅ JContainer ⋅ ws)%lang.

(** What may follow inside an object or an array, up to its closing character. *)
Definition object_need_key : lang := (JMembers ⋅ ‘ch_rbrace’)%lang.
Definition after_value : lang := (ws ⋅ (‘ch_rbrace’ ⊕ ‘ch_comma’ ⋅ object_need_key))%lang.
Definition after_colon : lang := (ws ⋅ JValue ⋅ after_value)%lang.
Definition after_key : lang := (ws ⋅ ‘ch_colon’ ⋅ after_colon)%lang.
Definition object_start : lang := (ws ⋅ ‘ch_rbrace’ ⊕ object_need_key)%lang.
Definition array_need_value : lang := (JElements ⋅ ‘ch_rbracket’)%lang.
Definition array_after_value : lang := (ws ⋅ (‘ch_rbracket’ ⊕ ‘ch_comma’ ⋅ array_need_value))%lang.
Definition array_start : lang := (ws ⋅ ‘ch_rbracket’ ⊕ array_need_value)%lang.

Lemma JMember_eq : (JMember ≡ ws ⋅ LString ⋅ ws ⋅ ‘ch_colon’ ⋅ ws ⋅ JValue ⋅ ws)%lang.
Proof.
  intros w. split.
  - destruct 1 as [s1 k s2 s3 v s4 H1 Hk H2 H3 Hv H4].
    do 3 (apply lcat_app; [done|]). apply lchar_cat_cons. split; [done|]. by do 2 (apply lcat_app; [done|]).
  - intros (s1 & r1 & -> & H1 & k & r2 & -> & Hk & s2 & r3 & -> & H2 & r4 & r5 & -> & (x & -> & Hx) & s3 & r6 & -> & H3 &
      v & s4 & -> & Hv & H4).
    apply Z.eqb_eq in Hx as <-. simpl; by apply jm_member.
Qed.

Lemma JMembers_eq : (JMembers ≡ JMember ⊕ JMember ⋅ ‘ch_comma’ ⋅ JMembers)%lang.
Proof.
  intros w. split.
  - destruct 1 as [m H|m ms Hm Hms]; [by left|right]. exists m, (ch_comma :: ms). split_and!; auto.
    by apply lchar_cat_cons.
  - intros [H|(m & r & -> & Hm & x & ms & -> & (y & -> & Hy) & Hms)]; [by constructor|].
    apply Z.eqb_eq in Hy as <-. by constructor.
Qed.

Lemma object_need_key_eq : (object_need_key ≡ ws ⋅ LString ⋅ after_key)%lang.
Proof.
  unfold object_need_key at 1. rw JMembers_eq lcat_or_l lcat_assoc lcat_assoc -/object_need_key.
  rw JMember_eq !lcat_assoc -!lcat_or_r. done.
Qed.

Lemma JElements_eq : (JElements ≡ ws ⋅ JValue ⋅ ws ⊕ ws ⋅ JValue ⋅ ws ⋅ ‘ch_comma’ ⋅ JElements)%lang.
Proof.
  intros w. split.
  - destruct 1 as [s1 v s2 H1 Hv H2|s1 v s2 vs H1 Hv H2 Hvs]; [left|right];
      do 2 (apply lcat_app; [done|]); [done|]. apply lcat_app; [done|]. by apply lchar_cat_cons.
  - intros [(s1 & r1 & -> & H1 & v & s2 & -> & Hv & H2)|
      (s1 & r1 & -> & H1 & v & r2 & -> & Hv & s2 & r3 & -> & H2 & x & vs & -> & (y & -> & Hy) & Hvs)]; [by constructor|].
    apply Z.eqb_eq in Hy as <-. by constructor.
Qed.

Lemma array_need_value_eq : (array_need_value ≡ ws ⋅ JValue ⋅ array_after_value)%lang.
Proof.
  unfold array_need_value at 1. rw JElements_eq lcat_or_l !lcat_assoc -/array_need_value -!lcat_or_r. done.
Qed.

Lemma JContainer_eq : (JContainer ≡ ‘ch_lbrace’ ⋅ object_start ⊕ ‘ch_lbracket’ ⋅ array_start)%lang.
Proof.
  intros w. split.
  - destruct 1 as [s H|m Hm|s H|m Hm].
    + left. revert H. apply lcat_mono; [reflexivity|]. intros v; by left.
    + left. apply lchar_cat_cons. split; [done|right]. exists m, [ch_rbrace]. split_and!; auto. by exists ch_rbrace.
    + right. revert H. apply lcat_mono; [reflexivity|]. intros v; by left.
    + right. apply lchar_cat_cons. split; [done|right]. exists m, [ch_rbracket]. split_and!; auto. by exists ch_rbracket.
  - intros [(x & r & -> & (y & -> & Hy) & [H|(m & z & -> & Hm & (u & -> & Hu))])|
            (x & r & -> & (y & -> & Hy) & [H|(m & z & -> & Hm & (u & -> & Hu))])]; apply Z.eqb_eq in Hy as <-.
    + apply jc_empty_object. by apply lchar_cat_cons.
    + apply Z.eqb_eq in Hu as <-. by apply jc_object.
    + apply jc_empty_array. by apply lchar_cat_cons.
    + apply Z.eqb_eq in Hu as <-. by apply jc_array.
Qed.

Lemma JValue_eq : (JValue ≡ LString ⊕ LNumber ⊕ LLiteral ⊕ JContainer)%lang.
Proof.
  intros w. split.
  - destruct 1 as [s H|s H|s H|s H]; unfold lor; auto.
  - intros [[[H|H]|H]|H]; by constructor.
Qed.
End Grammar.

(** ** Lexical classes *)

Definition unescaped (c : Z) : bool := (32 <=? c) && negb (c =? ch_quote) && negb (c =? ch_backslash).

(** The characters of a string, where [escape] is what may follow a backslash. *)
Inductive chars (escape : lang) : lang :=
  | chars_end : chars escape []
  | chars_plain c w : unescaped c = true -> chars escape w -> chars escape (c :: w)
  | chars_escape e w : escape e -> chars escape w -> chars escape (ch_backslash :: e ++ w).

Definition string_of (escape : lang) : lang := (‘ch_quote’ ⋅ chars escape ⋅ ‘ch_quote’)%lang.

Definition is_exp (c : Z) : bool := (c =? ch_e) || (c =? ch_E).
Definition is_sign (c : Z) : bool := (c =? ch_plus) || (c =? ch_minus).
Definition frac : lang := (‘ch_dot’ ⋅ lsome is_digit)%lang.
Definition exp : lang := (lclass is_exp ⋅ lopt (lclass is_sign) ⋅ lsome is_digit)%lang.
Definition number_of (int : lang) : lang := (lopt ‘ch_minus’ ⋅ int ⋅ lopt frac ⋅ lopt exp)%lang.

(** RFC 8259: two-character escapes or [\uXXXX], no superfluous leading zero,
    literal names in one piece. *)
Module RFC8259.
Definition is_hex (c : Z) : bool := is_digit c || ((65 <=? c) && (c <=? 70)) || ((97 <=? c) && (c <=? 102)).
Definition escape : lang :=
  (lclass (fun c => bool_decide (c ∈ [ch_quote; ch_backslash; 47; 98; ch_f; ch_n; 114; ch_t]))
   ⊕ ‘117’ ⋅ lclass is_hex ⋅ lclass is_hex ⋅ lclass is_hex ⋅ lclass is_hex)%lang.
Definition int : lang := (‘48’ ⊕ lclass (fun c => (49 <=? c) && (c <=? 57)) ⋅ lmany is_digit)%lang.
Definition literal : lang := fun w => w = lit_true \/ w = lit_false \/ w = lit_null.
Definition document : lang := JDocument (string_of escape) (number_of int) literal.
End RFC8259.

(** The automaton's dialect: a backslash escapes any one byte that is not a
    control character, a number may start with zeros, and whitespace may stand
    between the letters of a literal name. *)
Module Lax.
Definition escape : lang := lclass (fun c => 32 <=? c).

Fixpoint spaced (w : bytes) : lang :=
  match w with
  | [] => lnil
  | c :: w => (ws ⋅ ‘c’ ⋅ spaced w)%lang
  end.

Definition literal_name (w : bytes) : lang :=
  match w with
  | [] => lempty
  | c :: w => (‘c’ ⋅ spaced w)%lang
  end.
Definition string : lang := string_of escape.
Definition number : lang := number_of (lsome is_digit).
Definition literal : lang := (literal_name lit_true ⊕ literal_name lit_false ⊕ literal_name lit_null)%lang.
Definition value : lang := JValue string number literal.
Definition document : lang := JDocument string number literal.
End Lax.

(** ** The standard's documents are documents of the dialect *)

Scheme JValue_ind' := Minimality for JValue Sort Prop
  with JContainer_ind' := Minimality for JContainer Sort Prop
  with JMembers_ind' := Minimality for JMembers Sort Prop
  with JMember_ind' := Minimality for JMember Sort Prop
  with JElements_ind' := Minimality for JElements Sort Prop.

Lemma JContainer_mono (S S' N N' T T' : lang) :
  lsub S S' -> lsub N N' -> lsub T T' -> lsub (JContainer S N T) (JContainer S' N' T').
Proof.
  intros HS HN HT w.
  apply (JContainer_ind' S N T (JValue S' N' T') (JContainer S' N' T') (JMembers S' N' T') (JMember S' N' T')
           (JElements S' N' T')); intros; eauto using JValue, JContainer, JMembers, JMember, JElements.
Qed.

Lemma lopt_mono L M : lsub L M -> lsub (lopt L) (lopt M).
Proof. intros H w [Hw|Hw]; [by left|right; auto]. Qed.

Lemma number_of_mono (L M : lang) : lsub L M -> lsub (number_of L) (number_of M).
Proof. intros H. repeat apply lcat_mono; (exact H || reflexivity). Qed.

Lemma rfc_int_lax : lsub RFC8259.int (lsome is_digit).
Proof.
  intros w [(c & -> & Hc)|H].
  - apply Z.eqb_eq in Hc as <-. apply lclass_cat_cons. split; [done|constructor].
  - revert H. apply lcat_mono; [|reflexivity]. intros v (c & -> & Hc). exists c. split; [done|].
    unfold is_digit. revert Hc. rw !andb_true_iff !Z.leb_le. lia.
Qed.

Lemma rfc_literal_lax : lsub RFC8259.literal Lax.literal.
Proof.
  assert (Hsp : forall w, Lax.spaced w w).
  { induction w as [|c w IH]; [done|]. apply (lcat_app _ _ []); [constructor|]. by apply lchar_cat_cons. }
  intros w [-> |[-> | ->]]; [left; left|left; right|right]; (apply lchar_cat_cons; split; [done|apply Hsp]).
Qed.

Lemma hex_unescaped c : RFC8259.is_hex c = true -> unescaped c = true.
Proof. unfold RFC8259.is_hex, unescaped, is_digit, ch_quote, ch_backslash. lia. Qed.

Lemma rfc_escape_lax e w : RFC8259.escape e -> chars Lax.escape w -> chars Lax.escape (ch_backslash :: e ++ w).
Proof.
  intros [(c & -> & Hc)|H] Hw.
  - apply chars_escape; [|done]. exists c. split; [done|]. apply bool_decide_eq_true in Hc.
    set_unfold in Hc. by destruct_or?; subst.
  - destruct H as (? & ? & -> & (u & -> & Hu) & ? & ? & -> & (a & -> & Ha) & ? & ? & -> & (b & -> & Hb) & ? & ? & -> &
      (c & -> & Hc) & (d & -> & Hd)).
    apply Z.eqb_eq in Hu as <-. apply (chars_escape _ [117]); [by exists 117|].
    by do 4 (apply chars_plain; [by apply hex_unescaped|]).
Qed.

Lemma rfc_chars_lax : lsub (chars RFC8259.escape) (chars Lax.escape).
Proof. intros w. induction 1; [constructor|by constructor|by apply rfc_escape_lax]. Qed.

Lemma rfc_document_lax : lsub RFC8259.document Lax.document.
Proof.
  apply lcat_mono; [reflexivity|]. apply lcat_mono; [|reflexivity]. apply JContainer_mono.
  - repeat apply lcat_mono; (apply rfc_chars_lax || reflexivity).
  - apply number_of_mono, rfc_int_lax.
  - apply rfc_literal_lax.
Qed.
