(* ===== verification/JsonExact.v ===== *)
(** * What the JSON automaton accepts

    The language that may still follow in a state of the automaton ([Rem]), that
    reading a byte takes its derivative, and hence that the automaton accepts
    exactly the documents of [Lax]. *)

From Corelib Require Import ssreflect_rw.
From stdpp Require Import prelude list.
From S2P Require Import Prelude StreamPipeline Languages JsonFsm JsonLanguage.
Import JsonState.
Open Scope Z_scope.

(** ** Well-formed states *)

(** States a value or a key returns to. *)
Definition is_continuation (s : JsonState) : bool :=
  match s with AFTER_KEY | AFTER_VALUE | ARRAY_AFTER_VALUE => true | _ => false end.

Record wf_fsm (f : JsonFsm) : Prop := {
  wf_stack : Forall (fun s => is_continuation s = true) (state_stack f);
  wf_done : current_state f = DONE -> state_stack f = [];
  wf_key : current_state f ≠ OBJECT_KEY;
  wf_open : current_state f = IN_NUMBER -> state_stack f ≠ [];
  wf_literal : current_state f = IN_LITERAL -> (length (partial_literal f) < length (target_literal f))%nat;
  wf_target : target_literal f ∈ [[]; lit_true; lit_false; lit_null];
  wf_number : num_exp_sign_ok f = true -> num_seen_exp f = true /\ num_need_digit f = true
}.

(** The letters of the literal names. *)
Definition literal_letters : bytes := [97; 101; 102; 108; 110; 114; 115; 116; 117].

Lemma literal_letter w n x : w ∈ [[]; lit_true; lit_false; lit_null] -> w !! n = Some x -> x ∈ literal_letters.
Proof.
  intros Hw Hx. apply list_elem_of_lookup_2 in Hx. unfold literal_letters. set_unfold in Hw.
  destruct_or! Hw; subst; unfold lit_true, lit_false, lit_null in Hx; set_solver.
Qed.

Lemma letter_not_ws x : x ∈ literal_letters -> is_ws x = false.
Proof. unfold literal_letters. intros H. set_unfold in H. by destruct_or! H; subst. Qed.

(** A document can only end where nothing is open. *)
Definition is_structural (s : JsonState) : bool :=
  match s with IN_STRING | IN_STRING_ESCAPE | IN_NUMBER | IN_LITERAL | DONE | OBJECT_KEY => false | _ => true end.

Lemma pop_state_wf' f :
  Forall (fun s => is_continuation s = true) (state_stack f) ->
  target_literal f ∈ [[]; lit_true; lit_false; lit_null] ->
  (num_exp_sign_ok f = true -> num_seen_exp f = true /\ num_need_digit f = true) -> wf_fsm (pop_state f).
Proof.
  intros Hk Ht Hn. unfold pop_state. destruct (state_stack f) as [|s k]; [by constructor|].
  apply Forall_cons in Hk as [Hs Hk]. constructor; cbn; try done; by intros ->.
Qed.

Lemma pop_state_wf f : wf_fsm f -> wf_fsm (pop_state f).
Proof. intros [Hk Hd Hy Ho Hl Ht Hn]. by apply pop_state_wf'. Qed.

Lemma with_ws_wf f n : wf_fsm f -> wf_fsm (with_ws f n).
Proof. by intros [Hk Hd Hy Ho Hl Ht Hn]. Qed.

Lemma goto_wf f s :
  wf_fsm f -> is_structural s = true \/ s = IN_STRING \/ s = IN_STRING_ESCAPE -> wf_fsm (goto f s).
Proof. intros [Hk Hd Hy Ho Hl Ht Hn] H. constructor; cbn; try done; intros ->; naive_solver. Qed.

Lemma push_state_wf f t s :
  wf_fsm f -> is_continuation t = true -> is_structural s = true \/ s = IN_STRING \/ s = IN_NUMBER -> wf_fsm (push_state f t s).
Proof.
  intros [Hk Hd Hy Ho Hl Htl Hn] Ht H. constructor; cbn; try done; [by constructor|..]; intros ->; naive_solver.
Qed.

Lemma enter_number_wf f c : wf_fsm f -> wf_fsm (enter_number f c).
Proof. by intros [Hk Hd Hy Ho Hl Ht Hn]. Qed.

Lemma push_literal_wf f t c r :
  wf_fsm f -> is_continuation t = true -> r ≠ [] -> c :: r ∈ [[]; lit_true; lit_false; lit_null] ->
  wf_fsm (push_state (with_literal f [c] (c :: r)) t IN_LITERAL).
Proof.
  intros [Hk Hd Hy Ho Hl Htl Hn] Ht Hr Hws.
  constructor; cbn; try done; [by constructor|]. intros _. destruct r; [done|simpl; lia].
Qed.

#[export] Hint Resolve pop_state_wf with_ws_wf goto_wf push_state_wf enter_number_wf push_literal_wf : quench.

Lemma enter_value_wf f t c f' : wf_fsm f -> is_continuation t = true -> enter_value f t c = Some f' -> wf_fsm f'.
Proof.
  intros Hf Ht. unfold enter_value, lit_true, lit_false, lit_null. intros; case_all; eauto with quench.
  all: apply push_literal_wf; try done; set_solver.
Qed.

Lemma number_char_wf f c f' : wf_fsm f -> number_char f c = Some f' -> wf_fsm f'.
Proof. intros [Hk Hd Hy Ho Hl Ht Hn]. unfold number_char. intros; case_all; constructor; cbn; auto; naive_solver. Qed.

Lemma number_char_state f c f' :
  number_char f c = Some f' -> current_state f' = current_state f /\ state_stack f' = state_stack f.
Proof. unfold number_char. intros; by case_all. Qed.

Lemma advance_here_wf f c : wf_fsm f -> wf_fsm (advance_here f c).1.
Proof.
  intros Hf. unfold advance_here. destruct (current_state f) eqn:Es.
  all: repeat (case_match; simplify_eq/=); eauto with quench.
  all: try match goal with
         | H : enter_value _ _ _ = Some _ |- _ => by apply (enter_value_wf _ _ _ _ Hf) in H
         end.
  - destruct Hf as [Hk Hd Hy Ho Hl Ht Hn]. by apply pop_state_wf'.
  - destruct Hf as [Hk Hd Hy Ho Hl Ht Hn]. constructor; cbn; try done. intros _.
    destruct (Nat.leb_spec (length (target_literal f)) (length (partial_literal f ++ [c]))); [done|lia].
Qed.

(** ** The automaton without its recursion

    In a well-formed state the enclosing state of a number is not a number, so a
    character is read at most twice. *)
Definition advance_flat (f : JsonFsm) (c : Z) : JsonFsm * bool :=
  match current_state f with
  | IN_NUMBER =>
      if is_ws c then
        if num_need_digit f then (f, false) else (with_ws (pop_state f) (ws_run f + 1), true)
      else match number_char (with_ws f 0) c with
           | Some f' => (f', true)
           | None => if num_need_digit f then (with_ws f 0, false) else advance_here (with_ws (pop_state f) 0) c
           end
  | IN_STRING | IN_STRING_ESCAPE => advance_here (with_ws f 0) c
  | _ => if is_ws c then (with_ws f (ws_run f + 1), true) else advance_here (with_ws f 0) c
  end.

Lemma pop_state_cases f :
  wf_fsm f -> (exists s k, state_stack f = s :: k /\ is_continuation s = true /\ pop_state f = with_state f s k) \/
              (state_stack f = [] /\ pop_state f = with_state f DONE []).
Proof.
  intros Hf. unfold pop_state. destruct (state_stack f) as [|s k] eqn:Hk; [by right|left].
  exists s, k. split_and!; auto. pose proof (wf_stack f Hf) as H. rw Hk in H. by apply Forall_cons in H as [? _].
Qed.

Lemma advance_flat_plain n g c :
  current_state g ≠ IN_NUMBER -> current_state g ≠ IN_STRING -> current_state g ≠ IN_STRING_ESCAPE -> is_ws c = false ->
  advance_fuel n g c = advance_here (with_ws g 0) c.
Proof.
  intros H1 H2 H3 H4. destruct n; cbn [advance_fuel]; rw !(bool_decide_eq_false_2 _ H1) H4 /= andb_false_r;
    by rewrite decide_False.
Qed.

Lemma advance_fuel_flat n f c : wf_fsm f -> advance_fuel (S n) f c = advance_flat f c.
Proof.
  intros Hf. unfold advance_flat. destruct (decide (current_state f = IN_NUMBER)) as [Es|Es].
  - rw Es. cbn [advance_fuel]. rw bool_decide_eq_true_2 //. destruct (is_ws c) eqn:Ew.
    + destruct (num_need_digit f) eqn:En; [done|]. cbn.
      destruct (pop_state_cases f Hf) as [(s & k & Hk & Hs & ->)|(Hk & ->)]; cbn; [|done].
      by destruct s.
    + cbn. rw Es andb_false_r. rewrite decide_True by done. destruct (number_char _ c); [done|]. case_match; [done|].
      destruct (pop_state_cases f Hf) as [(s & k & Hk & Hs & Hp)|(Hk & Hp)]; unfold pop_state; cbn; rw Hk;
        (rewrite advance_flat_plain; [done|by try destruct s..]).
  - cbn [advance_fuel]. rw (bool_decide_eq_false_2 _ Es) /=. rewrite decide_False by done.
    destruct (current_state f) eqn:E; try done; cbn; by destruct (is_ws c).
Qed.

Lemma advance_char_flat f c : wf_fsm f -> advance_char f c = advance_flat f c.
Proof. apply advance_fuel_flat. Qed.

Lemma advance_char_wf f c : wf_fsm f -> wf_fsm (advance_char f c).1.
Proof.
  intros Hf. rw (advance_char_flat f c Hf). unfold advance_flat.
  assert (H1 : wf_fsm (advance_here (with_ws f 0) c).1) by eauto using advance_here_wf with quench.
  assert (H2 : wf_fsm (advance_here (with_ws (pop_state f) 0) c).1) by eauto using advance_here_wf with quench.
  repeat (case_match; simpl); eauto using number_char_wf with quench.
Qed.

(** ** What may still follow *)

(** The rest of a string, up to its closing quote. *)
Definition string_rest : lang := (chars Lax.escape ⋅ ‘ch_quote’)%lang.

(** The rest of a number, by the automaton's sub-state. *)
Definition number_rest (seen_frac seen_exp sign_ok need_digit : bool) : lang :=
  ((if sign_ok then lopt (lclass is_sign) else lnil)
   ⋅ (if need_digit then lsome is_digit else lmany is_digit)
   ⋅ (if seen_frac || seen_exp then lnil else lopt frac)
   ⋅ (if seen_exp then lnil else lopt exp))%lang.

(** After the whitespace, the rest of the construct a structural state is in. *)
Definition structural_rest (s : JsonState) : lang :=
  (match s with
   | START => JContainer Lax.string Lax.number Lax.literal
   | OBJECT_START => ‘ch_rbrace’ ⊕ Lax.string ⋅ after_key Lax.string Lax.number Lax.literal
   | OBJECT_NEED_KEY => Lax.string ⋅ after_key Lax.string Lax.number Lax.literal
   | AFTER_KEY => ‘ch_colon’ ⋅ after_colon Lax.string Lax.number Lax.literal
   | AFTER_COLON => Lax.value ⋅ after_value Lax.string Lax.number Lax.literal
   | AFTER_VALUE => ‘ch_rbrace’ ⊕ ‘ch_comma’ ⋅ object_need_key Lax.string Lax.number Lax.literal
   | ARRAY_START => ‘ch_rbracket’ ⊕ Lax.value ⋅ array_after_value Lax.string Lax.number Lax.literal
   | ARRAY_NEED_VALUE => Lax.value ⋅ array_after_value Lax.string Lax.number Lax.literal
   | ARRAY_AFTER_VALUE => ‘ch_rbracket’ ⊕ ‘ch_comma’ ⋅ array_need_value Lax.string Lax.number Lax.literal
   | _ => lempty
   end)%lang.

Definition state_rest (s : JsonState) : lang := (ws ⋅ structural_rest s)%lang.

Definition current_rest (f : JsonFsm) : lang :=
  match current_state f with
  | IN_STRING => string_rest
  | IN_STRING_ESCAPE => (Lax.escape ⋅ string_rest)%lang
  | IN_NUMBER => number_rest (num_seen_frac f) (num_seen_exp f) (num_exp_sign_ok f) (num_need_digit f)
  | IN_LITERAL => Lax.spaced (drop (length (partial_literal f)) (target_literal f))
  | DONE => lnil
  | s => state_rest s
  end.

(** The constructs around it, innermost first, then trailing whitespace. *)
Definition stack_rest (k : list JsonState) : lang := foldr (fun s L => state_rest s ⋅ L)%lang ws k.

Definition Rem (f : JsonFsm) : lang := (current_rest f ⋅ stack_rest (state_stack f))%lang.

Lemma Rem_pop f : wf_fsm f -> (Rem (pop_state f) ≡ stack_rest (state_stack f))%lang.
Proof.
  intros Hf. unfold Rem. destruct (pop_state_cases f Hf) as [(s & k & -> & Hs & ->)|(-> & ->)]; cbn.
  - by destruct s.
  - apply lcat_nil_l.
Qed.

Lemma after_value_state : (after_value Lax.string Lax.number Lax.literal ≡ state_rest AFTER_VALUE)%lang.
Proof. done. Qed.

Lemma need_key_state : (object_need_key Lax.string Lax.number Lax.literal ≡ state_rest OBJECT_NEED_KEY)%lang.
Proof. apply object_need_key_eq. Qed.

Lemma need_value_state : (array_need_value Lax.string Lax.number Lax.literal ≡ state_rest ARRAY_NEED_VALUE)%lang.
Proof. apply array_need_value_eq. Qed.

Lemma object_start_state : (object_start Lax.string Lax.number Lax.literal ≡ state_rest OBJECT_START)%lang.
Proof. unfold object_start, state_rest. cbn [structural_rest]. by rewrite need_key_state, lcat_or_r. Qed.

Lemma array_start_state : (array_start Lax.string Lax.number Lax.literal ≡ state_rest ARRAY_START)%lang.
Proof. unfold array_start, state_rest. cbn [structural_rest]. by rewrite need_value_state, lcat_or_r. Qed.

(** ** Lexemes, one byte at a time *)

Lemma chars_eq escape : (chars escape ≡ lnil ⊕ lclass unescaped ⋅ chars escape ⊕ ‘ch_backslash’ ⋅ escape ⋅ chars escape)%lang.
Proof.
  intros w. split.
  - destruct 1 as [|c w Hc Hw|e w He Hw]; [left; by left|left; right|right].
    + by apply lclass_cat_cons.
    + apply lchar_cat_cons. split; [done|]. by apply lcat_app.
  - intros [[-> |(a & b & -> & (c & -> & Hc) & Hb)]|(a & b & -> & (c & -> & Hc) & e & v & -> & He & Hv)]; [by constructor..|].
    apply Z.eqb_eq in Hc as <-. by apply (chars_escape _ e v).
Qed.

Lemma string_rest_cons M c w :
  (string_rest ⋅ M)%lang (c :: w) <->
  (c = ch_quote /\ M w) \/ (c = ch_backslash /\ (Lax.escape ⋅ string_rest ⋅ M)%lang w) \/
  (unescaped c = true /\ (string_rest ⋅ M)%lang w).
Proof.
  unfold string_rest.
  assert (E : ((chars Lax.escape ⋅ ‘ch_quote’) ⋅ M ≡
    ‘ch_quote’ ⋅ M ⊕ ‘ch_backslash’ ⋅ Lax.escape ⋅ (chars Lax.escape ⋅ ‘ch_quote’) ⋅ M
    ⊕ lclass unescaped ⋅ (chars Lax.escape ⋅ ‘ch_quote’) ⋅ M)%lang).
  { rewrite chars_eq at 1. rewrite !lcat_or_l, !lcat_assoc, lcat_nil_l. intros v. unfold lor. naive_solver. }
  rw (E (c :: w)). unfold lor. rewrite !lchar_cat_cons, lclass_cat_cons. naive_solver.
Qed.

Lemma lopt_cat L M w : (lopt L ⋅ M)%lang w <-> M w \/ (L ⋅ M)%lang w.
Proof. pose proof (lcat_or_l lnil L M w) as H. unfold lopt. rw H. unfold lor. by rw (lcat_nil_l M w). Qed.

(** The five kinds of character a number tells apart. *)
Lemma number_classes c :
  (is_digit c = true /\ (c =? ch_dot) = false /\ is_exp c = false /\ is_sign c = false) \/
  (is_digit c = false /\ (c =? ch_dot) = true /\ is_exp c = false /\ is_sign c = false) \/
  (is_digit c = false /\ (c =? ch_dot) = false /\ is_exp c = true /\ is_sign c = false) \/
  (is_digit c = false /\ (c =? ch_dot) = false /\ is_exp c = false /\ is_sign c = true) \/
  (is_digit c = false /\ (c =? ch_dot) = false /\ is_exp c = false /\ is_sign c = false).
Proof. unfold is_digit, is_exp, is_sign, ch_dot, ch_e, ch_E, ch_plus, ch_minus. lia. Qed.

Definition number_byte (c : Z) : bool := is_digit c || (c =? ch_dot) || is_exp c || is_sign c.

Lemma number_rest_cat nf ne ns nd M w :
  (number_rest nf ne ns nd ⋅ M)%lang w <->
  ((if ns then lopt (lclass is_sign) else lnil) ⋅ (if nd then lsome is_digit else lmany is_digit)
   ⋅ (if nf || ne then lnil else lopt frac) ⋅ (if ne then lnil else lopt exp) ⋅ M)%lang w.
Proof. unfold number_rest. revert w. change (∀ w, ?A w <-> ?B w) with (A ≡ B). by rewrite !lcat_assoc. Qed.

Lemma lnil_cat M w : (lnil ⋅ M)%lang w <-> M w.
Proof. apply lcat_nil_l. Qed.

Lemma lcat_skip2 A M w : (A ⋅ lnil ⋅ M)%lang w <-> (A ⋅ M)%lang w.
Proof. revert w. change (A ⋅ lnil ⋅ M ≡ A ⋅ M)%lang. by rewrite lcat_nil_l. Qed.

Lemma lcat_skip3 A B M w : (A ⋅ B ⋅ lnil ⋅ M)%lang w <-> (A ⋅ B ⋅ M)%lang w.
Proof. revert w. change (A ⋅ B ⋅ lnil ⋅ M ≡ A ⋅ B ⋅ M)%lang. by rewrite lcat_nil_l. Qed.

Lemma digits_cons M c w : (lsome is_digit ⋅ M)%lang (c :: w) <-> is_digit c = true /\ (lmany is_digit ⋅ M)%lang w.
Proof. unfold lsome. rw (lcat_assoc _ _ M (c :: w)). apply lclass_cat_cons. Qed.

Lemma opt_sign_cons M c w :
  (lopt (lclass is_sign) ⋅ M)%lang (c :: w) <-> M (c :: w) \/ (is_sign c = true /\ M w).
Proof. by rewrite lopt_cat, lclass_cat_cons. Qed.

Lemma opt_frac_cons M c w :
  (lopt frac ⋅ M)%lang (c :: w) <-> M (c :: w) \/ ((c =? ch_dot) = true /\ (lsome is_digit ⋅ M)%lang w).
Proof. rewrite lopt_cat, Z.eqb_eq. unfold frac. rw (lcat_assoc _ _ M (c :: w)). by rewrite lchar_cat_cons. Qed.

Lemma opt_exp_cons M c w :
  (lopt exp ⋅ M)%lang (c :: w) <->
  M (c :: w) \/ (is_exp c = true /\ (lopt (lclass is_sign) ⋅ lsome is_digit ⋅ M)%lang w).
Proof.
  rewrite lopt_cat. unfold exp. rw (lcat_assoc _ _ M (c :: w)). rewrite lclass_cat_cons. by rw (lcat_assoc _ _ M w).
Qed.

Lemma number_cons (M : lang) f c w :
  (M (c :: w) -> number_byte c = false) ->
  (num_exp_sign_ok f = true -> num_seen_exp f = true /\ num_need_digit f = true) ->
  ((number_rest (num_seen_frac f) (num_seen_exp f) (num_exp_sign_ok f) (num_need_digit f) ⋅ M)%lang (c :: w) <->
   match number_char f c with
   | Some f' => (number_rest (num_seen_frac f') (num_seen_exp f') (num_exp_sign_ok f') (num_need_digit f') ⋅ M)%lang w
   | None => num_need_digit f = false /\ M (c :: w)
   end).
Proof.
  intros HM Hs. unfold number_char, number_byte in *. fold (is_exp c) (is_sign c).
  destruct f as [st k wr nf ne ns nd pl tl]. cbn in *.
  assert (Hc := number_classes c).
  destruct ns; [destruct Hs as [-> ->]; [done|]; destruct nf|destruct ne, nd, nf]; try clear Hs;
    destruct_or! Hc; destruct Hc as (Hd & Ho & He & Hg); rewrite ?Hd, ?Ho, ?He, ?Hg in HM; rewrite ?Hd, ?Ho, ?He, ?Hg; cbn in *;
    rewrite ?number_rest_cat; cbn; rewrite ?lnil_cat, ?opt_sign_cons, ?digits_cons, ?lmany_cat_cons;
    rewrite ?lnil_cat, ?opt_frac_cons, ?opt_exp_cons; rewrite ?opt_exp_cons; rewrite ?Hd, ?Ho, ?He, ?Hg;
    rewrite ?lcat_skip3, ?lcat_skip2; rewrite ?lcat_skip3.
  all: naive_solver.
Qed.

Lemma string_cons M c w : (Lax.string ⋅ M)%lang (c :: w) <-> c = ch_quote /\ (string_rest ⋅ M)%lang w.
Proof. unfold Lax.string, string_of. rw (lcat_assoc _ _ M (c :: w)). by rewrite lchar_cat_cons. Qed.

Lemma number_start_cons M c w :
  (Lax.number ⋅ M)%lang (c :: w) <->
  (is_digit c = true /\ (number_rest false false false false ⋅ M)%lang w) \/
  (c = ch_minus /\ (number_rest false false false true ⋅ M)%lang w).
Proof.
  unfold Lax.number, number_of. rw (lcat_assoc _ _ M (c :: w)). rewrite lopt_cat, lchar_cat_cons.
  rw (lcat_assoc _ _ M (c :: w)) (lcat_assoc _ _ M w). rewrite digits_cons, !number_rest_cat, !lnil_cat. cbn.
  assert (E : forall A v, (A ⋅ (lopt frac ⋅ lopt exp) ⋅ M)%lang v <-> (A ⋅ lopt frac ⋅ lopt exp ⋅ M)%lang v).
  { intros A v. revert v. change (A ⋅ (lopt frac ⋅ lopt exp) ⋅ M ≡ A ⋅ lopt frac ⋅ lopt exp ⋅ M)%lang. by rewrite lcat_assoc. }
  by rewrite !E.
Qed.

Lemma literal_name_cons M x r c w :
  (Lax.literal_name (x :: r) ⋅ M)%lang (c :: w) <-> c = x /\ (Lax.spaced r ⋅ M)%lang w.
Proof. cbn [Lax.literal_name]. rw (lcat_assoc _ _ M (c :: w)). by rewrite lchar_cat_cons. Qed.

Lemma container_cons M c w :
  (JContainer Lax.string Lax.number Lax.literal ⋅ M)%lang (c :: w) <->
  (c = ch_lbrace /\ (state_rest OBJECT_START ⋅ M)%lang w) \/ (c = ch_lbracket /\ (state_rest ARRAY_START ⋅ M)%lang w).
Proof.
  assert (E : (JContainer Lax.string Lax.number Lax.literal ⋅ M ≡
    ‘ch_lbrace’ ⋅ state_rest OBJECT_START ⋅ M ⊕ ‘ch_lbracket’ ⋅ state_rest ARRAY_START ⋅ M)%lang).
  { by rewrite JContainer_eq, object_start_state, array_start_state, lcat_or_l, !lcat_assoc. }
  rw (E (c :: w)). unfold lor. by rewrite !lchar_cat_cons.
Qed.

Lemma value_cat M w :
  (Lax.value ⋅ M)%lang w <->
  (Lax.string ⋅ M)%lang w \/ (Lax.number ⋅ M)%lang w \/ (Lax.literal_name lit_true ⋅ M)%lang w \/
  (Lax.literal_name lit_false ⋅ M)%lang w \/ (Lax.literal_name lit_null ⋅ M)%lang w \/
  (JContainer Lax.string Lax.number Lax.literal ⋅ M)%lang w.
Proof.
  assert (E : (Lax.value ⋅ M ≡ Lax.string ⋅ M ⊕ Lax.number ⋅ M ⊕ (Lax.literal_name lit_true ⋅ M
    ⊕ Lax.literal_name lit_false ⋅ M ⊕ Lax.literal_name lit_null ⋅ M)
    ⊕ JContainer Lax.string Lax.number Lax.literal ⋅ M)%lang).
  { unfold Lax.value, Lax.literal at 2. rewrite <- !lcat_or_l. by rewrite <- JValue_eq. }
  rw (E w). unfold lor. tauto.
Qed.

Ltac unfold_chars :=
  unfold number_byte, is_digit, is_ws, is_exp, is_sign, unescaped, ch_quote, ch_plus, ch_comma, ch_minus, ch_dot, ch_colon, ch_E,
    ch_lbracket, ch_backslash, ch_rbracket, ch_e, ch_f, ch_n, ch_t, ch_lbrace, ch_rbrace in *.

(** One branch of [enter_value]: the byte is known, so one case of the language is left. *)
Ltac value_branch pick :=
  split;
  [ let H := fresh in intros H; eexists; split; [reflexivity|];
    destruct_or! H; destruct_and? H; first [assumption | exfalso; unfold_chars; lia]
  | intros (? & [= <-] & ?); pick; split; [reflexivity|assumption] ].

Lemma value_cons f t c w :
  (Lax.value ⋅ stack_rest (t :: state_stack f))%lang (c :: w) <-> exists f', enter_value f t c = Some f' /\ Rem f' w.
Proof.
  rewrite value_cat. unfold lit_true, lit_false, lit_null.
  rewrite string_cons, number_start_cons, !literal_name_cons, container_cons. unfold enter_value.
  destruct (Z.eqb_spec c ch_quote) as [-> |]; [value_branch ltac:(left)|].
  destruct (Z.eqb_spec c ch_lbrace) as [-> |]; [value_branch ltac:(do 5 right; left)|].
  destruct (Z.eqb_spec c ch_lbracket) as [-> |]; [value_branch ltac:(do 6 right)|].
  destruct (Z.eqb_spec c ch_t) as [-> |]; [value_branch ltac:(do 2 right; left)|].
  destruct (Z.eqb_spec c ch_f) as [-> |]; [value_branch ltac:(do 3 right; left)|].
  destruct (Z.eqb_spec c ch_n) as [-> |]; [value_branch ltac:(do 4 right; left)|].
  unfold enter_number. destruct (is_digit c) eqn:Ed, (Z.eqb_spec c ch_minus) as [-> |]; cbn [orb].
  - done.
  - value_branch ltac:(right; left; left).
  - value_branch ltac:(right; left; right).
  - split; [|by intros (f' & ? & _)]. intros H. exfalso. destruct_or! H; destruct_and? H; try done; unfold_chars; lia.
Qed.

(** ** Reading a byte takes the derivative *)

Lemma lor_cat A B M w : ((A ⊕ B) ⋅ M)%lang w <-> (A ⋅ M)%lang w \/ (B ⋅ M)%lang w.
Proof. apply (lcat_or_l A B M w). Qed.

Lemma assoc_cons A B M w : ((A ⋅ B) ⋅ M)%lang w <-> (A ⋅ B ⋅ M)%lang w.
Proof. apply (lcat_assoc A B M w). Qed.

Lemma Rem_goto f s : is_structural s = true -> forall w, Rem (goto f s) w <-> (state_rest s ⋅ stack_rest (state_stack f))%lang w.
Proof. intros Hs w. by destruct s. Qed.

Lemma need_key_cat M w :
  (object_need_key Lax.string Lax.number Lax.literal ⋅ M)%lang w <-> (state_rest OBJECT_NEED_KEY ⋅ M)%lang w.
Proof. revert w. apply lcat_proper; [apply need_key_state|done]. Qed.

Lemma need_value_cat M w :
  (array_need_value Lax.string Lax.number Lax.literal ⋅ M)%lang w <-> (state_rest ARRAY_NEED_VALUE ⋅ M)%lang w.
Proof. revert w. apply lcat_proper; [apply need_value_state|done]. Qed.

Lemma or_reject_spec (f : JsonFsm) (o : option JsonFsm) (P : JsonFsm -> Prop) (r : JsonFsm * bool) :
  r = match o with Some f' => (f', true) | None => (f, false) end ->
  (r.2 = true /\ P r.1 <-> exists f', o = Some f' /\ P f').
Proof. intros ->. destruct o; cbn; naive_solver. Qed.

(** A known byte: one case of the language is left, or none. *)
Ltac byte_branch :=
  cbn [fst snd];
  split;
  [ let H := fresh in intros H; destruct_or? H; destruct_and? H; first [by split | exfalso; unfold_chars; lia]
  | intros [? ?]; try done; tauto ].

Ltac case_byte d :=
  match goal with
  | |- context [?c =? d] => destruct (Z.eqb_spec c d) as [-> |]; [byte_branch|]
  end.

Lemma structural_cons f c w :
  wf_fsm f -> is_structural (current_state f) = true ->
  ((structural_rest (current_state f) ⋅ stack_rest (state_stack f))%lang (c :: w) <->
   (advance_here f c).2 = true /\ Rem (advance_here f c).1 w).
Proof.
  intros Hf Hs. unfold advance_here.
  assert (Hpop : forall v, stack_rest (state_stack f) v <-> Rem (pop_state f) v) by (intros v; by rw (Rem_pop f Hf v)).
  assert (Hstr : forall v, (string_rest ⋅ after_key Lax.string Lax.number Lax.literal ⋅ stack_rest (state_stack f))%lang v <->
    Rem (push_state f AFTER_KEY IN_STRING) v) by done.
  assert (Hcol : forall v, (after_colon Lax.string Lax.number Lax.literal ⋅ stack_rest (state_stack f))%lang v <->
    Rem (goto f AFTER_COLON) v) by done.
  destruct (current_state f) eqn:Es; try done; cbn [structural_rest]; clear Hs.
  - rewrite container_cons, <- !Rem_goto by done. case_byte ch_lbrace. case_byte ch_lbracket. byte_branch.
  - rewrite lor_cat, lchar_cat_cons, assoc_cons, string_cons, Hpop, Hstr.
    case_byte ch_quote. case_byte ch_rbrace. byte_branch.
  - rewrite assoc_cons, lchar_cat_cons, Hcol. case_byte ch_colon. byte_branch.
  - rewrite assoc_cons. setoid_rewrite (value_cons f AFTER_VALUE c w). symmetry. exact (or_reject_spec f _ (fun f' => Rem f' w) _ eq_refl).
  - rewrite lor_cat, assoc_cons, !lchar_cat_cons, Hpop, need_key_cat, <- Rem_goto by done.
    case_byte ch_comma. case_byte ch_rbrace. byte_branch.
  - rewrite lor_cat, assoc_cons, lchar_cat_cons, Hpop. setoid_rewrite (value_cons f ARRAY_AFTER_VALUE c w).
    destruct (Z.eqb_spec c ch_rbracket) as [-> |].
    + split; [intros [[_ H]|(f' & H & _)]; [done|discriminate]|intros [_ H]; by left].
    + rw (or_reject_spec f _ (fun f' => Rem f' w) _ eq_refl). naive_solver.
  - rewrite lor_cat, assoc_cons, !lchar_cat_cons, Hpop, need_value_cat, <- Rem_goto by done.
    case_byte ch_comma. case_byte ch_rbracket. byte_branch.
  - rewrite assoc_cons. setoid_rewrite (value_cons f ARRAY_AFTER_VALUE c w).
    destruct (Z.eqb_spec c ch_rbracket) as [-> |].
    + split; [by intros (f' & H & _)|by intros [? _]].
    + symmetry. exact (or_reject_spec f _ (fun f' => Rem f' w) _ eq_refl).
  - rewrite assoc_cons, string_cons, Hstr. case_byte ch_quote. case_byte ch_rbrace. byte_branch.
Qed.

Lemma ws_cat_cons M c w : (ws ⋅ M)%lang (c :: w) <-> (is_ws c = true /\ (ws ⋅ M)%lang w) \/ M (c :: w).
Proof. apply lmany_cat_cons. Qed.

Lemma structural_ws f c : is_structural (current_state f) = true -> is_ws c = true -> (advance_here f c).2 = false.
Proof.
  intros Hs Hc. assert (Hc' : c = 32 \/ c = 9 \/ c = 10 \/ c = 13) by (unfold is_ws in Hc; lia).
  unfold advance_here. destruct (current_state f); try done; by destruct_or! Hc'; subst.
Qed.

(** States in which whitespace is skipped and every other byte is read. *)
Lemma resting_step f c w :
  wf_fsm f -> is_structural (current_state f) = true \/ current_state f = DONE ->
  (Rem f (c :: w) <-> if is_ws c then Rem f w else (advance_here f c).2 = true /\ Rem (advance_here f c).1 w).
Proof.
  intros Hf [Hs|Hs].
  - assert (E : forall v, Rem f v <-> (ws ⋅ structural_rest (current_state f) ⋅ stack_rest (state_stack f))%lang v).
    { intros v. rewrite <- assoc_cons. unfold Rem, current_rest, state_rest. by destruct (current_state f). }
    rewrite !E, ws_cat_cons, structural_cons by done. destruct (is_ws c) eqn:Hc; [|naive_solver].
    rw (structural_ws f c Hs Hc). naive_solver.
  - unfold Rem, current_rest, advance_here. rw Hs (wf_done f Hf Hs). rewrite !lnil_cat. cbn.
    unfold ws, lmany. rewrite Forall_cons. destruct (is_ws c); rewrite ?lnil_cat; split; try (intros [? ?]); by try split.
Qed.

Lemma stack_rest_byte k c w :
  Forall (fun s => is_continuation s = true) k -> stack_rest k (c :: w) -> number_byte c = false.
Proof.
  intros Hk. destruct k as [|s k]; cbn.
  - intros H. apply Forall_cons in H as [H _]. simpl in H. unfold_chars. lia.
  - apply Forall_cons in Hk as [Hs _]. unfold state_rest at 1; rewrite assoc_cons. rewrite ws_cat_cons.
    intros [[H _]|H]; [unfold_chars; lia|]. revert H. destruct s; try done; cbn [structural_rest];
      rewrite ?lor_cat, ?assoc_cons, ?lchar_cat_cons; intros H; destruct_or? H; destruct_and? H; subst; done.
Qed.

Lemma number_char_ws f c : is_ws c = true -> number_char f c = None.
Proof. intros Hc. unfold number_char. unfold_chars. repeat case_match; try done; lia. Qed.

Lemma string_step f c w :
  wf_fsm f -> current_state f = IN_STRING ->
  (Rem f (c :: w) <-> (advance_here f c).2 = true /\ Rem (advance_here f c).1 w).
Proof.
  intros Hf Es. assert (E : forall v, Rem f v <-> (string_rest ⋅ stack_rest (state_stack f))%lang v).
  { intros v. unfold Rem, current_rest. by rw Es. }
  assert (Hesc : forall v, (Lax.escape ⋅ string_rest ⋅ stack_rest (state_stack f))%lang v <-> Rem (goto f IN_STRING_ESCAPE) v).
  { intros v. by rewrite <- assoc_cons. }
  rewrite !E, string_rest_cons, <- E, <- (Rem_pop f Hf w), Hesc. unfold advance_here. rw Es.
  case_byte ch_backslash. case_byte ch_quote. destruct (Z.ltb_spec c 32); [byte_branch|].
  assert (Hu : unescaped c = true) by (unfold_chars; lia). byte_branch.
Qed.

Lemma escape_step f c w :
  current_state f = IN_STRING_ESCAPE -> (Rem f (c :: w) <-> (advance_here f c).2 = true /\ Rem (advance_here f c).1 w).
Proof.
  intros Es. assert (E : forall v, Rem f v <-> (Lax.escape ⋅ string_rest ⋅ stack_rest (state_stack f))%lang v).
  { intros v. unfold Rem, current_rest. rw Es. apply assoc_cons. }
  assert (Hstr : forall v, (string_rest ⋅ stack_rest (state_stack f))%lang v <-> Rem (goto f IN_STRING) v) by done.
  unfold Lax.escape in E. rewrite E, lclass_cat_cons, Hstr, Z.leb_le. unfold advance_here. rw Es.
  destruct (Z.ltb_spec c 32); [byte_branch|]. assert (32 <= c) by lia. byte_branch.
Qed.

Lemma literal_step f c w :
  wf_fsm f -> current_state f = IN_LITERAL ->
  (Rem f (c :: w) <-> if is_ws c then Rem f w else (advance_here f c).2 = true /\ Rem (advance_here f c).1 w).
Proof.
  intros Hf Es. pose proof (wf_literal f Hf Es) as Hlt.
  destruct (lookup_lt_is_Some_2 (target_literal f) (length (partial_literal f)) Hlt) as [x Hx].
  pose proof (literal_letter _ _ _ (wf_target f Hf) Hx) as Hws. apply letter_not_ws in Hws.
  assert (E : forall v, Rem f v <->
    (ws ⋅ ‘x’ ⋅ Lax.spaced (drop (S (length (partial_literal f))) (target_literal f)) ⋅ stack_rest (state_stack f))%lang v).
  { intros v. unfold Rem, current_rest. rw Es (drop_S _ _ _ Hx). cbn [Lax.spaced]. rewrite assoc_cons.
    revert v. change (∀ v, ?A v <-> ?B v) with (A ≡ B). by rewrite lcat_assoc. }
  rewrite !E, ws_cat_cons, lchar_cat_cons. unfold advance_here. rw Es Hx.
  destruct (Nat.leb_spec (length (target_literal f)) (length (partial_literal f))) as [|_]; [lia|]. cbn [orb].
  destruct (decide (c = x)) as [-> |Hne].
  - rw Hws bool_decide_eq_true_2 //. cbn [negb with_literal partial_literal]. rw length_app /=.
    destruct (Nat.leb_spec (length (target_literal f)) (length (partial_literal f) + 1)) as [Hle|Hle].
    + rewrite drop_ge by lia. cbn [Lax.spaced]. rewrite lnil_cat. cbn [fst snd].
      set (g := with_literal f _ _). assert (Hg : forall v, Rem (pop_state g) v <-> stack_rest (state_stack f) v).
      { intros v. unfold g, pop_state, with_literal, Rem. cbn [state_stack].
        destruct (state_stack f) as [|s k] eqn:Hk; cbn; [apply lnil_cat|].
        pose proof (wf_stack f Hf) as Hst. rw Hk in Hst. apply Forall_cons in Hst as [Hs _]. by destruct s. }
      rewrite Hg. naive_solver.
    + cbn [fst snd]. unfold Rem, current_rest. cbn. rw Es length_app /= Nat.add_1_r. naive_solver.
  - rewrite bool_decide_eq_false_2 by congruence. cbn [negb fst snd]. destruct (is_ws c); naive_solver.
Qed.

Lemma number_step f c w :
  wf_fsm f -> current_state f = IN_NUMBER ->
  (Rem f (c :: w) <-> (advance_flat f c).2 = true /\ Rem (advance_flat f c).1 w).
Proof.
  intros Hf Es. unfold advance_flat. rw Es.
  assert (Hpop : is_structural (current_state (pop_state f)) = true \/ current_state (pop_state f) = DONE).
  { destruct (pop_state_cases f Hf) as [(s & k & Hk & Hs & ->)|(Hk & ->)]; cbn; [left; by destruct s|by right]. }
  pose proof (resting_step (with_ws (pop_state f) 0) c w (with_ws_wf _ 0 (pop_state_wf f Hf)) Hpop) as Hr.
  change (Rem (with_ws (pop_state f) 0)) with (Rem (pop_state f)) in Hr. rewrite (Rem_pop f Hf (c :: w)) in Hr.
  assert (E : forall g v, current_state g = IN_NUMBER -> Rem g v <->
    (number_rest (num_seen_frac g) (num_seen_exp g) (num_exp_sign_ok g) (num_need_digit g) ⋅ stack_rest (state_stack g))%lang v).
  { intros g v Hg. unfold Rem, current_rest. by rw Hg. }
  rewrite (E f _ Es).
  pose proof (number_cons (stack_rest (state_stack f)) (with_ws f 0) c w
    (stack_rest_byte _ _ _ (wf_stack f Hf)) (wf_number f Hf)) as Hn.
  cbn [with_ws num_seen_frac num_seen_exp num_exp_sign_ok num_need_digit] in Hn. rewrite Hn. clear Hn.
  destruct (is_ws c) eqn:Hc.
  - rw (number_char_ws (with_ws f 0) c Hc). rewrite Hr. destruct (num_need_digit f); cbn [fst snd]; [naive_solver|].
    change (Rem (with_ws (pop_state f) (ws_run f + 1))) with (Rem (pop_state f)). naive_solver.
  - destruct (number_char (with_ws f 0) c) as [f'|] eqn:Ef.
    + destruct (number_char_state _ _ _ Ef) as [Hs Hk]. cbn [fst snd]. rewrite E by (by rw Hs). rw Hk. cbn. naive_solver.
    + rewrite Hr. destruct (num_need_digit f); cbn [fst snd]; naive_solver.
Qed.

(** Reading a byte is legal exactly where some text starting with it may still
    follow, and what may follow afterwards is the rest of such texts. *)
Lemma Rem_step f c w : wf_fsm f -> (Rem f (c :: w) <-> (advance_char f c).2 = true /\ Rem (advance_char f c).1 w).
Proof.
  intros Hf. rw (advance_char_flat f c Hf).
  destruct (decide (current_state f = IN_NUMBER)) as [Hn|Hn]; [by apply number_step|].
  assert (Hf0 := with_ws_wf f 0 Hf). unfold advance_flat. change (Rem f) with (Rem (with_ws f 0)) at 1.
  destruct (current_state f) eqn:Es; try done.
  3: by destruct (wf_key f Hf).
  10: by apply string_step.
  10: by apply escape_step.
  10: rewrite literal_step by done.
  all: try (rewrite resting_step; [|done|cbn; rw Es; by (left + right)]).
  all: destruct (is_ws c); [|done]; cbn [fst snd]; by split; [|intros [_ ?]].
Qed.

(** ** Exactness *)

Lemma lcat_nil_inv A B : (A ⋅ B)%lang [] -> A [] /\ B [].
Proof. intros (a & b & Hab & Ha & Hb). symmetry in Hab. by apply app_nil in Hab as [-> ->]. Qed.

Lemma value_nil : ~ Lax.value [].
Proof.
  intros H. apply JValue_eq in H. destruct H as [[[H|H]|H]|H].
  - by apply lclass_cat_nil in H.
  - apply lopt_cat in H as [H|H]; [|by apply lclass_cat_nil in H]. by apply lcat_nil_inv in H as [H%lclass_cat_nil _].
  - destruct H as [[H|H]|H]; by apply lclass_cat_nil in H.
  - apply JContainer_eq in H as [H|H]; by apply lclass_cat_nil in H.
Qed.

Lemma structural_nil s : ~ structural_rest s [].
Proof.
  destruct s; cbn [structural_rest]; try (exact (fun H => H)); try (by apply lclass_cat_nil); intros H.
  - apply JContainer_eq in H as [H|H]; by apply lclass_cat_nil in H.
  - destruct H as [(c & H & _)|H]; [done|]. by apply lcat_nil_inv in H as [H%lclass_cat_nil _].
  - by apply lcat_nil_inv in H as [H%value_nil _].
  - destruct H as [(c & H & _)|H]; [done|]. by apply lcat_nil_inv in H as [(c & ? & _) _].
  - destruct H as [(c & H & _)|H]; [done|]. by apply lcat_nil_inv in H as [H%value_nil _].
  - destruct H as [(c & H & _)|H]; [done|]. by apply lcat_nil_inv in H as [(c & ? & _) _].
  - by apply lcat_nil_inv in H as [H%value_nil _].
  - by apply lcat_nil_inv in H as [H%lclass_cat_nil _].
Qed.

Lemma state_rest_nil s : ~ state_rest s [].
Proof. intros H. apply lcat_nil_inv in H as [_ H]. by apply structural_nil in H. Qed.

Lemma Rem_nil f : wf_fsm f -> (Rem f [] <-> current_state f = DONE).
Proof.
  intros Hf. unfold Rem, current_rest. split.
  - intros H. apply lcat_nil_inv in H as [H Hk]. destruct (current_state f) eqn:Es; try done; try by apply state_rest_nil in H.
    + apply lcat_nil_inv in H as [_ (c & H & _)]. done.
    + by apply lcat_nil_inv in H as [(c & H & _) _].
    + destruct (state_stack f) as [|s k] eqn:Ek; [by destruct (wf_open f Hf Es)|].
      cbn in Hk. by apply lcat_nil_inv in Hk as [Hk%state_rest_nil _].
    + pose proof (wf_literal f Hf Es) as Hlt. destruct (lookup_lt_is_Some_2 _ _ Hlt) as [x Hx].
      rw (drop_S _ _ _ Hx) in H. cbn in H. by apply lcat_nil_inv in H as [_ H%lclass_cat_nil].
  - intros Es. rw Es (wf_done f Hf Es). apply lnil_cat. constructor.
Qed.

Lemma strict_run_wf f w f' : wf_fsm f -> strict_run f w = Some f' -> wf_fsm f'.
Proof.
  revert f. induction w as [|c w IH]; intros f Hf; cbn [strict_run]; [by intros [= <-]|].
  pose proof (advance_char_wf f c Hf) as Hc. destruct (advance_char f c) as [g []]; [by apply IH|done].
Qed.

Lemma strict_run_app f v w : strict_run f (v ++ w) = f' ← strict_run f v; strict_run f' w.
Proof. revert f. induction v as [|c v IH]; intros f; cbn [app strict_run]; [done|]. by destruct (advance_char f c) as [g []]. Qed.

(** A text can follow in a state iff the automaton reads it and is done. *)
Lemma Rem_run f w :
  wf_fsm f -> (Rem f w <-> exists f', strict_run f w = Some f' /\ current_state f' = DONE).
Proof.
  revert f. induction w as [|c w IH]; intros f Hf; cbn [strict_run].
  - rewrite Rem_nil by done. naive_solver.
  - rewrite Rem_step by done. pose proof (advance_char_wf f c Hf) as Hc.
    destruct (advance_char f c) as [g []]; cbn [fst snd] in *; [|naive_solver]. rewrite IH by done. naive_solver.
Qed.

Lemma init_wf : wf_fsm init_fsm.
Proof. constructor; try done. set_solver. Qed.

Lemma Rem_init w : Rem init_fsm w <-> Lax.document w.
Proof. unfold Rem. cbn. apply assoc_cons. Qed.
