(* ===== verification/PreambleGate.v ===== *)
(** * The preamble gate

    Models [PreambleGate] of [src/compute/preamble_gate.h]: the automaton that
    lets a model think, greet or call a tool before a constrainer's mask
    applies.  [active] means the mask is off; [absorb] says whether a token is
    kept from the constrainer. *)

From Corelib Require Import ssreflect_rw.
From stdpp Require Import prelude list.
From S2P Require Import Prelude StreamPipeline JsonFsm.
Open Scope Z_scope.

Module Gate.
Inductive State : Type := ACTIVE | TOOL_BODY | TOOL_ARGS | TERMINAL_OFF | OFF.

#[global] Instance State_eq_dec : EqDecision State.
Proof. solve_decision. Defined.

Record t := mk {
  configured : bool;
  thinking_open : bool;
  strict_tool : bool;
  state : State;
  close_token : Z;
  max_tokens : Z;
  seen : Z;
  open_tokens : list Z;
  close_tokens : list Z;
  open_prefix : bytes;
  close_suffix : bytes;
  char_buf : bytes
}.

(** The members' initialisers. *)
Definition new : t := mk false true false OFF (-1) 0 0 [] [] [] [] [].

Definition with_run (g : t) (s : State) (n : Z) (buf : bytes) : t :=
  mk (configured g) (thinking_open g) (strict_tool g) s (close_token g) (max_tokens g) n (open_tokens g) (close_tokens g)
    (open_prefix g) (close_suffix g) buf.

Definition tool_detection_active (g : t) : bool :=
  negb (bool_decide (open_tokens g = [])) || negb (bool_decide (open_prefix g = [])).

Definition reset (g : t) : t :=
  let reasoning_already_closed := (0 <=? close_token g) && negb (thinking_open g) && negb (tool_detection_active g) in
  with_run g (if configured g && negb reasoning_already_closed then ACTIVE else OFF) 0 [].

Definition configure_with_tools (close max : Z) (opens closes : list Z) (prefix suffix : bytes) (thinking strict : bool) : t :=
  let max := if 0 <? max then max else 0 in
  reset (mk ((0 <=? close) || (0 <? max)) thinking strict OFF close max 0 opens closes prefix suffix []).

Definition configure (close max : Z) (thinking : bool) : t := configure_with_tools close max [] [] [] [] thinking false.

Definition active (g : t) : bool := match state g with ACTIVE | TOOL_BODY | TERMINAL_OFF => true | _ => false end.

Definition in_tool_args (g : t) : bool := bool_decide (state g = TOOL_ARGS).

Definition rearm_after_call (g : t) : t := with_run g ACTIVE 0 [].

Definition is_tool_open_token (g : t) (token : Z) : bool := negb (token <? 0) && existsb (Z.eqb token) (open_tokens g).
Definition is_tool_close_token (g : t) (token : Z) : bool := negb (token <? 0) && existsb (Z.eqb token) (close_tokens g).

(** [append_char_buf]: the last 32 bytes. *)
Definition append_char_buf (buf text : bytes) : bytes :=
  let s := buf ++ text in if Nat.ltb 32 (length s) then drop (length s - 32) s else s.

Definition found (pat buf : bytes) : bool := match str_find pat buf with Some _ => true | None => false end.

Definition opens_json (text : bytes) : bool := existsb (fun c => (c =? ch_lbrace) || (c =? ch_lbracket)) text.

(** The last two cases of [absorb_active]. *)
Definition absorb_text (g : t) (n : Z) (buf text : bytes) : t * bool :=
  if opens_json text then (with_run g OFF n buf, false)
  else if (0 <? max_tokens g) && (max_tokens g <=? n) then (with_run g OFF n buf, true)
  else (with_run g ACTIVE n buf, true).

Definition absorb_active (g : t) (token : Z) (text : bytes) : t * bool :=
  let n := seen g + 1 in
  let tool := if strict_tool g then TOOL_ARGS else TOOL_BODY in
  if (0 <=? close_token g) && (token =? close_token g) then
    if tool_detection_active g then (with_run g ACTIVE 0 [], true) else (with_run g OFF n (char_buf g), true)
  else if is_tool_open_token g token then (with_run g tool n [], true)
  else if bool_decide (open_prefix g = []) then absorb_text g n (char_buf g) text
  else
    let buf := append_char_buf (char_buf g) text in
    if found (open_prefix g) buf then (with_run g tool n [], true) else absorb_text g n buf text.

Definition absorb_tool_body (g : t) (token : Z) (text : bytes) : t * bool :=
  if is_tool_close_token g token then (with_run g TERMINAL_OFF (seen g) [], true)
  else if bool_decide (close_suffix g = []) then (g, true)
  else
    let buf := append_char_buf (char_buf g) text in
    if found (close_suffix g) buf then (with_run g TERMINAL_OFF (seen g) [], true)
    else (with_run g (state g) (seen g) buf, true).

Definition absorb (g : t) (token : Z) (text : bytes) : t * bool :=
  match state g with
  | ACTIVE => absorb_active g token text
  | TOOL_BODY => absorb_tool_body g token text
  | TERMINAL_OFF => (g, true)
  | TOOL_ARGS | OFF => (g, false)
  end.

(** Only an active gate keeps a token from the constrainer. *)
Lemma absorb_active_gate g token text : (absorb g token text).2 = true -> active g = true.
Proof. unfold absorb, active. by destruct (state g). Qed.

(** The tokens of a reply, each with its text: the ones the gate let through. *)
Fixpoint forwarded (g : t) (reply : list (Z * bytes)) : list (Z * bytes) :=
  match reply with
  | [] => []
  | (tok, text) :: rest =>
      let (g', absorbed) := absorb g tok text in
      if absorbed then forwarded g' rest else (tok, text) :: forwarded g' rest
  end.

Fixpoint after (g : t) (reply : list (Z * bytes)) : t :=
  match reply with
  | [] => g
  | (tok, text) :: rest => after (absorb g tok text).1 rest
  end.
End Gate.
