(* ===== verification/AllowLists.v ===== *)
(** * Allow lists

    The part the constrainers share: what [allow_for_current_state] of
    [src/compute/regex_constrain.cu] and [grammar_constrain.cu] makes of the
    entries of the vocabulary, the EOS entries of [json_constrain.cu], and the
    mask kernel of both. *)

From Corelib Require Import ssreflect_rw.
From stdpp Require Import prelude list.
From S2P Require Import Prelude.
Open Scope Z_scope.

(** [token_allow_[eid] = 1] for every EOS id below the width of the logits. *)
Definition allow_eos (eos : list Z) (width : Z) (allow : list bool) : list bool :=
  foldl (fun l eid => if (0 <=? eid) && (eid <? width) then vset eid true l else l) allow eos.

Definition eos_in_width (eos : list Z) (width : Z) : bool := existsb (fun eid => (0 <=? eid) && (eid <? width)) eos.

(** The end of [allow_for_current_state]: EOS once the reply is complete, or
    when nothing at all is allowed. *)
Definition allow_list (eos : list Z) (width : Z) (accepting : bool) (allow : list bool) : list bool :=
  let allow1 := if accepting then allow_eos eos width allow else allow in
  if existsb id allow || (accepting && eos_in_width eos width) then allow1 else allow_eos eos width allow1.

(** [regex_mask_kernel] and [grammar_mask_kernel] for one position. *)
Definition mask_unlisted {A} (lowest : A) (allow : list bool) (n_classified idx : nat) (logit : A) : A :=
  if Nat.leb n_classified idx || negb (default false (allow !! idx)) then lowest else logit.

(** ** EOS entries of an allow list *)

Lemma allow_eos_lookup width eos l i :
  allow_eos eos (Z.of_nat width) l !! i = Some true -> l !! i = Some true \/ existsb (Z.eqb (Z.of_nat i)) eos = true.
Proof.
  unfold allow_eos. revert l. induction eos as [|e eos IH]; intros l; cbn [foldl existsb]; [by left|].
  intros H. apply IH in H as [H|H]; [|right; by rewrite H, orb_true_r].
  destruct ((0 <=? e) && _) eqn:Hb; [|by left].
  destruct (Z.eqb_spec (Z.of_nat i) e) as [Hie|Hie]; [by right|left].
  apply andb_true_iff in Hb as [Hb%Z.leb_le _]. unfold vset in H.
  by rewrite list_lookup_insert_ne in H by lia.
Qed.

Lemma allow_eos_other width eos l i : existsb (Z.eqb (Z.of_nat i)) eos = false -> allow_eos eos width l !! i = l !! i.
Proof.
  unfold allow_eos. revert l. induction eos as [|e eos IH]; intros l; cbn [foldl existsb]; [done|].
  intros [H1%Z.eqb_neq H2]%orb_false_iff. rewrite IH by done. destruct ((0 <=? e) && _) eqn:Hb; [|done].
  apply andb_true_iff in Hb as [Hb%Z.leb_le _]. unfold vset. by rewrite list_lookup_insert_ne by lia.
Qed.

Lemma allow_eos_length width eos l : length (allow_eos eos width l) = length l.
Proof.
  unfold allow_eos. revert l. induction eos as [|e eos IH]; intros l; cbn [foldl]; [done|]. rewrite IH. case_match; [|done].
  unfold vset. by rewrite length_insert.
Qed.

Lemma allow_eos_set width eos l i :
  existsb (Z.eqb (Z.of_nat i)) eos = true -> (i < width)%nat -> (i < length l)%nat -> allow_eos eos (Z.of_nat width) l !! i = Some true.
Proof.
  unfold allow_eos. intros He Hw Hl. assert (Hk : forall eos l, l !! i = Some true -> 
    foldl (fun l eid => if (0 <=? eid) && (eid <? Z.of_nat width) then vset eid true l else l) l eos !! i = Some true).
  { clear. intros eos. induction eos as [|e eos IH]; intros l H; cbn [foldl]; [done|]. apply IH. case_match; [|done].
    unfold vset. destruct (decide (i = Z.to_nat e)) as [<-|]; [|by rewrite list_lookup_insert_ne by done].
    rewrite list_lookup_insert_eq; [done|by eapply lookup_lt_Some]. }
  revert l Hl He. induction eos as [|e eos IH]; intros l Hl; cbn [existsb foldl]; [done|].
  destruct (Z.eqb_spec (Z.of_nat i) e) as [<-|Hne]; intros He.
  - apply Hk. rewrite (proj2 (Z.leb_le 0 (Z.of_nat i))), (proj2 (Z.ltb_lt _ _)) by lia. cbn [andb]. unfold vset.
    rewrite Nat2Z.id. by apply list_lookup_insert_eq.
  - apply IH; [|done]. case_match; [unfold vset; by rewrite length_insert|done].
Qed.

(** ** The finished list *)

Lemma allow_list_length eos width accepting l : length (allow_list eos width accepting l) = length l.
Proof. unfold allow_list. cbn zeta. repeat case_match; by rewrite ?allow_eos_length. Qed.

Lemma allow_list_other eos width accepting l i :
  existsb (Z.eqb (Z.of_nat i)) eos = false -> allow_list eos width accepting l !! i = l !! i.
Proof. intros He. unfold allow_list. cbn zeta. repeat case_match; by rewrite ?allow_eos_other. Qed.

(** Why an entry can be set. *)
Lemma allow_list_reason eos width accepting l i :
  allow_list eos width accepting l !! i = Some true -> l !! i = Some true \/ accepting = true \/ existsb id l = false.
Proof.
  unfold allow_list. destruct accepting; [by auto|]. cbn [andb]. rewrite orb_false_r. destruct (existsb id l); auto.
Qed.

Lemma none_listed l j b : existsb id l = false -> l !! j = Some b -> b = false.
Proof.
  intros Hn Hl. destruct b; [|done]. apply list_elem_of_lookup_2, list_elem_of_In in Hl.
  assert (existsb id l = true) by (apply existsb_exists; by exists true). congruence.
Qed.

(** The mask over a whole row of logits keeps exactly the listed entries. *)
Lemma mask_row allow n width tok b :
  imap (mask_unlisted false allow n) (replicate width true) !! tok = Some b <->
  (tok < width)%nat /\ b = mask_unlisted false allow n tok true.
Proof.
  rewrite list_lookup_imap. destruct (decide (tok < width)%nat).
  - rewrite lookup_replicate_2 by done. cbn. naive_solver.
  - rewrite (lookup_ge_None_2 (replicate width true)) by (rewrite length_replicate; lia). cbn. split; [done|]. intros [? _]. lia.
Qed.

Lemma mask_row_kept allow n width tok :
  imap (mask_unlisted false allow n) (replicate width true) !! tok = Some true <->
  (tok < width)%nat /\ (tok < n)%nat /\ allow !! tok = Some true.
Proof.
  rewrite mask_row. unfold mask_unlisted. destruct (Nat.leb_spec n tok), (allow !! tok) as [[]|]; cbn; naive_solver lia.
Qed.
