(* ===== verification/JsonMask.v ===== *)
(** * The mask of JSON mode

    Models [classify_token] and the mask kernels of
    [src/compute/constrain_common.h], and [JsonConstrainer] of
    [src/compute/json_constrain.cu]: [init], [compute_allowed_mask] with its
    forced closing near the token budget, the allow list of [apply_mask] with
    its two fallbacks, [update] and [reset].  Bytes are 0 to 255; the source's
    [char] comparisons against ASCII constants do not depend on its sign. *)

From Corelib Require Import ssreflect_rw.
From stdpp Require Import prelude list strings.
From S2P Require Import Prelude StreamPipeline ByteLevel Encoders AllowLists JsonFsm PreambleGate.
Import JsonState.
Open Scope Z_scope.

(** ** Token categories *)

Definition CAT_OPEN_BRACE : Z := 2 ^ 0.
Definition CAT_CLOSE_BRACE : Z := 2 ^ 1.
Definition CAT_OPEN_BRACKET : Z := 2 ^ 2.
Definition CAT_CLOSE_BRACKET : Z := 2 ^ 3.
Definition CAT_COLON : Z := 2 ^ 4.
Definition CAT_COMMA : Z := 2 ^ 5.
Definition CAT_QUOTE : Z := 2 ^ 6.
Definition CAT_STRING_CHAR : Z := 2 ^ 7.
Definition CAT_NUMBER_START : Z := 2 ^ 8.
Definition CAT_TRUE_START : Z := 2 ^ 9.
Definition CAT_FALSE_START : Z := 2 ^ 10.
Definition CAT_NULL_START : Z := 2 ^ 11.
Definition CAT_WHITESPACE : Z := 2 ^ 12.
Definition CAT_LITERAL_CONT : Z := 2 ^ 13.
Definition CAT_NUMBER_CONT : Z := 2 ^ 14.
Definition CAT_EOS : Z := 2 ^ 15.

Infix "|||" := Z.lor (at level 50, left associativity).

Definition CAT_VALUE_START : Z :=
  CAT_OPEN_BRACE ||| CAT_OPEN_BRACKET ||| CAT_QUOTE ||| CAT_NUMBER_START ||| CAT_TRUE_START ||| CAT_FALSE_START
  ||| CAT_NULL_START.

(** [if (b) cat |= k]. *)
Definition when (b : bool) (k : Z) : Z := if b then k else 0.

(** [strchr] finds the terminating zero too. *)
Definition strchr (set : bytes) (c : Z) : bool := existsb (Z.eqb c) set || (c =? 0).
Definition islower (c : Z) : bool := (97 <=? c) && (c <=? 122).

Definition structural_cat (c : Z) : Z :=
  when (c =? ch_lbrace) CAT_OPEN_BRACE ||| when (c =? ch_rbrace) CAT_CLOSE_BRACE
  ||| when (c =? ch_lbracket) CAT_OPEN_BRACKET ||| when (c =? ch_rbracket) CAT_CLOSE_BRACKET
  ||| when (c =? ch_colon) CAT_COLON ||| when (c =? ch_comma) CAT_COMMA ||| when (c =? ch_quote) CAT_QUOTE.

Definition string_char (c : Z) : bool := (32 <=? c) && negb (c =? ch_quote) && negb (c =? ch_backslash).

Definition classify_char (c : Z) : Z :=
  structural_cat c
  ||| when (c =? ch_t) (CAT_TRUE_START ||| CAT_STRING_CHAR ||| CAT_LITERAL_CONT)
  ||| when (c =? ch_f) (CAT_FALSE_START ||| CAT_STRING_CHAR ||| CAT_LITERAL_CONT)
  ||| when (c =? ch_n) (CAT_NULL_START ||| CAT_STRING_CHAR ||| CAT_LITERAL_CONT)
  ||| when (is_digit c) (CAT_NUMBER_START ||| CAT_NUMBER_CONT ||| CAT_STRING_CHAR)
  ||| when (c =? ch_minus) (CAT_NUMBER_START ||| CAT_NUMBER_CONT ||| CAT_STRING_CHAR)
  ||| when ((c =? ch_dot) || (c =? ch_e) || (c =? ch_E) || (c =? ch_plus)) (CAT_NUMBER_CONT ||| CAT_STRING_CHAR)
  ||| when (is_ws c) CAT_WHITESPACE
  ||| when (string_char c) CAT_STRING_CHAR
  ||| when (strchr (src_of "ruealskl") c) CAT_LITERAL_CONT.

Definition classify_long (first : Z) (text : bytes) : Z :=
  let is_lit := forallb islower text in
  let is_num := forallb (strchr (src_of "0123456789.-+eE")) text in
  structural_cat first
  ||| when (forallb is_ws text) CAT_WHITESPACE
  ||| when (forallb string_char text) CAT_STRING_CHAR
  ||| when is_num CAT_NUMBER_CONT
  ||| when (is_num && (is_digit first || (first =? ch_minus))) CAT_NUMBER_START
  ||| when is_lit CAT_LITERAL_CONT
  ||| when (is_lit && (first =? ch_t)) CAT_TRUE_START
  ||| when (is_lit && (first =? ch_f)) CAT_FALSE_START
  ||| when (is_lit && (first =? ch_n)) CAT_NULL_START.

Definition classify_token (text : bytes) : Z :=
  match text with
  | [] => CAT_WHITESPACE
  | [c] => classify_char c
  | c :: _ => classify_long c text
  end.

(** ** The category mask *)

Definition kMaxWsRun : Z := 32.

Definition in_string_state (f : JsonFsm) : bool :=
  bool_decide (current_state f = IN_STRING) || bool_decide (current_state f = OBJECT_KEY).
Definition in_escape_state (f : JsonFsm) : bool := bool_decide (current_state f = IN_STRING_ESCAPE).

(** Tokens needed to close everything that is open. *)
Definition needed (f : JsonFsm) : Z :=
  Z.of_nat (length (state_stack f))
  + (if bool_decide (current_state f = START) || bool_decide (current_state f = DONE) then 0 else 1)
  + (if in_escape_state f then 2 else if in_string_state f then 1 else 0).

Definition force_close (f : JsonFsm) (budget : Z) : bool :=
  (0 <=? budget) && negb (bool_decide (current_state f = DONE)) && (budget <=? needed f).

Definition force_close_mask (f : JsonFsm) : Z :=
  if in_escape_state f then CAT_STRING_CHAR
  else if in_string_state f then CAT_QUOTE
  else CAT_CLOSE_BRACE ||| CAT_CLOSE_BRACKET.

Definition state_mask (f : JsonFsm) : Z :=
  let mask := if ws_run f <? kMaxWsRun then CAT_WHITESPACE else 0 in
  match current_state f with
  | START => mask ||| (CAT_OPEN_BRACE ||| CAT_OPEN_BRACKET)
  | OBJECT_START => mask ||| (CAT_QUOTE ||| CAT_CLOSE_BRACE)
  | AFTER_KEY => mask ||| CAT_COLON
  | AFTER_COLON => mask ||| CAT_VALUE_START
  | AFTER_VALUE => mask ||| (CAT_COMMA ||| CAT_CLOSE_BRACE)
  | ARRAY_START => mask ||| (CAT_VALUE_START ||| CAT_CLOSE_BRACKET)
  | ARRAY_AFTER_VALUE => mask ||| (CAT_COMMA ||| CAT_CLOSE_BRACKET)
  | ARRAY_NEED_VALUE => mask ||| CAT_VALUE_START
  | OBJECT_NEED_KEY => mask ||| CAT_QUOTE
  | IN_STRING | IN_STRING_ESCAPE => mask ||| (CAT_STRING_CHAR ||| CAT_QUOTE)
  | IN_NUMBER => mask ||| (CAT_NUMBER_CONT ||| CAT_COMMA ||| CAT_CLOSE_BRACE ||| CAT_CLOSE_BRACKET)
  | IN_LITERAL =>
      let mask := mask ||| CAT_LITERAL_CONT in
      if negb (bool_decide (target_literal f = [])) && Nat.leb (length (target_literal f)) (length (partial_literal f))
      then mask ||| (CAT_COMMA ||| CAT_CLOSE_BRACE ||| CAT_CLOSE_BRACKET) else mask
  | DONE => mask ||| CAT_EOS
  | OBJECT_KEY => 65535
  end.

(** [compute_allowed_mask] and the [force_close_active_] it leaves. *)
Definition compute_allowed_mask (f : JsonFsm) (budget : Z) : Z * bool :=
  if force_close f budget then (force_close_mask f, true) else (state_mask f, false).

(** ** The constrainer *)

Record JsonConstrainer := mkJson {
  initialized : bool;
  vocab_size : Z;
  token_categories : list Z;
  token_texts : list bytes;
  fsm : JsonFsm;
  remaining_budget : Z;
  force_close_active : bool;
  token_allow : list bool;
  eos_ids : list Z;
  preamble : Gate.t;
  dev_categories : bool;
  dev_allowed_mask : bool;
  dev_token_allow : bool
}.

Definition new_constrainer : JsonConstrainer :=
  mkJson false 0 [] [] init_fsm (-1) false [] [] Gate.new false false false.

Definition with_fsm (c : JsonConstrainer) (f : JsonFsm) (g : Gate.t) : JsonConstrainer :=
  mkJson (initialized c) (vocab_size c) (token_categories c) (token_texts c) f (remaining_budget c) (force_close_active c)
    (token_allow c) (eos_ids c) g (dev_categories c) (dev_allowed_mask c) (dev_token_allow c).

Definition with_allow (c : JsonConstrainer) (active : bool) (allow : list bool) : JsonConstrainer :=
  mkJson (initialized c) (vocab_size c) (token_categories c) (token_texts c) (fsm c) (remaining_budget c) active
    allow (eos_ids c) (preamble c) (dev_categories c) (dev_allowed_mask c) (dev_token_allow c).

Definition set_remaining_budget (c : JsonConstrainer) (n : Z) : JsonConstrainer :=
  mkJson (initialized c) (vocab_size c) (token_categories c) (token_texts c) (fsm c) n (force_close_active c)
    (token_allow c) (eos_ids c) (preamble c) (dev_categories c) (dev_allowed_mask c) (dev_token_allow c).

Definition set_preamble (c : JsonConstrainer) (close_token max_tokens : Z) (thinking_open : bool) : JsonConstrainer :=
  with_fsm c (fsm c) (Gate.configure close_token max_tokens thinking_open).

Definition reset (c : JsonConstrainer) : JsonConstrainer := with_fsm c init_fsm (Gate.reset (preamble c)).

(** [Tokenizer::decode_token]; [gpt2] is [type_ == "gpt2"]. *)
Definition decode_token (gpt2 : bool) (t : Tokenizer) (token : Z) : bytes :=
  if gpt2 then decode_gpt2_token t token else decode_spm_token t token.

(** What a CUDA allocation or upload of [init] did. *)
Inductive DeviceResult : Type := DeviceOk | NoMemory | CopyFailed.

(** [token_categories_[eid] = CAT_EOS] for every EOS id of the vocabulary. *)
Definition mark_eos (eos : list Z) (cats : list Z) : list Z := 
  foldl (fun l eid => if (0 <=? eid) && (eid <? Z.of_nat (length l)) then vset eid CAT_EOS l else l) cats eos.

Definition init (c : JsonConstrainer) (gpt2 : bool) (t : Tokenizer) (categories mask allow : DeviceResult) : JsonConstrainer * bool :=
  let texts := decode_token gpt2 t <$> (Z.of_nat <$> seq 0 (length (vocab_ t))) in
  let cats := mark_eos (eos_ids_ t) (classify_token <$> texts) in
  let built up m a := mkJson (initialized c) (Z.of_nat (length texts)) cats texts (fsm c) (remaining_budget c)
    (force_close_active c) (token_allow c) (eos_ids_ t) (preamble c) up m a in
  match categories with
  | NoMemory => (built false (dev_allowed_mask c) (dev_token_allow c), false)
  | CopyFailed => (built true (dev_allowed_mask c) (dev_token_allow c), false)
  | DeviceOk =>
      match mask with
      | DeviceOk =>
          match allow with
          | DeviceOk => let c' := reset (built true true true) in
              (mkJson true (vocab_size c') (token_categories c') (token_texts c') (fsm c') (remaining_budget c')
                 (force_close_active c') (token_allow c') (eos_ids c') (preamble c') (dev_categories c')
                 (dev_allowed_mask c') (dev_token_allow c'), true)
          | _ => (built true true false, false)
          end
      | _ => (built true false (dev_token_allow c), false)
      end
  end.

(** ** Masking *)

(** The characters that take a token inside a string off the shortcut. *)
Definition string_token_needs_simulation (text : bytes) : bool :=
  existsb (fun c => (c =? ch_quote) || (c =? ch_backslash) || (c <? 32)) text.

(** The body of the loop over the vocabulary, for one token. *)
Definition token_allowed (f : JsonFsm) (mask cat : Z) (text : bytes) : bool :=
  let in_string := bool_decide (current_state f = IN_STRING) || bool_decide (current_state f = IN_STRING_ESCAPE) in
  if Z.land cat mask =? 0 then false
  else if cat =? CAT_EOS then true
  else if in_string && negb (string_token_needs_simulation text) then true
  else sim_token_valid f text.

(** The loop: the first [n] entries of the list are overwritten. *)
Definition fill_allow (c : JsonConstrainer) (mask : Z) (n : nat) (allow : list bool) : list bool :=
  zip_with (token_allowed (fsm c) mask) (take n (token_categories c)) (take n (token_texts c)) ++ drop n allow.

Definition any_allowed (n : nat) (allow : list bool) : bool := existsb id (take n allow).

(** The host list [apply_mask] builds, with the mask that produced it. *)
Definition build_allow (c : JsonConstrainer) (width : Z) : JsonConstrainer :=
  let n := Z.to_nat (Z.min width (vocab_size c)) in
  let allow := if Z.of_nat (length (token_allow c)) =? width then token_allow c else replicate (Z.to_nat width) false in
  let (mask, forced) := compute_allowed_mask (fsm c) (remaining_budget c) in
  let allow1 := fill_allow c mask n allow in
  let (allow2, forced) :=
    if negb (any_allowed n allow1) && forced
    then let (mask', forced') := compute_allowed_mask (fsm c) (-1) in (fill_allow c mask' n allow1, forced')
    else (allow1, forced) in
  with_allow c forced (if any_allowed n allow2 then allow2 else allow_eos (eos_ids c) width allow2).

(** [constrain_mask_allow_kernel] for one position, with [use_token_allow]. *)
Definition mask_logit {A} (lowest : A) (cats : list Z) (allow : list bool) (allowed_mask : Z) (n_classified : nat)
    (idx : nat) (logit : A) : A :=
  if Nat.leb n_classified idx then lowest
  else
    let cat_ok := negb (Z.land (default 0 (cats !! idx)) allowed_mask =? 0) in
    let allow_ok := default false (allow !! idx) in
    if negb cat_ok || negb allow_ok then lowest else logit.

(** [apply_mask] on logits of type [A], where [lowest] is [-FLT_MAX]. *)
Definition apply_mask {A} (lowest : A) (c : JsonConstrainer) (logits : list A) : JsonConstrainer * list A :=
  if negb (initialized c) || negb (dev_categories c) || negb (dev_allowed_mask c) then (c, logits)
  else if Gate.active (preamble c) then (c, logits)
  else
    let width := Z.of_nat (length logits) in
    let c' := build_allow c width in
    if negb (dev_token_allow c') then (c', logits)
    else
      let n := Z.to_nat (Z.min width (vocab_size c')) in
      (c', imap (mask_logit lowest (token_categories c') (take n (token_allow c')) 65535 n) logits).

(** [update]. *)
Definition update (c : JsonConstrainer) (token : Z) : JsonConstrainer :=
  if (token <? 0) || (vocab_size c <=? token) then c
  else
    let text := token_texts c !!! Z.to_nat token in
    let (g, absorbed) := Gate.absorb (preamble c) token text in
    if absorbed then with_fsm c (fsm c) g else with_fsm c (advance_text (fsm c) text) g.
