(* ===== verification/JsonTheorems.v ===== *)
(** * JSON mode: the guarantees

    The automaton accepts exactly the documents of [Lax] and all of RFC 8259's;
    it has no dead ends; the allow list holds exactly the tokens whose whole text
    can be read; a reply made of allowed tokens and ended by an allowed EOS is a
    document; what forced closing and the preamble gate guarantee. *)

From Corelib Require Import ssreflect_rw.
From stdpp Require Import prelude list strings.
From S2P Require Import Prelude StreamPipeline ByteLevel Languages AllowLists JsonFsm JsonLanguage JsonExact PreambleGate JsonMask.
Import JsonState.
Open Scope Z_scope.

(** ** The language *)

(** C27: the JSON automaton reads a text legally from its start to its end state
    exactly when the text is an object or an array of the dialect [Lax], and the
    dialect contains every such text of RFC 8259. *)
Theorem json_fsm_exact w :
  ((exists f, strict_run init_fsm w = Some f /\ current_state f = DONE) <-> Lax.document w) /\
  (RFC8259.document w -> Lax.document w).
Proof. split; [|apply rfc_document_lax]. rewrite <- Rem_init. symmetry. apply Rem_run, init_wf. Qed.

Lemma sample_lchar c : lchar c [c].
Proof. exists c. by rewrite Z.eqb_refl. Qed.

(** [[0]] is a document of the standard. *)
Example rfc_sample : RFC8259.document [ch_lbracket; 48; ch_rbracket].
Proof.
  apply (lcat_app ws _ [] _); [constructor|]. apply (lcat_app _ ws [_; _; _] []); [|constructor].
  apply (jc_array _ _ _ [48]). apply (je_last _ _ _ [] [48] []); [constructor| |constructor].
  apply jv_number. unfold number_of. apply lopt_cat. left.
  apply (lcat_app _ _ [48] []); [left; apply sample_lchar|]. apply lopt_cat. left. by left.
Qed.

(** Reachable states: some text has been read legally. *)
Definition reachable (f : JsonFsm) : Prop := exists w, strict_run init_fsm w = Some f.

Lemma reachable_wf f : reachable f -> wf_fsm f.
Proof. intros [w Hw]. apply (strict_run_wf _ _ _ init_wf Hw). Qed.

(** A text that completes a state: it closes what is open, innermost first. *)
Definition close_state (s : JsonState) : bytes :=
  match s with
  | START => [ch_lbrace; ch_rbrace]
  | OBJECT_START | AFTER_VALUE => [ch_rbrace]
  | OBJECT_NEED_KEY => [ch_quote; ch_quote; ch_colon; 48; ch_rbrace]
  | AFTER_KEY => [ch_colon; 48; ch_rbrace]
  | AFTER_COLON => [48; ch_rbrace]
  | ARRAY_START | ARRAY_AFTER_VALUE => [ch_rbracket]
  | ARRAY_NEED_VALUE => [48; ch_rbracket]
  | _ => []
  end.

Definition close_current (f : JsonFsm) : bytes :=
  match current_state f with
  | IN_STRING => [ch_quote]
  | IN_STRING_ESCAPE => [48; ch_quote]
  | IN_NUMBER => if num_need_digit f then [48] else []
  | IN_LITERAL => drop (length (partial_literal f)) (target_literal f)
  | s => close_state s
  end.

Definition completion (f : JsonFsm) : bytes := close_current f ++ concat (close_state <$> state_stack f).

Lemma zero_value : Lax.value [48].
Proof.
  apply jv_number. unfold Lax.number, number_of. apply lopt_cat. left.
  apply (lcat_app _ _ [48] []); [apply lclass_cat_cons; split; [done|constructor]|]. apply lopt_cat. left. by left.
Qed.

Lemma empty_string : Lax.string [ch_quote; ch_quote].
Proof. apply lchar_cat_cons. split; [done|]. apply (lcat_app _ _ []); [constructor|apply sample_lchar]. Qed.

Lemma ws_none L w : L w -> (ws ⋅ L)%lang w.
Proof. intros H. apply (lcat_app ws L []); [constructor|done]. Qed.

Lemma after_value_close : after_value Lax.string Lax.number Lax.literal [ch_rbrace].
Proof. apply ws_none. left. apply sample_lchar. Qed.

Lemma after_colon_close : after_colon Lax.string Lax.number Lax.literal [48; ch_rbrace].
Proof. apply ws_none. apply (lcat_app _ _ [48]); [apply zero_value|apply after_value_close]. Qed.

Lemma after_key_close : after_key Lax.string Lax.number Lax.literal [ch_colon; 48; ch_rbrace].
Proof. apply ws_none. apply lchar_cat_cons. split; [done|apply after_colon_close]. Qed.

Lemma array_after_value_close : array_after_value Lax.string Lax.number Lax.literal [ch_rbracket].
Proof. apply ws_none. left. apply sample_lchar. Qed.

Lemma close_state_rest s : is_structural s = true -> state_rest s (close_state s).
Proof.
  intros Hs. apply ws_none. destruct s; try done; cbn.
  - apply JContainer_eq. left. apply lchar_cat_cons. split; [done|]. left. apply ws_none, sample_lchar.
  - left. apply sample_lchar.
  - apply lchar_cat_cons. split; [done|apply after_colon_close].
  - apply (lcat_app _ _ [48]); [apply zero_value|apply after_value_close].
  - left. apply sample_lchar.
  - left. apply sample_lchar.
  - left. apply sample_lchar.
  - apply (lcat_app _ _ [48]); [apply zero_value|apply array_after_value_close].
  - apply (lcat_app _ _ [ch_quote; ch_quote]); [apply empty_string|apply after_key_close].
Qed.

Lemma close_stack_rest k :
  Forall (fun s => is_continuation s = true) k -> stack_rest k (concat (close_state <$> k)).
Proof.
  induction 1 as [|s k Hs Hk IH]; cbn; [constructor|]. apply lcat_app; [|done].
  apply close_state_rest. by destruct s.
Qed.

Lemma number_close a b c d : number_rest a b c d (if d then [48] else []).
Proof.
  unfold number_rest. apply (lcat_app _ _ []); [destruct c; [by left|done]|].
  assert (H : forall e f, ((if e : bool then lnil else lopt frac) ⋅ (if f : bool then lnil else lopt exp))%lang []).
  { intros e f. apply (lcat_app _ _ [] []); [destruct e|destruct f]; done || by left. }
  destruct d; [|apply (lcat_app _ _ [] []); [constructor|apply H]].
  apply (lcat_app _ _ [48] []); [apply lclass_cat_cons; split; [done|constructor]|apply H].
Qed.

Lemma spaced_self w : Lax.spaced w w.
Proof. induction w as [|c w IH]; [done|]. apply ws_none, lchar_cat_cons. by split. Qed.

Lemma completion_rest f : wf_fsm f -> Rem f (completion f).
Proof.
  intros Hf. apply lcat_app; [|apply close_stack_rest, (wf_stack f Hf)].
  unfold current_rest, close_current. destruct (current_state f) eqn:Es; try (by apply close_state_rest).
  - by destruct (wf_key f Hf).
  - apply (lcat_app _ _ []); [constructor|apply sample_lchar].
  - apply (lcat_app _ _ [48]); [by exists 48|]. apply (lcat_app _ _ []); [constructor|apply sample_lchar].
  - apply number_close.
  - apply spaced_self.
  - done.
Qed.

(** C29: no dead ends: whatever has been read legally so far, [completion] of the
    state reached is read legally and ends the document. *)
Theorem json_completable f :
  reachable f -> exists f', strict_run f (completion f) = Some f' /\ current_state f' = DONE.
Proof. intros H%reachable_wf. by apply Rem_run, completion_rest. Qed.

(** [{"k":[tr]: completed by [ue]}]. *)
Lemma json_completable_witness :
  exists f f', strict_run init_fsm [ch_lbrace; ch_quote; 107; ch_quote; ch_colon; ch_lbracket; ch_t; 114] = Some f /\
    completion f = [117; 101; ch_rbracket; ch_rbrace] /\ strict_run f (completion f) = Some f' /\ current_state f' = DONE.
Proof.
  destruct (strict_run init_fsm [ch_lbrace; ch_quote; 107; ch_quote; ch_colon; ch_lbracket; ch_t; 114]) as [f|] eqn:E;
    [|by vm_compute in E].
  destruct (json_completable f (ex_intro _ _ E)) as (f' & H1 & H2). exists f, f'. split_and!; try done.
  vm_compute in E. by injection E as <-.
Defined.

(** Texts of the dialect outside the standard: a name in pieces, a leading zero,
    an unknown escape, an unfinished [\u]. *)
Definition dialect_samples : list bytes :=
  [src_of "[tr ue]"; src_of "[01]"; [ch_lbracket; ch_quote; ch_backslash; 120; ch_quote; ch_rbracket];
   [ch_lbracket; ch_quote; ch_backslash; 117; 48; ch_quote; ch_rbracket]].

Example dialect_samples_accepted :
  forallb (fun w => match strict_run init_fsm w with Some f => bool_decide (current_state f = DONE) | None => false end)
    dialect_samples = true.
Proof. by vm_compute. Qed.

(** ** The allow list *)

Lemma strict_run_advance_text f w f' : strict_run f w = Some f' -> advance_text f w = f'.
Proof.
  revert f. induction w as [|c w IH]; intros f; cbn [strict_run]; [by intros [= <-]|].
  unfold advance_text. cbn [foldl]. destruct (advance_char f c) as [g []]; [apply IH|done].
Qed.

Lemma in_string_plain f w :
  wf_fsm f -> current_state f = IN_STRING -> string_token_needs_simulation w = false -> exists f', strict_run f w = Some f'.
Proof.
  intros Hf Hs Hw. revert f Hf Hs. induction w as [|c w IH]; intros f Hf Hs; cbn [strict_run]; [by eexists|].
  cbn in Hw. apply orb_false_iff in Hw as [Hc Hw]. apply orb_false_iff in Hc as [[Hc1 Hc2]%orb_false_iff Hc3].
  pose proof (advance_char_wf f c Hf) as Hg. revert Hg. rewrite advance_char_flat by done.
  unfold advance_flat. rewrite Hs. unfold advance_here. cbn [with_ws current_state]. rewrite Hs, Hc2, Hc1, Hc3.
  intros Hg. by apply IH.
Qed.

(** Inside a string the shortcut of [apply_mask] agrees with the simulation. *)
Lemma shortcut_valid f w :
  wf_fsm f -> current_state f = IN_STRING \/ current_state f = IN_STRING_ESCAPE ->
  string_token_needs_simulation w = false -> sim_token_valid f w = true.
Proof.
  intros Hf Hs Hw. unfold sim_token_valid. destruct Hs as [Hs|Hs].
  - by destruct (in_string_plain f w Hf Hs Hw) as [f' ->].
  - destruct w as [|c w]; [done|]. cbn in Hw. apply orb_false_iff in Hw as [Hc Hw]. apply orb_false_iff in Hc as [_ Hc].
    cbn [strict_run]. pose proof (advance_char_wf f c Hf) as Hg. revert Hg. rewrite advance_char_flat by done.
    unfold advance_flat. rewrite Hs. unfold advance_here. cbn [with_ws current_state]. rewrite Hs, Hc. intros Hg.
    destruct (in_string_plain _ w Hg eq_refl Hw) as [f' Hf']. cbn [fst] in Hf'. by rewrite Hf'.
Qed.

Lemma token_allowed_spec f mask cat text :
  wf_fsm f ->
  token_allowed f mask cat text = negb (Z.land cat mask =? 0) && ((cat =? CAT_EOS) || sim_token_valid f text).
Proof.
  intros Hf. unfold token_allowed. destruct (_ =? 0); [done|]. destruct (cat =? CAT_EOS); [done|].
  destruct (bool_decide_reflect (current_state f = IN_STRING)) as [H1|H1];
    destruct (bool_decide_reflect (current_state f = IN_STRING_ESCAPE)) as [H2|H2]; cbn [orb andb negb];
    destruct (string_token_needs_simulation text) eqn:Hn; try done; symmetry; apply shortcut_valid; auto.
Qed.

(** *** Categories *)

Lemma when_bit15 b k : Z.testbit k 15 = false -> Z.testbit (when b k) 15 = false.
Proof. by destruct b; [|rewrite Z.bits_0]. Qed.

Lemma classify_not_eos text : classify_token text ≠ CAT_EOS.
Proof.
  assert (H : Z.testbit (classify_token text) 15 = false); [|by intros E; rewrite E in H].
  destruct text as [|c [|d text]]; [done|..]; cbn [classify_token]; unfold classify_char, classify_long, structural_cat;
    rewrite !Z.lor_spec, !when_bit15; done.
Qed.

Lemma eos_mask f : wf_fsm f -> Z.land CAT_EOS (state_mask f) ≠ 0 -> current_state f = DONE.
Proof.
  intros Hf. unfold state_mask. destruct (ws_run f <? kMaxWsRun), (current_state f) eqn:Es; try done;
    try (by destruct (wf_key f Hf)); by case_match.
Qed.

Lemma eos_force_mask f : Z.land CAT_EOS (force_close_mask f) = 0.
Proof. unfold force_close_mask. by repeat case_match. Qed.

(** *** A constrainer as [init] leaves it *)

Record wf_json (c : JsonConstrainer) : Prop := {
  wj_fsm : wf_fsm (fsm c);
  wj_texts : Z.of_nat (length (token_texts c)) = vocab_size c;
  wj_cats : token_categories c = mark_eos (eos_ids c) (classify_token <$> token_texts c)
}.

Lemma mark_eos_length eos cats : length (mark_eos eos cats) = length cats.
Proof.
  unfold mark_eos. revert cats. induction eos as [|e eos IH]; intros cats; cbn; [done|]. rewrite IH.
  case_match; [|done]. unfold vset. by rewrite length_insert.
Qed.

Lemma mark_eos_lookup eos cats i cat :
  cats !! i = Some cat ->
  mark_eos eos cats !! i = Some (if existsb (Z.eqb (Z.of_nat i)) eos then CAT_EOS else cat).
Proof.
  unfold mark_eos. revert cats cat. induction eos as [|e eos IH]; intros cats cat Hi; cbn [foldl existsb]; [done|].
  pose proof (lookup_lt_Some _ _ _ Hi) as Hlt.
  destruct (Z.eqb_spec (Z.of_nat i) e) as [<- |Hne]; cbn [orb].
  - rewrite (proj2 (Z.leb_le 0 (Z.of_nat i))), (proj2 (Z.ltb_lt (Z.of_nat i) (Z.of_nat (length cats)))) by lia. cbn [andb].
    rewrite (IH _ CAT_EOS) by (unfold vset; rewrite Nat2Z.id; by apply list_lookup_insert_eq). by case_match.
  - apply IH. destruct ((0 <=? e) && _) eqn:Hb; [|done]. unfold vset. rewrite list_lookup_insert_ne; [done|].
    apply andb_true_iff in Hb as [H1%Z.leb_le _]. lia.
Qed.

Lemma wf_json_cat c i text :
  wf_json c -> token_texts c !! i = Some text ->
  token_categories c !! i = Some (if existsb (Z.eqb (Z.of_nat i)) (eos_ids c) then CAT_EOS else classify_token text).
Proof. intros [_ _ ->] Hi. apply mark_eos_lookup. by rewrite list_lookup_fmap, Hi. Qed.

Definition is_eos (c : JsonConstrainer) (i : nat) : bool := existsb (Z.eqb (Z.of_nat i)) (eos_ids c).
Definition cat_at (c : JsonConstrainer) (i : nat) (text : bytes) : Z := if is_eos c i then CAT_EOS else classify_token text.

Section AllowList.
Context (c : JsonConstrainer) (width : nat) (Hc : wf_json c).
Let n : nat := Nat.min width (length (token_texts c)).

Lemma fill_allow_lookup mask allow i text :
  (i < n)%nat -> token_texts c !! i = Some text ->
  fill_allow c mask n allow !! i = Some (token_allowed (fsm c) mask (cat_at c i text) text).
Proof.
  intros Hi Ht. pose proof (wf_json_cat c i text Hc Ht) as Hcat.
  unfold fill_allow. rewrite lookup_app_l.
  - rewrite lookup_zip_with, !lookup_take_lt, Hcat, Ht by done. done.
  - rewrite length_zip_with, !length_take, (wj_cats c Hc), mark_eos_length, length_fmap. unfold n in *. lia.
Qed.

Lemma fill_allow_length mask allow : length allow = width -> length (fill_allow c mask n allow) = width.
Proof.
  intros Hl. unfold fill_allow.
  rewrite length_app, length_zip_with, !length_take, length_drop, (wj_cats c Hc), mark_eos_length, length_fmap.
  unfold n in *. lia.
Qed.

Lemma any_allowed_false mask allow :
  any_allowed n (fill_allow c mask n allow) = false ->
  forall j text, (j < n)%nat -> token_texts c !! j = Some text -> token_allowed (fsm c) mask (cat_at c j text) text = false.
Proof.
  intros Ha j text Hj Ht. pose proof (fill_allow_lookup mask allow j text Hj Ht) as Hl.
  destruct (token_allowed _ _ _ _); [|done]. exfalso.
  assert (Hin : true ∈ take n (fill_allow c mask n allow)).
  { apply list_elem_of_lookup. exists j. by rewrite lookup_take_lt. }
  apply list_elem_of_In in Hin. unfold any_allowed in Ha.
  rewrite (proj2 (existsb_exists id _)) in Ha; [done|]. by exists true.
Qed.

(** The list [apply_mask] ends with: every token under one mask, or, when the
    state's own mask allows none, the EOS ids. *)
Lemma build_allow_cases :
  exists l, length l = width /\
    ((exists mask, (mask = state_mask (fsm c) \/ mask = force_close_mask (fsm c)) /\
        token_allow (build_allow c (Z.of_nat width)) = fill_allow c mask n l) \/
     (any_allowed n (fill_allow c (state_mask (fsm c)) n l) = false /\
        token_allow (build_allow c (Z.of_nat width)) =
          allow_eos (eos_ids c) (Z.of_nat width) (fill_allow c (state_mask (fsm c)) n l))).
Proof.
  remember (token_allow (build_allow c (Z.of_nat width))) as a eqn:Ha. unfold build_allow in Ha.
  assert (En : Z.to_nat (Z.min (Z.of_nat width) (vocab_size c)) = n) by (rewrite <- (wj_texts c Hc); unfold n; lia).
  rewrite En in Ha. set (l0 := if Z.of_nat (length (token_allow c)) =? Z.of_nat width then _ else _) in Ha.
  assert (Hl0 : length l0 = width).
  { unfold l0. destruct (Z.eqb_spec (Z.of_nat (length (token_allow c))) (Z.of_nat width)); [lia|]. rewrite length_replicate. lia. }
  assert (Hplain : compute_allowed_mask (fsm c) (-1) = (state_mask (fsm c), false)) by done. rewrite Hplain in Ha.
  assert (Hlast : forall l, length l = width ->
    a = (if any_allowed n (fill_allow c (state_mask (fsm c)) n l) then fill_allow c (state_mask (fsm c)) n l
         else allow_eos (eos_ids c) (Z.of_nat width) (fill_allow c (state_mask (fsm c)) n l)) ->
    exists l, length l = width /\
    ((exists mask, (mask = state_mask (fsm c) \/ mask = force_close_mask (fsm c)) /\ a = fill_allow c mask n l) \/
     (any_allowed n (fill_allow c (state_mask (fsm c)) n l) = false /\
        a = allow_eos (eos_ids c) (Z.of_nat width) (fill_allow c (state_mask (fsm c)) n l)))).
  { intros l Hl ->. exists l. split; [done|]. destruct (any_allowed _ _); [left|by right]. eexists. split; [by left|done]. }
  unfold compute_allowed_mask in Ha. destruct (force_close (fsm c) (remaining_budget c)).
  - destruct (any_allowed n (fill_allow c (force_close_mask (fsm c)) n l0)) eqn:Ea; cbn [negb andb] in Ha.
    + rewrite Ea in Ha. exists l0. split; [done|left]. exists (force_close_mask (fsm c)). split; [by right|done].
    + by apply (Hlast (fill_allow c (force_close_mask (fsm c)) n l0)); [apply fill_allow_length|].
  - rewrite andb_false_r in Ha. by apply (Hlast l0).
Qed.
End AllowList.

(** A constrainer whose mask applies. *)
Record masking (c : JsonConstrainer) : Prop := {
  mk_wf : wf_json c;
  mk_initialized : initialized c = true;
  mk_categories : dev_categories c = true;
  mk_mask : dev_allowed_mask c = true;
  mk_allow : dev_token_allow c = true;
  mk_gate : Gate.active (preamble c) = false
}.

(** [masking] but for the gate, which may be open in front of the document. *)
Record ready (c : JsonConstrainer) : Prop := {
  rd_wf : wf_json c;
  rd_initialized : initialized c = true;
  rd_categories : dev_categories c = true;
  rd_mask : dev_allowed_mask c = true;
  rd_allow : dev_token_allow c = true
}.

Lemma ready_masking c : ready c -> Gate.state (preamble c) = Gate.OFF -> masking c.
Proof. intros [] Hg. constructor; try done. unfold Gate.active. by rewrite Hg. Qed.

(** The logit of token [i] is left alone, in logits of the given width. *)
Definition permitted (c : JsonConstrainer) (width i : nat) : Prop :=
  (apply_mask false c (replicate width true)).2 !! i = Some true.

Lemma build_allow_static c w :
  token_categories (build_allow c w) = token_categories c /\ token_texts (build_allow c w) = token_texts c /\
  fsm (build_allow c w) = fsm c /\ vocab_size (build_allow c w) = vocab_size c /\ preamble (build_allow c w) = preamble c /\
  eos_ids (build_allow c w) = eos_ids c /\ initialized (build_allow c w) = initialized c /\
  dev_categories (build_allow c w) = dev_categories c /\ dev_allowed_mask (build_allow c w) = dev_allowed_mask c /\
  dev_token_allow (build_allow c w) = dev_token_allow c.
Proof. unfold build_allow. repeat case_match; done. Qed.

Lemma permitted_allow c width i :
  masking c -> permitted c width i ->
  (i < Nat.min width (length (token_texts c)))%nat /\ token_allow (build_allow c (Z.of_nat width)) !! i = Some true.
Proof.
  intros [Hw Hi Hdc Hdm Hda Hg]. unfold permitted, apply_mask. rewrite Hi, Hdc, Hdm, Hg. cbn [negb orb].
  destruct (build_allow_static c (Z.of_nat width)) as (Ec & Et & Ef & Ev & _ & _ & _ & _ & _ & Ed).
  rewrite length_replicate, Ed, Hda, Ev, Ec. cbn [negb snd].
  rewrite <- (wj_texts c Hw). rewrite list_lookup_imap. intros H. apply fmap_Some in H as (b & Hb & H).
  apply lookup_replicate in Hb as [-> Hlt].
  replace (Z.to_nat (Z.min (Z.of_nat width) (Z.of_nat (length (token_texts c))))) with (Nat.min width (length (token_texts c))) in H by lia.
  unfold mask_logit in H. destruct (Nat.leb_spec (Nat.min width (length (token_texts c))) i) as [|Hlt']; [done|].
  split; [done|]. rewrite lookup_take_lt in H by done.
  destruct (token_allow _ !! i) as [[]|]; [done|..]; by rewrite orb_true_r in H.
Qed.

(** An allowed token under either mask. *)
Lemma token_allowed_cases c mask i text :
  wf_json c -> mask = state_mask (fsm c) \/ mask = force_close_mask (fsm c) ->
  token_allowed (fsm c) mask (cat_at c i text) text = true ->
  (is_eos c i = false /\ sim_token_valid (fsm c) text = true) \/ (is_eos c i = true /\ current_state (fsm c) = DONE).
Proof.
  intros Hc Hm. rewrite token_allowed_spec by apply Hc. rewrite andb_true_iff, negb_true_iff, Z.eqb_neq.
  unfold cat_at. destruct (is_eos c i).
  - intros [Hne _]. right. split; [done|]. destruct Hm as [-> | ->]; [by apply eos_mask; [apply Hc|]|].
    by rewrite eos_force_mask in Hne.
  - intros [_ [He|Hs]%orb_true_iff]; [|by left]. apply Z.eqb_eq in He. by apply classify_not_eos in He.
Qed.

(** A permitted token passed one of the two masks, or is EOS and none passed. *)
Lemma permitted_cases c width i :
  masking c -> permitted c width i ->
  exists text, token_texts c !! i = Some text /\
    ((exists mask, (mask = state_mask (fsm c) \/ mask = force_close_mask (fsm c)) /\
        token_allowed (fsm c) mask (cat_at c i text) text = true) \/
     (is_eos c i = true /\ forall j text', (j < Nat.min width (length (token_texts c)))%nat -> token_texts c !! j = Some text' ->
        token_allowed (fsm c) (state_mask (fsm c)) (cat_at c j text') text' = false)).
Proof.
  intros Hm Hp. destruct (permitted_allow c width i Hm Hp) as [Hlt Ha]. pose proof (mk_wf c Hm) as Hc.
  destruct (lookup_lt_is_Some_2 (token_texts c) i) as [text Ht]; [lia|]. exists text. split; [done|].
  destruct (build_allow_cases c width Hc) as (l & Hl & [(mask & Hmask & E)|(Hnone & E)]); rewrite E in Ha.
  - left. exists mask. split; [done|]. rewrite (fill_allow_lookup c width Hc mask l i text Hlt Ht) in Ha. by injection Ha.
  - right. split; [|exact (any_allowed_false c width Hc _ l Hnone)].
    apply allow_eos_lookup in Ha as [Ha|Ha]; [|done].
    rewrite (fill_allow_lookup c width Hc _ l i text Hlt Ht), (any_allowed_false c width Hc _ l Hnone i text Hlt Ht) in Ha. done.
Qed.

Lemma mask_sound_cases c width i :
  masking c -> permitted c width i ->
  exists text, token_texts c !! i = Some text /\
    ((is_eos c i = false /\ sim_token_valid (fsm c) text = true) \/
     (is_eos c i = true /\ current_state (fsm c) = DONE) \/
     (is_eos c i = true /\ forall j text', (j < Nat.min width (length (token_texts c)))%nat -> token_texts c !! j = Some text' ->
        token_allowed (fsm c) (state_mask (fsm c)) (cat_at c j text') text' = false)).
Proof.
  intros Hm Hp. destruct (permitted_cases c width i Hm Hp) as (text & Ht & [(mask & Hmask & Ha)|H]); exists text; split; auto.
  destruct (token_allowed_cases c mask i text (mk_wf c Hm) Hmask Ha) as [H|H]; auto.
Qed.

(** A token the mask leaves selectable is one of the vocabulary, and its
    whole text is a legal continuation; or it is an EOS id and the document is
    complete; or it is an EOS id and no token of the vocabulary passes the mask. *)
Theorem mask_sound c width i :
  masking c -> permitted c width i ->
  exists text, token_texts c !! i = Some text /\
    ((is_eos c i = false /\ sim_token_valid (fsm c) text = true) \/
     (is_eos c i = true /\ current_state (fsm c) = DONE) \/
     (is_eos c i = true /\ forall j text', (j < Nat.min width (length (token_texts c)))%nat -> token_texts c !! j = Some text' ->
        token_allowed (fsm c) (state_mask (fsm c)) (cat_at c j text') text' = false)).
Proof. apply mask_sound_cases. Qed.

(** ** Replies *)

(** Single-byte tokens with which every document can be continued. *)
Definition basic_bytes : bytes := [ch_lbrace; ch_rbrace; ch_rbracket; ch_colon; ch_quote; 48] ++ literal_letters.

Definition basic_vocabulary (c : JsonConstrainer) (width : nat) : Prop :=
  forall b, b ∈ basic_bytes ->
  exists i, (i < Nat.min width (length (token_texts c)))%nat /\ token_texts c !! i = Some [b] /\ is_eos c i = false.

Lemma sim_one f b : wf_fsm f -> sim_token_valid f [b] = (advance_flat f b).2.
Proof. intros Hf. unfold sim_token_valid. cbn [strict_run]. rewrite advance_char_flat by done. by destruct (advance_flat f b) as [? []]. Qed.

(** The next letter of an unfinished literal name. *)
Lemma next_letter f :
  wf_fsm f -> current_state f = IN_LITERAL ->
  exists b, b ∈ basic_bytes /\ Z.land (classify_char b) (state_mask f) ≠ 0 /\ sim_token_valid f [b] = true.
Proof.
  intros Hf Es. pose proof (wf_literal f Hf Es) as Hlt. destruct (lookup_lt_is_Some_2 _ _ Hlt) as [x Hx].
  pose proof (literal_letter _ _ _ (wf_target f Hf) Hx) as Hin. exists x. split_and!.
  - unfold basic_bytes. set_solver.
  - unfold state_mask. rewrite Es, (proj2 (Nat.leb_gt _ _) Hlt), andb_false_r.
    unfold literal_letters in Hin. set_unfold in Hin. destruct_or! Hin; subst; by destruct (ws_run f <? kMaxWsRun).
  - rewrite sim_one by done. unfold advance_flat. rewrite Es, (letter_not_ws x Hin). unfold advance_here.
    cbn [with_ws current_state partial_literal target_literal]. rewrite Es, (proj2 (Nat.leb_gt _ _) Hlt), Hx.
    rewrite bool_decide_eq_true_2 by done. cbn [negb orb]. by case_match.
Qed.

(** In every state but the last some basic byte passes the mask and is legal. *)
Lemma next_basic f :
  wf_fsm f -> current_state f ≠ DONE ->
  exists b, b ∈ basic_bytes /\ Z.land (classify_char b) (state_mask f) ≠ 0 /\ sim_token_valid f [b] = true.
Proof.
  intros Hf Hd. destruct (decide (current_state f = IN_LITERAL)) as [Hl|Hl]; [by apply next_letter|].
  assert (Hpick : forall b, b ∈ basic_bytes -> (advance_flat f b).2 = true -> Z.land (classify_char b) (state_mask f) ≠ 0 ->
    exists b, b ∈ basic_bytes /\ Z.land (classify_char b) (state_mask f) ≠ 0 /\ sim_token_valid f [b] = true).
  { intros b H1 H2 H3. exists b. by rewrite sim_one. }
  unfold state_mask, advance_flat, advance_here in *. cbn [with_ws current_state] in Hpick.
  destruct (current_state f) eqn:Es; try done; try (by destruct (wf_key f Hf)).
  all: let pick b := apply (Hpick b);
         [apply (bool_decide_eq_true_1 (b ∈ basic_bytes)); reflexivity|reflexivity|by destruct (ws_run f <? kMaxWsRun)] in
       first [pick ch_lbrace|pick ch_quote|pick ch_colon|pick 48|pick ch_rbrace|pick ch_rbracket].
Qed.

Lemma some_allowed c width :
  wf_json c -> basic_vocabulary c width -> current_state (fsm c) ≠ DONE ->
  exists j text, (j < Nat.min width (length (token_texts c)))%nat /\ token_texts c !! j = Some text /\
    token_allowed (fsm c) (state_mask (fsm c)) (cat_at c j text) text = true.
Proof.
  intros Hc Hb Hd. destruct (next_basic _ (wj_fsm c Hc) Hd) as (b & Hin & Hm & Hs). destruct (Hb b Hin) as (j & Hj & Ht & He).
  exists j, [b]. split_and!; try done. rewrite token_allowed_spec by apply Hc. unfold cat_at. rewrite He, Hs, orb_true_r.
  cbn [classify_token]. rewrite andb_true_r. by apply negb_true_iff, Z.eqb_neq.
Qed.

(** The decode loop: before each token the budget is set and the mask applied,
    then a permitted token other than EOS is chosen and [update] is called. *)
Inductive generates (width : nat) : JsonConstrainer -> list nat -> JsonConstrainer -> Prop :=
  | gen_stop c : generates width c [] c
  | gen_token c budget tok toks c' :
      permitted (set_remaining_budget c budget) width tok -> is_eos c tok = false ->
      generates width (update (apply_mask false (set_remaining_budget c budget) (replicate width true)).1 (Z.of_nat tok)) toks c' ->
      generates width c (tok :: toks) c'.

Definition reply_text (c : JsonConstrainer) (toks : list nat) : bytes := concat ((fun i => token_texts c !!! i) <$> toks).

(** The preamble of a reply: the same steps with tokens the gate kept from the
    automaton. *)
Inductive prefaced (width : nat) : JsonConstrainer -> list nat -> JsonConstrainer -> Prop :=
  | pre_stop c : prefaced width c [] c
  | pre_token c budget tok toks c' :
      permitted (set_remaining_budget c budget) width tok ->
      (Gate.absorb (preamble c) (Z.of_nat tok) (token_texts c !!! tok)).2 = true ->
      prefaced width (update (apply_mask false (set_remaining_budget c budget) (replicate width true)).1 (Z.of_nat tok)) toks c' ->
      prefaced width c (tok :: toks) c'.

(** It changes the gate and the budget only. *)
Lemma prefaced_ready width c toks c' :
  prefaced width c toks c' -> ready c ->
  ready c' /\ fsm c' = fsm c /\ token_texts c' = token_texts c /\ eos_ids c' = eos_ids c.
Proof.
  induction 1 as [c|c budget tok toks c' _ Hab _ IH]; intros Hr; [done|].
  set (b := set_remaining_budget c budget) in *.
  assert ((apply_mask false b (replicate width true)).1 = b) as E.
  { unfold apply_mask. case_match; [done|]. apply Gate.absorb_active_gate in Hab.
    change (preamble b) with (preamble c). by rewrite Hab. }
  rewrite E in IH.
  assert (exists g, update b (Z.of_nat tok) = with_fsm b (fsm b) g) as (g & Eu).
  { unfold update. case_match; [exists (preamble b); by destruct b|]. rewrite Nat2Z.id.
    change (preamble b) with (preamble c). change (token_texts b) with (token_texts c).
    destruct (Gate.absorb _ _ _) as [g absorbed]. cbn [snd] in Hab. subst absorbed. by exists g. }
  rewrite Eu in IH. destruct Hr as [[] ? ? ? ?]. apply IH. constructor; try done.
Qed.

(** What a step leaves unchanged. *)
Record same_vocab (c c' : JsonConstrainer) : Prop := {
  sv_texts : token_texts c' = token_texts c;
  sv_eos : eos_ids c' = eos_ids c;
  sv_gate : Gate.state (preamble c') = Gate.state (preamble c)
}.

Lemma build_allow_with c w : exists forced allow, build_allow c w = with_allow c forced allow.
Proof. unfold build_allow. repeat case_match; by eexists _, _. Qed.

Lemma update_step c width tok text f' :
  masking c -> Gate.state (preamble c) = Gate.OFF -> token_texts c !! tok = Some text -> strict_run (fsm c) text = Some f' ->
  exists forced allow,
    update (apply_mask false c (replicate width true)).1 (Z.of_nat tok) = with_fsm (with_allow c forced allow) f' (preamble c).
Proof.
  intros [Hw Hi Hdc Hdm Hda Hg] Hoff Ht Hrun. unfold apply_mask. rewrite Hi, Hdc, Hdm, Hg. cbn [negb orb].
  destruct (build_allow_with c (Z.of_nat (length (replicate width true)))) as (forced & allow & E). rewrite E.
  change (dev_token_allow (with_allow c forced allow)) with (dev_token_allow c). rewrite Hda. cbn [negb fst].
  exists forced, allow. unfold update. cbn [vocab_size token_texts preamble fsm with_allow].
  pose proof (lookup_lt_Some _ _ _ Ht) as Hlt. pose proof (wj_texts c Hw) as Hv.
  rewrite (proj2 (Z.ltb_ge (Z.of_nat tok) 0)), (proj2 (Z.leb_gt (vocab_size c) (Z.of_nat tok))) by lia. cbn [orb].
  rewrite Nat2Z.id, (list_lookup_total_correct _ _ _ Ht). unfold Gate.absorb. rewrite Hoff.
  by rewrite (strict_run_advance_text _ _ _ Hrun).
Qed.

Lemma masking_step c width budget tok :
  masking c -> Gate.state (preamble c) = Gate.OFF -> permitted (set_remaining_budget c budget) width tok -> is_eos c tok = false ->
  let c' := update (apply_mask false (set_remaining_budget c budget) (replicate width true)).1 (Z.of_nat tok) in
  masking c' /\ same_vocab c c' /\ strict_run (fsm c) (token_texts c !!! tok) = Some (fsm c').
Proof.
  intros Hm Hg Hp He. set (b := set_remaining_budget c budget) in *.
  assert (Hmb : masking b) by (destruct Hm as [[] ? ? ? ? ?]; by constructor).
  destruct (mask_sound_cases b width tok Hmb Hp) as (text & Ht & Hcase).
  change (is_eos b tok) with (is_eos c tok) in Hcase. rewrite He in Hcase.
  destruct Hcase as [[_ Hsim]|[[? _]|[? _]]]; [|done..].
  unfold sim_token_valid in Hsim. destruct (strict_run (fsm b) text) as [f'|] eqn:Erun; [|done].
  destruct (update_step b width tok text f' Hmb Hg Ht Erun) as (forced & allow & ->).
  pose proof (strict_run_wf _ _ _ (wj_fsm c (mk_wf c Hm)) Erun) as Hf'. split_and!; [|done|].
  - destruct Hm as [[] ? ? ? ? ?]. by constructor.
  - change (token_texts b) with (token_texts c) in Ht. by rewrite (list_lookup_total_correct _ _ _ Ht).
Qed.

Lemma generates_run width c toks c' :
  generates width c toks c' -> masking c -> Gate.state (preamble c) = Gate.OFF ->
  masking c' /\ same_vocab c c' /\ strict_run (fsm c) (reply_text c toks) = Some (fsm c').
Proof.
  induction 1 as [c|c budget tok toks c' Hp He _ IH]; intros Hm Hg; [done|].
  destruct (masking_step c width budget tok Hm Hg Hp He) as (Hm1 & [Ht Heq Hs] & Hrun).
  destruct IH as (Hm2 & [Ht2 Heq2 Hs2] & Hrun2); [done|by rewrite Hs|]. split_and!; [done|constructor; congruence|].
  unfold reply_text in *. cbn [fmap list_fmap concat]. rewrite strict_run_app, Hrun. cbn [mbind option_bind]. by rewrite Ht in Hrun2.
Qed.

(** C28: with a vocabulary that has the basic single-byte tokens, a reply whose
    tokens were all permitted by the mask, whatever the budgets, and at whose end
    EOS is permitted, is a JSON document of the dialect.  The reply is counted
    from where the preamble gate is off: at once, or after a preamble of any
    tokens the gate absorbed (while it is active nothing is masked, EOS
    included). *)
Theorem json_reply_is_document c0 pre c width toks c' budget eos :
  ready c0 -> fsm c0 = init_fsm -> basic_vocabulary c0 width ->
  prefaced width c0 pre c -> Gate.state (preamble c) = Gate.OFF -> generates width c toks c' ->
  permitted (set_remaining_budget c' budget) width eos -> is_eos c' eos = true ->
  Lax.document (reply_text c0 toks).
Proof.
  intros Hr0 Hf0 Hb0 Hpre Hg Hgen Hp He. destruct (prefaced_ready _ _ _ _ Hpre Hr0) as (Hr & Hf & Ht0 & He0). rewrite Hf0 in Hf.
  assert (Hb : basic_vocabulary c width) by (intros x Hx; unfold is_eos; rewrite Ht0, He0; apply (Hb0 x Hx)).
  replace (reply_text c0 toks) with (reply_text c toks) by (unfold reply_text; by rewrite Ht0).
  pose proof (ready_masking c Hr Hg) as Hm. destruct (generates_run _ _ _ _ Hgen Hm Hg) as (Hm' & [Ht Heq _] & Hrun).
  set (b := set_remaining_budget c' budget) in *.
  assert (Hmb : masking b) by (destruct Hm' as [[] ? ? ? ? ?]; by constructor).
  apply Rem_init, Rem_run; [apply init_wf|]. rewrite <- Hf. exists (fsm c'). split; [done|].
  destruct (decide (current_state (fsm b) = DONE)) as [|Hd]; [done|]. exfalso.
  assert (Hbb : basic_vocabulary b width).
  { intros x Hx. unfold b, is_eos. cbn. rewrite Ht, Heq. apply (Hb x Hx). }
  destruct (some_allowed b width (mk_wf b Hmb) Hbb Hd) as (j & text & Hj & Hjt & Ha).
  change (is_eos c' eos) with (is_eos b eos) in He.
  destruct (mask_sound_cases b width eos Hmb Hp) as (t & _ & [[H _]|[[_ H]|[_ H]]]); [congruence|done|].
  by rewrite (H j text Hj Hjt) in Ha.
Qed.

(** The decode loop as a function, for given budgets. *)
Fixpoint run_reply (width : nat) (c : JsonConstrainer) (steps : list (Z * nat)) : option JsonConstrainer :=
  match steps with
  | [] => Some c
  | (budget, tok) :: rest =>
      let (b, logits) := apply_mask false (set_remaining_budget c budget) (replicate width true) in
      if bool_decide (logits !! tok = Some true) && negb (is_eos c tok) then run_reply width (update b (Z.of_nat tok)) rest else None
  end.

Lemma run_reply_generates width c steps c' : run_reply width c steps = Some c' -> generates width c (steps.*2) c'.
Proof.
  revert c. induction steps as [|[budget tok] steps IH]; intros c; cbn [run_reply fmap list_fmap]; [intros [= <-]; constructor|].
  destruct (apply_mask _ _ _) as [b logits] eqn:E.
  destruct (bool_decide_reflect (logits !! tok = Some true)) as [Hl|]; [|done]. cbn [andb].
  destruct (is_eos c tok) eqn:He; [done|]. intros H. apply (gen_token _ _ budget); [|done|].
  - unfold permitted. by rewrite E.
  - rewrite E. by apply IH.
Qed.

(** A vocabulary of the basic bytes, an opening bracket, a two-byte closer and an
    EOS id, with the logits two wider than it. *)
Definition sample_tokenizer : Tokenizer :=
  MkTokenizer (((fun b => [b]) <$> basic_bytes) ++ [[ch_lbracket]; [ch_rbracket; ch_rbrace]; src_of "<eos>"]) [] ∅ 1 [17] ∅ [] [] "default"%string true.

Definition sample_json : JsonConstrainer := (init new_constrainer false sample_tokenizer DeviceOk DeviceOk DeviceOk).1.

Lemma sample_masking : masking sample_json.
Proof. constructor; try done. constructor; [apply init_wf|done|by vm_compute]. Qed.

Lemma sample_basic : basic_vocabulary sample_json 20.
Proof.
  assert (H : forallb (fun b => existsb (fun i => bool_decide (token_texts sample_json !! i = Some [b]) && negb (is_eos sample_json i))
    (seq 0 18)) basic_bytes = true) by by vm_compute.
  intros b Hb. apply list_elem_of_In in Hb. rewrite forallb_forall in H. specialize (H b Hb).
  apply existsb_exists in H as (i & Hi & H). apply andb_true_iff in H as [H1%bool_decide_eq_true H2%negb_true_iff].
  exists i. split_and!; try done. apply in_seq in Hi. change (length (token_texts sample_json)) with 18%nat. lia.
Qed.

(** [{"e":[0]}] with the last two brackets as one token, then EOS; the budget
    runs out and closing is forced for the last tokens. *)
Definition sample_steps : list (Z * nat) := [(9, 0%nat); (8, 4%nat); (7, 7%nat); (6, 4%nat); (5, 3%nat); (4, 15%nat); (3, 5%nat); (2, 16%nat)].

(** The same with a thinking block the template left open: the reply starts after
    the second token of the preamble, the closing marker. *)
Definition think_tokenizer : Tokenizer :=
  MkTokenizer (vocab_ sample_tokenizer ++ [src_of "</think>"]) [] ∅ 1 [17] ∅ [] [] "default"%string true.
Definition think_json : JsonConstrainer :=
  reset (set_preamble (init new_constrainer false think_tokenizer DeviceOk DeviceOk DeviceOk).1 18 8192 true).
Definition think_step (c : JsonConstrainer) (tok : nat) : JsonConstrainer :=
  update (apply_mask false (set_remaining_budget c 100) (replicate 20 true)).1 (Z.of_nat tok).
Definition think_closed : JsonConstrainer := think_step (think_step think_json 17) 18.

Lemma json_think_prefaced : prefaced 20 think_json [17; 18]%nat think_closed.
Proof. do 2 (apply (pre_token _ _ 100); [by vm_compute|by vm_compute|]). apply pre_stop. Qed.

Lemma think_ready : ready think_json.
Proof. constructor; try done. constructor; [apply init_wf|done|by vm_compute]. Qed.

Lemma think_basic : basic_vocabulary think_json 20.
Proof.
  intros b Hb. destruct (sample_basic b Hb) as (i & Hi & Ht & He). exists i.
  change (token_texts think_json) with (token_texts sample_json ++ [src_of "</think>"]).
  pose proof (lookup_lt_Some _ _ _ Ht). rewrite lookup_app_l, length_app by done. simpl.
  split_and!; [|done|exact He]. simpl length in *. lia.
Qed.

Lemma json_reply_is_document_witness :
  reply_text think_json (sample_steps.*2) = [123; 34; 101; 34; 58; 91; 48; 93; 125] /\
  Lax.document (reply_text think_json (sample_steps.*2)).
Proof.
  split; [by vm_compute|].
  destruct (run_reply 20 think_closed sample_steps) as [c'|] eqn:E; [|by vm_compute in E].
  apply (json_reply_is_document think_json [17; 18]%nat think_closed 20 _ c' 1 17 think_ready eq_refl think_basic json_think_prefaced).
  - by vm_compute.
  - by apply run_reply_generates.
  - vm_compute in E. injection E as <-. by vm_compute.
  - vm_compute in E. injection E as <-. by vm_compute.
Defined.

Lemma mask_sound_witness :
  permitted sample_json 20 15 /\
  exists text, token_texts sample_json !! 15%nat = Some text /\
    ((is_eos sample_json 15 = false /\ sim_token_valid (fsm sample_json) text = true) \/
     (is_eos sample_json 15 = true /\ current_state (fsm sample_json) = DONE) \/
     (is_eos sample_json 15 = true /\
      forall j text', (j < Nat.min 20 (length (token_texts sample_json)))%nat -> token_texts sample_json !! j = Some text' ->
        token_allowed (fsm sample_json) (state_mask (fsm sample_json)) (cat_at sample_json j text') text' = false)).
Proof.
  assert (H : permitted sample_json 20 15) by by vm_compute. split; [exact H|].
  exact (mask_sound sample_json 20 15 sample_masking H).
Defined.
