(* ===== verification/JsonLimits.v ===== *)
(** * JSON mode: forced closing, escapes, and the preamble

    When forced closing can finish a document within its estimate, what the
    token categories keep out of strings, and how many tokens the preamble gate
    can keep from the mask. *)

From Corelib Require Import ssreflect_rw.
From stdpp Require Import prelude list strings.
From S2P Require Import Prelude StreamPipeline ByteLevel Languages AllowLists JsonFsm JsonLanguage JsonExact PreambleGate JsonMask JsonTheorems.
Import JsonState.
Open Scope Z_scope.

(** ** Forced closing *)

(** Single bytes that pass the narrowed mask, each read legally. *)
Fixpoint forced_run (f : JsonFsm) (w : bytes) : option JsonFsm :=
  match w with
  | [] => Some f
  | b :: rest =>
      if Z.land (classify_token [b]) (force_close_mask f) =? 0 then None
      else match advance_char f b with (f', true) => forced_run f' rest | (_, false) => None end
  end.

Lemma forced_run_step f b w f' :
  Z.land (classify_token [b]) (force_close_mask f) ≠ 0 -> advance_char f b = (f', true) ->
  forced_run f (b :: w) = forced_run f' w.
Proof. intros Hm Ha. cbn [forced_run]. by rewrite (proj2 (Z.eqb_neq _ _) Hm), Ha. Qed.

Definition is_value_end (s : JsonState) : bool := match s with AFTER_VALUE | ARRAY_AFTER_VALUE => true | _ => false end.

(** States whose open structures need only their closers: no key, literal name
    or unfinished number is pending, and no element is owed after a comma. *)
Definition closable (f : JsonFsm) : bool :=
  forallb is_value_end (state_stack f) &&
  match current_state f with
  | OBJECT_START | AFTER_VALUE | ARRAY_START | ARRAY_AFTER_VALUE | IN_STRING | IN_STRING_ESCAPE => true
  | IN_NUMBER => negb (num_need_digit f)
  | _ => false
  end.

Definition can_close (s : JsonState) : bool :=
  match s with OBJECT_START | AFTER_VALUE | ARRAY_START | ARRAY_AFTER_VALUE => true | _ => false end.

Lemma close_step f b :
  wf_fsm f -> can_close (current_state f) = true -> close_state (current_state f) = [b] ->
  Z.land (classify_token [b]) (force_close_mask f) ≠ 0 /\ advance_char f b = (pop_state (with_ws f 0), true).
Proof.
  intros Hf Hs Hb. rewrite advance_char_flat by done. unfold force_close_mask, in_escape_state, in_string_state, advance_flat, advance_here.
  cbn [with_ws current_state]. destruct (current_state f); try done; injection Hb as <-; by split.
Qed.

(** One byte closes the current container and every frame of the stack. *)
Lemma forced_close_stack f :
  wf_fsm f -> can_close (current_state f) = true -> forallb is_value_end (state_stack f) = true ->
  exists f', forced_run f (close_state (current_state f) ++ concat (close_state <$> state_stack f)) = Some f' /\
    current_state f' = DONE.
Proof.
  remember (state_stack f) as k eqn:Hk. revert f Hk. induction k as [|s k IH]; intros f Hk Hf Hs Hv.
  all: destruct (close_state (current_state f)) as [|b [|]] eqn:Eb; [by destruct (current_state f)|
    |by destruct (current_state f)];
    destruct (close_step f b Hf Hs Eb) as [Hm Ha]; cbn [app fmap list_fmap concat]; rewrite (forced_run_step _ _ _ _ Hm Ha).
  - unfold pop_state. cbn [with_ws state_stack]. rewrite <- Hk. by eexists.
  - apply andb_true_iff in Hv as [Hs' Hv]. pose proof (pop_state_wf _ (with_ws_wf f 0 Hf)) as Hp. revert Hp.
    unfold pop_state. cbn [with_ws state_stack]. rewrite <- Hk. intros Hp.
    apply (IH (with_state (with_ws f 0) s k) eq_refl Hp); [by destruct s|done].
Qed.

Lemma closers_length k : forallb is_value_end k = true -> length (concat (close_state <$> k)) = length k.
Proof. induction k as [|s k IH]; cbn; [done|]. intros [Hs Hk]%andb_true_iff. rewrite length_app, IH by done. by destruct s. Qed.

(** After the construct inside it ends, the enclosing frames close. *)
Lemma forced_close_pop f :
  wf_fsm f -> forallb is_value_end (state_stack f) = true ->
  exists f', forced_run (pop_state f) (concat (close_state <$> state_stack f)) = Some f' /\ current_state f' = DONE.
Proof.
  intros Hf Hv. pose proof (pop_state_wf f Hf) as Hp. destruct (pop_state_cases f Hf) as [(s & k & Hk & _ & E)|(Hk & E)];
    rewrite E in *; rewrite Hk in *; cbn [fmap list_fmap concat]; [|by eexists].
  apply andb_true_iff in Hv as [Hs Hv]. apply (forced_close_stack (with_state f s k) Hp); [by destruct s|done].
Qed.

Lemma forced_close_string f :
  wf_fsm f -> current_state f = IN_STRING -> forallb is_value_end (state_stack f) = true ->
  exists f', forced_run f (ch_quote :: concat (close_state <$> state_stack f)) = Some f' /\ current_state f' = DONE.
Proof.
  intros Hf Es Hv. cbn [forced_run]. unfold force_close_mask, in_escape_state, in_string_state. rewrite Es, advance_char_flat by done.
  unfold advance_flat, advance_here. cbn [with_ws current_state]. rewrite Es.
  apply (forced_close_pop (with_ws f 0)); [by apply with_ws_wf|done].
Qed.

Lemma forced_close_number f :
  wf_fsm f -> current_state f = IN_NUMBER -> num_need_digit f = false -> forallb is_value_end (state_stack f) = true ->
  exists f', forced_run f (concat (close_state <$> state_stack f)) = Some f' /\ current_state f' = DONE.
Proof.
  intros Hf Es Hn Hv. destruct (pop_state_cases f Hf) as [(s & k & Hk & _ & E)|(Hk & _)]; [|by destruct (wf_open f Hf Es)].
  pose proof (forced_close_pop f Hf Hv) as H. pose proof (pop_state_wf f Hf) as Hp. rewrite E in H, Hp. rewrite Hk in H, Hv |- *.
  apply andb_true_iff in Hv as [Hs Hv].
  assert (Hb : exists b, close_state s = [b] /\ is_ws b = false /\ number_char (with_ws f 0) b = None).
  { destruct s; try done; by eexists. }
  destruct Hb as (b & Eb & Hw & Hnc). cbn [fmap list_fmap concat] in H |- *. rewrite Eb in H |- *. cbn [app] in H |- *.
  destruct (close_step (with_state f s k) b Hp) as [Hm Ha]; [by destruct s|done|].
  rewrite (forced_run_step _ _ _ _ Hm Ha) in H. rewrite (forced_run_step f b _ (pop_state (with_ws (with_state f s k) 0))); [done| |].
  - unfold force_close_mask, in_escape_state, in_string_state in *. rewrite Es. by destruct s.
  - rewrite <- Ha, !advance_char_flat by done. unfold advance_flat at 1. rewrite Es, Hw, Hnc, Hn, E.
    unfold advance_flat. rewrite Hw. by destruct s.
Qed.

(** Evaluates the state comparisons of the source. *)
Ltac eval_decides :=
  repeat match goal with
         | |- context [bool_decide ?P] => let b := eval vm_compute in (bool_decide P) in change (bool_decide P) with b
         end.

(** C30: where only closers are owed, the bytes of [completion] all pass the
    narrowed mask and end the document, and they are no more than the tokens the
    constrainer reserves for closing. *)
Theorem force_close_enough f :
  reachable f -> closable f = true ->
  Z.of_nat (length (completion f)) <= needed f /\
  exists f', forced_run f (completion f) = Some f' /\ current_state f' = DONE.
Proof.
  intros Hf%reachable_wf [Hv Hs]%andb_true_iff.
  unfold completion, close_current, needed, in_escape_state, in_string_state. rewrite length_app, closers_length by done. split.
  - rewrite Nat2Z.inj_add. generalize (Z.of_nat (length (state_stack f))). intros n.
    destruct (current_state f); try done; try (destruct (num_need_digit f); [done|]);
      eval_decides; cbn [orb length close_state]; lia.
  - destruct (current_state f) eqn:Es; try done;
      try (rewrite <- Es; apply forced_close_stack; [done|by rewrite Es|done]).
    + by apply forced_close_string.
    + cbn [app forced_run]. unfold force_close_mask, in_escape_state. rewrite Es, advance_char_flat by done.
      unfold advance_flat, advance_here. cbn [with_ws current_state]. rewrite Es.
      apply (forced_close_string (goto (with_ws f 0) IN_STRING)); [|done|done].
      apply goto_wf; [by apply with_ws_wf|auto].
    + destruct (num_need_digit f) eqn:En; [done|]. by apply forced_close_number.
Qed.

(** An open escape in a string in an object in an array: closed by one escaped
    byte, a quote, a brace and a bracket. *)
Lemma force_close_enough_witness :
  exists f f', strict_run init_fsm [ch_lbracket; ch_lbrace; ch_quote; 97; ch_quote; ch_colon; ch_quote; 120; ch_backslash] = Some f /\
    needed f = 5 /\ completion f = [48; ch_quote; ch_rbrace; ch_rbracket] /\
    forced_run f (completion f) = Some f' /\ current_state f' = DONE.
Proof.
  destruct (strict_run init_fsm [ch_lbracket; ch_lbrace; ch_quote; 97; ch_quote; ch_colon; ch_quote; 120; ch_backslash])
    as [f|] eqn:E; [|by vm_compute in E].
  assert (Hc : closable f = true) by (vm_compute in E; by injection E as <-).
  destruct (force_close_enough f (ex_intro _ _ E) Hc) as [_ (f' & H1 & H2)]. exists f, f'.
  split_and!; try done; vm_compute in E; by injection E as <-.
Defined.

(** The narrowed mask looks at a token's first byte only: a token that closes an
    object and opens the next one is allowed too, and leaves as much open. *)
Example force_close_reopens :
  match strict_run init_fsm (src_of "[{") with
  | Some f =>
      let token := src_of "},{" in
      token_allowed f (force_close_mask f) (classify_token token) token = true /\
      needed f = 2 /\ needed (advance_text f token) = 2
  | None => False
  end.
Proof. by vm_compute. Qed.

(** ** Escapes *)

Lemma forallb_false {A} (p : A -> bool) l x : x ∈ l -> p x = false -> forallb p l = false.
Proof.
  intros Hin Hp. apply not_true_iff_false. intros H. rewrite forallb_forall in H. apply list_elem_of_In in Hin.
  rewrite (H x Hin) in Hp. done.
Qed.

(** A token with a backslash has only the category of its first byte. *)
Lemma classify_backslash text c rest :
  text = c :: rest -> ch_backslash ∈ text -> classify_token text = structural_cat c.
Proof.
  intros -> Hin. destruct rest as [|d rest].
  - apply list_elem_of_singleton in Hin as <-. done.
  - cbn [classify_token]. unfold classify_long.
    rewrite !(forallb_false _ (c :: d :: rest) ch_backslash Hin) by done. cbn [andb when]. by rewrite !Z.lor_0_r.
Qed.

Lemma structural_in_string c f :
  current_state f = IN_STRING \/ current_state f = IN_STRING_ESCAPE ->
  Z.land (structural_cat c) (state_mask f) ≠ 0 \/ Z.land (structural_cat c) (force_close_mask f) ≠ 0 -> c = ch_quote.
Proof.
  intros Hs H. destruct (Z.eqb_spec c ch_quote) as [|Hq]; [done|]. exfalso. revert H.
  unfold structural_cat, state_mask, force_close_mask, in_escape_state, in_string_state. rewrite (proj2 (Z.eqb_neq _ _) Hq).
  destruct Hs as [-> | ->]; destruct (ws_run f <? kMaxWsRun), (c =? ch_lbrace), (c =? ch_rbrace), (c =? ch_lbracket), (c =? ch_rbracket),
    (c =? ch_colon), (c =? ch_comma); by intros [H|H].
Qed.

(** Inside a string, a permitted token that contains a backslash starts by
    closing the string; so no escape sequence continues an open string. *)
Theorem no_escape_in_open_string c width i text :
  masking c -> permitted c width i -> is_eos c i = false ->
  current_state (fsm c) = IN_STRING \/ current_state (fsm c) = IN_STRING_ESCAPE ->
  token_texts c !! i = Some text -> ch_backslash ∈ text -> exists rest, text = ch_quote :: rest.
Proof.
  intros Hm Hp He Hs Ht Hin. destruct (permitted_cases c width i Hm Hp) as (text' & Ht' & [(mask & Hmask & Ha)|[H _]]); [|congruence].
  rewrite Ht in Ht'. injection Ht' as <-. destruct text as [|b rest]; [inversion Hin|].
  rewrite token_allowed_spec in Ha by apply (mk_wf c Hm). apply andb_true_iff in Ha as [Ha _].
  apply negb_true_iff, Z.eqb_neq in Ha. unfold cat_at in Ha. rewrite He, (classify_backslash _ b rest eq_refl Hin) in Ha.
  exists rest. f_equal. apply (structural_in_string b (fsm c) Hs). destruct Hmask as [-> | ->]; auto.
Qed.

(** A vocabulary with the token backslash-n and one that closes a string first. *)
Definition escape_tokenizer : Tokenizer :=
  MkTokenizer [[ch_lbrace; ch_quote]; [ch_backslash; ch_n]; [ch_quote; ch_colon; ch_quote; ch_backslash]; src_of "<eos>"]
    [] ∅ 1 [3] ∅ [] [] "default"%string true.

Definition escape_json : JsonConstrainer := update (init new_constrainer false escape_tokenizer DeviceOk DeviceOk DeviceOk).1 0.

Lemma escape_masking : masking escape_json.
Proof.
  constructor; try done. constructor; [|done|by vm_compute].
  apply (strict_run_wf init_fsm [ch_lbrace; ch_quote] _ init_wf). by vm_compute.
Qed.

Lemma no_escape_in_open_string_witness :
  permitted escape_json 4 2 /\ ~ permitted escape_json 4 1 /\
  exists rest, [ch_quote; ch_colon; ch_quote; ch_backslash] = ch_quote :: rest.
Proof.
  assert (H : permitted escape_json 4 2) by by vm_compute. split_and!; [exact H|by vm_compute|].
  apply (no_escape_in_open_string escape_json 4 2 _ escape_masking H eq_refl (or_introl eq_refl) eq_refl).
  apply (bool_decide_eq_true_1 (ch_backslash ∈ [ch_quote; ch_colon; ch_quote; ch_backslash])). reflexivity.
Defined.

(** ** The preamble gate *)

Lemma gate_off_forwards g reply : Gate.state g = Gate.OFF -> Gate.forwarded g reply = reply.
Proof.
  intros Hg. induction reply as [|[tok text] reply IH]; [done|]. cbn. unfold Gate.absorb. rewrite Hg. by rewrite IH.
Qed.

(** An active gate with no tools: what one token does. *)
Lemma absorb_plain g tok text :
  Gate.state g = Gate.ACTIVE -> Gate.open_tokens g = [] -> Gate.open_prefix g = [] ->
  Gate.absorb g tok text =
    if (0 <=? Gate.close_token g) && (tok =? Gate.close_token g) then (Gate.with_run g Gate.OFF (Gate.seen g + 1) (Gate.char_buf g), true)
    else Gate.absorb_text g (Gate.seen g + 1) (Gate.char_buf g) text.
Proof.
  intros Hs Ho Hp. unfold Gate.absorb, Gate.absorb_active, Gate.tool_detection_active, Gate.is_tool_open_token.
  rewrite Hs, Ho, Hp. cbn [existsb]. rewrite andb_false_r. by case_match.
Qed.

Lemma forwarded_suffix g reply :
  Gate.state g = Gate.ACTIVE -> Gate.open_tokens g = [] -> Gate.open_prefix g = [] ->
  (0 < Gate.max_tokens g -> Gate.seen g < Gate.max_tokens g) ->
  exists k, Gate.forwarded g reply = drop k reply /\
    (0 < Gate.max_tokens g -> Z.of_nat k <= Gate.max_tokens g - Gate.seen g) /\
    Forall (fun p => Gate.opens_json p.2 = false \/ p.1 = Gate.close_token g) (take k reply).
Proof.
  revert g. induction reply as [|[tok text] reply IH]; intros g Hs Ho Hp Hb.
  { exists 0%nat. split_and!; [done|lia|constructor]. }
  cbn [Gate.forwarded]. rewrite absorb_plain by done.
  destruct ((0 <=? Gate.close_token g) && (tok =? Gate.close_token g)) eqn:Ec.
  - apply andb_true_iff in Ec as [_ Ec%Z.eqb_eq]. exists 1%nat. rewrite gate_off_forwards by done.
    split_and!; [done|lia|]. constructor; [by right|constructor].
  - unfold Gate.absorb_text. destruct (Gate.opens_json text) eqn:Ej.
    { exists 0%nat. rewrite gate_off_forwards by done. split_and!; [done|lia|constructor]. }
    destruct ((0 <? Gate.max_tokens g) && (Gate.max_tokens g <=? Gate.seen g + 1)) eqn:Eb.
    + exists 1%nat. rewrite gate_off_forwards by done. split_and!; [done|lia|]. constructor; [by left|constructor].
    + destruct (IH (Gate.with_run g Gate.ACTIVE (Gate.seen g + 1) (Gate.char_buf g))) as (k & Hk & Hkb & Hf); try done.
      { cbn. lia. }
      exists (S k). cbn in Hkb, Hf. split_and!; [done|lia|]. constructor; [by left|done].
Qed.

(** Without tools, the gate keeps only a prefix of the reply from the
    constrainer, at most as many tokens as its budget when it has one, and none
    of them opens a JSON document unless it is the close token itself. *)
Theorem preamble_is_prefix close max thinking reply :
  exists k, Gate.forwarded (Gate.configure close max thinking) reply = drop k reply /\
    (0 < max -> Z.of_nat k <= max) /\
    Forall (fun p => Gate.opens_json p.2 = false \/ p.1 = close) (take k reply).
Proof.
  set (g := Gate.configure close max thinking).
  assert (Hg : Gate.state g = Gate.OFF \/ Gate.state g = Gate.ACTIVE).
  { unfold g, Gate.configure, Gate.configure_with_tools, Gate.reset. cbn. case_match; auto. }
  destruct Hg as [Hg|Hg].
  - exists 0%nat. rewrite gate_off_forwards by done. split_and!; [done|lia|constructor].
  - assert (Hmax : Gate.max_tokens g = if 0 <? max then max else 0) by done.
    destruct (forwarded_suffix g reply Hg eq_refl eq_refl) as (k & Hk & Hb & Hf).
    { change (Gate.seen g) with 0. rewrite Hmax. lia. }
    exists k. split_and!; [done| |done]. intros Hm. rewrite Hmax, (proj2 (Z.ltb_lt 0 max) Hm) in Hb.
    change (Gate.seen g) with 0 in Hb. lia.
Qed.
