(* ===== verification/RegexNfa.v ===== *)
(** * The regex engine

    Models [RegexNfa] of [src/compute/json_schema.h] and [json_schema.cpp], the
    Thompson automaton behind JSON-Schema [pattern] and regex-constrained
    replies: the recursive-descent parser that builds the automaton while it
    reads, and the set simulation.  State numbers are those of the code.

    A parsing function returns what is left of the source with its fragment.
    [Bad] is the code's [false]; there [error_] adds nothing, since every caller
    returns [false] at once.  [Overflow] is a repetition count beyond [long],
    which C++ leaves undefined. *)

From Corelib Require Import ssreflect_rw.
From stdpp Require Import prelude list sorting.
From S2P Require Import Prelude StreamPipeline.
Open Scope Z_scope.

Inductive res (A : Type) : Type := Ok (a : A) | Bad | Overflow | NoFuel.
Arguments Ok {A} a.
Arguments Bad {A}.
Arguments Overflow {A}.
Arguments NoFuel {A}.

Definition rbind {A B} (x : res A) (f : A -> res B) : res B :=
  match x with Ok a => f a | Bad => Bad | Overflow => Overflow | NoFuel => NoFuel end.

Notation "'do' p <- x ; k" := (rbind x (fun p => k)) (at level 200, p pattern, x at level 100, k at level 200).

(** [pos_ < size && src[pos_] == c], then [pos_++]. *)
Definition eat (c : Z) (s : bytes) : option bytes :=
  match s with
  | x :: s' => if x =? c then Some s' else None
  | [] => None
  end.

(** ** The automaton *)

Record NfaEdge := mkEdge { e_to : nat; is_epsilon : bool; char_class : list bool }.
Record NfaState := mkNfaState { edges : list NfaEdge; accepting : bool }.
Record Frag := mkFrag { start : nat; accept : nat }.

Notation states := (list NfaState).

Definition new_state (N : states) : nat * states := (length N, N ++ [mkNfaState [] false]).

Definition push_edge (e : NfaEdge) (st : NfaState) : NfaState := mkNfaState (edges st ++ [e]) (accepting st).

Definition add_epsilon (from to : nat) (N : states) : states := alter (push_edge (mkEdge to true [])) from N.
Definition add_edge (from to : nat) (cls : list bool) (N : states) : states := alter (push_edge (mkEdge to false cls)) from N.

(** ** Byte classes *)

(** The 256 entries of a class. *)
Definition table (p : Z -> bool) : list bool := (fun i => p (Z.of_nat i)) <$> seq 0 256.

Definition class_has (cls : list bool) (c : Z) : bool := (0 <=? c) && default false (cls !! Z.to_nat c).

Definition is_word (c : Z) : bool :=
  ((97 <=? c) && (c <=? 122)) || ((65 <=? c) && (c <=? 90)) || ((48 <=? c) && (c <=? 57)) || (c =? 95).
Definition is_digit (c : Z) : bool := (48 <=? c) && (c <=? 57).
Definition is_space (c : Z) : bool := (c =? 32) || (c =? 9) || (c =? 10) || (c =? 13) || (c =? 12) || (c =? 11).

Definition make_shorthand (esc : Z) : option (Z -> bool) :=
  if esc =? 100 then Some is_digit
  else if esc =? 68 then Some (fun c => negb (is_digit c))
  else if esc =? 119 then Some is_word
  else if esc =? 87 then Some (fun c => negb (is_word c))
  else if esc =? 115 then Some is_space
  else if esc =? 83 then Some (fun c => negb (is_space c))
  else None.

(** The byte an escaped letter stands for, outside and inside a class. *)
Definition atom_escape (esc : Z) : Z :=
  if esc =? 110 then 10 else if esc =? 116 then 9 else if esc =? 114 then 13 else if esc =? 102 then 12
  else if esc =? 118 then 11 else esc.
Definition class_escape (esc : Z) : Z := if esc =? 110 then 10 else if esc =? 116 then 9 else if esc =? 114 then 13 else esc.

(** The loop of [parse_class]: what is left from the closing bracket on, the
    bytes of the class, and whether it has an entry.  [fuel] is the length left. *)
Fixpoint class_items (fuel : nat) (cls : Z -> bool) (any : bool) (s : bytes) : res ((Z -> bool) * bool * bytes) :=
  match fuel with
  | O => NoFuel
  | S fuel =>
      match s with
      | [] => Ok (cls, any, [])
      | c :: s1 =>
          if c =? 93 then Ok (cls, any, s)
          else if c =? 92 then
            match s1 with
            | [] => Bad
            | esc :: s2 =>
                match make_shorthand esc with
                | Some sc => class_items fuel (fun x => sc x || cls x) true s2
                | None => class_items fuel (fun x => (x =? class_escape esc) || cls x) true s2
                end
            end
          else
            match s1 with
            | dash :: hi :: s3 =>
                if (dash =? 45) && negb (hi =? 93) then
                  if hi <? c then Bad else class_items fuel (fun x => ((c <=? x) && (x <=? hi)) || cls x) true s3
                else class_items fuel (fun x => (x =? c) || cls x) true s1
            | _ => class_items fuel (fun x => (x =? c) || cls x) true s1
            end
      end
  end.

(** The entries and the closing bracket: the table and what follows it. *)
Definition class_body (negate : bool) (s : bytes) : res (list bool * bytes) :=
  do (cls, any, rest) <- class_items (S (length s)) (fun _ => false) false s;
  match eat 93 rest with
  | Some rest' => if any : bool then Ok (table (fun c => if negate then negb (cls c) else cls c), rest') else Bad
  | None => Bad
  end.

(** [parse_class] after the opening bracket. *)
Definition parse_class (s : bytes) : res (list bool * bytes) :=
  match eat 94 s with Some s' => class_body true s' | None => class_body false s end.

(** [new_state] twice and an edge on a class between them. *)
Definition class_frag (cls : list bool) (N : states) : Frag * states :=
  let (s, N) := new_state N in let (a, N) := new_state N in (mkFrag s a, add_edge s a cls N).

Definition epsilon_frag (N : states) : Frag * states :=
  let (s, N) := new_state N in let (a, N) := new_state N in (mkFrag s a, add_epsilon s a N).

(** ** Repetition counts *)

Definition kLongMax : Z := 2 ^ 63 - 1.

(** [scan_int]: the digits' value, if there is one, and what follows. *)
Fixpoint scan_digits (v : Z) (any : bool) (s : bytes) : res (option Z * bytes) :=
  match s with
  | c :: s' =>
      if is_digit c then
        let v := v * 10 + (c - 48) in if kLongMax <? v then Overflow else scan_digits v true s'
      else Ok (if any then Some v else None, s)
  | [] => Ok (if any then Some v else None, s)
  end.

Inductive quantifier : Type := QStar | QPlus | QOpt | QRange (n : Z) (m : option Z).

(** After an opening brace: the bounds up to the closing one; [None] where the
    brace starts no quantifier. *)
Definition parse_range (s : bytes) : res (option (quantifier * bytes)) :=
  do (n, r) <- scan_digits 0 false s;
  do (m, r) <- match eat 44 r with Some r' => scan_digits 0 false r' | None => Ok (n, r) end;
  match n, eat 125 r with
  | Some n, Some r' => Ok (Some (QRange n m, r'))
  | _, _ => Ok None
  end.

(** The quantifier at the head of the source, if one is there. *)
Definition parse_quantifier (s : bytes) : res (option (quantifier * bytes)) :=
  match s with
  | [] => Ok None
  | q :: r =>
      if q =? 42 then Ok (Some (QStar, r))
      else if q =? 43 then Ok (Some (QPlus, r))
      else if q =? 63 then Ok (Some (QOpt, r))
      else if q =? 123 then parse_range r
      else Ok None
  end.

(** ** The parser *)

(** The marker of a non-capturing group. *)
Definition skip_marker (s : bytes) : bytes :=
  match eat 63 s with Some s' => match eat 58 s' with Some s'' => s'' | None => s end | None => s end.

Section Parser.
(** [parse_alt], for the inside of a group. *)
Context (parse_inner : states -> bytes -> res (Frag * states * bytes)).

Definition parse_atom (N : states) (src : bytes) : res (Frag * states * bytes) :=
  match src with
  | [] => Bad
  | c :: s =>
      if c =? 40 then
        let s := skip_marker s in
        do (f, N, rest) <- parse_inner N s;
        match eat 41 rest with Some rest' => Ok (f, N, rest') | None => Bad end
      else if c =? 91 then
        do (cls, rest) <- parse_class s;
        let (f, N) := class_frag cls N in Ok (f, N, rest)
      else if (c =? 41) || (c =? 124) then Bad
      else if c =? 46 then let (f, N) := class_frag (table (fun x => negb (x =? 10))) N in Ok (f, N, s)
      else if c =? 92 then
        match s with
        | [] => Bad
        | esc :: s' =>
            let cls := match make_shorthand esc with Some sc => table sc | None => table (Z.eqb (atom_escape esc)) end in
            let (f, N) := class_frag cls N in Ok (f, N, s')
        end
      else if (c =? 94) || (c =? 36) then let (f, N) := epsilon_frag N in Ok (f, N, s)
      else let (f, N) := class_frag (table (Z.eqb c)) N in Ok (f, N, s)
  end.

(** The three one-character quantifiers. *)
Definition star_frag (atom : Frag) (N : states) : Frag * states :=
  let (s, N) := new_state N in let (a, N) := new_state N in
  (mkFrag s a, add_epsilon (accept atom) a (add_epsilon (accept atom) (start atom)
     (add_epsilon s a (add_epsilon s (start atom) N)))).

Definition plus_frag (atom : Frag) (N : states) : Frag * states :=
  let (s, N) := new_state N in let (a, N) := new_state N in
  (mkFrag s a, add_epsilon (accept atom) a (add_epsilon (accept atom) (start atom) (add_epsilon s (start atom) N))).

Definition opt_frag (atom : Frag) (N : states) : Frag * states :=
  let (s, N) := new_state N in let (a, N) := new_state N in
  (mkFrag s a, add_epsilon (accept atom) a (add_epsilon s a (add_epsilon s (start atom) N))).

(** [count] further copies in a row, from [cur]. *)
Fixpoint chain_copies (clone : states -> res (Frag * states)) (count : nat) (cur : nat) (N : states) : res (nat * states) :=
  match count with
  | O => Ok (cur, N)
  | S count =>
      do (f, N) <- clone N;
      chain_copies clone count (accept f) (add_epsilon cur (start f) N)
  end.

(** [count] optional copies, from [cur], each of which may be skipped to [a]. *)
Fixpoint optional_copies (clone : states -> res (Frag * states)) (count : nat) (cur a : nat) (N : states) : res (nat * states) :=
  match count with
  | O => Ok (cur, N)
  | S count =>
      do (f, N) <- clone N;
      optional_copies clone count (accept f) a (add_epsilon cur a (add_epsilon cur (start f) N))
  end.

(** The fragment of [atom{n,m}]; [None] for [m] is no upper bound. *)
Definition range_frag (clone : states -> res (Frag * states)) (atom : Frag) (n : Z) (m : option Z) (N : states) : res (Frag * states) :=
  let (s, N) := new_state N in
  let '(cur, N, built) := if 1 <=? n then (accept atom, add_epsilon s (start atom) N, 1) else (s, N, 0) in
  do (cur, N) <- chain_copies clone (Z.to_nat (n - built)) cur N;
  let (a, N) := new_state N in
  match m with
  | None =>
      do (f, N) <- clone N;
      let (ls, N) := new_state N in
      Ok (mkFrag s a, add_epsilon (accept f) a (add_epsilon (accept f) (start f)
            (add_epsilon ls a (add_epsilon ls (start f) (add_epsilon cur ls N)))))
  | Some m =>
      do (cur, N) <- optional_copies clone (Z.to_nat (m - n)) cur a N;
      Ok (mkFrag s a, add_epsilon cur a N)
  end.

(** [parse_repeat]; a clone parses the source of the atom again, one level down. *)
Fixpoint parse_repeat (fuel : nat) (N : states) (src : bytes) : res (Frag * states * bytes) :=
  match fuel with
  | O => NoFuel
  | S fuel =>
      do (atom, N, rest) <- parse_atom N src;
      do q <- parse_quantifier rest;
      match q with
      | None => Ok (atom, N, rest)
      | Some (QStar, rest) => let (f, N) := star_frag atom N in Ok (f, N, rest)
      | Some (QPlus, rest) => let (f, N) := plus_frag atom N in Ok (f, N, rest)
      | Some (QOpt, rest) => let (f, N) := opt_frag atom N in Ok (f, N, rest)
      | Some (QRange n m, rest') =>
          let atom_src := take (length src - length rest) src in
          let clone N := do (f, N, _) <- parse_repeat fuel N atom_src; Ok (f, N) in
          do (f, N) <- range_frag clone atom n m N; Ok (f, N, rest')
      end
  end.

Definition concat_ends (s : bytes) : bool := match s with [] => true | c :: _ => (c =? 124) || (c =? 41) end.

(** The loop of [parse_concat]. *)
Fixpoint concat_loop (fuel : nat) (cur : nat) (any : bool) (N : states) (s : bytes) : res (nat * bool * states * bytes) :=
  match fuel with
  | O => NoFuel
  | S fuel =>
      if concat_ends s then Ok (cur, any, N, s)
      else do (f, N, rest) <- parse_repeat (S (length s)) N s; concat_loop fuel (accept f) true (add_epsilon cur (start f) N) rest
  end.

Definition parse_concat (N : states) (s : bytes) : res (Frag * states * bytes) :=
  let (s0, N) := new_state N in
  do (cur, any, N, rest) <- concat_loop (S (length s)) s0 false N s;
  if any : bool then Ok (mkFrag s0 cur, N, rest)
  else let (a, N) := new_state N in Ok (mkFrag s0 a, add_epsilon s0 a N, rest).

(** The loop of [parse_alt]. *)
Fixpoint alt_loop (fuel : nat) (s0 a : nat) (N : states) (s : bytes) : res (states * bytes) :=
  match fuel with
  | O => NoFuel
  | S fuel =>
      match eat 124 s with
      | Some s' =>
          do (next, N, rest) <- parse_concat N s';
          alt_loop fuel s0 a (add_epsilon (accept next) a (add_epsilon s0 (start next) N)) rest
      | None => Ok (N, s)
      end
  end.

Definition parse_alternatives (N : states) (s : bytes) : res (Frag * states * bytes) :=
  do (first, N, rest) <- parse_concat N s;
  match eat 124 rest with
  | Some _ =>
      let (s0, N) := new_state N in let (a, N) := new_state N in
      do (N, rest) <- alt_loop (S (length rest)) s0 a (add_epsilon (accept first) a (add_epsilon s0 (start first) N)) rest;
      Ok (mkFrag s0 a, N, rest)
  | None => Ok (first, N, rest)
  end.
End Parser.

(** [parse_alt]; each group is one level down. *)
Fixpoint parse_alt (depth : nat) (N : states) (s : bytes) : res (Frag * states * bytes) :=
  match depth with
  | O => NoFuel
  | S depth => parse_alternatives (parse_alt depth) N s
  end.

Record RegexNfa := mkNfa { states_ : states; start_ : nat; accept_ : nat }.

Definition set_accepting (q : nat) (N : states) : states := alter (fun st => mkNfaState (edges st) true) q N.

(** [compile]: a compiled automaton, or [Bad] for [false]. *)
Definition compile (pattern : bytes) : res RegexNfa :=
  do (root, N, rest) <- parse_alt (S (length pattern)) [] pattern;
  match rest with
  | [] => Ok (mkNfa (set_accepting (accept root) N) (start root) (accept root))
  | _ => Bad
  end.

(** ** Set simulation *)

Definition edges_of (N : states) (q : nat) : list NfaEdge := match N !! q with Some st => edges st | None => [] end.

(** The inner loop of [epsilon_closure], over the edges of one state: marks, set
    and stack. *)
Fixpoint push_targets (es : list NfaEdge) (inn : list bool) (set stack : list nat) : list bool * list nat * list nat :=
  match es with
  | [] => (inn, set, stack)
  | e :: es =>
      if is_epsilon e && negb (default false (inn !! e_to e))
      then push_targets es (<[e_to e := true]> inn) (set ++ [e_to e]) (e_to e :: stack)
      else push_targets es inn set stack
  end.

(** The worklist of [epsilon_closure], its back first. *)
Fixpoint closure_loop (fuel : nat) (N : states) (inn : list bool) (set stack : list nat) : option (list nat) :=
  match stack with
  | [] => Some set
  | s :: stack =>
      match fuel with
      | O => None
      | S fuel => let '(inn, set, stack) := push_targets (edges_of N s) inn set stack in closure_loop fuel N inn set stack
      end
  end.

Definition mark (size : nat) (set : list nat) : list bool := foldl (fun l s => <[s := true]> l) (replicate size false) set.

Definition epsilon_closure (N : states) (set : list nat) : option (list nat) :=
  merge_sort le <$> closure_loop (length set + length N) N (mark (length N) set) set (rev set).

Definition start_set (n : RegexNfa) : option (list nat) := epsilon_closure (states_ n) [start_ n].

(** The targets of [step], before the closure. *)
Definition byte_targets (c : Z) (es : list NfaEdge) (acc : list bool * list nat) : list bool * list nat :=
  foldl (fun acc e =>
    if negb (is_epsilon e) && class_has (char_class e) c && negb (default false (acc.1 !! e_to e))
    then (<[e_to e := true]> acc.1, acc.2 ++ [e_to e]) else acc) acc es.

Definition step (n : RegexNfa) (set : list nat) (c : Z) : option (list nat) :=
  let N := states_ n in
  epsilon_closure N (foldl (fun acc s => byte_targets c (edges_of N s) acc) (replicate (length N) false, []) set).2.

Definition accepts (n : RegexNfa) (set : list nat) : bool :=
  existsb (fun s => match states_ n !! s with Some st => accepting st | None => false end) set.
