(* ===== verification/RegexSyntax.v ===== *)
(** * The syntax of patterns

    What a pattern means, apart from automata: regular expressions, their
    languages, and a parser for the engine's syntax.  The engine's parser is this
    parser followed by [build], which adds a fragment for an expression: parsing
    the source of a repeated atom again for each copy gives the same expression. *)

From Corelib Require Import ssreflect_rw.
From stdpp Require Import prelude list.
From S2P Require Import Prelude StreamPipeline Languages RegexNfa.
Open Scope Z_scope.

(** ** Expressions *)

Inductive regex : Type :=
  | RClass (cls : list bool)
  | REmpty
  | RStar (r : regex)
  | RPlus (r : regex)
  | ROpt (r : regex)
  | RRange (r : regex) (n : Z) (m : option Z)
  | RConcat (rs : list regex)
  | RAlt (r : regex) (rs : list regex).

Section Induction.
Context (P : regex -> Prop).
Hypothesis Hclass : forall cls, P (RClass cls).
Hypothesis Hempty : P REmpty.
Hypothesis Hstar : forall r, P r -> P (RStar r).
Hypothesis Hplus : forall r, P r -> P (RPlus r).
Hypothesis Hopt : forall r, P r -> P (ROpt r).
Hypothesis Hrange : forall r n m, P r -> P (RRange r n m).
Hypothesis Hconcat : forall rs, Forall P rs -> P (RConcat rs).
Hypothesis Halt : forall r rs, P r -> Forall P rs -> P (RAlt r rs).

Fixpoint regex_induction (r : regex) : P r :=
  let all := fix all rs : Forall P rs :=
    match rs with [] => Forall_nil_2 P | r :: rs => Forall_cons_2 P r rs (regex_induction r) (all rs) end in
  match r with
  | RClass cls => Hclass cls
  | REmpty => Hempty
  | RStar r => Hstar r (regex_induction r)
  | RPlus r => Hplus r (regex_induction r)
  | ROpt r => Hopt r (regex_induction r)
  | RRange r n m => Hrange r n m (regex_induction r)
  | RConcat rs => Hconcat rs (all rs)
  | RAlt r rs => Halt r rs (regex_induction r) (all rs)
  end.
End Induction.

(** ** Their languages *)

Fixpoint lpow (L : lang) (n : nat) : lang :=
  match n with
  | O => lnil
  | S n => (L ⋅ lpow L n)%lang
  end.

Definition lstar (L : lang) : lang := fun w => exists n, lpow L n w.

(** At most [n] words. *)
Definition lupto (L : lang) (n : nat) : lang := fun w => exists k, (k <= n)%nat /\ lpow L k w.

(** [n] words, then up to [m - n] more, or any number without an upper bound. *)
Definition lrange (L : lang) (n : Z) (m : option Z) : lang :=
  (lpow L (Z.to_nat n) ⋅ match m with Some m => lupto L (Z.to_nat (m - n)) | None => lstar L end)%lang.

Fixpoint den (r : regex) : lang :=
  match r with
  | RClass cls => lclass (class_has cls)
  | REmpty => lnil
  | RStar r => lstar (den r)
  | RPlus r => (den r ⋅ lstar (den r))%lang
  | ROpt r => lopt (den r)
  | RRange r n m => lrange (den r) n m
  | RConcat rs => foldr (fun r L => den r ⋅ L)%lang lnil rs
  | RAlt r rs => foldr (fun r L => den r ⊕ L)%lang (den r) rs
  end.

(** The classes of an expression. *)
Fixpoint classes (r : regex) : list (list bool) :=
  match r with
  | RClass cls => [cls]
  | REmpty => []
  | RStar r | RPlus r | ROpt r | RRange r _ _ => classes r
  | RConcat rs => foldr (fun r l => classes r ++ l) [] rs
  | RAlt r rs => classes r ++ foldr (fun r l => classes r ++ l) [] rs
  end.

(** ** The parser *)

Section Reference.
Context (inner : bytes -> res (regex * bytes)).

Definition re_atom (src : bytes) : res (regex * bytes) :=
  match src with
  | [] => Bad
  | c :: s =>
      if c =? 40 then
        do (r, rest) <- inner (skip_marker s);
        match eat 41 rest with Some rest' => Ok (r, rest') | None => Bad end
      else if c =? 91 then do (cls, rest) <- parse_class s; Ok (RClass cls, rest)
      else if (c =? 41) || (c =? 124) then Bad
      else if c =? 46 then Ok (RClass (table (fun x => negb (x =? 10))), s)
      else if c =? 92 then
        match s with
        | [] => Bad
        | esc :: s' => Ok (RClass (match make_shorthand esc with Some sc => table sc | None => table (Z.eqb (atom_escape esc)) end), s')
        end
      else if (c =? 94) || (c =? 36) then Ok (REmpty, s)
      else Ok (RClass (table (Z.eqb c)), s)
  end.

Definition quantify (r : regex) (q : quantifier) : regex :=
  match q with QStar => RStar r | QPlus => RPlus r | QOpt => ROpt r | QRange n m => RRange r n m end.

Definition re_repeat (src : bytes) : res (regex * bytes) :=
  do (r, rest) <- re_atom src;
  do q <- parse_quantifier rest;
  match q with None => Ok (r, rest) | Some (q, rest) => Ok (quantify r q, rest) end.

Fixpoint re_concat (fuel : nat) (s : bytes) : res (list regex * bytes) :=
  match fuel with
  | O => NoFuel
  | S fuel =>
      if concat_ends s then Ok ([], s)
      else do (r, rest) <- re_repeat s; do (rs, rest) <- re_concat fuel rest; Ok (r :: rs, rest)
  end.

Fixpoint re_alts (fuel : nat) (s : bytes) : res (list regex * bytes) :=
  match fuel with
  | O => NoFuel
  | S fuel =>
      match eat 124 s with
      | Some s' =>
          do (rs, rest) <- re_concat (S (length s')) s';
          do (alts, rest) <- re_alts fuel rest;
          Ok (RConcat rs :: alts, rest)
      | None => Ok ([], s)
      end
  end.

Definition re_alternatives (s : bytes) : res (regex * bytes) :=
  do (rs, rest) <- re_concat (S (length s)) s;
  do (alts, rest) <- re_alts (S (length rest)) rest;
  Ok (match alts with [] => RConcat rs | _ => RAlt (RConcat rs) alts end, rest).
End Reference.

Fixpoint re_alt (depth : nat) (s : bytes) : res (regex * bytes) :=
  match depth with
  | O => NoFuel
  | S depth => re_alternatives (re_alt depth) s
  end.

(** The expression of a whole pattern. *)
Definition parse_regex (p : bytes) : res regex :=
  do (r, rest) <- re_alt (S (length p)) p; match rest with [] => Ok r | _ => Bad end.

(** ** Building *)

Definition ok_or {A} (d : A) (x : res A) : A := match x with Ok a => a | _ => d end.

Fixpoint build (r : regex) (N : states) : Frag * states :=
  match r with
  | RClass cls => class_frag cls N
  | REmpty => epsilon_frag N
  | RStar r => let (f, N) := build r N in star_frag f N
  | RPlus r => let (f, N) := build r N in plus_frag f N
  | ROpt r => let (f, N) := build r N in opt_frag f N
  | RRange r n m => let (f, N) := build r N in ok_or (f, N) (range_frag (fun N => Ok (build r N)) f n m N)
  | RConcat rs =>
      let (s0, N) := new_state N in
      match rs with
      | [] => let (a, N) := new_state N in (mkFrag s0 a, add_epsilon s0 a N)
      | _ =>
          let go := fix go rs cur N :=
            match rs with
            | [] => (cur, N)
            | r :: rs => let (f, N) := build r N in go rs (accept f) (add_epsilon cur (start f) N)
            end in
          let (cur, N) := go rs s0 N in (mkFrag s0 cur, N)
      end
  | RAlt r rs =>
      let (first, N) := build r N in
      let (s0, N) := new_state N in let (a, N) := new_state N in
      let go := fix go rs N :=
        match rs with
        | [] => N
        | r :: rs => let (f, N) := build r N in go rs (add_epsilon (accept f) a (add_epsilon s0 (start f) N))
        end in
      (mkFrag s0 a, go rs (add_epsilon (accept first) a (add_epsilon s0 (start first) N)))
  end.

(** The loops of [build], named. *)
Fixpoint build_concat (rs : list regex) (cur : nat) (N : states) : nat * states :=
  match rs with
  | [] => (cur, N)
  | r :: rs => let (f, N) := build r N in build_concat rs (accept f) (add_epsilon cur (start f) N)
  end.

Fixpoint build_alts (rs : list regex) (s0 a : nat) (N : states) : states :=
  match rs with
  | [] => N
  | r :: rs => let (f, N) := build r N in build_alts rs s0 a (add_epsilon (accept f) a (add_epsilon s0 (start f) N))
  end.

Lemma build_concat_eq rs N :
  build (RConcat rs) N =
    let (s0, N) := new_state N in
    match rs with
    | [] => let (a, N) := new_state N in (mkFrag s0 a, add_epsilon s0 a N)
    | _ => let (cur, N) := build_concat rs s0 N in (mkFrag s0 cur, N)
    end.
Proof. destruct rs; reflexivity. Qed.

Lemma build_alt_eq r rs N :
  build (RAlt r rs) N =
    let (first, N) := build r N in
    let (s0, N) := new_state N in let (a, N) := new_state N in
    (mkFrag s0 a, build_alts rs s0 a (add_epsilon (accept first) a (add_epsilon s0 (start first) N))).
Proof.
  cbn [build]. destruct (build r N) as [first N1]. unfold new_state. f_equal.
  generalize (add_epsilon (accept first) (length (N1 ++ [mkNfaState [] false]))
    (add_epsilon (length N1) (start first) ((N1 ++ [mkNfaState [] false]) ++ [mkNfaState [] false]))).
  induction rs as [|r' rs IH]; intros M; [done|]. cbn [build_alts]. destruct (build r' M) as [f M']. apply IH.
Qed.
