(* ===== verification/RegexParse.v ===== *)
(** * The engine's parser is the reference parser and [build]

    Suffix, fuel and locality lemmas of the reference parser, and the refinement:
    the engine's parser succeeds exactly when the reference parser does, with the
    states [build] makes of its expression. *)

From Corelib Require Import ssreflect_rw.
From stdpp Require Import prelude list.
From S2P Require Import Prelude StreamPipeline Languages RegexNfa RegexSyntax.
Open Scope Z_scope.

Lemma eat_Some c s s' : eat c s = Some s' <-> s = c :: s'.
Proof. unfold eat. destruct s as [|x s]; [done|]. destruct (Z.eqb_spec x c); naive_solver. Qed.

Lemma eat_app c x v : x ≠ [] -> eat c (x ++ v) = (fun y => y ++ v) <$> eat c x.
Proof. destruct x as [|d x]; [done|]. intros _. cbn. by destruct (d =? c). Qed.

(** Inverts the [do] blocks of a successful parse. *)
Ltac inv_do :=
  repeat match goal with
         | H : rbind ?x _ = Ok _ |- _ => let E := fresh "E" in destruct x eqn:E; cbn [rbind] in H; try discriminate H
         | p : (_ * _)%type |- _ => destruct p
         | H : (match ?x with _ => _ end) = Ok _ |- _ => let E := fresh "E" in destruct x eqn:E; try discriminate H
         | H : Ok _ = Ok _ |- _ => injection H as H; subst
         | H : Some _ = Some _ |- _ => injection H as H; subst
         | H : (_, _) = (_, _) |- _ => injection H as H; subst
         end; try discriminate.

(** ** What is left is a suffix *)

Definition leaves_suffix {A} (F : bytes -> res (A * bytes)) : Prop :=
  forall s r rest, F s = Ok (r, rest) -> exists p, s = p ++ rest.

Lemma suffix_cons {A} (a : A) (s rest : list A) : (exists p, s = p ++ rest) -> exists p, a :: s = p ++ rest.
Proof. intros [p ->]. by exists (a :: p). Qed.

Lemma suffix_trans {A} (s m rest : list A) : (exists p, s = p ++ m) -> (exists p, m = p ++ rest) -> exists p, s = p ++ rest.
Proof. intros [p ->] [q ->]. exists (p ++ q). by rewrite app_assoc. Qed.

Lemma class_items_suffix fuel cls any s cls' any' rest :
  class_items fuel cls any s = Ok (cls', any', rest) -> exists p, s = p ++ rest.
Proof.
  revert cls any s. induction fuel as [|fuel IH]; intros cls any s; [done|]. cbn [class_items].
  destruct s as [|c s1]; [intros; inv_do; by exists []|]. destruct (c =? 93); [intros; inv_do; by exists []|].
  destruct (c =? 92).
  - destruct s1 as [|esc s2]; [done|]. destruct (make_shorthand esc); intros H; apply IH in H; by do 2 apply suffix_cons.
  - destruct s1 as [|dash [|hi s3]]; [intros H; apply IH in H; by apply suffix_cons..|].
    destruct ((dash =? 45) && negb (hi =? 93)); [|intros H; apply IH in H; by apply suffix_cons].
    destruct (hi <? c); [done|]. intros H; apply IH in H; by do 3 apply suffix_cons.
Qed.

Lemma eat_suffix c s s' : eat c s = Some s' -> exists p, s = p ++ s'.
Proof. intros ->%eat_Some. by exists [c]. Qed.

Lemma class_body_reads negate s r rest : class_body negate s = Ok (r, rest) -> exists p, s = p ++ 93 :: rest.
Proof.
  unfold class_body. intros H. inv_do.
  match goal with H : class_items _ _ _ _ = Ok _ |- _ => apply class_items_suffix in H as [p ->] end.
  match goal with H : eat _ _ = Some _ |- _ => apply eat_Some in H as -> end. by exists p.
Qed.

Lemma parse_class_reads s r rest : parse_class s = Ok (r, rest) -> exists p, s = p ++ 93 :: rest.
Proof.
  unfold parse_class. destruct (eat 94 s) as [s'|] eqn:E; intros H; apply class_body_reads in H; [|done].
  apply eat_Some in E as ->. by apply suffix_cons.
Qed.

Lemma parse_class_suffix : leaves_suffix parse_class.
Proof. intros s r rest [p ->]%parse_class_reads. exists (p ++ [93]). by rewrite <- app_assoc. Qed.

Lemma scan_digits_suffix v any : leaves_suffix (scan_digits v any).
Proof.
  intros s. revert v any. induction s as [|c s IH]; intros v any r rest; cbn [scan_digits]; [intros; inv_do; by exists []|].
  destruct (is_digit c); [|intros; inv_do; by exists []]. destruct (kLongMax <? _); [done|]. intros H. by apply suffix_cons, (IH _ _ _ _ H).
Qed.

Lemma parse_range_suffix s q rest : parse_range s = Ok (Some (q, rest)) -> exists p, s = p ++ rest.
Proof.
  unfold parse_range. intros H. inv_do;
    repeat match goal with
           | H : scan_digits _ _ _ = Ok _ |- _ => apply scan_digits_suffix in H
           | H : eat _ _ = Some _ |- _ => apply eat_suffix in H
           end; eauto using suffix_trans.
Qed.

Lemma parse_quantifier_suffix s q rest : parse_quantifier s = Ok (Some (q, rest)) -> exists p, s = p ++ rest.
Proof.
  unfold parse_quantifier. destruct s as [|c s]; [done|]. intros H. apply suffix_cons.
  repeat (destruct (c =? _); [inv_do; (by exists []) || by apply parse_range_suffix in H|]). done.
Qed.

Lemma skip_marker_suffix s : exists p, s = p ++ skip_marker s.
Proof.
  unfold skip_marker. destruct (eat 63 s) as [s'|] eqn:E; [|by exists []]. destruct (eat 58 s') as [s''|] eqn:E'; [|by exists []].
  apply eat_suffix in E, E'. eauto using suffix_trans.
Qed.

(** The functions that always read something. *)
Definition reads {A} (F : bytes -> res (A * bytes)) : Prop :=
  forall s r rest, F s = Ok (r, rest) -> exists c p, s = c :: p ++ rest.

Section Suffixes.
Context (inner : bytes -> res (regex * bytes)) (Hinner : leaves_suffix inner).

Lemma re_atom_reads : reads (re_atom inner).
Proof.
  intros s r rest H. unfold re_atom in H. destruct s as [|c s]; [done|]. exists c.
  cut (exists p, s = p ++ rest); [intros [p ->]; by exists p|].
  inv_do; try (by exists []); try (by eexists [_]); try by eapply parse_class_suffix.
  match goal with H : inner _ = Ok _ |- _ => apply Hinner in H end.
  match goal with H : eat _ _ = Some _ |- _ => apply eat_suffix in H end.
  eauto using suffix_trans, skip_marker_suffix.
Qed.

Lemma re_repeat_reads : reads (re_repeat inner).
Proof.
  intros s r rest. unfold re_repeat. intros H. inv_do;
    match goal with H : re_atom _ _ = Ok _ |- _ => apply re_atom_reads in H as (c & p & ->) end; exists c; [|by exists p].
  match goal with H : parse_quantifier _ = Ok _ |- _ => apply parse_quantifier_suffix in H as [p' ->] end.
  exists (p ++ p'). by rewrite app_assoc.
Qed.

Lemma re_concat_suffix fuel : leaves_suffix (re_concat inner fuel).
Proof.
  induction fuel as [|fuel IH]; intros s r rest; [done|]. cbn [re_concat]. destruct (concat_ends s).
  { intros H; inv_do; by exists []. }
  intros H. inv_do. match goal with H : re_repeat _ _ = Ok _ |- _ => apply re_repeat_reads in H as (c & p & ->) end.
  match goal with H : re_concat _ _ _ = Ok _ |- _ => apply IH in H as [p' ->] end. exists (c :: p ++ p'). simpl. by rewrite app_assoc.
Qed.

Lemma re_alts_suffix fuel : leaves_suffix (re_alts inner fuel).
Proof.
  induction fuel as [|fuel IH]; intros s r rest; [done|]. cbn [re_alts]. destruct (eat 124 s) as [s'|] eqn:E1.
  - intros H. inv_do. apply eat_suffix in E1.
    repeat match goal with
           | H : re_concat _ _ _ = Ok _ |- _ => apply re_concat_suffix in H
           | H : re_alts _ _ _ = Ok _ |- _ => apply IH in H
           end. eauto using suffix_trans.
  - intros H; inv_do; by exists [].
Qed.

Lemma re_alternatives_suffix : leaves_suffix (re_alternatives inner).
Proof.
  intros s r rest. unfold re_alternatives. intros H. inv_do;
    repeat match goal with
           | H : re_concat _ _ _ = Ok _ |- _ => apply re_concat_suffix in H
           | H : re_alts _ _ _ = Ok _ |- _ => apply re_alts_suffix in H
           end; eauto using suffix_trans.
Qed.
End Suffixes.

Lemma re_alt_suffix depth : leaves_suffix (re_alt depth).
Proof. induction depth as [|depth IH]; [done|]. by apply re_alternatives_suffix. Qed.

(** ** Fuel *)

(** Fuel beyond what a loop reads does not matter. *)
Lemma class_items_fuel f f' cls any s cls' any' rest :
  class_items f cls any s = Ok (cls', any', rest) -> (length s - length rest < f')%nat ->
  class_items f' cls any s = Ok (cls', any', rest).
Proof.
  revert f' cls any s. induction f as [|f IH]; intros f' cls any s H Hf; [done|]. destruct f' as [|f']; [lia|].
  assert (Hstep : forall cls1 s1, class_items f cls1 true s1 = Ok (cls', any', rest) -> (length s1 < length s)%nat ->
    class_items f' cls1 true s1 = Ok (cls', any', rest)).
  { intros cls1 s1 H1 Hl. apply IH; [done|]. pose proof (class_items_suffix _ _ _ _ _ _ _ H1) as [p ->].
    rewrite length_app in *. lia. }
  cbn [class_items] in *. destruct s as [|c s1]; [done|]. destruct (c =? 93); [done|]. destruct (c =? 92).
  - destruct s1 as [|esc s2]; [done|]. destruct (make_shorthand esc); (apply Hstep; [done|cbn; lia]).
  - destruct s1 as [|dash [|hi s3]]; [apply Hstep; [done|cbn; lia]..|].
    destruct ((dash =? 45) && negb (hi =? 93)); [destruct (hi <? c); [done|]|]; (apply Hstep; [done|cbn; lia]).
Qed.

Section Fuel.
Context (inner : bytes -> res (regex * bytes)) (Hinner : leaves_suffix inner).

Lemma re_concat_fuel f f' s rs rest :
  re_concat inner f s = Ok (rs, rest) -> (length s - length rest < f')%nat -> re_concat inner f' s = Ok (rs, rest).
Proof.
  revert f' s rs. induction f as [|f IH]; intros f' s rs H Hf; [done|]. destruct f' as [|f']; [lia|].
  cbn [re_concat] in *. destruct (concat_ends s); [done|]. inv_do. cbn [rbind].
  match goal with H : re_concat inner f ?l = Ok (?k, rest) |- _ => rewrite (IH f' l k H); [done|] end.
  apply (re_repeat_reads inner Hinner) in E as (c & p & ->). apply (re_concat_suffix inner Hinner) in E0 as [p' ->].
  cbn in *. rewrite !length_app in *. lia.
Qed.

Lemma re_alts_fuel f f' s rs rest :
  re_alts inner f s = Ok (rs, rest) -> (length s - length rest < f')%nat -> re_alts inner f' s = Ok (rs, rest).
Proof.
  revert f' s rs. induction f as [|f IH]; intros f' s rs H Hf; [done|]. destruct f' as [|f']; [lia|].
  cbn [re_alts] in *. destruct (eat 124 s) as [s'|] eqn:E1; [|done]. apply eat_Some in E1 as ->. inv_do. cbn [rbind].
  match goal with H : re_alts inner f ?l = Ok (?k, rest) |- _ => rewrite (IH f' l k H); [done|] end.
  apply (re_concat_suffix inner Hinner) in E as [p ->]. apply (re_alts_suffix inner Hinner) in E0 as [p' ->].
  cbn in *. rewrite !length_app in *. lia.
Qed.
End Fuel.

(** Fuel for the whole source is enough. *)
Lemma class_items_total f cls any s : (length s < f)%nat -> class_items f cls any s ≠ NoFuel.
Proof.
  revert cls any s. induction f as [|f IH]; intros cls any s Hf; [lia|]. cbn [class_items].
  destruct s as [|c s1]; [done|]. destruct (c =? 93); [done|]. cbn in Hf. destruct (c =? 92).
  - destruct s1 as [|esc s2]; [done|]. cbn in Hf. destruct (make_shorthand esc); apply IH; lia.
  - destruct s1 as [|dash [|hi s3]]; cbn in Hf; [apply IH; cbn; lia..|].
    destruct ((dash =? 45) && negb (hi =? 93)); [destruct (hi <? c); [done|]|]; apply IH; cbn; lia.
Qed.

Lemma parse_class_total s : parse_class s ≠ NoFuel.
Proof.
  assert (Hb : forall negate s', class_body negate s' ≠ NoFuel); [|unfold parse_class; case_match; apply Hb].
  intros negate s'. unfold class_body. pose proof (class_items_total (S (length s')) (fun _ => false) false s') as H.
  destruct (class_items _ _ _ _) as [[[cls any] rest]| | |]; cbn [rbind]; try done; [|by destruct H; [lia|]].
  by repeat case_match.
Qed.

Lemma scan_digits_total v any s : scan_digits v any s ≠ NoFuel /\ scan_digits v any s ≠ Bad.
Proof.
  revert v any. induction s as [|c s IH]; intros v any; cbn [scan_digits]; [done|].
  destruct (is_digit c); [|done]. destruct (kLongMax <? _); [done|apply IH].
Qed.

Lemma parse_quantifier_total s : parse_quantifier s ≠ NoFuel /\ parse_quantifier s ≠ Bad.
Proof.
  unfold parse_quantifier. destruct s as [|c s]; [done|]. repeat (destruct (c =? _); [done || idtac|]); try done.
  unfold parse_range. pose proof (scan_digits_total 0 false s) as [H H'].
  destruct (scan_digits 0 false s) as [[n r]| | |]; cbn [rbind]; try done.
  destruct (eat 44 r) as [r'|]; cbn [rbind]; [|by repeat case_match].
  pose proof (scan_digits_total 0 false r') as [H1 H1'].
  destruct (scan_digits 0 false r') as [[m r'']| | |]; cbn [rbind]; try done. by repeat case_match.
Qed.

Section Total.
Context (inner : bytes -> res (regex * bytes)) (Hinner : leaves_suffix inner) (d : nat).
Hypothesis Htotal : forall s, (length s < d)%nat -> inner s ≠ NoFuel.

Lemma re_atom_total s : (length s <= d)%nat -> re_atom inner s ≠ NoFuel.
Proof.
  intros Hl. unfold re_atom. destruct s as [|c s]; [done|]. cbn in Hl.
  destruct (c =? 40).
  - assert (Hs : (length (skip_marker s) <= length s)%nat).
    { destruct (skip_marker_suffix s) as [p Hp]. rewrite Hp at 2. rewrite length_app. lia. }
    pose proof (Htotal (skip_marker s)) as H. destruct (inner (skip_marker s)) as [[r rest]| | |]; cbn [rbind]; try done.
    + by case_match.
    + by destruct H; [lia|].
  - destruct (c =? 91); [|by repeat case_match].
    pose proof (parse_class_total s) as H. by destruct (parse_class s) as [[cls rest]| | |].
Qed.

Lemma re_repeat_total s : (length s <= d)%nat -> re_repeat inner s ≠ NoFuel.
Proof.
  intros Hl. unfold re_repeat. pose proof (re_atom_total s Hl) as H.
  destruct (re_atom inner s) as [[r rest]| | |]; cbn [rbind]; try done.
  pose proof (parse_quantifier_total rest) as [H' _]. by destruct (parse_quantifier rest) as [[[q rest']|]| | |].
Qed.

Lemma re_concat_total f s : (length s <= d)%nat -> (length s < f)%nat -> re_concat inner f s ≠ NoFuel.
Proof.
  revert s. induction f as [|f IH]; intros s Hd Hf; [lia|]. cbn [re_concat]. destruct (concat_ends s); [done|].
  pose proof (re_repeat_total s Hd) as H. destruct (re_repeat inner s) as [[r rest]| | |] eqn:E; cbn [rbind]; try done.
  apply (re_repeat_reads inner Hinner) in E as (c & p & ->). cbn in *. rewrite length_app in *.
  pose proof (IH rest) as H'. destruct (re_concat inner f rest) as [[rs rest']| | |]; cbn [rbind]; try done.
  destruct H'; [lia..|done].
Qed.

Lemma re_alts_total f s : (length s <= d)%nat -> (length s < f)%nat -> re_alts inner f s ≠ NoFuel.
Proof.
  revert s. induction f as [|f IH]; intros s Hd Hf; [lia|]. cbn [re_alts].
  destruct (eat 124 s) as [s'|] eqn:Ee; [|done]. apply eat_Some in Ee as ->. cbn in Hd, Hf.
  pose proof (re_concat_total (S (length s')) s') as H.
  destruct (re_concat inner (S (length s')) s') as [[rs rest]| | |] eqn:E; cbn [rbind]; try done; [|by destruct H; [lia..|]].
  apply (re_concat_suffix inner Hinner) in E as [p ->]. rewrite length_app in *.
  pose proof (IH rest) as H'. destruct (re_alts inner f rest) as [[al rest']| | |]; cbn [rbind]; try done.
  destruct H'; [lia..|done].
Qed.

Lemma re_alternatives_total s : (length s <= d)%nat -> re_alternatives inner s ≠ NoFuel.
Proof.
  intros Hd. unfold re_alternatives. pose proof (re_concat_total (S (length s)) s Hd) as H.
  destruct (re_concat inner (S (length s)) s) as [[rs rest]| | |] eqn:E; cbn [rbind]; try done; [|by destruct H; [lia|]].
  apply (re_concat_suffix inner Hinner) in E as [p ->]. rewrite length_app in *.
  pose proof (re_alts_total (S (length rest)) rest) as H'.
  destruct (re_alts inner (S (length rest)) rest) as [[al rest']| | |]; cbn [rbind]; try done. by destruct H'; [lia..|].
Qed.
End Total.

Lemma re_alt_total d s : (length s < d)%nat -> re_alt d s ≠ NoFuel.
Proof.
  revert s. induction d as [|d IH]; intros s Hd; [lia|]. cbn [re_alt].
  apply (re_alternatives_total (re_alt d) (re_alt_suffix d) d IH). lia.
Qed.

(** ** Locality

    What an atom is does not depend on what follows it; inside a group, parsing
    does not depend on what follows the group. *)

Definition exact {A} (F : bytes -> res (A * bytes)) : Prop :=
  forall a r v v', F (a ++ v) = Ok (r, v) -> F (a ++ v') = Ok (r, v').

Definition local {A} (F : bytes -> res (A * bytes)) : Prop :=
  forall x y r v v', F (x ++ 41 :: v) = Ok (r, y ++ 41 :: v) -> F (x ++ 41 :: v') = Ok (r, y ++ 41 :: v').

Lemma suffix_split {A} (x y p v : list A) : x ++ v = p ++ y ++ v -> x = p ++ y.
Proof. rewrite app_assoc. apply app_inv_tail. Qed.

Lemma exact_local {A} (F : bytes -> res (A * bytes)) : leaves_suffix F -> exact F -> local F.
Proof.
  intros Hs He x y r v v' H. destruct (Hs _ _ _ H) as [p Hp]. apply suffix_split in Hp as ->.
  rewrite <- app_assoc in *. by apply (He p r (y ++ 41 :: v)).
Qed.

Lemma class_items_exact f cls any x v v' cls' any' :
  class_items f cls any (x ++ 93 :: v) = Ok (cls', any', 93 :: v) ->
  class_items f cls any (x ++ 93 :: v') = Ok (cls', any', 93 :: v').
Proof.
  revert cls any x. induction f as [|f IH]; intros cls any x H; [done|]. cbn [class_items] in *.
  assert (Hlong : forall cls1 s, class_items f cls1 true s = Ok (cls', any', 93 :: v) -> (length s <= length v)%nat -> False).
  { intros cls1 s Hc Hl. apply class_items_suffix in Hc as [p ->]. rewrite length_app in Hl. cbn in Hl. lia. }
  destruct x as [|c x]; cbn [app] in *.
  { rewrite Z.eqb_refl in *. by injection H as -> ->. }
  destruct (Z.eqb_spec c 93) as [-> |]. { injection H as -> -> H. apply (f_equal length) in H. rewrite length_app in H. cbn in H. lia. }
  destruct (c =? 92).
  - destruct x as [|esc x]; cbn [app] in *.
    + destruct (make_shorthand 93); exfalso; by eapply Hlong.
    + destruct (make_shorthand esc); by apply IH.
  - destruct x as [|d [|h x]]; cbn [app] in *.
    + destruct v as [|h1 v1], v' as [|h2 v2]; cbn [andb Z.eqb Pos.eqb] in *; by apply (IH _ _ []).
    + rewrite Z.eqb_refl, andb_false_r in *. by apply (IH _ _ [d]).
    + destruct ((d =? 45) && negb (h =? 93)); [destruct (h <? c); [done|]; by apply IH|by apply (IH _ _ (d :: h :: x))].
Qed.

Lemma class_body_exact negate : exact (class_body negate).
Proof.
  intros a r v v' H. destruct (class_body_reads _ _ _ _ H) as [p Hp].
  assert (a = p ++ [93]) as -> by (apply (app_inv_tail v); by rewrite <- app_assoc).
  rewrite <- !app_assoc in *. cbn [app] in *. unfold class_body in *. inv_do.
  match goal with H : eat _ _ = Some _ |- _ => apply eat_Some in H as -> end.
  match goal with H : class_items _ _ _ _ = Ok _ |- _ => apply (class_items_exact _ _ _ _ _ v') in H;
    apply (class_items_fuel _ (S (length (p ++ 93 :: v')))) in H; [rewrite H|lia] end.
  cbn [rbind eat]. by rewrite Z.eqb_refl.
Qed.

Lemma parse_class_exact : exact parse_class.
Proof.
  intros a r v v' H. assert (Hne : a ≠ []).
  { intros ->. apply parse_class_reads in H as [p Hp]. apply (f_equal length) in Hp. rewrite !length_app in Hp. cbn in Hp. lia. }
  unfold parse_class in *. rewrite !eat_app in * by done.
  destruct (eat 94 a); cbn in *; by apply (class_body_exact _ _ _ v).
Qed.

(** Digits stop at a closing parenthesis at the latest. *)
Lemma scan_digits_local n any x v o rest :
  scan_digits n any (x ++ 41 :: v) = Ok (o, rest) ->
  exists y, rest = y ++ 41 :: v /\ forall v', scan_digits n any (x ++ 41 :: v') = Ok (o, y ++ 41 :: v').
Proof.
  revert n any. induction x as [|c x IH]; intros n any; cbn [app scan_digits].
  - intros H. injection H as <- <-. by exists [].
  - destruct (is_digit c). { destruct (kLongMax <? _); [done|apply IH]. }
    intros H. injection H as <- <-. by exists (c :: x).
Qed.

Lemma eat_paren c x v : c ≠ 41 -> eat c (x ++ 41 :: v) = (fun y => y ++ 41 :: v) <$> eat c x.
Proof.
  intros Hc. destruct x as [|d x]; [|by apply eat_app]. cbn [app eat fmap option_fmap option_map].
  destruct (Z.eqb_spec 41 c); [congruence|done].
Qed.

(** A quantifier, or none, in front of a closing parenthesis. *)
Definition same_quantifier (v : bytes) (F : bytes -> res (option (quantifier * bytes))) (o : option (quantifier * bytes)) : Prop :=
  match o with
  | None => forall v', F v' = Ok None
  | Some (q, rest) => exists y, rest = y ++ 41 :: v /\ forall v', F v' = Ok (Some (q, y ++ 41 :: v'))
  end.

Lemma parse_range_local x v o :
  parse_range (x ++ 41 :: v) = Ok o -> same_quantifier v (fun v' => parse_range (x ++ 41 :: v')) o.
Proof.
  unfold parse_range. destruct (scan_digits 0 false (x ++ 41 :: v)) as [[n r]| | |] eqn:E1; cbn [rbind]; try done.
  apply scan_digits_local in E1 as (y1 & -> & H1). rewrite eat_paren by done.
  assert (Hrest : forall m y2, match n, eat 125 (y2 ++ 41 :: v) with Some n, Some r' => Ok (Some (QRange n m, r')) | _, _ => Ok None end = Ok o ->
    same_quantifier v (fun v' => match n, eat 125 (y2 ++ 41 :: v') with Some n, Some r' => Ok (Some (QRange n m, r')) | _, _ => Ok None end) o).
  { intros m y2. rewrite eat_paren by done. destruct n as [n|]; [|intros [= <-]; intros v'; done].
    destruct (eat 125 y2) as [y3|] eqn:E; cbn [fmap option_fmap option_map]; intros [= <-].
    - exists y3. split; [done|]. intros v'. by rewrite eat_paren, E by done.
    - intros v'. by rewrite eat_paren, E by done. }
  assert (Heq : forall F G, (forall v', F v' = G v') -> same_quantifier v F o -> same_quantifier v G o).
  { intros F G HFG. destruct o as [[q r]|]; cbn; [intros (y & -> & H); exists y; split; [done|]|intros H]; intros v'; by rewrite <- HFG. }
  destruct (eat 44 y1) as [r'|] eqn:E2; cbn [fmap option_fmap option_map].
  - destruct (scan_digits 0 false (r' ++ 41 :: v)) as [[m r2]| | |] eqn:E3; cbn [rbind]; try done.
    apply scan_digits_local in E3 as (y2 & -> & H2). intros H. eapply Heq, (Hrest m y2 H).
    intros v'. cbn beta. rewrite H1. cbn [rbind]. rewrite (eat_paren 44), E2 by done. cbn [fmap option_fmap option_map]. by rewrite H2.
  - cbn [rbind]. intros H. eapply Heq, (Hrest n y1 H).
    intros v'. cbn beta. rewrite H1. cbn [rbind]. by rewrite (eat_paren 44), E2 by done.
Qed.

Lemma parse_quantifier_local x v o :
  parse_quantifier (x ++ 41 :: v) = Ok o -> same_quantifier v (fun v' => parse_quantifier (x ++ 41 :: v')) o.
Proof.
  destruct x as [|c x]; cbn [app]; unfold parse_quantifier.
  - intros [= <-]. by intros v'.
  - repeat (destruct (c =? _); [(intros [= <-]; by exists x) || apply parse_range_local|]). intros [= <-]. by intros v'.
Qed.

Lemma skip_marker_local x v : skip_marker (x ++ 41 :: v) = skip_marker x ++ 41 :: v.
Proof.
  unfold skip_marker. rewrite eat_paren by done. destruct (eat 63 x) as [s'|]; [|done]. cbn [fmap option_fmap option_map].
  rewrite eat_paren by done. by destruct (eat 58 s').
Qed.

Section Local.
Context (inner : bytes -> res (regex * bytes)) (Hinner : leaves_suffix inner) (Hlocal : local inner).

Lemma group_exact a r v v' :
  (do (r, rest) <- inner (skip_marker (a ++ v)); match eat 41 rest with Some rest' => Ok (r, rest') | None => Bad end) = Ok (r, v) ->
  (do (r, rest) <- inner (skip_marker (a ++ v')); match eat 41 rest with Some rest' => Ok (r, rest') | None => Bad end) = Ok (r, v').
Proof.
  intros H. inv_do. match goal with H : eat _ _ = Some _ |- _ => apply eat_Some in H as -> end.
  destruct (Hinner _ _ _ E) as [p Hp]. destruct (skip_marker_suffix (a ++ v)) as [p0 Hp0].
  assert (a = (p0 ++ p) ++ [41]) as ->.
  { apply (app_inv_tail v). rewrite <- !app_assoc. cbn. by rewrite <- Hp. }
  rewrite <- app_assoc in *. cbn [app] in *. rewrite skip_marker_local in *.
  apply (Hlocal (skip_marker (p0 ++ p)) [] r v v') in E. rewrite E. cbn [rbind app eat]. by rewrite Z.eqb_refl.
Qed.

Lemma re_atom_exact : exact (re_atom inner).
Proof.
  intros a r v v' H. destruct a as [|c a].
  { apply (re_atom_reads inner Hinner) in H as (c & p & Hp). apply (f_equal length) in Hp. cbn in Hp. rewrite length_app in Hp. lia. }
  assert (Hnil : forall x : bytes, x ++ v = v -> x = []).
  { intros x Hx. apply (f_equal length) in Hx. rewrite length_app in Hx. destruct x; [done|cbn in Hx; lia]. }
  cbn [app re_atom] in *. destruct (c =? 40); [by apply (group_exact _ _ v)|].
  destruct (c =? 91). { inv_do. match goal with H : parse_class _ = Ok _ |- _ => apply (parse_class_exact _ _ v v') in H; by rewrite H end. }
  destruct ((c =? 41) || (c =? 124)); [done|].
  destruct (c =? 46). { injection H as <- H. by rewrite (Hnil a H). }
  destruct (c =? 92).
  { destruct a as [|esc a]; cbn [app] in *.
    - destruct v as [|esc v]; [done|]. injection H as _ H. apply (f_equal length) in H. cbn in H. lia.
    - injection H as <- H. by rewrite (Hnil a H). }
  destruct ((c =? 94) || (c =? 36)); injection H as <- H; by rewrite (Hnil a H).
Qed.

Lemma re_atom_suffix : leaves_suffix (re_atom inner).
Proof. intros s r rest (c & p & ->)%(re_atom_reads inner Hinner). by exists (c :: p). Qed.

Lemma re_repeat_local : local (re_repeat inner).
Proof.
  intros x y r v v' H. unfold re_repeat in *. destruct (re_atom inner (x ++ 41 :: v)) as [[r1 m]| | |] eqn:Ea; cbn [rbind] in H; try done.
  assert (Hm : exists y', m = y' ++ 41 :: v).
  { destruct (parse_quantifier m) as [[[q rest]|]| | |] eqn:Eq; cbn [rbind] in H; try done; injection H as _ ->; [|by exists y].
    apply parse_quantifier_suffix in Eq as [p ->]. exists (p ++ y). by rewrite <- app_assoc. }
  destruct Hm as [y' ->].
  apply (exact_local (re_atom inner) re_atom_suffix re_atom_exact x y' r1 v v') in Ea. rewrite Ea. cbn [rbind].
  destruct (parse_quantifier (y' ++ 41 :: v)) as [o| | |] eqn:Eq; cbn [rbind] in H; try done.
  apply parse_quantifier_local in Eq. destruct o as [[q rest]|]; cbn [same_quantifier] in Eq.
  - destruct Eq as (y2 & -> & Eq). rewrite (Eq v'). cbn [rbind]. injection H as <- H. by apply app_inv_tail in H as ->.
  - rewrite (Eq v'). cbn [rbind]. injection H as <- H. by apply app_inv_tail in H as ->.
Qed.

Lemma concat_ends_local x v v' : concat_ends (x ++ 41 :: v) = concat_ends (x ++ 41 :: v').
Proof. by destruct x. Qed.

Lemma re_concat_local f : local (re_concat inner f).
Proof.
  induction f as [|f IH]; intros x y r v v' H; [done|]. cbn [re_concat] in *. rewrite (concat_ends_local x v' v).
  destruct (concat_ends (x ++ 41 :: v)). { injection H as <- H. by apply app_inv_tail in H as ->. }
  inv_do. match goal with H : re_concat _ _ ?m = Ok _ |- _ => destruct (re_concat_suffix inner Hinner f _ _ _ H) as [p ->] end.
  rewrite app_assoc in *.
  match goal with H : re_repeat _ _ = Ok _ |- _ => apply (re_repeat_local _ _ _ _ v') in H; rewrite H end. cbn [rbind].
  match goal with H : re_concat _ _ _ = Ok _ |- _ => apply (IH _ _ _ _ v') in H; rewrite H end. done.
Qed.

(** The loops with the fuel their callers give them. *)
Lemma re_concat_local' s s' x y r v v' :
  s = x ++ 41 :: v -> s' = x ++ 41 :: v' -> re_concat inner (S (length s)) s = Ok (r, y ++ 41 :: v) ->
  re_concat inner (S (length s')) s' = Ok (r, y ++ 41 :: v').
Proof.
  intros -> -> H. apply (re_concat_local _ _ _ _ _ v') in H. apply (re_concat_fuel inner Hinner _ _ _ _ _ H). lia.
Qed.

Lemma re_alts_local f : local (re_alts inner f).
Proof.
  induction f as [|f IH]; intros x y r v v' H; [done|]. cbn [re_alts] in *. rewrite eat_paren in * by done.
  destruct (eat 124 x) as [x'|]; cbn [fmap option_fmap option_map] in *; [|injection H as <- H; by apply app_inv_tail in H as ->].
  destruct (re_concat inner (S (length (x' ++ 41 :: v))) (x' ++ 41 :: v)) as [[rs m]| | |] eqn:Ec; cbn [rbind] in H; try done.
  destruct (re_alts inner f m) as [[al rest]| | |] eqn:El; cbn [rbind] in H; try done. injection H as <- ->.
  destruct (re_alts_suffix inner Hinner f _ _ _ El) as [p ->]. rewrite app_assoc in *.
  apply (re_concat_local' _ (x' ++ 41 :: v') x' (p ++ y) rs v v' eq_refl eq_refl) in Ec. rewrite Ec. cbn [rbind].
  apply (IH _ _ _ _ v') in El. by rewrite El.
Qed.

Lemma re_alternatives_local : local (re_alternatives inner).
Proof.
  intros x y r v v' H. unfold re_alternatives in *.
  destruct (re_concat inner (S (length (x ++ 41 :: v))) (x ++ 41 :: v)) as [[rs m]| | |] eqn:Ec; cbn [rbind] in H; try done.
  destruct (re_alts inner (S (length m)) m) as [[al rest]| | |] eqn:El; cbn [rbind] in H; try done. injection H as <- ->.
  destruct (re_alts_suffix inner Hinner _ _ _ _ El) as [p ->]. rewrite app_assoc in *.
  apply (re_concat_local' _ (x ++ 41 :: v') x (p ++ y) rs v v' eq_refl eq_refl) in Ec. rewrite Ec. cbn [rbind].
  apply (re_alts_local _ _ _ _ _ v') in El. apply (re_alts_fuel inner Hinner _ (S (length ((p ++ y) ++ 41 :: v')))) in El; [|lia].
  by rewrite El.
Qed.
End Local.

Lemma re_alt_local depth : local (re_alt depth).
Proof. induction depth as [|d IH]; [done|]. apply re_alternatives_local; [apply re_alt_suffix|done]. Qed.

(** ** The refinement *)

Definition lift (x : res (regex * bytes)) (N : states) : res (Frag * states * bytes) :=
  do (r, rest) <- x; let (f, N) := build r N in Ok (f, N, rest).

Lemma chain_copies_ok (clone : states -> res (Frag * states)) b count cur N :
  (forall N, clone N = Ok (b N)) -> chain_copies clone count cur N = chain_copies (fun N => Ok (b N)) count cur N /\
  exists x, chain_copies clone count cur N = Ok x.
Proof.
  intros Hb. revert cur N. induction count as [|count IH]; intros cur N; cbn [chain_copies]; [by eauto|].
  rewrite Hb. cbn [rbind]. destruct (b N). apply IH.
Qed.

Lemma optional_copies_ok (clone : states -> res (Frag * states)) b count cur a N :
  (forall N, clone N = Ok (b N)) -> optional_copies clone count cur a N = optional_copies (fun N => Ok (b N)) count cur a N /\
  exists x, optional_copies clone count cur a N = Ok x.
Proof.
  intros Hb. revert cur N. induction count as [|count IH]; intros cur N; cbn [optional_copies]; [by eauto|].
  rewrite Hb. cbn [rbind]. destruct (b N). apply IH.
Qed.

Lemma range_frag_ok (clone : states -> res (Frag * states)) b d f n m N :
  (forall N, clone N = Ok (b N)) -> range_frag clone f n m N = Ok (ok_or d (range_frag (fun N => Ok (b N)) f n m N)).
Proof.
  intros Hb. unfold range_frag. destruct (new_state N) as [s N1]. destruct (if 1 <=? n then _ else _) as [[cur N2] built].
  destruct (chain_copies_ok clone b (Z.to_nat (n - built)) cur N2 Hb) as [E [[cur' N3] Hx]]. rewrite <- E, Hx. cbn [rbind].
  destruct (new_state N3) as [a N4]. destruct m as [m|].
  - destruct (optional_copies_ok clone b (Z.to_nat (m - n)) cur' a N4 Hb) as [E' [[cur'' N5] Hx']]. rewrite <- E', Hx'. done.
  - rewrite Hb. cbn [rbind]. destruct (b N4). by destruct (new_state _).
Qed.

Section Refine.
Context (pinner : states -> bytes -> res (Frag * states * bytes)) (inner : bytes -> res (regex * bytes)).
Context (Hinner : leaves_suffix inner) (Hlocal : local inner).
Hypothesis Href : forall N s, pinner N s = lift (inner s) N.

Lemma parse_atom_refines N s : parse_atom pinner N s = lift (re_atom inner s) N.
Proof.
  unfold parse_atom, re_atom. destruct s as [|c s]; [done|]. destruct (c =? 40).
  { rewrite Href. unfold lift. destruct (inner (skip_marker s)) as [[r rest]| | |]; cbn [rbind]; try done.
    destruct (build r N) as [f N'] eqn:Eb. cbn [rbind]. destruct (eat 41 rest); cbn [rbind]; [by rewrite Eb|done]. }
  destruct (c =? 91). { by destruct (parse_class s) as [[cls rest]| | |]. }
  destruct ((c =? 41) || (c =? 124)); [done|]. destruct (c =? 46); [done|].
  destruct (c =? 92); [by destruct s|]. by destruct ((c =? 94) || (c =? 36)).
Qed.

Lemma parse_repeat_refines f N s : parse_repeat pinner (S (S f)) N s = lift (re_repeat inner s) N.
Proof.
  set (g := S f). cbn [parse_repeat]. rewrite parse_atom_refines. unfold re_repeat, lift at 2.
  destruct (re_atom inner s) as [[r rest]| | |] eqn:Ea; cbn [rbind lift]; try done.
  destruct (build r N) as [atom N1] eqn:Eb. cbn [rbind].
  destruct (parse_quantifier rest) as [[[q rest']|]| | |]; cbn [rbind]; try done; [|by rewrite Eb].
  destruct q as [| | |n m]; cbn [quantify build]; rewrite Eb; try done.
  destruct (re_atom_reads inner Hinner _ _ _ Ea) as (c & p & Hs).
  assert (Hsrc : take (length s - length rest) s = c :: p).
  { rewrite Hs. cbn [length]. rewrite length_app. replace (S (length p + length rest) - length rest)%nat with (S (length p)) by lia.
    cbn [take]. by rewrite take_app_length. }
  assert (Hat : re_atom inner (c :: p) = Ok (r, [])).
  { rewrite <- (app_nil_r (c :: p)). apply (re_atom_exact inner Hinner Hlocal (c :: p) r rest []). cbn [app]. by rewrite <- Hs. }
  rewrite Hsrc, (range_frag_ok _ (build r) (atom, N1)).
  - by destruct (ok_or _ _).
  - intros M. unfold g. cbn [parse_repeat]. rewrite parse_atom_refines, Hat. cbn [lift rbind]. destruct (build r M). done.
Qed.

Lemma concat_loop_refines f cur any N s :
  concat_loop pinner f cur any N s =
    do (rs, rest) <- re_concat inner f s;
    let (cur', N') := build_concat rs cur N in Ok (cur', any || negb (bool_decide (rs = [])), N', rest).
Proof.
  revert cur any N s. induction f as [|f IH]; intros cur any N s; [done|]. cbn [concat_loop re_concat].
  destruct (concat_ends s) eqn:Ee; [cbn; by rewrite orb_false_r|].
  destruct s as [|c s]; [done|]. change (S (length (c :: s))) with (S (S (length s))).
  rewrite parse_repeat_refines. unfold lift. destruct (re_repeat inner (c :: s)) as [[r rest]| | |]; cbn [rbind]; try done.
  destruct (build r N) as [fr N1] eqn:Eb. cbn [rbind]. rewrite IH.
  destruct (re_concat inner f rest) as [[rs rest']| | |]; cbn [rbind]; try done. cbn [build_concat]. rewrite Eb.
  destruct (build_concat rs _ _) as [cur' N']. rewrite (bool_decide_eq_false_2 (r :: rs = [])) by done. cbn [negb]. by rewrite orb_true_r.
Qed.

Lemma parse_concat_refines N s :
  parse_concat pinner N s = lift (do (rs, rest) <- re_concat inner (S (length s)) s; Ok (RConcat rs, rest)) N.
Proof.
  unfold parse_concat. destruct (new_state N) as [s0 N1] eqn:En. rewrite concat_loop_refines.
  destruct (re_concat inner (S (length s)) s) as [[rs rest]| | |]; cbn [rbind lift]; try done.
  rewrite build_concat_eq, En. destruct rs as [|r rs].
  - cbn [build_concat]. cbn [rbind orb]. rewrite bool_decide_eq_true_2 by done. cbn [negb]. by destruct (new_state N1).
  - destruct (build_concat (r :: rs) s0 N1) as [cur N2]. cbn [rbind orb]. by rewrite bool_decide_eq_false_2.
Qed.

Lemma alt_loop_refines f s0 a N s :
  alt_loop pinner f s0 a N s = do (rs, rest) <- re_alts inner f s; Ok (build_alts rs s0 a N, rest).
Proof.
  revert N s. induction f as [|f IH]; intros N s; [done|]. cbn [alt_loop re_alts].
  destruct (eat 124 s) as [s'|]; [|done]. rewrite parse_concat_refines.
  destruct (re_concat inner (S (length s')) s') as [[rs rest]| | |]; cbn [rbind lift]; try done.
  destruct (build (RConcat rs) N) as [fr N1] eqn:Eb. cbn [rbind]. rewrite IH.
  destruct (re_alts inner f rest) as [[al rest']| | |]; cbn [rbind]; try done. cbn [build_alts]. by rewrite Eb.
Qed.

Lemma parse_alternatives_refines N s : parse_alternatives pinner N s = lift (re_alternatives inner s) N.
Proof.
  unfold parse_alternatives, re_alternatives. rewrite parse_concat_refines.
  destruct (re_concat inner (S (length s)) s) as [[rs rest]| | |]; cbn [rbind lift]; try done.
  destruct (build (RConcat rs) N) as [fr N1] eqn:Eb. cbn [rbind].
  destruct (eat 124 rest) as [s'|] eqn:Ee.
  - destruct (new_state N1) as [s0 N2] eqn:E2. destruct (new_state N2) as [a N3] eqn:E3. rewrite alt_loop_refines.
    destruct (re_alts inner (S (length rest)) rest) as [[al rest']| | |] eqn:El; cbn [rbind]; try done.
    destruct al as [|r al]. { exfalso. cbn [re_alts] in El. rewrite Ee in El. inv_do. }
    cbn [lift rbind]. rewrite build_alt_eq, Eb, E2, E3. done.
  - cbn [re_alts]. rewrite Ee. cbn [rbind]. unfold lift. cbn [rbind]. by rewrite Eb.
Qed.
End Refine.

(** The engine's parser, at every depth. *)
Lemma parse_alt_refines depth N s : parse_alt depth N s = lift (re_alt depth s) N.
Proof.
  revert N s. induction depth as [|d IH]; intros N s; [done|]. cbn [parse_alt re_alt].
  apply parse_alternatives_refines; [apply re_alt_suffix|apply re_alt_local|done].
Qed.

Lemma compile_refines p :
  compile p =
    do r <- parse_regex p;
    let (f, N) := build r [] in Ok (mkNfa (set_accepting (accept f) N) (start f) (accept f)).
Proof.
  unfold compile, parse_regex. rewrite parse_alt_refines. unfold lift.
  destruct (re_alt (S (length p)) p) as [[r rest]| | |]; cbn [rbind]; try done.
  destruct (build r []) as [f N] eqn:Eb. cbn [rbind]. destruct rest; cbn [rbind]; [|done]. by rewrite Eb.
Qed.

Lemma parse_regex_total p : parse_regex p ≠ NoFuel.
Proof.
  unfold parse_regex. pose proof (re_alt_total (S (length p)) p) as H.
  destruct (re_alt (S (length p)) p) as [[r rest]| | |]; cbn [rbind]; [by destruct rest|done|done|by destruct H; [lia|]].
Qed.
