(* ===== verification/RegexThompson.v ===== *)
(** * The fragments [build] makes

    Every fragment accepts the language of its expression: walks from its start
    to its accept state, and nothing else, read the words of the language.  A
    fragment keeps its language when edges are added to its accept state. *)

From Corelib Require Import ssreflect_rw.
From stdpp Require Import prelude list.
From S2P Require Import Prelude StreamPipeline Languages RegexNfa RegexSyntax.
Open Scope Z_scope.

(** ** Edges *)

Lemma length_add_epsilon f t N : length (add_epsilon f t N) = length N.
Proof. apply length_alter. Qed.

Lemma length_add_edge f t c N : length (add_edge f t c N) = length N.
Proof. apply length_alter. Qed.

Lemma edges_of_new N q : edges_of (N ++ [mkNfaState [] false]) q = edges_of N q.
Proof.
  unfold edges_of. destruct (decide (q < length N)%nat) as [H|H]; [by rewrite lookup_app_l|].
  rewrite lookup_app_r, (lookup_ge_None_2 N) by lia. destruct (q - length N)%nat; [done|by destruct n].
Qed.

Lemma edges_of_alter e f N q :
  (f < length N)%nat -> edges_of (alter (push_edge e) f N) q = if decide (q = f) then edges_of N q ++ [e] else edges_of N q.
Proof.
  intros Hf. unfold edges_of. destruct (decide (q = f)) as [-> |Hne].
  - unfold edges_of. rewrite list_lookup_alter_eq. by destruct (lookup_lt_is_Some_2 N f Hf) as [st ->].
  - by rewrite list_lookup_alter_ne.
Qed.

Definition eps (t : nat) : NfaEdge := mkEdge t true [].

Lemma edges_add_epsilon f t N q :
  (f < length N)%nat -> edges_of (add_epsilon f t N) q = if decide (q = f) then edges_of N q ++ [eps t] else edges_of N q.
Proof. apply edges_of_alter. Qed.

Lemma edges_of_beyond N q : (length N <= q)%nat -> edges_of N q = [].
Proof. intros H. unfold edges_of. by rewrite lookup_ge_None_2. Qed.

(** ** Walks *)

(** [walk N b n q w]: from [q] to the first visit of [b] in [n] edges, reading [w]. *)
Inductive walk (N : states) (b : nat) : nat -> nat -> bytes -> Prop :=
  | walk_stop : walk N b 0 b []
  | walk_eps n q e w : q ≠ b -> e ∈ edges_of N q -> is_epsilon e = true -> walk N b n (e_to e) w -> walk N b (S n) q w
  | walk_byte n q e c w :
      q ≠ b -> e ∈ edges_of N q -> is_epsilon e = false -> class_has (char_class e) c = true ->
      walk N b n (e_to e) w -> walk N b (S n) q (c :: w).

Definition walks (N : states) (b q : nat) : lang := fun w => exists n, walk N b n q w.

Lemma walk_at_end N b n w : walk N b n b w -> n = O /\ w = [].
Proof. inversion 1; by subst. Qed.

Lemma walks_end N b : (walks N b b ≡ lnil)%lang.
Proof. intros w. split; [intros [n [_ ->]%walk_at_end]; done|]. intros ->. exists O. constructor. Qed.

(** Walks that stay where two automata agree. *)
Lemma walk_agree (P : nat -> Prop) N M b n q w :
  (forall q, P q -> q ≠ b -> edges_of N q = edges_of M q) ->
  (forall q e, P q -> q ≠ b -> e ∈ edges_of N q -> P (e_to e)) ->
  P q -> walk N b n q w -> walk M b n q w.
Proof.
  intros Hsame Hclosed Hq H. induction H as [|n q e w Hne He Heps H IH|n q e c w Hne He Heps Hc H IH].
  - constructor.
  - apply walk_eps with e; auto; [by rewrite <- Hsame|]. apply IH. by apply (Hclosed q).
  - apply walk_byte with e; auto; [by rewrite <- Hsame|]. apply IH. by apply (Hclosed q).
Qed.

(** A state with only epsilon edges. *)
Lemma walk_eps_state N b q ts n w :
  q ≠ b -> edges_of N q = eps <$> ts -> walk N b n q w -> exists m t, n = S m /\ t ∈ ts /\ walk N b m t w.
Proof.
  intros Hne He. inversion 1 as [|n' q' e w' _ Hin Heps Hw|n' q' e c w' _ Hin Heps Hc Hw]; subst; try done;
    rewrite He in Hin; apply list_elem_of_fmap in Hin as (t & -> & Ht); [by exists n', t|done].
Qed.

Lemma walks_eps_state N b q ts w :
  q ≠ b -> edges_of N q = eps <$> ts -> (walks N b q w <-> exists t, t ∈ ts /\ walks N b t w).
Proof.
  intros Hne He. split.
  - intros [n Hw]. destruct (walk_eps_state _ _ _ _ _ _ Hne He Hw) as (m & t & -> & Ht & H). exists t. split; [done|by exists m].
  - intros (t & Ht & n & Hw). exists (S n). apply walk_eps with (eps t); auto. rewrite He. by apply list_elem_of_fmap_2.
Qed.

Lemma walks_one N b q t w : q ≠ b -> edges_of N q = [eps t] -> (walks N b q w <-> walks N b t w).
Proof.
  intros Hne He. rewrite (walks_eps_state N b q [t] w Hne He). split; [|by exists t; split; [set_solver|]].
  intros (t' & Ht%list_elem_of_singleton & H). by subst.
Qed.

Lemma walks_two N b q t t' w : q ≠ b -> edges_of N q = [eps t; eps t'] -> (walks N b q w <-> walks N b t w \/ walks N b t' w).
Proof.
  intros Hne He. rewrite (walks_eps_state N b q [t; t'] w Hne He). split.
  - intros (x & Hx & H). apply elem_of_cons in Hx as [-> |Hx%list_elem_of_singleton]; [by left|subst; by right].
  - intros [H|H]; eexists; (split; [|exact H]); set_solver.
Qed.

(** ** Reachability *)

(** The graph of the automaton, whatever its edges read. *)
Definition linked (N : states) (q q' : nat) : Prop := exists e, e ∈ edges_of N q /\ e_to e = q'.
Definition reach (N : states) : nat -> nat -> Prop := rtc (linked N).

Lemma reach_refl N q : reach N q q.
Proof. apply rtc_refl. Qed.

Lemma reach_trans N q q' q'' : reach N q q' -> reach N q' q'' -> reach N q q''.
Proof. intros; etrans; eauto. Qed.

Lemma reach_eps N q ts t q' : edges_of N q = eps <$> ts -> t ∈ ts -> reach N t q' -> reach N q q'.
Proof. intros He Ht. apply rtc_l. exists (eps t). rewrite He. split; [by apply list_elem_of_fmap_2|done]. Qed.

Lemma linked_eps N q ts q' : edges_of N q = eps <$> ts -> linked N q q' -> q' ∈ ts.
Proof. intros He (e & Hin & <-). rewrite He in Hin. by apply list_elem_of_fmap in Hin as (t & -> & Ht). Qed.

Lemma reach_none N q q' : edges_of N q = [] -> reach N q q' -> q' = q.
Proof. intros He H. inversion H as [|x y z (e & Hin & _) _]; subst; [done|]. rewrite He in Hin. inversion Hin. Qed.

(** What is reached has every property that links keep. *)
Lemma reach_keeps N (P : nat -> Prop) q q' : (forall q q', P q -> linked N q q' -> P q') -> P q -> reach N q q' -> P q'.
Proof. intros HP Hq H. induction H; eauto. Qed.

(** ** Fragments *)

(** The states from [lo] on are a fragment of the language [L]. *)
Record frag_ok (lo : nat) (N : states) (f : Frag) (L : lang) : Prop := {
  fo_start : (lo <= start f < length N)%nat;
  fo_accept : (lo <= accept f < length N)%nat;
  fo_end : edges_of N (accept f) = [];
  fo_closed : forall q e, (lo <= q)%nat -> e ∈ edges_of N q -> (lo <= e_to e < length N)%nat;
  fo_lang : (walks N (accept f) (start f) ≡ L)%lang;
  fo_live : forall q, reach N (start f) q -> reach N q (accept f)
}.

(** The states of a fragment its start state leads to. *)
Definition inside (lo : nat) (N : states) (f : Frag) (q : nat) : Prop := (lo <= q < length N)%nat /\ reach N (start f) q.

(** [M] has a fragment of [N], up to edges from its accept state. *)
Definition contains (M N : states) (lo : nat) (f : Frag) : Prop :=
  forall q, (lo <= q < length N)%nat -> q ≠ accept f -> edges_of M q = edges_of N q.

Section InContext.
Context (lo : nat) (N M : states) (f : Frag) (L : lang) (b : nat).
Context (Hf : frag_ok lo N f L) (Hin : contains M N lo f).
Context (Hb : b = accept f \/ ~ (lo <= b < length N)%nat).

Lemma walk_cut n q w :
  (lo <= q < length N)%nat -> walk M b n q w ->
  exists n1 n2 w1 w2, n = (n1 + n2)%nat /\ w = w1 ++ w2 /\ walk N (accept f) n1 q w1 /\ walk M b n2 (accept f) w2.
Proof.
  intros Hq H. induction H as [|n q e w Hne He Heps H IH|n q e c w Hne He Heps Hc H IH].
  - destruct Hb as [-> |]; [|done]. exists O, O, [], []. split_and!; auto; constructor.
  - destruct (decide (q = accept f)) as [-> |Hqa].
    { exists O, (S n), [], w. split_and!; auto; [constructor|by apply walk_eps with e]. }
    rewrite Hin in He by done. destruct IH as (n1 & n2 & w1 & w2 & -> & -> & H1 & H2); [by apply (fo_closed _ _ _ _ Hf q); [lia|]|].
    exists (S n1), n2, w1, w2. split_and!; auto. by apply walk_eps with e.
  - destruct (decide (q = accept f)) as [-> |Hqa].
    { exists O, (S n), [], (c :: w). split_and!; auto; [constructor|by apply walk_byte with e]. }
    rewrite Hin in He by done. destruct IH as (n1 & n2 & w1 & w2 & -> & -> & H1 & H2); [by apply (fo_closed _ _ _ _ Hf q); [lia|]|].
    exists (S n1), n2, (c :: w1), w2. split_and!; auto. by apply walk_byte with e.
Qed.

Lemma walk_join n1 n2 q w1 w2 :
  (lo <= q < length N)%nat -> walk N (accept f) n1 q w1 -> walk M b n2 (accept f) w2 -> walk M b (n1 + n2) q (w1 ++ w2).
Proof.
  intros Hq H H2. induction H as [|n q e w Hne He Heps H IH|n q e c w Hne He Heps Hc H IH]; [done|..];
    pose proof (fo_closed _ _ _ _ Hf q e ltac:(lia) He) as Hr; assert (Hqb : q ≠ b) by (destruct Hb; [congruence|intros ->; lia]).
  - apply walk_eps with e; auto. by rewrite Hin.
  - apply walk_byte with e; auto. by rewrite Hin.
Qed.

Lemma inside_start : inside lo N f (start f).
Proof. split; [apply (fo_start _ _ _ _ Hf)|apply reach_refl]. Qed.

Lemma inside_accept : inside lo N f (accept f).
Proof. split; [apply (fo_accept _ _ _ _ Hf)|]. apply (fo_live _ _ _ _ Hf), reach_refl. Qed.

(** A link leaves the fragment only from its accept state. *)
Lemma inside_linked q q' : inside lo N f q -> q ≠ accept f -> linked M q q' -> inside lo N f q'.
Proof.
  clear b Hb. intros [Hq Hr] Hne (e & He & <-). rewrite Hin in He by done. split; [by apply (fo_closed _ _ _ _ Hf q); [lia|]|].
  eapply rtc_r; [exact Hr|]. by exists e.
Qed.

Lemma inside_live q : inside lo N f q -> reach M q (accept f).
Proof.
  clear b Hb. intros [Hq Hr]. apply (fo_live _ _ _ _ Hf) in Hr. remember (accept f) as t eqn:Et. induction Hr as [|x y z (e & He & <-) Hr IH]; [apply reach_refl|].
  destruct (decide (x = accept f)) as [Hx|Hx].
  { subst x. by rewrite (fo_end _ _ _ _ Hf) in He; inversion He. }
  eapply rtc_l; [|apply IH; [by apply (fo_closed _ _ _ _ Hf x); [lia|]|done]]. exists e. by rewrite Hin.
Qed.

(** From the start state: a word of the fragment, then what follows it. *)
Lemma frag_walks : (walks M b (start f) ≡ L ⋅ walks M b (accept f))%lang.
Proof.
  pose proof (fo_start _ _ _ _ Hf) as Hs. intros w. split.
  - intros [n H]. destruct (walk_cut n _ w Hs H) as (n1 & n2 & w1 & w2 & _ & -> & H1 & H2).
    exists w1, w2. split_and!; [done| |by exists n2]. apply (fo_lang _ _ _ _ Hf). by exists n1.
  - intros (w1 & w2 & -> & H1 & n2 & H2). apply (fo_lang _ _ _ _ Hf) in H1 as [n1 H1]. exists (n1 + n2)%nat. by apply walk_join.
Qed.

(** A loop back from the accept state: any number of words. *)
Lemma loop_walks : b ≠ accept f -> edges_of M (accept f) = [eps (start f); eps b] -> (walks M b (accept f) ≡ lstar L)%lang.
Proof.
  intros Hba He w. split.
  - intros [n H]. revert w H. induction (lt_wf n) as [n _ IH]. intros w H.
    apply (walk_eps_state _ _ _ [start f; b]) in H as (m & t & -> & Ht & H); [|done|done].
    apply elem_of_cons in Ht as [-> |Ht%list_elem_of_singleton].
    + destruct (walk_cut m _ w (fo_start _ _ _ _ Hf) H) as (n1 & n2 & w1 & w2 & -> & -> & H1 & H2).
      apply (IH n2) in H2 as [k Hk]; [|lia]. exists (S k). exists w1, w2. split_and!; auto. apply (fo_lang _ _ _ _ Hf). by exists n1.
    + subst. apply walk_at_end in H as [_ ->]. by exists O.
  - intros [k Hk]. revert w Hk. induction k as [|k IH]; intros w Hk.
    + cbn in Hk. subst. rewrite walks_two by done. right. by apply walks_end.
    + rewrite walks_two by done. left. apply frag_walks. destruct Hk as (w1 & w2 & -> & H1 & H2). exists w1, w2. auto.
Qed.
End InContext.

(** ** Fragments of [build] *)

(** What building a fragment leaves of the automaton it extends. *)
Record extends (N N' : states) : Prop := {
  ex_length : (length N <= length N')%nat;
  ex_same : forall q, (q < length N)%nat -> edges_of N' q = edges_of N q
}.

Definition builds (N : states) (r : Frag * states) (L : lang) : Prop := frag_ok (length N) r.2 r.1 L /\ extends N r.2.

(** Rewrites the edges of a built automaton state by state. *)
Ltac edge_simp :=
  repeat first
    [ rewrite edges_add_epsilon by (rewrite ?length_add_epsilon, ?length_app; cbn [length]; lia)
    | rewrite edges_of_new
    | rewrite decide_True by (done || lia)
    | rewrite decide_False by (done || lia) ].

Ltac lens := rewrite ?length_add_epsilon, ?length_add_edge, ?length_app in *; cbn [length start accept] in *.

Lemma class_frag_ok cls N : builds N (class_frag cls N) (lclass (class_has cls)).
Proof.
  unfold class_frag, new_state. cbn [fst snd]. set (s := length N). set (N2 := (N ++ _) ++ _). set (a := length (N ++ _)).
  assert (Ha : a = S s) by (unfold a, s; rewrite length_app; cbn; lia).
  assert (Hl : length N2 = S (S s)) by (unfold N2, s; rewrite !length_app; cbn; lia).
  assert (He : forall q, edges_of (add_edge s a cls N2) q = if decide (q = s) then [mkEdge a false cls] else edges_of N q).
  { intros q. unfold add_edge. rewrite edges_of_alter by lia. unfold N2. rewrite !edges_of_new.
    case_decide as Hq; [|done]. subst q. by rewrite edges_of_beyond. }
  split; cbn [fst snd]; [constructor; cbn [start accept]; rewrite ?length_add_edge; try lia|].
  - rewrite He, decide_False by lia. apply edges_of_beyond. lia.
  - intros q e Hq. rewrite He. case_decide; [|rewrite edges_of_beyond by lia; inversion 1].
    intros ->%list_elem_of_singleton. cbn. lia.
  - intros w. split.
    + intros [n H]. inversion H as [|n' q e w' _ Hin Heps Hw|n' q e c w' _ Hin Heps Hc Hw]; subst; try lia;
        rewrite He, decide_True in Hin by done; apply list_elem_of_singleton in Hin as ->; [done|].
      apply walk_at_end in Hw as [_ ->]. by exists c.
    + intros (c & -> & Hc). exists 1%nat. apply walk_byte with (mkEdge a false cls); try done; [lia| |constructor].
      rewrite He, decide_True by done. by apply list_elem_of_singleton.
  - assert (Hsa : linked (add_edge s a cls N2) s a).
    { exists (mkEdge a false cls). rewrite He, decide_True by done. split; [by apply list_elem_of_singleton|done]. }
    intros q Hq. cut (q = s \/ q = a); [intros [-> | ->]; [by apply rtc_once|apply reach_refl]|].
    apply (reach_keeps _ (fun q => q = s \/ q = a)) in Hq; auto. intros x y Hx (e & Hin & <-). rewrite He in Hin. case_decide.
    + apply list_elem_of_singleton in Hin as ->. by right.
    + rewrite edges_of_beyond in Hin by lia. inversion Hin.
  - constructor; [rewrite length_add_edge; lia|]. intros q Hq. rewrite He, decide_False by lia. done.
Qed.

Lemma epsilon_frag_ok N : builds N (epsilon_frag N) lnil.
Proof.
  unfold epsilon_frag, new_state. cbn [fst snd]. set (s := length N). set (N2 := (N ++ _) ++ _). set (a := length (N ++ _)).
  assert (Ha : a = S s) by (unfold a, s; rewrite length_app; cbn; lia).
  assert (Hl : length N2 = S (S s)) by (unfold N2, s; rewrite !length_app; cbn; lia).
  assert (He : forall q, edges_of (add_epsilon s a N2) q = if decide (q = s) then [eps a] else edges_of N q).
  { intros q. rewrite edges_add_epsilon by lia. unfold N2. rewrite !edges_of_new.
    case_decide as Hq; [|done]. subst q. by rewrite edges_of_beyond. }
  split; cbn [fst snd]; [constructor; cbn [start accept]; rewrite ?length_add_epsilon; try lia|].
  - rewrite He, decide_False by lia. apply edges_of_beyond. lia.
  - intros q e Hq. rewrite He. case_decide; [|rewrite edges_of_beyond by lia; inversion 1].
    intros ->%list_elem_of_singleton. cbn. lia.
  - intros w. rewrite (walks_one _ _ _ a); [apply walks_end|lia|]. by rewrite He, decide_True.
  - assert (Es : edges_of (add_epsilon s a N2) s = eps <$> [a]) by by rewrite He, decide_True.
    intros q Hq. cut (q = s \/ q = a); [intros [-> | ->]; [apply (reach_eps _ _ [a] a); auto using reach_refl; by left|apply reach_refl]|].
    apply (reach_keeps _ (fun q => q = s \/ q = a)) in Hq; auto. intros x y [-> | ->] Hxy.
    + apply (linked_eps _ _ _ _ Es) in Hxy as ->%list_elem_of_singleton. by right.
    + destruct Hxy as (e & Hin & _). rewrite He, decide_False, edges_of_beyond in Hin by lia. inversion Hin.
  - constructor; [rewrite length_add_epsilon; lia|]. intros q Hq. rewrite He, decide_False by lia. done.
Qed.

(** Two new states [s] and [a] around a fragment: the edges of [s] and of the
    accept state are given, all others are those of [N1]. *)
Lemma wrap_ok N N1 f L es_s es_f M K :
  frag_ok (length N) N1 f L -> extends N N1 ->
  let s := length N1 in let a := S (length N1) in
  length M = S (S (length N1)) ->
  (forall q, edges_of M q = if decide (q = s) then eps <$> es_s else if decide (q = accept f) then eps <$> es_f else edges_of N1 q) ->
  (forall t, t ∈ es_s ++ es_f -> t = a \/ t = start f) -> es_s ≠ [] -> a ∈ es_f ->
  (walks M a s ≡ K)%lang ->
  builds N (mkFrag s a, M) K.
Proof.
  intros Hf [Hl Hsame] s a Hlen Hedge Hts Hs0 Haf HK. pose proof Hf as [Hs Ha He Hc HL _].
  split; cbn [fst snd]; [constructor; cbn [start accept]; try lia; try done|].
  - unfold a, s in *. rewrite Hedge, !decide_False by lia. apply edges_of_beyond. lia.
  - intros q e Hq. rewrite Hedge. case_decide; [|case_decide].
    + intros (t & -> & Ht)%list_elem_of_fmap. cbn. destruct (Hts t) as [-> | ->]; [set_solver|unfold a, s in *; lia..].
    + intros (t & -> & Ht)%list_elem_of_fmap. cbn. destruct (Hts t) as [-> | ->]; [set_solver|unfold a, s in *; lia..].
    + intros H1%(Hc q); lia.
  - assert (C : contains M N1 (length N) f).
    { intros q Hq Hne. by rewrite Hedge, !decide_False by (unfold s; (lia || done)). }
    assert (Es : edges_of M s = eps <$> es_s) by by rewrite Hedge, decide_True.
    assert (Ef : edges_of M (accept f) = eps <$> es_f) by (rewrite Hedge, decide_False, decide_True by (unfold s; (done || lia)); done).
    assert (Ea : edges_of M a = []).
    { unfold a, s in *. rewrite Hedge, !decide_False by lia. apply edges_of_beyond. lia. }
    assert (Lf : forall q, inside (length N) N1 f q -> reach M q a).
    { intros q Hq. eapply reach_trans; [by apply (inside_live _ _ _ _ _ Hf C)|]. eapply reach_eps; eauto using reach_refl. }
    assert (Lt : forall t, t = a \/ t = start f -> reach M t a).
    { intros t [-> | ->]; [apply reach_refl|]. apply Lf, (inside_start _ _ _ _ Hf). }
    assert (It : forall t, t ∈ es_s ++ es_f -> inside (length N) N1 f t \/ t = s \/ t = a).
    { intros t [-> | ->]%Hts; [by right; right|left; apply (inside_start _ _ _ _ Hf)]. }
    intros q Hq. apply (reach_keeps _ (fun q => inside (length N) N1 f q \/ q = s \/ q = a)) in Hq; [|clear q Hq|by right; left].
    + destruct Hq as [Hq|[-> | ->]]; [auto| |apply reach_refl]. destruct es_s as [|t es]; [done|].
      eapply reach_eps; [exact Es|by left|]. apply Lt, Hts. set_solver.
    + intros x y [Hx|[-> | ->]] Hxy.
      * destruct (decide (x = accept f)) as [-> |Hne]; [|left; by apply (inside_linked _ _ _ _ _ Hf C x)].
        apply It. apply (linked_eps _ _ _ _ Ef) in Hxy. set_solver.
      * apply It. apply (linked_eps _ _ _ _ Es) in Hxy. set_solver.
      * destruct Hxy as (e & Hin & _). rewrite Ea in Hin. inversion Hin.
  - constructor; [lia|]. intros q Hq. rewrite Hedge, !decide_False by (unfold s; lia). by apply Hsame.
Qed.

Lemma lstar_unfold L : (lstar L ≡ lnil ⊕ L ⋅ lstar L)%lang.
Proof.
  intros w. split.
  - intros [[|k] H]; [by left|right]. destruct H as (w1 & w2 & -> & H1 & H2). exists w1, w2. split_and!; auto. by exists k.
  - intros [-> |(w1 & w2 & -> & H1 & k & H2)]; [by exists O|exists (S k)]. by exists w1, w2.
Qed.

Section Wrapped.
Context (N N1 M : states) (f : Frag) (L : lang) (es_s es_f : list nat).
Context (Hf : frag_ok (length N) N1 f L).
Let s := length N1.
Let a := S (length N1).
Context (Hedge : forall q, edges_of M q =
  if decide (q = s) then eps <$> es_s else if decide (q = accept f) then eps <$> es_f else edges_of N1 q).

Lemma wrapped_contains : contains M N1 (length N) f.
Proof. intros q Hq Hne. by rewrite Hedge, !decide_False by (unfold s; (lia || done)). Qed.

Lemma wrapped_start : (walks M a (start f) ≡ L ⋅ walks M a (accept f))%lang.
Proof. apply (frag_walks _ _ _ _ _ _ Hf wrapped_contains). right. unfold a. lia. Qed.

Lemma wrapped_accept : edges_of M (accept f) = eps <$> es_f.
Proof. rewrite Hedge, decide_False, decide_True by (pose proof (fo_accept _ _ _ _ Hf); unfold s; (done || lia)). done. Qed.

Lemma wrapped_new : edges_of M s = eps <$> es_s.
Proof. by rewrite Hedge, decide_True. Qed.

Lemma wrapped_accept_end : es_f = [a] -> (walks M a (accept f) ≡ lnil)%lang.
Proof.
  intros Ef w. rewrite (walks_one _ _ _ a); [apply walks_end|pose proof (fo_accept _ _ _ _ Hf); unfold a; lia|].
  by rewrite wrapped_accept, Ef.
Qed.

Lemma wrapped_loop : es_f = [start f; a] -> (walks M a (accept f) ≡ lstar L)%lang.
Proof.
  intros Ef. pose proof (fo_accept _ _ _ _ Hf) as Ha. apply (loop_walks _ _ _ _ _ _ Hf wrapped_contains); try (unfold a; lia).
  by rewrite wrapped_accept, Ef.
Qed.
End Wrapped.

(** The edges of [star_frag] and its siblings. *)
Ltac wrapped_edges Hf M :=
  let q := fresh "q" in
  intros q; unfold M; pose proof (fo_accept _ _ _ _ Hf) as Hacc; pose proof (fo_end _ _ _ _ Hf) as Hend;
  repeat rewrite edges_add_epsilon by (rewrite ?length_add_epsilon, ?length_app; cbn [length]; lia);
  rewrite !edges_of_new; rewrite ?length_app; cbn [length]; rewrite ?Nat.add_1_r;
  repeat case_decide; try lia; subst;
  rewrite ?Hend, ?edges_of_beyond by lia; reflexivity.

Lemma star_frag_ok N N1 f L : frag_ok (length N) N1 f L -> extends N N1 -> builds N (star_frag f N1) (lstar L).
Proof.
  intros Hf Hx. unfold star_frag, new_state. cbn [fst snd].
  rewrite !length_app, Nat.add_1_r. set (M := add_epsilon _ _ _).
  assert (He : forall q, edges_of M q = if decide (q = length N1) then eps <$> [start f; S (length N1)]
    else if decide (q = accept f) then eps <$> [start f; S (length N1)] else edges_of N1 q) by wrapped_edges Hf M.
  assert (Hl : length M = S (S (length N1))) by (unfold M; rewrite !length_add_epsilon, !length_app; cbn; lia).
  apply (wrap_ok N N1 f L _ _ M _ Hf Hx Hl He); [set_solver|done|set_solver|].
  intros w. rewrite (walks_two _ _ _ (start f) (S (length N1))); [|lia|by rewrite He, decide_True].
  rewrite (wrapped_start N N1 M f L _ _ Hf He w), (walks_end M (S (length N1)) w), (lstar_unfold L w).
  assert (E : (L ⋅ walks M (S (length N1)) (accept f) ≡ L ⋅ lstar L)%lang) by by rewrite (wrapped_loop N N1 M f L _ _ Hf He).
  rewrite (E w). unfold lor. tauto.
Qed.

Lemma plus_frag_ok N N1 f L : frag_ok (length N) N1 f L -> extends N N1 -> builds N (plus_frag f N1) (L ⋅ lstar L)%lang.
Proof.
  intros Hf Hx. unfold plus_frag, new_state. cbn [fst snd].
  rewrite !length_app, Nat.add_1_r. set (M := add_epsilon _ _ _).
  assert (He : forall q, edges_of M q = if decide (q = length N1) then eps <$> [start f]
    else if decide (q = accept f) then eps <$> [start f; S (length N1)] else edges_of N1 q) by wrapped_edges Hf M.
  assert (Hl : length M = S (S (length N1))) by (unfold M; rewrite !length_add_epsilon, !length_app; cbn; lia).
  apply (wrap_ok N N1 f L _ _ M _ Hf Hx Hl He); [set_solver|done|set_solver|].
  intros w. rewrite (walks_one _ _ _ (start f)); [|lia|by rewrite He, decide_True].
  rewrite (wrapped_start N N1 M f L _ _ Hf He w).
  assert (E : (L ⋅ walks M (S (length N1)) (accept f) ≡ L ⋅ lstar L)%lang) by by rewrite (wrapped_loop N N1 M f L _ _ Hf He).
  apply (E w).
Qed.

Lemma opt_frag_ok N N1 f L : frag_ok (length N) N1 f L -> extends N N1 -> builds N (opt_frag f N1) (lopt L).
Proof.
  intros Hf Hx. unfold opt_frag, new_state. cbn [fst snd].
  rewrite !length_app, Nat.add_1_r. set (M := add_epsilon _ _ _).
  assert (He : forall q, edges_of M q = if decide (q = length N1) then eps <$> [start f; S (length N1)]
    else if decide (q = accept f) then eps <$> [S (length N1)] else edges_of N1 q) by wrapped_edges Hf M.
  assert (Hl : length M = S (S (length N1))) by (unfold M; rewrite !length_add_epsilon, !length_app; cbn; lia).
  apply (wrap_ok N N1 f L _ _ M _ Hf Hx Hl He); [set_solver|done|set_solver|].
  intros w. rewrite (walks_two _ _ _ (start f) (S (length N1))); [|lia|by rewrite He, decide_True].
  rewrite (wrapped_start N N1 M f L _ _ Hf He w), (walks_end M (S (length N1)) w).
  assert (E : (L ⋅ walks M (S (length N1)) (accept f) ≡ L)%lang).
  { rewrite (wrapped_accept_end N N1 M f L _ _ Hf He) by done. apply lcat_nil_r. }
  rewrite (E w). unfold lopt, lor. tauto.
Qed.

(** ** Sequences *)

(** Below [lo] nothing has changed, and states were only added. *)
Definition keeps (lo : nat) (N M : states) : Prop :=
  (length N <= length M)%nat /\ forall q, (q < lo)%nat -> edges_of M q = edges_of N q.

Lemma keeps_trans lo N M O : keeps lo N M -> keeps lo M O -> keeps lo N O.
Proof. intros [H1 H2] [H3 H4]. split; [lia|]. intros q Hq. by rewrite H4, H2. Qed.

Lemma frag_ok_equiv lo N f L L' : (L ≡ L')%lang -> frag_ok lo N f L -> frag_ok lo N f L'.
Proof. intros HL [H1 H2 H3 H4 H5 H6]. constructor; auto. by rewrite H5. Qed.

Lemma frag_seq lo N s cur L1 f N1 L :
  frag_ok lo N (mkFrag s cur) L1 -> builds N (f, N1) L ->
  frag_ok lo (add_epsilon cur (start f) N1) (mkFrag s (accept f)) (L1 ⋅ L)%lang /\ keeps lo N (add_epsilon cur (start f) N1).
Proof.
  intros Hf1 [Hf [Hl Hsame]]. cbn [fst snd] in *. pose proof Hf1 as [Hs1 Ha1 He1 Hc1 HL1 _]. pose proof Hf as [Hs Ha He Hc HL _].
  cbn [start accept] in *. set (M := add_epsilon cur (start f) N1).
  assert (HM : forall q, edges_of M q = if decide (q = cur) then [eps (start f)] else edges_of N1 q).
  { intros q. unfold M. rewrite edges_add_epsilon by lia. case_decide as Hq; [|done]. subst q. by rewrite Hsame, He1 by lia. }
  assert (HlM : length M = length N1) by apply length_add_epsilon.
  assert (C1 : contains M N lo (mkFrag s cur)).
  { intros q Hq Hne. cbn in Hne. by rewrite HM, decide_False, Hsame by (done || lia). }
  assert (C2 : contains M N1 (length N) f) by (intros q Hq Hne; by rewrite HM, decide_False by lia).
  split; [|split; [lia|intros q Hq; by rewrite HM, decide_False, Hsame by lia]].
  constructor; cbn [start accept]; try lia.
  - by rewrite HM, decide_False, He by lia.
  - intros q e Hq. rewrite HM. case_decide; [intros ->%list_elem_of_singleton; cbn; lia|].
    destruct (decide (q < length N)%nat) as [Hlt|Hge]; [rewrite Hsame by lia; intros H1%Hc1; lia|intros H1%Hc; lia].
  - rewrite (frag_walks _ _ _ _ _ (accept f) Hf1 C1) by (right; lia). cbn [start accept].
    assert (E : (walks M (accept f) cur ≡ L)%lang); [|by rewrite E]. intros w.
    rewrite (walks_one _ _ _ (start f)); [|lia|by rewrite HM, decide_True].
    rewrite (frag_walks _ _ _ _ _ (accept f) Hf C2 (or_introl eq_refl) w).
    assert (E' : (L ⋅ walks M (accept f) (accept f) ≡ L)%lang) by (rewrite walks_end; apply lcat_nil_r). apply (E' w).
  - assert (Ec : edges_of M cur = eps <$> [start f]) by by rewrite HM, decide_True.
    assert (L2 : forall q, inside (length N) N1 f q -> reach M q (accept f)) by apply (inside_live _ _ _ _ _ Hf C2).
    intros q Hq. apply (reach_keeps _ (fun q => inside lo N (mkFrag s cur) q \/ inside (length N) N1 f q)) in Hq.
    + destruct Hq as [Hq|Hq]; [|auto]. eapply reach_trans; [by apply (inside_live _ _ _ _ _ Hf1 C1)|].
      eapply reach_eps; [exact Ec|by left|]. apply L2, (inside_start _ _ _ _ Hf).
    + intros x y [Hx|Hx] Hxy.
      * destruct (decide (x = cur)) as [-> |Hne]; [|left; by apply (inside_linked _ _ _ _ _ Hf1 C1 x)].
        apply (linked_eps _ _ _ _ Ec) in Hxy as ->%list_elem_of_singleton. right. apply (inside_start _ _ _ _ Hf).
      * destruct (decide (x = accept f)) as [-> |Hne]; [|right; by apply (inside_linked _ _ _ _ _ Hf C2 x)].
        destruct Hxy as (e & Hin & _). rewrite HM, decide_False, He in Hin by lia. inversion Hin.
    + left. apply (inside_start _ _ _ _ Hf1).
Qed.

(** A new state on its own. *)
Lemma frag_single lo N :
  (lo <= length N)%nat -> (forall q e, (lo <= q)%nat -> e ∈ edges_of N q -> (lo <= e_to e < length N)%nat) ->
  frag_ok lo (N ++ [mkNfaState [] false]) (mkFrag (length N) (length N)) lnil.
Proof.
  intros Hlo Hc. constructor; cbn [start accept]; rewrite ?length_app; cbn [length]; try lia.
  - rewrite edges_of_new. by apply edges_of_beyond.
  - intros q e Hq. rewrite edges_of_new. intros H%Hc; lia.
  - apply walks_end.
  - intros q Hq. apply reach_none in Hq as ->; [apply reach_refl|]. rewrite edges_of_new. by apply edges_of_beyond.
Qed.

Lemma keeps_new lo N : (lo <= length N)%nat -> keeps lo N (N ++ [mkNfaState [] false]).
Proof. intros H. split; [rewrite length_app; lia|]. intros q Hq. apply edges_of_new. Qed.

Definition build_ok (r : regex) : Prop := forall N, builds N (build r N) (den r).

Lemma chain_copies_frag r count lo N s cur L1 cur' N' :
  build_ok r -> frag_ok lo N (mkFrag s cur) L1 ->
  chain_copies (fun N => Ok (build r N)) count cur N = Ok (cur', N') ->
  frag_ok lo N' (mkFrag s cur') (L1 ⋅ lpow (den r) count)%lang /\ keeps lo N N'.
Proof.
  intros Hr. revert N cur L1. induction count as [|count IH]; intros N cur L1 Hf; cbn [chain_copies rbind lpow].
  - intros [= <- <-]. split; [|by split]. by apply (frag_ok_equiv _ _ _ L1); [by rewrite lcat_nil_r|].
  - destruct (build r N) as [f N1] eqn:Eb. pose proof (Hr N) as Hb. rewrite Eb in Hb.
    destruct (frag_seq _ _ _ _ _ _ _ _ Hf Hb) as [Hf' Hk]. intros H. apply (IH _ _ _ Hf') in H as [H1 H2].
    split; [|eauto using keeps_trans]. apply (frag_ok_equiv _ _ _ _ _ (lcat_assoc _ _ _) H1).
Qed.

Lemma build_concat_frag rs lo N s cur L1 cur' N' :
  Forall build_ok rs -> frag_ok lo N (mkFrag s cur) L1 -> build_concat rs cur N = (cur', N') ->
  frag_ok lo N' (mkFrag s cur') (L1 ⋅ den (RConcat rs))%lang /\ keeps lo N N'.
Proof.
  intros Hrs. revert N cur L1. induction Hrs as [|r rs Hr Hrs IH]; intros N cur L1 Hf; cbn [build_concat].
  - intros [= <- <-]. split; [|by split]. by apply (frag_ok_equiv _ _ _ L1); [by rewrite lcat_nil_r|].
  - destruct (build r N) as [f N1] eqn:Eb. pose proof (Hr N) as Hb. rewrite Eb in Hb.
    destruct (frag_seq _ _ _ _ _ _ _ _ Hf Hb) as [Hf' Hk]. intros H. apply (IH _ _ _ Hf') in H as [H1 H2].
    split; [|eauto using keeps_trans]. apply (frag_ok_equiv _ _ _ _ _ (lcat_assoc _ _ _) H1).
Qed.

Lemma builds_intro N f M L : frag_ok (length N) M f L -> keeps (length N) N M -> builds N (f, M) L.
Proof. intros Hf [H1 H2]. split; [exact Hf|constructor; [exact H1|exact H2]]. Qed.

Lemma edges_closed_beyond N q e : (length N <= q)%nat -> e ∈ edges_of N q -> (length N <= e_to e < length N)%nat.
Proof. intros Hq. rewrite edges_of_beyond by done. inversion 1. Qed.

Lemma concat_ok rs : Forall build_ok rs -> build_ok (RConcat rs).
Proof.
  intros Hrs N. rewrite build_concat_eq. unfold new_state. destruct rs as [|r rs].
  { apply (epsilon_frag_ok N). }
  destruct (build_concat (r :: rs) (length N) (N ++ [mkNfaState [] false])) as [cur M] eqn:E.
  pose proof (frag_single (length N) N (le_n _) (edges_closed_beyond N)) as H0.
  destruct (build_concat_frag _ _ _ _ _ _ _ _ Hrs H0 E) as [Hf Hk].
  apply builds_intro; [by apply (frag_ok_equiv _ _ _ _ _ (lcat_nil_l _))|eauto using keeps_trans, keeps_new].
Qed.

(** ** Alternatives *)

Definition no_edge_into (lo : nat) (N : states) (s : nat) : Prop := forall q e, (lo <= q)%nat -> e ∈ edges_of N q -> e_to e ≠ s.

Section AddAlternative.
Context (lo : nat) (N N1 : states) (s0 a : nat) (f : Frag) (K L : lang).
Context (HK : frag_ok lo N (mkFrag s0 a) K) (Hsa : s0 ≠ a) (Hinto : no_edge_into lo N s0) (Hb : builds N (f, N1) L).
Let M := add_epsilon (accept f) a (add_epsilon s0 (start f) N1).

Lemma alt_edges q :
  edges_of M q = if decide (q = accept f) then [eps a] else if decide (q = s0) then edges_of N s0 ++ [eps (start f)] else edges_of N1 q.
Proof.
  destruct HK as [Hs Ha _ _ _ _], Hb as [[_ Ha' He' _ _ _] [Hl Hsame]]. cbn [fst snd start accept] in *.
  unfold M. rewrite !edges_add_epsilon by (rewrite ?length_add_epsilon; lia).
  case_decide as H1; [subst q; rewrite decide_False by lia; by rewrite He'|].
  case_decide as H2; [subst q; by rewrite Hsame by lia|done].
Qed.

Lemma alt_old q : (q < length N)%nat -> q ≠ s0 -> edges_of M q = edges_of N q.
Proof.
  destruct Hb as [[_ Ha' _ _ _ _] [Hl Hsame]]. cbn [fst snd] in *. intros Hq Hne. rewrite alt_edges, !decide_False by (done || lia).
  by apply Hsame.
Qed.

Lemma alt_new w : walks M a (start f) w <-> L w.
Proof.
  pose proof HK as [_ Ha _ _ _ _]. pose proof Hb as [Hf [Hl Hsame]]. pose proof Hf as [Hs' Ha' _ _ _ _]. cbn [fst snd start accept] in *.
  assert (C : contains M N1 (length N) f).
  { intros q Hq Hne. pose proof HK as [Hs0 _ _ _ _ _]. cbn in Hs0. by rewrite alt_edges, !decide_False by (done || lia). }
  assert (Hout : ~ (length N <= a < length N1)%nat) by lia.
  rewrite (frag_walks _ _ _ _ _ a Hf C (or_intror Hout) w).
  assert (E : (L ⋅ walks M a (accept f) ≡ L)%lang); [|apply (E w)].
  rewrite <- (lcat_nil_r L) at 2. apply lcat_proper; [done|]. intros v. rewrite (walks_one _ _ _ a); [apply walks_end|lia|].
  by rewrite alt_edges, decide_True.
Qed.

(** The part of the automaton old walks stay in. *)
Lemma alt_walk_old n q w : (lo <= q < length N)%nat -> q ≠ s0 -> (walk M a n q w <-> walk N a n q w).
Proof.
  intros Hq Hne. pose proof HK as [_ _ _ Hc _ _].
  assert (Hcl : forall q e, (lo <= q < length N)%nat /\ q ≠ s0 -> e ∈ edges_of N q -> (lo <= e_to e < length N)%nat /\ e_to e ≠ s0).
  { intros q' e [Hq' _] He. split; [by apply (Hc q'); [lia|]|by apply (Hinto q'); [lia|]]. }
  split; apply (walk_agree (fun q => (lo <= q < length N)%nat /\ q ≠ s0)); auto.
  - intros q' [Hq' Hne'] _. apply alt_old; [lia|done].
  - intros q' e [Hq' Hne'] _. rewrite alt_old by (done || lia). by apply Hcl.
  - intros q' [Hq' Hne'] _. by rewrite alt_old by (done || lia).
  - intros q' e Hq' _. by apply Hcl.
Qed.

Lemma alt_start_edges : edges_of M s0 = edges_of N s0 ++ [eps (start f)].
Proof.
  pose proof HK as [Hs _ _ _ _ _]. pose proof Hb as [[_ Ha' _ _ _ _] _]. cbn in *.
  by rewrite alt_edges, decide_False, decide_True by (done || lia).
Qed.

Lemma alt_lang : (walks M a s0 ≡ K ⊕ L)%lang.
Proof.
  pose proof HK as [Hs Ha _ Hc HL _]. cbn [start accept] in *. intros w.
  assert (Hin : forall e, e ∈ edges_of N s0 -> (lo <= e_to e < length N)%nat /\ e_to e ≠ s0).
  { intros e He. split; [by apply (Hc s0); [lia|]|by apply (Hinto s0); [lia|]]. }
  split.
  - intros [n H]. inversion H as [|n' q e w' Hne He Heps Hw|n' q e c w' Hne He Heps Hcl Hw]; subst; [done|..];
      rewrite alt_start_edges in He; apply elem_of_app in He as [He|He%list_elem_of_singleton].
    + left. apply HL. exists (S n'). apply walk_eps with e; auto. destruct (Hin e He). by apply alt_walk_old.
    + right. apply alt_new. subst e. by exists n'.
    + left. apply HL. exists (S n'). apply walk_byte with e; auto. destruct (Hin e He). by apply alt_walk_old.
    + by subst e.
  - intros [Hw|Hw].
    + apply HL in Hw as [n H]. exists n. inversion H as [|n' q e w' Hne He Heps Hw|n' q e c w' Hne He Heps Hcl Hw]; subst; [done|..];
        destruct (Hin e He).
      * apply walk_eps with e; auto; [rewrite alt_start_edges; set_solver|]. by apply alt_walk_old.
      * apply walk_byte with e; auto; [rewrite alt_start_edges; set_solver|]. by apply alt_walk_old.
    + apply alt_new in Hw as [n Hw]. exists (S n). apply walk_eps with (eps (start f)); auto.
      rewrite alt_start_edges. set_solver.
Qed.

Lemma alt_live q : reach M s0 q -> reach M q a.
Proof.
  pose proof HK as [Hs Ha _ Hc _ Hlive]. pose proof Hb as [Hf [Hl Hsame]]. pose proof Hf as [Hs' Ha' _ _ _ _]. cbn [fst snd start accept] in *.
  assert (C : contains M N1 (length N) f).
  { intros x Hx Hne. by rewrite alt_edges, !decide_False by (done || lia). }
  assert (Ef : edges_of M (accept f) = eps <$> [a]) by by rewrite alt_edges, decide_True.
  assert (Hup : forall x y, (lo <= x < length N)%nat -> linked N x y -> linked M x y).
  { intros x y Hx (e & He & <-). exists e. split; [|done]. destruct (decide (x = s0)) as [-> |Hne].
    - rewrite alt_start_edges. set_solver.
    - by rewrite alt_old by (done || lia). }
  assert (Hold : forall x, (lo <= x < length N)%nat -> reach N x a -> reach M x a).
  { intros x Hx Hr. revert x Hr Hx. apply (rtc_ind_l (fun x => (lo <= x < length N)%nat -> reach M x a)); [intros _; apply reach_refl|].
    intros x y Hxy _ IH Hx. eapply rtc_l; [by apply Hup|]. destruct Hxy as (e & He & <-). apply IH. by apply (Hc x); [lia|]. }
  intros Hq. apply (reach_keeps _ (fun q => inside lo N (mkFrag s0 a) q \/ inside (length N) N1 f q)) in Hq.
  - destruct Hq as [[Hq Hr]|Hq]; [auto|]. eapply reach_trans; [by apply (inside_live _ _ _ _ _ Hf C)|].
    eapply reach_eps; [exact Ef|by left|apply reach_refl].
  - intros x y [[Hx Hr]|Hx] Hxy.
    + cbn [start] in Hr. destruct Hxy as (e & He & <-).
      assert (Hin : e ∈ edges_of N x -> inside lo N (mkFrag s0 a) (e_to e)).
      { intros Hin. split; [by apply (Hc x); [lia|]|]. eapply rtc_r; [exact Hr|]. by exists e. }
      destruct (decide (x = s0)) as [-> |Hne]; [|left; rewrite alt_old in He by (done || lia); auto].
      rewrite alt_start_edges in He. apply elem_of_app in He as [He|He%list_elem_of_singleton]; [auto|].
      right. subst e. apply (inside_start _ _ _ _ Hf).
    + destruct (decide (x = accept f)) as [-> |Hne]; [|right; by apply (inside_linked _ _ _ _ _ Hf C x)].
      left. apply (linked_eps _ _ _ _ Ef) in Hxy as ->%list_elem_of_singleton. apply (inside_accept _ _ _ _ HK).
  - left. apply (inside_start _ _ _ _ HK).
Qed.

Lemma alt_add : frag_ok lo M (mkFrag s0 a) (K ⊕ L)%lang /\ no_edge_into lo M s0 /\ keeps lo N M.
Proof.
  pose proof HK as [Hs Ha He Hc HL _]. pose proof Hb as [[Hs' Ha' _ Hc' _ _] [Hl Hsame]]. cbn [fst snd start accept] in *.
  assert (HlM : length M = length N1) by (unfold M; by rewrite !length_add_epsilon).
  split_and!; [constructor; cbn [start accept]; try lia| |].
  - rewrite alt_old by (done || lia). done.
  - intros q e Hq. rewrite alt_edges. case_decide; [intros ->%list_elem_of_singleton; cbn; lia|]. case_decide as Hq0.
    + intros [Hx%Hc|Hx%list_elem_of_singleton]%elem_of_app; [lia..|subst; cbn; lia].
    + destruct (decide (q < length N)%nat); [rewrite Hsame by done; intros Hx%Hc; lia|intros Hx%Hc'; lia].
  - apply alt_lang.
  - apply alt_live.
  - intros q e Hq. rewrite alt_edges. case_decide; [intros ->%list_elem_of_singleton; cbn; done|]. case_decide as Hq0.
    + intros [Hx%Hinto|Hx%list_elem_of_singleton]%elem_of_app; [done|lia|]. subst. cbn. lia.
    + destruct (decide (q < length N)%nat); [rewrite Hsame by done; by apply Hinto|].
      intros Hx%Hc'; lia.
  - split; [lia|]. intros q Hq. rewrite alt_old by lia. done.
Qed.
End AddAlternative.

Lemma build_alts_frag rs lo N s0 a K :
  Forall build_ok rs -> frag_ok lo N (mkFrag s0 a) K -> s0 ≠ a -> no_edge_into lo N s0 ->
  frag_ok lo (build_alts rs s0 a N) (mkFrag s0 a) (fun w => K w \/ Exists (fun r => den r w) rs) /\ keeps lo N (build_alts rs s0 a N).
Proof.
  intros Hrs. revert N K. induction Hrs as [|r rs Hr Hrs IH]; intros N K HK Hne Hin; cbn [build_alts].
  - split; [|by split]. apply (frag_ok_equiv _ _ _ K); [|done]. intros w. rewrite Exists_nil. tauto.
  - destruct (build r N) as [f N1] eqn:Eb. pose proof (Hr N) as Hb. rewrite Eb in Hb.
    destruct (alt_add _ _ _ _ _ _ _ _ HK Hne Hin Hb) as (H1 & H2 & H3).
    destruct (IH _ _ H1 Hne H2) as [H4 H5]. split; [|eauto using keeps_trans].
    apply (frag_ok_equiv _ _ _ _ _) with (2 := H4). intros w. rewrite Exists_cons. unfold lor. tauto.
Qed.

Lemma den_alt r rs : (den (RAlt r rs) ≡ fun w => den r w \/ Exists (fun r => den r w) rs)%lang.
Proof.
  intros w. cbn [den]. induction rs as [|r' rs IH]; cbn [foldr]; [rewrite Exists_nil; tauto|].
  unfold lor at 1. rewrite IH, Exists_cons. tauto.
Qed.

Lemma alternatives_ok r rs : build_ok r -> Forall build_ok rs -> build_ok (RAlt r rs).
Proof.
  intros Hr Hrs N. rewrite build_alt_eq. destruct (build r N) as [f N1] eqn:Eb. pose proof (Hr N) as Hb. rewrite Eb in Hb.
  destruct Hb as [Hf Hx]. cbn [fst snd] in *. unfold new_state. rewrite !length_app, Nat.add_1_r.
  set (M := add_epsilon _ _ _).
  assert (He : forall q, edges_of M q = if decide (q = length N1) then eps <$> [start f]
    else if decide (q = accept f) then eps <$> [S (length N1)] else edges_of N1 q) by wrapped_edges Hf M.
  assert (Hl : length M = S (S (length N1))) by (unfold M; rewrite !length_add_epsilon, !length_app; cbn; lia).
  assert (HM : builds N (mkFrag (length N1) (S (length N1)), M) (den r)).
  { apply (wrap_ok N N1 f (den r) _ _ M _ Hf Hx Hl He); [set_solver|done|set_solver|].
    intros w. rewrite (walks_one _ _ _ (start f)); [|lia|by rewrite He, decide_True].
    rewrite (wrapped_start N N1 M f (den r) _ _ Hf He w).
    assert (E : (den r ⋅ walks M (S (length N1)) (accept f) ≡ den r)%lang); [|apply (E w)].
    rewrite (wrapped_accept_end N N1 M f (den r) _ _ Hf He) by done. apply lcat_nil_r. }
  destruct HM as [HM [Hk1 Hk2]]. cbn [fst snd] in *.
  destruct (build_alts_frag rs (length N) M (length N1) (S (length N1)) (den r) Hrs HM) as [H1 H2]; [lia| |].
  - intros q e Hq. pose proof Hf as [Hs Ha _ Hc _]. rewrite He. case_decide; [|case_decide].
    + intros ->%list_elem_of_singleton. cbn. lia.
    + intros ->%list_elem_of_singleton. cbn. lia.
    + intros Hx'%Hc; lia.
  - apply builds_intro; [|by apply (keeps_trans _ _ M); [split|]]. apply (frag_ok_equiv _ _ _ _ _) with (2 := H1).
    intros w. by rewrite (den_alt r rs w).
Qed.

(** ** Repetitions *)

Lemma lpow_add L n m : (lpow L (n + m) ≡ lpow L n ⋅ lpow L m)%lang.
Proof. induction n as [|n IH]; cbn [lpow Nat.add]; [by rewrite lcat_nil_l|]. by rewrite IH, lcat_assoc. Qed.

(** As counts: between [n] and the larger of [n] and [m] words. *)
Lemma lrange_counts L n m w : 0 <= n ->
  (lrange L n m w <-> exists k, n <= Z.of_nat k /\ (match m with Some m => Z.of_nat k <= Z.max n m | None => True end) /\ lpow L k w).
Proof.
  intros Hn. split.
  - intros (a & b & -> & Ha & Hb). destruct m as [m|]; [destruct Hb as (k & Hk & Hb)|destruct Hb as (k & Hb)];
      exists (Z.to_nat n + k)%nat; (split_and!; [lia|done || lia|]); apply lpow_add; by exists a, b.
  - intros (k & Hk & Hm & Hw). replace k with (Z.to_nat n + (k - Z.to_nat n))%nat in Hw by lia.
    apply lpow_add in Hw as (a & b & -> & Ha & Hb). exists a, b. split_and!; auto.
    destruct m; exists (k - Z.to_nat n)%nat; [split; [lia|done]|done].
Qed.

Lemma lupto_0 L : (lupto L 0 ≡ lnil)%lang.
Proof. intros w. split; [intros (k & Hk & H); by replace k with 0%nat in H by lia|intros ->; by exists O]. Qed.

Lemma lupto_S L n : (lupto L (S n) ≡ L ⋅ lupto L n ⊕ lnil)%lang.
Proof.
  intros w. split.
  - intros ([|k] & Hk & H); [by right|left]. destruct H as (a & b & -> & Ha & Hb). exists a, b. split_and!; auto. exists k. split; [lia|done].
  - intros [(a & b & -> & Ha & k & Hk & Hb)| ->]; [exists (S k); split; [lia|by exists a, b]|exists O; split; [lia|done]].
Qed.

(** What follows the mandatory copies: [M] adds to [N] the ways from [cur] to [a]. *)
Record tail_ok (N : states) (cur a : nat) (M : states) (T : lang) : Prop := {
  tl_length : (length N <= length M)%nat;
  tl_same : forall q, (q < length N)%nat -> q ≠ cur -> edges_of M q = edges_of N q;
  tl_closed : forall q e, q = cur \/ (length N <= q)%nat -> e ∈ edges_of M q -> e_to e = a \/ (length N <= e_to e < length M)%nat;
  tl_lang : (walks M a cur ≡ T)%lang;
  tl_live : forall q, reach M cur q -> reach M q a
}.

(** No copy: straight to the end. *)
Lemma skip_tail N cur a :
  (cur < length N)%nat -> (a < length N)%nat -> cur ≠ a -> edges_of N cur = [] -> edges_of N a = [] ->
  tail_ok N cur a (add_epsilon cur a N) lnil.
Proof.
  intros Hcur Ha Hne He Hea.
  assert (HM : forall q, edges_of (add_epsilon cur a N) q = if decide (q = cur) then [eps a] else edges_of N q).
  { intros q. rewrite edges_add_epsilon by done. case_decide; [subst; by rewrite He|done]. }
  assert (Ec : edges_of (add_epsilon cur a N) cur = eps <$> [a]) by by rewrite HM, decide_True.
  constructor.
  - by rewrite length_add_epsilon.
  - intros q _ Hq. by rewrite HM, decide_False.
  - intros q e Hq. rewrite HM. case_decide; [intros ->%list_elem_of_singleton; by left|]. rewrite edges_of_beyond by lia. inversion 1.
  - intros w. rewrite (walks_one _ _ _ a); [apply walks_end|done|done].
  - intros q Hq. apply (reach_keeps _ (fun q => q = cur \/ q = a)) in Hq; [|clear q Hq|by left].
    + destruct Hq as [-> | ->]; [eapply reach_eps; [exact Ec|by left|apply reach_refl]|apply reach_refl].
    + intros x y [-> | ->] Hxy; [apply (linked_eps _ _ _ _ Ec) in Hxy as ->%list_elem_of_singleton; by right|].
      destruct Hxy as (e & Hin & _). rewrite HM, decide_False, Hea in Hin by done. inversion Hin.
Qed.

(** One copy that may be skipped, then what follows it. *)
Section OptionalCopy.
Context (N N1 M : states) (f : Frag) (L T : lang) (cur a : nat).
Let N2 := add_epsilon cur a (add_epsilon cur (start f) N1).
Context (Hb : builds N (f, N1) L) (Hcur : (cur < length N)%nat) (Ha : (a < length N)%nat) (Hne : cur ≠ a).
Context (He : edges_of N cur = []) (Hea : edges_of N a = []).

Lemma copy_length : length N2 = length N1.
Proof. unfold N2. by rewrite !length_add_epsilon. Qed.

Lemma copy_edges q : edges_of N2 q = if decide (q = cur) then [eps (start f); eps a] else edges_of N1 q.
Proof.
  destruct Hb as [_ [Hl Hsame]]. cbn [fst snd] in *. unfold N2. rewrite !edges_add_epsilon by (rewrite ?length_add_epsilon; lia).
  case_decide; [subst; by rewrite Hsame, He by lia|done].
Qed.

Lemma copy_ends : (accept f < length N2)%nat /\ accept f ≠ a /\ edges_of N2 (accept f) = [] /\ edges_of N2 a = [].
Proof.
  pose proof Hb as [[_ Hacc Hend _ _ _] [Hl Hsame]]. cbn [fst snd] in *. rewrite copy_length, !copy_edges, !decide_False by lia.
  rewrite (Hsame a) by lia. split_and!; (done || lia).
Qed.

Context (HT : tail_ok N2 (accept f) a M T).

Lemma copy_start : edges_of M cur = eps <$> [start f; a].
Proof.
  pose proof Hb as [[_ Hacc _ _ _ _] [Hl _]]. cbn [fst snd] in *.
  by rewrite (tl_same _ _ _ _ _ HT), copy_edges, decide_True by (rewrite ?copy_length; lia).
Qed.

Lemma copy_contains : contains M N1 (length N) f.
Proof.
  intros q Hq Hqa. by rewrite (tl_same _ _ _ _ _ HT), copy_edges, decide_False by (rewrite ?copy_length; (done || lia)).
Qed.

Lemma copy_live q : reach M cur q -> reach M q a.
Proof.
  pose proof Hb as [Hf [Hl Hsame]]. pose proof Hf as [_ Hacc _ _ _ _]. cbn [fst snd] in *. pose proof copy_contains as C.
  intros Hq. apply (reach_keeps _ (fun q => q = cur \/ inside (length N) N1 f q \/ reach M (accept f) q \/ q = a)) in Hq;
    [|clear q Hq|by left].
  - destruct Hq as [-> |[Hq|[Hq| ->]]]; [eapply reach_eps; [exact copy_start|by right; left|apply reach_refl]| |by apply (tl_live _ _ _ _ _ HT)|apply reach_refl].
    eapply reach_trans; [by apply (inside_live _ _ _ _ _ Hf C)|]. apply (tl_live _ _ _ _ _ HT), reach_refl.
  - intros x y [-> |[Hx|[Hx| ->]]] Hxy.
    + apply (linked_eps _ _ _ _ copy_start), elem_of_cons in Hxy as [-> | ->%list_elem_of_singleton]; [|by auto].
      right; left. apply (inside_start _ _ _ _ Hf).
    + right. destruct (decide (x = accept f)) as [-> |Hxa]; [right; left; by apply rtc_once|].
      left. by apply (inside_linked _ _ _ _ _ Hf C x).
    + right; right; left. by eapply rtc_r.
    + destruct Hxy as (e & Hin & _). destruct copy_ends as (_ & Hfa & _ & Hend).
      rewrite (tl_same _ _ _ _ _ HT), Hend in Hin by (rewrite ?copy_length; (done || lia)). inversion Hin.
Qed.

Lemma copy_tail : tail_ok N cur a M (L ⋅ T ⊕ lnil)%lang.
Proof.
  pose proof Hb as [Hf [Hl Hsame]]. pose proof Hf as [Hs Hacc _ Hc _ _]. cbn [fst snd] in *. pose proof copy_length as Hl2.
  pose proof HT as [T1 T2 T3 T4 _]. constructor; [lia|..|exact copy_live].
  - intros q Hq Hqc. by rewrite T2, copy_edges, decide_False, Hsame by lia.
  - intros q e [-> |Hq].
    { rewrite copy_start. intros [-> |Hx%list_elem_of_singleton]%elem_of_cons; [right; cbn; lia|subst; by left]. }
    intros Hin. destruct (decide (q = accept f \/ (length N2 <= q)%nat)) as [Hq'|Hq'].
    { destruct (T3 q e Hq' Hin); [by left|right; lia]. }
    right. rewrite T2, copy_edges, decide_False in Hin by lia. pose proof (Hc q e Hq Hin). lia.
  - intros w. rewrite (walks_two _ _ _ (start f) a) by (done || exact copy_start).
    assert (E1 : (walks M a (start f) ≡ L ⋅ T)%lang).
    { rewrite (frag_walks _ _ _ _ _ a Hf copy_contains) by (right; lia). by rewrite T4. }
    by rewrite (E1 w), (walks_end M a w).
Qed.
End OptionalCopy.

Lemma tail_ok_equiv N cur a M T T' : (T ≡ T')%lang -> tail_ok N cur a M T -> tail_ok N cur a M T'.
Proof. intros HT [H1 H2 H3 H4 H5]. constructor; auto. by rewrite H4. Qed.

Lemma optional_tail r count N cur a :
  build_ok r -> (cur < length N)%nat -> (a < length N)%nat -> cur ≠ a -> edges_of N cur = [] -> edges_of N a = [] ->
  exists cur' N', optional_copies (fun N => Ok (build r N)) count cur a N = Ok (cur', N') /\
    tail_ok N cur a (add_epsilon cur' a N') (lupto (den r) count).
Proof.
  intros Hr. revert N cur. induction count as [|count IH]; intros N cur Hcur Ha Hne He Hea; cbn [optional_copies rbind].
  - exists cur, N. split; [done|]. apply (tail_ok_equiv _ _ _ _ lnil); [by rewrite lupto_0|by apply skip_tail].
  - pose proof (Hr N) as Hb. destruct (build r N) as [f N1].
    destruct (copy_ends _ _ _ _ _ _ Hb Hcur Ha Hne He Hea) as (H1 & H2 & H3 & H4).
    assert (Ha2 : (a < length (add_epsilon cur a (add_epsilon cur (start f) N1)))%nat).
    { rewrite copy_length. destruct Hb as [_ [Hl _]]. cbn in Hl. lia. }
    destruct (IH _ (accept f) H1 Ha2 H2 H3 H4) as (cur' & N' & E & HT). exists cur', N'. split; [exact E|].
    apply (tail_ok_equiv _ _ _ _ (den r ⋅ lupto (den r) count ⊕ lnil)%lang); [by rewrite lupto_S|]. by apply (copy_tail _ _ _ _ _ _ _ _ Hb).
Qed.

(** Without an upper bound: one more copy in a loop behind a new state. *)
Definition loop_tail (f : Frag) (cur a : nat) (N : states) : states :=
  let (ls, N) := new_state N in
  add_epsilon (accept f) a (add_epsilon (accept f) (start f) (add_epsilon ls a (add_epsilon ls (start f) (add_epsilon cur ls N)))).

Lemma unbounded_tail r N cur a f N1 :
  build_ok r -> (cur < length N)%nat -> (a < length N)%nat -> cur ≠ a -> edges_of N cur = [] -> edges_of N a = [] -> build r N = (f, N1) ->
  tail_ok N cur a (loop_tail f cur a N1) (lstar (den r)).
Proof.
  intros Hr Hcur Ha Hne He Hea Eb. pose proof (Hr N) as Hb. rewrite Eb in Hb. destruct Hb as [Hf [Hl Hsame]]. cbn [fst snd] in *.
  pose proof Hf as [Hs Hacc Hend Hc HL _]. unfold loop_tail, new_state. set (M := add_epsilon (accept f) a _). set (ls := length N1) in *.
  assert (HM : forall q, edges_of M q = if decide (q = cur) then [eps ls] else
    if decide (q = ls \/ q = accept f) then [eps (start f); eps a] else edges_of N1 q).
  { intros q. unfold M. repeat rewrite edges_add_epsilon by (rewrite ?length_add_epsilon, ?length_app; cbn [length]; lia).
    rewrite !edges_of_new. repeat case_decide; subst; try lia; try done; rewrite ?Hend, ?Hsame, ?He, ?edges_of_beyond by lia; done. }
  assert (Hl2 : length M = S ls) by (unfold M; rewrite !length_add_epsilon, length_app; cbn; lia).
  assert (HMf : edges_of M (accept f) = [eps (start f); eps a]) by (rewrite HM, decide_False, decide_True by (lia || auto); done).
  assert (HMl : edges_of M ls = [eps (start f); eps a]) by (rewrite HM, decide_False, decide_True by (lia || auto); done).
  assert (C : contains M N1 (length N) f).
  { intros q Hq Hqa. rewrite HM, !decide_False by lia. done. }
  assert (Hout : ~ (length N <= a < length N1)%nat) by lia.
  assert (E : (walks M a (accept f) ≡ lstar (den r))%lang) by (apply (loop_walks _ _ _ _ _ _ Hf C (or_intror Hout)); [lia|done]).
  constructor.
  - lia.
  - intros q Hq Hqc. rewrite HM, !decide_False, Hsame by lia. done.
  - intros q e Hq. rewrite HM. case_decide; [intros ->%list_elem_of_singleton; right; cbn; lia|]. case_decide.
    + intros [-> |Hx%list_elem_of_singleton]%elem_of_cons; [right; cbn; lia|subst; by left].
    + intros Hin. pose proof (Hc q e ltac:(lia) Hin). right. lia.
  - intros w. rewrite (walks_one _ _ _ ls); [|done|by rewrite HM, decide_True].
    rewrite (walks_two _ _ _ (start f) a) by (done || lia).
    rewrite <- (walks_two M a (accept f) (start f) a w) by (done || lia). apply E.
  - assert (HMc : edges_of M cur = eps <$> [ls]) by (by rewrite HM, decide_True).
    change (edges_of M (accept f) = eps <$> [start f; a]) in HMf. change (edges_of M ls = eps <$> [start f; a]) in HMl.
    assert (Lf : forall q, inside (length N) N1 f q -> reach M q a).
    { intros q Hq. eapply reach_trans; [by apply (inside_live _ _ _ _ _ Hf C)|]. eapply reach_eps; [exact HMf|by right; left|apply reach_refl]. }
    assert (Ll : reach M ls a) by (eapply reach_eps; [exact HMl|by right; left|apply reach_refl]).
    assert (It : forall t, t ∈ [start f; a] -> inside (length N) N1 f t \/ t = a).
    { intros t [-> | ->%list_elem_of_singleton]%elem_of_cons; [left; apply (inside_start _ _ _ _ Hf)|by right]. }
    intros q Hq. apply (reach_keeps _ (fun q => q = cur \/ q = ls \/ inside (length N) N1 f q \/ q = a)) in Hq; [|clear q Hq|by left].
    + destruct Hq as [-> |[-> |[Hq| ->]]]; auto using reach_refl. eapply reach_eps; [exact HMc|by left|done].
    + intros x y [-> |[-> |[Hx| ->]]] Hxy.
      * apply (linked_eps _ _ _ _ HMc) in Hxy as ->%list_elem_of_singleton. auto.
      * right; right. by apply It, (linked_eps _ _ _ _ HMl).
      * right; right. destruct (decide (x = accept f)) as [-> |Hxa]; [by apply It, (linked_eps _ _ _ _ HMf)|].
        left. by apply (inside_linked _ _ _ _ _ Hf C x).
      * destruct Hxy as (e & Hin & _). rewrite HM, !decide_False, Hsame, Hea in Hin by lia. inversion Hin.
Qed.

(** The mandatory copies, the end state and the tail. *)
Lemma tail_frag lo N s cur M K T :
  frag_ok lo N (mkFrag s cur) K -> tail_ok (N ++ [mkNfaState [] false]) cur (length N) M T ->
  frag_ok lo M (mkFrag s (length N)) (K ⋅ T)%lang /\ keeps lo N M.
Proof.
  intros Hf [Hl Hsame Hcl HT Hlv]. rewrite length_app in *. cbn [length] in *. pose proof Hf as [Hs Ha He Hc HL _]. cbn [start accept] in *.
  assert (C : contains M N lo (mkFrag s cur)).
  { intros q Hq Hne. cbn in Hne. by rewrite Hsame, edges_of_new by lia. }
  split; [constructor; cbn [start accept]; try lia|].
  - rewrite Hsame, edges_of_new by lia. by apply edges_of_beyond.
  - intros q e Hq Hin. destruct (decide (q = cur \/ (length N + 1 <= q)%nat)) as [Hq'|Hq'].
    + destruct (Hcl q e Hq' Hin) as [-> |]; lia.
    + rewrite Hsame, edges_of_new in Hin by lia. pose proof (Hc q e Hq Hin). lia.
  - rewrite (frag_walks _ _ _ _ _ (length N) Hf C) by (right; lia). cbn [start accept]. by rewrite HT.
  - intros q Hq. apply (reach_keeps _ (fun q => inside lo N (mkFrag s cur) q \/ reach M cur q)) in Hq.
    + destruct Hq as [Hq|Hq]; [|auto]. eapply reach_trans; [by apply (inside_live _ _ _ _ _ Hf C)|]. apply Hlv, reach_refl.
    + intros x y [Hx|Hx] Hxy; [|right; by eapply rtc_r].
      destruct (decide (x = cur)) as [-> |Hne]; [right; by apply rtc_once|left; by apply (inside_linked _ _ _ _ _ Hf C x)].
    + left. apply (inside_start _ _ _ _ Hf).
  - split; [lia|]. intros q Hq. by rewrite Hsame, edges_of_new by lia.
Qed.

(** The first mandatory copy, behind a new state. *)
Lemma first_copy N N1 f L :
  builds N (f, N1) L ->
  frag_ok (length N) (add_epsilon (length N1) (start f) (N1 ++ [mkNfaState [] false])) (mkFrag (length N1) (accept f)) L /\
  keeps (length N) N (add_epsilon (length N1) (start f) (N1 ++ [mkNfaState [] false])).
Proof.
  intros [Hf [Hl Hsame]]. cbn [fst snd] in *. pose proof Hf as [Hs Ha He Hc HL _]. set (M := add_epsilon _ _ _).
  assert (HM : forall q, edges_of M q = if decide (q = length N1) then [eps (start f)] else edges_of N1 q).
  { intros q. unfold M. rewrite edges_add_epsilon, edges_of_new by (rewrite length_app; cbn; lia).
    case_decide; [subst; by rewrite edges_of_beyond|done]. }
  assert (Hlen : length M = S (length N1)) by (unfold M; rewrite length_add_epsilon, length_app; cbn; lia).
  assert (C : contains M N1 (length N) f) by (intros q Hq Hne; by rewrite HM, decide_False by lia).
  split; [constructor; cbn [start accept]; try lia|].
  - by rewrite HM, decide_False by lia.
  - intros q e Hq. rewrite HM. case_decide; [intros ->%list_elem_of_singleton; cbn; lia|intros Hx%Hc; lia].
  - intros w. rewrite (walks_one _ _ _ (start f)); [|lia|by rewrite HM, decide_True].
    rewrite (frag_walks _ _ _ _ _ (accept f) Hf C (or_introl eq_refl) w).
    assert (E : (L ⋅ walks M (accept f) (accept f) ≡ L)%lang) by (rewrite walks_end; apply lcat_nil_r). apply (E w).
  - assert (Es : edges_of M (length N1) = eps <$> [start f]) by by rewrite HM, decide_True.
    intros q Hq. apply (reach_keeps _ (fun q => q = length N1 \/ inside (length N) N1 f q)) in Hq; [|clear q Hq|by left].
    + destruct Hq as [-> |Hq]; [|by apply (inside_live _ _ _ _ _ Hf C)].
      eapply reach_eps; [exact Es|by left|]. apply (inside_live _ _ _ _ _ Hf C), (inside_start _ _ _ _ Hf).
    + intros x y [-> |Hx] Hxy.
      * apply (linked_eps _ _ _ _ Es) in Hxy as ->%list_elem_of_singleton. right. apply (inside_start _ _ _ _ Hf).
      * destruct (decide (x = accept f)) as [-> |Hne]; [|right; by apply (inside_linked _ _ _ _ _ Hf C x)].
        destruct Hxy as (e & Hin & _). rewrite HM, decide_False, He in Hin by lia. inversion Hin.
  - split; [lia|]. intros q Hq. by rewrite HM, decide_False, Hsame by lia.
Qed.

Lemma chain_copies_total r count cur N : exists cur' N', chain_copies (fun N => Ok (build r N)) count cur N = Ok (cur', N').
Proof.
  revert cur N. induction count as [|count IH]; intros cur N; cbn [chain_copies rbind]; [eauto|].
  destruct (build r N). apply IH.
Qed.

(** The mandatory copies of [range_frag]. *)
Definition mandatory (f : Frag) (n : Z) (N : states) : nat * states * Z :=
  let (s, N) := new_state N in if 1 <=? n then (accept f, add_epsilon s (start f) N, 1) else (s, N, 0).

Lemma mandatory_frag r N f N1 n cur0 M0 built cur M :
  build_ok r -> build r N = (f, N1) -> mandatory f n N1 = (cur0, M0, built) ->
  chain_copies (fun N => Ok (build r N)) (Z.to_nat (n - built)) cur0 M0 = Ok (cur, M) ->
  frag_ok (length N) M (mkFrag (length N1) cur) (lpow (den r) (Z.to_nat n)) /\ keeps (length N) N M.
Proof.
  intros Hr Eb. pose proof (Hr N) as Hb. rewrite Eb in Hb. unfold mandatory, new_state. destruct (Z.leb_spec 1 n) as [Hn|Hn]; intros [= <- <- <-] E.
  - destruct (first_copy N N1 f (den r) Hb) as [Hf Hk]. destruct (chain_copies_frag _ _ _ _ _ _ _ _ _ Hr Hf E) as [H1 H2].
    split; [|eauto using keeps_trans]. replace (Z.to_nat n) with (S (Z.to_nat (n - 1))) by lia. done.
  - destruct Hb as [[_ _ _ Hc _ _] [Hl Hsame]]. cbn [fst snd] in *.
    pose proof (frag_single (length N) N1 ltac:(lia) Hc) as Hf. destruct (chain_copies_frag _ _ _ _ _ _ _ _ _ Hr Hf E) as [H1 H2].
    split.
    + replace (Z.to_nat (n - 0)) with (Z.to_nat n) in H1 by lia. apply (frag_ok_equiv _ _ _ _ _ (lcat_nil_l _) H1).
    + apply (keeps_trans _ _ N1); [by split|]. eauto using keeps_trans, keeps_new.
Qed.

Lemma range_frag_eq r f n m N :
  range_frag (fun N => Ok (build r N)) f n m N =
    let '(cur, N1, built) := mandatory f n N in
    do (cur, N1) <- chain_copies (fun N => Ok (build r N)) (Z.to_nat (n - built)) cur N1;
    let (a, N1) := new_state N1 in
    match m with
    | None => let (f, N2) := build r N1 in Ok (mkFrag (length N) a, loop_tail f cur a N2)
    | Some m =>
        do (cur, N1) <- optional_copies (fun N => Ok (build r N)) (Z.to_nat (m - n)) cur a N1; Ok (mkFrag (length N) a, add_epsilon cur a N1)
    end.
Proof. unfold range_frag, mandatory. cbn [new_state]. by destruct (1 <=? n). Qed.

Lemma range_ok r n m : build_ok r -> build_ok (RRange r n m).
Proof.
  intros Hr N. cbn [build]. destruct (build r N) as [f N1] eqn:Eb. rewrite range_frag_eq.
  destruct (mandatory f n N1) as [[cur0 M0] built] eqn:Em.
  destruct (chain_copies_total r (Z.to_nat (n - built)) cur0 M0) as (cur & M & E).
  destruct (mandatory_frag _ _ _ _ _ _ _ _ _ _ Hr Eb Em E) as [Hf Hk]. rewrite E. cbn [rbind]. unfold new_state.
  pose proof (fo_accept _ _ _ _ Hf) as Hcur. pose proof (fo_end _ _ _ _ Hf) as Hend. cbn [accept] in *.
  assert (P : (cur < length (M ++ [mkNfaState [] false]))%nat /\ (length M < length (M ++ [mkNfaState [] false]))%nat /\
    cur ≠ length M /\ edges_of (M ++ [mkNfaState [] false]) cur = [] /\ edges_of (M ++ [mkNfaState [] false]) (length M) = []).
  { rewrite length_app, !edges_of_new. cbn [length]. split_and!; try (done || lia). by apply edges_of_beyond. }
  destruct P as (P1 & P2 & P3 & P4 & P5). destruct m as [m|].
  - destruct (optional_tail r (Z.to_nat (m - n)) _ _ _ Hr P1 P2 P3 P4 P5) as (cur' & N' & Eo & Ht). rewrite Eo. cbn [rbind ok_or].
    destruct (tail_frag _ _ _ _ _ _ _ Hf Ht) as [H1 H2]. apply builds_intro; [exact H1|eauto using keeps_trans].
  - destruct (build r (M ++ [mkNfaState [] false])) as [f2 N2] eqn:E2. cbn [ok_or].
    pose proof (unbounded_tail r _ _ _ _ _ Hr P1 P2 P3 P4 P5 E2) as Ht.
    destruct (tail_frag _ _ _ _ _ _ _ Hf Ht) as [H1 H2]. apply builds_intro; [exact H1|eauto using keeps_trans].
Qed.

(** Thompson's construction: the fragment of an expression accepts its language. *)
Lemma build_all r : build_ok r.
Proof.
  induction r as [cls| |r IH|r IH|r IH|r n m IH|rs IH|r rs IHr IH] using regex_induction; auto using range_ok, concat_ok, alternatives_ok;
    intros N; cbn [build den]; try (pose proof (IH N) as [H H']; destruct (build r N) as [f N1]);
    auto using class_frag_ok, epsilon_frag_ok, star_frag_ok, plus_frag_ok, opt_frag_ok.
Qed.
