(* ===== verification/RegexSets.v ===== *)
(** * The set simulation

    [epsilon_closure] and [step] of [RegexNfa] return, with the fuel of the model
    always enough, exactly the states a word leads to; with the automaton of
    [compile], a word is accepted when it is in the language of the pattern. *)

From Corelib Require Import ssreflect_rw.
From stdpp Require Import prelude list sorting.
From S2P Require Import Prelude StreamPipeline Languages RegexNfa RegexSyntax RegexParse RegexThompson.
Open Scope Z_scope.

(** ** Paths *)

Inductive path (N : states) : nat -> bytes -> nat -> Prop :=
  | path_stop q : path N q [] q
  | path_eps q e w q' : e ∈ edges_of N q -> is_epsilon e = true -> path N (e_to e) w q' -> path N q w q'
  | path_byte q e c w q' :
      e ∈ edges_of N q -> is_epsilon e = false -> class_has (char_class e) c = true -> path N (e_to e) w q' -> path N q (c :: w) q'.

#[local] Hint Constructors path : core.

Lemma path_app N q w q' w' q'' : path N q w q' -> path N q' w' q'' -> path N q (w ++ w') q''.
Proof. induction 1; cbn; eauto. Qed.

Lemma path_split N q w w' q'' : path N q (w ++ w') q'' -> exists q', path N q w q' /\ path N q' w' q''.
Proof.
  intros H. remember (w ++ w') as v eqn:Ev. revert w Ev. induction H as [q|q e v q' He Heps H IH|q e c v q' He Heps Hc H IH]; intros w Ev.
  - symmetry in Ev. apply app_nil in Ev as [-> ->]. eauto.
  - destruct (IH w Ev) as (q1 & H1 & H2). eauto.
  - destruct w as [|x w]; [cbn in Ev; subst; eauto|]. injection Ev as -> ->. destruct (IH w eq_refl) as (q1 & H1 & H2). eauto.
Qed.

Lemma path_one N q c q' :
  path N q [c] q' ->
  exists q1 e, path N q [] q1 /\ e ∈ edges_of N q1 /\ is_epsilon e = false /\ class_has (char_class e) c = true /\ path N (e_to e) [] q'.
Proof.
  intros H. remember [c] as v eqn:Ev. induction H as [q|q e v q' He Heps H IH|q e c' v q' He Heps Hc H IH]; [done|..].
  - destruct (IH Ev) as (q1 & e1 & H1 & H2). exists q1, e1. split; [eauto|done].
  - injection Ev as -> ->. exists q, e. split_and!; auto.
Qed.

(** A path to a state without edges is a walk to its first visit. *)
Lemma path_walks N q w b : edges_of N b = [] -> (path N q w b <-> walks N b q w).
Proof.
  intros Hb. split.
  - induction 1 as [q|q e w q' He Heps H IH|q e c w q' He Heps Hc H IH]; [by apply walks_end|..];
      destruct (IH Hb) as [n Hn]; exists (S n);
      (assert (q ≠ q') by (intros ->; rewrite Hb in He; inversion He)); [by apply walk_eps with e|by apply walk_byte with e].
  - intros [n H]. induction H; eauto.
Qed.

Definition targets_below (N : states) : Prop := forall q e, e ∈ edges_of N q -> (e_to e < length N)%nat.

(** ** Marks *)

Definition unmarked (inn : list bool) : nat := length (filter (eq false) inn).

Lemma unmarked_le inn : (unmarked inn <= length inn)%nat.
Proof. apply length_filter. Qed.

Lemma unmarked_insert inn q : inn !! q = Some false -> S (unmarked (<[q := true]> inn)) = unmarked inn.
Proof.
  unfold unmarked. revert q. induction inn as [|b inn IH]; intros [|q] H; try done.
  - injection H as ->. change (<[0%nat := true]> (false :: inn)) with (true :: inn).
    by rewrite filter_cons_False, filter_cons_True by done.
  - change (<[S q := true]> (b :: inn)) with (b :: <[q := true]> inn). destruct b; [rewrite !filter_cons_False by done; by apply IH|]. rewrite !filter_cons_True by done. cbn. f_equal. by apply IH.
Qed.

(** The marks are those of the set. *)
Definition marks (N : states) (inn : list bool) (set : list nat) : Prop :=
  length inn = length N /\ (forall q, q ∈ set -> (q < length N)%nat) /\
  forall q, (q < length N)%nat -> (inn !! q = Some true <-> q ∈ set).

Lemma marks_get N inn set q : marks N inn set -> (q < length N)%nat -> default false (inn !! q) = bool_decide (q ∈ set).
Proof.
  intros (Hl & _ & Hm) Hq. destruct (inn !! q) as [[]|] eqn:E; cbn.
  - symmetry. apply bool_decide_eq_true. by apply Hm.
  - symmetry. apply bool_decide_eq_false. intros H%Hm; [congruence|done].
  - apply lookup_ge_None in E. lia.
Qed.

Lemma marks_add N inn set q : marks N inn set -> (q < length N)%nat -> marks N (<[q := true]> inn) (set ++ [q]).
Proof.
  intros (Hl & Hb & Hm) Hq. split_and!.
  - by rewrite length_insert.
  - intros q' [H|H%list_elem_of_singleton]%elem_of_app; [auto|by subst].
  - intros q' Hq'. rewrite elem_of_app, list_elem_of_singleton. destruct (decide (q' = q)) as [-> |Hne].
    + rewrite list_lookup_insert_eq by lia. naive_solver.
    + rewrite list_lookup_insert_ne, Hm by done. naive_solver.
Qed.

Lemma marks_unmarked N inn set q : marks N inn set -> (q < length N)%nat -> q ∉ set -> inn !! q = Some false.
Proof.
  intros Hm Hq Hnin. pose proof (marks_get _ _ _ _ Hm Hq) as H. rewrite bool_decide_eq_false_2 in H by done.
  destruct Hm as (Hl & _). destruct (lookup_lt_is_Some_2 inn q) as [b E]; [lia|]. rewrite E in H. cbn in H. by subst.
Qed.

Lemma mark_ok N set : (forall q, q ∈ set -> (q < length N)%nat) -> marks N (mark (length N) set) set.
Proof.
  intros Hb. unfold mark. change set with ([] ++ set) at 2.
  assert (H0 : marks N (replicate (length N) false) []).
  { split_and!; [by rewrite length_replicate|set_solver|]. intros q Hq. rewrite lookup_replicate_2 by done. set_solver. }
  revert Hb H0. generalize (replicate (length N) false) ([] : list nat).
  induction set as [|q set IH]; intros inn pre Hb H0; cbn [foldl]; [by rewrite app_nil_r|].
  replace (pre ++ q :: set) with ((pre ++ [q]) ++ set) by by rewrite <- app_assoc. apply IH; [set_solver|].
  apply marks_add; [done|set_solver].
Qed.

(** ** The closure *)

Record pushed (N : states) (es : list NfaEdge) (inn : list bool) (set stack : list nat) (inn' : list bool) (set' stack' : list nat) : Prop := {
  pu_marks : marks N inn' set';
  pu_grow : set ⊆ set' /\ stack ⊆ stack';
  pu_new : forall q, q ∈ set' -> q ∈ set \/ q ∈ stack' /\ exists e, e ∈ es /\ is_epsilon e = true /\ e_to e = q;
  pu_all : forall e, e ∈ es -> is_epsilon e = true -> e_to e ∈ set';
  pu_stack : forall q, q ∈ stack' -> q ∈ stack \/ q ∈ set';
  pu_count : (length stack' + unmarked inn' = length stack + unmarked inn)%nat
}.

Lemma push_targets_ok N es inn set stack inn' set' stack' :
  (forall e, e ∈ es -> (e_to e < length N)%nat) -> marks N inn set ->
  push_targets es inn set stack = (inn', set', stack') -> pushed N es inn set stack inn' set' stack'.
Proof.
  revert inn set stack. induction es as [|e es IH]; intros inn set stack Hb Hm; cbn [push_targets].
  { intros [= <- <- <-]. constructor; auto; set_solver. }
  assert (He : (e_to e < length N)%nat) by (apply Hb; set_solver).
  assert (Hb' : forall e, e ∈ es -> (e_to e < length N)%nat) by set_solver.
  rewrite (marks_get _ _ _ _ Hm He). destruct (is_epsilon e) eqn:Ee; cbn [andb].
  - case_bool_decide as Hin; cbn [negb].
    + intros H. destruct (IH _ _ _ Hb' Hm H) as [H1 [H2 H2'] H3 H4 H5 H6]. constructor; auto.
      * intros q Hq. destruct (H3 q Hq) as [|(? & e' & He' & ?)]; [by left|right; split; [done|]]. exists e'. split; [by right|done].
      * intros e' [-> |He']%elem_of_cons; auto.
    + intros H. destruct (IH _ _ _ Hb' (marks_add _ _ _ _ Hm He) H) as [H1 [H2 H2'] H3 H4 H5 H6]. constructor; auto.
      * set_solver.
      * intros q Hq. destruct (H3 q Hq) as [[|Hx%list_elem_of_singleton]%elem_of_app|(? & e' & He' & ?)]; [by left|..].
        { right. subst q. split; [set_solver|]. exists e. split; [by left|done]. }
        right. split; [done|]. exists e'. split; [by right|done].
      * intros e' [-> |He']%elem_of_cons; [set_solver|auto].
      * intros q Hq. destruct (H5 q Hq) as [[-> |]%elem_of_cons|]; [right; set_solver|by left|by right].
      * pose proof (unmarked_insert _ _ (marks_unmarked _ _ _ _ Hm He Hin)). cbn [length] in H6. lia.
  - intros H. destruct (IH _ _ _ Hb' Hm H) as [H1 [H2 H2'] H3 H4 H5 H6]. constructor; auto.
    + intros q Hq. destruct (H3 q Hq) as [|(? & e' & He' & ?)]; [by left|right; split; [done|]]. exists e'. split; [by right|done].
    + intros e' [-> |He']%elem_of_cons Heps; [congruence|auto].
Qed.

Record closing (N : states) (base : list nat) (inn : list bool) (set stack : list nat) : Prop := {
  cl_marks : marks N inn set;
  cl_base : base ⊆ set;
  cl_stack : stack ⊆ set;
  cl_done : forall q e, q ∈ set -> q ∉ stack -> e ∈ edges_of N q -> is_epsilon e = true -> e_to e ∈ set;
  cl_reach : forall q, q ∈ set -> exists b, b ∈ base /\ path N b [] q
}.

Lemma path_snoc_eps N b w q e : path N b w q -> e ∈ edges_of N q -> is_epsilon e = true -> path N b w (e_to e).
Proof. intros H He Heps. rewrite <- (app_nil_r w). eapply path_app; eauto. Qed.

Lemma closing_step N base inn set q stack inn' set' stack' :
  targets_below N -> closing N base inn set (q :: stack) -> push_targets (edges_of N q) inn set stack = (inn', set', stack') ->
  closing N base inn' set' stack'.
Proof.
  intros Hb [H1 H2 H3 H4 H5] E.
  destruct (push_targets_ok N _ _ _ _ _ _ _ (Hb q) H1 E) as [P1 [P2 P2'] P3 P4 P5 P6]. constructor; auto.
  - set_solver.
  - intros x Hx. destruct (P5 x Hx); set_solver.
  - intros x e Hx Hn He Heps. destruct (P3 x Hx) as [Hx'|(? & _)]; [|done].
    destruct (decide (x = q)) as [-> |Hne]; [by apply P4|]. apply P2, (H4 x e); auto. set_solver.
  - intros x Hx. destruct (P3 x Hx) as [Hx'|(_ & e & He & Heps & <-)]; [auto|].
    destruct (H5 q) as (b & Hbb & Hp); [set_solver|]. exists b. eauto using path_snoc_eps.
Qed.

Lemma closed_contains N (set : list nat) q w q' :
  (forall q e, q ∈ set -> e ∈ edges_of N q -> is_epsilon e = true -> e_to e ∈ set) -> path N q w q' -> w = [] -> q ∈ set -> q' ∈ set.
Proof. intros Hc H. induction H; intros Hw Hq; [done|by eauto|done]. Qed.

Lemma closure_loop_ok N base fuel inn set stack :
  targets_below N -> closing N base inn set stack -> (length stack + unmarked inn <= fuel)%nat ->
  exists out, closure_loop fuel N inn set stack = Some out /\ forall q, q ∈ out <-> exists b, b ∈ base /\ path N b [] q.
Proof.
  intros Hb. revert inn set stack. induction fuel as [|fuel IH]; intros inn set stack Hc Hf;
    (destruct stack as [|s stack]; cbn [closure_loop];
     [exists set; split; [done|]; destruct Hc as [H1 H2 H3 H4 H5]; intros q; split; [apply H5|];
      intros (b & Hbb & Hp); apply (closed_contains N set b [] q); auto; intros x e Hx; apply H4; [done|set_solver]|]).
  - cbn in Hf. lia.
  - destruct (push_targets (edges_of N s) inn set stack) as [[inn' set'] stack'] eqn:E.
    apply IH; [by eapply closing_step|].
    destruct (push_targets_ok N _ _ _ _ _ _ _ (Hb s) (cl_marks _ _ _ _ _ Hc) E) as [_ _ _ _ _ P6]. cbn [length] in Hf. lia.
Qed.

(** The closure is the states reached without reading, and is always found. *)
Lemma epsilon_closure_ok N set :
  targets_below N -> (forall q, q ∈ set -> (q < length N)%nat) ->
  exists out, epsilon_closure N set = Some out /\ forall q, q ∈ out <-> exists b, b ∈ set /\ path N b [] q.
Proof.
  intros Hb Hs. pose proof (mark_ok N set Hs) as Hm. unfold epsilon_closure.
  destruct (closure_loop_ok N set (length set + length N) (mark (length N) set) set (rev set) Hb) as (out & -> & Hout).
  - assert (Hr : forall q, q ∈ rev set <-> q ∈ set) by (intros q; by rewrite !list_elem_of_In, <- in_rev).
    constructor; auto; [intros q; apply Hr|intros q e Hq Hn; by rewrite Hr in Hn|eauto].
  - rewrite length_rev. pose proof (unmarked_le (mark (length N) set)). pose proof (proj1 Hm). lia.
  - exists (merge_sort le out). split; [done|]. intros q. by rewrite merge_sort_Permutation.
Qed.

(** ** Steps *)

Record gathered (N : states) (P : nat -> Prop) (acc : list bool * list nat) : Prop := {
  ga_marks : marks N acc.1 acc.2;
  ga_set : forall q, q ∈ acc.2 <-> P q
}.

Definition edge_reads (c : Z) (e : NfaEdge) : Prop := is_epsilon e = false /\ class_has (char_class e) c = true.

Lemma byte_targets_ok N c es acc P :
  (forall e, e ∈ es -> (e_to e < length N)%nat) -> gathered N P acc ->
  gathered N (fun q => P q \/ exists e, e ∈ es /\ edge_reads c e /\ e_to e = q) (byte_targets c es acc).
Proof.
  unfold byte_targets. revert acc P. induction es as [|e es IH]; intros acc P Hb [H1 H2]; cbn [foldl].
  { constructor; [done|]. intros q. rewrite H2. split; [by left|]. intros [|(e & He & _)]; [done|inversion He]. }
  assert (He : (e_to e < length N)%nat) by (apply Hb; set_solver).
  rewrite (marks_get _ _ _ _ H1 He).
  set (acc' := if _ && _ then _ else _).
  assert (Hg : gathered N (fun q => P q \/ edge_reads c e /\ e_to e = q) acc').
  { unfold acc'. destruct (negb (is_epsilon e) && class_has (char_class e) c) eqn:Er; cbn [andb].
    - assert (Hr : edge_reads c e) by (apply andb_true_iff in Er as [Er1%negb_true_iff Er2]; done).
      case_bool_decide as Hin; cbn [negb].
      + constructor; [done|]. intros q. rewrite H2. split; [by left|]. intros [|[_ <-]]; [done|]. by apply H2.
      + constructor; cbn [fst snd]; [by apply marks_add|]. intros q. rewrite elem_of_app, list_elem_of_singleton, H2. naive_solver.
    - constructor; [done|]. intros q. rewrite H2. split; [by left|]. intros [|[[Hr1 Hr2] _]]; [done|].
      rewrite Hr1, Hr2 in Er. done. }
  apply (IH acc') in Hg as [G1 G2]; [|set_solver]. constructor; [done|]. intros q. rewrite G2. split.
  - intros [[|[Hr <-]]|(e' & He' & Hr)]; [by left|right; exists e; split_and!; [by left|done..]|right; exists e'; split; [by right|done]].
  - intros [|(e' & [-> |He']%elem_of_cons & Hr & <-)]; [by left; left|left; right; done|right; eauto].
Qed.

Lemma gathered_equiv N P Q acc : (forall q, P q <-> Q q) -> gathered N P acc -> gathered N Q acc.
Proof. intros HPQ [H1 H2]. constructor; [done|]. intros q. by rewrite H2. Qed.

Lemma targets_ok N c set acc P :
  targets_below N -> gathered N P acc ->
  gathered N (fun q => P q \/ exists s e, s ∈ set /\ e ∈ edges_of N s /\ edge_reads c e /\ e_to e = q)
    (foldl (fun acc s => byte_targets c (edges_of N s) acc) acc set).
Proof.
  intros Hb. revert acc P. induction set as [|s set IH]; intros acc P Hg; cbn [foldl].
  - apply (gathered_equiv N P); [|done]. intros q. split; [by left|]. intros [|(s & e & Hs & _)]; [done|inversion Hs].
  - apply (byte_targets_ok N c (edges_of N s)) in Hg; [|by apply Hb]. apply IH in Hg. apply (gathered_equiv _ _ _ _) with (2 := Hg).
    intros q. split.
    + intros [[|(e & He & Hr)]|(s' & e & Hs' & Hr)]; [by left|right; exists s, e; split; [by left|done]|right; exists s', e; split; [by right|done]].
    + intros [|(s' & e & [-> |Hs']%elem_of_cons & Hr)]; [by left; left|left; right; eauto|right; eauto].
Qed.

(** The states reached on a word. *)
Definition reached (n : RegexNfa) (w : bytes) (set : list nat) : Prop := forall q, q ∈ set <-> path (states_ n) (start_ n) w q.

Lemma start_set_ok n : targets_below (states_ n) -> (start_ n < length (states_ n))%nat -> exists set, start_set n = Some set /\ reached n [] set.
Proof.
  intros Hb Hs. destruct (epsilon_closure_ok (states_ n) [start_ n] Hb) as (out & E & H).
  { intros q ->%list_elem_of_singleton. done. }
  exists out. split; [done|]. intros q. rewrite H. split.
  - by intros (b & ->%list_elem_of_singleton & Hp).
  - intros Hp. exists (start_ n). split; [by left|done].
Qed.

Lemma step_ok n w set c :
  targets_below (states_ n) -> reached n w set -> exists set', step n set c = Some set' /\ reached n (w ++ [c]) set'.
Proof.
  intros Hb Hr. unfold step.
  assert (H0 : gathered (states_ n) (fun _ => False) (replicate (length (states_ n)) false, [])).
  { constructor; cbn [fst snd]; [|set_solver]. split_and!; [by rewrite length_replicate|set_solver|].
    intros q Hq. rewrite lookup_replicate_2 by done. set_solver. }
  apply (targets_ok (states_ n) c set _ _ Hb) in H0 as [(_ & H1 & _) H2].
  destruct (epsilon_closure_ok (states_ n) _ Hb H1) as (out & -> & H). exists out. split; [done|].
  intros q. rewrite H. split.
  - intros (b & Hin & Hp). apply H2 in Hin as [[]|(s & e & Hs & He & [Heps Hc] & <-)].
    apply Hr in Hs. eapply path_app; [exact Hs|]. by apply path_byte with e.
  - intros (q1 & Hq1 & Hp)%path_split. apply path_one in Hp as (q2 & e & Hq2 & He & Heps & Hc & Hp).
    exists (e_to e). split; [|done]. apply H2. right. exists q2, e. split_and!; auto; [|by split].
    apply Hr. rewrite <- (app_nil_r w). by eapply path_app.
Qed.

(** [start_set], then [step] over a word. *)
Fixpoint run_from (n : RegexNfa) (set : list nat) (w : bytes) : option (list nat) :=
  match w with
  | [] => Some set
  | c :: w => match step n set c with Some set' => run_from n set' w | None => None end
  end.

Definition run (n : RegexNfa) (w : bytes) : option (list nat) := match start_set n with Some set => run_from n set w | None => None end.

Lemma run_from_ok n v set w :
  targets_below (states_ n) -> reached n v set -> exists set', run_from n set w = Some set' /\ reached n (v ++ w) set'.
Proof.
  intros Hb. revert v set. induction w as [|c w IH]; intros v set Hr; cbn [run_from]; [exists set; by rewrite app_nil_r|].
  destruct (step_ok n v set c Hb Hr) as (set' & -> & Hr'). destruct (IH _ _ Hr') as (out & E & H).
  exists out. rewrite <- app_assoc in H. done.
Qed.

Lemma run_ok n w : targets_below (states_ n) -> (start_ n < length (states_ n))%nat -> exists set, run n w = Some set /\ reached n w set.
Proof.
  intros Hb Hs. unfold run. destruct (start_set_ok n Hb Hs) as (set & -> & Hr). by apply (run_from_ok n [] set).
Qed.

(** ** Compiled automata *)

(** No state accepts before [compile] sets the one that does, and the classes of
    the edges are those of the expression. *)
Section Plain.
Context (ok : list bool -> Prop).

Definition plain_state (st : NfaState) : Prop :=
  accepting st = false /\ Forall (fun e => is_epsilon e = true \/ ok (char_class e)) (edges st).

Definition plain (N : states) : Prop := Forall plain_state N.

Lemma plain_new N : plain N -> plain (N ++ [mkNfaState [] false]).
Proof. intros H. apply Forall_app. split; [done|]. by repeat constructor. Qed.

Lemma plain_edge e q N : is_epsilon e = true \/ ok (char_class e) -> plain N -> plain (alter (push_edge e) q N).
Proof.
  intros He H. apply Forall_alter; [done|]. intros st _ [H1 H2]. split; [done|]. apply Forall_app. split; [done|]. by constructor.
Qed.

Lemma plain_add_epsilon f t N : plain N -> plain (add_epsilon f t N).
Proof. apply plain_edge. by left. Qed.

Lemma plain_add_edge f t cls N : ok cls -> plain N -> plain (add_edge f t cls N).
Proof. intros H. apply plain_edge. by right. Qed.

#[local] Hint Resolve plain_new plain_add_epsilon plain_add_edge : plain.

Definition build_plain (r : regex) : Prop := forall N, plain N -> plain (build r N).2.

Lemma chain_copies_plain r count cur N cur' N' :
  build_plain r -> plain N -> chain_copies (fun N => Ok (build r N)) count cur N = Ok (cur', N') -> plain N'.
Proof.
  intros Hr. revert cur N. induction count as [|count IH]; intros cur N HN; cbn [chain_copies rbind]; [by intros [= _ <-]|].
  pose proof (Hr N HN). destruct (build r N) as [f N1]. apply IH. auto with plain.
Qed.

Lemma optional_copies_plain r count cur a N cur' N' :
  build_plain r -> plain N -> optional_copies (fun N => Ok (build r N)) count cur a N = Ok (cur', N') -> plain N'.
Proof.
  intros Hr. revert cur N. induction count as [|count IH]; intros cur N HN; cbn [optional_copies rbind]; [by intros [= _ <-]|].
  pose proof (Hr N HN). destruct (build r N) as [f N1]. apply IH. auto with plain.
Qed.

Lemma range_plain r n m : build_plain r -> build_plain (RRange r n m).
Proof.
  intros Hr N HN. cbn [build]. pose proof (Hr N HN) as H1. destruct (build r N) as [f N1]. cbn [snd] in H1. rewrite range_frag_eq.
  destruct (mandatory f n N1) as [[cur0 M0] built] eqn:Em.
  assert (HM0 : plain M0) by (unfold mandatory, new_state in Em; destruct (1 <=? n); injection Em as _ <- _; auto with plain).
  destruct (chain_copies _ _ cur0 M0) as [[cur M]| | |] eqn:E; cbn [rbind ok_or snd]; auto.
  apply (chain_copies_plain _ _ _ _ _ _ Hr HM0) in E. unfold new_state. destruct m as [m|].
  - destruct (optional_copies _ _ cur _ _) as [[cur' M']| | |] eqn:E'; cbn [rbind ok_or snd]; auto.
    apply (optional_copies_plain _ _ _ _ _ _ _ Hr (plain_new _ E)) in E'. auto with plain.
  - pose proof (Hr _ (plain_new _ E)) as H2. destruct (build r _) as [f2 M2]. cbn [ok_or snd] in *.
    unfold loop_tail, new_state. auto 10 with plain.
Qed.

Lemma build_concat_plain rs cur N : Forall build_plain rs -> plain N -> plain (build_concat rs cur N).2.
Proof.
  intros Hrs. revert cur N. induction Hrs as [|r rs Hr Hrs IH]; intros cur N HN; cbn [build_concat]; [done|].
  pose proof (Hr N HN). destruct (build r N) as [f N1]. apply IH. auto with plain.
Qed.

Lemma build_alts_plain rs s0 a N : Forall build_plain rs -> plain N -> plain (build_alts rs s0 a N).
Proof.
  intros Hrs. revert N. induction Hrs as [|r rs Hr Hrs IH]; intros N HN; cbn [build_alts]; [done|].
  pose proof (Hr N HN). destruct (build r N) as [f N1]. apply IH. auto with plain.
Qed.

Lemma classes_list rs :
  Forall (fun r => Forall ok (classes r) -> build_plain r) rs -> Forall ok (foldr (fun r l => classes r ++ l) [] rs) -> Forall build_plain rs.
Proof. induction 1 as [|r rs Hr Hrs IH]; cbn; [constructor|]. intros [H1 H2]%Forall_app. constructor; auto. Qed.

Lemma build_all_plain r : Forall ok (classes r) -> build_plain r.
Proof.
  induction r as [cls| |r IH|r IH|r IH|r n m IH|rs IH|r rs IHr IH] using regex_induction; cbn [classes]; intros Hok N HN;
    try (cbn [build]; specialize (IH Hok N HN); destruct (build r N); cbn [snd] in *;
         unfold star_frag, plus_frag, opt_frag, new_state; cbn [snd]; by auto 10 with plain).
  - cbn [build]. unfold class_frag, new_state. cbn [snd]. apply plain_add_edge; [by inversion Hok|]. auto with plain.
  - cbn [build]. unfold epsilon_frag, new_state. cbn [snd]. auto with plain.
  - by apply range_plain, HN; apply IH.
  - apply (classes_list rs IH) in Hok. rewrite build_concat_eq. unfold new_state. destruct rs as [|r rs]; [cbn [snd]; auto with plain|].
    pose proof (build_concat_plain (r :: rs) (length N) _ Hok (plain_new _ HN)) as H. by destruct (build_concat _ _ _).
  - apply Forall_app in Hok as [Hr Hrs%(classes_list rs IH)]. rewrite build_alt_eq. pose proof (IHr Hr N HN) as H.
    destruct (build r N) as [f N1]. unfold new_state. cbn [snd] in *. apply build_alts_plain; [done|]. auto 10 with plain.
Qed.
End Plain.

Lemma edges_set_accepting a N q : edges_of (set_accepting a N) q = edges_of N q.
Proof.
  unfold edges_of, set_accepting. destruct (decide (a = q)) as [-> |Hne].
  - rewrite list_lookup_alter_eq. by destruct (N !! q).
  - by rewrite list_lookup_alter_ne.
Qed.

Lemma path_same_edges N M q w q' : (forall q, edges_of N q = edges_of M q) -> path N q w q' -> path M q w q'.
Proof. intros H Hp. induction Hp as [q|q e w q' He Heps Hp IH|q e c w q' He Heps Hc Hp IH]; rewrite ?H in *; eauto. Qed.

Lemma linked_set_accepting a N q q' : linked (set_accepting a N) q q' <-> linked N q q'.
Proof. unfold linked. by setoid_rewrite edges_set_accepting. Qed.

(** Some byte is in the class. *)
Definition inhabited (cls : list bool) : Prop := exists c, 0 <= c < 256 /\ class_has cls c = true.

(** What the simulation needs of an automaton. *)
Record compiled (n : RegexNfa) (r : regex) : Prop := {
  co_below : targets_below (states_ n);
  co_start : (start_ n < length (states_ n))%nat;
  co_accepting : forall q st, states_ n !! q = Some st -> accepting st = bool_decide (q = accept_ n);
  co_accept : (accept_ n < length (states_ n))%nat;
  co_lang : forall w, path (states_ n) (start_ n) w (accept_ n) <-> den r w;
  co_live : forall q, reach (states_ n) (start_ n) q -> reach (states_ n) q (accept_ n);
  co_classes : forall P q e, Forall P (classes r) -> e ∈ edges_of (states_ n) q -> is_epsilon e = true \/ P (char_class e)
}.

Lemma plain_edges P N q e : plain P N -> e ∈ edges_of N q -> is_epsilon e = true \/ P (char_class e).
Proof.
  unfold edges_of. intros Hp. destruct (N !! q) as [st|] eqn:E; [|inversion 1].
  apply (Forall_lookup_1 _ _ _ _ Hp) in E as [_ Hes]. intros He. by apply (proj1 (Forall_forall _ _) Hes).
Qed.

Lemma compile_compiled p n : compile p = Ok n -> exists r, parse_regex p = Ok r /\ compiled n r.
Proof.
  rewrite compile_refines. destruct (parse_regex p) as [r| | |]; cbn [rbind]; try done. intros H. exists r. split; [done|].
  destruct (build_all r []) as [[Hs Ha He Hc HL Hlive] _].
  pose proof (fun P Hok => build_all_plain P r Hok [] (Forall_nil_2 _)) as Hp.
  destruct (build r []) as [f N]. cbn [fst snd length] in *. injection H as <-. constructor; cbn [states_ start_ accept_].
  - intros q e. rewrite edges_set_accepting. unfold set_accepting. rewrite length_alter. intros Hin. by apply (Hc q); [lia|].
  - unfold set_accepting. rewrite length_alter. lia.
  - intros q st Hq. unfold set_accepting in Hq. destruct (decide (q = accept f)) as [-> |Hne].
    + rewrite list_lookup_alter_eq in Hq. rewrite bool_decide_eq_true_2 by done. destruct (N !! accept f); naive_solver.
    + rewrite list_lookup_alter_ne in Hq by done. rewrite bool_decide_eq_false_2 by done.
      assert (Ht : Forall (fun _ : list bool => True) (classes r)) by by apply Forall_true. by apply (Forall_lookup_1 _ _ _ _ (Hp _ Ht) Hq).
  - unfold set_accepting. rewrite length_alter. lia.
  - intros w. rewrite <- (HL w), <- path_walks by done.
    split; apply path_same_edges; intros q; by rewrite edges_set_accepting.
  - intros q Hq. unfold reach in *. apply (rtc_subrel _ (linked N)) in Hq; [|intros ??; by rewrite linked_set_accepting].
    apply Hlive in Hq. revert Hq. apply rtc_subrel. intros ??. by rewrite linked_set_accepting.
  - intros P q e Hok. rewrite edges_set_accepting. apply plain_edges. auto.
Qed.

Lemma path_reach N q w q' : path N q w q' -> reach N q q'.
Proof. induction 1 as [q|q e w q' He _ _ IH|q e c w q' He _ _ _ IH]; [apply reach_refl|..]; (eapply rtc_l; [by exists e|done]). Qed.

(** What has been read can be completed, when no class is empty. *)
Lemma path_complete n r q :
  compiled n r -> Forall inhabited (classes r) -> reach (states_ n) (start_ n) q ->
  exists v, Forall (fun c => 0 <= c < 256) v /\ path (states_ n) q v (accept_ n).
Proof.
  intros Hn Hok Hq. apply (co_live _ _ Hn) in Hq. revert q Hq. apply (rtc_ind_l _ _); [by exists []|].
  intros x y (e & He & <-) _ (v & Hv & Hp). destruct (co_classes _ _ Hn _ _ _ Hok He) as [Heps|(c & Hc & Hcl)].
  - exists v. eauto.
  - destruct (is_epsilon e) eqn:Ee; [exists v; eauto|]. exists (c :: v). split; [by constructor|]. eauto.
Qed.

Lemma accepts_ok n r w set : compiled n r -> reached n w set -> (accepts n set = true <-> den r w).
Proof.
  intros [Hb Hs Hacc Ha HL _ _] Hr. unfold accepts. rewrite existsb_exists, <- HL. split.
  - intros (q & Hin & H). destruct (states_ n !! q) as [st|] eqn:E; [|done]. rewrite (Hacc _ _ E), bool_decide_eq_true in H. subst q.
    apply Hr. by apply list_elem_of_In.
  - intros Hp%Hr. exists (accept_ n). split; [by apply list_elem_of_In|]. destruct (lookup_lt_is_Some_2 _ _ Ha) as [st E].
    by rewrite E, (Hacc _ _ E), bool_decide_eq_true_2.
Qed.
