(* ===== verification/RegexTheorems.v ===== *)
(** * The regex engine: the guarantees

    A compiled pattern accepts exactly the language of the expression it denotes;
    the engine refuses exactly the patterns that are no expression; the only
    undefined patterns are those with a repetition count beyond [long]. *)

From Corelib Require Import ssreflect_rw.
From stdpp Require Import prelude list strings.
From S2P Require Import Prelude StreamPipeline JsonFsm Languages RegexNfa RegexSyntax RegexParse RegexThompson RegexSets.
Open Scope Z_scope.

(** ** Overflowing counts *)

Lemma scan_digits_overflow v any s k :
  0 <= v < 10 ^ Z.of_nat k -> scan_digits v any s = Overflow -> (19 <= length s + k)%nat.
Proof.
  revert v any k. induction s as [|c s IH]; intros v any k Hv; cbn [scan_digits]; [done|].
  destruct (is_digit c) eqn:Ed; [|done]. unfold is_digit in Ed. apply andb_true_iff in Ed as [H1%Z.leb_le H2%Z.leb_le].
  assert (Hv' : 0 <= v * 10 + (c - 48) < 10 ^ Z.of_nat (S k)) by (rewrite Nat2Z.inj_succ, Z.pow_succ_r by lia; lia).
  destruct (Z.ltb_spec kLongMax (v * 10 + (c - 48))) as [Ho|_].
  - intros _. cbn [length]. destruct (decide (19 <= S (length s) + k)%nat); [done|]. exfalso.
    assert (10 ^ Z.of_nat (S k) <= 10 ^ 18) by (apply Z.pow_le_mono_r; lia). unfold kLongMax in Ho. lia.
  - intros H. apply (IH _ _ (S k) Hv') in H. cbn [length]. lia.
Qed.

Definition overflow_long {A} (F : bytes -> res A) : Prop := forall s, F s = Overflow -> (19 <= length s)%nat.

Lemma rbind_overflow {A B} (x : res A) (k : A -> res B) :
  rbind x k = Overflow -> x = Overflow \/ exists a, x = Ok a /\ k a = Overflow.
Proof. destruct x; cbn; [right|left|..]; eauto; done. Qed.

Lemma suffix_length {A} (s rest : list A) : (exists p, s = p ++ rest) -> (length rest <= length s)%nat.
Proof. intros [p ->]. rewrite length_app. lia. Qed.

Lemma parse_quantifier_overflow : overflow_long parse_quantifier.
Proof.
  assert (Hs : forall s, scan_digits 0 false s = Overflow -> (19 <= length s)%nat).
  { intros s H. apply (scan_digits_overflow 0 false s 0) in H; [lia|]. cbn. lia. }
  intros [|c s]; cbn [parse_quantifier]; [done|]. repeat (destruct (c =? _); [done || idtac|]); try done.
  unfold parse_range. intros [H|([n r] & E & H)]%rbind_overflow; [apply Hs in H; cbn [length]; lia|].
  apply scan_digits_suffix, suffix_length in E. apply rbind_overflow in H as [H|([m r'] & E' & H)]; [|by destruct n, (eat 125 r')].
  destruct (eat 44 r) as [r'|] eqn:Ee; [|done]. apply eat_suffix, suffix_length in Ee. apply Hs in H. cbn [length]. lia.
Qed.

Lemma class_items_overflow f cls any s : class_items f cls any s ≠ Overflow.
Proof.
  revert cls any s. induction f as [|f IH]; intros cls any s; [done|]. cbn [class_items].
  destruct s as [|c s1]; [done|]. destruct (c =? 93); [done|]. destruct (c =? 92).
  - destruct s1 as [|esc s2]; [done|]. destruct (make_shorthand esc); apply IH.
  - destruct s1 as [|dash [|hi s3]]; try apply IH. destruct (_ && _); [destruct (hi <? c); [done|]|]; apply IH.
Qed.

Lemma parse_class_overflow s : parse_class s ≠ Overflow.
Proof.
  assert (H : forall negate s, class_body negate s ≠ Overflow); [|unfold parse_class; case_match; apply H].
  intros negate t [H|([[cls any] rest] & E & H)]%rbind_overflow; [by apply class_items_overflow in H|].
  by destruct (eat 93 rest), any.
Qed.

Section Overflow.
Context (inner : bytes -> res (regex * bytes)) (Hinner : leaves_suffix inner) (Hlong : overflow_long inner).

Lemma re_atom_overflow : overflow_long (re_atom inner).
Proof.
  intros [|c s]; cbn [re_atom length]; [done|]. destruct (c =? 40).
  { intros [H|([r rest] & E & H)]%rbind_overflow; [|by destruct (eat 41 rest)].
    apply Hlong in H. pose proof (suffix_length _ _ (skip_marker_suffix s)). lia. }
  destruct (c =? 91).
  { intros [H|([cls rest] & E & H)]%rbind_overflow; [by apply parse_class_overflow in H|done]. }
  destruct (_ || _); [done|]. destruct (c =? 46); [done|]. destruct (c =? 92); [by destruct s|]. by destruct (_ || _).
Qed.

Lemma re_repeat_overflow : overflow_long (re_repeat inner).
Proof.
  intros s. unfold re_repeat. intros [H|([r rest] & E & H)]%rbind_overflow; [by apply re_atom_overflow|].
  apply (re_atom_reads inner Hinner) in E as (c & p & ->). cbn [length]. rewrite length_app.
  apply rbind_overflow in H as [H|([[q rest']|] & E & H)]; [apply parse_quantifier_overflow in H; lia|done..].
Qed.

Lemma re_concat_overflow f : overflow_long (re_concat inner f).
Proof.
  induction f as [|f IH]; intros s; [done|]. cbn [re_concat]. destruct (concat_ends s); [done|].
  intros [H|([r rest] & E & H)]%rbind_overflow; [by apply re_repeat_overflow|].
  apply (re_repeat_reads inner Hinner) in E as (c & p & ->). cbn [length]. rewrite length_app.
  apply rbind_overflow in H as [H|([rs rest'] & E & H)]; [apply IH in H; lia|done].
Qed.

Lemma re_alts_overflow f : overflow_long (re_alts inner f).
Proof.
  induction f as [|f IH]; intros s; [done|]. cbn [re_alts]. destruct (eat 124 s) as [s'|] eqn:Ee; [|done].
  apply eat_suffix, suffix_length in Ee. intros [H|([r rest] & E & H)]%rbind_overflow; [apply re_concat_overflow in H; lia|].
  apply (re_concat_suffix inner Hinner), suffix_length in E.
  apply rbind_overflow in H as [H|([rs rest'] & E' & H)]; [apply IH in H; lia|done].
Qed.

Lemma re_alternatives_overflow : overflow_long (re_alternatives inner).
Proof.
  intros s. unfold re_alternatives. intros [H|([r rest] & E & H)]%rbind_overflow; [by apply re_concat_overflow in H|].
  apply (re_concat_suffix inner Hinner), suffix_length in E.
  apply rbind_overflow in H as [H|([rs rest'] & E' & H)]; [apply re_alts_overflow in H; lia|done].
Qed.
End Overflow.

Lemma re_alt_overflow d : overflow_long (re_alt d).
Proof. induction d as [|d IH]; [done|]. by apply (re_alternatives_overflow _ (re_alt_suffix d)). Qed.

Lemma parse_regex_overflow : overflow_long parse_regex.
Proof.
  intros p. unfold parse_regex. intros [H|([r rest] & E & H)]%rbind_overflow; [by apply re_alt_overflow in H|by destruct rest].
Qed.

(** ** Compilation *)

(** Whether the automaton of a pattern accepts a word; [None] would be a closure
    out of fuel. *)
Definition matches (n : RegexNfa) (w : bytes) : option bool := accepts n <$> run n w.

Lemma matches_ok n r w : compiled n r -> exists b, matches n w = Some b /\ (b = true <-> den r w).
Proof.
  intros Hn. destruct (run_ok n w (co_below _ _ Hn) (co_start _ _ Hn)) as (set & E & Hr).
  exists (accepts n set). unfold matches. rewrite E. split; [done|]. by apply (accepts_ok n r w).
Qed.

(** C31: [RegexNfa] is exact and total: [compile] never diverges; when it
    succeeds, the pattern denotes an expression and the set simulation decides,
    for every byte string, membership in that expression's language; when it
    fails, the pattern denotes no expression; and only a pattern of at least 19
    bytes can hit the undefined repetition count. *)
Theorem regex_compile_exact p :
  match compile p with
  | Ok n => exists r, parse_regex p = Ok r /\ forall w, exists b, matches n w = Some b /\ (b = true <-> den r w)
  | Bad => parse_regex p = Bad
  | Overflow => parse_regex p = Overflow /\ (19 <= length p)%nat
  | NoFuel => False
  end.
Proof.
  pose proof (parse_regex_total p) as Ht. pose proof (parse_regex_overflow p) as Ho. pose proof (compile_compiled p) as Hc.
  destruct (compile p) as [n| | |] eqn:E.
  - destruct (Hc n eq_refl) as (r & Hr & Hn). exists r. split; [done|]. intros w. by apply matches_ok.
  - rewrite compile_refines in E. destruct (parse_regex p) as [r| | |]; cbn [rbind] in E; try done. by destruct (build r []).
  - rewrite compile_refines in E. destruct (parse_regex p) as [r| | |]; cbn [rbind] in E; try done; [by destruct (build r [])|auto].
  - rewrite compile_refines in E. destruct (parse_regex p) as [r| | |]; cbn [rbind] in E; try done. by destruct (build r []).
Qed.

Definition pattern_matches (p w : string) : option bool :=
  match compile (src_of p) with Ok n => matches n (src_of w) | _ => None end.

Example regex_samples :
  pattern_matches "(cat|dog)s?" "dogs" = Some true /\ pattern_matches "(cat|dog)s?" "cow" = Some false /\
  pattern_matches "[0-9]{3}-[0-9]{2}" "123-45" = Some true /\ pattern_matches "[0-9]{3}-[0-9]{2}" "123-4" = Some false /\
  pattern_matches "a{2,1}" "aa" = Some true /\ pattern_matches "a{,2}" "a{,2}" = Some true /\
  pattern_matches "x(ab|c){2,}" "xabcab" = Some true /\ pattern_matches "a+?" "aa?" = Some true /\
  pattern_matches "(a" "a" = None.
Proof. by vm_compute. Qed.
