(* ===== verification/RegexPrint.v ===== *)
(** * Spelling patterns

    A syntax of regular expressions with its own meaning, and the way to spell
    them for the engine: literals with the metacharacters escaped, classes with
    ranges and shorthands, non-capturing groups, the quantifiers.  Every spelling
    compiles to an automaton of that meaning. *)

From Corelib Require Import ssreflect_rw.
From stdpp Require Import prelude list strings.
From S2P Require Import Prelude StreamPipeline JsonFsm Languages RegexNfa RegexSyntax RegexParse RegexThompson RegexSets RegexTheorems.
Open Scope Z_scope.

(** ** Syntax and meaning *)

Inductive shorthand : Type := Digit | NonDigit | Word | NonWord | Space | NonSpace.

Inductive item : Type := IChar (c : Z) | IRange (lo hi : Z) | IShort (k : shorthand).

(** Counts are in decimal, their digits in a list. *)
Inductive upper : Type := Exactly | Unbounded | UpTo (m : list Z).

Inductive syntax : Type :=
  | SChar (c : Z)
  | SAny
  | SShort (k : shorthand)
  | SSet (negated : bool) (items : list item)
  | SStar (s : syntax)
  | SPlus (s : syntax)
  | SOpt (s : syntax)
  | SRepeat (s : syntax) (n : list Z) (m : upper)
  | SCat (s1 s2 : syntax)
  | SOr (s1 s2 : syntax).

Definition is_byte (c : Z) : bool := (0 <=? c) && (c <? 256).

Definition short_has (k : shorthand) (c : Z) : bool :=
  match k with
  | Digit => is_digit c | NonDigit => negb (is_digit c)
  | Word => is_word c | NonWord => negb (is_word c)
  | Space => is_space c | NonSpace => negb (is_space c)
  end.

Definition item_has (c : Z) (i : item) : bool :=
  match i with IChar x => c =? x | IRange lo hi => (lo <=? c) && (c <=? hi) | IShort k => short_has k c end.

Definition value (ds : list Z) : Z := foldl (fun v d => v * 10 + d) 0 ds.

Definition bytes_with (p : Z -> bool) : lang := lclass (fun c => is_byte c && p c).

(** Between [n] and [m] words, [n] words where [m] is smaller. *)
Definition repeats (L : lang) (n : Z) (m : option Z) : lang := fun w =>
  exists k, n <= Z.of_nat k /\ (match m with Some m => Z.of_nat k <= Z.max n m | None => True end) /\ lpow L k w.

Fixpoint meaning (s : syntax) : lang :=
  match s with
  | SChar c => bytes_with (Z.eqb c)
  | SAny => bytes_with (fun c => negb (c =? 10))
  | SShort k => bytes_with (short_has k)
  | SSet negated items => bytes_with (fun c => xorb negated (existsb (item_has c) items))
  | SStar s => repeats (meaning s) 0 None
  | SPlus s => repeats (meaning s) 1 None
  | SOpt s => repeats (meaning s) 0 (Some 1)
  | SRepeat s n Exactly => repeats (meaning s) (value n) (Some (value n))
  | SRepeat s n Unbounded => repeats (meaning s) (value n) None
  | SRepeat s n (UpTo m) => repeats (meaning s) (value n) (Some (value m))
  | SCat s1 s2 => (meaning s1 ⋅ meaning s2)%lang
  | SOr s1 s2 => (meaning s1 ⊕ meaning s2)%lang
  end.

(** ** Spelling *)

Definition metacharacters : bytes := src_of "()[]{}.*+?|^$" ++ [92].

Definition alnum (c : Z) : bool := is_digit c || ((65 <=? c) && (c <=? 90)) || ((97 <=? c) && (c <=? 122)).

Definition short_letter (k : shorthand) : Z :=
  match k with Digit => 100 | NonDigit => 68 | Word => 119 | NonWord => 87 | Space => 115 | NonSpace => 83 end.

Definition spell_char (c : Z) : bytes := if existsb (Z.eqb c) metacharacters then [92; c] else [c].

Definition spell_item (i : item) : bytes :=
  match i with
  | IChar c => if alnum c then [c] else [92; c]
  | IRange lo hi => [lo; 45; hi]
  | IShort k => [92; short_letter k]
  end.

Definition spell_digits (ds : list Z) : bytes := (fun d => 48 + d) <$> ds.

Definition spell_upper (m : upper) : bytes :=
  match m with Exactly => [] | Unbounded => [44] | UpTo m => 44 :: spell_digits m end.

Definition group (s : bytes) : bytes := 40 :: 63 :: 58 :: s ++ [41].

Fixpoint spell (s : syntax) : bytes :=
  match s with
  | SChar c => spell_char c
  | SAny => [46]
  | SShort k => [92; short_letter k]
  | SSet negated items => 91 :: (if negated then [94] else []) ++ concat (spell_item <$> items) ++ [93]
  | SStar s => group (spell s ++ [42])
  | SPlus s => group (spell s ++ [43])
  | SOpt s => group (spell s ++ [63])
  | SRepeat s n m => group (spell s ++ 123 :: spell_digits n ++ spell_upper m ++ [125])
  | SCat s1 s2 => group (spell s1 ++ spell s2)
  | SOr s1 s2 => group (spell s1 ++ 124 :: spell s2)
  end.

(** What can be spelled. *)
Definition valid_item (i : item) : Prop :=
  match i with IChar c => is_byte c = true | IRange lo hi => alnum lo = true /\ alnum hi = true /\ lo <= hi | IShort _ => True end.

Definition valid_count (ds : list Z) : Prop := ds ≠ [] /\ Forall (fun d => 0 <= d <= 9) ds /\ value ds <= kLongMax.

Definition valid_upper (m : upper) : Prop := match m with UpTo m => valid_count m | _ => True end.

Fixpoint valid (s : syntax) : Prop :=
  match s with
  | SChar c => is_byte c = true
  | SAny | SShort _ => True
  | SSet _ items => items ≠ [] /\ Forall valid_item items
  | SStar s | SPlus s | SOpt s => valid s
  | SRepeat s n m => valid s /\ valid_count n /\ valid_upper m
  | SCat s1 s2 | SOr s1 s2 => valid s1 /\ valid s2
  end.

(** ** Parsing a spelling *)

(** The expression the engine reads. *)
Fixpoint ast (s : syntax) : regex :=
  match s with
  | SChar c => RClass (table (Z.eqb c))
  | SAny => RClass (table (fun c => negb (c =? 10)))
  | SShort k => RClass (table (short_has k))
  | SSet negated items => RClass (table (fun c => xorb negated (existsb (item_has c) items)))
  | SStar s => RConcat [RStar (ast s)]
  | SPlus s => RConcat [RPlus (ast s)]
  | SOpt s => RConcat [ROpt (ast s)]
  | SRepeat s n Exactly => RConcat [RRange (ast s) (value n) (Some (value n))]
  | SRepeat s n Unbounded => RConcat [RRange (ast s) (value n) None]
  | SRepeat s n (UpTo m) => RConcat [RRange (ast s) (value n) (Some (value m))]
  | SCat s1 s2 => RConcat [ast s1; ast s2]
  | SOr s1 s2 => RAlt (RConcat [ast s1]) [RConcat [ast s2]]
  end.

Fixpoint depth (s : syntax) : nat :=
  match s with
  | SChar _ | SAny | SShort _ | SSet _ _ => O
  | SStar s | SPlus s | SOpt s | SRepeat s _ _ => S (depth s)
  | SCat s1 s2 | SOr s1 s2 => S (Nat.max (depth s1) (depth s2))
  end.

Lemma spell_meta c : existsb (Z.eqb c) metacharacters = true -> make_shorthand c = None /\ atom_escape c = c.
Proof.
  intros (x & Hx & ->%Z.eqb_eq)%existsb_exists.
  assert (H : Forall (fun x => make_shorthand x = None /\ atom_escape x = x) metacharacters) by by repeat constructor.
  by apply (proj1 (Forall_forall _ _) H x), list_elem_of_In.
Qed.

Lemma not_meta c : existsb (Z.eqb c) metacharacters = false ->
  (c =? 40) = false /\ (c =? 91) = false /\ (c =? 41) || (c =? 124) = false /\ (c =? 46) = false /\ (c =? 92) = false /\ (c =? 94) || (c =? 36) = false.
Proof. cbn. rewrite !orb_false_iff. naive_solver. Qed.

Lemma short_letter_shorthand k : make_shorthand (short_letter k) = Some (short_has k).
Proof. by destruct k. Qed.

(** *** Classes *)

Lemma alnum_class c : alnum c = true -> (c =? 93) = false /\ (c =? 92) = false /\ c ≠ 45 /\ c ≠ 94.
Proof. unfold alnum, is_digit. rewrite !orb_true_iff, !andb_true_iff, !Z.leb_le, !Z.eqb_neq. lia. Qed.

Lemma not_alnum_class c : alnum c = false -> make_shorthand c = None /\ class_escape c = c.
Proof.
  intros H. assert (Hn : forall x, alnum x = true -> (c =? x) = false) by (intros x Hx; apply Z.eqb_neq; congruence).
  unfold make_shorthand, class_escape. by rewrite !Hn.
Qed.

Lemma spell_item_head i rest : valid_item i -> exists h t, spell_item i ++ rest = h :: t /\ h ≠ 45 /\ h ≠ 94.
Proof.
  destruct i as [c|lo hi|k]; cbn.
  - intros _. destruct (alnum c) eqn:Ec; [|by eexists _, _]. destruct (alnum_class c Ec) as (_ & _ & H). by eexists _, _.
  - intros (Hlo & _). destruct (alnum_class lo Hlo) as (_ & _ & H). by eexists _, _.
  - by eexists _, _.
Qed.

Lemma items_head items rest : Forall valid_item items -> exists h t, concat (spell_item <$> items) ++ 93 :: rest = h :: t /\ h ≠ 45.
Proof.
  destruct 1 as [|i items Hi _]; cbn; [by eexists _, _|]. rewrite <- app_assoc.
  destruct (spell_item_head i (concat (spell_item <$> items) ++ 93 :: rest) Hi) as (h & t & -> & H & _). by eexists _, _.
Qed.

Lemma class_items_spelled fuel cls any items rest :
  Forall valid_item items -> (length items < fuel)%nat ->
  exists cls', class_items fuel cls any (concat (spell_item <$> items) ++ 93 :: rest) =
      Ok (cls', any || negb (bool_decide (items = [])), 93 :: rest) /\
    forall x, cls' x = existsb (item_has x) items || cls x.
Proof.
  intros Hv. revert fuel cls any. induction Hv as [|i items Hi Hv IH]; intros [|fuel] cls any Hf; cbn [length] in Hf; try lia.
  { exists cls. rewrite bool_decide_eq_true_2, orb_false_r by done. done. }
  rewrite bool_decide_eq_false_2, orb_true_r by done. cbn [fmap list_fmap concat]. rewrite <- app_assoc.
  destruct (items_head items rest Hv) as (h & t & Ht & Hh).
  assert (Hend : forall sc, exists cls', class_items fuel (fun x => sc x || cls x) true (concat (spell_item <$> items) ++ 93 :: rest) =
      Ok (cls', true, 93 :: rest) /\ forall x, cls' x = existsb (item_has x) items || (sc x || cls x)).
  { intros sc. destruct (IH fuel (fun x => sc x || cls x) true) as (cls' & E & H); [lia|]. by exists cls'. }
  assert (Hswap : forall a b c : bool, b || (a || c) = a || b || c) by by intros [] [] [].
  destruct i as [c|lo hi|k]; cbn [spell_item item_has].
  - destruct (alnum c) eqn:Ec.
    + destruct (alnum_class c Ec) as (H1 & H2 & _). destruct (Hend (fun x => x =? c)) as (cls' & E & H). exists cls'. split; [|intros x; by rewrite H; cbn; rewrite Hswap].
      cbn [app class_items]. rewrite H1, H2. rewrite Ht in *. destruct t as [|h2 t]; [done|].
      by rewrite (proj2 (Z.eqb_neq h 45) Hh).
    + destruct (not_alnum_class c Ec) as [H1 H2]. destruct (Hend (fun x => x =? c)) as (cls' & E & H). exists cls'.
      split; [|intros x; by rewrite H; cbn; rewrite Hswap]. cbn [app class_items]. by rewrite H1, H2.
  - destruct Hi as (Hlo & Hhi & Hle). destruct (alnum_class lo Hlo) as (H1 & H2 & _). destruct (alnum_class hi Hhi) as (H3 & _).
    destruct (Hend (fun x => (lo <=? x) && (x <=? hi))) as (cls' & E & H). exists cls'. split; [|intros x; by rewrite H; cbn; rewrite Hswap].
    cbn [app class_items]. rewrite H1, H2, H3. cbn. by rewrite (proj2 (Z.ltb_ge hi lo)).
  - destruct (Hend (short_has k)) as (cls' & E & H). exists cls'. split; [|intros x; by rewrite H; cbn; rewrite Hswap].
    cbn [app class_items]. by rewrite short_letter_shorthand.
Qed.

Lemma table_ext (p q : Z -> bool) : (forall c, p c = q c) -> table p = table q.
Proof. intros H. unfold table. apply list_fmap_ext. intros i x _. apply H. Qed.

Lemma spell_items_length items : (length items <= length (concat (spell_item <$> items)))%nat.
Proof.
  induction items as [|i items IH]; [done|]. cbn [fmap list_fmap concat length]. rewrite length_app.
  assert (1 <= length (spell_item i))%nat by (destruct i as [c|lo hi|k]; cbn; [destruct (alnum c)|..]; cbn; lia). lia.
Qed.

Lemma class_body_spelled negated items rest :
  items ≠ [] -> Forall valid_item items ->
  class_body negated (concat (spell_item <$> items) ++ 93 :: rest) =
    Ok (table (fun c => xorb negated (existsb (item_has c) items)), rest).
Proof.
  intros Hne Hv. unfold class_body.
  destruct (class_items_spelled (S (length (concat (spell_item <$> items) ++ 93 :: rest))) (fun _ => false) false items rest Hv)
    as (cls' & -> & H).
  { pose proof (spell_items_length items). rewrite length_app. lia. }
  rewrite bool_decide_eq_false_2 by done. cbn [rbind eat orb negb]. rewrite Z.eqb_refl. f_equal. f_equal.
  apply table_ext. intros c. rewrite H, orb_false_r. by destruct negated, (existsb (item_has c) items).
Qed.

Lemma parse_class_spelled (negated : bool) items rest :
  items ≠ [] -> Forall valid_item items ->
  parse_class ((if negated then [94] else []) ++ concat (spell_item <$> items) ++ 93 :: rest) =
    Ok (table (fun c => xorb negated (existsb (item_has c) items)), rest).
Proof.
  intros Hne Hv. unfold parse_class. destruct negated; [by apply class_body_spelled|]. cbn [app].
  rewrite <- (class_body_spelled false items rest Hne Hv).
  destruct Hv as [|i items Hi _]; [done|]. cbn [fmap list_fmap concat]. rewrite <- app_assoc.
  destruct (spell_item_head i (concat (spell_item <$> items) ++ 93 :: rest) Hi) as (h & t & -> & _ & H).
  cbn [eat]. by rewrite (proj2 (Z.eqb_neq h 94) H).
Qed.

(** *** Counts *)

Definition no_digit (s : bytes) : Prop := match s with c :: _ => is_digit c = false | [] => True end.

Lemma value_mono ds v v' : Forall (fun d => 0 <= d <= 9) ds -> 0 <= v <= v' ->
  v <= foldl (fun v d => v * 10 + d) v ds <= foldl (fun v d => v * 10 + d) v' ds.
Proof.
  intros H. revert v v'. induction H as [|d ds Hd _ IH]; intros v v' Hv; cbn [foldl]; [lia|].
  specialize (IH (v * 10 + d) (v' * 10 + d)). lia.
Qed.

Lemma scan_digits_spelled ds v (any : bool) rest :
  Forall (fun d => 0 <= d <= 9) ds -> 0 <= v -> foldl (fun v d => v * 10 + d) v ds <= kLongMax -> no_digit rest ->
  scan_digits v any (spell_digits ds ++ rest) =
    Ok (if any || negb (bool_decide (ds = [])) then Some (foldl (fun v d => v * 10 + d) v ds) else None, rest).
Proof.
  intros H. revert v any. induction H as [|d ds Hd Hds IH]; intros v any Hv Hm Hr.
  - rewrite bool_decide_eq_true_2, orb_false_r by done. cbn [spell_digits fmap list_fmap app foldl].
    destruct rest as [|c rest]; cbn [scan_digits]; [done|]. cbn in Hr. by rewrite Hr.
  - rewrite bool_decide_eq_false_2, orb_true_r by done. cbn [spell_digits fmap list_fmap app foldl scan_digits] in *.
    assert (Hdig : is_digit (48 + d) = true) by (unfold is_digit; apply andb_true_iff; rewrite !Z.leb_le; lia).
    rewrite Hdig. replace (48 + d - 48) with d by lia.
    pose proof (value_mono ds (v * 10 + d) (v * 10 + d) Hds) as Hle.
    destruct (Z.ltb_spec kLongMax (v * 10 + d)) as [Ho|_]; [lia|]. unfold spell_digits in IH. by rewrite (IH _ true) by (done || lia).
Qed.

Lemma scan_count ds rest : valid_count ds -> no_digit rest -> scan_digits 0 false (spell_digits ds ++ rest) = Ok (Some (value ds), rest).
Proof.
  intros (Hne & Hd & Hm) Hr. rewrite scan_digits_spelled by (done || lia). by rewrite bool_decide_eq_false_2.
Qed.

Definition bound (n : list Z) (m : upper) : option Z :=
  match m with Exactly => Some (value n) | Unbounded => None | UpTo m => Some (value m) end.

Lemma parse_range_spelled n m rest :
  valid_count n -> valid_upper m ->
  parse_range (spell_digits n ++ spell_upper m ++ 125 :: rest) = Ok (Some (QRange (value n) (bound n m), rest)).
Proof.
  intros Hn Hm. unfold parse_range. rewrite scan_count by (done || by destruct m). cbn [rbind].
  destruct m as [| |m]; cbn [spell_upper app eat bound]; [done| |].
  - done.
  - rewrite Z.eqb_refl, scan_count by done. done.
Qed.

(** *** Expressions *)

(** Not the start of a quantifier, nor the end of a sequence. *)
Definition starts_atom (c : Z) : Prop := forall x, x ∈ [42; 43; 63; 123; 124; 41] -> (c =? x) = false.

Lemma spell_head s rest : exists h t, spell s ++ rest = h :: t /\ starts_atom h.
Proof.
  assert (Hok : forall h, forallb (fun x => negb (h =? x)) [42; 43; 63; 123; 124; 41] = true -> starts_atom h).
  { intros h Hh x Hx. rewrite forallb_forall in Hh. apply negb_true_iff, Hh, list_elem_of_In, Hx. }
  destruct s; cbn [spell app]; try (eexists _, _; split; [done|by apply Hok]).
  unfold spell_char. destruct (existsb (Z.eqb c) metacharacters) eqn:E; cbn [app]; eexists _, _; (split; [done|]); [by apply Hok|].
  intros x Hx. apply Z.eqb_neq. intros ->. revert E. apply not_false_iff_true, existsb_exists. exists x. split; [|apply Z.eqb_refl].
  apply list_elem_of_In. revert x Hx. change ([42; 43; 63; 123; 124; 41] ⊆ metacharacters). by apply (bool_decide_unpack _); vm_compute.
Qed.

Lemma no_quantifier s rest : parse_quantifier (spell s ++ rest) = Ok None.
Proof.
  destruct (spell_head s rest) as (h & t & -> & H). cbn [parse_quantifier]. by rewrite !H by set_solver.
Qed.

Section Spelled.
Context (d : nat) (s : syntax) (Hs : forall rest, re_atom (re_alt d) (spell s ++ rest) = Ok (ast s, rest)).

Lemma repeat_spelled rest q :
  parse_quantifier rest = Ok q -> re_repeat (re_alt d) (spell s ++ rest) =
    match q with None => Ok (ast s, rest) | Some (q, rest') => Ok (quantify (ast s) q, rest') end.
Proof. intros Hq. unfold re_repeat. rewrite Hs. cbn [rbind]. by rewrite Hq. Qed.

Lemma concat_spelled fuel rest r rest' :
  re_repeat (re_alt d) (spell s ++ rest) = Ok (r, rest') ->
  re_concat (re_alt d) (S fuel) (spell s ++ rest) = do (rs, rest'') <- re_concat (re_alt d) fuel rest'; Ok (r :: rs, rest'').
Proof.
  clear Hs. intros E. cbn [re_concat]. destruct (spell_head s rest) as (h & t & Ht & H).
  assert (Hn : concat_ends (spell s ++ rest) = false) by (rewrite Ht; cbn; by rewrite !H by set_solver). by rewrite Hn, E.
Qed.
End Spelled.

Lemma re_concat_ends inner fuel s : concat_ends s = true -> re_concat inner (S fuel) s = Ok ([], s).
Proof. intros H. cbn [re_concat]. by rewrite H. Qed.

(** A group around a sequence. *)
Lemma group_spelled d (body : bytes) rs (rest : bytes) :
  (forall f, (length (body ++ 41%Z :: rest) <= f)%nat -> re_concat (re_alt d) (S f) (body ++ 41 :: rest) = Ok (rs, 41 :: rest)) ->
  re_atom (re_alt (S d)) (group body ++ rest) = Ok (RConcat rs, rest).
Proof.
  intros H. unfold group. cbn [app re_atom]. rewrite <- app_assoc. cbn [app].
  change (skip_marker (63 :: 58 :: body ++ 41 :: rest)) with (body ++ 41 :: rest). cbn [re_alt]. unfold re_alternatives.
  rewrite H by lia. done.
Qed.

Lemma one_spelled d s q suffix rest :
  (forall rest, re_atom (re_alt d) (spell s ++ rest) = Ok (ast s, rest)) ->
  (forall rest, parse_quantifier (suffix ++ rest) = Ok (Some (q, rest))) -> suffix ≠ [] ->
  re_atom (re_alt (S d)) (group (spell s ++ suffix) ++ rest) = Ok (RConcat [quantify (ast s) q], rest).
Proof.
  intros Hs Hq Hne. apply group_spelled. intros f Hf. rewrite <- app_assoc in *.
  rewrite (concat_spelled d s f _ (quantify (ast s) q) (41 :: rest)); [|by rewrite (repeat_spelled d s Hs _ _ (Hq _))].
  destruct f as [|f]; [|by rewrite re_concat_ends]. rewrite !length_app in Hf. cbn in Hf. lia.
Qed.

Lemma parse_spelled s d rest : valid s -> (depth s <= d)%nat -> re_atom (re_alt d) (spell s ++ rest) = Ok (ast s, rest).
Proof.
  revert d rest. induction s as [c| |k|negated items|s IH|s IH|s IH|s IH n m|s1 IH1 s2 IH2|s1 IH1 s2 IH2]; intros d rest Hv Hd;
    cbn [spell ast depth valid] in *.
  - unfold spell_char. destruct (existsb (Z.eqb c) metacharacters) eqn:E.
    + destruct (spell_meta c E) as [H1 H2]. cbn [app re_atom]. cbn. by rewrite H1, H2.
    + destruct (not_meta c E) as (H1 & H2 & H3 & H4 & H5 & H6). cbn [app re_atom]. by rewrite H1, H2, H3, H4, H5, H6.
  - done.
  - cbn [app re_atom]. cbn. by rewrite short_letter_shorthand.
  - destruct Hv as [Hne Hv]. cbn [app re_atom]. change (91 =? 40) with false. change (91 =? 91) with true. cbn iota.
    rewrite <- !app_assoc. cbn [app]. by rewrite (parse_class_spelled negated items rest Hne Hv).
  - destruct d as [|d]; [lia|]. apply (one_spelled d s QStar [42]); [intros; apply IH; (done || lia)|done..].
  - destruct d as [|d]; [lia|]. apply (one_spelled d s QPlus [43]); [intros; apply IH; (done || lia)|done..].
  - destruct d as [|d]; [lia|]. apply (one_spelled d s QOpt [63]); [intros; apply IH; (done || lia)|done..].
  - destruct d as [|d]; [lia|]. destruct Hv as (Hs & Hn & Hm).
    replace (match m with Exactly => _ | _ => _ end) with (RConcat [quantify (ast s) (QRange (value n) (bound n m))]) by by destruct m.
    apply one_spelled; [intros; apply IH; (done || lia)| |done]. intros rest'. cbn [app parse_quantifier].
    change (123 =? 42) with false. change (123 =? 43) with false. change (123 =? 63) with false. change (123 =? 123) with true. cbn iota.
    rewrite <- !app_assoc. by apply parse_range_spelled.
  - destruct d as [|d]; [lia|]. destruct Hv as [Hv1 Hv2]. apply group_spelled. intros f Hf. rewrite <- app_assoc.
    assert (H1 : forall rest, re_atom (re_alt d) (spell s1 ++ rest) = Ok (ast s1, rest)) by (intros; apply IH1; (done || lia)).
    assert (H2 : forall rest, re_atom (re_alt d) (spell s2 ++ rest) = Ok (ast s2, rest)) by (intros; apply IH2; (done || lia)).
    rewrite (concat_spelled d s1 f _ (ast s1) (spell s2 ++ 41 :: rest)); [|by rewrite (repeat_spelled d s1 H1 _ _ (no_quantifier s2 _))].
    rewrite !length_app in Hf. destruct (spell_head s1 []) as (h & t & E1 & _), (spell_head s2 []) as (h' & t' & E2 & _).
    rewrite app_nil_r in E1, E2. rewrite E1, E2 in Hf. cbn in Hf. destruct f as [|[|f]]; [lia..|].
    rewrite (concat_spelled d s2 (S f) (41 :: rest) (ast s2) (41 :: rest)); [|by rewrite (repeat_spelled d s2 H2 (41 :: rest) None)].
    by rewrite re_concat_ends.
  - destruct d as [|d]; [lia|]. destruct Hv as [Hv1 Hv2].
    assert (H1 : forall rest, re_atom (re_alt d) (spell s1 ++ rest) = Ok (ast s1, rest)) by (intros; apply IH1; (done || lia)).
    assert (H2 : forall rest, re_atom (re_alt d) (spell s2 ++ rest) = Ok (ast s2, rest)) by (intros; apply IH2; (done || lia)).
    unfold group. cbn [app re_atom]. rewrite <- !app_assoc. cbn [app].
    change (skip_marker (63 :: 58 :: ?x)) with x. change (40 =? 40) with true. cbn iota. cbn [re_alt]. unfold re_alternatives.
    rewrite (concat_spelled d s1 _ _ (ast s1) (124 :: spell s2 ++ 41 :: rest)); [|by rewrite (repeat_spelled d s1 H1 (124 :: _) None)].
    rewrite length_app. cbn [length]. rewrite Nat.add_succ_r, re_concat_ends by done. cbn [rbind re_alts eat]. rewrite Z.eqb_refl.
    rewrite (concat_spelled d s2 _ _ (ast s2) (41 :: rest)); [|by rewrite (repeat_spelled d s2 H2 (41 :: rest) None)].
    rewrite length_app. cbn [length]. rewrite Nat.add_succ_r, re_concat_ends by done. done.
Qed.

(** ** Their meaning *)

Lemma class_has_table p c : class_has (table p) c = is_byte c && p c.
Proof.
  unfold class_has, table, is_byte. destruct (Z.leb_spec 0 c) as [Hc|]; [|done]. cbn [andb].
  rewrite list_lookup_fmap. destruct (Z.ltb_spec c 256) as [Hc'|Hc'].
  - rewrite lookup_seq_lt by lia. cbn. by rewrite Z2Nat.id.
  - by rewrite lookup_seq_ge by lia.
Qed.

Lemma bytes_with_table p : (lclass (class_has (table p)) ≡ bytes_with p)%lang.
Proof. intros w. unfold bytes_with, lclass. by setoid_rewrite class_has_table. Qed.

#[global] Instance lpow_proper : Proper ((≡) ==> eq ==> (≡)) lpow.
Proof. intros L M H n ? <-. induction n as [|n IH]; cbn [lpow]; [done|]. by apply lcat_proper. Qed.

#[global] Instance lstar_proper : Proper ((≡) ==> (≡)) lstar.
Proof. intros L M H w. unfold lstar. split; intros [n Hn]; exists n; revert Hn; by rewrite (lpow_proper L M H n n eq_refl w). Qed.

#[global] Instance lrange_proper : Proper ((≡) ==> eq ==> eq ==> (≡)) lrange.
Proof.
  intros L M H n ? <- m ? <-. unfold lrange. apply lcat_proper; [by apply lpow_proper|]. destruct m as [m|]; [|by apply lstar_proper].
  intros w. unfold lupto. split; intros (k & Hk & Hw); exists k; (split; [done|]); revert Hw; by rewrite (lpow_proper L M H k k eq_refl w).
Qed.

Lemma repeats_range L n m : 0 <= n -> (lrange L n m ≡ repeats L n m)%lang.
Proof. intros Hn w. by apply lrange_counts. Qed.

Lemma repeats_star L : (lstar L ≡ repeats L 0 None)%lang.
Proof. intros w. split; [intros [k Hk]; exists k; split_and!; [lia|done..]|intros (k & _ & _ & Hk); by exists k]. Qed.

Lemma repeats_plus L : (L ⋅ lstar L ≡ repeats L 1 None)%lang.
Proof.
  intros w. split.
  - intros (a & b & -> & Ha & k & Hk). exists (S k). split_and!; [lia|done|]. by exists a, b.
  - intros ([|k] & Hk & _ & Hw); [lia|]. destruct Hw as (a & b & -> & Ha & Hb). exists a, b. split_and!; auto. by exists k.
Qed.

Lemma repeats_opt L : (lopt L ≡ repeats L 0 (Some 1))%lang.
Proof.
  intros w. split.
  - intros [-> |Hw]; [exists 0%nat; split_and!; (done || lia)|exists 1%nat; split_and!; [lia..|]]. cbn [lpow]. by apply (lcat_nil_r L w).
  - intros ([|[|k]] & _ & Hk & Hw); [by left| |lia]. right. cbn [lpow] in Hw. by apply (lcat_nil_r L w) in Hw.
Qed.

Lemma value_nonneg ds : Forall (fun d => 0 <= d <= 9) ds -> 0 <= value ds.
Proof. intros H. apply (value_mono ds 0 0 H). lia. Qed.

Lemma den_one r : (den (RConcat [r]) ≡ den r)%lang.
Proof. cbn [den foldr]. apply lcat_nil_r. Qed.

Lemma den_ast s : valid s -> (den (ast s) ≡ meaning s)%lang.
Proof.
  induction s as [c| |k|negated items|s IH|s IH|s IH|s IH n m|s1 IH1 s2 IH2|s1 IH1 s2 IH2]; cbn [valid ast meaning]; intros Hv;
    rewrite ?den_one; try apply bytes_with_table.
  - cbn [den]. rewrite (IH Hv). apply repeats_star.
  - cbn [den]. rewrite (IH Hv). apply repeats_plus.
  - cbn [den]. rewrite <- repeats_opt. unfold lopt. by rewrite (IH Hv).
  - destruct Hv as (Hs & (_ & Hn & _) & Hm). pose proof (value_nonneg n Hn).
    destruct m as [| |m]; rewrite den_one; cbn [den]; rewrite (IH Hs); by apply repeats_range.
  - destruct Hv as [Hv1 Hv2]. cbn [den foldr]. by rewrite (IH1 Hv1), (IH2 Hv2), lcat_nil_r.
  - destruct Hv as [Hv1 Hv2]. cbn [den foldr]. rewrite !lcat_nil_r, (IH1 Hv1), (IH2 Hv2). intros w. unfold lor. tauto.
Qed.

Lemma depth_length s : valid s -> (depth s < length (spell s))%nat.
Proof.
  induction s as [c| |k|negated items|s IH|s IH|s IH|s IH n m|s1 IH1 s2 IH2|s1 IH1 s2 IH2]; cbn [valid depth spell]; intros Hv;
    unfold group; cbn [length]; rewrite ?length_app; cbn [length]; rewrite ?length_app; cbn [length]; try lia.
  - unfold spell_char. destruct (existsb _ _); cbn; lia.
  - specialize (IH Hv). lia.
  - specialize (IH Hv). lia.
  - specialize (IH Hv). lia.
  - destruct Hv as [Hv _]. specialize (IH Hv). lia.
  - destruct Hv as [Hv1 Hv2]. specialize (IH1 Hv1). specialize (IH2 Hv2). lia.
  - destruct Hv as [Hv1 Hv2]. specialize (IH1 Hv1). specialize (IH2 Hv2). lia.
Qed.

Lemma parse_regex_spelled s : valid s -> exists r, parse_regex (spell s) = Ok r /\ (den r ≡ meaning s)%lang.
Proof.
  intros Hv. exists (RConcat [ast s]). split; [|by rewrite den_one, den_ast].
  unfold parse_regex. cbn [re_alt]. unfold re_alternatives.
  assert (Hs : forall rest, re_atom (re_alt (length (spell s))) (spell s ++ rest) = Ok (ast s, rest)).
  { intros rest. apply parse_spelled; [done|]. pose proof (depth_length s Hv). lia. }
  pose proof (repeat_spelled _ s Hs [] None eq_refl) as Er.
  pose proof (concat_spelled _ s (length (spell s)) [] (ast s) [] Er) as E. rewrite app_nil_r in E. rewrite E.
  pose proof (depth_length s Hv). destruct (length (spell s)) as [|f]; [lia|]. by rewrite re_concat_ends.
Qed.

(** C32: every expression of literals, the dot, shorthands, classes, repetitions,
    sequences and alternatives, spelled with its metacharacters escaped and its
    parts in groups, compiles, and the automaton accepts exactly its words. *)
Theorem regex_spelling_round_trip s :
  valid s -> exists n, compile (spell s) = Ok n /\ forall w, exists b, matches n w = Some b /\ (b = true <-> meaning s w).
Proof.
  intros Hv. destruct (parse_regex_spelled s Hv) as (r & Hr & Hd). pose proof (compile_refines (spell s)) as E. rewrite Hr in E.
  cbn [rbind] in E. destruct (build r []) as [f N]. eexists. split; [exact E|]. intros w.
  destruct (compile_compiled _ _ E) as (r' & Hr' & Hn). rewrite Hr in Hr'. injection Hr' as <-.
  destruct (matches_ok _ r w Hn) as (b & Hb & H). exists b. by rewrite <- (Hd w).
Qed.

(** [(?:(?:[a-z\_]+)(?:\.|\d){2,3})]. *)
Definition sample_syntax : syntax :=
  SCat (SPlus (SSet false [IRange 97 122; IChar 95])) (SRepeat (SOr (SChar 46) (SShort Digit)) [2] (UpTo [3])).

Lemma regex_spelling_round_trip_witness :
  spell sample_syntax = src_of "(?:(?:[a-z\_]+)(?:(?:\.|\d){2,3}))" /\
  exists n, compile (spell sample_syntax) = Ok n /\ forall w, exists b, matches n w = Some b /\ (b = true <-> meaning sample_syntax w).
Proof.
  split; [by vm_compute|]. apply (regex_spelling_round_trip sample_syntax).
  cbn. unfold valid_count. cbn. split_and!; try done; repeat constructor; cbn; try done; try lia.
Defined.
