(* ===== verification/RegexConstrain.v ===== *)
(** * Regex-constrained replies

    Models [RegexConstrainer] of [src/compute/regex_constrain.cu] and
    [ConstraintManager::prepare_regex]: the screening of the pattern, [init], the
    allow list with its cache, the mask and [update].  The model's closures never
    run out of fuel ([RegexSets]), so a step is read off with [default].  The
    device allow list is its size; copying more than that is an overrun. *)

From Corelib Require Import ssreflect_rw.
From stdpp Require Import prelude list gmap.
From S2P Require Import Prelude StreamPipeline ByteLevel Encoders AllowLists JsonFsm PreambleGate JsonMask RegexNfa.
Open Scope Z_scope.

(** ** Screening the pattern *)

Inductive Unsupported : Type := WordBoundary | Backreference | Anchor | Lookaround.

(** [unsupported_construct] from one position on. *)
Fixpoint unsupported_construct (in_class : bool) (p : bytes) : option Unsupported :=
  match p with
  | [] => None
  | c :: p1 =>
      if in_class then
        if c =? 92 then match p1 with [] => None | _ :: p2 => unsupported_construct true p2 end
        else unsupported_construct (negb (c =? 93)) p1
      else if c =? 91 then
        match p1 with
        | [] => None
        | x :: p2 =>
            if x =? 94 then
              match p2 with
              | y :: p3 => if y =? 93 then unsupported_construct true p3 else unsupported_construct true p2
              | [] => None
              end
            else if x =? 93 then unsupported_construct true p2 else unsupported_construct true p1
        end
      else if c =? 92 then
        match p1 with
        | [] => None
        | x :: p2 =>
            if (x =? 98) || (x =? 66) then Some WordBoundary
            else if (49 <=? x) && (x <=? 57) then Some Backreference
            else unsupported_construct false p2
        end
      else if (c =? 94) || (c =? 36) then Some Anchor
      else if (c =? 40) && match p1 with x :: _ => x =? 63 | [] => false end then
        match p1 with
        | _ :: y :: _ => if y =? 58 then unsupported_construct false p1 else Some Lookaround
        | _ => Some Lookaround
        end
      else unsupported_construct false p1
  end.

(** The backslashes a reversed text starts with. *)
Fixpoint backslashes (r : bytes) : nat :=
  match r with c :: r => if c =? 92 then S (backslashes r) else O | [] => O end.

Definition strip_redundant_anchors (p : bytes) : bytes :=
  let p := match eat 94 p with Some p' => p' | None => p end in
  match eat 36 (rev p) with
  | Some r => if Nat.even (backslashes r) then rev r else p
  | None => p
  end.

(** ** The constrainer *)

Record RegexConstrainer := mkRegex {
  initialized : bool;
  vocab_size : Z;
  pattern : bytes;
  nfa : option RegexNfa;
  rx_states : list nat;
  token_texts : list bytes;
  eos_ids : list Z;
  mask_cache : gmap (list nat) (list bool);
  dev_allow : option Z;
  preamble : Gate.t
}.

Definition new_constrainer : RegexConstrainer := mkRegex false 0 [] None [] [] [] ∅ None Gate.new.

(** [start_set], [step] and [accepts]; nothing is reached before a pattern is compiled. *)
Definition nfa_start (n : option RegexNfa) : list nat := match n with Some n => default [] (start_set n) | None => [] end.
Definition nfa_step (n : option RegexNfa) (set : list nat) (c : Z) : list nat :=
  match n with Some n => default [] (step n set c) | None => [] end.
Definition nfa_accepts (n : option RegexNfa) (set : list nat) : bool := match n with Some n => accepts n set | None => false end.

(** *** [language_non_empty] *)

Definition kMaxDepth : nat := 64.
Definition kMaxSets : nat := 4096.

(** The loop over the bytes from one set: [None] once a set accepts. *)
Fixpoint expand (n : option RegexNfa) (cur : list nat) (bs : list Z) (seen : gset (list nat)) (next : list (list nat))
    : option (gset (list nat) * list (list nat)) :=
  match bs with
  | [] => Some (seen, next)
  | b :: bs =>
      let ns := nfa_step n cur b in
      if bool_decide (ns = []) then expand n cur bs seen next
      else if nfa_accepts n ns then None
      else if Nat.ltb (size seen) kMaxSets && bool_decide (ns ∉ seen) then expand n cur bs ({[ ns ]} ∪ seen) (next ++ [ns])
      else expand n cur bs seen next
  end.

Fixpoint expand_all (n : option RegexNfa) (frontier : list (list nat)) (seen : gset (list nat)) (next : list (list nat))
    : option (gset (list nat) * list (list nat)) :=
  match frontier with
  | [] => Some (seen, next)
  | cur :: frontier =>
      match expand n cur (Z.of_nat <$> seq 0 256) seen next with
      | None => None
      | Some (seen, next) => expand_all n frontier seen next
      end
  end.

Fixpoint search (n : option RegexNfa) (depth : nat) (seen : gset (list nat)) (frontier : list (list nat)) : bool :=
  match depth with
  | O => false
  | S depth =>
      if bool_decide (frontier = []) then false
      else match expand_all n frontier seen [] with
           | None => true
           | Some (seen, next) => search n depth seen next
           end
  end.

Definition language_non_empty (n : option RegexNfa) (set : list nat) : bool :=
  nfa_accepts n set || search n kMaxDepth {[ set ]} [set].

(** *** [init] and [reset] *)

Definition with_pattern (c : RegexConstrainer) (ok : bool) (p : bytes) (n : option RegexNfa) (set : list nat) : RegexConstrainer :=
  mkRegex ok (vocab_size c) p n set (token_texts c) (eos_ids c) ∅ (dev_allow c) (preamble c).

(** [None] where the pattern's counts overflow. *)
Definition init_pattern_only (c : RegexConstrainer) (p : bytes) : option (RegexConstrainer * bool) :=
  let effective := strip_redundant_anchors p in
  match unsupported_construct false effective with
  | Some _ => Some (with_pattern c false p (nfa c) (rx_states c), false)
  | None =>
      match compile effective with
      | Ok n =>
          let set := nfa_start (Some n) in
          let ok := language_non_empty (Some n) set in
          Some (with_pattern c ok p (Some n) set, ok)
      | Bad => Some (with_pattern c false p None (rx_states c), false)
      | _ => None
      end
  end.

(** [t] is the tokenizer, [gpt2] its kind; [allocated] is what [cudaMalloc] did. *)
Definition init (c : RegexConstrainer) (p : bytes) (gpt2 : bool) (t : Tokenizer) (width : Z) (allocated : bool)
    : option (RegexConstrainer * bool) :=
  match init_pattern_only c p with
  | None => None
  | Some (c, false) => Some (c, false)
  | Some (c, true) =>
      let texts := decode_token gpt2 t <$> (Z.of_nat <$> seq 0 (length (vocab_ t))) in
      Some (mkRegex allocated (Z.of_nat (length texts)) (pattern c) (nfa c) (rx_states c) texts (eos_ids_ t) (mask_cache c)
              (if allocated then Some width else None) (preamble c), allocated)
  end.

Definition with_states (c : RegexConstrainer) (set : list nat) (g : Gate.t) : RegexConstrainer :=
  mkRegex (initialized c) (vocab_size c) (pattern c) (nfa c) set (token_texts c) (eos_ids c) (mask_cache c) (dev_allow c) g.

Definition reset (c : RegexConstrainer) : RegexConstrainer :=
  match nfa c with
  | None => c
  | Some _ => with_states c (nfa_start (nfa c)) (Gate.reset (preamble c))
  end.

Definition set_preamble (c : RegexConstrainer) (close_token max_tokens : Z) (thinking_open : bool) : RegexConstrainer :=
  with_states c (rx_states c) (Gate.configure close_token max_tokens thinking_open).

(** [ConstraintManager::prepare_regex] on its constrainer; [think_close] is what
    [detect_think_close] found in the vocabulary. *)
Definition prepare_regex (c : RegexConstrainer) (p : bytes) (gpt2 : bool) (t : Tokenizer) (think_close : Z) (thinking_open : bool)
    (allocated : bool) : option (RegexConstrainer * bool) :=
  if bool_decide (p = []) then Some (c, false)
  else
    match init c p gpt2 t (Z.of_nat (length (vocab_ t))) allocated with
    | Some (c, true) => Some (reset (if 0 <=? think_close then set_preamble c think_close 8192 thinking_open else c), true)
    | r => r
    end.

(** *** Reading *)

Definition is_done (c : RegexConstrainer) : bool := initialized c && nfa_accepts (nfa c) (rx_states c).

(** The loop of [would_accept] and [update_text]: [None] once no state is left. *)
Fixpoint walk_text (n : option RegexNfa) (set : list nat) (text : bytes) : option (list nat) :=
  match text with
  | [] => Some set
  | c :: text => let set := nfa_step n set c in if bool_decide (set = []) then None else walk_text n set text
  end.

Definition would_accept (c : RegexConstrainer) (text : bytes) : bool :=
  if negb (initialized c) then true else match walk_text (nfa c) (rx_states c) text with Some _ => true | None => false end.

Definition update_text (c : RegexConstrainer) (text : bytes) : RegexConstrainer * bool :=
  if negb (initialized c) then (c, true)
  else match walk_text (nfa c) (rx_states c) text with
       | Some set => (with_states c set (preamble c), true)
       | None => (c, false)
       end.

Definition update (c : RegexConstrainer) (token : Z) : RegexConstrainer * bool :=
  if negb (initialized c) then (c, true)
  else if (token <? 0) || (Z.of_nat (length (token_texts c)) <=? token) then (c, true)
  else
    let text := token_texts c !!! Z.to_nat token in
    let (g, absorbed) := Gate.absorb (preamble c) token text in
    let c := with_states c (rx_states c) g in
    if absorbed then (c, true)
    else if existsb (Z.eqb token) (eos_ids c) then (c, true)
    else update_text c text.

(** *** Masking *)

(** One entry of the cold path. *)
Definition text_allowed (c : RegexConstrainer) (text : bytes) : bool := negb (bool_decide (text = [])) && would_accept c text.

(** The allow list of the current states, computed afresh. *)
Definition fresh_allow (c : RegexConstrainer) (width : Z) : list bool :=
  let n := Z.to_nat (Z.min width (vocab_size c)) in
  let allow := (text_allowed c <$> take n (token_texts c)) ++ replicate (Z.to_nat width - n) false in
  allow_list (eos_ids c) width (nfa_accepts (nfa c) (rx_states c)) allow.

Definition with_cache (c : RegexConstrainer) (m : gmap (list nat) (list bool)) : RegexConstrainer :=
  mkRegex (initialized c) (vocab_size c) (pattern c) (nfa c) (rx_states c) (token_texts c) (eos_ids c) m (dev_allow c) (preamble c).

Definition allow_for_current_state (c : RegexConstrainer) (width : Z) : RegexConstrainer * list bool :=
  match mask_cache c !! rx_states c with
  | Some allow => (c, allow)
  | None => let allow := fresh_allow c width in (with_cache c (<[rx_states c := allow]> (mask_cache c)), allow)
  end.

(** [apply_mask] on logits of type [A]; [None] where the copy to the device, or
    its source, is shorter than the logits. *)
Definition apply_mask {A} (lowest : A) (c : RegexConstrainer) (logits : list A) : option (RegexConstrainer * list A) :=
  match dev_allow c with
  | None => Some (c, logits)
  | Some cap =>
      if negb (initialized c) || Gate.active (preamble c) then Some (c, logits)
      else
        let width := Z.of_nat (length logits) in
        let (c', allow) := allow_for_current_state c width in
        if (cap <? width) || (Z.of_nat (length allow) <? width) then None
        else Some (c', imap (mask_unlisted lowest allow (Z.to_nat (Z.min width (vocab_size c')))) logits)
  end.
