(* ===== verification/RegexReply.v ===== *)
(** * Regex-constrained replies: the guarantees

    The mask permits exactly the tokens after which the pattern can still be
    matched, cached or not, and a reply of permitted tokens ended by a permitted
    EOS matches the pattern, unless the EOS token's own text continued it. *)

From Corelib Require Import ssreflect_rw.
From stdpp Require Import prelude list gmap strings.
From S2P Require Import Prelude StreamPipeline ByteLevel Encoders Languages AllowLists JsonFsm PreambleGate JsonMask RegexNfa.
From S2P Require Import RegexSyntax RegexParse RegexThompson RegexSets RegexConstrain.
Open Scope Z_scope.

(** ** Reading text *)

Definition viable (n : RegexNfa) (w : bytes) : Prop := exists q, path (states_ n) (start_ n) w q.

Lemma reached_viable n w set : reached n w set -> (set ≠ [] <-> viable n w).
Proof.
  intros Hr. split.
  - destruct set as [|q set]; [done|]. intros _. exists q. apply Hr. by left.
  - intros [q Hq%Hr] ->. inversion Hq.
Qed.

Lemma viable_prefix n v w : viable n (v ++ w) -> viable n v.
Proof. intros [q (q' & H & _)%path_split]. by exists q'. Qed.

Lemma nfa_step_ok n r w set c : compiled n r -> reached n w set -> reached n (w ++ [c]) (nfa_step (Some n) set c).
Proof. intros Hn Hr. cbn [nfa_step]. by destruct (step_ok n w set c (co_below _ _ Hn) Hr) as (set' & -> & H). Qed.

Lemma nfa_start_ok n r : compiled n r -> reached n [] (nfa_start (Some n)).
Proof. intros Hn. cbn [nfa_start]. by destruct (start_set_ok n (co_below _ _ Hn) (co_start _ _ Hn)) as (set & -> & H). Qed.

Lemma walk_text_ok n r w set v :
  compiled n r -> reached n w set -> set ≠ [] ->
  match walk_text (Some n) set v with
  | Some set' => reached n (w ++ v) set' /\ set' ≠ []
  | None => ~ viable n (w ++ v)
  end.
Proof.
  intros Hn. revert w set. induction v as [|c v IH]; intros w set Hr Hne; cbn [walk_text]; [by rewrite app_nil_r|].
  pose proof (nfa_step_ok n r w set c Hn Hr) as Hr'. case_bool_decide as He.
  - intros Hv. replace (w ++ c :: v) with ((w ++ [c]) ++ v) in Hv by by rewrite <- app_assoc.
    apply viable_prefix, (reached_viable n _ _ Hr') in Hv. done.
  - specialize (IH _ _ Hr' He). by rewrite <- app_assoc in IH.
Qed.

(** A prefix is viable when it can be completed. *)
Lemma viable_completable n r w : compiled n r -> Forall inhabited (classes r) -> (viable n w <-> exists u, den r (w ++ u)).
Proof.
  intros Hn Hok. split.
  - intros [q Hq]. destruct (path_complete n r q Hn Hok (path_reach _ _ _ _ Hq)) as (u & _ & Hu).
    exists u. apply (co_lang _ _ Hn). by eapply path_app.
  - intros [u Hu%(co_lang _ _ Hn)]. apply path_split in Hu as (q & Hq & _). by exists q.
Qed.

(** ** A constrainer at work *)

(** [c] constrains to [r], [w] has been read, and the cache holds the lists of
    this vocabulary. *)
Record tracks (width : Z) (c : RegexConstrainer) (n : RegexNfa) (r : regex) (w : bytes) : Prop := {
  tr_initialized : initialized c = true;
  tr_nfa : nfa c = Some n;
  tr_compiled : compiled n r;
  tr_states : reached n w (rx_states c);
  tr_some : rx_states c ≠ [];
  tr_vocab : vocab_size c = Z.of_nat (length (token_texts c));
  tr_cache : forall set allow, mask_cache c !! set = Some allow -> allow = fresh_allow (with_states c set (preamble c)) width
}.

Lemma accepts_reached n r w set : compiled n r -> reached n w set -> nfa_accepts (Some n) set = true <-> den r w.
Proof. apply accepts_ok. Qed.

Lemma is_done_iff width c n r w : tracks width c n r w -> (is_done c = true <-> den r w).
Proof. intros [Hi Hn Hc Hr _ _ _]. unfold is_done. rewrite Hi, Hn. cbn [andb]. by apply accepts_reached. Qed.

Lemma would_accept_iff width c n r w v :
  tracks width c n r w -> Forall inhabited (classes r) -> (would_accept c v = true <-> exists u, den r (w ++ v ++ u)).
Proof.
  intros [Hi Hn Hc Hr Hs _ _] Hok. unfold would_accept. rewrite Hi, Hn. cbn [negb].
  pose proof (walk_text_ok n r w _ v Hc Hr Hs) as H. pose proof (viable_completable n r (w ++ v) Hc Hok) as Hv.
  setoid_rewrite <- app_assoc in Hv. rewrite <- Hv. destruct (walk_text _ _ v) as [set|].
  - destruct H as [H1 H2]. by rewrite <- (reached_viable n _ _ H1).
  - split; [done|by intros ?%H].
Qed.

(** ** The allow list *)

Lemma fresh_allow_states c c' width :
  initialized c = initialized c' -> nfa c = nfa c' -> rx_states c = rx_states c' -> vocab_size c = vocab_size c' ->
  token_texts c = token_texts c' -> eos_ids c = eos_ids c' -> fresh_allow c width = fresh_allow c' width.
Proof.
  destruct c, c'. cbn. intros -> -> -> -> -> ->. reflexivity.
Qed.

(** Cached or not, the list is the one computed afresh, and the cache stays right. *)
Lemma allow_current width c n r w :
  tracks width c n r w ->
  (allow_for_current_state c width).2 = fresh_allow c width /\ tracks width (allow_for_current_state c width).1 n r w /\
  exists m, (allow_for_current_state c width).1 = with_cache c m.
Proof.
  intros Ht. pose proof Ht as [Hi Hn Hc Hr Hs Hv Hm]. unfold allow_for_current_state. destruct (mask_cache c !! rx_states c) as [allow|] eqn:E; cbn [fst snd].
  - split_and!; [by rewrite (Hm _ _ E)|done|]. exists (mask_cache c). by destruct c.
  - split_and!; [done| |by eexists]. constructor; try done. cbn [with_cache mask_cache with_states preamble].
    intros set allow [[<- <-]|[Hne H]]%lookup_insert_Some; [by apply fresh_allow_states|]. rewrite (Hm _ _ H). by apply fresh_allow_states.
Qed.

Definition is_eos (c : RegexConstrainer) (i : nat) : bool := existsb (Z.eqb (Z.of_nat i)) (eos_ids c).

Section AllowList.
Context (c : RegexConstrainer) (width : nat) (Hv : vocab_size c = Z.of_nat (length (token_texts c))).
Let base : list bool :=
  (text_allowed c <$> take (Nat.min width (length (token_texts c))) (token_texts c)) ++
  replicate (width - Nat.min width (length (token_texts c))) false.

Lemma fresh_allow_unfold :
  fresh_allow c (Z.of_nat width) = allow_list (eos_ids c) (Z.of_nat width) (nfa_accepts (nfa c) (rx_states c)) base.
Proof. unfold fresh_allow, base. rewrite Hv, <- Nat2Z.inj_min, !Nat2Z.id. done. Qed.

Lemma base_lookup i text : (i < width)%nat -> token_texts c !! i = Some text -> base !! i = Some (text_allowed c text).
Proof.
  intros Hi Ht. pose proof (lookup_lt_Some _ _ _ Ht) as Hl. unfold base. rewrite lookup_app_l by (rewrite length_fmap, length_take; lia).
  by rewrite list_lookup_fmap, lookup_take_lt, Ht by lia.
Qed.

Lemma fresh_length : length (fresh_allow c (Z.of_nat width)) = width.
Proof. rewrite fresh_allow_unfold, allow_list_length. unfold base. rewrite length_app, length_fmap, length_take, length_replicate. lia. Qed.

Lemma fresh_other i text :
  is_eos c i = false -> (i < width)%nat -> token_texts c !! i = Some text -> fresh_allow c (Z.of_nat width) !! i = Some (text_allowed c text).
Proof. intros He Hi Ht. rewrite fresh_allow_unfold, allow_list_other by done. by apply base_lookup. Qed.

(** Why an entry can be set. *)
Lemma fresh_reason i text :
  fresh_allow c (Z.of_nat width) !! i = Some true -> (i < width)%nat -> token_texts c !! i = Some text ->
  text_allowed c text = true \/ nfa_accepts (nfa c) (rx_states c) = true \/
  (forall j t, (j < width)%nat -> token_texts c !! j = Some t -> text_allowed c t = false).
Proof.
  intros Hf Hi Ht. rewrite fresh_allow_unfold in Hf. apply allow_list_reason in Hf as [Hf|[?|Hf]]; [left|by auto|right; right].
  - rewrite (base_lookup i text Hi Ht) in Hf. congruence.
  - intros j t Hj Htj. by apply (none_listed _ j _ Hf), base_lookup.
Qed.
End AllowList.

(** ** The mask *)

(** The mask keeps the logit of token [tok]. *)
Definition permitted (c : RegexConstrainer) (width tok : nat) : Prop :=
  exists c' logits, apply_mask false c (replicate width true) = Some (c', logits) /\ logits !! tok = Some true.

(** What [apply_mask] needs beyond [tracks]. *)
Record masking (width : nat) (c : RegexConstrainer) : Prop := {
  mk_gate : Gate.state (preamble c) = Gate.OFF;
  mk_device : exists cap, dev_allow c = Some cap /\ Z.of_nat width <= cap
}.

Lemma apply_mask_eq width c n r w :
  tracks (Z.of_nat width) c n r w -> masking width c ->
  exists c', apply_mask false c (replicate width true) =
    Some (c', imap (mask_unlisted false (fresh_allow c (Z.of_nat width)) (Nat.min width (length (token_texts c)))) (replicate width true)) /\
    tracks (Z.of_nat width) c' n r w /\ exists m, c' = with_cache c m.
Proof.
  intros Ht [Hg (cap & Hd & Hcap)]. unfold apply_mask. rewrite Hd, length_replicate.
  assert (Ha : Gate.active (preamble c) = false) by (unfold Gate.active; by rewrite Hg).
  rewrite (tr_initialized _ _ _ _ _ Ht), Ha. cbn [negb orb].
  destruct (allow_current _ _ _ _ _ Ht) as (E & Ht' & m & Em).
  destruct (allow_for_current_state c (Z.of_nat width)) as [c' allow]. cbn [fst snd] in *. subst allow c'.
  exists (with_cache c m). split; [|by eauto].
  rewrite (proj2 (Z.ltb_ge cap (Z.of_nat width))), (proj2 (Z.ltb_ge _ (Z.of_nat width))) by (rewrite ?fresh_length by apply Ht; lia).
  cbn [orb with_cache vocab_size]. rewrite (tr_vocab _ _ _ _ _ Ht), <- Nat2Z.inj_min, Nat2Z.id. done.
Qed.

Lemma permitted_iff width c n r w tok :
  tracks (Z.of_nat width) c n r w -> masking width c ->
  (permitted c width tok <-> (tok < width)%nat /\ (tok < length (token_texts c))%nat /\ fresh_allow c (Z.of_nat width) !! tok = Some true).
Proof.
  intros Ht Hm. destruct (apply_mask_eq width c n r w Ht Hm) as (c' & E & _). unfold permitted. rewrite E. split.
  - intros (c1 & logits & [= <- <-] & (H1 & H2 & H3)%mask_row_kept). split_and!; [done|lia|done].
  - intros (H1 & H2 & H3). eexists _, _. split; [done|]. apply mask_row_kept. split_and!; [done|lia|done].
Qed.

Lemma text_allowed_iff width c n r w text :
  tracks width c n r w -> Forall inhabited (classes r) -> (text_allowed c text = true <-> text ≠ [] /\ exists u, den r (w ++ text ++ u)).
Proof.
  intros Ht Hok. unfold text_allowed. rewrite andb_true_iff, (would_accept_iff _ _ _ _ _ text Ht Hok), negb_true_iff, bool_decide_eq_false. done.
Qed.

(** A token for every byte. *)
Definition byte_vocabulary (c : RegexConstrainer) (width : nat) : Prop :=
  forall b, 0 <= b < 256 -> exists i, (i < width)%nat /\ token_texts c !! i = Some [b].

(** With such a vocabulary the fallback of an empty list is never taken before
    the pattern is matched. *)
Lemma some_text_allowed width c n r w :
  tracks (Z.of_nat width) c n r w -> Forall inhabited (classes r) -> byte_vocabulary c width -> nfa_accepts (nfa c) (rx_states c) = false ->
  exists j text, (j < width)%nat /\ token_texts c !! j = Some text /\ text_allowed c text = true.
Proof.
  intros Ht Hok Hb Hna. pose proof Ht as [Hi Hn Hc Hr Hs _ _]. apply (reached_viable n w) in Hs as [q Hq]; [|done].
  destruct (path_complete n r q Hc Hok (path_reach _ _ _ _ Hq)) as (v & Hv & Hp).
  assert (Hw : den r (w ++ v)) by (apply (co_lang _ _ Hc); by eapply path_app). destruct v as [|b v].
  - rewrite app_nil_r in Hw. rewrite Hn in Hna. apply (accepts_reached n r w _ Hc Hr) in Hw. congruence.
  - apply Forall_cons in Hv as [Hb' _]. destruct (Hb b Hb') as (i & Hi' & Hti). exists i, [b]. split_and!; [done..|].
    apply (text_allowed_iff _ _ _ _ _ _ Ht Hok). split; [done|]. by exists v.
Qed.

(** ** Replies *)

(** Tokens the mask permitted one after the other, none of them EOS. *)
Inductive generates (width : nat) : RegexConstrainer -> list nat -> RegexConstrainer -> Prop :=
  | gen_nil c : generates width c [] c
  | gen_token c b logits tok toks c' :
      apply_mask false c (replicate width true) = Some (b, logits) -> logits !! tok = Some true -> is_eos c tok = false ->
      generates width (update b (Z.of_nat tok)).1 toks c' -> generates width c (tok :: toks) c'.

Definition reply_text (c : RegexConstrainer) (toks : list nat) : bytes := concat ((fun i => token_texts c !!! i) <$> toks).

Lemma tracks_read width c n r w v set g :
  tracks width c n r w -> reached n (w ++ v) set -> set ≠ [] -> tracks width (with_states c set g) n r (w ++ v).
Proof.
  intros [H1 H2 H3 H4 H5 H6 H7] Hr Hs. by constructor.
Qed.

(** Reading a permitted token. *)
Lemma reply_step width c n r w tok b logits :
  tracks (Z.of_nat width) c n r w -> masking width c ->
  apply_mask false c (replicate width true) = Some (b, logits) -> logits !! tok = Some true -> is_eos c tok = false ->
  let c' := (update b (Z.of_nat tok)).1 in
  tracks (Z.of_nat width) c' n r (w ++ token_texts c !!! tok) /\ masking width c' /\ token_texts c' = token_texts c /\ eos_ids c' = eos_ids c.
Proof.
  intros Ht Hm Ea Hl He. assert (Hp : permitted c width tok) by (by exists b, logits).
  apply (permitted_iff width c n r w tok Ht Hm) in Hp as (Hw & Hlt & Hf).
  destruct (lookup_lt_is_Some_2 _ _ Hlt) as [text Htx].
  rewrite (fresh_other c width (tr_vocab _ _ _ _ _ Ht) tok text He Hw Htx) in Hf.
  injection Hf as Hf. apply andb_true_iff in Hf as [_ Hwa].
  destruct (apply_mask_eq width c n r w Ht Hm) as (c1 & E1 & Ht1 & m & ->). rewrite Ea in E1. injection E1 as -> _. cbn zeta.
  pose proof Ht1 as [Hi Hn Hc Hr Hs Hv _]. unfold update. rewrite Hi. cbn [negb]. cbn [with_cache token_texts] in *.
  rewrite (proj2 (Z.ltb_ge (Z.of_nat tok) 0)), (proj2 (Z.leb_gt (Z.of_nat (length (token_texts c))) (Z.of_nat tok))) by lia. cbn [orb].
  rewrite Nat2Z.id, (list_lookup_total_correct _ _ _ Htx). unfold Gate.absorb. cbn [with_cache preamble]. rewrite (mk_gate _ _ Hm).
  cbn [with_states eos_ids with_cache]. unfold is_eos in He. rewrite He. unfold update_text. cbn [with_states with_cache initialized nfa rx_states].
  unfold would_accept in Hwa. cbn [with_cache initialized nfa rx_states] in Hi, Hn, Hr, Hs. rewrite Hi, Hn in *. cbn [negb] in *.
  pose proof (walk_text_ok n r w _ text Hc Hr Hs) as Hwt. destruct (walk_text (Some n) (rx_states c) text) as [set|]; [|done].
  destruct Hwt as [Hr' Hs']. cbn [fst]. split_and!; [|by destruct Hm; constructor|done..].
  by apply (tracks_read _ _ _ _ w text set (preamble c)) in Ht1.
Qed.

Lemma generates_tracks width c toks c' n r w :
  generates width c toks c' -> tracks (Z.of_nat width) c n r w -> masking width c ->
  tracks (Z.of_nat width) c' n r (w ++ reply_text c toks) /\ masking width c' /\ token_texts c' = token_texts c /\ eos_ids c' = eos_ids c.
Proof.
  intros H. revert w. induction H as [c|c b logits tok toks c' Ea Hl He _ IH]; intros w Ht Hm; [unfold reply_text; cbn; by rewrite app_nil_r|].
  destruct (reply_step width c n r w tok b logits Ht Hm Ea Hl He) as (Ht1 & Hm1 & E1 & E2).
  destruct (IH _ Ht1 Hm1) as (Ht2 & Hm2 & E3 & E4). unfold reply_text in *. cbn [fmap list_fmap concat]. rewrite E1 in *.
  rewrite <- app_assoc in Ht2. split_and!; [done..|by rewrite E4].
Qed.

(** The preamble of a reply: decode steps whose tokens the gate kept from the
    automaton. *)
Inductive prefaced (width : nat) : RegexConstrainer -> list nat -> RegexConstrainer -> Prop :=
  | pre_nil c : prefaced width c [] c
  | pre_token c b logits tok toks c' :
      apply_mask false c (replicate width true) = Some (b, logits) -> logits !! tok = Some true ->
      (Gate.absorb (preamble b) (Z.of_nat tok) (token_texts b !!! tok)).2 = true ->
      prefaced width (update b (Z.of_nat tok)).1 toks c' -> prefaced width c (tok :: toks) c'.

(** [c'] is [c] but for the gate. *)
Definition same_but_gate (c c' : RegexConstrainer) : Prop := c' = with_states c (rx_states c) (preamble c').

Lemma apply_mask_gate {A} (low : A) c logits b l : apply_mask low c logits = Some (b, l) -> preamble b = preamble c.
Proof.
  unfold apply_mask, allow_for_current_state. destruct (dev_allow c); [|by intros [= <- _]]. case_match; [by intros [= <- _]|].
  destruct (mask_cache c !! rx_states c); case_match; try done; by intros [= <- _].
Qed.

Lemma prefaced_gate width c toks c' : prefaced width c toks c' -> same_but_gate c c'.
Proof.
  unfold same_but_gate. induction 1 as [c|c b logits tok toks c' Ea _ Hab _ IH]; [by destruct c|].
  pose proof (apply_mask_gate _ _ _ _ _ Ea) as Eg. apply Gate.absorb_active_gate in Hab as Hact. rewrite Eg in Hact.
  assert (b = c) as ->.
  { unfold apply_mask in Ea. rewrite Hact, orb_true_r in Ea. destruct (dev_allow c); by injection Ea. }
  assert (exists g, (update c (Z.of_nat tok)).1 = with_states c (rx_states c) g) as (g & Eu).
  { assert (c = with_states c (rx_states c) (preamble c)) as Ec by by destruct c.
    unfold update. case_match; [by eexists|]. case_match; [by eexists|]. rewrite Nat2Z.id.
    destruct (Gate.absorb _ _ _) as [g absorbed]. cbn [snd] in Hab. subst absorbed. by exists g. }
  rewrite Eu in IH. by rewrite IH.
Qed.

(** ** From the pattern *)

Lemma language_non_empty_states n set : language_non_empty n set = true -> set ≠ [].
Proof.
  intros H ->. revert H. unfold language_non_empty. replace (nfa_accepts n []) with false by by destruct n. cbn [orb].
  assert (He : forall bs seen next, expand n [] bs seen next = Some (seen, next)).
  { induction bs as [|b bs IH]; intros seen next; cbn [expand]; [done|]. replace (nfa_step n [] b) with (@nil nat); [apply IH|].
    destruct n as [n|]; [|done]. cbn. unfold step. cbn [foldl snd]. unfold epsilon_closure. cbn [rev app]. by destruct (length (states_ n)). }
  unfold kMaxDepth. cbn [search]. rewrite bool_decide_eq_false_2 by done. cbn [expand_all]. rewrite He. done.
Qed.

Lemma prepare_regex_tracks c0 p gpt2 t tc topen c r width pre c1 :
  prepare_regex c0 p gpt2 t tc topen true = Some (c, true) -> parse_regex (strip_redundant_anchors p) = Ok r ->
  prefaced width c pre c1 -> Gate.state (preamble c1) = Gate.OFF -> Z.of_nat width <= Z.of_nat (length (vocab_ t)) ->
  exists n, tracks (Z.of_nat width) c1 n r [] /\ masking width c1 /\ token_texts c1 = token_texts c /\ eos_ids c1 = eos_ids c.
Proof.
  intros Ep Hr Hpre Hg Hw.
  assert (exists n, tracks (Z.of_nat width) c n r [] /\ exists cap, dev_allow c = Some cap /\ Z.of_nat width <= cap)
    as (n & [] & Hd).
  2:{ apply prefaced_gate in Hpre. unfold same_but_gate in Hpre. rewrite Hpre. exists n.
      split_and!; [by constructor|by constructor|done..]. }
  clear Hpre Hg. revert Ep Hr Hw.
  unfold prepare_regex. case_bool_decide; [done|]. unfold init, init_pattern_only.
  destruct (unsupported_construct _ _); [done|]. destruct (compile _) as [n| | |] eqn:Ec; try done.
  destruct (language_non_empty (Some n) (nfa_start (Some n))) eqn:El; [|done]. intros [= <-] Hp Hw.
  destruct (compile_compiled _ _ Ec) as (r' & Hr' & Hn). rewrite Hp in Hr'. injection Hr' as <-.
  exists n. assert (Hs := language_non_empty_states _ _ El). pose proof (nfa_start_ok n r Hn) as Hr.
  split; destruct (0 <=? tc); [constructor; try done; by rewrite length_fmap..| |]; cbn; eexists; (split; [done|]); done.
Qed.

(** C33: the mask of a prepared pattern is exact, for a pattern none of whose
    character classes is empty and logits no wider than the vocabulary.  The
    reply is counted from where the preamble gate is off: at once, or after a
    preamble of any tokens the gate absorbed.  After any reply so far, a token
    that is not EOS is permitted exactly when it has text and the reply with it
    can be completed to a text of the pattern; and the constrainer calls the
    reply done exactly when it is such a text. *)
Theorem regex_mask_exact c0 p gpt2 t tc topen c r width pre c1 toks c' tok text :
  prepare_regex c0 p gpt2 t tc topen true = Some (c, true) -> parse_regex (strip_redundant_anchors p) = Ok r ->
  prefaced width c pre c1 -> Gate.state (preamble c1) = Gate.OFF ->
  Z.of_nat width <= Z.of_nat (length (vocab_ t)) -> Forall inhabited (classes r) ->
  generates width c1 toks c' -> token_texts c !! tok = Some text -> (tok < width)%nat -> is_eos c tok = false ->
  (permitted c' width tok <-> text ≠ [] /\ exists u, den r (reply_text c toks ++ text ++ u)) /\
  (is_done c' = true <-> den r (reply_text c toks)).
Proof.
  intros Hp Hr Hpre Hg Hw Hok Hgen Htx Hlt He.
  destruct (prepare_regex_tracks _ _ _ _ _ _ _ _ _ _ _ Hp Hr Hpre Hg Hw) as (n & Ht & Hm & E0 & E0').
  unfold is_eos in He. rewrite <- E0' in He. rewrite <- E0 in Htx.
  replace (reply_text c toks) with (reply_text c1 toks) by (unfold reply_text; by rewrite E0).
  destruct (generates_tracks _ _ _ _ _ _ _ Hgen Ht Hm) as (Ht' & Hm' & E1 & E2). cbn [app] in Ht'.
  split; [|by apply (is_done_iff _ _ _ _ _ Ht')].
  rewrite (permitted_iff _ _ _ _ _ _ Ht' Hm'), <- (text_allowed_iff _ _ _ _ _ text Ht' Hok), E1.
  assert (He' : is_eos c' tok = false) by (unfold is_eos; by rewrite E2). pose proof (lookup_lt_Some _ _ _ Htx) as Hl. rewrite <- E1 in Htx.
  rewrite (fresh_other c' width (tr_vocab _ _ _ _ _ Ht') tok text He' Hlt Htx).
  split; [by intros (_ & _ & [= ->])|by intros ->].
Qed.

(** C34: with a vocabulary that has a token for every byte, logits no wider than
    it and a pattern without an empty character class, a reply of permitted
    tokens at whose end EOS is permitted matches the pattern; the one exception
    is an EOS token whose own text the pattern could read next.  The reply is
    counted from where the preamble gate is off: at once, or after a preamble of
    any tokens the gate absorbed (while it is active nothing is masked, EOS
    included). *)
Theorem regex_reply_matches c0 p gpt2 t tc topen c r width pre c1 toks c' eos :
  prepare_regex c0 p gpt2 t tc topen true = Some (c, true) -> parse_regex (strip_redundant_anchors p) = Ok r ->
  prefaced width c pre c1 -> Gate.state (preamble c1) = Gate.OFF ->
  Z.of_nat width <= Z.of_nat (length (vocab_ t)) -> Forall inhabited (classes r) ->
  byte_vocabulary c width -> generates width c1 toks c' -> permitted c' width eos -> is_eos c' eos = true ->
  den r (reply_text c toks) \/
  (token_texts c !!! eos ≠ [] /\ exists u, den r (reply_text c toks ++ token_texts c !!! eos ++ u)).
Proof.
  intros Hp Hr Hpre Hg Hw Hok Hb Hgen Hperm He.
  destruct (prepare_regex_tracks _ _ _ _ _ _ _ _ _ _ _ Hp Hr Hpre Hg Hw) as (n & Ht & Hm & E0 & E0').
  unfold byte_vocabulary in Hb. rewrite <- E0 in Hb.
  replace (reply_text c toks) with (reply_text c1 toks) by (unfold reply_text; by rewrite E0). rewrite <- E0.
  destruct (generates_tracks _ _ _ _ _ _ _ Hgen Ht Hm) as (Ht' & Hm' & E1 & E2). cbn [app] in Ht'.
  apply (permitted_iff _ _ _ _ _ _ Ht' Hm') in Hperm as (Hlt & Hl & Hf).
  destruct (lookup_lt_is_Some_2 _ _ Hl) as [text Htx]. rewrite <- E1. rewrite (list_lookup_total_correct _ _ _ Htx).
  destruct (nfa_accepts (nfa c') (rx_states c')) eqn:Ea.
  - left. pose proof Ht' as [_ Hn Hc Hr' _ _ _]. rewrite Hn in Ea. by apply (accepts_reached n r _ _ Hc Hr').
  - apply (fresh_reason c' width (tr_vocab _ _ _ _ _ Ht') eos text) in Hf as [Hf|[?|Hnone]]; [|congruence|exfalso|done..].
    + right. by apply (text_allowed_iff _ _ _ _ _ _ Ht' Hok).
    + assert (Hb' : byte_vocabulary c' width) by (intros b Hb0; rewrite E1; by apply Hb).
      destruct (some_text_allowed _ _ _ _ _ Ht' Hok Hb' Ea) as (j & tx & Hj & Htj & Haj).
      rewrite (Hnone j tx Hj Htj) in Haj. done.
Qed.

(** C35: where the logits are wider than the tokenizer's vocabulary, the first
    masked step copies past the end of the device allow list, for every pattern
    that is enforced: [prepare_regex] sizes the list by the vocabulary and
    [apply_mask] copies the logits' width. *)
Theorem regex_padded_overrun c0 p gpt2 t tc topen c width :
  prepare_regex c0 p gpt2 t tc topen true = Some (c, true) -> Gate.state (preamble c) = Gate.OFF ->
  Z.of_nat (length (vocab_ t)) < Z.of_nat width -> apply_mask false c (replicate width true) = None.
Proof.
  intros Hp Hg Hw. assert (Hd : initialized c = true /\ dev_allow c = Some (Z.of_nat (length (vocab_ t)))).
  { revert Hp. unfold prepare_regex. case_bool_decide; [done|]. unfold init, init_pattern_only.
    destruct (unsupported_construct _ _); [done|]. destruct (compile _) as [n| | |]; try done.
    destruct (language_non_empty _ _); [|done]. intros [= <-]. by destruct (0 <=? tc). }
  destruct Hd as [Hi Hd]. unfold apply_mask. rewrite Hd, Hi, length_replicate. unfold Gate.active. rewrite Hg. cbn [negb orb].
  destruct (allow_for_current_state c (Z.of_nat width)). by rewrite (proj2 (Z.ltb_lt _ _)).
Qed.

(** ** A sample *)

(** Byte tokens, an EOS token, which has text, and a two-digit token. *)
Definition sample_tokenizer : Tokenizer :=
  MkTokenizer ((byte_token <$> (Z.of_nat <$> seq 0 256)) ++ [src_of "</s>"; src_of "42"]) [] ∅ 1 [256] ∅ [] [] "default"%string true.

Definition sample_pattern : bytes := src_of "^[0-9]{2,3}-(ab|c)+$".

Definition sample_regex : RegexConstrainer :=
  match prepare_regex new_constrainer sample_pattern false sample_tokenizer (-1) false true with Some (c, _) => c | None => new_constrainer end.

Lemma sample_prepared : prepare_regex new_constrainer sample_pattern false sample_tokenizer (-1) false true = Some (sample_regex, true).
Proof. by vm_compute. Qed.

Definition sample_ast : regex := match parse_regex (strip_redundant_anchors sample_pattern) with Ok r => r | _ => REmpty end.

Lemma sample_parsed : parse_regex (strip_redundant_anchors sample_pattern) = Ok sample_ast.
Proof. by vm_compute. Qed.

Definition inhabited_b (cls : list bool) : bool := existsb (class_has cls) (Z.of_nat <$> seq 0 256).

Lemma inhabited_b_sound l : forallb inhabited_b l = true -> Forall inhabited l.
Proof.
  rewrite forallb_forall, Forall_forall. intros H cls Hin. apply list_elem_of_In, H, existsb_exists in Hin as (c & Hc & Hcl).
  apply list_elem_of_In, list_elem_of_fmap in Hc as (i & -> & Hi). apply list_elem_of_In, in_seq in Hi. exists (Z.of_nat i). split; [lia|done].
Qed.

Lemma sample_inhabited : Forall inhabited (classes sample_ast).
Proof. apply inhabited_b_sound. by vm_compute. Qed.

Lemma sample_bytes : byte_vocabulary sample_regex 258.
Proof.
  assert (H : forallb (fun i => bool_decide (token_texts sample_regex !! i = Some [Z.of_nat i])) (seq 0 256) = true) by by vm_compute.
  intros b Hb. exists (Z.to_nat b). split; [lia|]. rewrite forallb_forall in H.
  specialize (H (Z.to_nat b)). rewrite in_seq, bool_decide_eq_true, Z2Nat.id in H by lia. apply H. lia.
Qed.

(** The decode loop as a function. *)
Fixpoint run_reply (width : nat) (c : RegexConstrainer) (toks : list nat) : option RegexConstrainer :=
  match toks with
  | [] => Some c
  | tok :: rest =>
      match apply_mask false c (replicate width true) with
      | Some (b, logits) => if bool_decide (logits !! tok = Some true) && negb (is_eos c tok) then run_reply width (update b (Z.of_nat tok)).1 rest else None
      | None => None
      end
  end.

Lemma run_reply_sound width c toks c' : run_reply width c toks = Some c' -> generates width c toks c'.
Proof.
  revert c. induction toks as [|tok toks IH]; intros c; cbn [run_reply]; [intros [= <-]; constructor|].
  destruct (apply_mask _ _ _) as [[b logits]|] eqn:E; [|done]. case_bool_decide as Hl; [|done]. cbn [andb].
  destruct (is_eos c tok) eqn:He; [done|]. intros H. by apply (gen_token _ _ b logits); auto.
Qed.

(** The reply [42-cab], the digits as one token. *)
Definition sample_reply : list nat := [257; 45; 99; 97; 98]%nat.

Definition sample_after : RegexConstrainer := default new_constrainer (run_reply 258 sample_regex sample_reply).

Lemma sample_generates : generates 258 sample_regex sample_reply sample_after.
Proof.
  apply run_reply_sound. unfold sample_after.
  assert (H : match run_reply 258 sample_regex sample_reply with Some _ => true | None => false end = true) by by vm_compute.
  by destruct (run_reply 258 sample_regex sample_reply).
Qed.

Lemma regex_mask_exact_witness :
  reply_text sample_regex sample_reply = src_of "42-cab" /\
  (permitted sample_after 258 99 <-> [99] ≠ [] /\ exists u, den sample_ast (reply_text sample_regex sample_reply ++ [99] ++ u)) /\
  (is_done sample_after = true <-> den sample_ast (reply_text sample_regex sample_reply)).
Proof.
  split; [by vm_compute|].
  apply (regex_mask_exact new_constrainer sample_pattern false sample_tokenizer (-1) false sample_regex sample_ast 258 [] sample_regex
    sample_reply sample_after 99 [99] sample_prepared sample_parsed); [apply pre_nil|by vm_compute|by vm_compute|apply sample_inhabited|apply sample_generates|by vm_compute|lia|by vm_compute].
Defined.

(** The same pattern behind a thinking block the template left open: the reply
    starts after the second token of the preamble, the closing marker. *)
Definition think_tokenizer : Tokenizer :=
  MkTokenizer (vocab_ sample_tokenizer ++ [src_of "</think>"]) [] ∅ 1 [256] ∅ [] [] "default"%string true.
Definition think_regex : RegexConstrainer :=
  match prepare_regex new_constrainer sample_pattern false think_tokenizer 258 true true with Some (c, _) => c | None => new_constrainer end.
Definition think_step (c : RegexConstrainer) (tok : nat) : RegexConstrainer :=
  match apply_mask false c (replicate 259 true) with Some (b, _) => (update b (Z.of_nat tok)).1 | None => c end.
Definition think_closed : RegexConstrainer := think_step (think_step think_regex 256) 258.
Definition think_after : RegexConstrainer := default new_constrainer (run_reply 259 think_closed sample_reply).

Lemma regex_think_prepared : prepare_regex new_constrainer sample_pattern false think_tokenizer 258 true true = Some (think_regex, true).
Proof. by vm_compute. Qed.

Lemma mask_inactive_step c : Gate.active (preamble c) = true -> apply_mask false c (replicate 259 true) = Some (c, replicate 259 true).
Proof. intros H. unfold apply_mask. rewrite H, orb_true_r. by destruct (dev_allow c). Qed.

Lemma regex_think_prefaced : prefaced 259 think_regex [256; 258]%nat think_closed.
Proof.
  unfold think_closed. pose proof (mask_inactive_step think_regex ltac:(by vm_compute)) as E1.
  unfold think_step at 2. rewrite E1. apply (pre_token _ _ think_regex (replicate 259 true)); [done|by vm_compute|by vm_compute|].
  set (c1 := (update think_regex (Z.of_nat 256)).1). pose proof (mask_inactive_step c1 ltac:(by vm_compute)) as E2.
  unfold think_step. rewrite E2. apply (pre_token _ _ c1 (replicate 259 true)); [done|by vm_compute|by vm_compute|]. apply pre_nil.
Qed.

Lemma regex_think_generates : generates 259 think_closed sample_reply think_after.
Proof.
  apply run_reply_sound. unfold think_after.
  assert (H : match run_reply 259 think_closed sample_reply with Some _ => true | None => false end = true) by by vm_compute.
  by destruct (run_reply 259 think_closed sample_reply).
Qed.

Lemma regex_think_bytes : byte_vocabulary think_regex 259.
Proof.
  intros b Hb. destruct (sample_bytes b Hb) as (i & Hi & Ht). exists i. split; [lia|].
  assert (E : token_texts think_regex = token_texts sample_regex ++ [src_of "</think>"]) by by vm_compute.
  rewrite E, lookup_app_l; [done|by eapply lookup_lt_Some].
Qed.

Lemma regex_think_eos : permitted think_after 259 256.
Proof.
  assert (H : match apply_mask false think_after (replicate 259 true) with
              | Some (_, logits) => bool_decide (logits !! 256%nat = Some true) | None => false end = true) by by vm_compute.
  unfold permitted. destruct (apply_mask _ _ _) as [[b logits]|]; [|done]. exists b, logits. split; [done|]. by apply bool_decide_eq_true in H.
Qed.

Lemma regex_reply_matches_witness :
  den sample_ast (reply_text think_regex sample_reply) \/
  (token_texts think_regex !!! 256%nat ≠ [] /\
   exists u, den sample_ast (reply_text think_regex sample_reply ++ token_texts think_regex !!! 256%nat ++ u)).
Proof.
  apply (regex_reply_matches new_constrainer sample_pattern false think_tokenizer 258 true think_regex sample_ast 259 [256; 258]%nat think_closed
    sample_reply think_after 256 regex_think_prepared sample_parsed); [apply regex_think_prefaced|by vm_compute|by vm_compute|apply sample_inhabited
    |apply regex_think_bytes|apply regex_think_generates|apply regex_think_eos|by vm_compute].
Defined.

Lemma regex_padded_overrun_witness : apply_mask false sample_regex (replicate 260 true) = None.
Proof.
  apply (regex_padded_overrun new_constrainer sample_pattern false sample_tokenizer (-1) false sample_regex 260 sample_prepared); by vm_compute.
Defined.

(** The exception of [regex_reply_matches] is real: with a pattern that reads any
    text before its end, EOS is permitted at once. *)
Example eos_text_permitted :
  match prepare_regex new_constrainer (src_of ".*!") false sample_tokenizer (-1) false true with
  | Some (c, ok) =>
      ok && negb (is_done c) && match apply_mask false c (replicate 258 true) with
                                | Some (_, logits) => bool_decide (logits !! 256%nat = Some true) | None => false end
  | None => false
  end = true.
Proof. by vm_compute. Qed.
