(* ===== verification/GrammarConstrain.v ===== *)
(** * Grammar-constrained replies

    Models [GrammarConstrainer] of [src/compute/grammar_constrain.cu] over the
    matcher of [GbnfMatcher], and [ConstraintManager::prepare_grammar].  The
    matcher's arena grows while the vocabulary is walked, so the walk passes the
    matcher along; operations that run it take its fuel and return [None] when it
    is short.  The device allow list is its size. *)

From Corelib Require Import ssreflect_rw.
From stdpp Require Import prelude list gmap strings.
From S2P Require Import Prelude StreamPipeline ByteLevel Encoders AllowLists PreambleGate JsonMask.
From S2P Require Import Gbnf GbnfSim GbnfParser GbnfMatcher.
Open Scope Z_scope.

(** [detect_think_close]. *)
Definition detect_think_close (t : Tokenizer) : Z :=
  let close := find_token t (src_of "</think>") in
  if close <? 0 then -1 else if find_token t (src_of "<think>") <? 0 then -1 else close.

Module Gc.

Record t := mk {
  initialized : bool;
  vocab_size : Z;
  source : list Z;
  matcher : option GbnfMatcher;
  token_texts : list bytes;
  eos_ids : list Z;
  mask_cache : gmap (list Z) (list bool);
  dev_allow : option Z;
  preamble : Gate.t
}.

(** No matcher is a matcher whose grammar is not compiled. *)
Definition new : t := mk false 0 [] None [] [] ∅ None Gate.new.

Definition with_matcher (c : t) (m : GbnfMatcher) (g : Gate.t) : t :=
  mk (initialized c) (vocab_size c) (source c) (Some m) (token_texts c) (eos_ids c) (mask_cache c) (dev_allow c) g.
Definition with_preamble (c : t) (g : Gate.t) : t :=
  mk (initialized c) (vocab_size c) (source c) (matcher c) (token_texts c) (eos_ids c) (mask_cache c) (dev_allow c) g.
Definition with_cache (c : t) (m : gmap (list Z) (list bool)) : t :=
  mk (initialized c) (vocab_size c) (source c) (matcher c) (token_texts c) (eos_ids c) m (dev_allow c) (preamble c).

(** What [apply_mask] does: [Overrun] when the copy to the device, or its source,
    is shorter than the logits. *)
Inductive Masking (A : Type) : Type := Overrun | Masked (c : t) (logits : list A).
Arguments Overrun {A}.
Arguments Masked {A} c logits.

(** ** [init] and [reset] *)

(** [true], [false], or an exception that leaves the function. *)
Inductive Verdict : Type := Accepted | Declined | Thrown.

(** A new grammar clears the cache before it is compiled. *)
Definition init_grammar_only (fuel : nat) (c : t) (gbnf : list Z) : option (t * Verdict) :=
  r ← GbnfMatcher.compile fuel gbnf;
  let made (ok : bool) (m : option GbnfMatcher) :=
    mk ok (vocab_size c) gbnf m (token_texts c) (eos_ids c) ∅ (dev_allow c) (preamble c) in
  match r with
  | Compiled m => Some (made true (Some m), Accepted)
  | CompileThrows => Some (made false None, Thrown)
  | _ => Some (made false None, Declined)
  end.

(** [tk] is the tokenizer, [gpt2] its kind; [allocated] is what [cudaMalloc] did. *)
Definition init (fuel : nat) (c : t) (gbnf : list Z) (gpt2 : bool) (tk : Tokenizer) (width : Z) (allocated : bool) : option (t * Verdict) :=
  '(c, v) ← init_grammar_only fuel c gbnf;
  match v with
  | Accepted =>
    let texts := decode_token gpt2 tk <$> (Z.of_nat <$> seq 0 (length (vocab_ tk))) in
    Some (mk allocated (Z.of_nat (length texts)) (source c) (matcher c) texts (eos_ids_ tk) (mask_cache c)
            (if allocated then Some width else None) (preamble c), if allocated then Accepted else Declined)
  | _ => Some (c, v)
  end.

Definition reset (fuel : nat) (c : t) : option t :=
  match matcher c with
  | None => Some c
  | Some m => m ← GbnfMatcher.reset fuel m; Some (with_matcher c m (Gate.reset (preamble c)))
  end.

Definition set_preamble (c : t) (close_token max_tokens : Z) (thinking_open : bool) : t :=
  with_preamble c (Gate.configure close_token max_tokens thinking_open).

(** [ConstraintManager::prepare_grammar] on its pooled constrainer. *)
Definition prepare_grammar (fuel : nat) (c : t) (gbnf : list Z) (gpt2 : bool) (tk : Tokenizer) (thinking_open allocated : bool)
    : option (t * Verdict) :=
  if bool_decide (gbnf = []) then Some (c, Declined)
  else
    let reuse := initialized c && bool_decide (source c = gbnf) in
    '(c, v) ← (if reuse then Some (c, Accepted) else init fuel c gbnf gpt2 tk (Z.of_nat (length (vocab_ tk))) allocated);
    match v with
    | Accepted =>
        let think_close := detect_think_close tk in
        c ← reset fuel (if 0 <=? think_close then set_preamble c think_close 8192 thinking_open else c);
        Some (c, Accepted)
    | _ => Some (c, v)
    end.

(** ** Reading *)

Definition is_done (c : t) : bool := initialized c && match matcher c with Some m => GbnfMatcher.is_done m | None => false end.

Definition update (fuel : nat) (c : t) (token : Z) : option (t * bool) :=
  if negb (initialized c) then Some (c, true)
  else if (token <? 0) || (Z.of_nat (length (token_texts c)) <=? token) then Some (c, true)
  else
    let text := token_texts c !!! Z.to_nat token in
    let (g, absorbed) := Gate.absorb (preamble c) token text in
    let c := with_preamble c g in
    if absorbed then Some (c, true)
    else if existsb (Z.eqb token) (eos_ids c) then Some (c, true)
    else
      match matcher c with
      | None => Some (c, false)
      | Some m => '(ok, m) ← GbnfMatcher.update_text fuel text m; Some (with_matcher c m g, ok)
      end.

(** ** Masking *)

(** One entry of the cold path: the first byte, then the matcher. *)
Definition text_allowed (fuel : nat) (lead : list bool) (text : bytes) (m : GbnfMatcher) : option (bool * GbnfMatcher) :=
  match text with
  | [] => Some (false, m)
  | b :: _ => if (lead !!! Z.to_nat b : bool) then GbnfMatcher.would_accept fuel text m else Some (false, m)
  end.

Fixpoint classify (fuel : nat) (lead : list bool) (texts : list bytes) (m : GbnfMatcher) : option (list bool * GbnfMatcher) :=
  match texts with
  | [] => Some ([], m)
  | text :: texts =>
      '(ok, m) ← text_allowed fuel lead text m;
      '(rest, m) ← classify fuel lead texts m;
      Some (ok :: rest, m)
  end.

(** The list for the current state, computed afresh. *)
Definition fresh_allow (fuel : nat) (texts : list bytes) (eos : list Z) (width : Z) (m : GbnfMatcher) : option (list bool * GbnfMatcher) :=
  let n := Z.to_nat (Z.min width (Z.of_nat (length texts))) in
  '(flags, m) ← classify fuel (lead_bytes m) (take n texts) m;
  Some (allow_list eos width (GbnfMatcher.is_done m) (flags ++ replicate (Z.to_nat width - n) false), m).

Definition allow_for_current_state (fuel : nat) (c : t) (m : GbnfMatcher) (width : Z) : option (t * list bool) :=
  let key := state_key m in
  match mask_cache c !! key with
  | Some allow => Some (c, allow)
  | None =>
      '(allow, m) ← fresh_allow fuel (token_texts c) (eos_ids c) width m;
      let c := with_matcher c m (preamble c) in
      Some (with_cache c (<[key := allow]> (mask_cache c)), allow)
  end.

(** [apply_mask] on logits of type [A], where [lowest] is [-FLT_MAX]. *)
Definition apply_mask {A} (fuel : nat) (lowest : A) (c : t) (logits : list A) : option (Masking A) :=
  match initialized c, dev_allow c, matcher c with
  | true, Some cap, Some m =>
      if Gate.active (preamble c) then Some (Masked c logits)
      else
        let width := Z.of_nat (length logits) in
        '(c, allow) ← allow_for_current_state fuel c m width;
        if (cap <? width) || (Z.of_nat (length allow) <? width) then Some Overrun
        else Some (Masked c (imap (mask_unlisted lowest allow (Z.to_nat (Z.min width (vocab_size c)))) logits))
  | _, _, _ => Some (Masked c logits)
  end.

End Gc.
