(* ===== verification/GrammarLists.v ===== *)
(** * Grammar-constrained replies: allow lists

    What the walk over the vocabulary makes of a matcher that has read some
    bytes, and what the finished allow list says about continuing and ending. *)

From Corelib Require Import ssreflect_rw.
From stdpp Require Import prelude list gmap strings.
From S2P Require Import Prelude StreamPipeline ByteLevel Encoders AllowLists PreambleGate JsonMask.
From S2P Require Import Gbnf GbnfSim GbnfStacks GbnfRefine GbnfParser GbnfMatcher GbnfLive GbnfTable Utf8Code GbnfLanguage GbnfTheorems.
From S2P Require Import GrammarConstrain.
Open Scope Z_scope.

(** ** The walk over the vocabulary *)

Lemma run_nonempty F g text S pa m m' S' pa' :
  run F g text S pa m = Some (m', Some (S', pa')) -> S <> [] -> S' <> [].
Proof.
  revert S pa m. induction text as [|b text IH]; intros S pa m; cbn [run].
  { destruct (_ && _); [done|]. by intros [= _ <- _]. }
  assert (Hstep : forall c pa0, ('(m0, next) ← step_into (rules_ g) F S c m;
      match next with [] => Some (m0, None) | _ => run F g text next pa0 m0 end) = Some (m', Some (S', pa')) -> S' <> []).
  { intros c pa0. destruct (step_into (rules_ g) F S c m) as [[m0 [|s next]]|]; [done| |done]. cbn. intros H. by apply (IH _ _ _ H). }
  intros H Hne. destruct (remaining pa) as [|[|r]].
  - destruct (utf8_extra b) as [[|e]|]; [by apply (Hstep _ _ H)|by apply (IH _ _ _ H)|done].
  - destruct (negb _); [done|]. destruct (_ || _); [done|]. by apply (Hstep _ _ H).
  - destruct (negb _); [done|]. by apply (IH _ _ _ H).
Qed.

Lemma update_text_mono F F' text mt r : (F <= F')%nat -> update_text F text mt = Some r -> update_text F' text mt = Some r.
Proof.
  intros Hle. unfold update_text. destruct (run F _ _ _ _ _) as [[m1 r1]|] eqn:E; [|done]. by rewrite (run_mono _ _ _ _ _ _ _ _ Hle E).
Qed.

(** Text that begins in the grammar: whole characters that leave a live stack,
    and perhaps the beginning of one more. *)
Definition begun (g : GbnfGrammar) (bs : list Z) : Prop :=
  exists w pend pa k, bs = encode_all w ++ pend /\ Forall codepoint w /\ pending pend pa /\ live (rules_ g) (root_ g) w k.

Lemma reading_begun g m S pa bs : reading g m S pa bs -> S <> [] -> begun g bs.
Proof.
  intros (w & pend & E & Hw & Hp & _ & Hs & _) Hne. destruct S as [|s S]; [done|].
  destruct (Hs s ltac:(by left)) as (k & _ & Hk). by exists w, pend, pa, k.
Qed.

(** The same stacks in a later arena. *)
Record later (g : GbnfGrammar) (mt mt' : GbnfMatcher) : Prop := {
  la_grammar : grammar_ mt' = grammar_ mt;
  la_stacks : stacks_ mt' = stacks_ mt;
  la_partial : partial_ mt' = partial_ mt;
  la_memo : extends (memo_ mt) (memo_ mt');
  la_wf : memo_wf (rules_ g) (memo_ mt')
}.

Lemma arena_later_ok g mt mt' bs : later g mt mt' -> matcher_ok g (mt, bs) -> matcher_ok g (mt', bs).
Proof.
  intros [E1 E2 E3 He Hwf] (Hg & _ & Hr). unfold matcher_ok. cbn [fst snd] in *. rewrite E1, E2, E3. split_and!; [done..|].
  by eapply reading_extends.
Qed.

Lemma arena_later_trans g a b c : later g a b -> later g b c -> later g a c.
Proof.
  intros [H1 H2 H3 H4 H5] [K1 K2 K3 K4 K5]. constructor; [congruence..|by etrans|done].
Qed.

Section Walk.
Context (g : GbnfGrammar) (F : nat) (HF : (expand_fuel (rules_ g) <= F)%nat) (Hok : rules_ok (rules_ g)).

Lemma would_accept_spec mt bs text :
  matcher_ok g (mt, bs) -> stacks_ mt <> [] -> Forall byte text ->
  exists ok mt', would_accept F text mt = Some (ok, mt') /\ later g mt mt' /\
    (completable g (bs ++ text) -> ok = true) /\ (ok = true -> begun g (bs ++ text)).
Proof.
  intros (Hg & Hwf & Hr) Hne Ht. cbn [fst snd] in *. unfold would_accept. rewrite Hg.
  destruct (run_spec g F HF text bs _ _ _ Hok Ht Hwf Hr) as (m' & r & E & Hwf' & He & Hr' & Hc). rewrite E. cbn.
  eexists _, _. split; [done|]. split; [by constructor|]. split.
  - intros H%Hc. by destruct r.
  - destruct r as [[S' pa']|]; [|done]. intros _. apply (reading_begun g m' S' pa'); [by apply Hr'|]. by eapply run_nonempty.
Qed.

Lemma update_text_spec mt bs text :
  matcher_ok g (mt, bs) -> stacks_ mt <> [] -> Forall byte text ->
  exists ok mt', update_text F text mt = Some (ok, mt') /\ matcher_ok g (mt', if ok : bool then bs ++ text else bs) /\
    stacks_ mt' <> [] /\ extends (memo_ mt) (memo_ mt') /\ (completable g (bs ++ text) -> ok = true).
Proof.
  intros (Hg & Hwf & Hr) Hne Ht. cbn [fst snd] in *. unfold update_text. rewrite Hg.
  destruct (run_spec g F HF text bs _ _ _ Hok Ht Hwf Hr) as (m' & r & E & Hwf' & He & Hr' & Hc). rewrite E. cbn.
  destruct r as [[S' pa']|]; eexists _, _; (split; [done|]); (split; [split; [done|split; [done|]]|]); cbn [fst snd stacks_ partial_ memo_].
  - by apply Hr'.
  - split; [by eapply run_nonempty|]. by split.
  - by eapply reading_extends.
  - split; [done|]. split; [done|]. by intros ?%Hc.
Qed.

(** What one entry tells. *)
Definition entry_ok (lead : list bool) (bs text : list Z) (ok : bool) : Prop :=
  (text <> [] -> lead !!! Z.to_nat (default 0 (head text)) = true -> completable g (bs ++ text) -> ok = true) /\
  (ok = true -> text <> [] /\ begun g (bs ++ text)).

Lemma text_allowed_spec lead mt bs text :
  matcher_ok g (mt, bs) -> stacks_ mt <> [] -> Forall byte text ->
  exists ok mt', Gc.text_allowed F lead text mt = Some (ok, mt') /\ later g mt mt' /\ entry_ok lead bs text ok.
Proof.
  intros Hm Hne Ht. assert (Hrefl : later g mt mt) by (constructor; [done..|apply Hm]).
  unfold Gc.text_allowed, entry_ok. destruct text as [|b text]; [by exists false, mt|]. cbn [head default from_option].
  destruct (lead !!! Z.to_nat b) eqn:El; [|by exists false, mt].
  destruct (would_accept_spec mt bs (b :: text) Hm Hne Ht) as (ok & mt' & E & Hl & H1 & H2). exists ok, mt'. naive_solver.
Qed.

Lemma classify_spec lead texts mt bs :
  matcher_ok g (mt, bs) -> stacks_ mt <> [] -> Forall (Forall byte) texts ->
  exists flags mt', Gc.classify F lead texts mt = Some (flags, mt') /\ later g mt mt' /\
    Forall2 (entry_ok lead bs) texts flags.
Proof.
  intros Hm Hne Ht. revert mt Hm Hne. induction Ht as [|text texts Ht _ IH]; intros mt Hm Hne; cbn [Gc.classify].
  - exists [], mt. split; [done|]. split; [|constructor]. constructor; [done..|apply Hm].
  - destruct (text_allowed_spec lead mt bs text Hm Hne Ht) as (ok & m1 & E1 & Hl1 & H1). rewrite E1. cbn.
    destruct (IH m1 (arena_later_ok _ _ _ _ Hl1 Hm)) as (flags & m2 & E2 & Hl2 & H2); [by rewrite (la_stacks _ _ _ Hl1)|].
    rewrite E2. cbn. eexists _, _. split; [done|]. split; [by eapply arena_later_trans|by constructor].
Qed.

(** The first-byte table lets every completable text through. *)
Lemma lead_completable mt bs text :
  matcher_ok g (mt, bs) -> Forall byte text -> text <> [] -> completable g (bs ++ text) ->
  lead_bytes mt !!! Z.to_nat (default 0 (head text)) = true.
Proof.
  intros Hm Ht Hne Hc. destruct text as [|b text]; [done|]. pose proof Hm as (Hg & Hwf & Hr). cbn [fst snd] in *.
  destruct (run_spec g F HF (b :: text) bs _ _ _ Hok Ht Hwf Hr) as (m' & r & E & _ & _ & _ & Hn).
  specialize (Hn Hc). destruct r as [r|]; [|done]. pose proof Ht as [Hb Ht']%Forall_cons.
  apply list_lookup_total_correct. by eapply lead_bytes_run.
Qed.

End Walk.

(** ** Allow lists *)

Section Lists.
Context (texts : list bytes) (eos : list Z) (width : nat).
Context (Htexts : Forall (Forall byte) texts).

Definition is_eos_token (i : nat) : bool := existsb (Z.eqb (Z.of_nat i)) eos.

(** The bytes [bs] spell a sentence that stays within the guards. *)
Definition sentence_within (g : GbnfGrammar) (bs : list Z) : Prop :=
  exists w, bs = encode_all w /\ Forall codepoint w /\ root_fits (rules_ g) (root_ g) w /\ all_bounded (rules_ g) (root_ g) w.

Definition sentence (g : GbnfGrammar) (bs : list Z) : Prop :=
  exists w, bs = encode_all w /\ Forall codepoint w /\ derives (rules_ g) [RuleItem (root_ g)] w.

(** No token of the vocabulary leads on to a sentence within the guards. *)
Definition stuck (g : GbnfGrammar) (bs : list Z) : Prop :=
  forall i text, (i < width)%nat -> texts !! i = Some text -> text <> [] -> ~ completable g (bs ++ text).

(** What an allow list says after [bs]. *)
Record list_ok (g : GbnfGrammar) (bs : list Z) (allow : list bool) : Prop := {
  lo_length : length allow = width;
  lo_complete i text : (i < width)%nat -> texts !! i = Some text -> is_eos_token i = false -> text <> [] ->
    completable g (bs ++ text) -> allow !! i = Some true;
  lo_end i : (i < width)%nat -> is_eos_token i = true -> sentence_within g bs -> allow !! i = Some true;
  lo_sound i text : (i < width)%nat -> texts !! i = Some text -> is_eos_token i = false -> allow !! i = Some true ->
    text <> [] /\ begun g (bs ++ text);
  lo_eos i text : (i < width)%nat -> texts !! i = Some text -> allow !! i = Some true ->
    sentence g bs \/ (text <> [] /\ begun g (bs ++ text)) \/ stuck g bs
}.

Section Fresh.
Context (g : GbnfGrammar) (F : nat) (HF : (expand_fuel (rules_ g) <= F)%nat) (Hok : rules_ok (rules_ g)).

Lemma Forall2_take_lookup {A B} (P : A -> B -> Prop) (l : list A) (k : list B) n i x :
  Forall2 P (take n l) k -> (i < n)%nat -> l !! i = Some x -> exists y, k !! i = Some y /\ P x y.
Proof.
  intros H Hi Hx. assert (Ht : take n l !! i = Some x) by by rewrite lookup_take_lt.
  destruct (Forall2_lookup_l _ _ _ _ _ H Ht) as (y & Hy & HP). by exists y.
Qed.

Lemma fresh_allow_spec mt bs :
  matcher_ok g (mt, bs) -> stacks_ mt <> [] ->
  exists allow mt', Gc.fresh_allow F texts eos (Z.of_nat width) mt = Some (allow, mt') /\ later g mt mt' /\ list_ok g bs allow.
Proof.
  intros Hm Hne. unfold Gc.fresh_allow. rewrite <- Nat2Z.inj_min, !Nat2Z.id. set (n := Nat.min width (length texts)).
  destruct (classify_spec g F HF Hok (lead_bytes mt) (take n texts) mt bs Hm Hne ltac:(by apply Forall_take)) as (flags & mt' & E & Hl & Hf).
  rewrite E. cbn. eexists _, mt'. split; [done|]. split; [done|]. pose proof (arena_later_ok _ _ _ _ Hl Hm) as Hm'.
  set (base := flags ++ replicate (width - n) false).
  assert (Hb : forall i text, (i < width)%nat -> texts !! i = Some text ->
    exists ok, base !! i = Some ok /\ entry_ok g (lead_bytes mt) bs text ok).
  { intros i text Hi Ht. pose proof (lookup_lt_Some _ _ _ Ht) as Hlt.
    destruct (Forall2_take_lookup _ texts flags n i text Hf ltac:(unfold n; lia) Ht) as (ok & Hfl & Hen).
    exists ok. split; [|done]. unfold base. by apply lookup_app_l_Some. }
  assert (Hlen : length base = width).
  { unfold base. rewrite length_app, length_replicate, <- (Forall2_length _ _ _ Hf), length_take. unfold n. lia. }
  assert (Hcomp : forall i text, (i < width)%nat -> texts !! i = Some text -> text <> [] -> completable g (bs ++ text) -> base !! i = Some true).
  { intros i text Hi Ht Hnt Hc. destruct (Hb i text Hi Ht) as (ok & -> & [H1 _]). f_equal. apply H1; [done| |done].
    apply (lead_completable g F HF Hok mt bs text Hm); [|done..]. by apply (Forall_lookup_1 _ _ _ _ Htexts Ht). }
  constructor.
  - by rewrite allow_list_length.
  - intros i text Hi Ht He Hnt Hc. rewrite allow_list_other by done. by apply (Hcomp i text).
  - intros i Hi He (w & -> & Hw & Hfit & Hbd). assert (Hd : is_done mt' = true) by by eapply is_done_complete.
    unfold allow_list. rewrite Hd. cbn [andb]. assert (Hin : eos_in_width eos (Z.of_nat width) = true).
    { unfold eos_in_width, is_eos_token in *. apply existsb_exists in He as (e & Hin & <-%Z.eqb_eq). apply existsb_exists.
      exists (Z.of_nat i). split; [done|]. apply andb_true_iff. rewrite Z.leb_le, Z.ltb_lt. lia. }
    rewrite Hin, orb_true_r. apply allow_eos_set; [done..|]. by rewrite Hlen.
  - intros i text Hi Ht He Ha. rewrite allow_list_other in Ha by done. destruct (Hb i text Hi Ht) as (ok & Hbi & [_ H2]).
    apply H2. congruence.
  - intros i text Hi Ht [Ha|[Ha|Ha]]%allow_list_reason.
    + right. left. destruct (Hb i text Hi Ht) as (ok & Hbi & [_ H2]). apply H2. congruence.
    + left. by eapply (is_done_sound g).
    + right. right. intros j tj Hj Htj Hnt Hc. pose proof (none_listed _ j _ Ha (Hcomp j tj Hj Htj Hnt Hc)). done.
Qed.
End Fresh.

(** More fuel changes nothing. *)
Lemma classify_mono F F' lead ts mt r :
  (F <= F')%nat -> Gc.classify F lead ts mt = Some r -> Gc.classify F' lead ts mt = Some r.
Proof.
  intros Hle. revert mt r. induction ts as [|text ts IH]; intros mt r; cbn [Gc.classify]; [done|].
  assert (H1 : forall r, Gc.text_allowed F lead text mt = Some r -> Gc.text_allowed F' lead text mt = Some r).
  { intros r'. unfold Gc.text_allowed. destruct text as [|b text]; [done|]. destruct (lead !!! _); [|done]. unfold would_accept.
    destruct (run F _ _ _ _ _) as [[m1 r1]|] eqn:E; [|done]. by rewrite (run_mono _ _ _ _ _ _ _ _ Hle E). }
  destruct (Gc.text_allowed F lead text mt) as [[ok m1]|] eqn:E1; [|done]. rewrite (H1 _ eq_refl). cbn.
  destruct (Gc.classify F lead ts m1) as [[rest m2]|] eqn:E2; [|done]. by rewrite (IH _ _ E2).
Qed.

Lemma fresh_allow_mono F F' w mt r :
  (F <= F')%nat -> Gc.fresh_allow F texts eos w mt = Some r -> Gc.fresh_allow F' texts eos w mt = Some r.
Proof.
  intros Hle. unfold Gc.fresh_allow. destruct (Gc.classify F _ _ mt) as [[flags m1]|] eqn:E; [|done].
  by rewrite (classify_mono _ _ _ _ _ _ Hle E).
Qed.

End Lists.
