(* ===== verification/GrammarReply.v ===== *)
(** * Grammar-constrained replies: the guarantees

    A pooled constrainer serves one grammar after the other, and its cache of
    allow lists survives a reset.  Nothing that continues towards a sentence
    within the guards is ever masked, and a reply that may be ended is a
    sentence, but for two exceptions that the theorem names. *)

From Corelib Require Import ssreflect_rw.
From stdpp Require Import prelude list gmap strings.
From S2P Require Import Prelude StreamPipeline ByteLevel Encoders AllowLists PreambleGate JsonMask.
From S2P Require Import Gbnf GbnfSim GbnfStacks GbnfRefine GbnfParser GbnfMatcher GbnfLive GbnfTable Utf8Code GbnfLanguage GbnfTheorems.
From S2P Require Import GrammarConstrain GrammarLists.
Open Scope Z_scope.

(** ** A constrainer at work *)

Section Serving.
Context (gpt2 : bool) (tk : Tokenizer) (width : nat).
Let texts : list bytes := decode_token gpt2 tk <$> (Z.of_nat <$> seq 0 (length (vocab_ tk))).
Context (Htexts : Forall (Forall byte) texts).
Notation eos := (eos_ids_ tk).

Definition in_arena (m : Memo) (S : GbnfStackSet) : Prop := Forall (fun s => -1 <= s < Z.of_nat (length (arena m))) S.

Lemma reading_in_arena g m S pa bs : memo_wf (rules_ g) m -> reading g m S pa bs -> in_arena m S.
Proof.
  intros Hwf (w & pend & _ & _ & _ & _ & Hs & _). apply Forall_forall. intros s Hin.
  destruct (Hs s Hin) as (k & Hd & _). by eapply denotes_range.
Qed.

(** Stacks that an earlier arena has mean the same in it. *)
Lemma reading_earlier g m0 m S pa bs :
  memo_wf (rules_ g) m0 -> extends m0 m -> in_arena m0 S -> reading g m S pa bs -> reading g m0 S pa bs.
Proof.
  intros Hwf He Hin (w & pend & E & Hw & Hp & Hs & H1 & H2).
  assert (Hback : forall s k, s ∈ S -> denotes m s k -> denotes m0 s k).
  { intros s k Hs0 Hd. unfold in_arena in Hin. rewrite Forall_forall in Hin.
    destruct (denotes_exists (rules_ g) m0 s Hwf (Hin s Hs0)) as (k0 & Hd0).
    by rewrite (denotes_fun _ _ _ _ Hd (denotes_extends _ _ _ _ He Hd0)). }
  exists w, pend. split_and!; [done..|]. split_and!; [done| |].
  - intros s Hs0. destruct (H1 s Hs0) as (k & Hd & Hk). exists k. split; [by apply Hback|done].
  - intros Hb k Hk. destruct (H2 Hb k Hk) as (s & Hs0 & Hd). exists s. split; [done|by apply Hback].
Qed.

(** A cached list was right when it was computed. *)
Definition entry_from (g : GbnfGrammar) (m : Memo) (key : list Z) (allow : list bool) : Prop :=
  exists mt0, state_key mt0 = key /\ grammar_ mt0 = g /\ memo_wf (rules_ g) (memo_ mt0) /\ extends (memo_ mt0) m /\
    in_arena (memo_ mt0) (stacks_ mt0) /\ forall bs, matcher_ok g (mt0, bs) -> list_ok texts eos width g bs allow.

Lemma entry_later g m m' key allow : extends m m' -> entry_from g m key allow -> entry_from g m' key allow.
Proof. intros He (mt0 & ? & ? & ? & ? & ? & ?). exists mt0. split_and!; try done. by etrans. Qed.

(** It is right whenever its key comes back. *)
Lemma entry_current g mt bs allow :
  entry_from g (memo_ mt) (state_key mt) allow -> matcher_ok g (mt, bs) -> list_ok texts eos width g bs allow.
Proof.
  intros (mt0 & Hk & Hg0 & Hwf0 & He & Hin & Hall) (Hg & Hwf & Hr). cbn [fst snd] in *. apply Hall.
  destruct mt0 as [g0 m0 S0 [v0 c0 r0]], mt as [g1 m1 S1 [v1 c1 r1]]. unfold state_key in Hk. cbn in *. simplify_eq.
  split; [done|]. split; [done|]. by eapply reading_earlier.
Qed.

Lemma entry_fresh g F mt bs allow mt' :
  rules_ok (rules_ g) -> matcher_ok g (mt, bs) -> stacks_ mt <> [] ->
  Gc.fresh_allow F texts eos (Z.of_nat width) mt = Some (allow, mt') ->
  later g mt mt' /\ entry_from g (memo_ mt') (state_key mt) allow.
Proof.
  intros Hok Hm Hne E. apply (fresh_allow_mono _ _ _ (F + expand_fuel (rules_ g))) in E; [|lia].
  assert (Hspec : forall bs', matcher_ok g (mt, bs') -> later g mt mt' /\ list_ok texts eos width g bs' allow).
  { intros bs' Hm'. destruct (fresh_allow_spec texts eos width Htexts g (F + expand_fuel (rules_ g)) ltac:(lia) Hok mt bs' Hm' Hne)
      as (allow' & m' & E' & Hl & Hlo). rewrite E in E'. by injection E' as <- <-. }
  destruct (Hspec bs Hm) as [Hl _]. split; [done|]. exists mt. destruct Hm as (Hg & Hwf & Hr).
  split_and!; [done|done|done|apply Hl|by eapply reading_in_arena|]. intros bs' Hm'. by apply Hspec.
Qed.

(** [c] enforces [g] and has read [bs] since it was prepared. *)
Record serving (c : Gc.t) (g : GbnfGrammar) (bs : list Z) : Prop := {
  sv_initialized : Gc.initialized c = true;
  sv_source : grammar_compile (Gc.source c) = Compiled g;
  sv_rules : rules_ok (rules_ g);
  sv_matcher : exists m, Gc.matcher c = Some m /\ matcher_ok g (m, bs) /\ stacks_ m <> [] /\
    forall key allow, Gc.mask_cache c !! key = Some allow -> entry_from g (memo_ m) key allow;
  sv_texts : Gc.token_texts c = texts;
  sv_vocab : Gc.vocab_size c = Z.of_nat (length texts);
  sv_eos : Gc.eos_ids c = eos;
  sv_device : Gc.dev_allow c = Some (Z.of_nat (length texts))
}.

Lemma serving_preamble c g bs p : serving c g bs -> serving (Gc.with_preamble c p) g bs.
Proof. intros []. by constructor. Qed.

(** Another matcher that is in order, in a later arena. *)
Lemma serving_matcher c g bs m m' bs' p :
  serving c g bs -> Gc.matcher c = Some m -> matcher_ok g (m', bs') -> stacks_ m' <> [] -> extends (memo_ m) (memo_ m') ->
  serving (Gc.with_matcher c m' p) g bs'.
Proof.
  intros [H1 H2 H3 (m0 & E0 & _ & _ & H4) H5 H6 H7 H8] E Hm' Hne He. rewrite E in E0. injection E0 as <-.
  constructor; try done. exists m'. split_and!; [done..|]. intros key allow Hk. eapply entry_later; [exact He|by apply H4].
Qed.

Lemma serving_list F c g bs m :
  serving c g bs -> Gc.matcher c = Some m ->
  (forall c' allow, Gc.allow_for_current_state F c m (Z.of_nat width) = Some (c', allow) ->
     serving c' g bs /\ list_ok texts eos width g bs allow /\ Gc.preamble c' = Gc.preamble c) /\
  ((expand_fuel (rules_ g) <= F)%nat -> Gc.allow_for_current_state F c m (Z.of_nat width) <> None).
Proof.
  intros Hs E. pose proof Hs as [H1 H2 H3 (m0 & E0 & Hm & Hne & Hc) H5 H6 H7 H8]. rewrite E in E0. injection E0 as <-.
  unfold Gc.allow_for_current_state. rewrite H5, H7. destruct (Gc.mask_cache c !! state_key m) as [allow0|] eqn:Ek.
  - split; [|done]. intros c' allow [= <- <-]. split_and!; [done| |done]. by apply (entry_current g m bs); [apply Hc|].
  - split.
    + intros c' allow. destruct (Gc.fresh_allow F texts eos (Z.of_nat width) m) as [[al m']|] eqn:Ef; [|done]. cbn. intros [= <- <-].
      destruct (entry_fresh g F m bs al m' H3 Hm Hne Ef) as [Hl He]. pose proof (arena_later_ok _ _ _ _ Hl Hm) as Hm'.
      split_and!; [|apply (entry_current g m' bs); [|done]; by destruct Hl as [Hx1 Hx2 Hx3 _ _]; unfold state_key; rewrite Hx2, Hx3|done].
      constructor; try done. exists m'. split_and!; [done|done|by rewrite (la_stacks _ _ _ Hl)|].
      cbn. intros key allow [[<- <-]|[_ Hk]]%lookup_insert_Some; [done|]. eapply entry_later; [apply Hl|by apply Hc].
    + intros HF. destruct (fresh_allow_spec texts eos width Htexts g F HF H3 m bs Hm Hne) as (al & m' & -> & _). done.
Qed.

(** *** Operations *)

Lemma serving_mask F c g bs :
  serving c g bs -> (width <= length texts)%nat -> Gate.active (Gc.preamble c) = false ->
  (forall r, Gc.apply_mask F false c (replicate width true) = Some r ->
     exists c' allow, r = Gc.Masked c' (imap (mask_unlisted false allow width) (replicate width true)) /\
       serving c' g bs /\ list_ok texts eos width g bs allow /\ Gc.preamble c' = Gc.preamble c) /\
  ((expand_fuel (rules_ g) <= F)%nat -> Gc.apply_mask F false c (replicate width true) <> None).
Proof.
  intros Hs Hw Hg. pose proof Hs as [H1 H2 H3 (m & E & _) H5 H6 H7 H8]. destruct (serving_list F c g bs m Hs E) as [Ha Hb].
  unfold Gc.apply_mask. rewrite H1, H8, E, Hg, length_replicate.
  destruct (Gc.allow_for_current_state F c m (Z.of_nat width)) as [[c' allow]|] eqn:El; [|by split; [|intros HF; specialize (Hb HF)]].
  destruct (Ha c' allow eq_refl) as (Hs' & Hlo & Hp). cbn. rewrite (lo_length _ _ _ _ _ _ Hlo), (sv_vocab _ _ _ Hs').
  rewrite (proj2 (Z.ltb_ge _ _)), (proj2 (Z.ltb_ge (Z.of_nat width) _)) by lia. cbn [orb].
  replace (Z.to_nat (Z.min (Z.of_nat width) (Z.of_nat (length texts)))) with width by lia.
  split; [|done]. intros r [= <-]. by exists c', allow.
Qed.

Lemma serving_update F c g bs tok c' ok :
  serving c g bs -> Gc.update F c tok = Some (c', ok) -> exists bs', serving c' g bs'.
Proof.
  intros Hs. pose proof Hs as [H1 H2 H3 (m & E & Hm & Hne & Hc) H5 H6 H7 H8]. unfold Gc.update. rewrite H1. cbn [negb].
  destruct (_ || _) eqn:Er; [intros [= <- <-]; by exists bs|]. apply orb_false_iff in Er as [Hr1%Z.ltb_ge Hr2%Z.leb_gt].
  destruct (Gate.absorb _ _ _) as [p absorbed]. pose proof (serving_preamble c g bs p Hs) as Hs1.
  destruct absorbed; [intros [= <- <-]; by exists bs|]. destruct (existsb _ _); [intros [= <- <-]; by exists bs|].
  cbn [Gc.with_preamble Gc.matcher]. rewrite E. set (text := Gc.token_texts c !!! Z.to_nat tok).
  assert (Ht : Forall byte text).
  { unfold text. rewrite H5 in *. assert (Hl : (Z.to_nat tok < length texts)%nat) by lia.
    apply lookup_lt_is_Some_2 in Hl as [x Hx]. rewrite (list_lookup_total_correct _ _ _ Hx). by apply (Forall_lookup_1 _ _ _ _ Htexts Hx). }
  destruct (update_text_spec g (F + expand_fuel (rules_ g)) ltac:(lia) H3 m bs text Hm Hne Ht) as (ok1 & m1 & E1 & Hm1 & Hne1 & He1 & _).
  destruct (update_text F text m) as [[ok2 m2]|] eqn:E2; [|done]. cbn. intros [= <- <-].
  rewrite (update_text_mono F _ _ _ _ (Nat.le_add_r F _) E2) in E1. injection E1 as -> ->. eexists. by eapply serving_matcher.
Qed.

(** Reading a token of the vocabulary with the gate off. *)
Lemma serving_read F c g bs tok text :
  serving c g bs -> Gate.state (Gc.preamble c) = Gate.OFF -> texts !! tok = Some text -> is_eos_token eos tok = false ->
  (forall c', Gc.update F c (Z.of_nat tok) = Some (c', true) -> serving c' g (bs ++ text) /\ Gc.preamble c' = Gc.preamble c) /\
  ((expand_fuel (rules_ g) <= F)%nat -> completable g (bs ++ text) -> exists c', Gc.update F c (Z.of_nat tok) = Some (c', true)).
Proof.
  intros Hs Hg Ht He. pose proof Hs as [H1 H2 H3 (m & E & Hm & Hne & Hc) H5 H6 H7 H8]. unfold Gc.update. rewrite H1, H5. cbn [negb].
  pose proof (lookup_lt_Some _ _ _ Ht) as Hl. rewrite (proj2 (Z.ltb_ge _ _)), (proj2 (Z.leb_gt _ _)) by lia. cbn [orb].
  rewrite Nat2Z.id, (list_lookup_total_correct _ _ _ Ht). unfold Gate.absorb. rewrite Hg. cbn [Gc.with_preamble Gc.eos_ids Gc.matcher].
  unfold is_eos_token in He. rewrite H7, He, E. pose proof (Forall_lookup_1 _ _ _ _ Htexts Ht) as Hb.
  split.
  - intros c'. destruct (update_text_spec g (F + expand_fuel (rules_ g)) ltac:(lia) H3 m bs text Hm Hne Hb) as (ok1 & m1 & E1 & Hm1 & Hne1 & He1 & _).
    destruct (update_text F text m) as [[ok2 m2]|] eqn:E2; [|done]. cbn. intros [= <- ->].
    rewrite (update_text_mono F _ _ _ _ (Nat.le_add_r F _) E2) in E1. injection E1 as <- <-. split; [|done]. cbn in Hm1. eapply serving_matcher; [by apply serving_preamble|exact E|exact Hm1|exact Hne1|exact He1].
  - intros HF Hcomp. destruct (update_text_spec g F HF H3 m bs text Hm Hne Hb) as (ok1 & m1 & -> & _ & _ & _ & H). rewrite (H Hcomp). cbn. by eexists.
Qed.

Lemma serving_reset F c g bs c' : serving c g bs -> Gc.reset F c = Some c' -> serving c' g [].
Proof.
  intros Hs. pose proof Hs as [H1 H2 H3 (m & E & Hm & Hne & Hc) H5 H6 H7 H8]. unfold Gc.reset. rewrite E. unfold GbnfMatcher.reset.
  pose proof Hm as (Hg & Hwf & w & pend & _ & _ & _ & Hsim). cbn [fst snd] in *. rewrite Hg.
  destruct (start_set_spec (rules_ g) (root_ g) (memo_ m) Hwf) as (m1 & S1 & E1 & Hwf1 & He1 & Hs1 & HA & HB).
  destruct (start_set (rules_ g) (root_ g) F (memo_ m)) as [[m2 S2]|] eqn:E2; [|done]. cbn. intros [= <-].
  apply (start_set_mono _ _ _ (F + expand_fuel (rules_ g))) in E2; [|lia]. apply (start_set_mono _ _ _ (F + expand_fuel (rules_ g))) in E1; [|lia].
  rewrite E1 in E2. injection E2 as <- <-. eapply serving_matcher; [exact Hs|exact E| | |done].
  - split; [done|]. split; [done|]. exists [], []. split_and!; [done|constructor|by constructor|]. split_and!; [done| |].
    + intros s Hin. destruct (HA s Hin) as (k & Hd & Hk). exists k. split; [done|by constructor].
    + intros _ k Hk. apply HB. inversion Hk as [k' ? Ek|u c0 p ps cs k' ? ? ? ? Ek]; [done|by destruct u].
  - cbn. assert (Hlive : exists k, live (rules_ g) (root_ g) [] k).
    { destruct Hsim as (_ & Hl & _). destruct (stacks_ m) as [|s S]; [done|]. destruct (Hl s ltac:(by left)) as (k & _ & Hk).
      clear -Hk. remember w as w0 eqn:Ew. clear Ew. induction Hk as [k Hk|u c p ps cs k _ IH _ _ _]; [by exists k; constructor|done]. }
    destruct Hlive as [k Hk]. assert (Hst : start_stack (rules_ g) (root_ g) k) by (inversion Hk as [k' ? Ek|u c0 p ps cs k' ? ? ? ? Ek]; [done|by destruct u]).
    destruct (HB k Hst) as (s & Hin & _). intros ->. inversion Hin.
Qed.

Lemma serving_init F c0 src alloc c v :
  Forall byte src -> Gc.init F c0 src gpt2 tk (Z.of_nat (length (vocab_ tk))) alloc = Some (c, v) ->
  match v with
  | Gc.Accepted => exists g, grammar_compile src = Compiled g /\ serving c g []
  | _ => Gc.initialized c = false
  end.
Proof.
  intros Hsrc. unfold Gc.init, Gc.init_grammar_only. destruct (compile F src) as [r|] eqn:Ec; [|done]. cbn.
  destruct r as [m|e| |]; cbn; [|by intros [= <- <-]..]. pose proof (compile_ok F src m Hsrc Ec) as (Hok & Hm & Hg).
  assert (Hne : stacks_ m <> []).
  { revert Ec. unfold compile. rewrite Hg. destruct (start_set _ _ _ _) as [[m1 [|s S]]|]; [done| |done]. by intros [= <-]. }
  destruct alloc; intros [= <- <-]; [|done]. exists (grammar_ m). split; [done|].
  assert (Hlen : length texts = length (vocab_ tk)) by by unfold texts; rewrite !length_fmap, length_seq.
  constructor; try done.
  - exists m. by split_and!.
  - cbn. by rewrite Hlen.
Qed.

(** Preparing a grammar makes the constrainer serve it, whatever it served before,
    or leaves it without one, or as it was. *)
Lemma serving_prepare F c0 src topen alloc c v :
  (Gc.initialized c0 = true -> exists g0 bs0, serving c0 g0 bs0) -> Forall byte src ->
  Gc.prepare_grammar F c0 src gpt2 tk topen alloc = Some (c, v) ->
  match v with
  | Gc.Accepted => exists g, grammar_compile src = Compiled g /\ serving c g []
  | _ => c = c0 \/ Gc.initialized c = false
  end.
Proof.
  intros H0 Hsrc. unfold Gc.prepare_grammar. case_bool_decide as Hnil; [intros [= <- <-]; by left|].
  assert (Hfinish : forall c1 g bs, grammar_compile src = Compiled g -> serving c1 g bs ->
    (c2 ← Gc.reset F (if 0 <=? detect_think_close tk then Gc.set_preamble c1 (detect_think_close tk) 8192 topen else c1);
     Some (c2, Gc.Accepted)) = Some (c, v) ->
    match v with Gc.Accepted => exists g, grammar_compile src = Compiled g /\ serving c g [] | _ => c = c0 \/ Gc.initialized c = false end).
  { intros c1 g bs Hg Hs1. assert (Hs2 : serving (if 0 <=? detect_think_close tk then Gc.set_preamble c1 (detect_think_close tk) 8192 topen else c1) g bs)
      by (destruct (0 <=? _); [by apply serving_preamble|done]).
    destruct (Gc.reset F _) as [c2|] eqn:E; [|done]. cbn. intros [= <- <-]. exists g. split; [done|]. by eapply serving_reset. }
  destruct (Gc.initialized c0 && bool_decide (Gc.source c0 = src)) eqn:Er; cbn [mbind option_bind].
  - apply andb_true_iff in Er as [Ei Es%bool_decide_eq_true]. destruct (H0 Ei) as (g0 & bs0 & Hs0). apply (Hfinish c0 g0 bs0); [|done].
    rewrite <- Es. apply Hs0.
  - destruct (Gc.init F c0 src gpt2 tk _ alloc) as [[c1 v1]|] eqn:E1; [|done]. apply serving_init in E1; [|done]. cbn.
    destruct v1; [destruct E1 as (g & Hg & Hs); by apply (Hfinish c1 g [])|intros [= <- <-]; by right..].
Qed.

(** ** Replies *)

(** The constrainers of a pool: whatever grammars they served, masked steps and
    tokens they went through, and resets. *)
Inductive pooled (F : nat) : Gc.t -> Prop :=
  | pooled_new : pooled F Gc.new
  | pooled_prepare c src topen alloc c' v :
      pooled F c -> Forall byte src -> Gc.prepare_grammar F c src gpt2 tk topen alloc = Some (c', v) -> pooled F c'
  | pooled_mask c c' logits : pooled F c -> Gc.apply_mask F false c (replicate width true) = Some (Gc.Masked c' logits) -> pooled F c'
  | pooled_update c tok c' ok : pooled F c -> Gc.update F c tok = Some (c', ok) -> pooled F c'
  | pooled_reset c c' : pooled F c -> Gc.reset F c = Some c' -> pooled F c'.

Lemma pooled_serving F c :
  (width <= length texts)%nat -> pooled F c -> Gc.initialized c = true -> exists g bs, serving c g bs.
Proof.
  intros Hw. induction 1 as [|c src topen alloc c' v _ IH Hs E|c c' logits _ IH E|c tok c' ok _ IH E|c c' _ IH E]; intros Hi; [done|..].
  - pose proof (serving_prepare F c src topen alloc c' v IH Hs E) as H. destruct v.
    + destruct H as (g & _ & H). by exists g, [].
    + destruct H as [-> |H]; [by apply IH|congruence].
    + destruct H as [-> |H]; [by apply IH|congruence].
  - destruct (Gc.initialized c) eqn:Ei.
    + destruct (IH eq_refl) as (g & bs & Hs). exists g, bs. destruct (Gate.active (Gc.preamble c)) eqn:Ea.
      * pose proof Hs as [H1 _ _ (m & Em & _) _ _ _ H8]. unfold Gc.apply_mask in E. rewrite H1, H8, Em, Ea in E. by injection E as <- _.
      * destruct (serving_mask F c g bs Hs Hw Ea) as [H _]. destruct (H _ E) as (c1 & allow & Hr & H1 & _). by injection Hr as <- _.
    + unfold Gc.apply_mask in E. rewrite Ei in E. injection E as <- _. congruence.
  - destruct (Gc.initialized c) eqn:Ei.
    + destruct (IH eq_refl) as (g & bs & Hs). destruct (serving_update F c g bs tok c' ok Hs E) as [bs' H]. by exists g, bs'.
    + unfold Gc.update in E. rewrite Ei in E. injection E as <- _. congruence.
  - destruct (Gc.initialized c) eqn:Ei.
    + destruct (IH eq_refl) as (g & bs & Hs). exists g, []. by eapply serving_reset.
    + unfold Gc.reset in E. destruct (Gc.matcher c); [|injection E as <-; congruence].
      destruct (GbnfMatcher.reset F g); [|done]. cbn in E. injection E as <-. cbn in Hi. congruence.
Qed.

(** The preamble of a reply: decode steps whose tokens the gate kept from the
    matcher. *)
Inductive prefaced (F : nat) : Gc.t -> list nat -> Gc.t -> Prop :=
  | pre_nil c : prefaced F c [] c
  | pre_token c b logits tok toks c1 ok c' :
      Gc.apply_mask F false c (replicate width true) = Some (Gc.Masked b logits) -> logits !! tok = Some true ->
      (Gate.absorb (Gc.preamble b) (Z.of_nat tok) (Gc.token_texts b !!! tok)).2 = true ->
      Gc.update F b (Z.of_nat tok) = Some (c1, ok) -> prefaced F c1 toks c' -> prefaced F c (tok :: toks) c'.

(** Tokens the mask permitted one after the other, none of them EOS, each taken
    by the matcher. *)
Inductive generates (F : nat) : Gc.t -> list nat -> Gc.t -> Prop :=
  | gen_nil c : generates F c [] c
  | gen_token c b logits tok toks c1 c' :
      Gc.apply_mask F false c (replicate width true) = Some (Gc.Masked b logits) -> logits !! tok = Some true -> is_eos_token eos tok = false ->
      Gc.update F b (Z.of_nat tok) = Some (c1, true) -> generates F c1 toks c' -> generates F c (tok :: toks) c'.

Definition reply_text (toks : list nat) : bytes := concat ((fun i => texts !!! i) <$> toks).

Definition permitted (F : nat) (c : Gc.t) (tok : nat) : Prop :=
  exists c' logits, Gc.apply_mask F false c (replicate width true) = Some (Gc.Masked c' logits) /\ logits !! tok = Some true.

Lemma gate_off_inactive p : Gate.state p = Gate.OFF -> Gate.active p = false.
Proof. unfold Gate.active. by intros ->. Qed.

(** The preamble changes the gate only. *)
Lemma prefaced_serving F c toks c' g bs :
  (width <= length texts)%nat -> prefaced F c toks c' -> serving c g bs -> serving c' g bs.
Proof.
  intros Hw H. induction H as [c|c b logits tok toks c1 ok c' Ea Hl Hab Eu _ IH]; intros Hs; [done|]. apply IH.
  assert (b = c) as ->.
  { destruct (Gate.active (Gc.preamble c)) eqn:Eg.
    - pose proof Hs as [H1 _ _ (m & Em & _) _ _ _ H8]. unfold Gc.apply_mask in Ea. rewrite H1, H8, Em, Eg in Ea. by injection Ea.
    - destruct (proj1 (serving_mask F c g bs Hs Hw Eg) _ Ea) as (b' & allow & Hr & _ & _ & Hp). injection Hr as <- ->.
      apply Gate.absorb_active_gate in Hab. congruence. }
  unfold Gc.update in Eu. rewrite (sv_initialized _ _ _ Hs) in Eu. cbn [negb] in Eu.
  destruct (_ || _); [by injection Eu as <- _|]. rewrite Nat2Z.id in Eu.
  destruct (Gate.absorb _ _ _) as [p absorbed]. cbn [snd] in Hab. subst absorbed. injection Eu as <- _. by apply serving_preamble.
Qed.

Lemma generates_serving F c toks c' g bs :
  (width <= length texts)%nat -> generates F c toks c' -> serving c g bs -> Gate.state (Gc.preamble c) = Gate.OFF ->
  serving c' g (bs ++ reply_text toks) /\ Gate.state (Gc.preamble c') = Gate.OFF.
Proof.
  intros Hw H. revert bs. induction H as [c|c b logits tok toks c1 c' Ea Hl He Eu _ IH]; intros bs Hs Hg.
  { unfold reply_text. cbn. by rewrite app_nil_r. }
  destruct (proj1 (serving_mask F c g bs Hs Hw (gate_off_inactive _ Hg)) _ Ea) as (b' & allow & Hr & Hs1 & _ & Hp).
  injection Hr as <- ->. apply mask_row_kept in Hl as (Hlt & _ & _).
  destruct (lookup_lt_is_Some_2 texts tok ltac:(lia)) as [text Ht]. rewrite <- Hp in Hg.
  destruct (proj1 (serving_read F b g bs tok text Hs1 Hg Ht He) _ Eu) as [Hs2 Hp2]. rewrite <- Hp2 in Hg.
  destruct (IH _ Hs2 Hg) as [H1 H2]. split; [|done]. unfold reply_text in *. cbn [fmap list_fmap concat].
  by rewrite (list_lookup_total_correct _ _ _ Ht), app_assoc.
Qed.

End Serving.

(** ** The guarantees *)

Definition vocabulary (gpt2 : bool) (tk : Tokenizer) : list bytes := decode_token gpt2 tk <$> (Z.of_nat <$> seq 0 (length (vocab_ tk))).

Lemma vocabulary_length gpt2 tk : length (vocabulary gpt2 tk) = length (vocab_ tk).
Proof. unfold vocabulary. by rewrite !length_fmap, length_seq. Qed.

(** What a pooled constrainer is at the end of a reply. *)
Lemma prepared_reply gpt2 tk width F c0 src topen alloc c g pre c1 toks c' :
  Forall (Forall byte) (vocabulary gpt2 tk) -> (width <= length (vocab_ tk))%nat -> pooled gpt2 tk width F c0 -> Forall byte src ->
  Gc.prepare_grammar F c0 src gpt2 tk topen alloc = Some (c, Gc.Accepted) -> grammar_compile src = Compiled g ->
  prefaced width F c pre c1 -> Gate.state (Gc.preamble c1) = Gate.OFF -> generates tk width F c1 toks c' ->
  (width <= length (vocabulary gpt2 tk))%nat /\ serving gpt2 tk width c' g (reply_text gpt2 tk toks) /\
  Gate.state (Gc.preamble c') = Gate.OFF.
Proof.
  intros Ht Hw Hp Hs E Eg Hpre Hg Hgen. rewrite <- (vocabulary_length gpt2) in Hw. split; [done|].
  destruct (serving_prepare gpt2 tk width F c0 src topen alloc c _ (pooled_serving gpt2 tk width Ht F c0 Hw Hp) Hs E) as (g' & Eg' & Hsv).
  rewrite Eg in Eg'. injection Eg' as <-. apply (prefaced_serving gpt2 tk width Ht F c pre c1 g [] Hw Hpre) in Hsv.
  by apply (generates_serving gpt2 tk width Ht F c1 toks c' g [] Hw Hgen Hsv Hg).
Qed.

(** C22: a grammar masks nothing that leads on to a sentence, however the pooled
    constrainer was used before and whatever its cache holds, where the logits
    are no wider than the vocabulary.  The reply is counted from where the
    preamble gate is off: at once, or after a preamble of any tokens the gate
    absorbed.  After a reply of permitted tokens, a token whose text continues
    the reply towards a sentence within the depth and size guards is permitted
    and then taken by the matcher, also when it ends inside a character; and once
    the reply is such a sentence, EOS is permitted.  With the stated fuel both
    steps return. *)
Theorem grammar_mask_complete gpt2 tk width F c0 src topen alloc c g pre c1 toks c' tok text :
  Forall (Forall byte) (vocabulary gpt2 tk) -> (width <= length (vocab_ tk))%nat -> pooled gpt2 tk width F c0 -> Forall byte src ->
  Gc.prepare_grammar F c0 src gpt2 tk topen alloc = Some (c, Gc.Accepted) -> grammar_compile src = Compiled g ->
  prefaced width F c pre c1 -> Gate.state (Gc.preamble c1) = Gate.OFF -> generates tk width F c1 toks c' ->
  (tok < width)%nat -> vocabulary gpt2 tk !! tok = Some text ->
  forall F', (expand_fuel (rules_ g) <= F')%nat ->
  (is_eos_token (eos_ids_ tk) tok = false -> text <> [] -> completable g (reply_text gpt2 tk toks ++ text) ->
     exists b logits c2, Gc.apply_mask F' false c' (replicate width true) = Some (Gc.Masked b logits) /\ logits !! tok = Some true /\
       Gc.update F' b (Z.of_nat tok) = Some (c2, true)) /\
  (is_eos_token (eos_ids_ tk) tok = true -> sentence_within g (reply_text gpt2 tk toks) -> permitted width F' c' tok).
Proof.
  intros Ht Hw Hp Hs E Eg Hpre Hg Hgen Hlt Htx F' HF.
  destruct (prepared_reply _ _ _ _ _ _ _ _ _ _ _ _ _ _ Ht Hw Hp Hs E Eg Hpre Hg Hgen) as (Hw' & Hsv & Hg').
  destruct (serving_mask gpt2 tk width Ht F' c' g _ Hsv Hw' (gate_off_inactive _ Hg')) as [Ha Hb].
  destruct (Gc.apply_mask F' false c' (replicate width true)) as [r|] eqn:Em; [|by specialize (Hb HF)].
  destruct (Ha r eq_refl) as (b & allow & -> & Hsb & Hlo & Hpb). rewrite <- Hpb in Hg'. split.
  - intros He Hne Hc. destruct (proj2 (serving_read gpt2 tk width Ht F' b g _ tok text Hsb Hg' Htx He) HF Hc) as [c2 Eu].
    eexists b, _, c2. split_and!; [done| |done]. apply mask_row_kept. split_and!; [done..|]. by eapply lo_complete.
  - intros He Hsen. eexists b, _. split; [exact Em|]. apply mask_row_kept. split_and!; [done..|]. by eapply lo_end.
Qed.

(** C23: what the mask permits stays in the grammar, where the logits are no
    wider than the vocabulary and the reply is counted from where the preamble
    gate is off: at once, or after a preamble of any tokens the gate absorbed
    (while it is active nothing is masked).  After a reply of permitted tokens, a
    permitted token that is not EOS has text and the reply with it begins in the
    grammar; and when EOS is permitted the reply is the UTF-8 spelling of a
    sentence, unless the EOS token's own text was read as text that begins there
    too, or no token of the vocabulary leads on to a sentence. *)
Theorem grammar_reply_derived gpt2 tk width F c0 src topen alloc c g pre c1 toks c' tok text :
  Forall (Forall byte) (vocabulary gpt2 tk) -> (width <= length (vocab_ tk))%nat -> pooled gpt2 tk width F c0 -> Forall byte src ->
  Gc.prepare_grammar F c0 src gpt2 tk topen alloc = Some (c, Gc.Accepted) -> grammar_compile src = Compiled g ->
  prefaced width F c pre c1 -> Gate.state (Gc.preamble c1) = Gate.OFF -> generates tk width F c1 toks c' ->
  permitted width F c' tok -> vocabulary gpt2 tk !! tok = Some text ->
  (is_eos_token (eos_ids_ tk) tok = false /\ text <> [] /\ begun g (reply_text gpt2 tk toks ++ text)) \/
  (is_eos_token (eos_ids_ tk) tok = true /\
   (sentence g (reply_text gpt2 tk toks) \/ (text <> [] /\ begun g (reply_text gpt2 tk toks ++ text)) \/
    stuck (vocabulary gpt2 tk) width g (reply_text gpt2 tk toks))).
Proof.
  intros Ht Hw Hp Hs E Eg Hpre Hg Hgen (b & logits & Em & Hl) Htx.
  destruct (prepared_reply _ _ _ _ _ _ _ _ _ _ _ _ _ _ Ht Hw Hp Hs E Eg Hpre Hg Hgen) as (Hw' & Hsv & Hg').
  destruct (serving_mask gpt2 tk width Ht F c' g _ Hsv Hw' (gate_off_inactive _ Hg')) as [Ha _].
  destruct (Ha _ Em) as (b' & allow & Er & _ & Hlo & _). injection Er as _ ->. apply mask_row_kept in Hl as (H1 & _ & H3).
  destruct (is_eos_token (eos_ids_ tk) tok) eqn:He; [right|left]; (split; [done|]).
  - by apply (lo_eos _ _ _ _ _ _ Hlo tok).
  - by apply (lo_sound _ _ _ _ _ _ Hlo tok).
Qed.

(** Where the logits are wider than the vocabulary the copy overruns the device
    list, as in regex mode. *)
Lemma grammar_padded_overrun gpt2 tk width F c0 src topen c r :
  Gc.initialized c0 = false -> Gc.prepare_grammar F c0 src gpt2 tk topen true = Some (c, Gc.Accepted) -> Gate.state (Gc.preamble c) = Gate.OFF ->
  (length (vocab_ tk) < width)%nat -> Gc.apply_mask F false c (replicate width true) = Some r -> r = Gc.Overrun.
Proof.
  intros Hi Hp Hg Hw. assert (Hd : exists m, Gc.initialized c = true /\ Gc.dev_allow c = Some (Z.of_nat (length (vocab_ tk))) /\ Gc.matcher c = Some m).
  { revert Hp. unfold Gc.prepare_grammar. case_bool_decide; [done|]. rewrite Hi. cbn [andb]. unfold Gc.init, Gc.init_grammar_only.
    destruct (compile F src) as [[m| | |]|]; try done. cbn. destruct (0 <=? _); unfold Gc.reset; cbn;
      (destruct (GbnfMatcher.reset F m) as [m'|]; [|done]); cbn; intros [= <-]; by exists m'. }
  destruct Hd as (m & H1 & H2 & H3). unfold Gc.apply_mask. rewrite H1, H2, H3, (gate_off_inactive _ Hg), length_replicate.
  destruct (Gc.allow_for_current_state _ _ _ _) as [[c' allow]|]; [|done]. cbn. rewrite (proj2 (Z.ltb_lt _ _)) by lia. by intros [= <-].
Qed.

(** ** A sample *)

(** Byte tokens, an EOS token, a token of two letters and one of a character and
    a half. *)
Definition grammar_tokenizer : Tokenizer :=
  MkTokenizer ((byte_token <$> (Z.of_nat <$> seq 0 256)) ++ [src_of "</s>"; src_of "aa"; [97; 195]]) [] ∅ 1 [256] ∅ [] [] "default"%string true.

(** A constrainer that served another grammar before. *)
Definition other_grammar : list Z := src_of "root ::= [0-9] | [0-9] root".
Definition sample_prepare (c : Gc.t) (src : list Z) : Gc.t :=
  match Gc.prepare_grammar 1000 c src false grammar_tokenizer false true with Some (c, _) => c | None => c end.
Definition sample_used : Gc.t := sample_prepare Gc.new other_grammar.
Definition sample_grammar : Gc.t := sample_prepare sample_used demo_src.

(** The decode loop as a function. *)
Fixpoint run_reply (tk : Tokenizer) (width F : nat) (c : Gc.t) (toks : list nat) : option Gc.t :=
  match toks with
  | [] => Some c
  | tok :: rest =>
      match Gc.apply_mask F false c (replicate width true) with
      | Some (Gc.Masked b logits) =>
          if bool_decide (logits !! tok = Some true) && negb (is_eos_token (eos_ids_ tk) tok) then
            match Gc.update F b (Z.of_nat tok) with Some (c1, true) => run_reply tk width F c1 rest | _ => None end
          else None
      | _ => None
      end
  end.

Lemma grammar_run_generates tk width F c toks c' : run_reply tk width F c toks = Some c' -> generates tk width F c toks c'.
Proof.
  revert c. induction toks as [|tok toks IH]; intros c; cbn [run_reply]; [intros [= <-]; constructor|].
  destruct (Gc.apply_mask _ _ _ _) as [[|b logits]|] eqn:E; [done| |done]. case_bool_decide as Hl; [|done]. cbn [andb].
  destruct (is_eos_token _ tok) eqn:He; [done|]. cbn [negb]. destruct (Gc.update F b (Z.of_nat tok)) as [[c1 []]|] eqn:Eu; [|done..].
  intros H. by apply (gen_token _ _ _ _ b logits tok _ c1); auto.
Qed.

(** The preamble as a function. *)
Fixpoint run_preamble (width F : nat) (c : Gc.t) (toks : list nat) : option Gc.t :=
  match toks with
  | [] => Some c
  | tok :: rest =>
      match Gc.apply_mask F false c (replicate width true) with
      | Some (Gc.Masked b logits) =>
          if bool_decide (logits !! tok = Some true) &&
             (Gate.absorb (Gc.preamble b) (Z.of_nat tok) (Gc.token_texts b !!! tok)).2 then
            match Gc.update F b (Z.of_nat tok) with Some (c1, _) => run_preamble width F c1 rest | None => None end
          else None
      | _ => None
      end
  end.

Lemma run_preamble_prefaced width F c toks c' : run_preamble width F c toks = Some c' -> prefaced width F c toks c'.
Proof.
  revert c. induction toks as [|tok toks IH]; intros c; cbn [run_preamble]; [intros [= <-]; constructor|].
  destruct (Gc.apply_mask _ _ _ _) as [[|b logits]|] eqn:E; [done| |done]. case_bool_decide as Hl; [|done]. cbn [andb].
  destruct (Gate.absorb _ _ _).2 eqn:Hab; [|done]. destruct (Gc.update F b (Z.of_nat tok)) as [[c1 ok]|] eqn:Eu; [|done].
  intros H. by apply (pre_token _ _ _ b logits tok _ c1 ok); auto.
Qed.

(** [a], then [a] with the first byte of the accented letter. *)
Definition sample_toks : list nat := [97; 258]%nat.
Definition sample_after : Gc.t := default Gc.new (run_reply grammar_tokenizer 259 1000 sample_grammar sample_toks).

Example sample_runs :
  match run_reply grammar_tokenizer 259 1000 sample_grammar [97; 258; 169; 98; 98]%nat with
  | Some c => Gc.is_done c
  | None => false
  end = true.
Proof. by vm_compute. Qed.

Lemma sample_pooled : pooled false grammar_tokenizer 259 1000 sample_used.
Proof.
  assert (H : match Gc.prepare_grammar 1000 Gc.new other_grammar false grammar_tokenizer false true with Some _ => true | None => false end = true) by by vm_compute.
  unfold sample_used, sample_prepare. destruct (Gc.prepare_grammar _ _ _ _ _ _ _) as [[c v]|] eqn:E; [|done].
  eapply pooled_prepare; [apply pooled_new| |exact E]. by apply bytes_b_ok; vm_compute.
Qed.

Lemma sample_grammar_prepared : Gc.prepare_grammar 1000 sample_used demo_src false grammar_tokenizer false true = Some (sample_grammar, Gc.Accepted).
Proof. by vm_compute. Qed.

Lemma sample_vocabulary_bytes : Forall (Forall byte) (vocabulary false grammar_tokenizer).
Proof.
  assert (H : forallb bytes_b (vocabulary false grammar_tokenizer) = true) by by vm_compute.
  apply Forall_forall. intros t Ht%list_elem_of_In. apply bytes_b_ok. rewrite forallb_forall in H. by apply H.
Qed.

Lemma sample_grammar_generates toks :
  match run_reply grammar_tokenizer 259 1000 sample_grammar toks with Some _ => true | None => false end = true ->
  generates grammar_tokenizer 259 1000 sample_grammar toks (default Gc.new (run_reply grammar_tokenizer 259 1000 sample_grammar toks)).
Proof. intros H. apply grammar_run_generates. by destruct (run_reply _ _ _ _ _). Qed.

Lemma sample_completable : completable (grammar_ demo_matcher) (src_of "aa" ++ [195] ++ [169]).
Proof.
  exists demo_word, (src_of "bb"). split_and!.
  - by vm_compute.
  - unfold demo_word, codepoint, kMaxCodepoint. repeat constructor; lia.
  - exact demo_root_fits.
  - by apply (small_word_bounded 1000); vm_compute.
Qed.

Lemma grammar_mask_complete_witness :
  exists b logits c2, Gc.apply_mask (expand_fuel (rules_ (grammar_ demo_matcher))) false sample_after (replicate 259 true) = Some (Gc.Masked b logits) /\ logits !! 169%nat = Some true /\
    Gc.update (expand_fuel (rules_ (grammar_ demo_matcher))) b (Z.of_nat 169) = Some (c2, true).
Proof.
  apply (grammar_mask_complete false grammar_tokenizer 259 1000 sample_used demo_src false true sample_grammar (grammar_ demo_matcher)
    [] sample_grammar sample_toks sample_after 169 [169]); [exact sample_vocabulary_bytes|by vm_compute; lia|exact sample_pooled|by apply bytes_b_ok; vm_compute
    |exact sample_grammar_prepared|by vm_compute|apply pre_nil|by vm_compute|by apply sample_grammar_generates; vm_compute|lia|by vm_compute|apply le_n|by vm_compute|done|].
  replace (reply_text false grammar_tokenizer sample_toks ++ [169]) with (src_of "aa" ++ [195] ++ [169]) by by vm_compute.
  exact sample_completable.
Defined.

(** The same vocabulary with the markers of a thinking block, which the template
    left open: the reply starts after [x</think>]. *)
Definition think_tokenizer : Tokenizer :=
  MkTokenizer (vocab_ grammar_tokenizer ++ [src_of "<think>"; src_of "</think>"]) []
    {[src_of "<think>" := 259; src_of "</think>" := 260]} 1 [256] ∅ [] [] "default"%string true.
Definition think_prepared : Gc.t :=
  match Gc.prepare_grammar 1000 Gc.new demo_src false think_tokenizer true true with Some (c, _) => c | None => Gc.new end.
Definition think_preamble : list nat := [120; 260]%nat.
Definition think_closed : Gc.t := default Gc.new (run_preamble 261 1000 think_prepared think_preamble).
Definition think_reply : list nat := [97; 258; 169; 98; 98]%nat.
Definition think_end : Gc.t := default Gc.new (run_reply think_tokenizer 261 1000 think_closed think_reply).

Lemma think_prepares : Gc.prepare_grammar 1000 Gc.new demo_src false think_tokenizer true true = Some (think_prepared, Gc.Accepted).
Proof. by vm_compute. Qed.

Lemma think_prefaced : Gate.active (Gc.preamble think_prepared) = true /\ prefaced 261 1000 think_prepared think_preamble think_closed.
Proof.
  split; [by vm_compute|]. apply run_preamble_prefaced.
  assert (H : match run_preamble 261 1000 think_prepared think_preamble with Some _ => true | None => false end = true) by by vm_compute.
  unfold think_closed. by destruct (run_preamble _ _ _ _).
Qed.

Lemma think_generates : generates think_tokenizer 261 1000 think_closed think_reply think_end.
Proof.
  apply grammar_run_generates.
  assert (H : match run_reply think_tokenizer 261 1000 think_closed think_reply with Some _ => true | None => false end = true) by by vm_compute.
  unfold think_end. by destruct (run_reply _ _ _ _ _).
Qed.

Lemma think_vocabulary_bytes : Forall (Forall byte) (vocabulary false think_tokenizer).
Proof.
  assert (H : forallb bytes_b (vocabulary false think_tokenizer) = true) by by vm_compute.
  apply Forall_forall. intros t Ht%list_elem_of_In. apply bytes_b_ok. rewrite forallb_forall in H. by apply H.
Qed.

Lemma think_end_permits : permitted 261 1000 think_end 256.
Proof.
  assert (H : match Gc.apply_mask 1000 false think_end (replicate 261 true) with
              | Some (Gc.Masked _ logits) => bool_decide (logits !! 256%nat = Some true) | _ => false end = true) by by vm_compute.
  unfold permitted. destruct (Gc.apply_mask _ _ _ _) as [[|b logits]|]; [done| |done]. exists b, logits. split; [done|].
  by apply bool_decide_eq_true in H.
Qed.

Lemma grammar_reply_derived_witness :
  let reply := reply_text false think_tokenizer think_reply in
  reply = encode_all demo_word /\
  ((is_eos_token [256] 256 = false /\ src_of "</s>" <> [] /\ begun (grammar_ demo_matcher) (reply ++ src_of "</s>")) \/
   (is_eos_token [256] 256 = true /\
    (sentence (grammar_ demo_matcher) reply \/ (src_of "</s>" <> [] /\ begun (grammar_ demo_matcher) (reply ++ src_of "</s>")) \/
     stuck (vocabulary false think_tokenizer) 261 (grammar_ demo_matcher) reply))).
Proof.
  split; [by vm_compute|].
  apply (grammar_reply_derived false think_tokenizer 261 1000 Gc.new demo_src true true think_prepared (grammar_ demo_matcher)
    think_preamble think_closed think_reply think_end 256 (src_of "</s>")); [exact think_vocabulary_bytes|by vm_compute; lia|apply pooled_new
    |by apply bytes_b_ok; vm_compute|exact think_prepares|by vm_compute|exact (proj2 think_prefaced)|by vm_compute|exact think_generates
    |exact think_end_permits|by vm_compute].
Defined.
